(* ===== verification/_CoqProject ===== *)
-Q . S2P
Prelude.v
UpdateAb.v
UpdateAbProofs.v
UpdatePassage.v
UpdateManifeste.v
UpdateKernel.v
UpdateKernelProofs.v
Compagnon.v
CompagnonBits.v
CompagnonProofs.v
CompagnonTrace.v
PagesTas.v
Vma.v
VmaProofs.v
FramesLibres.v
Frames.v
Tables.v
TablesArbre.v
TablesProofs.v
TablesTrace.v
MemLinux.v
MemLinuxProofs.v
MemPartages.v
MemAppels.v
Ramfs.v
RamfsProofs.v
RamfsOps.v
Renommage.v
RamfsAppels.v
RamfsChemins.v
RamfsVue.v
RamfsApplique.v
RamfsAppelsProofs.v
RamfsTrace.v
RamfsShell.v
Bloc.v
Persistance.v
PersistanceProofs.v
PersistanceSurete.v
PersistanceCas.v
CacheJetable.v
EcritureDifferee.v
Collecte.v
CollecteProofs.v
Depot.v
Durabilite.v
Profils.v
Politique.v
PolitiqueProofs.v
Descripteurs.v
Porte.v
Confinement.v
RunQueue.v
RunQueueProofs.v
RunQueueFile.v
RunQueueConc.v
CycleVie.v
FileAttente.v
FileAttenteProofs.v
MotAttente.v
OrdreVerrous.v
Echeances.v
Capacites.v
CapacitesProofs.v
Natif.v
NatifProofs.v
NatifSurete.v
Retransmission.v
Inflate.v
InflateProofs.v
InflateCanon.v
GrandsEntiers.v
Hachage.v
Rsa.v
Chiffrement.v
Courbes.v
X25519.v
Certificats.v
Poignee.v
