(* ===== verification/Prelude.v ===== *)
(** * Verification of the core of Bouchaud OS

    Bouchaud OS is a kernel for x86-64 machines, written in Rust, with its own boot and
    update chain, a RAM file system with a persistent zone on disk, a Linux-compatible system
    call layer, a native capability layer, a security policy for its processes, and a TLS
    client. This library models the parts that carry its core logic as executable definitions
    and proves what makes them correct. Paths of sources below are relative to the root of
    the repository.

    ** How the system is put together

    The UEFI loader reads the A/B record, chooses a slot, counts the attempt and hands over to
    the kernel, which confirms a healthy boot and installs the next image. The kernel gives
    frames to page tables and to its heap; the memory calls of a process change its areas,
    its page tables and the reference counts of shared files. Tasks park on wait queues and
    wait words, are woken by deadlines, are condemned by killers and are elected from per-CPU
    queues; locks have ranks. Files live in a table of inodes, reached through descriptors;
    the part of the tree under /persist is noted when it changes and written to a zone with
    two half zones and two superblocks. Every path a process names is judged by the policy of
    its profile, in two places: the process state (authority words, sweeps, identity) and the
    gate in front of the Linux calls. Native processes hold handles and exchange them over
    channels. TCP keeps what it sent until it is acknowledged; TLS runs over it, and HTTP
    bodies are decompressed.

    ** Files and sources

    - [Prelude]: words, bytes, the error-state monad [M] with its weakest precondition [wp],
      tactics and hint databases.
    - Updates. [UpdateAb] (system/update-core/src/ab.rs), [UpdatePassage] (passage.rs,
      echecs.rs and the loader's ab.rs), [UpdateManifeste] (manifeste.rs), [UpdateKernel]
      (src/kernel/update/mod.rs, over one flat device with the partitions of the slots);
      proofs in [UpdateAbProofs] and [UpdateKernelProofs], and in the two others themselves.
    - Memory. [Compagnon*] (src/kernel/memory/compagnon.rs), [PagesTas] (pages_tas.rs),
      [Vma*] (vma.rs), [FramesLibres] (frames_libres.rs), [Frames] and [Tables*]
      (virtual.rs), [MemLinux*], [MemPartages], [MemAppels] (src/compat/linux/mem.rs with the
      counts of src/kernel/memory/shared.rs).
    - File system. [Ramfs] (src/fs/ramfs.rs, the registry of src/fs/backing.rs,
      src/kernel/security/path.rs), [Renommage] (src/fs/renommage.rs), [RamfsAppels]
      (src/compat/linux/file.rs), [RamfsShell] (src/shell/commands.rs); the tree and its
      proofs in the other [Ramfs*] files; [Descripteurs] (the descriptor calls of file.rs).
    - Disk. [Bloc] (src/drivers/api/bloc.rs), [Persistance*] (src/fs/persistance.rs and its
      directory), [CacheJetable] (src/fs/cache_jetable.rs), [EcritureDifferee]
      (src/fs/ecriture_differee.rs and its policy). [Collecte*] and [Depot] join the file
      system and the zone (src/fs/persistance/collecte.rs, snapshot.rs, sync.rs, montage.rs);
      [Durabilite] is their end-to-end theorem.
    - Security (src/kernel/security/). [Profils] (profile.rs, capability.rs, credentials.rs,
      access.rs, chemins.rs), [Politique*] (policy.rs, sandbox.rs: the authority of processes
      along fork, exec, sweep and identity changes), [Porte] (the gate of the Linux calls:
      filesystem.rs, execution.rs, memory.rs, network.rs, syscall.rs), [Confinement] (what a
      confined process sees and changes of the tree of paths).
    - Scheduling. [RunQueue*] (src/kernel/scheduler/runqueue.rs), [CycleVie] (cycle_vie.rs
      and src/kernel/process/thread/), [Echeances] (echeances.rs).
    - Synchronisation (src/kernel/sync/). [FileAttente*] (wait queues and the sleeping mutex),
      [MotAttente] (wait words and their registry), [OrdreVerrous] (lockdep and ranked locks).
    - Native layer. [Capacites*], [Natif*] (src/kernel/native/).
    - Network. [Retransmission] (src/net/transport/retransmission.rs); [Inflate*]
      (src/net/encoding/inflate.rs); TLS (src/net/security/tls/): [GrandsEntiers]
      (bignum.rs), [Hachage] (sha256.rs, sha512.rs, hash.rs), [Rsa] (rsa.rs), [Chiffrement]
      (chacha.rs, aes.rs, gcm.rs, record.rs), [Courbes] (ec.rs, p256.rs, p384.rs), [X25519]
      (x25519.rs), [Certificats] (asn1.rs, x509.rs, roots.rs, validate.rs), [Poignee]
      (handshake.rs).

    ** How the code is modelled

    A structure is a record, an enumeration an inductive type, a function a definition of the
    same name. A handler runs in the monad [M S E]: it threads the state [S] and stops with
    an error of [E]; [panique] is a failed assertion, an [expect], an index out of range or an
    overflow check, all of which stop the kernel. Where a function has no error of its own,
    as in [Frames], [PagesTas] and the TLS files, such a stop is the result [None]. Machine
    words are integers with the wrap-around written where the code wraps; where it does not,
    the overflow check is a stop or the bound is part of an invariant. What a component asks
    of code outside the model (user copies, the clock, the signature checks of an update) is a
    field of a record or a section variable, and theorems hold for every value of it. The file
    calls take the security policy as a record; [Porte] and [Confinement] instantiate it with
    the policy of the kernel. Lock-free code ([RunQueueConc], [CycleVie], [Echeances]), the
    wait queues and words ([FileAttente], [MotAttente], with generations below 2^64), the locks
    ([OrdreVerrous]) and the unmapping protocol ([TablesTrace]) are step relations with one
    step per atomic access; handlers that run under one lock are atomic.

    A disk ([Bloc]) keeps a cache apart from the platter. A request may be refused, shortened,
    cut, or fail in an error that hides blocks the device accepted, and a flush may fail. After
    a power loss any sector with a write accepted since the last successful flush may hold
    anything.

    ** What the theorems show

    - Updates: a cut write of the record leaves the old or the new one; a boot never starts
      an empty or failed slot; attempts are bounded; no byte outside the partition of a slot
      out of service is written; a candidate is what was signed as long as verification calls
      ask for the signed length; manifests are canonical and round trip.
    - Memory: served blocks are disjoint and intact; each frame has one owner; the areas
      refine a map of promises and the tables a map of entries; a frame given back is
      reachable through no entry and no cached translation; W^X and exact reference counts
      hold along every sequence of calls; [munmap] gives each frame back after the
      invalidation of the other processors, and [mmap] takes only free ranges.
    - File system: the inode table stays a tree through every sequence of the modelled calls;
      creations, removals and renames change exactly the paths they should; printed
      paths resolve back; normalised paths reach the node the resolver reaches.
    - Disk: the zone behaves as a cell holding one snapshot under every power loss, as long as
      the flushes the protocol rests on are not dropped; a failed flush makes the cell fragile and the
      theorems say what may then be lost; from the tree of files to the platter and back, the
      persistent zone is a cell holding one tree; what changed waits a bounded time before it
      is written, and writes are spaced.
    - Security: the authority of a family of processes only shrinks; a renderer process gains
      nothing through the gate, whatever path it names; a confined process changes and reads
      nothing outside its places.
    - Scheduling and synchronisation: no insertion is lost, no task starves, a condemned task
      does not stay asleep, a deadline is not missed, the sleeping mutex excludes and loses no
      sleeper, a general wake-up reaches everyone, a wait word is shared by all its users, and
      an order of ranks excludes deadlock, under every interleaving.
    - Native layer: rights never exceed those given at creation, stale handles are refused,
      receptions are atomic.
    - Network: a segment is kept until acknowledged; decompression answers on every input
      within its bounds and gives back what a compressor of RFC 1951 wrote; hashes, ciphers,
      signatures and X25519 compute what their specification defines; records are read back
      from the stream of octets; a chain is trusted exactly when a path leads to the store; a
      session rests on a Finished under the keys of the exchange.

    Files named [...Cas] and the last section of some others evaluate the situations the code
    does not handle.

    ** Fuel and bounds

    Loops are structural on lists or ranges where the code iterates over them. The others
    take fuel, enough by a lemma: the walk to the root of the inode table ([build_path],
    [sous]) by the depth lemma [RamfsArbre.profondeur], which bounds a path by the number of
    inodes; the merge and split loops of the buddy allocator by the number of orders; the
    search of a hole by the number of areas; the eviction loop by the number of trees; the
    collection of the persistent tree by the same depth lemma; the circular search of a band by
    its number of words; the decoders of compressed data by the number of their bits; the
    readers of DER, of records and of messages by the octets left, each turn taking some.
    Where the code has no bound of its own, running out of fuel is a stop, and theorems of
    totality exclude it.

    ** Not modelled

    Drivers, interrupt entry, context switching and boot assembly are device access. The
    graphical interface, the shell apart from its file commands, the embedded languages and
    WebAssembly are clients of the parts modelled. The signature and digest of an update are
    parameters of that model. Sockets, terminals and pipes, the TCP state machine and the
    application protocols, the brotli decoder, the reading side of a TLS session, the FAT32,
    GPT and tar readers, the page cache of backing files and the ELF loader are not modelled. *)

(** This file: machine words, byte arrays with the slice writes the Rust code uses,
    little-endian integers, bit lemmas, the monad, and the tactics and hint databases the
    component files rely on. *)

From stdpp Require Export base list list_numbers numbers gmap.
From Stdlib Require Export ZArith Lia.

Open Scope Z_scope.

Create HintDb os discriminated.
Create Rewrite HintDb os_len.

(** ** Tactics *)

(** Turns the boolean tests of executable definitions into propositions. *)
Ltac bool_prop :=
  repeat match goal with
  | H : _ && _ = true |- _ => apply andb_true_iff in H as [? ?]
  | H : _ || _ = false |- _ => apply orb_false_iff in H as [? ?]
  | H : negb _ = true |- _ => apply negb_true_iff in H
  | H : negb _ = false |- _ => apply negb_false_iff in H
  | H : (_ <? _) = true |- _ => apply Z.ltb_lt in H
  | H : (_ <? _) = false |- _ => apply Z.ltb_ge in H
  | H : (_ <=? _) = true |- _ => apply Z.leb_le in H
  | H : (_ <=? _) = false |- _ => apply Z.leb_gt in H
  | H : (_ =? _) = true |- _ => apply Z.eqb_eq in H
  | H : (_ =? _) = false |- _ => apply Z.eqb_neq in H
  | H : (_ <? _)%nat = true |- _ => apply Nat.ltb_lt in H
  | H : (_ <? _)%nat = false |- _ => apply Nat.ltb_ge in H
  | H : (_ <=? _)%nat = true |- _ => apply Nat.leb_le in H
  | H : (_ <=? _)%nat = false |- _ => apply Nat.leb_gt in H
  | H : (_ =? _)%nat = true |- _ => apply Nat.eqb_eq in H
  | H : (_ =? _)%nat = false |- _ => apply Nat.eqb_neq in H
  | H : bool_decide _ = true |- _ => apply bool_decide_eq_true in H
  | H : bool_decide _ = false |- _ => apply bool_decide_eq_false in H
  end.

(** Case analysis on the next [if]/[match] of a hypothesis or of the goal. *)
Ltac cas H :=
  match type of H with
  | context [if ?b then _ else _] => destruct b eqn:?
  | context [match ?x with _ => _ end] => destruct x eqn:?
  end; bool_prop; simplify_eq; bool_prop.
Ltac cas_but :=
  match goal with
  | |- context [if ?b then _ else _] => destruct b eqn:?
  | |- context [match ?x with _ => _ end] => destruct x eqn:?
  end; bool_prop; simplify_eq; bool_prop.

(** Case analysis on every integer comparison of the goal, closing what is arithmetic. *)
Ltac zcas :=
  repeat (match goal with
          | |- context [?x <=? ?y] => destruct (Z.leb_spec x y)
          | |- context [?x <? ?y] => destruct (Z.ltb_spec x y)
          | |- context [?x =? ?y] => destruct (Z.eqb_spec x y)
          end; try lia; cbn [andb orb negb]).

(** ** A state and error monad *)

(** A handler reads and changes a state of type [S] and ends with a value or an
    error; an early return keeps the changes made before it. *)
Definition M (S E A : Type) : Type := S -> S * (A + E).

Section Monade.
Context {S E : Type}.
Definition rend {A} (x : A) : M S E A := fun s => (s, inl x).
Definition echoue {A} (e : E) : M S E A := fun s => (s, inr e).
Definition lie {A B} (c : M S E A) (k : A -> M S E B) : M S E B :=
  fun s => match c s with (s', inl x) => k x s' | (s', inr e) => (s', inr e) end.
Definition etat_courant : M S E S := fun s => (s, inl s).
Definition change (f : S -> S) : M S E unit := fun s => (f s, inl tt).
(** [ok_or(e)?] *)
Definition ou_echoue {A} (o : option A) (e : E) : M S E A :=
  match o with Some x => rend x | None => echoue e end.
(** [r.map_err(f)?] *)
Definition essaie {A F} (r : A + F) (f : F -> E) : M S E A :=
  match r with inl x => rend x | inr e => echoue (f e) end.
(** [if b { return Err(e) }] *)
Definition garde (b : bool) (e : E) : M S E unit := if b then echoue e else rend tt.

Lemma lie_cas {A B} (c : M S E A) (k : A -> M S E B) s s' r :
  lie c k s = (s', r) ->
  (exists e, c s = (s', inr e) /\ r = inr e)
  \/ (exists s1 x, c s = (s1, inl x) /\ k x s1 = (s', r)).
Proof. unfold lie. destruct (c s) as [s1 [x|e]]; intros; simplify_eq; eauto. Qed.

Lemma lie_pas {A B} (c : M S E A) (k : A -> M S E B) s s' x :
  c s = (s', inl x) -> lie c k s = k x s'.
Proof. intros H. unfold lie. by rewrite H. Qed.

(** Total correctness of a handler: it ends with a value, and [Q] holds of the state and the
    value it ends with. *)
Definition wp {A} (c : M S E A) (Q : S -> A -> Prop) (s : S) : Prop :=
  match c s with (s', inl x) => Q s' x | (_, inr _) => False end.

Lemma wp_lie {A B} (c : M S E A) (k : A -> M S E B) Q s :
  wp c (fun s' x => wp (k x) Q s') s -> wp (lie c k) Q s.
Proof. unfold wp, lie. by destruct (c s) as [s' [x|e]]. Qed.
Lemma wp_pas {A B} (c : M S E A) (k : A -> M S E B) Q s s' x :
  c s = (s', inl x) -> wp (k x) Q s' -> wp (lie c k) Q s.
Proof. intros H. unfold wp, lie. by rewrite H. Qed.
Lemma wp_mono {A} (c : M S E A) (P Q : S -> A -> Prop) s :
  wp c P s -> (forall s' x, P s' x -> Q s' x) -> wp c Q s.
Proof. unfold wp. destruct (c s) as [s' [x|e]]; [eauto|done]. Qed.
Lemma wp_elim {A} (c : M S E A) Q s :
  wp c Q s -> exists s' x, c s = (s', inl x) /\ Q s' x.
Proof. unfold wp. destruct (c s) as [s' [x|e]]; [eauto|done]. Qed.
Lemma wp_eq {A} (c : M S E A) Q s s' x : c s = (s', inl x) -> wp c Q s -> Q s' x.
Proof. unfold wp. by intros ->. Qed.
End Monade.

(** Symbolic execution of one command whose specification is the given lemma. *)
Tactic Notation "exec" uconstr(H) := apply wp_lie; eapply wp_mono; [apply H|]; cbv beta.

(** One step of a handler: [H] follows the success branch of the first command,
    and the branch of an early return is left first. *)
Tactic Notation "pas" hyp(H) :=
  let Hc := fresh "Hc" in let K := fresh "K" in
  apply lie_cas in H; destruct H as [(? & Hc & ?)|(? & ? & Hc & K)];
  [|rename K into H];
  try (unfold garde, ou_echoue, essaie, etat_courant, change, rend, echoue in Hc;
       repeat cas Hc; simplify_eq).

Declare Scope os_scope.
Notation "x <- c ;; k" := (lie c (fun x => k))
  (at level 100, c at next level, right associativity) : os_scope.
Notation "c ;;; k" := (lie c (fun _ => k))
  (at level 100, right associativity) : os_scope.

(** ** Machine words *)

Definition u8_max : Z := 2 ^ 8.
Definition u32_max : Z := 2 ^ 32.
Definition u64_max : Z := 2 ^ 64.

(** [wrapping_add] on 64-bit words. *)
Definition wrapping_add64 (a b : Z) : Z := (a + b) mod u64_max.

(** An array cell; Rust panics out of range, the callers prove they never are. *)
Definition aget (l : list Z) (i : Z) : Z := default 0 (l !! Z.to_nat i).
Definition aset (l : list Z) (i v : Z) : list Z := <[Z.to_nat i := v]> l.

Lemma length_aset l i v : length (aset l i v) = length l.
Proof. apply length_insert. Qed.

Lemma aget_aset_eq l i v :
  0 <= i < Z.of_nat (length l) -> aget (aset l i v) i = v.
Proof.
  intros Hi. unfold aget, aset. rewrite list_lookup_insert_eq by lia. done.
Qed.

Lemma aget_aset_ne l i j v :
  0 <= i -> 0 <= j -> i <> j -> aget (aset l i v) j = aget l j.
Proof.
  intros ? ? ?. unfold aget, aset. rewrite list_lookup_insert_ne by lia. done.
Qed.

Lemma aget_replicate n i : aget (replicate n 0) i = 0.
Proof.
  unfold aget. destruct (replicate n 0 !! _) eqn:E; [|done].
  by apply lookup_replicate in E as [-> _].
Qed.

Lemma aget_Forall (P : Z -> Prop) l i :
  Forall P l -> P 0 -> P (aget l i).
Proof.
  intros HF H0. unfold aget. destruct (l !! _) eqn:E; [|done].
  by eapply Forall_lookup_1.
Qed.

(** ** Single bits of a word *)

Definition masque (b : Z) : Z := Z.shiftl 1 b.

(** [w |= 1 << b] and [w &= !(1 << b)] on a 64-bit word. *)
Definition pose_bit (w b : Z) : Z := Z.lor w (masque b).
Definition ote_bit (w b : Z) : Z := Z.land w (Z.lxor (u64_max - 1) (masque b)).
(** [w & (1 << b) != 0] *)
Definition teste_bit (w b : Z) : bool := negb (Z.land w (masque b) =? 0).

Lemma masque_pow b : 0 <= b -> masque b = 2 ^ b.
Proof. intros. unfold masque. rewrite Z.shiftl_mul_pow2 by lia. lia. Qed.

Lemma masque_testbit b i : 0 <= b -> Z.testbit (masque b) i = (i =? b).
Proof.
  intros. rewrite masque_pow by done.
  destruct (Z.eqb_spec i b) as [->|]; [by apply Z.pow2_bits_true|].
  apply Z.pow2_bits_false. lia.
Qed.

Lemma ones64_testbit i : 0 <= i -> Z.testbit (u64_max - 1) i = (i <? 64).
Proof.
  intros. unfold u64_max. rewrite <-Z.pred_succ at 1.
  replace (Z.pred (Z.succ (2 ^ 64 - 1))) with (Z.ones 64) by reflexivity.
  rewrite Z.testbit_ones by lia.
  destruct (Z.ltb_spec i 64); destruct (Z.leb_spec 0 i); simpl; lia || done.
Qed.

Lemma teste_bit_spec w b : 0 <= b -> teste_bit w b = Z.testbit w b.
Proof.
  intros Hb. unfold teste_bit.
  destruct (Z.eqb_spec (Z.land w (masque b)) 0) as [E|E]; simpl; symmetry.
  - assert (Z.testbit (Z.land w (masque b)) b = false) as H
      by (rewrite E; apply Z.bits_0).
    rewrite Z.land_spec, masque_testbit, Z.eqb_refl, andb_true_r in H by done. done.
  - destruct (Z.testbit w b) eqn:F; [done|]. exfalso. apply E.
    apply Z.bits_inj'. intros i Hi. rewrite Z.land_spec, masque_testbit, Z.bits_0 by done.
    destruct (Z.eqb_spec i b) as [->|]; rewrite ?F; [done|]. apply andb_false_r.
Qed.

Lemma pose_bit_testbit w b i :
  0 <= b -> 0 <= i -> Z.testbit (pose_bit w b) i = (i =? b) || Z.testbit w i.
Proof.
  intros. unfold pose_bit. rewrite Z.lor_spec, masque_testbit by done.
  apply orb_comm.
Qed.

Lemma ote_bit_testbit w b i :
  0 <= b < 64 -> 0 <= i < 64 ->
  Z.testbit (ote_bit w b) i = negb (i =? b) && Z.testbit w i.
Proof.
  intros. unfold ote_bit.
  rewrite Z.land_spec, Z.lxor_spec, masque_testbit, ones64_testbit by lia.
  destruct (Z.ltb_spec i 64); [|lia].
  destruct (i =? b); simpl; by rewrite ?andb_true_r, ?andb_false_r.
Qed.

(** A word of [n] bits is one whose higher bits are all clear. *)
Lemma mot_bits n x :
  0 <= n -> (0 <= x < 2 ^ n <-> 0 <= x /\ forall i, n <= i -> Z.testbit x i = false).
Proof.
  intros Hn. split.
  - intros [H0 H]. split; [done|]. intros i Hi.
    destruct (Z.eq_dec x 0) as [->|]; [apply Z.bits_0|].
    apply Z.bits_above_log2; [done|].
    apply Z.lt_le_trans with n; [|done]. apply Z.log2_lt_pow2; lia.
  - intros [H0 H]. split; [done|].
    assert (x = x mod 2 ^ n) as ->; [|apply Z.mod_pos_bound; lia].
    apply Z.bits_inj'. intros i Hi. destruct (Z.lt_ge_cases i n).
    + by rewrite Z.mod_pow2_bits_low.
    + by rewrite Z.mod_pow2_bits_high, H by lia.
Qed.

Lemma lxor_mot n a b :
  0 <= n -> 0 <= a < 2 ^ n -> 0 <= b < 2 ^ n -> 0 <= Z.lxor a b < 2 ^ n.
Proof.
  intros Hn [H0 Ha]%mot_bits [H1 Hb]%mot_bits; try done. apply mot_bits; [done|].
  split; [by apply Z.lxor_nonneg|]. intros. by rewrite Z.lxor_spec, Ha, Hb.
Qed.

Lemma lor_mot n a b :
  0 <= n -> 0 <= a < 2 ^ n -> 0 <= b < 2 ^ n -> 0 <= Z.lor a b < 2 ^ n.
Proof.
  intros Hn [H0 Ha]%mot_bits [H1 Hb]%mot_bits; try done. apply mot_bits; [done|].
  split; [by apply Z.lor_nonneg|]. intros. by rewrite Z.lor_spec, Ha, Hb.
Qed.

Lemma land_mot_l n a b : 0 <= n -> 0 <= a < 2 ^ n -> 0 <= Z.land a b < 2 ^ n.
Proof.
  intros Hn [H0 Ha]%mot_bits; [|done]. apply mot_bits; [done|].
  split; [apply Z.land_nonneg; by left|]. intros. by rewrite Z.land_spec, Ha.
Qed.

(** A field shifted above another one: the bitwise or is the sum. *)
Lemma lor_disjoint k x y :
  0 <= k -> 0 <= y < 2 ^ k -> Z.lor (x * 2 ^ k) y = x * 2 ^ k + y.
Proof.
  intros Hk Hy. assert (Z.land (x * 2 ^ k) y = 0) as H0.
  { apply Z.bits_inj'. intros i Hi. rewrite Z.land_spec, Z.bits_0.
    destruct (Z.lt_ge_cases i k); [by rewrite Z.mul_pow2_bits_low|].
    apply mot_bits in Hy as [_ Hy]; [|done]. rewrite Hy by done. apply andb_false_r. }
  by rewrite Z.add_nocarry_lxor, Z.lxor_lor.
Qed.

Lemma pose_bit_mot w i : 0 <= i < 64 -> 0 <= w < u64_max -> 0 <= pose_bit w i < u64_max.
Proof.
  intros Hi Hw. apply (lor_mot 64); [lia|done|]. rewrite masque_pow by lia.
  split; [apply Z.pow_nonneg; lia|]. apply Z.pow_lt_mono_r; lia.
Qed.

Lemma ote_bit_mot w i : 0 <= i < 64 -> 0 <= w < u64_max -> 0 <= ote_bit w i < u64_max.
Proof. intros Hi Hw. apply (land_mot_l 64); [lia|done]. Qed.

Lemma Forall_aset (P : Z -> Prop) l i v : Forall P l -> P v -> Forall P (aset l i v).
Proof. intros. unfold aset. by apply Forall_insert. Qed.

(** [v & !(4096 - 1)] on 64-bit words: the page below. *)
Definition page_bas (v : Z) : Z := Z.land v (Z.lxor (u64_max - 1) (4096 - 1)).

Lemma page_bas_spec v : 0 <= v < u64_max -> page_bas v = v / 4096 * 4096.
Proof.
  intros Hv. unfold page_bas. change 4096 with (2 ^ 12).
  apply Z.bits_inj'. intros i Hi.
  rewrite Z.land_spec, Z.lxor_spec, ones64_testbit by done.
  replace (2 ^ 12 - 1) with (Z.ones 12) by reflexivity. rewrite Z.testbit_ones by lia.
  destruct (Z.lt_ge_cases i 12).
  - rewrite Z.mul_pow2_bits_low by done. zcas. by rewrite andb_false_r.
  - rewrite Z.mul_pow2_bits, Z.div_pow2_bits by lia. replace (i - 12 + 12) with i by lia.
    destruct (Z.ltb_spec i 64); zcas; [by rewrite andb_true_r|].
    rewrite andb_false_r. symmetry. unfold u64_max in Hv.
    apply (mot_bits 64) in Hv as [_ Hv]; [|lia]. apply Hv. lia.
Qed.

(** Unfolding a fold by rewriting, so that conversion never evaluates the step. *)
Lemma fold_left_cons_eq {A B} (f : A -> B -> A) x l a :
  fold_left f (x :: l) a = fold_left f l (f a x).
Proof. done. Qed.

Lemma fold_left_invariant {A B} (P : A -> Prop) (Q : B -> Prop) (f : A -> B -> A) l a :
  (forall a b, P a -> Q b -> P (f a b)) -> Forall Q l -> P a -> P (fold_left f l a).
Proof.
  intros Hf Hl. revert a. induction Hl as [|x l Hx _ IH]; intros a Ha; [done|].
  rewrite fold_left_cons_eq. auto.
Qed.

(** ** Slices of a byte array *)

Section Tranches.
Context {A : Type}.
Implicit Types l src : list A.

(** [l[a .. a + n]] *)
Definition slice l (a n : nat) : list A := take n (drop a l).

(** [l[a .. a + src.len()].copy_from_slice(src)]; the array keeps its length. *)
Definition splice l (a : nat) src : list A :=
  take (length l) (take a l ++ src ++ drop (a + length src) l).

Lemma length_splice l a src : length (splice l a src) = length l.
Proof.
  unfold splice. rewrite length_take, !length_app, length_take, length_drop. lia.
Qed.

Lemma splice_in l a src :
  (a + length src <= length l)%nat ->
  splice l a src = take a l ++ src ++ drop (a + length src) l.
Proof.
  intros. unfold splice. apply take_ge.
  rewrite !length_app, length_take, length_drop. lia.
Qed.

Lemma slice_splice_eq l a src n :
  (a + length src <= length l)%nat -> n = length src ->
  slice (splice l a src) a n = src.
Proof.
  intros ? ->. unfold slice. rewrite splice_in by done.
  rewrite drop_app_length' by (rewrite length_take; lia).
  by rewrite take_app_length.
Qed.

Lemma slice_splice_ne l a src b n :
  (a + length src <= length l)%nat ->
  (b + n <= a \/ a + length src <= b)%nat ->
  slice (splice l a src) b n = slice l b n.
Proof.
  intros Hl Hd. unfold slice. rewrite splice_in by done. apply list_eq. intros i.
  destruct (decide (i < n)%nat); [|rewrite !lookup_take_ge by lia; done].
  rewrite !lookup_take_lt, !lookup_drop by lia.
  destruct Hd.
  - rewrite lookup_app_l by (rewrite length_take; lia).
    rewrite lookup_take_lt by lia. done.
  - rewrite lookup_app_r by (rewrite length_take; lia).
    rewrite lookup_app_r by (rewrite length_take; lia).
    rewrite lookup_drop, length_take. f_equal. lia.
Qed.

Lemma length_slice l a n :
  (a + n <= length l)%nat -> length (slice l a n) = n.
Proof. intros. unfold slice. rewrite length_take, length_drop. lia. Qed.

Lemma lookup_slice l a n i :
  (i < n)%nat -> slice l a n !! i = l !! (a + i)%nat.
Proof. intros. unfold slice. rewrite lookup_take_lt, lookup_drop by lia. done. Qed.

Lemma slice_app_l l1 l2 a n :
  (a + n <= length l1)%nat -> slice (l1 ++ l2) a n = slice l1 a n.
Proof.
  intros. unfold slice. rewrite drop_app_le by lia.
  rewrite take_app_le by (rewrite length_drop; lia). done.
Qed.
Lemma Forall_slice (P : A -> Prop) l a n : Forall P l -> Forall P (slice l a n).
Proof. intros. unfold slice. auto using Forall_take, Forall_drop. Qed.

Lemma Forall_splice (P : A -> Prop) l a src :
  Forall P l -> Forall P src -> Forall P (splice l a src).
Proof.
  intros. unfold splice. apply Forall_take. rewrite !Forall_app.
  auto using Forall_take, Forall_drop.
Qed.
End Tranches.

(** ** Little-endian integers *)

Definition octet (z : Z) : Prop := 0 <= z < 256.

#[export] Instance octet_dec z : Decision (octet z).
Proof. unfold octet. apply _. Defined.

(** [x.to_le_bytes()] for an [n]-byte integer, and its inverse. *)
Fixpoint to_le (n : nat) (z : Z) : list Z :=
  match n with
  | O => []
  | S n => z mod 256 :: to_le n (z / 256)
  end.
Fixpoint from_le (l : list Z) : Z :=
  match l with
  | [] => 0
  | b :: l => b + 256 * from_le l
  end.

Lemma length_to_le n z : length (to_le n z) = n.
Proof. revert z. induction n; intros; simpl; auto. Qed.

Lemma to_le_octets n z : Forall octet (to_le n z).
Proof.
  revert z. induction n; intros; simpl; constructor; auto.
  apply Z.mod_pos_bound. lia.
Qed.

Lemma from_to_le n z : from_le (to_le n z) = z mod 256 ^ Z.of_nat n.
Proof.
  revert z. induction n as [|n IH]; intros z; cbn [to_le from_le].
  - by rewrite Z.mod_1_r.
  - rewrite IH, Nat2Z.inj_succ, Z.pow_succ_r by lia.
    symmetry. apply Z.rem_mul_r; [lia|]. apply Z.pow_pos_nonneg; lia.
Qed.

Lemma from_to_le_small n z :
  0 <= z < 256 ^ Z.of_nat n -> from_le (to_le n z) = z.
Proof. intros. rewrite from_to_le. by apply Z.mod_small. Qed.

Lemma to_from_le l : Forall octet l -> to_le (length l) (from_le l) = l.
Proof.
  induction 1 as [|b l Hb _ IH]; [done|]. simpl. unfold octet in Hb.
  rewrite (Z.mul_comm 256), Z.mod_add, Z.mod_small, Z.div_add, Z.div_small by lia.
  by rewrite Z.add_0_l, IH.
Qed.

Lemma from_le_bound l : Forall octet l -> 0 <= from_le l < 256 ^ Z.of_nat (length l).
Proof.
  induction 1 as [|b l Hb _ IH]; [simpl; lia|]. cbn [from_le length].
  rewrite Nat2Z.inj_succ, Z.pow_succ_r by lia. unfold octet in Hb. lia.
Qed.

Lemma from_le_inj l1 l2 :
  Forall octet l1 -> Forall octet l2 -> length l1 = length l2 ->
  from_le l1 = from_le l2 -> l1 = l2.
Proof.
  intros H1 H2 Hl He.
  rewrite <-(to_from_le l1), <-(to_from_le l2) by done. by rewrite Hl, He.
Qed.

#[export] Hint Resolve to_le_octets length_to_le length_slice : os.
#[export] Hint Rewrite length_to_le @length_aset : os_len.

#[global] Arguments slice : simpl never.
#[global] Arguments splice : simpl never.
#[global] Arguments to_le : simpl never.

(** Reads of an array that was filled by consecutive slice writes. *)
Ltac taille :=
  rewrite ?length_splice, ?length_to_le, ?length_replicate, ?length_app;
  simpl; lia.
Ltac tranches :=
  repeat match goal with
  | |- context [slice (splice ?l ?a ?src) ?b ?n] =>
      first [ constr_eq a b; rewrite (slice_splice_eq l a src n); [| taille | taille]
            | rewrite (slice_splice_ne l a src b n); [| taille | taille] ]
  end.
