(* ===== verification/UpdateAb.v ===== *)
(** The A/B boot record (system/update-core/src/ab.rs): slots, their states, the
    operations of an update, and the on-disk encoding in two copies. *)

From S2P Require Import Prelude.

Module Ab.

(** ** Data *)

Inductive Slot := Slot_A | Slot_B.
#[export] Instance Slot_eq_dec : EqDecision Slot.
Proof. solve_decision. Defined.

Definition autre (s : Slot) : Slot :=
  match s with Slot_A => Slot_B | Slot_B => Slot_A end.
Definition index (s : Slot) : Z := match s with Slot_A => 0 | Slot_B => 1 end.

Inductive Etat :=
| Vide
| Candidat (essais : Z)
| Bon
| Mauvais.
#[export] Instance Etat_eq_dec : EqDecision Etat.
Proof. solve_decision. Defined.

Record InfoSlot := mk_info { etat : Etat; image : list Z }.
#[export] Instance InfoSlot_eq_dec : EqDecision InfoSlot.
Proof. solve_decision. Defined.

(** [slots] is the array [[InfoSlot; 2]], indexed by [Slot]. *)
Record Enregistrement := mk_enr {
  sequence : Z;
  actif : Slot;
  slots : InfoSlot * InfoSlot
}.
#[export] Instance Enregistrement_eq_dec : EqDecision Enregistrement.
Proof. solve_decision. Defined.

Inductive Refus :=
| CibleActive | CibleEnCoursDExecution | ImageNonVerifiee
| CandidatEnCours | EtatInattendu | EssaisNuls.

(** ** Operations *)

Definition slot (e : Enregistrement) (s : Slot) : InfoSlot :=
  match s with Slot_A => (slots e).1 | Slot_B => (slots e).2 end.

(** [n.slots[s.index()] = i] *)
Definition set_slot (e : Enregistrement) (s : Slot) (i : InfoSlot) : Enregistrement :=
  mk_enr (sequence e) (actif e)
    (match s with Slot_A => (i, (slots e).2) | Slot_B => ((slots e).1, i) end).
(** [n.slots[s.index()].etat = x] *)
Definition set_etat (e : Enregistrement) (s : Slot) (x : Etat) : Enregistrement :=
  set_slot e s (mk_info x (image (slot e s))).
Definition set_actif (e : Enregistrement) (s : Slot) : Enregistrement :=
  mk_enr (sequence e) s (slots e).

Definition image_nulle : list Z := replicate 32 0.
Definition info_vide : InfoSlot := mk_info Vide image_nulle.

Definition initial (a : Slot) (im : list Z) : Enregistrement :=
  set_slot (mk_enr 1 a (info_vide, info_vide)) a (mk_info Bon im).

Definition suivant (e : Enregistrement) : Enregistrement :=
  mk_enr (wrapping_add64 (sequence e) 1) (actif e) (slots e).

Definition est_candidat (x : Etat) : bool :=
  match x with Candidat _ => true | _ => false end.

Definition commence_installation (e : Enregistrement) (cible en_cours : Slot)
  : Enregistrement + Refus :=
  if bool_decide (cible = en_cours) then inr CibleEnCoursDExecution
  else if bool_decide (cible = actif e) then inr CibleActive
  else if est_candidat (etat (slot e cible)) then inr CandidatEnCours
  else inl (set_slot (suivant e) cible info_vide).

Definition marque_candidat (e : Enregistrement) (cible : Slot)
    (im empreinte_relue : list Z) (essais : Z) : Enregistrement + Refus :=
  if bool_decide (cible = actif e) then inr CibleActive
  else if negb (bool_decide (etat (slot e cible) = Vide)) then inr EtatInattendu
  else if negb (bool_decide (im = empreinte_relue)) then inr ImageNonVerifiee
  else if essais =? 0 then inr EssaisNuls
  else inl (set_slot (suivant e) cible (mk_info (Candidat essais) im)).

Definition choisit_boot (e : Enregistrement) : Slot * Enregistrement :=
  let a := autre (actif e) in
  match etat (slot e a) with
  | Candidat essais =>
      if 0 <? essais
      then (a, set_etat (suivant e) a (Candidat (essais - 1)))
      else (actif e, set_etat (suivant e) a Mauvais)
  | _ => (actif e, e)
  end.

Definition sante_ok (e : Enregistrement) (s : Slot) : Enregistrement :=
  match etat (slot e s) with
  | Candidat _ => set_actif (set_etat (suivant e) s Bon) s
  | _ => e
  end.

Definition sante_ko (e : Enregistrement) (s : Slot) : Enregistrement :=
  match etat (slot e s) with
  | Candidat _ => set_etat (suivant e) s Mauvais
  | _ => e
  end.

Definition revient (e : Enregistrement) : Enregistrement + Refus :=
  let a := autre (actif e) in
  if negb (bool_decide (etat (slot e a) = Bon)) then inr EtatInattendu
  else inl (set_actif (suivant e) a).

(** ** On-disk encoding *)

Definition OCTETS : nat := 96.
(** [b"BOAB0001"] *)
Definition MAGIC : list Z := [66; 79; 65; 66; 48; 48; 48; 49].

(** One step of the inner loop: [crc & 1] selects the polynomial. *)
Definition crc_bit (crc : Z) : Z :=
  let m := if Z.land crc 1 =? 0 then 0 else 0xffffffff in
  Z.lxor (Z.shiftr crc 1) (Z.land 0xedb88320 m).
Definition crc_octet (crc o : Z) : Z :=
  Nat.iter 8 crc_bit (Z.lxor crc o).
(** [!crc] on 32 bits is the exclusive or with the all-ones word. *)
Definition crc32 (octets : list Z) : Z :=
  Z.lxor (fold_left crc_octet octets 0xffffffff) 0xffffffff.

Definition encode_etat (x : Etat) : list Z :=
  match x with
  | Vide => [0; 0]
  | Candidat essais => [1; essais]
  | Bon => [2; 0]
  | Mauvais => [3; 0]
  end.

Definition decode_etat (b : list Z) : option Etat :=
  match b with
  | [0; 0] => Some Vide
  | [1; n] => Some (Candidat n)
  | [2; 0] => Some Bon
  | [3; 0] => Some Mauvais
  | _ => None
  end.

(** The record without its checksum: the first writes of [encode]. *)
Definition encode_corps (e : Enregistrement) : list Z :=
  let o := replicate OCTETS 0 in
  let o := splice o 0 MAGIC in
  let o := splice o 8 (to_le 8 (sequence e)) in
  let o := splice o 16 [index (actif e)] in
  let o := splice o 18 (encode_etat (etat (slots e).1)) in
  let o := splice o 20 (encode_etat (etat (slots e).2)) in
  let o := splice o 24 (image (slots e).1) in
  splice o 56 (image (slots e).2).

Definition encode (e : Enregistrement) : list Z :=
  let o := encode_corps e in
  splice o 92 (to_le 4 (crc32 (slice o 0 92))).

Definition decode_slot (b : list Z) : option Slot :=
  match b with [0] => Some Slot_A | [1] => Some Slot_B | _ => None end.

Definition decode (o : list Z) : option Enregistrement :=
  if negb (length o =? OCTETS)%nat || negb (bool_decide (slice o 0 8 = MAGIC)) then None
  else if negb (crc32 (slice o 0 92) =? from_le (slice o 92 4)) then None
  else
    a ← decode_slot (slice o 16 1);
    ea ← decode_etat (slice o 18 2);
    eb ← decode_etat (slice o 20 2);
    let e := mk_enr (from_le (slice o 8 8)) a
               (mk_info ea (slice o 24 32), mk_info eb (slice o 56 32)) in
    if negb (bool_decide (etat (slot e (actif e)) = Bon)) then None else Some e.

Definition selectionne (copie0 copie1 : list Z) : option Enregistrement :=
  match decode copie0, decode copie1 with
  | Some x, Some y => Some (if sequence x <? sequence y then y else x)
  | Some x, None => Some x
  | None, Some y => Some y
  | None, None => None
  end.

(** Which copy to overwrite. *)
Definition copie_a_ecrire (copie0 copie1 : list Z) : Z :=
  match decode copie0, decode copie1 with
  | Some x, Some y => if sequence x <=? sequence y then 0 else 1
  | Some _, None => 1
  | _, _ => 0
  end.

(** ** Consecutive boots and record writes *)

(** [n] boots in a row, none of which is confirmed healthy: the slots booted and
    the record left on disk. *)
Fixpoint boots (n : nat) (e : Enregistrement) : list Slot * Enregistrement :=
  match n with
  | O => ([], e)
  | S n =>
      let '(s, e1) := choisit_boot e in
      let '(l, e2) := boots n e1 in
      (s :: l, e2)
  end.

(** The two copies of the META partition. *)
Definition disque : Type := list Z * list Z.
Definition lit (d : disque) : option Enregistrement := selectionne d.1 d.2.

(** The write of [persiste], of which only the first [n] bytes reached the disk. *)
Definition ecrit_coupe (d : disque) (e : Enregistrement) (n : nat) : disque :=
  let w := take n (encode e) in
  if copie_a_ecrire d.1 d.2 =? 0 then (splice d.1 0 w, d.2) else (d.1, splice d.2 0 w).
Definition ecrit (d : disque) (e : Enregistrement) : disque := ecrit_coupe d e OCTETS.
(** The copy the write goes to. *)
Definition copie_visee (d : disque) : list Z :=
  if copie_a_ecrire d.1 d.2 =? 0 then d.1 else d.2.

End Ab.
