(* ===== verification/UpdateAbProofs.v ===== *)
(** Correctness of the A/B boot record: the well-formedness invariant, the
    encode/decode round trip, the choice of a slot at boot, and the atomicity of
    a record write that is cut by a power loss. *)

From S2P Require Import Prelude UpdateAb.
Import Ab.

Module AbProofs.

(** ** The invariant of a record *)

Definition etat_ok (x : Etat) : Prop :=
  match x with Candidat n => octet n | _ => True end.

Record info_ok (i : InfoSlot) : Prop := {
  io_etat : etat_ok (etat i);
  io_len : length (image i) = 32%nat;
  io_oct : Forall octet (image i)
}.

(** What the loader relies on: machine ranges, and an active slot that is Good. *)
Record ok (e : Enregistrement) : Prop := {
  ok_seq : 0 <= sequence e < u64_max;
  ok_a : info_ok (slot e Slot_A);
  ok_b : info_ok (slot e Slot_B);
  ok_actif : etat (slot e (actif e)) = Bon
}.

Lemma info_vide_ok : info_ok info_vide.
Proof. split; [done|done|]. apply Forall_replicate. unfold octet. lia. Qed.

Lemma ok_slot e s : ok e -> info_ok (slot e s).
Proof. intros []. by destruct s. Qed.

Lemma autre_ne s : autre s <> s.
Proof. by destruct s. Qed.
Lemma ne_autre s s' : s <> s' -> s = autre s'.
Proof. by destruct s, s'. Qed.

Lemma slot_set_slot e s s' i :
  slot (set_slot e s i) s' = if bool_decide (s = s') then i else slot e s'.
Proof. by destruct s, s'. Qed.

(** Every operation rewrites one slot of the successor record: this covers them all. *)
Lemma set_slot_ok e s i :
  ok e -> info_ok i -> (s <> actif e \/ etat i = Bon) -> ok (set_slot (suivant e) s i).
Proof.
  intros H Hi Ha. pose proof (ok_slot e Slot_A H). pose proof (ok_slot e Slot_B H).
  destruct H as [Hs _ _ Hact].
  split; [apply Z.mod_pos_bound; done| | |];
    unfold suivant; destruct s, (actif e) eqn:E; simpl in *;
    rewrite ?E; simpl; try done; destruct Ha; done.
Qed.

Lemma set_actif_ok e s : ok e -> etat (slot e s) = Bon -> ok (set_actif e s).
Proof. intros [] ?. split; done. Qed.

Lemma etat_info_ok e s x : ok e -> etat_ok x -> info_ok (mk_info x (image (slot e s))).
Proof. intros H ?. destruct (ok_slot e s H). by split. Qed.

#[export] Hint Resolve info_vide_ok ok_slot set_slot_ok etat_info_ok : os.

Lemma initial_ok a im : length im = 32%nat -> Forall octet im -> ok (initial a im).
Proof.
  intros. unfold initial. destruct a; split; simpl; try done;
    auto using info_vide_ok; by split.
Qed.

Lemma commence_ok e c r n : ok e -> commence_installation e c r = inl n -> ok n.
Proof. unfold commence_installation. intros ? H. repeat cas H. eauto with os. Qed.

Lemma marque_ok e c im re k n :
  ok e -> length im = 32%nat -> Forall octet im -> octet k ->
  marque_candidat e c im re k = inl n -> ok n.
Proof.
  unfold marque_candidat. intros He ? ? ? H. repeat cas H.
  apply set_slot_ok; [done|by split|by left].
Qed.

Lemma choisit_boot_ok e : ok e -> ok (choisit_boot e).2.
Proof.
  intros H. unfold choisit_boot. pose proof (ok_slot e (autre (actif e)) H) as Hi.
  destruct (etat _) eqn:E; simpl; try done.
  destruct Hi as [Ho _ _]. rewrite E in Ho. simpl in Ho. unfold octet in Ho.
  destruct (Z.ltb_spec 0 essais); simpl;
    (apply set_slot_ok; [done| |left; apply autre_ne]);
    apply (etat_info_ok e); simpl; unfold octet; try done; lia.
Qed.

Lemma sante_ok_ok e s : ok e -> ok (sante_ok e s).
Proof.
  intros H. unfold sante_ok. destruct (etat _) eqn:E; try done.
  apply set_actif_ok; [|by destruct s].
  apply set_slot_ok; [done| |by right]. by apply (etat_info_ok e).
Qed.

Lemma sante_ko_ok e s : ok e -> ok (sante_ko e s).
Proof.
  intros H. unfold sante_ko. destruct (etat _) eqn:E; try done.
  apply set_slot_ok; [done| |].
  - by apply (etat_info_ok e).
  - left. intros ->. rewrite (ok_actif _ H) in E. done.
Qed.

Lemma revient_ok e n : ok e -> revient e = inl n -> ok n.
Proof.
  unfold revient. intros H Hr. cas Hr. apply set_actif_ok; [|by destruct (actif e)].
  destruct H as [? ? ? ?]. split; try done.
  apply Z.mod_pos_bound; done.
Qed.

(** ** Encoding *)

Lemma decode_encode_etat x : etat_ok x -> decode_etat (encode_etat x) = Some x.
Proof. by destruct x. Qed.

Lemma length_encode_etat x : length (encode_etat x) = 2%nat.
Proof. by destruct x. Qed.

Lemma decode_etat_ok b x : Forall octet b -> decode_etat b = Some x -> etat_ok x.
Proof.
  intros Hb H. unfold decode_etat in H. repeat cas H; try done.
  by repeat (apply Forall_cons in Hb as [? Hb]).
Qed.

Lemma crc_bit_range c : 0 <= c < u32_max -> 0 <= crc_bit c < u32_max.
Proof.
  intros Hc. apply lxor_mot; [done| |by apply land_mot_l].
  rewrite Z.shiftr_div_pow2 by lia. split; [apply Z.div_pos; lia|].
  apply Z.div_lt_upper_bound; unfold u32_max in *; lia.
Qed.

Lemma crc_iter_range n c :
  0 <= c < u32_max -> 0 <= Nat.iter n crc_bit c < u32_max.
Proof.
  intros. apply (Nat.iter_invariant n _ crc_bit (fun x => 0 <= x < u32_max)); [|done].
  intros; by apply crc_bit_range.
Qed.

Lemma crc_octet_range c o :
  0 <= c < u32_max -> octet o -> 0 <= crc_octet c o < u32_max.
Proof.
  unfold octet. intros Hc Ho. assert (0 <= Z.lxor c o < u32_max) as Hx.
  { apply lxor_mot; unfold u32_max in *; lia. }
  exact (crc_iter_range 8 _ Hx).
Qed.

Lemma crc32_range l : Forall octet l -> 0 <= crc32 l < u32_max.
Proof.
  intros Hl. apply (lxor_mot 32); [done| |done].
  apply (fold_left_invariant (fun c => 0 <= c < 2 ^ 32) octet); [|done|done].
  intros; by apply crc_octet_range.
Qed.

(** The layout of the encoded record, field by field. *)
Lemma length_encode_corps e : length (encode_corps e) = 96%nat.
Proof. unfold encode_corps. by rewrite !length_splice. Qed.

Ltac champs e :=
  intros [_ [_ La _] [_ Lb _] _]; simpl in La, Lb; unfold encode_corps, OCTETS;
  pose proof (length_encode_etat (etat (slots e).1));
  pose proof (length_encode_etat (etat (slots e).2));
  generalize dependent (encode_etat (etat (slots e).1)); intros;
  generalize dependent (encode_etat (etat (slots e).2)); intros;
  tranches; done.

Lemma corps_magic e : ok e -> slice (encode_corps e) 0 8 = MAGIC.
Proof. champs e. Qed.
Lemma corps_seq e : ok e -> slice (encode_corps e) 8 8 = to_le 8 (sequence e).
Proof. champs e. Qed.
Lemma corps_actif e : ok e -> slice (encode_corps e) 16 1 = [index (actif e)].
Proof. champs e. Qed.
Lemma corps_etat_a e : ok e -> slice (encode_corps e) 18 2 = encode_etat (etat (slots e).1).
Proof. champs e. Qed.
Lemma corps_etat_b e : ok e -> slice (encode_corps e) 20 2 = encode_etat (etat (slots e).2).
Proof. champs e. Qed.
Lemma corps_image_a e : ok e -> slice (encode_corps e) 24 32 = image (slots e).1.
Proof. champs e. Qed.
Lemma corps_image_b e : ok e -> slice (encode_corps e) 56 32 = image (slots e).2.
Proof. champs e. Qed.

Lemma decode_index a : decode_slot [index a] = Some a.
Proof. by destruct a. Qed.

Lemma corps_octets e : ok e -> Forall octet (encode_corps e).
Proof.
  intros [_ [Ea La Oa] [Eb Lb Ob] _]. simpl in *.
  assert (forall x, etat_ok x -> Forall octet (encode_etat x)) as Hx.
  { intros []; simpl; unfold octet; intros; repeat constructor; lia. }
  unfold encode_corps. repeat apply Forall_splice; auto with os.
  - apply Forall_replicate. unfold octet. lia.
  - repeat constructor; unfold octet; lia.
  - destruct (actif e); repeat constructor; unfold octet; simpl; lia.
Qed.

(** Slices of the encoded record below its checksum are those of its body. *)
Lemma slice_encode e a n :
  (a + n <= 92)%nat -> slice (encode e) a n = slice (encode_corps e) a n.
Proof.
  intros. unfold encode. apply slice_splice_ne; rewrite ?length_encode_corps, ?length_to_le; lia.
Qed.

Lemma encode_crc e : ok e -> from_le (slice (encode e) 92 4) = crc32 (slice (encode_corps e) 0 92).
Proof.
  intros H. unfold encode. rewrite slice_splice_eq;
    [|by rewrite length_encode_corps, length_to_le|by rewrite length_to_le].
  apply from_to_le_small. apply crc32_range. apply Forall_slice. by apply corps_octets.
Qed.

Lemma decode_encode e : ok e -> decode (encode e) = Some e.
Proof.
  intros H. unfold decode.
  assert (length (encode e) = 96%nat) as ->
    by (unfold encode; by rewrite length_splice, length_encode_corps).
  rewrite encode_crc, !slice_encode by (done || lia).
  rewrite corps_magic, corps_seq, corps_actif, corps_etat_a, corps_etat_b,
    corps_image_a, corps_image_b by done.
  rewrite bool_decide_true, Z.eqb_refl, decode_index by done.
  destruct H as [Hs [Ha _ _] [Hb _ _] Hact].
  rewrite (from_to_le_small 8), !decode_encode_etat by done. simpl.
  destruct e as [sq act [[ea ia] [eb ib]]]. by rewrite bool_decide_true.
Qed.

(** Whatever bytes are on disk, a decoded record satisfies the invariant. *)
Lemma decode_ok o e : Forall octet o -> decode o = Some e -> ok e.
Proof.
  intros Ho H. unfold decode in H.
  destruct (negb _ || _) eqn:E1; [done|]. destruct (negb (_ =? _)); [done|].
  apply bind_Some in H as (a & _ & H). apply bind_Some in H as (ea & Ha & H).
  apply bind_Some in H as (eb & Hb & H). cas H.
  assert (length o = 96%nat) as Hl by done.
  split; simpl; [|split|split|done]; simpl;
    eauto using decode_etat_ok, Forall_slice; try (apply length_slice; lia).
  pose proof (from_le_bound (slice o 8 8) (Forall_slice _ _ _ _ Ho)) as Hb'.
  rewrite length_slice in Hb' by lia. exact Hb'.
Qed.

(** Round trip of the boot record: for every record that satisfies the
    invariant, decoding its 96-byte encoding gives the record back. *)
Theorem ab_decode_encode e : ok e -> decode (encode e) = Some e.
Proof. apply decode_encode. Qed.

(** ** Bounded attempts (I3) *)

Definition exemple_image : list Z := replicate 32 7.
Definition exemple : Enregistrement :=
  mk_enr 5 Slot_A (mk_info Bon exemple_image, mk_info (Candidat 3) exemple_image).

Lemma exemple_ok : ok exemple.
Proof.
  split; [done| | |done]; (split; [|done|]); simpl; unfold octet; try done;
    apply Forall_replicate; unfold octet; lia.
Qed.

Lemma ab_decode_encode_witness : decode (encode exemple) = Some exemple.
Proof. apply (ab_decode_encode exemple). apply exemple_ok. Defined.

Lemma boots_stable n e :
  est_candidat (etat (slot e (autre (actif e)))) = false ->
  boots n e = (replicate n (actif e), e).
Proof.
  intros He. induction n as [|n IH]; [done|]. simpl.
  assert (choisit_boot e = (actif e, e)) as ->.
  { unfold choisit_boot. by destruct (etat _). }
  by rewrite IH.
Qed.

Lemma choisit_boot_essai e k :
  etat (slot e (autre (actif e))) = Candidat k -> 0 < k ->
  exists e', choisit_boot e = (autre (actif e), e') /\ actif e' = actif e
    /\ etat (slot e' (autre (actif e))) = Candidat (k - 1).
Proof.
  intros He Hk. unfold choisit_boot. rewrite He.
  destruct (Z.ltb_spec 0 k); [|lia]. eexists. split; [done|].
  split; [done|]. by destruct (actif e).
Qed.

Lemma choisit_boot_epuise e :
  etat (slot e (autre (actif e))) = Candidat 0 ->
  exists e', choisit_boot e = (actif e, e') /\ actif e' = actif e
    /\ etat (slot e' (autre (actif e))) = Mauvais.
Proof.
  intros He. unfold choisit_boot. rewrite He. eexists. split; [done|].
  split; [done|]. by destruct (actif e).
Qed.

(** C29. Bounded attempts (I3): a candidate with [k] attempts is booted exactly [k]
    times in a row if its health is never confirmed; every later boot is the
    active slot, and the candidate is then marked bad on disk. *)
Theorem essais_bornes (k m : nat) e :
  etat (slot e (autre (actif e))) = Candidat (Z.of_nat k) ->
  let '(l, e') := boots (k + S m) e in
  l = replicate k (autre (actif e)) ++ replicate (S m) (actif e)
  /\ actif e' = actif e /\ etat (slot e' (autre (actif e))) = Mauvais.
Proof.
  revert e. induction k as [|k IH]; intros e He; cbn [Nat.add boots].
  - destruct (choisit_boot_epuise e He) as (e' & -> & Ha & Hm).
    rewrite boots_stable by (rewrite Ha, Hm; done). rewrite Ha. done.
  - destruct (choisit_boot_essai e (Z.of_nat (S k)) He) as (e' & -> & Ha & Hm); [lia|].
    specialize (IH e'). rewrite Ha in IH.
    replace (Z.of_nat (S k) - 1) with (Z.of_nat k) in Hm by lia.
    specialize (IH Hm). destruct (boots _ e') as [l e2].
    destruct IH as (-> & Ha2 & Hm2). simpl. auto.
Qed.

Lemma essais_bornes_witness :
  let '(l, e') := boots (3 + 2) exemple in
  l = replicate 3 Slot_B ++ replicate 2 Slot_A
  /\ actif e' = Slot_A /\ etat (slot e' Slot_B) = Mauvais.
Proof. apply (essais_bornes 3 1 exemple). reflexivity. Defined.

Lemma choisit_boot_cas e :
  ok e ->
  let '(s, n) := choisit_boot e in
  actif n = actif e /\ slot n (actif e) = slot e (actif e)
  /\ ((s = actif e /\ etat (slot e s) = Bon)
      \/ (s = autre (actif e) /\ exists k, 0 < k /\ etat (slot e s) = Candidat k
          /\ etat (slot n s) = Candidat (k - 1))).
Proof.
  intros [_ _ _ Ha]. unfold choisit_boot.
  destruct (etat (slot e (autre (actif e)))) eqn:E; simpl; auto.
  destruct (Z.ltb_spec 0 essais); simpl;
    (split; [done|]); (split; [by destruct (actif e)|]); [right|by left].
  split; [done|]. exists essais. by destruct (actif e).
Qed.

(** C31. Choice at boot (I1, I2): the slot booted is either the active slot, which
    is Good, or a candidate that still has an attempt, in which case that attempt
    is consumed in the record to be written first. A bad or empty slot is never
    booted. *)
Theorem choisit_boot_sur e :
  ok e ->
  let '(s, n) := choisit_boot e in
  actif n = actif e /\ slot n (actif e) = slot e (actif e)
  /\ ((s = actif e /\ etat (slot e s) = Bon)
      \/ (s = autre (actif e) /\ exists k, 0 < k /\ etat (slot e s) = Candidat k
          /\ etat (slot n s) = Candidat (k - 1))).
Proof. apply choisit_boot_cas. Qed.
Lemma choisit_boot_sur_witness :
  exists k, etat (slot exemple Slot_B) = Candidat k
    /\ etat (slot (choisit_boot exemple).2 Slot_B) = Candidat (k - 1).
Proof.
  destruct (choisit_boot_sur exemple exemple_ok) as (_ & _ & [(H & _)|(_ & k & _ & H & H')]).
  - discriminate H.
  - exists k. exact (conj H H').
Defined.

(** ** A cut record write (I4) *)

(** The disk holds [e]: every copy that decodes is [e] or an older record. *)
Record disque_ok (d : disque) (e : Enregistrement) : Prop := {
  do_len0 : length d.1 = OCTETS;
  do_len1 : length d.2 = OCTETS;
  do_lit : lit d = Some e;
  do_anc0 : forall x, decode d.1 = Some x -> sequence x < sequence e \/ x = e;
  do_anc1 : forall x, decode d.2 = Some x -> sequence x < sequence e \/ x = e
}.

(** The copy the write spares still holds the current record. *)
Lemma copie_epargnee d e :
  disque_ok d e ->
  decode (if copie_a_ecrire d.1 d.2 =? 0 then d.2 else d.1) = Some e.
Proof.
  intros [_ _ Hl H0 H1]. unfold lit, selectionne, copie_a_ecrire in *.
  destruct (decode d.1) as [x|] eqn:E0, (decode d.2) as [y|] eqn:E1; try done; simpl;
    [|congruence..].
  specialize (H0 x eq_refl). specialize (H1 y eq_refl).
  destruct (Z.ltb_spec (sequence x) (sequence y)), (Z.leb_spec (sequence x) (sequence y));
    simpl; simplify_eq; try lia; try congruence.
  destruct H1 as [? | ->]; [lia|done].
Qed.

Lemma slice_slice {A} (l : list A) a n m :
  (a + n <= m)%nat -> slice (slice l 0 m) a n = slice l a n.
Proof.
  intros. unfold slice. rewrite drop_0. rewrite take_drop_commute, take_take.
  rewrite take_drop_commute. repeat f_equal. lia.
Qed.

(** The fields of an accepted copy, as [decode] reads them. *)
Lemma decode_champs t z :
  decode t = Some z ->
  decode_slot (slice t 16 1) = Some (actif z) /\ sequence z = from_le (slice t 8 8)
  /\ decode_etat (slice t 18 2) = Some (etat (slots z).1)
  /\ decode_etat (slice t 20 2) = Some (etat (slots z).2)
  /\ image (slots z).1 = slice t 24 32 /\ image (slots z).2 = slice t 56 32.
Proof.
  unfold decode. intros H. destruct (negb _ || _); [done|]. destruct (negb (_ =? _)); [done|].
  apply bind_Some in H as (a & -> & H). apply bind_Some in H as (ea & -> & H).
  apply bind_Some in H as (eb & -> & H). by cas H.
Qed.

(** Same content below the checksum, valid checksum: same record. *)
Lemma decode_contenu t e z :
  ok e -> slice t 0 92 = slice (encode e) 0 92 -> decode t = Some z -> z = e.
Proof.
  intros He Ht Hz%decode_champs. pose proof (decode_champs _ _ (decode_encode e He)) as Hd.
  assert (forall a n, (a + n <= 92)%nat -> slice t a n = slice (encode e) a n) as Hs.
  { intros. rewrite <-(slice_slice t a n 92), <-(slice_slice (encode e) a n 92) by done.
    by rewrite Ht. }
  rewrite !Hs in Hz by lia. clear Hs Ht He. generalize dependent (encode e). intros u Hz Hd.
  destruct z as [? ? [[] []]], e as [? ? [[] []]]; simpl in *.
  destruct_and!. congruence.
Qed.

(** Where a cut write leaves the targeted copy, below and above its checksum. *)
Lemma copie_apres d e n :
  copie_visee d = (if copie_a_ecrire d.1 d.2 =? 0 then d.1 else d.2) ->
  ecrit_coupe d e n =
    if copie_a_ecrire d.1 d.2 =? 0
    then (splice (copie_visee d) 0 (take n (encode e)), d.2)
    else (d.1, splice (copie_visee d) 0 (take n (encode e))).
Proof. intros ->. unfold ecrit_coupe. by destruct (_ =? 0). Qed.

Lemma length_encode e : length (encode e) = 96%nat.
Proof. unfold encode. by rewrite length_splice, length_encode_corps. Qed.

Lemma splice_contenu (l : list Z) e n :
  length l = 96%nat -> (92 <= n)%nat ->
  slice (splice l 0 (take n (encode e))) 0 92 = slice (encode e) 0 92.
Proof.
  intros Hl Hn. rewrite splice_in by (rewrite length_take, length_encode; lia).
  rewrite take_0, app_nil_l. unfold slice. rewrite !drop_0.
  rewrite take_app_le by (rewrite length_take, length_encode; lia).
  rewrite take_take. f_equal. lia.
Qed.

Lemma splice_complet (l : list Z) e :
  length l = 96%nat -> splice l 0 (take 96 (encode e)) = encode e.
Proof.
  intros Hl. rewrite take_ge by (rewrite length_encode; lia).
  rewrite splice_in by (rewrite length_encode; lia).
  rewrite take_0, app_nil_l, drop_ge, app_nil_r; [done|]. rewrite length_encode. lia.
Qed.

(** One copy holds [e]; the other one decodes to nothing, or to a newer record. *)
Lemma disque_ancien d e t :
  disque_ok d e -> length t = OCTETS -> decode t = None ->
  disque_ok (if copie_a_ecrire d.1 d.2 =? 0 then (t, d.2) else (d.1, t)) e.
Proof.
  intros H Lt Ht. pose proof (copie_epargnee d e H) as Hc. destruct H as [L0 L1 _ A0 A1].
  destruct (_ =? 0); split; simpl; try done; try congruence;
    unfold lit, selectionne; simpl; by rewrite Hc, Ht.
Qed.

Lemma disque_nouveau d e e' t :
  disque_ok d e -> sequence e < sequence e' -> length t = OCTETS -> decode t = Some e' ->
  disque_ok (if copie_a_ecrire d.1 d.2 =? 0 then (t, d.2) else (d.1, t)) e'.
Proof.
  intros H Hs Lt Ht. pose proof (copie_epargnee d e H) as Hc. destruct H as [L0 L1 _ A0 A1].
  destruct (_ =? 0); split; simpl; try done;
    try (intros x Hx; rewrite ?Hc, ?Ht in Hx; simplify_eq; auto);
    unfold lit, selectionne; simpl; rewrite Hc, Ht;
    destruct (Z.ltb_spec (sequence e') (sequence e)), (Z.ltb_spec (sequence e) (sequence e'));
    lia || done.
Qed.

Lemma length_copie_visee d e : disque_ok d e -> length (copie_visee d) = OCTETS.
Proof. intros []. unfold copie_visee. by destruct (_ =? 0). Qed.

(** The checksum detects the mix a cut write leaves: the copy is one of the two
    whole copies, or its checksum is wrong. *)
Definition coupure_detectee (d : disque) (e' : Enregistrement) (n : nat) : Prop :=
  let t := splice (copie_visee d) 0 (take n (encode e')) in
  (n < 92)%nat ->
  t = copie_visee d \/ t = encode e' \/ crc32 (slice t 0 92) <> from_le (slice t 92 4).

Lemma ecriture_coupee d e e' n :
  disque_ok d e -> ok e' -> sequence e < sequence e' -> coupure_detectee d e' n ->
  disque_ok (ecrit_coupe d e' n) e \/ disque_ok (ecrit_coupe d e' n) e'.
Proof.
  intros H He' Hs Hcrc. rewrite copie_apres by done. pose proof (length_copie_visee d e H) as Hl.
  unfold coupure_detectee in Hcrc.
  assert (length (splice (copie_visee d) 0 (take n (encode e'))) = OCTETS) as Lt
    by (by rewrite length_splice).
  set (t := splice _ _ _) in *.
  assert (t = copie_visee d -> disque_ok (if copie_a_ecrire d.1 d.2 =? 0 then (t, d.2) else (d.1, t)) e)
    as Hsame.
  { intros ->. unfold copie_visee. destruct d. by destruct (_ =? 0). }
  destruct (decode t) as [z|] eqn:Ez; [|left; by apply disque_ancien].
  destruct (Nat.lt_ge_cases n 92) as [Hn|Hn].
  - destruct (Hcrc Hn) as [Ht|[Ht|Hx]]; [by auto| |].
    + right. apply (disque_nouveau d e); [done|done|done|]. rewrite Ht. by apply decode_encode.
    + exfalso. unfold decode in Ez. destruct (negb _ || _); [done|].
      destruct (Z.eqb_spec (crc32 (slice t 0 92)) (from_le (slice t 92 4))); done.
  - right. apply (disque_nouveau d e); [done|done|done|]. rewrite Ez. f_equal.
    eapply decode_contenu; [done| |done]. by apply splice_contenu.
Qed.

(** A write whose read-back decodes to the record leaves the disk holding it: the
    read-back makes this independent of the checksum's strength. *)
Lemma relecture_conforme d e e' n :
  disque_ok d e -> sequence e < sequence e' ->
  decode (if copie_a_ecrire d.1 d.2 =? 0 then (ecrit_coupe d e' n).1 else (ecrit_coupe d e' n).2)
    = Some e' ->
  disque_ok (ecrit_coupe d e' n) e'.
Proof.
  intros Hd Hs Hb. rewrite copie_apres in * by done.
  assert (length (splice (copie_visee d) 0 (take n (encode e'))) = OCTETS) as Lt
    by (rewrite length_splice; by eapply length_copie_visee).
  pose proof (disque_nouveau d e e' _ Hd Hs Lt) as Hn.
  destruct (_ =? 0); simpl in *; auto.
Qed.

(** C8. Atomic record write (I4): when a write of a newer record [e'] is cut after
    any number of bytes, the disk holds the old record or the new one, and still
    satisfies the invariant the next write needs. The only assumption is that the
    checksum rejects a copy that mixes new and old bytes. *)
Theorem ecriture_atomique d e e' n :
  disque_ok d e -> ok e' -> sequence e < sequence e' -> coupure_detectee d e' n ->
  disque_ok (ecrit_coupe d e' n) e \/ disque_ok (ecrit_coupe d e' n) e'.
Proof. apply ecriture_coupee. Qed.

Definition exemple_disque : disque := (encode exemple, encode exemple).
Definition exemple_suite : Enregistrement := (choisit_boot exemple).2.

Lemma disque_jumeau_ok e : ok e -> disque_ok (encode e, encode e) e.
Proof.
  intros H. pose proof (decode_encode e H) as Hd. pose proof (length_encode e).
  generalize dependent (encode e). intros u Hd Lu.
  split; simpl; try done; try (intros x Hx; right; congruence).
  unfold lit, selectionne. simpl. rewrite Hd. by rewrite Z.ltb_irrefl.
Qed.

Lemma ecriture_atomique_witness :
  disque_ok (ecrit_coupe exemple_disque exemple_suite 40) exemple
  \/ disque_ok (ecrit_coupe exemple_disque exemple_suite 40) exemple_suite.
Proof.
  apply (ecriture_atomique exemple_disque exemple exemple_suite 40).
  - apply (disque_jumeau_ok exemple exemple_ok).
  - apply (choisit_boot_ok exemple exemple_ok).
  - reflexivity.
  - unfold coupure_detectee. intros _. right. right. vm_compute. discriminate.
Defined.

(** Durable record write: once the write is complete the disk holds the new
    record, whatever the copies held before. *)
Theorem ecriture_complete d e e' :
  disque_ok d e -> ok e' -> sequence e < sequence e' -> disque_ok (ecrit d e') e'.
Proof.
  intros H He' Hs. unfold ecrit. rewrite copie_apres by done.
  rewrite splice_complet by (by eapply length_copie_visee).
  apply (disque_nouveau d e); [done|done|apply length_encode|by apply decode_encode].
Qed.

Lemma ecriture_complete_witness :
  disque_ok (ecrit exemple_disque exemple_suite) exemple_suite.
Proof.
  apply (ecriture_complete exemple_disque exemple exemple_suite).
  - apply (disque_jumeau_ok exemple exemple_ok).
  - apply (choisit_boot_ok exemple exemple_ok).
  - reflexivity.
Defined.

End AbProofs.
