(* ===== verification/UpdatePassage.v ===== *)
(** The handoff from the loader to the kernel (passage.rs), the counter of
    unconfirmed boots (echecs.rs) and the loader's decision (uefi-preboot-probe
    ab.rs): which slot boots, with which record on disk. *)

From S2P Require Import Prelude UpdateAb UpdateAbProofs.
Import Ab.

(** ** system/update-core/src/passage.rs *)
Module Passage.

Definition OCTETS : nat := 64.
(** [b"BOHO0001"] *)
Definition MAGIC : list Z := [66; 79; 72; 79; 48; 48; 48; 49].

Inductive Raison :=
| Actif | CandidatEssaiConsomme | RollbackCandidatEpuise | RollbackNonPersiste
| PersistanceImpossibleReplieActif
| RecoveryRequise | RecoveryDemandee | RecoveryEchecsRepetes.
#[export] Instance Raison_eq_dec : EqDecision Raison.
Proof. solve_decision. Defined.

Definition code (r : Raison) : Z :=
  match r with
  | Actif => 1 | CandidatEssaiConsomme => 2 | RollbackCandidatEpuise => 3
  | RollbackNonPersiste => 4 | PersistanceImpossibleReplieActif => 5
  | RecoveryRequise => 6 | RecoveryDemandee => 7 | RecoveryEchecsRepetes => 8
  end.

Definition est_recovery (r : Raison) : bool :=
  match r with
  | RecoveryRequise | RecoveryDemandee | RecoveryEchecsRepetes => true
  | _ => false
  end.

Definition depuis (c : Z) : option Raison :=
  match c with
  | 1 => Some Actif
  | 2 => Some CandidatEssaiConsomme
  | 3 => Some RollbackCandidatEpuise
  | 4 => Some RollbackNonPersiste
  | 5 => Some PersistanceImpossibleReplieActif
  | 6 => Some RecoveryRequise
  | 7 => Some RecoveryDemandee
  | 8 => Some RecoveryEchecsRepetes
  | _ => None
  end.

Record Passage := mk_passage {
  slot : Slot;
  raison : Raison;
  essais_restants : Z;
  sequence_meta : Z;
  boot_id : Z;
  meta_unique : list Z
}.

Definition encode_corps (p : Passage) : list Z :=
  let o := replicate OCTETS 0 in
  let o := splice o 0 MAGIC in
  let o := splice o 8 [index (slot p)] in
  let o := splice o 9 [code (raison p)] in
  let o := splice o 10 [essais_restants p] in
  let o := splice o 16 (to_le 8 (sequence_meta p)) in
  let o := splice o 24 (to_le 8 (boot_id p)) in
  splice o 32 (meta_unique p).

Definition encode (p : Passage) : list Z :=
  let o := encode_corps p in
  splice o 60 (to_le 4 (crc32 (slice o 0 60))).

Definition decode (o : list Z) : option Passage :=
  if (length o <? OCTETS)%nat || negb (bool_decide (slice o 0 8 = MAGIC)) then None
  else if negb (from_le (slice o 60 4) =? crc32 (slice o 0 60)) then None
  else if negb (forallb (fun b => b =? 0) (slice o 11 5 ++ slice o 48 12)) then None
  else
    s ← decode_slot (slice o 8 1);
    r ← depuis (aget o 9);
    Some (mk_passage s r (aget o 10) (from_le (slice o 16 8)) (from_le (slice o 24 8))
            (slice o 32 16)).

Inductive RefusCommit := MetaChangee | SlotNiCandidatNiActif.

Definition commit_sante (p : Passage) (e : Enregistrement)
  : option Enregistrement + RefusCommit :=
  if est_recovery (raison p) then inr SlotNiCandidatNiActif
  else if bool_decide (actif e = slot p) && bool_decide (etat (Ab.slot e (slot p)) = Bon)
  then inl None
  else if negb (sequence e =? sequence_meta p) then inr MetaChangee
  else match etat (Ab.slot e (slot p)) with
       | Candidat _ =>
           if bool_decide (raison p = CandidatEssaiConsomme)
           then inl (Some (sante_ok e (slot p))) else inr SlotNiCandidatNiActif
       | _ => inr SlotNiCandidatNiActif
       end.

End Passage.

(** ** system/update-core/src/echecs.rs *)
Module Echecs.

Definition OCTETS : nat := 16.
Definition SEUIL : Z := 3.
(** [b"BOEC"] *)
Definition MAGIC : list Z := [66; 79; 69; 67].

Definition encode (n : Z) : list Z :=
  let o := replicate OCTETS 0 in
  let o := splice o 0 MAGIC in
  let o := splice o 4 (to_le 4 n) in
  splice o 12 (to_le 4 (crc32 (slice o 0 12))).

(** Anything that is not a valid counter reads as zero. *)
Definition decode (o : list Z) : Z :=
  if (length o <? OCTETS)%nat || negb (bool_decide (slice o 0 4 = MAGIC))
     || negb (bool_decide (slice o 8 4 = [0; 0; 0; 0])) then 0
  else if negb (from_le (slice o 12 4) =? crc32 (slice o 0 12)) then 0
  else from_le (slice o 4 4).

Inductive Avant := Ecrire (n : Z) | Recovery.

Definition avant_boot (compteur : Z) (actif_normal rollback : bool) : Avant :=
  if rollback then Ecrire 0
  else if negb actif_normal then Ecrire compteur
  else if SEUIL <=? compteur then Recovery
  else Ecrire (compteur + 1).

End Echecs.

(** ** tools/reference/uefi-preboot-probe/src/ab.rs *)
Module Chargeur.
Import Passage.

(** The META partition: the two record copies and the counter block. *)
Record Meta := mk_meta { copies : disque; bloc_compteur : list Z }.

(** What the firmware answers during one boot: partitions found on this disk, the
    operator's key, and the outcome of every block operation. *)
Record Firmware := mk_fw {
  fw_meta : bool; fw_a : bool; fw_b : bool; fw_recovery : bool;
  fw_touche : bool;
  fw_lecture : bool;
  fw_persiste_lecture : bool;
  fw_octets_ecrits : nat;
  fw_ecriture : bool;
  fw_vidange : bool;
  fw_relecture : bool;
  fw_lit_compteur : bool;
  fw_ecrit_compteur : bool;
  fw_tsc : Z;
  fw_unique : list Z
}.

Inductive Motif :=
| Demandee | MetaIllisible | DeuxCopiesInvalides | EchecsRepetes | PartitionDuSlotAbsente.

Inductive Decision :=
| Legacy
| Boot (s : Slot) (p : Passage) (recovery : bool)
| RecoveryRequired (m : Motif).

(** Write to the older copy, flush, read back: true only if the re-read copy
    decodes to [e]. A failed write may have reached the disk in part. *)
Definition persiste (fw : Firmware) (d : disque) (e : Enregistrement) : bool * disque :=
  if negb (fw_persiste_lecture fw) then (false, d)
  else
    let premiere := copie_a_ecrire d.1 d.2 =? 0 in
    let d' := ecrit_coupe d e (fw_octets_ecrits fw) in
    if negb (fw_ecriture fw) || negb (fw_vidange fw) || negb (fw_relecture fw) then (false, d')
    else (bool_decide (Ab.decode (if premiere then d'.1 else d'.2) = Some e), d').

Definition lit_compteur (fw : Firmware) (m : Meta) : Z :=
  if fw_lit_compteur fw then Echecs.decode (bloc_compteur m) else 0.

Definition ecrit_compteur (fw : Firmware) (m : Meta) (n : Z) : Meta :=
  if fw_ecrit_compteur fw then mk_meta (copies m) (Echecs.encode n) else m.

(** [sequence.rotate_left(32)] on 64 bits. *)
Definition rotate32 (x : Z) : Z := Z.lor (Z.shiftl x 32 mod u64_max) (Z.shiftr x 32).
Definition boot_id_de (fw : Firmware) (sequence : Z) : Z :=
  Z.lxor (Z.lxor (fw_tsc fw) (rotate32 sequence)) 0xB0AB000000000000.

(** RECOVERY when its partition exists, otherwise stop. *)
Definition vers_recovery (fw : Firmware) (r : Raison) (motif : Motif)
    (e : option Enregistrement) : Decision :=
  if fw_recovery fw then
    let s := match e with Some e => actif e | None => Slot_A end in
    let sq := match e with Some e => sequence e | None => 0 end in
    Boot s (mk_passage s r 0 sq (boot_id_de fw sq) (fw_unique fw)) true
  else RecoveryRequired motif.

(** The A/B part of [decide]: the slot kept, the reason, the record on disk. *)
Definition decide_ab (fw : Firmware) (m : Meta) (e : Enregistrement)
  : Slot * Raison * Enregistrement * Meta :=
  let '(s, apres) := choisit_boot e in
  if bool_decide (apres = e) then (s, Actif, e, m)
  else
    let '(persiste_ok, d') := persiste fw (copies m) apres in
    let m' := mk_meta d' (bloc_compteur m) in
    if persiste_ok then
      (s, if bool_decide (s <> actif e) then CandidatEssaiConsomme else RollbackCandidatEpuise,
       apres, m')
    else if bool_decide (s <> actif e)
    then (actif e, PersistanceImpossibleReplieActif, e, m')
    else (s, RollbackNonPersiste, e, m').

Definition decide (fw : Firmware) (m : Meta) : Decision * Meta :=
  if negb (fw_meta fw) then (Legacy, m)
  else
    let lu := if fw_lecture fw then Some (copies m) else None in
    let e := d ← lu; lit d in
    if fw_touche fw then (vers_recovery fw RecoveryDemandee Demandee e, m)
    else match e with
    | None =>
        (vers_recovery fw RecoveryRequise
           (match lu with None => MetaIllisible | Some _ => DeuxCopiesInvalides end) None, m)
    | Some e =>
        let '(choisi, r, sur_disque, m1) := decide_ab fw m e in
        let compteur := lit_compteur fw m1 in
        match Echecs.avant_boot compteur (bool_decide (r = Actif))
                (bool_decide (r = RollbackCandidatEpuise)) with
        | Echecs.Recovery =>
            (vers_recovery fw RecoveryEchecsRepetes EchecsRepetes (Some sur_disque), m1)
        | Echecs.Ecrire n =>
            let m2 := if negb (n =? compteur) then ecrit_compteur fw m1 n else m1 in
            let essais :=
              match etat (Ab.slot sur_disque choisi) with Candidat k => k | _ => 0 end in
            let p := mk_passage choisi r essais (sequence sur_disque)
                       (boot_id_de fw (sequence sur_disque)) (fw_unique fw) in
            if match choisi with Slot_A => fw_a fw | Slot_B => fw_b fw end
            then (Boot choisi p false, m2)
            else (vers_recovery fw RecoveryRequise PartitionDuSlotAbsente (Some sur_disque), m2)
        end
    end.

(** Consecutive boots under the same firmware answers, none confirmed healthy. *)
Fixpoint demarrages (n : nat) (fw : Firmware) (m : Meta) : list Decision :=
  match n with
  | O => []
  | S n => let '(d, m') := decide fw m in d :: demarrages n fw m'
  end.

(** The slot handed to the kernel, and whether it is the RECOVERY system. *)
Definition issue (d : Decision) : option (Slot * bool) :=
  match d with Boot s _ r => Some (s, r) | _ => None end.

End Chargeur.

(** Correctness of the handoff and of the loader's decision: the kernel receives
    what the loader wrote, a candidate only boots once its consumed attempt is
    durable, and a health commit only promotes the slot that really booted. *)

Import Ab AbProofs.

Module PassageProofs.
Import Passage.

Record passage_ok (p : Passage) : Prop := {
  po_essais : octet (essais_restants p);
  po_seq : 0 <= sequence_meta p < u64_max;
  po_id : 0 <= boot_id p < u64_max;
  po_len : length (meta_unique p) = 16%nat;
  po_oct : Forall octet (meta_unique p)
}.

Lemma depuis_code r : depuis (code r) = Some r.
Proof. by destruct r. Qed.

Lemma passage_length_encode_corps p : length (encode_corps p) = 64%nat.
Proof. unfold encode_corps. by rewrite !length_splice. Qed.

Lemma passage_corps_octets p : passage_ok p -> Forall octet (encode_corps p).
Proof.
  intros []. unfold encode_corps. repeat apply Forall_splice; auto with os;
    repeat constructor; unfold octet; try lia; try done.
  - by destruct (slot p).
  - by destruct (slot p).
  - by destruct (raison p).
  - by destruct (raison p).
Qed.

Lemma aget_slice (l : list Z) i x : slice l i 1 = [x] -> aget l (Z.of_nat i) = x.
Proof.
  intros H. unfold aget. rewrite Nat2Z.id.
  pose proof (lookup_slice l i 1 0 ltac:(lia)) as Hl. rewrite H, Nat.add_0_r in Hl.
  by rewrite <-Hl.
Qed.

Ltac champs :=
  intros [_ _ _ Lu _]; unfold encode_corps, OCTETS; tranches; done.

Lemma passage_corps_magic p : passage_ok p -> slice (encode_corps p) 0 8 = MAGIC.
Proof. champs. Qed.
Lemma corps_slot p : passage_ok p -> slice (encode_corps p) 8 1 = [index (slot p)].
Proof. champs. Qed.
Lemma corps_raison p : passage_ok p -> slice (encode_corps p) 9 1 = [code (raison p)].
Proof. champs. Qed.
Lemma corps_essais p : passage_ok p -> slice (encode_corps p) 10 1 = [essais_restants p].
Proof. champs. Qed.
Lemma passage_corps_seq p : passage_ok p -> slice (encode_corps p) 16 8 = to_le 8 (sequence_meta p).
Proof. champs. Qed.
Lemma corps_id p : passage_ok p -> slice (encode_corps p) 24 8 = to_le 8 (boot_id p).
Proof. champs. Qed.
Lemma corps_unique p : passage_ok p -> slice (encode_corps p) 32 16 = meta_unique p.
Proof. champs. Qed.
Lemma corps_pad1 p : passage_ok p -> slice (encode_corps p) 11 5 = replicate 5 0.
Proof. champs. Qed.
Lemma corps_pad2 p : passage_ok p -> slice (encode_corps p) 48 12 = replicate 12 0.
Proof. champs. Qed.

Lemma passage_slice_encode p a n :
  (a + n <= 60)%nat -> slice (encode p) a n = slice (encode_corps p) a n.
Proof.
  intros. unfold encode. apply slice_splice_ne; rewrite ?passage_length_encode_corps, ?length_to_le; lia.
Qed.

(** Round trip of the boot handoff: the kernel decodes exactly the slot,
    reason, remaining attempts, sequence, boot identity and META partition the
    loader wrote, also when the page it reads is longer than the record. *)
Theorem passage_decode_encode p suite :
  passage_ok p -> decode (encode p ++ suite) = Some p.
Proof.
  intros H. unfold decode.
  assert (length (encode p) = 64%nat) as Hl
    by (unfold encode; by rewrite length_splice, passage_length_encode_corps).
  assert (forall a n, (a + n <= 64)%nat -> slice (encode p ++ suite) a n = slice (encode p) a n)
    as Ha by (intros; apply slice_app_l; lia).
  rewrite !Ha by lia.
  assert (from_le (slice (encode p) 60 4) = crc32 (slice (encode_corps p) 0 60)) as ->.
  { unfold encode. rewrite slice_splice_eq;
      [|by rewrite passage_length_encode_corps, length_to_le|by rewrite length_to_le].
    apply (from_to_le_small 4). apply crc32_range, Forall_slice, passage_corps_octets, H. }
  rewrite (aget_slice _ 9 (code (raison p))), (aget_slice _ 10 (essais_restants p))
    by (rewrite Ha, passage_slice_encode by lia; auto using corps_raison, corps_essais).
  rewrite !passage_slice_encode by lia.
  rewrite passage_corps_magic, corps_slot, passage_corps_seq, corps_id, corps_unique, corps_pad1, corps_pad2 by done.
  rewrite length_app, Hl, bool_decide_true, Z.eqb_refl, decode_index, depuis_code by done.
  rewrite (from_to_le_small 8 (sequence_meta p)) by exact (po_seq _ H).
  rewrite (from_to_le_small 8 (boot_id p)) by exact (po_id _ H). by destruct p.
Qed.

Definition exemple_passage : Passage :=
  mk_passage Slot_B CandidatEssaiConsomme 2 6 0xB0AB000600000001 (replicate 16 9).

Lemma passage_decode_encode_witness :
  decode (encode exemple_passage ++ replicate 10 1) = Some exemple_passage.
Proof.
  apply (passage_decode_encode exemple_passage (replicate 10 1)).
  split; simpl; unfold octet, u64_max; try lia; try done.
  repeat constructor; lia.
Defined.

End PassageProofs.

Module ChargeurProofs.
Import Passage Chargeur.
Local Abbreviation slot := Ab.slot.

Lemma persiste_vrai fw d e e' d' :
  disque_ok d e -> sequence e < sequence e' ->
  persiste fw d e' = (true, d') -> lit d' = Some e'.
Proof.
  intros Hd Hs H. unfold persiste in H. cas H. cas H.
  apply do_lit. by apply (relecture_conforme d e).
Qed.

Lemma choisit_boot_sequence e :
  ok e -> sequence e + 1 < u64_max -> (choisit_boot e).2 <> e ->
  sequence (choisit_boot e).2 = sequence e + 1.
Proof.
  intros [Hs _ _ _] Hb. unfold choisit_boot. destruct (etat _); simpl; try done.
  intros _. destruct (0 <? essais); simpl; unfold wrapping_add64; apply Z.mod_small; lia.
Qed.

Record candidat_durable (e sd : Enregistrement) (s : Slot) (r : Raison) (m' : Meta) : Prop := {
  cd_raison : r = CandidatEssaiConsomme;
  cd_slot : s = autre (actif e);
  cd_disque : lit (copies m') = Some sd;
  cd_actif : actif sd = actif e;
  cd_repli : slot sd (actif e) = slot e (actif e);
  cd_essai : exists k, 0 < k /\ etat (slot e s) = Candidat k /\ etat (slot sd s) = Candidat (k - 1)
}.

Record actif_garde (e sd : Enregistrement) (s : Slot) (r : Raison) : Prop := {
  ag_raison : r <> CandidatEssaiConsomme;
  ag_recovery : est_recovery r = false;
  ag_slot : s = actif e;
  ag_actif : actif sd = actif e;
  ag_bon : etat (slot sd s) = Bon
}.

Lemma decide_ab_spec fw m e s r sd m' :
  ok e -> sequence e + 1 < u64_max -> disque_ok (copies m) e ->
  decide_ab fw m e = (s, r, sd, m') ->
  bloc_compteur m' = bloc_compteur m
  /\ (candidat_durable e sd s r m' \/ actif_garde e sd s r).
Proof.
  intros He Hb Hd H. unfold decide_ab in H.
  pose proof (choisit_boot_cas e He) as Hc. pose proof (choisit_boot_sequence e He Hb) as Hq.
  pose proof (choisit_boot_ok e He) as Hok.
  destruct (choisit_boot e) as [c apres]. simpl in *.
  destruct Hc as (Ha & Hr & Hc). pose proof (ok_actif _ He) as Hbon.
  assert (etat (slot apres (actif e)) = Bon) as Hbon' by (by rewrite Hr).
  case_bool_decide as Hn.
  - simplify_eq. split; [done|]. right.
    destruct Hc as [(-> & ?)|(-> & k & ? & ? & ?)]; [by split|].
    assert (k = k - 1) by congruence. lia.
  - destruct (persiste fw (copies m) apres) as [vrai d'] eqn:Ep. destruct vrai.
    + apply (persiste_vrai _ _ e) in Ep; [|done|rewrite Hq by done; lia].
      simplify_eq. split; [done|].
      destruct Hc as [(-> & _)|(-> & k & ? & ? & Hk)].
      * right. rewrite bool_decide_false by auto. by split.
      * left. rewrite bool_decide_true by apply autre_ne. split; try done. by exists k.
    + destruct Hc as [(-> & _)|(-> & k & ? & ? & Hk)].
      * rewrite bool_decide_false in H by auto. simplify_eq. split; [done|].
        right. by split.
      * rewrite bool_decide_true in H by apply autre_ne. simplify_eq. split; [done|].
        right. by split.
Qed.

(** The loader booted a slot (not RECOVERY) from the record [e]. *)
Lemma decide_boot fw m e s p m' :
  fw_lecture fw = true -> lit (copies m) = Some e ->
  decide fw m = (Boot s p false, m') ->
  exists sd m1, decide_ab fw m e = (s, raison p, sd, m1) /\ copies m' = copies m1
    /\ Passage.slot p = s /\ sequence_meta p = sequence sd.
Proof.
  intros Hl He H. unfold decide, vers_recovery in H. rewrite Hl in H. simpl in H.
  rewrite He in H. destruct (fw_meta fw); [|done]. simpl in H.
  destruct (fw_touche fw); [by destruct (fw_recovery fw)|].
  destruct (decide_ab fw m e) as [[[c r] sd] m1].
  destruct (Echecs.avant_boot _ _ _) as [n|]; [|by destruct (fw_recovery fw)].
  destruct (match c with Slot_A => _ | Slot_B => _ end); [|by destruct (fw_recovery fw)].
  simplify_eq/=. exists sd, m1. split; [done|]. split; [|done].
  unfold ecrit_compteur. by repeat cas_but.
Qed.

(** Durability before boot: if the loader boots a slot that is not the active
    one, then that slot was a candidate with an attempt left, and the record on
    disk, as the next boot will read it, already has that attempt consumed; the
    active slot and its state are unchanged. Otherwise it boots the Good slot. *)
Theorem chargeur_candidat_durable fw m e s p m' :
  ok e -> sequence e + 1 < u64_max -> disque_ok (copies m) e -> fw_lecture fw = true ->
  decide fw m = (Boot s p false, m') ->
  (s = actif e /\ etat (slot e s) = Bon)
  \/ (s <> actif e /\ raison p = CandidatEssaiConsomme
      /\ exists sd k, lit (copies m') = Some sd /\ 0 < k
        /\ etat (slot e s) = Candidat k /\ etat (slot sd s) = Candidat (k - 1)
        /\ actif sd = actif e /\ slot sd (actif e) = slot e (actif e)).
Proof.
  intros He Hb Hd Hl H.
  destruct (decide_boot _ _ e _ _ _ Hl (do_lit _ _ Hd) H) as (sd & m1 & Hab & Hc & _ & _).
  destruct (decide_ab_spec _ _ _ _ _ _ _ He Hb Hd Hab) as [_ [[? -> Hlit ? ? (k & ? & ? & ?)]|[]]].
  - right. split; [apply autre_ne|]. split; [done|]. exists sd, k. rewrite Hc. by split_and!.
  - left. subst s. split; [done|]. apply He.
Qed.

(** Health commit after a boot: on the record the loader left, confirming the
    health of a booted candidate makes exactly that slot active and Good and keeps
    the previous active slot Good; after a boot of the active slot (nothing
    pending, rollback, or an attempt that could not be made durable) the commit
    changes nothing, so a candidate that did not run is never promoted. *)
Theorem commit_suit_boot fw m e s p m' :
  ok e -> sequence e + 1 < u64_max -> disque_ok (copies m) e -> fw_lecture fw = true ->
  decide fw m = (Boot s p false, m') ->
  if bool_decide (s = actif e)
  then commit_sante p e = inl None /\ commit_sante p (choisit_boot e).2 = inl None
  else exists sd n, lit (copies m') = Some sd /\ commit_sante p sd = inl (Some n)
       /\ actif n = s /\ etat (slot n s) = Bon /\ etat (slot n (actif e)) = Bon.
Proof.
  intros He Hb Hd Hl H.
  destruct (decide_boot _ _ e _ _ _ Hl (do_lit _ _ Hd) H) as (sd & m1 & Hab & Hc & Hs & Hq).
  destruct (decide_ab_spec _ _ _ _ _ _ _ He Hb Hd Hab) as [_ [Hcd|Hag]].
  - destruct Hcd as [Hr -> Hlit Ha Hrep (k & _ & _ & Hk)].
    rewrite bool_decide_false by apply autre_ne. exists sd, (sante_ok sd (Passage.slot p)).
    rewrite Hc, Hs. split; [done|]. unfold commit_sante, sante_ok. rewrite Hr, Hs, Hk, Hq.
    rewrite Z.eqb_refl, (bool_decide_false (Candidat (k - 1) = Bon)), andb_false_r by done.
    simpl. split; [done|]. split; [done|]. pose proof (ok_actif _ He) as Hbon.
    rewrite <-Hrep in Hbon. by destruct (actif e).
  - destruct Hag as [Hr Hrec -> Ha Hbon]. rewrite bool_decide_true by done.
    pose proof (choisit_boot_ok e He) as Hok. pose proof (choisit_boot_cas e He) as Hcas.
    destruct (choisit_boot e) as [c n]. destruct Hcas as (Hn & Hrep & _). simpl in *.
    unfold commit_sante. rewrite Hrec, Hs, Hn, Hrep, (ok_actif _ He).
    by rewrite !bool_decide_true.
Qed.

Definition fw_exemple : Firmware :=
  mk_fw true true true true false true true 96 true true true true true 77 (replicate 16 9).
Definition meta_exemple : Meta := mk_meta exemple_disque (Echecs.encode 0).

Lemma meta_exemple_ok : disque_ok (copies meta_exemple) exemple.
Proof. apply (disque_jumeau_ok exemple exemple_ok). Qed.

Lemma chargeur_candidat_durable_witness :
  exists s p m', decide fw_exemple meta_exemple = (Boot s p false, m')
  /\ s <> actif exemple /\ raison p = CandidatEssaiConsomme.
Proof.
  destruct (decide fw_exemple meta_exemple) as [d m'] eqn:E.
  destruct d as [|s p [|]|]; [vm_compute in E; discriminate E..| |vm_compute in E; discriminate E].
  exists s, p, m'. split; [reflexivity|].
  destruct (chargeur_candidat_durable fw_exemple meta_exemple exemple s p m' exemple_ok
              ltac:(reflexivity) meta_exemple_ok eq_refl E) as [[H _]|(H & H' & _)];
    [|exact (conj H H')].
  exfalso. assert (s = Slot_B) as Hs by (vm_compute in E; congruence).
  rewrite Hs in H. discriminate H.
Defined.

Lemma commit_suit_boot_witness :
  exists s p m', decide fw_exemple meta_exemple = (Boot s p false, m')
  /\ exists sd n, lit (copies m') = Some sd /\ commit_sante p sd = inl (Some n)
    /\ actif n = Slot_B.
Proof.
  destruct (decide fw_exemple meta_exemple) as [d m'] eqn:E.
  destruct d as [|s p [|]|]; [vm_compute in E; discriminate E..| |vm_compute in E; discriminate E].
  exists s, p, m'. split; [reflexivity|].
  assert (s = Slot_B) as -> by (vm_compute in E; congruence).
  destruct (commit_suit_boot fw_exemple meta_exemple exemple Slot_B p m' exemple_ok
              ltac:(reflexivity) meta_exemple_ok eq_refl E) as (sd & n & H1 & H2 & H3 & _).
  exists sd, n. exact (conj H1 (conj H2 H3)).
Defined.

(** RECOVERY never confirms anything: after any boot of the RECOVERY system,
    whatever record is then on disk, a health commit is refused. *)
Theorem recovery_ne_confirme fw m s p m' e :
  decide fw m = (Boot s p true, m') -> commit_sante p e = inr SlotNiCandidatNiActif.
Proof.
  intros H.
  assert (est_recovery (raison p) = true) as Hr; [|unfold commit_sante; by rewrite Hr].
  unfold decide, vers_recovery in H.
  repeat match type of H with
  | context [if ?b then _ else _] => destruct b
  | context [match ?x with _ => _ end] => destruct x
  end; simplify_eq; done.
Qed.

Lemma recovery_ne_confirme_witness :
  exists s p m', decide (mk_fw true true true true true true true 96 true true true true true 77
                           (replicate 16 9)) meta_exemple = (Boot s p true, m')
  /\ commit_sante p exemple = inr SlotNiCandidatNiActif.
Proof.
  destruct (decide _ meta_exemple) as [d m'] eqn:E.
  destruct d as [|s p [|]|];
    [vm_compute in E; discriminate E| |vm_compute in E; discriminate E..].
  exists s, p, m'. split; [reflexivity|].
  exact (recovery_ne_confirme _ _ _ _ _ exemple E).
Defined.

(** ** The counter of unconfirmed boots *)

Lemma compteur_encode n : 0 <= n < u32_max -> Echecs.decode (Echecs.encode n) = n.
Proof.
  intros Hn. unfold Echecs.decode, Echecs.encode, Echecs.OCTETS.
  set (c := splice (splice _ 0 Echecs.MAGIC) 4 (to_le 4 n)).
  assert (length c = 16%nat) as Hc by (unfold c; by rewrite !length_splice, length_replicate).
  assert (Forall octet c) as Ho.
  { unfold c. repeat apply Forall_splice; auto with os; repeat constructor; done. }
  rewrite length_splice, Hc.
  rewrite (slice_splice_eq c 12) by (rewrite ?Hc, length_to_le; lia).
  rewrite !(slice_splice_ne c 12) by (rewrite ?Hc, ?length_to_le; lia).
  rewrite (from_to_le_small 4 (crc32 _)) by (apply crc32_range, Forall_slice, Ho).
  assert (slice c 0 4 = Echecs.MAGIC /\ slice c 8 4 = [0; 0; 0; 0] /\ slice c 4 4 = to_le 4 n)
    as (-> & -> & ->) by (unfold c; split_and!; tranches; done).
  rewrite Z.eqb_refl, !bool_decide_true by done. by apply (from_to_le_small 4).
Qed.

Section Compteur.
Context (fw : Firmware) (e : Enregistrement).
Hypothesis fw_bon : fw_meta fw = true /\ fw_lecture fw = true /\ fw_touche fw = false
  /\ fw_lit_compteur fw = true /\ fw_ecrit_compteur fw = true /\ fw_recovery fw = true.
Hypothesis partition : (match actif e with Slot_A => fw_a fw | Slot_B => fw_b fw end) = true.
Hypothesis stable : est_candidat (etat (slot e (autre (actif e)))) = false.

Lemma decide_stable m :
  lit (copies m) = Some e -> Echecs.decode (bloc_compteur m) < 3 ->
  exists p, decide fw m =
    (Boot (actif e) p false,
     mk_meta (copies m) (Echecs.encode (Echecs.decode (bloc_compteur m) + 1))).
Proof.
  destruct fw_bon as (Hm & Hl & Ht & Hc & Hw & Hr). intros Hd Hlt.
  assert (choisit_boot e = (actif e, e)) as Hb by (unfold choisit_boot; by destruct (etat _)).
  unfold decide. rewrite Hm, Hl, Ht. simpl. rewrite Hd. unfold decide_ab. rewrite Hb.
  rewrite bool_decide_true by done. unfold lit_compteur, ecrit_compteur. rewrite Hc, Hw.
  unfold Echecs.avant_boot, Echecs.SEUIL. simpl.
  destruct (Z.leb_spec 3 (Echecs.decode (bloc_compteur m))); [lia|].
  rewrite partition. destruct (Z.eqb_spec (Echecs.decode (bloc_compteur m) + 1)
    (Echecs.decode (bloc_compteur m))); [lia|]. by eexists.
Qed.

Lemma decide_seuil m :
  lit (copies m) = Some e -> 3 <= Echecs.decode (bloc_compteur m) ->
  exists p, decide fw m = (Boot (actif e) p true, m).
Proof.
  destruct fw_bon as (Hm & Hl & Ht & Hc & Hw & Hr). intros Hd Hge.
  assert (choisit_boot e = (actif e, e)) as Hb by (unfold choisit_boot; by destruct (etat _)).
  unfold decide. rewrite Hm, Hl, Ht. simpl. rewrite Hd. unfold decide_ab. rewrite Hb.
  rewrite bool_decide_true by done. unfold lit_compteur. rewrite Hc.
  unfold Echecs.avant_boot, Echecs.SEUIL. simpl.
  destruct (Z.leb_spec 3 (Echecs.decode (bloc_compteur m))); [|lia].
  unfold vers_recovery. rewrite Hr. by eexists.
Qed.

Lemma demarrages_seuil n m :
  lit (copies m) = Some e -> 3 <= Echecs.decode (bloc_compteur m) ->
  issue <$> demarrages n fw m = replicate n (Some (actif e, true)).
Proof.
  intros Hd Hc. induction n as [|n IH]; [done|]. cbn [demarrages].
  destruct (decide_seuil m Hd Hc) as (p & ->). simpl. by f_equal.
Qed.

Lemma demarrages_stable (k n : nat) m :
  lit (copies m) = Some e -> Echecs.decode (bloc_compteur m) = 3 - Z.of_nat k -> (k <= 3)%nat ->
  issue <$> demarrages (k + n) fw m
  = replicate k (Some (actif e, false)) ++ replicate n (Some (actif e, true)).
Proof.
  revert m. induction k as [|k IH]; intros m Hd Hc Hk.
  - simpl. apply demarrages_seuil; [done|lia].
  - cbn [Nat.add demarrages]. destruct (decide_stable m Hd) as (p & ->); [lia|].
    simpl. f_equal. apply IH; [done| |lia]. simpl.
    rewrite compteur_encode; unfold u32_max; lia.
Qed.
End Compteur.

(** A broken active slot is not booted forever: with no candidate pending and
    no health confirmation, the loader boots the active slot exactly three times
    (SEUIL), then boots RECOVERY every time. *)
Theorem actif_defaillant_borne fw e m n :
  fw_meta fw = true /\ fw_lecture fw = true /\ fw_touche fw = false
    /\ fw_lit_compteur fw = true /\ fw_ecrit_compteur fw = true /\ fw_recovery fw = true ->
  (match actif e with Slot_A => fw_a fw | Slot_B => fw_b fw end) = true ->
  est_candidat (etat (slot e (autre (actif e)))) = false ->
  lit (copies m) = Some e -> Echecs.decode (bloc_compteur m) = 0 ->
  issue <$> demarrages (3 + n) fw m
  = replicate 3 (Some (actif e, false)) ++ replicate n (Some (actif e, true)).
Proof. intros. by apply (demarrages_stable fw e). Qed.

Definition exemple_stable : Enregistrement := initial Slot_A exemple_image.

Lemma actif_defaillant_borne_witness :
  issue <$> demarrages (3 + 2) fw_exemple
    (mk_meta (Ab.encode exemple_stable, Ab.encode exemple_stable) (Echecs.encode 0))
  = replicate 3 (Some (Slot_A, false)) ++ replicate 2 (Some (Slot_A, true)).
Proof.
  apply (actif_defaillant_borne fw_exemple exemple_stable); try reflexivity.
  repeat split.
Defined.

End ChargeurProofs.
