(* ===== verification/UpdateManifeste.v ===== *)
(** The signed release manifest (system/update-core/src/manifeste.rs): the parser
    of the canonical five-line form, the signature check, and the proof that the
    form is canonical, with the printer that inverts the parser. *)

From stdpp Require Import strings.
From S2P Require Import Prelude.

Module Manifeste.

(** A Rust byte string literal. *)
Fixpoint octets_de (s : string) : list Z :=
  match s with
  | EmptyString => []
  | String c s => Z.of_N (Ascii.N_of_ascii c) :: octets_de s
  end.
Definition LF : Z := 10.

Record CleDeConfiance := mk_cle {
  publique : list Z;
  developpement : bool
}.

(** [version] is the [[u8; 64]] buffer, of which [version_len] bytes count. *)
Record Manifeste := mk_manifeste {
  version : list Z;
  version_len : nat;
  empreinte : list Z;
  octets : Z;
  essais : Z
}.

Inductive RefusManifeste := Format | AucuneCleDeConfiance | SignatureNonFiable.

(** The value of the line at [pos] that starts with [cle], and the next position.
    Its only refusal is [Format]. *)
Definition ligne (t : list Z) (pos : nat) (cle : list Z) : option (list Z * nat) :=
  let reste := drop pos t in
  '(fin, _) ← list_find (fun b => b = LF) reste;
  let l := take fin reste in
  if (length l <? length cle)%nat || negb (bool_decide (take (length cle) l = cle)) then None
  else Some (drop (length cle) l, (pos + fin + 1)%nat).

Definition hexval (c : Z) : option Z :=
  if (48 <=? c) && (c <=? 57) then Some (c - 48)
  else if (97 <=? c) && (c <=? 102) then Some (c - 97 + 10)
  else None.

(** The loop over the 32 pairs of hexadecimal digits. *)
Fixpoint hex_octets (h : list Z) : option (list Z) :=
  match h with
  | [] => Some []
  | a :: b :: h =>
      x ← hexval a; y ← hexval b; r ← hex_octets h;
      Some (Z.lor (Z.shiftl x 4) y :: r)
  | [_] => None
  end.

Definition is_digit (c : Z) : bool := (48 <=? c) && (c <=? 57).
Definition is_alnum (c : Z) : bool :=
  is_digit c || ((65 <=? c) && (c <=? 90)) || ((97 <=? c) && (c <=? 122)).
(** [A-Za-z0-9._+-] *)
Definition version_char (c : Z) : bool :=
  is_alnum c || (c =? 46) || (c =? 95) || (c =? 43) || (c =? 45).

Definition valeur (o : list Z) : Z := fold_left (fun n c => n * 10 + (c - 48)) o 0.

Definition analyse (t : list Z) : option Manifeste :=
  '(entete, pos) ← ligne t 0 (octets_de "bouchaud-manifeste-v1");
  if negb (length entete =? 0)%nat then None else
  '(v, pos) ← ligne t pos (octets_de "version=");
  if (length v =? 0)%nat || (64 <? length v)%nat || negb (forallb version_char v) then None else
  '(h, pos) ← ligne t pos (octets_de "image_sha256=");
  if negb (length h =? 64)%nat then None else
  emp ← hex_octets h;
  '(o, pos) ← ligne t pos (octets_de "image_octets=");
  if (length o =? 0)%nat || (19 <? length o)%nat || (nth 0 o 0 =? 48)
     || negb (forallb is_digit o) then None else
  '(e, pos) ← ligne t pos (octets_de "essais=");
  if negb (length e =? 1)%nat || negb ((49 <=? nth 0 e 0) && (nth 0 e 0 <=? 57)) then None else
  if negb (pos =? length t)%nat then None else
  Some (mk_manifeste (v ++ replicate (64 - length v) 0) (length v) emp (valeur o)
          (nth 0 e 0 - 48)).

(** [verifie publique message signature] is the Ed25519 check of ed25519.rs. *)
Definition verifie_signe (verifie : list Z -> list Z -> list Z -> bool)
    (t signature : list Z) (cles : list CleDeConfiance)
  : (Manifeste * CleDeConfiance) + RefusManifeste :=
  match cles with
  | [] => inr AucuneCleDeConfiance
  | _ =>
      match List.find (fun c => verifie (publique c) t signature) cles with
      | None => inr SignatureNonFiable
      | Some cle => match analyse t with Some m => inl (m, cle) | None => inr Format end
      end
  end.

(** ** The canonical text of a manifest *)

Definition hexdigit (x : Z) : Z := if x <? 10 then 48 + x else 87 + x.
Definition hex_texte (l : list Z) : list Z :=
  l ≫= fun b => [hexdigit (b / 16); hexdigit (b mod 16)].

Fixpoint chiffres (fuel : nat) (n : Z) (acc : list Z) : list Z :=
  match fuel with
  | O => acc
  | S f => if n <? 10 then 48 + n :: acc else chiffres f (n / 10) (48 + n mod 10 :: acc)
  end.

Definition imprime (m : Manifeste) : list Z :=
  octets_de "bouchaud-manifeste-v1" ++ LF ::
  octets_de "version=" ++ take (version_len m) (version m) ++ LF ::
  octets_de "image_sha256=" ++ hex_texte (empreinte m) ++ LF ::
  octets_de "image_octets=" ++ chiffres 19 (octets m) [] ++ LF ::
  octets_de "essais=" ++ [48 + essais m] ++ [LF].

Record manifeste_ok (m : Manifeste) : Prop := {
  mo_len : (1 <= version_len m <= 64)%nat;
  mo_buf : length (version m) = 64%nat;
  mo_version : forallb version_char (take (version_len m) (version m)) = true;
  mo_pad : drop (version_len m) (version m) = replicate (64 - version_len m) 0;
  mo_emp : length (empreinte m) = 32%nat;
  mo_emp_oct : Forall octet (empreinte m);
  mo_octets : 0 < octets m < 10 ^ 19;
  mo_essais : 1 <= essais m <= 9
}.

(** ** Lines *)

Lemma ligne_inv t pos cle v pos' :
  ligne t pos cle = Some (v, pos') ->
  drop pos t = cle ++ v ++ LF :: drop pos' t /\ LF ∉ v.
Proof.
  intros H. unfold ligne in H. apply bind_Some in H as ([fin x] & Hf & H).
  apply list_find_Some in Hf as (Hx & -> & Hav). cas H.
  assert (fin < length (drop pos t))%nat as Hlt by (by eapply lookup_lt_Some).
  rewrite <-(take_drop fin (drop pos t)) at 1. split.
  - rewrite <-(take_drop (length cle) (take fin (drop pos t))) at 1.
    match goal with Hp : take _ (take _ _) = cle |- _ => rewrite Hp end.
    rewrite <-app_assoc. do 2 f_equal. rewrite (drop_S _ _ _ Hx). f_equal.
    rewrite drop_drop. f_equal. lia.
  - intros Hin. apply list_elem_of_lookup in Hin as (i & Hi).
    rewrite lookup_drop in Hi. apply lookup_take_Some in Hi as [Hi ?].
    by apply (Hav _ _ Hi).
Qed.

Lemma ligne_app pre cle v post :
  LF ∉ cle -> LF ∉ v ->
  ligne (pre ++ cle ++ v ++ LF :: post) (length pre) cle
  = Some (v, (length pre + length cle + length v + 1)%nat).
Proof.
  intros Hc Hv. unfold ligne. rewrite drop_app_length.
  assert (list_find (fun b => b = LF) (cle ++ v ++ LF :: post)
    = Some ((length cle + length v)%nat, LF)) as ->.
  { apply list_find_Some. rewrite app_assoc, lookup_app_r by (rewrite length_app; lia).
    rewrite length_app, Nat.sub_diag. split; [done|]. split; [done|].
    intros j y Hj Hlt ->. rewrite lookup_app_l in Hj by (rewrite length_app; lia).
    apply list_elem_of_lookup_2, elem_of_app in Hj as [?|?]; contradiction. }
  simpl. rewrite app_assoc, take_app_length' by (rewrite length_app; lia).
  rewrite length_app, take_app_length, drop_app_length.
  destruct (Nat.ltb_spec (length cle + length v) (length cle)); [lia|].
  rewrite bool_decide_true by done. simpl. do 2 f_equal. lia.
Qed.

(** ** Hexadecimal digits *)

Lemma hexval_range c x : hexval c = Some x -> 0 <= x < 16 /\ hexdigit x = c.
Proof.
  unfold hexval, hexdigit. intros H. repeat cas H;
    (split; [lia|]); match goal with |- context [?a <? ?b] => destruct (Z.ltb_spec a b) end; lia.
Qed.

Lemma hexval_hexdigit x : 0 <= x < 16 -> hexval (hexdigit x) = Some x /\ hexdigit x <> LF.
Proof.
  intros Hx. unfold hexdigit, LF.
  assert (x = 0 \/ x = 1 \/ x = 2 \/ x = 3 \/ x = 4 \/ x = 5 \/ x = 6 \/ x = 7 \/ x = 8 \/ x = 9
    \/ x = 10 \/ x = 11 \/ x = 12 \/ x = 13 \/ x = 14 \/ x = 15) as Hc by lia.
  by repeat destruct Hc as [->|Hc]; [..|subst].
Qed.

(** [x << 4 | y] for two hexadecimal digits. *)
Lemma paire_hex x y : 0 <= x -> 0 <= y < 16 -> Z.lor (Z.shiftl x 4) y = 16 * x + y.
Proof.
  intros. rewrite Z.shiftl_mul_pow2, (lor_disjoint 4) by lia. lia.
Qed.

Lemma hex_octets_inv h l :
  hex_octets h = Some l -> length h = (2 * length l)%nat -> Forall octet l /\ hex_texte l = h.
Proof.
  revert h. induction l as [|z l IH]; intros h H Hl.
  - destruct h; [done|]. simpl in Hl. lia.
  - destruct h as [|a [|b h]]; [done|done|]. simpl in H.
    apply bind_Some in H as (x & Hx & H). apply bind_Some in H as (y & Hy & H).
    apply bind_Some in H as (r & Hr & H). simplify_eq.
    apply hexval_range in Hx as [Hx <-]. apply hexval_range in Hy as [Hy <-].
    destruct (IH h Hr) as [IH1 IH2]; [simpl in Hl; lia|]. rewrite paire_hex by lia. split.
    + constructor; [unfold octet; lia|done].
    + cbn [hex_texte mbind list_bind]. unfold hex_texte in IH2. rewrite IH2.
      rewrite (Z.mul_comm 16), Z.div_add_l, Z.div_small, Z.add_0_r by lia.
      by rewrite Z.add_comm, Z.mod_add, Z.mod_small by lia.
Qed.

Lemma length_hex_octets h l : hex_octets h = Some l -> length h = (2 * length l)%nat.
Proof.
  revert h. induction l as [|z l IH]; intros [|a [|b h]] H; simpl in H; try done;
    repeat (apply bind_Some in H as (? & ? & H)); simplify_eq; simpl.
  erewrite IH by done. lia.
Qed.

Lemma hex_octets_texte l :
  Forall octet l -> hex_octets (hex_texte l) = Some l
    /\ length (hex_texte l) = (2 * length l)%nat /\ LF ∉ hex_texte l.
Proof.
  induction 1 as [|z l Hz _ (IH1 & IH2 & IH3)]; [split; [done|]; split; [done|set_solver]|].
  unfold octet in Hz. unfold hex_texte in *. cbn [mbind list_bind app hex_octets].
  assert (0 <= z / 16 < 16) as Hd by (split; [apply Z.div_pos|apply Z.div_lt_upper_bound]; lia).
  pose proof (Z.mod_pos_bound z 16 ltac:(lia)) as Hm.
  destruct (hexval_hexdigit _ Hd) as [-> N1], (hexval_hexdigit _ Hm) as [-> N2].
  simpl. rewrite IH1. simpl. rewrite paire_hex, <-Z.div_mod by lia. split; [done|].
  split; [cbn [length] in *; lia|].
  rewrite !not_elem_of_cons. auto.
Qed.

(** ** Decimal numbers *)

Lemma valeur_snoc l c : valeur (l ++ [c]) = valeur l * 10 + (c - 48).
Proof. unfold valeur. by rewrite fold_left_app. Qed.

Lemma valeur_pos c l :
  is_digit c = true -> c <> 48 -> forallb is_digit l = true -> 0 < valeur (c :: l).
Proof.
  intros Hc Hn. unfold is_digit in *. bool_prop.
  induction l as [|d l IH] using rev_ind; intros Hl; [unfold valeur; simpl; lia|].
  rewrite forallb_app in Hl. simpl in Hl. bool_prop.
  rewrite app_comm_cons, valeur_snoc. specialize (IH ltac:(done)). lia.
Qed.

(** Canonical digits are the ones the printer gives back. *)
Lemma chiffres_valeur l fuel acc :
  l <> [] -> nth 0 l 0 <> 48 -> forallb is_digit l = true -> (length l <= fuel)%nat ->
  chiffres fuel (valeur l) acc = l ++ acc.
Proof.
  revert fuel acc. induction l as [|c l IH] using rev_ind; intros fuel acc Hn Hz Hd Hf; [done|].
  rewrite forallb_app in Hd. simpl in Hd. bool_prop. rewrite length_app in Hf. simpl in Hf.
  destruct fuel as [|fuel]; [lia|]. cbn [chiffres]. rewrite valeur_snoc.
  match goal with H : is_digit c = true |- _ => pose proof H as Hc; unfold is_digit in H; bool_prop end.
  destruct l as [|d l].
  - change (valeur []) with 0. rewrite Z.mul_0_l, Z.add_0_l.
    destruct (Z.ltb_spec (c - 48) 10); [|lia]. simpl. f_equal. lia.
  - pose proof (valeur_pos d l) as Hp. simpl in Hz.
    match goal with H : forallb is_digit (d :: l) = true |- _ => pose proof H as Hl end.
    simpl in Hl. bool_prop. specialize (Hp ltac:(done) Hz ltac:(done)).
    destruct (Z.ltb_spec (valeur (d :: l) * 10 + (c - 48)) 10); [lia|].
    rewrite Z.div_add_l, Z.div_small, Z.add_0_r by lia.
    rewrite (Z.add_comm (_ * 10)), Z.mod_add, Z.mod_small by lia.
    rewrite IH; [|done|done|done|simpl in *; lia]. rewrite <-app_assoc.
    by replace (48 + (c - 48)) with c by lia.
Qed.

Lemma valeur_bound l :
  forallb is_digit l = true -> 0 <= valeur l < 10 ^ Z.of_nat (length l).
Proof.
  induction l as [|c l IH] using rev_ind; intros Hd; [done|].
  rewrite forallb_app in Hd. simpl in Hd. unfold is_digit in Hd at 2. bool_prop.
  rewrite valeur_snoc, length_app, Nat2Z.inj_add, Z.pow_add_r by (simpl; lia).
  specialize (IH ltac:(done)). simpl. lia.
Qed.

(** The printer gives between 1 and [fuel] digits, without a leading zero. *)
Lemma chiffres_digits fuel n acc :
  0 < n < 10 ^ Z.of_nat fuel ->
  exists l, chiffres fuel n acc = l ++ acc /\ valeur l = n /\ forallb is_digit l = true
    /\ l <> [] /\ nth 0 l 0 <> 48 /\ (length l <= fuel)%nat.
Proof.
  revert n acc. induction fuel as [|fuel IH]; intros n acc Hn; [simpl in Hn; lia|].
  cbn [chiffres]. destruct (Z.ltb_spec n 10).
  - exists [48 + n]. unfold valeur, is_digit. simpl.
    destruct (Z.leb_spec 48 (48 + n)), (Z.leb_spec (48 + n) 57); try lia.
    split_and!; done || lia.
  - pose proof (Z.mod_pos_bound n 10 ltac:(lia)). pose proof (Z.div_mod n 10 ltac:(lia)).
    rewrite Nat2Z.inj_succ, Z.pow_succ_r in Hn by lia.
    destruct (IH (n / 10) (48 + n mod 10 :: acc)) as (l & -> & Hv & Hd & Hne & Hz & Hl).
    { split; [apply Z.div_str_pos; lia|apply Z.div_lt_upper_bound; lia]. }
    exists (l ++ [48 + n mod 10]). rewrite <-app_assoc, valeur_snoc, Hv, forallb_app, Hd.
    rewrite length_app. unfold is_digit. simpl.
    destruct (Z.leb_spec 48 (48 + n mod 10)), (Z.leb_spec (48 + n mod 10) 57); try lia.
    destruct l as [|d l]; [done|]. simpl in *. split_and!; done || lia.
Qed.

(** ** The canonical form *)

Lemma version_char_LF v : forallb version_char v = true -> LF ∉ v.
Proof.
  intros Hv Hin. rewrite forallb_forall in Hv. apply list_elem_of_In in Hin.
  by specialize (Hv _ Hin).
Qed.
Lemma digit_LF v : forallb is_digit v = true -> LF ∉ v.
Proof.
  intros Hv Hin. rewrite forallb_forall in Hv. apply list_elem_of_In in Hin.
  by specialize (Hv _ Hin).
Qed.

(** [ligne_app] at a position given by a prefix. *)
Lemma ligne_app' t pos pre cle v post :
  t = pre ++ cle ++ v ++ LF :: post -> pos = length pre -> LF ∉ cle -> LF ∉ v ->
  exists pos', ligne t pos cle = Some (v, pos') /\ pos' = length (pre ++ cle ++ v ++ [LF])
    /\ t = (pre ++ cle ++ v ++ [LF]) ++ post.
Proof.
  intros -> -> ? ?. eexists. rewrite ligne_app by done. split; [done|].
  rewrite !length_app. simpl. split; [lia|]. by rewrite <-!app_assoc.
Qed.

Ltac sans_lf := apply (bool_decide_unpack _); vm_compute; exact I.

Lemma analyse_imprime m : manifeste_ok m -> analyse (imprime m) = Some m.
Proof.
  intros [Hlen Hbuf Hv Hpad He Heo Ho Hes]. unfold imprime, analyse.
  destruct (chiffres_digits 19 (octets m) [] Ho) as (o & Eo & Vo & Do & No & Zo & Lo).
  rewrite app_nil_r in Eo. rewrite Eo. clear Eo.
  destruct (hex_octets_texte _ Heo) as (Hx & Lx & Nx).
  set (v := take (version_len m) (version m)) in *. set (h := hex_texte (empreinte m)) in *.
  set (t := octets_de "bouchaud-manifeste-v1" ++ _).
  destruct (ligne_app' t 0 [] (octets_de "bouchaud-manifeste-v1") [] _ eq_refl)
    as (p1 & -> & P1 & T1); [done|sans_lf|sans_lf|]. cbn [mbind option_bind length Nat.eqb negb].
  destruct (ligne_app' t p1 _ (octets_de "version=") v _ T1 P1)
    as (p2 & -> & P2 & T2); [sans_lf|by apply version_char_LF|]. cbn [mbind option_bind].
  assert (length v = version_len m) as Lv by (unfold v; rewrite length_take; lia).
  rewrite Lv, Hv. destruct (Nat.eqb_spec (version_len m) 0); [lia|].
  destruct (Nat.ltb_spec 64 (version_len m)); [lia|]. cbn [orb negb].
  destruct (ligne_app' t p2 _ (octets_de "image_sha256=") h _ T2 P2)
    as (p3 & -> & P3 & T3); [sans_lf|done|]. cbn [mbind option_bind].
  rewrite Lx, He. cbn [Nat.mul Nat.add Nat.eqb negb]. rewrite Hx. cbn [mbind option_bind].
  destruct (ligne_app' t p3 _ (octets_de "image_octets=") o _ T3 P3)
    as (p4 & -> & P4 & T4); [sans_lf|by apply digit_LF|]. cbn [mbind option_bind].
  destruct (Nat.eqb_spec (length o) 0) as [Z0|_]; [by apply length_zero_iff_nil in Z0|].
  destruct (Nat.ltb_spec 19 (length o)); [lia|]. rewrite Do.
  destruct (Z.eqb_spec (nth 0 o 0) 48); [done|]. cbn [orb negb].
  destruct (ligne_app' t p4 _ (octets_de "essais=") [48 + essais m] [] T4 P4)
    as (p5 & -> & P5 & T5); [sans_lf|apply not_elem_of_cons; split; [unfold LF; lia|sans_lf]|].
  cbn [mbind option_bind length Nat.eqb negb orb nth].
  destruct (Z.leb_spec 49 (48 + essais m)), (Z.leb_spec (48 + essais m) 57); try lia.
  rewrite P5. rewrite T5 at 1. rewrite app_nil_r, Nat.eqb_refl. cbn [negb andb].
  f_equal. rewrite Vo. replace (48 + essais m - 48) with (essais m) by lia.
  rewrite <-Hpad. unfold v. rewrite take_drop. by destruct m.
Qed.

Lemma analyse_canonique t m : analyse t = Some m -> manifeste_ok m /\ imprime m = t.
Proof.
  unfold analyse. intros H.
  apply bind_Some in H as ([en p1] & L1 & H). cas H.
  apply bind_Some in H as ([v p2] & L2 & H). cas H.
  apply bind_Some in H as ([h p3] & L3 & H). cas H.
  apply bind_Some in H as (emp & He & H).
  apply bind_Some in H as ([o p4] & L4 & H). cas H.
  apply bind_Some in H as ([e p5] & L5 & H). cas H. cas H.
  destruct en; [|done]. destruct e as [|c [|]]; try done. simpl in *.
  apply ligne_inv in L1 as [D1 _], L2 as [D2 _], L3 as [D3 _], L4 as [D4 _], L5 as [D5 _].
  assert (o <> []) as No by (by intros ->).
  pose proof (length_hex_octets _ _ He). destruct (hex_octets_inv _ _ He) as [Eo Et]; [done|].
  assert (0 < valeur o).
  { destruct o as [|d o]; [done|]. simpl in *. bool_prop. by apply valeur_pos. }
  assert (valeur o < 10 ^ 19).
  { destruct (valeur_bound o) as [_ Hb]; [done|]. eapply Z.lt_le_trans; [apply Hb|].
    apply Z.pow_le_mono_r; lia. }
  split.
  - split; simpl; try done; try lia.
    + rewrite length_app, length_replicate. lia.
    + by rewrite take_app_length.
    + by rewrite drop_app_length.
  - unfold imprime. cbn [version version_len empreinte octets essais].
    rewrite take_app_length, Et, chiffres_valeur, app_nil_r by done.
    replace (48 + (c - 48)) with c by lia.
    rewrite <-(drop_0 t), D1, D2, D3, D4, D5, drop_ge by lia. done.
Qed.

Lemma verifie_signe_ok verifie t s cles m c :
  verifie_signe verifie t s cles = inl (m, c) ->
  analyse t = Some m /\ In c cles /\ verifie (publique c) t s = true /\ manifeste_ok m.
Proof.
  unfold verifie_signe. intros H. destruct cles as [|c0 cles]; [done|].
  destruct (List.find _ _) as [c1|] eqn:Ef; [|done]. apply find_some in Ef as [? ?].
  destruct (analyse t) eqn:Ea; [|done]. simplify_eq.
  split_and!; try done. by apply analyse_canonique in Ea as [? _].
Qed.

(** The manifest form is canonical: a text that parses is exactly the printed
    form of the manifest it parses to, so two texts that carry the same manifest are
    the same bytes and the signature covers what is parsed; the parsed values are in
    range (1 to 64 version characters, 32 digest bytes, a length that fits 64 bits,
    1 to 9 attempts). *)
Theorem manifeste_canonique t m :
  analyse t = Some m -> manifeste_ok m /\ imprime m = t /\ octets m < u64_max.
Proof.
  intros H. apply analyse_canonique in H as [Hm Hi]. split; [done|]. split; [done|].
  destruct Hm. unfold u64_max. lia.
Qed.

(** Every well-formed manifest has a text that parses back to it. *)
Theorem manifeste_aller_retour m : manifeste_ok m -> analyse (imprime m) = Some m.
Proof. apply analyse_imprime. Qed.

Definition exemple_manifeste : Manifeste :=
  mk_manifeste (octets_de "1.2.0-rc1" ++ replicate 55 0) 9 (replicate 32 171) 67108864 3.

Lemma exemple_manifeste_ok : manifeste_ok exemple_manifeste.
Proof.
  split; simpl; try done; try lia. repeat constructor; unfold octet; lia.
Qed.

Lemma manifeste_aller_retour_witness :
  analyse (imprime exemple_manifeste) = Some exemple_manifeste.
Proof. apply (manifeste_aller_retour exemple_manifeste). apply exemple_manifeste_ok. Defined.

Lemma manifeste_canonique_witness :
  manifeste_ok exemple_manifeste /\ imprime exemple_manifeste = imprime exemple_manifeste
  /\ octets exemple_manifeste < u64_max.
Proof. apply (manifeste_canonique (imprime exemple_manifeste)). vm_compute. reflexivity. Defined.

End Manifeste.
