(* ===== verification/UpdateKernel.v ===== *)
(** The kernel side of an update (src/kernel/update/mod.rs): the installation
    session into the inactive slot (begin, write, verify, finish), the health
    commit and the manual rollback, over the META copies and the volume of the slots. *)

From stdpp Require Import strings.
From S2P Require Import Prelude UpdateAb UpdatePassage UpdateManifeste.
Import Ab.

Open Scope os_scope.

Module Noyau.

(** ** State *)

Record Installation := mk_inst {
  proprietaire : Z;
  attendu : list Z;
  attendu_octets : Z;
  attendu_essais : Z;
  verifie : Z;
  cible : Slot;
  taille_bloc : Z;
  premier : Z;
  inst_octets : Z
}.

(** The volume of the slots: its bytes, the size of a block, and the partition of each slot in the
    GPT, as its first block and its number of blocks. The two META copies, in a partition of their
    own, are kept apart. *)
Record Volume := mk_volume {
  octets_vol : list Z;
  bloc_vol : Z;
  table_vol : Slot -> option (Z * Z)
}.

(** The running SHA-256 of [VERIFICATION] is represented by the bytes it has absorbed. *)
Record Etat := mk_etat {
  copies : disque;
  compteur : list Z;
  passage : option Passage.Passage;
  committe : bool;
  installation : option Installation;
  verification : option (list Z);
  volume : Volume
}.

(** The bytes of the partition of a slot. *)
Definition contenu (st : Etat) (s : Slot) : list Z :=
  match table_vol (volume st) s with
  | Some (p, n) => slice (octets_vol (volume st)) (Z.to_nat (p * bloc_vol (volume st))) (Z.to_nat (n * bloc_vol (volume st)))
  | None => []
  end.
(** [bloc::ecrit]: the blocks at [lba] of the whole device. *)
Definition ecrit_volume (lba : Z) (l : list Z) (st : Etat) : Etat :=
  let v := volume st in
  mk_etat (copies st) (compteur st) (passage st) (committe st) (installation st) (verification st)
    (mk_volume (splice (octets_vol v) (Z.to_nat (lba * bloc_vol v)) l) (bloc_vol v) (table_vol v)).
Definition set_copies (d : disque) (st : Etat) : Etat :=
  mk_etat d (compteur st) (passage st) (committe st) (installation st) (verification st)
    (volume st).
Definition set_compteur (c : list Z) (st : Etat) : Etat :=
  mk_etat (copies st) c (passage st) (committe st) (installation st) (verification st)
    (volume st).
Definition set_committe (st : Etat) : Etat :=
  mk_etat (copies st) (compteur st) (passage st) true (installation st) (verification st)
    (volume st).
Definition set_session (i : option Installation) (v : option (list Z)) (st : Etat) : Etat :=
  mk_etat (copies st) (compteur st) (passage st) (committe st) i v
    (volume st).
Definition set_verifie (n : Z) (i : Installation) : Installation :=
  mk_inst (proprietaire i) (attendu i) (attendu_octets i) (attendu_essais i) n (cible i)
    (taille_bloc i) (premier i) (inst_octets i).

Inductive RefusInstall :=
| Refuse (m : string) | Argument (m : string) | Io (m : string).

(** What the block layer answers during one call: [io_gpt], whether the GPT was read;
    [io_blocs], the number of blocks of a data transfer that the device reports; [io_acceptes], those
    of a write that reached it, which a failed request may not report; [io_meta], the error of the
    search for the META partition, if any. *)
Record Io_rep := mk_io {
  io_meta : option string;
  io_lecture : bool;
  io_octets_ecrits : nat;
  io_ecriture : bool;
  io_vidange : bool;
  io_relecture : bool;
  io_gpt : bool;
  io_blocs : Z;
  io_acceptes : Z;
  io_compteur : bool;
  io_compteur_vidange : bool
}.

Abbreviation Gest A := (M Etat RefusInstall A).
Abbreviation Res A := (M Etat string A).

Section Gestionnaires.
(** [sha256] is the digest of net/security/tls/sha256.rs, [verifie_sig] the check
    of ed25519.rs, [cles] the keys this system trusts. *)
Context (sha256 : list Z -> list Z).
Context (verifie_sig : list Z -> list Z -> list Z -> bool).
Context (cles : list Manifeste.CleDeConfiance).

(** ** META *)

Definition lit_meta (io : Io_rep) : Res Enregistrement :=
  st <- etat_courant ;;
  if negb (io_lecture io) then echoue "meta_illisible"
  else ou_echoue (Ab.lit (copies st)) "deux_copies_invalides".

Definition trouve_meta (io : Io_rep) : Res unit :=
  match io_meta io with None => rend tt | Some e => echoue e end.

(** Older copy, flush, read back. *)
Definition persiste (io : Io_rep) (e : Enregistrement) : Res unit :=
  garde (negb (io_lecture io)) "meta_illisible" ;;;
  st <- etat_courant ;;
  let premiere := copie_a_ecrire (copies st).1 (copies st).2 =? 0 in
  change (set_copies (ecrit_coupe (copies st) e (io_octets_ecrits io))) ;;;
  garde (negb (io_ecriture io)) "ecriture" ;;;
  garde (negb (io_vidange io)) "vidange" ;;;
  garde (negb (io_relecture io)) "relecture" ;;;
  st <- etat_courant ;;
  let relu := if premiere then (copies st).1 else (copies st).2 in
  garde (negb (bool_decide (Ab.decode relu = Some e))) "relecture_differente".

Definition ecrit_compteur (io : Io_rep) (n : Z) : Res unit :=
  garde (negb (io_compteur io)) "compteur_ecriture" ;;;
  change (set_compteur (Echecs.encode n)) ;;;
  garde (negb (io_compteur_vidange io)) "compteur_vidange".

(** [.map_err(f)] on a computation. *)
Definition avec_erreur {A} (c : Res A) (f : string -> RefusInstall) : Gest A :=
  fun st => match c st with (st', inl x) => (st', inl x) | (st', inr e) => (st', inr (f e)) end.

(** ** The installation session *)

Definition session (appelant : Z) : Gest Installation :=
  st <- etat_courant ;;
  inst <- ou_echoue (installation st) (Refuse "sans_begin") ;;
  garde (negb (proprietaire inst =? appelant)) (Refuse "session_d_un_autre_processus") ;;;
  rend inst.

Definition motif_manifeste (r : Manifeste.RefusManifeste) : RefusInstall :=
  Refuse match r with
         | Manifeste.AucuneCleDeConfiance => "aucune_cle_de_confiance"
         | Manifeste.SignatureNonFiable => "signature_non_fiable"
         | Manifeste.Format => "manifeste_non_canonique"
         end.
Definition motif_cible (r : Refus) : RefusInstall :=
  Refuse match r with
         | CibleEnCoursDExecution => "cible_en_cours_d_execution"
         | CibleActive => "cible_active"
         | CandidatEnCours => "candidat_en_cours"
         | _ => "etat_inattendu"
         end.

Definition installation_commence (io : Io_rep) (appelant : Z) (c : Slot)
    (texte signature : list Z) : Gest unit :=
  r <- essaie (Manifeste.verifie_signe verifie_sig texte signature cles) motif_manifeste ;;
  let signe := r.1 in
  st <- etat_courant ;;
  p <- ou_echoue (passage st) (Refuse "sans_passage") ;;
  avec_erreur (trouve_meta io) Refuse ;;;
  e <- avec_erreur (lit_meta io) Io ;;
  n <- essaie (commence_installation e c (Passage.slot p)) motif_cible ;;
  garde (negb (io_gpt io)) (Io "gpt") ;;;
  part <- ou_echoue (table_vol (volume st) c) (Refuse "slot_introuvable") ;;
  let t := bloc_vol (volume st) in
  garde (part.2 * t <? Manifeste.octets signe)
    (Refuse "image_plus_grande_que_le_slot") ;;;
  let inst := mk_inst appelant (Manifeste.empreinte signe) (Manifeste.octets signe)
                (Manifeste.essais signe) 0 c t part.1 (part.2 * t) in
  avec_erreur (persiste io n) Io ;;;
  change (set_session (Some inst) None).

Definition installation_ecrit (io : Io_rep) (appelant decalage : Z) (donnees : list Z) : Gest unit :=
  inst <- session appelant ;;
  let t := taille_bloc inst in
  let len := Z.of_nat (length donnees) in
  garde ((len =? 0) || negb (decalage mod t =? 0) || negb (len mod t =? 0))
    (Argument "non_aligne") ;;;
  garde (u64_max <=? decalage + len) (Refuse "hors_slot") ;;;
  garde (inst_octets inst <? decalage + len) (Refuse "hors_slot") ;;;
  let n := len / t in
  change (fun st => set_session (set_verifie 0 <$> installation st) None st) ;;;
  change (ecrit_volume (premier inst + decalage / t) (take (Z.to_nat (io_acceptes io * t)) donnees)) ;;;
  garde (negb (io_blocs io =? n)) (Io "ecriture").

Definition installation_verifie (io : Io_rep) (appelant longueur : Z) : Gest Z :=
  inst <- session appelant ;;
  garde ((longueur =? 0) || (inst_octets inst <? longueur)) (Argument "longueur") ;;;
  (if verifie inst =? 0 then
     garde (negb (io_vidange io)) (Io "vidange") ;;;
     change (fun st => set_session (installation st) (Some []) st)
   else rend tt) ;;;
  if longueur <=? verifie inst then rend 0 else
  let t := taille_bloc inst in
  let reste := longueur - verifie inst in
  let blocs := Z.min ((reste + t - 1) / t) (1024 * 1024 / t) in
  garde (negb (io_blocs io =? blocs)) (Io "relecture") ;;;
  st <- etat_courant ;;
  let tampon := slice (octets_vol (volume st)) (Z.to_nat ((premier inst + verifie inst / t) * t))
                  (Z.to_nat (blocs * t)) in
  let utile := Z.min (Z.of_nat (length tampon)) reste in
  h <- ou_echoue (verification st) (Refuse "verification_interrompue") ;;
  let lus := verifie inst + utile in
  change (fun st => set_session (set_verifie lus <$> installation st)
            (Some (h ++ take (Z.to_nat utile) tampon)) st) ;;;
  rend (longueur - lus).

Definition motif_candidat (r : Refus) : RefusInstall :=
  Refuse match r with
         | ImageNonVerifiee => "empreinte_differente"
         | EssaisNuls => "essais_nuls"
         | CibleActive => "cible_active"
         | _ => "etat_inattendu"
         end.

Definition installation_termine (io : Io_rep) (appelant : Z) (empreinte : list Z)
    (longueur essais : Z) : Gest unit :=
  inst <- session appelant ;;
  garde (negb (bool_decide (empreinte = attendu inst)) || negb (longueur =? attendu_octets inst)
         || negb (essais =? attendu_essais inst)) (Refuse "differe_du_manifeste_signe") ;;;
  garde ((longueur =? 0) || negb (verifie inst =? longueur)) (Refuse "relecture_incomplete") ;;;
  st <- etat_courant ;;
  h <- ou_echoue (verification st) (Refuse "relecture_incomplete") ;;
  let relue := sha256 h in
  _ <- ou_echoue (passage st) (Refuse "sans_passage") ;;
  avec_erreur (trouve_meta io) Refuse ;;;
  e <- avec_erreur (lit_meta io) Io ;;
  n <- essaie (marque_candidat e (cible inst) empreinte relue essais) motif_candidat ;;
  avec_erreur (persiste io n) Io ;;;
  change (set_session None None).

(** ** Health commit and manual rollback *)

Inductive Commit := Committe | DejaSain.

Definition commit_sante (io : Io_rep) : Res Commit :=
  st <- etat_courant ;;
  p <- ou_echoue (passage st) "sans_passage" ;;
  if committe st then rend DejaSain else
  trouve_meta io ;;;
  e <- lit_meta io ;;
  match Passage.commit_sante p e with
  | inl None => ecrit_compteur io 0 ;;; rend DejaSain
  | inl (Some n) =>
      persiste io n ;;; ecrit_compteur io 0 ;;; change set_committe ;;; rend Committe
  | inr Passage.MetaChangee => echoue "meta_changee_depuis_le_boot"
  | inr Passage.SlotNiCandidatNiActif => echoue "slot_ni_candidat_ni_actif"
  end.

Definition rollback_manuel (io : Io_rep) : Res Slot :=
  st <- etat_courant ;;
  _ <- ou_echoue (passage st) "sans_passage" ;;
  trouve_meta io ;;;
  e <- lit_meta io ;;
  n <- essaie (revient e) (fun _ => "version_precedente_pas_bonne"%string) ;;
  persiste io n ;;; ecrit_compteur io 0 ;;; rend (actif n).

End Gestionnaires.
End Noyau.
