(* ===== verification/UpdateKernelProofs.v ===== *)
(** Correctness of the kernel side of an update: the running and the active slot
    are never written, an accepted candidate is the image that was signed, and the
    two situations in which the session accepts more than it should. *)

From stdpp Require Import strings.
From S2P Require Import Prelude UpdateAb UpdateAbProofs UpdatePassage UpdateManifeste UpdateKernel.
Import Ab AbProofs Noyau.

Module NoyauProofs.

Section Preuves.
Context (sha256 : list Z -> list Z).
Context (verifie_sig : list Z -> list Z -> list Z -> bool).
Context (cles : list Manifeste.CleDeConfiance).

(** ** The calls of the update interface *)

Inductive appel :=
| Commence (io : Io_rep) (pid : Z) (c : Slot) (texte signature : list Z)
| Ecrit (io : Io_rep) (pid decalage : Z) (donnees : list Z)
| Verifie (io : Io_rep) (pid longueur : Z)
| Termine (io : Io_rep) (pid : Z) (empreinte : list Z) (longueur essais : Z)
| Sante (io : Io_rep)
| Rollback (io : Io_rep).

Definition execute (a : appel) (st : Etat) : Etat :=
  match a with
  | Commence io pid c t s => (installation_commence verifie_sig cles io pid c t s st).1
  | Ecrit io pid d l => (installation_ecrit io pid d l st).1
  | Verifie io pid l => (installation_verifie io pid l st).1
  | Termine io pid em l k => (installation_termine sha256 io pid em l k st).1
  | Sante io => (commit_sante io st).1
  | Rollback io => (rollback_manuel io st).1
  end.

Definition io_de (a : appel) : Io_rep :=
  match a with
  | Commence io _ _ _ _ | Ecrit io _ _ _ | Verifie io _ _ | Termine io _ _ _ _
  | Sante io | Rollback io => io
  end.

(** The record a call would write to META. *)
Definition ecrit_par (a : appel) (st : Etat) (e : Enregistrement) : option Enregistrement :=
  match a with
  | Commence _ _ c _ _ =>
      p ← passage st;
      match commence_installation e c (Passage.slot p) with inl n => Some n | _ => None end
  | Termine _ _ em _ k =>
      i ← installation st; h ← verification st;
      match marque_candidat e (cible i) em (sha256 h) k with inl n => Some n | _ => None end
  | Sante _ =>
      p ← passage st;
      match Passage.commit_sante p e with inl (Some n) => Some n | _ => None end
  | Rollback _ => match revient e with inl n => Some n | _ => None end
  | _ => None
  end.

(** ** The invariant *)

(** The partitions of the slots lie on the device and do not overlap. *)
Record volume_ok (v : Volume) : Prop := {
  vo_bloc : 0 < bloc_vol v;
  vo_dans : forall s p n, table_vol v s = Some (p, n) ->
    0 <= p /\ 0 <= n /\ (p + n) * bloc_vol v <= Z.of_nat (length (octets_vol v));
  vo_disjoint : forall s s' p n p' n', s <> s' ->
    table_vol v s = Some (p, n) -> table_vol v s' = Some (p', n') -> p + n <= p' \/ p' + n' <= p
}.

(** What no call changes in the volume: all but the bytes. *)
Definition meme_table (v v' : Volume) : Prop :=
  bloc_vol v' = bloc_vol v /\ table_vol v' = table_vol v
  /\ length (octets_vol v') = length (octets_vol v).

(** Byte [k] of the device lies in the partition of [s]. *)
Definition octet_de (v : Volume) (s : Slot) (k : nat) : Prop :=
  exists p n, table_vol v s = Some (p, n) /\ p * bloc_vol v <= Z.of_nat k < (p + n) * bloc_vol v.

Lemma volume_ok_table v v' : volume_ok v -> meme_table v v' -> volume_ok v'.
Proof.
  intros [] (Hb & Ht & Hl). split; rewrite ?Hb, ?Ht; [done| |done].
  intros s p n Hs. rewrite Hl. eauto.
Qed.

(** The session knows the partition of its target. *)
Definition partition_ok (v : Volume) (i : Installation) : Prop :=
  taille_bloc i = bloc_vol v
  /\ exists n, table_vol v (cible i) = Some (premier i, n) /\ inst_octets i = n * bloc_vol v.

Record session_ok (st : Etat) (e : Enregistrement) (i : Installation) : Prop := {
  so_passage : exists p, passage st = Some p /\ cible i <> Passage.slot p;
  so_actif : cible i <> actif e;
  so_etat : etat (slot e (cible i)) = Vide \/ est_candidat (etat (slot e (cible i))) = true;
  so_len : length (attendu i) = 32%nat;
  so_oct : Forall octet (attendu i);
  so_essais : 1 <= attendu_essais i <= 9;
  so_part : partition_ok (volume st) i
}.

Record inv (st : Etat) (e : Enregistrement) : Prop := {
  in_disque : disque_ok (copies st) e;
  in_ok : ok e;
  in_vol : volume_ok (volume st);
  in_session : forall i, installation st = Some i -> session_ok st e i
}.

(** What is assumed of a call: a META write that is cut is detected, and the offset of a write is
    the unsigned integer the call takes. *)
Definition env_ok (a : appel) (st : Etat) (e : Enregistrement) : Prop :=
  sequence e + 1 < u64_max
  /\ (forall n, ecrit_par a st e = Some n ->
       coupure_detectee (copies st) n (io_octets_ecrits (io_de a)))
  /\ match a with Ecrit _ _ d _ => 0 <= d | _ => True end.

Lemma set_copies_id st : set_copies (copies st) st = st.
Proof. by destruct st. Qed.

Lemma persiste_spec io n st st' r e :
  persiste io n st = (st', r) ->
  disque_ok (copies st) e -> ok n -> sequence e < sequence n ->
  coupure_detectee (copies st) n (io_octets_ecrits io) ->
  exists d', st' = set_copies d' st /\ (disque_ok d' e \/ disque_ok d' n)
    /\ (forall u, r = inl u -> disque_ok d' n).
Proof.
  intros H Hd Hn Hs Hc. unfold persiste, lie, garde, change, etat_courant, echoue, rend in H.
  destruct (io_lecture io); simpl in H;
    [|simplify_eq; exists (copies st'); rewrite set_copies_id; split_and!; [done|by left|done]].
  pose proof (ecriture_coupee _ _ _ _ Hd Hn Hs Hc) as He.
  assert (st' = set_copies (ecrit_coupe (copies st) n (io_octets_ecrits io)) st) as Hst
    by (by repeat cas H).
  eexists. split; [exact Hst|]. split; [done|]. intros u ->. repeat cas H.
  by apply (relecture_conforme _ e).
Qed.

Lemma lit_meta_spec io st st' r e :
  lit_meta io st = (st', r) -> disque_ok (copies st) e ->
  st' = st /\ forall e', r = inl e' -> e' = e.
Proof.
  intros H Hd. unfold lit_meta, lie, etat_courant, ou_echoue, echoue, rend in H.
  rewrite (do_lit _ _ Hd) in H. cas H; split; try done; intros; congruence.
Qed.

Lemma suivant_sequence e : ok e -> sequence e + 1 < u64_max -> sequence (suivant e) = sequence e + 1.
Proof. intros [] ?. simpl. apply Z.mod_small. lia. Qed.

(** The slots of a record a call writes: same active slot for an install. *)
Lemma commence_spec e c r n :
  commence_installation e c r = inl n ->
  sequence n = sequence (suivant e) /\ actif n = actif e /\ c <> r /\ c <> actif e
  /\ slot n c = info_vide /\ slot n (actif e) = slot e (actif e).
Proof.
  unfold commence_installation. intros H. repeat cas H. split_and!; try done; simpl;
    destruct c, (actif e); done.
Qed.

Lemma marque_spec e c im re k n :
  marque_candidat e c im re k = inl n ->
  sequence n = sequence (suivant e) /\ actif n = actif e /\ c <> actif e /\ im = re
  /\ slot n c = mk_info (Candidat k) im /\ slot n (actif e) = slot e (actif e).
Proof.
  unfold marque_candidat. intros H. repeat cas H. split_and!; try done; simpl;
    destruct c, (actif e); done.
Qed.

Lemma partition_table v v' i : partition_ok v i -> meme_table v v' -> partition_ok v' i.
Proof. intros [] (Hb & Ht & _). unfold partition_ok. by rewrite Hb, Ht. Qed.

(** A session survives a META write that keeps its target out of service. *)
Lemma session_change st st' e e' i :
  session_ok st e i -> passage st' = passage st -> meme_table (volume st) (volume st') ->
  cible i <> actif e' ->
  (etat (slot e' (cible i)) = Vide \/ est_candidat (etat (slot e' (cible i))) = true) ->
  session_ok st' e' i.
Proof.
  intros [] Hp Ht ? ?. split; try done; [by rewrite Hp|by eapply partition_table].
Qed.

Lemma avec_erreur_cas {A} (c : M Etat string A) f st st' r :
  avec_erreur c f st = (st', r) ->
  exists r0, c st = (st', r0) /\ forall x, r = inl x -> r0 = inl x.
Proof.
  unfold avec_erreur. destruct (c st) as [s1 [x|er]]; intros; simplify_eq;
    eexists; (split; [done|]); intros; congruence.
Qed.

Lemma trouve_meta_etat io st st' r : trouve_meta io st = (st', r) -> st' = st.
Proof. unfold trouve_meta. intros H. by destruct (io_meta io); injection H. Qed.

(** The META accesses as the handlers see them, with their errors mapped. *)
Lemma trouve_meta_io io f st st' r : avec_erreur (trouve_meta io) f st = (st', r) -> st' = st.
Proof. intros (? & H & _)%avec_erreur_cas. by apply trouve_meta_etat in H. Qed.

Lemma lit_meta_io io f st st' r e :
  avec_erreur (lit_meta io) f st = (st', r) -> disque_ok (copies st) e ->
  st' = st /\ forall e', r = inl e' -> e' = e.
Proof.
  intros (r0 & H & Hr)%avec_erreur_cas Hd.
  destruct (lit_meta_spec _ _ _ _ _ H Hd) as [-> He]. split; [done|]. intros e' E. by apply He, Hr.
Qed.

Lemma persiste_io io n f st st' r e :
  avec_erreur (persiste io n) f st = (st', r) ->
  disque_ok (copies st) e -> ok n -> sequence e < sequence n ->
  coupure_detectee (copies st) n (io_octets_ecrits io) ->
  exists d', st' = set_copies d' st /\ (disque_ok d' e \/ disque_ok d' n)
    /\ (forall u, r = inl u -> disque_ok d' n).
Proof.
  intros (r0 & H & Hr)%avec_erreur_cas ? ? ? ?.
  destruct (persiste_spec _ _ _ _ _ e H) as (d' & ? & ? & Hd); [done..|].
  exists d'. split_and!; [done|done|]. intros u E. eapply Hd, Hr, E.
Qed.

Lemma persiste_io_etat io n f st st' r :
  avec_erreur (persiste io n) f st = (st', r) -> exists d', st' = set_copies d' st.
Proof.
  intros (r0 & H & _)%avec_erreur_cas.
  unfold persiste, lie, garde, change, etat_courant, echoue, rend in H.
  repeat cas H; try (eexists; done). exists (copies st'). by rewrite set_copies_id.
Qed.

(** The part of the state a META write leaves alone. *)
Definition meme_contenu (st st' : Etat) : Prop := volume st' = volume st.

Lemma inv_copies st e d' n :
  inv st e -> ok n -> disque_ok d' e \/ disque_ok d' n ->
  (forall i, installation st = Some i -> session_ok st n i) ->
  exists e', inv (set_copies d' st) e'.
Proof.
  intros [Hd Hok Hvo Hs] Hn [Hd'|Hd'] Hi; [exists e|exists n]; split; try done;
    intros i Ei; [specialize (Hs i Ei)|specialize (Hi i Ei)];
    eapply session_change; try done; try apply Hs; try apply Hi.
Qed.

Lemma commence_inv io pid c t s st st' r e :
  installation_commence verifie_sig cles io pid c t s st = (st', r) ->
  inv st e -> env_ok (Commence io pid c t s) st e ->
  (exists e', inv st' e') /\ meme_contenu st st'.
Proof.
  intros H Hinv (Hb & Henv & _). pose proof Hinv as [Hd Hok Hvo Hs]. simpl in Henv.
  assert ((exists e', inv st e') /\ meme_contenu st st) as Hid by (split; [by exists e|done]).
  unfold installation_commence in H.
  pas H; [done|]. pas H. pas H; [done|].
  pas H; [by apply trouve_meta_io in Hc as ->|]. apply trouve_meta_io in Hc as ->.
  pas H; [by apply (lit_meta_io _ _ _ _ _ e) in Hc as [-> _]|].
  apply (lit_meta_io _ _ _ _ _ e) in Hc as [-> He1]; [|done]. specialize (He1 _ eq_refl) as ->.
  pas H; [done|]. match goal with E : commence_installation _ _ _ = inl ?m |- _ =>
    rename E into En; rename m into n end.
  simpl in Henv. rewrite En in Henv. specialize (Henv n eq_refl).
  pas H; [done|]. pas H; [done|]. pas H; [done|].
  pose proof (commence_ok _ _ _ _ Hok En) as Hn.
  apply commence_spec in En as (Hq & Ha & Hr & Hc' & Hv & _). rewrite suivant_sequence in Hq by done.
  assert (forall i st1, installation x = Some i -> passage st1 = passage x ->
            volume st1 = volume x -> session_ok st1 n i) as Hkeep.
  { intros i st1 Ei Hp Hvol. specialize (Hs i Ei). assert (cible i = c) as Hci
      by (rewrite (ne_autre _ _ (so_actif _ _ _ Hs)), (ne_autre _ _ Hc'); done).
    eapply session_change; [exact Hs|done|by rewrite Hvol|by rewrite Ha; apply Hs|].
    left. by rewrite Hci, Hv. }
  pas H.
  - destruct (persiste_io _ _ _ _ _ _ e Hc) as (d' & -> & Hdd & _); [done|done|lia|done|].
    split; [|done]. apply (inv_copies _ e _ n); auto.
  - destruct (persiste_io _ _ _ _ _ _ e Hc) as (d' & -> & _ & Hdd); [done|done|lia|done|].
    unfold change in H. simplify_eq. split; [|done]. exists n. split; [by eapply Hdd|done|done|].
    intros i Ei. simpl in Ei. simplify_eq. simpl.
    match goal with E : Manifeste.verifie_signe _ _ _ _ = inl ?y |- _ =>
      destruct y as [signe cle]; apply Manifeste.verifie_signe_ok in E as (_ & _ & _ & Hm) end.
    destruct Hm. split; simpl; try done; [by eauto|by rewrite Ha|by rewrite Hv; left|].
    split; [done|].
    by match goal with E : table_vol _ c = Some ?q |- _ => exists q.2; destruct q end.
Qed.

(** ** What each call of a session does *)

Lemma session_spec pid st st' r :
  session pid st = (st', r) ->
  st' = st /\ forall i, r = inl i -> installation st = Some i.
Proof.
  unfold session, lie, etat_courant, ou_echoue, garde, rend, echoue. intros H.
  destruct (installation st); simpl in H; [|by simplify_eq].
  destruct (negb _); simplify_eq; split; try done. intros. by simplify_eq.
Qed.

Ltac ouvre H :=
  pas H; [match goal with Hc : session _ _ = _ |- _ => apply session_spec in Hc as [-> _] end; by left
         |match goal with Hc : session _ _ = _ |- _ => apply session_spec in Hc as [-> Hc] end].

Definition apres_ecriture (io : Io_rep) (i : Installation) (dec : Z) (l : list Z) (st : Etat) : Etat :=
  ecrit_volume (premier i + dec / taille_bloc i) (take (Z.to_nat (io_acceptes io * taille_bloc i)) l)
    (set_session (Some (set_verifie 0 i)) None st).

Lemma ecrit_spec io pid dec l st st' r :
  installation_ecrit io pid dec l st = (st', r) ->
  st' = st \/ exists i, installation st = Some i /\ st' = apres_ecriture io i dec l st
    /\ dec mod taille_bloc i = 0 /\ dec + Z.of_nat (length l) <= inst_octets i.
Proof.
  intros H. unfold installation_ecrit in H. ouvre H. specialize (Hc _ eq_refl).
  pas H; [by left|]. pas H; [by left|]. pas H; [by left|]. pas H. pas H.
  right. exists x0. rewrite Hc in H. simpl in H. unfold garde, rend, echoue in H.
  split; [done|]. by cas H.
Qed.

Lemma ecriture_table io i dec l st : meme_table (volume st) (volume (apres_ecriture io i dec l st)).
Proof. split_and!; [done|done|]. by simpl; rewrite length_splice. Qed.

Lemma splice_dehors (v : list Z) a src k :
  (k < a \/ a + length src <= k)%nat -> splice v a src !! k = v !! k.
Proof.
  intros Hk. destruct (decide (k < length v)%nat);
    [|by rewrite !lookup_ge_None_2 by (rewrite ?length_splice; lia)].
  unfold splice. rewrite lookup_take_lt by done. destruct Hk.
  - rewrite lookup_app_l by (rewrite length_take; lia). by rewrite lookup_take_lt.
  - rewrite !lookup_app_r by (rewrite length_take; lia). rewrite lookup_drop. f_equal.
    rewrite length_take. lia.
Qed.

(** A write within the bounds of the session changes only bytes of its partition. *)
Lemma ecriture_dans io i dec l st k :
  volume_ok (volume st) -> partition_ok (volume st) i -> 0 <= dec ->
  dec mod taille_bloc i = 0 -> dec + Z.of_nat (length l) <= inst_octets i ->
  octets_vol (volume (apres_ecriture io i dec l st)) !! k <> octets_vol (volume st) !! k ->
  octet_de (volume st) (cible i) k.
Proof.
  intros Hv (Ht & n & Hp & Ho) Hdec Hmod Hfin Hne. destruct (vo_dans _ Hv _ _ _ Hp) as (Hp0 & _ & _).
  pose proof (vo_bloc _ Hv). exists (premier i), n. split; [done|].
  destruct (decide (premier i * bloc_vol (volume st) <= Z.of_nat k
                    < (premier i + n) * bloc_vol (volume st))) as [|Hk]; [done|]. destruct Hne.
  simpl. set (src := take _ l). assert (length src <= length l)%nat by (unfold src; rewrite length_take; lia).
  rewrite Ht in Hmod |- *. set (t := bloc_vol (volume st)) in *.
  assert ((premier i + dec / t) * t = premier i * t + dec) as ->
    by (pose proof (Z.div_mod dec t ltac:(lia)); lia).
  apply splice_dehors. assert (0 <= premier i * t) by nia. lia.
Qed.

(** The contents of a slot are a function of the bytes of its partition. *)
Lemma contenu_ext st st' s :
  volume_ok (volume st) -> meme_table (volume st) (volume st') ->
  (forall k, octet_de (volume st) s k ->
     octets_vol (volume st') !! k = octets_vol (volume st) !! k) ->
  contenu st' s = contenu st s.
Proof.
  intros Hv (Hb & Ht & Hl) Hk. unfold contenu. rewrite Hb, Ht.
  destruct (table_vol (volume st) s) as [[p n]|] eqn:E; [|done].
  destruct (vo_dans _ Hv _ _ _ E) as (Hp & Hn & _). pose proof (vo_bloc _ Hv).
  set (t := bloc_vol (volume st)) in *. assert (0 <= p * t /\ 0 <= n * t) as [] by nia.
  apply list_eq. intros j. destruct (decide (j < Z.to_nat (n * t))%nat).
  - rewrite !lookup_slice by done. apply Hk. exists p, n. split; [done|]. fold t. lia.
  - unfold slice. by rewrite !lookup_take_ge by lia.
Qed.

Lemma length_contenu st s p n :
  volume_ok (volume st) -> table_vol (volume st) s = Some (p, n) ->
  Z.of_nat (length (contenu st s)) = n * bloc_vol (volume st).
Proof.
  intros Hv E. destruct (vo_dans _ Hv _ _ _ E) as (Hp & Hn & Hl). pose proof (vo_bloc _ Hv).
  unfold contenu. rewrite E. assert (0 <= p * bloc_vol (volume st)) by nia.
  assert (0 <= n * bloc_vol (volume st)) by nia. rewrite length_slice; lia.
Qed.

(** The chunk a verify call reads, and how much of it counts. *)
Definition blocs_lus (i : Installation) (longueur : Z) : Z :=
  let t := taille_bloc i in
  Z.min ((longueur - verifie i + t - 1) / t) (1024 * 1024 / t).
Definition tampon_lu (i : Installation) (longueur : Z) (st : Etat) : list Z :=
  let t := taille_bloc i in
  slice (octets_vol (volume st)) (Z.to_nat ((premier i + verifie i / t) * t))
    (Z.to_nat (blocs_lus i longueur * t)).
Definition utile_lu (i : Installation) (longueur : Z) (st : Etat) : Z :=
  Z.min (Z.of_nat (length (tampon_lu i longueur st))) (longueur - verifie i).

Lemma verifie_spec io pid longueur st st' r :
  installation_verifie io pid longueur st = (st', r) ->
  st' = st \/ exists i, installation st = Some i /\ longueur <= inst_octets i
    /\ ((verifie i = 0 /\ st' = set_session (Some i) (Some []) st)
        \/ (verifie i < longueur /\ exists h, (verifie i = 0 /\ h = [] \/ verification st = Some h)
            /\ st' = set_session (Some (set_verifie (verifie i + utile_lu i longueur st) i))
                       (Some (h ++ take (Z.to_nat (utile_lu i longueur st))
                                     (tampon_lu i longueur st))) st)).
Proof.
  intros H. unfold installation_verifie in H. ouvre H. specialize (Hc _ eq_refl).
  pas H; [by left|]. rename x0 into i.
  unfold lie, garde, rend, echoue, change, etat_courant, ou_echoue in H.
  destruct (Z.eqb_spec (verifie i) 0) as [E0|E0].
  - destruct (io_vidange io); simpl in H; [|by simplify_eq; left].
    destruct (Z.leb_spec longueur (verifie i)); simpl in H; [|].
    { simplify_eq. right. exists i. rewrite Hc. by auto. }
    destruct (negb _); simpl in H; simplify_eq; right; exists i; rewrite Hc; (split; [done|]);
      (split; [done|]); [by left|right]. split; [done|]. exists []. split; [by left|].
    done.
  - destruct (Z.leb_spec longueur (verifie i)); simpl in H; [by simplify_eq; left|].
    destruct (negb _); simpl in H; [by simplify_eq; left|].
    destruct (verification x) as [h|] eqn:Eh; simpl in H; [|by simplify_eq; left].
    simplify_eq. right. exists i. rewrite Hc. split; [done|]. split; [done|]. right.
    split; [done|]. exists h. split; [by right|]. done.
Qed.

Lemma termine_spec io pid em l k st st' r e :
  installation_termine sha256 io pid em l k st = (st', r) -> disque_ok (copies st) e ->
  (st' = st /\ r <> inl tt) \/ exists i h n, installation st = Some i /\ verification st = Some h
    /\ em = attendu i /\ l = attendu_octets i /\ k = attendu_essais i /\ verifie i = l
    /\ marque_candidat e (cible i) em (sha256 h) k = inl n
    /\ exists st1 r1, avec_erreur (persiste io n) Io st = (st1, r1)
        /\ match r1 with
           | inl _ => st' = set_session None None st1 /\ r = inl tt
           | inr er => st' = st1 /\ r = inr er
           end.
Proof.
  intros H Hd. unfold installation_termine in H. ouvre H. specialize (Hc _ eq_refl).
  rename x0 into i. pas H; [by left|]. pas H; [by left|]. pas H. pas H; [by left|].
  pas H; [by left|].
  pas H; [apply trouve_meta_io in Hc0 as ->; by left|]. apply trouve_meta_io in Hc0 as ->.
  pas H; [apply (lit_meta_io _ _ _ _ _ e) in Hc0 as [-> _]; [by left|done]|].
  apply (lit_meta_io _ _ _ _ _ e) in Hc0 as [-> He1]; [|done]. specialize (He1 _ eq_refl) as ->.
  pas H; [by left|]. right. do 3 eexists. split_and!; [done|done|done|done|done|done|done|].
  unfold lie, change in H. destruct (avec_erreur _ _ x) as [st1 [u|er]]; simplify_eq;
    by do 2 eexists.
Qed.

(** ** Preservation of the invariant *)

Lemma session_verifie st st' e i n :
  session_ok st e i -> passage st' = passage st -> meme_table (volume st) (volume st') ->
  session_ok st' e (set_verifie n i).
Proof.
  intros [] Hp Ht. split; try done; [by rewrite Hp|].
  by apply (partition_table (volume st) _ i).
Qed.

Lemma inv_session st st' e i n :
  inv st e -> installation st = Some i -> copies st' = copies st -> passage st' = passage st ->
  meme_table (volume st) (volume st') -> installation st' = Some (set_verifie n i) -> inv st' e.
Proof.
  intros [Hd Hok Hvo Hs] Hi Hc Hp Ht Hi'. split; [by rewrite Hc|done|by eapply volume_ok_table|].
  intros j Hj. rewrite Hi' in Hj. simplify_eq. eapply session_verifie; [by apply Hs|done|done].
Qed.

Lemma inv_meme st st' e :
  inv st e -> copies st' = copies st -> passage st' = passage st ->
  volume st' = volume st -> installation st' = installation st -> inv st' e.
Proof.
  intros [Hd Hok Hvo Hs] Hc Hp Hv Hi'. split; [by rewrite Hc|done|by rewrite Hv|].
  intros j Hj. rewrite Hi' in Hj.
  eapply session_change; [by apply Hs|done|by rewrite Hv|..]; by apply Hs.
Qed.

Lemma set_verifie_id i : set_verifie (verifie i) i = i.
Proof. by destruct i. Qed.

Lemma ecrit_inv io pid dec l st st' r e :
  installation_ecrit io pid dec l st = (st', r) -> inv st e -> inv st' e.
Proof.
  intros [->|(i & Hi & -> & _)]%ecrit_spec Hinv; [done|].
  eapply inv_session; try done. apply ecriture_table.
Qed.

Lemma verifie_inv io pid l st st' r e :
  installation_verifie io pid l st = (st', r) -> inv st e -> inv st' e.
Proof.
  intros [->|(i & Hi & _ & [[_ ->]|(_ & h & _ & ->)])]%verifie_spec Hinv; [done| |].
  - eapply inv_session; try done. simpl. by rewrite set_verifie_id.
  - by eapply inv_session.
Qed.

Lemma termine_inv io pid em l k st st' r e :
  installation_termine sha256 io pid em l k st = (st', r) ->
  inv st e -> env_ok (Termine io pid em l k) st e -> exists e', inv st' e'.
Proof.
  intros H Hinv (Hb & Henv & _). pose proof Hinv as [Hd Hok Hvo Hs].
  destruct (termine_spec _ _ _ _ _ _ _ _ e H Hd)
    as [[-> _]|(i & h & n & Hi & Hh & -> & -> & -> & _ & Hn & st1 & r1 & Hp & Hr)]; [by exists e|].
  simpl in Henv. rewrite Hi, Hh in Henv. simpl in Henv. rewrite Hn in Henv.
  specialize (Henv n eq_refl). destruct (Hs i Hi) as [? ? ? Hl Ho He].
  assert (ok n) as Hnok.
  { eapply marque_ok; [exact Hok|done|done| |exact Hn]. unfold octet. lia. }
  apply marque_spec in Hn as (Hq & Ha & Hca & _ & Hsl & _). rewrite suivant_sequence in Hq by done.
  destruct (persiste_io _ _ _ _ _ _ e Hp) as (d' & -> & Hdd & Hdn); [done|done|lia|done|].
  destruct r1 as [u|er]; destruct Hr as [-> _].
  - exists n. split; simpl; [by eapply Hdn|done|done|done].
  - apply (inv_copies _ e _ n); try done. intros j Hj. simplify_eq.
    eapply session_change; [by apply Hs|done|done|by rewrite Ha|]. right. by rewrite Hsl.
Qed.

Lemma ecrit_compteur_cas io n st st' r :
  ecrit_compteur io n st = (st', r) -> st' = st \/ st' = set_compteur (Echecs.encode n) st.
Proof.
  unfold ecrit_compteur. intros H. pas H; [by left|]. pas H.
  unfold garde, rend, echoue in H. cas H; by right.
Qed.

Lemma commit_sante_spec p e n :
  Passage.commit_sante p e = inl (Some n) ->
  n = sante_ok e (Passage.slot p) /\ est_candidat (etat (slot e (Passage.slot p))) = true.
Proof.
  unfold Passage.commit_sante. intros H. repeat cas H. done.
Qed.

Lemma sante_ok_champs e s :
  est_candidat (etat (slot e s)) = true ->
  sequence (sante_ok e s) = sequence (suivant e) /\ actif (sante_ok e s) = s
  /\ forall c, c <> s -> slot (sante_ok e s) c = slot e c.
Proof.
  intros Hc. unfold sante_ok. destruct (etat _); try done.
  split_and!; try done. intros c ?. by destruct c, s.
Qed.

(** What a rollback or a health commit never touches. *)
Definition meme_session (st st' : Etat) : Prop :=
  installation st' = installation st /\ verification st' = verification st /\ meme_contenu st st'.

Lemma sante_inv io st st' r e :
  commit_sante io st = (st', r) -> inv st e -> env_ok (Sante io) st e ->
  (exists e', inv st' e') /\ meme_session st st'.
Proof.
  intros H Hinv (Hb & Henv & _). pose proof Hinv as [Hd Hok Hvo Hs].
  assert ((exists e', inv st e') /\ meme_session st st) as Hid by (split; [by exists e|done]).
  unfold commit_sante in H. pas H. pas H; [done|].
  match goal with E : passage _ = Some ?q |- _ => rename E into Ep; rename q into p end.
  simpl in Henv. rewrite Ep in Henv. simpl in Henv.
  destruct (committe x); [by unfold rend in H; simplify_eq|].
  pas H; [by apply trouve_meta_etat in Hc as ->|]. apply trouve_meta_etat in Hc as ->.
  pas H; [by apply (lit_meta_spec _ _ _ _ e) in Hc as [-> _]|].
  apply (lit_meta_spec _ _ _ _ e) in Hc as [-> He1]; [|done]. specialize (He1 _ eq_refl) as ->.
  destruct (Passage.commit_sante p e) as [[n|]|[]] eqn:En; try (unfold echoue in H; by simplify_eq).
  - specialize (Henv n eq_refl). apply commit_sante_spec in En as [-> Hca].
    pose proof (sante_ok_ok e (Passage.slot p) Hok) as Hn.
    destruct (sante_ok_champs e _ Hca) as (Hq & Ha & Hsl). rewrite suivant_sequence in Hq by done.
    assert (forall i, installation x = Some i -> session_ok x (sante_ok e (Passage.slot p)) i) as Hk.
    { intros i Hi. specialize (Hs i Hi). destruct (so_passage _ _ _ Hs) as (q & Hq' & Hne).
      rewrite Ep in Hq'. simplify_eq. eapply session_change; [done|done|done|by rewrite Ha|].
      rewrite Hsl by done. apply Hs. }
    pas H.
    + destruct (persiste_spec _ _ _ _ _ e Hc) as (d' & -> & Hdd & _); [done|done|lia|done|].
      split; [by eapply inv_copies|done].
    + destruct (persiste_spec _ _ _ _ _ e Hc) as (d' & -> & Hdd & _); [done|done|lia|done|].
      destruct (inv_copies x e d' _ Hinv Hn Hdd Hk) as [e' He'].
      pas H; [destruct (ecrit_compteur_cas _ _ _ _ _ Hc0) as [-> | ->]; (split; [|done]); exists e';
              by eapply inv_meme|].
      pas H. unfold rend in H. simplify_eq.
      destruct (ecrit_compteur_cas _ _ _ _ _ Hc0) as [-> | ->]; (split; [|done]); exists e';
        by eapply inv_meme.
  - pas H; destruct (ecrit_compteur_cas _ _ _ _ _ Hc) as [-> | ->]; try done;
      try (unfold rend in H; simplify_eq); try done; (split; [|done]); exists e; by eapply inv_meme.
Qed.

Lemma revient_spec e n :
  revient e = inl n ->
  sequence n = sequence (suivant e) /\ actif n = autre (actif e)
  /\ etat (slot e (autre (actif e))) = Bon.
Proof. unfold revient. intros H. by cas H. Qed.

Lemma rollback_inv io st st' r e :
  rollback_manuel io st = (st', r) -> inv st e -> env_ok (Rollback io) st e ->
  (exists e', inv st' e') /\ meme_session st st'.
Proof.
  intros H Hinv (Hb & Henv & _). pose proof Hinv as [Hd Hok Hvo Hs].
  assert ((exists e', inv st e') /\ meme_session st st) as Hid by (split; [by exists e|done]).
  unfold rollback_manuel in H. pas H. pas H; [done|].
  pas H; [by apply trouve_meta_etat in Hc as ->|]. apply trouve_meta_etat in Hc as ->.
  pas H; [by apply (lit_meta_spec _ _ _ _ e) in Hc as [-> _]|].
  apply (lit_meta_spec _ _ _ _ e) in Hc as [-> He1]; [|done]. specialize (He1 _ eq_refl) as ->.
  pas H; [done|]. match goal with E : revient _ = inl ?m |- _ => rename E into En; rename m into n end.
  match type of Hd with disque_ok (copies ?y) _ => rename y into z end.
  simpl in Henv. rewrite En in Henv. specialize (Henv n eq_refl).
  pose proof (revient_ok _ _ Hok En) as Hn. apply revient_spec in En as (Hq & Ha & Hbon).
  rewrite suivant_sequence in Hq by done.
  assert (forall i, installation z = Some i -> session_ok z n i) as Hk.
  { intros i Hi. specialize (Hs i Hi). destruct Hs as [_ Hne Het _ _ _ _].
    rewrite (ne_autre _ _ Hne), Hbon in Het. by destruct Het. }
  pas H; destruct (persiste_spec _ _ _ _ _ e Hc) as (d' & -> & Hdd & _); try done; try lia;
    destruct (inv_copies z e d' _ Hinv Hn Hdd Hk) as [e' He']; [by split; [exists e'|done]|].
  pas H; destruct (ecrit_compteur_cas _ _ _ _ _ Hc0) as [-> | ->];
    try (unfold rend in H; simplify_eq); (split; [|done]); exists e'; by eapply inv_meme.
Qed.

(** ** Reachable states of one boot *)

(** From a boot without a session, any calls in any order, by any processes. *)
Inductive atteint : Etat -> Prop :=
| at_depart st e : disque_ok (copies st) e -> ok e -> volume_ok (volume st) ->
    installation st = None -> atteint st
| at_appel st a : atteint st -> (forall e, Ab.lit (copies st) = Some e -> env_ok a st e) ->
    atteint (execute a st).

Lemma execute_inv a st e : inv st e -> env_ok a st e -> exists e', inv (execute a st) e'.
Proof.
  intros Hinv He. destruct a; simpl.
  - destruct (installation_commence _ _ _ _ _ _ _ _) eqn:E. by eapply commence_inv.
  - destruct (installation_ecrit _ _ _ _ _) eqn:E. exists e. by eapply ecrit_inv.
  - destruct (installation_verifie _ _ _ _) eqn:E. exists e. by eapply verifie_inv.
  - destruct (installation_termine _ _ _ _ _ _ _) eqn:E. by eapply termine_inv.
  - destruct (commit_sante _ _) eqn:E. by eapply sante_inv.
  - destruct (rollback_manuel _ _) eqn:E. by eapply rollback_inv.
Qed.

Lemma atteint_inv st : atteint st -> exists e, inv st e.
Proof.
  induction 1 as [st e Hd Hok Hvo Hn|st a _ [e He] Henv].
  - exists e. split; [done|done|done|]. intros i Hi. congruence.
  - apply (execute_inv a st e); [done|]. apply Henv. apply He.
Qed.

(** A byte of the device changes only through the session whose partition holds it. *)
Lemma execute_octet a st e k :
  inv st e -> env_ok a st e ->
  octets_vol (volume (execute a st)) !! k <> octets_vol (volume st) !! k ->
  exists i, installation st = Some i /\ octet_de (volume st) (cible i) k.
Proof.
  intros Hinv He Hne.
  assert (forall st', meme_contenu st st' ->
    octets_vol (volume st') !! k <> octets_vol (volume st) !! k -> False) as Hm.
  { by intros st' ->. }
  destruct a; simpl in Hne.
  - destruct (installation_commence _ _ _ _ _ _ _ _) eqn:E. exfalso. eapply Hm; [|exact Hne].
    by eapply commence_inv.
  - destruct (installation_ecrit _ _ _ _ _) eqn:E.
    apply ecrit_spec in E as [-> |(i & Hi & -> & Ha & Hf)]; [done|]. exists i. split; [done|].
    pose proof (in_session _ _ Hinv i Hi) as Hs.
    eapply ecriture_dans; [apply Hinv|apply Hs|apply He|done|done|exact Hne].
  - destruct (installation_verifie _ _ _ _) eqn:E. exfalso. eapply Hm; [|exact Hne].
    apply verifie_spec in E as [-> |(i & _ & _ & [[_ ->]|(_ & h & _ & ->)])]; done.
  - destruct (installation_termine _ _ _ _ _ _ _) as [st' r] eqn:E. exfalso. eapply Hm; [|exact Hne].
    destruct (termine_spec _ _ _ _ _ _ _ _ e E) as
      [[-> _]|(i & h & n & _ & _ & _ & _ & _ & _ & _ & st1 & r1 & Hp & Hr)]; [apply Hinv|done|].
    apply persiste_io_etat in Hp as [d' ->]. by destruct r1; destruct Hr as [-> _].
  - destruct (commit_sante _ _) eqn:E. exfalso. eapply Hm; [|exact Hne]. by eapply sante_inv.
  - destruct (rollback_manuel _ _) eqn:E. exfalso. eapply Hm; [|exact Hne]. by eapply rollback_inv.
Qed.

Lemma execute_table a st e :
  inv st e -> env_ok a st e -> meme_table (volume st) (volume (execute a st)).
Proof.
  intros Hinv He.
  assert (forall st', meme_contenu st st' -> meme_table (volume st) (volume st')) as Hm
    by (by intros st' ->).
  destruct a; simpl.
  - destruct (installation_commence _ _ _ _ _ _ _ _) eqn:E. apply Hm. by eapply commence_inv.
  - destruct (installation_ecrit _ _ _ _ _) eqn:E.
    apply ecrit_spec in E as [-> |(i & Hi & -> & _)]; [done|apply ecriture_table].
  - destruct (installation_verifie _ _ _ _) eqn:E. apply Hm.
    apply verifie_spec in E as [-> |(i & _ & _ & [[_ ->]|(_ & h & _ & ->)])]; done.
  - destruct (installation_termine _ _ _ _ _ _ _) as [st' r] eqn:E. apply Hm.
    destruct (termine_spec _ _ _ _ _ _ _ _ e E) as
      [[-> _]|(i & h & n & _ & _ & _ & _ & _ & _ & _ & st1 & r1 & Hp & Hr)]; [apply Hinv|done|].
    apply persiste_io_etat in Hp as [d' ->]. by destruct r1; destruct Hr as [-> _].
  - destruct (commit_sante _ _) eqn:E. apply Hm. by eapply sante_inv.
  - destruct (rollback_manuel _ _) eqn:E. apply Hm. by eapply rollback_inv.
Qed.

(** Two partitions share no byte. *)
Lemma octet_de_un v s s' k : volume_ok v -> octet_de v s k -> octet_de v s' k -> s = s'.
Proof.
  intros Hv (p & n & E & Hk) (p' & n' & E' & Hk'). destruct (decide (s = s')); [done|].
  pose proof (vo_bloc _ Hv). destruct (vo_disjoint _ Hv _ _ _ _ _ _ n0 E E'); nia.
Qed.

(** The contents of a slot change only through the session that targets it. *)
Lemma execute_contenu a st e s :
  inv st e -> env_ok a st e -> contenu (execute a st) s <> contenu st s ->
  exists i, installation st = Some i /\ s = cible i.
Proof.
  intros Hinv He Hne.
  destruct (decide (cible <$> installation st = Some s)) as [(i & -> & Hi)%fmap_Some|Hno]; [by exists i|].
  destruct Hne. apply contenu_ext; [apply Hinv|by eapply execute_table|]. intros k Hk.
  destruct (decide (octets_vol (volume (execute a st)) !! k = octets_vol (volume st) !! k))
    as [|Hd]; [done|]. destruct (execute_octet a st e k Hinv He Hd) as (i & Hi & Hc).
  destruct Hno. rewrite Hi. simpl. f_equal. eapply octet_de_un; [apply Hinv|done|done].
Qed.

(** ** The read-back of a session *)

(** Block geometry, and what the running digest has absorbed: exactly the bytes of
    the target slot before [verifie]. *)
Record relecture_ok (st : Etat) (i : Installation) : Prop := {
  ro_t : 0 < taille_bloc i;
  ro_len : inst_octets i = Z.of_nat (length (contenu st (cible i)));
  ro_mult : inst_octets i mod taille_bloc i = 0;
  ro_att : 0 < attendu_octets i <= inst_octets i;
  ro_ver : 0 <= verifie i <= attendu_octets i;
  ro_aligne : verifie i = attendu_octets i \/ verifie i mod taille_bloc i = 0;
  ro_h : verification st = None /\ verifie i = 0
         \/ verification st = Some (take (Z.to_nat (verifie i)) (contenu st (cible i)))
}.
Definition rel (st : Etat) : Prop := forall i, installation st = Some i -> relecture_ok st i.

(** What a caller does: every verify call of a session asks for the length announced by its
    manifest. *)
Definition protocole (a : appel) (st : Etat) : Prop :=
  match a with
  | Verifie _ _ l => forall i, installation st = Some i -> l = attendu_octets i
  | _ => True
  end.

Lemma commence_session io pid c t s st st' r :
  installation_commence verifie_sig cles io pid c t s st = (st', r) ->
  meme_session st st'
  \/ (meme_contenu st st' /\ verification st' = None /\ exists i, installation st' = Some i
      /\ verifie i = 0 /\ 0 < attendu_octets i <= inst_octets i).
Proof.
  intros H. assert (meme_session st st) as Hid by done. unfold installation_commence in H.
  pas H; [by left|]. pas H. pas H; [by left|].
  pas H; [apply trouve_meta_io in Hc as ->; by left|]. apply trouve_meta_io in Hc as ->.
  assert (forall st1 r1, avec_erreur (lit_meta io) Io x = (st1, r1) -> st1 = x) as Hlit.
  { intros st1 r1 (r0 & E & _)%avec_erreur_cas.
    unfold lit_meta, lie, etat_courant, ou_echoue, echoue, rend in E. by repeat cas E. }
  pas H; [apply Hlit in Hc as ->; by left|]. apply Hlit in Hc as ->.
  pas H; [by left|]. pas H; [by left|]. pas H; [by left|]. pas H; [by left|].
  pas H; apply persiste_io_etat in Hc as [d' ->]; [by left|].
  unfold change in H. simplify_eq. right. split; [done|]. split; [done|].
  match goal with E : Manifeste.verifie_signe _ _ _ _ = inl ?y |- _ =>
    destruct y as [signe cle]; apply Manifeste.verifie_signe_ok in E as (_ & _ & _ & Hm) end.
  eexists. split_and!; try done; simpl in *; destruct Hm; lia.
Qed.

Lemma rel_meme st st' : rel st -> meme_session st st' -> rel st'.
Proof.
  intros Hr (Hi & Hv & Hvol) i Ei. rewrite Hi in Ei. specialize (Hr i Ei).
  assert (contenu st' (cible i) = contenu st (cible i)) as Hc by (unfold contenu; by rewrite Hvol).
  destruct Hr. split; rewrite ?Hc, ?Hv; done.
Qed.

Lemma slice_dans (v : list Z) a m b k :
  (b + k <= m)%nat -> slice (slice v a m) b k = slice v (a + b) k.
Proof.
  intros H. apply list_eq. intros j. destruct (decide (j < k)%nat).
  - rewrite !lookup_slice by lia. f_equal. lia.
  - unfold slice at 1 3. by rewrite !lookup_take_ge by lia.
Qed.

(** An aligned read-back reads the partition of the target. *)
Lemma tampon_contenu st i l :
  volume_ok (volume st) -> partition_ok (volume st) i -> relecture_ok st i ->
  verifie i < l -> l = attendu_octets i ->
  tampon_lu i l st
  = slice (contenu st (cible i)) (Z.to_nat (verifie i)) (Z.to_nat (blocs_lus i l * taille_bloc i)).
Proof.
  intros Hv (Ht & n & Hp & Ho) [Hpos _ _ Hatt Hver Hal _] Hlt ->.
  destruct (vo_dans _ Hv _ _ _ Hp) as (Hp0 & Hn & _).
  unfold tampon_lu, contenu. rewrite Hp. rewrite <-Ht in *. set (t := taille_bloc i) in *.
  destruct Hal as [|Hal]; [lia|].
  assert (verifie i = verifie i / t * t) as Hq by (pose proof (Z.div_mod (verifie i) t ltac:(lia)); lia).
  set (q := verifie i / t) in *. assert (0 <= q) by (apply Z.div_pos; lia).
  set (b := blocs_lus i (attendu_octets i)).
  assert (b <= n - q) as Hb.
  { unfold b, blocs_lus. fold t. rewrite Hq. apply Z.min_le_iff. left.
    apply Z.lt_succ_r, Z.div_lt_upper_bound; nia. }
  assert (0 <= b) as Hb0.
  { unfold b, blocs_lus. fold t. apply Z.min_glb; apply Z.div_pos; lia. }
  assert (0 <= premier i * t /\ 0 <= q * t /\ 0 <= b * t /\ q * t + b * t <= n * t) as (? & ? & ? & ?) by nia.
  rewrite slice_dans by lia. f_equal. rewrite Hq. lia.
Qed.

(** One more chunk of an aligned read-back. *)
Lemma tampon_suite st i l :
  volume_ok (volume st) -> partition_ok (volume st) i -> relecture_ok st i -> verifie i < l -> l = attendu_octets i ->
  take (Z.to_nat (verifie i)) (contenu st (cible i))
    ++ take (Z.to_nat (utile_lu i l st)) (tampon_lu i l st)
  = take (Z.to_nat (verifie i + utile_lu i l st)) (contenu st (cible i))
  /\ 0 <= verifie i + utile_lu i l st <= l
  /\ (verifie i + utile_lu i l st = l \/ (verifie i + utile_lu i l st) mod taille_bloc i = 0).
Proof.
  intros Hv Hpa Hro Hlt Hl. unfold utile_lu. rewrite (tampon_contenu st i l Hv Hpa Hro Hlt Hl).
  subst l. clear Hv Hpa. destruct Hro as [Ht Hlen Hmult Hatt Hver Hal _].
  destruct Hal as [|Hal]; [lia|]. set (t := taille_bloc i) in *.
  set (c := contenu st (cible i)) in *. set (b := blocs_lus i (attendu_octets i)).
  assert (0 <= b) as Hb.
  { unfold b, blocs_lus. fold t. apply Z.min_glb; apply Z.div_pos; lia. }
  assert (0 <= b * t) by nia.
  assert (Z.of_nat (length (slice c (Z.to_nat (verifie i)) (Z.to_nat (b * t))))
    = Z.min (b * t) (inst_octets i - verifie i)) as ->.
  { unfold slice. rewrite length_take, length_drop. lia. }
  set (u := Z.min _ _). assert (0 <= u) as Hu by lia. split; [|split; [lia|]].
  - unfold slice. rewrite take_take. rewrite Z2Nat.inj_add by lia.
    rewrite <-take_take_drop. do 2 f_equal. lia.
  - destruct (Z.eq_dec u (attendu_octets i - verifie i)); [left; lia|]. right.
    assert (u = b * t \/ u = inst_octets i - verifie i) as [-> | ->] by lia.
    + rewrite Z.mod_add by lia. done.
    + rewrite Z.add_sub_assoc, Z.add_comm, Z.add_simpl_r. done.
Qed.

Lemma verifie_rel io pid l st st' r e :
  installation_verifie io pid l st = (st', r) -> inv st e -> rel st ->
  (forall i, installation st = Some i -> l = attendu_octets i) -> rel st'.
Proof.
  intros [->|(i & Hi & _ & [[Hz ->]|(Hlt & h & Hh & ->)])]%verifie_spec [_ _ Hvo Hs] Hr Hl; [done| |];
    intros j Hj; simpl in Hj; injection Hj as <-; specialize (Hr i Hi).
  - destruct Hr. split; simpl; try done; right; rewrite Hz; done.
  - specialize (Hl i Hi). destruct (tampon_suite st i l Hvo (so_part _ _ _ (Hs i Hi)) Hr Hlt Hl) as (Hsu & Hu & Ha).
    assert (h = take (Z.to_nat (verifie i)) (contenu st (cible i))) as ->.
    { destruct Hh as [[Hz ->]|Hh]; [by rewrite Hz|].
      destruct (ro_h _ _ Hr) as [[Hn _]|Hn]; congruence. }
    destruct Hr. subst l. split; try done; try (simpl; lia).
    right. exact (f_equal Some Hsu).
Qed.

Lemma ecrit_rel io pid dec l st st' r e :
  installation_ecrit io pid dec l st = (st', r) -> inv st e -> rel st -> rel st'.
Proof.
  intros [->|(i & Hi & -> & _)]%ecrit_spec [_ _ Hvo Hs] Hr; [done|].
  intros j Hj. simpl in Hj. injection Hj as <-. specialize (Hr i Hi). destruct Hr.
  destruct (so_part _ _ _ (Hs i Hi)) as (Ht & n & Hp & Ho).
  pose proof (ecriture_table io i dec l st) as Hta.
  split; try done; try (simpl; lia); [|by right|by left].
  change (inst_octets i = Z.of_nat (length (contenu (apres_ecriture io i dec l st) (cible i)))).
  rewrite (length_contenu _ _ (premier i) n); [by destruct Hta as (-> & _)| |by destruct Hta as (_ & -> & _)].
  by eapply volume_ok_table.
Qed.

Lemma execute_rel a st e :
  inv st e -> env_ok a st e -> protocole a st -> rel st -> rel (execute a st).
Proof.
  intros Hinv He Hp Hr. destruct a; simpl in *.
  - destruct (installation_commence _ _ _ _ _ _ _ _) as [st' r] eqn:E. simpl.
    assert (exists e', inv st' e') as [e' He'] by (by eapply commence_inv).
    apply commence_session in E as [E|(Hvol & Hv & i & Hi & Hz & Hatt)]; [by eapply rel_meme|].
    intros j Hj. assert (j = i) as -> by congruence. destruct (in_session _ _ He' i Hi).
    destruct so_part0 as (Ht & n & Hpt & Ho). pose proof (vo_bloc _ (in_vol _ _ He')).
    split; try done; try lia; [|rewrite Ho, Ht; by apply Z.mod_mul; lia|right; by rewrite Hz|by left].
    by rewrite (length_contenu _ _ _ _ (in_vol _ _ He') Hpt).
  - destruct (installation_ecrit _ _ _ _ _) eqn:E. by eapply ecrit_rel.
  - destruct (installation_verifie _ _ _ _) eqn:E. by eapply verifie_rel.
  - destruct (installation_termine _ _ _ _ _ _ _) as [st' r] eqn:E. simpl.
    destruct (termine_spec _ _ _ _ _ _ _ _ e E) as
      [[-> _]|(i & h & n & _ & _ & _ & _ & _ & _ & _ & st1 & r1 & Hpp & Hrr)]; [apply Hinv|done|].
    apply persiste_io_etat in Hpp as [d' ->]. destruct r1; destruct Hrr as [-> _].
    + intros j Hj. done.
    + by apply (rel_meme st).
  - destruct (commit_sante _ _) eqn:E. eapply rel_meme; [done|]. by eapply sante_inv.
  - destruct (rollback_manuel _ _) eqn:E. eapply rel_meme; [done|]. by eapply rollback_inv.
Qed.

(** Reachable states when the callers follow the protocol. *)
Inductive atteint_p : Etat -> Prop :=
| ap_depart st e : disque_ok (copies st) e -> ok e -> volume_ok (volume st) ->
    installation st = None -> atteint_p st
| ap_appel st a : atteint_p st -> (forall e, Ab.lit (copies st) = Some e -> env_ok a st e) ->
    protocole a st -> atteint_p (execute a st).

Lemma atteint_p_inv st : atteint_p st -> (exists e, inv st e) /\ rel st.
Proof.
  induction 1 as [st e Hd Hok Hvo Hn|st a _ [[e He] Hr] Henv Hp].
  - split; [|by intros i Hi; congruence]. exists e. split; [done|done|done|]. intros i Hi. congruence.
  - assert (env_ok a st e) as Ha by (apply Henv; apply He).
    split; [by eapply execute_inv|by eapply execute_rel].
Qed.

(** C23. The running slot and the active slot are never written (I5, I6): in every
    state reachable during one boot, by any sequence of update calls of any
    processes and with any disk failures, a call that changes the contents of a slot
    changes neither the slot the META record names active nor the slot that runs;
    and every byte of the device that a call changes lies in the partition of a slot
    that is neither of them. *)
Theorem slots_en_service_intacts st a :
  atteint st -> (forall e, Ab.lit (copies st) = Some e -> env_ok a st e) ->
  exists e, Ab.lit (copies st) = Some e /\ ok e
    /\ (forall s, contenu (execute a st) s <> contenu st s ->
          s <> actif e /\ forall p, passage st = Some p -> s <> Passage.slot p)
    /\ forall k, octets_vol (volume (execute a st)) !! k <> octets_vol (volume st) !! k ->
         exists s, octet_de (volume st) s k
           /\ s <> actif e /\ forall p, passage st = Some p -> s <> Passage.slot p.
Proof.
  intros Hat Henv. destruct (atteint_inv _ Hat) as [e He]. pose proof He as [Hd Hok Hvo Hs].
  assert (forall i, installation st = Some i ->
    cible i <> actif e /\ forall p, passage st = Some p -> cible i <> Passage.slot p) as Hcible.
  { intros i Hi. specialize (Hs i Hi). split; [apply Hs|]. intros p Hp.
    destruct (so_passage _ _ _ Hs) as (q & Hq & ?). congruence. }
  exists e. split; [apply Hd|]. split; [done|]. split.
  - intros s Hne. destruct (execute_contenu a st e s He) as (i & Hi & ->); [apply Henv, Hd|done|].
    by apply Hcible.
  - intros k Hne. destruct (execute_octet a st e k He) as (i & Hi & Hk); [apply Henv, Hd|done|].
    exists (cible i). split; [done|]. by apply Hcible.
Qed.

(** C25. An accepted candidate is the signed image: when every verify call of a session
    asks for the length its manifest announces, whatever else is called in between, a finish call that succeeds leaves on disk a record in which the target slot is a
    candidate with the digest and the attempts of the signed manifest, and the bytes
    of that slot, over the signed length, have that digest. *)
Theorem candidat_verifie st io pid em l k st' :
  atteint_p st ->
  (forall e, Ab.lit (copies st) = Some e -> env_ok (Termine io pid em l k) st e) ->
  installation_termine sha256 io pid em l k st = (st', inl tt) ->
  exists i n, installation st = Some i /\ Ab.lit (copies st') = Some n
    /\ slot n (cible i) = mk_info (Candidat k) em
    /\ em = attendu i /\ l = attendu_octets i /\ k = attendu_essais i
    /\ sha256 (take (Z.to_nat l) (contenu st' (cible i))) = em.
Proof.
  intros Hat Henv H. destruct (atteint_p_inv _ Hat) as [[e He] Hr]. pose proof He as [Hd Hok Hvo Hs].
  destruct (Henv e (do_lit _ _ Hd)) as (Hb & Hdet & _).
  destruct (termine_spec _ _ _ _ _ _ _ _ e H Hd)
    as [[_ []]|(i & h & n & Hi & Hh & -> & -> & -> & Hv & Hn & st1 & r1 & Hp & Hrr)]; [done|].
  simpl in Hdet. rewrite Hi, Hh in Hdet. simpl in Hdet. rewrite Hn in Hdet.
  specialize (Hdet n eq_refl). destruct (Hs i Hi) as [? ? ? Hl Ho Hes _].
  assert (ok n) as Hnok.
  { eapply marque_ok; [exact Hok|done|done| |exact Hn]. unfold octet. lia. }
  apply marque_spec in Hn as (Hq & Ha & _ & Him & Hsl & _). rewrite suivant_sequence in Hq by done.
  destruct (persiste_io _ _ _ _ _ _ e Hp) as (d' & -> & _ & Hdn); [done|done|lia|done|].
  destruct r1 as [u|er]; destruct Hrr as [-> Hrr]; [|done].
  exists i, n. split_and!; try done; [by apply Hdn with u|].
  specialize (Hr i Hi). destruct (ro_h _ _ Hr) as [[Hno _]|Hh']; [congruence|].
  rewrite Hh in Hh'. simplify_eq. rewrite Hv in Him.
  rewrite Him. by destruct (cible i).
Qed.

End Preuves.

(** ** Concrete runs *)

(** A digest that separates all images of at most 32 bytes: the padded bytes. *)
Definition sha_ex (l : list Z) : list Z := take 32 (l ++ replicate 32 0).
Definition sig_ex (_ _ _ : list Z) : bool := true.
Definition cles_ex : list Manifeste.CleDeConfiance := [Manifeste.mk_cle (replicate 32 1) true].

Definition image_signee : list Z := [5; 5; 1; 2; 3; 4; 6; 7].
Definition image_decalee : list Z := [5; 1; 2; 3; 4; 6; 7; 9].
Definition manifeste_ex : Manifeste.Manifeste :=
  Manifeste.mk_manifeste (49 :: replicate 63 0) 1 (sha_ex image_signee) 8 3.
Definition texte_ex : list Z := Manifeste.imprime manifeste_ex.

Definition record_ex : Enregistrement := initial Slot_A exemple_image.
Definition passage_ex : Passage.Passage :=
  Passage.mk_passage Slot_A Passage.Actif 0 1 42 (replicate 16 9).
(** A device of 20 bytes, in blocks of 4: one block of table, then the partitions of A and B. *)
Definition volume_ex : Volume :=
  mk_volume (replicate 4 9 ++ replicate 8 1 ++ replicate 8 0) 4
    (fun s => match s with Slot_A => Some (1, 2) | Slot_B => Some (3, 2) end).
Definition depart_ex : Etat :=
  mk_etat (Ab.encode record_ex, Ab.encode record_ex) (Echecs.encode 0) (Some passage_ex) false
    None None volume_ex.
(** [b] is the number of blocks transferred. *)
Definition io_ex (b : Z) (vidange : bool) : Io_rep :=
  mk_io None true 96 true vidange true true b b true true.

Definition exec_ex : appel -> Etat -> Etat := execute sha_ex sig_ex cles_ex.
Definition debut_ex : appel := Commence (io_ex 0 true) 7 Slot_B texte_ex [].
Definition ecrit_ex (l : list Z) : appel := Ecrit (io_ex 2 true) 7 0 l.
Definition fin_ex (vidange : bool) : appel :=
  Termine (io_ex 0 vidange) 7 (sha_ex image_signee) 8 3.

Lemma record_ex_ok : ok record_ex.
Proof. apply initial_ok; [done|]. apply Forall_replicate. unfold octet. lia. Qed.

(** Every META write of these runs is complete, and the sequence is small. *)
Lemma env_ex a st :
  io_octets_ecrits (io_de a) = 96%nat ->
  match a with Ecrit _ _ d _ => 0 <=? d | _ => true end = true ->
  match Ab.lit (copies st) with Some e => sequence e + 1 <? u64_max | None => true end = true ->
  forall e, Ab.lit (copies st) = Some e -> env_ok sha_ex a st e.
Proof.
  intros Hio Hd Hs e He. rewrite He in Hs. bool_prop. split; [done|]. split.
  - intros n _. rewrite Hio. intros ?. lia.
  - destruct a; try done. by bool_prop.
Qed.

Lemma volume_ex_ok : volume_ok volume_ex.
Proof.
  split; [done| |].
  - intros [] p n [= <- <-]; simpl; lia.
  - intros [] [] p n p' n' Hne [= <- <-] [= <- <-]; try done; simpl; lia.
Qed.

Ltac env_calcul := apply env_ex; [reflexivity|reflexivity|vm_compute; reflexivity].
Ltac appel_p := apply ap_appel; [|env_calcul|].
Ltac appel_a := apply at_appel; [|env_calcul].

(** begin, write and a complete read-back of the signed image. *)
Definition pret_ex : Etat :=
  exec_ex (Verifie (io_ex 2 true) 7 8) (exec_ex (ecrit_ex image_signee) (exec_ex debut_ex depart_ex)).

Lemma pret_atteint : atteint_p sha_ex sig_ex cles_ex pret_ex.
Proof.
  unfold pret_ex, exec_ex. appel_p; [appel_p; [appel_p|]|].
  - apply (ap_depart _ _ _ depart_ex record_ex); [|apply record_ex_ok|apply volume_ex_ok|reflexivity].
    apply disque_jumeau_ok, record_ex_ok.
  - exact I.
  - exact I.
  - intros i Hi. vm_compute in Hi. injection Hi as <-. reflexivity.
Qed.

Lemma candidat_verifie_witness :
  exists i n, installation pret_ex = Some i
    /\ Ab.lit (copies (exec_ex (fin_ex true) pret_ex)) = Some n
    /\ slot n (cible i) = mk_info (Candidat 3) (sha_ex image_signee).
Proof.
  assert (installation_termine sha_ex (io_ex 0 true) 7 (sha_ex image_signee) 8 3 pret_ex
    = (exec_ex (fin_ex true) pret_ex, inl tt)) as H by (vm_compute; reflexivity).
  destruct (candidat_verifie sha_ex sig_ex cles_ex pret_ex (io_ex 0 true) 7 (sha_ex image_signee) 8 3
              (exec_ex (fin_ex true) pret_ex) pret_atteint
              ltac:(env_calcul) H)
    as (i & n & H1 & H2 & H3 & _).
  exists i, n. exact (conj H1 (conj H2 H3)).
Defined.

Lemma ecrit_atteint : atteint sha_ex sig_ex cles_ex (exec_ex debut_ex depart_ex).
Proof.
  unfold exec_ex. appel_a. apply (at_depart _ _ _ depart_ex record_ex);
    [|apply record_ex_ok|apply volume_ex_ok|reflexivity]. apply disque_jumeau_ok, record_ex_ok.
Qed.

Lemma slots_en_service_intacts_witness :
  exists e, Ab.lit (copies (exec_ex debut_ex depart_ex)) = Some e /\ Slot_B <> actif e.
Proof.
  destruct (slots_en_service_intacts sha_ex sig_ex cles_ex (exec_ex debut_ex depart_ex)
              (ecrit_ex image_signee) ecrit_atteint
              ltac:(env_calcul)) as (e & H1 & _ & H2).
  exists e. split; [exact H1|]. destruct H2 as [H2 _]. destruct (H2 Slot_B) as [H3 _]; [|exact H3].
  vm_compute. discriminate.
Defined.

(** The read-back check can be bypassed when verify calls of one session ask
    for different lengths: asking first for one byte and then for the whole image
    makes the digest absorb the first block twice from its start, so a slot that
    holds the image shifted by one byte is accepted as the signed image, although
    the digest used here separates all images of this size. *)
Theorem relecture_decalee :
  let st := exec_ex (Verifie (io_ex 2 true) 7 8) (exec_ex (Verifie (io_ex 1 true) 7 1)
              (exec_ex (ecrit_ex image_decalee) (exec_ex debut_ex depart_ex))) in
  let '(st', r) := installation_termine sha_ex (io_ex 0 true) 7 (sha_ex image_signee) 8 3 st in
  atteint sha_ex sig_ex cles_ex st /\ r = inl tt
  /\ contenu st' Slot_B = image_decalee /\ image_decalee <> image_signee
  /\ sha_ex (contenu st' Slot_B) <> sha_ex image_signee
  /\ exists n, Ab.lit (copies st') = Some n
       /\ slot n Slot_B = mk_info (Candidat 3) (sha_ex image_signee).
Proof.
  intros st.
  assert (atteint sha_ex sig_ex cles_ex st) as Hat.
  { unfold st, exec_ex. do 3 appel_a. apply ecrit_atteint. }
  destruct (installation_termine _ _ _ _ _ _ st) as [st' r] eqn:E.
  split; [done|]. vm_compute in E. injection E as <- <-.
  split; [done|]. split; [done|]. split; [done|]. split; [vm_compute; discriminate|].
  eexists. split; vm_compute; reflexivity.
Qed.

(** A failed finish leaves a writable candidate: if the META write reaches the
    disk but its flush fails, finish reports an error and keeps the session open,
    while the record on disk already marks the slot as a bootable candidate; a later
    write of the same session then changes the contents of that candidate. All calls
    follow the protocol. *)
Theorem candidat_reinscriptible :
  let st := exec_ex (ecrit_ex image_decalee) (exec_ex (fin_ex false) pret_ex) in
  atteint_p sha_ex sig_ex cles_ex st
  /\ (installation_termine sha_ex (io_ex 0 false) 7 (sha_ex image_signee) 8 3 pret_ex).2
      = inr (Io "vidange")
  /\ exists n, Ab.lit (copies st) = Some n
       /\ slot n Slot_B = mk_info (Candidat 3) (sha_ex image_signee)
       /\ (choisit_boot n).1 = Slot_B /\ contenu st Slot_B = image_decalee.
Proof.
  intros st. split.
  - unfold st, exec_ex. appel_p; [appel_p; [apply pret_atteint|exact I]|exact I].
  - split; [vm_compute; reflexivity|]. exists (default record_ex (Ab.lit (copies st))).
    repeat (split; [vm_compute; reflexivity|]). vm_compute. reflexivity.
Qed.

End NoyauProofs.
