(* ===== verification/Compagnon.v ===== *)
(** The buddy allocator of [src/kernel/memory/compagnon.rs]: blocks of [2^k] elementary
    blocks, one free list per order threaded through the free blocks themselves, and
    a bitmap with one plane per order plus a plane of blocks already served once.

    [usize] and [u64] values are integers; the statistics counters wrap at 64 bits,
    and the bounds that keep every other sum below [2^64] are part of the invariant
    of [CompagnonProofs]. *)

From S2P Require Import Prelude.

Module Compagnon.

(** ** Block arithmetic *)

Definition ORDRES : Z := 16.
Definition AUCUN : Z := u64_max - 1.

(** What the allocator asks of the memory it manages: the link word of a free block. *)
Class Terrain (T : Type) := {
  lien : T -> Z -> Z;
  pose_lien : T -> Z -> Z -> T
}.

Definition taille (ordre : Z) : Z := Z.shiftl 1 ordre.

Definition jumeau (bloc ordre : Z) : Z := Z.lxor bloc (taille ordre).
Definition pere (bloc ordre : Z) : Z := Z.land bloc (Z.lxor (u64_max - 1) (taille ordre)).
Definition aligne (bloc ordre : Z) : bool := Z.land bloc (taille ordre - 1) =? 0.

Fixpoint ordre_pour_boucle (fuel : nat) (blocs ordre : Z) : Z :=
  match fuel with
  | O => ordre
  | S fuel =>
      if ordre + 1 <? ORDRES then
        if blocs <=? taille ordre then ordre else ordre_pour_boucle fuel blocs (ordre + 1)
      else ordre
  end.
Definition ordre_pour (blocs : Z) : Z :=
  if blocs <=? 1 then 0 else ordre_pour_boucle (Z.to_nat ORDRES) blocs 0.

Definition mots_bitmap (blocs : Z) : Z := (ORDRES + 1) * ((blocs + 63) / 64).

(** ** State *)

Record Compagnon := mk_compagnon {
  blocs : Z;
  mots_par_ordre : Z;
  libre : list Z;
  tetes : list Z;
  disponibles : Z;
  allocations : Z;
  liberations : Z;
  divisions : Z;
  fusions : Z;
  echecs : Z;
  reemplois : Z
}.

Definition set_libre (c : Compagnon) (l : list Z) : Compagnon :=
  mk_compagnon (blocs c) (mots_par_ordre c) l (tetes c) (disponibles c) (allocations c)
    (liberations c) (divisions c) (fusions c) (echecs c) (reemplois c).
Definition set_tete (c : Compagnon) (ordre bloc : Z) : Compagnon :=
  mk_compagnon (blocs c) (mots_par_ordre c) (libre c) (aset (tetes c) ordre bloc)
    (disponibles c) (allocations c) (liberations c) (divisions c) (fusions c) (echecs c)
    (reemplois c).
Definition compte_fusion (c : Compagnon) : Compagnon :=
  mk_compagnon (blocs c) (mots_par_ordre c) (libre c) (tetes c) (disponibles c)
    (allocations c) (liberations c) (divisions c) (wrapping_add64 (fusions c) 1) (echecs c)
    (reemplois c).
Definition compte_division (c : Compagnon) : Compagnon :=
  mk_compagnon (blocs c) (mots_par_ordre c) (libre c) (tetes c) (disponibles c)
    (allocations c) (liberations c) (wrapping_add64 (divisions c) 1) (fusions c) (echecs c)
    (reemplois c).
Definition compte_echec (c : Compagnon) : Compagnon :=
  mk_compagnon (blocs c) (mots_par_ordre c) (libre c) (tetes c) (disponibles c)
    (allocations c) (liberations c) (divisions c) (fusions c) (wrapping_add64 (echecs c) 1)
    (reemplois c).
Definition compte_reemploi (c : Compagnon) : Compagnon :=
  mk_compagnon (blocs c) (mots_par_ordre c) (libre c) (tetes c) (disponibles c)
    (allocations c) (liberations c) (divisions c) (fusions c) (echecs c)
    (wrapping_add64 (reemplois c) 1).
Definition compte_liberation (c : Compagnon) (ajout : Z) : Compagnon :=
  mk_compagnon (blocs c) (mots_par_ordre c) (libre c) (tetes c) (disponibles c + ajout)
    (allocations c) (wrapping_add64 (liberations c) 1) (divisions c) (fusions c) (echecs c)
    (reemplois c).
Definition compte_allocation (c : Compagnon) (retrait : Z) : Compagnon :=
  mk_compagnon (blocs c) (mots_par_ordre c) (libre c) (tetes c) (disponibles c - retrait)
    (wrapping_add64 (allocations c) 1) (liberations c) (divisions c) (fusions c) (echecs c)
    (reemplois c).

Definition tete (c : Compagnon) (ordre : Z) : Z := aget (tetes c) ordre.

Definition neuf (blocs : Z) (libre : list Z) : option Compagnon :=
  if (blocs =? 0) || (Z.of_nat (length libre) <? mots_bitmap blocs) then None
  else Some (mk_compagnon blocs ((blocs + 63) / 64) (replicate (length libre) 0)
               (replicate (Z.to_nat ORDRES) AUCUN) 0 0 0 0 0 0 0).

(** ** The bitmap *)

Definition mot_de (c : Compagnon) (bloc ordre : Z) : Z :=
  ordre * mots_par_ordre c + bloc / 64.

Definition est_libre (c : Compagnon) (bloc ordre : Z) : bool :=
  if (blocs c <=? bloc) || (ORDRES <=? ordre) then false
  else teste_bit (aget (libre c) (mot_de c bloc ordre)) (bloc mod 64).

Definition marque (c : Compagnon) (bloc ordre : Z) (valeur : bool) : Compagnon :=
  let mot := mot_de c bloc ordre in
  let w := aget (libre c) mot in
  set_libre c (aset (libre c) mot
    (if valeur then pose_bit w (bloc mod 64) else ote_bit w (bloc mod 64))).

(** The bits [debut, debut + largeur) of a word. *)
Definition masque_etendue (debut largeur : Z) : Z :=
  if largeur =? 64 then u64_max - 1
  else Z.shiftl (Z.shiftl 1 largeur - 1) debut mod u64_max.

Fixpoint etendue_servie_boucle (fuel : nat) (c : Compagnon) (courant fin : Z) : bool :=
  match fuel with
  | O => false
  | S fuel =>
      if courant <? fin then
        let mot := mot_de c courant ORDRES in
        let debut_bit := courant mod 64 in
        let largeur := Z.min (fin - courant) (64 - debut_bit) in
        if negb (Z.land (aget (libre c) mot) (masque_etendue debut_bit largeur) =? 0)
        then true
        else etendue_servie_boucle fuel c (courant + largeur) fin
      else false
  end.
Definition etendue_servie (c : Compagnon) (bloc ordre : Z) : bool :=
  let fin := Z.min (bloc + taille ordre) (blocs c) in
  etendue_servie_boucle (Z.to_nat (taille ordre) + 1) c bloc fin.

Fixpoint marque_etendue_servie_boucle (fuel : nat) (c : Compagnon) (courant fin : Z)
  : Compagnon :=
  match fuel with
  | O => c
  | S fuel =>
      if courant <? fin then
        let mot := mot_de c courant ORDRES in
        let debut_bit := courant mod 64 in
        let largeur := Z.min (fin - courant) (64 - debut_bit) in
        let c := set_libre c (aset (libre c) mot
                   (Z.lor (aget (libre c) mot) (masque_etendue debut_bit largeur))) in
        marque_etendue_servie_boucle fuel c (courant + largeur) fin
      else c
  end.
Definition marque_etendue_servie (c : Compagnon) (bloc ordre : Z) : Compagnon :=
  let fin := Z.min (bloc + taille ordre) (blocs c) in
  marque_etendue_servie_boucle (Z.to_nat (taille ordre) + 1) c bloc fin.

(** ** The lists, freeing and allocating *)

Section Operations.
Context {T : Type} `{Terrain T}.

Definition empile (c : Compagnon) (t : T) (bloc ordre : Z) : Compagnon * T :=
  let t := pose_lien t bloc (tete c ordre) in
  (marque (set_tete c ordre bloc) bloc ordre true, t).

Fixpoint retire_boucle (fuel : nat) (c : Compagnon) (t : T)
  (bloc ordre precedent courant garde : Z) : Compagnon * T * bool :=
  match fuel with
  | O => (c, t, false)
  | S fuel =>
      if courant =? AUCUN then (c, t, false)
      else if courant =? bloc then
        let suivant := lien t courant in
        let ct := if precedent =? AUCUN then (set_tete c ordre suivant, t)
                  else (c, pose_lien t precedent suivant) in
        (marque ct.1 bloc ordre false, ct.2, true)
      else if blocs c <? garde + 1 then (c, t, false)
      else retire_boucle fuel c t bloc ordre courant (lien t courant) (garde + 1)
  end.
(** The guard stops the walk after [blocs + 1] links, hence the fuel. *)
Definition retire (c : Compagnon) (t : T) (bloc ordre : Z) : Compagnon * T * bool :=
  retire_boucle (Z.to_nat (blocs c) + 2) c t bloc ordre AUCUN (tete c ordre) 0.

(** The merging loop of [rend]: the block and the order it ends with. *)
Fixpoint fusionne (fuel : nat) (c : Compagnon) (t : T) (bloc ordre : Z)
  : Compagnon * T * (Z * Z) :=
  match fuel with
  | O => (c, t, (bloc, ordre))
  | S fuel =>
      if ordre + 1 <? ORDRES then
        let compagnon := jumeau bloc ordre in
        if (blocs c <=? compagnon) || (blocs c <? compagnon + taille ordre)
        then (c, t, (bloc, ordre))
        else if negb (est_libre c compagnon ordre) then (c, t, (bloc, ordre))
        else match retire c t compagnon ordre with
             | (c, t, false) => (c, t, (bloc, ordre))
             | (c, t, true) => fusionne fuel (compte_fusion c) t (pere bloc ordre) (ordre + 1)
             end
      else (c, t, (bloc, ordre))
  end.

Definition rend (c : Compagnon) (t : T) (bloc ordre : Z) : Compagnon * T * bool :=
  if (ORDRES <=? ordre) || (blocs c <=? bloc) || negb (aligne bloc ordre) then (c, t, false)
  else if blocs c <? bloc + taille ordre then (c, t, false)
  else if est_libre c bloc ordre then (c, t, false)
  else
    let ajout := taille ordre in
    match fusionne (Z.to_nat ORDRES) c t bloc ordre with
    | (c, t, (bloc, ordre)) =>
        let ct := empile c t bloc ordre in
        (compte_liberation ct.1 ajout, ct.2, true)
    end.

(** The first order from [source] on whose list is not empty, [ORDRES] if none. *)
Fixpoint cherche_source (fuel : nat) (c : Compagnon) (source : Z) : Z :=
  match fuel with
  | O => source
  | S fuel =>
      if (source <? ORDRES) && (tete c source =? AUCUN)
      then cherche_source fuel c (source + 1) else source
  end.

(** Splits [bloc] from order [source] down to [ordre], freeing the high halves. *)
Fixpoint divise (fuel : nat) (c : Compagnon) (t : T) (bloc source ordre : Z)
  : Compagnon * T :=
  match fuel with
  | O => (c, t)
  | S fuel =>
      if ordre <? source then
        let source := source - 1 in
        let haut := bloc + taille source in
        let ct := empile c t haut source in
        divise fuel (compte_division ct.1) ct.2 bloc source ordre
      else (c, t)
  end.

Definition prend (c : Compagnon) (t : T) (ordre : Z) : Compagnon * T * option Z :=
  if ORDRES <=? ordre then (compte_echec c, t, None)
  else
    let source := cherche_source (Z.to_nat ORDRES) c ordre in
    if ORDRES <=? source then (compte_echec c, t, None)
    else
      let bloc := tete c source in
      let suivant := lien t bloc in
      let c := marque (set_tete c source suivant) bloc source false in
      match divise (Z.to_nat ORDRES) c t bloc source ordre with
      | (c, t) =>
          let c := if etendue_servie c bloc ordre then compte_reemploi c else c in
          let c := marque_etendue_servie c bloc ordre in
          (compte_allocation c (taille ordre), t, Some bloc)
      end.

Fixpoint compte_boucle (fuel : nat) (c : Compagnon) (t : T) (courant n : Z) : Z :=
  match fuel with
  | O => n
  | S fuel =>
      if negb (courant =? AUCUN) && (n <=? blocs c)
      then compte_boucle fuel c t (lien t courant) (n + 1) else n
  end.
Definition compte_a_l_ordre (c : Compagnon) (t : T) (ordre : Z) : Z :=
  if ORDRES <=? ordre then 0
  else compte_boucle (Z.to_nat (blocs c) + 2) c t (tete c ordre) 0.

End Operations.

Definition plus_grand_ordre (c : Compagnon) : option Z :=
  List.find (fun ordre => negb (tete c ordre =? AUCUN))
    (rev (map Z.of_nat (seq 0 (Z.to_nat ORDRES)))).

End Compagnon.
