(* ===== verification/CompagnonBits.v ===== *)
(** Arithmetic of buddy blocks and the bitmap of [Compagnon]: twins and fathers as
    sums, nesting of aligned ranges, and the effect of each bitmap write on each bit. *)

From S2P Require Import Prelude Compagnon.
Import Compagnon.

Module CompagnonBits.

(** ** Powers of two, twins and fathers *)

Lemma taille_pow k : 0 <= k -> taille k = 2 ^ k.
Proof. intros. unfold taille. rewrite Z.shiftl_mul_pow2 by lia. lia. Qed.

Lemma taille_pos k : 0 <= k -> 0 < taille k.
Proof. intros. rewrite taille_pow by lia. apply Z.pow_pos_nonneg; lia. Qed.

Lemma taille_succ k : 0 <= k -> taille (k + 1) = 2 * taille k.
Proof. intros. rewrite !taille_pow, Z.pow_add_r by lia. lia. Qed.

Lemma taille_mult j k : 0 <= j <= k -> exists m, 0 < m /\ taille k = m * taille j.
Proof.
  intros. exists (2 ^ (k - j)). split; [apply Z.pow_pos_nonneg; lia|].
  rewrite !taille_pow, <-Z.pow_add_r by lia. f_equal. lia.
Qed.

(** A block number is aligned for its order when the order's size divides it. *)
Definition au_pas (b k : Z) : Prop := b mod taille k = 0.

Lemma aligne_spec b k : 0 <= k -> aligne b k = true <-> au_pas b k.
Proof.
  intros. unfold aligne, au_pas. rewrite taille_pow by lia.
  replace (2 ^ k - 1) with (Z.ones k) by (rewrite Z.ones_equiv; lia).
  rewrite Z.land_ones by lia. apply Z.eqb_eq.
Qed.

Lemma jumeau_spec b k :
  0 <= k -> jumeau b k = if Z.testbit b k then b - taille k else b + taille k.
Proof.
  intros Hk. unfold jumeau. rewrite !taille_pow by lia.
  assert (forall a, Z.testbit a k = false -> Z.lxor a (2 ^ k) = a + 2 ^ k) as Hx.
  { intros a Ha. rewrite Z.add_nocarry_lxor; [done|].
    apply Z.bits_inj'. intros i Hi.
    rewrite Z.land_spec, Z.bits_0, Z.pow2_bits_eqb by lia.
    destruct (Z.eqb_spec k i) as [<-|]; [by rewrite Ha|apply andb_false_r]. }
  destruct (Z.testbit b k) eqn:E; [|by apply Hx].
  assert (Z.testbit (Z.lxor b (2 ^ k)) k = false) as H1.
  { by rewrite Z.lxor_spec, E, Z.pow2_bits_true by lia. }
  apply Hx in H1. rewrite Z.lxor_assoc, Z.lxor_nilpotent, Z.lxor_0_r in H1. lia.
Qed.

Lemma pere_spec b k :
  0 <= k < 64 -> 0 <= b < u64_max ->
  pere b k = if Z.testbit b k then b - taille k else b.
Proof.
  intros Hk Hb.
  assert (pere b k = if Z.testbit b k then jumeau b k else b) as ->.
  { unfold pere, jumeau. rewrite taille_pow by lia.
    apply Z.bits_inj'. intros i Hi.
    rewrite Z.land_spec, Z.lxor_spec, ones64_testbit, Z.pow2_bits_eqb by lia.
    assert (64 <= i -> Z.testbit b i = false) as Ho
      by (intros; by apply (mot_bits 64 b)).
    destruct (Z.testbit b k) eqn:E; rewrite ?Z.lxor_spec, ?Z.pow2_bits_eqb by lia;
    destruct (Z.eqb_spec k i) as [->|]; destruct (Z.ltb_spec i 64) as [|Hi'];
      try lia; rewrite ?E, ?(Ho Hi'); simpl; try done; by destruct (Z.testbit b i). }
  rewrite jumeau_spec by lia. by destruct (Z.testbit b k).
Qed.

Lemma au_pas_succ b k :
  0 <= k -> au_pas b (k + 1) <-> au_pas b k /\ Z.testbit b k = false.
Proof.
  intros Hk. unfold au_pas. pose proof (taille_pos k Hk).
  rewrite taille_succ by done. rewrite Z.mul_comm, Z.rem_mul_r by lia.
  pose proof (Z.testbit_spec' b k Hk) as Hb. rewrite <-taille_pow in Hb by lia.
  rewrite <-Hb. pose proof (Z.mod_pos_bound b (taille k) ltac:(lia)).
  destruct (Z.testbit b k); simpl; split; intros; try (split; done || lia);
    destruct_and?; try done; lia.
Qed.

Lemma au_pas_ajoute b k : 0 <= k -> au_pas b k -> au_pas (b + taille k) k.
Proof.
  unfold au_pas. intros Hk H. pose proof (taille_pos k Hk).
  by rewrite <-(Z.mul_1_l (taille k)) at 1; rewrite Z.mod_add by lia.
Qed.

Lemma au_pas_ote b k : 0 <= k -> au_pas b k -> au_pas (b - taille k) k.
Proof.
  unfold au_pas. intros Hk H. pose proof (taille_pos k Hk).
  replace (b - taille k) with (b + (-1) * taille k) by lia. by rewrite Z.mod_add by lia.
Qed.

Lemma au_pas_zero k : au_pas 0 k.
Proof. apply Zmod_0_l. Qed.

Lemma au_pas_0 b : au_pas b 0.
Proof. unfold au_pas. change (taille 0) with 1. apply Z.mod_1_r. Qed.

Lemma au_pas_moins j k b : 0 <= j <= k -> au_pas b k -> au_pas b j.
Proof.
  unfold au_pas. intros Hj Hb. destruct (taille_mult j k Hj) as (m & Hm & Em).
  pose proof (taille_pos j ltac:(lia)). rewrite Em in Hb.
  apply Z.mod_divide in Hb as [q ->]; [|nia].
  rewrite Z.mul_assoc. apply Z.mod_mul. lia.
Qed.

(** The father starts at the lower of the two twins and is aligned one order up. *)
Lemma pere_jumeau b k :
  0 <= k < 63 -> 0 <= b -> b + 2 * taille k < u64_max -> au_pas b k ->
  pere b k = Z.min b (jumeau b k) /\ au_pas (pere b k) (k + 1)
  /\ Z.abs (b - jumeau b k) = taille k /\ au_pas (jumeau b k) k /\ 0 <= jumeau b k.
Proof.
  intros Hk Hb Hu Hp. pose proof (taille_pos k ltac:(lia)) as Ht.
  rewrite pere_spec, jumeau_spec by lia.
  destruct (Z.testbit b k) eqn:E.
  - assert (taille k <= b) as Hle.
    { rewrite taille_pow by lia. apply Z.nlt_ge. intros Hlt.
      pose proof (proj1 (mot_bits k b ltac:(lia)) ltac:(lia)) as [_ Hz].
      rewrite Hz in E by lia. done. }
    split_and!; [lia| |lia|apply au_pas_ote; [lia|done]|lia].
    rewrite au_pas_succ by lia. split; [apply au_pas_ote; [lia|done]|].
    pose proof (jumeau_spec b k ltac:(lia)) as Hj. rewrite E in Hj. rewrite <-Hj.
    unfold jumeau. rewrite Z.lxor_spec, E, taille_pow, Z.pow2_bits_true by lia. done.
  - split_and!; [lia| |lia|apply au_pas_ajoute; [lia|done]|lia].
    rewrite au_pas_succ by lia. done.
Qed.

Lemma jumeau_invol b k : jumeau (jumeau b k) k = b.
Proof. unfold jumeau. by rewrite Z.lxor_assoc, Z.lxor_nilpotent, Z.lxor_0_r. Qed.

(** ** Ranges of aligned blocks are disjoint or nested *)

Definition separes (b k b' k' : Z) : Prop :=
  b + taille k <= b' \/ b' + taille k' <= b.
Definition dans (b k b' k' : Z) : Prop :=
  b' <= b /\ b + taille k <= b' + taille k'.

Lemma blocs_emboites b k b' k' :
  0 <= k <= k' -> au_pas b k -> au_pas b' k' -> ~ separes b k b' k' -> dans b k b' k'.
Proof.
  intros Hk Hb Hb' Hs. unfold separes, dans, au_pas in *.
  destruct (taille_mult k k' Hk) as (m & Hm & Em). pose proof (taille_pos k ltac:(lia)).
  rewrite Em in *. apply Z.mod_divide in Hb as [q ->]; [|lia].
  apply Z.mod_divide in Hb' as [q' ->]; [|nia].
  rewrite Z.mul_assoc in *. set (P := taille k) in *.
  assert (q' * m <= q /\ q + 1 <= q' * m + m) by (split; nia). nia.
Qed.

Lemma separes_sym b k b' k' : separes b k b' k' <-> separes b' k' b k.
Proof. unfold separes. tauto. Qed.

(** ** The bitmap, bit by bit *)

Definition bit (c : Compagnon) (b k : Z) : bool :=
  Z.testbit (aget (libre c) (mot_de c b k)) (b mod 64).

(** The bitmap is large enough for its planes. *)
Definition bitmap_ok (c : Compagnon) : Prop :=
  0 < blocs c /\ mots_par_ordre c = (blocs c + 63) / 64
  /\ (ORDRES + 1) * mots_par_ordre c <= Z.of_nat (length (libre c)).

Lemma mot_de_borne c b k :
  bitmap_ok c -> 0 <= b < blocs c -> 0 <= k <= ORDRES ->
  0 <= mot_de c b k < Z.of_nat (length (libre c)) /\ 0 <= b / 64 < mots_par_ordre c.
Proof.
  intros (H0 & Hm & Hl) Hb Hk. unfold mot_de, ORDRES in *.
  assert (0 <= b / 64 < mots_par_ordre c) by (rewrite Hm; split; [apply Z.div_pos; lia|
    apply Z.div_lt_upper_bound; [lia|]; pose proof (Z.div_mod (blocs c + 63) 64 ltac:(lia));
    pose proof (Z.mod_pos_bound (blocs c + 63) 64 ltac:(lia)); lia]).
  split; [nia|done].
Qed.

Lemma mot_de_inj c b k b' k' :
  bitmap_ok c -> 0 <= b < blocs c -> 0 <= k <= ORDRES -> 0 <= b' < blocs c ->
  0 <= k' <= ORDRES -> mot_de c b k = mot_de c b' k' -> k = k' /\ b / 64 = b' / 64.
Proof.
  intros Hok Hb Hk Hb' Hk' E.
  destruct (mot_de_borne c b k) as [_ ?]; [done..|].
  destruct (mot_de_borne c b' k') as [_ ?]; [done..|].
  unfold mot_de in E. assert (k = k') as -> by nia. split; [done|lia].
Qed.

Lemma est_libre_bit c b k :
  0 <= b < blocs c -> 0 <= k < ORDRES -> est_libre c b k = bit c b k.
Proof.
  intros. unfold est_libre, bit.
  destruct (Z.leb_spec (blocs c) b); destruct (Z.leb_spec ORDRES k); [lia..|]. simpl.
  apply teste_bit_spec. apply Z.mod_pos_bound. lia.
Qed.

Lemma bit_set_libre c m w b k :
  bitmap_ok c -> 0 <= b < blocs c -> 0 <= k <= ORDRES ->
  0 <= m < Z.of_nat (length (libre c)) ->
  bit (set_libre c (aset (libre c) m w)) b k =
  if decide (m = mot_de c b k) then Z.testbit w (b mod 64) else bit c b k.
Proof.
  intros Hok Hb Hk Hm. unfold bit. change (mot_de (set_libre _ _) b k) with (mot_de c b k).
  destruct (mot_de_borne c b k) as [? _]; [done..|]. simpl.
  destruct (decide (m = mot_de c b k)) as [->|Hne].
  - by rewrite aget_aset_eq by lia.
  - by rewrite aget_aset_ne by lia.
Qed.

Lemma bit_marque c b k v b' k' :
  bitmap_ok c -> 0 <= b < blocs c -> 0 <= k <= ORDRES -> 0 <= b' < blocs c ->
  0 <= k' <= ORDRES ->
  bit (marque c b k v) b' k' = if decide (b' = b /\ k' = k) then v else bit c b' k'.
Proof.
  intros Hok Hb Hk Hb' Hk'. unfold marque.
  destruct (mot_de_borne c b k) as [? _]; [done..|].
  rewrite bit_set_libre by done.
  pose proof (Z.mod_pos_bound b 64 ltac:(lia)). pose proof (Z.mod_pos_bound b' 64 ltac:(lia)).
  destruct (decide (b' = b /\ k' = k)) as [[-> ->]|Hne].
  - rewrite decide_True by done.
    destruct v; [rewrite pose_bit_testbit by lia|rewrite ote_bit_testbit by lia];
      by rewrite Z.eqb_refl.
  - destruct (decide (mot_de c b k = mot_de c b' k')) as [E|]; [|done].
    pose proof (mot_de_inj c b k b' k' Hok Hb Hk Hb' Hk' E) as [<- Hd].
    assert (b' mod 64 <> b mod 64) as Hm.
    { intros Hm. apply Hne. split; [|done].
      rewrite (Z.div_mod b 64), (Z.div_mod b' 64) by lia. lia. }
    unfold bit. rewrite <-E.
    destruct v; [rewrite pose_bit_testbit by lia|rewrite ote_bit_testbit by lia];
      by rewrite (proj2 (Z.eqb_neq (b' mod 64) (b mod 64))).
Qed.

(** ** The plane of blocks already served *)

Lemma masque_etendue_testbit d l i :
  0 <= d -> 1 <= l -> d + l <= 64 -> 0 <= i < 64 ->
  Z.testbit (masque_etendue d l) i = (d <=? i) && (i <? d + l).
Proof.
  intros. unfold masque_etendue. destruct (Z.eqb_spec l 64).
  - rewrite ones64_testbit by lia.
    destruct (Z.ltb_spec i 64), (Z.leb_spec d i), (Z.ltb_spec i (d + l)); lia || done.
  - unfold u64_max. rewrite Z.mod_pow2_bits_low, Z.shiftl_spec by lia.
    rewrite Z.shiftl_mul_pow2 by lia.
    replace (1 * 2 ^ l - 1) with (Z.ones l) by (rewrite Z.ones_equiv; lia).
    destruct (Z.leb_spec d i); [|by apply Z.testbit_neg_r; lia].
    rewrite Z.testbit_ones by lia.
    destruct (Z.leb_spec 0 (i - d)), (Z.ltb_spec (i - d) l), (Z.ltb_spec i (d + l));
      lia || done.
Qed.

Lemma masque_etendue_mot d l : 0 <= masque_etendue d l < u64_max.
Proof.
  unfold masque_etendue. destruct (l =? 64); [by unfold u64_max|].
  by apply Z.mod_pos_bound.
Qed.

Lemma land_etendue w d l :
  0 <= d -> 1 <= l -> d + l <= 64 ->
  negb (Z.land w (masque_etendue d l) =? 0) = true
  <-> exists i, d <= i < d + l /\ Z.testbit w i = true.
Proof.
  intros Hd Hl Hdl. set (x := Z.land w (masque_etendue d l)).
  pose proof (masque_etendue_mot d l) as Hm.
  assert (0 <= x) by (apply Z.land_nonneg; lia).
  rewrite negb_true_iff, Z.eqb_neq. split.
  - intros Hx. pose proof (Z.bit_log2 x ltac:(lia)) as Hb. unfold x in Hb.
    rewrite Z.land_spec in Hb. apply andb_true_iff in Hb as [Hw Hb]. fold x in Hw, Hb.
    pose proof (Z.log2_nonneg x).
    assert (Z.log2 x < 64) as Hlog.
    { apply Z.nle_gt. intros Hge. rewrite (proj2 (proj1 (mot_bits 64 _ ltac:(lia)) Hm)) in Hb;
        done. }
    rewrite masque_etendue_testbit in Hb by lia. bool_prop. eauto.
  - intros (i & Hi & Hw) Hx.
    assert (Z.testbit x i = true) as Hb; [|by rewrite Hx, Z.bits_0 in Hb].
    unfold x. rewrite Z.land_spec, Hw, masque_etendue_testbit by lia. simpl.
    apply andb_true_iff; rewrite Z.leb_le, Z.ltb_lt; lia.
Qed.

(** The bits one turn of the two loops looks at are the blocks of that turn. *)
Lemma tour_etendue c courant fin p :
  courant < fin ->
  let l := Z.min (fin - courant) (64 - courant mod 64) in
  1 <= l /\ courant mod 64 + l <= 64 /\ courant + l <= fin
  /\ (courant <= p < courant + l ->
        mot_de c p ORDRES = mot_de c courant ORDRES
        /\ courant mod 64 <= p mod 64 < courant mod 64 + l)
  /\ (p / 64 = courant / 64 -> courant mod 64 <= p mod 64 < courant mod 64 + l ->
        courant <= p < courant + l).
Proof.
  intros Hlt l. pose proof (Z.mod_pos_bound courant 64 ltac:(lia)).
  pose proof (Z.div_mod courant 64 ltac:(lia)). pose proof (Z.div_mod p 64 ltac:(lia)).
  pose proof (Z.mod_pos_bound p 64 ltac:(lia)). unfold mot_de.
  assert (1 <= l /\ courant mod 64 + l <= 64 /\ courant + l <= fin) by lia.
  split_and!; [lia..| |lia].
  intros Hp. assert (p / 64 = courant / 64) as -> by lia. split; lia.
Qed.

Lemma etendue_servie_boucle_spec fuel c courant fin :
  bitmap_ok c -> 0 <= courant -> fin <= blocs c -> fin - courant <= Z.of_nat fuel ->
  etendue_servie_boucle fuel c courant fin = true
  <-> exists p, courant <= p < fin /\ bit c p ORDRES = true.
Proof.
  intros Hok. revert courant. induction fuel as [|fuel IH]; intros courant Hc Hf Hfuel.
  { simpl. split; [done|intros (p & ? & _); lia]. }
  simpl. destruct (Z.ltb_spec courant fin) as [Hlt|]; [|split; [done|intros (p & ? & _); lia]].
  pose proof (tour_etendue c courant fin) as Ht. cbv zeta in Ht.
  set (l := Z.min (fin - courant) (64 - courant mod 64)) in *.
  pose proof (Ht courant Hlt) as (Hl & Hdl & Hcl & _).
  pose proof (Z.mod_pos_bound courant 64 ltac:(lia)).
  pose proof (land_etendue (aget (libre c) (mot_de c courant ORDRES)) (courant mod 64) l
                ltac:(lia) Hl Hdl) as Hland.
  destruct (negb _).
  - split; [intros _|done]. destruct (proj1 Hland eq_refl) as (i & Hi & Hw).
    set (p := courant - courant mod 64 + i).
    assert (p / 64 = courant / 64 /\ p mod 64 = i) as [Hp1 Hp2].
    { pose proof (Z.div_mod courant 64 ltac:(lia)). pose proof (Z.div_mod p 64 ltac:(lia)).
      pose proof (Z.mod_pos_bound p 64 ltac:(lia)). lia. }
    exists p. split; [lia|]. unfold bit, mot_de. by rewrite Hp1, Hp2.
  - rewrite IH by lia. split; intros (p & Hp & Hb); exists p; (split; [|done]); [lia|].
    destruct (decide (courant + l <= p)); [lia|]. exfalso.
    destruct (Ht p Hlt) as (_ & _ & _ & Hin & _). destruct Hin as [Hm Hi]; [lia|].
    enough (false = true) by done. apply Hland. exists (p mod 64). split; [done|].
    by rewrite <-Hm.
Qed.

(** What a bitmap write leaves alone. *)
Definition meme_cadre (c c' : Compagnon) : Prop :=
  blocs c' = blocs c /\ mots_par_ordre c' = mots_par_ordre c /\ tetes c' = tetes c
  /\ disponibles c' = disponibles c /\ length (libre c') = length (libre c).

Lemma meme_cadre_ok c c' : meme_cadre c c' -> bitmap_ok c -> bitmap_ok c'.
Proof. intros (E1 & E2 & _ & _ & E3). unfold bitmap_ok. by rewrite E1, E2, E3. Qed.

Lemma marque_etendue_boucle_spec fuel c courant fin :
  bitmap_ok c -> 0 <= courant -> fin <= blocs c -> fin - courant <= Z.of_nat fuel ->
  let c' := marque_etendue_servie_boucle fuel c courant fin in
  meme_cadre c c' /\
  (forall p k, 0 <= p < blocs c -> 0 <= k <= ORDRES ->
     bit c' p k = if decide (k = ORDRES /\ courant <= p < fin) then true else bit c p k).
Proof.
  revert c courant. induction fuel as [|fuel IH]; intros c courant Hok Hc Hf Hfuel; simpl.
  { split; [by unfold meme_cadre|]. intros. rewrite decide_False by lia. done. }
  destruct (Z.ltb_spec courant fin) as [Hlt|].
  2: { split; [by unfold meme_cadre|]. intros. rewrite decide_False by lia. done. }
  pose proof (tour_etendue c courant fin) as Ht. cbv zeta in Ht.
  set (l := Z.min (fin - courant) (64 - courant mod 64)) in *.
  pose proof (Ht courant Hlt) as (Hl & Hdl & Hcl & _).
  pose proof (Z.mod_pos_bound courant 64 ltac:(lia)).
  assert (0 <= ORDRES <= ORDRES) as HO by (unfold ORDRES; lia).
  destruct (mot_de_borne c courant ORDRES Hok ltac:(lia) HO) as [Hmot _].
  set (c1 := set_libre c _). assert (meme_cadre c c1) as Hcad.
  { unfold meme_cadre. simpl. by rewrite length_aset. }
  destruct (IH c1 (courant + l)) as [Hcad' Hbit]; [by eapply meme_cadre_ok|lia|done|lia|].
  split.
  { destruct Hcad as (E1 & E2 & E3 & E4 & E5), Hcad' as (F1 & F2 & F3 & F4 & F5).
    unfold meme_cadre. split_and!; congruence. }
  intros p k Hp Hk. rewrite Hbit by done. unfold c1. rewrite bit_set_libre by done.
  destruct (Ht p Hlt) as (_ & _ & _ & Hin & Hout). clear IH Hbit Hcad'.
  pose proof (Z.mod_pos_bound p 64 ltac:(lia)).
  destruct (decide (k = ORDRES /\ courant <= p < fin)) as [[-> Hcp]|Hn].
  - destruct (decide (courant + l <= p)); [by rewrite decide_True by lia|].
    rewrite decide_False by lia. destruct Hin as [Hm Hi]; [lia|].
    rewrite decide_True by done. rewrite Z.lor_spec, masque_etendue_testbit by lia.
    rewrite (proj2 (Z.leb_le _ _)), (proj2 (Z.ltb_lt _ _)) by lia. apply orb_true_r.
  - rewrite decide_False by lia.
    destruct (decide (mot_de c courant ORDRES = mot_de c p k)) as [E|]; [|done].
    destruct (mot_de_inj c courant ORDRES p k Hok ltac:(lia) HO Hp Hk E) as [<- Hd].
    unfold bit. rewrite <-E, Z.lor_spec, masque_etendue_testbit by lia.
    destruct ((courant mod 64 <=? p mod 64) && (p mod 64 <? courant mod 64 + l)) eqn:Eb;
      [|apply orb_false_r].
    bool_prop. exfalso. apply Hn. split; [done|]. lia.
Qed.

End CompagnonBits.

(** The invariant of the buddy allocator. [Zone] speaks of the free blocks alone (one
    list per order): in range, aligned, pairwise separate, never two free twins.
    [Repr] says that the bitmap, the list heads and the links stored in the free
    blocks represent those lists. *)

Import Compagnon CompagnonBits.

(** What the allocator relies on: a link word is read back, and writing one block's
    link leaves the others. *)
Class TerrainLois (T : Type) `{Terrain T} := {
  lien_pose_eq (t : T) b s : lien (pose_lien t b s) b = s;
  lien_pose_ne (t : T) b b' s : b <> b' -> lien (pose_lien t b s) b' = lien t b'
}.

Module CompagnonInv.

(** ** Free blocks *)

Definition listes : Type := Z -> list Z.
Definition maj (F : listes) (k : Z) (l : list Z) : listes := fun j => if j =? k then l else F j.
Definition ordre_ok (k : Z) : Prop := 0 <= k < ORDRES.

Lemma maj_eq F k l : maj F k l k = l.
Proof. unfold maj. by rewrite Z.eqb_refl. Qed.
Lemma maj_ne F k l j : j <> k -> maj F k l j = F j.
Proof. intros. unfold maj. by destruct (Z.eqb_spec j k). Qed.

(** Elementary block [p] belongs to a free block. *)
Definition page_libre (F : listes) (p : Z) : Prop :=
  exists k b, ordre_ok k /\ b ∈ F k /\ b <= p < b + taille k.
Definition etendue (b k p : Z) : Prop := b <= p < b + taille k.

(** Block [b] of order [k] is aligned and inside a zone of [n] elementary blocks. *)
Definition loge (n b k : Z) : Prop := 0 <= b /\ au_pas b k /\ b + taille k <= n.

Record Zone (n : Z) (F : listes) : Prop := {
  z_loge k b : ordre_ok k -> b ∈ F k -> loge n b k;
  z_nodup k : ordre_ok k -> NoDup (F k);
  z_separes k b k' b' : ordre_ok k -> ordre_ok k' -> b ∈ F k -> b' ∈ F k' ->
    b <> b' \/ k <> k' -> separes b k b' k';
  z_fusion k b : 0 <= k -> k + 1 < ORDRES -> b ∈ F k -> jumeau b k ∉ F k
}.

(** Elementary blocks held by the lists. *)
Definition somme (F : listes) : Z :=
  foldr (fun k acc => acc + taille k * Z.of_nat (length (F k))) 0 (seqZ 0 ORDRES).

(** Block [b] of order [k] touches no free block. *)
Definition hors (F : listes) (b k : Z) : Prop :=
  forall k' b', ordre_ok k' -> b' ∈ F k' -> separes b k b' k'.

Lemma loge_page n b k p : loge n b k -> etendue b k p -> 0 <= p < n.
Proof. unfold loge, etendue. lia. Qed.

Lemma hors_pages F b k :
  0 <= k -> (forall p, etendue b k p -> ~ page_libre F p) -> hors F b k.
Proof.
  intros Hk Hp k' b' Hk' Hb'. pose proof (taille_pos k Hk).
  pose proof (taille_pos k' ltac:(unfold ordre_ok in *; lia)).
  destruct (decide (b + taille k <= b')); [by left|].
  destruct (decide (b' + taille k' <= b)); [by right|]. exfalso.
  apply (Hp (Z.max b b')); [unfold etendue; lia|]. exists k', b'. split_and!; [done..|lia|lia].
Qed.

Lemma zone_sous n F F' :
  Zone n F -> (forall k, ordre_ok k -> F' k ⊆ F k /\ NoDup (F' k)) -> Zone n F'.
Proof.
  intros [Hz Hn Hs Hf] H. split.
  - intros k b Hk Hb. apply Hz; [done|]. by apply (H k Hk).
  - intros k Hk. by apply H.
  - intros k b k' b' Hk Hk' Hb Hb'. apply Hs; [done..| |]; [by apply (H k Hk)|by apply (H k' Hk')].
  - intros k b Hk Hk' Hb Hj. assert (ordre_ok k) as Hok by (unfold ordre_ok; lia).
    apply (H k Hok) in Hb, Hj. by apply (Hf k b).
Qed.

Lemma zone_ote n F k l1 b l2 :
  Zone n F -> ordre_ok k -> F k = l1 ++ b :: l2 -> Zone n (maj F k (l1 ++ l2)).
Proof.
  intros HZ Hk E. apply (zone_sous n F); [done|]. intros j Hj.
  pose proof (z_nodup n F HZ j Hj) as Hn.
  destruct (decide (j = k)) as [->|]; [rewrite maj_eq, E in *|by rewrite maj_ne].
  apply NoDup_app in Hn as (H1 & H2 & H3). apply NoDup_cons in H3 as [H3 H4].
  split; [set_solver|]. apply NoDup_app. split_and!; [done| |done].
  intros x Hx Hx'. apply (H2 x Hx). by constructor.
Qed.

Lemma zone_ajoute n F k b :
  Zone n F -> ordre_ok k -> loge n b k -> hors F b k ->
  (k + 1 < ORDRES -> jumeau b k ∉ F k) -> Zone n (maj F k (b :: F k)).
Proof.
  intros [Hz Hn Hs Hf] Hk Hl Hh Hj.
  assert (b ∉ F k) as Hb.
  { intros Hb. specialize (Hh k b Hk Hb). pose proof (taille_pos k ltac:(apply Hk)).
    unfold separes in Hh. lia. }
  assert (forall j x, x ∈ maj F k (b :: F k) j -> (j = k /\ x = b) \/ x ∈ F j) as Hin.
  { intros j x. destruct (decide (j = k)) as [->|]; [rewrite maj_eq|rewrite maj_ne by done];
      set_solver. }
  split.
  - intros j x Hj' Hx. destruct (Hin j x Hx) as [[-> ->]|]; [done|by apply Hz].
  - intros j Hj'. destruct (decide (j = k)) as [->|]; [rewrite maj_eq|rewrite maj_ne by done];
      [constructor|]; auto.
  - intros j x j' x' Hj1 Hj2 Hx Hx' Hne.
    destruct (Hin j x Hx) as [[-> ->]|?]; destruct (Hin j' x' Hx') as [[-> ->]|?].
    + destruct Hne; done.
    + by apply Hh.
    + apply separes_sym. by apply Hh.
    + by apply Hs.
  - intros j x H0 H1 Hx Hjx.
    destruct (Hin j x Hx) as [[-> ->]|Hx1]; destruct (Hin _ _ Hjx) as [[? Hb']|Hx2].
    + pose proof (taille_pos k H0). pose proof (jumeau_spec b k H0).
      destruct (Z.testbit b k); lia.
    + by apply Hj.
    + subst. apply Hj; [done|]. by rewrite jumeau_invol.
    + by apply (Hf j x).
Qed.

Lemma page_ajoute F k b p :
  ordre_ok k -> page_libre (maj F k (b :: F k)) p <-> page_libre F p \/ etendue b k p.
Proof.
  intros Hk. unfold page_libre. split.
  - intros (j & x & Hj & Hx & Hp). destruct (decide (j = k)) as [->|].
    + rewrite maj_eq in Hx. apply elem_of_cons in Hx as [->|Hx]; [by right|].
      left. by exists k, x.
    + rewrite maj_ne in Hx by done. left. by exists j, x.
  - intros [(j & x & Hj & Hx & Hp)|Hp].
    + exists j, x. split_and!; try done; try lia. destruct (decide (j = k)) as [->|].
      * rewrite maj_eq. by right.
      * by rewrite maj_ne.
    + exists k, b. split_and!; try done; try apply Hp. rewrite maj_eq. by left.
Qed.

Lemma page_ote n F k l1 b l2 p :
  Zone n F -> ordre_ok k -> F k = l1 ++ b :: l2 ->
  page_libre (maj F k (l1 ++ l2)) p <-> page_libre F p /\ ~ etendue b k p.
Proof.
  intros HZ Hk E. pose proof (z_nodup n F HZ k Hk) as Hn. rewrite E in Hn.
  apply NoDup_app in Hn as (_ & H2 & H3). apply NoDup_cons in H3 as [H3 _].
  unfold page_libre. split.
  - intros (j & x & Hj & Hx & Hp).
    assert (x ∈ F j /\ (x <> b \/ j <> k)) as [Hx' Hne].
    { destruct (decide (j = k)) as [->|]; [|rewrite maj_ne in Hx by done; auto].
      rewrite maj_eq in Hx. rewrite E. split; [set_solver|]. left. intros ->.
      apply elem_of_app in Hx as [Hx|Hx]; [|done]. apply (H2 b Hx). by left. }
    split; [by exists j, x|]. assert (b ∈ F k) as Hb by (rewrite E; set_solver).
    pose proof (z_separes n F HZ j x k b Hj Hk Hx' Hb Hne) as Hs.
    unfold separes, etendue in *. lia.
  - intros [(j & x & Hj & Hx & Hp) Hout]. exists j, x. split_and!; [done| |lia|lia].
    destruct (decide (j = k)) as [->|]; [|by rewrite maj_ne].
    rewrite maj_eq. rewrite E in Hx.
    apply elem_of_app in Hx as [Hx|Hx]; [set_solver|].
    apply elem_of_cons in Hx as [->|Hx]; [done|set_solver].
Qed.

Lemma hors_ote F k l1 b l2 b' k' :
  ordre_ok k -> F k = l1 ++ b :: l2 -> hors F b' k' -> hors (maj F k (l1 ++ l2)) b' k'.
Proof.
  intros Hk E H j x Hj Hx. apply H; [done|].
  destruct (decide (j = k)) as [->|]; [rewrite maj_eq in Hx; rewrite E|by rewrite maj_ne in Hx].
  set_solver.
Qed.

Lemma somme_maj F k l :
  ordre_ok k ->
  somme (maj F k l) = somme F + taille k * (Z.of_nat (length l) - Z.of_nat (length (F k))).
Proof.
  intros Hk. unfold somme, ordre_ok in *.
  assert (forall ks, NoDup ks ->
    foldr (fun j acc => acc + taille j * Z.of_nat (length (maj F k l j))) 0 ks =
    foldr (fun j acc => acc + taille j * Z.of_nat (length (F j))) 0 ks +
    if decide (k ∈ ks) then taille k * (Z.of_nat (length l) - Z.of_nat (length (F k))) else 0)
    as H.
  { induction ks as [|j ks IH]; intros Hn; cbn [foldr].
    { destruct (decide (k ∈ [])) as [Hk0|]; [by apply not_elem_of_nil in Hk0|lia]. }
    apply NoDup_cons in Hn as [Hj Hn]. rewrite (IH Hn). clear IH.
    destruct (decide (k ∈ ks)) as [Hi|Hi], (decide (k ∈ j :: ks)) as [Hi'|Hi'];
      rewrite elem_of_cons in Hi'; destruct (decide (j = k)) as [->|];
      rewrite ?maj_eq, ?maj_ne by done; try lia; naive_solver. }
  rewrite H by apply NoDup_seqZ. rewrite decide_True; [done|]. apply elem_of_seqZ. lia.
Qed.

(** ** Lists threaded through the free blocks *)

Section Representation.
Context {T : Type} `{TT : Terrain T} `{TL : !TerrainLois T}.

Fixpoint chaine (t : T) (h : Z) (l : list Z) : Prop :=
  match l with
  | [] => h = AUCUN
  | b :: l => h = b /\ chaine t (lien t b) l
  end.

Lemma chaine_pose (t : T) h l b s : b ∉ l -> chaine t h l -> chaine (pose_lien t b s) h l.
Proof.
  revert h. induction l as [|x l IH]; intros h Hb; [done|]. simpl. intros [-> Hc].
  apply not_elem_of_cons in Hb as [Hx Hb]. split; [done|].
  rewrite lien_pose_ne by done. by apply IH.
Qed.

Lemma chaine_saute (t : T) h l0 p b l2 :
  NoDup (l0 ++ p :: b :: l2) -> chaine t h (l0 ++ p :: b :: l2) ->
  chaine (pose_lien t p (lien t b)) h (l0 ++ p :: l2).
Proof.
  revert h. induction l0 as [|x l0 IH]; intros h Hn; simpl.
  - intros (-> & Hp & Hc). split; [done|]. rewrite lien_pose_eq.
    apply NoDup_cons in Hn as [Hp2 _]. apply chaine_pose; [set_solver|]. done.
  - intros [-> Hc]. simpl in Hn. apply NoDup_cons in Hn as [Hx Hn]. split; [done|].
    rewrite lien_pose_ne by set_solver. by apply IH.
Qed.

Lemma chaine_app (t : T) h l1 b l2 :
  chaine t h (l1 ++ b :: l2) -> chaine t (lien t b) l2.
Proof.
  revert h. induction l1 as [|x l1 IH]; simpl; intros h; [by intros [_ ?]|].
  intros [_ Hc]. by eapply IH.
Qed.

Record Repr (c : Compagnon) (t : T) (F : listes) : Prop := {
  r_bitmap : bitmap_ok c;
  r_borne : blocs c <= 2 ^ 52;
  r_tetes : length (tetes c) = Z.to_nat ORDRES;
  r_chaine k : ordre_ok k -> chaine t (tete c k) (F k);
  r_bits k b : ordre_ok k -> 0 <= b < blocs c -> bit c b k = true <-> b ∈ F k
}.

Definition intact (F : listes) (t t' : T) : Prop :=
  forall p, ~ page_libre F p -> lien t' p = lien t p.

Lemma tete_set_tete c k h j :
  length (tetes c) = Z.to_nat ORDRES -> ordre_ok k -> ordre_ok j ->
  tete (set_tete c k h) j = if decide (j = k) then h else tete c j.
Proof.
  unfold tete, ordre_ok. simpl. intros Hl Hk Hj. destruct (decide (j = k)) as [->|].
  - apply aget_aset_eq. lia.
  - apply aget_aset_ne; lia.
Qed.

Lemma set_tete_id c k :
  length (tetes c) = Z.to_nat ORDRES -> ordre_ok k -> set_tete c k (tete c k) = c.
Proof.
  intros Hl Hk. unfold set_tete, tete, aset, aget, ordre_ok in *. destruct c; simpl in *.
  f_equal. destruct (tetes0 !! Z.to_nat k) eqn:E; [by apply list_insert_id|].
  apply lookup_ge_None_1 in E. lia.
Qed.

Lemma bitmap_marque c b k v : bitmap_ok c -> bitmap_ok (marque c b k v).
Proof. apply meme_cadre_ok. unfold meme_cadre. simpl. by rewrite length_aset. Qed.

(** A head or mark update leaves what the two others read. *)
Lemma bit_set_tete c k h b j : bit (set_tete c k h) b j = bit c b j.
Proof. done. Qed.
Lemma tete_marque c b k v j : tete (marque c b k v) j = tete c j.
Proof. done. Qed.

Lemma loge_bloc n b k : ordre_ok k -> loge n b k -> 0 <= b < n.
Proof. intros [Hk _] (? & _ & ?). pose proof (taille_pos k Hk). lia. Qed.

Lemma repr_ote c (t t' : T) F k l1 b l2 h :
  Zone (blocs c) F -> Repr c t F -> ordre_ok k -> F k = l1 ++ b :: l2 ->
  chaine t' h (l1 ++ l2) ->
  (forall j, ordre_ok j -> j <> k -> chaine t' (tete c j) (F j)) ->
  Repr (marque (set_tete c k h) b k false) t' (maj F k (l1 ++ l2)).
Proof.
  intros HZ [Hb Hn Ht Hc Hbits] Hk E Hch Hch'.
  assert (b ∈ F k) as Hin by (rewrite E; set_solver).
  pose proof (loge_bloc _ _ _ Hk (z_loge _ _ HZ k b Hk Hin)) as Hbb.
  pose proof (z_nodup _ _ HZ k Hk) as Hnd. rewrite E in Hnd.
  apply NoDup_app in Hnd as (_ & H2 & H3). apply NoDup_cons in H3 as [H3 _].
  assert (0 <= k <= ORDRES) as Hk' by (unfold ordre_ok in Hk; lia).
  split.
  - by apply bitmap_marque.
  - done.
  - simpl. by rewrite length_aset.
  - intros j Hj. rewrite tete_marque, tete_set_tete by done.
    destruct (decide (j = k)) as [->|]; [by rewrite maj_eq|]. rewrite maj_ne by done. by apply Hch'.
  - intros j x Hj Hx.
    rewrite bit_marque; [|done..|unfold ordre_ok in Hj; lia]. rewrite bit_set_tete.
    destruct (decide (j = k)) as [->|].
    + rewrite maj_eq. destruct (decide (x = b /\ k = k)) as [[-> _]|Hxb].
      * split; [done|]. rewrite elem_of_app. intros [Hx'|Hx']; [|done].
        exfalso. apply (H2 b Hx'). by left.
      * rewrite Hbits by done. rewrite E. set_solver.
    + rewrite maj_ne by done. rewrite decide_False by naive_solver. by apply Hbits.
Qed.

Lemma repr_empile c (t : T) F k b :
  Repr c t F -> ordre_ok k -> loge (blocs c) b k -> hors F b k ->
  Repr (empile c t b k).1 (empile c t b k).2 (maj F k (b :: F k)).
Proof.
  intros [Hb Hn Ht Hc Hbits] Hk Hl Hh.
  pose proof (loge_bloc _ _ _ Hk Hl) as Hbb.
  assert (forall j, ordre_ok j -> b ∉ F j) as Hout.
  { intros j Hj Hin. pose proof (Hh j b Hj Hin) as Hs. unfold separes in Hs.
    pose proof (taille_pos k (proj1 Hk)). pose proof (taille_pos j (proj1 Hj)). lia. }
  assert (0 <= k <= ORDRES) as Hk' by (unfold ordre_ok in Hk; lia).
  unfold empile. simpl. split.
  - by apply bitmap_marque.
  - done.
  - simpl. by rewrite length_aset.
  - intros j Hj. rewrite tete_marque, tete_set_tete by done.
    destruct (decide (j = k)) as [->|].
    + rewrite maj_eq. simpl. split; [done|]. rewrite lien_pose_eq.
      apply chaine_pose; auto.
    + rewrite maj_ne by done. apply chaine_pose; auto.
  - intros j x Hj Hx.
    rewrite bit_marque; [|done..|unfold ordre_ok in Hj; lia]. rewrite bit_set_tete.
    destruct (decide (j = k)) as [->|].
    + rewrite maj_eq, elem_of_cons.
      destruct (decide (x = b /\ k = k)) as [[-> _]|Hxb]; [naive_solver|].
      rewrite Hbits by done. naive_solver.
    + rewrite maj_ne by done. rewrite decide_False by naive_solver. by apply Hbits.
Qed.

(** ** Taking a given block out of its list *)

Fixpoint dernier (p : Z) (l : list Z) : Z :=
  match l with [] => p | x :: l => dernier x l end.

Lemma dernier_snoc p l x : dernier p (l ++ [x]) = x.
Proof. revert p. induction l; simpl; auto. Qed.

Lemma retire_boucle_spec fuel c (t : T) b k l1 l2 prec cour garde :
  chaine t cour (l1 ++ b :: l2) -> b ∉ l1 -> Forall (fun x => x <> AUCUN) (l1 ++ b :: l2) ->
  garde + Z.of_nat (length l1) <= blocs c -> (length l1 < fuel)%nat ->
  retire_boucle fuel c t b k prec cour garde =
  let p := dernier prec l1 in
  if p =? AUCUN then (marque (set_tete c k (lien t b)) b k false, t, true)
  else (marque c b k false, pose_lien t p (lien t b), true).
Proof.
  revert fuel prec cour garde. induction l1 as [|x l1 IH]; intros fuel prec cour garde;
    simpl; intros [-> Hc] Hb HA Hg Hf; (destruct fuel as [|fuel]; [lia|]); simpl.
  - apply Forall_cons in HA as [HA _]. rewrite (proj2 (Z.eqb_neq _ _) HA), Z.eqb_refl.
    by destruct (prec =? AUCUN).
  - apply Forall_cons in HA as [HA HA']. apply not_elem_of_cons in Hb as [Hxb Hb].
    rewrite (proj2 (Z.eqb_neq _ _) HA), (proj2 (Z.eqb_neq x b)) by done.
    rewrite (proj2 (Z.ltb_ge _ _)) by lia.
    rewrite (IH fuel x (lien t x) (garde + 1)) by (done || lia). done.
Qed.

Lemma liste_courte n F k :
  Zone n F -> 0 <= n -> ordre_ok k -> Z.of_nat (length (F k)) <= n.
Proof.
  intros HZ Hn0 Hk. pose proof (z_nodup _ _ HZ k Hk) as Hn.
  enough (length (F k) <= length (seqZ 0 n))%nat as Hl by (rewrite length_seqZ in Hl; lia).
  apply submseteq_length, NoDup_submseteq; [done|]. intros b Hb.
  apply elem_of_seqZ. pose proof (loge_bloc _ _ _ Hk (z_loge _ _ HZ k b Hk Hb)). lia.
Qed.

Lemma retire_spec c (t : T) F k l1 b l2 :
  Zone (blocs c) F -> Repr c t F -> ordre_ok k -> F k = l1 ++ b :: l2 ->
  exists h t', retire c t b k = (marque (set_tete c k h) b k false, t', true)
    /\ Repr (marque (set_tete c k h) b k false) t' (maj F k (l1 ++ l2))
    /\ intact F t t'.
Proof.
  intros HZ HR Hk E. pose proof (z_nodup _ _ HZ k Hk) as Hnd. rewrite E in Hnd.
  pose proof (r_chaine _ _ _ HR k Hk) as Hc. rewrite E in Hc.
  pose proof (liste_courte _ _ k HZ ltac:(pose proof (r_bitmap _ _ _ HR) as [? _]; lia) Hk) as Hlen.
  rewrite E, length_app in Hlen. simpl in Hlen.
  assert (Forall (fun x => x <> AUCUN) (l1 ++ b :: l2)) as HA.
  { apply Forall_forall. intros x Hx. rewrite <-E in Hx.
    pose proof (loge_bloc _ _ _ Hk (z_loge _ _ HZ k x Hk Hx)).
    pose proof (r_borne _ _ _ HR). unfold AUCUN, u64_max. lia. }
  assert (b ∉ l1) as Hb1.
  { apply NoDup_app in Hnd as (_ & H2 & _). intros Hb. apply (H2 b Hb). by left. }
  assert (forall j, ordre_ok j -> j <> k -> forall p, p ∈ F k -> p ∉ F j) as Hautre.
  { intros j Hj Hjk p Hp Hp'. pose proof (taille_pos k (proj1 Hk)).
    pose proof (taille_pos j (proj1 Hj)).
    assert (separes p j p k) as Hs by (apply (z_separes _ _ HZ); auto).
    unfold separes in Hs. lia. }
  unfold retire. rewrite (retire_boucle_spec _ c t b k l1 l2) by (done || lia). cbv zeta.
  destruct (decide (l1 = [])) as [->|Hne].
  - simpl. exists (lien t b), t. split; [done|]. split; [|done].
    apply (repr_ote c t t F k [] b l2); [done|done|done|done| |].
    + by apply (chaine_app t (tete c k) []).
    + intros j Hj _. by apply HR.
  - destruct (exists_last Hne) as (l0 & p & ->). rewrite dernier_snoc.
    assert (p <> AUCUN) as Hp by (rewrite Forall_forall in HA; apply HA; set_solver).
    rewrite (proj2 (Z.eqb_neq _ _) Hp). rewrite <-app_assoc in *. simpl in *.
    assert (p ∈ F k) as HpF by (rewrite E; set_solver).
    exists (tete c k), (pose_lien t p (lien t b)). rewrite set_tete_id; [|apply HR|done].
    split; [done|]. split.
    + rewrite <-(set_tete_id c k) by (apply HR || done).
      replace (l0 ++ p :: l2) with ((l0 ++ [p]) ++ l2) by by rewrite <-app_assoc.
      apply (repr_ote c t _ F k (l0 ++ [p]) b l2);
        [done|done|done|by rewrite E, <-app_assoc| |].
      * rewrite <-app_assoc. by apply chaine_saute.
      * intros j Hj Hjk. apply chaine_pose; [by apply Hautre|]. by apply HR.
    + intros q Hq. apply lien_pose_ne. intros ->. apply Hq. exists k, q.
      pose proof (taille_pos k (proj1 Hk)). split_and!; [done|done|lia|lia].
Qed.

End Representation.

End CompagnonInv.
