(* ===== verification/CompagnonProofs.v ===== *)
(** Correctness of the buddy allocator: freeing adds exactly the freed range and merges
    as far as possible, allocating removes exactly one aligned free range and fails only
    when there is none, and no live block ever overlaps another. *)

From S2P Require Import Prelude Compagnon CompagnonBits.
Import Compagnon CompagnonBits CompagnonInv.

Module CompagnonProofs.

(** ** The size of a request *)

Lemma ordre_pour_boucle_spec fuel n k :
  0 <= k < ORDRES -> ORDRES - k <= Z.of_nat fuel -> (0 < k -> taille (k - 1) < n) ->
  let r := ordre_pour_boucle fuel n k in
  k <= r < ORDRES /\ (r = ORDRES - 1 \/ n <= taille r) /\ (0 < r -> taille (r - 1) < n).
Proof.
  revert k. induction fuel as [|fuel IH]; intros k Hk Hf Hn; simpl; [lia|].
  destruct (Z.ltb_spec (k + 1) ORDRES); [|split_and!; lia || auto with lia].
  destruct (Z.leb_spec n (taille k)); [split_and!; lia || auto|].
  destruct (IH (k + 1)) as (H1 & H2 & H3); [lia..| |].
  { intros _. by replace (k + 1 - 1) with k by lia. }
  split_and!; try lia; done.
Qed.

Lemma ordre_pour_spec n :
  let r := ordre_pour n in
  0 <= r < ORDRES /\ (r = ORDRES - 1 \/ n <= taille r) /\ (0 < r -> taille (r - 1) < n).
Proof.
  unfold ordre_pour. destruct (Z.leb_spec n 1).
  - cbv zeta. change (taille 0) with 1. unfold ORDRES. split_and!; lia.
  - apply ordre_pour_boucle_spec; unfold ORDRES; lia.
Qed.

Section Preuves.
Context {T : Type} `{TT : Terrain T} `{TL : !TerrainLois T}.

(** What freeing and allocating keep besides the free lists: the zone's size, and,
    for the merging and splitting loops, the served plane and its counter. *)
Definition cadre (c c' : Compagnon) : Prop :=
  blocs c' = blocs c /\ disponibles c' = disponibles c /\ reemplois c' = reemplois c
  /\ forall p, 0 <= p < blocs c -> bit c' p ORDRES = bit c p ORDRES.

Lemma cadre_trans c1 c2 c3 : cadre c1 c2 -> cadre c2 c3 -> cadre c1 c3.
Proof.
  intros (E1 & E2 & E3 & E4) (F1 & F2 & F3 & F4). split_and!; try congruence.
  intros p Hp. rewrite F4, E4 by congruence. done.
Qed.

Lemma cadre_marque c b k v :
  bitmap_ok c -> 0 <= b < blocs c -> ordre_ok k -> cadre c (marque c b k v).
Proof.
  intros Hok Hb Hk. unfold ordre_ok in Hk. split_and!; try done. intros p Hp.
  rewrite bit_marque; [|done|done|lia|done|lia]. rewrite decide_False by lia. done.
Qed.

Lemma hors_dans F b k b' k' : hors F b' k' -> dans b k b' k' -> hors F b k.
Proof. intros Hh Hd j x Hj Hx. specialize (Hh j x Hj Hx). unfold separes, dans in *. lia. Qed.

Lemma hors_absent F b k j : ordre_ok k -> ordre_ok j -> hors F b k -> b ∉ F j.
Proof.
  intros Hk Hj Hh Hb. specialize (Hh j b Hj Hb). unfold separes in Hh.
  pose proof (taille_pos k (proj1 Hk)). pose proof (taille_pos j (proj1 Hj)). lia.
Qed.

(** ** Merging *)

(** The twin of a block that lies in the zone, when it lies in the zone too. *)
Lemma jumeau_loge n b k :
  n <= 2 ^ 52 -> 0 <= k < ORDRES -> loge n b k -> jumeau b k + taille k <= n ->
  loge n (jumeau b k) k /\ loge n (pere b k) (k + 1)
  /\ (forall p, etendue (pere b k) (k + 1) p <-> etendue b k p \/ etendue (jumeau b k) k p)
  /\ separes b k (jumeau b k) k.
Proof.
  intros Hn Hk (Hb & Hp & Hl) Hj. unfold ORDRES in Hk.
  assert (taille k <= 2 ^ 16) as Ht
    by (rewrite taille_pow by lia; apply Z.pow_le_mono_r; lia).
  destruct (pere_jumeau b k) as (E & Hp' & Ha & Hj' & H0); [lia|lia| |done|].
  { unfold u64_max. lia. }
  pose proof (taille_pos k ltac:(lia)). pose proof (taille_succ k ltac:(lia)).
  unfold loge, separes, etendue in *. split_and!; try done; try lia.
Qed.

Lemma bloc_dans_liste c (t : T) F b k :
  Repr c t F -> ordre_ok k -> 0 <= b < blocs c ->
  est_libre c b k = true <-> exists l1 l2, F k = l1 ++ b :: l2.
Proof.
  intros HR Hk Hb. rewrite est_libre_bit by done. rewrite (r_bits _ _ _ HR) by done.
  split; [apply list_elem_of_split|]. intros (l1 & l2 & ->). set_solver.
Qed.

(** The outcome of merging block [b] of order [k], which is in no list: a block that
    covers it, still in no list, whose twin is not free. *)
Definition fusion_ok c (t : T) F b k c' (t' : T) b' k' F' : Prop :=
  cadre c c' /\ Zone (blocs c) F' /\ Repr c' t' F' /\ ordre_ok k'
    /\ loge (blocs c) b' k' /\ hors F' b' k' /\ (k' + 1 < ORDRES -> jumeau b' k' ∉ F' k')
    /\ (forall p, page_libre F' p \/ etendue b' k' p <-> page_libre F p \/ etendue b k p)
    /\ somme F' + taille k' = somme F + taille k /\ intact F t t'.

Lemma fusionne_spec fuel c (t : T) F b k :
  Zone (blocs c) F -> Repr c t F -> ordre_ok k -> loge (blocs c) b k -> hors F b k ->
  ORDRES - k <= Z.of_nat fuel ->
  exists c' t' b' k' F', fusionne fuel c t b k = (c', t', (b', k'))
    /\ fusion_ok c t F b k c' t' b' k' F'.
Proof.
  revert c t F b k. induction fuel as [|fuel IH]; intros c t F b k HZ HR Hk Hl Hh Hf.
  { unfold ordre_ok in Hk. lia. }
  simpl.
  assert (forall k', k' = k -> (k' + 1 < ORDRES -> jumeau b k' ∉ F k') ->
    exists c' t' b' k' F', (c, t, (b, k)) = (c', t', (b', k'))
    /\ fusion_ok c t F b k c' t' b' k' F') as Harret.
  { intros k' -> Hn. exists c, t, b, k, F. unfold fusion_ok. split_and!; try done; apply HZ. }
  destruct (Z.ltb_spec (k + 1) ORDRES) as [Hk1|]; [|apply (Harret k); lia || done].
  destruct ((blocs c <=? jumeau b k) || (blocs c <? jumeau b k + taille k)) eqn:Eb.
  { apply (Harret k); [done|]. intros _ Hin. apply (z_loge _ _ HZ k _ Hk) in Hin as (? & _ & ?).
    pose proof (taille_pos k (proj1 Hk)). apply orb_true_iff in Eb as [?|?]; bool_prop; lia. }
  bool_prop. destruct (jumeau_loge (blocs c) b k) as (Hjl & Hpl & Hpages & Hsep);
    [apply HR|done|done|done|].
  pose proof (loge_bloc _ _ _ Hk Hjl) as Hjb.
  destruct (est_libre c (jumeau b k) k) eqn:El; simpl.
  2: { apply (Harret k); [done|]. intros _ Hin. rewrite est_libre_bit in El by done.
       apply (r_bits _ _ _ HR) in Hin; [congruence|done..]. }
  apply (bloc_dans_liste c t F) in El as (l1 & l2 & E); [|done..].
  destruct (retire_spec c t F k l1 _ l2 HZ HR Hk E) as (h & t1 & -> & HR1 & Hint).
  set (c1 := compte_fusion (marque (set_tete c k h) (jumeau b k) k false)) in *.
  pose proof (zone_ote _ _ _ _ _ _ HZ Hk E) as HZ1.
  destruct (IH c1 t1 (maj F k (l1 ++ l2)) (pere b k) (k + 1))
    as (c' & t' & b' & k' & F' & -> & Hcad & HZ' & HR' & Hk' & Hl' & Hh' & Hj' & Hpg & Hs & Hint').
  { done. } { split; apply HR1. } { unfold ordre_ok in *. lia. } { done. }
  { apply hors_pages; [unfold ordre_ok in Hk; lia|]. intros p Hp Hpl'.
    apply (page_ote _ _ _ _ _ _ _ HZ Hk E) in Hpl' as [(j & x & Hj & Hx & Hpx) Hnot].
    apply Hpages in Hp as [Hp|Hp]; [|done]. specialize (Hh j x Hj Hx).
    unfold separes, etendue in *. lia. }
  { lia. }
  exists c', t', b', k', F'. unfold fusion_ok. split_and!; try done.
  - eapply cadre_trans; [|exact Hcad].
    pose proof (cadre_marque (set_tete c k h) (jumeau b k) k false (r_bitmap _ _ _ HR) Hjb Hk)
      as (? & ? & ? & Hm).
    split_and!; done.
  - intros p. rewrite Hpg, (page_ote _ _ _ _ _ _ _ HZ Hk E), Hpages.
    assert (etendue (jumeau b k) k p -> page_libre F p) as Hjp.
    { intros [? ?]. exists k, (jumeau b k). split_and!; try done. rewrite E. set_solver. }
    unfold etendue in *. destruct (decide (jumeau b k <= p < jumeau b k + taille k)); [|tauto].
    split; [|tauto]. tauto.
  - rewrite Hs, somme_maj, E, !length_app, taille_succ by (unfold ordre_ok in *; lia). simpl. lia.
  - intros p Hp. rewrite Hint', Hint; [done|done|].
    intros Hp'. apply Hp. by apply (page_ote _ _ _ _ _ _ _ HZ Hk E) in Hp' as [? _].
Qed.

(** ** The invariant, and freeing *)

Record Inv (c : Compagnon) (t : T) (F : listes) : Prop := {
  i_zone : Zone (blocs c) F;
  i_repr : Repr c t F;
  i_somme : disponibles c = somme F
}.

(** The served plane and its counter are unchanged. *)
Definition memes_servis (c c' : Compagnon) : Prop :=
  reemplois c' = reemplois c
  /\ forall p, 0 <= p < blocs c -> bit c' p ORDRES = bit c p ORDRES.

Lemma rend_succes c (t : T) F b k :
  Inv c t F -> ordre_ok k -> loge (blocs c) b k -> hors F b k ->
  exists c' t' F', rend c t b k = (c', t', true) /\ Inv c' t' F' /\ blocs c' = blocs c
    /\ disponibles c' = disponibles c + taille k
    /\ (forall p, page_libre F' p <-> page_libre F p \/ etendue b k p)
    /\ intact F' t t' /\ memes_servis c c'.
Proof.
  intros [HZ HR HS] Hk Hl Hh. pose proof (loge_bloc _ _ _ Hk Hl) as Hb.
  unfold rend. destruct Hl as (Hb0 & Hp & Hbn) eqn:Hl'.
  assert (est_libre c b k = false) as ->.
  { destruct (est_libre c b k) eqn:E; [|done]. rewrite est_libre_bit in E by done.
    apply (r_bits _ _ _ HR) in E; [|done..]. by apply (hors_absent F b k k) in E. }
  rewrite (proj2 (Z.leb_gt ORDRES k)) by apply Hk. rewrite (proj2 (Z.leb_gt (blocs c) b)) by lia.
  rewrite (proj2 (aligne_spec b k (proj1 Hk)) Hp). rewrite (proj2 (Z.ltb_ge _ _)) by lia. simpl.
  destruct (fusionne_spec (Z.to_nat ORDRES) c t F b k)
    as (c1 & t1 & b1 & k1 & F1 & Efus & Hcad & HZ1 & HR1 & Hk1 & Hl1 & Hh1 & Hj1 & Hpg & Hs & Hi);
    [done..|unfold ordre_ok in Hk; lia|].
  simpl in Efus. rewrite Efus.
  destruct Hcad as (E1 & E2 & E3 & E4).
  pose proof (repr_empile c1 t1 F1 k1 b1 HR1 Hk1 ltac:(by rewrite E1) Hh1) as HR2.
  pose proof (zone_ajoute _ _ _ _ HZ1 Hk1 Hl1 Hh1 Hj1) as HZ2.
  assert (0 <= b1 < blocs c1) as Hb1 by (rewrite E1; by apply (loge_bloc _ _ k1)).
  eexists _, _, (maj F1 k1 (b1 :: F1 k1)). split; [done|]. split_and!.
  - split; [by simpl; rewrite E1|split; apply HR2|].
    simpl. rewrite E2, somme_maj by done. simpl. lia.
  - done.
  - simpl. by rewrite E2.
  - intros p. rewrite page_ajoute by done. apply Hpg.
  - intros p Hp'. simpl. rewrite lien_pose_ne.
    + apply Hi. intros Hp1. apply Hp'. apply page_ajoute, Hpg; auto.
    + intros ->. apply Hp', page_ajoute; [done|]. right. unfold etendue.
      pose proof (taille_pos k1 (proj1 Hk1)). lia.
  - split; [done|]. intros p Hp'. rewrite <-E4 by done.
    apply (cadre_marque (set_tete c1 k1 b1) b1 k1 true); [apply HR1|done|done|simpl; lia].
Qed.

(** A refused free changes nothing. *)
Lemma rend_refus c (t : T) F b k :
  Inv c t F -> 0 <= k -> 0 <= b -> ~ (ordre_ok k /\ loge (blocs c) b k) \/ b ∈ F k ->
  ordre_ok k \/ ORDRES <= k -> rend c t b k = (c, t, false).
Proof.
  intros [HZ HR _] Hk Hb Hr Ho. unfold rend.
  destruct (Z.leb_spec ORDRES k); [done|]. assert (ordre_ok k) as Hok by (unfold ordre_ok; lia).
  destruct (Z.leb_spec (blocs c) b); [done|].
  destruct (aligne b k) eqn:Ea; [|done]. simpl. apply aligne_spec in Ea; [|done].
  destruct (Z.ltb_spec (blocs c) (b + taille k)); [done|].
  destruct Hr as [Hr|Hin]; [exfalso; apply Hr; by unfold loge|].
  assert (est_libre c b k = true) as ->; [|done].
  rewrite est_libre_bit by done. by apply (r_bits _ _ _ HR).
Qed.

(** ** Allocating *)

Lemma cherche_source_spec fuel c k :
  0 <= k <= ORDRES -> ORDRES - k <= Z.of_nat fuel ->
  let s := cherche_source fuel c k in
  k <= s <= ORDRES /\ (forall j, k <= j < s -> tete c j = AUCUN)
  /\ (s < ORDRES -> tete c s <> AUCUN).
Proof.
  revert k. induction fuel as [|fuel IH]; intros k Hk Hf; simpl; [split_and!; lia|].
  destruct ((k <? ORDRES) && (tete c k =? AUCUN)) eqn:E.
  - bool_prop. destruct (IH (k + 1)) as (H1 & H2 & H3); [lia..|]. split_and!; try lia.
    intros j Hj. destruct (decide (j = k)) as [->|]; [done|]. apply H2. lia.
  - apply andb_false_iff in E as [E|E]; bool_prop; split_and!; lia.
Qed.

Lemma divise_spec fuel c (t : T) F b s k :
  Zone (blocs c) F -> Repr c t F -> ordre_ok s -> 0 <= k <= s -> loge (blocs c) b s ->
  hors F b s -> s - k <= Z.of_nat fuel ->
  exists c' t' F', divise fuel c t b s k = (c', t') /\ cadre c c' /\ Zone (blocs c) F'
    /\ Repr c' t' F' /\ somme F' + taille k = somme F + taille s
    /\ (forall p, page_libre F' p <-> page_libre F p \/ (etendue b s p /\ ~ etendue b k p))
    /\ (forall p, ~ etendue b s p -> lien t' p = lien t p).
Proof.
  revert c t F s. induction fuel as [|fuel IH]; intros c t F s HZ HR Hs Hk Hl Hh Hf; simpl;
    (destruct (decide (s = k)) as [->|Hne];
      [rewrite ?Z.ltb_irrefl; exists c, t, F; split_and!; try done; try apply HZ; try tauto|]).
  { lia. }
  rewrite (proj2 (Z.ltb_lt k s)) by lia. destruct Hl as (Hb0 & Hp & Hn).
  unfold ordre_ok in Hs. set (h := s - 1). assert (ordre_ok h) as Hho by (unfold ordre_ok; lia).
  assert (s = h + 1) as Es by lia. clearbody h. subst s. rewrite taille_succ in Hn by lia.
  pose proof (taille_pos h (proj1 Hho)) as Ht. pose proof (taille_succ h (proj1 Hho)) as Ht2.
  apply au_pas_succ in Hp as [Hp Hbit]; [|lia].
  assert (dans (b + taille h) h b (h + 1)) as Hd by (unfold dans; lia).
  assert (dans b h b (h + 1)) as Hd' by (unfold dans; lia).
  assert (loge (blocs c) (b + taille h) h) as Hlh
    by (unfold loge; split_and!; [lia|apply au_pas_ajoute; [lia|done]|lia]).
  assert (jumeau (b + taille h) h = b) as Hjum.
  { pose proof (jumeau_spec b h (proj1 Hho)) as Ej. rewrite Hbit in Ej. rewrite <-Ej.
    apply jumeau_invol. }
  assert (b ∉ F h) as Hnb by (apply (hors_absent F b h h); eauto using hors_dans).
  assert (hors F (b + taille h) h) as Hhh by eauto using hors_dans.
  pose proof (repr_empile c t F h (b + taille h) HR Hho Hlh Hhh) as HR1.
  pose proof (zone_ajoute _ _ _ _ HZ Hho Hlh Hhh ltac:(by rewrite Hjum)) as HZ1.
  destruct (IH (compte_division (empile c t (b + taille h) h).1)
              (empile c t (b + taille h) h).2 (maj F h (b + taille h :: F h)) h)
    as (c' & t' & F' & E & Hcad & HZ' & HR' & HS & Hpg & Hi); try done; try lia.
  { split; apply HR1. } { unfold loge. split_and!; try done. simpl. lia. }
  { intros j x Hj Hx. destruct (decide (j = h)) as [->|]; [rewrite maj_eq in Hx|].
    - apply elem_of_cons in Hx as [->|Hx]; [unfold separes; lia|].
      by apply (hors_dans F b h b (h + 1)).
    - rewrite maj_ne in Hx by done. by apply (hors_dans F b h b (h + 1)). }
  exists c', t', F'. split; [exact E|]. split_and!; try done.
  - eapply cadre_trans; [|exact Hcad].
    pose proof (loge_bloc _ _ _ Hho Hlh) as Hb1.
    pose proof (cadre_marque (set_tete c h (b + taille h)) (b + taille h) h true
                  (r_bitmap _ _ _ HR) Hb1 Hho) as (? & ? & ? & Hm).
    split_and!; done.
  - rewrite HS, somme_maj by done. simpl. lia.
  - intros p. rewrite Hpg, page_ajoute by done. unfold etendue. rewrite Ht2.
    destruct (taille_mult k h ltac:(lia)) as (m & Hm & Em).
    pose proof (taille_pos k ltac:(lia)). assert (taille k <= taille h) by nia.
    destruct (decide (b <= p < b + taille k)), (decide (b + taille h <= p < b + taille h + taille h));
      split; intros [?|?]; try tauto; try (right; lia); try lia; try (left; right; lia).
    all: try (destruct (decide (b <= p < b + taille h)); [right|left; right]; lia).
  - intros p Hp'. unfold etendue in *. rewrite Hi by lia. simpl. apply lien_pose_ne. lia.
Qed.

Lemma liste_de_tete c (t : T) F k :
  Inv c t F -> ordre_ok k ->
  (tete c k = AUCUN /\ F k = [])
  \/ (tete c k <> AUCUN /\ exists l, F k = tete c k :: l /\ chaine t (lien t (tete c k)) l).
Proof.
  intros [HZ HR _] Hk. pose proof (r_chaine _ _ _ HR k Hk) as Hc.
  destruct (F k) as [|b l] eqn:E; simpl in Hc; [by left|]. destruct Hc as [-> Hc]. right.
  split; [|eauto]. pose proof (z_loge _ _ HZ k b Hk ltac:(rewrite E; set_solver)) as Hl.
  apply (loge_bloc _ _ _ Hk) in Hl. pose proof (r_borne _ _ _ HR).
  unfold AUCUN, u64_max. lia.
Qed.

(** What an allocation of block [b] of order [k] does. *)
Record alloue_ok (c : Compagnon) (t : T) (F : listes) (k b : Z) (c' : Compagnon) (t' : T)
  (F' : listes) : Prop := {
  a_ordre : ordre_ok k;
  a_loge : loge (blocs c) b k;
  a_libre p : etendue b k p -> page_libre F p;
  a_inv : Inv c' t' F';
  a_blocs : blocs c' = blocs c;
  a_disponibles : disponibles c' = disponibles c - taille k;
  a_pages p : page_libre F' p <-> page_libre F p /\ ~ etendue b k p;
  a_liens : intact F t t';
  a_servis p : 0 <= p < blocs c ->
    bit c' p ORDRES = true <-> bit c p ORDRES = true \/ etendue b k p;
  a_reemploi : (exists p, etendue b k p /\ bit c p ORDRES = true) ->
    reemplois c' = wrapping_add64 (reemplois c) 1;
  a_neuf : (forall p, etendue b k p -> bit c p ORDRES = false) -> reemplois c' = reemplois c
}.

Lemma marque_etendue_reemplois fuel c cour fin :
  reemplois (marque_etendue_servie_boucle fuel c cour fin) = reemplois c.
Proof.
  revert c cour. induction fuel as [|fuel IH]; intros c cour; [done|].
  simpl. destruct (cour <? fin); [|done]. by rewrite IH.
Qed.

(** The end of [prend]: the served plane and the counters, on a block [b] taken out. *)
Lemma fin_prend c0 c (t : T) F b k :
  cadre c0 c -> Zone (blocs c) F -> Repr c t F -> disponibles c = somme F + taille k ->
  ordre_ok k -> loge (blocs c) b k ->
  let c1 := if etendue_servie c b k then compte_reemploi c else c in
  let c2 := compte_allocation (marque_etendue_servie c1 b k) (taille k) in
  Inv c2 t F /\ blocs c2 = blocs c /\ disponibles c2 = disponibles c - taille k
  /\ (forall p, 0 <= p < blocs c0 ->
        bit c2 p ORDRES = true <-> bit c0 p ORDRES = true \/ etendue b k p)
  /\ ((exists p, etendue b k p /\ bit c0 p ORDRES = true) ->
        reemplois c2 = wrapping_add64 (reemplois c0) 1)
  /\ ((forall p, etendue b k p -> bit c0 p ORDRES = false) -> reemplois c2 = reemplois c0).
Proof.
  intros (E1 & E2 & E3 & E4) HZ HR HS Hk (Hb0 & Hp & Hn) c1 c2.
  pose proof (taille_pos k (proj1 Hk)) as Ht.
  assert (bitmap_ok c) as Hok by apply HR.
  assert (blocs c1 = blocs c /\ libre c1 = libre c /\ mots_par_ordre c1 = mots_par_ordre c
          /\ tetes c1 = tetes c /\ disponibles c1 = disponibles c) as (B1 & B2 & B3 & B4 & B5)
    by (unfold c1; by destruct (etendue_servie c b k)).
  assert (forall p j, bit c1 p j = bit c p j) as Hbit1
    by (intros; unfold bit, mot_de; by rewrite B2, B3).
  assert (bitmap_ok c1) as Hok1 by (unfold bitmap_ok; by rewrite B1, B2, B3).
  destruct (marque_etendue_boucle_spec (Z.to_nat (taille k) + 1) c1 b
    (Z.min (b + taille k) (blocs c1))) as [(M1 & M2 & M3 & M4 & M5) Hbits]; [done|lia..|].
  fold (marque_etendue_servie c1 b k) in *. set (cm := marque_etendue_servie c1 b k) in *.
  assert (Z.min (b + taille k) (blocs c1) = b + taille k) as Emin by lia. rewrite Emin in *.
  assert (etendue_servie c b k = true <-> exists p, etendue b k p /\ bit c0 p ORDRES = true)
    as Hserv.
  { unfold etendue_servie. rewrite etendue_servie_boucle_spec by (done || lia).
    replace (Z.min (b + taille k) (blocs c)) with (b + taille k) by lia.
    split; intros (p & Hp' & Hb); exists p; (split; [done|]); rewrite <-Hb;
      [symmetry|]; apply E4; unfold etendue in *; lia. }
  assert (reemplois cm = reemplois c1) as Hre by apply marque_etendue_reemplois.
  split_and!.
  - split; [simpl; by rewrite M1, B1|split|simpl; lia].
    + apply (meme_cadre_ok c1 cm); [by unfold meme_cadre; split_and!|done].
    + simpl. rewrite M1, B1. apply HR.
    + simpl. rewrite M3, B4. apply HR.
    + intros j Hj. unfold tete. simpl. rewrite M3, B4. by apply HR.
    + intros j x Hj Hx. simpl in Hx. rewrite M1, B1 in Hx. unfold ordre_ok in Hj.
      change (bit c2 x j) with (bit cm x j). rewrite Hbits by lia.
      rewrite decide_False by lia. rewrite Hbit1. by apply HR.
  - simpl. by rewrite M1.
  - simpl. by rewrite M4, B5.
  - intros p Hp'. change (bit c2 p ORDRES) with (bit cm p ORDRES). unfold ordre_ok in Hk.
    rewrite Hbits by lia. rewrite Hbit1. unfold etendue.
    destruct (decide (ORDRES = ORDRES /\ b <= p < b + taille k)) as [[_ ?]|Hno];
      [tauto|]. rewrite E4 by lia. split; [tauto|]. intros [?|?]; [done|]. by exfalso; apply Hno.
  - intros Hex. apply Hserv in Hex. simpl. rewrite Hre. unfold c1. rewrite Hex. simpl.
    by rewrite E3.
  - intros Hno. simpl. rewrite Hre. unfold c1.
    destruct (etendue_servie c b k) eqn:Es; [|done].
    destruct (proj1 Hserv eq_refl) as (p & Hp1 & Hp2). by rewrite Hno in Hp2.
Qed.

#[local] Opaque divise cherche_source etendue_servie marque_etendue_servie marque set_tete.
Lemma prend_spec c (t : T) F k :
  Inv c t F -> 0 <= k ->
  match prend c t k with
  | (c', t', Some b) => exists F', alloue_ok c t F k b c' t' F'
  | (c', t', None) => c' = compte_echec c /\ t' = t
                      /\ forall j, ordre_ok j -> k <= j -> F j = []
  end.
Proof.
  intros HI Hk. unfold prend.
  destruct (Z.leb_spec ORDRES k).
  { split_and!; [done..|]. unfold ordre_ok. lia. }
  destruct (cherche_source_spec (Z.to_nat ORDRES) c k) as (H1 & H2 & H3); [lia..|].
  set (s := cherche_source (Z.to_nat ORDRES) c k) in *.
  destruct (Z.leb_spec ORDRES s).
  { split_and!; [done..|]. intros j Hj Hkj.
    destruct (liste_de_tete c t F j HI Hj) as [[_ ?]|[Hn _]]; [done|].
    exfalso. apply Hn, H2. unfold ordre_ok in Hj. lia. }
  assert (ordre_ok s) as Hs by (unfold ordre_ok; lia).
  destruct (liste_de_tete c t F s HI Hs) as [[? _]|(_ & l & EF & Hc)]; [by apply H3 in H0|].
  set (b := tete c s) in *. set (h := lien t b). destruct HI as [HZ HR HS].
  pose proof (z_loge _ _ HZ s b Hs ltac:(rewrite EF; set_solver)) as Hl.
  pose proof (loge_bloc _ _ _ Hs Hl) as Hb.
  assert (Repr (marque (set_tete c s h) b s false) t (maj F s l)) as HR1.
  { apply (repr_ote c t t F s [] b l); try done. intros j Hj _. by apply HR. }
  set (c1 := marque (set_tete c s h) b s false) in *.
  assert (Zone (blocs c1) (maj F s l)) as HZ1 by by apply (zone_ote _ F s [] b l).
  assert (forall p, page_libre (maj F s l) p <-> page_libre F p /\ ~ etendue b s p) as Hpo
    by (intros p; by apply (page_ote _ F s [] b l p HZ Hs)).
  assert (hors (maj F s l) b s) as Hh.
  { apply hors_pages; [lia|]. intros p Hp Hpl. by apply Hpo in Hpl as [_ ?]. }
  assert (cadre c c1) as Hcad1.
  { apply (cadre_marque (set_tete c s h)); [apply HR|done|done]. }
  destruct (divise_spec (Z.to_nat ORDRES) c1 t (maj F s l) b s k)
    as (c2 & t2 & F2 & E & Hcad & HZ2 & HR2 & HS2 & Hpg & Hi); [done..|lia|done|done|lia|].
  rewrite E. assert (dans b k b s) as Hd.
  { destruct (taille_mult k s ltac:(lia)) as (m & Hm & Em). pose proof (taille_pos k Hk).
    unfold dans. nia. }
  assert (blocs c2 = blocs c) as Eb by (destruct Hcad as [-> _]; done).
  assert (loge (blocs c) b k) as Hlk.
  { destruct Hl as (? & ? & ?). unfold loge, dans in *.
    split_and!; [lia|apply (au_pas_moins k s); [lia|done]|lia]. }
  destruct (fin_prend c c2 t2 F2 b k) as (HI & G1 & G2 & G3 & G4 & G5);
    [by eapply cadre_trans|by rewrite Eb|done| |unfold ordre_ok; lia|by rewrite Eb|].
  { destruct Hcad as (_ & -> & _ & _). change (disponibles c1) with (disponibles c).
    rewrite HS. rewrite somme_maj, EF in HS2 by done. simpl in HS2. lia. }
  assert (forall p, etendue b s p -> page_libre F p) as Hlib.
  { intros p [? ?]. exists s, b. split_and!; try done. rewrite EF. set_solver. }
  exists F2. split.
  - unfold ordre_ok. lia.
  - done.
  - intros p Hp. apply Hlib. unfold etendue, dans in *. lia.
  - exact HI.
  - by rewrite G1.
  - rewrite G2. f_equal. destruct Hcad as (_ & -> & _). done.
  - intros p. rewrite Hpg, Hpo. specialize (Hlib p).
    destruct (decide (b <= p < b + taille s)); unfold etendue, dans in *.
    + split; intuition lia.
    + split; [|tauto]. intros [[? ?]|[? ?]]; [|lia]. split; [done|lia].
  - intros p Hp. apply Hi. intros Hs'. by apply Hp, Hlib.
  - exact G3.
  - exact G4.
  - exact G5.
Qed.

#[local] Transparent divise cherche_source etendue_servie marque_etendue_servie marque set_tete.

(** Merging as far as possible: an aligned free range lies in one free block. *)
Lemma etendue_couverte n F (k : nat) a :
  Zone n F -> Z.of_nat k < ORDRES -> 0 <= a -> au_pas a (Z.of_nat k) ->
  (forall p, etendue a (Z.of_nat k) p -> page_libre F p) ->
  exists j b, ordre_ok j /\ Z.of_nat k <= j /\ b ∈ F j /\ dans a (Z.of_nat k) b j.
Proof.
  intros HZ. revert a. induction k as [|k IH]; intros a Hk Ha Hp Hfree.
  { destruct (Hfree a) as (j & b & Hj & Hb & Hab).
    { unfold etendue. assert (taille (Z.of_nat 0) = 1) as -> by done. lia. }
    exists j, b. split_and!; try done; [apply Hj|]. unfold dans.
    assert (taille (Z.of_nat 0) = 1) as -> by done. lia. }
  replace (Z.of_nat (S k)) with (Z.of_nat k + 1) in * by lia. set (q := Z.of_nat k) in *.
  pose proof (taille_succ q ltac:(lia)) as Ht2. pose proof (taille_pos q ltac:(lia)).
  pose proof Hp as Hp'. apply au_pas_succ in Hp as [Hp Hbit]; [|lia].
  destruct (IH a) as (j1 & b1 & Hj1 & Hk1 & Hb1 & Hd1); [lia..|done| |].
  { intros p Hpp. apply Hfree. unfold etendue in *. lia. }
  destruct (IH (a + taille q)) as (j2 & b2 & Hj2 & Hk2 & Hb2 & Hd2);
    [lia..|apply au_pas_ajoute; [lia|done]| |].
  { intros p Hpp. apply Hfree. unfold etendue in *. lia. }
  assert (forall j b, ordre_ok j -> q <= j -> b ∈ F j -> j <> q ->
    (dans a q b j \/ dans (a + taille q) q b j) -> dans a (q + 1) b j) as Hgrand.
  { intros j b Hj Hqj Hb Hne Hd. apply blocs_emboites; [lia|done| |].
    - by apply (z_loge _ _ HZ j b).
    - unfold separes, dans in *. lia. }
  destruct (decide (j1 = q)) as [->|]; [|exists j1, b1; split_and!; auto with lia].
  destruct (decide (j2 = q)) as [->|]; [|exists j2, b2; split_and!; auto with lia].
  exfalso. assert (b1 = a) as -> by (unfold dans in *; lia).
  assert (b2 = a + taille q) as -> by (unfold dans in *; lia).
  apply (z_fusion _ _ HZ q a); [lia..|done|].
  by rewrite jumeau_spec, Hbit by lia.
Qed.

(** ** What holds of the terrain and is kept by every link write *)

Section Stable.
Variable P : T -> Prop.
Hypothesis P_pose : forall t b s, P t -> P (pose_lien t b s).

Lemma retire_stable fuel c (t : T) b k prec cour garde :
  P t -> P (retire_boucle fuel c t b k prec cour garde).1.2.
Proof.
  revert prec cour garde. induction fuel as [|fuel IH]; intros prec cour garde Ht; [done|].
  simpl. destruct (cour =? AUCUN); [done|]. destruct (cour =? b).
  - simpl. destruct (prec =? AUCUN); simpl; auto.
  - destruct (_ <? _); auto.
Qed.

Lemma fusionne_stable fuel c (t : T) b k : P t -> P (fusionne fuel c t b k).1.2.
Proof.
  revert c t b k. induction fuel as [|fuel IH]; intros c t b k Ht; [done|]. simpl.
  destruct (_ <? _); [|done]. destruct (_ || _); [done|]. destruct (negb _); [done|].
  pose proof (retire_stable (Z.to_nat (blocs c) + 2) c t (jumeau b k) k AUCUN (tete c k) 0 Ht)
    as Hr. fold (retire c t (jumeau b k) k) in Hr.
  destruct (retire c t (jumeau b k) k) as [[c1 t1] [|]]; [by apply IH|done].
Qed.

Lemma rend_stable c (t : T) b k : P t -> P (rend c t b k).1.2.
Proof.
  intros Ht. unfold rend. destruct ((ORDRES <=? k) || (blocs c <=? b) || negb (aligne b k)); [done|].
  destruct (blocs c <? b + taille k); [done|]. destruct (est_libre c b k); [done|].
  pose proof (fusionne_stable (Z.to_nat ORDRES) c t b k Ht) as Hf.
  destruct (fusionne (Z.to_nat ORDRES) c t b k) as [[c1 t1] [b1 k1]]. simpl in *. auto.
Qed.

Lemma divise_stable fuel c (t : T) b s k : P t -> P (divise fuel c t b s k).2.
Proof.
  revert c t s. induction fuel as [|fuel IH]; intros c t s Ht; [done|]. simpl.
  destruct (k <? s); [|done]. apply IH. simpl. auto.
Qed.

Lemma prend_stable c (t : T) k : P t -> P (prend c t k).1.2.
Proof.
  intros Ht. unfold prend. destruct (ORDRES <=? k); [done|].
  generalize (cherche_source (Z.to_nat ORDRES) c k). intros s.
  destruct (ORDRES <=? s); [done|]. generalize (tete c s). intros b.
  generalize (marque (set_tete c s (lien t b)) b s false). intros c1.
  pose proof (divise_stable (Z.to_nat ORDRES) c1 t b s k Ht) as Hd.
  destruct (divise (Z.to_nat ORDRES) c1 t b s k) as [c2 t2]. exact Hd.
Qed.
End Stable.

End Preuves.
End CompagnonProofs.
