(* ===== verification/CompagnonTrace.v ===== *)
(** The buddy allocator under a client: regions given at start, allocations, frees of what
    was served, and writes of the owners into their blocks, in any order. *)

From S2P Require Import Prelude Compagnon CompagnonBits CompagnonProofs.
Import Compagnon CompagnonBits CompagnonInv CompagnonProofs.

Module CompagnonTrace.

Section Trace.
Context {T : Type} `{TT : Terrain T} `{TL : !TerrainLois T}.

(** The allocator, its memory, the blocks served and not yet freed, and the elementary
    blocks given to the allocator so far. *)
Record Systeme := mk_systeme {
  alloc : Compagnon;
  memoire : T;
  vivants : gset (Z * Z);
  donnees : Z -> Prop
}.

Definition vivante (s : Systeme) (p : Z) : Prop :=
  exists b k, (b, k) ∈ vivants s /\ etendue b k p.

Inductive pas_systeme : Systeme -> Systeme -> Prop :=
| donne s b k c' t' r :
    (* a region, or part of one, that the allocator was not given yet *)
    0 <= k -> 0 <= b -> (forall p, etendue b k p -> ~ donnees s p) ->
    rend (alloc s) (memoire s) b k = (c', t', r) ->
    pas_systeme s (mk_systeme c' t' (vivants s)
      (if r then fun p => donnees s p \/ etendue b k p else donnees s))
| alloue s k c' t' b :
    0 <= k -> prend (alloc s) (memoire s) k = (c', t', Some b) ->
    pas_systeme s (mk_systeme c' t' ({[(b, k)]} ∪ vivants s) (donnees s))
| refuse s k c' t' :
    0 <= k -> prend (alloc s) (memoire s) k = (c', t', None) ->
    pas_systeme s (mk_systeme c' t' (vivants s) (donnees s))
| libere s b k c' t' r :
    (b, k) ∈ vivants s -> rend (alloc s) (memoire s) b k = (c', t', r) ->
    pas_systeme s (mk_systeme c' t' (if r then vivants s ∖ {[(b, k)]} else vivants s)
                     (donnees s))
| ecrit s t' :
    (forall p, ~ vivante s p -> lien t' p = lien (memoire s) p) ->
    pas_systeme s (mk_systeme (alloc s) t' (vivants s) (donnees s)).

Inductive atteint (n : Z) (bitmap : list Z) (t : T) : Systeme -> Prop :=
| depart c : neuf n bitmap = Some c ->
    atteint n bitmap t (mk_systeme c t ∅ (fun _ => False))
| suite s s' : atteint n bitmap t s -> pas_systeme s s' -> atteint n bitmap t s'.

(** ** The invariant of the system *)

Record Sain (n : Z) (s : Systeme) (F : listes) : Prop := {
  sn_inv : Inv (alloc s) (memoire s) F;
  sn_blocs : blocs (alloc s) = n;
  sn_loge b k : (b, k) ∈ vivants s -> ordre_ok k /\ loge n b k;
  sn_separes b k b' k' : (b, k) ∈ vivants s -> (b', k') ∈ vivants s ->
    (b, k) <> (b', k') -> separes b k b' k';
  sn_partage p : donnees s p <-> page_libre F p \/ vivante s p;
  sn_exclus p : page_libre F p -> ~ vivante s p
}.

Lemma neuf_inv n bitmap c (t : T) :
  0 <= n <= 2 ^ 52 -> neuf n bitmap = Some c -> Inv c t (fun _ => []).
Proof.
  intros Hn E. unfold neuf in E. cas E. unfold mots_bitmap in *.
  split; [split; [set_solver|intros; constructor|set_solver|set_solver]| |].
  - split; simpl.
    + unfold bitmap_ok. simpl. rewrite length_replicate. split_and!; lia || done.
    + lia.
    + done.
    + intros k Hk. change (aget (replicate (Z.to_nat ORDRES) AUCUN) k = AUCUN).
      unfold aget. rewrite lookup_replicate_2; [done|]. unfold ordre_ok, ORDRES in *. lia.
    + intros k b Hk Hb. unfold bit. simpl. rewrite aget_replicate, Z.bits_0.
      split; [done|]. intros Hin. by apply not_elem_of_nil in Hin.
  - simpl. unfold somme. by vm_compute.
Qed.

Lemma repr_terrain c (t t' : T) F :
  Zone (blocs c) F -> Repr c t F -> (forall p, page_libre F p -> lien t' p = lien t p) ->
  Repr c t' F.
Proof.
  intros HZ [H1 H2 H3 H4 H5] Ht. split; try done. intros k Hk. specialize (H4 k Hk).
  assert (forall b, b ∈ F k -> lien t' b = lien t b) as Hl.
  { intros b Hb. apply Ht. exists k, b. pose proof (taille_pos k (proj1 Hk)).
    split_and!; [done|done|lia|lia]. }
  revert H4 Hl. generalize (tete c k) as h, (F k) as l. intros h l. revert h.
  induction l as [|b l IH]; intros h Hc Hl; simpl in *; [done|].
  destruct Hc as [-> Hc]. split; [done|]. rewrite Hl by set_solver. apply IH; [done|].
  intros x Hx. apply Hl. set_solver.
Qed.

Lemma vivante_hors n s F b k :
  Sain n s F -> (b, k) ∈ vivants s -> hors F b k.
Proof.
  intros HS Hv. destruct (sn_loge _ _ _ HS b k Hv) as [Hk _]. apply hors_pages; [apply Hk|].
  intros p Hp Hpl. apply (sn_exclus _ _ _ HS p Hpl). by exists b, k.
Qed.

Lemma sain_donne n s F b k c' t' r :
  Sain n s F -> 0 <= k -> 0 <= b -> (forall p, etendue b k p -> ~ donnees s p) ->
  rend (alloc s) (memoire s) b k = (c', t', r) ->
  exists F', Sain n (mk_systeme c' t' (vivants s)
    (if r then fun p => donnees s p \/ etendue b k p else donnees s)) F'.
Proof.
  intros HS Hk Hb Hd E. pose proof (sn_inv _ _ _ HS) as HI.
  assert (hors F b k) as Hh.
  { apply hors_pages; [done|]. intros p Hp Hl. apply (Hd p Hp), (sn_partage _ _ _ HS). auto. }
  assert (ordre_ok k /\ loge (blocs (alloc s)) b k \/ ~ (ordre_ok k /\ loge (blocs (alloc s)) b k))
    as [[Hok Hl]|Hno].
  { unfold ordre_ok, loge, au_pas.
    destruct (decide (0 <= k < ORDRES)), (decide (0 <= b)),
      (decide (b mod taille k = 0)), (decide (b + taille k <= blocs (alloc s))); tauto. }
  - destruct (rend_succes _ _ F b k HI Hok Hl Hh)
      as (c1 & t1 & F1 & E1 & HI1 & Hb1 & _ & Hpg & _). rewrite E1 in E. simplify_eq.
    exists F1. split; simpl; try done.
    + rewrite Hb1. apply HS.
    + apply HS.
    + apply HS.
    + intros p. rewrite (sn_partage _ _ _ HS), Hpg. unfold vivante. simpl. tauto.
    + intros p Hp. apply Hpg in Hp as [Hp|Hp]; [by apply (sn_exclus _ _ _ HS)|].
      intros Hv. apply (Hd p Hp), (sn_partage _ _ _ HS). auto.
  - rewrite (rend_refus _ _ F) in E; [|done..|by left|unfold ordre_ok; lia]. simplify_eq.
    exists F. split; apply HS.
Qed.

Lemma sain_alloue n s F k c' t' b :
  Sain n s F -> 0 <= k -> prend (alloc s) (memoire s) k = (c', t', Some b) ->
  exists F', Sain n (mk_systeme c' t' ({[(b, k)]} ∪ vivants s) (donnees s)) F'.
Proof.
  intros HS Hk E. pose proof (prend_spec _ _ F k (sn_inv _ _ _ HS) Hk) as Hp.
  rewrite E in Hp. destruct Hp as (F' & HA). exists F'.
  pose proof (sn_blocs _ _ _ HS) as Hn.
  assert (forall b' k', (b', k') ∈ vivants s -> separes b k b' k') as Hsep.
  { intros b' k' Hv. pose proof (vivante_hors n s F b' k' HS Hv) as Hh.
    destruct (sn_loge _ _ _ HS b' k' Hv) as [Hk' _].
    pose proof (taille_pos k Hk). pose proof (taille_pos k' (proj1 Hk')).
    destruct (decide (b + taille k <= b')); [by left|].
    destruct (decide (b' + taille k' <= b)); [by right|]. exfalso.
    apply (sn_exclus _ _ _ HS (Z.max b b')).
    - apply (a_libre _ _ _ _ _ _ _ _ HA). unfold etendue. lia.
    - exists b', k'. split; [done|]. unfold etendue. lia. }
  assert (forall p, vivante (mk_systeme c' t' ({[(b, k)]} ∪ vivants s) (donnees s)) p
    <-> etendue b k p \/ vivante s p) as Hviv.
  { intros p. unfold vivante. simpl. split.
    - intros (b' & k' & Hin & Hp). apply elem_of_union in Hin as [Hin|Hin]; [|eauto].
      apply elem_of_singleton in Hin. simplify_eq. auto.
    - intros [Hp|(b' & k' & Hin & Hp)]; [exists b, k|exists b', k']; (split; [set_solver|done]). }
  split; simpl.
  - apply HA.
  - by rewrite (a_blocs _ _ _ _ _ _ _ _ HA).
  - intros b' k' Hin. apply elem_of_union in Hin as [Hin|Hin]; [|by apply HS].
    apply elem_of_singleton in Hin. injection Hin as -> ->. rewrite <-Hn. split; apply HA.
  - intros b1 k1 b2 k2 H1 H2 Hne.
    apply elem_of_union in H1 as [H1|H1]; apply elem_of_union in H2 as [H2|H2];
      try (apply elem_of_singleton in H1; injection H1 as -> ->);
      try (apply elem_of_singleton in H2; injection H2 as -> ->).
    + done.
    + by apply Hsep.
    + apply separes_sym. by apply Hsep.
    + by apply (sn_separes _ _ _ HS).
  - intros p. rewrite Hviv, (sn_partage _ _ _ HS), (a_pages _ _ _ _ _ _ _ _ HA).
    pose proof (a_libre _ _ _ _ _ _ _ _ HA p). unfold etendue in *.
    destruct (decide (b <= p < b + taille k)); tauto.
  - intros p Hp Hv. apply (a_pages _ _ _ _ _ _ _ _ HA) in Hp as [Hp Hno].
    apply Hviv in Hv as [?|?]; [done|]. by apply (sn_exclus _ _ _ HS p).
Qed.

Lemma sain_libere n s F b k c' t' r :
  Sain n s F -> (b, k) ∈ vivants s -> rend (alloc s) (memoire s) b k = (c', t', r) ->
  r = true /\ exists F', Sain n (mk_systeme c' t' (vivants s ∖ {[(b, k)]}) (donnees s)) F'.
Proof.
  intros HS Hv E. destruct (sn_loge _ _ _ HS b k Hv) as [Hk Hl].
  pose proof (vivante_hors n s F b k HS Hv) as Hh. pose proof (sn_blocs _ _ _ HS) as Hn.
  destruct (rend_succes _ _ F b k (sn_inv _ _ _ HS) Hk ltac:(by rewrite Hn) Hh)
    as (c1 & t1 & F1 & E1 & HI1 & Hb1 & _ & Hpg & _). rewrite E1 in E. simplify_eq.
  split; [done|]. exists F1.
  assert (forall p, vivante (mk_systeme c' t' (vivants s ∖ {[(b, k)]}) (donnees s)) p
    <-> vivante s p /\ ~ etendue b k p) as Hviv.
  { intros p. unfold vivante. simpl. split.
    - intros (b' & k' & Hin & Hp). apply elem_of_difference in Hin as [Hin Hne].
      split; [eauto|]. assert ((b', k') <> (b, k)) as Hd by set_solver.
      pose proof (sn_separes _ _ _ HS b' k' b k Hin Hv Hd) as Hs.
      unfold separes, etendue in *. lia.
    - intros [(b' & k' & Hin & Hp) Hno]. exists b', k'. split; [|done].
      apply elem_of_difference. split; [done|]. intros Heq%elem_of_singleton. by simplify_eq. }
  split; simpl.
  - done.
  - done.
  - intros b' k' Hin. apply HS. set_solver.
  - intros b1 k1 b2 k2 H1 H2. apply HS; set_solver.
  - intros p. rewrite Hviv, Hpg, (sn_partage _ _ _ HS).
    assert (etendue b k p -> vivante s p) by (intros; by exists b, k). unfold etendue in *.
    destruct (decide (b <= p < b + taille k)); tauto.
  - intros p Hp. rewrite Hviv. apply Hpg in Hp as [Hp|Hp]; [|tauto].
    pose proof (sn_exclus _ _ _ HS p Hp). tauto.
Qed.

Lemma atteint_sain n bitmap (t : T) s :
  0 <= n <= 2 ^ 52 -> atteint n bitmap t s -> exists F, Sain n s F.
Proof.
  intros Hn. induction 1 as [c E|s s' Ha [F HS] Hp].
  { exists (fun _ => []). split; simpl.
    - by apply (neuf_inv n bitmap).
    - unfold neuf in E. by cas E.
    - set_solver.
    - set_solver.
    - intros p. unfold page_libre, vivante. simpl. split; [done|].
      intros [(k & b & _ & Hb & _)|(b & k & Hb & _)]; set_solver.
    - intros p (k & b & _ & Hb & _). set_solver. }
  destruct Hp as [s b k c' t' r|s k c' t' b|s k c' t'|s b k c' t' r|s t'].
  - by eapply sain_donne.
  - by eapply sain_alloue.
  - pose proof (prend_spec _ _ F k (sn_inv _ _ _ HS) H) as Hq. rewrite H0 in Hq.
    destruct Hq as (-> & -> & _). exists F.
    destruct (sn_inv _ _ _ HS) as [HZ HR HSo].
    split; simpl; try apply HS. split; [done|split; apply HR|done].
  - destruct (sain_libere n s F b k c' t' r HS H H0) as [-> HF]. done.
  - exists F. destruct (sn_inv _ _ _ HS) as [HZ HR HSo]. split; simpl; try apply HS.
    split; [done| |done]. apply (repr_terrain _ (memoire s)); [done..|].
    intros p Hp. apply H. by apply (sn_exclus _ _ _ HS).
Qed.

(** ** What a client can rely on *)

(** Elementary block [p] belongs to a block the bitmap marks free. *)
Definition en_liste (c : Compagnon) (p : Z) : Prop :=
  exists k b, 0 <= k < ORDRES /\ 0 <= b < blocs c /\ est_libre c b k = true
              /\ b <= p < b + taille k.

Lemma en_liste_page c (t : T) F p : Inv c t F -> en_liste c p <-> page_libre F p.
Proof.
  intros [HZ HR _]. unfold en_liste, page_libre, ordre_ok. split.
  - intros (k & b & Hk & Hb & He & Hp). rewrite est_libre_bit in He by done.
    apply (r_bits _ _ _ HR) in He; [|done..]. eauto.
  - intros (k & b & Hk & Hb & Hp).
    pose proof (loge_bloc _ _ _ Hk (z_loge _ _ HZ k b Hk Hb)). exists k, b.
    split_and!; try done; try lia. rewrite est_libre_bit by done. by apply (r_bits _ _ _ HR).
Qed.

Lemma atteint_pages n bitmap (t : T) s :
  0 <= n <= 2 ^ 52 -> atteint n bitmap t s ->
  exists F, Sain n s F /\ forall p, en_liste (alloc s) p <-> page_libre F p.
Proof.
  intros Hn Ha. destruct (atteint_sain _ _ _ _ Hn Ha) as [F HS]. exists F. split; [done|].
  intros p. eapply en_liste_page, HS.
Qed.

(** C12. In every reachable state the served blocks are aligned, inside the zone and
    pairwise disjoint, and every elementary block given to the allocator is either in
    exactly one free block or in a served one, never both and never lost. *)
Theorem vivants_disjoints n bitmap (t : T) s :
  0 <= n <= 2 ^ 52 -> atteint n bitmap t s ->
  (forall b k, (b, k) ∈ vivants s ->
     0 <= k < ORDRES /\ aligne b k = true /\ 0 <= b /\ b + taille k <= n)
  /\ (forall b k b' k', (b, k) ∈ vivants s -> (b', k') ∈ vivants s -> (b, k) <> (b', k') ->
        b + taille k <= b' \/ b' + taille k' <= b)
  /\ (forall p, donnees s p <-> en_liste (alloc s) p \/ vivante s p)
  /\ (forall p, ~ (en_liste (alloc s) p /\ vivante s p)).
Proof.
  intros Hn Ha. destruct (atteint_pages _ _ _ _ Hn Ha) as (F & HS & Hpg). split_and!.
  - intros b k Hv. destruct (sn_loge _ _ _ HS b k Hv) as (Hk & H0 & Hp & H1).
    split_and!; try apply Hk; try done. by apply aligne_spec; [apply Hk|].
  - apply HS.
  - intros p. rewrite Hpg. apply HS.
  - intros p [Hp Hv]. apply Hpg in Hp. by apply (sn_exclus _ _ _ HS p).
Qed.

(** C35. An allocation or a free writes no link word inside a served block other than the
    one being freed, and freeing a served block always succeeds. *)
Theorem blocs_servis_intacts n bitmap (t : T) s :
  0 <= n <= 2 ^ 52 -> atteint n bitmap t s ->
  (forall k c' t' o, 0 <= k -> prend (alloc s) (memoire s) k = (c', t', o) ->
     forall p, vivante s p -> lien t' p = lien (memoire s) p)
  /\ (forall b k c' t' r, (b, k) ∈ vivants s ->
        rend (alloc s) (memoire s) b k = (c', t', r) ->
        r = true /\ forall p, vivante s p -> ~ etendue b k p -> lien t' p = lien (memoire s) p).
Proof.
  intros Hn Ha. destruct (atteint_sain _ _ _ _ Hn Ha) as [F HS]. split.
  - intros k c' t' o Hk E p Hp. pose proof (prend_spec _ _ F k (sn_inv _ _ _ HS) Hk) as Hs.
    rewrite E in Hs. destruct o as [b|]; [|by destruct Hs as (_ & -> & _)].
    destruct Hs as [F' HA]. apply (a_liens _ _ _ _ _ _ _ _ HA). intros Hl.
    by apply (sn_exclus _ _ _ HS p).
  - intros b k c' t' r Hv E. destruct (sn_loge _ _ _ HS b k Hv) as [Hk Hl].
    destruct (rend_succes _ _ F b k (sn_inv _ _ _ HS) Hk
                ltac:(by rewrite (sn_blocs _ _ _ HS)) (vivante_hors n s F b k HS Hv))
      as (c1 & t1 & F1 & E1 & _ & _ & _ & Hpg & Hi & _). rewrite E1 in E. simplify_eq.
    split; [done|]. intros p Hp Hno. apply Hi. rewrite Hpg. intros [Hl'|?]; [|done].
    by apply (sn_exclus _ _ _ HS p).
Qed.

(** An allocation of order [k] is refused exactly when no aligned range of [2^k]
    elementary blocks is entirely free: merging never leaves such a range split. *)
Theorem prend_refuse_ssi n bitmap (t : T) s k :
  0 <= n <= 2 ^ 52 -> atteint n bitmap t s -> 0 <= k < ORDRES ->
  (prend (alloc s) (memoire s) k).2 = None
  <-> ~ exists a, 0 <= a /\ aligne a k = true
                 /\ forall p, a <= p < a + taille k -> en_liste (alloc s) p.
Proof.
  intros Hn Ha Hk. destruct (atteint_pages _ _ _ _ Hn Ha) as (F & HS & Hpg).
  pose proof (prend_spec _ _ F k (sn_inv _ _ _ HS) ltac:(lia)) as Hs.
  pose proof (i_zone _ _ _ (sn_inv _ _ _ HS)) as HZ.
  destruct (prend _ _ k) as [[c' t'] [b|]]; simpl; split; try done.
  - destruct Hs as [F' HA]. intros Hno. exfalso. apply Hno. exists b.
    destruct (a_loge _ _ _ _ _ _ _ _ HA) as (H0 & Hp & _).
    split_and!; [done|by apply aligne_spec; [lia|]|].
    intros p Hpp. by apply Hpg, (a_libre _ _ _ _ _ _ _ _ HA).
  - destruct Hs as (_ & _ & Hvide). intros _ (a & H0 & Hal & Hfree).
    apply aligne_spec in Hal; [|lia].
    destruct (etendue_couverte _ F (Z.to_nat k) a HZ) as (j & b & Hj & Hkj & Hb & _);
      rewrite ?Z2Nat.id in * by lia; [lia|done|done| |].
    { intros p Hp. apply Hpg, Hfree, Hp. }
    rewrite (Hvide j Hj Hkj) in Hb. by apply not_elem_of_nil in Hb.
Qed.

(** Freeing a served block undoes its allocation: the elementary blocks free
    afterwards are those free before it was served, and the free count is the same. *)
Theorem prend_rend_inverse n bitmap (t : T) s k c1 t1 b :
  0 <= n <= 2 ^ 52 -> atteint n bitmap t s -> 0 <= k ->
  prend (alloc s) (memoire s) k = (c1, t1, Some b) ->
  exists c2 t2, rend c1 t1 b k = (c2, t2, true)
    /\ disponibles c2 = disponibles (alloc s)
    /\ forall p, en_liste c2 p <-> en_liste (alloc s) p.
Proof.
  intros Hn Ha Hk E. destruct (atteint_pages _ _ _ _ Hn Ha) as (F & HS & Hpg).
  pose proof (prend_spec _ _ F k (sn_inv _ _ _ HS) Hk) as Hs. rewrite E in Hs.
  destruct Hs as [F1 HA]. pose proof (a_inv _ _ _ _ _ _ _ _ HA) as HI1.
  destruct (rend_succes c1 t1 F1 b k HI1) as (c2 & t2 & F2 & E2 & HI2 & _ & Hd & Hp2 & _).
  - apply HA.
  - rewrite (a_blocs _ _ _ _ _ _ _ _ HA). apply HA.
  - apply hors_pages; [done|]. intros p Hp Hl. by apply (a_pages _ _ _ _ _ _ _ _ HA) in Hl as [_ ?].
  - exists c2, t2. split; [done|]. split.
    + rewrite Hd, (a_disponibles _ _ _ _ _ _ _ _ HA). lia.
    + intros p. rewrite (en_liste_page _ _ _ _ HI2), Hp2, Hpg, (a_pages _ _ _ _ _ _ _ _ HA).
      pose proof (a_libre _ _ _ _ _ _ _ _ HA p). unfold etendue in *.
      destruct (decide (b <= p < b + taille k)); tauto.
Qed.

End Trace.

(** ** A memory of link words, and concrete runs *)

#[export] Instance Terrain_gmap : Terrain (gmap Z Z) := {
  lien t b := default 0 (t !! b);
  pose_lien t b s := <[b := s]> t
}.
#[export] Instance Terrain_gmap_lois : TerrainLois (gmap Z Z).
Proof.
  split; intros; simpl; [by rewrite lookup_insert_eq|by rewrite lookup_insert_ne].
Qed.

Definition bitmap_ex : list Z := replicate 17 0.
Definition vide_ex : Compagnon := default (mk_compagnon 0 0 [] [] 0 0 0 0 0 0 0) (neuf 6 bitmap_ex).
(** Six elementary blocks, given as a block of four and a block of two. *)
Definition nourri_ex : Compagnon * gmap Z Z :=
  let '(c, t, _) := rend vide_ex ∅ 0 2 in let '(c, t, _) := rend c t 4 1 in (c, t).

Definition systeme_nourri : Systeme := mk_systeme nourri_ex.1 nourri_ex.2 ∅
  (fun p => (False \/ etendue 0 2 p) \/ etendue 4 1 p).

Lemma nourri_atteint : atteint 6 bitmap_ex (∅ : gmap Z Z) systeme_nourri.
Proof.
  eapply suite; [eapply suite; [apply (depart 6 bitmap_ex ∅ vide_ex); reflexivity|]|].
  - eapply (donne _ 0 2); [lia|lia|simpl; tauto|vm_compute; reflexivity].
  - refine (donne (mk_systeme _ _ _ _) 4 1 _ _ true _ _ _ _); [lia|lia| |vm_compute; reflexivity].
    simpl. unfold etendue. intros p Hp [?|Hq]; [done|].
    assert (taille 2 = 4) as E by done. lia.
Qed.

Definition servi_ex : Compagnon * gmap Z Z * option Z := prend nourri_ex.1 nourri_ex.2 1.
Definition systeme_servi : Systeme :=
  mk_systeme servi_ex.1.1 servi_ex.1.2 ({[(4, 1)]} ∪ ∅) (donnees systeme_nourri).

Lemma servi_atteint : atteint 6 bitmap_ex (∅ : gmap Z Z) systeme_servi.
Proof.
  eapply suite; [apply nourri_atteint|].
  apply (alloue systeme_nourri 1 servi_ex.1.1 servi_ex.1.2 4); [lia|]. vm_compute. reflexivity.
Qed.

Lemma vivants_disjoints_witness : (4, 1) ∈ vivants systeme_servi /\ 4 + taille 1 <= 6.
Proof.
  assert ((4, 1) ∈ vivants systeme_servi) as Hv by (simpl; set_solver). split; [done|].
  pose proof (vivants_disjoints 6 bitmap_ex (∅ : gmap Z Z) systeme_servi ltac:(lia)
                servi_atteint) as [H _].
  by apply H.
Defined.

Lemma blocs_servis_intacts_witness :
  (rend (alloc systeme_servi) (memoire systeme_servi) 4 1).2 = true.
Proof.
  pose proof (blocs_servis_intacts 6 bitmap_ex (∅ : gmap Z Z) systeme_servi ltac:(lia)
                servi_atteint) as [_ H].
  destruct (rend (alloc systeme_servi) (memoire systeme_servi) 4 1) as [[c t] r] eqn:E.
  eapply (H 4 1); [simpl; set_solver|done].
Defined.

Lemma prend_refuse_ssi_witness :
  ~ exists a, 0 <= a /\ aligne a 3 = true
    /\ forall p, a <= p < a + taille 3 -> en_liste (alloc systeme_servi) p.
Proof.
  apply (prend_refuse_ssi 6 bitmap_ex (∅ : gmap Z Z) systeme_servi 3 ltac:(lia) servi_atteint).
  - unfold ORDRES. lia.
  - vm_compute. reflexivity.
Defined.

Lemma prend_rend_inverse_witness :
  exists c2 t2, rend servi_ex.1.1 servi_ex.1.2 4 1 = (c2, t2, true)
    /\ disponibles c2 = 6 /\ forall p, en_liste c2 p <-> en_liste nourri_ex.1 p.
Proof.
  destruct (prend_rend_inverse 6 bitmap_ex (∅ : gmap Z Z) systeme_nourri 1 servi_ex.1.1
    servi_ex.1.2 4 ltac:(lia) nourri_atteint ltac:(lia)) as (c2 & t2 & E & Hd & Hp).
  - vm_compute. reflexivity.
  - exists c2, t2. split; [exact E|]. split; [|exact Hp]. rewrite Hd. vm_compute. reflexivity.
Defined.

(** A double free goes unseen when the block has merged since: in a zone of two
    elementary blocks, freeing both and then the second again is accepted, three blocks
    are then counted free, and two later allocations are served overlapping blocks. *)
Theorem double_liberation_invisible :
  exists c0 c1 c2 c3 c4 c5 (t1 t2 t3 t4 t5 : gmap Z Z),
    neuf 2 bitmap_ex = Some c0
    /\ rend c0 ∅ 0 0 = (c1, t1, true) /\ rend c1 t1 1 0 = (c2, t2, true)
    /\ rend c2 t2 1 0 = (c3, t3, true) /\ disponibles c3 = 3
    /\ prend c3 t3 0 = (c4, t4, Some 1) /\ prend c4 t4 1 = (c5, t5, Some 0).
Proof.
  eexists _, _, _, _, _, _, _, _, _, _, _.
  split; [vm_compute; reflexivity|].
  split; [vm_compute; reflexivity|].
  split; [vm_compute; reflexivity|].
  split; [vm_compute; reflexivity|].
  split; [vm_compute; reflexivity|].
  split; [vm_compute; reflexivity|].
  vm_compute. reflexivity.
Qed.

End CompagnonTrace.
