(* ===== verification/PagesTas.v ===== *)
(** The page allocator of the kernel heap, [src/kernel/memory/pages_tas.rs]: the buddy
    allocator over the heap's arena, whose first pages hold the bitmap. The module's
    statics are the record [Tas]; the link of a free page is the word at its first
    address. [None] as the result of a function is the overflow check of an addition, which
    stops the kernel. *)

From S2P Require Import Prelude Compagnon CompagnonBits CompagnonProofs CompagnonTrace.
Import Compagnon CompagnonBits CompagnonInv CompagnonProofs CompagnonTrace.

Module PagesTas.

Definition PAGE : Z := 4096.

(** ** The terrain *)

Record TerrainVirtuel := mk_terrain { t_base : Z; t_mem : gmap Z Z }.

#[export] Instance Terrain_virtuel : Terrain TerrainVirtuel := {
  lien t b := default 0 (t_mem t !! (t_base t + b * PAGE));
  pose_lien t b s := mk_terrain (t_base t) (<[t_base t + b * PAGE := s]> (t_mem t))
}.
#[export] Instance Terrain_virtuel_lois : TerrainLois TerrainVirtuel.
Proof.
  split; intros; simpl; [by rewrite lookup_insert_eq|].
  rewrite lookup_insert_ne; [done|]. unfold PAGE. lia.
Qed.

(** ** State *)

Record Etat := mk_etat {
  compagnon : Compagnon;
  terrain : TerrainVirtuel;
  base : Z;
  blocs : Z
}.

Record Tas := mk_tas {
  ETAT : option Etat;
  CONFIGURE : bool;
  BASE : Z;
  FIN : Z;
  PAGES_SERVIES : Z;
  PAGES_RENDUES : Z;
  REFUS : Z;
  PIC_PAGES : Z;
  EN_SERVICE : Z
}.

Definition tas_initial : Tas := mk_tas None false 0 0 0 0 0 0 0.

(** [x & !(PAGE - 1)] *)
Definition tronque (x : Z) : Z := Z.land x (Z.lxor (u64_max - 1) (PAGE - 1)).

(** ** Configuration *)

(** The largest order, from [ordre] down, of an aligned block at [position]. *)
Fixpoint plus_gros (fuel : nat) (position blocs ordre : Z) : Z :=
  match fuel with
  | O => ordre
  | S fuel =>
      if aligne position ordre && (position + taille ordre <=? blocs) then ordre
      else if ordre =? 0 then ordre
      else plus_gros fuel position blocs (ordre - 1)
  end.

Fixpoint alimente (fuel : nat) (c : Compagnon) (t : TerrainVirtuel) (position blocs : Z)
  : Compagnon * TerrainVirtuel * bool :=
  match fuel with
  | O => (c, t, true)
  | S fuel =>
      if position <? blocs then
        let ordre := plus_gros (Z.to_nat ORDRES) position blocs (ORDRES - 1) in
        match rend c t position ordre with
        | (c, t, true) => alimente fuel c t (position + taille ordre) blocs
        | (c, t, false) => (c, t, false)
        end
      else (c, t, true)
  end.

(** [mem] is the memory the region is part of; zeroing the bitmap's pages is the
    [fill] of [neuf]. *)
Definition configure (s : Tas) (mem : gmap Z Z) (debut octets : Z) : option (Tas * bool) :=
  if CONFIGURE s then Some (s, false)
  else if (u64_max <=? debut + PAGE) || (u64_max <=? debut + octets) then None
  else
    let debut_aligne := tronque (debut + (PAGE - 1)) in
    let fin := tronque (debut + octets) in
    Some (if fin <=? debut_aligne then (s, false)
    else
      let pages_totales := (fin - debut_aligne) / PAGE in
      if pages_totales <? 16 then (s, false)
      else
        let mots := mots_bitmap pages_totales in
        let pages_bitmap := (mots * 8 + PAGE - 1) / PAGE in
        if pages_totales <=? pages_bitmap + 4 then (s, false)
        else
          let base := debut_aligne + pages_bitmap * PAGE in
          let blocs := (fin - base) / PAGE in
          match neuf blocs (replicate (Z.to_nat mots) 0) with
          | None => (s, false)
          | Some allocateur =>
              match alimente (Z.to_nat blocs) allocateur (mk_terrain base mem) 0 blocs with
              | (_, _, false) => (s, false)
              | (allocateur, terrain, true) =>
                  (mk_tas (Some (mk_etat allocateur terrain base blocs)) true base
                     (base + blocs * PAGE) (PAGES_SERVIES s) (PAGES_RENDUES s) (REFUS s)
                     (PIC_PAGES s) (EN_SERVICE s), true)
              end
          end).

Definition nous_appartient (s : Tas) (adresse : Z) : bool :=
  negb (BASE s =? 0) && (BASE s <=? adresse) && (adresse <? FIN s).

(** ** Allocating and freeing pages *)

Definition note_refus (s : Tas) : Tas :=
  mk_tas (ETAT s) (CONFIGURE s) (BASE s) (FIN s) (PAGES_SERVIES s) (PAGES_RENDUES s)
    (wrapping_add64 (REFUS s) 1) (PIC_PAGES s) (EN_SERVICE s).
Definition set_etat (s : Tas) (e : Etat) : Tas :=
  mk_tas (Some e) (CONFIGURE s) (BASE s) (FIN s) (PAGES_SERVIES s) (PAGES_RENDUES s)
    (REFUS s) (PIC_PAGES s) (EN_SERVICE s).
Definition note_service (s : Tas) (servies : Z) : option Tas :=
  let en_service := EN_SERVICE s + servies in
  if u64_max <=? en_service then None
  else Some (mk_tas (ETAT s) (CONFIGURE s) (BASE s) (FIN s) (wrapping_add64 (PAGES_SERVIES s) servies)
    (PAGES_RENDUES s) (REFUS s) (Z.max (PIC_PAGES s) en_service) en_service).
Definition note_retour (s : Tas) (rendues : Z) : Tas :=
  mk_tas (ETAT s) (CONFIGURE s) (BASE s) (FIN s) (PAGES_SERVIES s)
    (wrapping_add64 (PAGES_RENDUES s) rendues) (REFUS s) (PIC_PAGES s)
    (EN_SERVICE s - Z.min rendues (EN_SERVICE s)).

(** [(octets + PAGE - 1) / PAGE], once [octets + PAGE] is known not to overflow. *)
Definition pages_de (octets : Z) : Z := (octets + PAGE - 1) / PAGE.

Definition alloue (s : Tas) (octets : Z) : option (Tas * option Z) :=
  if (octets =? 0) || negb (CONFIGURE s) then Some (s, None)
  else if u64_max <=? octets + PAGE then None
  else
    let pages := pages_de octets in
    let ordre := ordre_pour pages in
    if taille ordre <? pages then Some (note_refus s, None)
    else match ETAT s with
    | None => Some (s, None)
    | Some e =>
        match prend (compagnon e) (terrain e) ordre with
        | (c, t, None) => Some (note_refus (set_etat s (mk_etat c t (base e) (blocs e))), None)
        | (c, t, Some bloc) =>
            match note_service (set_etat s (mk_etat c t (base e) (blocs e))) (taille ordre) with
            | Some s' => Some (s', Some (base e + bloc * PAGE))
            | None => None
            end
        end
    end.

Definition libere (s : Tas) (adresse octets : Z) : option Tas :=
  if (octets =? 0) || negb (nous_appartient s adresse) then Some (note_refus s)
  else match ETAT s with
  | None => Some s
  | Some e =>
      if (adresse <? base e) || negb ((adresse - base e) mod PAGE =? 0) then Some (note_refus s)
      else
        let bloc := (adresse - base e) / PAGE in
        if blocs e <=? bloc then Some (note_refus s)
        else if u64_max <=? octets + PAGE then None
        else
          let pages := pages_de octets in
          let ordre := ordre_pour pages in
          Some (if taille ordre <? pages then note_refus s
                else match rend (compagnon e) (terrain e) bloc ordre with
                     | (c, t, false) => note_refus (set_etat s (mk_etat c t (base e) (blocs e)))
                     | (c, t, true) =>
                         note_retour (set_etat s (mk_etat c t (base e) (blocs e))) (taille ordre)
                     end)
  end.

Definition plus_grand_contigu (s : Tas) : Z :=
  match ETAT s with
  | Some e => match plus_grand_ordre (compagnon e) with
              | Some ordre => taille ordre * PAGE
              | None => 0
              end
  | None => 0
  end.

End PagesTas.

(** Correctness of the heap's page allocator, by simulation with the buddy allocator's
    client system of [CompagnonTrace]. *)

Import Compagnon CompagnonBits CompagnonInv CompagnonProofs CompagnonTrace PagesTas.

Module PagesTasProofs.

#[local] Abbreviation cblocs := Compagnon.blocs.
#[local] Abbreviation pblocs := PagesTas.blocs.

(** ** Rounding *)

Lemma tronque_spec x : 0 <= x < u64_max -> tronque x = x / PAGE * PAGE.
Proof.
  intros Hx. transitivity (Z.ldiff x (Z.ones 12)).
  - unfold tronque. apply Z.bits_inj'. intros i Hi.
    rewrite Z.land_spec, Z.lxor_spec, ones64_testbit, Z.ldiff_spec by lia.
    change (PAGE - 1) with (Z.ones 12). rewrite Z.testbit_ones by lia.
    rewrite (proj2 (Z.leb_le 0 i)) by lia. simpl.
    destruct (Z.ltb_spec i 64); [done|].
    rewrite (proj2 (proj1 (mot_bits 64 x ltac:(lia)) Hx) i) by lia. done.
  - rewrite Z.ldiff_ones_r, Z.shiftr_div_pow2, Z.shiftl_mul_pow2 by lia. done.
Qed.

Lemma pages_de_spec o :
  0 < o < 2 ^ 63 -> 0 < pages_de o /\ o <= pages_de o * PAGE < o + PAGE.
Proof.
  intros Ho. unfold pages_de. replace (o + PAGE - 1) with (o + (4096 - 1)) by (unfold PAGE; lia).
  unfold PAGE. pose proof (Z.div_mod (o + (4096 - 1)) 4096 ltac:(lia)).
  pose proof (Z.mod_pos_bound (o + (4096 - 1)) 4096 ltac:(lia)). lia.
Qed.

(** ** Feeding the allocator *)

Lemma plus_gros_spec fuel pos n k :
  0 <= pos < n -> 0 <= k -> k < Z.of_nat fuel ->
  let r := plus_gros fuel pos n k in
  0 <= r <= k /\ au_pas pos r /\ pos + taille r <= n.
Proof.
  intros Hp. revert k. induction fuel as [|fuel IH]; intros k Hk Hf; [lia|]. simpl.
  destruct (aligne pos k && (pos + taille k <=? n)) eqn:E.
  - bool_prop. apply aligne_spec in H; [|done]. split_and!; lia || done.
  - destruct (Z.eqb_spec k 0) as [->|].
    + split_and!; [lia..|apply au_pas_0|]. change (taille 0) with 1. lia.
    + destruct (IH (k - 1)) as (? & ? & ?); [lia..|]. split_and!; lia || done.
Qed.

Lemma alimente_spec fuel n bitmap t0 (s : Systeme (T := TerrainVirtuel)) pos B :
  0 <= n <= 2 ^ 52 -> atteint n bitmap t0 s -> t_base (memoire s) = B -> vivants s = ∅ ->
  (forall p, donnees s p <-> 0 <= p < pos) -> 0 <= pos <= n -> n - pos <= Z.of_nat fuel ->
  exists s', alimente fuel (alloc s) (memoire s) pos n = (alloc s', memoire s', true)
    /\ atteint n bitmap t0 s' /\ t_base (memoire s') = B /\ vivants s' = ∅
    /\ forall p, donnees s' p <-> 0 <= p < n.
Proof.
  intros Hn. revert s pos.
  induction fuel as [|fuel IH]; intros s pos Ha Hb Hv Hd Hpos Hf; cbn [alimente].
  { assert (pos = n) as -> by lia. eauto 10. }
  destruct (Z.ltb_spec pos n); [|assert (pos = n) as -> by lia; eauto 10].
  destruct (plus_gros_spec (Z.to_nat ORDRES) pos n (ORDRES - 1)) as (H1 & H2 & H3);
    [lia|unfold ORDRES; lia..|].
  set (k := plus_gros (Z.to_nat ORDRES) pos n (ORDRES - 1)) in *.
  pose proof (taille_pos k ltac:(lia)).
  destruct (atteint_sain _ _ _ _ Hn Ha) as [F HS].
  assert (hors F pos k) as Hh.
  { apply hors_pages; [lia|]. intros p Hp Hl. unfold etendue in Hp.
    assert (donnees s p) as Hdp by (apply (sn_partage _ _ _ HS); auto). apply Hd in Hdp. lia. }
  destruct (rend_succes _ _ F pos k (sn_inv _ _ _ HS)) as (c1 & t1 & F1 & E & _);
    [unfold ordre_ok; lia|rewrite (sn_blocs _ _ _ HS); split_and!; done || lia|done|].
  pose proof (rend_stable (fun t => t_base t = B) (fun t b s Ht => Ht) (alloc s) (memoire s)
                pos k Hb) as Hb1.
  rewrite E in *. simpl in Hb1.
  apply (IH (mk_systeme c1 t1 (vivants s) (fun p => donnees s p \/ etendue pos k p))
            (pos + taille k)); [|done|done| |lia|lia].
  - eapply suite; [done|]. apply (donne s pos k c1 t1 true); [lia|lia| |done].
    intros p Hp Hdp. apply Hd in Hdp. unfold etendue in Hp. lia.
  - intros p. simpl. rewrite Hd. unfold etendue. lia.
Qed.

(** ** The system and its simulation *)

(** Live allocations are pairs of an address and the number of bytes asked for. *)
Inductive tas_atteint : Tas -> gset (Z * Z) -> Prop :=
| t_configure mem debut octets s :
    0 < debut -> 0 <= octets -> debut + octets + PAGE < u64_max ->
    configure tas_initial mem debut octets = Some (s, true) -> tas_atteint s ∅
| t_alloue s v octets s' a :
    tas_atteint s v -> 0 <= octets < 2 ^ 63 -> alloue s octets = Some (s', Some a) ->
    tas_atteint s' ({[(a, octets)]} ∪ v)
| t_refuse s v octets s' :
    tas_atteint s v -> 0 <= octets < 2 ^ 63 -> alloue s octets = Some (s', None) ->
    tas_atteint s' v
| t_libere s v a octets s' :
    tas_atteint s v -> (a, octets) ∈ v -> libere s a octets = Some s' ->
    tas_atteint s' (v ∖ {[(a, octets)]})
| t_ecrit s v e mem' :
    (* the owners write inside their allocations *)
    tas_atteint s v -> ETAT s = Some e ->
    (forall x, (forall a o, (a, o) ∈ v -> ~ (a <= x < a + o)) ->
       mem' !! x = t_mem (terrain e) !! x) ->
    tas_atteint (set_etat s (mk_etat (compagnon e) (mk_terrain (t_base (terrain e)) mem')
                               (base e) (pblocs e))) v.

Definition ordre_de (octets : Z) : Z := ordre_pour (pages_de octets).

(** A state of the page allocator simulated by a state of the buddy allocator's system. *)
Record Simule (s : Tas) (v : gset (Z * Z)) (e : Etat) (sys : Systeme (T := TerrainVirtuel))
  : Prop := {
  m_etat : ETAT s = Some e;
  m_configure : CONFIGURE s = true;
  m_base : BASE s = base e;
  m_fin : FIN s = base e + pblocs e * PAGE;
  m_pos : 0 < base e;
  m_page : base e mod PAGE = 0;
  m_blocs : 0 < pblocs e <= 2 ^ 52;
  m_alloc : compagnon e = alloc sys;
  m_terrain : terrain e = memoire sys;
  m_tbase : t_base (terrain e) = base e;
  m_atteint : exists bitmap t0, atteint (pblocs e) bitmap t0 sys;
  m_donnees p : donnees sys p <-> 0 <= p < pblocs e;
  m_vivants b k : (b, k) ∈ vivants sys
    <-> exists o, (base e + b * PAGE, o) ∈ v /\ k = ordre_de o;
  m_octets a o : (a, o) ∈ v -> 0 < o < 2 ^ 63 /\ pages_de o <= taille (ordre_de o)
                              /\ exists b, a = base e + b * PAGE;
  m_unique a o o' : (a, o) ∈ v -> (a, o') ∈ v -> o = o'
}.

(** The bounds of a successful configuration. *)
Lemma configure_spec mem debut octets :
  0 < debut -> 0 <= octets -> debut + octets + PAGE < u64_max ->
  let da := tronque (debut + (PAGE - 1)) in let fin := tronque (debut + octets) in
  let pt := (fin - da) / PAGE in
  let pb := (mots_bitmap pt * 8 + PAGE - 1) / PAGE in
  match configure tas_initial mem debut octets with
  | None => False
  | Some (s, true) => da < fin /\ 16 <= pt /\ pb + 4 < pt /\ debut <= da /\ fin <= debut + octets
      /\ exists e sys, Simule s ∅ e sys /\ base e = da + pb * PAGE
           /\ base e + pblocs e * PAGE = fin /\ mots_bitmap pt * 8 <= pb * PAGE
  | Some (s, false) => s = tas_initial /\ ~ (da < fin /\ 16 <= pt /\ pb + 4 < pt)
  end.
Proof.
  intros Hd Ho Hu da fin pt pb. unfold configure. cbn [CONFIGURE tas_initial].
  rewrite !(proj2 (Z.leb_gt _ _)) by (unfold PAGE in *; lia). cbn [orb]. fold da fin.
  assert (da = (debut + (PAGE - 1)) / PAGE * PAGE) as Eda
    by (apply tronque_spec; unfold PAGE in *; lia).
  assert (fin = (debut + octets) / PAGE * PAGE) as Efin by (apply tronque_spec; unfold PAGE in *; lia).
  assert (debut <= da < debut + PAGE /\ fin <= debut + octets) as [Hda Hfin].
  { unfold PAGE in *. pose proof (Z.div_mod (debut + (4096 - 1)) 4096 ltac:(lia)).
    pose proof (Z.mod_pos_bound (debut + (4096 - 1)) 4096 ltac:(lia)).
    pose proof (Z.div_mod (debut + octets) 4096 ltac:(lia)).
    pose proof (Z.mod_pos_bound (debut + octets) 4096 ltac:(lia)). lia. }
  destruct (Z.leb_spec fin da); [split; [done|lia]|]. fold pt.
  destruct (Z.ltb_spec pt 16); [split; [done|lia]|]. fold pb.
  destruct (Z.leb_spec pt (pb + 4)); [split; [done|lia]|].
  set (qd := (debut + (PAGE - 1)) / PAGE) in *. set (qf := (debut + octets) / PAGE) in *.
  assert (pt = qf - qd) as Ept.
  { unfold pt. rewrite Eda, Efin, <-Z.mul_sub_distr_r. by apply Z.div_mul. }
  set (n := (fin - (da + pb * PAGE)) / PAGE).
  assert (n = pt - pb) as En.
  { unfold n. rewrite Efin, Eda. replace (_ * PAGE - _) with ((pt - pb) * PAGE) by lia.
    by apply Z.div_mul. }
  assert (0 <= mots_bitmap pt * 8 <= pb * PAGE) as Hmots.
  { unfold pb, mots_bitmap, ORDRES, PAGE in *.
    assert (0 <= (pt + 63) / 64) by (apply Z.div_pos; lia).
    set (x := (16 + 1) * ((pt + 63) / 64) * 8) in *.
    pose proof (Z.div_mod (x + 4096 - 1) 4096 ltac:(lia)).
    pose proof (Z.mod_pos_bound (x + 4096 - 1) 4096 ltac:(lia)). lia. }
  assert (0 <= pb) as Hpb by (unfold PAGE in *; lia).
  assert (0 < n <= 2 ^ 52) as Hn by (unfold u64_max, PAGE in *; lia).
  destruct (neuf n (replicate (Z.to_nat (mots_bitmap pt)) 0)) as [c0|] eqn:Eneuf.
  2: { exfalso. unfold neuf in Eneuf. rewrite length_replicate in Eneuf.
       destruct (Z.eqb_spec n 0); [lia|]. simpl in Eneuf.
       destruct (Z.ltb_spec (Z.of_nat (Z.to_nat (mots_bitmap pt))) (mots_bitmap n)) as [Hlt|];
         [|done].
       assert (mots_bitmap n <= mots_bitmap pt); [|lia].
       unfold mots_bitmap, ORDRES. apply Z.mul_le_mono_nonneg_l; [lia|].
       apply Z.div_le_mono; lia. }
  set (B := da + pb * PAGE) in *. set (t0 := mk_terrain B mem).
  destruct (alimente_spec (Z.to_nat n) n (replicate (Z.to_nat (mots_bitmap pt)) 0) t0 (mk_systeme c0 t0 ∅ (fun _ => False)) 0 B)
    as (sys & Eal & Ha & Htb & Hv & Hdon); try done; try lia.
  { by apply depart. } { simpl. lia. }
  simpl in Eal. rewrite Eal. split_and!; try lia.
  exists (mk_etat (alloc sys) (memoire sys) B n), sys. split_and!; try done; simpl.
  - split; simpl; try done; try lia; eauto.
    + unfold B. rewrite Eda, <-Z.mul_add_distr_r. by apply Z.mod_mul.
    + intros b k. rewrite Hv. split; [set_solver|]. intros (o & Hin & _). set_solver.
  - unfold B. rewrite En, Efin, Eda. unfold PAGE. lia.
  - lia.
Qed.

Lemma ordre_de_ok o : ordre_ok (ordre_de o).
Proof. unfold ordre_de. by destruct (ordre_pour_spec (pages_de o)) as (? & _ & _). Qed.

Lemma adresse_inj e b b' : base e + b * PAGE = base e + b' * PAGE -> b = b'.
Proof. unfold PAGE. lia. Qed.

Lemma simule_prend s v e sys k c' t' r :
  Simule s v e sys -> prend (compagnon e) (terrain e) k = (c', t', r) -> t_base t' = base e.
Proof.
  intros HM E.
  pose proof (prend_stable (fun t => t_base t = base e) (fun t b s Ht => Ht) (compagnon e)
                (terrain e) k (m_tbase _ _ _ _ HM)) as Hb. by rewrite E in Hb.
Qed.

Lemma simule_alloue s v e sys o s' a :
  Simule s v e sys -> 0 <= o < 2 ^ 63 -> alloue s o = Some (s', Some a) ->
  exists e' sys', Simule s' ({[(a, o)]} ∪ v) e' sys'.
Proof.
  intros HM Ho E. unfold alloue in E. rewrite (m_configure _ _ _ _ HM), (m_etat _ _ _ _ HM) in E.
  destruct (Z.eqb_spec o 0); [done|]. cbn [orb negb] in E.
  destruct (u64_max <=? o + PAGE); [done|]. fold (ordre_de o) in E.
  destruct (Z.ltb_spec (taille (ordre_de o)) (pages_de o)); [done|].
  destruct (prend (compagnon e) (terrain e) (ordre_de o)) as [[c' t'] [b|]] eqn:Ep; [|done].
  unfold note_service in E. destruct (u64_max <=? _); [done|]. simplify_eq.
  pose proof (simule_prend _ _ _ _ _ _ _ _ HM Ep) as Htb.
  pose proof (ordre_de_ok o) as Hk. destruct HM as [M1 M2 M3 M4 M5 Mp M6 M7 M8 M9 M10 M11 M12 M13 M14].
  rewrite M7, M8 in Ep. destruct M10 as (bitmap & t0 & Ha).
  exists (mk_etat c' t' (base e) (pblocs e)),
    (mk_systeme c' t' ({[(b, ordre_de o)]} ∪ vivants sys) (donnees sys)).
  assert (forall o', (base e + b * PAGE, o') ∉ v) as Hneuf.
  { intros o' Hin. destruct (atteint_sain (pblocs e) _ _ _ ltac:(lia) Ha) as [F HS].
    pose proof (prend_spec _ _ F _ (sn_inv _ _ _ HS) (proj1 Hk)) as Hs. rewrite Ep in Hs.
    destruct Hs as [F' HA]. pose proof (taille_pos _ (proj1 Hk)).
    apply (sn_exclus _ _ _ HS b).
    - apply (a_libre _ _ _ _ _ _ _ _ HA). unfold etendue. lia.
    - exists b, (ordre_de o'). split; [apply M12; eauto|]. unfold etendue.
      pose proof (taille_pos _ (proj1 (ordre_de_ok o'))). lia. }
  split; simpl; try done.
  - exists bitmap, t0. eapply suite; [exact Ha|]. by apply CompagnonTrace.alloue; [apply Hk|].
  - intros b' k'. rewrite elem_of_union, elem_of_singleton, M12. split.
    + intros [?|(o' & Hin & ->)]; [simplify_eq; exists o|exists o']; set_solver.
    + intros (o' & Hin & ->). apply elem_of_union in Hin as [Hin|Hin]; [left|right; eauto].
      apply elem_of_singleton in Hin. injection Hin as Hb ->.
      apply adresse_inj in Hb as ->. done.
  - intros a o' Hin. apply elem_of_union in Hin as [Hin|Hin]; [|by apply M13].
    apply elem_of_singleton in Hin. simplify_eq. split_and!; [lia..|]. eauto.
  - intros a o1 o2 H1 H2.
    apply elem_of_union in H1 as [H1|H1]; apply elem_of_union in H2 as [H2|H2];
      try (apply elem_of_singleton in H1; simplify_eq);
      try (apply elem_of_singleton in H2; simplify_eq); try done.
    + by apply Hneuf in H2.
    + by apply Hneuf in H1.
    + by apply (M14 a).
Qed.

Lemma simule_refuse s v e sys o s' :
  Simule s v e sys -> 0 <= o < 2 ^ 63 -> alloue s o = Some (s', None) ->
  exists e' sys', Simule s' v e' sys'.
Proof.
  intros HM Ho E. unfold alloue in E. pose proof HM as HM'.
  rewrite (m_configure _ _ _ _ HM), (m_etat _ _ _ _ HM) in E.
  destruct (Z.eqb_spec o 0); cbn [orb negb] in E; [simplify_eq; eauto|].
  destruct (u64_max <=? o + PAGE); [done|]. fold (ordre_de o) in E.
  destruct (Z.ltb_spec (taille (ordre_de o)) (pages_de o)).
  { simplify_eq. exists e, sys. split; apply HM. }
  destruct (prend (compagnon e) (terrain e) (ordre_de o)) as [[c' t'] [b|]] eqn:Ep;
    [by destruct (note_service _ _)|]. simplify_eq. pose proof (simule_prend _ _ _ _ _ _ _ _ HM Ep) as Htb.
  pose proof (ordre_de_ok o) as Hk. destruct HM as [M1 M2 M3 M4 M5 Mp M6 M7 M8 M9 M10 M11 M12 M13 M14].
  rewrite M7, M8 in Ep. destruct M10 as (bitmap & t0 & Ha).
  exists (mk_etat c' t' (base e) (pblocs e)), (mk_systeme c' t' (vivants sys) (donnees sys)).
  split; simpl; try done. exists bitmap, t0. eapply suite; [exact Ha|].
  by apply (refuse sys (ordre_de o)); [apply Hk|].
Qed.

(** Freeing a live allocation always reaches the buddy allocator, which accepts it. *)
Lemma libere_vivant s v e sys a o :
  Simule s v e sys -> (a, o) ∈ v ->
  exists b c' t', a = base e + b * PAGE /\ (b, ordre_de o) ∈ vivants sys
    /\ rend (alloc sys) (memoire sys) b (ordre_de o) = (c', t', true) /\ t_base t' = base e
    /\ libere s a o = Some (note_retour (set_etat s (mk_etat c' t' (base e) (pblocs e)))
                        (taille (ordre_de o))).
Proof.
  intros HM Hin. destruct (m_octets _ _ _ _ HM a o Hin) as (Ho & Hpg & b & ->).
  assert ((b, ordre_de o) ∈ vivants sys) as Hv by (apply (m_vivants _ _ _ _ HM); eauto).
  destruct (m_atteint _ _ _ _ HM) as (bitmap & t0 & Ha).
  pose proof (m_blocs _ _ _ _ HM) as Hn.
  destruct (atteint_sain (pblocs e) _ _ _ ltac:(lia) Ha) as [F HS].
  destruct (sn_loge _ _ _ HS _ _ Hv) as (Hk & Hb0 & _ & Hbn).
  pose proof (taille_pos _ (proj1 Hk)) as Ht.
  destruct (rend (alloc sys) (memoire sys) b (ordre_de o)) as [[c' t'] r] eqn:E.
  destruct (sain_libere _ _ F _ _ _ _ _ HS Hv E) as [-> _].
  exists b, c', t'. split_and!; try done.
  - pose proof (rend_stable (fun t => t_base t = base e) (fun t b s Ht => Ht) (compagnon e)
                  (terrain e) b (ordre_de o) (m_tbase _ _ _ _ HM)) as Hb.
    rewrite (m_alloc _ _ _ _ HM), (m_terrain _ _ _ _ HM), E in Hb. done.
  - unfold libere, nous_appartient. rewrite (m_etat _ _ _ _ HM), (m_base _ _ _ _ HM),
      (m_fin _ _ _ _ HM). pose proof (m_pos _ _ _ _ HM).
    rewrite (proj2 (Z.eqb_neq o 0)), (proj2 (Z.eqb_neq (base e) 0)) by lia.
    rewrite (proj2 (Z.leb_le _ _)), (proj2 (Z.ltb_lt _ _)) by (unfold PAGE; lia). simpl.
    rewrite (proj2 (Z.ltb_ge _ _)) by (unfold PAGE; lia). simpl.
    replace (base e + b * PAGE - base e) with (b * PAGE) by lia.
    rewrite Z.mod_mul, Z.div_mul by done. simpl.
    rewrite (proj2 (Z.leb_gt _ _)) by lia.
    rewrite (proj2 (Z.leb_gt _ _)) by (unfold u64_max, PAGE; lia). fold (ordre_de o).
    rewrite (proj2 (Z.ltb_ge _ _)) by lia.
    by rewrite (m_alloc _ _ _ _ HM), (m_terrain _ _ _ _ HM), E.
Qed.

Lemma simule_libere s v e sys a o s' :
  Simule s v e sys -> (a, o) ∈ v -> libere s a o = Some s' ->
  exists e' sys', Simule s' (v ∖ {[(a, o)]}) e' sys'.
Proof.
  intros HM Hin. destruct (libere_vivant _ _ _ _ _ _ HM Hin) as (b & c' & t' & -> & Hv & E & Htb & ->).
  intros [= <-].
  destruct HM as [M1 M2 M3 M4 M5 Mp M6 M7 M8 M9 M10 M11 M12 M13 M14].
  destruct M10 as (bitmap & t0 & Ha).
  exists (mk_etat c' t' (base e) (pblocs e)),
    (mk_systeme c' t' (vivants sys ∖ {[(b, ordre_de o)]}) (donnees sys)).
  destruct (atteint_sain (pblocs e) _ _ _ ltac:(lia) Ha) as [F HS].
  split; simpl; try done.
  - exists bitmap, t0. eapply suite; [exact Ha|]. by apply (CompagnonTrace.libere sys b (ordre_de o) c' t' true).
  - intros b' k'. rewrite elem_of_difference, elem_of_singleton, M12. split.
    + intros [(o' & Hin' & ->) Hne]. exists o'. split; [|done].
      apply elem_of_difference. split; [done|]. intros Heq%elem_of_singleton.
      injection Heq as Hb ->. apply adresse_inj in Hb as ->. done.
    + intros (o' & Hin' & ->). apply elem_of_difference in Hin' as [Hin' Hne].
      split; [eauto|]. intros Heq. injection Heq as -> Hk.
      apply Hne, elem_of_singleton. f_equal. by apply (M14 (base e + b * PAGE)).
  - intros a' o' Hin'. apply M13. set_solver.
  - intros a' o1 o2 H1 H2. apply (M14 a'); set_solver.
Qed.

Lemma simule_ecrit s v e sys mem' :
  Simule s v e sys ->
  (forall x, (forall a o, (a, o) ∈ v -> ~ (a <= x < a + o)) ->
     mem' !! x = t_mem (terrain e) !! x) ->
  exists e' sys', Simule (set_etat s (mk_etat (compagnon e)
    (mk_terrain (t_base (terrain e)) mem') (base e) (pblocs e))) v e' sys'.
Proof.
  intros [M1 M2 M3 M4 M5 Mp M6 M7 M8 M9 M10 M11 M12 M13 M14] Hw.
  destruct M10 as (bitmap & t0 & Ha). eexists _, (mk_systeme (alloc sys) _ (vivants sys) (donnees sys)).
  split; simpl; try done. exists bitmap, t0. eapply suite; [exact Ha|]. apply ecrit.
  intros p Hp. simpl. rewrite Hw; [by rewrite M8|]. rewrite M9. intros a o Hin Hx.
  destruct (M13 a o Hin) as (Ho & Hpg & b & ->). apply Hp. exists b, (ordre_de o).
  split; [apply M12; eauto|]. unfold etendue. destruct (pages_de_spec o Ho) as [_ [Hle _]].
  unfold PAGE in *. lia.
Qed.

Lemma tas_atteint_simule s v :
  tas_atteint s v -> exists e sys, Simule s v e sys.
Proof.
  induction 1 as [mem d o s Hd Ho Hu E|s v o s' a _ (e & sys & HM) Ho E|s v o s' _ (e & sys & HM) Ho E
                 |s v a o s' _ (e & sys & HM) Hin E|s v e mem' _ (e' & sys & HM) Ee Hw].
  - pose proof (configure_spec mem d o Hd Ho Hu) as Hc. cbv zeta in Hc. rewrite E in Hc.
    destruct Hc as (_ & _ & _ & _ & _ & e & sys & HM & _). eauto.
  - by eapply simule_alloue.
  - by eapply simule_refuse.
  - by eapply simule_libere.
  - rewrite (m_etat _ _ _ _ HM) in Ee. simplify_eq. by eapply simule_ecrit.
Qed.

(** C36. The page allocator never serves the same byte twice: in every reachable state the
    live allocations start on a page, lie in the served range, are routed back to it by
    their address, do not overlap, and freeing any of them is accepted. *)
Theorem tas_vivants s v :
  tas_atteint s v ->
  (forall a o, (a, o) ∈ v ->
     a mod PAGE = 0 /\ BASE s <= a /\ a + o <= FIN s /\ nous_appartient s a = true
     /\ exists s', PagesTas.libere s a o = Some s' /\ REFUS s' = REFUS s)
  /\ (forall a o a' o', (a, o) ∈ v -> (a', o') ∈ v -> (a, o) <> (a', o') ->
        a + o <= a' \/ a' + o' <= a).
Proof.
  intros Hs. destruct (tas_atteint_simule s v Hs) as (e & sys & HM).
  destruct (m_atteint _ _ _ _ HM) as (bitmap & t0 & Ha). pose proof (m_blocs _ _ _ _ HM).
  destruct (atteint_sain (pblocs e) _ _ _ ltac:(lia) Ha) as [F HS].
  assert (forall a o, (a, o) ∈ v -> exists b, a = base e + b * PAGE /\ 0 <= b
    /\ (b, ordre_de o) ∈ vivants sys /\ b + taille (ordre_de o) <= pblocs e
    /\ 0 < o <= taille (ordre_de o) * PAGE) as Hv.
  { intros a o Hin. destruct (m_octets _ _ _ _ HM a o Hin) as (Ho & Hpg & b & ->).
    assert ((b, ordre_de o) ∈ vivants sys) as Hv by (apply (m_vivants _ _ _ _ HM); eauto).
    destruct (sn_loge _ _ _ HS _ _ Hv) as (_ & ? & _ & ?).
    destruct (pages_de_spec o Ho) as [_ [? _]]. exists b.
    split_and!; try done; unfold PAGE in *; lia. }
  split.
  - intros a o Hin. destruct (Hv a o Hin) as (b & -> & Hb & Hvb & Hl & Ho).
    rewrite (m_base _ _ _ _ HM), (m_fin _ _ _ _ HM).
    pose proof (m_pos _ _ _ _ HM). pose proof (m_page _ _ _ _ HM) as Hpage.
    split_and!; [by rewrite Z.mod_add|unfold PAGE in *; lia|unfold PAGE in *; lia| |].
    + unfold nous_appartient. rewrite (m_base _ _ _ _ HM), (m_fin _ _ _ _ HM).
      rewrite (proj2 (Z.eqb_neq (base e) 0)) by lia. simpl.
      apply andb_true_iff; rewrite Z.leb_le, Z.ltb_lt. unfold PAGE in *.
      pose proof (taille_pos _ (proj1 (ordre_de_ok o))). lia.
    + destruct (libere_vivant _ _ _ _ _ _ HM Hin) as (b' & c' & t' & _ & _ & _ & _ & ->).
      eauto.
  - intros a o a' o' H1 H2 Hne. destruct (Hv a o H1) as (b & -> & _ & Hvb & _ & Ho).
    destruct (Hv a' o' H2) as (b' & -> & _ & Hvb' & _ & Ho').
    assert ((b, ordre_de o) <> (b', ordre_de o')) as Hd.
    { intros Heq. injection Heq as -> Hk. apply Hne. f_equal.
      by apply (m_unique _ _ _ _ HM (base e + b' * PAGE)). }
    pose proof (sn_separes _ _ _ HS _ _ _ _ Hvb Hvb' Hd) as Hsep.
    unfold separes, PAGE in *. lia.
Qed.

(** Configuration succeeds on any region of at least eighteen pages: the served range
    lies in the region, after the pages of the bitmap, which are large enough for it,
    and every page of the range is free. *)
Theorem configure_reussit mem debut octets :
  0 < debut -> 18 * PAGE <= octets -> debut + octets + PAGE < u64_max ->
  exists s e, configure tas_initial mem debut octets = Some (s, true) /\ ETAT s = Some e
    /\ debut + 8 * mots_bitmap (pblocs e) <= BASE s /\ BASE s mod PAGE = 0
    /\ BASE s + pblocs e * PAGE = FIN s /\ FIN s <= debut + octets
    /\ 0 < pblocs e
    /\ forall p, 0 <= p < pblocs e <-> en_liste (compagnon e) p.
Proof.
  intros Hd Ho Hu. pose proof (configure_spec mem debut octets Hd ltac:(unfold PAGE in *; lia) Hu) as Hc.
  cbv zeta in Hc. set (da := tronque (debut + (PAGE - 1))) in *.
  set (fin := tronque (debut + octets)) in *. set (pt := (fin - da) / PAGE) in *.
  assert (da = (debut + (PAGE - 1)) / PAGE * PAGE) as Eda
    by (apply tronque_spec; unfold PAGE in *; lia).
  assert (fin = (debut + octets) / PAGE * PAGE) as Efin by (apply tronque_spec; unfold PAGE in *; lia).
  assert (16 <= pt) as Hpt.
  { unfold pt. apply Z.div_le_lower_bound; [done|]. rewrite Eda, Efin. unfold PAGE in *.
    pose proof (Z.div_mod (debut + (4096 - 1)) 4096 ltac:(lia)).
    pose proof (Z.mod_pos_bound (debut + (4096 - 1)) 4096 ltac:(lia)).
    pose proof (Z.div_mod (debut + octets) 4096 ltac:(lia)).
    pose proof (Z.mod_pos_bound (debut + octets) 4096 ltac:(lia)). lia. }
  assert (da < fin) as Hlt.
  { destruct (Z.ltb_spec da fin); [done|]. assert (pt <= 0); [|lia].
    unfold pt. apply Z.div_le_upper_bound; unfold PAGE in *; lia. }
  set (mots := mots_bitmap pt) in *. set (pb := (mots * 8 + PAGE - 1) / PAGE) in *.
  assert (pb + 4 < pt) as Hpb.
  { unfold pb, mots, mots_bitmap, ORDRES, PAGE. clear -Hpt.
    apply Z.lt_add_lt_sub_r. apply Z.div_lt_upper_bound; [lia|].
    pose proof (Z.div_mod (pt + 63) 64 ltac:(lia)).
    pose proof (Z.mod_pos_bound (pt + 63) 64 ltac:(lia)). lia. }
  destruct (configure tas_initial mem debut octets) as [[s [|]]|];
    [|by destruct Hc as [_ Hno]; exfalso; apply Hno|done].
  destruct Hc as (_ & _ & _ & Hda & Hfin & e & sys & HM & Eb & Ef & Hm).
  exists s, e. destruct (m_atteint _ _ _ _ HM) as (bitmap & t0 & Ha).
  pose proof (m_blocs _ _ _ _ HM) as Hn. rewrite (m_base _ _ _ _ HM), (m_fin _ _ _ _ HM).
  assert (mots_bitmap (pblocs e) <= mots) as Hmm.
  { unfold mots, mots_bitmap, ORDRES. apply Z.mul_le_mono_nonneg_l; [lia|].
    apply Z.div_le_mono; [lia|]. assert (pblocs e <= pt); [|lia].
    unfold pt. apply Z.div_le_lower_bound; [done|]. unfold PAGE in *.
    assert (0 <= pb) by (unfold pb, mots, mots_bitmap, ORDRES; apply Z.div_pos; [|lia];
      assert (0 <= (pt + 63) / 64) by (apply Z.div_pos; lia); lia). lia. }
  split_and!; try done; try lia; [apply HM|apply HM|].
  intros p. destruct (atteint_pages (pblocs e) _ _ _ ltac:(lia) Ha) as (F & HS & Hpg).
  rewrite (m_alloc _ _ _ _ HM), Hpg, <-(m_donnees _ _ _ _ HM), (sn_partage _ _ _ HS).
  split; [|auto]. intros [?|(b & k & Hv & _)]; [done|].
  apply (m_vivants _ _ _ _ HM) in Hv as (o & Hv & _). set_solver.
Qed.

(** ** Concrete runs *)

Definition tas_ex : Tas := (default (tas_initial, false) (configure tas_initial ∅ 4096 (24 * 4096))).1.
Definition tas_ex1 : Tas := (default (tas_initial, None) (PagesTas.alloue tas_ex 5000)).1.

Lemma tas_ex1_atteint : tas_atteint tas_ex1 ({[(90112, 5000)]} ∪ ∅).
Proof.
  apply (t_alloue tas_ex ∅ 5000 tas_ex1 90112); [|lia|vm_compute; reflexivity].
  apply (t_configure ∅ 4096 (24 * 4096)); [lia|lia|by vm_compute|vm_compute; reflexivity].
Qed.

Lemma tas_vivants_witness : 90112 + 5000 <= FIN tas_ex1 /\ nous_appartient tas_ex1 90112 = true.
Proof.
  destruct (tas_vivants tas_ex1 _ tas_ex1_atteint) as [H _].
  destruct (H 90112 5000) as (_ & _ & H1 & H2 & _); [set_solver|]. by split.
Defined.

Lemma configure_reussit_witness :
  exists s e, configure tas_initial ∅ 4096 (24 * 4096) = Some (s, true) /\ ETAT s = Some e
    /\ 0 < pblocs e.
Proof.
  destruct (configure_reussit ∅ 4096 (24 * 4096)) as (s & e & H1 & H2 & _ & _ & _ & _ & H3 & _);
    [lia|by vm_compute|by vm_compute|eauto].
Defined.

End PagesTasProofs.
