(* ===== verification/Vma.v ===== *)
(** Virtual memory areas, [src/kernel/memory/vma.rs]: the list of intervals a process has
    promised, in insertion order, the most recent one covering an address deciding it.

    The list is the [Vec<Vma>] of the source; the global identity counter is threaded and
    [None] is its [expect] when the identities run out. [carte] is the abstract view the
    page-fault handler has of a list: what is promised at an address. *)

From S2P Require Import Prelude.

Module Vma.

Definition PAGE_SIZE : Z := 4096.

Inductive Backing :=
| BZero
| BFile (node mapping_start file_offset file_size : Z)
| BSharedFile (node mapping_start file_offset file_size : Z)
| BFramebuffer (phys_base mapping_start phys_offset : Z).

#[export] Instance Backing_eq_dec : EqDecision Backing.
Proof. solve_decision. Defined.

Record Vma := mk_vma { id : Z; debut : Z; fin : Z; drapeaux : Z; backing : Backing }.

#[export] Instance Vma_eq_dec : EqDecision Vma.
Proof. solve_decision. Defined.

(** The [fetch_update] of the counter: the old value is the identity. *)
Definition nouvelle_identite (next : Z) : option (Z * Z) :=
  if next + 1 <? u64_max then Some (next, next + 1) else None.

Definition contient (v : Vma) (addr : Z) : bool := (debut v <=? addr) && (addr <? fin v).
Definition v_chevauche (v : Vma) (d f : Z) : bool := (debut v <? f) && (d <? fin v).

(** [value.checked_add(PAGE_SIZE - 1).map(|v| v & !(PAGE_SIZE - 1))] *)
Definition checked_add (a b : Z) : option Z := if a + b <? u64_max then Some (a + b) else None.
Definition align_up (value : Z) : option Z :=
  match checked_add value (PAGE_SIZE - 1) with Some v => Some (page_bas v) | None => None end.

(** [regions.iter().rev().find(..)] *)
Definition trouve (regions : list Vma) (addr : Z) : option Vma :=
  List.find (fun r => contient r addr) (rev regions).
Definition chevauche (regions : list Vma) (d f : Z) : bool :=
  existsb (fun r => v_chevauche r d f) regions.

Definition avec_bornes (v : Vma) (d f : Z) : Vma := mk_vma (id v) d f (drapeaux v) (backing v).

(** The pieces of a region left and right of [[d, f)], kept when they are not empty. *)
Definition garde_vma (v : Vma) : list Vma := if debut v <? fin v then [v] else [].
Definition gauche (region : Vma) (d : Z) : list Vma :=
  if debut region <? d then garde_vma (avec_bornes region (debut region) d) else [].
Definition droite (region : Vma) (f : Z) : list Vma :=
  if f <? fin region then garde_vma (avec_bornes region f (fin region)) else [].

Definition retire_un (d f : Z) (region : Vma) : list Vma :=
  if negb (v_chevauche region d f) then [region] else gauche region d ++ droite region f.
Definition retire (regions : list Vma) (d f : Z) : list Vma :=
  if f <=? d then regions else flat_map (retire_un d f) regions.

Definition remplace (regions : list Vma) (region : Vma) : list Vma :=
  retire regions (debut region) (fin region) ++ [region].
Definition overlay (regions : list Vma) (region : Vma) : list Vma := regions ++ [region].

(** [spans.sort_by_key(|span| span.0)], a stable sort. *)
Fixpoint insere_span (s : Z * Z) (l : list (Z * Z)) : list (Z * Z) :=
  match l with
  | [] => [s]
  | t :: l' => if s.1 <=? t.1 then s :: l else t :: insere_span s l'
  end.
Definition trie_spans (l : list (Z * Z)) : list (Z * Z) := foldr insere_span [] l.

Fixpoint balaye_couvre (f cursor : Z) (spans : list (Z * Z)) : bool :=
  match spans with
  | [] => false
  | (start, end_) :: spans =>
      if cursor <? start then false
      else let cursor := Z.max cursor end_ in
           if f <=? cursor then true else balaye_couvre f cursor spans
  end.
Definition couvre (regions : list Vma) (d f : Z) : bool :=
  if f <=? d then true
  else
    let spans := map (fun r => (Z.max (debut r) d, Z.min (fin r) f))
                     (List.filter (fun r => v_chevauche r d f) regions) in
    match spans with
    | [] => false
    | _ => balaye_couvre f d (trie_spans spans)
    end.

(** The middle piece of a protected region; a change of flags takes a new identity. *)
Definition milieu (next d f dr : Z) (region : Vma) : option (list Vma * Z) :=
  let dm := Z.max (debut region) d in
  let fm := Z.min (fin region) f in
  if negb (drapeaux region =? dr) then
    match nouvelle_identite next with
    | Some (n, next') => Some (garde_vma (mk_vma n dm fm dr (backing region)), next')
    | None => None
    end
  else Some (garde_vma (mk_vma (id region) dm fm dr (backing region)), next).
Fixpoint protege_boucle (next d f dr : Z) (regions : list Vma) : option (list Vma * Z) :=
  match regions with
  | [] => Some ([], next)
  | region :: regions =>
      if negb (v_chevauche region d f) then
        match protege_boucle next d f dr regions with
        | Some (l, next') => Some (region :: l, next')
        | None => None
        end
      else
        match milieu next d f dr region with
        | None => None
        | Some (m, next1) =>
            match protege_boucle next1 d f dr regions with
            | Some (l, next2) => Some (gauche region d ++ m ++ droite region f ++ l, next2)
            | None => None
            end
        end
  end.
Definition protege (next : Z) (regions : list Vma) (d f dr : Z) : option (bool * list Vma * Z) :=
  if negb (couvre regions d f) then Some (false, regions, next)
  else match protege_boucle next d f dr regions with
       | Some (l, next') => Some (true, l, next')
       | None => None
       end.

Definition saturating_add (a b : Z) : Z := Z.min (a + b) (u64_max - 1).
Definition saturating_sub (a b : Z) : Z := Z.max (a - b) 0.
Fixpoint balaye_octets (total start end_ : Z) (spans : list (Z * Z)) : Z :=
  match spans with
  | [] => saturating_add total (saturating_sub end_ start)
  | (ns, ne) :: spans =>
      if ns <=? end_ then balaye_octets total start (Z.max end_ ne) spans
      else balaye_octets (saturating_add total (saturating_sub end_ start)) ns ne spans
  end.
Definition octets_virtuels (regions : list Vma) : Z :=
  match trie_spans (map (fun r => (debut r, fin r)) regions) with
  | [] => 0
  | (start, end_) :: spans => balaye_octets 0 start end_ spans
  end.

(** The furthest end of the regions in the way of [[c, f)]. *)
Definition collision_fin (regions : list Vma) (c f : Z) : option Z :=
  fold_left (fun acc r =>
    if v_chevauche r c f
    then Some (match acc with Some v => Z.max v (fin r) | None => fin r end)
    else acc) regions None.

(** The loop of [trouve_trou]; the outer [None] is fuel running out. Each round passes at
    least one region for good, so one more round than there are regions is enough. *)
Fixpoint trou_boucle (fuel : nat) (regions : list Vma) (candidat longueur limite : Z)
  : option (option Z) :=
  match fuel with
  | O => None
  | S fuel =>
      match checked_add candidat longueur with
      | None => Some None
      | Some f =>
          if limite <? f then Some None
          else match collision_fin regions candidat f with
               | None => Some (Some candidat)
               | Some e =>
                   match checked_add e PAGE_SIZE with
                   | None => Some None
                   | Some e' => match align_up e' with
                                | None => Some None
                                | Some c => trou_boucle fuel regions c longueur limite
                                end
                   end
               end
      end
  end.
Definition trouve_trou_fuel (fuel : nat) (regions : list Vma) (depart longueur limite : Z)
  : option (option Z) :=
  match align_up depart with
  | None => Some None
  | Some c => trou_boucle fuel regions c longueur limite
  end.
Definition trouve_trou (regions : list Vma) (depart longueur limite : Z) : option Z :=
  default None (trouve_trou_fuel (S (length regions)) regions depart longueur limite).

Definition voisines_pas (addr : Z) (acc : option Vma * option Vma) (region : Vma)
  : option Vma * option Vma :=
  let (avant, apres) := acc in
  if fin region <=? addr then
    match avant with
    | Some c => if fin region <=? fin c then acc else (Some region, apres)
    | None => (Some region, apres)
    end
  else if addr <? debut region then
    match apres with
    | Some c => if debut c <=? debut region then acc else (avant, Some region)
    | None => (avant, Some region)
    end
  else acc.
Definition voisines (regions : list Vma) (addr : Z) : option Vma * option Vma :=
  fold_left (voisines_pas addr) regions (None, None).

(** ** The self test, [None] where the source panics *)

Definition PTE_PRESENT : Z := Z.shiftl 1 0.
Definition PTE_WRITE : Z := Z.shiftl 1 1.
Definition PTE_USER : Z := Z.shiftl 1 2.
Definition PTE_NO_EXEC : Z := Z.shiftl 1 63.

(** [if b { return false }] *)
Definition sinon_faux (b : bool) (k : option bool) : option bool := if b then Some false else k.
Definition id_a (regions : list Vma) (addr : Z) : option Z := id <$> trouve regions addr.

Definition self_test (next : Z) : option bool :=
  let rw := Z.lor (Z.lor (Z.lor PTE_PRESENT PTE_USER) PTE_WRITE) PTE_NO_EXEC in
  let ro := Z.lor (Z.lor PTE_PRESENT PTE_USER) PTE_NO_EXEC in
  '(i, next) ← nouvelle_identite next;
  let regions := remplace [] (mk_vma i 0x1000 0x9000 rw BZero) in
  original_id ← id_a regions 0x2000;
  let regions := retire regions 0x3000 0x5000 in
  sinon_faux (negb (couvre regions 0x1000 0x3000) || couvre regions 0x3000 0x5000
              || negb (couvre regions 0x5000 0x9000))
  (a ← id_a regions 0x2000; b ← id_a regions 0x8000;
  sinon_faux (negb (a =? original_id) || negb (b =? original_id))
  ('(ok, regions, next) ← protege next regions 0x5000 0x7000 ro;
  sinon_faux (negb ok)
  (sinon_faux (negb (bool_decide (drapeaux <$> trouve regions 0x6000 = Some ro)))
  (a ← id_a regions 0x6000;
  sinon_faux (a =? original_id)
  (sinon_faux (negb (bool_decide (drapeaux <$> trouve regions 0x8000 = Some rw)))
  (unchanged_id ← id_a regions 0x8000;
  '(ok, regions, next) ← protege next regions 0x7000 0x9000 rw;
  a ← id_a regions 0x8000;
  sinon_faux (negb ok || negb (a =? unchanged_id))
  ('(i, next) ← nouvelle_identite next;
  let regions := remplace regions (mk_vma i 0x3000 0x5000 rw BZero) in
  a ← id_a regions 0x4000;
  sinon_faux (a =? original_id)
  (sinon_faux (negb (couvre regions 0x1000 0x9000))
  (left_id ← id_a regions 0x2000;
  replacement_id ← id_a regions 0x4000;
  '(ok, regions, next) ← protege next regions 0x2000 0x4000 ro;
  a1 ← id_a regions 0x1000; a2 ← id_a regions 0x2000;
  a3 ← id_a regions 0x3000; a4 ← id_a regions 0x4000;
  sinon_faux (negb ok || negb (a1 =? left_id) || (a2 =? left_id)
              || (a3 =? replacement_id) || negb (a4 =? replacement_id))
  (Some (match trouve_trou regions 0x1000 0x1000 0x200000 with
         | Some addr => 0xA000 <=? addr
         | None => false
         end))))))))))).

(** ** The abstract view: what is promised at an address *)

Record Promesse := mk_promesse { p_id : Z; p_drapeaux : Z; p_backing : Backing }.
Definition promesse (v : Vma) : Promesse := mk_promesse (id v) (drapeaux v) (backing v).
Definition carte (regions : list Vma) (addr : Z) : option Promesse :=
  promesse <$> trouve regions addr.

(** A list the kernel can hold: 64-bit bounds and identities already drawn. *)
Definition vma_ok (next : Z) (v : Vma) : Prop :=
  0 <= debut v < fin v /\ fin v < u64_max /\ 0 <= id v < next.
Definition liste_ok (next : Z) (regions : list Vma) : Prop := Forall (vma_ok next) regions.

#[export] Instance vma_ok_dec n v : Decision (vma_ok n v).
Proof. unfold vma_ok. apply _. Defined.
#[export] Instance liste_ok_dec n l : Decision (liste_ok n l).
Proof. unfold liste_ok. apply _. Defined.

End Vma.
