(* ===== verification/VmaProofs.v ===== *)
(** The areas of a process refine a map from addresses to promises: what [Vma.retire],
    [Vma.remplace] and [Vma.protege] do to every address, that [Vma.couvre],
    [Vma.octets_virtuels] and [Vma.trouve_trou] decide, measure and search exactly. *)

From Stdlib Require Import Sorted.
From S2P Require Import Prelude Vma.

Module VmaProofs.
Import Vma.

(** ** Lookup as a prioritised union *)

Lemma trouve_app l1 l2 a :
  trouve (l1 ++ l2) a = match trouve l2 a with Some v => Some v | None => trouve l1 a end.
Proof.
  unfold trouve. rewrite rev_app_distr. induction (rev l2) as [|v l IH]; [done|].
  simpl. by destruct (contient v a).
Qed.

Lemma carte_app l1 l2 a :
  carte (l1 ++ l2) a = match carte l2 a with Some p => Some p | None => carte l1 a end.
Proof. unfold carte. rewrite trouve_app. by destruct (trouve l2 a). Qed.

Lemma carte_cons r l a :
  carte (r :: l) a = match carte l a with Some p => Some p | None => carte [r] a end.
Proof. apply (carte_app [r]). Qed.

Lemma carte_un r a : carte [r] a = if contient r a then Some (promesse r) else None.
Proof. unfold carte, trouve. simpl. by destruct (contient r a). Qed.

Lemma trouve_Some l a v : trouve l a = Some v -> v ∈ l /\ contient v a = true.
Proof.
  unfold trouve. intros H%List.find_some. rewrite <-List.in_rev, <-list_elem_of_In in H. done.
Qed.

Lemma trouve_None l a : trouve l a = None <-> forall v, v ∈ l -> contient v a = false.
Proof.
  unfold trouve. split.
  - intros H v Hv. eapply List.find_none in H; [done|].
    rewrite <-List.in_rev. by apply list_elem_of_In.
  - intros H. destruct (List.find _ _) eqn:E; [|done].
    apply List.find_some in E as [Hin Hc]. rewrite <-List.in_rev, <-list_elem_of_In in Hin.
    by rewrite H in Hc.
Qed.

Lemma trouve_is_Some l a : is_Some (trouve l a) <-> exists v, v ∈ l /\ contient v a = true.
Proof.
  split; [intros [v H]; eauto using trouve_Some|]. intros (v & Hv & Hc).
  destruct (trouve l a) eqn:E; [by eexists|]. rewrite trouve_None in E.
  by rewrite E in Hc.
Qed.

Lemma carte_flat_map g (l : list Vma) a :
  (forall r, r ∈ l -> carte (g r) a = carte [r] a) -> carte (flat_map g l) a = carte l a.
Proof.
  induction l as [|r l IH]; [done|]. intros H. cbn [flat_map].
  rewrite carte_app, (carte_cons r l), IH by set_solver. by rewrite H by set_solver.
Qed.

Lemma carte_flat_map_None g (l : list Vma) a :
  (forall r, r ∈ l -> carte (g r) a = None) -> carte (flat_map g l) a = None.
Proof.
  induction l as [|r l IH]; [done|]. intros H. cbn [flat_map].
  rewrite carte_app, IH by set_solver. by rewrite H by set_solver.
Qed.

(** ** Removal and replacement *)

Definition dans (d f a : Z) : bool := (d <=? a) && (a <? f).

Lemma carte_garde v a : carte (garde_vma v) a = carte [v] a.
Proof.
  unfold garde_vma. rewrite carte_un. unfold contient.
  zcas; rewrite ?carte_un; unfold contient; zcas; done.
Qed.

Lemma carte_gauche r d a :
  carte (gauche r d) a = if (debut r <=? a) && (a <? d) then Some (promesse r) else None.
Proof.
  unfold gauche. destruct (Z.ltb_spec (debut r) d); rewrite ?carte_garde, ?carte_un;
    unfold contient; simpl; zcas; done.
Qed.

Lemma carte_droite r f a :
  carte (droite r f) a = if (f <=? a) && (a <? fin r) then Some (promesse r) else None.
Proof.
  unfold droite. destruct (Z.ltb_spec f (fin r)); rewrite ?carte_garde, ?carte_un;
    unfold contient; simpl; zcas; done.
Qed.

Lemma carte_retire_un d f r a :
  d < f -> carte (retire_un d f r) a = if dans d f a then None else carte [r] a.
Proof.
  intros Hdf. unfold retire_un, dans, v_chevauche.
  destruct (Z.ltb_spec (debut r) f), (Z.ltb_spec d (fin r)); cbn [andb negb];
    rewrite ?carte_app, ?carte_droite, ?carte_gauche, ?carte_un; unfold contient; zcas; done.
Qed.

(** What is promised after a removal, at every address. *)
Lemma carte_retire l d f a :
  carte (retire l d f) a = if dans d f a then None else carte l a.
Proof.
  unfold retire. destruct (Z.leb_spec f d); [unfold dans; zcas; done|].
  destruct (dans d f a) eqn:E.
  - apply carte_flat_map_None. intros r _. by rewrite carte_retire_un, E by done.
  - apply carte_flat_map. intros r _. by rewrite carte_retire_un, E by done.
Qed.

Lemma carte_remplace l r a :
  carte (remplace l r) a = if contient r a then Some (promesse r) else carte l a.
Proof.
  unfold remplace. rewrite carte_app, carte_un, carte_retire.
  unfold contient, dans. zcas; done.
Qed.

Lemma carte_overlay l r a :
  carte (overlay l r) a = if contient r a then Some (promesse r) else carte l a.
Proof. unfold overlay. rewrite carte_app, carte_un. by destruct (contient r a). Qed.

(** ** Change of protection *)

Lemma milieu_carte next d f dr r m next' a :
  milieu next d f dr r = Some (m, next') ->
  next <= next' /\
  exists n, carte m a = (if contient r a && dans d f a
                         then Some (mk_promesse n dr (backing r)) else None) /\
    (if drapeaux r =? dr then n = id r else next <= n < next').
Proof.
  unfold milieu, nouvelle_identite. intros H.
  destruct (drapeaux r =? dr) eqn:Ed; cbn [negb] in H.
  - simplify_eq. split; [done|]. exists (id r). split; [|done].
    rewrite carte_garde, carte_un. unfold contient, dans. simpl. zcas; done.
  - destruct (next + 1 <? u64_max); simplify_eq. split; [lia|]. exists next. split; [|lia].
    rewrite carte_garde, carte_un. unfold contient, dans. simpl. zcas; done.
Qed.

(** A protected address keeps its backing and takes the flags; its identity is kept when
    the flags do not change and drawn from the counter otherwise. *)
Definition protegee (next next' dr : Z) (p p' : Promesse) : Prop :=
  p_drapeaux p' = dr /\ p_backing p' = p_backing p /\
  (if p_drapeaux p =? dr then p_id p' = p_id p else next <= p_id p' < next').

Lemma protegee_mono n1 n1' n2 n2' dr p p' :
  n2 <= n1 -> n1' <= n2' -> protegee n1 n1' dr p p' -> protegee n2 n2' dr p p'.
Proof. unfold protegee. intros ? ? (?&?&H). repeat split; try done. case_match; [done|lia]. Qed.

Lemma protege_boucle_carte next d f dr l l' next' a :
  protege_boucle next d f dr l = Some (l', next') ->
  next <= next' /\
  (if dans d f a
   then match carte l a with
        | Some p => exists p', carte l' a = Some p' /\ protegee next next' dr p p'
        | None => carte l' a = None
        end
   else carte l' a = carte l a).
Proof.
  revert next l' next'. induction l as [|r l IH]; intros next l' next' H.
  { simpl in H. simplify_eq. split; [done|]. by destruct (dans d f a). }
  cbn [protege_boucle] in H. destruct (v_chevauche r d f) eqn:Hv; cbn [negb] in H.
  - destruct (milieu next d f dr r) as [[m next1]|] eqn:Em; [|done].
    destruct (protege_boucle next1 d f dr l) as [[l1 next2]|] eqn:El; [|done].
    simplify_eq. apply (milieu_carte _ _ _ _ _ _ _ a) in Em as (Hm & n & Cm & Hn).
    apply IH in El as (Hl & Cl). split; [lia|].
    rewrite !carte_app, (carte_cons r l), carte_droite, carte_gauche, Cm, carte_un.
    destruct (dans d f a) eqn:Ea; [|rewrite Cl, andb_false_r].
    + rewrite andb_true_r. destruct (carte l a) as [p|].
      * destruct Cl as (p' & -> & Hp). eexists. split; [done|].
        eapply protegee_mono; [| |done]; lia.
      * rewrite Cl. unfold dans in Ea. bool_prop. destruct (contient r a) eqn:Hc.
        -- eexists. split; [zcas; done|]. unfold protegee. simpl. repeat split.
           destruct (drapeaux r =? dr); [done|lia].
        -- unfold contient in Hc. zcas; done.
    + destruct (carte l a); [done|]. unfold dans, contient, v_chevauche in *.
      revert Ea Hv. zcas; done.
  - destruct (protege_boucle next d f dr l) as [[l1 next2]|] eqn:El; [|done].
    simplify_eq. apply IH in El as (Hl & Cl). split; [done|].
    rewrite (carte_cons r l1), (carte_cons r l), carte_un. destruct (dans d f a) eqn:Ea; [|by rewrite Cl].
    destruct (carte l a) as [p|]; [destruct Cl as (p' & -> & Hp); eauto|]. rewrite Cl.
    assert (contient r a = false) as ->; [|done].
    unfold v_chevauche, contient, dans in *. revert Ea Hv. zcas; done.
Qed.

(** ** Sorting the spans *)

Definition couvert (spans : list (Z * Z)) (a : Z) : Prop :=
  exists s, s ∈ spans /\ s.1 <= a < s.2.

Lemma insere_span_elem s l x : x ∈ insere_span s l <-> x = s \/ x ∈ l.
Proof.
  induction l as [|t l IH]; simpl; [set_solver|].
  destruct (s.1 <=? t.1); rewrite ?elem_of_cons, ?IH; naive_solver.
Qed.

Lemma trie_spans_elem l x : x ∈ trie_spans l <-> x ∈ l.
Proof.
  induction l as [|s l IH]; [done|]. simpl. rewrite insere_span_elem, IH, elem_of_cons. done.
Qed.

Definition avant_span (s t : Z * Z) : Prop := s.1 <= t.1.

Lemma trie_spans_trie l : StronglySorted avant_span (trie_spans l).
Proof.
  induction l as [|s l IH]; simpl; [constructor|].
  induction IH as [|t m Hm IHm Ht]; simpl; [repeat constructor|].
  destruct (Z.leb_spec s.1 t.1).
  - constructor; [by constructor|]. constructor; [done|].
    eapply Forall_impl; [done|]. unfold avant_span. intros; lia.
  - constructor; [done|]. apply Forall_forall. intros x Hx%insere_span_elem.
    destruct Hx as [->|Hx]; [unfold avant_span; lia|]. rewrite Forall_forall in Ht. auto.
Qed.

(** ** Coverage *)

Lemma balaye_couvre_spec f cursor spans :
  StronglySorted avant_span spans -> cursor < f ->
  balaye_couvre f cursor spans = true <-> forall a, cursor <= a < f -> couvert spans a.
Proof.
  intros Hs. revert cursor. induction Hs as [|[s e] l Hl IH Ht]; intros cursor Hc; simpl.
  { split; [done|]. intros H. destruct (H cursor) as (? & ?%elem_of_nil & _); [lia|done]. }
  rewrite Forall_forall in Ht. destruct (Z.ltb_spec cursor s).
  { split; [done|]. intros H1. destruct (H1 cursor) as (t & Ht' & Hb); [lia|].
    apply elem_of_cons in Ht' as [->|Ht']; simpl in *; [lia|].
    apply Ht in Ht'. unfold avant_span in Ht'. simpl in Ht'. lia. }
  destruct (Z.leb_spec f (Z.max cursor e)).
  { split; [|done]. intros _ a Ha. exists (s, e). split; [set_solver|]. simpl. lia. }
  rewrite IH by done. split; intros H1 a Ha.
  - destruct (Z.lt_ge_cases a (Z.max cursor e)).
    + exists (s, e). split; [set_solver|]. simpl. lia.
    + destruct (H1 a) as (t & ? & ?); [lia|]. exists t. split; [set_solver|done].
  - destruct (H1 a) as (t & Hin & Hb); [lia|]. apply elem_of_cons in Hin as [->|Hin].
    + simpl in Hb. lia.
    + by exists t.
Qed.

Lemma couvre_spec l d f :
  couvre l d f = true <-> forall a, d <= a < f -> is_Some (trouve l a).
Proof.
  unfold couvre. destruct (Z.leb_spec f d). { split; [|done]. intros _ a ?. lia. }
  set (spans := map _ _).
  assert (forall a, d <= a < f -> couvert (trie_spans spans) a <-> is_Some (trouve l a)) as Hc.
  { intros a Ha. rewrite trouve_is_Some. unfold couvert, spans. split.
    - intros (s & Hs & Hb). rewrite trie_spans_elem, list_elem_of_In, in_map_iff in Hs.
      destruct Hs as (r & <- & Hr). apply filter_In in Hr as [Hr%list_elem_of_In Hv].
      exists r. split; [done|]. unfold contient. simpl in Hb. zcas.
    - intros (r & Hr & Hv). unfold contient in Hv. bool_prop.
      eexists. rewrite trie_spans_elem, list_elem_of_In, in_map_iff. split.
      + exists r. split; [done|]. apply filter_In. split; [by apply list_elem_of_In|].
        unfold v_chevauche. zcas; done.
      + simpl. lia. }
  transitivity (balaye_couvre f d (trie_spans spans) = true).
  { by destruct spans. }
  rewrite balaye_couvre_spec by (done || apply trie_spans_trie).
  split; intros H1 a Ha; apply Hc; auto.
Qed.

(** ** Size of the union *)

Definition intervalle (d f : Z) : gset Z := list_to_set (seqZ d (f - d)).

Lemma elem_of_intervalle d f a : a ∈ intervalle d f <-> d <= a < f.
Proof. unfold intervalle. rewrite elem_of_list_to_set, elem_of_seqZ. lia. Qed.

Lemma size_intervalle d f : Z.of_nat (size (intervalle d f)) = saturating_sub f d.
Proof.
  unfold intervalle, saturating_sub. rewrite size_list_to_set by apply NoDup_seqZ.
  rewrite length_seqZ. lia.
Qed.

Lemma balaye_octets_spec spans total start end_ (X : gset Z) :
  StronglySorted avant_span spans -> Forall (fun s => start <= s.1 /\ s.2 < u64_max) spans ->
  0 <= total <= start -> start < u64_max -> end_ < u64_max ->
  (forall s, s ∈ spans -> s.1 < u64_max) ->
  (forall a, a ∈ X <-> start <= a < end_ \/ couvert spans a) ->
  balaye_octets total start end_ spans = total + Z.of_nat (size X).
Proof.
  intros Hs. revert total start end_ X. induction Hs as [|[ns ne] l Hl IH Ht];
    intros total start end_ X Hb Htot Hst Hen Hsp HX; simpl.
  - assert (X = intervalle start end_) as ->.
    { apply set_eq. intros a. rewrite HX, elem_of_intervalle. unfold couvert. set_solver. }
    rewrite size_intervalle. unfold saturating_add, saturating_sub. lia.
  - apply Forall_cons in Hb as [[Hns Hne] Hb]. simpl in Hns, Hne.
    assert (ns < u64_max) by (apply (Hsp (ns, ne)); set_solver).
    assert (forall a, couvert ((ns, ne) :: l) a <-> ns <= a < ne \/ couvert l a) as Hcons.
    { intros a. unfold couvert. split.
      - intros (s & [->|?]%elem_of_cons & ?); eauto.
      - intros [?|(s & ? & ?)]; [exists (ns, ne)|exists s]; set_solver. }
    destruct (Z.leb_spec ns end_).
    + apply IH; try done; try lia; [set_solver|]. intros a. rewrite HX, Hcons.
      assert (start <= a < end_ \/ ns <= a < ne <-> start <= a < Z.max end_ ne) by lia. tauto.
    + rewrite Forall_forall in Ht.
      rewrite (IH _ _ _ (X ∖ intervalle start end_)).
      * assert (intervalle start end_ ⊆ X).
        { intros a. rewrite elem_of_intervalle, HX. tauto. }
        rewrite (size_difference X (intervalle start end_)) by done.
        pose proof (subseteq_size _ X H1). pose proof (size_intervalle start end_).
        unfold saturating_add, saturating_sub in *. lia.
      * apply Forall_forall. intros s Hin. rewrite Forall_forall in Hb.
        split; [by apply (Ht s)|]. by apply Hb.
      * unfold saturating_add, saturating_sub. lia.
      * done.
      * done.
      * set_solver.
      * intros a. rewrite elem_of_difference, HX, elem_of_intervalle, Hcons. split; [tauto|].
        intros [?|(s & Hin & ?)]; (split; [|intros ?]); try lia.
        -- right. right. by exists s.
        -- apply Ht in Hin. unfold avant_span in Hin. simpl in Hin. lia.
Qed.

(** ** Searching a hole *)

Lemma align_up_spec v c :
  0 <= v -> align_up v = Some c -> v <= c < u64_max /\ (PAGE_SIZE | c) /\
  forall x, (PAGE_SIZE | x) -> v <= x -> c <= x.
Proof.
  unfold align_up, checked_add. intros Hv H.
  destruct (Z.ltb_spec (v + (PAGE_SIZE - 1)) u64_max); simplify_eq.
  unfold PAGE_SIZE in *. rewrite page_bas_spec by lia.
  split_and!; [Z.to_euclidean_division_equations; lia..|by apply Z.divide_factor_r|].
  intros x [k ->] ?. Z.to_euclidean_division_equations; lia.
Qed.

Lemma align_up_None v x :
  align_up v = None -> (PAGE_SIZE | x) -> v <= x -> u64_max <= x.
Proof.
  unfold align_up, checked_add. intros H [k ->] Hx.
  destruct (Z.ltb_spec (v + (PAGE_SIZE - 1)) u64_max); [done|].
  unfold PAGE_SIZE, u64_max in *. lia.
Qed.

Lemma collision_fin_spec l c f :
  match collision_fin l c f with
  | None => chevauche l c f = false
  | Some e => (exists r, r ∈ l /\ v_chevauche r c f = true /\ fin r = e) /\
              (forall r, r ∈ l -> v_chevauche r c f = true -> fin r <= e)
  end.
Proof.
  unfold collision_fin, chevauche. induction l as [|r l IH] using rev_ind; [done|].
  rewrite fold_left_app, existsb_app. simpl. rewrite orb_false_r.
  destruct (fold_left _ l None) as [e|]; destruct (v_chevauche r c f) eqn:Hr.
  - destruct IH as [(r' & Hin & Hv & He) Hm]. split.
    + destruct (Z.le_ge_cases e (fin r)).
      * exists r. split_and!; [set_solver|done|lia].
      * exists r'. split_and!; [set_solver|done|lia].
    + intros x [Hx|Hx]%elem_of_app Hxv; [specialize (Hm x Hx Hxv); lia|].
      apply list_elem_of_singleton in Hx as ->. lia.
  - destruct IH as [(r' & Hin & Hv & He) Hm]. split; [exists r'; set_solver|].
    intros x [Hx|Hx]%elem_of_app Hxv; [auto|].
    apply list_elem_of_singleton in Hx as ->. congruence.
  - split; [exists r; set_solver|]. intros x [Hx|Hx]%elem_of_app Hxv.
    + assert (existsb (fun r => v_chevauche r c f) l = true) as E; [|congruence].
      apply existsb_exists. exists x. by rewrite <-list_elem_of_In.
    + apply list_elem_of_singleton in Hx as ->. lia.
  - by rewrite IH.
Qed.

(** The regions that can still be in the way of a candidate. *)
Definition devant (l : list Vma) (c : Z) : nat := length (List.filter (fun r => c <? fin r) l).

Lemma devant_le l c c' : c <= c' -> (devant l c' <= devant l c)%nat.
Proof.
  intros H. unfold devant. induction l as [|r l IH]; simpl; [done|].
  zcas; simpl; lia.
Qed.

Lemma devant_lt l c c' r :
  c <= c' -> r ∈ l -> c < fin r <= c' -> (devant l c' < devant l c)%nat.
Proof.
  intros Hc Hin Hr. induction l as [|x l IH]; [set_solver|].
  pose proof (devant_le l c c' Hc) as Hle. unfold devant in *. simpl.
  apply elem_of_cons in Hin as [->|Hin].
  - zcas; simpl; lia.
  - specialize (IH Hin). zcas; simpl; lia.
Qed.

(** A page-aligned place of [longueur] bytes at [x], its guard page included, is free. *)
Definition place (l : list Vma) (longueur limite x : Z) : Prop :=
  (PAGE_SIZE | x) /\ x + longueur <= limite /\
  chevauche l (x - PAGE_SIZE) (x + longueur) = false.

Lemma chevauche_false l d f :
  chevauche l d f = false <-> forall r, r ∈ l -> v_chevauche r d f = false.
Proof.
  unfold chevauche. rewrite <-not_true_iff_false, existsb_exists. split.
  - intros H r Hr. apply not_true_iff_false. intros Hv. apply H.
    exists r. by rewrite <-list_elem_of_In.
  - intros H (r & Hr%list_elem_of_In & Hv). by rewrite H in Hv.
Qed.

(** Passing the regions in the way of a candidate never jumps over a guarded place. *)
Lemma place_apres l longueur limite c e x :
  (forall r, r ∈ l -> 0 <= debut r) -> 0 <= longueur ->
  (exists r, r ∈ l /\ v_chevauche r c (c + longueur) = true /\ fin r = e) ->
  place l longueur limite x -> c <= x -> e + PAGE_SIZE <= x.
Proof.
  intros Hpos Hl (r & Hin & Hv & <-) (Hx & Hlim & Hfree) Hcx.
  rewrite chevauche_false in Hfree. specialize (Hfree r Hin).
  unfold v_chevauche in *. bool_prop. apply andb_false_iff in Hfree as [?|?]; bool_prop; lia.
Qed.

Definition resultat_trou (l : list Vma) (depart longueur limite : Z) (r : option Z) : Prop :=
  match r with
  | Some c => (PAGE_SIZE | c) /\ depart <= c /\ c + longueur <= limite /\
              chevauche l c (c + longueur) = false /\
              (forall x, place l longueur limite x -> depart <= x -> c <= x)
  | None => forall x, place l longueur limite x -> depart <= x -> False
  end.

Lemma trou_boucle_spec fuel l depart c longueur limite :
  (forall r, r ∈ l -> 0 <= debut r) -> 0 <= longueur -> limite < u64_max ->
  (devant l c < fuel)%nat -> 0 <= c -> (PAGE_SIZE | c) -> depart <= c ->
  (forall x, place l longueur limite x -> depart <= x -> c <= x) ->
  exists r, trou_boucle fuel l c longueur limite = Some r /\ resultat_trou l depart longueur limite r.
Proof.
  intros Hpos Hl Hlim. revert c. induction fuel as [|fuel IH]; intros c Hf H0 Hc Hd Hmin; [lia|].
  cbn [trou_boucle]. unfold checked_add at 1.
  destruct (Z.ltb_spec (c + longueur) u64_max).
  2:{ eexists; split; [done|]. intros x Hp Hx. specialize (Hmin x Hp Hx). destruct Hp as (_&?&_). lia. }
  destruct (Z.ltb_spec limite (c + longueur)).
  { eexists; split; [done|]. intros x Hp Hx. specialize (Hmin x Hp Hx). destruct Hp as (_&?&_). lia. }
  pose proof (collision_fin_spec l c (c + longueur)) as Hcol.
  destruct (collision_fin l c (c + longueur)) as [e|]; [|eexists; split; [done|]; by split_and!].
  destruct Hcol as [Hex Hmax].
  assert (forall x, place l longueur limite x -> depart <= x -> e + PAGE_SIZE <= x) as Hnext.
  { intros x Hp Hx. exact (place_apres l longueur limite c e x Hpos Hl Hex Hp (Hmin x Hp Hx)). }
  destruct Hex as (r & Hin & Hv & Hr). unfold v_chevauche in Hv. bool_prop.
  assert (0 < PAGE_SIZE) by (unfold PAGE_SIZE; lia).
  unfold checked_add. destruct (Z.ltb_spec (e + PAGE_SIZE) u64_max).
  2:{ eexists; split; [done|]. intros x Hp Hx. specialize (Hnext x Hp Hx). destruct Hp as (_&?&_). lia. }
  destruct (align_up (e + PAGE_SIZE)) as [c'|] eqn:Ea.
  2:{ eexists; split; [done|]. intros x Hp Hx. pose proof (Hnext x Hp Hx). destruct Hp as (?&?&_).
      pose proof (align_up_None _ x Ea ltac:(assumption) ltac:(assumption)). lia. }
  apply align_up_spec in Ea as ([? ?] & ? & Hle); [|lia].
  apply IH; try done; try lia.
  - assert (devant l c' < devant l c)%nat; [|lia]. eapply devant_lt; [|done|]; lia.
  - intros x Hp Hx. apply Hle; [by destruct Hp|auto].
Qed.

(** ** The operations as a trace *)

Inductive Op :=
| ORetire (d f : Z)
| ORemplace (d f dr : Z) (b : Backing)
| OOverlay (d f dr : Z) (b : Backing)
| OProtege (d f dr : Z).

Definition Etat : Type := Z * list Vma.

(** A new area takes its identity from the counter, as at every call site. *)
Definition applique (s : Etat) (op : Op) : option (bool * Etat) :=
  let '(next, l) := s in
  match op with
  | ORetire d f => Some (true, (next, retire l d f))
  | ORemplace d f dr b =>
      match nouvelle_identite next with
      | Some (n, next') => Some (true, (next', remplace l (mk_vma n d f dr b)))
      | None => None
      end
  | OOverlay d f dr b =>
      match nouvelle_identite next with
      | Some (n, next') => Some (true, (next', overlay l (mk_vma n d f dr b)))
      | None => None
      end
  | OProtege d f dr =>
      match protege next l d f dr with
      | Some (ok, l', next') => Some (ok, (next', l'))
      | None => None
      end
  end.

Fixpoint deroule (s : Etat) (ops : list Op) : option (list bool * Etat) :=
  match ops with
  | [] => Some ([], s)
  | op :: ops =>
      match applique s op with
      | None => None
      | Some (ok, s1) =>
          match deroule s1 ops with Some (oks, s2) => Some (ok :: oks, s2) | None => None end
      end
  end.

(** The specification on maps from addresses to promises. *)
Definition Carte : Type := Z -> option Promesse.
Definition pas_carte (next next' : Z) (op : Op) (A : Carte) (ok : bool) (A' : Carte) : Prop :=
  match op with
  | ORetire d f => ok = true /\ forall a, A' a = if dans d f a then None else A a
  | ORemplace d f dr b | OOverlay d f dr b =>
      ok = true /\ exists n, next <= n < next' /\
      forall a, A' a = if dans d f a then Some (mk_promesse n dr b) else A a
  | OProtege d f dr =>
      (ok = true <-> forall a, d <= a < f -> is_Some (A a)) /\
      if ok
      then forall a, if dans d f a
                     then exists p p', A a = Some p /\ A' a = Some p' /\
                          protegee next next' dr p p'
                     else A' a = A a
      else forall a, A' a = A a
  end.

Definition op_ok (op : Op) : Prop :=
  match op with
  | ORetire d f | OProtege d f _ => 0 <= d /\ f < u64_max
  | ORemplace d f _ _ | OOverlay d f _ _ => 0 <= d < f /\ f < u64_max
  end.
#[export] Instance op_ok_dec op : Decision (op_ok op).
Proof. destruct op; simpl; apply _. Defined.

Lemma carte_is_Some l a : is_Some (carte l a) <-> is_Some (trouve l a).
Proof. unfold carte. apply fmap_is_Some. Qed.

Lemma applique_raffine next l op ok next' l' :
  applique (next, l) op = Some (ok, (next', l')) ->
  next <= next' /\ pas_carte next next' op (carte l) ok (carte l').
Proof.
  unfold applique, nouvelle_identite. intros H. destruct op as [d f|d f dr b|d f dr b|d f dr].
  - simplify_eq. split; [done|]. split; [done|]. apply carte_retire.
  - destruct (next + 1 <? u64_max); simplify_eq. split; [lia|]. split; [done|].
    exists next. split; [lia|]. intros a. apply carte_remplace.
  - destruct (next + 1 <? u64_max); simplify_eq. split; [lia|]. split; [done|].
    exists next. split; [lia|]. intros a. apply carte_overlay.
  - unfold protege in H. pose proof (couvre_spec l d f) as Hcv. cbn [pas_carte].
    setoid_rewrite carte_is_Some.
    destruct (couvre l d f); cbn [negb] in H; [|by simplify_eq].
    destruct (protege_boucle next d f dr l) as [[l1 n1]|] eqn:Ep; simplify_eq.
    pose proof (fun a => protege_boucle_carte next d f dr l l' next' a Ep) as Hp.
    split; [by apply (Hp 0)|]. split; [done|]. intros a. destruct (Hp a) as [_ Ha].
    destruct (dans d f a) eqn:E; [|done]. unfold dans in E. bool_prop.
    assert (is_Some (carte l a)) as [p Hpa] by (apply carte_is_Some, Hcv; [done|lia]).
    rewrite Hpa in Ha. destruct Ha as (p' & ? & ?). by exists p, p'.
Qed.

(** A run of the specification, with the identities drawn at each step. *)
Inductive deroule_carte : Z -> Carte -> list Op -> list bool -> Z -> Carte -> Prop :=
| dc_fin n A A' : (forall a, A' a = A a) -> deroule_carte n A [] [] n A'
| dc_pas n1 n2 n3 A1 A2 A3 op ops ok oks :
    n1 <= n2 -> pas_carte n1 n2 op A1 ok A2 -> deroule_carte n2 A2 ops oks n3 A3 ->
    deroule_carte n1 A1 (op :: ops) (ok :: oks) n3 A3.

Lemma deroule_raffine ops next l oks next' l' :
  deroule (next, l) ops = Some (oks, (next', l')) ->
  deroule_carte next (carte l) ops oks next' (carte l').
Proof.
  revert next l oks. induction ops as [|op ops IH]; intros next l oks H; cbn [deroule] in H.
  { simplify_eq. by constructor. }
  destruct (applique (next, l) op) as [[ok [n1 l1]]|] eqn:Ea; [|done].
  destruct (deroule (n1, l1) ops) as [[oks1 s2]|] eqn:Ed; simplify_eq.
  apply applique_raffine in Ea as [? ?]. econstructor; eauto.
Qed.

(** What a run leaves at an address is what was there, or bears a later identity. *)
Lemma deroule_carte_identite n A ops oks n' A' a p :
  deroule_carte n A ops oks n' A' -> A' a = Some p -> A a = Some p \/ n <= p_id p.
Proof.
  induction 1 as [n A A' He|n1 n2 n3 A1 A2 A3 op ops ok oks Hn Hp Hd IH]; intros Ha.
  { rewrite He in Ha. by left. }
  destruct (IH Ha) as [H2|H2]; [|right; lia]. clear IH Ha Hd. unfold pas_carte in Hp.
  destruct op as [d f|d f dr b|d f dr b|d f dr].
  - destruct Hp as [_ Hp]. rewrite Hp in H2. destruct (dans d f a); [done|by left].
  - destruct Hp as (_ & k & Hk & Hp). rewrite Hp in H2.
    destruct (dans d f a); [|by left]. simplify_eq. right. simpl. lia.
  - destruct Hp as (_ & k & Hk & Hp). rewrite Hp in H2.
    destruct (dans d f a); [|by left]. simplify_eq. right. simpl. lia.
  - destruct Hp as [_ Hp]. destruct ok; specialize (Hp a).
    + destruct (dans d f a); [|rewrite <-Hp; by left].
      destruct Hp as (q & q' & Hq & Hq' & Hd & Hb & Hi).
      assert (q' = p) as -> by congruence. subst dr. revert Hi. destruct (Z.eqb_spec (p_drapeaux q) (p_drapeaux p)); intros Hi; [|right; lia].
      left. rewrite Hq. destruct p, q; simpl in *. by subst.
    + rewrite <-Hp. by left.
Qed.

(** ** Well-formed lists *)

Lemma vma_ok_mono n n' v : n <= n' -> vma_ok n v -> vma_ok n' v.
Proof. unfold vma_ok. intros. naive_solver lia. Qed.

Lemma liste_ok_mono n n' l : n <= n' -> liste_ok n l -> liste_ok n' l.
Proof. intros. eapply Forall_impl; [done|]. eauto using vma_ok_mono. Qed.

Lemma garde_ok n v : 0 <= debut v -> fin v < u64_max -> 0 <= id v < n -> liste_ok n (garde_vma v).
Proof.
  intros. unfold garde_vma. destruct (Z.ltb_spec (debut v) (fin v)); [|by constructor].
  constructor; [|constructor]. unfold vma_ok. lia.
Qed.

Lemma gauche_ok n v d : vma_ok n v -> d <= fin v -> liste_ok n (gauche v d).
Proof.
  unfold vma_ok. intros. unfold gauche. case_match; [|by constructor].
  apply garde_ok; simpl; lia.
Qed.
Lemma droite_ok n v f : vma_ok n v -> debut v <= f -> liste_ok n (droite v f).
Proof.
  unfold vma_ok. intros. unfold droite. case_match; [|by constructor].
  apply garde_ok; simpl; lia.
Qed.

Lemma flat_map_ok n g l :
  (forall v, vma_ok n v -> liste_ok n (g v)) -> liste_ok n l -> liste_ok n (flat_map g l).
Proof.
  intros Hg. induction 1 as [|v l Hv Hl IH]; simpl; [constructor|].
  apply Forall_app. split; [by apply Hg|done].
Qed.

Lemma retire_ok n l d f : liste_ok n l -> liste_ok n (retire l d f).
Proof.
  intros Hl. unfold retire. case_match; [done|]. apply flat_map_ok; [|done]. intros v Hv.
  unfold retire_un, v_chevauche. destruct (Z.ltb_spec (debut v) f), (Z.ltb_spec d (fin v));
    cbn [andb negb]; try (by constructor; [|constructor]).
  apply Forall_app. split; [apply gauche_ok|apply droite_ok]; (done || lia).
Qed.

Lemma milieu_ok n d f dr v m n' :
  vma_ok n v -> 0 <= n -> milieu n d f dr v = Some (m, n') -> n <= n' /\ liste_ok n' m.
Proof.
  unfold vma_ok, milieu, nouvelle_identite. intros Hv Hn H. case_match; simplify_eq; cycle 1.
  { split; [done|]. apply garde_ok; simpl; lia. }
  destruct (n + 1 <? u64_max); simplify_eq. split; [lia|]. apply garde_ok; simpl; lia.
Qed.

Lemma protege_boucle_ok n d f dr l l' n' :
  liste_ok n l -> 0 <= n -> protege_boucle n d f dr l = Some (l', n') ->
  n <= n' /\ liste_ok n' l'.
Proof.
  revert n l' n'. induction l as [|v l IH]; intros n l' n' Hl Hn H; simpl in H.
  { simplify_eq. by split. }
  apply Forall_cons in Hl as [Hv Hl]. destruct (v_chevauche v d f) eqn:E; cbn [negb] in H.
  - destruct (milieu n d f dr v) as [[m n1]|] eqn:Em; [|done].
    destruct (protege_boucle n1 d f dr l) as [[l1 n2]|] eqn:El; [|done]. simplify_eq.
    apply milieu_ok in Em as [? Hm]; [|done..].
    apply IH in El as [? Hl']; [|eapply liste_ok_mono; [|done]; lia|lia]. split; [lia|].
    unfold v_chevauche in E. bool_prop. unfold liste_ok. rewrite !Forall_app. split_and!; [| | |done].
    + apply (liste_ok_mono n); [lia|]. apply gauche_ok; [done|lia].
    + by apply (liste_ok_mono n1).
    + apply (liste_ok_mono n); [lia|]. apply droite_ok; [done|lia].
  - destruct (protege_boucle n d f dr l) as [[l1 n2]|] eqn:El; [|done]. simplify_eq.
    apply IH in El as [? ?]; [|done..]. split; [done|]. constructor; [|done].
    by apply (vma_ok_mono n).
Qed.

Lemma applique_ok n l op ok n' l' :
  liste_ok n l -> 0 <= n -> op_ok op -> applique (n, l) op = Some (ok, (n', l')) ->
  n <= n' /\ liste_ok n' l'.
Proof.
  unfold applique, nouvelle_identite. intros Hl Hn Hop H.
  destruct op as [d f|d f dr b|d f dr b|d f dr]; simpl in Hop.
  - simplify_eq. split; [done|]. by apply retire_ok.
  - destruct (n + 1 <? u64_max); simplify_eq. split; [lia|]. apply Forall_app. split.
    + apply (liste_ok_mono n); [lia|]. by apply retire_ok.
    + constructor; [|constructor]. unfold vma_ok. simpl. lia.
  - destruct (n + 1 <? u64_max); simplify_eq. split; [lia|]. apply Forall_app. split.
    + apply (liste_ok_mono n); [lia|done].
    + constructor; [|constructor]. unfold vma_ok. simpl. lia.
  - unfold protege in H. destruct (couvre l d f); cbn [negb] in H; [|by simplify_eq].
    destruct (protege_boucle n d f dr l) as [[l1 n1]|] eqn:Ep; simplify_eq.
    eapply protege_boucle_ok; eauto.
Qed.

Lemma deroule_ok ops n l oks n' l' :
  liste_ok n l -> 0 <= n -> Forall op_ok ops ->
  deroule (n, l) ops = Some (oks, (n', l')) -> n <= n' /\ liste_ok n' l'.
Proof.
  intros Hl Hn Hops. revert n l oks Hl Hn. induction Hops as [|op ops Hop Hops IH];
    intros n l oks Hl Hn H; cbn [deroule] in H.
  { by simplify_eq. }
  destruct (applique (n, l) op) as [[ok [n1 l1]]|] eqn:Ea; [|done].
  destruct (deroule (n1, l1) ops) as [[oks1 s2]|] eqn:Ed; simplify_eq.
  eapply applique_ok in Ea as [? ?]; [|done..]. apply IH in Ed as [? ?]; [|done|lia].
  split; [lia|done].
Qed.

Lemma trouve_trou_fuel_spec l n depart longueur limite :
  liste_ok n l -> 0 <= depart -> 0 <= longueur -> limite < u64_max ->
  exists r, trouve_trou_fuel (S (length l)) l depart longueur limite = Some r /\
            resultat_trou l depart longueur limite r.
Proof.
  intros Hl Hd Hlo Hlim. unfold trouve_trou_fuel. destruct (align_up depart) as [c|] eqn:Ea.
  - apply align_up_spec in Ea as ([? ?] & Hc & Hle); [|done].
    apply trou_boucle_spec; try done; try lia.
    + intros r Hr. unfold liste_ok in Hl. rewrite Forall_forall in Hl.
      apply Hl in Hr. unfold vma_ok in Hr. lia.
    + unfold devant. pose proof (List.filter_length_le (fun r => c <? fin r) l). lia.
    + intros x Hp Hx. apply Hle; [by destruct Hp|done].
  - eexists. split; [done|]. intros x (Hx & Hxl & _) Hdx.
    pose proof (align_up_None _ x Ea ltac:(assumption) ltac:(assumption)). lia.
Qed.

(** The kernel's own self test passes. *)
Example self_test_reussit : self_test 1 = Some true.
Proof. vm_compute. reflexivity. Qed.

(** ** Properties *)

(** C13. The areas of a process implement a map from addresses to promises: along any
    sequence of removals, replacements, overlays and protections from an empty space, what
    [trouve] gives at each address follows the specification of the operations on the map;
    an [mprotect] succeeds exactly when the whole range is promised, keeps the backing of
    every address and leaves every other address as it was. *)
Theorem carte_raffine ops oks next l :
  deroule (1, []) ops = Some (oks, (next, l)) ->
  deroule_carte 1 (fun _ => None) ops oks next (carte l).
Proof. intros H. by apply (deroule_raffine ops 1 []). Qed.

Definition trace_temoin : list Op :=
  [ORemplace 4096 36864 7 BZero; ORetire 12288 20480; OProtege 20480 28672 5;
   OProtege 4096 20480 5; OOverlay 4096 8192 1 (BFile 3 4096 0 4096)].

Lemma carte_raffine_witness : exists oks next l,
  deroule (1, []) trace_temoin = Some (oks, (next, l)) /\ oks = [true; true; true; false; true]
  /\ deroule_carte 1 (fun _ => None) trace_temoin oks next (carte l).
Proof.
  do 3 eexists. split; [vm_compute; reflexivity|]. split; [reflexivity|].
  apply carte_raffine. vm_compute. reflexivity.
Defined.

(** An identity seen twice at an address denotes the same promise: if a page fault
    reads the area of an address, and after any operations by other threads (unmapping,
    MAP_FIXED, mprotect, and back) the address bears the same identity, then its flags and
    its backing are the ones the fault saw. *)
Theorem identite_ferme_aba next l ops oks next' l' a p p' :
  liste_ok next l -> deroule (next, l) ops = Some (oks, (next', l')) ->
  carte l a = Some p -> carte l' a = Some p' -> p_id p' = p_id p -> p' = p.
Proof.
  intros Hl Hd Ha Ha' Hid.
  apply deroule_raffine in Hd. destruct (deroule_carte_identite _ _ _ _ _ _ a p' Hd Ha').
  { congruence. }
  unfold carte in Ha. destruct (trouve l a) as [v|] eqn:Ev; [|done]. simpl in Ha.
  apply trouve_Some in Ev as [Hv _]. unfold liste_ok in Hl. rewrite Forall_forall in Hl.
  apply Hl in Hv. unfold vma_ok in Hv. simplify_eq. simpl in *. lia.
Qed.

Lemma identite_ferme_aba_witness :
  exists p', carte (retire [mk_vma 1 4096 12288 7 BZero] 8192 12288) 4096 = Some p' /\
    p_id p' = 1 /\ p' = mk_promesse 1 7 BZero.
Proof.
  eexists. split; [reflexivity|]. split; [reflexivity|].
  apply (identite_ferme_aba 2 [mk_vma 1 4096 12288 7 BZero] [ORetire 8192 12288] [true] 2
           (retire [mk_vma 1 4096 12288 7 BZero] 8192 12288) 4096).
  - apply (bool_decide_unpack _). vm_compute. exact I.
  - reflexivity.
  - reflexivity.
  - reflexivity.
  - reflexivity.
Defined.

(** Every area a process holds is a non-empty range of 64-bit addresses with an
    identity already drawn, whatever sequence of operations built the list. *)
Theorem aires_bien_formees ops oks next l :
  Forall op_ok ops -> deroule (1, []) ops = Some (oks, (next, l)) -> liste_ok next l.
Proof.
  intros Hops Hd. eapply deroule_ok in Hd as [_ ?]; [done| |lia|done]. constructor.
Qed.

Lemma aires_bien_formees_witness : exists oks next l,
  deroule (1, []) trace_temoin = Some (oks, (next, l)) /\ length l = 4%nat /\ liste_ok next l.
Proof.
  do 3 eexists. split; [vm_compute; reflexivity|]. split; [reflexivity|].
  eapply (aires_bien_formees trace_temoin).
  - apply (bool_decide_unpack _). vm_compute. exact I.
  - vm_compute. reflexivity.
Defined.

(** The size charged to a process is the number of addresses its areas cover, each
    counted once however many areas overlap there. *)
Theorem octets_exacts next l (X : gset Z) :
  liste_ok next l -> (forall a, a ∈ X <-> is_Some (trouve l a)) ->
  octets_virtuels l = Z.of_nat (size X).
Proof.
  intros Hl HX. unfold octets_virtuels. set (s := map _ l).
  assert (forall x, x ∈ s -> 0 <= x.1 < u64_max /\ x.2 < u64_max) as Hs.
  { unfold s. intros x. rewrite list_elem_of_In, in_map_iff. intros (v & <- & Hv).
    apply list_elem_of_In in Hv. unfold liste_ok in Hl. rewrite Forall_forall in Hl.
    apply Hl in Hv. unfold vma_ok in Hv. simpl. lia. }
  assert (forall a, a ∈ X <-> couvert (trie_spans s) a) as Hc.
  { intros a. rewrite HX, trouve_is_Some. unfold couvert, s. setoid_rewrite trie_spans_elem.
    split.
    - intros (v & Hv & Hca). unfold contient in Hca. bool_prop. exists (debut v, fin v).
      rewrite list_elem_of_In, in_map_iff. split; [|simpl; lia].
      exists v. by rewrite <-list_elem_of_In.
    - intros (x & Hx & Hb). rewrite list_elem_of_In, in_map_iff in Hx.
      destruct Hx as (v & <- & Hv%list_elem_of_In). exists v. split; [done|].
      unfold contient. simpl in Hb. zcas. }
  pose proof (trie_spans_trie s) as Ht. setoid_rewrite <-trie_spans_elem in Hs.
  destruct (trie_spans s) as [|[d f] spans].
  - assert (X = ∅) as ->; [|done]. apply set_eq. intros a. rewrite Hc. unfold couvert. set_solver.
  - apply StronglySorted_inv in Ht as [Hso Hfst]. rewrite Forall_forall in Hfst.
    assert (0 <= d < u64_max /\ f < u64_max) by (apply (Hs (d, f)); set_solver).
    rewrite (balaye_octets_spec spans 0 d f X); try lia; [done| | |].
    + apply Forall_forall. intros x Hx. split; [by apply Hfst|]. apply (Hs x). set_solver.
    + intros x Hx. apply (Hs x). set_solver.
    + intros a. rewrite Hc. unfold couvert. split.
      * intros (x & [->|?]%elem_of_cons & ?); eauto.
      * intros [?|(x & ? & ?)]; [exists (d, f)|exists x]; set_solver.
Qed.

Definition aires_chevauchees : list Vma :=
  [mk_vma 1 2 6 7 BZero; mk_vma 2 4 9 7 BZero; mk_vma 3 12 13 7 BZero].
Lemma octets_exacts_witness :
  octets_virtuels aires_chevauchees = 8 /\
  octets_virtuels aires_chevauchees = Z.of_nat (size (list_to_set [2;3;4;5;6;7;8;12] : gset Z)).
Proof.
  split; [reflexivity|]. apply (octets_exacts 4).
  - apply (bool_decide_unpack _). vm_compute. exact I.
  - intros a. rewrite elem_of_list_to_set, trouve_is_Some. split.
    + intros Ha. repeat (apply elem_of_cons in Ha as [->|Ha]; [eexists; split;
        [|vm_compute; reflexivity]; rewrite !elem_of_cons; tauto|]). set_solver.
    + intros (v & Hv & Hc). unfold aires_chevauchees in Hv. unfold contient in Hc. bool_prop.
      rewrite !elem_of_cons in Hv. rewrite !elem_of_cons.
      destruct Hv as [-> |[-> |[-> |Hv]]]; simpl in *; [lia..|set_solver].
Defined.

(** The search for a hole ends within one round per area, gives a page-aligned free
    range at or after the start and below the limit, and finds one as long as a free range
    with its guard page exists: never a later one than the first such range, and none only
    when there is none. *)
Theorem trou_exact next l depart longueur limite :
  liste_ok next l -> 0 <= depart -> 0 <= longueur -> limite < u64_max ->
  trouve_trou_fuel (S (length l)) l depart longueur limite
    = Some (trouve_trou l depart longueur limite) /\
  resultat_trou l depart longueur limite (trouve_trou l depart longueur limite).
Proof.
  intros Hl Hd Hlo Hlim. unfold trouve_trou.
  destruct (trouve_trou_fuel_spec l next depart longueur limite) as (r & Hr & Hs); [done..|].
  rewrite Hr. done.
Qed.

Definition aires_trouees : list Vma :=
  [mk_vma 1 4096 36864 7 BZero; mk_vma 2 45056 49152 7 BZero].
Lemma trou_exact_witness :
  trouve_trou aires_trouees 4096 4096 2097152 = Some 40960 /\
  resultat_trou aires_trouees 4096 4096 2097152 (trouve_trou aires_trouees 4096 4096 2097152).
Proof.
  split; [reflexivity|]. apply (trou_exact 3); try lia; try reflexivity.
  apply (bool_decide_unpack _). vm_compute. exact I.
Defined.

End VmaProofs.
