(* ===== verification/FramesLibres.v ===== *)
(** The two bitmaps of the frame allocator, [src/kernel/memory/frames_libres.rs]: which
    physical frames exist and which are in the free list.

    [decrit f V L] says that the bitmaps [f] describe the set [V] of existing frames and the
    set [L] of free ones; every operation is proved against these two sets. [None] is a
    failed assertion of the source. *)

From S2P Require Import Prelude.

Module FramesLibres.

Definition TAILLE_PAGE : Z := 4096.

Record FramesLibres := mk_fl { base : Z; valides : list Z; libres : list Z; compte : Z }.

Definition neuf : FramesLibres := mk_fl 0 [] [] 0.

(** [octets.div_ceil(TAILLE_PAGE).div_ceil(64)] *)
Definition div_ceil (a b : Z) : Z := (a + b - 1) / b.
Definition mots_pour (octets : Z) : Z := div_ceil (div_ceil octets TAILLE_PAGE) 64.

(** Word and bit of a frame in the envelope; the bit is [1 << (rang % 64)]. *)
Definition position (f : FramesLibres) (phys : Z) : option (Z * Z) :=
  if phys <? base f then None
  else let rang := (phys - base f) / TAILLE_PAGE in
       let mot := rang / 64 in
       if Z.of_nat (length (valides f)) <=? mot then None else Some (mot, rang mod 64).

Definition position_valide (f : FramesLibres) (phys : Z) : option (Z * Z) :=
  match position f phys with
  | None => None
  | Some (mot, bit) => if negb (teste_bit (aget (valides f) mot) bit) then None else Some (mot, bit)
  end.

Definition couverte (f : FramesLibres) (phys : Z) : bool :=
  match position_valide f phys with Some _ => true | None => false end.

Definition est_libre (f : FramesLibres) (phys : Z) : bool :=
  match position_valide f phys with
  | Some (mot, bit) => teste_bit (aget (libres f) mot) bit
  | None => false
  end.

Definition marque_libre (f : FramesLibres) (phys : Z) : FramesLibres * bool :=
  match position_valide f phys with
  | None => (f, false)
  | Some (mot, bit) =>
      if teste_bit (aget (libres f) mot) bit then (f, false)
      else (mk_fl (base f) (valides f)
              (aset (libres f) mot (pose_bit (aget (libres f) mot) bit)) (compte f + 1), true)
  end.

Definition marque_occupee (f : FramesLibres) (phys : Z) : FramesLibres * bool :=
  match position_valide f phys with
  | None => (f, false)
  | Some (mot, bit) =>
      if negb (teste_bit (aget (libres f) mot) bit) then (f, false)
      else (mk_fl (base f) (valides f)
              (aset (libres f) mot (ote_bit (aget (libres f) mot) bit)) (compte f - 1), true)
  end.

Definition pose_valide (f : FramesLibres) (phys : Z) : FramesLibres :=
  match position f phys with
  | None => f
  | Some (mot, bit) =>
      mk_fl (base f) (aset (valides f) mot (pose_bit (aget (valides f) mot) bit))
        (libres f) (compte f)
  end.

(** The frames an old bitmap declares valid, word by word and bit by bit. *)
Definition frames_du_mot (ancienne_base mot bits : Z) : list Z :=
  if bits =? 0 then []
  else omap (fun bit => if teste_bit bits bit
                        then Some (ancienne_base + (mot * 64 + bit) * TAILLE_PAGE) else None)
            (seqZ 0 64).
Definition anciennes_frames (ancienne_base : Z) (anciennes : list Z) : list Z :=
  concat (imap (fun mot bits => frames_du_mot ancienne_base (Z.of_nat mot) bits) anciennes).

Definition zeros (n : Z) : list Z := replicate (Z.to_nat n) 0.
(** [v.resize(n, 0)] for a longer length. *)
Definition resize (l : list Z) (n : Z) : list Z := l ++ zeros (n - Z.of_nat (length l)).

Definition frames_entre (debut fin : Z) : list Z :=
  map (fun i => debut + i * TAILLE_PAGE) (seqZ 0 (div_ceil (fin - debut) TAILLE_PAGE)).

(** The bitmaps made large enough for [[debut, fin)], before its frames are marked. *)
Definition agrandit (f : FramesLibres) (debut fin : Z) : option FramesLibres :=
  match valides f with
  | [] => Some (mk_fl debut (zeros (mots_pour (fin - debut))) (zeros (mots_pour (fin - debut))) (compte f))
  | _ =>
    if debut <? base f then
      if negb (compte f =? 0) then None
      else
        let ancienne_fin := base f + Z.of_nat (length (valides f)) * 64 * TAILLE_PAGE in
        let taille := mots_pour (Z.max ancienne_fin fin - debut) in
        Some (fold_left pose_valide (anciennes_frames (base f) (valides f))
                (mk_fl debut (zeros taille) (zeros taille) (compte f)))
    else
      let besoin := mots_pour (fin - base f) in
      if Z.of_nat (length (valides f)) <? besoin
      then Some (mk_fl (base f) (resize (valides f) besoin) (resize (libres f) besoin) (compte f))
      else Some f
  end.

Definition couvre (f : FramesLibres) (debut fin : Z) : option FramesLibres :=
  let debut := page_bas (debut + TAILLE_PAGE - 1) in
  let fin := page_bas fin in
  if fin <=? debut then Some f
  else match agrandit f debut fin with
       | None => None
       | Some f => Some (fold_left pose_valide (frames_entre debut fin) f)
       end.

(** [valides.len() * 64] and the number of valid bits. *)
Definition capacite (f : FramesLibres) : Z := Z.of_nat (length (valides f)) * 64.
Definition count_ones (w : Z) : Z :=
  Z.of_nat (length (List.filter (fun b => teste_bit w b) (seqZ 0 64))).
Definition frames_valides (f : FramesLibres) : Z :=
  foldr Z.add 0 (map count_ones (valides f)).

(** ** The sets the bitmaps describe *)

Definition frame_ok (q : Z) : Prop := 0 <= q /\ q mod TAILLE_PAGE = 0.

Record bien_forme (f : FramesLibres) : Prop := {
  bf_base : frame_ok (base f);
  bf_long : length (libres f) = length (valides f);
  bf_lib : Forall (fun w => 0 <= w < u64_max) (libres f);
  bf_sous : forall mot b, 0 <= mot -> 0 <= b < 64 ->
      Z.testbit (aget (libres f) mot) b = true -> Z.testbit (aget (valides f) mot) b = true
}.

Record decrit (f : FramesLibres) (V L : gset Z) : Prop := {
  d_forme : bien_forme f;
  d_valides : forall q, frame_ok q -> couverte f q = true <-> q ∈ V;
  d_libres : forall q, frame_ok q -> est_libre f q = true <-> q ∈ L;
  d_frames : forall q, q ∈ V -> frame_ok q;
  d_inclus : L ⊆ V;
  d_compte : compte f = Z.of_nat (size L)
}.

End FramesLibres.

(** The frame bitmaps describe sets: [FramesLibres.couvre] adds exactly the frames of a
    region, whatever the order the regions come in, and marking a frame free or in use moves
    exactly that frame. *)

Module FramesLibresProofs.
Import FramesLibres.

(** ** Positions *)

Lemma position_Some f q m b :
  position f q = Some (m, b) ->
  base f <= q /\ 0 <= m < Z.of_nat (length (valides f)) /\ 0 <= b < 64 /\
  (q - base f) / TAILLE_PAGE = m * 64 + b.
Proof.
  unfold position. intros H. destruct (Z.ltb_spec q (base f)); [done|].
  destruct (Z.leb_spec (Z.of_nat (length (valides f))) ((q - base f) / TAILLE_PAGE / 64));
    simplify_eq. unfold TAILLE_PAGE in *. Z.to_euclidean_division_equations. lia.
Qed.

Lemma position_adresse f q m b :
  frame_ok (base f) -> frame_ok q -> position f q = Some (m, b) ->
  q = base f + (m * 64 + b) * TAILLE_PAGE.
Proof.
  unfold frame_ok, TAILLE_PAGE. intros [_ Hb] [_ Hq] H. apply position_Some in H.
  unfold TAILLE_PAGE in H. destruct H as (? & ? & ? & H).
  Z.to_euclidean_division_equations. lia.
Qed.

Lemma position_inverse f m b :
  0 <= m < Z.of_nat (length (valides f)) -> 0 <= b < 64 ->
  position f (base f + (m * 64 + b) * TAILLE_PAGE) = Some (m, b).
Proof.
  intros Hm Hb. unfold position.
  replace (base f + (m * 64 + b) * TAILLE_PAGE - base f) with ((m * 64 + b) * TAILLE_PAGE) by lia.
  rewrite Z.div_mul by done. rewrite Z.div_add_l by lia.
  rewrite (Z.div_small b) by lia. rewrite Z.add_comm, Z.add_comm, Z.add_0_r.
  rewrite (Z.add_comm (m * 64)), Z.mod_add, Z.mod_small by lia.
  unfold TAILLE_PAGE. zcas. done.
Qed.

Lemma position_ext f f' q :
  base f = base f' -> length (valides f) = length (valides f') -> position f q = position f' q.
Proof. intros Hb Hl. unfold position. by rewrite Hb, Hl. Qed.

Lemma couverte_bit f q :
  couverte f q = match position f q with
                 | Some (m, b) => Z.testbit (aget (valides f) m) b
                 | None => false
                 end.
Proof.
  unfold couverte, position_valide. destruct (position f q) as [[m b]|] eqn:E; [|done].
  apply position_Some in E. rewrite teste_bit_spec by lia. by destruct (Z.testbit _ b).
Qed.

Lemma libre_bit f q :
  est_libre f q = match position f q with
                  | Some (m, b) => Z.testbit (aget (valides f) m) b && Z.testbit (aget (libres f) m) b
                  | None => false
                  end.
Proof.
  unfold est_libre, position_valide. destruct (position f q) as [[m b]|] eqn:E; [|done].
  apply position_Some in E. rewrite teste_bit_spec by lia.
  destruct (Z.testbit _ b); [|done]. simpl. by rewrite teste_bit_spec by lia.
Qed.

(** A cell of the word array after one of its bits is written. *)
Lemma testbit_aset_pose l m b m' b' :
  0 <= m < Z.of_nat (length l) -> 0 <= b -> 0 <= m' -> 0 <= b' ->
  Z.testbit (aget (aset l m (pose_bit (aget l m) b)) m') b' =
    ((m' =? m) && (b' =? b)) || Z.testbit (aget l m') b'.
Proof.
  intros. destruct (Z.eqb_spec m' m) as [->|].
  - rewrite aget_aset_eq, pose_bit_testbit by done. done.
  - by rewrite aget_aset_ne by lia.
Qed.

Lemma testbit_aset_ote l m b m' b' :
  0 <= m < Z.of_nat (length l) -> 0 <= b < 64 -> 0 <= m' -> 0 <= b' < 64 ->
  Z.testbit (aget (aset l m (ote_bit (aget l m) b)) m') b' =
    negb ((m' =? m) && (b' =? b)) && Z.testbit (aget l m') b'.
Proof.
  intros. destruct (Z.eqb_spec m' m) as [->|].
  - rewrite aget_aset_eq, ote_bit_testbit by done. done.
  - by rewrite aget_aset_ne by lia.
Qed.

(** Two frames at the same position are the same frame. *)
Lemma position_meme f p q m b m' b' :
  frame_ok (base f) -> frame_ok p -> frame_ok q ->
  position f p = Some (m, b) -> position f q = Some (m', b') ->
  ((m' =? m) && (b' =? b)) = bool_decide (q = p).
Proof.
  intros Hb Hp Hq Ep Eq. pose proof (position_Some _ _ _ _ Ep). pose proof (position_Some _ _ _ _ Eq).
  apply position_adresse in Ep; [|done..]. apply position_adresse in Eq; [|done..].
  unfold TAILLE_PAGE in *. case_bool_decide; zcas; lia || done.
Qed.

(** ** Marking a frame *)

Lemma marque_libre_decrit f V L p f' ok :
  decrit f V L -> frame_ok p -> marque_libre f p = (f', ok) ->
  ok = bool_decide (p ∈ V /\ p ∉ L) /\
  (if ok then decrit f' V ({[p]} ∪ L) else f' = f).
Proof.
  intros D Hp H. destruct D as [[Hb Hlen Hlib Hsous] HV HL HF HLV HC].
  pose proof (HV p Hp) as HVp. pose proof (HL p Hp) as HLp.
  rewrite couverte_bit in HVp. rewrite libre_bit in HLp.
  unfold marque_libre, position_valide in H.
  destruct (position f p) as [[m b]|] eqn:E.
  2:{ simplify_eq. split; [|done]. symmetry. apply bool_decide_eq_false. naive_solver. }
  pose proof (position_Some _ _ _ _ E) as (_ & Hm & Hbb & _).
  rewrite !teste_bit_spec in H by lia.
  destruct (Z.testbit (aget (valides f) m) b) eqn:Ev; simpl in H.
  2:{ simplify_eq. split; [|done]. symmetry. apply bool_decide_eq_false. naive_solver. }
  rewrite teste_bit_spec in H by lia.
  destruct (Z.testbit (aget (libres f) m) b) eqn:El; simplify_eq; simpl in HLp.
  { split; [|done]. symmetry. apply bool_decide_eq_false. naive_solver. }
  assert (p ∈ V) by (by apply HVp). assert (p ∉ L) by (intros ?%HLp; done).
  split; [symmetry; by apply bool_decide_eq_true|].
  set (f' := mk_fl _ _ _ _). assert (forall q, position f' q = position f q) as Hpos by done.
  assert (bien_forme f') as Hf'.
  { constructor; simpl.
    - done.
    - by rewrite length_aset.
    - apply Forall_aset; [done|]. apply pose_bit_mot; [done|].
      apply (aget_Forall (fun w => 0 <= w < u64_max)); [done|]. unfold u64_max; lia.
    - intros m' b' Hm' Hb'. rewrite testbit_aset_pose by (rewrite ?Hlen; lia).
      intros [Hx|?]%orb_true_iff; [|by apply Hsous]. bool_prop. by subst. }
  constructor; try done.
  - intros q Hq. rewrite elem_of_union, elem_of_singleton, <-HL by done.
    rewrite !libre_bit, Hpos. destruct (position f q) as [[m' b']|] eqn:E'.
    + pose proof (position_Some _ _ _ _ E'). simpl.
      rewrite testbit_aset_pose by (rewrite ?Hlen; lia).
      rewrite (position_meme f p q m b m' b') by done.
      case_bool_decide; simpl; [|naive_solver]. subst q. simplify_eq. by rewrite Ev; naive_solver.
    + split; [done|]. intros [->|?]; [congruence|done].
  - set_solver.
  - simpl. rewrite HC, size_union by set_solver. rewrite size_singleton. lia.
Qed.

Lemma marque_occupee_decrit f V L p f' ok :
  decrit f V L -> frame_ok p -> marque_occupee f p = (f', ok) ->
  ok = bool_decide (p ∈ L) /\ (if ok then decrit f' V (L ∖ {[p]}) else f' = f).
Proof.
  intros D Hp H. destruct D as [[Hb Hlen Hlib Hsous] HV HL HF HLV HC].
  pose proof (HL p Hp) as HLp. rewrite libre_bit in HLp.
  unfold marque_occupee, position_valide in H.
  destruct (position f p) as [[m b]|] eqn:E.
  2:{ simplify_eq. split; [|done]. symmetry. apply bool_decide_eq_false. naive_solver. }
  pose proof (position_Some _ _ _ _ E) as (_ & Hm & Hbb & _).
  rewrite !teste_bit_spec in H by lia.
  destruct (Z.testbit (aget (valides f) m) b) eqn:Ev; simpl in H.
  2:{ simplify_eq. split; [|done]. symmetry. apply bool_decide_eq_false. naive_solver. }
  rewrite teste_bit_spec in H by lia.
  destruct (Z.testbit (aget (libres f) m) b) eqn:El; simpl in H; simplify_eq; simpl in HLp.
  2:{ split; [|done]. symmetry. apply bool_decide_eq_false. naive_solver. }
  assert (p ∈ L) by (by apply HLp).
  split; [symmetry; by apply bool_decide_eq_true|].
  set (f' := mk_fl _ _ _ _). assert (forall q, position f' q = position f q) as Hpos by done.
  assert (bien_forme f') as Hf'.
  { constructor; simpl.
    - done.
    - by rewrite length_aset.
    - apply Forall_aset; [done|]. apply ote_bit_mot; [done|].
      apply (aget_Forall (fun w => 0 <= w < u64_max)); [done|]. unfold u64_max; lia.
    - intros m' b' Hm' Hb'. rewrite testbit_aset_ote by (rewrite ?Hlen; lia).
      intros [_ ?]%andb_true_iff. by apply Hsous. }
  constructor; try done.
  - intros q Hq. rewrite elem_of_difference, elem_of_singleton, <-HL by done.
    rewrite !libre_bit, Hpos. destruct (position f q) as [[m' b']|] eqn:E'.
    + pose proof (position_Some _ _ _ _ E'). simpl.
      rewrite testbit_aset_ote by (rewrite ?Hlen; lia).
      rewrite (position_meme f p q m b m' b') by done.
      case_bool_decide; simpl; [|naive_solver]. rewrite andb_false_r. naive_solver.
    + naive_solver.
  - set_solver.
  - simpl. rewrite HC, size_difference by set_solver. rewrite size_singleton.
    assert (size ({[p]} : gset Z) <= size L)%nat by (apply subseteq_size; set_solver).
    rewrite size_singleton in *. lia.
Qed.

(** ** Declaring a region *)

Lemma pose_valide_forme f p :
  base (pose_valide f p) = base f /\ length (valides (pose_valide f p)) = length (valides f).
Proof. unfold pose_valide. destruct (position f p) as [[m b]|]; simpl; rewrite ?length_aset; by split. Qed.

Lemma pose_valide_decrit f V L p :
  decrit f V L -> frame_ok p -> is_Some (position f p) ->
  decrit (pose_valide f p) ({[p]} ∪ V) L.
Proof.
  intros D Hp [[m b] E]. destruct D as [[Hb Hlen Hlib Hsous] HV HL HF HLV HC].
  pose proof (position_Some _ _ _ _ E) as (_ & Hm & Hbb & _).
  assert (forall q, position (pose_valide f p) q = position f q) as Hpos.
  { intros q. apply position_ext; apply pose_valide_forme. }
  assert (forall m' b', 0 <= m' -> 0 <= b' ->
    Z.testbit (aget (valides (pose_valide f p)) m') b' =
      ((m' =? m) && (b' =? b)) || Z.testbit (aget (valides f) m') b') as Hbits.
  { intros. unfold pose_valide. rewrite E. apply testbit_aset_pose; lia. }
  assert (libres (pose_valide f p) = libres f) as El by (unfold pose_valide; by rewrite E).
  constructor.
  - constructor; rewrite ?El; try done.
    + by rewrite (proj1 (pose_valide_forme f p)).
    + by rewrite (proj2 (pose_valide_forme f p)).
    + intros. rewrite Hbits by lia. apply orb_true_iff. right. by apply Hsous.
  - intros q Hq. rewrite elem_of_union, elem_of_singleton, <-HV by done.
    rewrite !couverte_bit, Hpos. destruct (position f q) as [[m' b']|] eqn:E'; [|naive_solver].
    pose proof (position_Some _ _ _ _ E'). rewrite Hbits by lia.
    rewrite (position_meme f p q m b m' b') by done. case_bool_decide; simpl; naive_solver.
  - intros q Hq. rewrite <-HL by done. rewrite !libre_bit, Hpos, El.
    destruct (position f q) as [[m' b']|] eqn:E'; [|done].
    pose proof (position_Some _ _ _ _ E'). rewrite Hbits by lia.
    destruct (Z.testbit (aget (libres f) m') b') eqn:Elib; [|by rewrite !andb_false_r].
    rewrite (Hsous m' b') by (done || lia). by rewrite orb_true_r.
  - intros q [->%elem_of_singleton|?]%elem_of_union; auto.
  - set_solver.
  - unfold pose_valide. by rewrite E.
Qed.

Lemma fold_pose_valide ps f V L :
  decrit f V L -> (forall p, p ∈ ps -> frame_ok p /\ is_Some (position f p)) ->
  decrit (fold_left pose_valide ps f) (list_to_set ps ∪ V) L.
Proof.
  revert f V. induction ps as [|p ps IH]; intros f V D Hps; simpl.
  { by rewrite union_empty_l_L. }
  replace ({[p]} ∪ list_to_set ps ∪ V : gset Z) with (list_to_set ps ∪ ({[p]} ∪ V)) by set_solver.
  destruct (Hps p) as [Hp Hpp]; [set_solver|].
  apply IH; [by apply pose_valide_decrit|]. intros q Hq.
  destruct (Hps q) as [? Hpq]; [set_solver|]. split; [done|].
  by rewrite (position_ext (pose_valide f p) f) by apply pose_valide_forme.
Qed.

Lemma mots_pour_assez n : 0 <= n -> n <= mots_pour n * 64 * TAILLE_PAGE /\ 0 <= mots_pour n.
Proof.
  unfold mots_pour, div_ceil, TAILLE_PAGE. intros. Z.to_euclidean_division_equations. lia.
Qed.

Lemma position_is_Some f q :
  base f <= q < base f + Z.of_nat (length (valides f)) * 64 * TAILLE_PAGE ->
  is_Some (position f q).
Proof.
  intros Hq. unfold position. destruct (Z.ltb_spec q (base f)); [lia|].
  destruct (Z.leb_spec (Z.of_nat (length (valides f))) ((q - base f) / TAILLE_PAGE / 64));
    [|by eexists].
  unfold TAILLE_PAGE in *. Z.to_euclidean_division_equations. lia.
Qed.

Lemma length_zeros n : 0 <= n -> Z.of_nat (length (zeros n)) = n.
Proof. intros. unfold zeros. rewrite length_replicate. lia. Qed.

Lemma decrit_zeros b n : frame_ok b -> decrit (mk_fl b (zeros n) (zeros n) 0) ∅ ∅.
Proof.
  intros Hb. constructor; try done; simpl.
  - constructor; simpl; try done.
    apply Forall_replicate. unfold u64_max. lia.
  - intros q Hq. rewrite couverte_bit. simpl. case_match; [|set_solver]. destruct p.
    unfold zeros. rewrite aget_replicate, Z.bits_0. set_solver.
  - intros q Hq. rewrite libre_bit. simpl. case_match; [|set_solver]. destruct p.
    unfold zeros. rewrite aget_replicate, Z.bits_0. set_solver.
Qed.

(** Bitmaps with the same bits at the same frames describe the same sets. *)
Lemma decrit_meme f f' V L :
  decrit f V L -> bien_forme f' -> compte f' = compte f ->
  (forall q, frame_ok q -> couverte f' q = couverte f q) ->
  (forall q, frame_ok q -> est_libre f' q = est_libre f q) -> decrit f' V L.
Proof.
  intros D Hf Hc Hv Hl. destruct D. constructor; try done; try congruence.
  - intros q Hq. rewrite Hv by done. auto.
  - intros q Hq. rewrite Hl by done. auto.
Qed.

Lemma aget_resize l n i : aget (resize l n) i = aget l i.
Proof.
  unfold aget, resize, zeros. destruct (decide (Z.to_nat i < length l)%nat).
  - by rewrite lookup_app_l.
  - rewrite lookup_app_r by lia. rewrite (lookup_ge_None_2 l) by lia. simpl.
    destruct (replicate _ _ !! _) eqn:E; [|done]. by apply lookup_replicate in E as [-> _].
Qed.

Lemma resize_decrit f V L n :
  decrit f V L -> Z.of_nat (length (valides f)) < n ->
  decrit (mk_fl (base f) (resize (valides f) n) (resize (libres f) n) (compte f)) V L.
Proof.
  intros D Hn. pose proof (d_forme _ _ _ D) as [Hb Hlen Hlib Hsous].
  assert (Z.of_nat (length (resize (valides f) n)) = n) as Hlr.
  { unfold resize. rewrite length_app, Nat2Z.inj_add, length_zeros by lia. lia. }
  set (f' := mk_fl _ _ _ _).
  assert (forall q, frame_ok q -> match position f' q with
    | Some (m, b) => position f q = Some (m, b) \/
         (position f q = None /\ forall i, Z.testbit (aget (valides f) m) i = false)
    | None => position f q = None end) as Hpos.
  { intros q Hq. unfold position, f'. simpl. rewrite Hlr.
    destruct (Z.ltb_spec q (base f)); [done|].
    destruct (Z.leb_spec n ((q - base f) / TAILLE_PAGE / 64)),
      (Z.leb_spec (Z.of_nat (length (valides f))) ((q - base f) / TAILLE_PAGE / 64));
      try done; try lia; [|by left].
    right. split; [done|]. intros i. unfold aget. rewrite lookup_ge_None_2 by lia.
    apply Z.bits_0. }
  apply (decrit_meme f); try done.
  - constructor; simpl; try done.
    + unfold resize. rewrite !length_app, Hlen. done.
    + unfold resize. apply Forall_app. split; [done|]. apply Forall_replicate. unfold u64_max; lia.
    + intros m b Hm Hbb. rewrite !aget_resize. auto.
  - intros q Hq. rewrite !couverte_bit. specialize (Hpos q Hq).
    destruct (position f' q) as [[m b]|]; [|by rewrite Hpos].
    unfold f'. simpl. rewrite aget_resize. destruct Hpos as [->|[-> ->]]; done.
  - intros q Hq. rewrite !libre_bit. specialize (Hpos q Hq).
    destruct (position f' q) as [[m b]|]; [|by rewrite Hpos].
    unfold f'. simpl. rewrite !aget_resize. destruct Hpos as [->|[-> ->]]; done.
Qed.

Lemma elem_anciennes ab l q :
  q ∈ anciennes_frames ab l <->
  exists m b, 0 <= m < Z.of_nat (length l) /\ 0 <= b < 64 /\
    Z.testbit (aget l m) b = true /\ q = ab + (m * 64 + b) * TAILLE_PAGE.
Proof.
  unfold anciennes_frames. rewrite list_elem_of_In, in_concat. split.
  - intros (x & Hx & Hq). apply list_elem_of_In, elem_of_lookup_imap in Hx as (i & w & -> & Hi).
    unfold frames_du_mot in Hq. destruct (w =? 0); [done|].
    apply list_elem_of_In, list_elem_of_omap in Hq as (b & Hb & Hq).
    apply elem_of_seqZ in Hb. rewrite teste_bit_spec in Hq by lia.
    destruct (Z.testbit w b) eqn:E; simplify_eq. exists (Z.of_nat i), b.
    apply lookup_lt_Some in Hi as Hlt. split_and!; try lia.
    unfold aget. by rewrite Nat2Z.id, Hi.
  - intros (m & b & Hm & Hb & Hbit & ->).
    destruct (l !! Z.to_nat m) as [w|] eqn:Ew; [|apply lookup_ge_None in Ew; lia].
    unfold aget in Hbit. rewrite Ew in Hbit. simpl in Hbit.
    exists (frames_du_mot ab m w). split.
    + apply list_elem_of_In, elem_of_lookup_imap. exists (Z.to_nat m), w.
      by rewrite Z2Nat.id by lia.
    + unfold frames_du_mot. destruct (Z.eqb_spec w 0) as [->|_].
      { by rewrite Z.bits_0 in Hbit. }
      apply list_elem_of_In, list_elem_of_omap. exists b. split; [apply elem_of_seqZ; lia|].
      by rewrite teste_bit_spec, Hbit by lia.
Qed.

Lemma neuf_decrit : decrit neuf ∅ ∅.
Proof. apply (decrit_zeros 0 0). by split. Qed.

(** The frames an old bitmap declares are the ones it covers. *)
Lemma anciennes_valides f V L :
  decrit f V L -> list_to_set (anciennes_frames (base f) (valides f)) = V.
Proof.
  intros D. destruct D as [[Hb _ _ _] HV _ HF _ _]. apply set_eq. intros q.
  rewrite elem_of_list_to_set, elem_anciennes. split.
  - intros (m & b & Hm & Hbb & Hbit & ->). apply HV.
    + unfold frame_ok, TAILLE_PAGE in *. Z.to_euclidean_division_equations. lia.
    + by rewrite couverte_bit, position_inverse.
  - intros Hq. pose proof (HF q Hq) as Hok. apply HV in Hq; [|done]. rewrite couverte_bit in Hq.
    destruct (position f q) as [[m b]|] eqn:E; [|done]. exists m, b.
    pose proof (position_Some _ _ _ _ E). split_and!; try done; try lia.
    by apply position_adresse.
Qed.

Lemma decrit_vide f V L : decrit f V L -> valides f = [] -> V = ∅ /\ L = ∅.
Proof.
  intros D Hv. pose proof (anciennes_valides f V L D) as H. rewrite Hv in H. simpl in H.
  subst V. split; [done|]. pose proof (d_inclus _ _ _ D). set_solver.
Qed.

Lemma fold_pose_valide_forme ps f :
  base (fold_left pose_valide ps f) = base f /\
  length (valides (fold_left pose_valide ps f)) = length (valides f).
Proof.
  revert f. induction ps as [|p ps IH]; intros f; simpl; [done|].
  destruct (IH (pose_valide f p)) as [-> ->]. apply pose_valide_forme.
Qed.

(** The capacity is enough for a region, and what was described still is. *)
Lemma agrandit_decrit f V L d fn f' :
  decrit f V L -> frame_ok d -> d < fn -> agrandit f d fn = Some f' ->
  decrit f' V L /\ base f' <= d /\
  fn <= base f' + Z.of_nat (length (valides f')) * 64 * TAILLE_PAGE.
Proof.
  intros D Hd Hlt H. unfold agrandit in H. destruct (valides f) as [|w ws] eqn:Ev.
  { simplify_eq. destruct (decrit_vide _ _ _ D Ev) as [-> ->]. simpl.
    rewrite (d_compte _ _ _ D). split; [by apply decrit_zeros|]. split; [done|].
    destruct (mots_pour_assez (fn - d)); [lia|]. rewrite length_zeros by done. lia. }
  rewrite <-Ev in H. clear w ws Ev. destruct (Z.ltb_spec d (base f)).
  - destruct (Z.eqb_spec (compte f) 0) as [Hc|]; [|done]. cbn [negb] in H.
    assert (L = ∅) as ->.
    { pose proof (d_compte _ _ _ D). apply leibniz_equiv, size_empty_iff. lia. }
    set (n := mots_pour _) in H. set (f0 := mk_fl d (zeros n) (zeros n) (compte f)) in H.
    destruct (mots_pour_assez (Z.max (base f + Z.of_nat (length (valides f)) * 64 * TAILLE_PAGE) fn - d))
      as [Hn Hn0]; [lia|]. fold n in Hn, Hn0.
    pose proof (fold_pose_valide_forme (anciennes_frames (base f) (valides f)) f0) as [Hb Hl].
    simplify_eq. rewrite Hb, Hl. simpl. rewrite length_zeros by done. split; [|lia].
    rewrite <-(union_empty_r_L V), <-(anciennes_valides f V ∅ D).
    apply fold_pose_valide; [unfold f0; rewrite Hc; by apply decrit_zeros|].
    intros p Hp. assert (p ∈ V) as HpV.
    { rewrite <-(anciennes_valides f V ∅ D). by apply elem_of_list_to_set. }
    split; [by eapply d_frames|]. apply elem_anciennes in Hp as (m & b & Hm & Hbb & _ & ->).
    apply position_is_Some. unfold f0. simpl. rewrite length_zeros by done.
    unfold TAILLE_PAGE in *. lia.
  - destruct (mots_pour_assez (fn - base f)) as [Hn Hn0]; [lia|].
    destruct (Z.ltb_spec (Z.of_nat (length (valides f))) (mots_pour (fn - base f))); simplify_eq.
    + split; [by apply resize_decrit|]. simpl. split; [done|].
      unfold resize. rewrite length_app, Nat2Z.inj_add, length_zeros by lia. lia.
    + split; [done|]. split; [done|]. unfold TAILLE_PAGE in *. lia.
Qed.

Lemma elem_frames_entre d fn q :
  frame_ok d -> fn mod TAILLE_PAGE = 0 ->
  q ∈ frames_entre d fn <-> frame_ok q /\ d <= q < fn.
Proof.
  unfold frames_entre, frame_ok, div_ceil, TAILLE_PAGE. intros [Hd Hm] Hf.
  rewrite list_elem_of_In, in_map_iff. setoid_rewrite <-list_elem_of_In.
  setoid_rewrite elem_of_seqZ. split.
  - intros (i & <- & Hi). Z.to_euclidean_division_equations. lia.
  - intros [[H0 Hq] Hb]. exists ((q - d) / 4096). Z.to_euclidean_division_equations. lia.
Qed.

(** Declaring a region adds exactly the frames that lie entirely in it. *)
Lemma couvre_decrit f V L d fn f' :
  decrit f V L -> 0 <= d -> d + TAILLE_PAGE < u64_max -> 0 <= fn < u64_max ->
  couvre f d fn = Some f' ->
  exists V', decrit f' V' L /\
    forall q, q ∈ V' <-> q ∈ V \/ (frame_ok q /\ d <= q /\ q + TAILLE_PAGE <= fn).
Proof.
  intros D Hd Hd' Hfn H. unfold couvre in H. cbv zeta in H. unfold TAILLE_PAGE in Hd'.
  unfold TAILLE_PAGE in H. rewrite !page_bas_spec in H by lia.
  set (d1 := (d + 4096 - 1) / 4096 * 4096) in H. set (f1 := fn / 4096 * 4096) in H.
  assert (frame_ok d1) as Hd1.
  { unfold frame_ok, TAILLE_PAGE, d1. Z.to_euclidean_division_equations. lia. }
  assert (f1 mod TAILLE_PAGE = 0) as Hf1.
  { unfold TAILLE_PAGE, f1. Z.to_euclidean_division_equations. lia. }
  assert (forall q, frame_ok q -> d <= q /\ q + TAILLE_PAGE <= fn <-> d1 <= q < f1) as Hin.
  { unfold frame_ok, TAILLE_PAGE, d1, f1. intros q [??]. Z.to_euclidean_division_equations. lia. }
  destruct (Z.leb_spec f1 d1) as [Hle|Hlt].
  { simplify_eq. exists V. split; [done|]. intros q. split; [by left|].
    intros [?|[Hq Hq']]; [done|]. apply Hin in Hq'; [lia|done]. }
  destruct (agrandit f d1 f1) as [f2|] eqn:E; [|done]. simplify_eq.
  apply (agrandit_decrit f V L) in E as (D2 & Hb2 & Hl2); [|done..].
  eexists. split.
  - apply fold_pose_valide; [done|]. intros p Hp. apply elem_frames_entre in Hp as [? ?]; [|done..].
    split; [done|]. apply position_is_Some. lia.
  - intros q. rewrite elem_of_union, elem_of_list_to_set, elem_frames_entre by done.
    specialize (Hin q). tauto.
Qed.

(** A region is refused only when it comes below the others once frames are free. *)
Lemma couvre_refuse f V L d fn :
  decrit f V L -> couvre f d fn = None -> L <> ∅.
Proof.
  intros D H -> . unfold couvre, agrandit in H. rewrite (d_compte _ _ _ D), size_empty in H.
  repeat case_match; try done.
Qed.
End FramesLibresProofs.
