(* ===== verification/Frames.v ===== *)
(** The physical frame allocator, [FrameAllocator] of [src/kernel/memory/virtual.rs]: virgin
    regions served by advance, freed frames chained through their own first word, and the
    bitmaps of [FramesLibres] as the membership test.

    Physical memory is a function from word addresses to 64-bit words; [None] is a failed
    assertion or [expect] of the source. *)

From S2P Require Import Prelude FramesLibres.

Module Frames.

Definition PAGE_SIZE : Z := 4096.
Definition FREE_LIST_END : Z := u64_max - 1.

Definition Mem : Type := Z -> Z.
Definition ecrit_mot (m : Mem) (a v : Z) : Mem := fun x => if x =? a then v else m x.
Definition zero_page (m : Mem) (p : Z) : Mem :=
  fun x => if (p <=? x) && (x <? p + PAGE_SIZE) then 0 else m x.

Record FrameAllocator := mk_fa {
  regions : list (Z * Z);
  freed_head : option Z;
  total : Z; used : Z;
  allocations : Z; frees : Z; failures : Z; high_watermark : Z;
  libres : FramesLibres.FramesLibres
}.

Definition vide : FrameAllocator := mk_fa [] None 0 0 0 0 0 0 FramesLibres.neuf.

Definition add_region (f : FrameAllocator) (start end_ : Z) : option FrameAllocator :=
  let start := page_bas (start + PAGE_SIZE - 1) in
  let end_ := page_bas end_ in
  if end_ <=? start then Some f
  else
    let n := total f + (end_ - start) / PAGE_SIZE in
    if u64_max <=? n then None
    else match FramesLibres.couvre (libres f) start end_ with
         | None => None
         | Some l =>
             Some (mk_fa (regions f ++ [(start, end_)]) (freed_head f) n (used f)
                     (allocations f) (frees f) (failures f) (high_watermark f) l)
         end.

(** The first region with a whole frame left gives it and advances. *)
Fixpoint avance (regions : list (Z * Z)) : option (Z * list (Z * Z)) :=
  match regions with
  | [] => None
  | (a, b) :: rs =>
      if a + PAGE_SIZE <=? b then Some (a, (a + PAGE_SIZE, b) :: rs)
      else match avance rs with Some (p, rs') => Some (p, (a, b) :: rs') | None => None end
  end.

(** The frame leaves the free list or the virgin regions; the outer [None] is the
    assertion that the head of the list is in the bitmap. *)
Definition candidate (f : FrameAllocator) (m : Mem) : option (FrameAllocator * option Z) :=
  match freed_head f with
  | Some p =>
      let next := m p in
      let head := if next =? FREE_LIST_END then None else Some next in
      match FramesLibres.marque_occupee (libres f) p with
      | (l, true) =>
          Some (mk_fa (regions f) head (total f) (used f) (allocations f) (frees f)
                  (failures f) (high_watermark f) l, Some p)
      | (_, false) => None
      end
  | None =>
      match avance (regions f) with
      | Some (p, rs) =>
          Some (mk_fa rs (freed_head f) (total f) (used f) (allocations f) (frees f)
                  (failures f) (high_watermark f) (libres f), Some p)
      | None => Some (f, None)
      end
  end.

Definition alloc_frame_a_recouvrir (f : FrameAllocator) (m : Mem)
  : option (FrameAllocator * option Z) :=
  match candidate f m with
  | None => None
  | Some (f, None) =>
      Some (mk_fa (regions f) (freed_head f) (total f) (used f) (allocations f) (frees f)
              (wrapping_add64 (failures f) 1) (high_watermark f) (libres f), None)
  | Some (f, Some phys) =>
      if u64_max <=? used f + 1 then None
      else Some (mk_fa (regions f) (freed_head f) (total f) (used f + 1)
                   (wrapping_add64 (allocations f) 1) (frees f) (failures f)
                   (Z.max (high_watermark f) (used f + 1)) (libres f), Some phys)
  end.

Definition alloc_frame (f : FrameAllocator) (m : Mem)
  : option (FrameAllocator * Mem * option Z) :=
  match alloc_frame_a_recouvrir f m with
  | None => None
  | Some (f, None) => Some (f, m, None)
  | Some (f, Some phys) => Some (f, zero_page m phys, Some phys)
  end.

Definition free_frame (s : FrameAllocator * Mem) (phys : Z) : option (FrameAllocator * Mem) :=
  let '(f, m) := s in
  let phys := page_bas phys in
  if negb (FramesLibres.couverte (libres f) phys) then None
  else if used f =? 0 then None
  else match FramesLibres.marque_libre (libres f) phys with
       | (_, false) => None
       | (l, true) =>
           Some (mk_fa (regions f) (Some phys) (total f) (used f - 1) (allocations f)
                   (wrapping_add64 (frees f) 1) (failures f) (high_watermark f) l,
                 ecrit_mot m phys (default FREE_LIST_END (freed_head f)))
       end.

(** A chunk under one acquisition of the lock, and a batch cut in chunks of [taille] through
    the stack buffer [tampon]. *)
Fixpoint free_tranche (s : FrameAllocator * Mem) (tranche : list Z)
  : option (FrameAllocator * Mem) :=
  match tranche with
  | [] => Some s
  | brute :: t => match free_frame s brute with Some s' => free_tranche s' t | None => None end
  end.

Definition TRANCHE_LIBERATION_MAX : Z := 512.
Definition regle_tranche_liberation (taille : Z) : Z :=
  Z.max 1 (Z.min taille TRANCHE_LIBERATION_MAX).

Fixpoint lot_boucle (taille : Z) (s : FrameAllocator * Mem) (tampon lot : list Z)
  : option (FrameAllocator * Mem) :=
  match lot with
  | [] => match tampon with [] => Some s | _ => free_tranche s tampon end
  | phys :: lot =>
      let tampon := tampon ++ [phys] in
      if Z.of_nat (length tampon) =? taille then
        match free_tranche s tampon with
        | Some s' => lot_boucle taille s' [] lot
        | None => None
        end
      else lot_boucle taille s tampon lot
  end.
Definition free_frames_lot (taille : Z) (s : FrameAllocator * Mem) (lot : list Z)
  : option (FrameAllocator * Mem) := lot_boucle taille s [] lot.

Definition frame_stats (f : FrameAllocator) : Z * Z * Z :=
  (used f, Z.max (total f - used f) 0, total f).

(** ** What the allocator owns *)

(** The free list threaded through memory from [head]. *)
Fixpoint chaine (m : Mem) (head : option Z) (l : list Z) : Prop :=
  match l with
  | [] => head = None
  | p :: l => head = Some p /\ chaine m (if m p =? FREE_LIST_END then None else Some (m p)) l
  end.

Definition vierges (regions : list (Z * Z)) : list Z :=
  concat (map (fun r => FramesLibres.frames_entre r.1 r.2) regions).

Definition region_ok (r : Z * Z) : Prop :=
  FramesLibres.frame_ok r.1 /\ r.2 mod PAGE_SIZE = 0 /\ r.1 <= r.2.

(** [vivantes] are the frames handed out, [l] the free list, [v] every frame declared. *)
Record possede (f : FrameAllocator) (m : Mem) (vivantes v : gset Z) (l : list Z) : Prop := {
  po_bitmap : FramesLibres.decrit (libres f) v (list_to_set l);
  po_chaine : chaine m (freed_head f) l;
  po_sans_double : NoDup l;
  po_regions : Forall region_ok (regions f);
  po_vierges : NoDup (vierges (regions f));
  po_partage : v = vivantes ∪ list_to_set l ∪ list_to_set (vierges (regions f));
  po_viv_libres : vivantes ## list_to_set l;
  po_viv_vierges : vivantes ## list_to_set (vierges (regions f));
  po_lib_vierges : list_to_set l ## (list_to_set (vierges (regions f)) : gset Z);
  po_used : used f = Z.of_nat (size vivantes);
  po_total : total f = Z.of_nat (size v) /\ total f < u64_max;
  po_borne : forall q, q ∈ v -> q < 2 ^ 52
}.

End Frames.

(** The frame allocator hands out every frame of its regions at most once at a time: the
    declared frames are at every moment divided between the ones in use, the free list and
    the virgin parts of the regions. *)

Module FramesProofs.
Import Frames.
Import FramesLibres(frame_ok, frames_entre, decrit, couverte, TAILLE_PAGE, d_frames, d_valides).
Import FramesLibresProofs.

(** ** Virgin regions *)

Lemma frames_entre_cons a b :
  a + PAGE_SIZE <= b -> frames_entre a b = a :: frames_entre (a + PAGE_SIZE) b.
Proof.
  unfold frames_entre, PAGE_SIZE, FramesLibres.div_ceil, FramesLibres.TAILLE_PAGE. intros H.
  rewrite seqZ_cons by (Z.to_euclidean_division_equations; lia).
  rewrite map_cons. f_equal; [lia|].
  replace (Z.pred ((b - a + 4096 - 1) / 4096)) with ((b - (a + 4096) + 4096 - 1) / 4096)
    by (Z.to_euclidean_division_equations; lia).
  rewrite <-(Z.add_0_r (Z.succ 0)), <-fmap_add_seqZ. rewrite <-list_fmap_compose.
  apply map_ext. intros i. simpl. lia.
Qed.

Lemma frames_entre_nil a b : b <= a -> frames_entre a b = [].
Proof.
  unfold frames_entre, FramesLibres.div_ceil, FramesLibres.TAILLE_PAGE. intros H.
  rewrite seqZ_nil; [done|]. Z.to_euclidean_division_equations. lia.
Qed.

Lemma NoDup_frames_entre a b : NoDup (frames_entre a b).
Proof.
  unfold frames_entre. change (map ?f ?l) with (f <$> l).
  apply (NoDup_fmap_2_strong); [|apply NoDup_seqZ]. unfold FramesLibres.TAILLE_PAGE. intros. lia.
Qed.

Lemma region_sans_frame r :
  region_ok r -> r.2 < r.1 + PAGE_SIZE -> frames_entre r.1 r.2 = [].
Proof.
  intros ([_ H1] & H2 & H3) H. apply frames_entre_nil.
  unfold PAGE_SIZE, FramesLibres.TAILLE_PAGE in *. Z.to_euclidean_division_equations. lia.
Qed.

Lemma vierges_cons r rs : vierges (r :: rs) = frames_entre r.1 r.2 ++ vierges rs.
Proof. done. Qed.

Lemma avance_spec rs :
  Forall region_ok rs ->
  match avance rs with
  | Some (p, rs') => vierges rs = p :: vierges rs' /\ Forall region_ok rs'
  | None => vierges rs = []
  end.
Proof.
  induction 1 as [|[a b] rs Hr Hrs IH]; [done|]. cbn [avance]. rewrite vierges_cons.
  destruct (Z.leb_spec (a + PAGE_SIZE) b) as [Hle|Hlt].
  - simpl. rewrite frames_entre_cons by done. split; [done|]. constructor; [|done].
    destruct Hr as ([? ?] & ? & ?). simpl in *. unfold region_ok, frame_ok, PAGE_SIZE in *. simpl.
    unfold FramesLibres.TAILLE_PAGE in *. Z.to_euclidean_division_equations. lia.
  - rewrite (region_sans_frame (a, b)) by done. destruct (avance rs) as [[p rs']|]; [|done].
    destruct IH as [-> ?]. rewrite vierges_cons, (region_sans_frame (a, b)) by done.
    split; [done|by constructor].
Qed.

(** ** The free list in memory *)

Lemma chaine_ext m m' h l : (forall p, p ∈ l -> m' p = m p) -> chaine m h l -> chaine m' h l.
Proof.
  revert h. induction l as [|p l IH]; intros h He; [done|]. simpl. intros [-> Hc].
  split; [done|]. rewrite He by set_solver. apply IH; [set_solver|done].
Qed.

(** Writes outside the free frames leave the allocator as it is. *)
Lemma possede_mem f m m' viv v l :
  possede f m viv v l -> (forall p, p ∈ l -> m' p = m p) -> possede f m' viv v l.
Proof. intros [] He. constructor; try done. by eapply chaine_ext. Qed.

Lemma frame_de f m viv v l q : possede f m viv v l -> q ∈ v -> frame_ok q.
Proof. intros P Hq. eapply d_frames; [apply P|done]. Qed.

Lemma candidate_spec f m viv v l :
  possede f m viv v l ->
  exists f' r, candidate f m = Some (f', r) /\ used f' = used f /\
  match r with
  | Some p => p ∈ v /\ (p ∉ viv) /\ used f + 1 < u64_max /\
      (exists l', forall f2, regions f2 = regions f' -> freed_head f2 = freed_head f' ->
        total f2 = total f' -> libres f2 = libres f' -> used f2 = used f + 1 ->
        possede f2 m ({[p]} ∪ viv) v l')
  | None => l = [] /\ vierges (regions f) = [] /\ f' = f
  end.
Proof.
  intros P. pose proof P as [Hd Hc Hn Hr Hv Hp H1 H2 H3 Hu [Ht Ht'] Hb]. unfold candidate.
  assert (forall p, p ∈ v -> p ∉ viv -> used f + 1 < u64_max) as Hborne.
  { intros p Hpv Hpn. assert ({[p]} ∪ viv ⊆ v) as Hsub by set_solver.
    apply subseteq_size in Hsub. rewrite size_union, size_singleton in Hsub by set_solver. lia. }
  destruct (freed_head f) as [p|] eqn:Eh.
  - destruct l as [|p' l]; simpl in Hc; [done|]. destruct Hc as [[= ->] Hl].
    apply NoDup_cons in Hn as [Hnin Hn].
    assert (p' ∈ v) as Hpv by set_solver. assert (p' ∉ viv) as Hpn by set_solver.
    destruct (FramesLibres.marque_occupee (libres f) p') as [l2 ok] eqn:Em.
    apply (marque_occupee_decrit _ v (list_to_set (p' :: l))) in Em as [-> Hm];
      [|done|by eapply frame_de].
    rewrite bool_decide_true in Hm |- * by set_solver.
    do 2 eexists. split; [done|]. split; [done|]. split; [done|]. split; [done|].
    split; [by eapply Hborne|]. exists l. intros f2 E1 E2 E3 E4 E5. simpl in *.
    constructor; rewrite ?E1, ?E2, ?E3, ?E4, ?E5; try done.
    + replace (list_to_set l : gset Z) with (list_to_set (p' :: l) ∖ {[p']} : gset Z);
        [done|]. simpl. apply set_eq. intros x. set_solver.
    + rewrite Hp. simpl. clear. set_solver.
    + simpl in H1. clear -H1 Hnin. set_solver.
    + simpl in H3. clear -H2 H3. set_solver.
    + simpl in H3. clear -H3. set_solver.
    + rewrite size_union, size_singleton by set_solver. lia.
  - destruct l as [|p' l]; simpl in Hc; [|naive_solver].
    pose proof (avance_spec (regions f) Hr) as Ha.
    destruct (avance (regions f)) as [[p rs]|].
    + destruct Ha as [Hvi Hrs]. rewrite Hvi in Hv, Hp, H2, H3.
      apply NoDup_cons in Hv as [Hnin Hv]. simpl in *.
      assert (p ∈ v) as Hpv by set_solver. assert (p ∉ viv) as Hpn by set_solver.
      do 2 eexists. split; [done|]. split; [done|]. split; [done|]. split; [done|].
      split; [by eapply Hborne|]. exists []. intros f2 E1 E2 E3 E4 E5. simpl in *.
      constructor; rewrite ?E1, ?E2, ?E3, ?E4, ?E5; try done.
      * rewrite Hp. clear. set_solver.
      * clear -H2 Hnin. set_solver.
      * rewrite size_union, size_singleton by set_solver. lia.
    + do 2 eexists. split; [done|]. done.
Qed.

(** An allocation never fails an assertion; it gives a declared frame that nobody holds, and
    refuses only when no free frame and no virgin one are left. *)
Lemma alloc_a_recouvrir_spec f m viv v l :
  possede f m viv v l ->
  exists f' r, alloc_frame_a_recouvrir f m = Some (f', r) /\
  match r with
  | Some p => p ∈ v /\ (p ∉ viv) /\ exists l', possede f' m ({[p]} ∪ viv) v l'
  | None => l = [] /\ vierges (regions f) = [] /\ possede f' m viv v l
  end.
Proof.
  intros P. destruct (candidate_spec _ _ _ _ _ P) as (f1 & r & Hc & Hu & H).
  unfold alloc_frame_a_recouvrir. rewrite Hc. destruct r as [p|].
  - destruct H as (Hv & Hn & Hb & l' & Hl). rewrite Hu.
    destruct (Z.leb_spec u64_max (used f + 1)); [lia|]. do 2 eexists. split; [done|].
    split; [done|]. split; [done|]. exists l'. by apply Hl.
  - destruct H as (-> & Hv & ->). do 2 eexists. split; [done|]. split; [done|]. split; [done|].
    destruct P. by constructor.
Qed.

Lemma page_disjointe p q x :
  frame_ok p -> frame_ok q -> p <> q -> p <= x < p + PAGE_SIZE -> x <> q.
Proof.
  unfold frame_ok, PAGE_SIZE, TAILLE_PAGE. intros [? ?] [? ?] ? ? ->.
  Z.to_euclidean_division_equations. lia.
Qed.

(** A write inside a frame in use. *)
Lemma possede_ecrit f m viv v l q x w :
  possede f m viv v l -> q ∈ viv -> q <= x < q + PAGE_SIZE ->
  possede f (ecrit_mot m x w) viv v l.
Proof.
  intros Po Hq Hx. apply (possede_mem _ m); [done|]. intros p Hp. unfold ecrit_mot.
  destruct (Z.eqb_spec p x) as [->|]; [|done]. exfalso.
  eapply (page_disjointe q x x); [| | |done|done].
  - eapply frame_de; [done|]. rewrite (po_partage _ _ _ _ _ Po). clear -Hq. set_solver.
  - eapply frame_de; [done|]. rewrite (po_partage _ _ _ _ _ Po). clear -Hp. set_solver.
  - intros ->. pose proof (po_viv_libres _ _ _ _ _ Po) as Hd. clear -Hd Hq Hp. set_solver.
Qed.

Lemma alloc_frame_spec f m viv v l :
  possede f m viv v l ->
  exists f' m' r, alloc_frame f m = Some (f', m', r) /\
  match r with
  | Some p => p ∈ v /\ (p ∉ viv) /\ m' = zero_page m p /\
              exists l', possede f' m' ({[p]} ∪ viv) v l'
  | None => l = [] /\ vierges (regions f) = [] /\ m' = m /\ possede f' m' viv v l
  end.
Proof.
  intros P. destruct (alloc_a_recouvrir_spec _ _ _ _ _ P) as (f1 & r & Hc & H).
  unfold alloc_frame. rewrite Hc. destruct r as [p|].
  - destruct H as (Hv & Hn & l' & Hl). do 3 eexists. split; [done|]. split; [done|].
    split; [done|]. split; [done|]. exists l'. apply (possede_mem _ m); [done|].
    intros q Hq. unfold zero_page. zcas; [|done..]. exfalso.
    eapply (page_disjointe p q q); [by eapply frame_de| | |lia|done].
    + eapply frame_de; [exact Hl|]. rewrite (po_partage _ _ _ _ _ Hl). set_solver.
    + intros ->. pose proof (po_viv_libres _ _ _ _ _ Hl). set_solver.
  - destruct H as (? & ? & ?). do 3 eexists. split; [done|]. done.
Qed.

Lemma page_bas_frame q : frame_ok q -> q < 2 ^ 52 -> page_bas q = q.
Proof.
  unfold frame_ok, TAILLE_PAGE. intros [? ?] ?. rewrite page_bas_spec by (unfold u64_max; lia).
  Z.to_euclidean_division_equations. lia.
Qed.

(** A frame in use can be freed; freeing a frame that is already free, or that no region
    declared, fails an assertion. *)
Lemma free_frame_spec f m viv v l q :
  possede f m viv v l -> frame_ok q -> q < 2 ^ 52 ->
  (q ∈ viv -> exists f' m', free_frame (f, m) q = Some (f', m') /\
     possede f' m' (viv ∖ {[q]}) v (q :: l) /\ (forall x, x <> q -> m' x = m x)) /\
  (q ∈ l \/ (q ∉ v) -> free_frame (f, m) q = None).
Proof.
  intros P Hq Hb. pose proof P as [Hd Hc Hn Hr Hv Hp H1 H2 H3 Hu [Ht Ht'] Hbo].
  unfold free_frame. rewrite page_bas_frame by done.
  pose proof (d_valides _ _ _ Hd q Hq) as Hcov.
  destruct (FramesLibres.marque_libre (libres f) q) as [l2 ok] eqn:Em.
  apply (marque_libre_decrit _ v (list_to_set l)) in Em as [Hok Hm]; [|done..]. split.
  - intros Hviv. assert (q ∈ v) as Hqv by (rewrite Hp; clear -Hviv; set_solver).
    assert (q ∉ l) as Hql by (clear -Hviv H1; set_solver).
    apply Hcov in Hqv as Hcv. rewrite Hcv. cbn [negb].
    rewrite bool_decide_true in Hok by (clear -Hqv Hql; set_solver). subst ok.
    assert (0 < used f) as Hpos.
    { rewrite Hu. assert (size viv <> 0%nat); [|lia]. intros E%size_empty_iff. set_solver. }
    destruct (Z.eqb_spec (used f) 0); [lia|]. do 2 eexists. split; [done|]. split.
    + constructor; simpl; try done.
      * split; [done|]. set (X := default _ _).
        assert (ecrit_mot m q X q = X) as -> by (unfold ecrit_mot; by rewrite Z.eqb_refl).
        apply (chaine_ext m); [intros p Hpl; unfold ecrit_mot; zcas; congruence|].
        subst X. destruct (freed_head f) as [h|] eqn:Eh; simpl.
        2:{ done. }
        assert (h ∈ l) as Hh by (destruct l; simpl in Hc; [done|destruct Hc; set_solver]).
        assert (h < 2 ^ 52) by (apply Hbo; rewrite Hp; clear -Hh; set_solver).
        unfold FREE_LIST_END, u64_max. destruct (Z.eqb_spec h (2 ^ 64 - 1)); [lia|done].
      * by constructor.
      * rewrite Hp. apply set_eq. intros x. clear -Hviv.
        rewrite !elem_of_union, elem_of_difference, elem_of_singleton.
        destruct (decide (x = q)); set_solver.
      * clear -H1. set_solver.
      * clear -H2. set_solver.
      * clear -H2 H3 Hviv. set_solver.
      * rewrite Hu, size_difference by (clear -Hviv; set_solver). rewrite size_singleton.
        assert (size ({[q]} : gset Z) <= size viv)%nat as Hs by (apply subseteq_size; set_solver).
        rewrite size_singleton in Hs. lia.
    + intros x Hx. unfold ecrit_mot. zcas; done.
  - intros Hbad. destruct (couverte (libres f) q) eqn:Ecv; [|done]. cbn [negb].
    destruct (used f =? 0); [done|]. rewrite bool_decide_false in Hok; [by subst ok|].
    intros [Ha Hb']. destruct Hbad as [Hbad|Hbad]; clear -Ha Hb' Hbad; set_solver.
Qed.

(** The frees that fail an assertion. *)
Lemma free_refuse f m v (l : list Z) q :
  decrit (libres f) v (list_to_set l) -> frame_ok q -> q < 2 ^ 52 ->
  free_frame (f, m) q = None <->
  FramesLibres.est_libre (libres f) q = true \/ couverte (libres f) q = false \/ used f = 0.
Proof.
  intros Hd Hq Hb. unfold free_frame. rewrite page_bas_frame by done.
  destruct (FramesLibres.marque_libre (libres f) q) as [l2 ok] eqn:Em.
  apply (marque_libre_decrit _ v (list_to_set l)) in Em as [Hok _]; [|done..].
  pose proof (d_valides _ _ _ Hd q Hq) as Hv. pose proof (FramesLibres.d_libres _ _ _ Hd q Hq) as Hl.
  destruct (couverte (libres f) q); cbn [negb]; [|naive_solver].
  destruct (Z.eqb_spec (used f) 0); [naive_solver|]. destruct ok; symmetry in Hok.
  - apply bool_decide_eq_true in Hok as [_ Hn]. naive_solver.
  - apply bool_decide_eq_false in Hok. split; [|done]. intros _. left. apply Hl.
    destruct (decide (q ∈ (list_to_set l : gset Z))); [done|]. destruct Hok. naive_solver.
Qed.

(** ** Declaring a region *)

Definition nouvelles (start end_ : Z) : list Z :=
  frames_entre (page_bas (start + PAGE_SIZE - 1)) (page_bas end_).

Lemma add_region_spec f m viv v l start end_ f' :
  possede f m viv v l -> 0 <= start -> start + PAGE_SIZE < 2 ^ 52 -> 0 <= end_ < 2 ^ 52 ->
  (forall q, q ∈ nouvelles start end_ -> q ∉ v) ->
  add_region f start end_ = Some f' ->
  possede f' m viv (v ∪ list_to_set (nouvelles start end_)) l.
Proof.
  intros P Hs Hs' He Hnew H. pose proof P as [Hd Hc Hn Hr Hv Hp H1 H2 H3 Hu [Ht Ht'] Hbo].
  unfold add_region in H. cbv zeta in H. unfold nouvelles in *. unfold PAGE_SIZE in *.
  assert (2 ^ 52 < u64_max) by (unfold u64_max; lia).
  rewrite !page_bas_spec in H, Hnew |- * by lia.
  set (a := (start + 4096 - 1) / 4096 * 4096) in *. set (b := end_ / 4096 * 4096) in *.
  assert (frame_ok a) as Ha.
  { unfold frame_ok, TAILLE_PAGE, a. Z.to_euclidean_division_equations. lia. }
  assert (b mod TAILLE_PAGE = 0 /\ b < 2 ^ 52) as [Hb Hb'].
  { unfold TAILLE_PAGE, b. Z.to_euclidean_division_equations. lia. }
  destruct (Z.leb_spec b a) as [Hle|Hlt].
  { simplify_eq. rewrite frames_entre_nil by done. simpl. by rewrite union_empty_r_L. }
  destruct (Z.leb_spec u64_max (total f + (b - a) / 4096)); [done|].
  destruct (FramesLibres.couvre (libres f) a b) as [lib|] eqn:Ec; [|done]. injection H as <-.
  apply (couvre_decrit _ v (list_to_set l)) in Ec as (v' & Hd' & Hv');
    [|done|apply Ha|unfold TAILLE_PAGE; destruct Ha; lia|destruct Ha; lia].
  assert (v' = v ∪ list_to_set (frames_entre a b)) as ->.
  { apply set_eq. intros q. rewrite Hv', elem_of_union, elem_of_list_to_set.
    rewrite elem_frames_entre by done. split; [|]; (intros [?|Hq]; [by left|right]).
    - destruct Hq as (Hq & ? & ?). split; [done|]. unfold TAILLE_PAGE in *. lia.
    - destruct Hq as ([? Hq] & ? & ?). split_and!; try done. destruct Ha.
      unfold TAILLE_PAGE in *. Z.to_euclidean_division_equations. lia. }
  assert (vierges (regions f ++ [(a, b)]) = vierges (regions f) ++ frames_entre a b) as Hvi.
  { unfold vierges. rewrite map_app, concat_app. simpl. by rewrite app_nil_r. }
  assert (list_to_set (frames_entre a b) ## v) as Hdis.
  { intros q Hq%elem_of_list_to_set. by apply Hnew. }
  constructor; simpl; rewrite ?Hvi; try done.
  - apply Forall_app. split; [done|]. constructor; [|done]. unfold region_ok. simpl.
    split_and!; try done. lia.
  - apply NoDup_app. split_and!; [done| |apply NoDup_frames_entre].
    intros q Hq Hq'. apply (Hnew q Hq'). rewrite Hp. clear -Hq. set_solver.
  - rewrite list_to_set_app_L, Hp. clear. set_solver.
  - rewrite list_to_set_app_L. rewrite Hp in Hdis. clear -H2 Hdis. set_solver.
  - rewrite list_to_set_app_L. rewrite Hp in Hdis. clear -H3 Hdis. set_solver.
  - rewrite size_union by (clear -Hdis; set_solver).
    rewrite size_list_to_set by apply NoDup_frames_entre.
    assert (Z.of_nat (length (frames_entre a b)) = (b - a) / 4096) as Hlen.
    { unfold frames_entre. rewrite length_map, length_seqZ. unfold FramesLibres.div_ceil.
      destruct Ha as [? Ha]. unfold TAILLE_PAGE in *. Z.to_euclidean_division_equations. lia. }
    lia.
  - intros q [?|Hq%elem_of_list_to_set]%elem_of_union; [auto|].
    apply elem_frames_entre in Hq as [_ ?]; [lia|done..].
Qed.

Lemma vide_possede m : possede vide m ∅ ∅ [].
Proof.
  constructor; simpl; try done; [apply neuf_decrit|by constructor|by constructor].
Qed.

(** ** Batches *)

Lemma free_tranche_app s t1 t2 :
  free_tranche s (t1 ++ t2) =
    match free_tranche s t1 with Some s' => free_tranche s' t2 | None => None end.
Proof.
  revert s. induction t1 as [|p t1 IH]; intros s; [done|]. cbn [free_tranche app].
  destruct (free_frame s p); [apply IH|done].
Qed.

Lemma lot_boucle_spec taille s tampon lot :
  lot_boucle taille s tampon lot = free_tranche s (tampon ++ lot).
Proof.
  revert s tampon. induction lot as [|p lot IH]; intros s tampon; cbn [lot_boucle].
  { rewrite app_nil_r. by destruct tampon. }
  destruct (_ =? taille).
  - rewrite (cons_middle p tampon lot), app_assoc, (free_tranche_app s (tampon ++ [p]) lot).
    destruct (free_tranche s _); [apply IH|done].
  - rewrite IH. f_equal. by rewrite <-app_assoc.
Qed.

(** ** Traces *)

Inductive Evt := Region (a b : Z) | Alloue | Libere (q : Z) | Ecrit (x w : Z).

(** The frames in use are the ghost part of the state; a client writes only in them. *)
Definition Etat : Type := FrameAllocator * Mem * gset Z.
Inductive pas : Etat -> Evt -> Etat -> Prop :=
| p_region f m viv a b f' :
    0 <= a -> a + PAGE_SIZE < 2 ^ 52 -> 0 <= b < 2 ^ 52 ->
    (forall q, q ∈ nouvelles a b -> couverte (libres f) q = false) ->
    add_region f a b = Some f' -> pas (f, m, viv) (Region a b) (f', m, viv)
| p_alloue f m viv f' m' p :
    alloc_frame f m = Some (f', m', Some p) -> pas (f, m, viv) Alloue (f', m', {[p]} ∪ viv)
| p_refuse f m viv f' m' :
    alloc_frame f m = Some (f', m', None) -> pas (f, m, viv) Alloue (f', m', viv)
| p_libere f m viv q f' m' :
    q ∈ viv -> free_frame (f, m) q = Some (f', m') -> pas (f, m, viv) (Libere q) (f', m', viv ∖ {[q]})
| p_ecrit f m viv q x w :
    q ∈ viv -> q <= x < q + PAGE_SIZE -> pas (f, m, viv) (Ecrit x w) (f, ecrit_mot m x w, viv).

Inductive atteint : Etat -> Prop :=
| a_neuf m : atteint (vide, m, ∅)
| a_pas s e s' : atteint s -> pas s e s' -> atteint s'.

Lemma pas_possede s e s' v l :
  possede s.1.1 s.1.2 s.2 v l -> pas s e s' -> exists v' l', possede s'.1.1 s'.1.2 s'.2 v' l'.
Proof.
  intros P Hp. destruct Hp as [f m viv a b f' H0 H1 H2 Hn Ha|f m viv f' m' p Ha|f m viv f' m' Ha
    |f m viv q f' m' Hq Ha|f m viv q x w Hq Hx]; cbn [fst snd] in *.
  - eexists _, _. eapply add_region_spec; eauto. intros q Hq Hv.
    apply (d_valides _ _ _ (po_bitmap _ _ _ _ _ P)) in Hv; [|by eapply frame_de].
    rewrite Hn in Hv by done. done.
  - destruct (alloc_frame_spec _ _ _ _ _ P) as (f1 & m1 & r & E & H). rewrite Ha in E.
    injection E as <- <- <-. destruct H as (_ & _ & _ & l' & ?). eauto.
  - destruct (alloc_frame_spec _ _ _ _ _ P) as (f1 & m1 & r & E & H). rewrite Ha in E.
    injection E as <- <- <-. destruct H as (_ & _ & _ & ?). eauto.
  - assert (q ∈ v) as Hv by (rewrite (po_partage _ _ _ _ _ P); clear -Hq; set_solver).
    destruct (free_frame_spec _ _ _ _ _ q P) as [H _];
      [by eapply frame_de|by eapply po_borne|].
    destruct (H Hq) as (f1 & m1 & E & P' & _). rewrite Ha in E. injection E as <- <-. eauto.
  - exists v, l. by eapply possede_ecrit.
Qed.

Lemma atteint_possede s : atteint s -> exists v l, possede s.1.1 s.1.2 s.2 v l.
Proof.
  induction 1 as [m|s e s' _ (v & l & P) Hp]; [eauto using vide_possede|].
  by eapply pas_possede.
Qed.

(** ** Properties *)

(** C26. A physical frame has one owner: after any sequence of region declarations,
    allocations, frees of frames in use and writes by their owners, an allocation gives a
    declared frame nobody holds, zeroed, and refuses only when every declared frame is in
    use; freeing a frame in use succeeds and touches no frame but that one; the frees that fail
    an assertion are exactly those of a frame already free, of one declared by no region, and
    those made when no frame is in use; the count of frames in use is exact. The trace frees
    only frames in use: [vierge_liberee] is what freeing another one leads to. *)
Theorem frames_un_proprietaire f m viv :
  atteint (f, m, viv) ->
  used f = Z.of_nat (size viv) /\
  (exists f' m' r, alloc_frame f m = Some (f', m', r) /\
     match r with
     | Some p => couverte (libres f) p = true /\ (p ∉ viv) /\
                 (forall x, p <= x < p + PAGE_SIZE -> m' x = 0) /\
                 (forall x, ~ p <= x < p + PAGE_SIZE -> m' x = m x)
     | None => used f = total f
     end) /\
  (forall q, q ∈ viv -> exists f' m', free_frame (f, m) q = Some (f', m') /\
     forall x, x <> q -> m' x = m x) /\
  (forall q, frame_ok q -> q < 2 ^ 52 ->
     (free_frame (f, m) q = None <->
      FramesLibres.est_libre (libres f) q = true \/ couverte (libres f) q = false \/ used f = 0)).
Proof.
  intros (v & l & P)%atteint_possede. simpl in P. pose proof P as [Hd _ _ _ _ Hp _ _ _ Hu [Ht _] Hb].
  split; [done|]. split; [|split].
  - destruct (alloc_frame_spec _ _ _ _ _ P) as (f' & m' & r & E & H). exists f', m', r.
    split; [done|]. destruct r as [p|].
    + destruct H as (Hv & Hn & -> & _). split; [|split; [done|]].
      { apply (d_valides _ _ _ Hd); [by eapply frame_de|done]. }
      unfold zero_page. split; intros x Hx; zcas; done.
    + destruct H as (-> & Hvi & _). rewrite Hu, Ht, Hp, Hvi. simpl. by rewrite !union_empty_r_L.
  - intros q Hq. assert (q ∈ v) as Hv by (rewrite Hp; clear -Hq; set_solver).
    destruct (free_frame_spec _ _ _ _ _ q P) as [H _]; [by eapply frame_de|auto|].
    destruct (H Hq) as (f' & m' & ? & _ & ?). eauto.
  - intros q Hok Hq. by eapply free_refuse.
Qed.

Lemma frames_un_proprietaire_witness :
  exists f m, atteint (f, m, {[4096]}) /\ used f = Z.of_nat (size ({[4096]} : gset Z)).
Proof.
  destruct (add_region vide 1 20480) as [f1|] eqn:E1; [|vm_compute in E1; discriminate E1].
  destruct (alloc_frame f1 (fun _ => 7)) as [[[f2 m2] r]|] eqn:E2;
    [|vm_compute in E1; injection E1 as <-; vm_compute in E2; discriminate E2].
  assert (r = Some 4096) as ->.
  { vm_compute in E1; injection E1 as <-; vm_compute in E2; injection E2; intros; congruence. }
  assert (atteint (f2, m2, {[4096]})) as Ha.
  { replace ({[4096]} : gset Z) with ({[4096]} ∪ ∅ : gset Z) by set_solver.
    apply (a_pas (f1, fun _ => 7, ∅) Alloue); [|by apply p_alloue].
    apply (a_pas (vide, fun _ => 7, ∅) (Region 1 20480)); [apply a_neuf|].
    apply p_region; [unfold PAGE_SIZE; lia..| |exact E1]. intros q _.
    rewrite couverte_bit. destruct (FramesLibres.position _ q) as [[i b]|] eqn:E; [|reflexivity].
    apply position_Some in E. simpl in E. lia. }
  exists f2, m2. split; [exact Ha|]. apply (frames_un_proprietaire f2 m2 {[4096]} Ha).
Defined.

(** A declared frame that was never served is not refused: once freed it is in the free list and
    still in the virgin part of its region, and two allocations serve it. *)
Theorem vierge_liberee :
  (f1 ← add_region vide 4096 20480;
   '(f2, m2, premiere) ← alloc_frame f1 (fun _ => 0);
   '(f3, m3) ← free_frame (f2, m2) 8192;
   '(f4, m4, deuxieme) ← alloc_frame f3 m3;
   '(_, _, troisieme) ← alloc_frame f4 m4;
   Some (premiere, deuxieme, troisieme)) = Some (Some 4096, Some 8192, Some 8192).
Proof. vm_compute. reflexivity. Qed.

(** Returning frames by chunks under one acquisition of the lock is returning them one
    by one: the same final state, and the same failed assertion, for every chunk size. *)
Theorem liberation_par_lots taille s lot :
  free_frames_lot (regle_tranche_liberation taille) s lot
    = fold_left (fun o q => match o with Some s => free_frame s q | None => None end) lot (Some s).
Proof.
  unfold free_frames_lot. rewrite lot_boucle_spec. simpl. revert s.
  assert (forall l : list Z, fold_left (fun o q => match o with Some s => free_frame s q | None => None end)
            l None = None) as Hnone by (induction l; done).
  induction lot as [|p lot IH]; intros s; [done|]. cbn [free_tranche fold_left].
  destruct (free_frame s p); [apply IH|by rewrite Hnone].
Qed.

End FramesProofs.
