(* ===== verification/Tables.v ===== *)
(** Address spaces, [AddressSpace] of [src/kernel/memory/virtual.rs]: four-level page tables
    in physical memory, the frames they own and the resident counters.

    A function runs on the allocator, the memory and one address space; [inr tt] is a failed
    assertion, [expect] or overflow check of the source. The user slot chosen at boot is a
    parameter of the section, [choisit_creneau] being the choice. *)

From S2P Require Import Prelude FramesLibres Frames.

Module Tables.
Import Frames.
Open Scope os_scope.

Definition USER_SPACE_BASE : Z := 0x400000000000.
Definition USER_SLOTS : Z := 64.
Definition USER_SPACE_SIZE : Z := USER_SLOTS * 512 * 1024 * 1024 * 1024.

Definition PTE_PRESENT : Z := Z.shiftl 1 0.
Definition PTE_WRITE : Z := Z.shiftl 1 1.
Definition PTE_USER : Z := Z.shiftl 1 2.
Definition PTE_WRITE_THROUGH : Z := Z.shiftl 1 3.
Definition PTE_HUGE : Z := Z.shiftl 1 7.
Definition PTE_NO_EXEC : Z := Z.shiftl 1 63.
Definition PTE_RSS_KIND_SHIFT : Z := 9.
Definition PTE_RSS_KIND_MASK : Z := Z.shiftl 7 PTE_RSS_KIND_SHIFT.
Definition ADDR_MASK : Z := 0x000FFFFFFFFFF000.

Definition pml4_index (virt : Z) : Z := Z.land (Z.shiftr virt 39) 0x1FF.
(** [entry & PTE_PRESENT != 0] *)
Definition present (e : Z) : bool := negb (Z.land e PTE_PRESENT =? 0).

(** The [USER_SLOTS] consecutive free entries of the kernel table kept for user space. *)
Definition suite_libre (kernel : Z -> Z) (depart : Z) : bool :=
  (depart + USER_SLOTS <=? 256)
  && forallb (fun i => negb (present (kernel i))) (seqZ depart USER_SLOTS).
Definition choisit_creneau (kernel : Z -> Z) : Z :=
  let wanted := pml4_index USER_SPACE_BASE in
  if suite_libre kernel wanted then wanted
  else default 0 (List.find (suite_libre kernel) (seqZ 1 255)).

(** ** Resident counters *)

Inductive ResidentKind := Untracked | Anonymous | FilePrivate | Shared | Device.
#[export] Instance ResidentKind_eq_dec : EqDecision ResidentKind.
Proof. solve_decision. Defined.

Definition bits (k : ResidentKind) : Z :=
  Z.shiftl (match k with
            | Untracked => 0 | Anonymous => 1 | FilePrivate => 2 | Shared => 3 | Device => 4
            end) PTE_RSS_KIND_SHIFT.
Definition from_entry (entry : Z) : ResidentKind :=
  let code := Z.shiftr (Z.land entry PTE_RSS_KIND_MASK) PTE_RSS_KIND_SHIFT in
  if code =? 1 then Anonymous else if code =? 2 then FilePrivate
  else if code =? 3 then Shared else if code =? 4 then Device else Untracked.

Record ResidentStats := mk_rs {
  total_pages : Z; anonymous_pages : Z; file_private_pages : Z; shared_pages : Z;
  device_pages : Z; untracked_pages : Z
}.
Definition rs_vide : ResidentStats := mk_rs 0 0 0 0 0 0.

Definition compteur (k : ResidentKind) (r : ResidentStats) : Z :=
  match k with
  | Untracked => untracked_pages r | Anonymous => anonymous_pages r
  | FilePrivate => file_private_pages r | Shared => shared_pages r | Device => device_pages r
  end.
Definition ajoute (k : ResidentKind) (d : Z) (r : ResidentStats) : ResidentStats :=
  let '(mk_rs t a f s v u) := r in
  match k with
  | Untracked => mk_rs (t + d) a f s v (u + d)
  | Anonymous => mk_rs (t + d) (a + d) f s v u
  | FilePrivate => mk_rs (t + d) a (f + d) s v u
  | Shared => mk_rs (t + d) a f (s + d) v u
  | Device => mk_rs (t + d) a f s (v + d) u
  end.

Definition mapped (r : ResidentStats) (entry : Z) : option ResidentStats :=
  if (u64_max <=? total_pages r + 1) || (u64_max <=? compteur (from_entry entry) r + 1)
  then None else Some (ajoute (from_entry entry) 1 r).
Definition unmapped (r : ResidentStats) (entry : Z) : option ResidentStats :=
  if (total_pages r <? 1) || (compteur (from_entry entry) r <? 1)
  then None else Some (ajoute (from_entry entry) (-1) r).

(** ** The address space *)

Record AddressSpace := mk_as {
  pml4 : Z;
  tables : list Z;
  pages : gset Z;
  resident : ResidentStats
}.

Record Monde := mk_monde { fa : FrameAllocator; mem : Mem; espace : AddressSpace }.

Definition P : Type -> Type := M Monde unit.
Definition panique {A} : P A := echoue tt.

Definition lit_mem (a : Z) : P Z := fun w => (w, inl (mem w a)).
Definition ecrit_mem (a v : Z) : P unit :=
  change (fun w => mk_monde (fa w) (ecrit_mot (mem w) a v) (espace w)).
Definition change_espace (f : AddressSpace -> AddressSpace) : P unit :=
  change (fun w => mk_monde (fa w) (mem w) (f (espace w))).
Definition l_espace : P AddressSpace := fun w => (w, inl (espace w)).

Definition alloue_frame : P (option Z) := fun w =>
  match alloc_frame (fa w) (mem w) with
  | None => (w, inr tt)
  | Some (f, m, r) => (mk_monde f m (espace w), inl r)
  end.
Definition alloue_a_recouvrir : P (option Z) := fun w =>
  match alloc_frame_a_recouvrir (fa w) (mem w) with
  | None => (w, inr tt)
  | Some (f, r) => (mk_monde f (mem w) (espace w), inl r)
  end.
Definition rend_frame (phys : Z) : P unit := fun w =>
  match free_frame (fa w, mem w) phys with
  | None => (w, inr tt)
  | Some (f, m) => (mk_monde f m (espace w), inl tt)
  end.

Definition pousse_table (frame : Z) (s : AddressSpace) : AddressSpace :=
  mk_as (pml4 s) (tables s ++ [frame]) (pages s) (resident s).
Definition insere_page (frame : Z) (s : AddressSpace) : AddressSpace :=
  mk_as (pml4 s) (tables s) ({[frame]} ∪ pages s) (resident s).
Definition ote_page (frame : Z) (s : AddressSpace) : AddressSpace :=
  mk_as (pml4 s) (tables s) (pages s ∖ {[frame]}) (resident s).
Definition avec_resident (r : ResidentStats) (s : AddressSpace) : AddressSpace :=
  mk_as (pml4 s) (tables s) (pages s) r.

(** [(virt >> (12 + 9 * level)) & 0x1FF] and the address of a cell of a table. *)
Definition indice (virt level : Z) : Z := Z.land (Z.shiftr virt (12 + 9 * level)) 0x1FF.
Definition cellule (table index : Z) : Z := table + 8 * index.

(** The walk down to the entry that describes [virt]. *)
Fixpoint descend (virt : Z) (create : bool) (levels : list Z) (table : Z) : P (option Z) :=
  match levels with
  | [] => rend (Some (cellule table (indice virt 0)))
  | level :: levels =>
      let c := cellule table (indice virt level) in
      entry <- lit_mem c ;;
      if present entry then descend virt create levels (Z.land entry ADDR_MASK)
      else if negb create then rend None
      else
        r <- alloue_frame ;;
        match r with
        | None => rend None
        | Some frame =>
            change_espace (pousse_table frame) ;;;
            ecrit_mem c (Z.lor (Z.lor (Z.lor frame PTE_PRESENT) PTE_WRITE) PTE_USER) ;;;
            descend virt create levels frame
        end
  end.
Definition entry_mut (virt : Z) (create : bool) : P (option Z) :=
  s <- l_espace ;; descend virt create [3; 2; 1] (pml4 s).

Definition compte_resident (r : option ResidentStats) : P unit :=
  match r with Some r => change_espace (avec_resident r) | None => panique end.

Definition map (virt phys flags : Z) : P bool :=
  let new := Z.lor (Z.lor (Z.land phys ADDR_MASK) flags) PTE_PRESENT in
  r <- entry_mut virt true ;;
  match r with
  | None => rend false
  | Some c =>
      old <- lit_mem c ;;
      if present old && negb (old =? new) then rend false
      else
        ecrit_mem c new ;;;
        if negb (present old) then
          s <- l_espace ;; compte_resident (mapped (resident s) new) ;;; rend true
        else rend true
  end.

Definition map_accounted (virt phys flags : Z) (kind : ResidentKind) : P bool :=
  map virt phys
    (Z.lor (Z.land flags (Z.lxor (u64_max - 1) PTE_RSS_KIND_MASK)) (bits kind)).
Definition map_foreign (virt phys flags : Z) : P bool := map virt phys flags.
Definition map_foreign_accounted (virt phys flags : Z) (kind : ResidentKind) : P bool :=
  map_accounted virt phys flags kind.

Definition translate (virt : Z) : P (option Z) :=
  r <- entry_mut virt false ;;
  match r with
  | None => rend None
  | Some c =>
      entry <- lit_mem c ;;
      rend (if present entry
            then Some (Z.lor (Z.land entry ADDR_MASK) (Z.land virt (PAGE_SIZE - 1)))
            else None)
  end.

Definition writable (virt : Z) : P bool :=
  let droits := Z.lor (Z.lor PTE_PRESENT PTE_WRITE) PTE_USER in
  r <- entry_mut virt false ;;
  match r with
  | None => rend false
  | Some c => entry <- lit_mem c ;; rend (Z.land entry droits =? droits)
  end.

(** [while page < end { ..; page += PAGE_SIZE }] from an aligned start: the pages visited. *)
Definition pages_de (start end_ : Z) : list Z := FramesLibres.frames_entre start end_.

(** [(virt + len + PAGE_SIZE - 1) & !(PAGE_SIZE - 1)], overflow checked. *)
Definition fin_arrondie (virt len : Z) : P Z :=
  if u64_max <=? virt + len + PAGE_SIZE then panique
  else rend (page_bas (virt + len + PAGE_SIZE - 1)).

Fixpoint alloue_boucle (ps : list Z) (flags : Z) (kind : ResidentKind) : P bool :=
  match ps with
  | [] => rend true
  | page :: ps =>
      t <- translate page ;;
      match t with
      | Some _ => alloue_boucle ps flags kind
      | None =>
          r <- alloue_frame ;;
          match r with
          | None => rend false
          | Some frame =>
              change_espace (insere_page frame) ;;;
              ok <- map_accounted page frame flags kind ;;
              if ok then alloue_boucle ps flags kind else rend false
          end
      end
  end.
Definition map_alloc_accounted (virt len flags : Z) (kind : ResidentKind) : P bool :=
  end_ <- fin_arrondie virt len ;; alloue_boucle (pages_de (page_bas virt) end_) flags kind.
Definition map_alloc (virt len flags : Z) : P bool := map_alloc_accounted virt len flags Untracked.

(** A new frame filled with [contenu] (one word per address offset) before it is published. *)
Definition copie_page (contenu : Z -> Z) (frame : Z) : P unit :=
  change (fun w => mk_monde (fa w)
    (fun x => if (frame <=? x) && (x <? frame + PAGE_SIZE) then contenu (x - frame) else mem w x)
    (espace w)).
Definition map_new_frame_accounted (virt : Z) (contenu : Z -> Z) (longueur flags : Z)
  (kind : ResidentKind) : P bool :=
  if negb (Z.land virt (PAGE_SIZE - 1) =? 0) || negb (longueur =? PAGE_SIZE) then rend false
  else
    r <- alloue_a_recouvrir ;;
    match r with
    | None => rend false
    | Some frame =>
        copie_page contenu frame ;;;
        change_espace (insere_page frame) ;;;
        ok <- map_accounted virt frame flags kind ;;
        if ok then rend true
        else
          s <- l_espace ;;
          (if bool_decide (frame ∈ pages s)
           then change_espace (ote_page frame) ;;; rend_frame frame else rend tt) ;;;
          rend false
    end.

Fixpoint protege_pages (ps : list Z) (flags : Z) (changed : bool) : P bool :=
  match ps with
  | [] => rend changed
  | page :: ps =>
      r <- entry_mut page false ;;
      match r with
      | None => protege_pages ps flags changed
      | Some c =>
          entry <- lit_mem c ;;
          let new := Z.lor (Z.lor (Z.land entry (Z.lor ADDR_MASK PTE_RSS_KIND_MASK)) flags)
                       PTE_PRESENT in
          if present entry && negb (entry =? new)
          then ecrit_mem c new ;;; protege_pages ps flags true
          else protege_pages ps flags changed
      end
  end.
(** The range to invalidate on the other cores, when something changed. *)
Definition prepare_protect (virt len flags : Z) : P (option (Z * Z)) :=
  end_ <- fin_arrondie virt len ;;
  changed <- protege_pages (pages_de (page_bas virt) end_) flags false ;;
  rend (if changed then Some (page_bas virt, Z.max (end_ - page_bas virt) 0) else None).

Fixpoint demappe_pages (ps : list Z) (retired : list Z) : P (list Z) :=
  match ps with
  | [] => rend retired
  | page :: ps =>
      r <- entry_mut page false ;;
      match r with
      | None => demappe_pages ps retired
      | Some c =>
          old <- lit_mem c ;;
          if present old then
            ecrit_mem c 0 ;;;
            s <- l_espace ;;
            compte_resident (unmapped (resident s) old) ;;;
            let phys := Z.land old ADDR_MASK in
            demappe_pages ps
              (if bool_decide (phys ∈ pages s) then retired ++ [phys] else retired)
          else demappe_pages ps retired
      end
  end.
Record UnmapRetirement := mk_ur { inv_start : Z; inv_len : Z; frames : list Z }.
Definition prepare_unmap (virt len : Z) : P UnmapRetirement :=
  end_ <- fin_arrondie virt len ;;
  retired <- demappe_pages (pages_de (page_bas virt) end_) [] ;;
  rend (mk_ur (page_bas virt) (Z.max (end_ - page_bas virt) 0) retired).

Fixpoint rend_frames (fs : list Z) : P unit :=
  match fs with
  | [] => rend tt
  | phys :: fs =>
      s <- l_espace ;;
      (if bool_decide (phys ∈ pages s)
       then change_espace (ote_page phys) ;;; rend_frame phys else rend tt) ;;;
      rend_frames fs
  end.
Definition finish_unmap (r : UnmapRetirement) : P unit := rend_frames (frames r).

Definition mapped_pages (s : AddressSpace) : Z := Z.of_nat (size (pages s)).
Definition owns_frame (s : AddressSpace) (phys : Z) : bool :=
  bool_decide (Z.land phys ADDR_MASK ∈ pages s).

Section Creneau.
Context (slot : Z).
Definition user_slot_base : Z := Z.shiftl slot 39.
Definition is_user_addr (virt : Z) : bool :=
  (user_slot_base <=? virt) && (virt <? user_slot_base + USER_SPACE_SIZE).

(** The kernel's top-level table copied, its user entries cleared. *)
Definition new (kernel_pml4 : Z) (w : FrameAllocator * Mem) : option (FrameAllocator * Mem * option AddressSpace) :=
  match alloc_frame w.1 w.2 with
  | None => None
  | Some (f, m, None) => Some (f, m, None)
  | Some (f, m, Some p) =>
      let copie := fun x => if (p <=? x) && (x <? p + PAGE_SIZE) then m (kernel_pml4 + (x - p)) else m x in
      let efface := fold_left (fun m i => ecrit_mot m (cellule p (slot + i)) 0) (seqZ 0 USER_SLOTS) copie in
      Some (f, efface, Some (mk_as p [] ∅ rs_vide))
  end.
End Creneau.

End Tables.
