(* ===== verification/TablesArbre.v ===== *)
(** The page tables of a space as a tree: which table a walk reaches, that two addresses
    share a table exactly when they share the indices above it, and how adding a table or
    writing an entry changes the walks. *)

From S2P Require Import Prelude FramesLibres Frames Tables.

Module TablesArbre.
Import Frames FramesProofs Tables.
Import FramesLibres(frame_ok).

(** ** Indices and cells *)

(** The index used at depth [k], 0 being the root. *)
Definition idx (v : Z) (k : nat) : Z := indice v (3 - Z.of_nat k).

Lemma indice_div v l : 0 <= l -> indice v l = v / 2 ^ (12 + 9 * l) mod 512.
Proof.
  intros. unfold indice. rewrite Z.shiftr_div_pow2 by lia.
  change 0x1FF with (Z.ones 9). rewrite Z.land_ones by lia. done.
Qed.

Lemma indice_borne v l : 0 <= l -> 0 <= indice v l < 512.
Proof. intros. rewrite indice_div by done. apply Z.mod_pos_bound. lia. Qed.

Lemma idx_borne v k : (k <= 3)%nat -> 0 <= idx v k < 512.
Proof. intros. apply indice_borne. lia. Qed.

Definition accord (k : nat) (v v' : Z) : Prop := forall j, (j < k)%nat -> idx v j = idx v' j.

#[export] Instance accord_dec k v v' : Decision (accord k v v').
Proof.
  refine (cast_if (decide (Forall (fun j => idx v j = idx v' j) (seq 0 k)))).
  - intros j Hj. eapply Forall_forall in f; [done|]. apply elem_of_seq. lia.
  - intros Ha. apply n. apply Forall_forall. intros j Hj%elem_of_seq. apply Ha. lia.
Defined.

Lemma accord_S k v v' : accord (S k) v v' <-> accord k v v' /\ idx v k = idx v' k.
Proof.
  unfold accord. split.
  - intros H. split; [intros; apply H; lia|apply H; lia].
  - intros [H1 H2] j Hj. destruct (decide (j = k)) as [->|]; [done|apply H1; lia].
Qed.

Lemma accord_sym k v v' : accord k v v' -> accord k v' v.
Proof. intros H j Hj. symmetry. auto. Qed.
Lemma accord_trans k v1 v2 v3 : accord k v1 v2 -> accord k v2 v3 -> accord k v1 v3.
Proof. intros H1 H2 j Hj. rewrite H1 by done. auto. Qed.
Lemma accord_le k k' v v' : (k <= k')%nat -> accord k' v v' -> accord k v v'.
Proof. intros H Ha j Hj. apply Ha. lia. Qed.

(** Two 48-bit addresses with the same four indices are on the same page. *)
Lemma accord_page v v' :
  0 <= v < 2 ^ 48 -> 0 <= v' < 2 ^ 48 -> accord 4 v v' <-> v / 4096 = v' / 4096.
Proof.
  intros Hv Hv'. split.
  - intros H. pose proof (H 0%nat ltac:(lia)) as H0. pose proof (H 1%nat ltac:(lia)) as H1.
    pose proof (H 2%nat ltac:(lia)) as H2. pose proof (H 3%nat ltac:(lia)) as H3. clear H.
    unfold idx in *. rewrite !indice_div in * by lia. simpl in *.
    change (2 ^ (12 + 9 * 3)) with 549755813888 in *. change (2 ^ (12 + 9 * 2)) with 1073741824 in *.
    change (2 ^ (12 + 9 * 1)) with 2097152 in *. change (2 ^ (12 + 9 * 0)) with 4096 in *.
    change (2 ^ 48) with 281474976710656 in *.
    Z.to_euclidean_division_equations. lia.
  - intros H j Hj. unfold idx. rewrite !indice_div by lia.
    replace (2 ^ (12 + 9 * (3 - Z.of_nat j))) with (4096 * 2 ^ (9 * (3 - Z.of_nat j)))
      by (rewrite Z.pow_add_r by lia; done).
    rewrite <-!Z.div_div by (try apply Z.pow_pos_nonneg; lia). by rewrite H.
Qed.

Lemma cellule_page t i : 0 <= i < 512 -> t <= cellule t i < t + PAGE_SIZE.
Proof. unfold cellule, PAGE_SIZE. lia. Qed.

Lemma cellule_inj t t' i i' :
  frame_ok t -> frame_ok t' -> 0 <= i < 512 -> 0 <= i' < 512 ->
  cellule t i = cellule t' i' -> t = t' /\ i = i'.
Proof.
  unfold frame_ok, cellule, FramesLibres.TAILLE_PAGE. intros [? ?] [? ?] ? ? ?.
  Z.to_euclidean_division_equations. lia.
Qed.

(** The entry that points to a table: present, and its address field is the table. *)
Definition lien (p : Z) : Z := Z.lor (Z.lor (Z.lor p PTE_PRESENT) PTE_WRITE) PTE_USER.

Lemma frame_bits p i : frame_ok p -> p < 2 ^ 52 -> i < 12 \/ 52 <= i -> Z.testbit p i = false.
Proof.
  unfold frame_ok, FramesLibres.TAILLE_PAGE. intros [H0 Hm] Hb Hi.
  destruct (Z.lt_ge_cases i 0); [by apply Z.testbit_neg_r|].
  destruct (Z.lt_ge_cases i 12).
  - replace p with (p / 4096 * 2 ^ 12) by (Z.to_euclidean_division_equations; lia).
    by apply Z.mul_pow2_bits_low.
  - apply (mot_bits 52); [lia|lia|]. lia.
Qed.

Lemma ADDR_MASK_bits i : 0 <= i -> Z.testbit ADDR_MASK i = (12 <=? i) && (i <? 52).
Proof.
  intros Hi. change ADDR_MASK with (Z.shiftl (Z.ones 40) 12).
  rewrite Z.shiftl_spec by done. destruct (Z.leb_spec 12 i); cbn [andb].
  - rewrite Z.testbit_ones by lia. zcas; done.
  - by apply Z.testbit_neg_r; lia.
Qed.

Lemma bas_bits e i : 0 <= e < 4096 -> 12 <= i -> Z.testbit e i = false.
Proof. intros He. apply (mot_bits 12); [lia|]. change (2 ^ 12) with 4096. lia. Qed.

(** The address field of an entry made of a frame and low or high flag bits. *)
Lemma adresse_lien p : frame_ok p -> p < 2 ^ 52 -> Z.land (lien p) ADDR_MASK = p.
Proof.
  intros Hp Hb. apply Z.bits_inj'. intros i Hi. unfold lien.
  rewrite Z.land_spec, ADDR_MASK_bits by done. rewrite !Z.lor_spec.
  destruct (Z.leb_spec 12 i), (Z.ltb_spec i 52); cbn [andb];
    rewrite ?andb_false_r, ?andb_true_r; try (symmetry; apply frame_bits; done || lia).
  rewrite (bas_bits PTE_PRESENT), (bas_bits PTE_WRITE), (bas_bits PTE_USER) by (done || lia).
  by rewrite !orb_false_r.
Qed.

Lemma present_bit e : present e = Z.testbit e 0.
Proof.
  unfold present. change PTE_PRESENT with (masque 0). apply (teste_bit_spec e 0). lia.
Qed.

Lemma present_lien p : present (lien p) = true.
Proof.
  rewrite present_bit. unfold lien. rewrite !Z.lor_spec. simpl. by rewrite orb_true_r.
Qed.

Lemma present_0 : present 0 = false.
Proof. done. Qed.

(** ** Walks *)

(** The table reached at depth [k] of the walk for [v]. *)
Fixpoint chemin (m : Mem) (root v : Z) (k : nat) : option Z :=
  match k with
  | O => Some root
  | S k =>
      match chemin m root v k with
      | None => None
      | Some t =>
          let e := m (cellule t (idx v k)) in
          if present e then Some (Z.land e ADDR_MASK) else None
      end
  end.

(** The entry that describes [v], zero when a table is missing. *)
Definition entree (m : Mem) (root v : Z) : Z :=
  match chemin m root v 3 with Some t => m (cellule t (idx v 3)) | None => 0 end.

Lemma chemin_accord m root v v' k : accord k v v' -> chemin m root v k = chemin m root v' k.
Proof.
  induction k as [|k IH]; [done|]. rewrite accord_S. intros [Ha Hk]. simpl.
  by rewrite IH, Hk.
Qed.

Lemma chemin_prefixe m root v k t : chemin m root v (S k) = Some t -> exists t', chemin m root v k = Some t'.
Proof. simpl. destruct (chemin m root v k); [eauto|done]. Qed.

Lemma entree_accord m root v v' : accord 4 v v' -> entree m root v = entree m root v'.
Proof.
  rewrite accord_S. intros [Ha Hk]. unfold entree. by rewrite (chemin_accord _ _ v v'), Hk.
Qed.

Section Creneau.
Context (slot : Z).

Definition user (v : Z) : Prop := is_user_addr slot v = true.

(** The tables of a space form a tree of frames in use. *)
Record arbre (m : Mem) (root : Z) (ts : list Z) (viv : gset Z) : Prop := {
  ar_frames : forall q, q ∈ viv -> frame_ok q /\ q < 2 ^ 52;
  ar_racine : root ∈ viv /\ root ∉ ts;
  ar_tables : forall t, t ∈ ts -> t ∈ viv;
  ar_chemin : forall v k t, user v -> (1 <= k <= 3)%nat -> chemin m root v k = Some t -> t ∈ ts;
  ar_unique : forall v v' k k' t, user v -> user v' -> (1 <= k <= 3)%nat -> (1 <= k' <= 3)%nat ->
      chemin m root v k = Some t -> chemin m root v' k' = Some t -> k = k' /\ accord k v v'
}.

Lemma arbre_viv m root ts viv v k t :
  arbre m root ts viv -> user v -> (k <= 3)%nat -> chemin m root v k = Some t -> t ∈ viv.
Proof.
  intros A Hv Hk Hc. destruct k as [|k].
  - simpl in Hc. simplify_eq. apply A.
  - eapply ar_tables; [done|]. eapply ar_chemin; [done|done| |done]. lia.
Qed.

(** The root is reached only at depth zero. *)
Lemma arbre_profondeur m root ts viv v v' k k' t :
  arbre m root ts viv -> user v -> user v' -> (k <= 3)%nat -> (k' <= 3)%nat ->
  chemin m root v k = Some t -> chemin m root v' k' = Some t -> k = k' /\ accord k v v'.
Proof.
  intros A Hv Hv' Hk Hk' Hc Hc'. destruct k as [|k], k' as [|k'].
  - split; [done|]. intros j ?. lia.
  - simpl in Hc. simplify_eq. eapply ar_chemin in Hc'; [|done|done|lia].
    destruct A as [_ [_ ?] _ _ _]. done.
  - simpl in Hc'. simplify_eq. eapply ar_chemin in Hc; [|done|done|lia].
    destruct A as [_ [_ ?] _ _ _]. done.
  - eapply ar_unique; eauto; lia.
Qed.

(** Two walks read the same cell only at the same depth, with the same indices. *)
Lemma meme_cellule m root ts viv v v' k k' t t' :
  arbre m root ts viv -> user v -> user v' -> (k <= 3)%nat -> (k' <= 3)%nat ->
  chemin m root v k = Some t -> chemin m root v' k' = Some t' ->
  cellule t (idx v k) = cellule t' (idx v' k') -> k = k' /\ accord (S k) v v'.
Proof.
  intros A Hv Hv' Hk Hk' Hc Hc' He.
  apply cellule_inj in He as [-> Hi]; [| | |apply idx_borne; lia..].
  - destruct (arbre_profondeur _ _ _ _ v v' k k' t' A) as [-> Ha]; try done.
    split; [done|]. apply accord_S. done.
  - eapply ar_frames; [done|]. by eapply (arbre_viv m root ts viv v k).
  - eapply ar_frames; [done|]. by eapply (arbre_viv m root ts viv v' k').
Qed.

(** ** Adding a table *)

Section Ajout.
Context (m : Mem) (root : Z) (ts : list Z) (viv : gset Z) (A : arbre m root ts viv).
Context (v : Z) (k : nat) (t p : Z).
Context (Hv : user v) (Hk : (k <= 2)%nat) (Ht : chemin m root v k = Some t).
Context (Habs : present (m (cellule t (idx v k))) = false).
Context (Hp : frame_ok p) (Hpb : p < 2 ^ 52) (Hfrais : p ∉ viv).

Definition apres_ajout : Mem := ecrit_mot (zero_page m p) (cellule t (idx v k)) (lien p).

Lemma ajout_ailleurs q i :
  q ∈ viv -> 0 <= i < 512 -> cellule q i <> cellule t (idx v k) ->
  apres_ajout (cellule q i) = m (cellule q i).
Proof.
  intros Hq Hi Hne. unfold apres_ajout, ecrit_mot. destruct (Z.eqb_spec (cellule q i) (cellule t (idx v k))); [done|].
  unfold zero_page. pose proof (cellule_page q i Hi). zcas; [|done..]. exfalso.
  assert (q <> p) by (intros ->; done). apply (ar_frames _ _ _ _ A) in Hq as [Hq _].
  unfold frame_ok, FramesLibres.TAILLE_PAGE, PAGE_SIZE in *.
  Z.to_euclidean_division_equations. lia.
Qed.

Lemma ajout_dans i : 0 <= i < 512 -> apres_ajout (cellule p i) = 0.
Proof.
  intros Hi. unfold apres_ajout, ecrit_mot. pose proof (cellule_page p i Hi).
  destruct (Z.eqb_spec (cellule p i) (cellule t (idx v k))) as [E|_].
  - exfalso. assert (t ∈ viv) as Htv by (apply (arbre_viv m root ts viv v k t); done || lia).
    apply cellule_inj in E as [-> _]; [done|done| |done|apply idx_borne; lia].
    by apply (ar_frames _ _ _ _ A).
  - unfold zero_page. zcas; done.
Qed.

Lemma chemin_absent v' : accord (S k) v v' -> chemin m root v' (S k) = None.
Proof.
  intros [Ha Hi]%accord_S. cbn [chemin]. rewrite (chemin_accord m root v' v k) by (by apply accord_sym).
  by rewrite Ht, <-Hi, Habs.
Qed.

Lemma chemin_ajout v' j :
  user v' -> (j <= 3)%nat ->
  chemin apres_ajout root v' j =
    if decide (j = S k /\ accord (S k) v v') then Some p else chemin m root v' j.
Proof.
  intros Hv'. induction j as [|j IH]; intros Hj; [by rewrite decide_False by lia|].
  cbn [chemin]. rewrite IH by lia. clear IH.
  destruct (decide (j = S k /\ accord (S k) v v')) as [[-> Ha]|Hn].
  - rewrite ajout_dans by (apply idx_borne; lia). rewrite present_0.
    rewrite decide_False by lia. by rewrite chemin_absent.
  - destruct (chemin m root v' j) as [tj|] eqn:Ej.
    + destruct (decide (cellule tj (idx v' j) = cellule t (idx v k))) as [E|E].
      * apply (meme_cellule m root ts viv v' v j k tj t) in E as [-> Ha]; try done; try lia.
        rewrite decide_True by (split; [done|by apply accord_sym]).
        assert (tj = t) as ->.
        { apply accord_S in Ha as [Ha _]. rewrite (chemin_accord m root v' v k) in Ej by done. congruence. }
        apply accord_S in Ha as [_ ->]. unfold apres_ajout, ecrit_mot at 1. rewrite Z.eqb_refl.
        unfold ecrit_mot. rewrite Z.eqb_refl. rewrite present_lien, adresse_lien by done. done.
      * rewrite ajout_ailleurs; [|apply (arbre_viv m root ts viv v' j tj); done || lia|apply idx_borne; lia|done].
        rewrite decide_False; [done|]. intros [[= ->] Ha]. apply E.
        apply accord_S in Ha as [Ha Hi]. rewrite (chemin_accord m root v' v k) in Ej by (by apply accord_sym).
        rewrite Ht in Ej. simplify_eq. by rewrite Hi.
    + rewrite decide_False; [done|]. intros [[= ->] Ha]. apply accord_S in Ha as [Ha _].
      rewrite (chemin_accord m root v' v k) in Ej by (by apply accord_sym). congruence.
Qed.

Lemma arbre_ajout : arbre apres_ajout root (ts ++ [p]) ({[p]} ∪ viv).
Proof.
  pose proof A as [Hf [Hr Hrt] Hts Hch Hun].
  assert (forall v' j, user v' -> (1 <= j <= 3)%nat -> chemin m root v' j = Some p -> False) as Hnp.
  { intros v' j Hv' Hj Hc. apply Hfrais. apply Hts. by eapply Hch. }
  constructor.
  - intros q [->%elem_of_singleton|Hq]%elem_of_union; [done|auto].
  - split; [set_solver|]. rewrite elem_of_app, list_elem_of_singleton. intros [?|<-]; done.
  - intros q [Hq|Hq]%elem_of_app; [set_solver|]. apply list_elem_of_singleton in Hq as ->. set_solver.
  - intros v' j q Hv' Hj. rewrite chemin_ajout by (done || lia). case_decide as Hd; intros Hc.
    + simplify_eq. set_solver.
    + apply elem_of_app. left. by eapply Hch.
  - intros v1 v2 k1 k2 q Hv1 Hv2 Hk1 Hk2. rewrite !chemin_ajout by (done || lia).
    destruct (decide (k1 = S k /\ accord (S k) v v1)) as [[-> Ha1]|Hn1],
      (decide (k2 = S k /\ accord (S k) v v2)) as [[-> Ha2]|Hn2]; intros H1 H2.
    + split; [done|]. eapply accord_trans; [by apply accord_sym|done].
    + injection H1 as <-. destruct (Hnp v2 k2); done.
    + injection H2 as <-. destruct (Hnp v1 k1); done.
    + by eapply Hun.
Qed.

Lemma entree_ajout v' : user v' -> entree apres_ajout root v' = entree m root v'.
Proof.
  intros Hv'. unfold entree. rewrite chemin_ajout by (done || lia). case_decide as E.
  - destruct E as [E Ha]. rewrite ajout_dans by (apply idx_borne; lia).
    by rewrite E, chemin_absent.
  - destruct (chemin m root v' 3) as [t3|] eqn:E3; [|done].
    apply ajout_ailleurs; [apply (arbre_viv m root ts viv v' 3 t3); done || lia|apply idx_borne; lia|].
    intros Ec. apply (meme_cellule m root ts viv v' v 3 k t3 t) in Ec as [? _]; try done; lia.
Qed.
End Ajout.

(** ** Writing the entry of a page *)

Section Feuille.
Context (m : Mem) (root : Z) (ts : list Z) (viv : gset Z) (A : arbre m root ts viv).
Context (v t e : Z) (Hv : user v) (Ht : chemin m root v 3 = Some t).

Definition apres_feuille : Mem := ecrit_mot m (cellule t (idx v 3)) e.

Lemma chemin_feuille v' j :
  user v' -> (j <= 3)%nat -> chemin apres_feuille root v' j = chemin m root v' j.
Proof.
  intros Hv'. induction j as [|j IH]; intros Hj; [done|]. cbn [chemin]. rewrite IH by lia.
  destruct (chemin m root v' j) as [tj|] eqn:Ej; [|done].
  unfold apres_feuille, ecrit_mot.
  destruct (Z.eqb_spec (cellule tj (idx v' j)) (cellule t (idx v 3))) as [E|]; [|done].
  apply (meme_cellule m root ts viv v' v j 3 tj t) in E as [-> _]; try done; lia.
Qed.

Lemma arbre_feuille : arbre apres_feuille root ts viv.
Proof.
  pose proof A as [Hf Hr Hts Hch Hun]. constructor; try done.
  - intros v' k q Hv' Hk. rewrite chemin_feuille by (done || lia). by apply Hch.
  - intros v1 v2 k1 k2 q Hv1 Hv2 Hk1 Hk2. rewrite !chemin_feuille by (done || lia). by apply Hun.
Qed.

Lemma entree_feuille v' :
  user v' -> entree apres_feuille root v' = if decide (accord 4 v v') then e else entree m root v'.
Proof.
  intros Hv'. unfold entree. rewrite chemin_feuille by (done || lia). case_decide as Ha.
  - assert (chemin m root v' 3 = Some t) as ->.
    { rewrite <-(chemin_accord m root v v' 3); [done|]. eapply accord_le; [|done]. lia. }
    apply accord_S in Ha as [_ <-]. unfold apres_feuille, ecrit_mot. by rewrite Z.eqb_refl.
  - destruct (chemin m root v' 3) as [t3|] eqn:E3; [|done]. unfold apres_feuille, ecrit_mot.
    destruct (Z.eqb_spec (cellule t3 (idx v' 3)) (cellule t (idx v 3))) as [E|]; [|done].
    apply (meme_cellule m root ts viv v' v 3 3 t3 t) in E as [_ E]; try done.
    exfalso. apply Ha. by apply accord_sym.
Qed.
End Feuille.

(** ** Writes outside the tables *)

Lemma chemin_hors m m' root ts viv v j :
  arbre m root ts viv ->
  (forall t i, t = root \/ t ∈ ts -> 0 <= i < 512 -> m' (cellule t i) = m (cellule t i)) ->
  user v -> (j <= 3)%nat -> chemin m' root v j = chemin m root v j.
Proof.
  intros A He Hv. induction j as [|j IH]; intros Hj; [done|]. cbn [chemin]. rewrite IH by lia.
  destruct (chemin m root v j) as [t|] eqn:Ej; [|done].
  rewrite He; [done| |apply idx_borne; lia].
  destruct j as [|j]; [left; by simplify_eq/=|right; eapply ar_chemin; [done|done| |done]; lia].
Qed.

Lemma arbre_hors m m' root ts viv viv' :
  arbre m root ts viv ->
  (forall t i, t = root \/ t ∈ ts -> 0 <= i < 512 -> m' (cellule t i) = m (cellule t i)) ->
  (forall q, q ∈ viv' -> frame_ok q /\ q < 2 ^ 52) -> root ∈ viv' -> (forall t, t ∈ ts -> t ∈ viv') ->
  arbre m' root ts viv'.
Proof.
  intros A He Hf Hr Hts. pose proof A as [_ [_ Hrt] _ Hch Hun].
  assert (forall v j, user v -> (j <= 3)%nat -> chemin m' root v j = chemin m root v j) as Hc.
  { intros. by eapply chemin_hors. }
  constructor; try done.
  - intros v k t Hv Hk. rewrite Hc by (done || lia). by apply Hch.
  - intros v1 v2 k1 k2 t Hv1 Hv2 Hk1 Hk2. rewrite !Hc by (done || lia). by apply Hun.
Qed.

Lemma entree_hors m m' root ts viv v :
  arbre m root ts viv ->
  (forall t i, t = root \/ t ∈ ts -> 0 <= i < 512 -> m' (cellule t i) = m (cellule t i)) ->
  user v -> entree m' root v = entree m root v.
Proof.
  intros A He Hv. unfold entree. rewrite (chemin_hors m m' root ts viv v 3) by (done || lia).
  destruct (chemin m root v 3) as [t|] eqn:E; [|done]. apply He; [|apply idx_borne; lia].
  right. eapply (ar_chemin _ _ _ _ A v 3); [done|lia|done].
Qed.

(** An empty user part is a tree with no table. *)
Lemma arbre_vide m root viv :
  (forall q, q ∈ viv -> frame_ok q /\ q < 2 ^ 52) -> root ∈ viv ->
  (forall v, user v -> present (m (cellule root (idx v 0))) = false) ->
  arbre m root [] viv.
Proof.
  intros Hf Hr Habs.
  assert (forall v k t, user v -> (1 <= k <= 3)%nat -> chemin m root v k = Some t -> False) as Hn.
  { intros v k t Hv Hk. assert (chemin m root v 1 = None) as H1.
    { cbn [chemin]. by rewrite Habs. }
    assert (forall j, chemin m root v (S j) = None) as H2.
    { induction j as [|j IH]; [done|]. cbn [chemin] in *. by rewrite IH. }
    destruct k as [|k]; [lia|]. by rewrite H2. }
  constructor; try done.
  - split; [done|]. set_solver.
  - set_solver.
  - intros v k t Hv Hk Hc. by destruct (Hn v k t).
  - intros v v' k k' t Hv _ Hk _ Hc. by destruct (Hn v k t).
Qed.
End Creneau.
End TablesArbre.
