(* ===== verification/TablesProofs.v ===== *)
(** The operations of an address space refine a finite map from user pages to entries:
    [tient] ties the page tables in memory, the owned frames and the resident counters to
    that map, and every operation is proved against it. *)

From S2P Require Import Prelude FramesLibres Frames Tables TablesArbre.

Module TablesProofs.
Import Frames FramesProofs Tables TablesArbre.
Import FramesLibres(frame_ok, frames_entre).
Open Scope os_scope.

(** ** Pages and resident counters *)

Definition sorte (k : ResidentKind) (A : gmap Z Z) : gmap Z Z :=
  filter (fun x => from_entry x.2 = k) A.

(** The counters count the pages of the map, in all and by kind. *)
Definition comptes (r : ResidentStats) (A : gmap Z Z) : Prop :=
  total_pages r = Z.of_nat (size A) /\
  forall k, compteur k r = Z.of_nat (size (sorte k A)).

Lemma compteur_ajoute k k' d r :
  compteur k (ajoute k' d r) = compteur k r + (if decide (k = k') then d else 0).
Proof. destruct r, k, k'; simpl; lia. Qed.
Lemma total_ajoute k d r : total_pages (ajoute k d r) = total_pages r + d.
Proof. destruct r, k; done. Qed.

Lemma sorte_insert_ne k A v e :
  from_entry e <> k -> A !! v = None -> sorte k (<[v := e]> A) = sorte k A.
Proof.
  intros Hk Hv. unfold sorte. rewrite map_filter_insert_False by done.
  by rewrite delete_id by done.
Qed.

Lemma sorte_insert_eq A v e :
  A !! v = None -> size (sorte (from_entry e) (<[v := e]> A)) = S (size (sorte (from_entry e) A)).
Proof.
  intros Hv. unfold sorte. rewrite map_filter_insert_True by done.
  apply map_size_insert_None. apply map_lookup_filter_None. by left.
Qed.

Lemma comptes_insert r A v e :
  comptes r A -> A !! v = None -> comptes (ajoute (from_entry e) 1 r) (<[v := e]> A).
Proof.
  intros [Ht Hk] Hv. split.
  - rewrite total_ajoute, map_size_insert_None by done. lia.
  - intros k. rewrite compteur_ajoute, Hk. destruct (decide (k = from_entry e)) as [->|Hne].
    + rewrite sorte_insert_eq by done. lia.
    + rewrite sorte_insert_ne by done. lia.
Qed.

Lemma comptes_delete r A v e :
  comptes r A -> A !! v = Some e -> comptes (ajoute (from_entry e) (-1) r) (delete v A).
Proof.
  intros [Ht Hk] Hv. rewrite <-(insert_id A v e) in Ht, Hk by done.
  rewrite <-insert_delete_eq in Ht, Hk. pose proof (lookup_delete_eq A v) as Hn.
  split.
  - rewrite total_ajoute. rewrite map_size_insert_None in Ht by done. lia.
  - intros k. rewrite compteur_ajoute, Hk. destruct (decide (k = from_entry e)) as [->|Hne].
    + rewrite sorte_insert_eq by done. lia.
    + rewrite sorte_insert_ne by done. lia.
Qed.

Lemma comptes_meme_sorte r A v e e' :
  comptes r A -> A !! v = Some e -> from_entry e' = from_entry e -> comptes r (<[v := e']> A).
Proof.
  intros HC Hv He. pose proof (comptes_delete _ _ _ _ HC Hv) as HD.
  apply (comptes_insert _ _ v e') in HD; [|apply lookup_delete_eq].
  rewrite insert_delete_eq, He in HD.
  replace r with (ajoute (from_entry e) 1 (ajoute (from_entry e) (-1) r)); [done|].
  destruct r, (from_entry e); simpl; f_equal; lia.
Qed.

(** ** The state of a space *)

Section Creneau.
(** The user slot, and the frames the allocator was given at boot. *)
Context (slot : Z) (Hslot : 0 <= slot /\ slot + USER_SLOTS <= 256) (V : gset Z).
#[local] Abbreviation user := (user slot).
#[local] Abbreviation arbre := (arbre slot).

Definition page_user (v : Z) : Prop := user v /\ v mod PAGE_SIZE = 0.

Definition vue (m : Mem) (root v : Z) : option Z :=
  let e := entree m root v in if present e then Some e else None.

Record tient (w : Monde) (viv : gset Z) (A : gmap Z Z) : Prop := {
  te_frames : exists l, possede (fa w) (mem w) viv V l;
  te_arbre : arbre (mem w) (pml4 (espace w)) (tables (espace w)) viv;
  te_pages : pages (espace w) ⊆ viv;
  te_pages_tables : forall q, q ∈ pages (espace w) -> q <> pml4 (espace w) /\ (q ∉ tables (espace w));
  te_vue : forall v, page_user v -> A !! v = vue (mem w) (pml4 (espace w)) v;
  te_dom : forall v e, A !! v = Some e -> page_user v;
  te_comptes : comptes (resident (espace w)) A
}.

(** The frames of a space, and what an operation leaves alone: every frame in use that is
    not one of them, and the kernel entries of the root. *)
Definition sienne (w : Monde) (q : Z) : Prop :=
  q = pml4 (espace w) \/ q ∈ tables (espace w) \/ q ∈ pages (espace w).
Record suit (w : Monde) (viv : gset Z) (w' : Monde) (viv' : gset Z) : Prop := {
  su_racine : pml4 (espace w') = pml4 (espace w);
  su_autres : forall q, q ∈ viv -> ~ sienne w q -> q ∈ viv' /\ ~ sienne w' q /\
     forall x, q <= x < q + PAGE_SIZE -> mem w' x = mem w x;
  su_noyau : forall i, 0 <= i < 512 -> ~ slot <= i < slot + USER_SLOTS ->
     mem w' (cellule (pml4 (espace w)) i) = mem w (cellule (pml4 (espace w)) i)
}.

Lemma suit_refl w viv : suit w viv w viv.
Proof. constructor; [done| |done]. intros. done. Qed.

Lemma suit_trans w1 v1 w2 v2 w3 v3 : suit w1 v1 w2 v2 -> suit w2 v2 w3 v3 -> suit w1 v1 w3 v3.
Proof.
  intros [R1 O1 N1] [R2 O2 N2]. constructor; [congruence| |].
  - intros q Hq Hn. destruct (O1 q Hq Hn) as (Hq2 & Hn2 & E2). destruct (O2 q Hq2 Hn2) as (? & ? & E3).
    split_and!; try done. intros x Hx. by rewrite E3, E2.
  - intros i Hi Hs. rewrite R1 in N2. by rewrite N2, N1.
Qed.

Lemma user_borne v : user v -> 0 <= v < 2 ^ 48 /\ slot <= idx v 0 < slot + USER_SLOTS.
Proof.
  unfold TablesArbre.user, is_user_addr, user_slot_base, USER_SPACE_SIZE, USER_SLOTS in *.
  rewrite Z.shiftl_mul_pow2 by lia. intros H. bool_prop.
  change (2 ^ 39) with 549755813888 in *. split.
  - change (2 ^ 48) with 281474976710656. lia.
  - unfold idx. simpl. rewrite indice_div by lia. change (2 ^ (12 + 9 * 3)) with 549755813888.
    Z.to_euclidean_division_equations. lia.
Qed.

(** Two user pages with the same indices are the same page. *)
Lemma accord_pages v v' : page_user v -> page_user v' -> accord 4 v v' <-> v = v'.
Proof.
  intros [Hu Hv] [Hu' Hv']. apply user_borne in Hu as [? _]. apply user_borne in Hu' as [? _].
  rewrite accord_page by done. unfold PAGE_SIZE in *. split; [|by intros ->].
  Z.to_euclidean_division_equations. lia.
Qed.

Lemma te_viv w viv A q : tient w viv A -> q ∈ viv -> frame_ok q /\ q < 2 ^ 52.
Proof. intros T. by apply (ar_frames _ _ _ _ _ (te_arbre _ _ _ T)). Qed.

(** Cells of two distinct frames are distinct. *)
Lemma cellule_hors q t i :
  frame_ok q -> frame_ok t -> q <> t -> 0 <= i < 512 -> ~ q <= cellule t i < q + PAGE_SIZE.
Proof.
  unfold frame_ok, FramesLibres.TAILLE_PAGE, cellule, PAGE_SIZE. intros [? ?] [? ?] ? ? ?.
  Z.to_euclidean_division_equations. lia.
Qed.

(** ** Walking *)

Lemma entry_mut_lit v w :
  entry_mut v false w =
    (w, inl ((fun t => cellule t (idx v 3)) <$> chemin (mem w) (pml4 (espace w)) v 3)).
Proof.
  unfold entry_mut, l_espace, descend, lie, lit_mem, rend, echoue. cbn [chemin].
  change (idx v 0) with (indice v 3). change (idx v 1) with (indice v 2).
  change (idx v 2) with (indice v 1). change (idx v 3) with (indice v 0).
  destruct (present (mem w (cellule (pml4 (espace w)) (indice v 3)))); [|done].
  destruct (present (mem w _)); [|done].
  destruct (present (mem w _)); done.
Qed.

Definition monde_ajout (w : Monde) (f : FrameAllocator) (v : Z) (k : nat) (t p : Z) : Monde :=
  mk_monde f (apres_ajout (mem w) v k t p) (pousse_table p (espace w)).

(** One missing table created. *)
Lemma ajout_tient w viv A v k t f p :
  tient w viv A -> user v -> (k <= 2)%nat ->
  chemin (mem w) (pml4 (espace w)) v k = Some t ->
  present (mem w (cellule t (idx v k))) = false ->
  p ∉ viv -> (exists l, possede f (zero_page (mem w) p) ({[p]} ∪ viv) V l) ->
  tient (monde_ajout w f v k t p) ({[p]} ∪ viv) A /\
  suit w viv (monde_ajout w f v k t p) ({[p]} ∪ viv).
Proof.
  intros T Hv Hk Ht Habs Hfr (l & Hpo).
  pose proof T as [_ Ar Hpg Hpt Hvue Hdom Hco]. simpl in *.
  assert (p ∈ V) as Hpv by (rewrite (po_partage _ _ _ _ _ Hpo); clear; set_solver).
  assert (frame_ok p) as Hp by (by eapply frame_de).
  assert (p < 2 ^ 52) as Hpb by (by eapply po_borne).
  assert (t ∈ viv) as Htv by (apply (arbre_viv slot _ _ _ _ v k t Ar); done || lia).
  assert (frame_ok t) as Htf by (by eapply te_viv).
  pose proof (idx_borne v k ltac:(lia)) as Hi.
  assert (forall q x, q ∈ viv -> q <> t -> q <= x < q + PAGE_SIZE ->
            apres_ajout (mem w) v k t p x = mem w x) as Hout.
  { intros q x Hq Hne Hx. unfold apres_ajout, ecrit_mot, zero_page.
    assert (frame_ok q) as Hqf by (by eapply te_viv).
    destruct (Z.eqb_spec x (cellule t (idx v k))) as [->|].
    - exfalso. by apply (cellule_hors q t (idx v k)).
    - zcas; [|done..]. exfalso. assert (q <> p) by (intros ->; done).
      unfold frame_ok, FramesLibres.TAILLE_PAGE, PAGE_SIZE in *.
      Z.to_euclidean_division_equations. lia. }
  split.
  - constructor; simpl.
    + exists l. eapply possede_ecrit; [done| |by apply cellule_page]. set_solver.
    + by apply arbre_ajout.
    + set_solver.
    + intros q Hq. destruct (Hpt q Hq). split; [done|].
      rewrite elem_of_app, list_elem_of_singleton. intros [?| ->]; [done|]. set_solver.
    + intros v' Hv'. rewrite Hvue by done. unfold vue.
      by rewrite (entree_ajout slot _ _ (tables (espace w)) viv) by (done || apply Hv').
    + done.
    + done.
  - constructor; simpl; [done| |].
    + intros q Hq Hn. unfold sienne in *. split; [set_solver|].
      assert (q <> t) as Hqt.
      { intros ->. apply Hn. destruct k as [|k]; [left; by simplify_eq/=|right; left].
        eapply (ar_chemin _ _ _ _ _ Ar v (S k)); [done|lia|done]. }
      split.
      * simpl. rewrite elem_of_app, list_elem_of_singleton. intros [?|[[?| ->]|?]]; tauto.
      * intros x Hx. by apply (Hout q).
    + intros i Hib Hs. destruct (decide (pml4 (espace w) = t)) as [<-|Hne].
      * assert (k = 0%nat) as ->.
        { destruct k as [|k]; [done|]. exfalso.
          assert (pml4 (espace w) ∈ tables (espace w)) by
            (eapply (ar_chemin _ _ _ _ _ Ar v (S k)); [done|lia|done]).
          by destruct Ar as [_ [_ ?] _ _ _]. }
        destruct (user_borne v Hv) as [_ ?].
        apply (ajout_ailleurs slot _ _ _ _ Ar); try done. intros E%cellule_inj; [lia|done..].
      * eapply Hout; [by apply Ar|done|]. by apply cellule_page.
Qed.

(** The walk that creates the missing tables: it fails only when no frame is left. *)
Lemma descend_cree n : forall w viv A v t,
  tient w viv A -> user v -> (n <= 3)%nat ->
  chemin (mem w) (pml4 (espace w)) v (3 - n) = Some t ->
  exists w' viv' r, descend v true (drop (3 - n) [3; 2; 1]) t w = (w', inl r) /\
    tient w' viv' A /\ suit w viv w' viv' /\ viv ⊆ viv' /\
    pages (espace w') = pages (espace w) /\ resident (espace w') = resident (espace w) /\
    match r with
    | Some c => exists t', chemin (mem w') (pml4 (espace w)) v 3 = Some t' /\ c = cellule t' (idx v 3)
    | None => used (fa w') = total (fa w')
    end.
Proof.
  induction n as [|n IH]; intros w viv A v t T Hv Hn Hc.
  { exists w, viv, (Some (cellule t (idx v 3))). split; [done|]. split; [done|].
    split; [apply suit_refl|]. split; [done|]. split; [done|]. split; [done|]. by exists t. }
  set (k := (3 - S n)%nat) in *. assert (3 - n = S k)%nat as Hk by lia.
  assert (drop k [3; 2; 1] = (3 - Z.of_nat k) :: drop (S k) [3; 2; 1]) as ->.
  { assert (k = 0 \/ k = 1 \/ k = 2)%nat as [->|[->| ->]] by lia; done. }
  cbn [descend]. fold (idx v k). erewrite lie_pas by done.
  destruct (present (mem w (cellule t (idx v k)))) eqn:Ep.
  - rewrite <-Hk. apply IH; try done; try lia. rewrite Hk. cbn [chemin]. by rewrite Hc, Ep.
  - cbn [negb]. destruct (te_frames _ _ _ T) as (l & Hpo).
    destruct (alloc_frame_spec _ _ _ _ _ Hpo) as (f & m' & r & Ea & Hr).
    assert (alloue_frame w = (mk_monde f m' (espace w), inl r)) as Eal.
    { unfold alloue_frame. by rewrite Ea. }
    erewrite lie_pas by exact Eal. destruct r as [p|].
    + destruct Hr as (_ & Hfr & -> & l' & Hpo').
      destruct (ajout_tient w viv A v k t f p) as [T' S']; try done; [lia|eauto|].
      unfold change_espace, ecrit_mem, change.
      erewrite lie_pas by reflexivity. erewrite lie_pas by reflexivity.
      fold (lien p). change (mk_monde _ _ _) with (monde_ajout w f v k t p).
      rewrite <-Hk. destruct (IH (monde_ajout w f v k t p) ({[p]} ∪ viv) A v p)
        as (w' & viv' & r & E & T2 & S2 & Hs & Hpg & Hre & Hr); try done; [lia| |].
      { rewrite Hk. simpl pml4. simpl mem.
        rewrite (chemin_ajout slot _ _ (tables (espace w)) viv); try done; try lia.
        - by rewrite decide_True by (split; [done|intros j ?; done]).
        - by apply T.
        - eapply frame_de; [exact Hpo'|]. rewrite (po_partage _ _ _ _ _ Hpo'). clear. set_solver.
        - eapply po_borne; [exact Hpo'|]. rewrite (po_partage _ _ _ _ _ Hpo'). clear. set_solver. }
      exists w', viv', r. split; [exact E|]. split; [done|]. split; [by eapply suit_trans|].
      split; [set_solver|]. done.
    + destruct Hr as (-> & Hvi & -> & Hpo').
      exists (mk_monde f (mem w) (espace w)), viv, None. split; [done|]. split.
      { destruct T. constructor; try done. simpl. eauto. }
      split; [constructor; simpl; try done; intros; done|]. split; [done|]. split; [done|]. split; [done|].
      simpl. destruct Hpo' as [_ _ _ _ _ Hp' _ _ _ Hu [Ht _] _].
      destruct Hpo as [_ _ _ _ _ Hp0 _ _ _ _ [Ht0 _] _].
      rewrite Hu, Ht. rewrite Hp0, Hvi. simpl. by rewrite !union_empty_r_L.
Qed.

Lemma entry_mut_cree w viv A v :
  tient w viv A -> user v ->
  exists w' viv' r, entry_mut v true w = (w', inl r) /\
    tient w' viv' A /\ suit w viv w' viv' /\ viv ⊆ viv' /\
    pages (espace w') = pages (espace w) /\ resident (espace w') = resident (espace w) /\
    match r with
    | Some c => exists t', chemin (mem w') (pml4 (espace w')) v 3 = Some t' /\ c = cellule t' (idx v 3)
    | None => used (fa w') = total (fa w')
    end.
Proof.
  intros T Hv. destruct (descend_cree 3 w viv A v (pml4 (espace w)) T Hv)
    as (w' & viv' & r & E & T' & S' & H); [done..|].
  exists w', viv', r. rewrite (su_racine _ _ _ _ S'). split; [exact E|]. done.
Qed.

(** ** Changing the entry of a page *)

Definition monde_feuille (w : Monde) (v t e : Z) (r : ResidentStats) : Monde :=
  mk_monde (fa w) (apres_feuille (mem w) v t e) (avec_resident r (espace w)).
Definition carte_feuille (A : gmap Z Z) (v e : Z) : gmap Z Z :=
  if present e then <[v := e]> A else delete v A.

Lemma feuille_tient w viv A v t e r :
  tient w viv A -> page_user v -> chemin (mem w) (pml4 (espace w)) v 3 = Some t ->
  comptes r (carte_feuille A v e) ->
  tient (monde_feuille w v t e r) viv (carte_feuille A v e) /\
  suit w viv (monde_feuille w v t e r) viv.
Proof.
  intros T [Hv Hal] Ht Hco. pose proof T as [(l & Hpo) Ar Hpg Hpt Hvue Hdom _].
  assert (t ∈ tables (espace w)) as Htt by (eapply (ar_chemin _ _ _ _ _ Ar v 3); [done|lia|done]).
  assert (t ∈ viv) as Htv by (by eapply ar_tables).
  assert (frame_ok t) as Htf by (by eapply te_viv).
  pose proof (idx_borne v 3 ltac:(lia)) as Hi.
  assert (forall q x, q ∈ viv -> q <> t -> q <= x < q + PAGE_SIZE ->
            apres_feuille (mem w) v t e x = mem w x) as Hout.
  { intros q x Hq Hne Hx. unfold apres_feuille, ecrit_mot.
    destruct (Z.eqb_spec x (cellule t (idx v 3))) as [->|]; [|done].
    exfalso. apply (cellule_hors q t (idx v 3)); try done. by eapply te_viv. }
  split.
  - constructor; simpl; try done.
    + exists l. eapply possede_ecrit; [done|done|by apply cellule_page].
    + by apply arbre_feuille.
    + intros v' Hv'. unfold vue. rewrite (entree_feuille slot _ _ _ _ Ar) by (done || apply Hv').
      unfold carte_feuille. destruct (decide (accord 4 v v')) as [Ha|Ha].
      * apply accord_pages in Ha as <-; [|done..].
        destruct (present e); [apply lookup_insert_eq|apply lookup_delete_eq].
      * assert (v <> v') by (intros ->; apply Ha; intros j ?; done).
        transitivity (A !! v'); [|by apply Hvue].
        destruct (present e); [by rewrite lookup_insert_ne|by rewrite lookup_delete_ne].
    + unfold carte_feuille. intros v' e'. destruct (present e).
      * intros [[<- _]|[_ ?]]%lookup_insert_Some; [done|by eapply Hdom].
      * intros [_ ?]%lookup_delete_Some. by eapply Hdom.
  - constructor; simpl; [done| |].
    + intros q Hq Hn. unfold sienne in *. split_and!; try done. intros x Hx.
      apply (Hout q); try done. intros ->. tauto.
    + intros i Hib _. apply (Hout (pml4 (espace w))); [by apply Ar| |by apply cellule_page].
      intros <-. by destruct Ar as [_ [_ ?] _ _ _].
Qed.

(** The counters never reach their bounds. *)
Lemma taille_borne w viv A : tient w viv A -> Z.of_nat (size A) <= 2 ^ 33.
Proof.
  intros T. rewrite <-size_dom.
  set (b := user_slot_base slot). set (n := b + USER_SPACE_SIZE).
  assert (0 <= b /\ b mod 4096 = 0) as [Hb0 Hb].
  { unfold b, user_slot_base. rewrite Z.shiftl_mul_pow2 by lia.
    change (2 ^ 39) with (134217728 * 4096). rewrite Z.mul_assoc, Z.mod_mul by lia. lia. }
  assert (dom A ⊆ list_to_set (frames_entre b n)) as Hsub.
  { intros v [e He]%elem_of_dom. apply elem_of_list_to_set.
    apply (te_dom _ _ _ T) in He as [Hu Hm].
    apply FramesLibresProofs.elem_frames_entre; [by split| |].
    - unfold n, USER_SPACE_SIZE, USER_SLOTS, FramesLibres.TAILLE_PAGE.
      Z.to_euclidean_division_equations. lia.
    - unfold TablesArbre.user, is_user_addr in Hu. fold b n in Hu. bool_prop.
      split; [|lia]. split; [lia|done]. }
  apply subseteq_size in Hsub. rewrite size_list_to_set in Hsub by apply NoDup_frames_entre.
  unfold frames_entre in Hsub. rewrite length_map, length_seqZ in Hsub.
  unfold FramesLibres.div_ceil, FramesLibres.TAILLE_PAGE, n, USER_SPACE_SIZE, USER_SLOTS in Hsub.
  assert ((b + 64 * 512 * 1024 * 1024 * 1024 - b + 4096 - 1) / 4096 = 8589934592) as E.
  { replace (b + _ - b + 4096 - 1) with 35184372092927 by lia. reflexivity. }
  rewrite E in Hsub. change (2 ^ 33) with 8589934592. lia.
Qed.

Lemma sorte_size k A : (size (sorte k A) <= size A)%nat.
Proof. unfold sorte. apply map_subseteq_size, map_filter_subseteq. Qed.

Lemma mapped_ok w viv A e :
  tient w viv A -> mapped (resident (espace w)) e = Some (ajoute (from_entry e) 1 (resident (espace w))).
Proof.
  intros T. pose proof (taille_borne _ _ _ T). destruct (te_comptes _ _ _ T) as [Ht Hk].
  unfold mapped. rewrite Ht, Hk. pose proof (sorte_size (from_entry e) A).
  unfold u64_max. zcas; done || lia.
Qed.

Lemma unmapped_ok w viv A v e :
  tient w viv A -> A !! v = Some e ->
  unmapped (resident (espace w)) e = Some (ajoute (from_entry e) (-1) (resident (espace w))).
Proof.
  intros T Hv. destruct (te_comptes _ _ _ T) as [Ht Hk]. unfold unmapped. rewrite Ht, Hk.
  assert (sorte (from_entry e) A !! v = Some e) as Hs by (by apply map_lookup_filter_Some).
  assert (size A <> 0%nat) by (intros E%map_size_empty_iff; by rewrite E in Hv).
  assert (size (sorte (from_entry e) A) <> 0%nat) by (intros E%map_size_empty_iff; by rewrite E in Hs).
  zcas; done || lia.
Qed.

(** What a walk without creation reads, in terms of the map. *)
Lemma vue_chemin w viv A v :
  tient w viv A -> page_user v ->
  A !! v = match chemin (mem w) (pml4 (espace w)) v 3 with
           | Some t => let e := mem w (cellule t (idx v 3)) in if present e then Some e else None
           | None => None
           end.
Proof.
  intros T Hv. rewrite (te_vue _ _ _ T v Hv). unfold vue, entree.
  by destruct (chemin (mem w) (pml4 (espace w)) v 3).
Qed.

Definition entree_map (phys flags : Z) : Z :=
  Z.lor (Z.lor (Z.land phys ADDR_MASK) flags) PTE_PRESENT.

Lemma present_entree_map phys flags : present (entree_map phys flags) = true.
Proof. rewrite present_bit. unfold entree_map. rewrite Z.lor_spec. simpl. apply orb_true_r. Qed.

(** Mapping a page: refused when the page already has another entry, or when no frame is
    left for a table. *)
Lemma map_spec w viv A v phys flags :
  tient w viv A -> page_user v ->
  exists w' viv' ok, map v phys flags w = (w', inl ok) /\
    tient w' viv' (if ok then <[v := entree_map phys flags]> A else A) /\
    suit w viv w' viv' /\ viv ⊆ viv' /\ pages (espace w') = pages (espace w) /\
    (if ok then A !! v = None \/ A !! v = Some (entree_map phys flags)
     else (exists old, A !! v = Some old /\ old <> entree_map phys flags)
          \/ used (fa w') = total (fa w')).
Proof.
  intros T Hv. unfold map. fold (entree_map phys flags). set (new := entree_map phys flags).
  destruct (entry_mut_cree w viv A v T) as (w1 & viv1 & r & E & T1 & S1 & Hs & Hpg & Hre & Hr);
    [apply Hv|].
  erewrite lie_pas by exact E. destruct r as [c|].
  2:{ exists w1, viv1, false. split_and!; try done. by right. }
  destruct Hr as (t & Ht & ->). pose proof (vue_chemin w1 viv1 A v T1 Hv) as HA.
  rewrite Ht in HA. erewrite lie_pas by reflexivity. cbv zeta in HA.
  set (old := mem w1 (cellule t (idx v 3))) in *.
  assert (present new = true) as Hpn by apply present_entree_map.
  assert (carte_feuille A v new = <[v := new]> A) as Hcf by (unfold carte_feuille; by rewrite Hpn).
  destruct (present old) eqn:Eo; cbn [andb negb].
  - destruct (Z.eqb_spec old new) as [Hon|Hon]; cbn [negb].
    + erewrite lie_pas by reflexivity.
      destruct (feuille_tient w1 viv1 A v t new (resident (espace w1))) as [T2 S2]; try done.
      { rewrite Hcf. eapply comptes_meme_sorte; [apply T1|done|by rewrite Hon]. }
      eexists _, viv1, true. split; [reflexivity|].
      replace (mk_monde _ _ _) with (monde_feuille w1 v t new (resident (espace w1)))
        by (unfold monde_feuille; by destruct (espace w1)).
      rewrite <-Hcf. split_and!; try done; [by eapply suit_trans|]. right. congruence.
    + exists w1, viv1, false. split_and!; try done. left. by exists old.
  - erewrite lie_pas by reflexivity. erewrite lie_pas by reflexivity. cbn [espace].
    rewrite (mapped_ok w1 viv1 A new T1). unfold compte_resident.
    erewrite lie_pas by reflexivity.
    destruct (feuille_tient w1 viv1 A v t new (ajoute (from_entry new) 1 (resident (espace w1))))
      as [T2 S2]; try done.
    { rewrite Hcf. apply comptes_insert; [apply T1|done]. }
    eexists _, viv1, true. split; [reflexivity|]. fold (monde_feuille w1 v t new (ajoute (from_entry new) 1 (resident (espace w1)))).
    rewrite <-Hcf. split_and!; try done; [by eapply suit_trans|]. by left.
Qed.

(** The page of an address, and translation through the map. *)
Lemma page_de_user v : user v -> page_user (page_bas v) /\ accord 4 (page_bas v) v.
Proof.
  intros Hu. pose proof (user_borne v Hu) as [Hb _].
  assert (page_bas v = v / 4096 * 4096) as E by (apply page_bas_spec; unfold u64_max; lia).
  assert (user (page_bas v)) as Hu'.
  { rewrite E. unfold TablesArbre.user, is_user_addr in *. bool_prop.
    unfold user_slot_base in *. rewrite Z.shiftl_mul_pow2 in * by lia.
    change (2 ^ 39) with (134217728 * 4096) in *. unfold USER_SPACE_SIZE, USER_SLOTS in *.
    apply andb_true_iff. split; [apply Z.leb_le|apply Z.ltb_lt];
      Z.to_euclidean_division_equations; lia. }
  split; [split; [done|]|].
  - rewrite E. unfold PAGE_SIZE. apply Z.mod_mul. lia.
  - apply accord_page; [by apply user_borne|done|]. rewrite E. by rewrite Z.div_mul.
Qed.

Lemma translate_spec w viv A v :
  tient w viv A -> user v ->
  translate v w = (w, inl ((fun e => Z.lor (Z.land e ADDR_MASK) (Z.land v (PAGE_SIZE - 1)))
                             <$> A !! page_bas v)).
Proof.
  intros T Hu. destruct (page_de_user v Hu) as [Hp Ha].
  rewrite (vue_chemin w viv A _ T Hp).
  rewrite (chemin_accord _ _ (page_bas v) v 3) by (eapply accord_le; [|done]; lia).
  apply accord_S in Ha as [_ Hi]. rewrite Hi.
  unfold translate. erewrite lie_pas by apply entry_mut_lit.
  destruct (chemin (mem w) (pml4 (espace w)) v 3) as [t|]; [|done]. simpl.
  unfold lit_mem, lie, rend. by destruct (present (mem w (cellule t (idx v 3)))).
Qed.

(** ** Unmapping *)

Definition phys_de (e : Z) : Z := Z.land e ADDR_MASK.
Definition retire_pages (ps : list Z) (A : gmap Z Z) : gmap Z Z :=
  fold_left (fun A v => delete v A) ps A.
(** The owned frames behind the entries removed, in page order. *)
Fixpoint frames_retirees (own : gset Z) (ps : list Z) (A : gmap Z Z) : list Z :=
  match ps with
  | [] => []
  | v :: ps =>
      match A !! v with
      | Some e => if bool_decide (phys_de e ∈ own) then [phys_de e] else []
      | None => []
      end ++ frames_retirees own ps (delete v A)
  end.

Lemma demappe_spec ps : forall w viv A retired,
  tient w viv A -> Forall page_user ps ->
  exists w', demappe_pages ps retired w
      = (w', inl (retired ++ frames_retirees (pages (espace w)) ps A)) /\
    tient w' viv (retire_pages ps A) /\ suit w viv w' viv /\
    fa w' = fa w /\ pages (espace w') = pages (espace w).
Proof.
  induction ps as [|v ps IH]; intros w viv A retired T Hps.
  { exists w. simpl. rewrite app_nil_r. split_and!; done || apply suit_refl. }
  apply Forall_cons in Hps as [Hv Hps]. cbn [demappe_pages frames_retirees].
  change (retire_pages (v :: ps) A) with (retire_pages ps (delete v A)).
  pose proof (vue_chemin w viv A v T Hv) as HA. erewrite lie_pas by apply entry_mut_lit.
  destruct (chemin (mem w) (pml4 (espace w)) v 3) as [t|] eqn:Et; simpl in HA |- *.
  2:{ rewrite HA, delete_id by done. by apply IH. }
  erewrite lie_pas by reflexivity. set (old := mem w (cellule t (idx v 3))) in *.
  destruct (present old) eqn:Eo.
  2:{ rewrite HA, delete_id by done. by apply IH. }
  erewrite lie_pas by reflexivity. erewrite lie_pas by reflexivity. cbn [espace].
  rewrite (unmapped_ok w viv A v old T HA). unfold compte_resident.
  erewrite lie_pas by reflexivity. cbn [espace].
  destruct (feuille_tient w viv A v t 0 (ajoute (from_entry old) (-1) (resident (espace w))))
    as [T2 S2]; try done.
  { apply comptes_delete; [apply T|done]. }
  destruct (IH (monde_feuille w v t 0 (ajoute (from_entry old) (-1) (resident (espace w)))) viv
    (delete v A) (if bool_decide (phys_de old ∈ pages (espace w)) then retired ++ [phys_de old] else retired)
    T2 Hps) as (w' & E & T' & S' & F' & P').
  exists w'. split; [|split; [exact T'|split; [by eapply suit_trans|done]]].
  rewrite HA. etransitivity; [exact E|]. simpl. f_equal. f_equal.
  case_bool_decide; by rewrite <-?app_assoc.
Qed.

(** ** Changing the rights *)

Definition entree_protegee (flags e : Z) : Z :=
  Z.lor (Z.lor (Z.land e (Z.lor ADDR_MASK PTE_RSS_KIND_MASK)) flags) PTE_PRESENT.
Definition protege_carte (flags : Z) (ps : list Z) (A : gmap Z Z) : gmap Z Z :=
  fold_left (fun A v => match A !! v with
                        | Some e => <[v := entree_protegee flags e]> A
                        | None => A
                        end) ps A.

Lemma present_protegee flags e : present (entree_protegee flags e) = true.
Proof. rewrite present_bit. unfold entree_protegee. rewrite Z.lor_spec. simpl. apply orb_true_r. Qed.

(** The fields outside the flags are kept. *)
Lemma champ_protege flags e masque :
  Z.land flags masque = 0 -> Z.land PTE_PRESENT masque = 0 ->
  Z.land masque (Z.lor ADDR_MASK PTE_RSS_KIND_MASK) = masque ->
  Z.land (entree_protegee flags e) masque = Z.land e masque.
Proof.
  intros Hf Hp Hm. unfold entree_protegee. rewrite !Z.land_lor_distr_l, Hf, Hp, !Z.lor_0_r.
  rewrite <-Z.land_assoc, (Z.land_comm _ masque). by rewrite Hm.
Qed.

Lemma sorte_protegee flags e :
  Z.land flags PTE_RSS_KIND_MASK = 0 -> from_entry (entree_protegee flags e) = from_entry e.
Proof. intros Hf. unfold from_entry. by rewrite champ_protege. Qed.

Lemma phys_protegee flags e :
  Z.land flags ADDR_MASK = 0 -> phys_de (entree_protegee flags e) = phys_de e.
Proof. intros Hf. unfold phys_de. by rewrite champ_protege. Qed.

Lemma protege_spec flags ps : Z.land flags PTE_RSS_KIND_MASK = 0 -> forall w viv A changed,
  tient w viv A -> Forall page_user ps ->
  exists w' b, protege_pages ps flags changed w = (w', inl b) /\
    tient w' viv (protege_carte flags ps A) /\ suit w viv w' viv /\
    fa w' = fa w /\ pages (espace w') = pages (espace w) /\
    (b = false -> changed = false /\ protege_carte flags ps A = A).
Proof.
  intros Hf. induction ps as [|v ps IH]; intros w viv A changed T Hps.
  { exists w, changed. simpl. split_and!; done || apply suit_refl. }
  apply Forall_cons in Hps as [Hv Hps]. cbn [protege_pages].
  change (protege_carte flags (v :: ps) A) with (protege_carte flags ps
    (match A !! v with Some e => <[v := entree_protegee flags e]> A | None => A end)).
  pose proof (vue_chemin w viv A v T Hv) as HA. erewrite lie_pas by apply entry_mut_lit.
  destruct (chemin (mem w) (pml4 (espace w)) v 3) as [t|] eqn:Et; simpl in HA |- *.
  2:{ rewrite HA. by apply IH. }
  erewrite lie_pas by reflexivity. set (old := mem w (cellule t (idx v 3))) in *.
  fold (entree_protegee flags old).
  destruct (present old) eqn:Eo; cbn [andb]; rewrite HA; [|by apply IH].
  destruct (Z.eqb_spec old (entree_protegee flags old)) as [Hn|Hn]; cbn [negb].
  { rewrite <-Hn, insert_id by done. by apply IH. }
  erewrite lie_pas by reflexivity. set (new := entree_protegee flags old) in *.
  assert (carte_feuille A v new = <[v := new]> A) as Hcf.
  { unfold carte_feuille, new. by rewrite present_protegee. }
  destruct (feuille_tient w viv A v t new (resident (espace w))) as [T2 S2]; try done.
  { rewrite Hcf. eapply comptes_meme_sorte; [apply T|done|by apply sorte_protegee]. }
  rewrite Hcf in T2.
  destruct (IH (monde_feuille w v t new (resident (espace w))) viv (<[v := new]> A) true T2 Hps)
    as (w' & b & E & T' & S' & F' & P' & Hb).
  exists w', b. split.
  { etransitivity; [|exact E]. f_equal. unfold monde_feuille. by destruct (espace w). }
  split; [exact T'|]. split; [by eapply suit_trans|]. split; [done|]. split; [done|].
  intros Hbf. by destruct (Hb Hbf).
Qed.

(** ** Returning frames *)

Lemma rend_une w viv A q :
  tient w viv A -> q ∈ pages (espace w) ->
  exists w', lie (change_espace (ote_page q)) (fun _ => rend_frame q) w = (w', inl tt) /\
    tient w' (viv ∖ {[q]}) A /\ suit w viv w' (viv ∖ {[q]}) /\
    pages (espace w') = pages (espace w) ∖ {[q]}.
Proof.
  intros T Hq. pose proof T as [(l & Hpo) Ar Hpg Hpt Hvue Hdom Hco].
  assert (q ∈ viv) as Hqv by set_solver. destruct (te_viv _ _ _ _ T Hqv) as [Hqf Hqb].
  destruct (free_frame_spec _ _ _ _ _ q Hpo Hqf Hqb) as [Hfr _].
  destruct (Hfr Hqv) as (f' & m' & E & Hpo' & Hm).
  exists (mk_monde f' m' (ote_page q (espace w))). split.
  { erewrite lie_pas by reflexivity. unfold rend_frame. cbn [fa mem espace]. by rewrite E. }
  assert (forall t i, t = pml4 (espace w) \/ t ∈ tables (espace w) -> 0 <= i < 512 ->
            m' (cellule t i) = mem w (cellule t i)) as Hcell.
  { intros t i Ht Hi. apply Hm. intros He. destruct (Hpt q Hq) as [Hr Htb].
    assert (t ∈ viv) as Htv by (destruct Ht as [->|Ht]; [by apply Ar|by eapply ar_tables]).
    destruct (te_viv _ _ _ _ T Htv) as [Htf _].
    apply (cellule_hors q t i Hqf Htf); [intros ->; naive_solver|done|].
    rewrite He. unfold PAGE_SIZE. lia. }
  split; [|split; [|done]].
  - constructor; simpl; try done.
    + eauto.
    + eapply arbre_hors; [exact Ar|done| | |].
      * intros x Hx. eapply te_viv; [done|]. set_solver.
      * destruct (Hpt q Hq). apply elem_of_difference. split; [by apply Ar|]. set_solver.
      * intros t Ht. destruct (Hpt q Hq). apply elem_of_difference.
        split; [by eapply ar_tables|]. intros ->%elem_of_singleton. done.
    + set_solver.
    + intros x Hx. apply Hpt. set_solver.
    + intros v Hv. rewrite Hvue by done. unfold vue.
      by rewrite (entree_hors slot (mem w) m' _ (tables (espace w)) viv v Ar Hcell) by apply Hv.
  - constructor; simpl; [done| |].
    + intros x Hx Hn. unfold sienne in *. simpl. split; [|split].
      * apply elem_of_difference. split; [done|]. intros ->%elem_of_singleton. tauto.
      * intros [?|[?|?]]; [tauto..|]. apply Hn. right. right. set_solver.
      * intros y Hy. apply Hm. intros ->. destruct (te_viv _ _ _ _ T Hx) as [Hxf _].
        apply Hn. right. right. destruct (decide (x = q)) as [->|Hne]; [done|].
        exfalso. eapply (page_disjointe x q q); done.
    + intros i Hi _. apply Hcell; [by left|done].
Qed.

Lemma rend_frames_spec fs : forall w viv A,
  tient w viv A ->
  exists w' viv', rend_frames fs w = (w', inl tt) /\
    tient w' viv' A /\ suit w viv w' viv' /\
    viv' = viv ∖ (list_to_set fs ∩ pages (espace w)) /\
    pages (espace w') = pages (espace w) ∖ list_to_set fs.
Proof.
  induction fs as [|q fs IH]; intros w viv A T.
  { exists w, viv. split; [done|]. split; [done|]. split; [apply suit_refl|].
    split; simpl; set_solver. }
  cbn [rend_frames]. erewrite lie_pas by reflexivity. case_bool_decide as Hq.
  - destruct (rend_une w viv A q T Hq) as (w1 & E & T1 & S1 & P1).
    erewrite lie_pas by exact E.
    destruct (IH w1 _ A T1) as (w' & viv' & E' & T' & S' & V' & P').
    exists w', viv'. split; [done|]. split; [done|]. split; [by eapply suit_trans|].
    rewrite V', P', P1. simpl. split; [|set_solver].
    apply set_eq. intros x. rewrite !elem_of_difference, !elem_of_intersection, elem_of_union,
      !elem_of_difference, !elem_of_singleton. destruct (decide (x = q)) as [->|]; [tauto|]. tauto.
  - erewrite lie_pas by reflexivity.
    destruct (IH w viv A T) as (w' & viv' & E' & T' & S' & V' & P').
    exists w', viv'. split; [done|]. split; [done|]. split; [done|].
    rewrite V', P'. simpl. split; apply set_eq; intros x;
      rewrite !elem_of_difference, ?elem_of_intersection, elem_of_union, elem_of_singleton;
      destruct (decide (x = q)) as [->|]; tauto.
Qed.

(** ** Fresh frames *)

Definition monde_page (w : Monde) (f : FrameAllocator) (m : Mem) (p : Z) : Monde :=
  mk_monde f m (insere_page p (espace w)).

(** A frame just taken from the allocator becomes a page of the space, whatever is written
    in it. *)
Lemma page_tient w viv A f m p :
  tient w viv A -> p ∉ viv -> (exists l, possede f m ({[p]} ∪ viv) V l) ->
  (forall x, ~ p <= x < p + PAGE_SIZE -> m x = mem w x) ->
  tient (monde_page w f m p) ({[p]} ∪ viv) A /\ suit w viv (monde_page w f m p) ({[p]} ∪ viv).
Proof.
  intros T Hp (l & Hpo) Hm. pose proof T as [_ Ar Hpg Hpt Hvue Hdom Hco].
  assert (p ∈ V) as HpV by (rewrite (po_partage _ _ _ _ _ Hpo); clear; set_solver).
  assert (frame_ok p) as Hpf by (by eapply frame_de).
  assert (forall t, t = pml4 (espace w) \/ t ∈ tables (espace w) -> t ∈ viv) as Htv.
  { intros t [->|Ht]; [by apply Ar|by eapply ar_tables]. }
  assert (forall t i, t = pml4 (espace w) \/ t ∈ tables (espace w) -> 0 <= i < 512 ->
            m (cellule t i) = mem w (cellule t i)) as Hcell.
  { intros t i Ht Hi. apply Hm. apply cellule_hors; [done| | |done].
    - by eapply te_viv, Htv.
    - intros ->. by apply Hp, Htv. }
  split.
  - constructor; simpl.
    + eauto.
    + eapply arbre_hors; [exact Ar|done| | |].
      * intros x [->%elem_of_singleton|Hx]%elem_of_union; [|by eapply te_viv].
        split; [done|]. by eapply po_borne.
      * apply elem_of_union. right. by apply Ar.
      * intros t Ht. apply elem_of_union. right. by eapply ar_tables.
    + set_solver.
    + intros q [->%elem_of_singleton|Hq]%elem_of_union; [|by apply Hpt].
      split; [intros ->|intros Ht]; apply Hp, Htv; auto.
    + intros v Hv. rewrite Hvue by done. unfold vue.
      by rewrite (entree_hors slot (mem w) m _ (tables (espace w)) viv v Ar Hcell) by apply Hv.
    + done.
    + done.
  - constructor; simpl; [done| |].
    + intros q Hq Hn. unfold sienne in *. simpl. split; [set_solver|]. split.
      * rewrite elem_of_union, elem_of_singleton. intros [?|[?|[->|?]]]; tauto.
      * intros x Hx. apply Hm. destruct (te_viv _ _ _ _ T Hq) as [Hqf _].
        assert (q <> p) by (intros ->; done).
        unfold frame_ok, FramesLibres.TAILLE_PAGE, PAGE_SIZE in *.
        Z.to_euclidean_division_equations. lia.
    + intros i Hi _. apply Hcell; [by left|done].
Qed.

(** The entry of a mapped frame gives the frame back. *)
Lemma phys_entree_map p flags :
  frame_ok p -> p < 2 ^ 52 -> Z.land flags ADDR_MASK = 0 -> phys_de (entree_map p flags) = p.
Proof.
  intros Hp Hb Hf. unfold phys_de, entree_map.
  assert (Z.land p ADDR_MASK = p) as E.
  { rewrite <-(adresse_lien p) at 2 by done. unfold lien.
    rewrite !Z.land_lor_distr_l. by rewrite !Z.lor_0_r. }
  rewrite !Z.land_lor_distr_l, E, E, Hf. by rewrite !Z.lor_0_r.
Qed.

Definition drapeaux_comptes (flags : Z) (kind : ResidentKind) : Z :=
  Z.lor (Z.land flags (Z.lxor (u64_max - 1) PTE_RSS_KIND_MASK)) (bits kind).

Lemma drapeaux_comptes_adresse flags kind :
  Z.land flags ADDR_MASK = 0 -> Z.land (drapeaux_comptes flags kind) ADDR_MASK = 0.
Proof.
  intros H. unfold drapeaux_comptes. rewrite Z.land_lor_distr_l.
  rewrite <-Z.land_assoc, (Z.land_comm (Z.lxor _ _)), Z.land_assoc, H, Z.land_0_l.
  by destruct kind.
Qed.

(** What an allocation may have done: new pages on fresh frames, each frame on one page. *)
Record alloue_de (viv : gset Z) (own own' : gset Z) (ps : list Z) (A A' : gmap Z Z) : Prop := {
  al_own : own ⊆ own' /\ forall q, q ∈ own' -> q ∈ own \/ (q ∉ viv);
  al_garde : A ⊆ A';
  al_neuves : forall v e, A' !! v = Some e -> A !! v = None ->
      v ∈ ps /\ phys_de e ∈ own' /\ (phys_de e ∉ viv) /\ phys_de e ∈ V;
  al_unique : forall v v' e e', A' !! v = Some e -> A' !! v' = Some e' ->
      A !! v = None -> A !! v' = None -> phys_de e = phys_de e' -> v = v'
}.

Lemma alloue_de_rien viv own own' ps A :
  own ⊆ own' -> (forall q, q ∈ own' -> q ∈ own \/ (q ∉ viv)) -> alloue_de viv own own' ps A A.
Proof. intros. constructor; [by split|done|congruence|congruence]. Qed.

Lemma alloue_spec flags kind ps : Z.land flags ADDR_MASK = 0 -> forall w viv A,
  tient w viv A -> Forall page_user ps ->
  exists w' viv' A' ok, alloue_boucle ps flags kind w = (w', inl ok) /\
    tient w' viv' A' /\ suit w viv w' viv' /\ viv ⊆ viv' /\
    alloue_de viv (pages (espace w)) (pages (espace w')) ps A A' /\
    (ok = true -> forall v, v ∈ ps -> is_Some (A' !! v)).
Proof.
  intros Hf. induction ps as [|v ps IH]; intros w viv A T Hps.
  { exists w, viv, A, true. split; [done|]. split; [done|]. split; [apply suit_refl|].
    split; [done|]. split; [|set_solver]. apply alloue_de_rien; [done|tauto]. }
  apply Forall_cons in Hps as [Hv Hps]. cbn [alloue_boucle].
  assert (page_bas v = v) as Hpb.
  { destruct Hv as [Hu Hm]. destruct (user_borne v Hu). unfold PAGE_SIZE in Hm.
    rewrite page_bas_spec by (unfold u64_max; lia). Z.to_euclidean_division_equations. lia. }
  erewrite lie_pas by (apply (translate_spec w viv A v T), Hv). rewrite Hpb.
  destruct (A !! v) as [e|] eqn:HA; simpl.
  - destruct (IH w viv A T Hps) as (w' & viv' & A' & ok & E & T' & S' & Hs & Hal & Hok).
    exists w', viv', A', ok. split_and!; try done.
    + destruct Hal. constructor; try done. intros x ex Hx Hn.
      destruct (al_neuves0 x ex Hx Hn) as (?&?&?&?). split_and!; try done. set_solver.
    + intros Ho x [->|Hx]%elem_of_cons; [|by apply Hok].
      exists e. by eapply lookup_weaken; [|apply Hal].
  - destruct (te_frames _ _ _ T) as (l & Hpo).
    destruct (alloc_frame_spec _ _ _ _ _ Hpo) as (f & m' & r & Ea & Hr).
    erewrite lie_pas by (unfold alloue_frame; by rewrite Ea). destruct r as [p|].
    2:{ destruct Hr as (_ & _ & -> & Hpo'). exists (mk_monde f (mem w) (espace w)), viv, A, false.
        split; [done|]. split; [destruct T; constructor; try done; simpl; eauto|].
        split; [constructor; simpl; try done; intros; done|]. split; [done|]. split; [|done].
        apply alloue_de_rien; [done|tauto]. }
    destruct Hr as (HpV & Hp & -> & l' & Hpo').
    assert (frame_ok p /\ p < 2 ^ 52) as [Hpf Hpl].
    { split; [by eapply frame_de|by eapply po_borne]. }
    destruct (page_tient w viv A f (zero_page (mem w) p) p) as [T1 S1]; try done; [eauto| |].
    { intros x Hx. unfold zero_page. zcas; done. }
    assert (change_espace (insere_page p) (mk_monde f (zero_page (mem w) p) (espace w))
            = (monde_page w f (zero_page (mem w) p) p, inl tt)) as Ec by reflexivity.
    erewrite lie_pas by exact Ec.
    unfold map_accounted. fold (drapeaux_comptes flags kind).
    destruct (map_spec _ _ _ v p (drapeaux_comptes flags kind) T1 Hv)
      as (w2 & viv2 & ok & E2 & T2 & S2 & Hs2 & P2 & Hk2).
    erewrite lie_pas by exact E2. cbn [espace monde_page insere_page pages] in P2.
    set (new := entree_map p (drapeaux_comptes flags kind)) in *.
    assert (phys_de new = p) as Hph by (by apply phys_entree_map, drapeaux_comptes_adresse).
    destruct ok.
    2:{ exists w2, viv2, A, false. split; [done|]. split; [done|]. split; [by eapply suit_trans|].
        split; [set_solver|]. split; [|done].
        rewrite P2. apply alloue_de_rien; [set_solver|].
        intros q [->%elem_of_singleton|?]%elem_of_union; auto. }
    destruct (IH w2 viv2 _ T2 Hps) as (w' & viv' & A' & ok & E' & T' & S' & Hs' & Hal & Hok).
    exists w', viv', A', ok. split; [done|]. split; [done|].
    split; [eapply suit_trans; [|done]; by eapply suit_trans|]. split; [set_solver|].
    destruct Hal as [[Ho1 Ho2] Hg Hn Hu]. rewrite P2 in Ho1, Ho2.
    assert (A' !! v = Some new) as HAv by (eapply lookup_weaken; [apply lookup_insert_eq|done]).
    assert (forall x ex, A' !! x = Some ex -> A !! x = None -> x <> v -> <[v := new]> A !! x = None) as Hne.
    { intros. by rewrite lookup_insert_ne. }
    split.
    + constructor.
      * split; [set_solver|]. intros q Hq. destruct (Ho2 q Hq) as [Hq'|Hq']; [|right; set_solver].
        apply elem_of_union in Hq' as [->%elem_of_singleton|?]; auto.
      * etransitivity; [|done]. by apply insert_subseteq.
      * intros x ex Hx Hxn. destruct (decide (x = v)) as [->|Hxv].
        { rewrite HAv in Hx. simplify_eq. rewrite Hph. split_and!; try done; [set_solver|].
          apply Ho1. set_solver. }
        destruct (Hn x ex Hx (Hne _ _ Hx Hxn Hxv)) as (?&?&?&?). split_and!; try done; set_solver.
      * intros x y ex ey Hx Hy Hxn Hyn Hxy.
        destruct (decide (x = v)) as [->|Hxv], (decide (y = v)) as [->|Hyv]; try done.
        { rewrite HAv in Hx. simplify_eq. exfalso.
          destruct (Hn y ey Hy (Hne _ _ Hy Hyn Hyv)) as (_&_&Hb&_). apply Hb. rewrite <-Hxy, Hph. set_solver. }
        { rewrite HAv in Hy. simplify_eq. exfalso.
          destruct (Hn x ex Hx (Hne _ _ Hx Hxn Hxv)) as (_&_&Hb&_). apply Hb. rewrite Hxy, Hph. set_solver. }
        eapply Hu; eauto.
    + intros Ho x [->|Hx]%elem_of_cons; [by eexists|by apply Hok].
Qed.
End Creneau.
End TablesProofs.
