(* ===== verification/TablesTrace.v ===== *)
(** Ranges, and the unmapping protocol: entries cleared, remote translation caches
    invalidated, frames returned last. A trace interleaves mappings, protections, removals at
    any stage, and cores that load translations; no cached translation and no entry of the
    space ever designates a frame that was given back. *)

From S2P Require Import Prelude FramesLibres Frames Tables TablesArbre TablesProofs.

Module TablesTrace.
Import Frames FramesProofs Tables TablesArbre TablesProofs.
Import FramesLibres(frame_ok, frames_entre).
Open Scope os_scope.

(** The pages a range touches. *)
Definition fin_de (virt len : Z) : Z := page_bas (virt + len + PAGE_SIZE - 1).
Definition pages_plage (virt len : Z) : list Z := pages_de (page_bas virt) (fin_de virt len).

(** ** Removal on the map *)

Lemma lookup_retire ps A v :
  retire_pages ps A !! v = if decide (v ∈ ps) then None else A !! v.
Proof.
  unfold retire_pages. revert A. induction ps as [|p ps IH]; intros A; [done|].
  cbn [fold_left]. rewrite IH. destruct (decide (v ∈ ps)).
  - rewrite decide_True by set_solver. done.
  - destruct (decide (v = p)) as [->|].
    + rewrite decide_True by set_solver. apply lookup_delete_eq.
    + rewrite decide_False by set_solver. by rewrite lookup_delete_ne.
Qed.

Lemma lookup_protege flags ps A v :
  NoDup ps ->
  protege_carte flags ps A !! v =
    if decide (v ∈ ps) then entree_protegee flags <$> A !! v else A !! v.
Proof.
  unfold protege_carte. intros Hnd. revert A. induction Hnd as [|p ps Hn Hnd IH]; intros A; [done|].
  cbn [fold_left]. rewrite IH. destruct (decide (v = p)) as [->|Hne].
  - rewrite (decide_False (P := p ∈ ps)), decide_True by set_solver.
    destruct (A !! p) as [e|] eqn:E; [by rewrite lookup_insert_eq|by rewrite E].
  - assert ((match A !! p with Some e => <[p := entree_protegee flags e]> A | None => A end)
              !! v = A !! v) as ->.
    { destruct (A !! p); [by rewrite lookup_insert_ne|done]. }
    destruct (decide (v ∈ ps)).
    + by rewrite decide_True by set_solver.
    + by rewrite decide_False by set_solver.
Qed.

Lemma elem_frames_retirees own ps A q :
  NoDup ps ->
  q ∈ frames_retirees own ps A <->
  q ∈ own /\ exists v e, v ∈ ps /\ A !! v = Some e /\ phys_de e = q.
Proof.
  revert A. induction ps as [|p ps IH]; intros A Hnd; cbn [frames_retirees].
  { split; [set_solver|]. intros (_ & v & e & Hv & _). set_solver. }
  apply NoDup_cons in Hnd as [Hn Hnd]. rewrite elem_of_app, IH by done. split.
  - intros [Hq|(Ho & v & e & Hv & HA & He)].
    + destruct (A !! p) as [e|] eqn:E; [|set_solver]. case_bool_decide; [|set_solver].
      apply list_elem_of_singleton in Hq as ->. split; [done|]. exists p, e. split; [set_solver|done].
    + apply lookup_delete_Some in HA as [? ?]. split; [done|]. exists v, e. split; [set_solver|done].
  - intros (Ho & v & e & [->|Hv]%elem_of_cons & HA & He).
    + left. rewrite HA, bool_decide_true by congruence. subst q. set_solver.
    + right. split; [done|]. exists v, e. split_and!; try done.
      rewrite lookup_delete_ne; [done|]. intros ->. done.
Qed.

Lemma NoDup_frames_retirees own ps A :
  (forall v v' e e', A !! v = Some e -> A !! v' = Some e' -> phys_de e ∈ own ->
     phys_de e = phys_de e' -> v = v') ->
  NoDup ps -> NoDup (frames_retirees own ps A).
Proof.
  revert A. induction ps as [|p ps IH]; intros A Hu Hnd; cbn [frames_retirees]; [by constructor|].
  apply NoDup_cons in Hnd as [Hn Hnd]. apply NoDup_app.
  assert (forall v v' e e', delete p A !! v = Some e -> delete p A !! v' = Some e' ->
            phys_de e ∈ own -> phys_de e = phys_de e' -> v = v') as Hu'.
  { intros v v' e e' [_ ?]%lookup_delete_Some [_ ?]%lookup_delete_Some. by apply Hu. }
  split_and!; [|intros q Hq Hq'|by apply IH].
  - destruct (A !! p); [case_bool_decide|]; repeat constructor; set_solver.
  - destruct (A !! p) as [e|] eqn:E; [|set_solver]. case_bool_decide as Ho; [|set_solver].
    apply list_elem_of_singleton in Hq as ->.
    apply elem_frames_retirees in Hq' as (_ & v & e' & Hv & HA & He); [|done].
    apply lookup_delete_Some in HA as [Hne HA]. apply Hne. by eapply Hu.
Qed.

Lemma NoDup_pages_plage virt len : NoDup (pages_plage virt len).
Proof. apply NoDup_frames_entre. Qed.


Section Creneau.
Context (slot : Z) (Hslot : 0 <= slot /\ slot + USER_SLOTS <= 256) (V : gset Z).
#[local] Abbreviation user := (user slot).
#[local] Abbreviation page_user := (page_user slot).
#[local] Abbreviation tient := (tient slot V).
#[local] Abbreviation suit := (suit slot).

(** ** Ranges of pages *)

(** A non-empty range of user addresses. *)
Definition plage_user (virt len : Z) : Prop := 0 < len /\ user virt /\ user (virt + len - 1).

Lemma plage_borne virt len :
  plage_user virt len -> 0 <= virt /\ 0 < len /\ virt + len <= 2 ^ 48.
Proof.
  intros (Hl & H1 & H2). apply (user_borne slot Hslot) in H1 as [? _].
  apply (user_borne slot Hslot) in H2 as [? _]. lia.
Qed.

Lemma fin_arrondie_ok virt len w :
  plage_user virt len -> fin_arrondie virt len w = (w, inl (fin_de virt len)).
Proof.
  intros Hp. apply plage_borne in Hp. unfold fin_arrondie, fin_de, PAGE_SIZE, u64_max.
  destruct (Z.leb_spec (2 ^ 64) (virt + len + 4096)); [lia|done].
Qed.

Lemma elem_pages_plage virt len v :
  plage_user virt len ->
  v ∈ pages_plage virt len <-> 0 <= v /\ v mod 4096 = 0 /\ page_bas virt <= v < fin_de virt len.
Proof.
  intros Hp. apply plage_borne in Hp. unfold pages_plage, pages_de.
  unfold fin_de, PAGE_SIZE. rewrite !page_bas_spec by (unfold u64_max; lia).
  rewrite FramesLibresProofs.elem_frames_entre.
  - unfold frame_ok, FramesLibres.TAILLE_PAGE. tauto.
  - split; [|apply Z.mod_mul; done]. Z.to_euclidean_division_equations. lia.
  - unfold FramesLibres.TAILLE_PAGE. apply Z.mod_mul. lia.
Qed.

Lemma plage_pages virt len : plage_user virt len -> Forall page_user (pages_plage virt len).
Proof.
  intros Hp. apply Forall_forall. intros v Hv. apply elem_pages_plage in Hv as (H0 & Hm & Hb); [|done].
  split; [|done]. pose proof (plage_borne _ _ Hp). destruct Hp as (Hl & H1 & H2).
  unfold fin_de, PAGE_SIZE in Hb. rewrite !page_bas_spec in Hb by (unfold u64_max; lia).
  unfold TablesArbre.user, is_user_addr, user_slot_base in *.
  rewrite Z.shiftl_mul_pow2 in * by lia. change (2 ^ 39) with (134217728 * 4096) in *.
  unfold USER_SPACE_SIZE, USER_SLOTS in *. bool_prop.
  apply andb_true_iff. split; [apply Z.leb_le|apply Z.ltb_lt];
    Z.to_euclidean_division_equations; lia.
Qed.

(** Every page of a range lies between the bounds the invalidation covers. *)
Lemma plage_invalide virt len v :
  plage_user virt len -> v ∈ pages_plage virt len ->
  page_bas virt <= v < page_bas virt + Z.max (fin_de virt len - page_bas virt) 0.
Proof. intros Hp Hv. apply elem_pages_plage in Hv; [lia|done]. Qed.

Lemma prepare_unmap_spec w viv A virt len :
  tient w viv A -> plage_user virt len ->
  exists w', prepare_unmap virt len w
      = (w', inl (mk_ur (page_bas virt) (Z.max (fin_de virt len - page_bas virt) 0)
                   (frames_retirees (pages (espace w)) (pages_plage virt len) A))) /\
    tient w' viv (retire_pages (pages_plage virt len) A) /\ suit w viv w' viv /\
    fa w' = fa w /\ pages (espace w') = pages (espace w).
Proof.
  intros T Hp. unfold prepare_unmap. erewrite lie_pas by (by apply fin_arrondie_ok).
  destruct (demappe_spec slot Hslot V (pages_plage virt len) w viv A [] T) as (w' & E & H);
    [by apply plage_pages|].
  exists w'. split; [|done]. erewrite lie_pas by exact E. done.
Qed.

Lemma prepare_protect_spec w viv A virt len flags :
  tient w viv A -> plage_user virt len -> Z.land flags PTE_RSS_KIND_MASK = 0 ->
  exists w' r, prepare_protect virt len flags w = (w', inl r) /\
    tient w' viv (protege_carte flags (pages_plage virt len) A) /\ suit w viv w' viv /\
    fa w' = fa w /\ pages (espace w') = pages (espace w) /\
    (r = None -> protege_carte flags (pages_plage virt len) A = A).
Proof.
  intros T Hp Hf. unfold prepare_protect. erewrite lie_pas by (by apply fin_arrondie_ok).
  destruct (protege_spec slot Hslot V flags (pages_plage virt len) Hf w viv A false T)
    as (w' & b & E & T' & S' & F' & P' & Hb); [by apply plage_pages|].
  eexists w', _. split; [erewrite lie_pas by exact E; reflexivity|]. split_and!; try done.
  intros Hr. apply Hb. by destruct b.
Qed.

Lemma map_alloc_spec w viv A virt len flags kind :
  tient w viv A -> plage_user virt len -> Z.land flags ADDR_MASK = 0 ->
  exists w' viv' A' ok, map_alloc_accounted virt len flags kind w = (w', inl ok) /\
    tient w' viv' A' /\ suit w viv w' viv' /\ viv ⊆ viv' /\
    alloue_de V viv (pages (espace w)) (pages (espace w')) (pages_plage virt len) A A' /\
    (ok = true -> forall v, v ∈ pages_plage virt len -> is_Some (A' !! v)).
Proof.
  intros T Hp Hf. unfold map_alloc_accounted. erewrite lie_pas by (by apply fin_arrondie_ok).
  apply alloue_spec; [done..|]. by apply plage_pages.
Qed.

(** ** The protocol *)

(** Frames in use elsewhere for the whole run: they may be lent to the space. *)
Context (autrui : gset Z).

(** A space, the pages it maps on borrowed frames, the translations to its own frames that
    cores hold, and the removals under way with whether the other cores acknowledged. *)
Record Systeme := mk_sys {
  monde : Monde;
  prete : gset Z;
  tlb : gset (Z * Z);
  attente : list (UnmapRetirement * bool)
}.

Definition couvre_inval (r : UnmapRetirement) (v : Z) : Prop :=
  inv_start r <= v < inv_start r + inv_len r.
#[local] Instance couvre_inval_dec r v : Decision (couvre_inval r v).
Proof. unfold couvre_inval. apply _. Defined.

Inductive pas_sys : Systeme -> Systeme -> Prop :=
| ps_alloue w p t att virt len flags kind w' ok :
    plage_user virt len -> Z.land flags ADDR_MASK = 0 ->
    map_alloc_accounted virt len flags kind w = (w', inl ok) ->
    pas_sys (mk_sys w p t att) (mk_sys w' p t att)
| ps_emprunte w p t att v phys flags w' ok :
    page_user v -> frame_ok phys -> phys < 2 ^ 52 -> Z.land flags ADDR_MASK = 0 ->
    phys ∈ autrui \/ (phys ∉ V) ->
    map_foreign v phys flags w = (w', inl ok) ->
    pas_sys (mk_sys w p t att) (mk_sys w' (if ok then {[v]} ∪ p else p) t att)
| ps_protege w p t att virt len flags w' r :
    plage_user virt len -> Z.land flags ADDR_MASK = 0 -> Z.land flags PTE_RSS_KIND_MASK = 0 ->
    prepare_protect virt len flags w = (w', inl r) ->
    pas_sys (mk_sys w p t att) (mk_sys w' p t att)
| ps_prepare w p t att virt len w' r :
    plage_user virt len -> prepare_unmap virt len w = (w', inl r) ->
    pas_sys (mk_sys w p t att)
      (mk_sys w' (p ∖ list_to_set (pages_plage virt len)) t ((r, false) :: att))
| ps_invalide w p t att1 att2 r :
    pas_sys (mk_sys w p t (att1 ++ (r, false) :: att2))
      (mk_sys w p (filter (fun x => ~ couvre_inval r x.1) t) (att1 ++ (r, true) :: att2))
| ps_termine w p t att1 att2 r w' :
    finish_unmap r w = (w', inl tt) ->
    pas_sys (mk_sys w p t (att1 ++ (r, true) :: att2)) (mk_sys w' p t (att1 ++ att2))
| ps_charge w p t att v e :
    page_user v -> vue (mem w) (pml4 (espace w)) v = Some e -> v ∉ p ->
    pas_sys (mk_sys w p t att) (mk_sys w p ({[(v, phys_de e)]} ∪ t) att)
| ps_oublie w p t t' att : t' ⊆ t -> pas_sys (mk_sys w p t att) (mk_sys w p t' att).

Definition depart (s : Systeme) : Prop :=
  (exists viv, tient (monde s) viv ∅ /\ forall q, q ∈ autrui -> q ∈ viv /\ ~ sienne (monde s) q) /\
  prete s = ∅ /\ tlb s = ∅ /\ attente s = [].

Inductive atteint_sys : Systeme -> Prop :=
| as_depart s : depart s -> atteint_sys s
| as_pas s s' : atteint_sys s -> pas_sys s s' -> atteint_sys s'.

(** Every frame a removal still holds, over all removals under way. *)
Definition retenues (att : list (UnmapRetirement * bool)) : list Z :=
  concat ((fun x => frames x.1) <$> att).

Record sur (s : Systeme) (viv : gset Z) (A : gmap Z Z) : Prop := {
  su_tient : tient (monde s) viv A;
  su_autrui : forall q, q ∈ autrui -> q ∈ viv /\ ~ sienne (monde s) q;
  su_unique : forall v v' e e', A !! v = Some e -> A !! v' = Some e' -> v ∉ prete s -> v' ∉ prete s ->
      phys_de e = phys_de e' -> v = v';
  su_own : forall v e, A !! v = Some e -> v ∉ prete s -> phys_de e ∈ pages (espace (monde s));
  su_prete : forall v, v ∈ prete s -> exists e, A !! v = Some e /\ (phys_de e ∈ autrui \/ (phys_de e ∉ V));
  su_att : forall q, q ∈ retenues (attente s) -> q ∈ pages (espace (monde s)) /\
      forall v e, A !! v = Some e -> v ∉ prete s -> phys_de e <> q;
  su_att_nd : NoDup (retenues (attente s));
  su_tlb : forall v q, (v, q) ∈ tlb s -> q ∈ pages (espace (monde s)) /\
      ((exists e, A !! v = Some e /\ (v ∉ prete s) /\ phys_de e = q) \/
       (exists r, (r, false) ∈ attente s /\ q ∈ frames r /\ couvre_inval r v))
}.

Lemma pages_V w viv A q : tient w viv A -> q ∈ pages (espace w) -> q ∈ V.
Proof.
  intros T Hq. destruct (te_frames _ _ _ _ _ T) as (l & Hpo).
  rewrite (po_partage _ _ _ _ _ Hpo). pose proof (te_pages _ _ _ _ _ T). set_solver.
Qed.

(** A borrowed page is never on a frame of the space. *)
Lemma prete_pas_sienne s viv A v e :
  sur s viv A -> v ∈ prete s -> A !! v = Some e -> phys_de e ∉ pages (espace (monde s)).
Proof.
  intros S Hv HA Hin. destruct (su_prete _ _ _ S v Hv) as (e' & HA' & Hc). simplify_eq.
  destruct Hc as [Hc|Hc].
  - apply (su_autrui _ _ _ S) in Hc as [_ Hc]. apply Hc. right. by right.
  - apply Hc. eapply pages_V; [apply S|done].
Qed.

Lemma depart_sur s : depart s -> exists viv A, sur s viv A.
Proof.
  intros ((viv & T & Ha) & Hp & Ht & Hatt). exists viv, ∅.
  constructor; rewrite ?Hp, ?Ht, ?Hatt; try done; try set_solver. constructor.
Qed.

Lemma alloue_sur w p t att viv A virt len flags kind w' ok :
  sur (mk_sys w p t att) viv A -> plage_user virt len -> Z.land flags ADDR_MASK = 0 ->
  map_alloc_accounted virt len flags kind w = (w', inl ok) ->
  exists viv' A', sur (mk_sys w' p t att) viv' A'.
Proof.
  intros S Hp Hf E. pose proof S as [T Ha Hu Ho Hpr Hatt Hnd Ht]. simpl in *.
  destruct (map_alloc_spec w viv A virt len flags kind T Hp Hf)
    as (w1 & viv1 & A1 & ok1 & E1 & T1 & S1 & Hv1 & [[Ho1 Ho2] Hg Hn Hun] & _).
  rewrite E in E1. injection E1 as <- <-.
  assert (forall v e, A1 !! v = Some e -> v ∉ p ->
            (A !! v = Some e /\ phys_de e ∈ viv) \/ (A !! v = None /\ (phys_de e ∉ viv))) as Hcas.
  { intros v e Hv Hvp. destruct (A !! v) as [e'|] eqn:HA.
    - left. assert (e' = e) as -> by (eapply lookup_weaken in HA; [|exact Hg]; congruence).
      split; [done|]. pose proof (te_pages _ _ _ _ _ T). apply Ho in HA; [set_solver|done].
    - right. split; [done|]. by eapply Hn. }
  exists viv1, A1. constructor; simpl; try done.
  - intros q Hq. destruct (Ha q Hq) as [Hqv Hqs]. destruct (su_autres _ _ _ _ _ S1 q Hqv Hqs) as (?&?&_). done.
  - intros v v' e e' Hv Hv' Hvp Hvp' He.
    destruct (Hcas v e Hv Hvp) as [[H1 B1]|[H1 B1]], (Hcas v' e' Hv' Hvp') as [[H2 B2]|[H2 B2]].
    + by eapply Hu.
    + rewrite He in B1. done.
    + rewrite He in B1. done.
    + by eapply Hun.
  - intros v e Hv Hvp. destruct (Hcas v e Hv Hvp) as [[H1 _]|[H1 _]].
    + apply Ho1. by eapply Ho.
    + by eapply Hn.
  - intros v Hvp. destruct (Hpr v Hvp) as (e & HA & Hc). exists e. split; [|done].
    by eapply lookup_weaken.
  - intros q Hq. destruct (Hatt q Hq) as [Hqp Hqn]. split; [by apply Ho1|]. intros v e Hv Hvp He.
    destruct (Hcas v e Hv Hvp) as [[H1 _]|[H1 B1]]; [by eapply Hqn|].
    apply B1. rewrite He. pose proof (te_pages _ _ _ _ _ T). set_solver.
  - intros v q Hq. destruct (Ht v q Hq) as [Hqp Hd]. split; [by apply Ho1|].
    destruct Hd as [(e & HA & Hvp & He)|Hd]; [left|by right].
    exists e. split; [by eapply lookup_weaken|done].
Qed.

Lemma emprunte_sur w p t att viv A v phys flags w' ok :
  sur (mk_sys w p t att) viv A -> page_user v -> frame_ok phys -> phys < 2 ^ 52 ->
  Z.land flags ADDR_MASK = 0 -> phys ∈ autrui \/ (phys ∉ V) ->
  map_foreign v phys flags w = (w', inl ok) ->
  exists viv' A', sur (mk_sys w' (if ok then {[v]} ∪ p else p) t att) viv' A'.
Proof.
  intros S Hv Hph Hpb Hf Hc E. pose proof S as [T Ha Hu Ho Hpr Hatt Hnd Ht]. simpl in *.
  destruct (map_spec slot Hslot V w viv A v phys flags T Hv)
    as (w1 & viv1 & ok1 & E1 & T1 & S1 & Hv1 & P1 & Hk).
  unfold map_foreign in E. rewrite E in E1. injection E1 as <- <-.
  assert (forall q, q ∈ autrui -> q ∈ viv1 /\ ~ sienne w' q) as Ha'.
  { intros q Hq. destruct (Ha q Hq) as [Hqv Hqs]. destruct (su_autres _ _ _ _ _ S1 q Hqv Hqs) as (?&?&_). done. }
  set (new := entree_map phys flags) in *.
  assert (phys_de new = phys) as Hnew by (by apply phys_entree_map).
  destruct ok.
  2:{ exists viv1, A. constructor; simpl; rewrite ?P1; done. }
  assert (v ∈ p \/ A !! v = None) as Hvp.
  { destruct (decide (v ∈ p)) as [|Hn]; [by left|right]. destruct Hk as [?|HA]; [done|exfalso].
    pose proof (Ho v new HA Hn) as Hin. rewrite Hnew in Hin. destruct Hc as [Hc|Hc].
    - apply Ha in Hc as [_ Hc]. apply Hc. right. by right.
    - apply Hc. eapply pages_V; [exact T|done]. }
  assert (forall x e, <[v := new]> A !! x = Some e -> x ∉ {[v]} ∪ p -> A !! x = Some e /\ (x ∉ p) /\ x <> v) as Hx.
  { intros x e Hx Hn. rewrite lookup_insert_ne in Hx by set_solver. set_solver. }
  exists viv1, (<[v := new]> A). constructor; simpl; rewrite ?P1; try done.
  - intros x x' e e' H1 H2 Hn1 Hn2. apply Hx in H1 as (?&?&_); [|done]. apply Hx in H2 as (?&?&_); [|done].
    by eapply Hu.
  - intros x e H1 Hn1. apply Hx in H1 as (?&?&_); [|done]. by eapply Ho.
  - intros x Hxp. destruct (decide (x = v)) as [->|Hne].
    + exists new. rewrite lookup_insert_eq, Hnew. done.
    + destruct (Hpr x) as (e & HA & ?); [set_solver|]. exists e. by rewrite lookup_insert_ne.
  - intros q Hq. destruct (Hatt q Hq) as [Hqp Hqn]. split; [done|]. intros x e H1 Hn1.
    apply Hx in H1 as (?&?&_); [|done]. by eapply Hqn.
  - intros x q Hq. destruct (Ht x q Hq) as [Hqp Hd]. split; [done|].
    destruct Hd as [(e & HA & Hxp & He)|Hd]; [left|by right].
    assert (x <> v) as Hne by (intros ->; destruct Hvp; [done|congruence]).
    exists e. rewrite lookup_insert_ne by done. split; [done|]. split; [set_solver|done].
Qed.

Lemma protege_sur w p t att viv A virt len flags w' r :
  sur (mk_sys w p t att) viv A -> plage_user virt len ->
  Z.land flags ADDR_MASK = 0 -> Z.land flags PTE_RSS_KIND_MASK = 0 ->
  prepare_protect virt len flags w = (w', inl r) ->
  exists viv' A', sur (mk_sys w' p t att) viv' A'.
Proof.
  intros S Hp Hf Hf' E. pose proof S as [T Ha Hu Ho Hpr Hatt Hnd Ht]. simpl in *.
  destruct (prepare_protect_spec w viv A virt len flags T Hp Hf')
    as (w1 & r1 & E1 & T1 & S1 & F1 & P1 & _).
  rewrite E in E1. injection E1 as <- <-. set (A' := protege_carte _ _ _) in *.
  assert (forall v, match A' !! v, A !! v with
                    | Some e', Some e => phys_de e' = phys_de e
                    | None, None => True
                    | _, _ => False end) as HA.
  { intros v. unfold A'. rewrite lookup_protege by apply NoDup_pages_plage.
    destruct (decide (v ∈ pages_plage virt len)), (A !! v); simpl; try done.
    by apply phys_protegee. }
  assert (forall v e', A' !! v = Some e' -> exists e, A !! v = Some e /\ phys_de e = phys_de e') as Hback.
  { intros v e' Hv. specialize (HA v). rewrite Hv in HA. destruct (A !! v) as [e|]; [|done]. by exists e. }
  assert (forall v e, A !! v = Some e -> exists e', A' !! v = Some e' /\ phys_de e' = phys_de e) as Hforw.
  { intros v e Hv. specialize (HA v). rewrite Hv in HA. destruct (A' !! v) as [e'|]; [|done]. by exists e'. }
  exists viv, A'. constructor; simpl; rewrite ?P1; try done.
  - intros q Hq. destruct (Ha q Hq) as [Hqv Hqs]. destruct (su_autres _ _ _ _ _ S1 q Hqv Hqs) as (?&?&_). done.
  - intros v v' e e' (e1 & H1 & E1)%Hback (e2 & H2 & E2)%Hback Hn Hn' He.
    eapply Hu; [exact H1|exact H2|done|done|congruence].
  - intros v e (e1 & H1 & <-)%Hback Hn. by eapply Ho.
  - intros v Hv. destruct (Hpr v Hv) as (e & (e' & He' & Ee)%Hforw & Hc). exists e'. by rewrite Ee.
  - intros q Hq. destruct (Hatt q Hq) as [Hqp Hqn]. split; [done|].
    intros v e (e1 & H1 & <-)%Hback Hn. by eapply Hqn.
  - intros v q Hq. destruct (Ht v q Hq) as [Hqp Hd]. split; [done|].
    destruct Hd as [(e & (e' & He' & Ee)%Hforw & Hvp & He)|Hd]; [left|by right].
    exists e'. by rewrite Ee.
Qed.

Lemma retenues_cons r b att : retenues ((r, b) :: att) = frames r ++ retenues att.
Proof. done. Qed.

Lemma prepare_sur w p t att viv A virt len w' r :
  sur (mk_sys w p t att) viv A -> plage_user virt len -> prepare_unmap virt len w = (w', inl r) ->
  exists viv' A', sur (mk_sys w' (p ∖ list_to_set (pages_plage virt len)) t ((r, false) :: att)) viv' A'.
Proof.
  intros S Hp E. pose proof S as [T Ha Hu Ho Hpr Hatt Hnd Ht]. simpl in *.
  destruct (prepare_unmap_spec w viv A virt len T Hp) as (w1 & E1 & T1 & S1 & F1 & P1).
  rewrite E in E1. injection E1 as <- ->. set (ps := pages_plage virt len) in *.
  assert (NoDup ps) as Hps by apply NoDup_pages_plage.
  assert (forall v e, A !! v = Some e -> phys_de e ∈ pages (espace w) -> v ∉ p) as Hown.
  { intros v e HA Hin Hv. by eapply (prete_pas_sienne _ _ _ v e S). }
  assert (forall q, q ∈ frames_retirees (pages (espace w)) ps A <->
            q ∈ pages (espace w) /\ exists v e, v ∈ ps /\ A !! v = Some e /\ phys_de e = q) as Hfr.
  { intros q. by apply elem_frames_retirees. }
  assert (forall v e, retire_pages ps A !! v = Some e -> v ∉ p ∖ list_to_set ps -> A !! v = Some e /\ (v ∉ ps) /\ (v ∉ p)) as Hb.
  { intros v e. rewrite lookup_retire. case_decide; [done|]. intros; split; [done|]. set_solver. }
  exists viv, (retire_pages ps A). constructor; simpl; rewrite ?P1; try done.
  - intros q Hq. destruct (Ha q Hq) as [Hqv Hqs]. destruct (su_autres _ _ _ _ _ S1 q Hqv Hqs) as (?&?&_). done.
  - intros v v' e e' H1 H2 Hn1 Hn2. apply Hb in H1 as (?&_&?); [|done]. apply Hb in H2 as (?&_&?); [|done].
    by eapply Hu.
  - intros v e H1 Hn1. apply Hb in H1 as (?&_&?); [|done]. by eapply Ho.
  - intros v [Hv Hvs]%elem_of_difference. destruct (Hpr v Hv) as (e & HA & Hc). exists e.
    rewrite lookup_retire, decide_False by set_solver. done.
  - intros q [Hq|Hq]%elem_of_app.
    + apply Hfr in Hq as (Hqp & v & e & Hv & HA & <-). split; [done|].
      intros v' e' H1 Hn1 He. apply Hb in H1 as (H1 & Hn & Hn'); [|done].
      assert (v' = v) as ->; [|done]. eapply Hu; eauto.
    + destruct (Hatt q Hq) as [Hqp Hqn]. split; [done|]. intros v e H1 Hn1.
      apply Hb in H1 as (?&_&?); [|done]. by eapply Hqn.
  - rewrite retenues_cons. apply NoDup_app. split_and!; [|intros q Hq Hq'|done].
    + apply NoDup_frames_retirees; [|done]. intros v v' e e' H1 H2 Hin He.
      eapply Hu; eauto. eapply Hown; [exact H2|]. by rewrite <-He.
    + apply Hfr in Hq as (Hqp & v & e & Hv & HA & <-). destruct (Hatt _ Hq') as [_ Hqn].
      by eapply Hqn; eauto.
  - intros v q Hq. destruct (Ht v q Hq) as [Hqp Hd]. split; [done|].
    destruct Hd as [(e & HA & Hvp & He)|(r & Hr & Hqr & Hc)].
    + destruct (decide (v ∈ ps)) as [Hv|Hv].
      * right. eexists. split; [apply list_elem_of_here|]. simpl. split.
        -- apply Hfr. split; [done|]. by exists v, e.
        -- by apply plage_invalide.
      * left. exists e. rewrite lookup_retire, decide_False by done. split_and!; try done. set_solver.
    + right. exists r. split; [by apply list_elem_of_further|done].
Qed.

Lemma retenues_app att1 att2 : retenues (att1 ++ att2) = retenues att1 ++ retenues att2.
Proof. unfold retenues. by rewrite fmap_app, concat_app. Qed.

Lemma invalide_sur w p t att1 att2 r viv A :
  sur (mk_sys w p t (att1 ++ (r, false) :: att2)) viv A ->
  sur (mk_sys w p (filter (fun x => ~ couvre_inval r x.1) t) (att1 ++ (r, true) :: att2)) viv A.
Proof.
  intros S. pose proof S as [T Ha Hu Ho Hpr Hatt Hnd Ht]. simpl in *.
  assert (retenues (att1 ++ (r, true) :: att2) = retenues (att1 ++ (r, false) :: att2)) as Er.
  { by rewrite !retenues_app, !retenues_cons. }
  constructor; simpl; rewrite ?Er; try done. intros v q [Hn Hq]%elem_of_filter. simpl in Hn.
  destruct (Ht v q Hq) as [Hqp Hd]. split; [done|]. destruct Hd as [?|(r' & Hr & Hqr & Hc)]; [by left|].
  right. exists r'. split; [|done]. apply elem_of_app in Hr as [Hr|Hr]; [set_solver|].
  apply elem_of_cons in Hr as [Hr|Hr]; [simplify_eq; done|set_solver].
Qed.

Lemma termine_sur w p t att1 att2 r w' viv A :
  sur (mk_sys w p t (att1 ++ (r, true) :: att2)) viv A -> finish_unmap r w = (w', inl tt) ->
  exists viv', sur (mk_sys w' p t (att1 ++ att2)) viv' A.
Proof.
  intros S E. pose proof S as [T Ha Hu Ho Hpr Hatt Hnd Ht]. simpl in *.
  destruct (rend_frames_spec slot Hslot V (frames r) w viv A T) as (w1 & viv1 & E1 & T1 & S1 & V1 & P1).
  unfold finish_unmap in E. rewrite E in E1. injection E1 as <-.
  rewrite retenues_app, retenues_cons in Hnd, Hatt.
  assert (forall q, q ∈ retenues (att1 ++ att2) -> q ∉ frames r) as Hdis.
  { intros q. rewrite retenues_app. intros Hq Hq'. apply NoDup_app in Hnd as (_ & H1 & H2).
    apply NoDup_app in H2 as (_ & H2 & _). apply elem_of_app in Hq as [Hq|Hq].
    - apply (H1 q Hq). set_solver.
    - by apply (H2 q Hq'). }
  assert (forall q, q ∈ pages (espace w) -> q ∉ frames r -> q ∈ pages (espace w')) as Hkeep.
  { intros q. rewrite P1. set_solver. }
  assert (forall v e, A !! v = Some e -> v ∉ p -> phys_de e ∉ frames r) as Hmap.
  { intros v e HA Hv Hin. destruct (Hatt (phys_de e)) as [_ Hn]; [set_solver|]. by eapply Hn. }
  exists viv1. constructor; simpl; try done.
  - intros q Hq. destruct (Ha q Hq) as [Hqv Hqs]. destruct (su_autres _ _ _ _ _ S1 q Hqv Hqs) as (?&?&_). done.
  - intros v e HA Hv. apply Hkeep; [by eapply Ho|by eapply Hmap].
  - intros q Hq. destruct (Hatt q) as [Hqp Hqn].
    { rewrite retenues_app in Hq. set_solver. }
    split; [|done]. apply Hkeep; [done|by apply Hdis].
  - rewrite retenues_app. apply NoDup_app in Hnd as (N1 & N2 & N3). apply NoDup_app in N3 as (_ & _ & N3).
    apply NoDup_app. split_and!; try done. intros q Hq Hq'. apply (N2 q Hq). set_solver.
  - intros v q Hq. destruct (Ht v q Hq) as [Hqp Hd].
    assert ((exists e, A !! v = Some e /\ (v ∉ p) /\ phys_de e = q) \/
            (exists r', (r', false) ∈ att1 ++ att2 /\ q ∈ frames r' /\ couvre_inval r' v)) as Hd'.
    { destruct Hd as [?|(r' & Hr & Hqr & Hc)]; [by left|right]. exists r'. split; [|done].
      apply elem_of_app in Hr as [Hr|Hr]; [set_solver|]. apply elem_of_cons in Hr as [Hr|Hr]; [done|set_solver]. }
    split; [|done]. apply Hkeep; [done|]. destruct Hd' as [(e & HA & Hv & <-)|(r' & Hr & Hqr & _)].
    + by eapply Hmap.
    + apply Hdis. unfold retenues. rewrite list_elem_of_In, in_concat. exists (frames r').
      rewrite <-!list_elem_of_In. split; [|done]. apply list_elem_of_fmap. by exists (r', false).
Qed.

Lemma charge_sur w p t att v e viv A :
  sur (mk_sys w p t att) viv A -> page_user v -> vue (mem w) (pml4 (espace w)) v = Some e -> v ∉ p ->
  sur (mk_sys w p ({[(v, phys_de e)]} ∪ t) att) viv A.
Proof.
  intros S Hv Hvue Hp. pose proof S as [T Ha Hu Ho Hpr Hatt Hnd Ht]. simpl in *.
  rewrite <-(te_vue _ _ _ _ _ T v Hv) in Hvue.
  constructor; simpl; try done. intros x q [[= -> ->]%elem_of_singleton|Hq]%elem_of_union; [|by apply Ht].
  split; [by eapply Ho|]. left. by exists e.
Qed.

Lemma pas_sys_sur s s' viv A : sur s viv A -> pas_sys s s' -> exists viv' A', sur s' viv' A'.
Proof.
  intros S Hp. destruct Hp.
  - by eapply alloue_sur.
  - by eapply emprunte_sur.
  - by eapply protege_sur.
  - by eapply prepare_sur.
  - eauto using invalide_sur.
  - edestruct termine_sur; eauto.
  - eauto using charge_sur.
  - exists viv, A. destruct S. constructor; simpl in *; try done. intros. apply su_tlb0. set_solver.
Qed.

Lemma atteint_sys_sur s : atteint_sys s -> exists viv A, sur s viv A.
Proof.
  induction 1 as [s H|s s' _ (viv & A & IH) Hp]; [by apply depart_sur|]. by eapply pas_sys_sur.
Qed.
End Creneau.

End TablesTrace.

(** A new address space, and the properties of the page tables: refinement of the map from
    pages to entries, isolation from the kernel and from other owners, and the unmapping
    protocol. *)

Module TablesProps.
Import Frames FramesProofs Tables TablesArbre TablesProofs TablesTrace.
Import FramesLibres(frame_ok, frames_entre).
Open Scope os_scope.

(** ** A new space *)

Definition efface (p slot n : Z) (m : Mem) : Mem :=
  fold_left (fun m i => ecrit_mot m (cellule p (slot + i)) 0) (seqZ 0 n) m.

Lemma efface_S p slot n m :
  0 <= n -> efface p slot (n + 1) m = ecrit_mot (efface p slot n m) (cellule p (slot + n)) 0.
Proof.
  intros Hn. unfold efface. replace (seqZ 0 (n + 1)) with (seqZ 0 n ++ [n]).
  - by rewrite fold_left_app.
  - rewrite seqZ_app by lia. by f_equal.
Qed.

Lemma efface_spec p slot n m x :
  0 <= n ->
  ((exists i, 0 <= i < n /\ x = cellule p (slot + i)) -> efface p slot n m x = 0) /\
  ((forall i, 0 <= i < n -> x <> cellule p (slot + i)) -> efface p slot n m x = m x).
Proof.
  intros Hn. pattern n. apply natlike_ind; [| |done].
  - split; [intros (i & ? & _); lia|done].
  - clear n Hn. intros n Hn [IH1 IH2]. rewrite <-Z.add_1_r, efface_S by done. unfold ecrit_mot.
    destruct (Z.eqb_spec x (cellule p (slot + n))) as [->|Hne].
    + split; [done|]. intros H. exfalso. apply (H n); [lia|done].
    + split.
      * intros (i & Hi & ->). apply IH1. exists i. split; [|done].
        destruct (decide (i = n)) as [->|]; [done|lia].
      * intros H. apply IH2. intros i Hi. apply H. lia.
Qed.

Section Creneau.
Context (slot : Z) (Hslot : 0 <= slot /\ slot + USER_SLOTS <= 256) (V : gset Z).

(** The kernel's entries are taken over, the user part is empty. *)
Lemma new_tient kp f m viv l f' m' s :
  possede f m viv V l -> new slot kp (f, m) = Some (f', m', Some s) ->
  tient slot V (mk_monde f' m' s) ({[pml4 s]} ∪ viv) ∅ /\ (pml4 s ∉ viv) /\
  tables s = [] /\ pages s = ∅ /\
  (forall q x, q ∈ viv -> q <= x < q + PAGE_SIZE -> m' x = m x) /\
  (kp ∈ viv -> forall i, 0 <= i < 512 -> ~ slot <= i < slot + USER_SLOTS ->
     m' (cellule (pml4 s) i) = m (cellule kp i)).
Proof.
  intros Po H. unfold new in H. cbn [fst snd] in H.
  destruct (alloc_frame_spec _ _ _ _ _ Po) as (f1 & m1 & r & Ea & Hr). rewrite Ea in H.
  destruct r as [p|]; [|done]. destruct Hr as (HpV & Hp & -> & l' & Po').
  set (c := fun x => if (p <=? x) && (x <? p + PAGE_SIZE)
                     then zero_page m p (kp + (x - p)) else zero_page m p x).
  change (Some (f1, efface p slot USER_SLOTS c, Some (mk_as p [] ∅ rs_vide)) = Some (f', m', Some s)) in H.
  injection H as <- <- <-. simpl.
  assert (frame_ok p /\ p < 2 ^ 52) as [Hpf Hpb] by (split; [by eapply frame_de|by eapply po_borne]).
  assert (forall q, q ∈ viv -> frame_ok q) as Hvf.
  { intros q Hq. eapply frame_de; [exact Po|]. rewrite (po_partage _ _ _ _ _ Po). clear -Hq. set_solver. }
  assert (forall x, ~ p <= x < p + PAGE_SIZE -> efface p slot USER_SLOTS c x = m x) as Hout.
  { intros x Hx. destruct (efface_spec p slot USER_SLOTS c x) as [_ H]; [done|]. rewrite H.
    - unfold c, zero_page. zcas; done.
    - intros i Hi ->. apply Hx. unfold USER_SLOTS in *. apply cellule_page. lia. }
  assert (forall q x, q ∈ viv -> q <= x < q + PAGE_SIZE -> ~ p <= x < p + PAGE_SIZE) as Hdis.
  { intros q x Hq Hx Hx'. assert (q <> p) by (intros ->; done). apply Hvf in Hq.
    unfold frame_ok, FramesLibres.TAILLE_PAGE, PAGE_SIZE in *. Z.to_euclidean_division_equations. lia. }
  split; [|split; [done|split; [done|split; [done|split]]]].
  - constructor; simpl.
    + exists l'. apply (possede_mem _ (zero_page m p)); [done|]. intros q Hq.
      assert (q <> p) as Hne.
      { intros ->. pose proof (po_viv_libres _ _ _ _ _ Po') as Hd. clear -Hd Hq. set_solver. }
      assert (frame_ok q) as Hqf.
      { eapply frame_de; [exact Po'|]. rewrite (po_partage _ _ _ _ _ Po'). clear -Hq. set_solver. }
      assert (~ p <= q < p + PAGE_SIZE) as Hn.
      { intros Hn. by eapply (page_disjointe p q q). }
      rewrite Hout by done. unfold zero_page. zcas; done.
    + apply arbre_vide.
      * intros q [->%elem_of_singleton|Hq]%elem_of_union; [done|]. split; [auto|].
        eapply po_borne; [exact Po|]. rewrite (po_partage _ _ _ _ _ Po). clear -Hq. set_solver.
      * clear. set_solver.
      * intros v Hv. apply (user_borne slot Hslot) in Hv as [_ Hi].
        destruct (efface_spec p slot USER_SLOTS c (cellule p (idx v 0))) as [H _]; [done|].
        rewrite H; [done|]. exists (idx v 0 - slot). split; [lia|]. f_equal. lia.
    + clear. set_solver.
    + clear. set_solver.
    + intros v [Hv _]. rewrite lookup_empty. unfold vue, entree. cbn [chemin].
      apply (user_borne slot Hslot) in Hv as [_ Hi].
      destruct (efface_spec p slot USER_SLOTS c (cellule p (idx v 0))) as [H _]; [done|].
      rewrite H; [done|]. exists (idx v 0 - slot). split; [lia|]. f_equal. lia.
    + done.
    + split; [done|]. intros k. unfold sorte. rewrite map_filter_empty. by destruct k.
  - intros q x Hq Hx. apply Hout. by eapply Hdis.
  - intros Hk i Hi Hs. destruct (efface_spec p slot USER_SLOTS c (cellule p i)) as [_ H]; [done|].
    rewrite H.
    + unfold c. pose proof (cellule_page p i Hi).
      replace (kp + (cellule p i - p)) with (cellule kp i) by (unfold cellule; lia).
      assert (~ p <= cellule kp i < p + PAGE_SIZE) as Hn.
      { eapply Hdis; [exact Hk|]. by apply cellule_page. }
      unfold zero_page. zcas; done.
    + intros j Hj E. unfold cellule in E. lia.
Qed.

(** ** Properties *)

(** C10. The four-level tables implement a map from user pages to entries: translation reads
    the map; mapping a page adds exactly that page and is refused only when the page has
    another entry or no frame is left for a table; removing a range removes exactly its
    pages and hands over their owned frames; changing rights keeps the frame of each page.
    No operation fails an assertion, the resident counters stay exact, and every operation
    leaves the kernel's entries and every frame of another owner as they were. *)
Theorem tables_raffinent w viv A :
  tient slot V w viv A ->
  comptes (resident (espace w)) A /\
  (forall v, user slot v ->
     translate v w = (w, inl ((fun e => Z.lor (Z.land e ADDR_MASK) (Z.land v (PAGE_SIZE - 1)))
                                <$> A !! page_bas v))) /\
  (forall v phys flags, page_user slot v -> exists w' viv' ok,
     map v phys flags w = (w', inl ok) /\ suit slot w viv w' viv' /\
     tient slot V w' viv' (if ok then <[v := entree_map phys flags]> A else A) /\
     (ok = false -> (exists e, A !! v = Some e /\ e <> entree_map phys flags)
                    \/ used (fa w') = total (fa w'))) /\
  (forall virt len, plage_user slot virt len -> exists w' A' frs,
     prepare_unmap virt len w
       = (w', inl (mk_ur (page_bas virt) (Z.max (fin_de virt len - page_bas virt) 0) frs)) /\
     suit slot w viv w' viv /\ tient slot V w' viv A' /\
     (forall v, A' !! v = if decide (v ∈ pages_plage virt len) then None else A !! v) /\
     (forall q, q ∈ frs <-> q ∈ pages (espace w) /\
        exists v e, v ∈ pages_plage virt len /\ A !! v = Some e /\ phys_de e = q)) /\
  (forall virt len flags, plage_user slot virt len -> Z.land flags PTE_RSS_KIND_MASK = 0 ->
     exists w' A' r, prepare_protect virt len flags w = (w', inl r) /\
     suit slot w viv w' viv /\ tient slot V w' viv A' /\
     (forall v, A' !! v = if decide (v ∈ pages_plage virt len)
                          then entree_protegee flags <$> A !! v else A !! v) /\
     (r = None -> A' = A)).
Proof.
  intros T. split; [apply T|]. split; [|split; [|split]].
  - intros v Hv. by apply (translate_spec slot Hslot V w viv).
  - intros v phys flags Hv. destruct (map_spec slot Hslot V w viv A v phys flags T Hv)
      as (w' & viv' & ok & E & T' & S' & _ & _ & Hk). exists w', viv', ok. split_and!; try done.
    intros ->. done.
  - intros virt len Hp. destruct (prepare_unmap_spec slot Hslot V w viv A virt len T Hp)
      as (w' & E & T' & S' & _). eexists w', _, _. split_and!; [exact E|done|exact T'| |].
    + intros v. apply lookup_retire.
    + intros q. apply elem_frames_retirees, NoDup_pages_plage.
  - intros virt len flags Hp Hf.
    destruct (prepare_protect_spec slot Hslot V w viv A virt len flags T Hp Hf)
      as (w' & r & E & T' & S' & _ & _ & Hr). eexists w', _, r. split_and!; [exact E|done|exact T'| |done].
    intros v. apply lookup_protege, NoDup_pages_plage.
Qed.

(** C2. No frame given back is reachable: along any interleaving of allocations, mappings of
    borrowed frames, protections, removals at any stage and translation loads by other
    cores, a translation held by a core and an entry of the space (borrowed pages apart)
    both designate a frame the space still owns, that the allocator can give to nobody; and
    returning the frames of an acknowledged removal never fails. *)
Theorem frame_rendue_inaccessible autrui s :
  atteint_sys slot V autrui s ->
  (forall v q, (v, q) ∈ tlb s -> q ∈ pages (espace (monde s)) /\
     forall f' m' p, alloc_frame (fa (monde s)) (mem (monde s)) = Some (f', m', Some p) -> p <> q) /\
  (forall v e, page_user slot v -> vue (mem (monde s)) (pml4 (espace (monde s))) v = Some e ->
     v ∉ prete s -> phys_de e ∈ pages (espace (monde s)) /\
     forall f' m' p, alloc_frame (fa (monde s)) (mem (monde s)) = Some (f', m', Some p) ->
       p <> phys_de e) /\
  (forall r, (r, true) ∈ attente s -> exists w', finish_unmap r (monde s) = (w', inl tt)).
Proof.
  intros Hs. destruct (atteint_sys_sur slot Hslot V autrui s Hs) as (viv & A & S).
  assert (forall q, q ∈ pages (espace (monde s)) -> forall f' m' p,
    alloc_frame (fa (monde s)) (mem (monde s)) = Some (f', m', Some p) -> p <> q) as Hal.
  { intros q Hq f' m' p E ->. pose proof (su_tient _ _ _ _ _ _ S) as T.
    destruct (te_frames _ _ _ _ _ T) as (l & Po).
    destruct (alloc_frame_spec _ _ _ _ _ Po) as (f1 & m1 & r & E1 & H). rewrite E in E1.
    injection E1 as <- <- <-. destruct H as (_ & Hn & _). apply Hn.
    by apply (te_pages _ _ _ _ _ T). }
  split; [|split].
  - intros v q Hq. destruct (su_tlb _ _ _ _ _ _ S v q Hq) as [Hp _]. eauto.
  - intros v e Hv Hvue Hn. rewrite <-(te_vue _ _ _ _ _ (su_tient _ _ _ _ _ _ S) v Hv) in Hvue.
    pose proof (su_own _ _ _ _ _ _ S v e Hvue Hn). eauto.
  - intros r _. destruct (rend_frames_spec slot Hslot V (frames r) (monde s) viv A)
      as (w' & _ & E & _); [apply S|]. by exists w'.
Qed.
End Creneau.

(** ** A concrete machine *)

Definition creneau : Z := choisit_creneau (fun _ => 0).
Definition frames_temoin : gset Z := ∅ ∪ list_to_set (nouvelles 4096 65536).

Lemma creneau_ok : 0 <= creneau /\ creneau + USER_SLOTS <= 256.
Proof. vm_compute. split; discriminate. Qed.

(** A space created on a machine of 15 frames. *)
Lemma espace_temoin : exists w viv, tient creneau frames_temoin w viv ∅.
Proof.
  destruct (add_region vide 4096 65536) as [f1|] eqn:E; [|vm_compute in E; discriminate E].
  assert (possede f1 (fun _ => 0) ∅ frames_temoin []) as Po.
  { eapply (add_region_spec vide); [apply vide_possede|..|exact E];
      try (unfold PAGE_SIZE; lia). set_solver. }
  destruct (alloc_frame_spec _ _ _ _ _ Po) as (f2 & m2 & r & Ea & Hr). destruct r as [p|].
  2:{ destruct Hr as (_ & Hv & _). vm_compute in E. injection E as <-. vm_compute in Hv.
      discriminate Hv. }
  assert (exists m3 s, new creneau 0 (f1, fun _ => 0) = Some (f2, m3, Some s)) as (m3 & s & En).
  { unfold new. cbn [fst snd]. rewrite Ea. eauto. }
  eexists _, _.
  by apply (new_tient creneau creneau_ok frames_temoin 0 _ _ _ _ _ _ _ Po En).
Qed.

Lemma tables_raffinent_witness : exists w viv,
  tient creneau frames_temoin w viv ∅ /\
  translate (user_slot_base creneau) w = (w, inl None).
Proof.
  destruct espace_temoin as (w & viv & T). exists w, viv. split; [exact T|].
  destruct (tables_raffinent creneau creneau_ok frames_temoin w viv ∅ T) as (_ & Ht & _).
  apply (Ht (user_slot_base creneau)). vm_compute. reflexivity.
Defined.

Lemma frame_rendue_inaccessible_witness : exists s,
  atteint_sys creneau frames_temoin ∅ s /\
  (forall r, (r, true) ∈ attente s -> exists w', finish_unmap r (monde s) = (w', inl tt)).
Proof.
  destruct espace_temoin as (w & viv & T).
  assert (plage_user creneau (user_slot_base creneau) 8192) as Hp.
  { split; [reflexivity|]. split; vm_compute; reflexivity. }
  destruct (map_alloc_spec creneau creneau_ok frames_temoin w viv ∅ (user_slot_base creneau) 8192 7 Anonymous T Hp)
    as (w1 & viv1 & A1 & ok & E1 & T1 & _); [reflexivity|].
  destruct (prepare_unmap_spec creneau creneau_ok frames_temoin w1 viv1 A1 (user_slot_base creneau) 8192 T1 Hp)
    as (w2 & E2 & _).
  set (r := mk_ur _ _ _) in E2.
  assert (atteint_sys creneau frames_temoin ∅ (mk_sys w ∅ ∅ [])) as H0.
  { apply as_depart. split; [|done]. exists viv. split; [exact T|]. set_solver. }
  assert (atteint_sys creneau frames_temoin ∅ (mk_sys w1 ∅ ∅ [])) as H1.
  { eapply as_pas; [exact H0|]. eapply ps_alloue; [exact Hp| |exact E1]. reflexivity. }
  assert (exists p, atteint_sys creneau frames_temoin ∅ (mk_sys w2 p ∅ [(r, false)])) as [p H2].
  { eexists. eapply as_pas; [exact H1|]. eapply ps_prepare; [exact Hp|exact E2]. }
  assert (exists t, atteint_sys creneau frames_temoin ∅ (mk_sys w2 p t [(r, true)])) as [t H3].
  { eexists. eapply as_pas; [exact H2|]. apply (ps_invalide creneau frames_temoin ∅ w2 p ∅ [] []). }
  exists (mk_sys w2 p t [(r, true)]). split; [exact H3|].
  apply (frame_rendue_inaccessible creneau creneau_ok frames_temoin ∅ _ H3).
Defined.

End TablesProps.
