(* ===== verification/MemLinux.v ===== *)
(** The memory system calls, [src/compat/linux/mem.rs] ([brk], [mmap], [munmap], [mprotect],
    [mremap], [madvise]), with the process state they change, [MmState] of
    [src/kernel/process/thread/processus.rs], and the reference counts of the shared page
    cache, [src/kernel/memory/shared.rs].

    The page tables and the frame allocator are those of [Tables]; the areas those of [Vma].
    What the calls read of other parts (descriptors, file lengths, the framebuffer) and the
    fault handler they invoke for MAP_POPULATE and [mremap] are parameters of the section.
    Calls that leave the memory subsystem are kept, in order, in a journal. [inr tt] is a
    failed assertion, [expect] or overflow check. *)

From S2P Require Import Prelude Vma FramesLibres Frames Tables.

Module MemLinux.
Open Scope os_scope.

Definition PAGE_SIZE : Z := 4096.
Definition EBADF : Z := 9.
Definition ENOMEM : Z := 12.
Definition EACCES : Z := 13.
Definition EFAULT : Z := 14.
Definition EEXIST : Z := 17.
Definition ENODEV : Z := 19.
Definition EINVAL : Z := 22.

Definition PROT_NONE : Z := 0.
Definition PROT_READ : Z := 1.
Definition PROT_WRITE : Z := 2.
Definition PROT_EXEC : Z := 4.
Definition MAP_SHARED : Z := 0x01.
Definition MAP_PRIVATE : Z := 0x02.
Definition MAP_FIXED : Z := 0x10.
Definition MAP_ANONYMOUS : Z := 0x20.
Definition MAP_NORESERVE : Z := 0x4000.
Definition MAP_POPULATE : Z := 0x8000.
Definition MAP_FIXED_NOREPLACE : Z := 0x100000.

(** [x & m != 0] *)
Definition a_bit (x m : Z) : bool := negb (Z.land x m =? 0).

(** ** W^X *)

Definition ECRITURE : Z := Z.shiftl 1 1.
Definition NON_EXECUTABLE : Z := Z.shiftl 1 63.
Definition inscriptible_et_executable (drapeaux : Z) : bool :=
  a_bit drapeaux ECRITURE && negb (a_bit drapeaux NON_EXECUTABLE).
Definition prot_viole_wx (prot prot_write prot_exec : Z) : bool :=
  a_bit prot prot_write && a_bit prot prot_exec.

Definition prot_to_flags (prot : Z) : Z :=
  if prot =? PROT_NONE then Z.lor Tables.PTE_PRESENT Tables.PTE_NO_EXEC
  else
    let flags := Z.lor Tables.PTE_PRESENT Tables.PTE_USER in
    let flags := if a_bit prot PROT_WRITE then Z.lor flags Tables.PTE_WRITE else flags in
    if negb (a_bit prot PROT_EXEC) then Z.lor flags Tables.PTE_NO_EXEC else flags.
Definition prot_to_flags_verifie (prot : Z) : option Z :=
  if prot_viole_wx prot PROT_WRITE PROT_EXEC then None else Some (prot_to_flags prot).

(** ** State *)

Record Partage := mk_partage { p_base : Z; p_length : Z; p_node : Z }.
#[export] Instance Partage_eq_dec : EqDecision Partage.
Proof. solve_decision. Defined.

(** The page tables, [space] in the source, are the [espace] of the world. *)
Record MmState := mk_mm {
  brk_start : Z; brk : Z; mmap_next : Z;
  partages : list Partage;
  limite_as : Z;
  promesses : list Vma.Vma;
  clean_pages : list (Z * Z)
}.

(** A node of the shared page cache, its pages being (number, frame). *)
Record Partagee := mk_partagee { ouverts : Z; mappages : Z; pages : list (Z * Z) }.

Inductive Evt :=
| ERetireFaute (start len : Z)
| EShootdown (start len : Z)
| EFrameRendue (phys : Z)
| ECleanRelachee (key : Z)
| EEcritFichier (node : Z) (pages : list (Z * Z))
| EAnonymeLibere (node : Z).

Record Etat := mk_etat {
  monde : Tables.Monde;
  mm : MmState;
  next_id : Z;
  cache : gmap Z Partagee;
  journal : list Evt
}.

Definition L : Type -> Type := M Etat unit.
Definition panique {A} : L A := echoue tt.
Definition l_mm : L MmState := fun s => (s, inl (mm s)).
Definition change_mm (f : MmState -> MmState) : L unit :=
  change (fun s => mk_etat (monde s) (f (mm s)) (next_id s) (cache s) (journal s)).
Definition change_cache (f : gmap Z Partagee -> gmap Z Partagee) : L unit :=
  change (fun s => mk_etat (monde s) (mm s) (next_id s) (f (cache s)) (journal s)).
Definition note (e : Evt) : L unit :=
  change (fun s => mk_etat (monde s) (mm s) (next_id s) (cache s) (journal s ++ [e])).
Definition sur_monde {A} (c : Tables.P A) : L A := fun s =>
  match c (monde s) with
  | (w, inl x) => (mk_etat w (mm s) (next_id s) (cache s) (journal s), inl x)
  | (w, inr e) => (mk_etat w (mm s) (next_id s) (cache s) (journal s), inr e)
  end.
Definition l_space : L Tables.AddressSpace := fun s => (s, inl (Tables.espace (monde s))).

Definition pose_promesses (l : list Vma.Vma) (m : MmState) : MmState :=
  mk_mm (brk_start m) (brk m) (mmap_next m) (partages m) (limite_as m) l (clean_pages m).
Definition pose_partages (l : list Partage) (m : MmState) : MmState :=
  mk_mm (brk_start m) (brk m) (mmap_next m) l (limite_as m) (promesses m) (clean_pages m).
Definition pose_clean (l : list (Z * Z)) (m : MmState) : MmState :=
  mk_mm (brk_start m) (brk m) (mmap_next m) (partages m) (limite_as m) (promesses m) l.
Definition pose_brk (b : Z) (m : MmState) : MmState :=
  mk_mm (brk_start m) b (mmap_next m) (partages m) (limite_as m) (promesses m) (clean_pages m).
Definition pose_mmap_next (b : Z) (m : MmState) : MmState :=
  mk_mm (brk_start m) (brk m) b (partages m) (limite_as m) (promesses m) (clean_pages m).

(** Overflow-checked addition, and the identity of a new area. *)
Definition plus64 (a b : Z) : L Z := if u64_max <=? a + b then panique else rend (a + b).
Definition identite : L Z := fun s =>
  match Vma.nouvelle_identite (next_id s) with
  | Some (n, n') => (mk_etat (monde s) (mm s) n' (cache s) (journal s), inl n)
  | None => (s, inr tt)
  end.
Definition vma_remplace (d f dr : Z) (b : Vma.Backing) : L unit :=
  n <- identite ;;
  change_mm (fun m => pose_promesses (Vma.remplace (promesses m) (Vma.mk_vma n d f dr b)) m).
Definition vma_retire (d f : Z) : L unit :=
  change_mm (fun m => pose_promesses (Vma.retire (promesses m) d f) m).

Inductive FdKind := FFile (node : Z) | FFramebuffer | FAutre.

Section Environnement.
(** The user slot, the descriptors of the process, its virtual screen, the framebuffer, the
    files; the fault handler on one page, and one chunk copied between two user ranges. *)
Context (slot : Z) (fd_kind : Z -> option FdKind) (ecran lfb_phys : option Z)
  (logical_len : Z -> Z) (is_disk_backed est_anonyme : Z -> bool)
  (peuple : Z -> L bool) (user_copie : Z -> Z -> Z -> L bool).

(** ** The shared page cache *)

Definition mappe (node : Z) : L unit :=
  change_cache (fun c =>
    let e := default (mk_partagee 0 0 []) (c !! node) in
    <[node := mk_partagee (ouverts e) (mappages e + 1) (pages e)]> c).

Fixpoint rend_pages (ps : list (Z * Z)) : L unit :=
  match ps with
  | [] => rend tt
  | (_, frame) :: ps => sur_monde (Tables.rend_frame frame) ;;; rend_pages ps
  end.
(** The state holds only present pages between two calls: the tests of the source on pinned pages,
    on pages in state Loading and on an entry being evicted (shared.rs 298-309) concern a fault or a
    copy still running on another core, which this model does not interleave, and are left out. *)
Definition evince_si_orphelin (node : Z) : L unit :=
  s <- etat_courant ;;
  match cache s !! node with
  | None => rend tt
  | Some e =>
      if negb (ouverts e =? 0) || negb (mappages e =? 0) then rend tt
      else
        (if est_anonyme node then rend tt else note (EEcritFichier node (pages e))) ;;;
        rend_pages (pages e) ;;;
        (if est_anonyme node then note (EAnonymeLibere node) else rend tt) ;;;
        change_cache (delete node)
  end.
Definition demappe (node : Z) : L unit :=
  s <- etat_courant ;;
  match cache s !! node with
  | None => panique
  | Some e =>
      if mappages e =? 0 then panique
      else
        change_cache (<[node := mk_partagee (ouverts e) (mappages e - 1) (pages e)]>) ;;;
        evince_si_orphelin node
  end.
Fixpoint demappe_tous (nodes : list Z) : L unit :=
  match nodes with
  | [] => rend tt
  | n :: nodes => demappe n ;;; demappe_tous nodes
  end.
Fixpoint relache_cles (keys : list Z) : L unit :=
  match keys with
  | [] => rend tt
  | k :: keys => note (ECleanRelachee k) ;;; relache_cles keys
  end.

(** ** The process state *)

Definition retire_clean_pages (addr len : Z) : L (list Z) :=
  let fin := Vma.saturating_add addr len in
  m <- l_mm ;;
  let dedans := fun x : Z * Z => (addr <=? x.1) && (x.1 <? fin) in
  change_mm (pose_clean (List.filter (fun x => negb (dedans x)) (clean_pages m))) ;;;
  rend (map snd (List.filter dedans (clean_pages m))).
Definition has_clean_pages (m : MmState) (addr len : Z) : bool :=
  let fin := Vma.saturating_add addr len in
  existsb (fun x : Z * Z => (addr <=? x.1) && (x.1 <? fin)) (clean_pages m).

(** The pieces of one shared range, the node it releases, and whether it splits. *)
Definition coupe_partage (addr fin : Z) (p : Partage) : list Partage * list Z * bool :=
  let p_fin := Vma.saturating_add (p_base p) (p_length p) in
  if (fin <=? p_base p) || (p_fin <=? addr) then ([p], [], false)
  else
    let gauche := Vma.saturating_sub addr (p_base p) in
    let droite := Vma.saturating_sub p_fin fin in
    ((if negb (gauche =? 0) then [mk_partage (p_base p) gauche (p_node p)] else [])
     ++ (if negb (droite =? 0) then [mk_partage fin droite (p_node p)] else []),
     (if (gauche =? 0) && (droite =? 0) then [p_node p] else []),
     negb (gauche =? 0) && negb (droite =? 0)).
Fixpoint partages_boucle (addr fin : Z) (ps : list Partage) : L (list Partage * list Z) :=
  match ps with
  | [] => rend ([], [])
  | p :: ps =>
      let '(restes, rendus, deux) := coupe_partage addr fin p in
      (if deux then mappe (p_node p) else rend tt) ;;;
      r <- partages_boucle addr fin ps ;;
      rend (restes ++ r.1, rendus ++ r.2)
  end.
Definition retire_partages (addr len : Z) : L (list Z) :=
  let fin := Vma.saturating_add addr len in
  m <- l_mm ;;
  r <- partages_boucle addr fin (partages m) ;;
  change_mm (pose_partages r.1) ;;;
  rend r.2.

Definition taille_as (m : MmState) (s : Tables.AddressSpace) : Z :=
  Z.max (Vma.octets_virtuels (promesses m)) (Tables.mapped_pages s * PAGE_SIZE).
Definition tient_sous_limite (croissance : Z) : L bool :=
  m <- l_mm ;;
  s <- l_space ;;
  if limite_as m =? 0 then rend true
  else t <- plus64 (taille_as m s) croissance ;; rend (t <=? limite_as m).

(** ** [brk] *)

(** [(x + PAGE_SIZE - 1) & !(PAGE_SIZE - 1)] *)
Definition arrondi (x : Z) : L Z := y <- plus64 x PAGE_SIZE ;; rend (page_bas (y - 1)).

(** [AddressSpace::finish_unmap], each frame leaving its mark in the journal when it is given back. *)
Fixpoint finish_unmap (frs : list Z) : L unit :=
  match frs with
  | [] => rend tt
  | phys :: frs =>
      s <- l_space ;;
      (if bool_decide (phys ∈ Tables.pages s)
       then sur_monde (Tables.change_espace (Tables.ote_page phys)) ;;;
            sur_monde (Tables.rend_frame phys) ;;;
            note (EFrameRendue phys)
       else rend tt) ;;;
      finish_unmap frs
  end.

(** [retire_fault_range], [execute_process_invalidation], then [finish_unmap]. *)
Definition termine_demappage (start len : Z) (r : Tables.UnmapRetirement) : L unit :=
  note (ERetireFaute start len) ;;;
  note (EShootdown (Tables.inv_start r) (Tables.inv_len r)) ;;;
  finish_unmap (Tables.frames r).

(** [x as i64] *)
Definition as_i64 (x : Z) : Z := if x <? 2 ^ 63 then x else x - u64_max.

Definition sys_brk (addr : Z) : L Z :=
  m <- l_mm ;;
  if (addr =? 0) || (addr <? brk_start m) then rend (as_i64 (brk m))
  else
    let current := brk m in
    r <- (if current <? addr then
            start <- arrondi current ;;
            end_ <- arrondi addr ;;
            if start <? end_ then
              ok <- tient_sous_limite (end_ - start) ;;
              if negb ok then rend (Some (as_i64 current), None)
              else
                vma_remplace start end_ (prot_to_flags (Z.lor PROT_READ PROT_WRITE)) Vma.BZero ;;;
                rend (None, None)
            else rend (None, None)
          else if addr <? current then
            start <- arrondi addr ;;
            end_ <- arrondi current ;;
            if start <? end_ then
              vma_retire start end_ ;;;
              r <- sur_monde (Tables.prepare_unmap start (end_ - start)) ;;
              rend (None, Some (r, start, end_ - start))
            else rend (None, None)
          else rend (None, None)) ;;
    match r with
    | (Some refus, _) => rend refus
    | (None, retirement) =>
        change_mm (pose_brk addr) ;;;
        match retirement with
        | Some (r, start, len) => termine_demappage start len r
        | None => rend tt
        end ;;;
        rend (as_i64 addr)
    end.

(** ** [mmap] *)

Definition plage_user_valide (base length : Z) : bool :=
  if length =? 0 then false
  else match Vma.checked_add base length with
       | None => false
       | Some fin => Tables.is_user_addr slot base && Tables.is_user_addr slot (fin - 1)
       end.

Definition choisit_base_mmap (addr length flags : Z) : L (Z + Z) :=
  m <- l_mm ;;
  if a_bit flags (Z.lor MAP_FIXED MAP_FIXED_NOREPLACE) then
    rend (if (addr =? 0) || a_bit addr (PAGE_SIZE - 1) then inr (- EINVAL)
          else match Vma.checked_add addr length with
               | None => inr (- ENOMEM)
               | Some fin =>
                   if negb (plage_user_valide addr length) then inr (- ENOMEM)
                   else if a_bit flags MAP_FIXED_NOREPLACE && Vma.chevauche (promesses m) addr fin
                        then inr (- EEXIST) else inl addr
               end)
  else
    let hint := page_bas addr in
    if negb (addr =? 0) && plage_user_valide hint length
       && negb (Vma.chevauche (promesses m) hint (hint + length))
    then rend (inl hint)
    else
      match Vma.checked_add (Tables.user_slot_base slot) Tables.USER_SPACE_SIZE with
      | None => rend (inr (- ENOMEM))
      | Some limite =>
          match Vma.trouve_trou (promesses m) (mmap_next m) length limite with
          | None => rend (inr (- ENOMEM))
          | Some base =>
              match Vma.checked_add base length with
              | None => rend (inr (- ENOMEM))
              | Some x =>
                  match Vma.checked_add x PAGE_SIZE with
                  | None => rend (inr (- ENOMEM))
                  | Some next => change_mm (pose_mmap_next next) ;;; rend (inl base)
                  end
              end
          end
      end.

Definition installe_vma (base length drapeaux : Z) (backing : Vma.Backing) (fixed : bool)
  : L (option Tables.UnmapRetirement * list Z * list Z) :=
  fin <- plus64 base length ;;
  r <- (if fixed then
          shared_nodes <- retire_partages base length ;;
          clean <- retire_clean_pages base length ;;
          retirement <- sur_monde (Tables.prepare_unmap base length) ;;
          vma_retire base fin ;;;
          rend (Some retirement, shared_nodes, clean)
        else rend (None, [], [])) ;;
  vma_remplace base fin drapeaux backing ;;;
  rend r.

Definition finish_mapping_replacement (retirement : option Tables.UnmapRetirement)
  (shared_nodes clean : list Z) : L unit :=
  match retirement with
  | Some r =>
      note (EShootdown (Tables.inv_start r) (Tables.inv_len r)) ;;;
      finish_unmap (Tables.frames r)
  | None => rend tt
  end ;;;
  demappe_tous shared_nodes ;;;
  relache_cles clean.

(** [while page < base + length { if !peuple(page) { return -ENOMEM } page += PAGE_SIZE }] *)
Fixpoint peuple_boucle (ps : list Z) : L bool :=
  match ps with
  | [] => rend true
  | page :: ps => ok <- peuple page ;; if ok then peuple_boucle ps else rend false
  end.
Definition peuple_plage (populate : bool) (base length : Z) : L Z :=
  if populate then
    ok <- peuple_boucle (Tables.pages_de base (base + length)) ;;
    rend (if ok then base else - ENOMEM)
  else rend base.

(** The common end of a mapping: install, publish the shared range, finish, populate. *)
Definition pose_mapping (base length drapeaux : Z) (backing : Vma.Backing) (fixed : bool)
  (partage : option Z) (populate : bool) : L Z :=
  r <- installe_vma base length drapeaux backing fixed ;;
  let '(retirement, liberes, clean) := r in
  match partage with
  | Some node => change_mm (fun m => pose_partages (partages m ++ [mk_partage base length node]) m)
  | None => rend tt
  end ;;;
  (if fixed then note (ERetireFaute base length) else rend tt) ;;;
  finish_mapping_replacement retirement liberes clean ;;;
  peuple_plage populate base length.

(** The backing of a file mapping; a shared one takes its reference at once. *)
Definition backing_fichier (base length prot flags fd offset : Z)
  : L ((Vma.Backing * option Z) + Z) :=
  match fd_kind fd with
  | Some (FFile node) =>
      let file_size := Z.min (Vma.saturating_sub (logical_len node) offset) length in
      if a_bit flags MAP_SHARED then
        if a_bit prot PROT_WRITE && is_disk_backed node then rend (inr (- EACCES))
        else
          mappe node ;;;
          rend (inl (Vma.BSharedFile node base offset file_size, Some node))
      else rend (inl (Vma.BFile node base offset file_size, None))
  | Some _ => rend (inr (- ENODEV))
  | None => rend (inr (- EBADF))
  end.

Definition sys_mmap (addr length prot flags fd offset : Z) : L Z :=
  if (length =? 0) || a_bit prot (Z.lxor (u32_max - 1) (Z.lor (Z.lor PROT_READ PROT_WRITE) PROT_EXEC))
  then rend (- EINVAL)
  else
  let map_type := Z.land flags (Z.lor MAP_SHARED MAP_PRIVATE) in
  if negb (map_type =? MAP_SHARED) && negb (map_type =? MAP_PRIVATE) then rend (- EINVAL)
  else
  match Vma.checked_add length (PAGE_SIZE - 1) with
  | None => rend (- ENOMEM)
  | Some v =>
  let length := page_bas v in
  if negb (a_bit flags MAP_ANONYMOUS) && a_bit offset (PAGE_SIZE - 1) then rend (- EINVAL)
  else
  b <- choisit_base_mmap addr length flags ;;
  match b with
  | inr e => rend e
  | inl base =>
  let fixed := a_bit flags MAP_FIXED in
  match prot_to_flags_verifie prot with
  | None => rend (- EACCES)
  | Some drapeaux =>
  let populate := a_bit flags MAP_POPULATE && negb (prot =? PROT_NONE) in
  match (if negb (a_bit flags MAP_ANONYMOUS) && (0 <=? fd) then fd_kind fd else None) with
  | Some FFramebuffer =>
      match ecran with
      | Some node =>
          mappe node ;;;
          pose_mapping base length drapeaux (Vma.BSharedFile node base offset length) fixed
            (Some node) populate
      | None =>
          match lfb_phys with
          | None => rend (- ENODEV)
          | Some phys =>
              pose_mapping base length (Z.lor drapeaux Tables.PTE_WRITE_THROUGH)
                (Vma.BFramebuffer phys base offset) fixed None false
          end
      end
  | _ =>
      k <- (if a_bit flags MAP_ANONYMOUS then rend (inl (Vma.BZero, None))
            else backing_fichier base length prot flags fd offset) ;;
      match k with
      | inr e => rend e
      | inl (backing, nouveau) =>
          tient <- (if fixed then rend true else tient_sous_limite length) ;;
          if negb tient then
            match nouveau with Some node => demappe node | None => rend tt end ;;;
            rend (- ENOMEM)
          else pose_mapping base length drapeaux backing fixed nouveau populate
      end
  end
  end
  end
  end.

(** ** [munmap], [mprotect], [madvise], [mremap] *)

Definition sys_munmap (addr length : Z) : L Z :=
  if (length =? 0) || a_bit addr (PAGE_SIZE - 1) then rend (- EINVAL)
  else
  match Vma.checked_add length (PAGE_SIZE - 1) with
  | None => rend (- EINVAL)
  | Some v =>
  let length := page_bas v in
  match Vma.checked_add addr length with
  | None => rend (- EINVAL)
  | Some fin =>
      liberes <- retire_partages addr length ;;
      clean <- retire_clean_pages addr length ;;
      vma_retire addr fin ;;;
      r <- sur_monde (Tables.prepare_unmap addr length) ;;
      termine_demappage addr length r ;;;
      demappe_tous liberes ;;;
      relache_cles clean ;;;
      rend 0
  end
  end.

(** [promesses.iter().any(..)]: a shared mapping of a file on disk in the range. *)
Definition partage_disque (m : MmState) (addr fin : Z) : bool :=
  existsb (fun v => (Vma.debut v <? fin) && (addr <? Vma.fin v)
                    && match Vma.backing v with
                       | Vma.BSharedFile node _ _ _ => is_disk_backed node
                       | _ => false
                       end) (promesses m).

Fixpoint residentes (ps : list Z) : L bool :=
  match ps with
  | [] => rend true
  | page :: ps =>
      t <- sur_monde (Tables.translate page) ;;
      match t with None => rend false | Some _ => residentes ps end
  end.

Definition vma_protege (addr fin dr : Z) : L bool := fun s =>
  match Vma.protege (next_id s) (promesses (mm s)) addr fin dr with
  | None => (s, inr tt)
  | Some (ok, l, n) =>
      (mk_etat (monde s) (pose_promesses l (mm s)) n (cache s) (journal s), inl ok)
  end.

Definition sys_mprotect (addr length prot : Z) : L Z :=
  if length =? 0 then rend 0
  else if a_bit addr (PAGE_SIZE - 1)
          || a_bit prot (Z.lxor (u32_max - 1) (Z.lor (Z.lor PROT_READ PROT_WRITE) PROT_EXEC))
  then rend (- EINVAL)
  else
  match Vma.checked_add length (PAGE_SIZE - 1) with
  | None => rend (- ENOMEM)
  | Some v =>
  let length := page_bas v in
  match Vma.checked_add addr length with
  | None => rend (- ENOMEM)
  | Some fin =>
  if negb (plage_user_valide addr length) then rend (- ENOMEM)
  else match prot_to_flags_verifie prot with
  | None => rend (- EACCES)
  | Some _ =>
      m <- l_mm ;;
      if a_bit prot PROT_WRITE && has_clean_pages m addr length then rend (- EACCES)
      else if a_bit prot PROT_WRITE && partage_disque m addr fin then rend (- EACCES)
      else
        ok <- vma_protege addr fin (prot_to_flags prot) ;;
        suite <- (if negb ok then
                    resident <- residentes (Tables.pages_de addr fin) ;;
                    if negb resident then rend false
                    else vma_remplace addr fin (prot_to_flags prot) Vma.BZero ;;; rend true
                  else rend true) ;;
        if negb suite then rend (- ENOMEM)
        else
          inv <- sur_monde (Tables.prepare_protect addr length (prot_to_flags prot)) ;;
          note (ERetireFaute addr length) ;;;
          match inv with
          | Some (start, len) => note (EShootdown start len)
          | None => rend tt
          end ;;;
          rend 0
  end
  end
  end.

Definition MADV_CONNUS : list Z := [0; 1; 2; 3; 10; 11; 14; 15].
Definition sys_madvise (addr length advice : Z) : L Z :=
  if length =? 0 then rend 0
  else if a_bit addr (PAGE_SIZE - 1) then rend (- EINVAL)
  else
  match Vma.checked_add length (PAGE_SIZE - 1) with
  | None => rend (- EINVAL)
  | Some v =>
  let length := page_bas v in
  match Vma.checked_add addr length with
  | None => rend (- EINVAL)
  | Some fin =>
      m <- l_mm ;;
      if negb (Vma.couvre (promesses m) addr fin) then rend (- ENOMEM)
      else if (advice =? 4) || (advice =? 8) then
        clean <- retire_clean_pages addr length ;;
        r <- sur_monde (Tables.prepare_unmap addr length) ;;
        termine_demappage addr length r ;;;
        relache_cles clean ;;;
        rend 0
      else if existsb (Z.eqb advice) MADV_CONNUS then rend 0
      else rend (- EINVAL)
  end
  end.

Definition CHUNK : Z := 64 * 1024.
(** The copy of [old_size] bytes by chunks; the fuel is the number of chunks. *)
Fixpoint copie_boucle (fuel : nat) (old_addr new_addr old_size copied : Z) : L bool :=
  match fuel with
  | O => rend true
  | S fuel =>
      if copied <? old_size then
        let wanted := Z.min CHUNK (old_size - copied) in
        src <- plus64 old_addr copied ;;
        dst <- plus64 new_addr copied ;;
        ok <- user_copie src dst wanted ;;
        if ok then copie_boucle fuel old_addr new_addr old_size (copied + wanted)
        else rend false
      else rend true
  end.
Definition morceaux (old_size : Z) : nat := Z.to_nat (old_size / CHUNK + 1).

Definition sys_mremap (old_addr old_size new_size : Z) : L Z :=
  if (old_size =? 0) || (new_size =? 0) then rend (- EINVAL)
  else if new_size <=? old_size then
    if new_size <? old_size then
      x <- plus64 old_addr new_size ;;
      start <- arrondi x ;;
      y <- plus64 old_addr old_size ;;
      end_ <- arrondi y ;;
      r <- (if start <? end_ then sys_munmap start (end_ - start) else rend 0) ;;
      if r <? 0 then rend r else rend (as_i64 old_addr)
    else rend (as_i64 old_addr)
  else
    new_addr <- sys_mmap 0 new_size (Z.lor PROT_READ PROT_WRITE)
                  (Z.lor (Z.lor MAP_PRIVATE MAP_ANONYMOUS) MAP_NORESERVE) (-1) 0 ;;
    if new_addr <? 0 then rend new_addr
    else
      ok <- copie_boucle (morceaux old_size) old_addr new_addr old_size 0 ;;
      if negb ok then sys_munmap new_addr new_size ;;; rend (- EFAULT)
      else
        r <- sys_munmap old_addr old_size ;;
        if r <? 0 then sys_munmap new_addr new_size ;;; rend r
        else rend new_addr.

End Environnement.
End MemLinux.
