(* ===== verification/MemLinuxProofs.v ===== *)
(** The memory system calls: invariants of handlers, and W^X over every sequence of calls. *)

From S2P Require Import Prelude Vma VmaProofs FramesLibres Frames Tables TablesArbre TablesProofs TablesTrace MemLinux.

Module MemLinuxProofs.
Import MemLinux.
Open Scope os_scope.

Create HintDb mem discriminated.

(** ** Invariants of handlers *)

(** [c] keeps [I] on every path, early returns and failures included. *)
Definition preserve (I : Etat -> Prop) {A} (c : L A) : Prop :=
  forall s s' r, I s -> c s = (s', r) -> I s'.

Section Regles.
Context (I : Etat -> Prop).

Lemma preserve_rend {A} (x : A) : preserve I (rend x).
Proof. intros s s' r H [= <- _]. done. Qed.
Lemma preserve_panique {A} : preserve I (@panique A).
Proof. intros s s' r H [= <- _]. done. Qed.
Lemma preserve_lie {A B} (c : L A) (k : A -> L B) :
  preserve I c -> (forall x, preserve I (k x)) -> preserve I (lie c k).
Proof.
  intros Hc Hk s s' r H E. apply lie_cas in E as [(e & E & _)|(s1 & x & E1 & E2)].
  - by eapply Hc.
  - eapply Hk; [|exact E2]. by eapply Hc.
Qed.
Lemma preserve_change f : (forall s, I s -> I (f s)) -> preserve I (change f).
Proof. intros Hf s s' r H [= <- _]. auto. Qed.
Lemma preserve_etat : preserve I etat_courant.
Proof. intros s s' r H [= <- _]. done. Qed.
Lemma preserve_l_mm : preserve I l_mm.
Proof. intros s s' r H [= <- _]. done. Qed.
Lemma preserve_l_space : preserve I l_space.
Proof. intros s s' r H [= <- _]. done. Qed.
Lemma preserve_plus64 a b : preserve I (plus64 a b).
Proof. unfold plus64. case_match; [apply preserve_panique|apply preserve_rend]. Qed.
End Regles.

#[export] Hint Resolve preserve_rend preserve_panique preserve_etat preserve_l_mm preserve_l_space preserve_plus64 : mem.

(** Walks a handler branch by branch; the leaves are left to the hint database. *)
Ltac parcourt :=
  repeat match goal with
  | |- preserve _ (lie _ _) => apply preserve_lie; [|intros ?]
  | |- preserve _ (if ?b then _ else _) => destruct b eqn:?
  | |- preserve _ (match ?x with _ => _ end) => destruct x eqn:?
  | |- preserve _ (let '_ := ?x in _) => destruct x
  end; eauto with mem.

(** ** W^X *)

Definition pas_wx (dr : Z) : Prop := inscriptible_et_executable dr = false.
Definition wx_ok (l : list Vma.Vma) : Prop := Forall (fun v => pas_wx (Vma.drapeaux v)) l.
Definition wx_etat (s : Etat) : Prop := wx_ok (promesses (mm s)).

Lemma prot_to_flags_wx prot dr : prot_to_flags_verifie prot = Some dr -> pas_wx dr.
Proof.
  unfold prot_to_flags_verifie, prot_viole_wx, prot_to_flags, pas_wx.
  destruct (a_bit prot PROT_WRITE), (a_bit prot PROT_EXEC); simpl; intros H; simplify_eq;
    destruct (prot =? PROT_NONE); vm_compute; done.
Qed.

Lemma prot_to_flags_wx' prot :
  prot_to_flags_verifie prot <> None -> pas_wx (prot_to_flags prot).
Proof.
  intros H. apply (prot_to_flags_wx prot). unfold prot_to_flags_verifie in *. by case_match.
Qed.

Lemma write_through_wx prot dr :
  prot_to_flags_verifie prot = Some dr -> pas_wx (Z.lor dr Tables.PTE_WRITE_THROUGH).
Proof.
  unfold prot_to_flags_verifie, prot_viole_wx, prot_to_flags, pas_wx.
  destruct (a_bit prot PROT_WRITE), (a_bit prot PROT_EXEC); simpl; intros H; simplify_eq;
    destruct (prot =? PROT_NONE); vm_compute; done.
Qed.

(** The pieces of an area keep its flags. *)
Lemma garde_vma_wx v : pas_wx (Vma.drapeaux v) -> wx_ok (Vma.garde_vma v).
Proof. intros H. unfold Vma.garde_vma. case_match; repeat constructor; done. Qed.
Lemma pieces_wx v d f :
  pas_wx (Vma.drapeaux v) -> wx_ok (Vma.gauche v d) /\ wx_ok (Vma.droite v f).
Proof.
  intros H. unfold Vma.gauche, Vma.droite.
  split; case_match; try (by constructor); by apply garde_vma_wx.
Qed.

Lemma retire_wx l d f : wx_ok l -> wx_ok (Vma.retire l d f).
Proof.
  intros H. unfold Vma.retire. case_match; [done|]. clear -H. induction H as [|v l Hv Hl IH]; [constructor|].
  cbn [flat_map]. apply Forall_app. split; [|done]. unfold Vma.retire_un.
  case_match; [by repeat constructor|]. apply Forall_app. by apply pieces_wx.
Qed.

Lemma remplace_wx l v : wx_ok l -> pas_wx (Vma.drapeaux v) -> wx_ok (Vma.remplace l v).
Proof. intros Hl Hv. apply Forall_app. split; [by apply retire_wx|by repeat constructor]. Qed.

Lemma protege_wx next l d f dr ok l' next' :
  wx_ok l -> pas_wx dr -> Vma.protege next l d f dr = Some (ok, l', next') -> wx_ok l'.
Proof.
  intros Hl Hdr. unfold Vma.protege. case_match; [intros; by simplify_eq|].
  destruct (Vma.protege_boucle next d f dr l) as [[l1 n1]|] eqn:E; [|done]. intros [= _ <- _].
  clear H. revert next l1 n1 E. induction Hl as [|v l Hv Hl IH]; intros next l1 n1 E; simpl in E.
  { simplify_eq. constructor. }
  destruct (negb (Vma.v_chevauche v d f)).
  - destruct (Vma.protege_boucle next d f dr l) as [[l2 n2]|] eqn:E2; simplify_eq.
    constructor; [done|]. by eapply IH.
  - destruct (Vma.milieu next d f dr v) as [[m n0]|] eqn:Em; [|done].
    destruct (Vma.protege_boucle n0 d f dr l) as [[l2 n2]|] eqn:E2; simplify_eq.
    destruct (pieces_wx v d f Hv) as [Hg Hd]. unfold wx_ok. rewrite !Forall_app.
    split; [done|]. split; [|split; [done|by eapply IH]].
    unfold Vma.milieu in Em. repeat case_match; simplify_eq; by apply garde_vma_wx.
Qed.

Lemma wx_change_mm f :
  (forall m, wx_ok (promesses m) -> wx_ok (promesses (f m))) -> preserve wx_etat (change_mm f).
Proof. intros Hf. apply preserve_change. intros s Hs. by apply Hf. Qed.
Lemma wx_change_cache f : preserve wx_etat (change_cache f).
Proof. by apply preserve_change. Qed.
Lemma wx_note e : preserve wx_etat (note e).
Proof. by apply preserve_change. Qed.
Lemma wx_sur_monde {A} (c : Tables.P A) : preserve wx_etat (sur_monde c).
Proof.
  intros s s' r H E. unfold sur_monde in E. destruct (c (monde s)) as [w [x|e]]; by simplify_eq.
Qed.
Lemma wx_identite : preserve wx_etat identite.
Proof. intros s s' r H E. unfold identite in E. repeat case_match; by simplify_eq. Qed.
Lemma wx_vma_remplace d f dr b : pas_wx dr -> preserve wx_etat (vma_remplace d f dr b).
Proof.
  intros Hd. unfold vma_remplace. apply preserve_lie; [apply wx_identite|]. intros n.
  apply wx_change_mm. intros m Hm. by apply remplace_wx.
Qed.
Lemma wx_vma_retire d f : preserve wx_etat (vma_retire d f).
Proof. apply wx_change_mm. intros m Hm. by apply retire_wx. Qed.
Lemma wx_vma_protege d f dr : pas_wx dr -> preserve wx_etat (vma_protege d f dr).
Proof.
  intros Hd s s' r H E. unfold vma_protege in E.
  destruct (Vma.protege (next_id s) (promesses (mm s)) d f dr) as [[[ok l] n]|] eqn:Ep; simplify_eq; [|done].
  by eapply protege_wx in Ep.
Qed.
#[export] Hint Resolve wx_change_cache wx_note wx_sur_monde wx_identite wx_vma_remplace wx_vma_retire wx_vma_protege : mem.

(** Updates that leave the areas alone. *)
Lemma wx_pose_clean f : preserve wx_etat (change_mm (fun m => pose_clean (f m) m)).
Proof. by apply wx_change_mm. Qed.
Lemma wx_pose_clean_c l : preserve wx_etat (change_mm (pose_clean l)).
Proof. by apply wx_change_mm. Qed.
Lemma wx_pose_partages f : preserve wx_etat (change_mm (fun m => pose_partages (f m) m)).
Proof. by apply wx_change_mm. Qed.
Lemma wx_pose_partages_c l : preserve wx_etat (change_mm (pose_partages l)).
Proof. by apply wx_change_mm. Qed.
Lemma wx_pose_brk b : preserve wx_etat (change_mm (pose_brk b)).
Proof. by apply wx_change_mm. Qed.
Lemma wx_pose_mmap_next b : preserve wx_etat (change_mm (pose_mmap_next b)).
Proof. by apply wx_change_mm. Qed.
#[export] Hint Resolve wx_pose_clean wx_pose_clean_c wx_pose_partages wx_pose_partages_c wx_pose_brk wx_pose_mmap_next : mem.

Section Environnement.
Context (slot : Z) (fd_kind : Z -> option FdKind) (ecran lfb_phys : option Z)
  (logical_len : Z -> Z) (is_disk_backed est_anonyme : Z -> bool)
  (peuple : Z -> L bool) (user_copie : Z -> Z -> Z -> L bool).

(** Resolving a fault never changes what the process was promised. *)
Definition faute_garde (c : L bool) : Prop :=
  forall s s' r, c s = (s', r) ->
    promesses (mm s') = promesses (mm s) /\ partages (mm s') = partages (mm s) /\
    forall n, mappages <$> cache s' !! n = mappages <$> cache s !! n.

Hypothesis peuple_garde : forall p, faute_garde (peuple p).
Hypothesis copie_garde : forall a b n, faute_garde (user_copie a b n).

Lemma wx_mappe n : preserve wx_etat (mappe n).
Proof. unfold mappe. parcourt. Qed.
Lemma wx_rend_pages ps : preserve wx_etat (rend_pages ps).
Proof. induction ps as [|[k f] ps IH]; simpl; parcourt. Qed.
#[local] Hint Resolve wx_mappe wx_rend_pages : mem.
Lemma wx_evince n : preserve wx_etat (evince_si_orphelin est_anonyme n).
Proof. unfold evince_si_orphelin. parcourt. Qed.
#[local] Hint Resolve wx_evince : mem.
Lemma wx_demappe n : preserve wx_etat (demappe est_anonyme n).
Proof. unfold demappe. parcourt. Qed.
#[local] Hint Resolve wx_demappe : mem.
Lemma wx_demappe_tous ns : preserve wx_etat (demappe_tous est_anonyme ns).
Proof. induction ns; simpl; parcourt. Qed.
Lemma wx_relache_cles ks : preserve wx_etat (relache_cles ks).
Proof. induction ks; simpl; parcourt. Qed.
Lemma wx_partages_boucle a f ps : preserve wx_etat (partages_boucle a f ps).
Proof. induction ps; cbn [partages_boucle]; parcourt. Qed.
#[local] Hint Resolve wx_demappe_tous wx_relache_cles wx_partages_boucle : mem.
Lemma wx_retire_partages a n : preserve wx_etat (retire_partages a n).
Proof. unfold retire_partages. parcourt. Qed.
Lemma wx_retire_clean a n : preserve wx_etat (retire_clean_pages a n).
Proof. unfold retire_clean_pages. parcourt. Qed.
Lemma wx_limite n : preserve wx_etat (tient_sous_limite n).
Proof. unfold tient_sous_limite. parcourt. Qed.
Lemma wx_arrondi n : preserve wx_etat (arrondi n).
Proof. unfold arrondi. parcourt. Qed.
Lemma wx_finish_unmap frs : preserve wx_etat (finish_unmap frs).
Proof. induction frs; cbn [finish_unmap]; parcourt. Qed.
#[local] Hint Resolve wx_finish_unmap : mem.
Lemma wx_termine a n r : preserve wx_etat (termine_demappage a n r).
Proof. unfold termine_demappage. parcourt. Qed.
#[local] Hint Resolve wx_retire_partages wx_retire_clean wx_limite wx_arrondi wx_termine : mem.
Lemma wx_faute c : faute_garde c -> preserve wx_etat c.
Proof. intros Hc s s' r H E. destruct (Hc s s' r E) as [Hp _]. unfold wx_etat. by rewrite Hp. Qed.
Lemma wx_peuple_boucle ps : preserve wx_etat (peuple_boucle peuple ps).
Proof.
  induction ps as [|p ps IH]; simpl; parcourt. apply wx_faute, peuple_garde.
Qed.
#[local] Hint Resolve wx_peuple_boucle : mem.
Lemma wx_peuple_plage b a n : preserve wx_etat (peuple_plage peuple b a n).
Proof. unfold peuple_plage. parcourt. Qed.
Lemma wx_choisit a n f : preserve wx_etat (choisit_base_mmap slot a n f).
Proof. unfold choisit_base_mmap. parcourt. Qed.
Lemma wx_installe b n dr k f : pas_wx dr -> preserve wx_etat (installe_vma b n dr k f).
Proof. intros Hd. unfold installe_vma. parcourt. Qed.
Lemma wx_finish r ns ks : preserve wx_etat (finish_mapping_replacement est_anonyme r ns ks).
Proof. unfold finish_mapping_replacement. parcourt. Qed.
#[local] Hint Resolve wx_peuple_plage wx_choisit wx_installe wx_finish : mem.
Lemma wx_pose b n dr k f p q : pas_wx dr -> preserve wx_etat (pose_mapping est_anonyme peuple b n dr k f p q).
Proof. intros Hd. unfold pose_mapping. parcourt. Qed.
Lemma wx_backing b n p f fd o : preserve wx_etat (backing_fichier fd_kind logical_len is_disk_backed b n p f fd o).
Proof. unfold backing_fichier. parcourt. Qed.
#[local] Hint Resolve wx_pose wx_backing : mem.

(** ** The calls *)

Inductive Appel :=
| ABrk (addr : Z)
| AMmap (addr length prot flags fd offset : Z)
| AMunmap (addr length : Z)
| AMprotect (addr length prot : Z)
| AMadvise (addr length advice : Z)
| AMremap (old_addr old_size new_size : Z).

Definition execute (a : Appel) : L Z :=
  match a with
  | ABrk addr => sys_brk addr
  | AMmap addr length prot flags fd offset =>
      sys_mmap slot fd_kind ecran lfb_phys logical_len is_disk_backed est_anonyme peuple
        addr length prot flags fd offset
  | AMunmap addr length => sys_munmap est_anonyme addr length
  | AMprotect addr length prot => sys_mprotect slot is_disk_backed addr length prot
  | AMadvise addr length advice => sys_madvise addr length advice
  | AMremap old_addr old_size new_size =>
      sys_mremap slot fd_kind ecran lfb_phys logical_len is_disk_backed est_anonyme peuple
        user_copie old_addr old_size new_size
  end.

(** A sequence of calls; a failed assertion stops the machine. *)
Fixpoint execute_tous (s : Etat) (l : list Appel) : Etat * (list Z + unit) :=
  match l with
  | [] => (s, inl [])
  | a :: l =>
      match execute a s with
      | (s1, inr e) => (s1, inr e)
      | (s1, inl r) => match execute_tous s1 l with
                       | (s2, inl rs) => (s2, inl (r :: rs))
                       | (s2, inr e) => (s2, inr e)
                       end
      end
  end.

Lemma preserve_execute_tous I l s s' r :
  (forall a, preserve I (execute a)) -> I s -> execute_tous s l = (s', r) -> I s'.
Proof.
  intros Ha. revert s r. induction l as [|a l IH]; intros s r H E; cbn [execute_tous] in E.
  { by simplify_eq. }
  destruct (execute a s) as [s1 [x|e]] eqn:E1; [|simplify_eq; by eapply Ha].
  destruct (execute_tous s1 l) as [s2 [rs|e]] eqn:E2; simplify_eq;
    (eapply IH; [|exact E2]; by eapply Ha).
Qed.

#[local] Hint Resolve prot_to_flags_wx write_through_wx : mem.

Lemma wx_brk a : preserve wx_etat (sys_brk a).
Proof. unfold sys_brk. parcourt. all: apply wx_vma_remplace; by vm_compute. Qed.
Lemma wx_mmap a n p f fd o :
  preserve wx_etat (sys_mmap slot fd_kind ecran lfb_phys logical_len is_disk_backed est_anonyme peuple a n p f fd o).
Proof. unfold sys_mmap. parcourt. Qed.
Lemma wx_munmap a n : preserve wx_etat (sys_munmap est_anonyme a n).
Proof. unfold sys_munmap. parcourt. Qed.
Lemma wx_residentes ps : preserve wx_etat (residentes ps).
Proof. induction ps; simpl; parcourt. Qed.
#[local] Hint Resolve wx_munmap wx_mmap wx_residentes : mem.
Lemma wx_mprotect a n p : preserve wx_etat (sys_mprotect slot is_disk_backed a n p).
Proof.
  unfold sys_mprotect. parcourt.
  all: (apply wx_vma_remplace || apply wx_vma_protege); apply prot_to_flags_wx'; congruence.
Qed.
Lemma wx_madvise a n d : preserve wx_etat (sys_madvise a n d).
Proof. unfold sys_madvise. parcourt. Qed.
Lemma wx_copie fuel a b n c : preserve wx_etat (copie_boucle user_copie fuel a b n c).
Proof.
  revert c. induction fuel as [|fuel IH]; intros c; simpl; parcourt.
  apply wx_faute, copie_garde.
Qed.
#[local] Hint Resolve wx_copie : mem.
Lemma wx_mremap a n m :
  preserve wx_etat (sys_mremap slot fd_kind ecran lfb_phys logical_len is_disk_backed est_anonyme peuple user_copie a n m).
Proof. unfold sys_mremap. parcourt. Qed.
#[local] Hint Resolve wx_brk wx_mprotect wx_madvise wx_mremap : mem.

(** C22. No area of a process is ever both writable and executable: whatever sequence of
    [brk], [mmap], [munmap], [mprotect], [madvise] and [mremap] it issues, with any
    arguments, and whether each call succeeds, is refused or stops the machine. *)
Theorem wx_respecte l s s' r :
  wx_ok (promesses (mm s)) -> execute_tous s l = (s', r) -> wx_ok (promesses (mm s')).
Proof.
  intros H E. eapply (preserve_execute_tous wx_etat); [|exact H|exact E].
  intros []; simpl; auto with mem.
Qed.
End Environnement.
(** ** Concrete machines *)

Definition creneau : Z := TablesProps.creneau.
Definition base_user : Z := Tables.user_slot_base creneau.
Definition mm_neuf : MmState := mk_mm base_user base_user (base_user + 2 ^ 32) [] 0 [] [].
Definition machine (m : Frames.Mem) : Tables.Monde :=
  Tables.mk_monde Frames.vide m (Tables.mk_as 4096 [] ∅ Tables.rs_vide).
Definition etat_neuf : Etat := mk_etat (machine (fun _ => 0)) mm_neuf 1 ∅ [].
(** A process whose only mapping is the file 5, shared, right after its break. *)
Definition etat_partage : Etat :=
  mk_etat (machine (fun _ => 0))
    (mk_mm base_user base_user (base_user + 2 ^ 32) [mk_partage base_user 8192 5] 0
       [Vma.mk_vma 0 base_user (base_user + 8192) 7 (Vma.BSharedFile 5 base_user 0 8192)] [])
    1 {[5 := mk_partagee 1 1 []]} [].

(** The system calls with no descriptor open, every fault resolved. *)
Definition sans_fichier : Appel -> L Z :=
  execute creneau (fun _ => None) None None (fun _ => 0) (fun _ => false) (fun _ => false)
    (fun _ => rend true) (fun _ _ _ => rend true).

Lemma faute_rend : faute_garde (rend true).
Proof. by intros s s' r [= <- _]. Qed.

Lemma wx_respecte_witness : exists s' r,
  execute_tous creneau (fun _ => None) None None (fun _ => 0) (fun _ => false) (fun _ => false)
    (fun _ => rend true) (fun _ _ _ => rend true) etat_neuf
    [AMmap 0 8192 3 0x22 (-1) 0; AMprotect (base_user + 2 ^ 32) 4096 5; AMprotect (base_user + 2 ^ 32) 4096 7]
    = (s', r) /\ wx_ok (promesses (mm s')) /\ length (promesses (mm s')) = 2%nat.
Proof.
  destruct (execute_tous _ _ _ _ _ _ _ _ _ etat_neuf _) as [s' r] eqn:E. exists s', r.
  split; [done|]. split.
  - eapply (wx_respecte creneau (fun _ => None) None None (fun _ => 0) (fun _ => false) (fun _ => false)
      (fun _ => rend true) (fun _ _ _ => rend true)); [| | |exact E]; [| |apply Forall_nil_2];
      intros; apply faute_rend.
  - assert (length (promesses (mm (s', r).1)) = 2%nat) as H by (rewrite <- E; vm_compute; reflexivity).
    exact H.
Defined.

End MemLinuxProofs.
