(* ===== verification/MemPartages.v ===== *)
(** The shared page cache: its reference counts stay exact over every sequence of memory
    system calls, so that a node is evicted only when nothing maps it. *)

From S2P Require Import Prelude Vma FramesLibres Frames Tables MemLinux MemLinuxProofs.

Module MemPartages.
Import MemLinux MemLinuxProofs.
Open Scope os_scope.

(** ** Reference counts of the shared page cache *)

Definition refs (s : Etat) (n : Z) : Z := default 0 (mappages <$> cache s !! n).
(** How many times [n] occurs. *)
Fixpoint nb (n : Z) (l : list Z) : Z :=
  match l with [] => 0 | x :: l => (if x =? n then 1 else 0) + nb n l end.
Definition nb_partages (s : Etat) (n : Z) : Z := nb n (map p_node (partages (mm s))).

Lemma nb_app n l1 l2 : nb n (l1 ++ l2) = nb n l1 + nb n l2.
Proof. induction l1; cbn [app nb]; lia. Qed.
Lemma nb_positif n l : 0 <= nb n l.
Proof. induction l as [|x l IH]; cbn [nb]; [lia|]. destruct (x =? n); lia. Qed.

(** The pieces of a shared range and what it releases: one reference more when it splits. *)
Lemma coupe_partage_nb a f p restes rendus deux n :
  coupe_partage a f p = (restes, rendus, deux) ->
  nb n (map p_node restes) + nb n rendus =
  (if p_node p =? n then 1 else 0) + (if deux && (p_node p =? n) then 1 else 0).
Proof.
  unfold coupe_partage. case_match; intros [= <- <- <-]; [cbn; lia|].
  repeat match goal with |- context [?x =? 0] => destruct (x =? 0) end;
    cbn; destruct (p_node p =? n); cbn; lia.
Qed.

(** [autres n]: the mappings of [n] held by other processes; [du n]: the references this
    call has taken and not yet published in [partages], or withdrawn and not yet dropped. *)
Section Solde.
Context (autres : Z -> Z) (autres_pos : forall n, 0 <= autres n).

Definition compte (du : Z -> Z) (s : Etat) : Prop :=
  (forall n, refs s n = autres n + nb_partages s n + du n) /\ forall n, 0 <= du n.
(** When [c] returns [x], what is owed goes from [d] to [f x]. *)
Definition solde (d : Z -> Z) {A} (c : L A) (f : A -> Z -> Z) : Prop :=
  forall s s' x, compte d s -> c s = (s', inl x) -> compte (f x) s'.
(** [c] touches neither the counts nor the shared ranges. *)
Definition neutre {A} (c : L A) : Prop :=
  forall s s' x, c s = (s', inl x) ->
    partages (mm s') = partages (mm s) /\ forall n, refs s' n = refs s n.

Lemma solde_lie {A B} d (c : L A) (k : A -> L B) f g :
  solde d c f -> (forall x, solde (f x) (k x) g) -> solde d (lie c k) g.
Proof.
  intros Hc Hk s s' y H E. apply lie_cas in E as [(e & _ & E)|(s1 & x & E1 & E2)]; [done|].
  eapply Hk; [|exact E2]. by eapply Hc.
Qed.
Lemma solde_rend {A} (x : A) d f : (forall n, f x n = d n) -> solde d (rend x) f.
Proof.
  intros Hf s s' y [H1 H2] [= <- <-]. split; intros n; rewrite Hf; [apply H1|apply H2].
Qed.
Lemma solde_panique {A} d f : solde d (@panique A) f.
Proof. by intros s s' y H [=]. Qed.
Lemma solde_neutre {A} d (c : L A) : neutre c -> solde d c (fun _ => d).
Proof.
  intros Hc s s' x [H1 H2] E. destruct (Hc _ _ _ E) as [Ep Er]. split; [|done].
  intros n. unfold nb_partages. rewrite Er, Ep. apply H1.
Qed.

Lemma neutre_lie {A B} (c : L A) (k : A -> L B) :
  neutre c -> (forall x, neutre (k x)) -> neutre (lie c k).
Proof.
  intros Hc Hk s s' y E. apply lie_cas in E as [(e & _ & E)|(s1 & x & E1 & E2)]; [done|].
  destruct (Hc _ _ _ E1) as [P1 R1], (Hk _ _ _ _ E2) as [P2 R2].
  split; [congruence|]. intros n. by rewrite R2.
Qed.
Lemma neutre_rend {A} (x : A) : neutre (rend x).
Proof. by intros s s' y [= <- _]. Qed.
Lemma neutre_panique {A} : neutre (@panique A).
Proof. by intros s s' y [=]. Qed.
Lemma neutre_etat : neutre etat_courant.
Proof. by intros s s' y [= <- _]. Qed.
Lemma neutre_l_mm : neutre l_mm.
Proof. by intros s s' y [= <- _]. Qed.
Lemma neutre_l_space : neutre l_space.
Proof. by intros s s' y [= <- _]. Qed.
Lemma neutre_note e : neutre (note e).
Proof. by intros s s' y [= <- _]. Qed.
Lemma neutre_plus64 a b : neutre (plus64 a b).
Proof. unfold plus64. case_match; [apply neutre_panique|apply neutre_rend]. Qed.
Lemma neutre_sur_monde {A} (c : Tables.P A) : neutre (sur_monde c).
Proof. intros s s' r E. unfold sur_monde in E. destruct (c (monde s)) as [w [x|e]]; by simplify_eq. Qed.
Lemma neutre_identite : neutre identite.
Proof. intros s s' r E. unfold identite in E. repeat case_match; by simplify_eq. Qed.
Lemma neutre_change_mm f :
  (forall m, partages (f m) = partages m) -> neutre (change_mm f).
Proof. intros Hf s s' r [= <- _]. split; [apply Hf|done]. Qed.
Lemma neutre_vma_remplace d f dr b : neutre (vma_remplace d f dr b).
Proof. apply neutre_lie; [apply neutre_identite|]. intros n. by apply neutre_change_mm. Qed.
Lemma neutre_vma_retire d f : neutre (vma_retire d f).
Proof. by apply neutre_change_mm. Qed.
Lemma neutre_vma_protege d f dr : neutre (vma_protege d f dr).
Proof. intros s s' r E. unfold vma_protege in E. repeat case_match; by simplify_eq. Qed.
#[local] Hint Resolve neutre_change_mm neutre_rend neutre_panique neutre_etat neutre_l_mm neutre_l_space neutre_note neutre_plus64 neutre_sur_monde neutre_identite neutre_vma_remplace neutre_vma_retire neutre_vma_protege : mem.



Lemma neutre_rend_pages ps : neutre (rend_pages ps).
Proof. induction ps as [|[k f] ps IH]; cbn [rend_pages]; [|apply neutre_lie]; auto with mem. Qed.

(** A mapping takes one reference. *)
Lemma solde_mappe d node :
  solde d (mappe node) (fun _ n => d n + if node =? n then 1 else 0).
Proof.
  intros s s' x [H1 H2] [= <- _]. split; intros n; [|specialize (H2 n); zcas].
  specialize (H1 n). unfold refs, nb_partages in *. cbn [cache mm]. destruct (node =? n) eqn:E.
  - apply Z.eqb_eq in E as ->. rewrite lookup_insert_eq. cbn. destruct (cache s !! n); cbn in *; lia.
  - apply Z.eqb_neq in E. rewrite lookup_insert_ne by done. lia.
Qed.

(** Returning frames and logging leave the cache and the shared ranges as they are. *)
Definition meme_cache (s0 s : Etat) : Prop := partages (mm s) = partages (mm s0) /\ cache s = cache s0.
Lemma meme_note s0 e : preserve (meme_cache s0) (note e).
Proof. by apply preserve_change. Qed.
Lemma meme_sur_monde {A} s0 (c : Tables.P A) : preserve (meme_cache s0) (sur_monde c).
Proof. intros s s' r H E. unfold sur_monde in E. destruct (c (monde s)) as [w [x|e]]; by simplify_eq. Qed.
#[local] Hint Resolve meme_note meme_sur_monde : mem.
Lemma meme_rend_pages s0 ps : preserve (meme_cache s0) (rend_pages ps).
Proof. induction ps as [|[k f] ps IH]; simpl; parcourt. Qed.
#[local] Hint Resolve meme_rend_pages : mem.

(** The eviction of a node nothing maps: its count was zero. *)
Lemma neutre_evince est_anonyme node : neutre (evince_si_orphelin est_anonyme node).
Proof.
  intros s s' x. unfold evince_si_orphelin. unfold lie at 1, etat_courant at 1.
  destruct (cache s !! node) as [e|] eqn:Ec; [|by intros [= <- _]].
  destruct (negb (ouverts e =? 0) || negb (mappages e =? 0)) eqn:Eo; [by intros [= <- _]|].
  bool_prop. intros E.
  apply lie_cas in E as [(? & _ & E)|(s1 & x1 & E1 & E)]; [done|].
  apply lie_cas in E as [(? & _ & E)|(s2 & x2 & E2 & E)]; [done|].
  apply lie_cas in E as [(? & _ & E)|(s3 & x3 & E3 & E)]; [done|].
  assert (meme_cache s s3) as [Hp Hc].
  { assert (meme_cache s s1) as M1.
    { assert (meme_cache s s) as M0 by done.
      revert M0 E1. case_match; [apply preserve_rend|apply meme_note]. }
    assert (meme_cache s s2) as M2 by (revert M1 E2; apply meme_rend_pages).
    revert M2 E3. case_match; [apply meme_note|apply preserve_rend]. }
  injection E as <- _. cbn [mm cache]. split; [done|]. intros n. unfold refs. cbn [cache].
  rewrite Hc. destruct (decide (n = node)) as [->|]; [|by rewrite lookup_delete_ne].
  rewrite lookup_delete_eq, Ec. cbn. lia.
Qed.

Lemma solde_demappe est_anonyme d node :
  (forall n, 0 <= d n) ->
  solde (fun n => d n + if node =? n then 1 else 0) (demappe est_anonyme node) (fun _ => d).
Proof.
  intros Hd s s' x [H1 _]. unfold demappe. unfold lie at 1, etat_courant at 1.
  destruct (cache s !! node) as [e|] eqn:Ec; [|done]. destruct (mappages e =? 0); [done|].
  intros E. apply lie_cas in E as [(? & _ & E)|(s1 & x1 & E1 & E2)]; [done|].
  eapply (solde_neutre d); [apply neutre_evince| |exact E2].
  injection E1 as <- _. split; [|done]. intros n. specialize (H1 n).
  unfold refs, nb_partages in *. cbn [cache mm]. destruct (node =? n) eqn:E.
  - apply Z.eqb_eq in E as ->. rewrite lookup_insert_eq. rewrite Ec in H1. cbn in *. lia.
  - apply Z.eqb_neq in E. rewrite lookup_insert_ne by done. lia.
Qed.

Lemma solde_egal {A} d d' (c : L A) f f' :
  (forall n, d n = d' n) -> (forall x n, f x n = f' x n) -> solde d c f -> solde d' c f'.
Proof.
  intros Hd Hf Hc s s' x [H1 H2] E. destruct (Hc s s' x) as [H3 H4]; [|done|].
  { split; intros n; rewrite Hd; [apply H1|apply H2]. }
  split; intros n; rewrite <- Hf; [apply H3|apply H4].
Qed.

Lemma solde_demappe_tous est_anonyme d nodes :
  (forall n, 0 <= d n) ->
  solde (fun n => d n + nb n nodes) (demappe_tous est_anonyme nodes) (fun _ => d).
Proof.
  intros Hd. induction nodes as [|node nodes IH]; cbn [demappe_tous].
  { apply solde_rend. cbn [nb]. lia. }
  apply (solde_lie _ _ _ (fun _ n => d n + nb n nodes)); [|intros _; exact IH].
  eapply solde_egal; [| |apply (solde_demappe est_anonyme (fun n => d n + nb n nodes))].
  - intros n. cbn [nb]. lia.
  - done.
  - intros n. specialize (Hd n). pose proof (nb_positif n nodes). lia.
Qed.

(** The loop of [retire_partages]: it returns the ranges that stay and the nodes released,
    the ranges of the process being replaced by the caller. *)
Lemma partages_boucle_spec a f ps s s' r :
  partages_boucle a f ps s = (s', inl r) ->
  partages (mm s') = partages (mm s) /\
  forall n, refs s' n + nb n (map p_node ps) = refs s n + nb n (map p_node r.1) + nb n r.2.
Proof.
  revert s r. induction ps as [|p ps IH]; intros s r E; cbn [partages_boucle] in E.
  { injection E as <- <-. split; [done|]. intros n. cbn. lia. }
  destruct (coupe_partage a f p) as [[restes rendus] deux] eqn:Ec.
  apply lie_cas in E as [(? & _ & E)|(s1 & x1 & E1 & E)]; [done|].
  apply lie_cas in E as [(? & _ & E)|(s2 & x2 & E2 & E)]; [done|].
  injection E as <- <-. destruct (IH _ _ E2) as [Hp Hn]. cbn [fst snd].
  assert (partages (mm s1) = partages (mm s) /\ forall n, refs s1 n =
    refs s n + if deux && (p_node p =? n) then 1 else 0) as [Hp1 Hn1].
  { destruct deux; [|injection E1 as <- _; split; [done|intros n; cbn; lia]].
    injection E1 as <- _. split; [done|]. intros n. unfold refs. cbn [cache].
    destruct (p_node p =? n) eqn:E.
    - apply Z.eqb_eq in E as <-. rewrite lookup_insert_eq. by destruct (cache s !! p_node p).
    - apply Z.eqb_neq in E. rewrite lookup_insert_ne by done. cbn. lia. }
  split; [congruence|]. intros n. specialize (Hn n). specialize (Hn1 n).
  apply (coupe_partage_nb _ _ _ _ _ _ n) in Ec.
  rewrite map_app, !nb_app. cbn [map nb]. lia.
Qed.

Lemma solde_retire_partages d a len :
  solde d (retire_partages a len) (fun l n => d n + nb n l).
Proof.
  intros s s' l [H1 H2] E. unfold retire_partages in E.
  apply lie_cas in E as [(? & _ & E)|(s1 & m & E1 & E)]; [done|]. injection E1 as <- <-.
  apply lie_cas in E as [(? & _ & E)|(s1 & r & E1 & E)]; [done|].
  injection E as <- <-. destruct (partages_boucle_spec _ _ _ _ _ _ E1) as [_ Hn].
  split; intros n; [|specialize (H2 n); pose proof (nb_positif n r.2); lia].
  specialize (Hn n). specialize (H1 n). unfold refs, nb_partages in *. cbn [cache mm partages pose_partages]. lia.
Qed.

(** ** The handlers *)

(** Walks a handler that neither takes nor drops a reference. *)
Ltac parcourt_neutre :=
  repeat match goal with
  | |- neutre (lie _ _) => apply neutre_lie; [|intros ?]
  | |- neutre (if ?b then _ else _) => destruct b eqn:?
  | |- neutre (match ?x with _ => _ end) => destruct x eqn:?
  end; eauto with mem.

Section Environnement.
Context (slot : Z) (fd_kind : Z -> option FdKind) (ecran lfb_phys : option Z)
  (logical_len : Z -> Z) (is_disk_backed est_anonyme : Z -> bool)
  (peuple : Z -> L bool) (user_copie : Z -> Z -> Z -> L bool).
Hypothesis peuple_garde : forall p, faute_garde (peuple p).
Hypothesis copie_garde : forall a b n, faute_garde (user_copie a b n).

Lemma neutre_faute c : faute_garde c -> neutre c.
Proof.
  intros Hc s s' x E. destruct (Hc s s' _ E) as (_ & Hp & Hn). split; [done|].
  intros n. unfold refs. by rewrite Hn.
Qed.
Lemma neutre_peuple_boucle ps : neutre (peuple_boucle peuple ps).
Proof. induction ps as [|p ps IH]; cbn [peuple_boucle]; parcourt_neutre. apply neutre_faute, peuple_garde. Qed.
Lemma neutre_relache_cles ks : neutre (relache_cles ks).
Proof. induction ks; cbn [relache_cles]; parcourt_neutre. Qed.
Lemma neutre_residentes ps : neutre (residentes ps).
Proof. induction ps; cbn [residentes]; parcourt_neutre. Qed.
#[local] Hint Resolve neutre_peuple_boucle neutre_relache_cles neutre_residentes : mem.
Lemma neutre_copie fuel a b n c : neutre (copie_boucle user_copie fuel a b n c).
Proof.
  revert c. induction fuel as [|fuel IH]; intros c; cbn [copie_boucle]; parcourt_neutre.
  apply neutre_faute, copie_garde.
Qed.
Lemma neutre_peuple_plage b a n : neutre (peuple_plage peuple b a n).
Proof. unfold peuple_plage. parcourt_neutre. Qed.
Lemma neutre_clean a n : neutre (retire_clean_pages a n).
Proof. unfold retire_clean_pages. parcourt_neutre. Qed.
Lemma neutre_limite n : neutre (tient_sous_limite n).
Proof. unfold tient_sous_limite. parcourt_neutre. Qed.
Lemma neutre_arrondi n : neutre (arrondi n).
Proof. unfold arrondi. parcourt_neutre. Qed.
Lemma neutre_finish_unmap frs : neutre (finish_unmap frs).
Proof. induction frs; cbn [finish_unmap]; parcourt_neutre. Qed.
#[local] Hint Resolve neutre_finish_unmap : mem.
Lemma neutre_termine a n r : neutre (termine_demappage a n r).
Proof. unfold termine_demappage. parcourt_neutre. Qed.
#[local] Hint Resolve neutre_copie neutre_peuple_plage neutre_clean neutre_limite neutre_arrondi neutre_termine : mem.
Lemma neutre_choisit a n f : neutre (choisit_base_mmap slot a n f).
Proof. unfold choisit_base_mmap. parcourt_neutre. Qed.
Lemma neutre_brk a : neutre (sys_brk a).
Proof. unfold sys_brk. parcourt_neutre. Qed.
Lemma neutre_mprotect a n p : neutre (sys_mprotect slot is_disk_backed a n p).
Proof. unfold sys_mprotect. parcourt_neutre. Qed.
Lemma neutre_madvise a n v : neutre (sys_madvise a n v).
Proof. unfold sys_madvise. parcourt_neutre. Qed.

(** A step that owes nothing new, in front of the rest. *)
Lemma solde_suite {A B} d (c : L A) (k : A -> L B) g :
  neutre c -> (forall x, solde d (k x) g) -> solde d (lie c k) g.
Proof. intros Hc Hk. apply (solde_lie _ _ _ (fun _ => d)); [by apply solde_neutre|done]. Qed.

Lemma solde_positif {A} d (c : L A) f :
  ((forall n, 0 <= d n) -> solde d c f) -> solde d c f.
Proof. intros H s s' x [H1 H2] E. by eapply H. Qed.

(** [retire_partages] then, later, the release of what it returned. *)
Lemma solde_munmap d a n : solde d (sys_munmap est_anonyme a n) (fun _ => d).
Proof.
  apply solde_positif. intros Hd. unfold sys_munmap.
  repeat (case_match; try (by apply solde_rend)).
  apply (solde_lie _ _ _ (fun l n => d n + nb n l)); [apply solde_retire_partages|]. intros l.
  do 4 (apply solde_suite; [auto with mem|]; intros ?).
  apply (solde_lie _ _ _ (fun _ => d)); [by apply solde_demappe_tous|]. intros _.
  apply solde_suite; [auto with mem|]. intros _. by apply solde_rend.
Qed.

(** What [installe_vma] withdraws is owed until [finish_mapping_replacement]. *)
Lemma solde_installe d b n dr k f :
  solde d (installe_vma b n dr k f) (fun r m => d m + nb m r.1.2).
Proof.
  unfold installe_vma. apply solde_suite; [auto with mem|]. intros fin.
  apply (solde_lie _ _ _ (fun r m => d m + nb m r.1.2)).
  - destruct f; [|apply solde_rend; intros m; cbn; lia].
    apply (solde_lie _ _ _ (fun l m => d m + nb m l)); [apply solde_retire_partages|]. intros l.
    do 3 (apply solde_suite; [auto with mem|]; intros ?). by apply solde_rend.
  - intros r. apply solde_suite; [auto with mem|]. intros _. by apply solde_rend.
Qed.

Definition du_nouveau (p : option Z) (n : Z) : Z :=
  match p with Some node => if node =? n then 1 else 0 | None => 0 end.

Lemma solde_publie d b n p :
  (forall m, 0 <= d m) ->
  solde (fun m => d m + du_nouveau p m)
    (match p with
     | Some node => change_mm (fun m => pose_partages (partages m ++ [mk_partage b n node]) m)
     | None => rend tt
     end) (fun _ => d).
Proof.
  intros Hd. destruct p as [node|]; [|apply solde_rend; cbn; lia].
  intros s s' x [H1 H2] [= <- _]. split; [|done]. intros m. specialize (H1 m).
  unfold refs, nb_partages, du_nouveau in *.
  cbn [cache mm partages pose_partages]. rewrite map_app, nb_app. cbn [map nb p_node]. lia.
Qed.

Lemma solde_pose d b n dr k f p q :
  (forall m, 0 <= d m) ->
  solde (fun m => d m + du_nouveau p m) (pose_mapping est_anonyme peuple b n dr k f p q) (fun _ => d).
Proof.
  intros Hd. unfold pose_mapping.
  apply (solde_lie _ _ _ (fun r m => (d m + nb m r.1.2) + du_nouveau p m)).
  { eapply solde_egal; [| |apply solde_installe]; [done|]. intros x m. cbn. lia. }
  intros [[r l] c]. cbn [fst snd].
  apply (solde_lie _ _ _ (fun _ m => d m + nb m l)).
  { apply (solde_publie (fun m => d m + nb m l)). intros m. specialize (Hd m).
    pose proof (nb_positif m l). lia. }
  intros _. apply solde_suite; [destruct f; auto with mem|]. intros _.
  apply (solde_lie _ _ _ (fun _ => d)); [|intros _; apply solde_neutre; auto with mem].
  unfold finish_mapping_replacement.
  apply solde_suite; [destruct r; parcourt_neutre|]. intros _.
  apply (solde_lie _ _ _ (fun _ => d)); [by apply solde_demappe_tous|]. intros _.
  apply solde_neutre. auto with mem.
Qed.

Lemma solde_backing d b n p f fd o :
  solde d (backing_fichier fd_kind logical_len is_disk_backed b n p f fd o)
    (fun k m => d m + match k with inl (_, nouveau) => du_nouveau nouveau m | inr _ => 0 end).
Proof.
  unfold backing_fichier.
  repeat (case_match; try (by apply solde_rend; intros m; cbn; lia)).
  eapply solde_lie; [apply solde_mappe|]. intros []. by apply solde_rend.
Qed.

Lemma solde_mmap d a n p f fd o :
  solde d (sys_mmap slot fd_kind ecran lfb_phys logical_len is_disk_backed est_anonyme peuple a n p f fd o)
    (fun _ => d).
Proof.
  apply solde_positif. intros Hd. unfold sys_mmap.
  do 4 (case_match; try (by apply solde_rend)).
  apply solde_suite; [apply neutre_choisit|]. intros [base|e]; [|by apply solde_rend].
  destruct (prot_to_flags_verifie p) as [dr|]; [|by apply solde_rend].
  assert (forall base n o dr b q, solde d (pose_mapping est_anonyme peuple base n dr (Vma.BFramebuffer o base b) q None false) (fun _ => d)) as Hfb.
  { intros. eapply solde_egal; [| |by apply (solde_pose d _ _ _ _ _ None)]; [cbn; lia|done]. }
  assert (forall base n dr b fi q, solde (fun m => d m + du_nouveau b m) (pose_mapping est_anonyme peuple base n dr q fi b (a_bit f MAP_POPULATE && negb (p =? PROT_NONE))) (fun _ => d)) as Hp.
  { intros. by apply solde_pose. }
  set (suite := lie (if a_bit f MAP_ANONYMOUS then _ else _) _).
  assert (solde d suite (fun _ => d)) as Hs.
  { apply (solde_lie _ _ _ (fun k m => d m + match k with inl (_, nouveau) => du_nouveau nouveau m | inr _ => 0 end)).
    - destruct (a_bit f MAP_ANONYMOUS); [apply solde_rend; intros m; cbn; lia|apply solde_backing].
    - intros [[k nouveau]|e]; [|by apply solde_rend; intros m; lia].
      apply solde_suite; [destruct (a_bit f MAP_FIXED); auto with mem|]. intros t.
      destruct t; cbn [negb]; [apply Hp|].
      apply (solde_lie _ _ _ (fun _ => d)); [|intros _; by apply solde_rend].
      destruct nouveau as [node|]; [by apply solde_demappe|apply solde_rend; intros m; cbn; lia]. }
  destruct (if negb (a_bit f MAP_ANONYMOUS) && (0 <=? fd) then fd_kind fd else None) as [[]|]; [done| |done..].
  destruct ecran as [node|].
  - eapply solde_lie; [apply solde_mappe|]. intros []. apply (Hp _ _ _ (Some node)).
  - destruct lfb_phys; [apply Hfb|by apply solde_rend].
Qed.

Lemma solde_mremap d a n m :
  solde d (sys_mremap slot fd_kind ecran lfb_phys logical_len is_disk_backed est_anonyme peuple user_copie a n m)
    (fun _ => d).
Proof.
  unfold sys_mremap. case_match; [by apply solde_rend|]. case_match.
  - case_match; [|by apply solde_rend]. do 4 (apply solde_suite; [auto with mem|]; intros ?).
    apply (solde_lie _ _ _ (fun _ => d)).
    { case_match; [apply solde_munmap|by apply solde_rend]. }
    intros r. case_match; by apply solde_rend.
  - apply (solde_lie _ _ _ (fun _ => d)); [apply solde_mmap|]. intros base.
    case_match; [by apply solde_rend|]. apply solde_suite; [auto with mem|]. intros ok.
    case_match; (apply (solde_lie _ _ _ (fun _ => d)); [apply solde_munmap|]; intros r);
      [by apply solde_rend|].
    case_match; [|by apply solde_rend].
    apply (solde_lie _ _ _ (fun _ => d)); [apply solde_munmap|]. intros _. by apply solde_rend.
Qed.

Lemma solde_execute d a :
  solde d (execute slot fd_kind ecran lfb_phys logical_len is_disk_backed est_anonyme peuple user_copie a)
    (fun _ => d).
Proof.
  destruct a; cbn [execute].
  - apply solde_neutre, neutre_brk.
  - apply solde_mmap.
  - apply solde_munmap.
  - apply solde_neutre, neutre_mprotect.
  - apply solde_neutre, neutre_madvise.
  - apply solde_mremap.
Qed.

(** C30. The reference counts of the shared page cache are exact. Whatever sequence of memory
    system calls a process issues, when it returns each node is counted once for every
    shared range the process still has of it, once for each mapping of other processes, and
    for nothing else; a node the process maps is therefore still in the cache, its frames
    not given back. *)
Theorem references_exactes l s s' rs :
  (forall n, refs s n = autres n + nb_partages s n) ->
  execute_tous slot fd_kind ecran lfb_phys logical_len is_disk_backed est_anonyme peuple
    user_copie s l = (s', inl rs) ->
  (forall n, refs s' n = autres n + nb_partages s' n) /\
  forall p, p ∈ partages (mm s') -> exists e, cache s' !! p_node p = Some e /\ 1 <= mappages e.
Proof.
  intros H E.
  assert (compte (fun _ => 0) s') as [H1 _].
  { assert (compte (fun _ => 0) s) as C by (split; [intros n; rewrite H; lia|done]).
    clear H. revert s rs C E. induction l as [|a l IH]; intros s rs C E; cbn [execute_tous] in E.
    { by injection E as <- _. }
    destruct (execute _ _ _ _ _ _ _ _ _ a s) as [s1 [x|e]] eqn:E1; [|done].
    destruct (execute_tous _ _ _ _ _ _ _ _ _ s1 l) as [s2 [xs|e]] eqn:E2; [|done].
    injection E as <- _. eapply IH; [|exact E2]. by eapply solde_execute. }
  split; [intros n; rewrite H1; lia|]. intros p Hp. specialize (H1 (p_node p)).
  pose proof (autres_pos (p_node p)) as Ha.
  assert (1 <= nb_partages s' (p_node p)) as Hn.
  { unfold nb_partages. clear -Hp. induction (partages (mm s')) as [|q ps IH]; [by inversion Hp|].
    cbn [map nb]. apply elem_of_cons in Hp as [->|Hp].
    - rewrite Z.eqb_refl. pose proof (nb_positif (p_node q) (map p_node ps)). lia.
    - specialize (IH Hp). destruct (p_node q =? p_node p); lia. }
  unfold refs in H1. destruct (cache s' !! p_node p) as [e|]; cbn in H1; [|lia].
  exists e. split; [done|lia].
Qed.
End Environnement.

End Solde.

Lemma references_exactes_witness : exists s' rs,
  execute_tous creneau (fun _ => Some (FFile 5)) None None (fun _ => 8192) (fun _ => false) (fun _ => false)
    (fun _ => rend true) (fun _ _ _ => rend true) etat_partage
    [AMmap 0 4096 1 1 3 0; AMunmap base_user 4096] = (s', inl rs) /\
  nb_partages s' 5 = 2 /\ refs s' 5 = 2 /\
  forall p, p ∈ partages (mm s') -> exists e, cache s' !! p_node p = Some e /\ 1 <= mappages e.
Proof.
  destruct (execute_tous _ _ _ _ _ _ _ _ _ etat_partage _) as [s' [rs|e]] eqn:E;
    [|assert (exists x, snd (s', inr e) = inl x) as [x Hx] by (rewrite <- E; eexists; vm_compute; reflexivity);
      discriminate Hx].
  exists s', rs. split; [done|].
  assert (nb_partages (s', @inl (list Z) unit rs).1 5 = 2) as Hn by (rewrite <- E; vm_compute; reflexivity).
  destruct (references_exactes (fun _ => 0) (fun _ => Z.le_refl 0) creneau (fun _ => Some (FFile 5)) None
    None (fun _ => 8192) (fun _ => false) (fun _ => false) (fun _ => rend true) (fun _ _ _ => rend true)
    (fun _ => faute_rend) (fun _ _ _ => faute_rend)
    [AMmap 0 4096 1 1 3 0; AMunmap base_user 4096] etat_partage s' rs) as [H1 H2]; [|exact E|].
  - intros n. unfold refs, nb_partages, etat_partage. cbn [cache mm partages map nb p_node].
    destruct (decide (n = 5)) as [->|Hne]; [vm_compute; reflexivity|].
    rewrite lookup_singleton_ne by done. destruct (5 =? n) eqn:E5; [bool_prop; lia|]. cbn. lia.
  - split; [exact Hn|]. split; [rewrite H1; cbn [fst] in Hn; rewrite Hn; reflexivity|exact H2].
Defined.
End MemPartages.
