(* ===== verification/MemAppels.v ===== *)
(** What [mmap] and [munmap] do to the areas, to the page tables and to the frames of the
    process, and the inputs the memory system calls handle badly. *)

From S2P Require Import Prelude Vma VmaProofs FramesLibres Frames Tables TablesArbre TablesProofs TablesTrace MemLinux MemLinuxProofs MemPartages.

Module MemAppels.
Import MemLinux MemLinuxProofs MemPartages.
Open Scope os_scope.

Lemma sur_monde_ok {A} (c : Tables.P A) s w x :
  c (monde s) = (w, inl x) ->
  sur_monde c s = (mk_etat w (mm s) (next_id s) (cache s) (journal s), inl x).
Proof. intros E. unfold sur_monde. by rewrite E. Qed.

(** The length a call works on. *)
Definition arrondie (length : Z) : Z := (length + 4095) / 4096 * 4096.

Lemma checked_add_ok a b : 0 <= a + b < u64_max -> Vma.checked_add a b = Some (a + b).
Proof. intros H. unfold Vma.checked_add. zcas. done. Qed.
Lemma saturating_add_ok a b : 0 <= a + b < u64_max -> Vma.saturating_add a b = a + b.
Proof. intros H. unfold Vma.saturating_add. lia. Qed.

(** A shared range the call leaves alone. *)
Definition a_cote (addr fin : Z) (p : Partage) : Prop :=
  0 <= p_base p + p_length p < u64_max /\ (fin <= p_base p \/ p_base p + p_length p <= addr).

Lemma partages_boucle_rien a f ps s :
  Forall (a_cote a f) ps -> partages_boucle a f ps s = (s, inl (ps, [])).
Proof.
  intros H. revert s. induction H as [|p ps [Hb Hp] _ IH]; intros s; cbn [partages_boucle]; [done|].
  unfold coupe_partage. rewrite saturating_add_ok by done.
  replace (_ || _) with true by (symmetry; apply orb_true_iff; zcas; auto).
  unfold lie at 1, rend at 1. unfold lie. by rewrite IH.
Qed.

Lemma retire_partages_rien a len s :
  0 <= a + len < u64_max -> Forall (a_cote a (a + len)) (partages (mm s)) ->
  retire_partages a len s = (s, inl []).
Proof.
  intros Hb Hp. unfold retire_partages. rewrite saturating_add_ok by done.
  erewrite lie_pas by reflexivity. erewrite lie_pas by (by apply partages_boucle_rien).
  unfold lie, change_mm, change, rend. by destruct s as [w [] n c j].
Qed.

(** The state after the areas of a range and its clean pages are withdrawn. *)
Definition sans_clean (s : Etat) (d f : Z) : Etat :=
  mk_etat (monde s)
    (pose_clean (List.filter (fun x : Z * Z => negb ((d <=? x.1) && (x.1 <? f))) (clean_pages (mm s))) (mm s))
    (next_id s) (cache s) (journal s).
Lemma retire_clean_ok a len s :
  0 <= a + len < u64_max ->
  retire_clean_pages a len s = (sans_clean s a (a + len),
    inl (map snd (List.filter (fun x : Z * Z => (a <=? x.1) && (x.1 <? a + len)) (clean_pages (mm s))))).
Proof. intros Hb. unfold retire_clean_pages. by rewrite saturating_add_ok by done. Qed.

Lemma relache_cles_ok ks s :
  relache_cles ks s =
  (mk_etat (monde s) (mm s) (next_id s) (cache s) (journal s ++ map ECleanRelachee ks), inl tt).
Proof.
  revert s. induction ks as [|k ks IH]; intros s; cbn [relache_cles map].
  { rewrite app_nil_r. by destruct s. }
  unfold lie, note, change. rewrite IH. cbn [monde mm next_id cache journal].
  by rewrite <- app_assoc.
Qed.

(** The frames a space gives back among [frs]: those it owns, once each. *)
Fixpoint rendues (p : gset Z) (frs : list Z) : list Z :=
  match frs with
  | [] => []
  | q :: frs => if bool_decide (q ∈ p) then q :: rendues (p ∖ {[q]}) frs else rendues p frs
  end.

Lemma elem_rendues p frs q : q ∈ rendues p frs <-> q ∈ p /\ q ∈ frs.
Proof.
  revert p. induction frs as [|x frs IH]; intros p; cbn [rendues]; [set_solver|].
  case_bool_decide; rewrite ?elem_of_cons, IH; [|set_solver].
  destruct (decide (q = x)); set_solver.
Qed.
Lemma NoDup_rendues p frs : NoDup (rendues p frs).
Proof.
  revert p. induction frs as [|x frs IH]; intros p; cbn [rendues]; [constructor|].
  case_bool_decide; [|done]. constructor; [|done]. rewrite elem_rendues. set_solver.
Qed.

(** The loop of [finish_unmap] with its marks follows the one of the tables. *)
Lemma finish_unmap_ok frs w' s :
  Tables.rend_frames frs (monde s) = (w', inl tt) ->
  finish_unmap frs s =
  (mk_etat w' (mm s) (next_id s) (cache s)
     (journal s ++ map EFrameRendue (rendues (Tables.pages (Tables.espace (monde s))) frs)), inl tt).
Proof.
  revert s. induction frs as [|q frs IH]; intros s E; cbn [finish_unmap Tables.rend_frames rendues map] in *.
  { injection E as <-. rewrite app_nil_r. by destruct s. }
  erewrite lie_pas by reflexivity. cbv beta iota delta [lie Tables.l_espace] in E.
  case_bool_decide as Hq; [|erewrite lie_pas by reflexivity; by apply IH].
  cbv beta iota delta [lie Tables.change_espace change Tables.rend_frame] in E.
  cbn [Tables.fa Tables.mem Tables.espace] in E.
  destruct (Frames.free_frame _ q) as [[fl m]|] eqn:Ef; [|discriminate].
  erewrite lie_pas.
  2:{ erewrite lie_pas by (by apply sur_monde_ok). erewrite lie_pas; [reflexivity|].
      apply sur_monde_ok. unfold Tables.rend_frame. cbn [monde Tables.fa Tables.mem].
      rewrite Ef. reflexivity. }
  rewrite IH by exact E. cbn [monde mm next_id cache journal map]. by rewrite <- app_assoc.
Qed.

Lemma a_bit_aligne x : 0 <= x -> a_bit x (PAGE_SIZE - 1) = negb (x mod 4096 =? 0).
Proof.
  intros Hx. unfold a_bit, PAGE_SIZE. change (4096 - 1) with (Z.ones 12).
  by rewrite Z.land_ones by lia.
Qed.

Section Munmap.
Context (slot : Z) (Hslot : 0 <= slot /\ slot + Tables.USER_SLOTS <= 256) (V : gset Z)
  (est_anonyme : Z -> bool).

Lemma plage_arrondie addr length :
  TablesTrace.plage_user slot addr length -> addr mod 4096 = 0 ->
  TablesTrace.plage_user slot addr (arrondie length) /\ length <= arrondie length < length + 4096 /\
  addr + arrondie length <= 2 ^ 48 /\
  TablesTrace.fin_de addr (arrondie length) = addr + arrondie length.
Proof.
  intros Hp Ha. pose proof (TablesTrace.plage_borne slot Hslot _ _ Hp) as Hb.
  destruct Hp as (Hl & H1 & H2). unfold arrondie.
  unfold TablesArbre.user, Tables.is_user_addr, Tables.user_slot_base in *.
  rewrite Z.shiftl_mul_pow2 in * by lia. change (2 ^ 39) with (134217728 * 4096) in *.
  unfold Tables.USER_SPACE_SIZE, Tables.USER_SLOTS in *. bool_prop.
  assert (length <= (length + 4095) / 4096 * 4096 < length + 4096) as Hr
    by (Z.to_euclidean_division_equations; lia).
  assert (addr + (length + 4095) / 4096 * 4096 <= slot * (134217728 * 4096) + 64 * 512 * 1024 * 1024 * 1024) as Hs
    by (Z.to_euclidean_division_equations; lia).
  split_and!; try lia.
  - split; [lia|]. unfold TablesArbre.user, Tables.is_user_addr, Tables.user_slot_base.
    rewrite Z.shiftl_mul_pow2 by lia. change (2 ^ 39) with (134217728 * 4096).
    unfold Tables.USER_SPACE_SIZE, Tables.USER_SLOTS.
    split; apply andb_true_iff; split; (apply Z.leb_le || apply Z.ltb_lt); lia.
  - unfold TablesTrace.fin_de, Frames.PAGE_SIZE. rewrite page_bas_spec by (unfold u64_max; lia).
    Z.to_euclidean_division_equations; lia.
Qed.

(** The pages of the range, and the map of the space without them. *)
Definition dans_plage (addr length x : Z) : bool := (addr <=? x) && (x <? addr + arrondie length).

Lemma pages_de_plage addr length :
  TablesTrace.plage_user slot addr length -> addr mod 4096 = 0 ->
  page_bas addr = addr /\
  forall v, v ∈ TablesTrace.pages_plage addr (arrondie length) <->
            0 <= v /\ v mod 4096 = 0 /\ dans_plage addr length v = true.
Proof.
  intros Hp Ha. pose proof (TablesTrace.plage_borne slot Hslot _ _ Hp) as Hb.
  destruct (plage_arrondie addr length Hp Ha) as (Hp' & _ & _ & Efin).
  assert (page_bas addr = addr) as Eb.
  { rewrite page_bas_spec by (unfold u64_max; lia). Z.to_euclidean_division_equations; lia. }
  split; [done|]. intros v. rewrite (TablesTrace.elem_pages_plage slot Hslot) by done.
  rewrite Eb, Efin. unfold dans_plage. rewrite andb_true_iff, Z.leb_le, Z.ltb_lt. tauto.
Qed.

Lemma domaine_pages w viv A :
  TablesProofs.tient slot V w viv A -> forall v e, A !! v = Some e -> 0 <= v /\ v mod 4096 = 0.
Proof.
  intros T v e He. destruct (TablesProofs.te_dom _ _ _ _ _ T v e He) as [Hu Hm].
  apply (TablesProofs.user_borne slot Hslot) in Hu. split; [lia|exact Hm].
Qed.

Lemma retire_filtre addr length w viv A :
  TablesProofs.tient slot V w viv A -> TablesTrace.plage_user slot addr length -> addr mod 4096 = 0 ->
  TablesProofs.retire_pages (TablesTrace.pages_plage addr (arrondie length)) A =
  filter (fun x => dans_plage addr length x.1 = false) A.
Proof.
  intros T Hp Ha. destruct (pages_de_plage addr length Hp Ha) as [_ Hd].
  apply map_eq. intros v. rewrite TablesTrace.lookup_retire, map_lookup_filter.
  destruct (A !! v) as [e|] eqn:Ev; [|by case_decide]. cbn.
  destruct (domaine_pages w viv A T v e Ev) as [? ?].
  destruct (decide (v ∈ _)) as [Hv|Hv]; rewrite Hd in Hv; destruct (dans_plage addr length v);
    cbn; try done; [by destruct Hv as (_ & _ & ?)|by destruct Hv].
Qed.

(** The body of [munmap], once the removal and the return of the frames are known. *)
Lemma munmap_deroule s addr length w1 w2 r :
  0 < length -> 0 <= addr -> addr mod 4096 = 0 -> addr + arrondie length < u64_max ->
  length + 4095 < u64_max ->
  Forall (a_cote addr (addr + arrondie length)) (partages (mm s)) ->
  Tables.prepare_unmap addr (arrondie length) (monde s) = (w1, inl r) ->
  Tables.finish_unmap r w1 = (w2, inl tt) ->
  let s1 := sans_clean s addr (addr + arrondie length) in
  sys_munmap est_anonyme addr length s =
  (mk_etat w2 (pose_promesses (Vma.retire (promesses (mm s)) addr (addr + arrondie length)) (mm s1))
     (next_id s) (cache s)
     (journal s ++ [ERetireFaute addr (arrondie length);
                    EShootdown (Tables.inv_start r) (Tables.inv_len r)]
      ++ map EFrameRendue (rendues (Tables.pages (Tables.espace w1)) (Tables.frames r)) ++ map ECleanRelachee (map snd (List.filter
           (fun x : Z * Z => (addr <=? x.1) && (x.1 <? addr + arrondie length)) (clean_pages (mm s))))),
   inl 0).
Proof.
  intros Hl H0 Ha Hfin Hlb Hp E1 E2 s1.
  assert (0 <= arrondie length) as Hr by (unfold arrondie; Z.to_euclidean_division_equations; lia).
  assert (page_bas (length + 4095) = arrondie length) as El by (apply page_bas_spec; lia).
  unfold sys_munmap. rewrite a_bit_aligne, Ha, (proj2 (Z.eqb_neq length 0)) by lia.
  cbn [orb negb Z.eqb]. replace (PAGE_SIZE - 1) with 4095 by reflexivity.
  rewrite checked_add_ok by lia. rewrite El, checked_add_ok by lia.
  clear El Hlb. generalize dependent (arrondie length). intros len Hfin Hp E1 s1 Hr.
  erewrite lie_pas by (apply retire_partages_rien; [lia|done]).
  erewrite lie_pas by (apply retire_clean_ok; lia).
  erewrite lie_pas by reflexivity. erewrite lie_pas by (by apply sur_monde_ok).
  set (clean := map snd _). set (cj := clean_pages (mm s)) in *.
  unfold termine_demappage. erewrite lie_pas.
  2:{ erewrite lie_pas by reflexivity. erewrite lie_pas by reflexivity.
      apply finish_unmap_ok; exact E2. }
  cbn [demappe_tous]. erewrite lie_pas by reflexivity.
  erewrite lie_pas by apply relache_cles_ok.
  cbn [monde mm next_id cache journal]. unfold rend. by rewrite <- !app_assoc.
Qed.

(** C32. [munmap] of a private user range always returns 0 and does exactly that: the areas of
    the range are withdrawn and no other, every page of the range loses its translation and
    no other, the counts of resident pages follow, the clean pages of the range are released;
    the frames given back are those the space owned in the range, each once, and every one of
    them only after the fault records of the range were withdrawn and the other processors
    invalidated. The shared ranges of the process are assumed away from the range. *)
Theorem munmap_exact s viv A addr length :
  TablesProofs.tient slot V (monde s) viv A ->
  addr mod 4096 = 0 -> TablesTrace.plage_user slot addr length ->
  Forall (a_cote addr (addr + arrondie length)) (partages (mm s)) ->
  let fin := addr + arrondie length in
  let dedans x := (addr <=? x) && (x <? fin) in
  exists s' viv' frs,
    sys_munmap est_anonyme addr length s = (s', inl 0) /\
    (forall a, Vma.carte (promesses (mm s')) a =
       if dedans a then None else Vma.carte (promesses (mm s)) a) /\
    TablesProofs.tient slot V (monde s') viv' (filter (fun x => dedans x.1 = false) A) /\
    NoDup frs /\
    (forall q, q ∈ frs <-> q ∈ Tables.pages (Tables.espace (monde s)) /\
       exists v e, dedans v = true /\ A !! v = Some e /\ TablesProofs.phys_de e = q) /\
    (forall q, q ∈ viv' <-> q ∈ viv /\ (q ∉ frs)) /\
    partages (mm s') = partages (mm s) /\ cache s' = cache s /\ brk (mm s') = brk (mm s) /\
    clean_pages (mm s') = List.filter (fun x => negb (dedans x.1)) (clean_pages (mm s)) /\
    journal s' = journal s
      ++ [ERetireFaute addr (arrondie length); EShootdown addr (arrondie length)]
      ++ map EFrameRendue frs
      ++ map ECleanRelachee (map snd (List.filter (fun x => dedans x.1) (clean_pages (mm s)))).
Proof.
  intros T Ha Hp Hpa fin dedans.
  destruct (plage_arrondie addr length Hp Ha) as (Hp' & Hr & Hf & Efin).
  pose proof (TablesTrace.plage_borne slot Hslot _ _ Hp) as Hb.
  destruct (TablesTrace.prepare_unmap_spec slot Hslot V (monde s) viv A addr (arrondie length) T Hp')
    as (w1 & E1 & T1 & _ & _ & P1).
  set (frs := TablesProofs.frames_retirees _ _ _) in E1.
  destruct (TablesProofs.rend_frames_spec slot Hslot V frs w1 viv _ T1)
    as (w2 & viv' & E2 & T2 & _ & V2 & _).
  destruct (pages_de_plage addr length Hp Ha) as [Eb Hd].
  pose proof (domaine_pages (monde s) viv A T) as Hdom.
  set (rdu := rendues (Tables.pages (Tables.espace w1)) frs).
  assert (forall q, q ∈ rdu <-> q ∈ Tables.pages (Tables.espace (monde s)) /\ q ∈ frs) as Hrdu
    by (intros q; unfold rdu; by rewrite elem_rendues, P1).
  eexists _, viv', rdu. split_and!.
  - eapply munmap_deroule; try done; unfold u64_max; lia.
  - intros a. apply VmaProofs.carte_retire.
  - cbn [monde]. by rewrite <- (retire_filtre addr length (monde s) viv).
  - apply NoDup_rendues.
  - intros q. rewrite Hrdu. unfold frs.
    rewrite TablesTrace.elem_frames_retirees by apply TablesTrace.NoDup_pages_plage.
    split; [intros (Hq & _ & v & e & Hv & He & Hphys)|intros (Hq & v & e & Hv & He & Hphys)].
    + split; [done|]. exists v, e. split_and!; try done. by apply Hd in Hv as (_ & _ & ?).
    + do 2 (split; [done|]). exists v, e. split_and!; try done. apply Hd. destruct (Hdom v e He). done.
  - intros q. rewrite V2, elem_of_difference, elem_of_intersection, elem_of_list_to_set, P1, Hrdu. tauto.
  - done.
  - done.
  - done.
  - done.
  - cbn [journal Tables.frames Tables.inv_start Tables.inv_len]. rewrite Eb, Efin. replace (Z.max (addr + arrondie length - addr) 0) with (arrondie length) by lia.
    done.
Qed.
End Munmap.

Lemma chevauche_carte l d f a :
  Vma.chevauche l d f = false -> d <= a < f -> Vma.carte l a = None.
Proof.
  intros H Ha. unfold Vma.carte, Vma.trouve.
  destruct (List.find _ (rev l)) as [v|] eqn:E; [|done].
  apply find_some in E as [Hv Hc]. apply in_rev in Hv. unfold Vma.contient in Hc. bool_prop.
  assert (Vma.chevauche l d f = true) as Ht; [|congruence].
  unfold Vma.chevauche. apply existsb_exists. exists v. split; [done|].
  unfold Vma.v_chevauche. apply andb_true_iff. split; apply Z.ltb_lt; lia.
Qed.

Lemma identite_ok s :
  0 <= next_id s -> next_id s + 1 < u64_max ->
  identite s = (mk_etat (monde s) (mm s) (next_id s + 1) (cache s) (journal s), inl (next_id s)).
Proof. intros H0 H. unfold identite, Vma.nouvelle_identite. zcas. done. Qed.

Section Mmap.
Context (slot : Z) (Hslot : 0 <= slot /\ slot + Tables.USER_SLOTS <= 256)
  (fd_kind : Z -> option FdKind) (ecran lfb_phys : option Z)
  (logical_len : Z -> Z) (is_disk_backed est_anonyme : Z -> bool) (peuple : Z -> L bool).

Lemma espace_user :
  Vma.checked_add (Tables.user_slot_base slot) Tables.USER_SPACE_SIZE
    = Some (Tables.user_slot_base slot + Tables.USER_SPACE_SIZE) /\
  0 <= Tables.user_slot_base slot /\
  Tables.user_slot_base slot + Tables.USER_SPACE_SIZE <= 2 ^ 47.
Proof.
  unfold Tables.user_slot_base, Tables.USER_SPACE_SIZE, Tables.USER_SLOTS in *.
  rewrite Z.shiftl_mul_pow2 by lia.
  split; [apply checked_add_ok; unfold u64_max|]; lia.
Qed.

Lemma plage_valide_user base length :
  0 <= base -> 0 <= length -> plage_user_valide slot base length = true ->
  TablesTrace.plage_user slot base length.
Proof.
  intros Hb Hl. unfold plage_user_valide. destruct (length =? 0) eqn:E0; [done|].
  unfold Vma.checked_add. destruct (base + length <? u64_max); [|done]. intros H'. bool_prop.
  split; [lia|]. by split.
Qed.

(** The base [mmap] chooses without MAP_FIXED: a free user range, or no memory when no hole
    of that size is left after the search pointer. *)
Lemma choisit_base_libre s addr len flags :
  Vma.liste_ok (next_id s) (promesses (mm s)) -> 0 <= addr < u64_max -> 0 < len < 2 ^ 48 ->
  Tables.user_slot_base slot <= mmap_next (mm s) ->
  a_bit flags (Z.lor MAP_FIXED MAP_FIXED_NOREPLACE) = false ->
  exists m' r, choisit_base_mmap slot addr len flags s =
      (mk_etat (monde s) m' (next_id s) (cache s) (journal s), inl r) /\
    promesses m' = promesses (mm s) /\ partages m' = partages (mm s) /\
    limite_as m' = limite_as (mm s) /\ mmap_next (mm s) <= mmap_next m' /\
    match r with
    | inl base => base mod 4096 = 0 /\ TablesTrace.plage_user slot base len /\
                  Vma.chevauche (promesses (mm s)) base (base + len) = false
    | inr e => e = - ENOMEM /\
        forall x, VmaProofs.place (promesses (mm s)) len
                    (Tables.user_slot_base slot + Tables.USER_SPACE_SIZE) x ->
                  mmap_next (mm s) <= x -> False
    end.
Proof.
  intros Hok Ha Hl Hn Hf. destruct espace_user as (Ec & Hs0 & Hs).
  unfold choisit_base_mmap. erewrite lie_pas by reflexivity. rewrite Hf.
  destruct (_ && _ && _) eqn:Eh.
  - bool_prop. exists (mm s), (inl (page_bas addr)). split; [by destruct s|].
    rewrite page_bas_spec in * by lia. split_and!; try done.
    + Z.to_euclidean_division_equations; lia.
    + apply plage_valide_user; try done; [Z.to_euclidean_division_equations; lia|lia].
  - rewrite Ec.
    pose proof (VmaProofs.trouve_trou_fuel_spec (promesses (mm s)) (next_id s) (mmap_next (mm s)) len
      (Tables.user_slot_base slot + Tables.USER_SPACE_SIZE)) as Ht.
    destruct Ht as (r & Er & Hr); [done|lia|lia|unfold u64_max; lia|].
    unfold Vma.trouve_trou. rewrite Er. cbn [default id]. destruct r as [base|]; cbn in Hr.
    + destruct Hr as ([q ->] & H1 & H2 & H3 & _). unfold Vma.PAGE_SIZE in *.
      rewrite checked_add_ok by (unfold u64_max; lia). cbv beta iota.
      rewrite checked_add_ok by (unfold PAGE_SIZE, u64_max; lia).
      eexists _, (inl (q * 4096)). split; [reflexivity|]. split_and!; try done.
      * cbn. unfold PAGE_SIZE. lia.
      * by rewrite Z.mod_mul.
      * split; [lia|]. unfold TablesArbre.user, Tables.is_user_addr.
        split; apply andb_true_iff; split; (apply Z.leb_le || apply Z.ltb_lt); lia.
    + exists (mm s), (inr (- ENOMEM)). split; [by destruct s|]. split_and!; try done; lia.
Qed.

Lemma pose_anonyme s base len dr :
  0 <= base -> 0 < len -> base + len < u64_max -> 0 <= next_id s -> next_id s + 1 < u64_max ->
  pose_mapping est_anonyme peuple base len dr Vma.BZero false None false s =
  (mk_etat (monde s)
     (pose_promesses (Vma.remplace (promesses (mm s))
        (Vma.mk_vma (next_id s) base (base + len) dr Vma.BZero)) (mm s))
     (next_id s + 1) (cache s) (journal s), inl base).
Proof.
  intros Hb Hl Hm H0 Hid. unfold pose_mapping. erewrite lie_pas.
  2:{ unfold installe_vma, plus64. rewrite (proj2 (Z.leb_gt _ _)) by lia.
      erewrite lie_pas by reflexivity. erewrite lie_pas by reflexivity.
      erewrite lie_pas; [reflexivity|]. unfold vma_remplace.
      erewrite lie_pas by (by apply identite_ok). reflexivity. }
  reflexivity.
Qed.

(** C33. Anonymous private [mmap] without MAP_FIXED nor MAP_POPULATE, with an accepted
    protection, never takes what is already used: it returns either the base of a
    page-aligned user range, none of whose addresses belonged to an area, which becomes an
    area with the flags asked for, a fresh identity and nothing else changed, within the limit
    of the process; or -ENOMEM, the areas being as before, only when no hole of that size is
    left after the search pointer (the holes below it are not searched) or the limit is
    exceeded. No page table is touched. *)
Theorem mmap_anonyme_libre s addr length prot flags fd offset :
  Vma.liste_ok (next_id s) (promesses (mm s)) -> 0 <= next_id s -> next_id s + 1 < u64_max ->
  0 <= addr < u64_max -> 0 < length < 2 ^ 47 ->
  Tables.user_slot_base slot <= mmap_next (mm s) ->
  taille_as (mm s) (Tables.espace (monde s)) + arrondie length < u64_max ->
  a_bit prot (Z.lxor (u32_max - 1) 7) = false -> prot_viole_wx prot PROT_WRITE PROT_EXEC = false ->
  Z.land flags (Z.lor MAP_SHARED MAP_PRIVATE) = MAP_PRIVATE ->
  a_bit flags MAP_ANONYMOUS = true -> a_bit flags MAP_POPULATE = false ->
  a_bit flags MAP_FIXED = false -> a_bit flags (Z.lor MAP_FIXED MAP_FIXED_NOREPLACE) = false ->
  let len := arrondie length in
  exists s' r, sys_mmap slot fd_kind ecran lfb_phys logical_len is_disk_backed est_anonyme peuple
                 addr length prot flags fd offset s = (s', inl r) /\
    monde s' = monde s /\ cache s' = cache s /\ partages (mm s') = partages (mm s) /\
    journal s' = journal s /\
    ((r = - ENOMEM /\ promesses (mm s') = promesses (mm s) /\
      ((forall x, VmaProofs.place (promesses (mm s)) len
                    (Tables.user_slot_base slot + Tables.USER_SPACE_SIZE) x ->
                  mmap_next (mm s) <= x -> False) \/
       (limite_as (mm s) <> 0 /\ limite_as (mm s) < taille_as (mm s) (Tables.espace (monde s)) + len))) \/
     (r mod 4096 = 0 /\ TablesTrace.plage_user slot r len /\
      (limite_as (mm s) = 0 \/ taille_as (mm s) (Tables.espace (monde s)) + len <= limite_as (mm s)) /\
      (forall a, r <= a < r + len -> Vma.carte (promesses (mm s)) a = None) /\
      (forall a, Vma.carte (promesses (mm s')) a =
         if (r <=? a) && (a <? r + len)
         then Some (Vma.mk_promesse (next_id s) (prot_to_flags prot) Vma.BZero)
         else Vma.carte (promesses (mm s)) a))).
Proof.
  intros Hok H0 Hid Ha Hl Hn Ht Hprot Hwx Htype Hanon Hpop Hfix Hfix' len.
  assert (0 < len < 2 ^ 48) as Hlen by (unfold len, arrondie; Z.to_euclidean_division_equations; lia).
  assert (page_bas (length + 4095) = len) as El by (apply page_bas_spec; unfold u64_max; lia).
  destruct (choisit_base_libre s addr len flags) as (m' & r & Ec & Hp & Hpa & Hlim & _ & Hr); try done.
  unfold sys_mmap. rewrite (proj2 (Z.eqb_neq length 0)) by lia.
  replace (Z.lor (Z.lor PROT_READ PROT_WRITE) PROT_EXEC) with 7 by reflexivity.
  rewrite Hprot, Htype, Hanon, Hfix, Hpop. cbn [orb negb andb].
  replace (MAP_PRIVATE =? MAP_SHARED) with false by reflexivity. rewrite Z.eqb_refl. cbn [negb andb].
  replace (PAGE_SIZE - 1) with 4095 by reflexivity.
  rewrite checked_add_ok by (unfold u64_max; lia). rewrite El.
  erewrite lie_pas by exact Ec. destruct r as [base|e].
  2:{ destruct Hr as [-> Hr]. eexists _, _. split; [reflexivity|]. split_and!; try done. left. auto. }
  destruct Hr as (Hal & Hu & Hch). unfold prot_to_flags_verifie. rewrite Hwx. cbv beta iota.
  erewrite lie_pas by reflexivity. cbv beta iota. set (s1 := mk_etat _ _ _ _ _).
  assert (0 <= base /\ base + len <= 2 ^ 48) as Hb
    by (pose proof (TablesTrace.plage_borne slot Hslot _ _ Hu); lia).
  assert (tient_sous_limite len s1 = (s1, inl ((limite_as (mm s) =? 0)
    || (taille_as (mm s) (Tables.espace (monde s)) + len <=? limite_as (mm s))))) as Etl.
  { unfold tient_sous_limite. erewrite lie_pas by reflexivity. erewrite lie_pas by reflexivity.
    cbn [mm s1]. rewrite Hlim. destruct (limite_as (mm s) =? 0) eqn:E0; [done|].
    unfold s1, plus64. replace (taille_as m' _) with (taille_as (mm s) (Tables.espace (monde s)))
      by (unfold taille_as; by rewrite Hp).
    cbn [monde]. rewrite (proj2 (Z.leb_gt _ _)) by lia. done. }
  erewrite lie_pas by exact Etl.
  destruct ((limite_as (mm s) =? 0) || _) eqn:El'; cbn [negb].
  - eexists _, base. split; [apply pose_anonyme; cbn [s1 next_id]; unfold u64_max in *; lia|].
    cbn [monde cache mm partages journal promesses pose_promesses s1]. split_and!; try done.
    right. split_and!; try done.
    + apply orb_true_iff in El' as [E|E]; bool_prop; auto.
    + intros a Ha'. by eapply chevauche_carte.
    + intros a. rewrite VmaProofs.carte_remplace, Hp. done.
  - bool_prop. erewrite lie_pas by reflexivity. eexists _, _. split; [reflexivity|].
    split_and!; try done. left. split_and!; try done. right. split; [done|lia].
Qed.
End Mmap.
Lemma munmap_exact_witness : exists s viv A s',
  TablesProofs.tient creneau TablesProps.frames_temoin (monde s) viv A /\
  sys_munmap (fun _ => false) base_user 8192 s = (s', inl 0) /\
  forall a, Vma.carte (promesses (mm s')) a =
    if (base_user <=? a) && (a <? base_user + 8192) then None else Vma.carte (promesses (mm s)) a.
Proof.
  destruct TablesProps.espace_temoin as (w & viv & T).
  exists (mk_etat w (mk_mm base_user base_user base_user [] 0
            [Vma.mk_vma 0 base_user (base_user + 12288) 7 Vma.BZero] []) 1 ∅ []), viv, ∅.
  destruct (munmap_exact creneau TablesProps.creneau_ok TablesProps.frames_temoin (fun _ => false)
    (mk_etat w (mk_mm base_user base_user base_user [] 0
       [Vma.mk_vma 0 base_user (base_user + 12288) 7 Vma.BZero] []) 1 ∅ []) viv ∅ base_user 8192)
    as (s' & viv' & frs & E & Hc & _).
  - exact T.
  - vm_compute. reflexivity.
  - split; [lia|]. split; vm_compute; reflexivity.
  - constructor.
  - exists s'. split; [exact T|]. split; [exact E|]. exact Hc.
Defined.

Lemma mmap_anonyme_libre_witness : exists s' r,
  sys_mmap creneau (fun _ => None) None None (fun _ => 0) (fun _ => false) (fun _ => false)
    (fun _ => rend true) base_user 5000 3 0x22 (-1) 0 etat_partage = (s', inl r) /\
  r = base_user + 2 ^ 32 /\
  forall a, Vma.carte (promesses (mm s')) a =
    if (r <=? a) && (a <? r + 8192) then Some (Vma.mk_promesse 1 (prot_to_flags 3) Vma.BZero)
    else Vma.carte (promesses (mm etat_partage)) a.
Proof.
  destruct (mmap_anonyme_libre creneau TablesProps.creneau_ok (fun _ => None) None None (fun _ => 0)
    (fun _ => false) (fun _ => false) (fun _ => rend true) etat_partage base_user 5000 3 0x22 (-1) 0)
    as (s' & r & E & _ & _ & _ & _ & H);
    [apply (bool_decide_unpack _); vm_compute; exact I
    |vm_compute; (reflexivity || intuition congruence)..|].
  - exists s', r. split; [exact E|].
    assert ((s', @inl Z unit r).2 = inl (base_user + 2 ^ 32)) as Hr
      by (rewrite <- E; vm_compute; reflexivity).
    injection Hr as ->. split; [reflexivity|].
    destruct H as [[H _]|(_ & _ & _ & _ & H)]; [vm_compute in H; discriminate H|]. exact H.
Defined.

(** ** Inputs the calls handle badly *)

(** [brk] to an address in the last page of the address space stops the machine: the
    rounding to a page overflows before any bound is checked. *)
Theorem brk_deborde s addr :
  brk_start (mm s) <= addr -> 0 <= brk (mm s) < addr -> addr < u64_max -> u64_max <= addr + 4096 ->
  sys_brk addr s = (s, inr tt).
Proof.
  intros H1 H2 H3 H4. unfold sys_brk. erewrite lie_pas by reflexivity.
  rewrite (proj2 (Z.eqb_neq _ _)), (proj2 (Z.ltb_ge _ _)) by lia. cbn [orb].
  rewrite (proj2 (Z.ltb_lt _ _)) by lia.
  unfold lie at 1. unfold lie at 1. unfold arrondi, plus64, PAGE_SIZE.
  destruct (u64_max <=? brk (mm s) + 4096); [done|].
  unfold lie, rend. rewrite (proj2 (Z.leb_le u64_max (addr + 4096))) by lia. done.
Qed.
Lemma brk_deborde_witness : sys_brk (u64_max - 1) etat_neuf = (etat_neuf, inr tt).
Proof. apply brk_deborde; vm_compute; intuition congruence. Defined.

(** The kernel maps the page at address 0 with four tables; [munmap] clears its entry. *)
Definition memoire_noyau : Frames.Mem := fun a =>
  if a =? 4096 then 0x2003 else if a =? 0x2000 then 0x3003
  else if a =? 0x3000 then 0x4003 else if a =? 0x4000 then 3 else 0.

(** [munmap] does not check that its range is in the user slot: on an address of the
    kernel it clears the entry of the kernel's own tables, which every process shares, and
    the machine then stops on the count of resident pages, which never counted that page. *)
Theorem munmap_efface_noyau :
  Tables.is_user_addr creneau 0 = false /\
  let s := mk_etat (machine memoire_noyau) mm_neuf 1 ∅ [] in
  Tables.mem (monde s) 0x4000 = 3 /\
  (sys_munmap (fun _ => false) 0 4096 s).2 = inr tt /\
  Tables.mem (monde (sys_munmap (fun _ => false) 0 4096 s).1) 0x4000 = 0.
Proof. cbv zeta; split_and!; vm_compute; reflexivity. Qed.

(** Growing the break does not look at what is already there: the area of a shared file
    right after the break is replaced by anonymous memory, its shared range and its
    reference staying behind. *)
Theorem brk_ecrase_mapping :
  let s' := (sys_brk (base_user + 8192) etat_partage).1 in
  Vma.carte (promesses (mm etat_partage)) base_user
    = Some (Vma.mk_promesse 0 7 (Vma.BSharedFile 5 base_user 0 8192)) /\
  (sys_brk (base_user + 8192) etat_partage).2 = inl (base_user + 8192) /\
  Vma.carte (promesses (mm s')) base_user
    = Some (Vma.mk_promesse 1 (prot_to_flags 3) Vma.BZero) /\
  partages (mm s') = [mk_partage base_user 8192 5] /\ refs s' 5 = 1.
Proof. cbv zeta; split_and!; vm_compute; reflexivity. Qed.

(** A process limited to two pages. *)
Definition etat_limite : Etat :=
  mk_etat (machine (fun _ => 0)) (mk_mm base_user base_user (base_user + 2 ^ 32) [] 8192 [] []) 1 ∅ [].

(** MAP_FIXED ignores the limit on the size of the address space: the request refused
    without it is granted with it. *)
Theorem mmap_fixe_sans_limite :
  (sans_fichier (AMmap base_user 16384 3 0x22 (-1) 0) etat_limite).2 = inl (- ENOMEM) /\
  (sans_fichier (AMmap base_user 16384 3 0x32 (-1) 0) etat_limite).2 = inl base_user /\
  limite_as (mm etat_limite) <
    Vma.octets_virtuels (promesses (mm (sans_fichier (AMmap base_user 16384 3 0x32 (-1) 0) etat_limite).1)).
Proof. cbv zeta; split_and!; vm_compute; reflexivity. Qed.

End MemAppels.
