(* ===== verification/Ramfs.v ===== *)
(** The RAM file system: a fixed table of inodes that name their parent, path resolution,
    creation and removal of nodes, the mirror of the number of inodes in use, and the
    registry of files whose contents live outside the table. *)

From S2P Require Import Prelude.
From stdpp Require Import strings.

Module Ramfs.
Open Scope Z_scope.
Open Scope os_scope.

(** ** Bytes of a text *)

Fixpoint octets (s : string) : list Z :=
  match s with
  | EmptyString => []
  | String c t => Z.of_nat (Ascii.nat_of_ascii c) :: octets t
  end.
Definition SLASH : Z := 47.
Definition POINT : list Z := [46].
Definition POINT_POINT : list Z := [46; 46].

(** ** The table of inodes *)

Definition MAX_NODES : nat := Z.to_nat 4096.
Definition NAME_LEN : nat := Z.to_nat 255.
Definition MAX_FILE_SIZE : Z := 64 * 1024 * 1024.
Definition PERM_R : Z := 4.
Definition PERM_W : Z := 2.
Definition PERM_X : Z := 1.

Inductive NodeKind := File | Dir.
#[export] Instance NodeKind_eq_dec : EqDecision NodeKind.
Proof. solve_decision. Defined.
Definition est_dir (k : NodeKind) : bool := match k with Dir => true | File => false end.

(** [name] holds the first [name_len] bytes of the source's fixed array, the rest of which
    [set_name] clears. *)
Record Node := mk_node {
  used : bool; kind : NodeKind; parent : nat; name : list Z; content : list Z;
  mode : Z; uid : Z; gid : Z; mtime : Z
}.
#[export] Instance Node_eq_dec : EqDecision Node.
Proof. solve_decision. Defined.
Definition empty : Node := mk_node false File 0 [] [] 420 0 0 0.

Definition avec_used (b : bool) (n : Node) : Node :=
  mk_node b (kind n) (parent n) (name n) (content n) (mode n) (uid n) (gid n) (mtime n).
Definition avec_kind (k : NodeKind) (n : Node) : Node :=
  mk_node (used n) k (parent n) (name n) (content n) (mode n) (uid n) (gid n) (mtime n).
Definition avec_parent (p : nat) (n : Node) : Node :=
  mk_node (used n) (kind n) p (name n) (content n) (mode n) (uid n) (gid n) (mtime n).
Definition avec_name (s : list Z) (n : Node) : Node :=
  mk_node (used n) (kind n) (parent n) s (content n) (mode n) (uid n) (gid n) (mtime n).
Definition avec_content (c : list Z) (n : Node) : Node :=
  mk_node (used n) (kind n) (parent n) (name n) c (mode n) (uid n) (gid n) (mtime n).
Definition avec_droits (m u g : Z) (n : Node) : Node :=
  mk_node (used n) (kind n) (parent n) (name n) (content n) m u g (mtime n).
Definition avec_mtime (t : Z) (n : Node) : Node :=
  mk_node (used n) (kind n) (parent n) (name n) (content n) (mode n) (uid n) (gid n) t.

Definition content_len (n : Node) : Z := Z.of_nat (length (content n)).
Definition name_eq (n : Node) (s : list Z) : bool := bool_decide (name n = s).
Definition name_starts_with (n : Node) (prefixe : list Z) : bool :=
  bool_decide (take (length prefixe) (name n) = prefixe).
Definition nom_acceptable (s : list Z) : bool :=
  negb (length s =? 0)%nat && (length s <=? NAME_LEN)%nat.

(** ** Files held outside the table *)

Inductive BackingSource := Disk (drive data_lba : Z) | Memory (address : Z).
Record BackingExtent := mk_extent { e_node : nat; e_source : BackingSource; e_size : Z; e_generation : Z }.

(** ** State *)

(** [tic] counts the readings of the clock; [racine_persistante] is the node noted by the
    mount of the persistent zone; [modifications] the generation of its changes. *)
Record Monde := mk_monde {
  nodes : list Node;
  used_relaxed : Z;
  racine_persistante : option nat;
  modifications : Z;
  extents : list BackingExtent;
  next_generation : Z;
  tic : nat
}.
Definition avec_nodes (l : list Node) (w : Monde) : Monde :=
  mk_monde l (used_relaxed w) (racine_persistante w) (modifications w) (extents w) (next_generation w) (tic w).
Definition avec_used_relaxed (u : Z) (w : Monde) : Monde :=
  mk_monde (nodes w) u (racine_persistante w) (modifications w) (extents w) (next_generation w) (tic w).
Definition avec_extents (l : list BackingExtent) (g : Z) (w : Monde) : Monde :=
  mk_monde (nodes w) (used_relaxed w) (racine_persistante w) (modifications w) l g (tic w).
Definition note_racine_persistante (idx : nat) (w : Monde) : Monde :=
  mk_monde (nodes w) (used_relaxed w) (Some idx) (modifications w) (extents w) (next_generation w) (tic w).
Definition note_modification (w : Monde) : Monde :=
  mk_monde (nodes w) (used_relaxed w) (racine_persistante w) (wrapping_add64 (modifications w) 1)
    (extents w) (next_generation w) (tic w).
Definition avance (w : Monde) : Monde :=
  mk_monde (nodes w) (used_relaxed w) (racine_persistante w) (modifications w) (extents w)
    (next_generation w) (S (tic w)).

(** What the file system reads of the rest of the kernel: the clock, the session, the owner
    of what the current process creates. *)
Record Env := mk_env {
  unix_time : nat -> Z;
  s_uid : Z; s_gid : Z; s_root : bool;
  owner_uid : Z; owner_gid : Z
}.

(** A handler; its error is a panic of the kernel. *)
Definition F : Type -> Type := M Monde unit.
Definition panique {A} : F A := echoue tt.

Definition noeud (i : nat) : F Node := fun w =>
  match nodes w !! i with Some n => (w, inl n) | None => (w, inr tt) end.
Definition modifie (i : nat) (f : Node -> Node) : F unit := fun w =>
  match nodes w !! i with
  | Some n => (avec_nodes (<[i := f n]> (nodes w)) w, inl tt)
  | None => (w, inr tt)
  end.
Definition lis {A} (f : Monde -> A) : F A := fun w => (w, inl (f w)).

(** ** Extents *)

Definition unregister (node : nat) : F unit :=
  change (fun w => avec_extents (filter (fun e => e_node e <> node) (extents w)) (next_generation w) w).
Definition enregistre (node : nat) (source : BackingSource) (size : Z) : F unit :=
  unregister node ;;;
  change (fun w => avec_extents (extents w ++ [mk_extent node source size (next_generation w)])
                     (wrapping_add64 (next_generation w) 1) w).
Definition register_disk (node : nat) (drive data_lba size : Z) : F unit :=
  enregistre node (Disk drive data_lba) size.
Definition register_memory (node : nat) (address size : Z) : F unit :=
  enregistre node (Memory address) size.
Definition etendue (w : Monde) (node : nat) : option BackingExtent :=
  snd <$> list_find (fun e => e_node e = node) (extents w).
Definition disk_len (w : Monde) (node : nat) : option Z := e_size <$> etendue w node.
Definition is_disk_backed (w : Monde) (node : nat) : bool := bool_decide (is_Some (disk_len w node)).

(** ** Reading the tree *)

Definition est_enfant (p : nat) (s : list Z) (n : Node) : Prop :=
  used n = true /\ parent n = p /\ name_eq n s = true.
#[export] Instance est_enfant_dec p s n : Decision (est_enfant p s n).
Proof. unfold est_enfant. apply _. Defined.
Definition find_child (l : list Node) (p : nat) (s : list Z) : option nat :=
  fst <$> list_find (est_enfant p s) l.

Definition is_empty_dir (l : list Node) (idx : nat) : bool :=
  bool_decide (Forall (fun '(i, n) => ~ (used n = true /\ i <> idx /\ parent n = idx))
                 (imap pair l)).
Definition used_nodes (l : list Node) : nat := length (filter (fun n => used n = true) l).
Definition free_nodes (l : list Node) : nat := (MAX_NODES - used_nodes l)%nat.

Fixpoint remonte (fuel : nat) (l : list Node) (racine idx : nat) : option bool :=
  match fuel with
  | O => Some false
  | S fuel =>
      if (idx =? racine)%nat then Some true
      else if (idx =? 0)%nat || (MAX_NODES <=? idx)%nat then Some false
      else match l !! idx with Some n => remonte fuel l racine (parent n) | None => None end
  end.
(** The array has [MAX_NODES] cells, so that the index is in range. *)
Definition sous_persistant (w : Monde) (idx : nat) : bool :=
  match racine_persistante w with
  | None => false
  | Some racine => default false (remonte 64 (nodes w) racine idx)
  end.

(** ** Paths *)

(** [path.split('/')] *)
Fixpoint decoupe (p : list Z) : list (list Z) :=
  match p with
  | [] => [[]]
  | c :: t =>
      if c =? SLASH then [] :: decoupe t
      else match decoupe t with a :: r => (c :: a) :: r | [] => [[c]] end
  end.

(** The scan of [resolve]: slashes are skipped, then the bytes up to the next one taken. *)
Fixpoint saute_slash (p : list Z) : list Z :=
  match p with c :: t => if c =? SLASH then saute_slash t else p | [] => [] end.
Fixpoint jusqu_slash (p : list Z) : list Z * list Z :=
  match p with
  | [] => ([], [])
  | c :: t => if c =? SLASH then ([], p) else let '(a, b) := jusqu_slash t in (c :: a, b)
  end.
Fixpoint morceaux (fuel : nat) (p : list Z) : list (list Z) :=
  match fuel with
  | O => []
  | S fuel =>
      match saute_slash p with
      | [] => []
      | q => let '(comp, suite) := jusqu_slash q in comp :: morceaux fuel suite
      end
  end.
(** Every turn of the scan consumes a byte. *)
Definition composants (p : list Z) : list (list Z) := morceaux (length p) p.

Definition est_absolu (p : list Z) : bool :=
  match p with c :: _ => c =? SLASH | [] => false end.

Fixpoint suit_composants (l : list Node) (current : nat) (cs : list (list Z)) : option nat :=
  match cs with
  | [] => Some current
  | comp :: cs =>
      if bool_decide (comp = POINT) then suit_composants l current cs
      else if bool_decide (comp = POINT_POINT)
      then n ← l !! current; suit_composants l (parent n) cs
      else i ← find_child l current comp; suit_composants l i cs
  end.
Definition resolve (l : list Node) (path : list Z) (cwd : nat) : option nat :=
  match path with
  | [] => Some cwd
  | _ => suit_composants l (if est_absolu path then 0%nat else cwd) (composants path)
  end.

(** [while end > 1 && bytes[end - 1] == b'/' { end -= 1 }] *)
Fixpoint rogne_inverse (r : list Z) : list Z :=
  match r with
  | [] => []
  | c :: t => match t with [] => r | _ => if c =? SLASH then rogne_inverse t else r end
  end.
Definition rogne (p : list Z) : list Z := reverse (rogne_inverse (reverse p)).
Definition dernier_slash (p : list Z) : option nat :=
  foldl (fun acc '(i, c) => if c =? SLASH then Some i else acc) None (imap pair p).

(** The directory part and the last name of a path. *)
Definition separe (path : list Z) : option (option (list Z) * list Z) :=
  let path := rogne path in
  if bool_decide (path = []) || bool_decide (path = [SLASH]) then None
  else Some match dernier_slash path with
            | None => (None, path)
            | Some pos => (Some (take pos path), drop (S pos) path)
            end.
Definition resolve_parent_name (l : list Node) (path : list Z) (cwd : nat) : option (nat * list Z) :=
  match separe path with
  | None => None
  | Some (None, nom) => Some (cwd, nom)
  | Some (Some [], nom) => Some (0%nat, nom)
  | Some (Some dir, nom) => p ← resolve l dir cwd; Some (p, nom)
  end.

Section Kernel.
Context (env : Env).

Definition can (n : Node) (want : Z) : bool :=
  if s_root env then true
  else
    let bits := if s_uid env =? uid n then Z.land (Z.shiftr (mode n) 6) 7
                else if s_gid env =? gid n then Z.land (Z.shiftr (mode n) 3) 7
                else Z.land (mode n) 7 in
    Z.land bits want =? want.

Inductive RefusChemin := PermissionDenied | Introuvable | CheminInvalide.
Fixpoint suit_verifie (l : list Node) (current : nat) (cs : list (list Z)) : F (nat + RefusChemin) :=
  match cs with
  | [] => rend (inl current)
  | comp :: cs =>
      if bool_decide (comp = POINT) then suit_verifie l current cs
      else
        n <- noeud current ;;
        if negb (can n PERM_X) then rend (inr PermissionDenied)
        else if bool_decide (comp = POINT_POINT) then suit_verifie l (parent n) cs
        else match find_child l current comp with
             | Some i => suit_verifie l i cs
             | None => rend (inr Introuvable)
             end
  end.
Definition resolve_checked (path : list Z) (cwd : nat) : F (nat + RefusChemin) :=
  match path with
  | [] => rend (inl cwd)
  | _ =>
      l <- lis nodes ;;
      suit_verifie l (if est_absolu path then 0%nat else cwd) (composants path)
  end.
Definition resolve_parent_name_checked (path : list Z) (cwd : nat)
  : F ((nat * list Z) + RefusChemin) :=
  match separe path with
  | None => rend (inr CheminInvalide)
  | Some (None, nom) => rend (inl (cwd, nom))
  | Some (Some [], nom) => rend (inl (0%nat, nom))
  | Some (Some dir, nom) =>
      r <- resolve_checked dir cwd ;;
      rend match r with inl p => inl (p, nom) | inr e => inr e end
  end.

(** ** Changing the tree *)

Inductive Refus := ParentNotDir | AlreadyExists | InvalidName | NoFreeInode.

Definition heure : F Z := fun w => (avance w, inl (unix_time env (tic w))).

Definition touche (idx : nat) : F unit :=
  if (idx <? MAX_NODES)%nat then
    t <- heure ;;
    modifie idx (avec_mtime t) ;;;
    b <- lis (fun w => sous_persistant w idx) ;;
    if b then change note_modification else rend tt
  else rend tt.

Definition premier_libre (l : list Node) : option nat :=
  S ∘ fst <$> list_find (fun n => used n = false) (drop 1 l).
Definition alloc_node : F (option nat) :=
  l <- lis nodes ;;
  match premier_libre l with
  | None => rend None
  | Some i =>
      t <- heure ;;
      modifie i (fun _ => avec_mtime t (avec_used true empty)) ;;;
      old <- lis used_relaxed ;;
      change (avec_used_relaxed (wrapping_add64 old 1)) ;;;
      if Z.of_nat MAX_NODES <=? old then panique else rend (Some i)
  end.

Definition set_name (i : nat) (s : list Z) : F bool :=
  if nom_acceptable s then modifie i (avec_name s) ;;; rend true else rend false.

(** The common body of [mkdir_at] and [touch_at] once the name is known to be new. *)
Definition installe (k : NodeKind) (droits : Z) (p : nat) (s : list Z) : F (nat + Refus) :=
  if negb (nom_acceptable s) then rend (inr InvalidName)
  else
    r <- alloc_node ;;
    match r with
    | None => rend (inr NoFreeInode)
    | Some idx =>
        modifie idx (avec_kind k) ;;;
        modifie idx (avec_parent p) ;;;
        modifie idx (avec_droits droits (s_uid env) (s_gid env)) ;;;
        b <- set_name idx s ;;
        if negb b then rend (inr InvalidName) else touche p ;;; rend (inl idx)
    end.
Definition mkdir_at (p : nat) (s : list Z) : F (nat + Refus) :=
  n <- noeud p ;;
  if negb (est_dir (kind n)) then rend (inr ParentNotDir)
  else
    l <- lis nodes ;;
    match find_child l p s with
    | Some _ => rend (inr AlreadyExists)
    | None => installe Dir 493 p s
    end.
Definition touch_at (p : nat) (s : list Z) : F (nat + Refus) :=
  n <- noeud p ;;
  if negb (est_dir (kind n)) then rend (inr ParentNotDir)
  else
    l <- lis nodes ;;
    match find_child l p s with
    | Some existing => rend (inl existing)
    | None => installe File 420 p s
    end.

Definition MEMFD : list Z := octets "memfd:".
Definition cree_anonyme (nom : list Z) : F (nat + Refus) :=
  r <- alloc_node ;;
  match r with
  | None => rend (inr NoFreeInode)
  | Some idx =>
      modifie idx (avec_kind File) ;;;
      modifie idx (avec_parent idx) ;;;
      modifie idx (avec_droits 384 (s_uid env) (s_gid env)) ;;;
      set_name idx (MEMFD ++ nom) ;;;
      rend (inl idx)
  end.
Definition est_anonyme (l : list Node) (idx : nat) : bool :=
  negb (idx =? 0)%nat && (idx <? MAX_NODES)%nat &&
  match l !! idx with
  | Some n => used n && (parent n =? idx)%nat && name_starts_with n MEMFD
  | None => false
  end.

Definition rend_compte : F unit :=
  old <- lis used_relaxed ;;
  change (avec_used_relaxed (wrapping_add64 old (u64_max - 1))) ;;;
  if old =? 0 then panique else rend tt.
Definition libere_anonyme (idx : nat) : F bool :=
  l <- lis nodes ;;
  if negb (est_anonyme l idx) then rend false
  else modifie idx (fun _ => empty) ;;; rend_compte ;;; rend true.
Definition libere_noeud (idx : nat) : F unit :=
  l <- lis nodes ;;
  if (idx =? 0)%nat || (MAX_NODES <=? idx)%nat || negb (match l !! idx with Some n => used n | None => false end)
  then rend tt
  else
    b <- lis (fun w => sous_persistant w idx) ;;
    (if b then change note_modification else rend tt) ;;;
    modifie idx (avec_used false) ;;;
    modifie idx (avec_content []) ;;;
    rend_compte.

Definition write_node_bytes (idx : nat) (data : list Z) : F bool :=
  if MAX_FILE_SIZE <? Z.of_nat (length data) then rend false
  else unregister idx ;;; modifie idx (avec_content data) ;;; touche idx ;;; rend true.
Definition write_node (idx : nat) (text : list Z) : F unit := write_node_bytes idx text ;;; rend tt.
Definition append_node (idx : nat) (text : list Z) : F unit :=
  b <- lis (fun w => is_disk_backed w idx) ;;
  if b then rend tt
  else
    n <- noeud idx ;;
    if MAX_FILE_SIZE <? content_len n + (Z.of_nat (length text) + 1) then rend tt
    else
      modifie idx (avec_content ((if (length (content n) =? 0)%nat then [] else content n ++ [10])
                                   ++ text)) ;;;
      touche idx.

(** [unwrap_or(0)] *)
Definition ou_zero (r : nat + Refus) : nat := match r with inl i => i | inr _ => 0%nat end.
Definition depose_texte (p : nat) (nom texte : string) : F unit :=
  r <- touch_at p (octets nom) ;; write_node (ou_zero r) (octets texte).
Definition manifeste_optionnel (p : nat) (nom texte : string) : F unit :=
  r <- touch_at p (octets nom) ;;
  match r with inl i => write_node i (octets texte) | inr _ => rend tt end.

(** The catalogue of native applications. *)
Definition manifestes (apps : nat) : F unit :=
  depose_texte apps "terminal.bapp" "name=Terminal
exec=terminal
type=gui
permission=normal" ;;;
  depose_texte apps "files.bapp" "name=Fichiers
exec=files
type=gui
permission=normal" ;;;
  depose_texte apps "browser.bapp" "name=Ladybird
exec=browser
type=gui
permission=normal" ;;;
  depose_texte apps "sysinfo.bapp" "name=Moniteur
exec=monitor
type=gui
permission=normal" ;;;
  manifeste_optionnel apps "notes.bapp" "name=Bouchaud Notes
exec=notes
type=gui
permission=normal" ;;;
  manifeste_optionnel apps "insights.bapp" "name=Bouchaud Insights
exec=insights
type=gui
permission=normal".

Definition init : F unit :=
  change (fun w => avec_nodes (replicate MAX_NODES empty) w) ;;;
  modifie 0 (fun n => avec_droits 493 0 0 (avec_parent 0 (avec_kind Dir (avec_used true n)))) ;;;
  t <- heure ;;
  modifie 0 (avec_mtime t) ;;;
  change (avec_used_relaxed 1) ;;;
  mkdir_at 0 (octets "home") ;;;
  tmp <- mkdir_at 0 (octets "tmp") ;;
  etc <- mkdir_at 0 (octets "etc") ;;
  var <- mkdir_at 0 (octets "var") ;;
  mkdir_at (ou_zero var) (octets "log") ;;;
  dev <- mkdir_at 0 (octets "dev") ;;
  (if negb (ou_zero dev =? 0)%nat then mkdir_at (ou_zero dev) (octets "shm") ;;; rend tt else rend tt) ;;;
  apps <- mkdir_at 0 (octets "apps") ;;
  (if negb (ou_zero apps =? 0)%nat then
     manifestes (ou_zero apps)
   else rend tt) ;;;
  depose_texte 0 "readme.txt" "Bienvenue dans Bouchaud OS. Connecte-toi (guest/guest ou root/root). Tape help, ou desktop pour le bureau graphique." ;;;
  depose_texte (ou_zero etc) "passwd" "root:x:0:0:root:/:/bin/bsh
guest:x:1000:1000:guest:/home/guest:/bin/bsh" ;;;
  if negb (ou_zero tmp =? 0)%nat
  then modifie (ou_zero tmp) (fun n => avec_droits 1023 (uid n) (gid n) n) else rend tt.
End Kernel.

(** ** The absolute path of a node *)

(** The recursion of the source has no bound: out of fuel stands for one that does not end. *)
Fixpoint build_path (fuel : nat) (l : list Node) (idx : nat) : option (list Z) :=
  match idx with
  | O => Some []
  | S _ =>
      match fuel with
      | O => None
      | S fuel =>
          n ← l !! idx;
          p ← build_path fuel l (parent n);
          Some (p ++ [SLASH] ++ name n)
      end
  end.
Definition path_string_fuel (fuel : nat) (l : list Node) (idx : nat) : option (list Z) :=
  p ← build_path fuel l idx; Some (if (length p =? 0)%nat then [SLASH] else p).
Definition path_string (l : list Node) (idx : nat) : option (list Z) :=
  path_string_fuel MAX_NODES l idx.

(** ** Lexical normalisation *)

Fixpoint empile (parts : list (list Z)) (morceaux : list (list Z)) : list (list Z) :=
  match morceaux with
  | [] => parts
  | part :: ms =>
      if (length part =? 0)%nat || bool_decide (part = POINT) then empile parts ms
      else if bool_decide (part = POINT_POINT) then empile (removelast parts) ms
      else empile (parts ++ [part]) ms
  end.
Definition joint (parts : list (list Z)) : list Z :=
  match parts with
  | [] => [SLASH]
  | _ => mjoin ((fun s => SLASH :: s) <$> parts)
  end.
Definition normalize_absolute (path : list Z) : list Z := joint (empile [] (decoupe path)).
Definition finit_par_slash (p : list Z) : bool := bool_decide (last p = Some SLASH).
Definition canonical_from_base (base path : list Z) : list Z :=
  if est_absolu path then normalize_absolute path
  else
    let joined := match base with [] => [SLASH] | _ => normalize_absolute base end in
    normalize_absolute ((if finit_par_slash joined then joined else joined ++ [SLASH]) ++ path).
End Ramfs.
