(* ===== verification/RamfsProofs.v ===== *)
(** The tree the table of inodes represents: its invariant, what names a node, and the
    equivalence of tables that differ only in modification times. *)

From S2P Require Import Prelude Ramfs.

Module RamfsProofs.

Import Ramfs.
Open Scope Z_scope.
Open Scope os_scope.

(** ** Tables up to what an operation leaves alone *)

(** All of a node but its modification time, and its place in the tree alone. *)
Definition corps (n : Node) : Node := avec_mtime 0 n.
Definition forme (n : Node) : bool * NodeKind * nat * list Z := (used n, kind n, parent n, name n).

Record meme_corps (l l' : list Node) : Prop := { meme_corps_eq : corps <$> l = corps <$> l' }.
#[export] Instance table_equiv : Equiv (list Node) := meme_corps.
#[export] Instance table_equivalence : Equivalence (≡@{list Node}).
Proof. split; [by constructor|intros ?? []; by constructor|intros ??? [] []; constructor; congruence]. Qed.
Record meme_arbre (l l' : list Node) : Prop := { meme_formes : forme <$> l = forme <$> l' }.
#[export] Instance meme_arbre_equivalence : Equivalence meme_arbre.
Proof. split; [by constructor|intros ?? []; by constructor|intros ??? [] []; constructor; congruence]. Qed.

Lemma forme_corps n : forme (corps n) = forme n.
Proof. done. Qed.

#[export] Instance meme_arbre_table : subrelation (≡@{list Node}) meme_arbre.
Proof.
  intros l l' [H]. constructor.
  assert (forall l : list Node, forme <$> l = forme <$> (corps <$> l)) as E.
  { intros ?. rewrite <-list_fmap_compose. by apply list_fmap_ext. }
  by rewrite (E l), (E l'), H.
Qed.

Lemma table_lookup (l l' : list Node) i n :
  l ≡ l' -> l !! i = Some n -> exists n', l' !! i = Some n' /\ corps n = corps n'.
Proof.
  intros [H] E. assert ((corps <$> l) !! i = Some (corps n)) as F by (rewrite list_lookup_fmap, E; done).
  rewrite H, list_lookup_fmap in F. destruct (l' !! i) as [n'|]; [|done].
  exists n'. split; [done|]. symmetry. exact (inj Some _ _ F).
Qed.

Lemma arbre_lookup (l l' : list Node) i n :
  meme_arbre l l' -> l !! i = Some n -> exists n', l' !! i = Some n' /\ forme n = forme n'.
Proof.
  intros [H] E. assert ((forme <$> l) !! i = Some (forme n)) as F by (rewrite list_lookup_fmap, E; done).
  rewrite H, list_lookup_fmap in F. destruct (l' !! i) as [n'|]; [|done].
  exists n'. split; [done|]. symmetry. exact (inj Some _ _ F).
Qed.

Lemma meme_arbre_longueur l l' : meme_arbre l l' -> length l = length l'.
Proof. intros [H]. by rewrite <-(length_fmap forme l), H, length_fmap. Qed.

#[export] Instance table_insert i : Proper ((=) ==> (≡) ==> (≡)) (fun n (l : list Node) => <[i := n]> l).
Proof.
  intros n ? <- l l' [H]. constructor. by rewrite !list_fmap_insert, H.
Qed.

Lemma insert_corps i n n' (l : list Node) :
  corps n = corps n' -> <[i := n]> l ≡ <[i := n']> l.
Proof. intros H. constructor. by rewrite !list_fmap_insert, H. Qed.

Lemma insert_meme_corps i n n' (l : list Node) :
  l !! i = Some n -> corps n' = corps n -> <[i := n']> l ≡ l.
Proof.
  intros H E. rewrite (insert_corps i n' n) by done. by rewrite list_insert_id.
Qed.

Lemma insert_meme_forme i n n' (l : list Node) :
  l !! i = Some n -> forme n' = forme n -> meme_arbre (<[i := n']> l) l.
Proof.
  intros H E. constructor. rewrite list_fmap_insert, E, <-list_fmap_insert.
  by rewrite list_insert_id.
Qed.

(** ** The invariant of the tree *)

Definition vivant (l : list Node) (i : nat) (n : Node) : Prop := l !! i = Some n /\ used n = true.

(** A component of a path, and one short enough to be a name. *)
Definition composant (s : list Z) : Prop :=
  s <> [] /\ ~ (SLASH ∈ s) /\ s <> POINT /\ s <> POINT_POINT.
Definition bon_nom (s : list Z) : Prop := composant s /\ (length s <= NAME_LEN)%nat.

(** Climbing from the node reaches the root. *)
Inductive enracine (l : list Node) : nat -> Prop :=
| enracine_0 : enracine l 0
| enracine_parent i n : vivant l i n -> enracine l (parent n) -> enracine l i.

Record arbre_ok (l : list Node) : Prop := mk_arbre_ok {
  ao_longueur : length l = MAX_NODES;
  ao_racine : exists n, vivant l 0 n /\ kind n = Dir /\ parent n = 0%nat /\ name n = [];
  ao_noeud : forall i n, i <> 0%nat -> vivant l i n ->
    (parent n = i /\ kind n = File) \/
    (bon_nom (name n) /\ enracine l i /\ parent n <> i /\
     exists p, vivant l (parent n) p /\ kind p = Dir);
  ao_unique : forall i j ni nj, vivant l i ni -> vivant l j nj ->
    parent ni = parent nj -> name ni = name nj -> i = j
}.

(** The mirror of the number of inodes in use is exact. *)
Definition monde_ok (w : Monde) : Prop :=
  arbre_ok (nodes w) /\ used_relaxed w = Z.of_nat (used_nodes (nodes w)).

(** The path from the root, as a list of names, of a node. *)
Inductive nomme (l : list Node) : list (list Z) -> nat -> Prop :=
| nomme_racine : nomme l [] 0
| nomme_enfant cs i n :
    vivant l i n -> i <> 0%nat -> nomme l cs (parent n) -> nomme l (cs ++ [name n]) i.

(** ** What the place of the nodes determines *)

Lemma forme_eq n n' :
  forme n = forme n' -> used n = used n' /\ kind n = kind n' /\ parent n = parent n' /\ name n = name n'.
Proof. unfold forme. intros H. by simplify_eq. Qed.

Lemma arbre_vivant l l' i n :
  meme_arbre l l' -> vivant l i n -> exists n', vivant l' i n' /\ forme n = forme n'.
Proof.
  intros H [E U]. destruct (arbre_lookup _ _ _ _ H E) as (n' & E' & F).
  exists n'. split; [|done]. apply forme_eq in F as (F & _). by split; [|congruence].
Qed.

Lemma enracine_arbre l l' i : meme_arbre l l' -> enracine l i -> enracine l' i.
Proof.
  intros H. induction 1 as [|i n V _ IH]; [constructor|].
  destruct (arbre_vivant _ _ _ _ H V) as (n' & V' & (_ & _ & F & _)%forme_eq).
  apply (enracine_parent _ i n'); [done|]. by rewrite <-F.
Qed.

Lemma nomme_arbre l l' cs i : meme_arbre l l' -> nomme l cs i -> nomme l' cs i.
Proof.
  intros H. induction 1 as [|cs i n V H0 _ IH]; [constructor|].
  destruct (arbre_vivant _ _ _ _ H V) as (n' & V' & (_ & _ & F & G)%forme_eq).
  rewrite G. apply nomme_enfant; [done..|]. by rewrite <-F.
Qed.

Lemma arbre_ok_arbre l l' : meme_arbre l l' -> arbre_ok l -> arbre_ok l'.
Proof.
  intros H [Hl (r & Hr & Hrk & Hrp & Hrn) Hn Hu]. assert (meme_arbre l' l) as H' by done.
  destruct (arbre_vivant _ _ _ _ H Hr) as (r' & Vr & (_ & ? & ? & ?)%forme_eq). split.
  - by rewrite <-(meme_arbre_longueur _ _ H).
  - exists r'. by split_and!; [..|congruence|congruence|congruence].
  - intros i n' Hi V'. destruct (arbre_vivant _ _ _ _ H' V') as (n & V & (_ & Fk & Fp & Fn)%forme_eq).
    destruct (Hn i n Hi V) as [[??]|(Hb & He & Hp & p & Vp & Hk)]; [left; split; congruence|].
    right. rewrite Fn, Fp. split_and!; [done|by eapply enracine_arbre|done|].
    destruct (arbre_vivant _ _ _ _ H Vp) as (p' & Vp' & (_ & ? & _)%forme_eq).
    exists p'. split; congruence.
  - intros i j ni nj Vi Vj Ep En.
    destruct (arbre_vivant _ _ _ _ H' Vi) as (mi & Wi & (_ & _ & ? & ?)%forme_eq).
    destruct (arbre_vivant _ _ _ _ H' Vj) as (mj & Wj & (_ & _ & ? & ?)%forme_eq).
    apply (Hu i j mi mj); congruence.
Qed.

#[export] Instance arbre_ok_proper : Proper (meme_arbre ==> iff) arbre_ok.
Proof. intros l l' H. split; by apply arbre_ok_arbre. Qed.
#[export] Instance nomme_proper : Proper (meme_arbre ==> (=) ==> (=) ==> iff) nomme.
Proof. intros l l' H ?? <- ?? <-. split; by apply nomme_arbre. Qed.
#[export] Instance enracine_proper : Proper (meme_arbre ==> (=) ==> iff) enracine.
Proof. intros l l' H ?? <-. split; by apply enracine_arbre. Qed.

Lemma meme_arbre_cons n n' l l' :
  meme_arbre (n :: l) (n' :: l') -> forme n = forme n' /\ meme_arbre l l'.
Proof.
  intros [H]. split; [exact (inj Some _ _ (f_equal head H))|constructor; exact (f_equal tail H)].
Qed.

(** A search by a test on the place of a node. *)
Lemma list_find_forme (P : Node -> Prop) {D : forall n, Decision (P n)} l l' :
  (forall n n', forme n = forme n' -> P n -> P n') ->
  meme_arbre l l' -> fst <$> list_find P l = fst <$> list_find P l'.
Proof.
  intros HP. revert l'. induction l as [|n l IH]; intros [|n' l'] H; [done|by destruct H..|].
  apply meme_arbre_cons in H as [Hf Ht]. cbn [list_find].
  destruct (decide (P n)), (decide (P n')); [done|exfalso; by eauto..|].
  specialize (IH l' Ht). destruct (list_find P l) as [[??]|], (list_find P l') as [[??]|]; cbn in *; congruence.
Qed.

#[export] Instance find_child_proper : Proper (meme_arbre ==> (=) ==> (=) ==> (=)) find_child.
Proof.
  intros l l' H ? p -> ? s ->. apply list_find_forme; [|done].
  intros n n' (? & _ & ? & F)%forme_eq. unfold est_enfant, name_eq. by rewrite F; intuition congruence.
Qed.

#[export] Instance used_nodes_proper : Proper (meme_arbre ==> (=)) used_nodes.
Proof.
  intros l l' H. unfold used_nodes. revert l' H. induction l as [|n l IH]; intros [|n' l'] H; [done|by destruct H..|].
  apply meme_arbre_cons in H as [(U & _)%forme_eq Ht].
  rewrite !filter_cons, U. destruct (decide (used n' = true)); cbn [length]; auto.
Qed.

#[export] Instance is_empty_dir_proper : Proper (meme_arbre ==> (=) ==> (=)) is_empty_dir.
Proof.
  intros l l' H ? i ->. apply bool_decide_ext. rewrite !Forall_lookup. 
  enough (forall l l', meme_arbre l l' ->
    (forall j x, imap pair l !! j = Some x -> (fun '(k, n) => ~ (used n = true /\ k <> i /\ parent n = i)) x) ->
    (forall j x, imap pair l' !! j = Some x -> (fun '(k, n) => ~ (used n = true /\ k <> i /\ parent n = i)) x)) as W
    by (split; apply W; done).
  clear. intros l l' H Hl j [k n] E. rewrite list_lookup_imap in E.
  destruct (l' !! j) as [m|] eqn:E'; simplify_eq/=.
  destruct (arbre_lookup l' l k n (symmetry H) E') as (m & Em & (? & _ & ? & _)%forme_eq).
  specialize (Hl k (k, m)). rewrite list_lookup_imap, Em in Hl. specialize (Hl eq_refl). cbn in Hl.
  intros (U & Hk & Hp). apply Hl. split_and!; [congruence|done|congruence].
Qed.

#[export] Instance suit_composants_proper :
  Proper (meme_arbre ==> (=) ==> (=) ==> (=)) suit_composants.
Proof.
  intros l l' H i ? <- cs ? <-. revert i. induction cs as [|c cs IH]; intros i; [done|]. cbn.
  assert (find_child l i c = find_child l' i c) as -> by (by rewrite H).
  case_bool_decide; [done|]. case_bool_decide.
  - destruct (l !! i) as [n|] eqn:E.
    + destruct (arbre_lookup _ _ _ _ H E) as (n' & -> & (_ & _ & F & _)%forme_eq).
      cbn. rewrite F. apply IH.
    + assert (l' !! i = None) as ->; [|done]. apply lookup_ge_None.
      rewrite <-(meme_arbre_longueur _ _ H). by apply lookup_ge_None.
  - destruct (find_child l' i c); [apply IH|done].
Qed.
#[export] Instance resolve_proper : Proper (meme_arbre ==> (=) ==> (=) ==> (=)) resolve.
Proof. intros l l' H p ? <- i ? <-. unfold resolve. destruct p; [done|]. by rewrite H. Qed.
End RamfsProofs.

(** Paths and nodes of a well-formed tree: names designate nodes uniquely both ways, paths
    are shorter than the table, and moving subtrees renames exactly the paths below them. *)

Module RamfsArbre.
Import Ramfs RamfsProofs.
Open Scope Z_scope.

(** ** Names and nodes *)

Lemma vivant_fun l i n n' : vivant l i n -> vivant l i n' -> n = n'.
Proof. intros [? _] [? _]. congruence. Qed.

Lemma nomme_vide l i : nomme l [] i -> i = 0%nat.
Proof.
  intros H. remember [] as cs eqn:E. destruct H as [|cs i n]; [done|]. by destruct cs.
Qed.

Lemma nomme_racine_inv l cs : nomme l cs 0 -> cs = [].
Proof. intros H. remember 0%nat as i eqn:E. by destruct H. Qed.

Lemma nomme_enfant_inv l cs x i :
  nomme l (cs ++ [x]) i -> exists n, vivant l i n /\ i <> 0%nat /\ nomme l cs (parent n) /\ name n = x.
Proof.
  intros H. remember (cs ++ [x]) as cs' eqn:E. destruct H as [|cs' i n V H0 H].
  - by destruct cs.
  - apply app_inj_tail in E as [-> <-]. eauto.
Qed.

(** A node has one path. *)
Lemma nomme_chemin_unique l cs cs' i : nomme l cs i -> nomme l cs' i -> cs = cs'.
Proof.
  intros H. revert cs'. induction H as [|cs i n V H0 _ IH]; intros cs' H'.
  - by apply nomme_racine_inv in H' as ->.
  - destruct H' as [|cs' i n' V' _ H']; [done|]. rewrite (vivant_fun _ _ _ _ V V') in *.
    by rewrite (IH _ H').
Qed.

(** Out of a tree a path leads to one node. *)
Lemma nomme_noeud_unique l cs i j : arbre_ok l -> nomme l cs i -> nomme l cs j -> i = j.
Proof.
  intros A H. revert j. induction H as [|cs i n V H0 _ IH]; intros j H'.
  - by apply nomme_vide in H' as ->.
  - apply nomme_enfant_inv in H' as (n' & V' & _ & H' & E).
    apply (ao_unique l A i j n n'); [done..|by apply IH|done].
Qed.

Lemma nomme_vivant l cs i : arbre_ok l -> nomme l cs i -> exists n, vivant l i n.
Proof. intros A [|? ? n]; [destruct (ao_racine l A) as (n & ? & _)|]; by exists n. Qed.

Lemma nomme_prefixe l cs q i : nomme l (cs ++ q) i -> exists j, nomme l cs j.
Proof.
  revert i. induction q as [|x q IH] using rev_ind; intros i H.
  - rewrite app_nil_r in H. by exists i.
  - rewrite app_assoc in H. apply nomme_enfant_inv in H as (n & _ & _ & H & _). eauto.
Qed.

Lemma nomme_pas_son_parent l cs i n :
  nomme l cs i -> vivant l i n -> i <> 0%nat -> parent n <> i.
Proof.
  intros H V H0 E. destruct H as [|cs i n' V' _ H]; [done|].
  rewrite <-(vivant_fun _ _ _ _ V V') in *. rewrite E in H.
  assert (nomme l (cs ++ [name n]) i) as H' by (apply nomme_enfant; [done..|by rewrite E]).
  pose proof (f_equal length (nomme_chemin_unique _ _ _ _ H H')) as L.
  rewrite length_app in L. cbn in L. lia.
Qed.

(** A node of the tree that is not the root hangs from a directory. *)
Lemma nomme_range l cs i n :
  arbre_ok l -> nomme l cs i -> vivant l i n -> i <> 0%nat ->
  bon_nom (name n) /\ enracine l i /\ exists p, vivant l (parent n) p /\ kind p = Dir.
Proof.
  intros A H V H0. destruct (ao_noeud l A i n H0 V) as [[Hp _]|(? & ? & ? & ?)]; [|done].
  by eapply nomme_pas_son_parent in Hp.
Qed.

Lemma nomme_noms l cs i : arbre_ok l -> nomme l cs i -> Forall bon_nom cs.
Proof.
  intros A. induction 1 as [|cs i n V H0 H IH]; [done|]. apply Forall_app_2; [done|].
  apply Forall_singleton. by eapply (nomme_range l (cs ++ [name n]) i n A); [by apply nomme_enfant|..].
Qed.

Lemma enracine_nomme l i : arbre_ok l -> enracine l i -> exists cs, nomme l cs i.
Proof.
  intros A. induction 1 as [|i n V H [cs IH]]; [eexists; constructor|].
  destruct (decide (i = 0%nat)) as [->|H0]; [eexists; constructor|].
  exists (cs ++ [name n]). by apply nomme_enfant.
Qed.

Lemma nomme_enracine l cs i : nomme l cs i -> enracine l i.
Proof. induction 1; [constructor|by eapply enracine_parent]. Qed.

(** A live directory has a path. *)
Lemma dossier_nomme l i n : arbre_ok l -> vivant l i n -> kind n = Dir -> exists cs, nomme l cs i.
Proof.
  intros A V K. destruct (decide (i = 0%nat)) as [->|H0]; [eexists; constructor|].
  destruct (ao_noeud l A i n H0 V) as [[_ ?]|(_ & He & _)]; [congruence|]. by apply enracine_nomme.
Qed.

Lemma find_child_ok l p s i :
  arbre_ok l -> find_child l p s = Some i <-> exists n, vivant l i n /\ parent n = p /\ name n = s.
Proof.
  intros A. unfold find_child. split.
  - destruct (list_find _ l) as [[j n]|] eqn:E; intros ?; simplify_eq/=.
    apply list_find_Some in E as (E & (U & P & N) & _). unfold name_eq in N. bool_prop.
    exists n. by split_and!.
  - intros (n & [E U] & P & N).
    assert (est_enfant p s n) as Hn by (unfold est_enfant, name_eq; by rewrite bool_decide_true).
    destruct (list_find_elem_of (est_enfant p s) l n) as [[j m] F];
      [by eapply list_elem_of_lookup_2|done|].
    rewrite F. cbn. f_equal. apply list_find_Some in F as (F & (U' & P' & N') & _).
    unfold name_eq in N'. bool_prop. apply (ao_unique l A j i m n); [done..|congruence|congruence].
Qed.

Lemma find_child_aucun l p s :
  arbre_ok l -> find_child l p s = None -> forall i n, vivant l i n -> parent n = p -> name n <> s.
Proof.
  intros A E i n V P N. assert (find_child l p s = Some i) by (apply find_child_ok; eauto).
  congruence.
Qed.

(** The child of a node of the tree, by path. *)
Lemma find_child_nomme l cs p s i :
  arbre_ok l -> nomme l cs p -> bon_nom s \/ s <> [] ->
  find_child l p s = Some i <-> nomme l (cs ++ [s]) i.
Proof.
  intros A H Hs. assert (s <> []) as Hs' by (destruct Hs as [[[? _] _]|]; done).
  rewrite find_child_ok by done. split.
  - intros (n & V & P & <-). apply nomme_enfant; [done| |by rewrite P]. intros ->.
    destruct (ao_racine l A) as (r & Vr & _ & _ & Hr). by rewrite (vivant_fun _ _ _ _ V Vr) in Hs'.
  - intros (n & V & _ & H' & <-)%nomme_enfant_inv. exists n. split_and!; [done| |done].
    by eapply nomme_noeud_unique.
Qed.

(** Following good components from a node is extending its path. *)
Lemma suit_composants_nomme l cs : forall p i ds,
  arbre_ok l -> nomme l ds p -> Forall composant cs ->
  suit_composants l p cs = Some i <-> nomme l (ds ++ cs) i.
Proof.
  induction cs as [|c cs IH]; intros p i ds A H Hc; cbn [suit_composants].
  - rewrite app_nil_r. split; [by intros [= <-]|]. intros H'. f_equal. by eapply nomme_noeud_unique.
  - apply Forall_cons in Hc as [(Hv & _ & H1 & H2) Hc].
    rewrite !bool_decide_false by done. rewrite cons_middle, app_assoc.
    destruct (find_child l p c) as [j|] eqn:E; cbn.
    + apply IH; [done| |done]. eapply find_child_nomme; [done..|by right|done].
    + split; [done|]. intros H'. apply nomme_prefixe in H' as (j & Hj).
      assert (find_child l p c = Some j) by (eapply find_child_nomme; [done..|by right|done]).
      congruence.
Qed.

(** ** The depth of the tree *)

(** The nodes met from the root down to a node: one per prefix of its path, all different. *)
Lemma ancetres l cs i :
  arbre_ok l -> nomme l cs i ->
  exists js, length js = S (length cs) /\ NoDup js /\ Forall (fun j => (j < MAX_NODES)%nat) js /\
    forall j, j ∈ js -> exists q, q `prefix_of` cs /\ nomme l q j.
Proof.
  intros A. induction 1 as [|cs i n V H0 H (js & Hl & Hnd & Hb & Hp)].
  - exists [0%nat]. split_and!; [done|apply NoDup_singleton| |].
    + apply Forall_singleton. unfold MAX_NODES. lia.
    + intros j ->%list_elem_of_singleton. exists []. split; [apply prefix_nil|constructor].
  - exists (i :: js). rewrite length_app. cbn [length]. split_and!; [lia| | |].
    + apply NoDup_cons. split; [|done]. intros (q & Hq & Hj)%Hp.
      assert (nomme l (cs ++ [name n]) i) as Hi by (by apply nomme_enfant).
      rewrite (nomme_chemin_unique _ _ _ _ Hj Hi) in Hq.
      apply prefix_length in Hq. rewrite length_app in Hq. cbn in Hq. lia.
    + apply Forall_cons. split; [|done]. rewrite <-(ao_longueur l A).
      apply lookup_lt_is_Some. destruct V. by eexists.
    + intros j [->|Hj]%elem_of_cons.
      * exists (cs ++ [name n]). split; [done|by apply nomme_enfant].
      * destruct (Hp j Hj) as (q & ? & ?). exists q. split; [by apply prefix_app_r|done].
Qed.

Lemma profondeur l cs i : arbre_ok l -> nomme l cs i -> (length cs < MAX_NODES)%nat.
Proof.
  intros A H. destruct (ancetres l cs i A H) as (js & Hl & Hnd & Hb & _).
  enough (length js <= MAX_NODES)%nat by lia.
  rewrite <-(length_seq MAX_NODES 0). apply submseteq_length, NoDup_submseteq; [done|].
  intros j Hj. apply elem_of_seq. rewrite Forall_forall in Hb. specialize (Hb j Hj). lia.
Qed.

(** ** Moving subtrees *)

(** A move: the node, its path before and its path after. *)
Abbreviation chemin := (list (list Z)).
Abbreviation deplacement := (nat * chemin * chemin)%type.

Definition pas_sous (ms : list deplacement) (cs : chemin) : Prop :=
  forall s o d, (s, o, d) ∈ ms -> ~ o `prefix_of` cs.
(** The path [cs'] that a node of path [cs] has after the moves. *)
Definition deplace_chemin (ms : list deplacement) (cs cs' : chemin) : Prop :=
  (pas_sous ms cs /\ cs' = cs) \/
  exists s o d q, (s, o, d) ∈ ms /\ cs = o ++ q /\ cs' = d ++ q.

(** [l'] is [l] where the nodes of [ms] hang elsewhere. *)
Record deplaces (l l' : list Node) (ms : list deplacement) : Prop := mk_deplaces {
  dp_autres : forall i n, (forall o d, (i, o, d) ∉ ms) -> vivant l i n <-> vivant l' i n;
  dp_avant : forall s o d, (s, o, d) ∈ ms -> nomme l o s /\ s <> 0%nat;
  dp_apres : forall s o d, (s, o, d) ∈ ms -> exists n dp,
     vivant l' s n /\ d = dp ++ [name n] /\ nomme l dp (parent n) /\ pas_sous ms dp;
  dp_disjoints : forall s o d s' o' d', (s, o, d) ∈ ms -> (s', o', d') ∈ ms ->
     o `prefix_of` o' -> s = s' /\ o = o' /\ d = d'
}.

Section Deplacement.
Context (l l' : list Node) (ms : list deplacement) (A : arbre_ok l) (D : deplaces l l' ms).

Lemma pas_sous_init cs x : pas_sous ms (cs ++ [x]) -> pas_sous ms cs.
Proof. intros H s o d Hm Ho. by apply (H s o d Hm), prefix_app_r. Qed.

Lemma deplace_stable cs i : nomme l cs i -> pas_sous ms cs -> nomme l' cs i.
Proof.
  induction 1 as [|cs i n V H0 H IH]; intros Hp; [constructor|].
  apply nomme_enfant; [|done|by eapply IH, pas_sous_init].
  apply (dp_autres _ _ _ D); [|done]. intros o d Hm.
  destruct (dp_avant _ _ _ D _ _ _ Hm) as [Ho _].
  assert (nomme l (cs ++ [name n]) i) as Hi by (by apply nomme_enfant).
  apply (Hp i o d Hm). by rewrite (nomme_chemin_unique _ _ _ _ Ho Hi).
Qed.

Lemma deplace_avance cs cs' i : nomme l cs i -> deplace_chemin ms cs cs' -> nomme l' cs' i.
Proof.
  intros H [[Hp ->]|(s & o & d & q & Hm & -> & ->)]; [by apply deplace_stable|].
  destruct (dp_avant _ _ _ D _ _ _ Hm) as [Ho Hs0].
  revert i H. induction q as [|x q IH] using rev_ind; intros i H.
  - rewrite app_nil_r in *. rewrite (nomme_noeud_unique _ _ _ _ A H Ho).
    destruct (dp_apres _ _ _ D _ _ _ Hm) as (n & dp & V & -> & Hdp & Hps).
    apply nomme_enfant; [done..|]. by apply deplace_stable.
  - rewrite !app_assoc in *. apply nomme_enfant_inv in H as (n & V & H0 & H & <-).
    apply nomme_enfant; [|done|by apply IH]. apply (dp_autres _ _ _ D); [|done]. intros o' d' Hm'.
    destruct (dp_avant _ _ _ D _ _ _ Hm') as [Ho' _].
    assert (nomme l ((o ++ q) ++ [name n]) i) as Hi by (by apply nomme_enfant).
    pose proof (nomme_chemin_unique _ _ _ _ Ho' Hi) as E.
    destruct (dp_disjoints _ _ _ D _ _ _ _ _ _ Hm Hm') as (-> & E' & _).
    { rewrite E, <-app_assoc. by apply prefix_app_r. }
    rewrite <-E' in E. apply (f_equal length) in E. rewrite !length_app in E. cbn in E. lia.
Qed.

Lemma deplace_recule cs' i :
  nomme l' cs' i -> exists cs, nomme l cs i /\ deplace_chemin ms cs cs'.
Proof.
  induction 1 as [|cs' i n V H0 _ (cs & H & Hd)].
  - exists []. split; [constructor|]. left. split; [|done]. intros s o d Hm Ho.
    destruct (dp_avant _ _ _ D _ _ _ Hm) as [Hn Hs]. apply prefix_nil_inv in Ho as ->.
    by apply nomme_vide in Hn.
  - destruct (decide (i ∈ (fun m : deplacement => m.1.1) <$> ms)) as [Hi|Hn].
    + apply list_elem_of_fmap in Hi as ([[s o] d] & Hi & Hm). cbn in Hi. subst s. destruct (dp_avant _ _ _ D _ _ _ Hm) as [Ho _].
      destruct (dp_apres _ _ _ D _ _ _ Hm) as (m & dp & Vm & -> & Hdp & Hps).
      rewrite (vivant_fun _ _ _ _ V Vm) in *.
      rewrite (nomme_chemin_unique _ _ _ _ H Hdp) in Hd. exists o. split; [done|]. right.
      exists i, o, (dp ++ [name m]), []. rewrite !app_nil_r. split_and!; [done..|].
      destruct Hd as [[_ ->]|(s' & o' & d' & q & Hm' & -> & _)]; [done|].
      destruct (Hps _ _ _ Hm'). by apply prefix_app_r.
    + assert (vivant l i n) as Vi.
      { apply (dp_autres _ _ _ D); [|done]. intros o d Hm. apply Hn. apply list_elem_of_fmap. by exists (i, o, d). }
      exists (cs ++ [name n]). assert (nomme l (cs ++ [name n]) i) as Hi by (by apply nomme_enfant).
      split; [done|]. destruct Hd as [[Hp ->]|(s & o & d & q & Hm & -> & ->)].
      * left. split; [|done]. intros s o d Hm Ho.
        destruct (decide (o = cs ++ [name n])) as [->|Hne].
        { destruct (dp_avant _ _ _ D _ _ _ Hm) as [Hs _].
          apply Hn, list_elem_of_fmap. exists (s, cs ++ [name n], d). split; [|done].
          by eapply nomme_noeud_unique. }
        apply (Hp s o d Hm). destruct Ho as [r Hr]. destruct r as [|y r _] using rev_ind.
        { rewrite app_nil_r in Hr. congruence. }
        rewrite app_assoc in Hr. apply app_inj_tail in Hr as [-> _]. by apply prefix_app_r.
      * right. exists s, o, d, (q ++ [name n]). by rewrite !app_assoc.
Qed.

(** After the moves a node has the moved path, and nothing else is renamed. *)
Lemma deplace_nomme cs' i :
  nomme l' cs' i <-> exists cs, nomme l cs i /\ deplace_chemin ms cs cs'.
Proof.
  split; [apply deplace_recule|]. intros (cs & H & Hd). by eapply deplace_avance.
Qed.
End Deplacement.
End RamfsArbre.
