(* ===== verification/RamfsOps.v ===== *)
(** The effect on the tree of installing, freeing, moving and exchanging nodes: the
    invariant is kept and the paths change exactly as announced. *)

From S2P Require Import Prelude Ramfs RamfsProofs.

Module RamfsOps.
Import Ramfs RamfsProofs RamfsArbre.
Open Scope Z_scope.
Open Scope os_scope.

(** ** Establishing the invariant *)

Lemma arbre_ok_intro l :
  length l = MAX_NODES ->
  (exists n, vivant l 0 n /\ kind n = Dir /\ parent n = 0%nat /\ name n = []) ->
  (forall i n, i <> 0%nat -> vivant l i n ->
     (parent n = i /\ kind n = File) \/
     (bon_nom (name n) /\ (exists cs, nomme l cs i) /\ exists p, vivant l (parent n) p /\ kind p = Dir)) ->
  (forall i j ni nj, vivant l i ni -> vivant l j nj ->
     parent ni = parent nj -> name ni = name nj -> i = j) ->
  arbre_ok l.
Proof.
  intros Hl Hr Hn Hu. split; [done..| |done]. intros i n H0 V.
  destruct (Hn i n H0 V) as [?|(? & (cs & H) & ?)]; [by left|right]. split_and!; try done.
  - by eapply nomme_enracine.
  - by eapply nomme_pas_son_parent.
Qed.

Lemma vivant_insert l i n' j m :
  (i < length l)%nat ->
  vivant (<[i := n']> l) j m <-> (j = i /\ m = n' /\ used n' = true) \/ (j <> i /\ vivant l j m).
Proof.
  intros Hi. unfold vivant. destruct (decide (j = i)) as [->|].
  - rewrite list_lookup_insert_eq by done. naive_solver.
  - rewrite list_lookup_insert_ne by done. naive_solver.
Qed.

Lemma vivant_lt l i n : vivant l i n -> (i < length l)%nat.
Proof. intros [H _]. by eapply lookup_lt_Some. Qed.

Lemma used_nodes_insert l i n n' :
  l !! i = Some n ->
  (used_nodes (<[i := n']> l) + Nat.b2n (used n) = used_nodes l + Nat.b2n (used n'))%nat.
Proof.
  intros H. unfold used_nodes. revert i H. induction l as [|m l IH]; intros [|i] H; [done..| |].
  - injection H as ->. change (<[0%nat := n']> (n :: l)) with (n' :: l). rewrite !filter_cons.
    destruct (decide (used n' = true)) as [E'|E'], (decide (used n = true)) as [E|E];
      rewrite ?E', ?E; try apply not_true_is_false in E; try apply not_true_is_false in E';
      rewrite ?E', ?E; cbn [length Nat.b2n]; lia.
  - specialize (IH i H). change (<[S i := n']> (m :: l)) with (m :: <[i := n']> l).
    rewrite !filter_cons. destruct (decide (used m = true)); cbn [length]; lia.
Qed.

(** Nothing hangs from a dead node. *)
Lemma mort_sans_enfant l i m j n :
  arbre_ok l -> l !! i = Some m -> used m = false -> vivant l j n -> parent n <> i.
Proof.
  intros A Hm U V E. destruct (decide (j = 0%nat)) as [->|H0].
  - destruct (ao_racine l A) as (r & Vr & _ & Hr & _). rewrite (vivant_fun _ _ _ _ V Vr) in *.
    destruct Vr. congruence.
  - destruct (ao_noeud l A j n H0 V) as [[Hp _]|(_ & _ & _ & p & [Hp Up] & _)]; destruct V; congruence.
Qed.

Lemma vivant_racine l i m : arbre_ok l -> l !! i = Some m -> used m = false -> i <> 0%nat.
Proof. intros A H U ->. destruct (ao_racine l A) as (r & [Hr Ur] & _). congruence. Qed.

(** ** Installing a node *)

Section Ajout.
Context (l : list Node) (A : arbre_ok l) (i : nat) (mort n' : Node).
Context (Hi : l !! i = Some mort) (Hmort : used mort = false) (Hn' : used n' = true).

Lemma ajout_lt : (i < length l)%nat.
Proof. by eapply lookup_lt_Some. Qed.

Lemma ajout_conserve j n : vivant l j n -> vivant (<[i := n']> l) j n.
Proof.
  intros V. apply vivant_insert; [apply ajout_lt|]. right. split; [|done]. intros ->.
  destruct V. congruence.
Qed.

Lemma ajout_nomme_conserve cs j : nomme l cs j -> nomme (<[i := n']> l) cs j.
Proof.
  induction 1 as [|cs j n V H0 _ IH]; [constructor|]. apply nomme_enfant; [|done..].
  by apply ajout_conserve.
Qed.

Lemma ajout_racine :
  exists n, vivant (<[i := n']> l) 0 n /\ kind n = Dir /\ parent n = 0%nat /\ name n = [].
Proof.
  destruct (ao_racine l A) as (r & Vr & ?). exists r. split; [|done]. by apply ajout_conserve.
Qed.

(** A named node, under a directory where the name is free. *)
Section Nomme.
Context (pp : chemin) (np : Node).
Context (Hpp : nomme l pp (parent n')) (Hp : vivant l (parent n') np) (Hk : kind np = Dir).
Context (Hs : bon_nom (name n')) (Hlibre : find_child l (parent n') (name n') = None).

Lemma ajout_nomme cs j :
  nomme (<[i := n']> l) cs j <-> nomme l cs j \/ (cs = pp ++ [name n'] /\ j = i).
Proof.
  pose proof (vivant_racine l i mort A Hi Hmort) as Hi0. split.
  - induction 1 as [|cs j n V H0 _ IH]; [left; constructor|].
    apply vivant_insert in V as [(-> & -> & _)|[Hne V]]; [| |apply ajout_lt].
    + destruct IH as [IH|[_ IH]].
      * right. by rewrite (nomme_chemin_unique _ _ _ _ IH Hpp).
      * destruct Hp. congruence.
    + destruct IH as [IH|[_ IH]]; [left; by apply nomme_enfant|].
      by eapply mort_sans_enfant in IH.
  - intros [H|[-> ->]]; [by apply ajout_nomme_conserve|].
    apply nomme_enfant; [|done|by apply ajout_nomme_conserve].
    apply vivant_insert; [apply ajout_lt|]. by left.
Qed.

Lemma ajout_ok : arbre_ok (<[i := n']> l).
Proof.
  apply arbre_ok_intro; [by rewrite length_insert; apply A|apply ajout_racine| |].
  - intros j n H0 V. apply vivant_insert in V as [(-> & -> & _)|[Hne V]]; [| |apply ajout_lt].
    + right. split_and!; [done| |exists np; by split; [apply ajout_conserve|]].
      exists (pp ++ [name n']). apply ajout_nomme. by right.
    + destruct (ao_noeud l A j n H0 V) as [?|(? & He & _ & p & Vp & Kp)]; [by left|]. right.
      split_and!; [done| |exists p; by split; [apply ajout_conserve|]].
      apply enracine_nomme in He as [cs Hcs]; [|done]. exists cs. by apply ajout_nomme_conserve.
  - intros j1 j2 n1 n2 V1 V2 Ep En.
    apply vivant_insert in V1 as [(-> & -> & _)|[Hne1 V1]]; [| |apply ajout_lt];
      apply vivant_insert in V2 as [(-> & -> & _)|[Hne2 V2]]; try apply ajout_lt; [done| | |].
    + exfalso. eapply (find_child_aucun l _ _ A Hlibre j2 n2 V2); congruence.
    + exfalso. eapply (find_child_aucun l _ _ A Hlibre j1 n1 V1); congruence.
    + by apply (ao_unique l A j1 j2 n1 n2).
Qed.
End Nomme.

(** An anonymous file, its own parent. *)
Section Anonyme.
Context (Hp : parent n' = i) (Hk : kind n' = File).

Lemma anonyme_nomme cs j : nomme (<[i := n']> l) cs j <-> nomme l cs j.
Proof.
  split; [|apply ajout_nomme_conserve].
  induction 1 as [|cs j n V H0 H IH]; [constructor|].
  apply vivant_insert in V as [(-> & -> & _)|[Hne V]]; [| |apply ajout_lt]; [|by apply nomme_enfant].
  exfalso. apply (nomme_pas_son_parent (<[i := n']> l) cs i n'); [by rewrite Hp in H| |done..].
  apply vivant_insert; [apply ajout_lt|]. by left.
Qed.

Lemma anonyme_ok : arbre_ok (<[i := n']> l).
Proof.
  apply arbre_ok_intro; [by rewrite length_insert; apply A|apply ajout_racine| |].
  - intros j n H0 V. apply vivant_insert in V as [(-> & -> & _)|[Hne V]]; [by left| |apply ajout_lt].
    destruct (ao_noeud l A j n H0 V) as [?|(? & He & _ & p & Vp & Kp)]; [by left|]. right.
    split_and!; [done| |exists p; by split; [apply ajout_conserve|]].
    apply enracine_nomme in He as [cs Hcs]; [|done]. exists cs. by apply ajout_nomme_conserve.
  - intros j1 j2 n1 n2 V1 V2 Ep En.
    apply vivant_insert in V1 as [(-> & -> & _)|[Hne1 V1]]; [| |apply ajout_lt];
      apply vivant_insert in V2 as [(-> & -> & _)|[Hne2 V2]]; try apply ajout_lt; [done| | |].
    + exfalso. eapply (mort_sans_enfant l i mort j2 n2); [done..|congruence].
    + exfalso. eapply (mort_sans_enfant l i mort j1 n1); [done..|congruence].
    + by apply (ao_unique l A j1 j2 n1 n2).
Qed.
End Anonyme.
End Ajout.

(** ** Freeing a node *)

Definition sans_enfant (l : list Node) (i : nat) : Prop :=
  forall j n, vivant l j n -> j <> i -> parent n <> i.

Lemma is_empty_dir_spec l i : is_empty_dir l i = true <-> sans_enfant l i.
Proof.
  unfold is_empty_dir, sans_enfant. rewrite bool_decide_eq_true, Forall_lookup. split.
  - intros H j n [E U] Hj Hp. specialize (H j (j, n)).
    rewrite list_lookup_imap, E in H. by apply (H eq_refl).
  - intros H j [k n] E. rewrite list_lookup_imap in E. destruct (l !! j) as [m|] eqn:F; simplify_eq/=.
    intros (U & Hk & Hp). by apply (H k n).
Qed.

Lemma fichier_sans_enfant l i n : arbre_ok l -> vivant l i n -> kind n = File -> sans_enfant l i.
Proof.
  intros A V K j m Vj Hj Hp. destruct (decide (j = 0%nat)) as [->|H0].
  - destruct (ao_racine l A) as (r & Vr & _ & Hr & _).
    rewrite (vivant_fun _ _ _ _ Vj Vr) in *. congruence.
  - destruct (ao_noeud l A j m H0 Vj) as [[E _]|(_ & _ & _ & p & Vp & Kp)]; [congruence|].
    rewrite Hp in Vp. rewrite (vivant_fun _ _ _ _ V Vp) in K. congruence.
Qed.

Section Retrait.
Context (l : list Node) (A : arbre_ok l) (i : nat) (n n' : Node).
Context (V : vivant l i n) (Hi0 : i <> 0%nat) (Hn' : used n' = false) (Hse : sans_enfant l i).

Lemma retrait_vivant j m : vivant (<[i := n']> l) j m <-> j <> i /\ vivant l j m.
Proof. rewrite vivant_insert by (by eapply vivant_lt). rewrite Hn'. naive_solver. Qed.

Lemma retrait_nomme cs j : nomme (<[i := n']> l) cs j <-> nomme l cs j /\ j <> i.
Proof.
  split.
  - induction 1 as [|cs j m Vj H0 _ [IH _]]; [by split; [constructor|]|].
    apply retrait_vivant in Vj as [? Vj]. split; [by apply nomme_enfant|done].
  - intros [H Hji]. revert Hji. induction H as [|cs j m Vj H0 _ IH]; intros Hji; [constructor|].
    apply nomme_enfant; [|done|].
    + by apply retrait_vivant.
    + apply IH. by apply (Hse j m).
Qed.

Lemma retrait_ok : arbre_ok (<[i := n']> l).
Proof.
  apply arbre_ok_intro; [by rewrite length_insert; apply A| | |].
  - destruct (ao_racine l A) as (r & Vr & ?). exists r. split; [|done]. by apply retrait_vivant.
  - intros j m H0 [Hj Vj]%retrait_vivant.
    destruct (ao_noeud l A j m H0 Vj) as [?|(? & He & _ & p & Vp & Kp)]; [by left|]. right.
    split_and!; [done| |].
    + apply enracine_nomme in He as [cs Hcs]; [|done]. exists cs. by apply retrait_nomme.
    + exists p. split; [|done]. apply retrait_vivant. split; [|done]. by apply (Hse j m).
  - intros j1 j2 n1 n2 [_ V1]%retrait_vivant [_ V2]%retrait_vivant. by apply (ao_unique l A).
Qed.
End Retrait.

(** ** Moving nodes *)

(** The places taken are free once the moved nodes have left, and the nodes moved keep their
    kind and hang from directories. *)
Record place_libre (l l' : list Node) (ms : list deplacement) : Prop := mk_place_libre {
  pl_libre : forall s o d cs j, (s, o, d) ∈ ms -> nomme l cs j -> d `prefix_of` cs -> ~ pas_sous ms cs;
  pl_disjoints : forall s o d s' o' d', (s, o, d) ∈ ms -> (s', o', d') ∈ ms ->
     d `prefix_of` d' -> o = o' /\ d = d';
  pl_genre : forall s o d, (s, o, d) ∈ ms -> exists n n' q,
     vivant l s n /\ vivant l' s n' /\ kind n' = kind n /\ bon_nom (name n') /\
     vivant l (parent n') q /\ kind q = Dir
}.

Lemma pas_sous_decide ms cs :
  {m : deplacement | m ∈ ms /\ m.1.2 `prefix_of` cs} + {pas_sous ms cs}.
Proof.
  induction ms as [|[[s o] d] ms IH]; [right; intros ??? H; set_solver|].
  destruct (decide (o `prefix_of` cs)) as [H|H]; [left; exists (s, o, d); set_solver|].
  destruct IH as [[m [Hm Hp]]|IH]; [left; exists m; set_solver|]. right.
  intros s' o' d' [?|Hm]%elem_of_cons; [by simplify_eq|]. by apply (IH s' o' d').
Qed.

Lemma deplace_total ms cs : exists cs', deplace_chemin ms cs cs'.
Proof.
  destruct (pas_sous_decide ms cs) as [[[[s o] d] (Hm & [q ->])]|H].
  - exists (d ++ q). right. by exists s, o, d, q.
  - exists cs. by left.
Qed.

Section Deplaces.
Context (l l' : list Node) (ms : list deplacement).
Context (A : arbre_ok l) (D : deplaces l l' ms) (L : place_libre l l' ms).

Lemma deplace_chemin_inj c1 c2 c' j1 j2 :
  nomme l c1 j1 -> nomme l c2 j2 ->
  deplace_chemin ms c1 c' -> deplace_chemin ms c2 c' -> c1 = c2.
Proof.
  intros H1 H2 [[P1 ->]|(s1 & o1 & d1 & q1 & M1 & -> & ->)] [[P2 E]|(s2 & o2 & d2 & q2 & M2 & -> & E)].
  - done.
  - exfalso. eapply (pl_libre _ _ _ L); [exact M2|exact H1| |done]. rewrite E. by apply prefix_app_r.
  - exfalso. subst c2. eapply (pl_libre _ _ _ L); [exact M1|exact H2| |done]. by apply prefix_app_r.
  - destruct (prefix_weak_total d1 d2 (d1 ++ q1)) as [Hp|Hp];
      [by apply prefix_app_r|rewrite E; by apply prefix_app_r|..];
      [destruct (pl_disjoints _ _ _ L _ _ _ _ _ _ M1 M2 Hp) as [-> ->]
      |destruct (pl_disjoints _ _ _ L _ _ _ _ _ _ M2 M1 Hp) as [-> ->]];
      by apply app_inv_head in E as ->.
Qed.

Lemma deplace_dossier p np :
  vivant l p np -> kind np = Dir -> exists np', vivant l' p np' /\ kind np' = Dir.
Proof.
  intros V K. destruct (decide (p ∈ (fun m : deplacement => m.1.1) <$> ms)) as [Hi|Hn].
  - apply list_elem_of_fmap in Hi as ([[s o] d] & -> & Hm). cbn in *.
    destruct (pl_genre _ _ _ L _ _ _ Hm) as (n & n' & _ & Vn & Vn' & E & _). exists n'.
    split; [done|]. rewrite E. by rewrite (vivant_fun _ _ _ _ Vn V).
  - exists np. split; [|done]. apply (dp_autres _ _ _ D); [|done]. intros o d Hm. apply Hn.
    apply list_elem_of_fmap. by exists (p, o, d).
Qed.

(** A live node after the moves: anonymous, or named and under a directory. *)
Lemma deplace_vivant i n :
  i <> 0%nat -> vivant l' i n ->
  (parent n = i /\ kind n = File) \/
  (bon_nom (name n) /\ (exists cs, nomme l' cs i) /\ exists p, vivant l' (parent n) p /\ kind p = Dir).
Proof.
  intros H0 V. destruct (decide (i ∈ (fun m : deplacement => m.1.1) <$> ms)) as [Hi|Hn].
  - apply list_elem_of_fmap in Hi as ([[s o] d] & -> & Hm). cbn in *. right.
    destruct (pl_genre _ _ _ L _ _ _ Hm) as (m & n' & q & _ & Vn' & _ & Hb & Vq & Kq).
    rewrite (vivant_fun _ _ _ _ V Vn') in *. split_and!; [done| |by eapply deplace_dossier].
    destruct (dp_avant _ _ _ D _ _ _ Hm) as [Ho _]. exists d.
    eapply (deplace_avance l l' ms A D o d s); [done|].
    right. exists s, o, d, []. by rewrite !app_nil_r.
  - assert (vivant l i n) as Vi.
    { apply (dp_autres _ _ _ D); [|done]. intros o d Hm. apply Hn, list_elem_of_fmap.
      by exists (i, o, d). }
    destruct (ao_noeud l A i n H0 Vi) as [?|(? & He & _ & p & Vp & Kp)]; [by left|]. right.
    split_and!; [done| |by eapply deplace_dossier].
    apply enracine_nomme in He as [cs Hcs]; [|done]. destruct (deplace_total ms cs) as [cs' Hd].
    exists cs'. by eapply (deplace_avance l l' ms A D).
Qed.

Lemma racine_fixe : exists n, vivant l' 0 n /\ kind n = Dir /\ parent n = 0%nat /\ name n = [].
Proof.
  destruct (ao_racine l A) as (r & Vr & ?). exists r. split; [|done].
  apply (dp_autres _ _ _ D); [|done]. intros o d Hm. by destruct (dp_avant _ _ _ D _ _ _ Hm).
Qed.

Lemma deplace_ok : length l' = length l -> arbre_ok l'.
Proof.
  intros Hl. apply arbre_ok_intro; [by rewrite Hl; apply A|apply racine_fixe|apply deplace_vivant|].
  intros i j ni nj Vi Vj Ep En.
  destruct racine_fixe as (r & Vr & Kr & Pr & Nr).
  assert (forall i n, vivant l' i n -> i = 0%nat \/ (parent n = i /\ kind n = File) \/
    (name n <> [] /\ exists cs, i <> 0%nat /\ nomme l' cs (parent n) /\ nomme l' (cs ++ [name n]) i)) as W.
  { intros k n V. destruct (decide (k = 0%nat)); [by left|right].
    destruct (deplace_vivant k n) as [?|([[? _] _] & [cs Hk] & _)]; [done..|by left|right].
    split; [done|]. destruct Hk as [|cs k m Vm Hk0 Hk]; [done|].
    rewrite (vivant_fun _ _ _ _ V Vm) in *. exists cs. split_and!; [done..|by apply nomme_enfant]. }
  assert (forall k n m q, vivant l' k n -> kind n = File -> ~ (vivant l' q m /\ q <> 0%nat /\ parent m = k /\ k <> q)) as Wf.
  { intros k n m q V K (Vm & Hq & Hp & Hne).
    destruct (deplace_vivant q m Hq Vm) as [[E _]|(_ & _ & p & Vp & Kp)]; [congruence|].
    rewrite Hp in Vp. rewrite (vivant_fun _ _ _ _ V Vp) in K. congruence. }
  destruct (decide (i = j)) as [|Hij]; [done|exfalso].
  destruct (W i ni Vi) as [->|[[Pi Ki]|(Bi & ci & Hi0 & Hpi & Hi)]];
    destruct (W j nj Vj) as [->|[[Pj Kj]|(Bj & cj & Hj0 & Hpj & Hj)]]; try congruence.
  - rewrite (vivant_fun _ _ _ _ Vi Vr) in *. congruence.
  - rewrite (vivant_fun _ _ _ _ Vi Vr) in *. congruence.
  - rewrite (vivant_fun _ _ _ _ Vj Vr) in *. congruence.
  - apply (Wf i ni nj j); [done..|]. split_and!; [done|done|congruence|done].
  - rewrite (vivant_fun _ _ _ _ Vj Vr) in *. congruence.
  - apply (Wf j nj ni i); [done..|]. split_and!; [done|done|congruence|congruence].
  - rewrite Ep in Hpi. rewrite (nomme_chemin_unique _ _ _ _ Hpi Hpj), En in Hi.
    apply (deplace_nomme l l' ms A D) in Hi as (c1 & H1 & D1).
    apply (deplace_nomme l l' ms A D) in Hj as (c2 & H2 & D2).
    apply Hij. eapply (nomme_noeud_unique l c1); [done..|].
    by rewrite (deplace_chemin_inj _ _ _ _ _ H1 H2 D1 D2).
Qed.
End Deplaces.

(** *** One node under a free name *)

Section UnDeplacement.
Context (l : list Node) (A : arbre_ok l) (s : nat) (ns n' np : Node) (ps pp : chemin).
Context (Vs : vivant l s ns) (Hs0 : s <> 0%nat) (Hps : nomme l ps s).
Context (Hpp : nomme l pp (parent n')) (Vp : vivant l (parent n') np) (Kp : kind np = Dir).
Context (Hsous : ~ ps `prefix_of` pp) (Un' : used n' = true) (Kn' : kind n' = kind ns).
Context (Bn' : bon_nom (name n')) (Hlibre : find_child l (parent n') (name n') = None).
#[local] Abbreviation ms := [(s, ps, pp ++ [name n'])].

Lemma un_vivant j m : vivant (<[s := n']> l) j m <-> (j = s /\ m = n') \/ (j <> s /\ vivant l j m).
Proof. rewrite vivant_insert by (by eapply vivant_lt). rewrite Un'. naive_solver. Qed.

Lemma un_deplaces : deplaces l (<[s := n']> l) ms.
Proof.
  split.
  - intros i n Hi. rewrite un_vivant. split; [|intros [[-> _]|[_ ?]]; [|done]].
    + intros V. right. split; [|done]. intros ->. by apply (Hi ps (pp ++ [name n'])), list_elem_of_singleton.
    + exfalso. by apply (Hi ps (pp ++ [name n'])), list_elem_of_singleton.
  - intros ? ? ? [= -> -> ->]%list_elem_of_singleton. done.
  - intros ? ? ? [= -> -> ->]%list_elem_of_singleton. exists n', pp. split_and!; [|done..|].
    + apply un_vivant. by left.
    + by intros ? ? ? [= -> -> ->]%list_elem_of_singleton.
  - by intros ? ? ? ? ? ? [= -> -> ->]%list_elem_of_singleton [= -> -> ->]%list_elem_of_singleton.
Qed.

Lemma un_place_libre : place_libre l (<[s := n']> l) ms.
Proof.
  split.
  - intros ? ? ? cs j [= -> -> ->]%list_elem_of_singleton Hj [q ->] _.
    apply nomme_prefixe in Hj as [k Hk].
    apply (find_child_nomme l pp (parent n') (name n') k A Hpp) in Hk; [congruence|by left].
  - by intros ? ? ? ? ? ? [= -> -> ->]%list_elem_of_singleton [= -> -> ->]%list_elem_of_singleton.
  - intros ? ? ? [= -> -> ->]%list_elem_of_singleton. exists ns, n', np.
    split_and!; [done| |done..]. apply un_vivant. by left.
Qed.

Lemma un_deplacement_ok : arbre_ok (<[s := n']> l).
Proof. apply (deplace_ok l _ ms A un_deplaces un_place_libre). by rewrite length_insert. Qed.

Lemma un_deplacement_nomme cs' i :
  nomme (<[s := n']> l) cs' i <-> exists cs, nomme l cs i /\ deplace_chemin ms cs cs'.
Proof. apply (deplace_nomme l _ ms A un_deplaces). Qed.
End UnDeplacement.

(** *** Two nodes exchanged *)

Section Echange.
Context (l : list Node) (A : arbre_ok l) (s c : nat) (ns nc ns' nc' : Node) (ps pc : chemin).
Context (Vs : vivant l s ns) (Vc : vivant l c nc) (Hs0 : s <> 0%nat) (Hc0 : c <> 0%nat).
Context (Hps : nomme l ps s) (Hpc : nomme l pc c).
Context (Hsc : ~ ps `prefix_of` pc) (Hcs : ~ pc `prefix_of` ps).
Context (Us' : used ns' = true) (Uc' : used nc' = true).
Context (Ks' : kind ns' = kind ns) (Kc' : kind nc' = kind nc).
Context (Ps' : parent ns' = parent nc) (Ns' : name ns' = name nc).
Context (Pc' : parent nc' = parent ns) (Nc' : name nc' = name ns).
#[local] Abbreviation ms := [(s, ps, pc); (c, pc, ps)].
#[local] Abbreviation l' := (<[c := nc']> (<[s := ns']> l)).

Lemma echange_differents : s <> c.
Proof. intros ->. apply Hsc. by rewrite (nomme_chemin_unique _ _ _ _ Hps Hpc). Qed.

Lemma echange_vivant j m :
  vivant l' j m <-> (j = s /\ m = ns') \/ (j = c /\ m = nc') \/ (j <> s /\ j <> c /\ vivant l j m).
Proof.
  pose proof echange_differents. rewrite !vivant_insert, Us', Uc';
    [naive_solver|by eapply vivant_lt|rewrite length_insert; by eapply vivant_lt].
Qed.

Lemma echange_cas s0 o d :
  (s0, o, d) ∈ ms -> (s0 = s /\ o = ps /\ d = pc) \/ (s0 = c /\ o = pc /\ d = ps).
Proof. intros [|[|[]%not_elem_of_nil]%elem_of_cons]%elem_of_cons; simplify_eq; tauto. Qed.

(** Neither path is above the directory of the other. *)
Lemma echange_pas_sous cs x : (cs ++ [x] = ps \/ cs ++ [x] = pc) -> pas_sous ms cs.
Proof.
  intros Hx s0 o d Hm [q ->]. destruct (echange_cas _ _ _ Hm) as [(_ & -> & _)|(_ & -> & _)];
    destruct Hx as [E|E]; rewrite <-app_assoc in E;
    solve [apply (f_equal length) in E; rewrite !length_app in E; cbn in E; lia
          |apply Hsc; rewrite <-E; by apply prefix_app_r
          |apply Hcs; rewrite <-E; by apply prefix_app_r].
Qed.

Lemma echange_deplaces : deplaces l l' ms.
Proof.
  split.
  - intros i n Hi. rewrite echange_vivant.
    assert (i <> s /\ i <> c) as [? ?].
    { split; intros ->; [apply (Hi ps pc)|apply (Hi pc ps)]; set_solver. }
    naive_solver.
  - intros ? ? ? [(-> & -> & ->)|(-> & -> & ->)]%echange_cas; done.
  - assert (forall o i n x, nomme l o i -> vivant l i n -> i <> 0%nat -> o = ps \/ o = pc -> name n = x ->
      exists dp, o = dp ++ [x] /\ nomme l dp (parent n) /\ pas_sous ms dp) as W.
    { intros o i n x H V H0 Ho <-. destruct H as [|dp i m Vm _ H]; [done|].
      rewrite (vivant_fun _ _ _ _ V Vm) in *. exists dp. split_and!; [done..|].
      by apply (echange_pas_sous dp (name m)). }
    intros ? ? ? [(-> & -> & ->)|(-> & -> & ->)]%echange_cas.
    + destruct (W pc c nc (name ns') Hpc Vc Hc0) as (dp & E & H & Hp); [by right|done|].
      exists ns', dp. rewrite Ps'. split_and!; [|done..]. apply echange_vivant. tauto.
    + destruct (W ps s ns (name nc') Hps Vs Hs0) as (dp & E & H & Hp); [by left|done|].
      exists nc', dp. rewrite Pc'. split_and!; [|done..]. apply echange_vivant. tauto.
  - intros ? ? ? ? ? ? [(-> & -> & ->)|(-> & -> & ->)]%echange_cas
      [(-> & -> & ->)|(-> & -> & ->)]%echange_cas; done.
Qed.

Lemma echange_place_libre : place_libre l l' ms.
Proof.
  split.
  - intros ? ? ? cs j [(-> & -> & ->)|(-> & -> & ->)]%echange_cas _ Hp Hn;
      [apply (Hn c pc ps)|apply (Hn s ps pc)]; set_solver.
  - intros ? ? ? ? ? ? [(-> & -> & ->)|(-> & -> & ->)]%echange_cas
      [(-> & -> & ->)|(-> & -> & ->)]%echange_cas; done.
  - intros ? ? ? [(-> & -> & ->)|(-> & -> & ->)]%echange_cas.
    + destruct (nomme_range l pc c nc A Hpc Vc Hc0) as (? & _ & q & ? & ?). exists ns, ns', q.
      rewrite Ns', Ps'. split_and!; try done. apply echange_vivant. tauto.
    + destruct (nomme_range l ps s ns A Hps Vs Hs0) as (? & _ & q & ? & ?). exists nc, nc', q.
      rewrite Nc', Pc'. split_and!; try done. apply echange_vivant. tauto.
Qed.

Lemma echange_ok : arbre_ok l'.
Proof. apply (deplace_ok l _ ms A echange_deplaces echange_place_libre). by rewrite !length_insert. Qed.

Lemma echange_nomme cs' i : nomme l' cs' i <-> exists cs, nomme l cs i /\ deplace_chemin ms cs cs'.
Proof. apply (deplace_nomme l _ ms A echange_deplaces). Qed.
End Echange.
End RamfsOps.
