(* ===== verification/Renommage.v ===== *)
(** The decision of a rename: what [rename], [renameat] and [renameat2] answer once the
    caller has resolved the source, the target directory and the target. *)

From S2P Require Import Prelude Ramfs.

Module Renommage.
Import Ramfs(POINT, POINT_POINT).

Definition RENAME_NOREPLACE : Z := 1.
Definition RENAME_EXCHANGE : Z := 2.
Definition RENAME_WHITEOUT : Z := 4.

Definition ENOENT : Z := 2.
Definition EBUSY : Z := 16.
Definition EEXIST : Z := 17.
Definition ENOTDIR : Z := 20.
Definition EISDIR : Z := 21.
Definition EINVAL : Z := 22.
Definition EROFS : Z := 30.
Definition ENAMETOOLONG : Z := 36.
Definition ENOTEMPTY : Z := 39.

Inductive Genre := Fichier | Dossier.
Record Noeud := mk_noeud { genre : Genre; racine : bool; disque : bool; vide : bool }.
Inductive Nom := Valide | Invalide | TropLong.
Inductive Parent := Absent | PasUnDossier | ParentDossier.
#[export] Instance Parent_eq_dec : EqDecision Parent.
Proof. solve_decision. Defined.
Record Demande := mk_demande {
  drapeaux : Z; source : option Noeud; parent_cible : Parent; nom_cible : Nom;
  cible : option Noeud; meme_noeud : bool; cible_sous_la_source : bool;
  source_sous_la_cible : bool
}.
Inductive Action := Rien | Deplacer | Remplacer | Echanger.

Definition est_dossier (g : Genre) : bool := match g with Dossier => true | Fichier => false end.
(** [drapeaux & bit != 0] *)
Definition porte (d bit : Z) : bool := negb (Z.land d bit =? 0).
Definition connus : Z := Z.lor (Z.lor RENAME_NOREPLACE RENAME_EXCHANGE) RENAME_WHITEOUT.

(** An early return [Err(code)] is [inr code]. *)
Definition puis (b : bool) (e : Z) (k : Action + Z) : Action + Z := if b then inr e else k.

Definition decide_cible (d : Demande) (s : Noeud) : Action + Z :=
  let echange := porte (drapeaux d) RENAME_EXCHANGE in
  match cible d with
  | None =>
      if echange then inr ENOENT
      else
        puis (est_dossier (genre s) && cible_sous_la_source d) EINVAL
        (puis (disque s) EROFS (inl Deplacer))
  | Some c =>
      if meme_noeud d then inl Rien
      else
        puis (est_dossier (genre s) && cible_sous_la_source d) EINVAL
        (puis (racine c) EBUSY
        (if echange then
           puis (est_dossier (genre c) && source_sous_la_cible d) EINVAL
           (puis (disque s || disque c) EROFS (inl Echanger))
         else
           match genre s, genre c with
           | Fichier, Dossier => inr EISDIR
           | Dossier, Fichier => inr ENOTDIR
           | Dossier, Dossier =>
               puis (negb (vide c)) ENOTEMPTY (puis (disque s || disque c) EROFS (inl Remplacer))
           | Fichier, Fichier => puis (disque s || disque c) EROFS (inl Remplacer)
           end))
  end.

Definition decide (d : Demande) : Action + Z :=
  puis (porte (drapeaux d) (Z.lxor (u32_max - 1) connus)) EINVAL
  (puis (porte (drapeaux d) RENAME_NOREPLACE && porte (drapeaux d) RENAME_EXCHANGE) EINVAL
  (puis (porte (drapeaux d) RENAME_WHITEOUT) EINVAL
  (match source d with
   | None => inr ENOENT
   | Some s =>
       puis (racine s) EBUSY
       (match parent_cible d with
        | Absent => inr ENOENT
        | PasUnDossier => inr ENOTDIR
        | ParentDossier =>
            match nom_cible d with
            | Invalide => inr EINVAL
            | TropLong => inr ENAMETOOLONG
            | Valide =>
                puis (porte (drapeaux d) RENAME_NOREPLACE && bool_decide (is_Some (cible d))) EEXIST
                (decide_cible d s)
            end
        end)
   end))).

Definition classe_nom (nom : list Z) (longueur_max : nat) : Nom :=
  if (length nom =? 0)%nat || bool_decide (nom = POINT) || bool_decide (nom = POINT_POINT)
  then Invalide
  else if (longueur_max <? length nom)%nat then TropLong else Valide.
End Renommage.
