(* ===== verification/RamfsAppels.v ===== *)
(** The file system calls that change the tree: directory creation, removal, rename, file
    creation and truncation, anonymous files; each resolves and changes under one lock. *)

From S2P Require Import Prelude Ramfs Renommage.

Module RamfsAppels.
Import Ramfs.
Open Scope Z_scope.
Open Scope os_scope.

Definition AT_FDCWD : Z := -100.
Definition AT_REMOVEDIR : Z := 512.
Definition O_CREAT : Z := 64.
Definition O_EXCL : Z := 128.
Definition O_TRUNC : Z := 512.
Definition O_DIRECTORY : Z := 65536.
Definition O_ACCMODE : Z := 3.
Definition O_WRONLY : Z := 1.
Definition O_RDWR : Z := 2.
Definition EBADF : Z := 9.
Definition EACCES : Z := 13.
Definition EFAULT : Z := 14.
Definition ENFILE : Z := 23.
Definition EFBIG : Z := 27.
Definition ENOSPC : Z := 28.
Import Renommage(ENOENT, EBUSY, EEXIST, ENOTDIR, EISDIR, EINVAL, EROFS, ENAMETOOLONG, ENOTEMPTY).

Inductive Mutation :=
| Create | Remove | RenameSource | RenameTarget | LinkTarget | SymlinkTarget | Chmod | Chown.

(** The parts of the kernel these calls consult: user memory, the directory a descriptor or
    the current directory designates, and the security policy, which may read the tree. *)
Record Noyau := mk_noyau {
  envir : Env;
  user_string : Z -> option (list Z);
  cwd : nat;
  dossier_de_fd : Z -> nat + Z;
  autorise : Monde -> Mutation -> list Z -> bool;
  autorise_ouverture : Monde -> Z -> list Z -> bool;
  existence_visible : Monde -> list Z -> bool
}.

Section Appels.
Context (k : Noyau).
#[local] Abbreviation env := (envir k).

(** An early return of a call. *)
Definition absolute_at (dirfd : Z) (path : list Z) : F (list Z + Z) :=
  if est_absolu path then rend (inl (normalize_absolute path))
  else
    match (if dirfd =? AT_FDCWD then inl (cwd k) else dossier_de_fd k dirfd) with
    | inr code => rend (inr code)
    | inl base_node =>
        l <- lis nodes ;;
        match path_string l base_node with
        | None => panique
        | Some base => rend (inl (canonical_from_base base path))
        end
    end.

Definition chemin_de (dirfd path_addr : Z) : F (list Z + Z) :=
  match user_string k path_addr with
  | None => rend (inr (- EFAULT))
  | Some raw => absolute_at dirfd raw
  end.
Definition security_recheck_mutation (path : list Z) (m : Mutation) : F (option Z) :=
  lis (fun w => if autorise k w m path then None else Some (- EACCES)).
Definition security_recheck_open (path : list Z) (flags : Z) : F (option Z) :=
  lis (fun w => if autorise_ouverture k w flags path then None else Some (- EACCES)).

Definition errno_creation (r : Refus) : Z :=
  match r with
  | InvalidName => ENAMETOOLONG
  | NoFreeInode => ENOSPC
  | ParentNotDir => ENOTDIR
  | AlreadyExists => EEXIST
  end.

Definition sys_mkdirat (dirfd path_addr mode : Z) : F Z :=
  c <- chemin_de dirfd path_addr ;;
  match c with
  | inr code => rend code
  | inl path =>
      deja <- lis (fun w => existence_visible k w path) ;;
      if (deja : bool) then rend (- EEXIST)
      else
        refus <- security_recheck_mutation path Create ;;
        match refus with
        | Some code => rend code
        | None =>
            l <- lis nodes ;;
            match resolve_parent_name l path 0 with
            | None => rend (- ENOENT)
            | Some (p, nom) =>
                if bool_decide (is_Some (find_child l p nom)) then rend (- EEXIST)
                else
                  r <- mkdir_at env p nom ;;
                  match r with
                  | inl node =>
                      modifie node (avec_droits (Z.land mode 511) (owner_uid env) (owner_gid env)) ;;;
                      rend 0
                  | inr raison => rend (- errno_creation raison)
                  end
            end
        end
  end.
Definition sys_mkdir (path_addr mode : Z) : F Z := sys_mkdirat AT_FDCWD path_addr mode.

Definition sys_unlinkat (dirfd path_addr flags : Z) : F Z :=
  if negb (Z.land flags (Z.lxor (u32_max - 1) AT_REMOVEDIR) =? 0) then rend (- EINVAL)
  else
    let retire_repertoire := negb (Z.land flags AT_REMOVEDIR =? 0) in
    c <- chemin_de dirfd path_addr ;;
    match c with
    | inr code => rend code
    | inl path =>
        refus <- security_recheck_mutation path Remove ;;
        match refus with
        | Some code => rend code
        | None =>
            l <- lis nodes ;;
            match resolve l path 0 with
            | None => rend (- ENOENT)
            | Some O => rend (- EBUSY)
            | Some node =>
                disque <- lis (fun w => is_disk_backed w node) ;;
                if (disque : bool) then rend (- EROFS)
                else
                  n <- noeud node ;;
                  let est_repertoire := est_dir (kind n) in
                  if retire_repertoire && negb est_repertoire then rend (- ENOTDIR)
                  else if negb retire_repertoire && est_repertoire then rend (- EISDIR)
                  else if est_repertoire && negb (is_empty_dir l node) then rend (- ENOTEMPTY)
                  else
                    touche env (parent n) ;;;
                    libere_noeud node ;;;
                    rend 0
            end
        end
    end.
Definition sys_unlink (path_addr : Z) : F Z := sys_unlinkat AT_FDCWD path_addr 0.
Definition sys_rmdir (path_addr : Z) : F Z := sys_unlinkat AT_FDCWD path_addr AT_REMOVEDIR.

(** *** Rename *)

Definition decrit (w : Monde) (i : nat) (n : Node) : Renommage.Noeud :=
  Renommage.mk_noeud
    (if est_dir (kind n) then Renommage.Dossier else Renommage.Fichier)
    (i =? 0)%nat (is_disk_backed w i)
    (negb (est_dir (kind n)) || is_empty_dir (nodes w) i).

(** [x] is [ancetre] or below it; the climb is bounded by the size of the table. *)
Fixpoint sous_boucle (fuel : nat) (l : list Node) (x ancetre : nat) : F bool :=
  match fuel with
  | O => rend true
  | S fuel =>
      if (x =? ancetre)%nat then rend true
      else if (x =? 0)%nat then rend false
      else match l !! x with
           | Some n => sous_boucle fuel l (parent n) ancetre
           | None => panique
           end
  end.
Definition sous (l : list Node) (x ancetre : nat) : F bool := sous_boucle (S (length l)) l x ancetre.

Definition decrit_option (o : option nat) : F (option Renommage.Noeud) :=
  match o with
  | None => rend None
  | Some i => n <- noeud i ;; w <- etat_courant ;; rend (Some (decrit w i n))
  end.

(** What the decision reads, the source, the target directory with the new name, and the
    target already there. *)
Definition demande_de (flags : Z) (from to : list Z)
  : F (Renommage.Demande * option nat * option nat * list Z * option nat) :=
  l <- lis nodes ;;
  let source := resolve l from 0 in
  let '(p, nom) := match resolve_parent_name l to 0 with
                   | Some (p, nom) => (Some p, nom)
                   | None => (None, [])
                   end in
  genre_p <- (match p with
              | None => rend Renommage.Absent
              | Some p => n <- noeud p ;;
                          rend (if est_dir (kind n) then Renommage.ParentDossier
                                else Renommage.PasUnDossier)
              end) ;;
  let cible := match p, genre_p with
               | Some p, Renommage.ParentDossier => find_child l p nom
               | _, _ => None
               end in
  ds <- decrit_option source ;;
  dc <- decrit_option cible ;;
  cs <- (match source, p with Some s, Some p => sous l p s | _, _ => rend false end) ;;
  sc <- (match source, cible with
         | Some s, Some c => n <- noeud s ;; sous l (parent n) c
         | _, _ => rend false
         end) ;;
  rend (Renommage.mk_demande flags ds genre_p (Renommage.classe_nom nom NAME_LEN) dc
          (bool_decide (is_Some source /\ cible = source)) cs sc,
        source, p, nom, cible).

Definition deplace (s p : nat) (nom : list Z) : F Z :=
  n <- noeud s ;;
  touche env (parent n) ;;;
  touche env p ;;;
  modifie s (avec_parent p) ;;;
  b <- set_name s nom ;;
  rend (if (b : bool) then 0 else - ENAMETOOLONG).
Definition echange (s c : nat) : F Z :=
  ns <- noeud s ;;
  nc <- noeud c ;;
  modifie s (fun n => avec_name (name nc) (avec_parent (parent nc) n)) ;;;
  modifie c (fun n => avec_name (name ns) (avec_parent (parent ns) n)) ;;;
  ns' <- noeud s ;;
  nc' <- noeud c ;;
  touche env (parent ns') ;;;
  touche env (parent nc') ;;;
  rend 0.

Definition renomme (flags : Z) (from to : list Z) : F Z :=
  d <- demande_de flags from to ;;
  let '(demande, source, p, nom, cible) := d in
  match Renommage.decide demande with
  | inr code => rend (- code)
  | inl action =>
      match source, p with
      | Some s, Some p =>
          match action with
          | Renommage.Rien => rend 0
          | Renommage.Deplacer => deplace s p nom
          | Renommage.Remplacer =>
              (match cible with Some c => libere_noeud c | None => rend tt end) ;;;
              deplace s p nom
          | Renommage.Echanger =>
              match cible with Some c => echange s c | None => rend (- ENOENT) end
          end
      | _, _ => rend (- EINVAL)
      end
  end.
Definition sys_renameat2 (olddirfd from_addr newdirfd to_addr flags : Z) : F Z :=
  match user_string k from_addr, user_string k to_addr with
  | None, _ | _, None => rend (- EFAULT)
  | Some from, Some to =>
      a <- absolute_at olddirfd from ;;
      match a with
      | inr code => rend code
      | inl from =>
          b <- absolute_at newdirfd to ;;
          match b with
          | inr code => rend code
          | inl to =>
              r1 <- security_recheck_mutation from RenameSource ;;
              match r1 with
              | Some code => rend code
              | None =>
                  r2 <- security_recheck_mutation to RenameTarget ;;
                  match r2 with
                  | Some code => rend code
                  | None => renomme flags from to
                  end
              end
          end
      end
  end.
Definition sys_rename (from_addr to_addr : Z) : F Z :=
  sys_renameat2 AT_FDCWD from_addr AT_FDCWD to_addr 0.

(** *** Contents *)

(** [content.resize(length, 0)] *)
Definition redimensionne (c : list Z) (length : Z) : list Z := resize (Z.to_nat length) 0 c.

Definition sys_truncate (path_addr length : Z) : F Z :=
  c <- chemin_de AT_FDCWD path_addr ;;
  match c with
  | inr code => rend code
  | inl path =>
      if MAX_FILE_SIZE <? length then rend (- EFBIG)
      else
        refus <- security_recheck_open path O_WRONLY ;;
        match refus with
        | Some code => rend code
        | None =>
            l <- lis nodes ;;
            match resolve l path 0 with
            | None => rend (- ENOENT)
            | Some node =>
                match l !! node with
                | None => rend (- ENOENT)
                | Some n =>
                    if negb (used n) then rend (- ENOENT)
                    else if est_dir (kind n) then rend (- EISDIR)
                    else
                      disque <- lis (fun w => is_disk_backed w node) ;;
                      if (disque : bool) then rend (- EROFS)
                      else
                        modifie node (fun n => avec_content (redimensionne (content n) length) n) ;;;
                        touche env node ;;;
                        rend 0
                end
            end
        end
  end.

(** The descriptor designates node [node]. *)
Definition ftruncate_noeud (node : nat) (length : Z) : F Z :=
  disque <- lis (fun w => is_disk_backed w node) ;;
  if (disque : bool) then rend (- EROFS)
  else if MAX_FILE_SIZE <? length then rend (- EFBIG)
  else
    modifie node (fun n => avec_content (redimensionne (content n) length) n) ;;;
    touche env node ;;;
    rend 0.

(** *** Opening *)

(** The node an [openat] designates, created when asked for. The first resolution and the
    creation hold the lock separately: [entre] is what other tasks do in between. *)
Definition ouvre_noeud (entre : F unit) (path : list Z) (flags mode : Z) : F (nat + Z) :=
  l <- lis nodes ;;
  match resolve l path (cwd k) with
  | Some node =>
      if Z.land flags (Z.lor O_CREAT O_EXCL) =? Z.lor O_CREAT O_EXCL then rend (inr (- EEXIST))
      else rend (inl node)
  | None =>
      if Z.land flags O_CREAT =? 0 then rend (inr (- ENOENT))
      else
        entre ;;;
        l <- lis nodes ;;
        match resolve_parent_name l path (cwd k) with
        | None => rend (inr (- ENOENT))
        | Some (p, nom) =>
            match find_child l p nom with
            | Some deja =>
                if negb (Z.land flags O_EXCL =? 0) then rend (inr (- EEXIST)) else rend (inl deja)
            | None =>
                r <- touch_at env p nom ;;
                match r with
                | inl node =>
                    modifie node (avec_droits (Z.land mode 511) (owner_uid env) (owner_gid env)) ;;;
                    rend (inl node)
                | inr raison => rend (inr (- errno_creation raison))
                end
            end
        end
  end.

(** The checks on the node and the truncation; the length the descriptor starts from. *)
Definition prepare_ouverture (node : nat) (flags : Z) : F ((bool * Z) + Z) :=
  n <- noeud node ;;
  let is_dir := est_dir (kind n) in
  if negb (Z.land flags O_DIRECTORY =? 0) && negb is_dir then rend (inr (- ENOTDIR))
  else
    let access := Z.land flags O_ACCMODE in
    let ecrit := (access =? O_WRONLY) || (access =? O_RDWR) in
    if is_dir && ecrit then rend (inr (- EISDIR))
    else
      disque <- lis (fun w => is_disk_backed w node) ;;
      if negb is_dir && disque && (ecrit || negb (Z.land flags O_TRUNC =? 0)) then rend (inr (- EROFS))
      else
        (if negb (Z.land flags O_TRUNC =? 0) && negb is_dir
         then modifie node (avec_content []) ;;; touche env node else rend tt) ;;;
        n <- noeud node ;;
        rend (inl (is_dir, content_len n)).

(** An [openat] of a file of the tree, up to the descriptor: the node, whether it is a
    directory, and its length. *)
Definition openat_noeud (entre : F unit) (dirfd path_addr flags mode : Z) : F ((nat * bool * Z) + Z) :=
  c <- chemin_de dirfd path_addr ;;
  match c with
  | inr code => rend (inr code)
  | inl path =>
      refus <- security_recheck_open path flags ;;
      match refus with
      | Some code => rend (inr code)
      | None =>
          r <- ouvre_noeud entre path flags mode ;;
          match r with
          | inr code => rend (inr code)
          | inl node =>
              p <- prepare_ouverture node flags ;;
              rend match p with inl (is_dir, longueur) => inl (node, is_dir, longueur) | inr code => inr code end
          end
      end
  end.

Definition memfd_noeud (nom_addr : Z) : F (nat + Z) :=
  match user_string k nom_addr with
  | None => rend (inr (- EFAULT))
  | Some nom =>
      r <- cree_anonyme env nom ;;
      match r with
      | inr _ => rend (inr (- ENFILE))
      | inl idx =>
          modifie idx (fun n => avec_droits (mode n) (owner_uid env) (owner_gid env) n) ;;;
          rend (inl idx)
      end
  end.
End Appels.
End RamfsAppels.
