(* ===== verification/RamfsChemins.v ===== *)
(** Paths as bytes: the scan of [resolve] agrees with splitting at slashes, normal forms are
    printed lists of components, and the printed path of a node resolves to it. *)

From S2P Require Import Prelude Ramfs RamfsProofs RamfsOps.

Module RamfsChemins.
Import Ramfs RamfsProofs RamfsArbre.
Open Scope Z_scope.

(** ** Splitting *)

Definition non_vide (s : list Z) : Prop := s <> [].
#[export] Instance non_vide_dec s : Decision (non_vide s).
Proof. unfold non_vide. apply _. Defined.

Lemma decoupe_non_nil p : decoupe p <> [].
Proof. destruct p as [|c p]; cbn; [done|]. case (c =? SLASH); [done|]. by destruct (decoupe p). Qed.

Lemma decoupe_app a b :
  ~ (SLASH ∈ a) -> decoupe (a ++ SLASH :: b) = a :: decoupe b.
Proof.
  induction a as [|c a IH]; intros Ha; [done|]. cbn [app decoupe].
  destruct (Z.eqb_spec c SLASH) as [->|]; [set_solver|]. rewrite IH by set_solver. done.
Qed.

Lemma decoupe_sans a : ~ (SLASH ∈ a) -> decoupe a = [a].
Proof.
  induction a as [|c a IH]; intros Ha; [done|]. cbn [decoupe].
  destruct (Z.eqb_spec c SLASH) as [->|]; [set_solver|]. rewrite IH by set_solver. done.
Qed.

Lemma decoupe_sans_slash p : Forall (fun s => ~ (SLASH ∈ s)) (decoupe p).
Proof.
  induction p as [|c p IH]; cbn [decoupe]; [apply Forall_singleton; set_solver|].
  destruct (Z.eqb_spec c SLASH) as [->|]; [apply Forall_cons; split; [set_solver|done]|].
  destruct (decoupe p) as [|a r]; [apply Forall_singleton; set_solver|].
  apply Forall_cons in IH as [Ha Hr]. apply Forall_cons. split; [set_solver|done].
Qed.

Lemma filtre_vide r : filter non_vide ([] :: r) = filter non_vide r.
Proof. apply filter_cons_False. unfold non_vide. tauto. Qed.

(** ** The scan of [resolve] *)

Lemma jusqu_slash_spec p a b :
  jusqu_slash p = (a, b) ->
  p = a ++ b /\ ~ (SLASH ∈ a) /\ (b = [] \/ exists b', b = SLASH :: b').
Proof.
  revert a b. induction p as [|c p IH]; intros a b E; cbn in E; simplify_eq/=.
  { split_and!; [done|set_solver|by left]. }
  destruct (Z.eqb_spec c SLASH) as [->|Hc]; simplify_eq/=.
  { split_and!; [done|set_solver|eauto]. }
  destruct (jusqu_slash p) as [a' b']. simplify_eq. destruct (IH a' b eq_refl) as (-> & ? & ?).
  split_and!; [done|set_solver|done].
Qed.

Lemma saute_slash_spec p :
  (length (saute_slash p) <= length p)%nat /\
  filter non_vide (decoupe (saute_slash p)) = filter non_vide (decoupe p) /\
  (saute_slash p = [] \/ exists c t, saute_slash p = c :: t /\ c <> SLASH).
Proof.
  induction p as [|c p (IHl & IHf & IHh)]; cbn [saute_slash]; [by split_and!; [..|left]|].
  destruct (Z.eqb_spec c SLASH) as [->|Hc]; [|split_and!; eauto].
  split_and!; [cbn; lia| |done]. rewrite IHf.
  change (decoupe (SLASH :: p)) with ([] :: decoupe p). by rewrite filtre_vide.
Qed.

Lemma morceaux_decoupe fuel p :
  (length p <= fuel)%nat -> morceaux fuel p = filter non_vide (decoupe p).
Proof.
  revert p. induction fuel as [|fuel IH]; intros p Hf.
  { destruct p; [done|cbn in Hf; lia]. }
  cbn [morceaux]. destruct (saute_slash_spec p) as (Hl & <- & [->|(c & t & E & Hc)]).
  { change (decoupe []) with [[] : list Z]. by rewrite filtre_vide. }
  rewrite E in *. destruct (jusqu_slash (c :: t)) as [a b] eqn:J.
  destruct (jusqu_slash_spec _ _ _ J) as (Ep & Ha & Hb). rewrite Ep in *.
  assert (a <> []) as Hn.
  { intros ->. cbn in Ep. destruct Hb as [->|[b' ->]]; [done|congruence]. }
  assert (length a <> 0)%nat by (by destruct a). rewrite length_app in Hl.
  rewrite IH by lia. destruct Hb as [->|[b' ->]].
  - rewrite app_nil_r, (decoupe_sans a), (filter_cons_True _ a) by done.
    change (decoupe []) with [[] : list Z]. by rewrite filtre_vide.
  - rewrite decoupe_app, filter_cons_True by done.
    change (decoupe (SLASH :: b')) with ([] :: decoupe b'). by rewrite filtre_vide.
Qed.

Lemma composants_decoupe p : composants p = filter non_vide (decoupe p).
Proof. by apply morceaux_decoupe. Qed.

(** ** Printed components *)

Definition imprime (cs : chemin) : list Z := mjoin ((fun s => SLASH :: s) <$> cs).

Lemma joint_imprime cs : cs <> [] -> joint cs = imprime cs.
Proof. by destruct cs. Qed.
Lemma imprime_app cs ds : imprime (cs ++ ds) = imprime cs ++ imprime ds.
Proof. unfold imprime. by rewrite fmap_app, join_app. Qed.
Lemma imprime_un x : imprime [x] = SLASH :: x.
Proof. unfold imprime. cbn. by rewrite app_nil_r. Qed.

Definition sans_slash (s : list Z) : Prop := ~ (SLASH ∈ s).

Lemma decoupe_imprime cs :
  Forall sans_slash cs -> decoupe (imprime cs) = [] :: cs \/ (cs = [] /\ imprime cs = []).
Proof.
  intros H. destruct cs as [|c cs]; [by right|left]. revert c H.
  induction cs as [|d cs IH]; intros c [Hc H]%Forall_cons.
  - rewrite imprime_un. cbn [decoupe]. by rewrite decoupe_sans.
  - change (imprime (c :: d :: cs)) with (SLASH :: c ++ imprime (d :: cs)).
    change (imprime (d :: cs)) with (SLASH :: d ++ imprime cs).
    change (decoupe (SLASH :: c ++ SLASH :: d ++ imprime cs))
      with ([] :: decoupe (c ++ SLASH :: d ++ imprime cs)).
    rewrite decoupe_app by done. specialize (IH d H).
    change ([] :: decoupe (d ++ imprime cs) = [] :: d :: cs) in IH. injection IH as IH. by rewrite IH.
Qed.

Lemma composant_filtre cs : Forall composant cs -> filter non_vide cs = cs.
Proof.
  induction 1 as [|c cs [Hc _] _ IH]; [done|]. by rewrite filter_cons_True, IH.
Qed.
Lemma composant_sans cs : Forall composant cs -> Forall sans_slash cs.
Proof. intros H. eapply Forall_impl; [exact H|]. by intros ? (? & ? & ?). Qed.

Lemma composants_joint cs : Forall composant cs -> composants (joint cs) = cs.
Proof.
  intros H. rewrite composants_decoupe. destruct (decide (cs = [])) as [->|Hne]; [done|].
  rewrite joint_imprime by done.
  destruct (decoupe_imprime cs (composant_sans _ H)) as [->|[-> _]]; [|done].
  rewrite filtre_vide. by apply composant_filtre.
Qed.

Lemma resolve_joint l cs w :
  Forall composant cs -> resolve l (joint cs) w = suit_composants l 0 cs.
Proof.
  intros H. pose proof (composants_joint cs H) as E. unfold resolve.
  assert (exists t, joint cs = SLASH :: t) as [t Et] by (destruct cs; [by exists []|by eexists]).
  rewrite Et in *. cbn [est_absolu]. by rewrite E, Z.eqb_refl.
Qed.

(** ** The last name of a path *)

Lemma rogne_inverse_id r : (forall c t, r = c :: t -> c <> SLASH) -> rogne_inverse r = r.
Proof.
  destruct r as [|c [|d t]]; intros H; [done..|]. cbn [rogne_inverse].
  destruct (Z.eqb_spec c SLASH) as [->|]; [by destruct (H SLASH (d :: t))|done].
Qed.

Lemma dernier_slash_app a x :
  ~ (SLASH ∈ x) -> dernier_slash (a ++ SLASH :: x) = Some (length a).
Proof.
  intros Hx. unfold dernier_slash. rewrite imap_app, foldl_app, imap_cons. cbn [foldl].
  assert (forall acc k, foldl (fun acc '(i, c) => if c =? SLASH then Some i else acc) acc
            (imap (fun i c => (k + i, c)%nat) x) = acc) as W.
  { clear -Hx. induction x as [|c x IH]; intros acc k; [done|]. rewrite imap_cons. cbn [foldl].
    destruct (Z.eqb_spec c SLASH) as [->|]; [set_solver|].
    rewrite (imap_ext _ (fun i c => (S k + i, c)%nat)) by (intros; cbn; f_equal; lia).
    apply IH. set_solver. }
  rewrite Z.eqb_refl. cbn. specialize (W (Some (length a + 0)%nat) (S (length a))).
  rewrite Nat.add_0_r in *. etrans; [|exact W]. f_equal.
  apply imap_ext. intros i c _. cbn. f_equal. lia.
Qed.

Lemma separe_joint cs x :
  Forall composant (cs ++ [x]) -> separe (joint (cs ++ [x])) = Some (Some (imprime cs), x).
Proof.
  intros H. apply Forall_app in H as [_ Hx]. apply Forall_singleton in Hx as (Hn & Hs & _).
  unfold separe. rewrite joint_imprime by (by destruct cs). rewrite imprime_app, imprime_un.
  assert (rogne (imprime cs ++ SLASH :: x) = imprime cs ++ SLASH :: x) as ->.
  { unfold rogne. rewrite rogne_inverse_id; [apply reverse_involutive|].
    intros c t E ->. rewrite reverse_app, reverse_cons, <-app_assoc in E.
    destruct (reverse x) as [|y r] eqn:R.
    - apply (f_equal reverse) in R. rewrite reverse_involutive in R. done.
    - cbn in E. injection E as -> _. apply Hs. rewrite <-(reverse_involutive x), R, reverse_cons. set_solver. }
  rewrite (bool_decide_false (_ = [])) by (by destruct (imprime cs)).
  rewrite bool_decide_false; [cbn [orb]|].
  2:{ intros E. apply (f_equal length) in E. rewrite length_app in E. cbn in E.
      apply Hn, nil_length_inv. lia. }
  rewrite dernier_slash_app by done. rewrite take_app_length.
  rewrite drop_app_ge by lia. replace (S (length (imprime cs)) - length (imprime cs))%nat with 1%nat by lia.
  done.
Qed.

Lemma resolve_parent_joint l cs x w :
  Forall composant (cs ++ [x]) ->
  resolve_parent_name l (joint (cs ++ [x])) w = (suit_composants l 0 cs ≫= fun p => Some (p, x)).
Proof.
  intros H. unfold resolve_parent_name. rewrite separe_joint by done.
  apply Forall_app in H as [H _]. destruct (imprime cs) as [|c t] eqn:E; [by destruct cs|].
  assert (cs <> []) by (by destruct cs). rewrite <-E, <-joint_imprime, resolve_joint by done. done.
Qed.
Lemma resolve_parent_racine l w : resolve_parent_name l (joint []) w = None.
Proof. done. Qed.

(** ** Normal forms *)

Lemma empile_filtre parts ms : empile parts (filter non_vide ms) = empile parts ms.
Proof.
  revert parts. induction ms as [|m ms IH]; intros parts; [done|]. destruct (decide (non_vide m)) as [H|H].
  - rewrite filter_cons_True by done. cbn [empile]. by rewrite !IH.
  - rewrite filter_cons_False by done. rewrite IH. cbn [empile].
    destruct m; [done|]. exfalso. by apply H.
Qed.

Lemma empile_composants parts ms :
  Forall composant parts -> Forall sans_slash ms -> Forall composant (empile parts ms).
Proof.
  intros Hp Hm. revert parts Hp. induction Hm as [|m ms Hm _ IH]; intros parts Hp; [done|]. cbn [empile].
  destruct (Nat.eqb_spec (length m) 0) as [|Hl]; cbn [orb]; [by apply IH|].
  case_bool_decide; [by apply IH|]. case_bool_decide; apply IH.
  - destruct parts as [|y parts _] using rev_ind; [done|]. rewrite removelast_last.
    by apply Forall_app in Hp as [? _].
  - apply Forall_app_2; [done|]. apply Forall_singleton. split_and!; try done. by intros ->.
Qed.

Lemma normalise_spec p : exists cs,
  normalize_absolute p = joint cs /\ Forall composant cs /\ cs = empile [] (composants p).
Proof.
  exists (empile [] (decoupe p)). split_and!; [done| |].
  - apply empile_composants; [done|apply decoupe_sans_slash].
  - by rewrite composants_decoupe, empile_filtre.
Qed.

Lemma canonical_spec base p : exists cs, canonical_from_base base p = joint cs /\ Forall composant cs.
Proof.
  unfold canonical_from_base. case_match.
  - destruct (normalise_spec p) as (cs & ? & ? & _). eauto.
  - edestruct normalise_spec as (cs & ? & ? & _). eauto.
Qed.

(** Climbing and descending by the resolver stays on the lexical normal form. *)
Lemma empile_nomme l ms : forall parts cur i,
  arbre_ok l -> Forall non_vide ms -> nomme l parts cur ->
  suit_composants l cur ms = Some i -> nomme l (empile parts ms) i.
Proof.
  induction ms as [|m ms IH]; intros parts cur i A Hm H E; cbn in *.
  { by simplify_eq. }
  apply Forall_cons in Hm as [Hm Hms].
  destruct (Nat.eqb_spec (length m) 0) as [Hl|_]; cbn [orb]; [by destruct m|].
  case_bool_decide; [by eapply IH|]. case_bool_decide.
  - destruct (l !! cur) as [n|] eqn:En; [|done]. cbn in E. eapply IH; [done..| |exact E].
    destruct (nomme_vivant l parts cur A H) as [n' [En' U]]. rewrite En in En'. injection En' as <-.
    destruct H as [|cs i' m' V' _ H'].
    + destruct (ao_racine l A) as (r & [Er _] & _ & Hr & _). rewrite En in Er. injection Er as <-.
      rewrite Hr. constructor.
    + rewrite removelast_last. destruct V'. by simplify_eq.
  - destruct (find_child l cur m) as [j|] eqn:Ef; [|done]. cbn in E. eapply IH; [done..| |exact E].
    eapply find_child_nomme; [done..|by right|done].
Qed.

(** ** The path of a node *)

Lemma build_path_nomme l cs i :
  nomme l cs i -> forall fuel, (length cs <= fuel)%nat -> build_path fuel l i = Some (imprime cs).
Proof.
  induction 1 as [|cs i n [E U] H0 _ IH]; intros fuel Hf; [by destruct fuel|].
  rewrite length_app in Hf. cbn in Hf. destruct fuel as [|fuel]; [lia|]. cbn [build_path].
  destruct i as [|i]; [done|]. rewrite E. cbn. rewrite IH by lia. cbn.
  by rewrite imprime_app, imprime_un.
Qed.

Lemma path_string_nomme l cs i :
  arbre_ok l -> nomme l cs i -> path_string l i = Some (joint cs).
Proof.
  intros A H. pose proof (profondeur l cs i A H). unfold path_string, path_string_fuel.
  rewrite (build_path_nomme l cs i H) by lia. cbn. destruct cs as [|c cs]; done.
Qed.

Lemma nomme_composants l cs i : arbre_ok l -> nomme l cs i -> Forall composant cs.
Proof.
  intros A H. eapply Forall_impl; [by eapply nomme_noms|]. by intros ? [? _].
Qed.
End RamfsChemins.

(** What each operation on the table does to it, as total-correctness triples. *)

Module RamfsSpecs.
Import Ramfs RamfsProofs RamfsArbre RamfsOps.
Open Scope Z_scope.
Open Scope os_scope.

(** What no operation on the tree touches. *)
Definition cadre (w w' : Monde) : Prop :=
  extents w' = extents w /\ racine_persistante w' = racine_persistante w.
#[export] Instance cadre_preorder : PreOrder cadre.
Proof. split; [done|]. intros ??? [] []. split; congruence. Qed.

(** From [w] to [w'] the table became [l], up to times, and the mirror [u]. *)
Definition devient (w : Monde) (l : list Node) (u : Z) (w' : Monde) : Prop :=
  nodes w' ≡ l /\ used_relaxed w' = u /\ cadre w w'.

Lemma devient_id w : devient w (nodes w) (used_relaxed w) w.
Proof. done. Qed.

Lemma devient_trans w l u w' l' u' w'' :
  devient w l u w' -> devient w' l' u' w'' -> devient w l' u' w''.
Proof. intros (_ & _ & C) (? & ? & C'). split_and!; [done..|]. by etrans. Qed.

Lemma devient_equiv w l l' u w' : devient w l u w' -> l ≡ l' -> devient w l' u w'.
Proof. intros (H & ? & ?) E. split_and!; [by rewrite H|done..]. Qed.

(** ** Cells *)

Lemma wp_lis {A} (f : Monde -> A) Q w : Q w (f w) -> wp (lis f) Q w.
Proof. done. Qed.
Lemma wp_noeud i n Q w : nodes w !! i = Some n -> Q w n -> wp (noeud i) Q w.
Proof. unfold wp, noeud. by intros ->. Qed.
Lemma wp_modifie i f n Q w :
  nodes w !! i = Some n -> Q (avec_nodes (<[i := f n]> (nodes w)) w) tt -> wp (modifie i f) Q w.
Proof. unfold wp, modifie. by intros ->. Qed.

(** The changes of one cell, one after the other. *)
Lemma wp_modifie_suite {A} i f n (k : F A) Q w :
  nodes w !! i = Some n -> wp k Q (avec_nodes (<[i := f n]> (nodes w)) w) ->
  wp (modifie i f ;;; k) Q w.
Proof. intros E H. apply wp_lie. by eapply wp_modifie. Qed.

Lemma table_longueur (l l' : list Node) : l ≡ l' -> length l = length l'.
Proof. intros H. apply meme_arbre_longueur. by rewrite H. Qed.

Section Operations.
Context (env : Env).

Lemma touche_spec i w :
  length (nodes w) = MAX_NODES ->
  wp (touche env i) (fun w' _ => devient w (nodes w) (used_relaxed w) w') w.
Proof.
  intros Hl. unfold touche. destruct (Nat.ltb_spec i MAX_NODES) as [Hi|]; [|done].
  destruct (lookup_lt_is_Some_2 (nodes w) i) as [n E]; [lia|].
  apply wp_lie. unfold wp at 1, heure. eapply wp_modifie_suite; [exact E|].
  assert (<[i := avec_mtime (unix_time env (tic w)) n]> (nodes w) ≡ nodes w) as Ht
    by (by eapply insert_meme_corps).
  apply wp_lie, wp_lis. destruct (sous_persistant _ _); (split_and!; [exact Ht|done..]).
Qed.

(** The mirror counts the live cells, so a free cell means it is not full. *)
Lemma used_nodes_mort l i m :
  l !! i = Some m -> used m = false -> (used_nodes l < length l)%nat.
Proof.
  intros E U. pose proof (used_nodes_insert l i m (avec_used true m) E) as H. rewrite U in H. cbn in H.
  assert (forall l, used_nodes l <= length l)%nat as B.
  { intros l'. unfold used_nodes. apply length_filter. }
  specialize (B (<[i := avec_used true m]> l)). rewrite length_insert in B. lia.
Qed.

Lemma premier_inode_libre l i :
  premier_libre l = Some i -> exists m, l !! i = Some m /\ used m = false /\ i <> 0%nat.
Proof.
  unfold premier_libre. destruct (list_find _ _) as [[j m]|] eqn:E; intros; simplify_eq/=.
  apply list_find_Some in E as (E & U & _). rewrite lookup_drop in E. exists m.
  by replace (1 + j)%nat with (S j) in E by lia.
Qed.

Lemma monde_ok_used w : monde_ok w -> 0 <= used_relaxed w <= Z.of_nat MAX_NODES.
Proof.
  intros [A ->]. rewrite <-(ao_longueur _ A). split; [lia|]. unfold used_nodes.
  apply inj_le, length_filter.
Qed.

Lemma MAX_NODES_valeur : Z.of_nat MAX_NODES = 4096.
Proof. done. Qed.

Lemma alloc_node_spec w :
  monde_ok w ->
  wp (alloc_node env) (fun w' r =>
    match r with
    | None => w' = w /\ premier_libre (nodes w) = None
    | Some i => premier_libre (nodes w) = Some i /\ i <> 0%nat /\
        (exists m, nodes w !! i = Some m /\ used m = false) /\
        (exists t, nodes w' = <[i := avec_mtime t (avec_used true empty)]> (nodes w)) /\
        used_relaxed w' = used_relaxed w + 1 /\ cadre w w'
    end) w.
Proof.
  intros Hw. pose proof (monde_ok_used w Hw) as Hb. destruct Hw as [A Hu]. unfold alloc_node.
  apply wp_lie, wp_lis. destruct (premier_libre (nodes w)) as [i|] eqn:E; [|done].
  destruct (premier_inode_libre _ _ E) as (m & Em & Um & H0).
  pose proof (used_nodes_mort _ _ _ Em Um) as Hlt. rewrite (ao_longueur _ A) in Hlt.
  apply wp_lie. unfold wp at 1, heure. eapply wp_modifie_suite; [exact Em|].
  apply wp_lie, wp_lis. apply wp_lie. unfold wp at 1, change. cbn [used_relaxed avec_nodes avance].
  pose proof MAX_NODES_valeur. destruct (Z.leb_spec (Z.of_nat MAX_NODES) (used_relaxed w)); [lia|].
  split_and!; [done..|eauto|by eexists| |done]. cbn. unfold wrapping_add64, u64_max.
  rewrite Z.mod_small; lia.
Qed.

(** ** Installing *)

Definition neuf (k : NodeKind) (p : nat) (s : list Z) (m u g : Z) : Node :=
  mk_node true k p s [] m u g 0.

Definition refus_installe (l : list Node) (s : list Z) (e : Refus) : Prop :=
  (e = InvalidName /\ nom_acceptable s = false) \/
  (e = NoFreeInode /\ nom_acceptable s = true /\ premier_libre l = None).

(** The cell [i] was free; it now holds a new node. *)
Definition installe_en (w : Monde) (n : Node) (i : nat) (w' : Monde) : Prop :=
  premier_libre (nodes w) = Some i /\ i <> 0%nat /\
  (exists m, nodes w !! i = Some m /\ used m = false) /\
  devient w (<[i := n]> (nodes w)) (used_relaxed w + 1) w'.

Lemma installe_spec k d p s w :
  monde_ok w ->
  wp (installe env k d p s) (fun w' r =>
    match r with
    | inr e => w' = w /\ refus_installe (nodes w) s e
    | inl i => nom_acceptable s = true /\ installe_en w (neuf k p s d (s_uid env) (s_gid env)) i w'
    end) w.
Proof.
  intros Hw. unfold installe. destruct (nom_acceptable s) eqn:Hs; cbn [negb]; [|by split; [|left]].
  exec alloc_node_spec; [done|]. intros w1 [i|]; [|intros [-> E]; by split; [|right]].
  intros (Ep & Hi0 & (m & Em & Um) & (t & E1) & Hu & C).
  assert (i < length (nodes w))%nat as Hi by (by eapply lookup_lt_Some).
  repeat (eapply wp_modifie_suite;
    [cbn [nodes avec_nodes]; rewrite ?E1, ?list_insert_insert_eq, list_lookup_insert_eq by done; done|]).
  cbn [nodes avec_nodes]. apply wp_lie. unfold set_name. rewrite Hs.
  eapply wp_modifie_suite.
  { cbn [nodes avec_nodes]. rewrite E1, !list_insert_insert_eq, list_lookup_insert_eq by done. done. }
  cbn [nodes avec_nodes]. unfold wp at 1, rend. cbn [negb].
  rewrite E1, !list_insert_insert_eq. exec touche_spec.
  { cbn. rewrite length_insert. apply Hw. }
  intros w2 _ (E2 & Hu2 & C2). split; [done|]. split_and!; [done..|eauto|].
  split_and!; [|rewrite Hu2; exact Hu|etrans; [exact C|exact C2]].
  rewrite E2. cbn. by apply insert_corps.
Qed.

Definition refus_cree (l : list Node) (p : nat) (n : Node) (s : list Z) (e : Refus) : Prop :=
  (e = ParentNotDir /\ kind n <> Dir) \/
  (kind n = Dir /\ find_child l p s = None /\ refus_installe l s e).

Lemma est_dir_spec k : est_dir k = true <-> k = Dir.
Proof. by destruct k. Qed.

Lemma mkdir_at_spec p s n w :
  monde_ok w -> nodes w !! p = Some n ->
  wp (mkdir_at env p s) (fun w' r =>
    match r with
    | inr e => w' = w /\ (refus_cree (nodes w) p n s e \/
                          (e = AlreadyExists /\ is_Some (find_child (nodes w) p s)))
    | inl i => kind n = Dir /\ find_child (nodes w) p s = None /\ nom_acceptable s = true /\
               installe_en w (neuf Dir p s 493 (s_uid env) (s_gid env)) i w'
    end) w.
Proof.
  intros Hw E. unfold mkdir_at. apply wp_lie. eapply wp_noeud; [exact E|].
  destruct (kind n) eqn:K; cbn [est_dir negb]; [split; [done|left; left; by rewrite K]|].
  apply wp_lie, wp_lis. destruct (find_child (nodes w) p s) eqn:Ef; [split; [done|right; eauto]|].
  eapply wp_mono; [by apply installe_spec|]. intros w' [i|e]; [naive_solver|].
  intros [-> H]. split; [done|]. left. by right.
Qed.

Lemma touch_at_spec p s n w :
  monde_ok w -> nodes w !! p = Some n ->
  wp (touch_at env p s) (fun w' r =>
    match r with
    | inr e => w' = w /\ refus_cree (nodes w) p n s e
    | inl i => kind n = Dir /\
       ((w' = w /\ find_child (nodes w) p s = Some i) \/
        (find_child (nodes w) p s = None /\ nom_acceptable s = true /\
         installe_en w (neuf File p s 420 (s_uid env) (s_gid env)) i w'))
    end) w.
Proof.
  intros Hw E. unfold touch_at. apply wp_lie. eapply wp_noeud; [exact E|].
  destruct (kind n) eqn:K; cbn [est_dir negb]; [split; [done|left; by rewrite K]|].
  apply wp_lie, wp_lis. destruct (find_child (nodes w) p s) eqn:Ef; [split; [done|by left]|].
  eapply wp_mono; [by apply installe_spec|]. intros w' [i|e]; [naive_solver|].
  intros [-> H]. split; [done|]. by right.
Qed.

Lemma cree_anonyme_spec nom w :
  monde_ok w ->
  wp (cree_anonyme env nom) (fun w' r =>
    match r with
    | inr e => w' = w /\ e = NoFreeInode /\ premier_libre (nodes w) = None
    | inl i => installe_en w (neuf File i (if nom_acceptable (MEMFD ++ nom) then MEMFD ++ nom else [])
                                384 (s_uid env) (s_gid env)) i w'
    end) w.
Proof.
  intros Hw. unfold cree_anonyme. exec alloc_node_spec; [done|].
  intros w1 [i|]; [|by intros [-> E]]. intros (Ep & Hi0 & (m & Em & Um) & (t & E1) & Hu & C).
  assert (i < length (nodes w))%nat as Hi by (by eapply lookup_lt_Some).
  repeat (eapply wp_modifie_suite;
    [cbn [nodes avec_nodes]; rewrite ?E1, ?list_insert_insert_eq, list_lookup_insert_eq by done; done|]).
  cbn [nodes avec_nodes]. apply wp_lie. unfold set_name.
  destruct (nom_acceptable (MEMFD ++ nom)).
  - eapply wp_modifie_suite.
    { cbn [nodes avec_nodes]. rewrite E1, !list_insert_insert_eq, list_lookup_insert_eq by done. done. }
    cbn [nodes avec_nodes]. unfold wp, rend. split_and!; [done..|eauto|].
    split_and!; [|exact Hu|exact C]. cbn. rewrite E1, !list_insert_insert_eq. by apply insert_corps.
  - unfold wp, rend. split_and!; [done..|eauto|]. split_and!; [|exact Hu|exact C].
    cbn. rewrite E1, !list_insert_insert_eq. by apply insert_corps.
Qed.

(** ** Freeing *)

Lemma rend_compte_spec w :
  0 < used_relaxed w <= Z.of_nat MAX_NODES ->
  wp rend_compte (fun w' _ => w' = avec_used_relaxed (used_relaxed w - 1) w) w.
Proof.
  intros Hu. unfold rend_compte. apply wp_lie, wp_lis. apply wp_lie. unfold wp at 1, change.
  destruct (Z.eqb_spec (used_relaxed w) 0); [lia|]. pose proof MAX_NODES_valeur.
  unfold wp, rend. f_equal. unfold wrapping_add64, u64_max.
  replace (used_relaxed w + (2 ^ 64 - 1)) with (used_relaxed w - 1 + 1 * 2 ^ 64) by lia.
  rewrite Z.mod_add, Z.mod_small; lia.
Qed.

Lemma vivant_compte w i n : monde_ok w -> vivant (nodes w) i n -> 0 < used_relaxed w.
Proof.
  intros [A ->] [E U]. pose proof (used_nodes_insert _ i n (avec_used false n) E) as H.
  rewrite U in H. cbn in H. lia.
Qed.

Lemma libere_noeud_spec i n w :
  monde_ok w -> vivant (nodes w) i n -> i <> 0%nat ->
  wp (libere_noeud i) (fun w' _ =>
    devient w (<[i := avec_content [] (avec_used false n)]> (nodes w)) (used_relaxed w - 1) w') w.
Proof.
  intros Hw V H0. pose proof (vivant_compte w i n Hw V) as Hp. pose proof (monde_ok_used w Hw) as Hb.
  pose proof (vivant_lt _ _ _ V) as Hi. destruct Hw as [A _]. rewrite (ao_longueur _ A) in Hi.
  unfold libere_noeud. apply wp_lie, wp_lis. destruct V as [E U]. rewrite E, U.
  destruct (Nat.eqb_spec i 0); [done|]. destruct (Nat.leb_spec MAX_NODES i); [lia|]. cbn [orb negb].
  apply wp_lie, wp_lis. apply wp_lie.
  assert (forall w', nodes w' = nodes w -> used_relaxed w' = used_relaxed w -> cadre w w' ->
    wp (modifie i (avec_used false) ;;; modifie i (avec_content []) ;;; rend_compte) (fun w' _ =>
      devient w (<[i := avec_content [] (avec_used false n)]> (nodes w)) (used_relaxed w - 1) w') w') as W.
  { intros w' En Eu C. eapply wp_modifie_suite; [by rewrite En|]. eapply wp_modifie_suite.
    { cbn. rewrite list_lookup_insert_eq; [done|]. rewrite En. by eapply lookup_lt_Some. }
    eapply wp_mono; [apply rend_compte_spec; cbn; lia|]. intros w2 _ ->.
    split_and!; [|cbn; lia|done]. cbn. by rewrite En, list_insert_insert_eq. }
  destruct (sous_persistant w i); by apply W.
Qed.

Lemma libere_anonyme_spec i w :
  monde_ok w ->
  wp (libere_anonyme i) (fun w' b =>
    if (b : bool) then exists n, vivant (nodes w) i n /\ i <> 0%nat /\ parent n = i /\
      devient w (<[i := empty]> (nodes w)) (used_relaxed w - 1) w'
    else w' = w /\ est_anonyme (nodes w) i = false) w.
Proof.
  intros Hw. unfold libere_anonyme. apply wp_lie, wp_lis.
  destruct (est_anonyme (nodes w) i) eqn:E; cbn [negb]; [|done].
  unfold est_anonyme in E. destruct (nodes w !! i) as [n|] eqn:En; [|by rewrite andb_false_r in E].
  bool_prop. assert (vivant (nodes w) i n) as V by done.
  pose proof (vivant_compte w i n Hw V) as Hp. pose proof (monde_ok_used w Hw) as Hb.
  eapply wp_modifie_suite; [exact En|]. exec rend_compte_spec; [cbn; lia|].
  intros w' _ ->. exists n. by split_and!.
Qed.

(** ** Contents *)

Lemma ecrit_contenu_spec i f n w :
  length (nodes w) = MAX_NODES -> nodes w !! i = Some n ->
  wp (modifie i (fun n => avec_content (f (content n)) n) ;;; touche env i) (fun w' _ =>
    devient w (<[i := avec_content (f (content n)) n]> (nodes w)) (used_relaxed w) w') w.
Proof.
  intros Hl E. eapply wp_modifie_suite; [exact E|].
  eapply wp_mono; [apply touche_spec; cbn; by rewrite length_insert|].
  intros w' [] (? & ? & ?). done.
Qed.
End Operations.
End RamfsSpecs.
