(* ===== verification/RamfsVue.v ===== *)
(** The tree as processes see it, a finite map from paths to what they designate, and the
    decision of a rename stated on it. *)

From S2P Require Import Prelude Ramfs RamfsProofs RamfsOps Renommage RamfsAppels RamfsChemins.

Module RamfsVue.
Import Ramfs RamfsProofs RamfsArbre RamfsOps RamfsChemins RamfsSpecs RamfsAppels.
Open Scope Z_scope.
Open Scope os_scope.

(** ** The view *)

Record Fiche := mk_fiche {
  f_kind : NodeKind; f_content : list Z; f_mode : Z; f_uid : Z; f_gid : Z; f_disque : bool
}.
Definition fiche (w : Monde) (i : nat) (n : Node) : Fiche :=
  mk_fiche (kind n) (content n) (mode n) (uid n) (gid n) (is_disk_backed w i).
Definition vue (w : Monde) (cs : chemin) (f : Fiche) : Prop :=
  exists i n, nomme (nodes w) cs i /\ vivant (nodes w) i n /\ fiche w i n = f.
Definition existe (w : Monde) (cs : chemin) : Prop := exists f, vue w cs f.

Lemma nomme_existe w cs i : arbre_ok (nodes w) -> nomme (nodes w) cs i -> existe w cs.
Proof.
  intros A H. destruct (nomme_vivant _ _ _ A H) as [n V]. exists (fiche w i n), i, n. done.
Qed.
Lemma existe_nomme w cs : existe w cs -> exists i, nomme (nodes w) cs i.
Proof. intros (f & i & n & H & _). by exists i. Qed.

Lemma vue_fun w cs f f' : arbre_ok (nodes w) -> vue w cs f -> vue w cs f' -> f = f'.
Proof.
  intros A (i & n & H & V & <-) (i' & n' & H' & V' & <-).
  rewrite (nomme_noeud_unique _ _ _ _ A H' H) in *. by rewrite (vivant_fun _ _ _ _ V V').
Qed.

Lemma vue_intro w cs i n : nomme (nodes w) cs i -> vivant (nodes w) i n -> vue w cs (fiche w i n).
Proof. intros H V. by exists i, n. Qed.

(** Tables equal up to times are seen the same. *)
Lemma fiche_corps w w' i n n' :
  corps n = corps n' -> extents w = extents w' -> fiche w i n = fiche w' i n'.
Proof.
  intros E X. destruct n, n'. unfold corps, avec_mtime in E. cbn in E. injection E; intros; subst.
  unfold fiche. cbn. assert (is_disk_backed w i = is_disk_backed w' i) as ->; [|done].
  unfold is_disk_backed, disk_len, etendue. by rewrite X.
Qed.

Lemma table_vivant l l' i n :
  l ≡ l' -> vivant l i n -> exists n', vivant l' i n' /\ corps n = corps n'.
Proof.
  intros E [H U]. destruct (table_lookup _ _ _ _ E H) as (n' & H' & C). exists n'.
  split; [|done]. split; [done|]. rewrite <-U. change (used (corps n') = used (corps n)). by rewrite C.
Qed.

(** ** Absolute paths *)

Lemma chemin_de_spec k dirfd a w :
  is_Some (path_string (nodes w) (cwd k)) ->
  (forall fd i, dossier_de_fd k fd = inl i -> is_Some (path_string (nodes w) i)) ->
  (forall fd e, dossier_de_fd k fd = inr e -> e < 0) ->
  wp (chemin_de k dirfd a) (fun w' r => w' = w /\
    match r with inl p => exists cs, p = joint cs /\ Forall composant cs | inr e => e < 0 end) w.
Proof.
  intros Hc Hf He. unfold chemin_de. destruct (user_string k a) as [raw|]; [|done].
  unfold absolute_at. destruct (est_absolu raw).
  { split; [done|]. destruct (normalise_spec raw) as (cs & ? & ? & _). eauto. }
  destruct (if dirfd =? AT_FDCWD then inl (cwd k) else dossier_de_fd k dirfd) as [i|e] eqn:E.
  2:{ split; [done|]. destruct (dirfd =? AT_FDCWD); [done|eauto]. }
  assert (is_Some (path_string (nodes w) i)) as [base H].
  { destruct (dirfd =? AT_FDCWD); [by simplify_eq|eauto]. }
  apply wp_lie, wp_lis. rewrite H.
  split; [done|]. destruct (canonical_spec base raw) as (ds & ? & ?). eauto.
Qed.

(** ** Climbing *)

Lemma prefix_snoc (pa cs : chemin) x :
  pa `prefix_of` cs ++ [x] <-> pa `prefix_of` cs \/ pa = cs ++ [x].
Proof.
  split; [|intros [H| ->]; [by apply prefix_app_r|done]].
  intros [q E]. destruct q as [|y q _] using rev_ind; [right; by rewrite app_nil_r in E|left].
  rewrite app_assoc in E. apply app_inj_tail in E as [-> _]. by apply prefix_app_r.
Qed.

Lemma sous_boucle_spec l a pa x px w :
  arbre_ok l -> nomme l pa a -> nomme l px x -> forall fuel, (length px < fuel)%nat ->
  sous_boucle fuel l x a w = (w, inl (bool_decide (pa `prefix_of` px))).
Proof.
  intros A Ha. induction 1 as [|cs x n [E U] H0 H IH]; intros [|fuel] Hf; try lia; cbn [sous_boucle].
  - destruct (Nat.eqb_spec 0 a) as [<-|Hne].
    + rewrite (nomme_racine_inv _ _ Ha). by rewrite bool_decide_true by apply prefix_nil.
    + rewrite bool_decide_false; [done|]. intros ->%prefix_nil_inv. by apply nomme_vide in Ha.
  - assert (nomme l (cs ++ [name n]) x) as Hx by (by apply nomme_enfant).
    destruct (Nat.eqb_spec x a) as [->|Hne].
    + rewrite (nomme_chemin_unique _ _ _ _ Ha Hx). by rewrite bool_decide_true.
    + destruct (Nat.eqb_spec x 0); [done|]. rewrite E. rewrite length_app in Hf. cbn in Hf.
      rewrite IH by lia. do 2 f_equal. apply bool_decide_ext. rewrite prefix_snoc.
      split; [by left|]. intros [?| ->]; [done|]. by rewrite (nomme_noeud_unique _ _ _ _ A Ha Hx) in Hne.
Qed.

Lemma sous_spec l a pa x px w :
  arbre_ok l -> nomme l pa a -> nomme l px x ->
  sous l x a w = (w, inl (bool_decide (pa `prefix_of` px))).
Proof.
  intros A Ha Hx. apply sous_boucle_spec; [done..|].
  pose proof (profondeur l px x A Hx). rewrite (ao_longueur l A). lia.
Qed.

Lemma parent_nomme l cs i n :
  arbre_ok l -> nomme l cs i -> vivant l i n -> nomme l (removelast cs) (parent n).
Proof.
  intros A H V. destruct H as [|cs i m Vm _ H].
  - destruct (ao_racine l A) as (r & Vr & _ & Hr & _). rewrite (vivant_fun _ _ _ _ V Vr), Hr. constructor.
  - rewrite removelast_last. by rewrite (vivant_fun _ _ _ _ V Vm).
Qed.

(** ** What [decide] accepts *)

Import Renommage(Demande, Action, Deplacer, Remplacer, Echanger, Rien, decide, genre, racine, disque, vide).

(** The table of the accepted requests, each with its action. *)
Definition accepte (d : Demande) (a : Action) : Prop :=
  (Renommage.drapeaux d = 0 \/ Renommage.drapeaux d = 1 \/ Renommage.drapeaux d = 2) /\
  exists s, Renommage.source d = Some s /\ racine s = false /\
    Renommage.parent_cible d = Renommage.ParentDossier /\ Renommage.nom_cible d = Renommage.Valide /\
    match Renommage.cible d with
    | None => a = Deplacer /\ Renommage.drapeaux d <> 2 /\
        (genre s = Renommage.Dossier -> Renommage.cible_sous_la_source d = false) /\ disque s = false
    | Some c => Renommage.drapeaux d <> 1 /\
        ((Renommage.meme_noeud d = true /\ a = Rien) \/
         (Renommage.meme_noeud d = false /\
          (genre s = Renommage.Dossier -> Renommage.cible_sous_la_source d = false) /\
          racine c = false /\ disque s = false /\ disque c = false /\
          ((Renommage.drapeaux d = 2 /\ a = Echanger /\
            (genre c = Renommage.Dossier -> Renommage.source_sous_la_cible d = false)) \/
           (Renommage.drapeaux d <> 2 /\ a = Remplacer /\ genre s = genre c /\
            (genre c = Renommage.Dossier -> vide c = true)))))
    end.

(** Of 32 bits, those outside [connus] clear means one of eight values. *)
Lemma drapeaux_connus f :
  0 <= f < u32_max -> Renommage.porte f (Z.lxor (u32_max - 1) Renommage.connus) = false -> 0 <= f < 8.
Proof.
  intros Hf H. unfold Renommage.porte in H. bool_prop. change 8 with (2 ^ 3). apply mot_bits; [lia|].
  split; [lia|]. intros i Hi. apply (mot_bits 32) in Hf as [_ Hf]; [|lia].
  destruct (Z.le_gt_cases 32 i) as [|Hi']; [by apply Hf|].
  assert (Z.testbit (Z.land f (Z.lxor (u32_max - 1) Renommage.connus)) i = false) as B
    by (rewrite H; apply Z.bits_0).
  rewrite Z.land_spec in B. apply andb_false_iff in B as [B|B]; [done|]. exfalso.
  change (Z.lxor (u32_max - 1) Renommage.connus) with (Z.ones 29 * 2 ^ 3) in B.
  rewrite Z.mul_pow2_bits, Z.testbit_ones in B by lia.
  destruct (Z.leb_spec 0 (i - 3)), (Z.ltb_spec (i - 3) 29); cbn in B; lia || done.
Qed.

Ltac cas_decide :=
  repeat match goal with
  | |- context [Renommage.puis ?b _ _] => destruct b eqn:?; cbn [Renommage.puis]
  | H : context [Renommage.puis ?b _ _] |- _ => destruct b eqn:?; cbn [Renommage.puis] in H
  end.

Lemma decide_cible_accepte d s a :
  Renommage.drapeaux d = 0 \/ Renommage.drapeaux d = 1 \/ Renommage.drapeaux d = 2 ->
  Renommage.puis (Renommage.porte (Renommage.drapeaux d) Renommage.RENAME_NOREPLACE &&
    bool_decide (is_Some (Renommage.cible d))) Renommage.EEXIST (Renommage.decide_cible d s) = inl a <->
  match Renommage.cible d with
  | None => a = Deplacer /\ Renommage.drapeaux d <> 2 /\
      (genre s = Renommage.Dossier -> Renommage.cible_sous_la_source d = false) /\ disque s = false
  | Some c => Renommage.drapeaux d <> 1 /\
      ((Renommage.meme_noeud d = true /\ a = Rien) \/
       (Renommage.meme_noeud d = false /\
        (genre s = Renommage.Dossier -> Renommage.cible_sous_la_source d = false) /\
        racine c = false /\ disque s = false /\ disque c = false /\
        ((Renommage.drapeaux d = 2 /\ a = Echanger /\
          (genre c = Renommage.Dossier -> Renommage.source_sous_la_cible d = false)) \/
         (Renommage.drapeaux d <> 2 /\ a = Remplacer /\ genre s = genre c /\
          (genre c = Renommage.Dossier -> vide c = true)))))
  end.
Proof.
  intros Hf. unfold Renommage.decide_cible.
  assert (Renommage.porte (Renommage.drapeaux d) Renommage.RENAME_NOREPLACE
            = (Renommage.drapeaux d =? 1)) as -> by (by destruct Hf as [->|[->| ->]]).
  assert (Renommage.porte (Renommage.drapeaux d) Renommage.RENAME_EXCHANGE
            = (Renommage.drapeaux d =? 2)) as -> by (by destruct Hf as [->|[->| ->]]).
  destruct d as [f so pc nc c m cs sc], s as [gs rs ds vs]. cbn [Renommage.drapeaux Renommage.cible
    Renommage.meme_noeud Renommage.cible_sous_la_source Renommage.source_sous_la_cible genre disque].
  destruct c as [[gc rc dc vc]|]; cbn [genre racine disque vide].
  - rewrite (bool_decide_true (is_Some _)) by eauto. rewrite andb_true_r. unfold Renommage.puis.
    destruct (Z.eqb_spec f 1); [intuition congruence|]. destruct m; [intuition congruence|].
    destruct gs, cs; cbn; try (intuition congruence);
      (destruct rc; [intuition congruence|]); (destruct (Z.eqb_spec f 2); destruct gc;
        destruct sc; destruct ds; destruct dc; try destruct vc; cbn; intuition congruence).
  - rewrite (bool_decide_false (is_Some _)) by (intros []; done). rewrite andb_false_r.
    unfold Renommage.puis. destruct (Z.eqb_spec f 2), gs, cs, ds; cbn; intuition congruence.
Qed.

Lemma decide_accepte d a :
  0 <= Renommage.drapeaux d < u32_max -> decide d = inl a <-> accepte d a.
Proof.
  intros Hf. unfold decide, accepte.
  destruct (Renommage.porte _ (Z.lxor _ _)) eqn:Hk; cbn [Renommage.puis].
  { split; [done|]. intros [[E|[E|E]] _]; rewrite E in Hk; done. }
  apply drapeaux_connus in Hk; [|done].
  assert (Renommage.drapeaux d = 0 \/ Renommage.drapeaux d = 1 \/ Renommage.drapeaux d = 2 \/
          3 <= Renommage.drapeaux d < 8) as [H|[H|[H|H]]] by lia.
  4:{ split; [|lia]. assert (exists e, Renommage.puis
        (Renommage.porte (Renommage.drapeaux d) Renommage.RENAME_NOREPLACE &&
         Renommage.porte (Renommage.drapeaux d) Renommage.RENAME_EXCHANGE) Renommage.EINVAL
        (Renommage.puis (Renommage.porte (Renommage.drapeaux d) Renommage.RENAME_WHITEOUT)
           Renommage.EINVAL (inl Rien)) = inr e) as [e He].
      { assert (Renommage.drapeaux d = 3 \/ Renommage.drapeaux d = 4 \/ Renommage.drapeaux d = 5 \/
          Renommage.drapeaux d = 6 \/ Renommage.drapeaux d = 7) as [E|[E|[E|[E|E]]]] by lia;
          rewrite E; by eexists. }
      destruct (_ && _) eqn:?; cbn [Renommage.puis] in *; [done|].
      destruct (Renommage.porte _ Renommage.RENAME_WHITEOUT); cbn [Renommage.puis] in *; done. }
  all: replace (_ && Renommage.porte (Renommage.drapeaux d) Renommage.RENAME_EXCHANGE) with false
         by (by rewrite H); cbn [Renommage.puis];
    replace (Renommage.porte (Renommage.drapeaux d) Renommage.RENAME_WHITEOUT) with false
      by (by rewrite H); cbn [Renommage.puis].
  all: destruct (Renommage.source d) as [s|]; [|split; [done|]; intros (_ & ? & ? & _); congruence].
  all: destruct (racine s) eqn:Hr; cbn [Renommage.puis]; [split; [done|]; intros (_ & ? & ? & ? & _); congruence|].
  all: destruct (Renommage.parent_cible d); [split; [done|]; intros (_ & ? & ? & ? & ? & _); congruence..|].
  all: destruct (Renommage.nom_cible d); [|split; [done|]; intros (_ & ? & ? & ? & ? & ? & _); congruence..].
  all: rewrite decide_cible_accepte by tauto; split; [intros ?; split; [tauto|]; by exists s|intros (_ & s' & E & _ & _ & _ & ?); by simplify_eq].
Qed.

Lemma decide_erreur d e : decide d = inr e -> 0 < e.
Proof.
  assert (forall b e k, (forall e', k = inr e' -> 0 < e') -> 0 < e ->
    forall e', Renommage.puis b e k = inr e' -> 0 < e') as W.
  { intros [] e0 k Hk He e'; cbn; [by intros [= <-]|apply Hk]. }
  unfold decide, Renommage.decide_cible.
  do 3 (apply W; [intros ?|reflexivity]).
  destruct (Renommage.source d) as [s|]; [|by intros [= <-]].
  apply W; [|reflexivity]. intros ?. destruct (Renommage.parent_cible d); [by intros [= <-]..|].
  destruct (Renommage.nom_cible d); [|by intros [= <-]..]. apply W; [|reflexivity]. intros ?.
  destruct (Renommage.cible d) as [c|].
  - destruct (Renommage.meme_noeud d); [done|]. apply W; [|reflexivity]. intros ?.
    apply W; [|reflexivity]. intros ?. destruct (Renommage.porte _ _).
    + apply W; [|reflexivity]. intros ?. apply W; [done|reflexivity].
    + destruct (genre s), (genre c); try (by intros [= <-]);
        repeat (apply W; [intros ?|reflexivity]); done.
  - destruct (Renommage.porte _ _); [by intros [= <-]|].
    repeat (apply W; [intros ?|reflexivity]); done.
Qed.
End RamfsVue.

(** Rename: what the call reads of the tree, when it succeeds, and the tree it leaves. *)

Module RamfsRenomme.
Import Ramfs RamfsProofs RamfsArbre RamfsOps RamfsChemins RamfsSpecs RamfsAppels RamfsVue.
Open Scope Z_scope.
Open Scope os_scope.

(** ** The request *)

(** What the call found: the source, the target directory, the name and the target. *)
Record trouve (w : Monde) (flags : Z) (from to : chemin) (d : Renommage.Demande)
  (source p : option nat) (nom : list Z) (cible : option nat) : Prop := mk_trouve {
  tr_drapeaux : Renommage.drapeaux d = flags;
  tr_source : forall s, source = Some s <-> nomme (nodes w) from s;
  tr_source_d : Renommage.source d = (s ← source; n ← nodes w !! s; Some (decrit w s n));
  tr_parent : forall q, p = Some q <-> exists dd, to = dd ++ [nom] /\ nomme (nodes w) dd q;
  tr_parent_nom : forall dd x q, to = dd ++ [x] -> nomme (nodes w) dd q -> p = Some q /\ nom = x;
  tr_parent_d : Renommage.parent_cible d = Renommage.ParentDossier <->
    exists q n, p = Some q /\ vivant (nodes w) q n /\ kind n = Dir;
  tr_nom : Renommage.nom_cible d = Renommage.classe_nom nom NAME_LEN;
  tr_cible : Renommage.parent_cible d = Renommage.ParentDossier ->
    forall c, cible = Some c <-> nomme (nodes w) to c;
  tr_cible_d : Renommage.cible d = (c ← cible; n ← nodes w !! c; Some (decrit w c n));
  tr_meme : Renommage.meme_noeud d = bool_decide (is_Some source /\ cible = source);
  tr_cs : forall s q dd, source = Some s -> p = Some q -> to = dd ++ [nom] ->
    Renommage.cible_sous_la_source d = bool_decide (from `prefix_of` dd);
  tr_sc : forall s c, source = Some s -> cible = Some c ->
    Renommage.source_sous_la_cible d = bool_decide (to `prefix_of` removelast from)
}.

Lemma resolve_nomme w cs i :
  monde_ok w -> Forall composant cs ->
  resolve (nodes w) (joint cs) 0 = Some i <-> nomme (nodes w) cs i.
Proof.
  intros [A _] H. rewrite resolve_joint by done.
  apply (suit_composants_nomme _ cs 0%nat i [] A); [constructor|done].
Qed.

Lemma decrit_option_spec w o :
  (forall i, o = Some i -> exists n, vivant (nodes w) i n) ->
  decrit_option o w = (w, inl (i ← o; n ← nodes w !! i; Some (decrit w i n))).
Proof.
  intros H. destruct o as [i|]; [|done]. destruct (H i eq_refl) as [n [E _]].
  cbn. unfold lie, noeud, etat_courant. by rewrite E.
Qed.

Lemma sous_option w (x a : option nat) px pa :
  arbre_ok (nodes w) ->
  (forall i, x = Some i -> nomme (nodes w) px i) -> (forall i, a = Some i -> nomme (nodes w) pa i) ->
  exists b, (match a, x with Some a, Some x => sous (nodes w) x a | _, _ => rend false end) w = (w, inl b) /\
    (is_Some x -> is_Some a -> b = bool_decide (pa `prefix_of` px)).
Proof.
  intros A Hx Ha. destruct a as [a|], x as [x|].
  - exists (bool_decide (pa `prefix_of` px)). split; [|done]. apply sous_spec; auto.
  - exists false. split; [done|]. by intros [].
  - exists false. split; [done|]. by intros _ [].
  - exists false. split; [done|]. by intros [].
Qed.

Lemma sous_parent_option w (s c : option nat) from to :
  arbre_ok (nodes w) ->
  (forall i, s = Some i -> nomme (nodes w) from i) -> (forall i, c = Some i -> nomme (nodes w) to i) ->
  exists b, (match s, c with
             | Some s, Some c => n <- noeud s ;; sous (nodes w) (parent n) c
             | _, _ => rend false
             end) w = (w, inl b) /\
    (is_Some s -> is_Some c -> b = bool_decide (to `prefix_of` removelast from)).
Proof.
  intros A Hs Hc. destruct s as [s|]; [|exists false; split; [done|by intros []]].
  destruct c as [c|]; [|exists false; split; [done|by intros _ []]].
  destruct (nomme_vivant _ _ _ A (Hs s eq_refl)) as [n V].
  exists (bool_decide (to `prefix_of` removelast from)). split; [|done].
  pose proof V as [E _]. unfold lie, noeud. rewrite E. cbn.
  apply sous_spec; [done|auto|]. eapply parent_nomme; eauto.
Qed.

Section Demande.
Context (w : Monde) (flags : Z) (from to : chemin).
Context (Hw : monde_ok w) (Hfrom : Forall composant from) (Hto : Forall composant to).
#[local] Abbreviation l := (nodes w).

(** The target directory and the name, from the path. *)
Lemma parent_cible_spec : exists p nom,
  match resolve_parent_name l (joint to) 0 with Some (p, nom) => (Some p, nom) | None => (None, []) end
    = (p, nom) /\
  (forall q, p = Some q <-> exists dd, to = dd ++ [nom] /\ nomme l dd q) /\
  (forall dd x q, to = dd ++ [x] -> nomme l dd q -> p = Some q /\ nom = x).
Proof.
  destruct to as [|x dd _] using rev_ind.
  { exists None, []. split_and!; [done| |by intros []]. intros q. split; [done|].
    intros (dd & E & _). by destruct dd. }
  rewrite resolve_parent_joint by done. pose proof (proj1 Hw) as A.
  apply Forall_app in Hto as [Hd _].
  assert (forall q, suit_composants l 0 dd = Some q <-> nomme l dd q) as Hq.
  { intros q. apply (suit_composants_nomme l dd 0%nat q [] A (nomme_racine l) Hd). }
  destruct (suit_composants l 0 dd) as [q|] eqn:E; cbn.
  - exists (Some q), x. split_and!; [done| |].
    + intros q'. rewrite Hq. split; [by exists dd|]. by intros (dd' & [<- _]%app_inj_tail & H).
    + intros dd' x' q' [<- <-]%app_inj_tail H. split; [|done]. by apply Hq.
  - exists None, []. split_and!; [done| |].
    + intros q. split; [done|]. by intros (dd' & [<- _]%app_inj_tail & H%Hq).
    + by intros dd' x' q' [<- <-]%app_inj_tail H%Hq.
Qed.

Lemma demande_spec :
  wp (demande_de flags (joint from) (joint to)) (fun w' '(d, source, p, nom, cible) =>
    w' = w /\ trouve w flags from to d source p nom cible) w.
Proof.
  pose proof (proj1 Hw) as A. unfold demande_de. apply wp_lie, wp_lis.
  set (source := resolve l (joint from) 0).
  assert (forall s, source = Some s <-> nomme l from s) as Hs by (intros s; by apply resolve_nomme).
  destruct parent_cible_spec as (p & nom & -> & Hp & Hpn). cbv beta iota zeta.
  set (gp := match p with
             | None => Renommage.Absent
             | Some q => match l !! q with
                         | Some n => if est_dir (kind n) then Renommage.ParentDossier else Renommage.PasUnDossier
                         | None => Renommage.Absent
                         end
             end).
  assert (forall q, p = Some q -> exists n, vivant l q n) as Hpv.
  { intros q (dd & _ & H)%Hp. by eapply nomme_vivant. }
  assert ((match p with
           | None => rend Renommage.Absent
           | Some q => n <- noeud q ;;
                       rend (if est_dir (kind n) then Renommage.ParentDossier else Renommage.PasUnDossier)
           end : F Renommage.Parent) w = (w, inl gp)) as Eg.
  { subst gp. destruct p as [q|]; [|done]. destruct (Hpv q eq_refl) as [n [E _]].
    unfold lie, noeud. by rewrite E. }
  eapply wp_pas; [exact Eg|].
  assert (gp = Renommage.ParentDossier <-> exists q n, p = Some q /\ vivant l q n /\ kind n = Dir) as Hgp.
  { subst gp. destruct p as [q|]; [|split; [done|naive_solver]]. destruct (Hpv q eq_refl) as [n V].
    pose proof V as [E _]. rewrite E. destruct (kind n) eqn:K; cbn.
    - split; [done|]. intros (? & n' & [= <-] & V' & K'). rewrite (vivant_fun _ _ _ _ V V') in K. congruence.
    - split; [|done]. intros _. by exists q, n. }
  set (cible := match p, gp with Some p, Renommage.ParentDossier => find_child l p nom | _, _ => None end).
  assert (forall c, cible = Some c -> nomme l to c) as Hc.
  { subst cible. intros c. destruct p as [q|]; [|done]. destruct gp; try done.
    destruct (proj1 (Hp q) eq_refl) as (dd & -> & H). intros E.
    eapply find_child_nomme; [done|done| |done]. right.
    apply Forall_app in Hto as [_ Hx]. by apply Forall_singleton in Hx as [? _]. }
  assert (gp = Renommage.ParentDossier -> forall c, cible = Some c <-> nomme l to c) as Hc'.
  { intros G c. split; [apply Hc|]. subst cible. rewrite G. apply Hgp in G as (q & n & -> & _).
    destruct (proj1 (Hp q) eq_refl) as (dd & -> & H). intros Hn.
    eapply find_child_nomme; [done|done| |done]. right.
    apply Forall_app in Hto as [_ Hx]. by apply Forall_singleton in Hx as [? _]. }
  assert (forall o cs, (forall i, o = Some i -> nomme l cs i) -> forall i, o = Some i -> exists n, vivant l i n) as Hv.
  { intros o cs H i E. eapply nomme_vivant; eauto. }
  eapply wp_pas; [apply decrit_option_spec, (Hv _ from), Hs|].
  eapply wp_pas; [by apply decrit_option_spec, (Hv _ to)|].
  assert (forall q, p = Some q -> nomme l (removelast to) q) as Hp'.
  { intros q (dd & -> & H)%Hp. by rewrite removelast_last. }
  destruct (sous_option w p source (removelast to) from A Hp' (fun i => proj1 (Hs i))) as (cs & Ecs & Hcs).
  eapply wp_pas; [exact Ecs|].
  destruct (sous_parent_option w source cible from to A (fun i => proj1 (Hs i)) Hc) as (sc & Esc & Hsc).
  eapply wp_pas; [exact Esc|]. split; [done|]. split; cbn; try done.
  - intros s q dd -> -> ->. rewrite Hcs by eauto. by rewrite removelast_last.
  - intros s c -> Ec. apply Hsc; [eauto|]. by rewrite Ec.
Qed.
End Demande.

(** ** When a rename is allowed *)

Import (hints) Renommage.
Import Renommage(Action, Deplacer, Remplacer, Echanger, Rien, RENAME_NOREPLACE, RENAME_EXCHANGE).

(** The rules of [rename(2)] and [renameat2(2)] on the tree as processes see it, with the
    action of each case. *)
Definition permis_cible (w : Monde) (flags : Z) (from to : chemin) (fs : Fiche) (dd : chemin)
  (a : Action) : Prop :=
  (~ existe w to /\ a = Deplacer /\ flags <> RENAME_EXCHANGE /\
   (f_kind fs = Dir -> ~ from `prefix_of` dd) /\ f_disque fs = false) \/
  (exists ft, vue w to ft /\ flags <> RENAME_NOREPLACE /\
    ((from = to /\ a = Rien) \/
     (from <> to /\ (f_kind fs = Dir -> ~ from `prefix_of` dd) /\
      f_disque fs = false /\ f_disque ft = false /\
      ((flags = RENAME_EXCHANGE /\ a = Echanger /\
        (f_kind ft = Dir -> ~ to `prefix_of` removelast from)) \/
       (flags <> RENAME_EXCHANGE /\ a = Remplacer /\ f_kind fs = f_kind ft /\
        (f_kind ft = Dir -> forall x, ~ existe w (to ++ [x]))))))).
Definition permis (w : Monde) (flags : Z) (from to : chemin) (a : Action) : Prop :=
  (flags = 0 \/ flags = RENAME_NOREPLACE \/ flags = RENAME_EXCHANGE) /\ from <> [] /\
  exists fs dd nom fd, vue w from fs /\ to = dd ++ [nom] /\ (length nom <= NAME_LEN)%nat /\
    vue w dd fd /\ f_kind fd = Dir /\ permis_cible w flags from to fs dd a.

Lemma sans_enfant_vue w cs i :
  arbre_ok (nodes w) -> nomme (nodes w) cs i -> i <> 0%nat ->
  sans_enfant (nodes w) i <-> forall x, ~ existe w (cs ++ [x]).
Proof.
  intros A H H0. split.
  - intros S x (j & Hj)%existe_nomme. pose proof Hj as Hj'.
    apply nomme_enfant_inv in Hj' as (n & V & _ & Hp & _).
    apply (S j n V); [|by eapply nomme_noeud_unique].
    intros ->. pose proof (f_equal length (nomme_chemin_unique _ _ _ _ H Hj)) as L.
    rewrite length_app in L. cbn in L. lia.
  - intros Hx j n V Hj Hp. destruct (decide (j = 0%nat)) as [->|Hj0].
    + destruct (ao_racine _ A) as (r & Vr & _ & Hr & _). rewrite (vivant_fun _ _ _ _ V Vr) in Hp. congruence.
    + apply (Hx (name n)). eapply nomme_existe; [done|]. apply nomme_enfant; [done..|by rewrite Hp].
Qed.

Lemma decrit_genre w i n :
  Renommage.genre (decrit w i n) = Renommage.Dossier <-> kind n = Dir.
Proof. unfold decrit. cbn. by destruct (kind n). Qed.
Lemma decrit_genre_eq w i n j m :
  Renommage.genre (decrit w i n) = Renommage.genre (decrit w j m) <-> kind n = kind m.
Proof. unfold decrit. cbn. by destruct (kind n), (kind m). Qed.

Lemma classe_nom_valide s :
  composant s -> Renommage.classe_nom s NAME_LEN = Renommage.Valide <-> (length s <= NAME_LEN)%nat.
Proof.
  intros (Hn & _ & H1 & H2). unfold Renommage.classe_nom. rewrite !bool_decide_false by done.
  destruct (Nat.eqb_spec (length s) 0); [by destruct s|]. cbn [orb].
  destruct (Nat.ltb_spec NAME_LEN (length s)); split; intros; try done; lia.
Qed.

Section Permis.
Context (w : Monde) (flags : Z) (from to : chemin) (d : Renommage.Demande).
Context (source p : option nat) (nom : list Z) (cible : option nat).
Context (Hw : monde_ok w) (Hto : Forall composant to).
Context (T : trouve w flags from to d source p nom cible).
#[local] Abbreviation l := (nodes w).

Lemma source_vue fs :
  vue w from fs <-> exists s n, source = Some s /\ nomme l from s /\ vivant l s n /\ fiche w s n = fs /\
    Renommage.source d = Some (decrit w s n).
Proof.
  split; [|intros (s & n & _ & ? & ? & <- & _); by apply vue_intro].
  intros (s & n & H & V & <-). exists s, n. pose proof (proj2 (tr_source _ _ _ _ _ _ _ _ _ T s) H) as E.
  split_and!; try done. rewrite (tr_source_d _ _ _ _ _ _ _ _ _ T), E. cbn. by rewrite (proj1 V).
Qed.

Lemma cible_vue ft :
  Renommage.parent_cible d = Renommage.ParentDossier ->
  vue w to ft <-> exists c n, cible = Some c /\ nomme l to c /\ vivant l c n /\ fiche w c n = ft /\
    Renommage.cible d = Some (decrit w c n).
Proof.
  intros P. split; [|intros (s & n & _ & ? & ? & <- & _); by apply vue_intro].
  intros (c & n & H & V & <-). exists c, n.
  pose proof (proj2 (tr_cible _ _ _ _ _ _ _ _ _ T P c) H) as E.
  split_and!; try done. rewrite (tr_cible_d _ _ _ _ _ _ _ _ _ T), E. cbn. by rewrite (proj1 V).
Qed.

Lemma parent_vue :
  Renommage.parent_cible d = Renommage.ParentDossier <->
  exists dd fd q, to = dd ++ [nom] /\ p = Some q /\ nomme l dd q /\ vue w dd fd /\ f_kind fd = Dir.
Proof.
  rewrite (tr_parent_d _ _ _ _ _ _ _ _ _ T). split.
  - intros (q & n & E & V & K). destruct (proj1 (tr_parent _ _ _ _ _ _ _ _ _ T q) E) as (dd & -> & H).
    exists dd, (fiche w q n), q. split_and!; try done. by apply vue_intro.
  - intros (dd & fd & q & -> & E & H & (q' & n & H' & V & <-) & K).
    rewrite (nomme_noeud_unique _ _ _ _ (proj1 Hw) H' H) in V. by exists q, n.
Qed.

Lemma permis_fixe fs dd fd a :
  vue w from fs -> to = dd ++ [nom] -> vue w dd fd -> f_kind fd = Dir ->
  permis w flags from to a <->
  (flags = 0 \/ flags = RENAME_NOREPLACE \/ flags = RENAME_EXCHANGE) /\ from <> [] /\
  (length nom <= NAME_LEN)%nat /\ permis_cible w flags from to fs dd a.
Proof.
  intros Hf Ht Hd Kd. unfold permis. split.
  - intros (? & ? & fs' & dd' & nom' & fd' & Hf' & Ht' & Hl & Hd' & _ & Hc).
    rewrite Ht in Ht'. apply app_inj_tail in Ht' as [<- <-].
    by rewrite (vue_fun w from fs' fs (proj1 Hw) Hf' Hf) in Hc.
  - intros (? & ? & ? & ?). split_and!; [done..|]. by exists fs, dd, nom, fd.
Qed.

Lemma meme_chemin s c :
  source = Some s -> cible = Some c -> Renommage.parent_cible d = Renommage.ParentDossier ->
  Renommage.meme_noeud d = true <-> from = to.
Proof.
  intros Es Ec P. rewrite (tr_meme _ _ _ _ _ _ _ _ _ T), bool_decide_eq_true.
  apply (tr_source _ _ _ _ _ _ _ _ _ T) in Es as Hs.
  apply (tr_cible _ _ _ _ _ _ _ _ _ T P) in Ec as Hc. rewrite Es, Ec. split.
  - intros [_ [= ->]]. by eapply nomme_chemin_unique.
  - intros E. rewrite E in Hs. split; [eauto|]. f_equal. by eapply nomme_noeud_unique; [apply Hw|..].
Qed.

(** The cases of the table when the source and the target directory were found. *)
Lemma accepte_cible s ns q dd a :
  source = Some s -> nomme l from s -> vivant l s ns -> p = Some q -> to = dd ++ [nom] ->
  Renommage.parent_cible d = Renommage.ParentDossier ->
  match Renommage.cible d with
  | None => a = Deplacer /\ flags <> 2 /\
      (Renommage.genre (decrit w s ns) = Renommage.Dossier -> Renommage.cible_sous_la_source d = false) /\
      Renommage.disque (decrit w s ns) = false
  | Some c => flags <> 1 /\
      ((Renommage.meme_noeud d = true /\ a = Rien) \/
       (Renommage.meme_noeud d = false /\
        (Renommage.genre (decrit w s ns) = Renommage.Dossier -> Renommage.cible_sous_la_source d = false) /\
        Renommage.racine c = false /\ Renommage.disque (decrit w s ns) = false /\ Renommage.disque c = false /\
        ((flags = 2 /\ a = Echanger /\
          (Renommage.genre c = Renommage.Dossier -> Renommage.source_sous_la_cible d = false)) \/
         (flags <> 2 /\ a = Remplacer /\ Renommage.genre (decrit w s ns) = Renommage.genre c /\
          (Renommage.genre c = Renommage.Dossier -> Renommage.vide c = true)))))
  end <-> permis_cible w flags from to (fiche w s ns) dd a.
Proof.
  intros Es Hs Vs Ep Et P. pose proof (proj1 Hw) as A. unfold permis_cible.
  rewrite (tr_cs _ _ _ _ _ _ _ _ _ T s q dd Es Ep Et).
  assert (cible = None \/ exists c, cible = Some c) as [Ec|[c Ec]] by (destruct cible; eauto).
  - assert (~ existe w to) as Hn.
    { intros (c & Hc)%existe_nomme. apply (tr_cible _ _ _ _ _ _ _ _ _ T P) in Hc. congruence. }
    rewrite (tr_cible_d _ _ _ _ _ _ _ _ _ T), Ec. cbn [mbind option_bind].
    rewrite decrit_genre, bool_decide_eq_false. split.
    + intros (-> & ? & ? & ?). left. by split_and!.
    + intros [(_ & -> & ? & ? & ?)|(ft & Hft & _)]; [done|]. destruct Hn. by exists ft.
  - pose proof (proj1 (tr_cible _ _ _ _ _ _ _ _ _ T P c) Ec) as Hc.
    destruct (nomme_vivant _ _ _ A Hc) as [nc Vc]. pose proof (meme_chemin s c Es Ec P) as Hm.
    assert (c <> 0%nat) as Hc0.
    { intros ->. apply nomme_racine_inv in Hc. rewrite Et in Hc. by destruct dd. }
    assert (Renommage.cible d = Some (decrit w c nc)) as ->.
    { rewrite (tr_cible_d _ _ _ _ _ _ _ _ _ T), Ec. cbn. by rewrite (proj1 Vc). }
    rewrite !decrit_genre, decrit_genre_eq, (tr_sc _ _ _ _ _ _ _ _ _ T s c Es Ec), !bool_decide_eq_false.
    assert (Renommage.racine (decrit w c nc) = false) as -> by (by apply Nat.eqb_neq).
    assert (kind nc = Dir -> Renommage.vide (decrit w c nc) = true <-> forall x, ~ existe w (to ++ [x])) as Hv.
    { intros K. cbn. rewrite K. cbn. rewrite is_empty_dir_spec. by apply sans_enfant_vue. }
    assert (Renommage.meme_noeud d = false <-> from <> to) as Hm'.
    { rewrite <-Hm. destruct (Renommage.meme_noeud d); split; congruence. }
    rewrite Hm, Hm'. split.
    + intros [? H]. right. exists (fiche w c nc). split; [by apply vue_intro|]. split; [done|].
      destruct H as [?|(? & ? & _ & ? & ? & H)]; [by left|right]. split_and!; try done.
      destruct H as [?|(? & ? & ? & H)]; [by left|right]. split_and!; try done. intros K. by apply Hv, H.
    + intros [[Hn _]|(ft & Hft & ? & H)]; [destruct Hn; by eexists; apply vue_intro|].
      rewrite <-(vue_fun w to (fiche w c nc) ft A (vue_intro w to c nc Hc Vc) Hft) in H. split; [done|].
      destruct H as [?|(? & ? & ? & ? & H)]; [by left|right]. split_and!; try done.
      destruct H as [?|(? & ? & ? & H)]; [by left|right]. split_and!; try done. intros K. by apply Hv, H.
Qed.

Lemma accepte_permis a : accepte d a <-> permis w flags from to a.
Proof.
  pose proof (proj1 Hw) as A.
  assert (source = None \/ exists s, source = Some s) as [Es|[s Es]] by (destruct source; eauto).
  { split.
    - intros (_ & s & E & _). rewrite (tr_source_d _ _ _ _ _ _ _ _ _ T), Es in E. done.
    - intros (_ & _ & fs & ? & ? & ? & (s & n & E & _)%source_vue & _). congruence. }
  pose proof (proj1 (tr_source _ _ _ _ _ _ _ _ _ T s) Es) as Hs.
  destruct (nomme_vivant _ _ _ A Hs) as [ns Vs].
  assert (Renommage.source d = Some (decrit w s ns)) as Esd.
  { rewrite (tr_source_d _ _ _ _ _ _ _ _ _ T), Es. cbn. by rewrite (proj1 Vs). }
  destruct (decide (Renommage.parent_cible d = Renommage.ParentDossier)) as [P|P].
  2:{ split; [intros (_ & ? & _ & _ & ? & _); done|].
      intros (_ & _ & fs & dd & x & fd & _ & Et & _ & (q & n & Hq & V & <-) & K & _). destruct P.
      apply (tr_parent_d _ _ _ _ _ _ _ _ _ T). exists q, n. split_and!; try done.
      by eapply (tr_parent_nom _ _ _ _ _ _ _ _ _ T). }
  pose proof P as P'. apply parent_vue in P' as (dd & fd & q & Et & Ep & Hq & Hvd & Kd).
  rewrite (permis_fixe (fiche w s ns) dd fd a (vue_intro w from s ns Hs Vs) Et Hvd Kd).
  assert (composant nom) as Hcn.
  { rewrite Et in Hto. apply Forall_app in Hto as [_ H1]. exact (proj1 (Forall_singleton _ _) H1). }
  rewrite <-(accepte_cible s ns q dd a), <-(classe_nom_valide nom), <-(tr_nom _ _ _ _ _ _ _ _ _ T) by done.
  assert (s <> 0%nat <-> from <> []) as Hs0.
  { split; intros H ->; [by apply nomme_vide in Hs|by apply nomme_racine_inv in Hs]. }
  unfold accepte. rewrite (tr_drapeaux _ _ _ _ _ _ _ _ _ T), Esd. split.
  - intros (? & ? & [= <-] & Hr & _ & ? & ?). split_and!; try done. apply Hs0. by apply Nat.eqb_neq.
  - intros (? & ?%Hs0 & ? & ?). split; [done|]. exists (decrit w s ns). split_and!; try done.
    by apply Nat.eqb_neq.
Qed.
End Permis.
End RamfsRenomme.
