(* ===== verification/RamfsApplique.v ===== *)
(** Applying a rename: the tree after a move, a replacement or an exchange. *)

From S2P Require Import Prelude Ramfs RamfsProofs RamfsOps RamfsChemins Renommage RamfsAppels RamfsVue.

Module RamfsApplique.
Import Ramfs RamfsProofs RamfsArbre RamfsOps RamfsChemins RamfsSpecs RamfsAppels RamfsVue RamfsRenomme.
Open Scope Z_scope.
Open Scope os_scope.

(** ** Paths after a rename *)

(** What is at or below [from] is found at or below [to]; nothing else moves. *)
Definition renomme_chemin (from to cs cs' : chemin) : Prop :=
  (~ from `prefix_of` cs /\ cs' = cs) \/ exists q, cs = from ++ q /\ cs' = to ++ q.
Definition echange_chemin (from to cs cs' : chemin) : Prop :=
  (~ from `prefix_of` cs /\ ~ to `prefix_of` cs /\ cs' = cs) \/
  exists q, (cs = from ++ q /\ cs' = to ++ q) \/ (cs = to ++ q /\ cs' = from ++ q).

Lemma deplace_chemin_un s from to cs cs' :
  deplace_chemin [(s, from, to)] cs cs' <-> renomme_chemin from to cs cs'.
Proof.
  unfold deplace_chemin, renomme_chemin. split.
  - intros [[H ->]|(? & ? & ? & q & [= -> -> ->]%list_elem_of_singleton & -> & ->)]; [|eauto].
    left. split; [|done]. apply (H s from to). by apply list_elem_of_singleton.
  - intros [[H ->]|(q & -> & ->)].
    + left. split; [|done]. by intros ? ? ? [= -> -> ->]%list_elem_of_singleton.
    + right. exists s, from, to, q. split_and!; [|done..]. by apply list_elem_of_singleton.
Qed.

Lemma deplace_chemin_deux s c from to cs cs' :
  deplace_chemin [(s, from, to); (c, to, from)] cs cs' <-> echange_chemin from to cs cs'.
Proof.
  assert (forall s0 o d, (s0, o, d) ∈ [(s, from, to); (c, to, from)] <->
            (s0 = s /\ o = from /\ d = to) \/ (s0 = c /\ o = to /\ d = from)) as W.
  { intros s0 o d. rewrite !elem_of_cons, elem_of_nil. split; [intros [?|[?|[]]]; simplify_eq; tauto|].
    intros [(-> & -> & ->)|(-> & -> & ->)]; tauto. }
  unfold deplace_chemin, echange_chemin, pas_sous. split.
  - intros [[H ->]|(s0 & o & d & q & Hm & -> & ->)].
    + left. split_and!; [|..|done]; [apply (H s from to)|apply (H c to from)]; apply W; tauto.
    + right. exists q. apply W in Hm as [(-> & -> & ->)|(-> & -> & ->)]; tauto.
  - intros [(H1 & H2 & ->)|(q & [[-> ->]|[-> ->]])].
    + left. split; [|done]. intros s0 o d [(_ & -> & _)|(_ & -> & _)]%W; done.
    + right. exists s, from, to, q. split_and!; [apply W; tauto|done..].
    + right. exists c, to, from, q. split_and!; [apply W; tauto|done..].
Qed.

Lemma vue_transport w w' (R : chemin -> chemin -> Prop) :
  arbre_ok (nodes w) ->
  (forall cs' i, nomme (nodes w') cs' i <-> exists cs, nomme (nodes w) cs i /\ R cs cs') ->
  (forall i cs cs' n, nomme (nodes w) cs i -> R cs cs' -> vivant (nodes w) i n ->
     exists n', vivant (nodes w') i n' /\ fiche w' i n' = fiche w i n) ->
  forall cs' f, vue w' cs' f <-> exists cs, vue w cs f /\ R cs cs'.
Proof.
  intros A Hn Hf cs' f. split.
  - intros (i & n' & (cs & H & HR)%Hn & V' & <-). destruct (nomme_vivant _ _ _ A H) as [n V].
    destruct (Hf i cs cs' n H HR V) as (m & Vm & E). exists cs. split; [|done].
    rewrite (vivant_fun _ _ _ _ V' Vm), E. by apply vue_intro.
  - intros (cs & (i & n & H & V & <-) & HR). destruct (Hf i cs cs' n H HR V) as (n' & V' & <-).
    apply vue_intro; [|done]. apply Hn. eauto.
Qed.

(** ** The commands *)

Section Commandes.
Context (k : Noyau).

Lemma deplace_spec s q nom ns w :
  length (nodes w) = MAX_NODES -> nodes w !! s = Some ns -> nom_acceptable nom = true ->
  wp (deplace k s q nom) (fun w' r => r = 0 /\
    devient w (<[s := avec_name nom (avec_parent q ns)]> (nodes w)) (used_relaxed w) w') w.
Proof.
  intros Hl E Hn. unfold deplace. apply wp_lie. eapply wp_noeud; [exact E|].
  exec touche_spec; [done|]. intros w1 _ (E1 & U1 & C1).
  exec touche_spec; [rewrite <-Hl; by apply table_longueur|]. intros w2 _ (E2 & U2 & C2).
  rewrite E1 in E2. destruct (table_lookup (nodes w) (nodes w2) s ns) as (n2 & En2 & Ec); [done..|].
  assert (s < length (nodes w2))%nat as Hs by (by eapply lookup_lt_Some).
  eapply wp_modifie_suite; [exact En2|]. apply wp_lie. unfold set_name. rewrite Hn.
  eapply wp_modifie_suite; [cbn; by rewrite list_lookup_insert_eq|].
  unfold wp, rend. split; [done|]. split_and!; [|cbn; congruence|etrans; [exact C1|exact C2]].
  cbn. rewrite list_insert_insert_eq. trans (<[s := avec_name nom (avec_parent q ns)]> (nodes w2)).
  - apply insert_corps. destruct ns, n2. unfold corps, avec_mtime in *. cbn in *.
    injection Ec; intros; subst. done.
  - by apply table_insert.
Qed.

Lemma echange_spec s c ns nc w :
  length (nodes w) = MAX_NODES -> s <> c ->
  nodes w !! s = Some ns -> nodes w !! c = Some nc ->
  wp (echange k s c) (fun w' r => r = 0 /\
    devient w (<[c := avec_name (name ns) (avec_parent (parent ns) nc)]>
                 (<[s := avec_name (name nc) (avec_parent (parent nc) ns)]> (nodes w)))
      (used_relaxed w) w') w.
Proof.
  intros Hl Hne Es Ec. unfold echange. apply wp_lie. eapply wp_noeud; [exact Es|].
  apply wp_lie. eapply wp_noeud; [exact Ec|].
  assert (s < length (nodes w))%nat as Hs by (by eapply lookup_lt_Some).
  assert (c < length (nodes w))%nat as Hc by (by eapply lookup_lt_Some).
  eapply wp_modifie_suite; [exact Es|].
  eapply wp_modifie_suite; [cbn; by rewrite list_lookup_insert_ne by done|].
  apply wp_lie. eapply wp_noeud.
  { cbn. rewrite list_lookup_insert_ne, list_lookup_insert_eq by done. done. }
  apply wp_lie. eapply wp_noeud.
  { cbn. rewrite list_lookup_insert_eq; [done|]. by rewrite length_insert. }
  exec touche_spec; [cbn; by rewrite !length_insert|]. intros w1 _ (E1 & U1 & C1).
  exec touche_spec.
  { rewrite (table_longueur _ _ E1). cbn. by rewrite !length_insert. }
  intros w2 _ (E2 & U2 & C2). split; [done|].
  split_and!; [by rewrite E2, E1|cbn in *; congruence|etrans; [exact C1|exact C2]].
Qed.
End Commandes.

(** ** The tree after *)

Lemma monde_ok_devient w l u w' :
  devient w l u w' -> arbre_ok l -> u = Z.of_nat (used_nodes l) -> monde_ok w'.
Proof.
  intros (E & Eu & _) A ->. split; [by rewrite E|]. rewrite Eu. f_equal. symmetry. by rewrite E.
Qed.

Lemma devient_nomme w l u w' cs i : devient w l u w' -> nomme (nodes w') cs i <-> nomme l cs i.
Proof. intros (E & _). by rewrite E. Qed.

Lemma devient_vivant w l u w' i n :
  devient w l u w' -> vivant l i n -> exists n', vivant (nodes w') i n' /\ fiche w' i n' = fiche w i n.
Proof.
  intros (E & _ & X & _) V. destruct (table_vivant l (nodes w') i n) as (n' & V' & C); [done..|].
  exists n'. split; [done|]. by apply fiche_corps.
Qed.

Lemma fiche_place w i n s p : fiche w i (avec_name s (avec_parent p n)) = fiche w i n.
Proof. done. Qed.

Lemma used_nodes_place l i n n' :
  l !! i = Some n -> used n' = used n -> used_nodes (<[i := n']> l) = used_nodes l.
Proof. intros E U. pose proof (used_nodes_insert l i n n' E). rewrite U in *. lia. Qed.

Section Tree.
Context (w w' : Monde) (Hw : monde_ok w) (s : nat) (ns : Node) (from to : chemin).
Context (Vs : vivant (nodes w) s ns) (Hs0 : s <> 0%nat) (Hfrom : nomme (nodes w) from s).

(** A node under a free name of a directory that is not below it. *)
Lemma apres_deplacement q nq dd nom :
  to = dd ++ [nom] -> nomme (nodes w) dd q -> vivant (nodes w) q nq -> kind nq = Dir -> bon_nom nom ->
  ~ from `prefix_of` dd -> find_child (nodes w) q nom = None ->
  devient w (<[s := avec_name nom (avec_parent q ns)]> (nodes w)) (used_relaxed w) w' ->
  monde_ok w' /\ (forall cs' i, nomme (nodes w') cs' i <->
     exists cs, nomme (nodes w) cs i /\ renomme_chemin from to cs cs') /\
  (forall cs' f, vue w' cs' f <-> exists cs, vue w cs f /\ renomme_chemin from to cs cs').
Proof.
  intros -> Hdd Vq Kq Bn Hns Hlib D. pose proof (proj1 Hw) as A. pose proof Vs as [Es Us].
  set (n' := avec_name nom (avec_parent q ns)) in *.
  assert (arbre_ok (<[s := n']> (nodes w))) as A'
    by (by apply (un_deplacement_ok (nodes w) A s ns n' nq from dd)).
  assert (forall cs' i, nomme (nodes w') cs' i <->
     exists cs, nomme (nodes w) cs i /\ renomme_chemin from (dd ++ [nom]) cs cs') as Hn.
  { intros cs' i. rewrite (devient_nomme _ _ _ _ _ _ D).
    rewrite (un_deplacement_nomme (nodes w) A s ns n' from dd Vs Hs0 Hfrom Hdd Hns Us cs' i).
    by setoid_rewrite deplace_chemin_un. }
  split; [|split; [done|]].
  - eapply monde_ok_devient; [done..|]. rewrite (used_nodes_place _ s ns) by done. apply Hw.
  - apply vue_transport; [done..|]. intros i cs cs' n Hi _ V.
    assert (exists m, vivant (<[s := n']> (nodes w)) i m /\ fiche w i m = fiche w i n) as (m & Vm & <-).
    { destruct (decide (i = s)) as [->|Hne].
      - exists n'. rewrite (vivant_fun _ _ _ _ V Vs). split; [|done].
        apply vivant_insert; [by eapply vivant_lt|]. by left.
      - exists n. split; [|done]. apply vivant_insert; [by eapply vivant_lt|]. by right. }
    by eapply devient_vivant.
Qed.

Lemma apres_echange c nc :
  vivant (nodes w) c nc -> c <> 0%nat -> nomme (nodes w) to c ->
  ~ from `prefix_of` to -> ~ to `prefix_of` from ->
  devient w (<[c := avec_name (name ns) (avec_parent (parent ns) nc)]>
              (<[s := avec_name (name nc) (avec_parent (parent nc) ns)]> (nodes w))) (used_relaxed w) w' ->
  monde_ok w' /\
  (forall cs' f, vue w' cs' f <-> exists cs, vue w cs f /\ echange_chemin from to cs cs').
Proof.
  intros Vc Hc0 Hto H1 H2 D. pose proof (proj1 Hw) as A. pose proof Vs as [Es Us]. pose proof Vc as [Ec Uc].
  set (ns' := avec_name (name nc) (avec_parent (parent nc) ns)) in *.
  set (nc' := avec_name (name ns) (avec_parent (parent ns) nc)) in *.
  assert (s <> c) as Hsc by (by eapply echange_differents).
  assert (arbre_ok (<[c := nc']> (<[s := ns']> (nodes w)))) as A'
    by (by apply (echange_ok (nodes w) A s c ns nc ns' nc' from to)).
  split.
  - eapply monde_ok_devient; [done..|]. rewrite (used_nodes_place _ c nc), (used_nodes_place _ s ns);
      [apply Hw|done..|by rewrite list_lookup_insert_ne|done].
  - apply vue_transport; [done| |].
    + intros cs' i. rewrite (devient_nomme _ _ _ _ _ _ D).
      rewrite (echange_nomme (nodes w) A s c ns nc ns' nc' from to); try done.
      by setoid_rewrite deplace_chemin_deux.
    + intros i cs cs' n Hi _ V.
      assert (exists m, vivant (<[c := nc']> (<[s := ns']> (nodes w))) i m /\ fiche w i m = fiche w i n)
        as (m & Vm & <-); [|by eapply devient_vivant].
      assert (forall j m, vivant (<[c := nc']> (<[s := ns']> (nodes w))) j m <->
        (j = s /\ m = ns') \/ (j = c /\ m = nc') \/ (j <> s /\ j <> c /\ vivant (nodes w) j m)) as W
        by (intros j m; eapply (echange_vivant (nodes w) s c ns nc ns' nc' from to); done).
      destruct (decide (i = s)) as [->|Hs]; [exists ns'; rewrite (vivant_fun _ _ _ _ V Vs), W; tauto|].
      destruct (decide (i = c)) as [->|Hc]; [exists nc'; rewrite (vivant_fun _ _ _ _ V Vc), W; tauto|].
      exists n. rewrite W. tauto.
Qed.
End Tree.

(** Nothing is below a file. *)
Lemma fichier_feuille l from s ns cs j :
  arbre_ok l -> nomme l from s -> vivant l s ns -> kind ns = File ->
  nomme l cs j -> from `prefix_of` cs -> cs = from.
Proof.
  intros A Hs Vs K Hj [[|x q] ->]; [by rewrite app_nil_r|]. exfalso.
  rewrite cons_middle, app_assoc in Hj. apply nomme_prefixe in Hj as [i Hi].
  apply nomme_enfant_inv in Hi as (n & V & H0 & Hp & <-).
  pose proof (nomme_noeud_unique _ _ _ _ A Hp Hs) as E.
  apply (fichier_sans_enfant l s ns A Vs K i n V); [|done]. intros ->.
  eapply nomme_pas_son_parent; [exact Hs|exact V|done|done].
Qed.

Lemma pas_au_dessus l from s ns dd q nq :
  arbre_ok l -> nomme l from s -> vivant l s ns -> nomme l dd q -> vivant l q nq -> kind nq = Dir ->
  (kind ns = Dir -> ~ from `prefix_of` dd) -> ~ from `prefix_of` dd.
Proof.
  intros A Hs Vs Hq Vq Kq Hd Hp. destruct (kind ns) eqn:K; [|by apply Hd].
  rewrite (fichier_feuille l from s ns dd q A Hs Vs K Hq Hp) in Hq.
  rewrite (nomme_noeud_unique _ _ _ _ A Hq Hs) in Vq. rewrite (vivant_fun _ _ _ _ Vq Vs) in Kq. congruence.
Qed.

Lemma pas_prefixe_suivi (a b : chemin) x : ~ a `prefix_of` b -> a <> b ++ [x] -> ~ a `prefix_of` b ++ [x].
Proof. rewrite prefix_snoc. tauto. Qed.

(** Freeing a node without children removes its path. *)
Lemma apres_liberation w w1 c nc n' cs :
  monde_ok w -> nomme (nodes w) cs c -> vivant (nodes w) c nc -> c <> 0%nat ->
  sans_enfant (nodes w) c -> used n' = false ->
  devient w (<[c := n']> (nodes w)) (used_relaxed w - 1) w1 ->
  monde_ok w1 /\ (forall ds i, nomme (nodes w1) ds i <-> nomme (nodes w) ds i /\ ds <> cs) /\
  (forall i n, i <> c -> vivant (nodes w) i n ->
     exists n1, vivant (nodes w1) i n1 /\ corps n1 = corps n) /\
  (forall ds f, vue w1 ds f <-> vue w ds f /\ ds <> cs).
Proof.
  intros Hw Hc Vc H0 Hse Hn' D. pose proof (proj1 Hw) as A.
  assert (forall ds i, nomme (nodes w1) ds i <-> nomme (nodes w) ds i /\ ds <> cs) as Hn.
  { intros ds i. rewrite (devient_nomme _ _ _ _ _ _ D), (retrait_nomme (nodes w) c nc n') by done.
    split; intros [Hi Hd]; (split; [done|]); intros ->.
    - by rewrite (nomme_noeud_unique _ _ _ _ A Hi Hc) in Hd.
    - by rewrite (nomme_chemin_unique _ _ _ _ Hi Hc) in Hd. }
  assert (forall i n, i <> c -> vivant (nodes w) i n -> exists n1, vivant (nodes w1) i n1 /\ corps n1 = corps n) as Hv.
  { intros i n Hi V. destruct (table_vivant (<[c := n']> (nodes w)) (nodes w1) i n) as (n1 & ? & ?);
      [by destruct D as (E & _); rewrite E|by eapply retrait_vivant|by exists n1]. }
  split_and!; [|done..|].
  - eapply monde_ok_devient; [done|by eapply retrait_ok|]. destruct Hw as [_ ->].
    pose proof (used_nodes_insert (nodes w) c nc n' (proj1 Vc)) as U.
    rewrite Hn', (proj2 Vc) in U. cbn in U. lia.
  - intros ds f. rewrite (vue_transport w w1 (fun a b => a = b /\ a <> cs)); [|done| |].
    + naive_solver.
    + intros ds' i. rewrite Hn. naive_solver.
    + intros i ds1 ds2 n Hi [<- Hd] V. destruct (Hv i n) as (n1 & V1 & E); [|done|].
      { intros ->. by rewrite (nomme_chemin_unique _ _ _ _ Hi Hc) in Hd. }
      exists n1. split; [done|]. apply fiche_corps; [done|]. apply D.
Qed.

Import Renommage(Action, Deplacer, Remplacer, Echanger, Rien).

(** The tree after each action. *)
Definition apres (w : Monde) (from to : chemin) (a : Action) (cs' : chemin) (f : Fiche) : Prop :=
  match a with
  | Rien => vue w cs' f
  | Deplacer => exists cs, vue w cs f /\ renomme_chemin from to cs cs'
  | Remplacer => exists cs, vue w cs f /\ cs <> to /\ renomme_chemin from to cs cs'
  | Echanger => exists cs, vue w cs f /\ echange_chemin from to cs cs'
  end.

Section Renomme.
Context (k : Noyau) (w : Monde) (flags : Z) (from to : chemin) (Hw : monde_ok w).
#[local] Abbreviation l := (nodes w).
#[local] Abbreviation reussi a := (fun w' r => r = 0 /\ monde_ok w' /\
  forall cs' f, vue w' cs' f <-> apres w from to a cs' f).
Context (s q : nat) (ns nq : Node) (dd : chemin) (nom : list Z).
Context (Hs : nomme l from s) (Vs : vivant l s ns) (Hs0 : s <> 0%nat).
Context (Hto : to = dd ++ [nom]) (Hq : nomme l dd q) (Vq : vivant l q nq) (Kq : kind nq = Dir).
Context (Bn : bon_nom nom) (Hdir : ~ from `prefix_of` dd).

Lemma nom_acceptable_bon : nom_acceptable nom = true.
Proof.
  destruct Bn as [(H & _) Hl]. unfold nom_acceptable. destruct nom; [done|].
  by apply Nat.leb_le in Hl as ->.
Qed.

Lemma deplacer_spec : (forall c, ~ nomme l to c) -> wp (deplace k s q nom) (reussi Deplacer) w.
Proof.
  intros Hn. eapply wp_mono; [apply (deplace_spec k s q nom ns); [apply Hw|apply Vs|apply nom_acceptable_bon]|].
  intros w' r [-> D]. split; [done|].
  destruct (find_child l q nom) as [c|] eqn:Ef.
  { destruct (Hn c). rewrite Hto. eapply find_child_nomme; [apply Hw|done|by left|done]. }
  by destruct (apres_deplacement w w' Hw s ns from to Vs Hs0 Hs q nq dd nom) as (? & _ & ?).
Qed.

Lemma remplacer_spec c nc :
  nomme l to c -> vivant l c nc -> from <> to -> kind ns = kind nc ->
  (kind nc = Dir -> sans_enfant l c) ->
  wp (libere_noeud c ;;; deplace k s q nom) (reussi Remplacer) w.
Proof.
  intros Hc Vc Hft Hk Hse. pose proof (proj1 Hw) as A.
  assert (c <> 0%nat) as Hc0.
  { intros ->. apply nomme_racine_inv in Hc. rewrite Hto in Hc. by destruct dd. }
  assert (sans_enfant l c) as Hse'.
  { destruct (kind nc) eqn:K; [by eapply fichier_sans_enfant|by apply Hse]. }
  exec (libere_noeud_spec c nc); [done..|]. intros w1 _ D.
  destruct (apres_liberation w w1 c nc (avec_content [] (avec_used false nc)) to Hw Hc Vc Hc0 Hse' eq_refl D) as (Hw1 & Hn1 & Hv1 & Hvue1).
  destruct (Hv1 s ns) as (ns1 & Vs1 & Es1); [|done|].
  { intros ->. by rewrite (nomme_chemin_unique _ _ _ _ Hs Hc) in Hft. }
  assert (dd <> to) as Hdt.
  { rewrite Hto. intros E. apply (f_equal length) in E. rewrite length_app in E. cbn in E. lia. }
  destruct (Hv1 q nq) as (nq1 & Vq1 & Eq1); [|done|].
  { intros ->. by rewrite (nomme_chemin_unique _ _ _ _ Hq Hc) in Hdt. }
  eapply wp_mono; [apply (deplace_spec k s q nom ns1); [apply Hw1|apply Vs1|apply nom_acceptable_bon]|].
  intros w' r [-> D']. split; [done|].
  assert (kind nq1 = Dir) as Kq1 by (change (kind (corps nq1) = Dir); by rewrite Eq1).
  assert (find_child (nodes w1) q nom = None) as Ef.
  { destruct (find_child (nodes w1) q nom) as [c'|] eqn:Ef; [|done].
    eapply (find_child_nomme (nodes w1) dd) in Ef; [|apply Hw1|by apply Hn1|by left].
    rewrite <-Hto in Ef. by apply Hn1 in Ef as [_ ?]. }
  destruct (apres_deplacement w1 w' Hw1 s ns1 from to Vs1 Hs0) with q nq1 dd nom as (? & _ & Hvue);
    try done; [by apply Hn1|by apply Hn1|].
  split; [done|]. intros cs' f. rewrite Hvue. setoid_rewrite Hvue1. cbn. naive_solver.
Qed.

Lemma echanger_spec c nc :
  nomme l to c -> vivant l c nc -> from <> to ->
  (kind nc = Dir -> ~ to `prefix_of` removelast from) ->
  wp (echange k s c) (reussi Echanger) w.
Proof.
  intros Hc Vc Hft Hsc. pose proof (proj1 Hw) as A.
  assert (c <> 0%nat) as Hc0.
  { intros ->. apply nomme_racine_inv in Hc. rewrite Hto in Hc. by destruct dd. }
  assert (s <> c) as Hne.
  { intros ->. by rewrite (nomme_chemin_unique _ _ _ _ Hs Hc) in Hft. }
  eapply wp_mono; [apply (echange_spec k s c ns nc); [apply Hw|done|apply Vs|apply Vc]|].
  intros w' r [-> D]. split; [done|]. eapply (apres_echange w w' Hw s ns from to Vs Hs0 Hs c nc); try done.
  - rewrite Hto in *. by apply pas_prefixe_suivi.
  - pose proof (parent_nomme _ _ _ _ A Hs Vs) as Hps.
    destruct (nomme_range _ _ _ _ A Hs Vs Hs0) as (_ & _ & np & Vp & Kp).
    assert (~ to `prefix_of` removelast from) as Hn by (by eapply pas_au_dessus).
    destruct from as [|x ff _] using rev_ind; [by apply nomme_vide in Hs|].
    rewrite removelast_last in Hn. by apply pas_prefixe_suivi.
Qed.
End Renomme.

Theorem renomme_spec k flags from to w :
  monde_ok w -> Forall composant from -> Forall composant to -> 0 <= flags < u32_max ->
  wp (renomme k flags (joint from) (joint to)) (fun w' r => monde_ok w' /\
    ((exists a, permis w flags from to a /\ r = 0 /\
        forall cs' f, vue w' cs' f <-> apres w from to a cs' f) \/
     ((forall a, ~ permis w flags from to a) /\ r < 0 /\ w' = w))) w.
Proof.
  intros Hw Hf Ht Hfl. unfold renomme. exec (demande_spec w flags from to Hw Hf Ht).
  intros w0 [[[[d source] p] nom] cible] [-> T].
  assert (forall a, Renommage.decide d = inl a <-> permis w flags from to a) as Hdec.
  { intros a. rewrite decide_accepte by (by rewrite (tr_drapeaux _ _ _ _ _ _ _ _ _ T)).
    by eapply accepte_permis. }
  destruct (Renommage.decide d) as [a|code] eqn:E.
  2:{ split; [done|]. right. split_and!; [|apply decide_erreur in E; lia|done].
      intros a Ha%Hdec. done. }
  assert (permis w flags from to a) as Hp by (by apply Hdec).
  pose proof Hp as (_ & Hf0 & fs & dd & x & fd & (s & ns & Hs & Vs & <-) & Hto & Hx & (q & nq & Hq & Vq & <-) & Kq & Hc).
  destruct (tr_parent_nom _ _ _ _ _ _ _ _ _ T dd x q Hto Hq) as [-> ->].
  assert (source = Some s) as -> by (by apply (tr_source _ _ _ _ _ _ _ _ _ T)).
  assert (s <> 0%nat) as Hs0 by (intros ->; by apply nomme_racine_inv in Hs).
  assert (Renommage.parent_cible d = Renommage.ParentDossier) as P.
  { apply (tr_parent_d _ _ _ _ _ _ _ _ _ T). by exists q, nq. }
  assert (bon_nom x) as Bx.
  { split; [|done]. rewrite Hto in Ht. apply Forall_app in Ht as [_ H1]. exact (proj1 (Forall_singleton _ _) H1). }
  assert (forall c, cible = Some c <-> nomme (nodes w) to c) as Hcib by (by apply (tr_cible _ _ _ _ _ _ _ _ _ T)).
  assert ((f_kind (fiche w s ns) = Dir -> ~ from `prefix_of` dd) -> ~ from `prefix_of` dd) as Hpre.
  { intros H. by eapply (pas_au_dessus (nodes w) from s ns dd q nq (proj1 Hw)). }
  assert (forall w' r, r = 0 /\ monde_ok w' /\ (forall cs' f, vue w' cs' f <-> apres w from to a cs' f) ->
    monde_ok w' /\ ((exists a, permis w flags from to a /\ r = 0 /\
        forall cs' f, vue w' cs' f <-> apres w from to a cs' f) \/
     ((forall a, ~ permis w flags from to a) /\ r < 0 /\ w' = w))) as Hfin by naive_solver.
  destruct Hc as [(Hn & -> & _ & Hd & _)|(ft & (c & nc & Hc & Vc & <-) & _ & [(_ & ->)|(Hne & Hd & _ & _ & Hc')])].
  - eapply wp_mono; [eapply (deplacer_spec k w from to Hw s q ns nq dd x); eauto|by apply Hfin].
    intros c Hc. apply Hn. by eapply nomme_existe; [apply Hw|].
  - by apply Hfin.
  - assert (cible = Some c) as -> by (by apply Hcib).
    destruct Hc' as [(_ & -> & Hsc)|(_ & -> & Hk & Hse)].
    + eapply wp_mono; [eapply (echanger_spec k w from to Hw); eauto|by apply Hfin].
    + eapply wp_mono; [eapply (remplacer_spec k w from to Hw s q ns nq dd x); eauto|by apply Hfin].
      intros K. eapply sans_enfant_vue; [apply Hw|done| |by apply Hse].
      intros ->. apply nomme_racine_inv in Hc. rewrite Hto in Hc. by destruct dd.
Qed.
End RamfsApplique.
