(* ===== verification/RamfsAppelsProofs.v ===== *)
(** The calls, one by one: each ends, keeps the invariant of the tree, and either leaves it
    unchanged with an error or changes the view exactly as announced. *)

From S2P Require Import Prelude Ramfs RamfsProofs RamfsOps RamfsChemins Renommage RamfsAppels RamfsVue RamfsApplique.

Module RamfsAppelsProofs.
Import Ramfs RamfsProofs RamfsArbre RamfsOps RamfsChemins RamfsSpecs RamfsAppels RamfsVue RamfsRenomme RamfsApplique.
Open Scope Z_scope.
Open Scope os_scope.

(** The climb from the current directory and from the directory descriptors to the root ends: true
    of every node of the tree, and of a removed directory unless its slot, used again, was
    made its own ancestor, in which case the kernel recurses until it stops. *)
Definition bases_ok (k : Noyau) (w : Monde) : Prop :=
  is_Some (path_string (nodes w) (cwd k)) /\
  (forall fd i, dossier_de_fd k fd = inl i -> is_Some (path_string (nodes w) i)) /\
  (forall fd e, dossier_de_fd k fd = inr e -> e < 0).
Lemma bases_nommees k w : monde_ok w ->
  (exists cs, nomme (nodes w) cs (cwd k)) -> (forall fd i, dossier_de_fd k fd = inl i -> exists cs, nomme (nodes w) cs i) ->
  (forall fd e, dossier_de_fd k fd = inr e -> e < 0) -> bases_ok k w.
Proof.
  intros [A _] (cs & Hc) Hd He. split; [|split; [|done]]; [|intros fd i (ds & Hi)%Hd];
    erewrite path_string_nomme by done; by eexists.
Qed.

(** The path a call with this descriptor and this user string is about. *)
Definition designe (k : Noyau) (w : Monde) (dirfd a : Z) (cs : chemin) : Prop :=
  Forall composant cs /\ chemin_de k dirfd a w = (w, inl (inl (joint cs))).

Lemma joint_inj cs ds : Forall composant cs -> Forall composant ds -> joint cs = joint ds -> cs = ds.
Proof. intros H1 H2 E. by rewrite <-(composants_joint cs), <-(composants_joint ds), E. Qed.

Lemma designe_fun k w dirfd a cs ds : designe k w dirfd a cs -> designe k w dirfd a ds -> cs = ds.
Proof. intros [H1 E1] [H2 E2]. apply joint_inj; [done..|]. rewrite E1 in E2. congruence. Qed.

(** Either the call stops on an error of the path, or the path is known. *)
Lemma exec_chemin {A} k dirfd a (kont : list Z + Z -> F A) Q w :
  monde_ok w -> bases_ok k w ->
  (forall e, e < 0 -> (forall cs, ~ designe k w dirfd a cs) -> wp (kont (inr e)) Q w) ->
  (forall cs, designe k w dirfd a cs -> wp (kont (inl (joint cs))) Q w) ->
  wp (c <- chemin_de k dirfd a ;; kont c) Q w.
Proof.
  intros Hw (Hc & Hf & Hn) He Hk. pose proof (chemin_de_spec k dirfd a w Hc Hf Hn) as H.
  apply wp_elim in H as (w' & r & E & -> & Hr). eapply wp_pas; [exact E|]. destruct r as [p|e].
  - destruct Hr as (cs & -> & H). apply Hk. by split.
  - apply He; [done|]. intros cs [_ E']. congruence.
Qed.

(** A new node under a directory, seen from outside. *)
Lemma apres_ajout w w' n i dd q nq :
  monde_ok w -> nomme (nodes w) dd q -> vivant (nodes w) q nq -> kind nq = Dir ->
  parent n = q -> used n = true -> bon_nom (name n) -> find_child (nodes w) q (name n) = None ->
  installe_en w n i w' ->
  monde_ok w' /\ vivant (<[i := n]> (nodes w)) i n /\
  (forall cs f, vue w' cs f <-> vue w cs f \/ (cs = dd ++ [name n] /\ f = fiche w i n)) /\
  (forall cs j, nomme (nodes w) cs j -> nomme (nodes w') cs j).
Proof.
  intros Hw Hdd Vq Kq Hp Un Bn Hlib (Hpl & H0 & (m & Em & Um) & D). pose proof (proj1 Hw) as A.
  subst q.
  assert (forall cs j, nomme (nodes w') cs j <-> nomme (nodes w) cs j \/ (cs = dd ++ [name n] /\ j = i)) as Hn.
  { intros cs j. rewrite (devient_nomme _ _ _ _ _ _ D). by eapply ajout_nomme. }
  assert (vivant (<[i := n]> (nodes w)) i n) as Vi.
  { apply vivant_insert; [by eapply lookup_lt_Some|]. by left. }
  split_and!; [|done| |].
  - eapply monde_ok_devient; [done|by eapply ajout_ok|].
    pose proof (used_nodes_insert (nodes w) i m n Em) as U. rewrite Um, Un in U. cbn in U.
    destruct Hw as [_ ->]. lia.
  - intros cs f. split.
    + intros (j & n' & [H|[-> ->]]%Hn & V' & <-).
      * left. destruct (nomme_vivant _ _ _ A H) as [nj Vj].
        destruct (devient_vivant _ _ _ _ j nj D) as (n'' & V'' & E); [by eapply ajout_conserve|].
        rewrite (vivant_fun _ _ _ _ V' V''), E. by apply vue_intro.
      * right. split; [done|]. destruct (devient_vivant _ _ _ _ i n D Vi) as (n'' & V'' & E).
        by rewrite (vivant_fun _ _ _ _ V' V'').
    + intros [(j & nj & H & Vj & <-)|[-> ->]].
      * destruct (devient_vivant _ _ _ _ j nj D) as (n'' & V'' & <-); [by eapply ajout_conserve|].
        apply vue_intro; [apply Hn; by left|done].
      * destruct (devient_vivant _ _ _ _ i n D Vi) as (n'' & V'' & <-).
        apply vue_intro; [apply Hn; by right|done].
  - intros cs j H. apply Hn. by left.
Qed.

(** A cell changed without moving. *)
Lemma apres_retouche w w' i n n' :
  monde_ok w -> nodes w !! i = Some n -> forme n' = forme n ->
  devient w (<[i := n']> (nodes w)) (used_relaxed w) w' ->
  monde_ok w' /\ (forall cs j, nomme (nodes w') cs j <-> nomme (nodes w) cs j).
Proof.
  intros Hw E F D. assert (meme_arbre (<[i := n']> (nodes w)) (nodes w)) as M by (by eapply insert_meme_forme).
  split.
  - eapply monde_ok_devient; [done|by rewrite M; apply Hw|]. rewrite M. apply Hw.
  - intros cs j. rewrite (devient_nomme _ _ _ _ _ _ D). by rewrite M.
Qed.

(** Rights given to a node just installed. *)
Lemma installe_droits w w1 n i m u g :
  installe_en w n i w1 -> used n = true ->
  wp (modifie i (avec_droits m u g)) (fun w' _ => installe_en w (avec_droits m u g n) i w') w1.
Proof.
  intros (Hpl & H0 & Hm & (E1 & U1 & C1)) Un.
  assert (i < length (nodes w))%nat as Hi by (destruct Hm as (? & ? & _); by eapply lookup_lt_Some).
  destruct (table_lookup (<[i := n]> (nodes w)) (nodes w1) i n) as (n1 & En1 & Ec);
    [done|by rewrite list_lookup_insert_eq|].
  eapply wp_modifie; [exact En1|]. split_and!; try done. split_and!; [|done..]. cbn.
  trans (<[i := avec_droits m u g n]> (nodes w1)).
  - apply insert_corps. destruct n, n1. unfold corps, avec_mtime in *. cbn in *.
    injection Ec; intros; subst. done.
  - rewrite (table_insert i _ _ eq_refl _ _ E1). by rewrite list_insert_insert_eq.
Qed.

Section Appels.
Context (k : Noyau) (w : Monde) (Hw : monde_ok w) (Hb : bases_ok k w).
#[local] Abbreviation env := (envir k).

(** ** Creating a directory *)

Definition peut_creer (cs : chemin) : Prop :=
  ~ existe w cs /\ exists dd nom fd, cs = dd ++ [nom] /\ vue w dd fd /\ f_kind fd = Dir /\
    (length nom <= NAME_LEN)%nat /\ exists i, premier_libre (nodes w) = Some i.
Definition peut_mkdir (dirfd a : Z) (cs : chemin) : Prop :=
  designe k w dirfd a cs /\ existence_visible k w (joint cs) = false /\
  autorise k w Create (joint cs) = true /\ peut_creer cs.

Lemma composant_acceptable s : composant s -> nom_acceptable s = true <-> (length s <= NAME_LEN)%nat.
Proof.
  intros (H & _). unfold nom_acceptable. rewrite andb_true_iff, negb_true_iff, Nat.eqb_neq, Nat.leb_le.
  split; [by intros [_ ?]|]. intros ?. split; [|done]. by destruct s.
Qed.

(** What the parent lookup finds. *)
Lemma resolve_parent_cas cs :
  Forall composant cs ->
  (resolve_parent_name (nodes w) (joint cs) 0 = None /\ ~ peut_creer cs) \/
  exists dd nom q nq, cs = dd ++ [nom] /\ resolve_parent_name (nodes w) (joint cs) 0 = Some (q, nom) /\
    composant nom /\ nomme (nodes w) dd q /\ vivant (nodes w) q nq /\
    (forall c, find_child (nodes w) q nom = Some c <-> nomme (nodes w) cs c).
Proof.
  intros H. pose proof (proj1 Hw) as A. destruct cs as [|nom dd _] using rev_ind.
  { left. split; [done|]. intros (_ & dd & ? & ? & E & _). by destruct dd. }
  rewrite resolve_parent_joint by done. pose proof H as [Hd Hn]%Forall_app.
  pose proof (proj1 (Forall_singleton _ _) Hn) as Hcn.
  assert (forall q, suit_composants (nodes w) 0 dd = Some q <-> nomme (nodes w) dd q) as Hq.
  { intros q. apply (suit_composants_nomme _ dd 0%nat q [] A (nomme_racine _) Hd). }
  destruct (suit_composants (nodes w) 0 dd) as [q|] eqn:E; cbn.
  - right. assert (nomme (nodes w) dd q) as Hdd by (by apply Hq).
    destruct (nomme_vivant _ _ _ A Hdd) as [nq Vq].
    exists dd, nom, q, nq. split_and!; try done. intros c.
    apply find_child_nomme; [done..|]. right. apply Hcn.
  - left. split; [done|]. intros (_ & dd' & x & fd & [<- _]%app_inj_tail & (q & ? & Hn'%Hq & _) & _). done.
Qed.

Lemma peut_creer_iff dd nom q nq :
  nomme (nodes w) dd q -> vivant (nodes w) q nq ->
  peut_creer (dd ++ [nom]) <->
  ~ existe w (dd ++ [nom]) /\ kind nq = Dir /\ (length nom <= NAME_LEN)%nat /\
  is_Some (premier_libre (nodes w)).
Proof.
  intros Hq Vq. unfold peut_creer. split.
  - intros (? & dd' & nom' & fd & [<- <-]%app_inj_tail & Hv & K & ? & i & ?). split_and!; [done| |done|eauto].
    rewrite <-K. rewrite (vue_fun w dd fd (fiche w q nq) (proj1 Hw) Hv (vue_intro w dd q nq Hq Vq)). done.
  - intros (? & ? & ? & i & ?). split; [done|]. exists dd, nom, (fiche w q nq).
    split_and!; [done|by apply vue_intro|done..|by exists i].
Qed.

Definition apres_mkdir (dirfd a m : Z) (w' : Monde) (r : Z) : Prop :=
  monde_ok w' /\ (forall cs j, nomme (nodes w) cs j -> nomme (nodes w') cs j) /\
  ((r < 0 /\ w' = w /\ forall cs, ~ peut_mkdir dirfd a cs) \/
   (r = 0 /\ exists cs i, peut_mkdir dirfd a cs /\ premier_libre (nodes w) = Some i /\
     forall ds f, vue w' ds f <-> vue w ds f \/
       (ds = cs /\ f = mk_fiche Dir [] (Z.land m 511) (owner_uid env) (owner_gid env) (is_disk_backed w i)))).

Lemma mkdir_refus dirfd a m e : e < 0 -> (forall cs, ~ peut_mkdir dirfd a cs) -> apres_mkdir dirfd a m w e.
Proof. intros. split_and!; [done..|by left]. Qed.

Lemma errno_creation_pos r : 0 < errno_creation r.
Proof. by destruct r. Qed.

Lemma sys_mkdirat_spec dirfd a m : wp (sys_mkdirat k dirfd a m) (apres_mkdir dirfd a m) w.
Proof.
  unfold sys_mkdirat. apply exec_chemin; [done..| |].
  { intros e He Hd. apply mkdir_refus; [done|]. intros cs [? _]. by destruct (Hd cs). }
  intros cs Hcs.
  assert (forall e, e < 0 -> ~ peut_mkdir dirfd a cs -> apres_mkdir dirfd a m w e) as Herr.
  { intros e He Hn. apply mkdir_refus; [done|]. intros cs' Hp. pose proof Hp as [Hd _].
    by rewrite (designe_fun _ _ _ _ _ _ Hd Hcs) in Hp. }
  apply wp_lie, wp_lis. destruct (existence_visible k w (joint cs)) eqn:Hv.
  { apply Herr; [done|]. intros (_ & ? & _). congruence. }
  apply wp_lie, wp_lis. destruct (autorise k w Create (joint cs)) eqn:Ha.
  2:{ apply Herr; [done|]. intros (_ & _ & ? & _). congruence. }
  apply wp_lie, wp_lis. pose proof Hcs as [Hc _].
  destruct (resolve_parent_cas cs Hc) as [[-> Hn]|(dd & nom & q & nq & -> & -> & Hcn & Hq & Vq & Hfc)].
  { apply Herr; [done|]. by intros (_ & _ & _ & ?). }
  assert (forall e, e < 0 -> (existe w (dd ++ [nom]) \/ kind nq <> Dir \/ (NAME_LEN < length nom)%nat \/
    premier_libre (nodes w) = None) -> apres_mkdir dirfd a m w e) as Herr'.
  { intros e He Hx. apply Herr; [done|]. intros (_ & _ & _ & Hp).
    apply (peut_creer_iff dd nom q nq Hq Vq) in Hp as (? & ? & ? & []). 
    destruct Hx as [?|[?|[?|?]]]; [done|done|lia|congruence]. }
  case_bool_decide as Hex.
  { apply Herr'; [done|left]. destruct Hex as [c Hx%Hfc]. by eapply nomme_existe; [apply Hw|]. }
  exec (mkdir_at_spec env q nom nq); [done|apply Vq|]. intros w1 [i|e].
  - intros (Kq & Hlib & Hna & Hi). eapply wp_lie, wp_mono; [by apply installe_droits|].
    intros w2 [] Hi2. apply composant_acceptable in Hna as Hl; [|done].
    eapply (apres_ajout _ _ _ _ dd q nq) in Hi2 as (Hw2 & _ & Hvue & Hn2); [|done..].
    split_and!; [done..|right]. split; [done|]. exists (dd ++ [nom]), i.
    split_and!; [|apply Hi|done]. split_and!; [done..|]. apply (peut_creer_iff dd nom q nq); [done..|].
    split_and!; [|done..|exists i; apply Hi]. intros (c & Hx)%existe_nomme. apply Hex. exists c. by apply Hfc.
  - intros [-> He]. apply Herr'; [pose proof (errno_creation_pos e); lia|].
    destruct He as [[[-> ?]|(_ & _ & [[-> Hna]|(-> & _ & ?)])]|[-> ?]]; [tauto| |tauto|tauto].
    right. right. left. destruct (Nat.lt_ge_cases NAME_LEN (length nom)) as [|Hge]; [done|].
    apply (composant_acceptable nom Hcn) in Hge. congruence.
Qed.

(** ** Removing *)

Definition peut_retirer (flags : Z) (cs : chemin) : Prop :=
  cs <> [] /\ exists f, vue w cs f /\ f_disque f = false /\
    (f_kind f = Dir <-> flags = AT_REMOVEDIR) /\ (f_kind f = Dir -> forall x, ~ existe w (cs ++ [x])).
Definition peut_unlink (dirfd a flags : Z) (cs : chemin) : Prop :=
  (flags = 0 \/ flags = AT_REMOVEDIR) /\ designe k w dirfd a cs /\
  autorise k w Remove (joint cs) = true /\ peut_retirer flags cs.
Definition apres_unlink (dirfd a flags : Z) (w' : Monde) (r : Z) : Prop :=
  monde_ok w' /\
  ((r < 0 /\ w' = w /\ forall cs, ~ peut_unlink dirfd a flags cs) \/
   (r = 0 /\ exists cs, peut_unlink dirfd a flags cs /\
     forall ds f, vue w' ds f <-> vue w ds f /\ ds <> cs)).

(** Every bit but one clear: two values. *)
Lemma drapeaux_unlink flags :
  0 <= flags < u32_max -> Z.land flags (Z.lxor (u32_max - 1) AT_REMOVEDIR) = 0 <-> flags = 0 \/ flags = AT_REMOVEDIR.
Proof.
  intros Hf. split; [|by intros [->| ->]]. intros H.
  assert (flags = Z.land flags AT_REMOVEDIR) as E.
  { apply Z.bits_inj'. intros i Hi. rewrite Z.land_spec.
    assert (Z.testbit (Z.land flags (Z.lxor (u32_max - 1) AT_REMOVEDIR)) i = false) as B
      by (rewrite H; apply Z.bits_0).
    rewrite Z.land_spec, Z.lxor_spec in B. apply (mot_bits 32) in Hf as [_ Hf]; [|lia].
    destruct (Z.le_gt_cases 32 i) as [Hi'|Hi']; [by rewrite Hf|].
    change (u32_max - 1) with (Z.ones 32) in B. rewrite Z.testbit_ones in B by lia.
    destruct (Z.leb_spec 0 i), (Z.ltb_spec i 32); try lia. cbn in B.
    destruct (Z.testbit flags i), (Z.testbit AT_REMOVEDIR i); done. }
  rewrite E. change AT_REMOVEDIR with (2 ^ 9). destruct (Z.testbit flags 9) eqn:B.
  - right. apply Z.bits_inj'. intros i Hi. rewrite Z.land_spec, Z.pow2_bits_eqb by lia.
    destruct (Z.eqb_spec 9 i) as [<-|]; [by rewrite B|apply andb_false_r].
  - left. apply Z.bits_inj'. intros i Hi. rewrite Z.land_spec, Z.pow2_bits_eqb, Z.bits_0 by lia.
    destruct (Z.eqb_spec 9 i) as [<-|]; [by rewrite B|apply andb_false_r].
Qed.

(** The removal itself, once every check passed. *)
Lemma retire_noeud_spec cs node n :
  nomme (nodes w) cs node -> vivant (nodes w) node n -> node <> 0%nat -> sans_enfant (nodes w) node ->
  wp (touche env (parent n) ;;; libere_noeud node ;;; rend 0) (fun w' r => r = 0 /\ monde_ok w' /\
    forall ds f, vue w' ds f <-> vue w ds f /\ ds <> cs) w.
Proof.
  intros Hn V H0 Hse. exec touche_spec; [apply Hw|]. intros w1 _ D1. pose proof D1 as (E1 & U1 & X1 & _).
  assert (monde_ok w1) as Hw1 by (eapply monde_ok_devient; [exact D1|apply Hw|apply Hw]).
  destruct (table_vivant (nodes w) (nodes w1) node n) as (n1 & V1 & C1); [done..|].
  exec (libere_noeud_spec node n1); [done..|]. intros w2 [] D2. split; [done|].
  assert (nomme (nodes w1) cs node) as Hn1 by (by rewrite E1).
  assert (sans_enfant (nodes w1) node) as Hse1.
  { apply is_empty_dir_spec. rewrite E1. by apply is_empty_dir_spec. }
  destruct (apres_liberation w1 w2 node n1 (avec_content [] (avec_used false n1)) cs Hw1 Hn1 V1 H0 Hse1 eq_refl D2)
    as (? & _ & _ & Hvue).
  split; [done|]. intros ds f. rewrite Hvue. apply and_iff_compat_r.
  rewrite (vue_transport w w1 eq); [naive_solver|apply Hw| |].
  - intros ds' i. rewrite E1. naive_solver.
  - intros i ds1 ds2 m _ _ Vm. destruct (table_vivant (nodes w) (nodes w1) i m) as (m1 & ? & ?); [done..|].
    exists m1. split; [done|]. by apply fiche_corps.
Qed.

Lemma sys_unlinkat_spec dirfd a flags :
  0 <= flags < u32_max -> wp (sys_unlinkat k dirfd a flags) (apres_unlink dirfd a flags) w.
Proof.
  intros Hf. pose proof (proj1 Hw) as A. unfold sys_unlinkat.
  destruct (Z.eqb_spec (Z.land flags (Z.lxor (u32_max - 1) AT_REMOVEDIR)) 0) as [Hfl|Hfl]; cbn [negb].
  2:{ split; [done|left]. split_and!; [done..|]. intros cs [Hx _]. by apply drapeaux_unlink in Hx. }
  apply drapeaux_unlink in Hfl; [|done]. apply exec_chemin; [done..| |].
  { intros e He Hd. split; [done|left]. split_and!; [done..|]. intros cs (_ & ? & _). by destruct (Hd cs). }
  intros cs Hcs.
  assert (forall e, e < 0 -> ~ peut_unlink dirfd a flags cs -> apres_unlink dirfd a flags w e) as Herr.
  { intros e He Hn. split; [done|left]. split_and!; [done..|]. intros cs' Hp. pose proof Hp as (_ & Hd & _).
    by rewrite (designe_fun _ _ _ _ _ _ Hd Hcs) in Hp. }
  apply wp_lie, wp_lis. destruct (autorise k w Remove (joint cs)) eqn:Ha.
  2:{ apply Herr; [done|]. intros (_ & _ & ? & _). congruence. }
  apply wp_lie, wp_lis.
  assert (forall i, resolve (nodes w) (joint cs) 0 = Some i <-> nomme (nodes w) cs i) as Hres.
  { intros i. apply resolve_nomme; [done|]. apply Hcs. }
  destruct (resolve (nodes w) (joint cs) 0) as [node|] eqn:Er.
  2:{ apply Herr; [done|]. intros (_ & _ & _ & _ & f & (i & ? & Hx%Hres & _) & _). done. }
  assert (nomme (nodes w) cs node) as Hnode by (by apply Hres).
  destruct node as [|node'].
  { apply Herr; [done|]. apply nomme_racine_inv in Hnode as ->. by intros (_ & _ & _ & ? & _). }
  set (node := S node') in *. destruct (nomme_vivant _ _ _ A Hnode) as [n V].
  assert (peut_unlink dirfd a flags cs <-> is_disk_backed w node = false /\
    (kind n = Dir <-> flags = AT_REMOVEDIR) /\ (kind n = Dir -> is_empty_dir (nodes w) node = true)) as Hp.
  { unfold peut_unlink, peut_retirer. rewrite is_empty_dir_spec, (sans_enfant_vue w cs node A Hnode) by done.
    split.
    - intros (_ & _ & _ & _ & f & Hv & H). 
      by rewrite (vue_fun w cs f (fiche w node n) A Hv (vue_intro w cs node n Hnode V)) in H.
    - intros H. split_and!; [done..| |]; [intros ->; by apply nomme_vide in Hnode|].
      exists (fiche w node n). split; [by apply vue_intro|done]. }
  apply wp_lie, wp_lis. destruct (is_disk_backed w node) eqn:Hd.
  { apply Herr; [done|]. rewrite Hp. by intros [? _]. }
  apply wp_lie. eapply wp_noeud; [apply V|].
  assert (negb (Z.land flags AT_REMOVEDIR =? 0) = bool_decide (flags = AT_REMOVEDIR)) as ->
    by (by destruct Hfl as [->| ->]).
  assert (est_dir (kind n) = bool_decide (kind n = Dir)) as -> by (by destruct (kind n)).
  destruct (decide (flags = AT_REMOVEDIR)) as [Hfr|Hfr], (decide (kind n = Dir)) as [K|K];
    rewrite ?(bool_decide_true (flags = _)), ?(bool_decide_false (flags = _)) by done;
    rewrite ?(bool_decide_true (kind n = _)), ?(bool_decide_false (kind n = _)) by done; cbn [andb negb];
    try (apply Herr; [done|]; rewrite Hp; tauto).
  - destruct (is_empty_dir (nodes w) node) eqn:He; cbn [negb].
    2:{ apply Herr; [done|]. rewrite Hp. intros (_ & _ & H). by specialize (H K). }
    eapply wp_mono; [apply (retire_noeud_spec cs node n); [done..|by apply is_empty_dir_spec]|].
    intros w' r (-> & ? & ?). split; [done|]. right. split; [done|]. exists cs. split; [|done]. by apply Hp.
  - eapply wp_mono; [apply (retire_noeud_spec cs node n); [done..|]|].
    { eapply fichier_sans_enfant; [done..|]. by destruct (kind n). }
    intros w' r (-> & ? & ?). split; [done|]. right. split; [done|]. exists cs. split; [|done]. by apply Hp.
Qed.

(** ** Renaming *)

Definition peut_renommer (od fa nd ta flags : Z) (from to : chemin) (a : Renommage.Action) : Prop :=
  designe k w od fa from /\ designe k w nd ta to /\
  autorise k w RenameSource (joint from) = true /\ autorise k w RenameTarget (joint to) = true /\
  permis w flags from to a.
Definition apres_rename (od fa nd ta flags : Z) (w' : Monde) (r : Z) : Prop :=
  monde_ok w' /\
  ((r < 0 /\ w' = w /\ forall from to a, ~ peut_renommer od fa nd ta flags from to a) \/
   (r = 0 /\ exists from to a, peut_renommer od fa nd ta flags from to a /\
     forall cs f, vue w' cs f <-> apres w from to a cs f)).

(** Either the path is refused, or it is known. *)
Lemma absolu_cas dirfd a raw :
  user_string k a = Some raw ->
  (exists e, e < 0 /\ absolute_at k dirfd raw w = (w, inl (inr e)) /\ forall cs, ~ designe k w dirfd a cs) \/
  exists cs, designe k w dirfd a cs /\ absolute_at k dirfd raw w = (w, inl (inl (joint cs))).
Proof.
  intros E. destruct Hb as (Hc & Hf & Hn). pose proof (chemin_de_spec k dirfd a w Hc Hf Hn) as H.
  apply wp_elim in H as (w' & r & Er & -> & Hr).
  assert (forall cs, designe k w dirfd a cs -> absolute_at k dirfd raw w = (w, inl (inl (joint cs)))) as Hd.
  { intros cs [_ H]. unfold chemin_de in H. by rewrite E in H. }
  unfold chemin_de in Er. rewrite E in Er. destruct r as [p|e].
  - right. destruct Hr as (cs & -> & H). exists cs. split; [|done]. split; [done|].
    unfold chemin_de. by rewrite E.
  - left. exists e. split_and!; [done..|]. intros cs H%Hd. congruence.
Qed.

Lemma rename_refus od fa nd ta flags e :
  e < 0 -> (forall from to a, ~ peut_renommer od fa nd ta flags from to a) ->
  apres_rename od fa nd ta flags w e.
Proof. intros. split; [done|]. by left. Qed.

Lemma sys_renameat2_spec od fa nd ta flags :
  0 <= flags < u32_max -> wp (sys_renameat2 k od fa nd ta flags) (apres_rename od fa nd ta flags) w.
Proof.
  intros Hfl. unfold sys_renameat2.
  destruct (user_string k fa) as [fr|] eqn:Ef.
  2:{ apply rename_refus; [done|]. intros from to a ([_ H] & _). unfold chemin_de in H. by rewrite Ef in H. }
  destruct (user_string k ta) as [tr|] eqn:Et.
  2:{ apply rename_refus; [done|]. intros from to a (_ & [_ H] & _). unfold chemin_de in H. by rewrite Et in H. }
  destruct (absolu_cas od fa fr Ef) as [(e & He & E & Hn)|(from & Hfrom & E)]; (eapply wp_pas; [exact E|]).
  { apply rename_refus; [done|]. intros from to a [? _]. by eapply Hn. }
  destruct (absolu_cas nd ta tr Et) as [(e & He & E' & Hn)|(to & Hto & E')]; (eapply wp_pas; [exact E'|]).
  { apply rename_refus; [done|]. intros ? to a (_ & ? & _). by eapply Hn. }
  assert (forall e, e < 0 -> (forall a, ~ peut_renommer od fa nd ta flags from to a) ->
    apres_rename od fa nd ta flags w e) as Herr.
  { intros e He Hn. apply rename_refus; [done|]. intros from' to' a Hp. pose proof Hp as (H1 & H2 & _).
    rewrite (designe_fun _ _ _ _ _ _ H1 Hfrom), (designe_fun _ _ _ _ _ _ H2 Hto) in Hp. by eapply Hn. }
  apply wp_lie, wp_lis. destruct (autorise k w RenameSource (joint from)) eqn:A1.
  2:{ apply Herr; [done|]. intros a (_ & _ & ? & _). congruence. }
  apply wp_lie, wp_lis. destruct (autorise k w RenameTarget (joint to)) eqn:A2.
  2:{ apply Herr; [done|]. intros a (_ & _ & _ & ? & _). congruence. }
  eapply wp_mono; [apply (renomme_spec k flags from to w Hw (proj1 Hfrom) (proj1 Hto) Hfl)|].
  intros w' r [Hw' [(a & Hp & -> & Hv)|(Hn & Hr & ->)]].
  - split; [done|]. right. split; [done|]. exists from, to, a. done.
  - apply Herr; [done|]. intros a (_ & _ & _ & _ & ?). by eapply Hn.
Qed.
End Appels.
End RamfsAppelsProofs.
