(* ===== verification/RamfsTrace.v ===== *)
(** Every sequence of calls, from the mount on: the tree stays a tree and no call panics. *)

From S2P Require Import Prelude Ramfs RamfsProofs RamfsOps Renommage RamfsAppels RamfsChemins RamfsVue RamfsApplique RamfsAppelsProofs.
From stdpp Require Import strings.

Module RamfsTrace.
Import Ramfs RamfsProofs RamfsArbre RamfsOps RamfsChemins RamfsSpecs RamfsAppels RamfsVue RamfsRenomme RamfsApplique RamfsAppelsProofs.
Open Scope Z_scope.
Open Scope os_scope.

(** ** Operations that keep the tree *)

Definition dossier (w : Monde) (p : nat) : Prop := exists n, vivant (nodes w) p n /\ kind n = Dir.
(** The tree is kept and every directory stays one. *)
Definition garde_arbre (w w' : Monde) : Prop := monde_ok w' /\ forall p, dossier w p -> dossier w' p.

Lemma garde_arbre_id w : monde_ok w -> garde_arbre w w.
Proof. by split. Qed.
Lemma garde_arbre_trans w w' w'' : garde_arbre w w' -> garde_arbre w' w'' -> garde_arbre w w''.
Proof. intros [_ H] [? H']. split; eauto. Qed.

Lemma racine_dossier w : monde_ok w -> dossier w 0.
Proof. intros [A _]. destruct (ao_racine _ A) as (n & ? & ? & _). by exists n. Qed.

Lemma devient_dossier w l u w' p n : devient w l u w' -> vivant l p n -> kind n = Dir -> dossier w' p.
Proof.
  intros D V K. destruct (devient_vivant w l u w' p n D V) as (n' & V' & E). exists n'. split; [done|].
  change (f_kind (fiche w' p n') = Dir). by rewrite E.
Qed.

(** Cells written without moving keep the tree. *)
Lemma garde_retouche w l u w' :
  monde_ok w -> meme_arbre l (nodes w) -> u = used_relaxed w -> devient w l u w' -> garde_arbre w w'.
Proof.
  intros Hw M -> D. split.
  - eapply monde_ok_devient; [done|by rewrite M; apply Hw|]. rewrite M. apply Hw.
  - intros p (n & V & K). destruct (arbre_vivant (nodes w) l p n) as (n' & V' & (_ & ? & _)%forme_eq); [done..|].
    eapply devient_dossier; [done..|congruence].
Qed.

Lemma garde_ajout w w' n i q s :
  monde_ok w -> dossier w q -> parent n = q -> used n = true -> name n = s -> composant s ->
  nom_acceptable s = true -> find_child (nodes w) q s = None -> installe_en w n i w' ->
  garde_arbre w w' /\ (kind n = Dir -> dossier w' i) /\ nodes w' !! i <> None.
Proof.
  intros Hw (nq & Vq & Kq) Hp Un <- Hc Ha Hlib Hi. apply composant_acceptable in Ha; [|done].
  destruct (dossier_nomme _ _ _ (proj1 Hw) Vq Kq) as [dd Hdd].
  pose proof Hi as (_ & _ & (m & Em & Um) & D).
  eapply (apres_ajout w w' n i dd q nq) in Hi as (Hw' & Vi & _ & _); try done.
  destruct (devient_vivant _ _ _ _ i n D Vi) as (n' & [E' _] & _). split_and!; [split; [done|]| |congruence].
  - intros p (np & Vp & Kp). eapply devient_dossier; [exact D|by eapply ajout_conserve|done].
  - intros K. by eapply devient_dossier.
Qed.

Section Env.
Context (env : Env).

Lemma mkdir_garde p s w :
  monde_ok w -> dossier w p -> composant s ->
  wp (mkdir_at env p s) (fun w' r => garde_arbre w w' /\ dossier w' (ou_zero r)) w.
Proof.
  intros Hw Hp Hs. pose proof Hp as (n & V & K).
  eapply wp_mono; [apply (mkdir_at_spec env p s n); [done|apply V]|]. intros w' [i|e].
  - intros (_ & Hlib & Ha & Hi). eapply garde_ajout in Hi as (? & Hd & _); try done. split; [done|]. by apply Hd.
  - intros [-> _]. split; [by apply garde_arbre_id|by apply racine_dossier].
Qed.

Lemma touch_garde p s w :
  monde_ok w -> dossier w p -> composant s ->
  wp (touch_at env p s) (fun w' r => garde_arbre w w' /\ nodes w' !! ou_zero r <> None) w.
Proof.
  intros Hw Hp Hs. pose proof Hp as (n & V & K).
  assert (forall i, find_child (nodes w) p s = Some i -> nodes w !! i <> None) as Hf.
  { intros i (m & [E _] & _)%find_child_ok; [congruence|apply Hw]. }
  eapply wp_mono; [apply (touch_at_spec env p s n); [done|apply V]|]. intros w' [i|e].
  - intros (_ & [[-> E]|(Hlib & Ha & Hi)]); [split; [by apply garde_arbre_id|cbn; eauto]|].
    by eapply garde_ajout in Hi as (? & _ & ?).
  - intros [-> _]. split; [by apply garde_arbre_id|].
    destruct (racine_dossier w Hw) as (r & [E _] & _). cbn. congruence.
Qed.

Lemma write_garde i data w :
  monde_ok w -> nodes w !! i <> None ->
  wp (write_node_bytes env i data) (fun w' _ => garde_arbre w w') w.
Proof.
  intros Hw Hi. unfold write_node_bytes. destruct (_ <? _); [by apply garde_arbre_id|].
  destruct (nodes w !! i) as [n|] eqn:E; [|done]. apply wp_lie. unfold wp at 1, unregister, change.
  set (w1 := avec_extents _ _ w). assert (monde_ok w1) as Hw1 by done.
  eapply wp_modifie_suite; [exact E|]. exec touche_spec; [cbn; rewrite length_insert; apply Hw|].
  intros w2 [] D. assert (garde_arbre w1 w2) as [? Hd].
  { eapply (garde_retouche w1 (<[i := avec_content data n]> (nodes w))); [done| |done|done].
    by eapply insert_meme_forme. }
  by split.
Qed.

Lemma texte_garde p nom texte w :
  monde_ok w -> dossier w p -> composant (octets nom) ->
  wp (depose_texte env p nom texte) (fun w' _ => garde_arbre w w') w.
Proof.
  intros Hw Hp Hn. unfold depose_texte. exec touch_garde; [done..|]. intros w1 r [G1 Hi].
  unfold write_node. exec write_garde; [apply G1|done|]. intros w2 b G2.
  by eapply garde_arbre_trans.
Qed.

Lemma optionnel_garde p nom texte w :
  monde_ok w -> dossier w p -> composant (octets nom) ->
  wp (manifeste_optionnel env p nom texte) (fun w' _ => garde_arbre w w') w.
Proof.
  intros Hw Hp Hn. unfold manifeste_optionnel. exec touch_garde; [done..|]. intros w1 [i|e] [G1 Hi]; [|done].
  unfold write_node. exec write_garde; [apply G1|done|]. intros w2 b G2.
  by eapply garde_arbre_trans.
Qed.

(** The table of one root. *)
Lemma racine_seule_ok n : used n = true -> kind n = Dir -> parent n = 0%nat -> name n = [] ->
  arbre_ok (<[0%nat := n]> (replicate MAX_NODES empty)) /\
  used_nodes (<[0%nat := n]> (replicate MAX_NODES empty)) = 1%nat.
Proof.
  intros U K P N. assert (replicate MAX_NODES empty !! 0%nat = Some empty) as E0.
  { apply lookup_replicate_2. unfold MAX_NODES. lia. }
  assert (forall i m, vivant (<[0%nat := n]> (replicate MAX_NODES empty)) i m <-> i = 0%nat /\ m = n) as W.
  { intros i m. rewrite vivant_insert by (by eapply lookup_lt_Some). split; [|intros [-> ->]; tauto].
    intros [(-> & -> & _)|[_ [E Um]]]; [done|]. apply lookup_replicate in E as [-> _]. done. }
  split.
  - apply arbre_ok_intro.
    + by rewrite length_insert, length_replicate.
    + exists n. by rewrite W.
    + intros i m H0 [-> _]%W. done.
    + by intros i j ni nj [-> ->]%W [-> ->]%W.
  - pose proof (used_nodes_insert _ 0%nat empty n E0) as H. rewrite U in H. cbn in H.
    assert (used_nodes (replicate MAX_NODES empty) = 0%nat) as Z0; [|lia].
    unfold used_nodes. generalize MAX_NODES as m. induction m as [|m IH]; [done|].
    cbn [replicate]. by rewrite filter_cons_False.
Qed.

Lemma composant_octets s :
  bool_decide (octets s <> [] /\ ~ (SLASH ∈ octets s) /\ octets s <> POINT /\ octets s <> POINT_POINT) = true ->
  composant (octets s).
Proof. by intros ?%bool_decide_eq_true. Qed.

(** One step of the mount: the tree is kept and the directories known so far remain. *)
Ltac etape_init L :=
  exec L; [assumption|by eauto 30 using racine_dossier|by apply composant_octets; vm_compute|];
  intros ? ? ?; repeat match goal with
  | H : _ /\ _ |- _ => destruct H
  | H : garde_arbre _ _ |- _ => destruct H
  end.

Lemma manifestes_garde p w :
  monde_ok w -> dossier w p -> wp (manifestes env p) (fun w' _ => garde_arbre w w') w.
Proof.
  intros Hw Hp. unfold manifestes. do 4 etape_init texte_garde. etape_init optionnel_garde.
  eapply wp_mono; [apply optionnel_garde; [done|by eauto 30|by apply composant_octets; vm_compute]|].
  intros w' _ [? ?]. split; [done|]. by eauto 30.
Qed.

(** The mount, whatever the table held. *)
Lemma init_ok w : wp (init env) (fun w' _ => monde_ok w') w.
Proof.
  unfold init. apply wp_lie. unfold wp at 1, change.
  eapply wp_modifie_suite.
  { cbn. apply lookup_replicate_2. unfold MAX_NODES. lia. }
  apply wp_lie. unfold wp at 1, heure.
  eapply wp_modifie_suite.
  { cbn. apply list_lookup_insert_eq. rewrite length_replicate. unfold MAX_NODES. lia. }
  apply wp_lie. unfold wp at 1, change. cbn [nodes avec_nodes avance avec_used_relaxed].
  rewrite list_insert_insert_eq.
  match goal with |- wp _ _ ?v => set (w1 := v) end.
  assert (monde_ok w1) as Hw1.
  { destruct (racine_seule_ok (avec_mtime (unix_time env (tic w))
      (avec_droits 493 0 0 (avec_parent 0 (avec_kind Dir (avec_used true empty)))))) as [A U]; [done..|].
    split; [exact A|]. change (nodes w1) with
      (<[0%nat := avec_mtime (unix_time env (tic w))
         (avec_droits 493 0 0 (avec_parent 0 (avec_kind Dir (avec_used true empty))))]> (replicate MAX_NODES empty)).
    by rewrite U. }
  clearbody w1. clear w. do 5 etape_init (mkdir_garde).
  etape_init mkdir_garde. apply wp_lie.
  eapply (wp_mono _ (fun w' _ => garde_arbre s'4 w')).
  { case_match; [|by apply garde_arbre_id].
    exec mkdir_garde; [done..|by apply composant_octets; vm_compute|]. by intros ? ? [? _]. }
  intros w5 [] [? ?]. etape_init mkdir_garde. apply wp_lie.
  eapply (wp_mono _ (fun w' _ => garde_arbre s'5 w')).
  { case_match; [by apply manifestes_garde|by apply garde_arbre_id]. }
  intros w7 [] [? ?]. do 2 etape_init texte_garde. case_match; [|done].
  assert (dossier s'7 (ou_zero x0)) as (n & V & K) by eauto 30.
  eapply wp_modifie; [apply V|]. eapply (garde_retouche s'7 _ _ _); [done| |done|done].
  eapply insert_meme_forme; [apply V|done].
Qed.
End Env.

(** ** Calls that keep the tree *)

Section Appels.
Context (k : Noyau) (w : Monde) (Hw : monde_ok w) (Hb : bases_ok k w).

Lemma contenu_garde i f :
  nodes w !! i <> None ->
  wp (modifie i (fun n => avec_content (f (content n)) n) ;;; touche (envir k) i ;;; rend 0)
    (fun w' _ => monde_ok w') w.
Proof.
  intros Hi. destruct (nodes w !! i) as [n|] eqn:E; [|done].
  eapply wp_modifie_suite; [exact E|]. exec touche_spec; [cbn; rewrite length_insert; apply Hw|].
  intros w2 [] D.
  eapply (apres_retouche w w2 i n (avec_content (f (content n)) n)); [done..|]. exact D.
Qed.

Lemma truncate_garde a len : wp (sys_truncate k a len) (fun w' _ => monde_ok w') w.
Proof.
  unfold sys_truncate. apply exec_chemin; [done..|done|]. intros cs Hcs.
  destruct (_ <? _); [done|]. apply wp_lie, wp_lis. destruct (autorise_ouverture _ _ _ _); [|done].
  apply wp_lie, wp_lis. destruct (resolve _ _ _) as [i|]; [|done].
  destruct (nodes w !! i) as [n|] eqn:E; [|done]. destruct (used n); [|done].
  destruct (est_dir _); [done|]. apply wp_lie, wp_lis. destruct (is_disk_backed _ _); [done|].
  apply (contenu_garde i (fun c => redimensionne c len)). congruence.
Qed.

Lemma ftruncate_garde i len :
  nodes w !! i <> None -> wp (ftruncate_noeud k i len) (fun w' _ => monde_ok w') w.
Proof.
  intros Hi. unfold ftruncate_noeud. apply wp_lie, wp_lis. destruct (is_disk_backed _ _); [done|].
  destruct (_ <? _); [done|]. by apply (contenu_garde i (fun c => redimensionne c len)).
Qed.

Lemma memfd_garde a : wp (memfd_noeud k a) (fun w' _ => monde_ok w') w.
Proof.
  unfold memfd_noeud. destruct (user_string k a) as [nom|]; [|done].
  exec cree_anonyme_spec; [done|]. intros w1 [i|e]; [|by intros [-> _]]. intros Hi.
  pose proof Hi as (_ & _ & (m & Em & Um) & (E1 & _)).
  set (n := neuf File i _ _ _ _) in *. assert (i < length (nodes w))%nat as Hlt by (by eapply lookup_lt_Some).
  destruct (table_lookup (<[i := n]> (nodes w)) (nodes w1) i n) as (n1 & En1 & Ec);
    [done|by rewrite list_lookup_insert_eq|].
  assert (used n1 = true /\ kind n1 = File /\ parent n1 = i) as (U1 & K1 & P1).
  { destruct n1. unfold corps, avec_mtime in Ec. cbn in Ec. by injection Ec; intros; subst. }
  assert (monde_ok w1) as Hw1.
  { destruct Hi as (_ & _ & _ & D). eapply monde_ok_devient; [exact D|by eapply anonyme_ok; [apply Hw|..]|].
    pose proof (used_nodes_insert (nodes w) i m n Em) as U. rewrite Um in U. cbn in U.
    destruct Hw as [_ ->]. lia. }
  eapply wp_modifie_suite; [exact En1|]. unfold wp, rend.
  by eapply (apres_retouche w1 _ i n1
    (avec_droits (mode n1) (owner_uid (envir k)) (owner_gid (envir k)) n1)).
Qed.

Lemma ferme_garde i : wp (libere_anonyme i) (fun w' _ => monde_ok w') w.
Proof.
  eapply wp_mono; [by apply libere_anonyme_spec|]. intros w' [] H; [|by destruct H as [-> _]].
  destruct H as (n & V & H0 & Hp & D).
  assert (kind n = File) as K.
  { destruct (ao_noeud _ (proj1 Hw) i n H0 V) as [[_ ?]|(_ & _ & ? & _)]; [done|congruence]. }
  eapply monde_ok_devient; [exact D| |].
  - eapply (retrait_ok (nodes w) (proj1 Hw) i n); [done..|]. eapply fichier_sans_enfant; [apply Hw|done..].
  - pose proof (used_nodes_insert (nodes w) i n empty (proj1 V)) as U. rewrite (proj2 V) in U. cbn in U.
    destruct Hw as [_ ->]. lia.
Qed.

Lemma prepare_garde i flags :
  nodes w !! i <> None -> wp (prepare_ouverture k i flags) (fun w' _ => monde_ok w') w.
Proof.
  intros Hi. destruct (nodes w !! i) as [n|] eqn:E; [|done]. unfold prepare_ouverture.
  apply wp_lie. eapply wp_noeud; [exact E|]. destruct (_ && _); [done|]. destruct (_ && _); [done|].
  apply wp_lie, wp_lis. destruct (_ && _); [done|]. apply wp_lie. destruct (_ && _).
  - eapply wp_modifie_suite; [exact E|]. eapply wp_mono.
    { apply touche_spec. cbn. rewrite length_insert. apply Hw. }
    intros w2 [] D.
    assert (monde_ok w2) as Hw2 by (eapply (apres_retouche w w2 i n (avec_content [] n)); done).
    assert (i < length (nodes w2))%nat as Hlt.
    { rewrite (ao_longueur _ (proj1 Hw2)), <-(ao_longueur _ (proj1 Hw)). by eapply lookup_lt_Some. }
    destruct (lookup_lt_is_Some_2 _ _ Hlt) as [n2 E2]. apply wp_lie. by eapply wp_noeud.
  - unfold wp at 1, rend. apply wp_lie. by eapply wp_noeud.
Qed.
End Appels.

(** What other tasks do between the two holds of the lock of an [openat] keeps the tree. *)
Definition interfere (entre : F unit) : Prop :=
  forall w, monde_ok w -> wp entre (fun w' _ => monde_ok w') w.

Lemma ouvre_garde k w entre cs flags m :
  monde_ok w -> interfere entre -> Forall composant cs ->
  wp (ouvre_noeud k entre (joint cs) flags m) (fun w' r => monde_ok w' /\
    match r with inl i => nodes w' !! i <> None | inr _ => True end) w.
Proof.
  intros Hw He Hcs. unfold ouvre_noeud. apply wp_lie, wp_lis. rewrite resolve_joint by done.
  destruct (suit_composants (nodes w) 0 cs) as [i|] eqn:E.
  - destruct (_ =? _); [done|]. split; [done|].
    apply (suit_composants_nomme _ cs 0%nat i [] (proj1 Hw) (nomme_racine _) Hcs) in E.
    destruct (nomme_vivant _ _ _ (proj1 Hw) E) as (n & En & _). congruence.
  - destruct (_ =? _); [done|]. exec He; [done|]. intros w1 [] Hw1. apply wp_lie, wp_lis.
    assert (resolve_parent_name (nodes w1) (joint cs) (cwd k) = resolve_parent_name (nodes w1) (joint cs) 0) as ->.
    { destruct cs as [|x dd _] using rev_ind; [done|]. by rewrite !resolve_parent_joint. }
    destruct (resolve_parent_cas w1 Hw1 cs Hcs) as [[-> _]|(dd & nom & q & nq & -> & -> & Hcn & Hq & Vq & Hfc)]; [done|].
    destruct (find_child (nodes w1) q nom) as [c|] eqn:Ef.
    + destruct (negb _); [done|]. split; [done|].
      apply find_child_ok in Ef as (n & [En _] & _); [congruence|apply Hw1].
    + exec (touch_at_spec (envir k) q nom nq); [done|apply Vq|]. intros w2 [i|e]; [|by intros [-> _]].
      intros (Kq & [[-> ?]|(Hlib & Ha & Hi)]); [congruence|].
      eapply wp_lie, wp_mono; [by apply installe_droits|]. intros w3 [] Hi3.
      eapply garde_ajout in Hi3 as ([? _] & _ & ?); try done. by exists nq.
Qed.

Lemma openat_garde k w entre dirfd a flags m :
  monde_ok w -> bases_ok k w -> interfere entre ->
  wp (openat_noeud k entre dirfd a flags m) (fun w' _ => monde_ok w') w.
Proof.
  intros Hw Hb He. unfold openat_noeud. apply exec_chemin; [done..|done|]. intros cs [Hcs _].
  apply wp_lie, wp_lis. destruct (autorise_ouverture _ _ _ _); [|done].
  exec ouvre_garde; [done..|]. intros w1 [i|e] [Hw1 Hi]; [|done].
  exec prepare_garde; [done..|]. by intros w2 [[? ?]|].
Qed.

(** ** Traces *)

Inductive Appel :=
| AMkdir (dirfd a m : Z)
| AUnlink (dirfd a flags : Z)
| ARename (od fa nd ta flags : Z)
| AOpen (entre : F unit) (dirfd a flags m : Z)
| ATruncate (a len : Z)
| AFtruncate (i : nat) (len : Z)
| AEcrit (i : nat) (data : list Z)
| AMemfd (a : Z)
| AFermeAnonyme (i : nat).

Definition execute (k : Noyau) (c : Appel) : F unit :=
  match c with
  | AMkdir dirfd a m => sys_mkdirat k dirfd a m ;;; rend tt
  | AUnlink dirfd a flags => sys_unlinkat k dirfd a flags ;;; rend tt
  | ARename od fa nd ta flags => sys_renameat2 k od fa nd ta flags ;;; rend tt
  | AOpen entre dirfd a flags m => openat_noeud k entre dirfd a flags m ;;; rend tt
  | ATruncate a len => sys_truncate k a len ;;; rend tt
  | AFtruncate i len => ftruncate_noeud k i len ;;; rend tt
  | AEcrit i data => write_node_bytes (envir k) i data ;;; rend tt
  | AMemfd a => memfd_noeud k a ;;; rend tt
  | AFermeAnonyme i => libere_anonyme i ;;; rend tt
  end.

(** A call a process can make: the climb from its directories ends, its flags are 32-bit words,
    the inode of a descriptor is an index of the table. *)
Definition possible (k : Noyau) (w : Monde) (c : Appel) : Prop :=
  bases_ok k w /\
  match c with
  | AUnlink _ _ flags | ARename _ _ _ _ flags => 0 <= flags < u32_max
  | AOpen entre _ _ _ _ => interfere entre
  | AFtruncate i _ | AEcrit i _ => (i < MAX_NODES)%nat
  | _ => True
  end.

Inductive atteint : Monde -> Prop :=
| atteint_init env w w' : init env w = (w', inl tt) -> atteint w'
| atteint_appel k c w w' r : atteint w -> possible k w c -> execute k c w = (w', r) -> atteint w'.

Lemma execute_garde k c w :
  monde_ok w -> possible k w c -> wp (execute k c) (fun w' _ => monde_ok w') w.
Proof.
  intros Hw [Hb Hc].
  assert (forall i, (i < MAX_NODES)%nat -> nodes w !! i <> None) as Hi.
  { intros i Hi. rewrite <-(ao_longueur _ (proj1 Hw)) in Hi. apply lookup_lt_is_Some in Hi as [? ?]. congruence. }
  destruct c; cbn [execute] in *; apply wp_lie.
  - eapply wp_mono; [by apply sys_mkdirat_spec|]. by intros ? ? [? _].
  - eapply wp_mono; [by apply sys_unlinkat_spec|]. by intros ? ? [? _].
  - eapply wp_mono; [by apply sys_renameat2_spec|]. by intros ? ? [? _].
  - by eapply wp_mono; [by apply openat_garde|].
  - by eapply wp_mono; [by apply truncate_garde|].
  - by eapply wp_mono; [apply ftruncate_garde; auto|].
  - eapply wp_mono; [apply write_garde; auto|]. by intros ? ? [? _].
  - by eapply wp_mono; [by apply memfd_garde|].
  - by eapply wp_mono; [by apply ferme_garde|].
Qed.

Lemma atteint_ok w : atteint w -> monde_ok w.
Proof.
  induction 1 as [env w w' E|k c w w' r _ IH Hp E].
  - exact (wp_eq _ _ _ _ _ E (init_ok env w)).
  - pose proof (execute_garde k c w IH Hp) as (w1 & [] & E1 & ?)%wp_elim. congruence.
Qed.
End RamfsTrace.

(** What the file system promises: a tree under every sequence of calls, renames, creations
    and removals that change exactly the paths they should, and paths that lead back. *)

Module RamfsProps.
Import Ramfs RamfsProofs RamfsArbre RamfsOps RamfsChemins RamfsSpecs RamfsAppels RamfsVue RamfsRenomme RamfsApplique RamfsAppelsProofs RamfsTrace.
Open Scope Z_scope.
Open Scope os_scope.

(** ** A concrete kernel *)

Definition env_temoin : Env := mk_env (fun _ => 1000) 0 0 true 1000 1000.
Definition monde_vide : Monde := mk_monde [] 0 None 0 [] 1 0.
Definition monde_init : Monde := (init env_temoin monde_vide).1.
(** User addresses designate the texts of a list; everything is allowed. *)
Definition noyau_textes (textes : list string) : Noyau :=
  mk_noyau env_temoin (fun a => octets <$> textes !! Z.to_nat a) 0 (fun _ => inr (-9))
    (fun _ _ _ => true) (fun _ _ _ => true) (fun _ _ => false).

Lemma init_resultat : init env_temoin monde_vide = (monde_init, inl tt).
Proof.
  pose proof (init_ok env_temoin monde_vide) as (w & [] & E & _)%wp_elim. unfold monde_init. by rewrite E.
Qed.
Lemma monde_init_atteint : atteint monde_init.
Proof. by eapply atteint_init, init_resultat. Qed.
Lemma bases_textes textes w : monde_ok w -> bases_ok (noyau_textes textes) w.
Proof. intros Hw. apply bases_nommees; [done|exists []; constructor|done|]. by intros ? ? [= <-]. Qed.

(** ** The tree *)

(** C11. Whatever the sequence of directory creations, removals, renames with any flags, opens
    with creation interleaved with other tasks, truncations by path or by descriptor, writes of
    whole contents, creations and closings of anonymous files, by processes whose directories may have
    been removed as long as the climb from them to the root ends, the table stays a tree: the root is a
    directory, every named node hangs by a unique name from a live directory and leads back to the root,
    and the mirror counts the live inodes exactly; and each of these calls returns without a panic. *)
Theorem appels_preservent w :
  atteint w ->
  monde_ok w /\ forall k c, possible k w c -> exists w', execute k c w = (w', inl tt).
Proof.
  intros H%atteint_ok. split; [done|]. intros k c Hp.
  pose proof (execute_garde k c w H Hp) as (w' & [] & E & _)%wp_elim. by exists w'.
Qed.

Lemma appels_preservent_witness :
  monde_ok monde_init /\ exists w', execute (noyau_textes ["/home/a"]) (AMkdir AT_FDCWD 0 511) monde_init = (w', inl tt).
Proof.
  pose proof (appels_preservent monde_init monde_init_atteint) as [H P]. split; [exact H|].
  apply P. split; [|exact I]. apply bases_textes. exact H.
Defined.

(** C9. A rename is the rename of POSIX on the tree as processes see it: it succeeds exactly
    when the rules allow it, and then what was at or below the source is at or below the
    target with the same contents and rights (both ways for an exchange), the replaced target
    is gone, and no other path changes; otherwise the state is unchanged. *)
Theorem renommage_raffine k od fa nd ta flags w :
  monde_ok w -> bases_ok k w -> 0 <= flags < u32_max ->
  exists w' r, sys_renameat2 k od fa nd ta flags w = (w', inl r) /\ monde_ok w' /\
    ((r < 0 /\ w' = w /\ forall from to a, ~ peut_renommer k w od fa nd ta flags from to a) \/
     (r = 0 /\ exists from to a, peut_renommer k w od fa nd ta flags from to a /\
        forall cs f, vue w' cs f <-> apres w from to a cs f)).
Proof.
  intros Hw Hb Hf. pose proof (sys_renameat2_spec k w Hw Hb od fa nd ta flags Hf) as (w' & r & E & H)%wp_elim.
  by exists w', r.
Qed.

Definition resultat {A} (x : Monde * (A + unit)) : option A := match x.2 with inl r => Some r | inr _ => None end.

Lemma renommage_raffine_witness :
  resultat (sys_renameat2 (noyau_textes ["/etc"; "tmp/etc"]) AT_FDCWD 0 AT_FDCWD 1 0 monde_init) = Some 0 /\
  exists w', sys_renameat2 (noyau_textes ["/etc"; "tmp/etc"]) AT_FDCWD 0 AT_FDCWD 1 0 monde_init = (w', inl 0) /\
    monde_ok w'.
Proof.
  assert (resultat (sys_renameat2 (noyau_textes ["/etc"; "tmp/etc"]) AT_FDCWD 0 AT_FDCWD 1 0 monde_init) = Some 0) as R
    by (vm_compute; reflexivity).
  split; [exact R|]. pose proof (atteint_ok monde_init monde_init_atteint) as H.
  destruct (renommage_raffine (noyau_textes ["/etc"; "tmp/etc"]) AT_FDCWD 0 AT_FDCWD 1 0 monde_init H
    (bases_textes _ _ H)) as (w' & r & E & Hw' & _).
  { unfold u32_max. lia. }
  exists w'. rewrite E in R. cbn in R. injection R as ->. split; [exact E|exact Hw'].
Defined.

(** C24. A directory creation adds exactly one path, an empty directory with the rights asked
    for, and a removal takes away exactly one, a file or an empty directory as the flag says;
    both succeed exactly when the path, the policy and the table allow it, and an error leaves
    the state unchanged. *)
Theorem creation_retrait_exacts k w :
  monde_ok w -> bases_ok k w ->
  (forall dirfd a m, exists w' r, sys_mkdirat k dirfd a m w = (w', inl r) /\ apres_mkdir k w dirfd a m w' r) /\
  (forall dirfd a flags, 0 <= flags < u32_max ->
     exists w' r, sys_unlinkat k dirfd a flags w = (w', inl r) /\ apres_unlink k w dirfd a flags w' r).
Proof.
  intros Hw Hb. split.
  - intros dirfd a m. by pose proof (sys_mkdirat_spec k w Hw Hb dirfd a m) as ?%wp_elim.
  - intros dirfd a flags Hf. by pose proof (sys_unlinkat_spec k w Hw Hb dirfd a flags Hf) as ?%wp_elim.
Qed.

Lemma creation_retrait_exacts_witness :
  resultat (sys_mkdirat (noyau_textes ["/home/b"]) AT_FDCWD 0 448 monde_init) = Some 0 /\
  resultat (sys_unlinkat (noyau_textes ["/var/log"]) AT_FDCWD 0 512 monde_init) = Some 0 /\
  exists w', apres_mkdir (noyau_textes ["/home/b"]) monde_init AT_FDCWD 0 448 w' 0.
Proof.
  assert (resultat (sys_mkdirat (noyau_textes ["/home/b"]) AT_FDCWD 0 448 monde_init) = Some 0) as R
    by (vm_compute; reflexivity).
  split; [exact R|]. split; [vm_compute; reflexivity|].
  pose proof (atteint_ok monde_init monde_init_atteint) as H.
  destruct (creation_retrait_exacts (noyau_textes ["/home/b"]) monde_init H (bases_textes _ _ H)) as [P _].
  destruct (P AT_FDCWD 0 448) as (w' & r & E & Hr). exists w'. rewrite E in R. cbn in R. injection R as ->. exact Hr.
Defined.

(** ** Paths *)

(** C38. The printed path of a node of the tree exists and resolves back to the node, from any
    current directory; two nodes never print the same path. *)
Theorem chemin_aller_retour l i cwd :
  arbre_ok l -> enracine l i ->
  exists p, path_string l i = Some p /\ resolve l p cwd = Some i /\
    forall j, enracine l j -> path_string l j = Some p -> j = i.
Proof.
  intros A [cs H]%enracine_nomme; [|done]. exists (joint cs).
  pose proof (nomme_composants l cs i A H) as Hc. split_and!.
  - by apply path_string_nomme.
  - rewrite resolve_joint by done. by apply (suit_composants_nomme l cs 0%nat i [] A (nomme_racine l) Hc).
  - intros j [ds Hj]%enracine_nomme E; [|done]. rewrite (path_string_nomme l ds j A Hj) in E.
    injection E as E. apply (joint_inj ds cs) in E as ->; [|by eapply nomme_composants|done].
    by eapply nomme_noeud_unique.
Qed.

Lemma chemin_aller_retour_witness :
  exists p, path_string (nodes monde_init) 5 = Some p /\ resolve (nodes monde_init) p 3 = Some 5%nat.
Proof.
  pose proof (proj1 (atteint_ok monde_init monde_init_atteint)) as A.
  assert (suit_composants (nodes monde_init) 0 [octets "var"; octets "log"] = Some 5%nat) as R
    by (vm_compute; reflexivity).
  assert (enracine (nodes monde_init) 5) as En.
  { apply (nomme_enracine _ [octets "var"; octets "log"]).
    apply (suit_composants_nomme (nodes monde_init) [octets "var"; octets "log"] 0 5 [] A (nomme_racine _)).
    - apply (bool_decide_unpack _). vm_compute. exact I.
    - exact R. }
  destruct (chemin_aller_retour (nodes monde_init) 5 3 A En) as (p & P1 & P2 & _).
  exists p. split; [exact P1|exact P2].
Defined.

(** C37. The path the security policy judges is the target the resolver reaches: an absolute
    path that resolves to a node still resolves to the same node after its lexical
    normalisation, climbs past the root and through files included. *)
Theorem normalisation_sure l p i cwd :
  arbre_ok l -> est_absolu p = true -> resolve l p cwd = Some i ->
  resolve l (normalize_absolute p) cwd = Some i.
Proof.
  intros A Hp H. unfold resolve in H. destruct p as [|c t]; [done|]. rewrite Hp in H.
  destruct (normalise_spec (c :: t)) as (cs & -> & Hc & ->). rewrite resolve_joint by done.
  apply (suit_composants_nomme l _ 0%nat i [] A (nomme_racine l) Hc).
  eapply empile_nomme; [done| |constructor|done].
  rewrite composants_decoupe. apply Forall_forall. intros s Hs. by apply list_elem_of_filter in Hs as [? _].
Qed.

Lemma normalisation_sure_witness :
  resolve (nodes monde_init) (normalize_absolute (octets "/../etc/./passwd/..//passwd")) 0
    = resolve (nodes monde_init) (octets "/etc/passwd") 0.
Proof.
  pose proof (proj1 (atteint_ok monde_init monde_init_atteint)) as A.
  destruct (resolve (nodes monde_init) (octets "/../etc/./passwd/..//passwd") 0) as [i|] eqn:E.
  - rewrite (normalisation_sure (nodes monde_init) (octets "/../etc/./passwd/..//passwd") i 0 A eq_refl E).
    rewrite <-E. vm_compute. reflexivity.
  - vm_compute in E. discriminate E.
Defined.
End RamfsProps.
