(* ===== verification/RamfsShell.v ===== *)
(** The shell commands that change the tree. They resolve with the permission checks of the
    session, and change it without going through the calls. *)

From S2P Require Import Prelude Ramfs RamfsProofs RamfsOps Renommage RamfsAppels RamfsChemins RamfsVue RamfsApplique RamfsAppelsProofs RamfsTrace.
From stdpp Require Import strings.

Module RamfsShell.
Import Ramfs.
Open Scope Z_scope.
Open Scope os_scope.

(** [argv] without the name of the command, as [argc] counts it; the texts printed on errors
    are not modelled. *)
Section Shell.
Context (env : Env) (cwd : nat).

Definition avec_parent_verifie (path : list Z) (suite : nat -> list Z -> F Z) : F Z :=
  r <- resolve_parent_name_checked env path cwd ;;
  match r with
  | inr _ => rend 1
  | inl (p, nom) =>
      n <- noeud p ;;
      if negb (can env n PERM_W) then rend 1 else suite p nom
  end.
Definition avec_noeud_verifie (path : list Z) (suite : nat -> F Z) : F Z :=
  r <- resolve_checked env path cwd ;;
  match r with inr _ => rend 1 | inl i => suite i end.
Definition code {A} (r : A + Refus) : Z := match r with inl _ => 0 | inr _ => 1 end.

Definition mkdir (argv : list (list Z)) : F Z :=
  match argv with
  | [] => rend 1
  | path :: _ => avec_parent_verifie path (fun p nom => r <- mkdir_at env p nom ;; rend (code r))
  end.
Definition touch (argv : list (list Z)) : F Z :=
  match argv with
  | [] => rend 1
  | path :: _ => avec_parent_verifie path (fun p nom => r <- touch_at env p nom ;; rend (code r))
  end.

Definition rm (argv : list (list Z)) : F Z :=
  match argv with
  | [] => rend 1
  | path :: _ =>
      avec_noeud_verifie path (fun idx =>
        n <- noeud idx ;;
        if (idx =? 0)%nat || est_dir (kind n) then rend 1
        else
          np <- noeud (parent n) ;;
          if negb (can env np PERM_W) then rend 1 else libere_noeud idx ;;; rend 0)
  end.
Definition rmdir (argv : list (list Z)) : F Z :=
  match argv with
  | [] => rend 1
  | path :: _ =>
      avec_noeud_verifie path (fun idx =>
        n <- noeud idx ;;
        if (idx =? 0)%nat || negb (est_dir (kind n)) then rend 1
        else
          l <- lis nodes ;;
          if negb (is_empty_dir l idx) then rend 1
          else
            np <- noeud (parent n) ;;
            if negb (can env np PERM_W) then rend 1 else libere_noeud idx ;;; rend 0)
  end.

Definition cp (argv : list (list Z)) : F Z :=
  match argv with
  | source :: cible :: _ =>
      avec_noeud_verifie source (fun src =>
        n <- noeud src ;;
        if est_dir (kind n) then rend 1
        else if negb (can env n PERM_R) then rend 1
        else
          avec_parent_verifie cible (fun p nom =>
            r <- touch_at env p nom ;;
            match r with
            | inr _ => rend 1
            | inl dst =>
                n <- noeud src ;;
                modifie dst (avec_content (content n)) ;;;
                rend 0
            end))
  | _ => rend 1
  end.

Definition mv (argv : list (list Z)) : F Z :=
  match argv with
  | source :: cible :: _ =>
      avec_noeud_verifie source (fun src =>
        if (src =? 0)%nat then rend 1
        else
          n <- noeud src ;;
          np <- noeud (parent n) ;;
          if negb (can env np PERM_W) then rend 1
          else
            avec_parent_verifie cible (fun p nom =>
              l <- lis nodes ;;
              match find_child l p nom with
              | Some _ => rend 1
              | None =>
                  modifie src (avec_parent p) ;;;
                  b <- set_name src nom ;;
                  rend (if (b : bool) then 0 else 1)
              end))
  | _ => rend 1
  end.
End Shell.
End RamfsShell.

(** What the file system does at its edges: the depth counted as persistent, directories
    recycled under a process, names of anonymous files too long, and shell commands that skip
    the checks of the calls. *)

Module RamfsCas.
Import Ramfs RamfsProofs RamfsArbre RamfsOps RamfsChemins RamfsSpecs RamfsAppels RamfsVue RamfsAppelsProofs RamfsTrace RamfsProps.
Open Scope Z_scope.
Open Scope os_scope.

(** ** What counts as persistent *)

Lemma remonte_nomme l r pp fuel : forall cs i,
  arbre_ok l -> nomme l pp r -> nomme l cs i ->
  remonte fuel l r i = Some (bool_decide (pp `prefix_of` cs /\ (length cs < length pp + fuel)%nat)).
Proof.
  induction fuel as [|fuel IH]; intros cs i A Hr H; cbn [remonte].
  { rewrite bool_decide_false; [done|]. intros [Hp%prefix_length ?]. lia. }
  destruct (Nat.eqb_spec i r) as [->|Hne].
  { rewrite (nomme_chemin_unique _ _ _ _ H Hr). rewrite bool_decide_true; [done|]. split; [done|lia]. }
  destruct (nomme_vivant _ _ _ A H) as [n V]. pose proof (vivant_lt _ _ _ V) as Hi. rewrite (ao_longueur _ A) in Hi.
  destruct (Nat.leb_spec MAX_NODES i) as [|_]; [lia|]. rewrite orb_false_r. destruct H as [|cs i m Vm H0 H].
  { cbn. rewrite bool_decide_false; [done|]. intros [->%prefix_nil_inv _]. by apply nomme_vide in Hr. }
  destruct (Nat.eqb_spec i 0); [done|]. rewrite (proj1 Vm), (IH cs (parent m) A Hr H). f_equal.
  apply bool_decide_ext. rewrite length_app, prefix_snoc. cbn [length].
  assert (pp <> cs ++ [name m]) as Hpp.
  { intros ->. apply Hne. eapply (nomme_noeud_unique l (cs ++ [name m])); [done| |done]. by apply nomme_enfant. }
  split; [intros [? ?]; split; [by left|lia]|intros [[?|?] ?]; [split; [done|lia]|done]].
Qed.

(** A change is noted for the deferred write exactly when its node is the persistent root
    or at most 63 levels below it: deeper files are collected by a synchronisation, but
    their changes never start one. *)
Theorem persistant_borne w r pp cs i :
  monde_ok w -> racine_persistante w = Some r -> nomme (nodes w) pp r -> nomme (nodes w) cs i ->
  sous_persistant w i = true <-> exists q, cs = pp ++ q /\ (length q <= 63)%nat.
Proof.
  intros [A _] R Hr H. unfold sous_persistant. rewrite R, (remonte_nomme _ r pp 64 cs i A Hr H).
  cbn [from_option id]. unfold id. rewrite bool_decide_eq_true. split.
  - intros [[q ->] Hl]. exists q. rewrite length_app in Hl. split; [done|lia].
  - intros (q & -> & Hq). rewrite length_app. split; [by apply prefix_app_r|lia].
Qed.

Lemma persistant_borne_witness :
  sous_persistant (note_racine_persistante 4 monde_init) 5 = true /\
  sous_persistant (note_racine_persistante 4 monde_init) 3 = false.
Proof.
  assert (forall w, monde_ok w -> nomme (nodes w) [octets "var"] 4 ->
    nomme (nodes w) [octets "var"; octets "log"] 5 -> sous_persistant (note_racine_persistante 4 w) 5 = true) as G.
  { intros w Hw H4 H5.
    apply (persistant_borne (note_racine_persistante 4 w) 4 [octets "var"] [octets "var"; octets "log"] 5
      Hw eq_refl H4 H5). exists [octets "log"]. split; [reflexivity|cbn; lia]. }
  assert (suit_composants (nodes monde_init) 0 [octets "var"] = Some 4%nat) as R4 by (vm_compute; reflexivity).
  assert (suit_composants (nodes monde_init) 0 [octets "var"; octets "log"] = Some 5%nat) as R5
    by (vm_compute; reflexivity).
  pose proof (atteint_ok monde_init monde_init_atteint) as Hw.
  split; [apply (G monde_init Hw)|vm_compute; reflexivity].
  - apply (suit_composants_nomme (nodes monde_init) [octets "var"] 0 4 [] (proj1 Hw) (nomme_racine _)).
    + apply (bool_decide_unpack _). vm_compute. exact I.
    + exact R4.
  - apply (suit_composants_nomme (nodes monde_init) [octets "var"; octets "log"] 0 5 [] (proj1 Hw) (nomme_racine _)).
    + apply (bool_decide_unpack _). vm_compute. exact I.
    + exact R5.
Defined.

(** ** A directory recycled under a process *)

Lemma build_path_boucle l i n fuel :
  l !! i = Some n -> parent n = i -> i <> 0%nat -> build_path fuel l i = None.
Proof.
  intros E P H0. destruct i as [|i]; [done|]. induction fuel as [|fuel IH]; [done|].
  cbn [build_path]. rewrite E. cbn. rewrite P. by rewrite IH.
Qed.

(** A possible call always leads to the next reachable state. *)
Lemma execute_mene k c w :
  atteint w -> possible k w c -> atteint (execute k c w).1.
Proof.
  intros H Hp. pose proof (execute_garde k c w (atteint_ok w H) Hp) as (w' & [] & E & _)%wp_elim.
  rewrite E. by eapply atteint_appel.
Qed.

Definition avec_cwd (i : nat) (k : Noyau) : Noyau :=
  mk_noyau (envir k) (user_string k) i (dossier_de_fd k) (autorise k) (autorise_ouverture k) (existence_visible k).
Definition textes_cwd : Noyau := noyau_textes ["/home/d"; "m"; "x"].

(** A process can leave its current directory dangling: the directory is removed while it is
    the current one, its inode is taken by an anonymous file, its own parent, and then the
    path of the current directory has no end: no bound on the recursion is enough, and the
    next call with a relative path never returns. *)
Theorem cwd_recycle_diverge : exists w0 w1 w2 i n,
  atteint w0 /\ vivant (nodes w0) i n /\ kind n = Dir /\
  execute textes_cwd (AUnlink AT_FDCWD 0 AT_REMOVEDIR) w0 = (w1, inl tt) /\
  execute textes_cwd (AMemfd 1) w1 = (w2, inl tt) /\
  (forall fuel, path_string_fuel fuel (nodes w2) i = None) /\
  (execute (avec_cwd i textes_cwd) (AMkdir AT_FDCWD 2 511) w2).2 = inr tt.
Proof.
  set (w0 := (execute textes_cwd (AMkdir AT_FDCWD 0 511) monde_init).1).
  set (w1 := (execute textes_cwd (AUnlink AT_FDCWD 0 AT_REMOVEDIR) w0).1).
  set (w2 := (execute textes_cwd (AMemfd 1) w1).1).
  assert (atteint w0) as H0.
  { apply (execute_mene textes_cwd (AMkdir AT_FDCWD 0 511) monde_init monde_init_atteint).
    split; [|exact I]. apply bases_textes, atteint_ok, monde_init_atteint. }
  exists w0, w1, w2, 17%nat, (default empty (nodes w0 !! 17%nat)). split_and!.
  - exact H0.
  - split; vm_compute; reflexivity.
  - vm_compute. reflexivity.
  - vm_compute. reflexivity.
  - vm_compute. reflexivity.
  - intros fuel. unfold path_string_fuel.
    rewrite (build_path_boucle (nodes w2) 17 (default empty (nodes w2 !! 17%nat)) fuel); [done|..|done];
      vm_compute; reflexivity.
  - vm_compute. reflexivity.
Qed.

(** ** Anonymous files with long names *)

(** An anonymous file whose name does not fit beside its mark gets no name, is not recognised
    when its last descriptor closes, and keeps its inode for ever. *)
Theorem memfd_nom_long_perdu env nom w :
  monde_ok w -> (NAME_LEN < length (MEMFD ++ nom))%nat -> premier_libre (nodes w) <> None ->
  wp (cree_anonyme env nom) (fun w' r => exists i, r = inl i /\
    used_relaxed w' = used_relaxed w + 1 /\ libere_anonyme i w' = (w', inl false)) w.
Proof.
  intros Hw Hl Hf. eapply wp_mono; [by apply cree_anonyme_spec|]. intros w' [i|e]; [|by intros (_ & _ & ?)].
  unfold nom_acceptable. destruct (Nat.leb_spec (length (MEMFD ++ nom)) NAME_LEN) as [|_]; [lia|].
  rewrite andb_false_r. intros (_ & _ & (m & Em & _) & E & Hu & _).
  exists i. split; [done|]. split; [done|]. set (n := neuf File i _ _ _ _) in *.
  destruct (table_lookup (<[i := n]> (nodes w)) (nodes w') i n) as (n1 & E1 & Ec);
    [done|apply list_lookup_insert_eq; by eapply lookup_lt_Some|].
  assert (name n1 = []) as N1 by (destruct n1; unfold corps, avec_mtime in Ec; cbn in Ec; by injection Ec).
  unfold libere_anonyme, lie, lis. unfold est_anonyme. rewrite E1. unfold name_starts_with. rewrite N1.
  replace (bool_decide (take (length MEMFD) [] = MEMFD)) with false by (vm_compute; reflexivity).
  by rewrite !andb_false_r.
Qed.

(** ** The shell *)

(** Two nodes that are the parents of each other have no path, and no place in a tree. *)
Lemma build_path_cycle l i j ni nj :
  l !! S i = Some ni -> l !! S j = Some nj -> parent ni = S j -> parent nj = S i ->
  forall fuel, build_path fuel l (S i) = None /\ build_path fuel l (S j) = None.
Proof.
  intros Ei Ej Pi Pj. induction fuel as [|fuel [IHi IHj]]; [done|].
  cbn [build_path]. rewrite Ei, Ej. cbn. by rewrite Pi, Pj, IHi, IHj.
Qed.
Lemma cycle_hors_arbre l i j :
  (fun n => (used n, parent n)) <$> l !! S i = Some (true, S j) ->
  (fun n => (used n, parent n)) <$> l !! S j = Some (true, S i) -> i <> j ->
  ~ arbre_ok l /\ forall fuel, path_string_fuel fuel l (S i) = None.
Proof.
  intros Hi Hj Hne. apply fmap_Some in Hi as (ni & Ei & Hi). apply fmap_Some in Hj as (nj & Ej & Hj).
  injection Hi as Ui Pi. injection Hj as Uj Pj.
  pose proof (build_path_cycle l i j ni nj Ei Ej (eq_sym Pi) (eq_sym Pj)) as B. split.
  - intros A. destruct (ao_noeud l A (S i) ni) as [[E _]|(_ & R & _)]; [done|by split|congruence|].
    apply enracine_nomme in R as [cs R]; [|done]. pose proof (path_string_nomme l cs (S i) A R) as P.
    unfold path_string, path_string_fuel in P. by rewrite (proj1 (B MAX_NODES)) in P.
  - intros fuel. unfold path_string_fuel. by rewrite (proj1 (B fuel)).
Qed.

(** The move of the shell lets a directory go below itself: the table is no longer a tree,
    and the path of the directory has no end. *)
Theorem mv_cree_cycle : exists w,
  RamfsShell.mv env_temoin 0 [octets "/var"; octets "/var/log/var"] monde_init = (w, inl 0) /\
  ~ arbre_ok (nodes w) /\ forall fuel, path_string_fuel fuel (nodes w) 4 = None.
Proof.
  set (w := (RamfsShell.mv env_temoin 0 [octets "/var"; octets "/var/log/var"] monde_init).1).
  exists w. split; [vm_compute; reflexivity|].
  apply (cycle_hors_arbre (nodes w) 3 4); [vm_compute; reflexivity..|done].
Qed.
End RamfsCas.
