(* ===== verification/Bloc.v ===== *)
(** The block layer, [src/drivers/api/bloc.rs], over a disk that can fail and lose power.

    The disk keeps what is on the platter apart from what it has accepted and may still lose:
    a write goes to the cache, a flush that succeeds moves the cache to the platter. Its answers
    to the next requests are given in advance: a request succeeds, transfers fewer blocks, is
    answered by an error whatever was done of it, or is the one during which the power goes,
    which stops the machine. A sector is 512 bytes, and the descriptor does not change. *)

From S2P Require Import Prelude.

Module Bloc.
Open Scope os_scope.

Definition TAILLE_BLOC : Z := 512.

Record Descripteur := mk_descripteur {
  taille_bloc : Z; blocs : Z; vidange_reelle : bool
}.

Inductive Achevement := Fait (n : Z) | Erreur.
(** [Achevement::blocs] *)
Definition nb_blocs (a : Achevement) : Z := match a with Fait n => n | Erreur => 0 end.

(** The fate of a request: done; [k] blocks transferred, and so reported; an error, which says
    nothing of the blocks [pris] that were accepted before it, the answer of the ATA driver to a
    transfer that did not finish; the power goes. *)
Inductive Sort := Reussit | Partiel (k : nat) | Refuse (pris : list nat) | Coupe (k : nat).

Record Disque := mk_disque {
  desc : Descripteur;
  plateau : Z -> list Z;
  cachees : list (Z * list Z);
  lectures : list Sort;
  ecritures : list Sort;
  vidanges : list Sort;
  (* a ghost: the flushes not obtained, and the errors that hid accepted blocks *)
  manquees : nat
}.

(** The machine stops: the power goes, or an assertion fails. *)
Inductive Arret := Coupure | Panique.

(** What a read of a block finds: the last write the disk accepted for it. *)
Definition derniere (ws : list (Z * list Z)) (lba : Z) (v : list Z) : list Z :=
  fold_left (fun v w => if w.1 =? lba then w.2 else v) ws v.
Definition contenu (d : Disque) (lba : Z) : list Z := derniere (cachees d) lba (plateau d lba).

(** [n] consecutive sectors of [p], as bytes; and a buffer cut into sectors. *)
Definition secteurs_de (p : Z -> list Z) (lba : Z) (n : nat) : list Z :=
  flat_map p (seqZ lba (Z.of_nat n)).
Definition secteurs_choisis (lba : Z) (l : list nat) (donnees : list Z) : list (Z * list Z) :=
  map (fun i => (lba + Z.of_nat i, slice donnees (512 * i) 512)) l.
Definition decoupe (lba : Z) (n : nat) (donnees : list Z) : list (Z * list Z) :=
  secteurs_choisis lba (seq 0 n) donnees.

Definition B : Type -> Type := M Disque Arret.

Definition dans_les_bornes (d : Disque) (lba n : Z) : bool :=
  (0 <=? lba) && (lba + n <=? blocs (desc d)).

(** [lit]: the number of blocks transferred and the buffer. *)
Definition lit (lba : Z) (n : nat) : B (Z * list Z) := fun d =>
  if negb (dans_les_bornes d lba (Z.of_nat n)) then (d, inl (nb_blocs Erreur, []))
  else
    let d' l := mk_disque (desc d) (plateau d) (cachees d) l (ecritures d) (vidanges d) (manquees d) in
    match lectures d with
    | [] => (d, inl (nb_blocs (Fait (Z.of_nat n)), secteurs_de (contenu d) lba n))
    | Reussit :: l => (d' l, inl (nb_blocs (Fait (Z.of_nat n)), secteurs_de (contenu d) lba n))
    | Partiel k :: l =>
        (d' l, inl (nb_blocs (Fait (Z.of_nat (k `min` n))), secteurs_de (contenu d) lba (k `min` n)))
    | Refuse _ :: l => (d' l, inl (nb_blocs Erreur, []))
    | Coupe _ :: l => (d' l, inr Coupure)
    end.

(** [ecrit]: the blocks accepted go to the cache of the disk. *)
Definition accepte (d : Disque) (l : list Sort) (ws : list (Z * list Z)) : Disque :=
  mk_disque (desc d) (plateau d) (cachees d ++ ws) (lectures d) l (vidanges d) (manquees d).
Definition manque (d : Disque) : Disque :=
  mk_disque (desc d) (plateau d) (cachees d) (lectures d) (ecritures d) (vidanges d) (S (manquees d)).
Definition ecrit (lba : Z) (n : nat) (donnees : list Z) : B Z := fun d =>
  if negb (dans_les_bornes d lba (Z.of_nat n)) then (d, inl (nb_blocs Erreur))
  else
    match ecritures d with
    | [] => (accepte d [] (decoupe lba n donnees), inl (nb_blocs (Fait (Z.of_nat n))))
    | Reussit :: l => (accepte d l (decoupe lba n donnees), inl (nb_blocs (Fait (Z.of_nat n))))
    | Partiel k :: l =>
        (accepte d l (decoupe lba (k `min` n) donnees), inl (nb_blocs (Fait (Z.of_nat (k `min` n)))))
    | Refuse pris :: l =>
        match filter (fun i => i ∈ pris) (seq 0 n) with
        | [] => (accepte d l [], inl (nb_blocs Erreur))
        | pris => (manque (accepte d l (secteurs_choisis lba pris donnees)), inl (nb_blocs Erreur))
        end
    | Coupe k :: l => (accepte d l (decoupe lba (k `min` n) donnees), inr Coupure)
    end.

(** [vidange]: whether everything accepted so far is on the platter. False when the driver says
    it cannot flush, and when the flush failed. *)
Definition rincee (d : Disque) (l : list Sort) : Disque :=
  mk_disque (desc d) (contenu d) [] (lectures d) (ecritures d) l (manquees d).
Definition sans_vidange (d : Disque) (l : list Sort) : Disque :=
  mk_disque (desc d) (plateau d) (cachees d) (lectures d) (ecritures d) l (manquees d).
Definition vidange : B bool := fun d =>
  let reussi (l : list Sort) : Disque * (bool + Arret) :=
    if vidange_reelle (desc d) then (rincee d l, inl true) else (manque (sans_vidange d l), inl false) in
  match vidanges d with
  | [] => reussi []
  | Reussit :: l => reussi l
  | (Partiel _ | Refuse _) :: l => (manque (sans_vidange d l), inl false)
  | Coupe _ :: l => (sans_vidange d l, inr Coupure)
  end.

Definition descripteur : B Descripteur := fun d => (d, inl (desc d)).

(** What a power loss can leave: any sector with a pending write may hold anything, the
    others hold what is on the platter; then the machine starts again. *)
Definition image (d : Disque) (p : Z -> list Z) : Prop :=
  forall lba, p lba = plateau d lba \/ lba ∈ map fst (cachees d).
Definition rallume (d : Disque) (p : Z -> list Z) (lec ecr vid : list Sort) : Disque :=
  mk_disque (desc d) p [] lec ecr vid (manquees d).

End Bloc.
