(* ===== verification/Persistance.v ===== *)
(** The persistent zone, [src/fs/persistance.rs] and its fragments: the disk format with its
    two half zones and two superblocks, the write of a snapshot, the reading of the zone.

    The state holds the disk, the index of what was last committed and the extent of a zone
    still in the first format; the counters of the transaction statistics and the traces are
    left out. Paths, names and contents are lists of bytes. *)

From S2P Require Import Prelude UpdateAb Bloc.

Module Persistance.
Export Bloc.
Open Scope os_scope.

Definition SECTOR_SIZE : Z := 512.
(** b"BOPERSI1" *)
Definition MAGIE : list Z := [66; 79; 80; 69; 82; 83; 73; 49].
Definition ENTREES_MAX : nat := 2048.
Definition TAILLE_ENTREE : nat := 256.
Definition CHEMIN_MAX : nat := TAILLE_ENTREE - 16.
Definition SECTEURS_TABLE : Z := Z.of_nat ENTREES_MAX * Z.of_nat TAILLE_ENTREE / SECTOR_SIZE.
Definition SECTEUR_CONTENU : Z := 1 + SECTEURS_TABLE.
Definition SECTEURS_ZONE : Z := 262144.

(** ** The superblock *)

(** b"BOPERSI2" *)
Definition MAGIE_V2 : list Z := [66; 79; 80; 69; 82; 83; 73; 50].
Definition VERSION_V2 : Z := 2.
Definition TAILLE_SUPERBLOC : nat := 44.

Record Superbloc := mk_sb {
  generation : Z; demi : Z; sb_entrees : Z; secteurs_contenu : Z; somme_table : Z
}.

(** The inner loop of the checksum, [crc & 1] then the shift. *)
Definition pas_crc (crc : Z) : Z :=
  let bas := Z.land crc 1 in
  let crc := Z.shiftr crc 1 in
  if negb (bas =? 0) then Z.lxor crc 0xEDB88320 else crc.
Definition somme_controle (donnees : list Z) : Z :=
  Z.lxor (fold_left (fun crc o => Nat.iter 8 pas_crc (Z.lxor crc o)) donnees 0xFFFFFFFF) 0xFFFFFFFF.

Definition encode_corps (s : Superbloc) (secteur : list Z) : list Z :=
  let o := replicate (length secteur) 0 in
  let o := splice o 0 MAGIE_V2 in
  let o := splice o 8 (to_le 4 VERSION_V2) in
  let o := splice o 12 (to_le 8 (generation s)) in
  let o := splice o 20 (to_le 4 (demi s)) in
  let o := splice o 24 (to_le 4 (sb_entrees s)) in
  let o := splice o 28 (to_le 8 (secteurs_contenu s)) in
  splice o 36 (to_le 4 (somme_table s)).
Definition encode (s : Superbloc) (secteur : list Z) : option (list Z) :=
  if (length secteur <? TAILLE_SUPERBLOC)%nat then None
  else
    let o := encode_corps s secteur in
    Some (splice o 40 (to_le 4 (somme_controle (slice o 0 40)))).

Definition decode (secteur : list Z) : option Superbloc :=
  if (length secteur <? TAILLE_SUPERBLOC)%nat then None
  else if negb (bool_decide (slice secteur 0 8 = MAGIE_V2)) then None
  else if negb (from_le (slice secteur 8 4) =? VERSION_V2) then None
  else if negb (somme_controle (slice secteur 0 40) =? from_le (slice secteur 40 4)) then None
  else if 1 <? from_le (slice secteur 20 4) then None
  else Some (mk_sb (from_le (slice secteur 12 8)) (from_le (slice secteur 20 4))
               (from_le (slice secteur 24 4)) (from_le (slice secteur 28 8))
               (from_le (slice secteur 36 4))).

Definition choisit (a b : option Superbloc) : option (Z * Superbloc) :=
  match a, b with
  | None, None => None
  | Some a, None => Some (0, a)
  | None, Some b => Some (1, b)
  | Some a, Some b => if generation a <? generation b then Some (1, b) else Some (0, a)
  end.

Definition prochain (courant : option (Z * Superbloc)) : Z * Z * Z :=
  match courant with
  | None => (0, 0, 1)
  | Some (emplacement, s) => (1 - emplacement, 1 - demi s, wrapping_add64 (generation s) 1)
  end.

(** ** The metadata of an entry *)

Definition GENRE_FICHIER : Z := 70.
Definition GENRE_DOSSIER : Z := 68.
Definition VERSION_META : Z := 1.
Definition DEBUT_META : nat := 248.

Record Meta := mk_meta { dossier : bool; mode : Z; uid : Z; gid : Z }.
#[export] Instance Meta_eq_dec : EqDecision Meta.
Proof. solve_decision. Defined.

(** The eight bytes [Meta::encode] writes. *)
Definition encode_meta (m : Meta) : list Z :=
  [if dossier m then GENRE_DOSSIER else GENRE_FICHIER; VERSION_META]
  ++ to_le 2 (mode m) ++ to_le 2 (uid m) ++ to_le 2 (gid m).
Definition decode_meta (brut : list Z) : option Meta :=
  if (length brut <? 8)%nat || negb (nth 1 brut 0 =? VERSION_META) then None
  else
    let genre := nth 0 brut 0 in
    let rendu d := Some (mk_meta d (Z.land (from_le (slice brut 2 2)) 4095)
                           (from_le (slice brut 4 2)) (from_le (slice brut 6 2))) in
    if genre =? GENRE_FICHIER then rendu false
    else if genre =? GENRE_DOSSIER then rendu true
    else None.
Definition a_restaurer (chemin : list Z) (taille : Z) (meta : option Meta) : bool :=
  negb (bool_decide (chemin = []))
  && ((0 <? taille) || match meta with Some _ => true | None => false end).

(** ** Strings *)

(** One step of [String::from_utf8_lossy] on a non-empty input: the bytes produced (the
    character, or U+FFFD for a maximal invalid prefix) and how many were consumed. *)
Definition suite_utf8 (b : Z) : bool := (0x80 <=? b) && (b <=? 0xBF).
Definition entre (a b x : Z) : bool := (a <=? x) && (x <=? b).
Definition REMPLACEMENT : list Z := [0xEF; 0xBF; 0xBD].
Definition caractere (l : list Z) : list Z * nat :=
  let b := nth 0 l (-1) in let s := nth 1 l (-1) in
  let t := nth 2 l (-1) in let q := nth 3 l (-1) in
  if b <? 0x80 then ([b], 1%nat)
  else if entre 0xC2 0xDF b then
    if suite_utf8 s then (take 2 l, 2%nat) else (REMPLACEMENT, 1%nat)
  else if entre 0xE0 0xEF b then
    if negb (if b =? 0xE0 then entre 0xA0 0xBF s
             else if b =? 0xED then entre 0x80 0x9F s else suite_utf8 s)
    then (REMPLACEMENT, 1%nat)
    else if suite_utf8 t then (take 3 l, 3%nat) else (REMPLACEMENT, 2%nat)
  else if entre 0xF0 0xF4 b then
    if negb (if b =? 0xF0 then entre 0x90 0xBF s
             else if b =? 0xF4 then entre 0x80 0x8F s else suite_utf8 s)
    then (REMPLACEMENT, 1%nat)
    else if negb (suite_utf8 t) then (REMPLACEMENT, 2%nat)
    else if suite_utf8 q then (take 4 l, 4%nat) else (REMPLACEMENT, 3%nat)
  else (REMPLACEMENT, 1%nat).
(** The fuel is the length: each step consumes a byte. *)
Fixpoint lossy (fuel : nat) (l : list Z) : list Z :=
  match fuel, l with
  | S fuel, _ :: _ => let '(c, n) := caractere l in c ++ lossy fuel (drop n l)
  | _, _ => []
  end.
Definition from_utf8_lossy (l : list Z) : list Z := lossy (length l) l.

(** The bytes before the first zero. *)
Fixpoint avant_zero (l : list Z) : list Z :=
  match l with
  | [] => []
  | c :: l => if c =? 0 then [] else c :: avant_zero l
  end.
Definition chaine (octets : list Z) : list Z := from_utf8_lossy (avant_zero octets).

(** ** The state *)

Record SurDisque := mk_connu { c_chemin : list Z; c_secteur : Z; c_longueur : Z; c_sceau : Z * Z }.
Record SnapshotEntree := mk_entree { chemin : list Z; octets : list Z; meta : Meta }.

Record Etat := mk_etat { disque : Disque; connus : list SurDisque; v1_fin : Z }.
Definition L : Type -> Type := M Etat Arret.
Definition sur_disque {A} (c : B A) : L A := fun s =>
  match c (disque s) with
  | (d, inl x) => (mk_etat d (connus s) (v1_fin s), inl x)
  | (d, inr e) => (mk_etat d (connus s) (v1_fin s), inr e)
  end.
Definition pose_connus (l : list SurDisque) : L unit :=
  change (fun s => mk_etat (disque s) l (v1_fin s)).
Definition oublie_le_disque : L unit := pose_connus [].
Definition note_etendue_v1 (fin : Z) : L unit :=
  change (fun s => mk_etat (disque s) (connus s) fin).
Definition oublie_la_v1 : L unit := note_etendue_v1 0.

(** ** The layout *)

Definition secteurs_table_utiles (nombre : nat) : nat :=
  ((nombre * TAILLE_ENTREE + 511) / 512)%nat.
Definition volume_secteurs : L Z :=
  d <- sur_disque descripteur ;;
  rend (if negb (taille_bloc d =? SECTOR_SIZE) then 0 else blocs d).
Definition debut : L (option Z) :=
  secteurs <- volume_secteurs ;;
  rend (if secteurs <=? SECTEURS_ZONE + SECTEUR_CONTENU then None else Some (secteurs - SECTEURS_ZONE)).

Definition SECTEURS_SUPERBLOCS : Z := 2.
Definition SECTEURS_DEMI : Z := (SECTEURS_ZONE - SECTEURS_SUPERBLOCS) / 2.
Definition debut_demi (demi : Z) : Z := SECTEURS_SUPERBLOCS + demi * SECTEURS_DEMI.
Definition contenu_demi (demi : Z) : Z := debut_demi demi + SECTEURS_TABLE.
Definition fin_demi (demi : Z) : Z := debut_demi demi + SECTEURS_DEMI.

Definition demi_recouvre_la_v1 (fin_v1 demi : Z) : bool :=
  if fin_v1 =? 0 then false else debut_demi demi <=? fin_v1.
Definition demi_sure (fin_v1 demi_prevue : Z) : option Z :=
  if negb (demi_recouvre_la_v1 fin_v1 demi_prevue) then Some demi_prevue
  else
    let autre := 1 - demi_prevue in
    if negb (demi_recouvre_la_v1 fin_v1 autre) then Some autre else None.

Definition lit_superbloc (lba : Z) : L (option Superbloc) :=
  r <- sur_disque (lit lba 1) ;;
  rend (if r.1 =? 1 then decode r.2 else None).
Definition superbloc_courant (base : Z) : L (option (Z * Superbloc)) :=
  a <- lit_superbloc base ;;
  b <- lit_superbloc (base + 1) ;;
  rend (choisit a b).

(** ** The index of what is on the disk *)

Definition sceau (contenu : list Z) : Z * Z :=
  fold_left (fun ab o =>
    ((Z.lxor ab.1 o * 0x00000100000001b3) mod u64_max,
     (Z.lxor ab.2 o * 0x886400000000003d) mod u64_max))
    contenu (0xcbf29ce484222325, 0x9e3779b97f4a7c15).
Definition deja_ecrite (l : list SurDisque) (index : nat) (chemin : list Z) (secteur longueur : Z)
  (sceau_courant : Z * Z) : bool :=
  match l !! index with
  | Some c => bool_decide (c_chemin c = chemin) && (c_secteur c =? secteur)
              && (c_longueur c =? longueur) && bool_decide (c_sceau c = sceau_courant)
  | None => false
  end.

(** ** The write of a snapshot *)

(** The fields of entry [index], written into the zeroed table. *)
Definition ecrit_entree (table : list Z) (index : nat) (e : SnapshotEntree) : list Z :=
  let debut_entree := (index * TAILLE_ENTREE)%nat in
  let t := splice table debut_entree (chemin e) in
  let t := splice t (debut_entree + CHEMIN_MAX) (to_le 8 (Z.of_nat (length (octets e)))) in
  splice t (debut_entree + DEBUT_META) (encode_meta (meta e)).

Definition nb_secteurs (longueur : nat) : nat := ((longueur + 511) / 512)%nat.
(** [tampon[..longueur].copy_from_slice(contenu)] in a zeroed buffer of whole sectors. *)
Definition tampon (contenu : list Z) : list Z :=
  splice (replicate (512 * nb_secteurs (length contenu)) 0) 0 contenu.

(** The loop over the entries; [None] is the early return of -1. *)
Fixpoint ecrit_contenus (fin_zone : Z) (es : list SnapshotEntree) (index : nat) (table : list Z)
  (secteur : Z) (nouveau : list SurDisque) : L (option (list Z * Z * list SurDisque)) :=
  match es with
  | [] => rend (Some (table, secteur, nouveau))
  | e :: es =>
      if (CHEMIN_MAX <=? length (chemin e))%nat then oublie_le_disque ;;; rend None
      else
        let longueur := length (octets e) in
        let table := ecrit_entree table index e in
        let secteurs := nb_secteurs longueur in
        if fin_zone <? secteur + Z.of_nat secteurs then oublie_le_disque ;;; rend None
        else
          let s := sceau (octets e) in
          st <- etat_courant ;;
          ok <- (if (secteurs =? 0)%nat then rend true
                 else if deja_ecrite (connus st) index (chemin e) secteur (Z.of_nat longueur) s
                 then rend true
                 else n <- sur_disque (ecrit secteur secteurs (tampon (octets e))) ;;
                      rend (n =? Z.of_nat secteurs)) ;;
          if negb ok then oublie_le_disque ;;; rend None
          else
            ecrit_contenus fin_zone es (S index) table (secteur + Z.of_nat secteurs)
              (nouveau ++ [mk_connu (chemin e) secteur (Z.of_nat longueur) s])
  end.

Definition SANS_ZONE : Z := -2.
Definition volume_barriere : L bool := sur_disque vidange.

(** The contents then the table, in the half [demi]; [None] is the early return of -1. *)
Definition ecrit_donnees (base demi : Z) (entrees : list SnapshotEntree)
  : L (option (list Z * Z * list SurDisque)) :=
  let secteurs_table := secteurs_table_utiles (length entrees) in
  r <- ecrit_contenus (base + fin_demi demi) entrees 0 (replicate (512 * secteurs_table) 0)
         (base + contenu_demi demi) [] ;;
  match r with
  | None => rend None
  | Some (table, secteur, nouveau) =>
      ok <- (if negb (secteurs_table =? 0)%nat then
               n <- sur_disque (ecrit (base + debut_demi demi) secteurs_table table) ;;
               rend (n =? Z.of_nat secteurs_table)
             else rend true) ;;
      if negb ok then oublie_le_disque ;;; rend None
      else rend (Some (table, secteur, nouveau))
  end.

(** The barrier, the superblock, the second barrier. *)
Definition commet (base emplacement : Z) (nouveau_superbloc : Superbloc) (nouveau : list SurDisque)
  (nombre : nat) : L Z :=
  volume_barriere ;;;
  match encode nouveau_superbloc (replicate 512 0) with
  | None => oublie_le_disque ;;; rend (-1)
  | Some secteur_superbloc =>
      n <- sur_disque (ecrit (base + emplacement) 1 secteur_superbloc) ;;
      if negb (n =? 1) then oublie_le_disque ;;; rend (-1)
      else
        volume_barriere ;;;
        oublie_la_v1 ;;;
        pose_connus nouveau ;;;
        rend (Z.of_nat nombre)
  end.

Definition synchronise_snapshot (entrees : list SnapshotEntree) : L Z :=
  b <- debut ;;
  match b with
  | None => oublie_le_disque ;;; rend SANS_ZONE
  | Some base =>
  if (ENTREES_MAX <? length entrees)%nat then oublie_le_disque ;;; rend (-1)
  else
  courant <- superbloc_courant base ;;
  let '(emplacement, demi_prevue, generation) := prochain courant in
  st <- etat_courant ;;
  match demi_sure (v1_fin st) demi_prevue with
  | None => oublie_le_disque ;;; rend (-1)
  | Some demi =>
  r <- ecrit_donnees base demi entrees ;;
  match r with
  | None => rend (-1)
  | Some (table, secteur, nouveau) =>
      commet base emplacement
        (mk_sb generation demi (Z.of_nat (length entrees))
           (Z.max 0 (secteur - (base + contenu_demi demi))) (somme_controle table))
        nouveau (length entrees)
  end
  end
  end.

(** ** The reading of the zone *)

(** Where the mount reads: the number of entries, the table, the contents and the checksum of
    the table in the second format. [None] is the early return. *)
Definition lit_entete (base : Z) : L (option (nat * Z * Z * option Z)) :=
  c <- superbloc_courant base ;;
  match c with
  | Some (_, s) =>
      oublie_la_v1 ;;;
      let nombre := Z.to_nat (sb_entrees s) in
      rend (if (nombre =? 0)%nat || (ENTREES_MAX <? nombre)%nat then None
            else Some (nombre, base + debut_demi (demi s), base + contenu_demi (demi s),
                       Some (somme_table s)))
  | None =>
      r <- sur_disque (lit base 1) ;;
      if negb (r.1 =? 1) then oublie_la_v1 ;;; rend None
      else if negb (bool_decide (slice r.2 0 8 = MAGIE)) then oublie_la_v1 ;;; rend None
      else
        let nombre := Z.to_nat (from_le (slice r.2 12 4)) in
        rend (if (nombre =? 0)%nat || (ENTREES_MAX <? nombre)%nat then None
              else Some (nombre, base + 1, base + SECTEUR_CONTENU, None))
  end.

(** What the mount hands to the file system for one entry. *)
Inductive Restaure :=
| RDossier (chemin : list Z) (m : Meta)
| RFichier (chemin contenu : list Z) (m : option Meta).

(** Overflow-checked addition. *)
Definition plus64 (a b : Z) : L Z := if u64_max <=? a + b then echoue Panique else rend (a + b).

(** The loop over the table. *)
Fixpoint lit_entrees (table : list Z) (nombre index : nat) (secteur : Z)
  : L (list Restaure * Z) :=
  match nombre with
  | O => rend ([], secteur)
  | S nombre =>
      let brut := slice table (index * TAILLE_ENTREE) TAILLE_ENTREE in
      let taille := from_le (slice brut CHEMIN_MAX 8) in
      let chemin := chaine (slice brut 0 CHEMIN_MAX) in
      arrondie <- plus64 taille SECTOR_SIZE ;;
      let secteurs := (arrondie - 1) / SECTOR_SIZE in
      let meta := decode_meta (slice brut DEBUT_META 8) in
      r <- (if negb (a_restaurer chemin taille meta) then rend []
            else match meta with
                 | Some (mk_meta true _ _ _ as m) => rend [RDossier chemin m]
                 | _ =>
                     x <- sur_disque (lit secteur (Z.to_nat secteurs)) ;;
                     rend (if x.1 =? secteurs
                           then [RFichier chemin (take (Z.to_nat taille) x.2) meta] else [])
                 end) ;;
      suivant <- plus64 secteur secteurs ;;
      suite <- lit_entrees table nombre (S index) suivant ;;
      rend (r ++ suite.1, suite.2)
  end.

(** The mount, up to what it deposits into the file system. *)
Definition lit_zone : L (list Restaure) :=
  oublie_le_disque ;;;
  b <- debut ;;
  match b with
  | None => rend []
  | Some base =>
  h <- lit_entete base ;;
  match h with
  | None => rend []
  | Some (nombre, secteur_table, premier_contenu, somme_attendue) =>
  let secteurs_table := secteurs_table_utiles nombre in
  t <- sur_disque (lit secteur_table secteurs_table) ;;
  if negb (t.1 =? Z.of_nat secteurs_table) then rend []
  else
  if match somme_attendue with Some a => negb (somme_controle t.2 =? a) | None => false end
  then rend []
  else
  r <- lit_entrees t.2 nombre 0 premier_contenu ;;
  match somme_attendue with
  | None => note_etendue_v1 (Z.max 0 (r.2 - base))
  | Some _ => rend tt
  end ;;;
  rend r.1
  end
  end.

End Persistance.
