(* ===== verification/PersistanceProofs.v ===== *)
(** The persistent zone: the codecs of the superblock and of the table, and the reading of a
    zone that holds a snapshot. *)

From S2P Require Import Prelude UpdateAb UpdateAbProofs Bloc Persistance.

Module PersistanceProofs.
Import Persistance.
Open Scope os_scope.

(** ** The checksum *)

Lemma fold_left_egal {A B} (f g : A -> B -> A) l a :
  (forall a b, f a b = g a b) -> fold_left f l a = fold_left g l a.
Proof.
  intros H. revert a. induction l as [|x l IH]; intros a; [done|].
  rewrite !fold_left_cons_eq, H. apply IH.
Qed.

Lemma pas_crc_egal c : pas_crc c = Ab.crc_bit c.
Proof.
  unfold pas_crc, Ab.crc_bit. destruct (Z.land c 1 =? 0); cbn [negb].
  - rewrite Z.land_0_r, Z.lxor_0_r. done.
  - done.
Qed.

(** The two checksums of the repository are the same function. *)
Lemma somme_controle_crc32 l : somme_controle l = Ab.crc32 l.
Proof.
  unfold somme_controle, Ab.crc32. f_equal. apply fold_left_egal. intros a b.
  unfold Ab.crc_octet. generalize (Z.lxor a b). intros c.
  assert (forall n, Nat.iter n pas_crc c = Nat.iter n Ab.crc_bit c) as H; [|apply (H 8%nat)].
  induction n as [|n IH]; [done|]. rewrite !Nat.iter_succ, IH. apply pas_crc_egal.
Qed.

Lemma somme_controle_range l : Forall octet l -> 0 <= somme_controle l < u32_max.
Proof. intros. rewrite somme_controle_crc32. by apply AbProofs.crc32_range. Qed.

#[global] Opaque somme_controle.

(** ** The superblock *)

Definition sb_ok (s : Superbloc) : Prop :=
  0 <= generation s < u64_max /\ 0 <= demi s <= 1 /\ 0 <= sb_entrees s < u32_max /\
  0 <= secteurs_contenu s < u64_max /\ 0 <= somme_table s < u32_max.

Lemma length_corps s l : length (encode_corps s l) = length l.
Proof. unfold encode_corps. by rewrite !length_splice, length_replicate. Qed.

Lemma sb_corps_octets s l : Forall octet (encode_corps s l).
Proof.
  unfold encode_corps. repeat apply Forall_splice; auto with os.
  - apply Forall_replicate. unfold octet. lia.
  - apply (bool_decide_unpack _). vm_compute. exact I.
Qed.

Lemma superbloc_decode_encode s :
  sb_ok s -> exists o, encode s (replicate 512 0) = Some o /\ length o = 512%nat /\ decode o = Some s.
Proof.
  intros (Hg & Hd & He & Hc & Ht). unfold u64_max, u32_max in *.
  unfold encode. rewrite length_replicate. cbn [Nat.ltb Nat.leb TAILLE_SUPERBLOC].
  set (c := encode_corps s (replicate 512 0)).
  assert (length c = 512%nat) as Hl by (unfold c; by rewrite length_corps, length_replicate).
  assert (forall a n, (a + n <= 40)%nat ->
    slice (splice c 40 (to_le 4 (somme_controle (slice c 0 40)))) a n = slice c a n) as Hs.
  { intros a n Han. apply slice_splice_ne; rewrite ?length_to_le; lia. }
  eexists. split; [done|]. split; [by rewrite length_splice|].
  unfold decode. rewrite length_splice, Hl. cbn [Nat.ltb Nat.leb TAILLE_SUPERBLOC].
  rewrite (slice_splice_eq _ 40 _ 4) by (rewrite ?length_to_le; lia).
  rewrite !Hs by lia.
  rewrite from_to_le_small.
  2:{ apply somme_controle_range, Forall_slice. apply sb_corps_octets. }
  assert (slice c 0 8 = MAGIE_V2) as -> by (unfold c, encode_corps; tranches; done).
  assert (slice c 8 4 = to_le 4 VERSION_V2) as -> by (unfold c, encode_corps; tranches; done).
  assert (slice c 12 8 = to_le 8 (generation s)) as -> by (unfold c, encode_corps; tranches; done).
  assert (slice c 20 4 = to_le 4 (demi s)) as -> by (unfold c, encode_corps; tranches; done).
  assert (slice c 24 4 = to_le 4 (sb_entrees s)) as -> by (unfold c, encode_corps; tranches; done).
  assert (slice c 28 8 = to_le 8 (secteurs_contenu s)) as -> by (unfold c, encode_corps; tranches; done).
  assert (slice c 36 4 = to_le 4 (somme_table s)) as -> by (unfold c, encode_corps; tranches; done).
  rewrite !from_to_le_small by (cbn; unfold VERSION_V2; lia).
  rewrite bool_decide_eq_true_2 by done. rewrite !Z.eqb_refl, (proj2 (Z.ltb_ge 1 (demi s))) by lia.
  cbn [negb]. by destruct s.
Qed.

(** ** One entry of the table *)

(** What a snapshot can hold: names are strings of non-zero bytes, metadata of its width. *)
Record entree_ok (e : SnapshotEntree) : Prop := {
  eo_vide : chemin e <> [];
  eo_longueur : (length (chemin e) < CHEMIN_MAX)%nat;
  eo_zero : 0 ∉ chemin e;
  eo_utf8 : from_utf8_lossy (chemin e) = chemin e;
  eo_contenu : Z.of_nat (length (octets e)) < 2 ^ 60;
  eo_mode : 0 <= mode (meta e) < 4096;
  eo_uid : 0 <= uid (meta e) < 65536;
  eo_gid : 0 <= gid (meta e) < 65536;
  eo_octets : Forall octet (chemin e)
}.

Definition encode_entree (e : SnapshotEntree) : list Z :=
  chemin e ++ replicate (CHEMIN_MAX - length (chemin e)) 0
  ++ to_le 8 (Z.of_nat (length (octets e))) ++ encode_meta (meta e).

Lemma length_encode_meta m : length (encode_meta m) = 8%nat.
Proof. unfold encode_meta. by rewrite !length_app, !length_to_le. Qed.

Lemma length_encode_entree e :
  (length (chemin e) < CHEMIN_MAX)%nat -> length (encode_entree e) = TAILLE_ENTREE.
Proof.
  intros. unfold encode_entree. rewrite !length_app, length_replicate, length_to_le, length_encode_meta.
  unfold CHEMIN_MAX, TAILLE_ENTREE in *. lia.
Qed.

Lemma encode_entree_octets e : entree_ok e -> Forall octet (encode_entree e).
Proof.
  intros [_ _ _ _ _ _ _ _ Ho]. unfold encode_entree, encode_meta.
  rewrite !Forall_app. split_and!; auto with os.
  - apply Forall_replicate. unfold octet. lia.
  - destruct (dossier (meta e)); apply (bool_decide_unpack _); vm_compute; exact I.
Qed.

(** Writing after a prefix. *)
Lemma splice_prefixe {A} (pre l src : list A) a :
  (a + length src <= length l)%nat ->
  splice (pre ++ l) (length pre + a) src = pre ++ splice l a src.
Proof.
  intros H. rewrite !splice_in by (rewrite ?length_app; lia).
  rewrite take_app_add, <- app_assoc, <- Nat.add_assoc, drop_app_add. done.
Qed.

(** Filling a zeroed run up to its end. *)
Lemma splice_zeros (src : list Z) n k :
  length src = n -> splice (replicate (n + k) 0) 0 src = src ++ replicate k 0.
Proof.
  intros <-. rewrite splice_in by (rewrite length_replicate; lia).
  rewrite drop_replicate. cbn [take app Nat.add].
  by replace (length src + k - length src)%nat with k by lia.
Qed.

Lemma ecrit_entree_apres pre k index e :
  length pre = (index * TAILLE_ENTREE)%nat -> (length (chemin e) < CHEMIN_MAX)%nat ->
  ecrit_entree (pre ++ replicate (TAILLE_ENTREE + k) 0) index e
    = pre ++ encode_entree e ++ replicate k 0.
Proof.
  intros Hp Hc. unfold ecrit_entree. rewrite <- Hp.
  unfold CHEMIN_MAX, TAILLE_ENTREE, DEBUT_META in *. cbn [Nat.sub] in *.
  set (c := chemin e) in *. set (n := Z.of_nat _). set (m := meta e).
  assert (splice (pre ++ replicate (256 + k) 0) (length pre) c
          = pre ++ (c ++ replicate (240 - length c) 0) ++ replicate (8 + (8 + k)) 0) as ->.
  { rewrite <- (Nat.add_0_r (length pre)), splice_prefixe by (rewrite length_replicate; lia).
    replace (256 + k)%nat with (length c + ((240 - length c) + (8 + (8 + k))))%nat by lia.
    rewrite splice_zeros by done. by rewrite replicate_add, <- app_assoc. }
  set (q := c ++ _). assert (length q = 240%nat) as Hq
    by (unfold q; rewrite length_app, length_replicate; lia).
  assert (splice (pre ++ q ++ replicate (8 + (8 + k)) 0) (length pre + 240) (to_le 8 n)
          = pre ++ (q ++ to_le 8 n) ++ replicate (8 + k) 0) as ->.
  { rewrite <- Hq, <- (Nat.add_0_r (length q)).
    rewrite splice_prefixe by (rewrite ?length_app, ?length_replicate, ?length_to_le; lia).
    rewrite splice_prefixe by (rewrite ?length_replicate, ?length_to_le; lia).
    rewrite splice_zeros by apply length_to_le. by rewrite <- !app_assoc. }
  set (q2 := q ++ _). assert (length q2 = 248%nat) as Hq2
    by (unfold q2; rewrite length_app, length_to_le; lia).
  rewrite <- Hq2, <- (Nat.add_0_r (length q2)).
  rewrite splice_prefixe by (rewrite ?length_app, ?length_replicate, ?length_encode_meta; lia).
  rewrite splice_prefixe by (rewrite ?length_replicate, ?length_encode_meta; lia).
  rewrite splice_zeros by apply length_encode_meta.
  unfold encode_entree, q2, q, CHEMIN_MAX, TAILLE_ENTREE. fold c n m. cbn [Nat.sub].
  by rewrite <- !app_assoc.
Qed.

Lemma meta_decode_encode m :
  0 <= mode m < 4096 -> 0 <= uid m < 65536 -> 0 <= gid m < 65536 ->
  decode_meta (encode_meta m) = Some m.
Proof.
  intros Hm Hu Hg. unfold decode_meta. rewrite length_encode_meta.
  unfold encode_meta. cbn [Nat.ltb Nat.leb orb].
  assert (forall a b (x y z : list Z), length x = 2%nat -> length y = 2%nat -> length z = 2%nat ->
    slice ([a; b] ++ x ++ y ++ z) 2 2 = x /\ slice ([a; b] ++ x ++ y ++ z) 4 2 = y /\
    slice ([a; b] ++ x ++ y ++ z) 6 2 = z) as Hs.
  { intros a b [|? [|? []]] [|? [|? []]] [|? [|? []]]; try done. }
  destruct (Hs (if dossier m then GENRE_DOSSIER else GENRE_FICHIER) VERSION_META
    (to_le 2 (mode m)) (to_le 2 (uid m)) (to_le 2 (gid m))) as (-> & -> & ->);
    rewrite ?length_to_le; try done.
  rewrite !from_to_le_small by (cbn; lia).
  replace (Z.land (mode m) 4095) with (mode m).
  2:{ change 4095 with (Z.ones 12). rewrite Z.land_ones by lia. symmetry. apply Z.mod_small. lia. }
  destruct m as [[] ? ? ?]; done.
Qed.

Lemma avant_zero_rembourre c n : 0 ∉ c -> avant_zero (c ++ replicate n 0) = c.
Proof.
  intros H. induction c as [|x c IH]; cbn [app avant_zero].
  - by destruct n.
  - rewrite not_elem_of_cons in H. destruct H as [Hx Hc].
    destruct (x =? 0) eqn:E; [bool_prop; congruence|]. by rewrite IH.
Qed.

(** The fields of an encoded entry. *)
Lemma champs_entree e :
  entree_ok e ->
  from_le (slice (encode_entree e) CHEMIN_MAX 8) = Z.of_nat (length (octets e)) /\
  chaine (slice (encode_entree e) 0 CHEMIN_MAX) = chemin e /\
  decode_meta (slice (encode_entree e) DEBUT_META 8) = Some (meta e).
Proof.
  intros [_ Hl H0 Hu Hc Hm Hi Hg _]. unfold encode_entree.
  set (q := chemin e ++ replicate (CHEMIN_MAX - length (chemin e)) 0).
  assert (length q = CHEMIN_MAX) as Hq by (unfold q; rewrite length_app, length_replicate; lia).
  rewrite app_assoc. fold q. set (n := Z.of_nat (length (octets e))).
  assert (0 <= n < 256 ^ Z.of_nat 8) as Hn by (cbn; lia).
  split_and!.
  - unfold slice. rewrite <- Hq, drop_app_length.
    rewrite take_app_length' by (by rewrite length_to_le). by apply from_to_le_small.
  - unfold slice. rewrite drop_0, (take_app_length' q) by done. unfold chaine, q.
    by rewrite avant_zero_rembourre.
  - unfold slice. rewrite app_assoc, drop_app_length' by (rewrite length_app, length_to_le, Hq; done).
    rewrite take_ge by (by rewrite length_encode_meta). by apply meta_decode_encode.
Qed.

(** ** The table and the contents *)

Definition table_de (es : list SnapshotEntree) : list Z :=
  concat (map encode_entree es)
  ++ replicate (512 * secteurs_table_utiles (length es) - TAILLE_ENTREE * length es) 0.

Lemma length_concat_entrees es :
  Forall (fun e => (length (chemin e) < CHEMIN_MAX)%nat) es ->
  length (concat (map encode_entree es)) = (TAILLE_ENTREE * length es)%nat.
Proof.
  induction 1 as [|e es He _ IH]; cbn [map concat length]; [lia|].
  rewrite length_app, IH, length_encode_entree by done. lia.
Qed.

Lemma table_tient n : (TAILLE_ENTREE * n <= 512 * secteurs_table_utiles n)%nat.
Proof.
  unfold secteurs_table_utiles, TAILLE_ENTREE.
  pose proof (Nat.div_mod_eq (n * 256 + 511) 512). pose proof (Nat.mod_upper_bound (n * 256 + 511) 512).
  lia.
Qed.

Lemma chemins_courts es :
  Forall entree_ok es -> Forall (fun e => (length (chemin e) < CHEMIN_MAX)%nat) es.
Proof. intros H. eapply Forall_impl; [exact H|]. by intros e []. Qed.

Lemma length_table_de es :
  Forall entree_ok es -> length (table_de es) = (512 * secteurs_table_utiles (length es))%nat.
Proof.
  intros H. unfold table_de. rewrite length_app, length_replicate, length_concat_entrees
    by (by apply chemins_courts). pose proof (table_tient (length es)). lia.
Qed.

Lemma table_octets es : Forall entree_ok es -> Forall octet (table_de es).
Proof.
  intros H. unfold table_de. apply Forall_app. split; [|apply Forall_replicate; unfold octet; lia].
  apply Forall_concat, Forall_map. eapply Forall_impl; [exact H|]. apply encode_entree_octets.
Qed.

Lemma slice_concat_entrees es i e z :
  Forall entree_ok es -> es !! i = Some e ->
  slice (concat (map encode_entree es) ++ z) (i * TAILLE_ENTREE) TAILLE_ENTREE = encode_entree e.
Proof.
  intros H. revert i. induction H as [|x es Hx Hes IH]; intros i Hi; [done|].
  cbn [map concat]. destruct i as [|i]; cbn in Hi.
  - injection Hi as ->. unfold slice. cbn [Nat.mul drop]. rewrite <- app_assoc.
    apply take_app_length'. symmetry. apply length_encode_entree. apply Hx.
  - rewrite <- (IH i Hi). unfold slice. f_equal. rewrite <- app_assoc.
    replace (S i * TAILLE_ENTREE)%nat with (length (encode_entree x) + i * TAILLE_ENTREE)%nat
      by (rewrite length_encode_entree by apply Hx; lia).
    by rewrite drop_app_add.
Qed.

Lemma nb_secteurs_Z n : Z.of_nat (nb_secteurs n) = (Z.of_nat n + 511) / 512.
Proof. unfold nb_secteurs. rewrite Nat2Z.inj_div, Nat2Z.inj_add. done. Qed.
Lemma nb_secteurs_tient n : (n <= 512 * nb_secteurs n)%nat.
Proof.
  unfold nb_secteurs. pose proof (Nat.div_mod_eq (n + 511) 512).
  pose proof (Nat.mod_upper_bound (n + 511) 512). lia.
Qed.
Lemma length_tampon c : length (tampon c) = (512 * nb_secteurs (length c))%nat.
Proof. unfold tampon. by rewrite length_splice, length_replicate. Qed.
Lemma take_tampon c : take (length c) (tampon c) = c.
Proof.
  unfold tampon. pose proof (nb_secteurs_tient (length c)).
  rewrite splice_in by (rewrite length_replicate; lia). rewrite take_0, app_nil_l.
  apply take_app_length.
Qed.

(** The contents of [es] lie one after the other from [secteur]. *)
Fixpoint total (es : list SnapshotEntree) : Z :=
  match es with [] => 0 | e :: es => Z.of_nat (nb_secteurs (length (octets e))) + total es end.
Fixpoint porte (p : Z -> list Z) (secteur : Z) (es : list SnapshotEntree) : Prop :=
  match es with
  | [] => True
  | e :: es =>
      secteurs_de p secteur (nb_secteurs (length (octets e))) = tampon (octets e) /\
      porte p (secteur + Z.of_nat (nb_secteurs (length (octets e)))) es
  end.

Lemma total_positif es : 0 <= total es.
Proof. induction es; cbn [total]; lia. Qed.

Lemma secteurs_de_egal p q lba n :
  (forall x, lba <= x < lba + Z.of_nat n -> p x = q x) -> secteurs_de p lba n = secteurs_de q lba n.
Proof.
  intros H. unfold secteurs_de. rewrite !flat_map_concat_map. f_equal.
  apply map_ext_in. intros x Hx. apply list_elem_of_In, elem_of_seqZ in Hx. apply H. lia.
Qed.

Lemma porte_egal p q secteur es :
  (forall x, secteur <= x < secteur + total es -> p x = q x) -> porte p secteur es -> porte q secteur es.
Proof.
  revert secteur. induction es as [|e es IH]; intros secteur H; [done|]. cbn [porte total] in *.
  pose proof (total_positif es). intros [H1 H2]. split.
  - rewrite <- H1. symmetry. apply secteurs_de_egal. intros x Hx. apply H. lia.
  - apply IH; [|done]. intros x Hx. apply H. lia.
Qed.

(** What the mount restores of an entry. *)
Definition restaure (e : SnapshotEntree) : Restaure :=
  if dossier (meta e) then RDossier (chemin e) (meta e)
  else RFichier (chemin e) (octets e) (Some (meta e)).

(** ** Reading without failures *)

Definition pose_disque (s : Etat) (d : Disque) : Etat := mk_etat d (connus s) (v1_fin s).

Lemma lit_ok s lba n :
  lectures (disque s) = [] -> 0 <= lba -> lba + Z.of_nat n <= blocs (desc (disque s)) ->
  sur_disque (lit lba n) s = (s, inl (Z.of_nat n, secteurs_de (contenu (disque s)) lba n)).
Proof.
  intros Hl H0 Hb. unfold sur_disque, lit, dans_les_bornes.
  rewrite (proj2 (Z.leb_le 0 lba)), (proj2 (Z.leb_le _ _)) by lia. cbn [andb negb].
  rewrite Hl. by destruct s.
Qed.

Lemma lit_entrees_spec s t es : forall index secteur,
  lectures (disque s) = [] -> Forall entree_ok es ->
  (forall j e, es !! j = Some e ->
     slice t ((index + j) * TAILLE_ENTREE) TAILLE_ENTREE = encode_entree e) ->
  porte (contenu (disque s)) secteur es ->
  0 <= secteur -> secteur + total es <= blocs (desc (disque s)) -> blocs (desc (disque s)) < 2 ^ 63 ->
  lit_entrees t (length es) index secteur s = (s, inl (map restaure es, secteur + total es)).
Proof.
  induction es as [|e es IH]; intros index secteur Hl Hok Ht Hp H0 Hb Hm; cbn [length lit_entrees].
  { cbn [map total]. by rewrite Z.add_0_r. }
  apply Forall_cons in Hok as [He Hok]. cbn [porte total] in *. destruct Hp as [Hp1 Hp2].
  pose proof (total_positif es) as Htot.
  assert (slice t (index * TAILLE_ENTREE) TAILLE_ENTREE = encode_entree e) as ->.
  { rewrite <- (Ht 0%nat e) by done. by rewrite Nat.add_0_r. }
  destruct (champs_entree e He) as (-> & -> & ->). pose proof (eo_contenu e He) as Hc.
  set (n := Z.of_nat (length (octets e))) in *.
  assert (Z.of_nat (nb_secteurs (length (octets e))) = (n + SECTOR_SIZE - 1) / SECTOR_SIZE) as En
    by (rewrite nb_secteurs_Z; unfold SECTOR_SIZE; f_equal; lia).
  rewrite En in Hp2, Hb |- *.
  erewrite lie_pas with (x := n + SECTOR_SIZE).
  2:{ unfold plus64, SECTOR_SIZE. rewrite (proj2 (Z.leb_gt _ _)) by (unfold u64_max; lia). done. }
  assert (a_restaurer (chemin e) n (Some (meta e)) = true) as ->.
  { unfold a_restaurer. rewrite orb_true_r, andb_true_r. apply negb_true_iff, bool_decide_eq_false.
    apply He. }
  cbn [negb]. set (k := (n + SECTOR_SIZE - 1) / SECTOR_SIZE) in *.
  assert (0 <= k) as Hk by (rewrite <- En; lia).
  erewrite lie_pas with (x := [restaure e]).
  2:{ unfold restaure. destruct (meta e) as [[] mo ui gi] eqn:Em; cbn [dossier]; [done|].
      erewrite lie_pas by (apply lit_ok; [done|done|rewrite Z2Nat.id by done; lia]).
      cbn [fst snd]. rewrite Z2Nat.id, Z.eqb_refl by done. rewrite <- En, Nat2Z.id, Hp1.
      unfold n. rewrite Nat2Z.id, take_tampon. done. }
  erewrite lie_pas by (unfold plus64; rewrite (proj2 (Z.leb_gt _ _)) by (unfold u64_max; lia); done).
  erewrite lie_pas.
  2:{ apply IH; try done; try lia. intros j x Hj. rewrite <- (Ht (S j) x Hj).
      do 2 f_equal. lia. }
  cbn [map fst snd app]. unfold rend. do 3 f_equal. lia.
Qed.

End PersistanceProofs.
