(* ===== verification/PersistanceSurete.v ===== *)
(** The persistent zone survives power loss: whatever the disk refuses and wherever the power
    goes, the zone holds the last snapshot committed or, when the power went during a
    synchronisation, that one or the new one, complete. *)

From S2P Require Import Prelude UpdateAb Bloc Persistance PersistanceProofs.

Module PersistanceSurete.
Import Persistance PersistanceProofs.
Open Scope os_scope.
#[local] Opaque ENTREES_MAX.

(** ** Writes *)

Definition lbas (ws : list (Z * list Z)) : list Z := map fst ws.

Lemma derniere_app ws1 ws2 lba v :
  derniere (ws1 ++ ws2) lba v = derniere ws2 lba (derniere ws1 lba v).
Proof. apply fold_left_app. Qed.

Lemma derniere_ailleurs ws lba v : lba ∉ lbas ws -> derniere ws lba v = v.
Proof.
  revert v. induction ws as [|w ws IH]; intros v H; [done|]. unfold derniere in *.
  cbn [lbas map] in H. rewrite not_elem_of_cons in H. destruct H as [Hw Hws].
  rewrite fold_left_cons_eq, (proj2 (Z.eqb_neq w.1 lba)) by congruence. by apply IH.
Qed.

Lemma elem_decoupe lba n donnees x :
  x ∈ lbas (decoupe lba n donnees) <-> lba <= x < lba + Z.of_nat n.
Proof.
  unfold lbas, decoupe, secteurs_choisis. rewrite map_map, list_elem_of_fmap. cbn [fst]. split.
  - intros (i & -> & Hi). apply elem_of_seq in Hi. lia.
  - intros Hx. exists (Z.to_nat (x - lba)). split; [lia|]. apply elem_of_seq. lia.
Qed.

Lemma derniere_decoupe lba n donnees x v :
  lba <= x < lba + Z.of_nat n ->
  derniere (decoupe lba n donnees) x v = slice donnees (512 * Z.to_nat (x - lba)) 512.
Proof.
  intros Hx. unfold decoupe, secteurs_choisis. induction n as [|n IH]; [lia|].
  rewrite seq_S, map_app, derniere_app. cbn [map Nat.add].
  unfold derniere at 1. cbn [fold_left fst snd].
  destruct (Z.eqb_spec (lba + Z.of_nat n) x) as [E|E].
  - replace (Z.to_nat (x - lba)) with n by lia. done.
  - apply IH. lia.
Qed.

(** Reading back whole sectors. *)
Lemma concat_tranches (l : list Z) n a :
  length l = (512 * (a + n))%nat ->
  concat (map (fun i => slice l (512 * i) 512) (seq a n)) = drop (512 * a) l.
Proof.
  revert a. induction n as [|n IH]; intros a Hl; cbn [seq map concat].
  - by rewrite drop_ge by lia.
  - rewrite IH by lia. unfold slice.
    replace (drop (512 * S a) l) with (drop 512 (drop (512 * a) l)) by (rewrite drop_drop; f_equal; lia).
    apply take_drop.
Qed.

Lemma secteurs_decoupe p lba n donnees :
  length donnees = (512 * n)%nat ->
  secteurs_de (fun x => derniere (decoupe lba n donnees) x (p x)) lba n = donnees.
Proof.
  intros Hl. unfold secteurs_de. rewrite flat_map_concat_map.
  replace (map _ _) with (map (fun i => slice donnees (512 * i) 512) (seq 0 n)).
  { rewrite concat_tranches by (cbn; lia). done. }
  unfold seqZ. rewrite Nat2Z.id, map_map. apply map_ext_in. intros i Hi.
  apply in_seq in Hi. rewrite derniere_decoupe by lia. f_equal. lia.
Qed.

(** What a failed or successful run of writes does to the disk: only pending writes in
    [[deb, fin)] are added. *)
Definition dans (deb fin : Z) (l : list Z) : Prop := Forall (fun x => deb <= x < fin) l.
Record reste (d d' : Disque) (deb fin : Z) : Prop := {
  re_desc : desc d' = desc d;
  re_plateau : plateau d' = plateau d;
  re_lectures : lectures d' = lectures d;
  re_manquees : (manquees d <= manquees d')%nat;
  re_cachees : exists ws, cachees d' = cachees d ++ ws /\ dans deb fin (lbas ws)
}.

Lemma reste_refl d deb fin : reste d d deb fin.
Proof. split; try done. exists []. split; [by rewrite app_nil_r|constructor]. Qed.
Lemma reste_trans d1 d2 d3 deb fin : reste d1 d2 deb fin -> reste d2 d3 deb fin -> reste d1 d3 deb fin.
Proof.
  intros [A1 B1 C1 M1 (w1 & D1 & E1)] [A2 B2 C2 M2 (w2 & D2 & E2)]. split; try congruence; [lia|].
  exists (w1 ++ w2). rewrite D2, D1, app_assoc. split; [done|].
  unfold lbas, dans in *. rewrite map_app. by apply Forall_app.
Qed.
Lemma reste_elargit d d' a b a' b' : reste d d' a b -> a' <= a -> b <= b' -> reste d d' a' b'.
Proof.
  intros [A1 B1 C1 M1 (w1 & D1 & E1)] Ha Hb. split; try done. exists w1. split; [done|].
  eapply Forall_impl; [exact E1|]. cbv beta. intros; lia.
Qed.
Lemma reste_contenu d d' deb fin x :
  reste d d' deb fin -> ~ deb <= x < fin -> contenu d' x = contenu d x.
Proof.
  intros [_ B1 _ _ (w1 & D1 & E1)] Hx. unfold contenu. rewrite D1, B1, derniere_app.
  apply derniere_ailleurs. intros Hin. unfold dans in E1. rewrite Forall_forall in E1. by apply E1 in Hin.
Qed.

(** One request: the sectors accepted are a prefix, and all of them on success. *)
Lemma ecrit_bloc_spec lba n donnees d d' r deb fin :
  ecrit lba n donnees d = (d', r) -> deb <= lba -> lba + Z.of_nat n <= fin ->
  reste d d' deb fin /\
  match r with
  | inl k => k = Z.of_nat n -> length donnees = (512 * n)%nat -> (0 < n)%nat ->
             secteurs_de (contenu d') lba n = donnees /\
             (forall x, ~ lba <= x < lba + Z.of_nat n -> contenu d' x = contenu d x)
  | inr a => a = Coupure
  end.
Proof.
  intros E Hd Hf.
  assert (forall k l, (k <= n)%nat -> reste d (accepte d l (decoupe lba k donnees)) deb fin) as Hr.
  { intros k l Hk. split; try done. eexists. split; [done|]. apply Forall_forall. intros x Hx.
    apply elem_decoupe in Hx. lia. }
  assert (forall l, length donnees = (512 * n)%nat ->
    secteurs_de (contenu (accepte d l (decoupe lba n donnees))) lba n = donnees /\
    (forall x, ~ lba <= x < lba + Z.of_nat n ->
       contenu (accepte d l (decoupe lba n donnees)) x = contenu d x)) as Hc.
  { intros l Hl. split.
    - rewrite <- (secteurs_decoupe (contenu d) lba n donnees Hl) at 2.
      apply secteurs_de_egal. intros x _. unfold contenu at 1. cbn [accepte cachees plateau].
      by rewrite derniere_app.
    - intros x Hx. apply (reste_contenu _ _ lba (lba + Z.of_nat n)); [|done].
      split; try done. eexists. split; [done|]. apply Forall_forall. intros y Hy.
      apply elem_decoupe in Hy. lia. }
  unfold ecrit in E. destruct (negb _).
  { injection E as <- <-. split; [apply reste_refl|]. cbn. lia. }
  destruct (ecritures d) as [|[|k|pris|k] l]; [| | |destruct (filter _ _) as [|i pris'] eqn:Ef|]; injection E as <- <-.
  - split; [by apply Hr|]. intros _ Hl _. by apply Hc.
  - split; [by apply Hr|]. intros _ Hl _. by apply Hc.
  - split; [apply Hr; lia|]. cbn [nb_blocs]. intros Hk Hl _.
    replace (k `min` n)%nat with n by lia. by apply Hc.
  - split; [|cbn [nb_blocs]; lia]. apply (Hr 0%nat). lia.
  - split; [|cbn [nb_blocs]; lia]. split; try done; [cbn; lia|]. exists (secteurs_choisis lba (i :: pris') donnees). split; [done|]. apply Forall_forall. intros x Hx.
    unfold lbas, secteurs_choisis in Hx. rewrite map_map, list_elem_of_fmap in Hx. destruct Hx as (j & -> & Hj). cbn [fst].
    rewrite <- Ef in Hj. apply list_elem_of_filter in Hj as [_ Hj%elem_of_seq]. lia.
  - split; [apply Hr; lia|done].
Qed.

(** ** The contents of a snapshot *)

(** The index names no sector of the range, empty files apart. *)
Definition ailleurs (l : list SurDisque) (deb fin : Z) : Prop :=
  Forall (fun c => 0 < c_longueur c -> ~ deb <= c_secteur c < fin) l.
Definition dedans (l : list SurDisque) (deb fin : Z) : Prop :=
  Forall (fun c => 0 < c_longueur c -> deb <= c_secteur c < fin) l.

(** The half being written is not the half in service: nothing of it is in the index, and no
    write is ever skipped. *)
Lemma jamais_sautee l deb fin index c secteur longueur sc :
  ailleurs l deb fin -> deb <= secteur < fin -> 0 < longueur ->
  deja_ecrite l index c secteur longueur sc = false.
Proof.
  intros Hl Hs Hn. unfold deja_ecrite. destruct (l !! index) as [x|] eqn:E; [|done].
  destruct (Z.eqb_spec (c_secteur x) secteur) as [Es|]; [|by rewrite andb_false_r].
  destruct (Z.eqb_spec (c_longueur x) longueur) as [El|]; [|by rewrite andb_false_r].
  unfold ailleurs in Hl. rewrite Forall_forall in Hl.
  exfalso. apply (Hl x); [by eapply list_elem_of_lookup_2|lia|lia].
Qed.

Lemma sur_disque_cas {A} (c : B A) s s' r :
  sur_disque c s = (s', r) -> c (disque s) = (disque s', r) /\ connus s' = connus s /\ v1_fin s' = v1_fin s.
Proof.
  unfold sur_disque. destruct (c (disque s)) as [d [x|e]] eqn:E; intros [= <- <-]; done.
Qed.

(** The early return of -1. *)
Lemma abandon_cas {A} (x : A) s s' r :
  (oublie_le_disque ;;; rend x) s = (s', r) ->
  r = inl x /\ disque s' = disque s /\ connus s' = [] /\ v1_fin s' = v1_fin s.
Proof. by intros [= <- <-]. Qed.

(** The write of one content, empty contents apart. *)
Definition ecrit_un (index : nat) (e : SnapshotEntree) (secteur : Z) : L bool :=
  let longueur := length (octets e) in
  let secteurs := nb_secteurs longueur in
  st <- etat_courant ;;
  if (secteurs =? 0)%nat then rend true
  else if deja_ecrite (connus st) index (chemin e) secteur (Z.of_nat longueur) (sceau (octets e))
  then rend true
  else n <- sur_disque (ecrit secteur secteurs (tampon (octets e))) ;;
       rend (n =? Z.of_nat secteurs).

Lemma ecrit_un_spec index e secteur deb fin s s' r :
  ecrit_un index e secteur s = (s', r) ->
  deb <= secteur -> secteur + Z.of_nat (nb_secteurs (length (octets e))) <= fin ->
  ailleurs (connus s) deb fin ->
  reste (disque s) (disque s') secteur fin /\ v1_fin s' = v1_fin s /\ connus s' = connus s /\
  match r with
  | inl true => secteurs_de (contenu (disque s')) secteur (nb_secteurs (length (octets e))) = tampon (octets e)
  | inl false => True
  | inr a => a = Coupure
  end.
Proof.
  intros E Hd Hf Hc. unfold ecrit_un in E. unfold lie at 1, etat_courant in E.
  destruct (nb_secteurs (length (octets e)) =? 0)%nat eqn:E0; bool_prop.
  { injection E as <- <-. split; [apply reste_refl|]. split_and!; try done.
    pose proof (length_tampon (octets e)) as Hl. rewrite E0 in *. cbn.
    symmetry. apply nil_length_inv. lia. }
  assert (0 < Z.of_nat (length (octets e))) as Hpos.
  { destruct (length (octets e)); [done|lia]. }
  rewrite (jamais_sautee _ deb fin) in E; [|done|lia|done].
  apply lie_cas in E as [(a & E & ->)|(s1 & n & E & E2)].
  - apply sur_disque_cas in E as (E & Ec & Ev).
    apply (ecrit_bloc_spec _ _ _ _ _ _ secteur fin) in E as [Hr Ha]; [|lia|lia]. done.
  - injection E2 as <- <-. apply sur_disque_cas in E as (E & Ec & Ev).
    apply (ecrit_bloc_spec _ _ _ _ _ _ secteur fin) in E as [Hr Ha]; [|lia|lia].
    split_and!; try done. destruct (n =? _) eqn:En; [|done]. bool_prop.
    apply Ha; [done|apply length_tampon|lia].
Qed.

Lemma ecrit_contenus_pas fin e es index table secteur nouveau s :
  ecrit_contenus fin (e :: es) index table secteur nouveau s =
  (if (CHEMIN_MAX <=? length (chemin e))%nat then oublie_le_disque ;;; rend None
   else if fin <? secteur + Z.of_nat (nb_secteurs (length (octets e))) then oublie_le_disque ;;; rend None
   else
     ok <- ecrit_un index e secteur ;;
     if negb ok then oublie_le_disque ;;; rend None
     else ecrit_contenus fin es (S index) (ecrit_entree table index e)
            (secteur + Z.of_nat (nb_secteurs (length (octets e))))
            (nouveau ++ [mk_connu (chemin e) secteur (Z.of_nat (length (octets e))) (sceau (octets e))])) s.
Proof.
  cbn [ecrit_contenus]. do 2 (case_match; [done|]). unfold ecrit_un, lie, etat_courant.
  done.
Qed.

Lemma ecrit_contenus_spec deb fin es : forall index pre k secteur nouveau s s' r,
  ecrit_contenus fin es index (pre ++ replicate (TAILLE_ENTREE * length es + k) 0) secteur nouveau s
    = (s', r) ->
  length pre = (index * TAILLE_ENTREE)%nat -> deb <= secteur -> secteur <= fin ->
  ailleurs (connus s) deb fin ->
  reste (disque s) (disque s') secteur fin /\ v1_fin s' = v1_fin s /\
  match r with
  | inl (Some (t, sec, nv)) =>
      t = pre ++ concat (map encode_entree es) ++ replicate k 0 /\
      sec = secteur + total es /\ sec <= fin /\ porte (contenu (disque s')) secteur es /\
      exists nv', nv = nouveau ++ nv' /\ dedans nv' secteur fin
  | inl None => connus s' = []
  | inr a => a = Coupure
  end.
Proof.
  induction es as [|e es IH]; intros index pre k secteur nouveau s s' r E Hp Hd Hf Hc.
  { injection E as <- <-. split; [apply reste_refl|]. split_and!; try done.
    - cbn. lia.
    - exists []. split; [by rewrite app_nil_r|constructor]. }
  rewrite ecrit_contenus_pas in E. set (n := nb_secteurs (length (octets e))) in *.
  destruct (CHEMIN_MAX <=? length (chemin e))%nat eqn:E1.
  { apply abandon_cas in E as (-> & -> & ? & ->). split; [apply reste_refl|done]. }
  destruct (fin <? secteur + Z.of_nat n) eqn:E2.
  { apply abandon_cas in E as (-> & -> & ? & ->). split; [apply reste_refl|done]. }
  bool_prop.
  apply lie_cas in E as [(a & E & ->)|(s1 & ok & E & E')];
    apply (ecrit_un_spec _ _ _ deb fin) in E as (R1 & V1 & C1 & Ha); try done; try lia.
  destruct ok; cbn [negb] in E'.
  2:{ apply abandon_cas in E' as (-> & -> & ? & ->). done. }
  replace (TAILLE_ENTREE * length (e :: es) + k)%nat
    with (TAILLE_ENTREE + (TAILLE_ENTREE * length es + k))%nat in E' by (cbn [length]; lia).
  rewrite ecrit_entree_apres in E' by done. rewrite app_assoc in E'.
  apply IH in E' as (R2 & V2 & Hr).
  2:{ rewrite length_app, length_encode_entree by done. lia. }
  2-3: lia.
  2:{ by rewrite C1. }
  split; [eapply reste_trans; [exact R1|by eapply reste_elargit; [exact R2|lia|lia]]|].
  split; [congruence|]. destruct r as [[[[t sec] nv]|]|a]; try done.
  destruct Hr as (-> & -> & Hsec & Hpo & nv' & -> & Hnv).
  pose proof (total_positif es) as Htot. cbn [map concat total porte]. fold n. split_and!.
  - by rewrite <- !app_assoc.
  - lia.
  - lia.
  - rewrite <- Ha. apply secteurs_de_egal. intros x Hx. eapply reste_contenu; [exact R2|]. lia.
  - done.
  - eexists (_ :: nv'). rewrite <- app_assoc. split; [done|]. constructor; cbn [c_longueur c_secteur].
    + intros Hpos. assert (0 < Z.of_nat n) as Hn; [|lia].
      unfold n. rewrite nb_secteurs_Z. Z.to_euclidean_division_equations; lia.
    + eapply Forall_impl; [exact Hnv|]. cbv beta. intros c Hx Hy. specialize (Hx Hy). lia.
Qed.

(** ** What the disk holds *)

Definition choix (p : Z -> list Z) (base : Z) : option (Z * Superbloc) :=
  choisit (decode (p base)) (decode (p (base + 1))).
(** The half the next synchronisation writes. *)
Definition cible (p : Z -> list Z) (base : Z) : Z := (prochain (choix p base)).1.2.

Record represente (p : Z -> list Z) (base : Z) (sb : Superbloc) (es : list SnapshotEntree) : Prop := {
  rp_demi : 0 <= demi sb <= 1;
  rp_nombre : sb_entrees sb = Z.of_nat (length es);
  rp_max : (length es <= ENTREES_MAX)%nat;
  rp_ok : Forall entree_ok es;
  rp_table : secteurs_de p (base + debut_demi (demi sb)) (secteurs_table_utiles (length es)) = table_de es;
  rp_somme : somme_table sb = somme_controle (table_de es);
  rp_contenu : porte p (base + contenu_demi (demi sb)) es;
  rp_fin : contenu_demi (demi sb) + total es <= fin_demi (demi sb)
}.

(** The zone holds [v], a snapshot or nothing yet, at a generation at most [g]. *)
Definition porte_etat (p : Z -> list Z) (base g : Z) (v : option (list SnapshotEntree)) : Prop :=
  match v with
  | None => choix p base = None /\ slice (p base) 0 8 <> MAGIE
  | Some es => exists e sb, choix p base = Some (e, sb) /\ 0 <= generation sb <= g /\ represente p base sb es
  end.

(** A sector of the half the next synchronisation writes. *)
Definition libre (p : Z -> list Z) (base x : Z) : Prop :=
  base + debut_demi (cible p base) <= x < base + fin_demi (cible p base).

Lemma demi_bornes d :
  0 <= d <= 1 ->
  debut_demi d = 2 + d * 131071 /\ contenu_demi d = debut_demi d + 1024 /\ fin_demi d = debut_demi d + 131071.
Proof. intros Hd. split_and!; reflexivity. Qed.

Lemma secteurs_table_bornes n :
  (n <= ENTREES_MAX)%nat -> (secteurs_table_utiles n <= 1024)%nat.
Proof.
  #[local] Transparent ENTREES_MAX. intros H. apply Nat2Z.inj_le.
  unfold secteurs_table_utiles, TAILLE_ENTREE, ENTREES_MAX in *.
  rewrite Nat2Z.inj_div, Nat2Z.inj_add, Nat2Z.inj_mul. Z.to_euclidean_division_equations; lia.
Qed.

Lemma entrees_max n : (n <= ENTREES_MAX)%nat -> Z.of_nat n <= 2048.
Proof.
  intros H. #[local] Transparent ENTREES_MAX. unfold ENTREES_MAX in H. lia.
Qed.
#[local] Opaque ENTREES_MAX.

Lemma choix_cas p base e sb :
  choix p base = Some (e, sb) ->
  (e = 0 /\ decode (p base) = Some sb) \/ (e = 1 /\ decode (p (base + 1)) = Some sb).
Proof.
  unfold choix, choisit. destruct (decode (p base)), (decode (p (base + 1)));
    repeat case_match; intros; simplify_eq; auto.
Qed.

Lemma cible_bornes p base g v : porte_etat p base g v -> 0 <= cible p base <= 1.
Proof.
  unfold cible. destruct v as [es|]; cbn [porte_etat].
  - intros (e & sb & -> & _ & Hr). cbn. pose proof (rp_demi _ _ _ _ Hr). lia.
  - intros [-> _]. cbn. lia.
Qed.

(** Sectors of that half do not matter. *)
Lemma porte_etat_stable p q base g v :
  porte_etat p base g v -> (forall x, ~ libre p base x -> q x = p x) ->
  porte_etat q base g v /\ choix q base = choix p base.
Proof.
  intros H Hq. pose proof (cible_bornes _ _ _ _ H) as Hc. destruct (demi_bornes _ Hc) as (Hd & _ & Hf).
  assert (q base = p base /\ q (base + 1) = p (base + 1)) as [E0 E1].
  { split; apply Hq; unfold libre; rewrite Hf, Hd; lia. }
  assert (choix q base = choix p base) as Ech by (unfold choix; by rewrite E0, E1).
  split; [|done]. destruct v as [es|]; cbn [porte_etat] in *; [|by rewrite Ech, E0].
  destruct H as (e & sb & Ep & Hg & Hr). exists e, sb. split; [by rewrite Ech|]. split; [done|].
  destruct Hr as [R1 R2 R3 R4 R5 R6 R7 R8].
  destruct (demi_bornes _ R1) as (Dd & Dc & Df).
  assert (cible p base = 1 - demi sb) as Ec by (unfold cible; by rewrite Ep).
  assert (forall x, base + debut_demi (demi sb) <= x < base + fin_demi (demi sb) -> p x = q x) as Hx.
  { intros x Hx. symmetry. apply Hq. unfold libre. rewrite Ec.
    destruct (demi_bornes (1 - demi sb)) as (Dd' & _ & Df'); [lia|]. lia. }
  pose proof (secteurs_table_bornes _ R3).
  split; [exact R1|exact R2|exact R3|exact R4| |exact R6| |exact R8].
  - rewrite <- R5. apply secteurs_de_egal. intros x Hx'. symmetry. apply Hx. lia.
  - eapply porte_egal; [|exact R7]. intros x Hx'. apply Hx. lia.
Qed.

(** What reads find: the state [v], the index of what is on the disk away from the half to come. *)
Record vu (s : Etat) (base g : Z) (v : option (list SnapshotEntree)) : Prop := {
  vu_taille : taille_bloc (desc (disque s)) = 512;
  vu_blocs : SECTEURS_ZONE + SECTEUR_CONTENU < blocs (desc (disque s)) < 2 ^ 63;
  vu_base : base = blocs (desc (disque s)) - SECTEURS_ZONE;
  vu_lectures : lectures (disque s) = [];
  vu_v1 : v1_fin s = 0;
  vu_etat : porte_etat (contenu (disque s)) base g v;
  vu_connus : ailleurs (connus s) (base + debut_demi (cible (contenu (disque s)) base))
                (base + fin_demi (cible (contenu (disque s)) base))
}.
(** And what a power loss leaves: the same state on the platter, and pending writes in the other half only. *)
Record sur (s : Etat) (base g : Z) (v : option (list SnapshotEntree)) : Prop := {
  su_vu : vu s base g v;
  su_etat : porte_etat (plateau (disque s)) base g v;
  su_cachees : Forall (libre (plateau (disque s)) base) (lbas (cachees (disque s)))
}.

(** What is read agrees with the platter outside that half. *)
Lemma contenu_stable d base g v :
  porte_etat (plateau d) base g v -> Forall (libre (plateau d) base) (lbas (cachees d)) ->
  porte_etat (contenu d) base g v /\ choix (contenu d) base = choix (plateau d) base.
Proof.
  intros H Hc. apply porte_etat_stable; [done|]. intros x Hx. apply derniere_ailleurs.
  intros Hin. rewrite Forall_forall in Hc. by apply Hx, Hc.
Qed.

(** ** Reading the zone *)

Lemma debut_ok s base g v : vu s base g v -> debut s = (s, inl (Some base)).
Proof.
  intros H. unfold debut, volume_secteurs, sur_disque, descripteur, lie, rend.
  rewrite (vu_taille _ _ _ _ H).
  pose proof (vu_blocs _ _ _ _ H) as Hb. change (512 =? SECTOR_SIZE) with true. cbn [negb].
  rewrite (proj2 (Z.leb_gt _ _)) by lia. rewrite <- (vu_base _ _ _ _ H). by destruct s.
Qed.

Lemma vu_bornes s base g v :
  vu s base g v -> 0 < base /\ base + 262144 = blocs (desc (disque s)).
Proof.
  intros H. pose proof (vu_blocs _ _ _ _ H) as Hb. pose proof (vu_base _ _ _ _ H) as Hs.
  assert (0 < SECTEUR_CONTENU) by reflexivity. unfold SECTEURS_ZONE in *. lia.
Qed.

Lemma secteurs_un (p : Z -> list Z) lba : secteurs_de p lba 1 = p lba.
Proof.
  unfold secteurs_de. change (seqZ lba (Z.of_nat 1)) with [Z.of_nat 0 + lba].
  cbn [flat_map]. by rewrite app_nil_r, Z.add_0_l.
Qed.

Lemma superbloc_courant_ok s base g v :
  vu s base g v -> superbloc_courant base s = (s, inl (choix (contenu (disque s)) base)).
Proof.
  intros H. destruct (vu_bornes _ _ _ _ H) as [H0 Hb].
  unfold superbloc_courant, lit_superbloc.
  assert (forall lba, base <= lba <= base + 1 -> sur_disque (lit lba 1) s
    = (s, inl (1, contenu (disque s) lba))) as Hl.
  { intros lba Hlba. rewrite (lit_ok s lba 1); [by rewrite secteurs_un|apply H|lia|cbn; lia]. }
  erewrite lie_pas. 2:{ erewrite lie_pas by (apply Hl; lia). reflexivity. }
  erewrite lie_pas. 2:{ erewrite lie_pas by (apply Hl; lia). reflexivity. }
  reflexivity.
Qed.

(** The mount reads what the zone holds. *)
Lemma lit_zone_spec s base g v :
  vu s base g v -> lit_zone s = (mk_etat (disque s) [] 0, inl (map restaure (default [] v))).
Proof.
  intros H0. unfold lit_zone. erewrite lie_pas by reflexivity.
  set (s1 := mk_etat (disque s) [] (v1_fin s)).
  assert (vu s1 base g v) as H by (destruct H0; split; try done; constructor).
  erewrite lie_pas by (by eapply debut_ok). cbv beta iota.
  pose proof (vu_etat _ _ _ _ H) as Hp.
  destruct (vu_bornes _ _ _ _ H) as [Hb0 Hb].
  unfold lit_entete. destruct v as [es|]; cbn [porte_etat default id] in *.
  - destruct Hp as (e & sb & Ec & _ & Hr).
    pose proof (superbloc_courant_ok _ _ _ _ H) as Esb. rewrite Ec in Esb.
    destruct Hr as [R1 R2 R3 R4 R5 R6 R7 R8]. destruct (demi_bornes _ R1) as (Dd & Dc & Df).
    set (s2 := mk_etat (disque s) [] 0).
    assert (s2 = s1) as E2 by (unfold s2, s1; by rewrite (vu_v1 _ _ _ _ H0)).
    erewrite lie_pas.
    2:{ erewrite lie_pas by exact Esb. cbv beta iota. erewrite lie_pas with (s' := s2) by reflexivity.
        rewrite R2, Nat2Z.id. reflexivity. }
    rewrite E2.
    rewrite (proj2 (Nat.ltb_ge ENTREES_MAX _) R3), orb_false_r.
    destruct es as [|x es]; [reflexivity|]. cbn [length Nat.eqb].
    change (S (length es)) with (length (x :: es)) in *. set (xs := x :: es) in *.
    pose proof (secteurs_table_bornes _ R3) as Hst. pose proof (total_positif xs) as Htot.
    erewrite lie_pas by (apply lit_ok; [apply H|lia|cbn [disque s1] in *; lia]).
    cbn [fst snd]. rewrite Z.eqb_refl, R5, R6, Z.eqb_refl. cbn [negb].
    erewrite lie_pas.
    2:{ apply lit_entrees_spec; try done; try (cbn [disque s1] in *; lia); [apply H| |apply H].
        intros j y Hj. unfold table_de. by apply slice_concat_entrees. }
    erewrite lie_pas by reflexivity. done.
  - destruct Hp as [Ec Hm].
    pose proof (superbloc_courant_ok _ _ _ _ H) as Esb. rewrite Ec in Esb.
    erewrite lie_pas.
    2:{ erewrite lie_pas by exact Esb. cbv beta iota.
        erewrite lie_pas by (apply (lit_ok s1 base 1); [apply H|lia|cbn; cbn in Hb; lia]).
        cbn [fst snd]. rewrite secteurs_un. cbn [Z.of_nat Pos.of_succ_nat Z.eqb Pos.eqb negb].
        rewrite bool_decide_eq_false_2 by done. cbn [negb]. reflexivity. }
    reflexivity.
Qed.
Lemma vu_monte s base g v : vu s base g v -> vu (mk_etat (disque s) [] 0) base g v.
Proof. intros []. split; try done. constructor. Qed.
Lemma sur_monte s base g v : sur s base g v -> sur (mk_etat (disque s) [] 0) base g v.
Proof. intros []. split; try done. by apply vu_monte. Qed.

(** ** Writing a snapshot *)

Lemma table_zeros (es : list SnapshotEntree) :
  replicate (512 * secteurs_table_utiles (length es)) 0 =
  [] ++ replicate (TAILLE_ENTREE * length es
                   + (512 * secteurs_table_utiles (length es) - TAILLE_ENTREE * length es)) 0.
Proof. cbn [app]. f_equal. pose proof (table_tient (length es)). lia. Qed.

Lemma donnees_spec base c es s s' r :
  ecrit_donnees base c es s = (s', r) ->
  0 <= c <= 1 -> (length es <= ENTREES_MAX)%nat -> Forall entree_ok es ->
  ailleurs (connus s) (base + debut_demi c) (base + fin_demi c) ->
  reste (disque s) (disque s') (base + debut_demi c) (base + fin_demi c) /\ v1_fin s' = v1_fin s /\
  match r with
  | inl (Some (t, sec, nv)) =>
      t = table_de es /\ sec = base + contenu_demi c + total es /\ sec <= base + fin_demi c /\
      secteurs_de (contenu (disque s')) (base + debut_demi c) (secteurs_table_utiles (length es)) = table_de es /\
      porte (contenu (disque s')) (base + contenu_demi c) es /\
      dedans nv (base + contenu_demi c) (base + fin_demi c)
  | inl None => connus s' = []
  | inr a => a = Coupure
  end.
Proof.
  intros E Hc Hn Hok Ha. destruct (demi_bornes c Hc) as (Dd & Dc & Df).
  pose proof (secteurs_table_bornes _ Hn) as Hst.
  unfold ecrit_donnees in E. rewrite table_zeros in E.
  apply lie_cas in E as [(a & E & ->)|(s1 & r1 & E & E')];
    apply (ecrit_contenus_spec (base + debut_demi c)) in E as (R1 & V1 & Hr); try done; try lia.
  { split; [eapply reste_elargit; [exact R1|lia|lia]|done]. }
  assert (reste (disque s) (disque s1) (base + debut_demi c) (base + fin_demi c)) as R1'
    by (eapply reste_elargit; [exact R1|lia|lia]).
  destruct r1 as [[[t sec] nv]|]; [|by injection E' as <- <-].
  destruct Hr as (-> & -> & Hsec & Hpo & nv' & -> & Hnv). cbn [app] in *.
  change (concat _ ++ replicate _ 0) with (table_de es) in E'.
  destruct (secteurs_table_utiles (length es) =? 0)%nat eqn:E0; bool_prop; cbn [negb] in E'.
  { erewrite lie_pas in E' by reflexivity. cbn [negb] in E'. injection E' as <- <-.
    split_and!; try done. pose proof (length_table_de es Hok) as Hl. rewrite E0 in *.
    symmetry. apply nil_length_inv. lia. }
  apply lie_cas in E' as [(a & E & ->)|(s2 & ok & E & E')];
    apply lie_cas in E as [(? & E & ?)|(s3 & n & E & E3)]; simplify_eq;
    apply sur_disque_cas in E as (E & C3 & V3);
    apply (ecrit_bloc_spec _ _ _ _ _ _ (base + debut_demi c) (base + contenu_demi c)) in E as [R3 Ha3]; try lia.
  { split; [eapply reste_trans; [exact R1'|eapply reste_elargit; [exact R3|lia|lia]]|].
    split; [congruence|done]. }
  injection E3 as <- <-.
  assert (reste (disque s) (disque s3) (base + debut_demi c) (base + fin_demi c)) as R3'
    by (eapply reste_trans; [exact R1'|eapply reste_elargit; [exact R3|lia|lia]]).
  destruct (n =? _) eqn:En; bool_prop; cbn [negb] in E'.
  2:{ apply abandon_cas in E' as (-> & -> & ? & ->). split_and!; try done. congruence. }
  injection E' as <- <-. destruct Ha3 as [Ht Hx]; [done|by apply length_table_de|lia|].
  split_and!; try done; [congruence|]. eapply porte_egal; [|exact Hpo].
  intros x Hxx. symmetry. apply Hx. lia.
Qed.

(** The new superblock wins over the one in service. *)
Lemma choix_nouveau p q base g v nsb c :
  porte_etat p base g v -> prochain (choix p base) = (c, demi nsb, generation nsb) ->
  0 <= g -> g + 1 < u64_max ->
  q (base + (1 - c)) = p (base + (1 - c)) -> decode (q (base + c)) = Some nsb ->
  choix q base = Some (c, nsb) /\ 0 <= generation nsb <= g + 1.
Proof.
  intros H Hp Hg0 Hg Hq Hd. destruct v as [es|]; cbn [porte_etat] in H.
  - destruct H as (e & sb & Ec & Hgen & Hr). rewrite Ec in Hp. cbn [prochain] in Hp.
    injection Hp as <- _ Eg. unfold wrapping_add64 in Eg. rewrite Z.mod_small in Eg by lia.
    split; [|lia]. apply choix_cas in Ec as [[-> Ec]|[-> Ec]]; unfold choix.
    + replace (base + (1 - (1 - 0))) with base in Hq by lia. rewrite Hq, Ec.
      replace (base + (1 - 0)) with (base + 1) in Hd by lia. rewrite Hd. cbn [choisit].
      rewrite (proj2 (Z.ltb_lt _ _)) by lia. done.
    + replace (base + (1 - (1 - 1))) with (base + 1) in Hq by lia. rewrite Hq, Ec.
      replace (base + (1 - 1)) with base in Hd by lia. rewrite Hd. cbn [choisit].
      rewrite (proj2 (Z.ltb_ge _ _)) by lia. done.
  - destruct H as [Ec _]. rewrite Ec in Hp. cbn [prochain] in Hp. injection Hp as <- _ Eg. split; [|lia].
    unfold choix in *. replace (base + 0) with base in Hd by lia.
    replace (base + (1 - 0)) with (base + 1) in Hq by lia. rewrite Hd, Hq.
    destruct (decode (p base)), (decode (p (base + 1))); cbn in Ec; repeat case_match; simplify_eq; done.
Qed.

(** One sector: it is accepted whole, or not at all; an error can hide that it was accepted. *)
Lemma ecrit_un_secteur lba o d d' r :
  ecrit lba 1 o d = (d', r) -> length o = 512%nat ->
  exists ws, (ws = [] \/ ws = [(lba, o)]) /\
    desc d' = desc d /\ plateau d' = plateau d /\ lectures d' = lectures d /\ cachees d' = cachees d ++ ws /\
    (manquees d <= manquees d')%nat /\
    match r with
    | inl k => (k = 1 /\ ws = [(lba, o)]) \/ (k <> 1 /\ (ws = [] \/ manquees d' <> manquees d))
    | inr a => a = Coupure
    end.
Proof.
  intros E Hl.
  assert (secteurs_choisis lba [0%nat] o = [(lba, o)]) as Ed.
  { unfold secteurs_choisis. cbn [map]. rewrite Z.add_0_r. unfold slice. cbn [Nat.mul Nat.add].
    rewrite drop_0, take_ge by lia. done. }
  assert (forall l, (accepte d l []).(cachees) = cachees d ++ []) as Hv by done.
  unfold ecrit, decoupe in E. destruct (negb _).
  { injection E as <- <-. exists []. rewrite app_nil_r. split_and!; auto. }
  destruct (ecritures d) as [|[|k|pris|k] l]; [| | |destruct (filter _ _) as [|i pris'] eqn:Ef|]; injection E as <- <-.
  - exists [(lba, o)]. rewrite <- Ed. split_and!; auto.
  - exists [(lba, o)]. rewrite <- Ed. split_and!; auto.
  - destruct k as [|k]; [exists []; split_and!; auto|]. exists [(lba, o)]. replace (S k `min` 1)%nat with 1%nat by lia.
    rewrite <- Ed. split_and!; auto.
  - exists []. split_and!; auto.
  - assert (i = 0%nat /\ pris' = []) as [-> ->].
    { cbn in Ef. destruct (decide _); [|done]. by injection Ef as <- <-. }
    exists [(lba, o)]. rewrite <- Ed. split; [by right|]. do 4 (split; [done|]). split; cbn [manque accepte manquees]; [lia|]. right. split; [done|]. right. lia.
  - destruct k as [|k]; [exists []; split_and!; auto|]. exists [(lba, o)]. replace (S k `min` 1)%nat with 1%nat by lia.
    rewrite <- Ed. split_and!; auto.
Qed.

(** A flush. *)
Lemma vidange_cas d d' r : vidange d = (d', r) ->
  (r = inl true /\ exists l, d' = rincee d l) \/ (r = inl false /\ exists l, d' = manque (sans_vidange d l)) \/
  (r = inr Coupure /\ exists l, d' = sans_vidange d l).
Proof.
  unfold vidange. cbv zeta. destruct (vidanges d) as [|[] l]; [destruct (vidange_reelle _)|destruct (vidange_reelle _)|..];
    intros [= <- <-]; eauto 10.
Qed.

(** A torn superblock does not decode, and is not taken for a zone of the first format. *)
Definition detectee (d : Disque) (base : Z) (p : Z -> list Z) : Prop :=
  forall e, e = 0 \/ e = 1 ->
    p (base + e) = plateau d (base + e) \/ (base + e, p (base + e)) ∈ cachees d
    \/ (decode (p (base + e)) = None /\ slice (p (base + e)) 0 8 <> MAGIE).

(** The machine after the power comes back on the image [p]. *)
Definition redemarre (s : Etat) (p : Z -> list Z) (ecr vid : list Sort) : Etat :=
  mk_etat (rallume (disque s) p [] ecr vid) [] 0.

Lemma sur_redemarre s base g v p ecr vid :
  taille_bloc (desc (disque s)) = 512 ->
  SECTEURS_ZONE + SECTEUR_CONTENU < blocs (desc (disque s)) < 2 ^ 63 ->
  base = blocs (desc (disque s)) - SECTEURS_ZONE ->
  porte_etat p base g v -> sur (redemarre s p ecr vid) base g v.
Proof. intros. split; [split; try done; constructor|done|constructor]. Qed.

(** When only the free half has pending writes, any image holds the same state. *)
Lemma image_stable d base g v p :
  porte_etat (plateau d) base g v -> Forall (libre (plateau d) base) (lbas (cachees d)) ->
  image d p -> porte_etat p base g v.
Proof.
  intros H Hc Hi. apply (porte_etat_stable (plateau d)); [done|]. intros x Hx.
  destruct (Hi x) as [|Hin]; [done|]. rewrite Forall_forall in Hc. by apply Hc in Hin.
Qed.

(** The superblock torn off: the state of before. *)
Lemma porte_etat_dechire p q base g v c d gen :
  porte_etat p base g v -> prochain (choix p base) = (c, d, gen) ->
  (forall x, x <> base + c -> q x = p x) ->
  decode (q (base + c)) = None -> slice (q (base + c)) 0 8 <> MAGIE -> porte_etat q base g v.
Proof.
  intros H Hp Hq Hd Hm. destruct v as [es|]; cbn [porte_etat] in *.
  - destruct H as (e & sb & Ec & Hgen & Hr). exists e, sb. rewrite Ec in Hp. cbn [prochain] in Hp.
    injection Hp as <- _ _.
    assert (choix q base = Some (e, sb)) as Eq.
    { apply choix_cas in Ec as [[-> Ec]|[-> Ec]]; unfold choix.
      - rewrite (Hq base) by lia. replace (base + (1 - 0)) with (base + 1) in Hd by lia.
        by rewrite Ec, Hd.
      - rewrite (Hq (base + 1)) by lia. replace (base + (1 - 1)) with base in Hd by lia.
        by rewrite Ec, Hd. }
    split; [done|]. split; [done|]. destruct Hr as [R1 R2 R3 R4 R5 R6 R7 R8].
    assert (0 <= 1 - e <= 1) as He by (apply choix_cas in Ec as [[-> _]|[-> _]]; lia).
    destruct (demi_bornes _ R1) as (Dd & Dc & Df).
    split; [exact R1|exact R2|exact R3|exact R4| |exact R6| |exact R8].
    + rewrite <- R5. apply secteurs_de_egal. intros x Hx. apply Hq. lia.
    + eapply porte_egal; [|exact R7]. intros x Hx. symmetry. apply Hq. lia.
  - destruct H as [Ec Hm']. rewrite Ec in Hp. cbn [prochain] in Hp. injection Hp as <- _ _.
    rewrite Z.add_0_r in *. split; [|done]. unfold choix in *. rewrite Hd, (Hq (base + 1)) by lia.
    destruct (decode (p base)), (decode (p (base + 1))); cbn in Ec; repeat case_match; simplify_eq; done.
Qed.

Lemma represente_egal p q base sb es :
  represente p base sb es -> (forall x, base + 2 <= x -> q x = p x) -> represente q base sb es.
Proof.
  intros [R1 R2 R3 R4 R5 R6 R7 R8] Hq. destruct (demi_bornes _ R1) as (Dd & Dc & Df).
  split; [exact R1|exact R2|exact R3|exact R4| |exact R6| |exact R8].
  - rewrite <- R5. apply secteurs_de_egal. intros x Hx. apply Hq. lia.
  - eapply porte_egal; [|exact R7]. intros x Hx. symmetry. apply Hq. lia.
Qed.

Lemma emplacement_bornes p base g v c d gen :
  porte_etat p base g v -> prochain (choix p base) = (c, d, gen) -> c = 0 \/ c = 1.
Proof.
  intros H Hp. destruct v as [es|]; cbn [porte_etat] in H.
  - destruct H as (e & sb & Ec & _). rewrite Ec in Hp. injection Hp as <- _ _.
    apply choix_cas in Ec as [[-> _]|[-> _]]; auto.
  - destruct H as [Ec _]. rewrite Ec in Hp. injection Hp as <- _ _. auto.
Qed.

(** Every flush was obtained between [s] and [s'], and no error hid accepted blocks. *)
Definition loyal (s s' : Etat) : Prop := manquees (disque s') = manquees (disque s).
Lemma loyal_dec s s' : loyal s s' \/ ~ loyal s s'.
Proof. unfold loyal. lia. Qed.

(** A power loss of [s'] leaves [v] or [es]. *)
Definition apres_coupure (base g : Z) (v : option (list SnapshotEntree)) (es : list SnapshotEntree) (s' : Etat) : Prop :=
  forall p ecr vid, image (disque s') p -> detectee (disque s') base p ->
    sur (redemarre s' p ecr vid) base g v \/ sur (redemarre s' p ecr vid) base g (Some es).

(** The outcome of a synchronisation started in [s]: committed, refused, or cut. *)
Definition issue (base g : Z) (v : option (list SnapshotEntree)) (es : list SnapshotEntree)
  (s s' : Etat) (r : Z + Arret) : Prop :=
  match r with
  | inl n =>
      (n = Z.of_nat (length es) /\ vu s' base (g + 1) (Some es) /\ (loyal s s' -> sur s' base (g + 1) (Some es))) \/
      (n = -1 /\ vu s' base (g + 1) v /\ (loyal s s' -> sur s base g v -> sur s' base (g + 1) v)) \/
      (n = -1 /\ ~ loyal s s' /\ vu s' base (g + 1) (Some es))
  | inr a => a = Coupure /\ (loyal s s' -> sur s base g v -> apres_coupure base (g + 1) v es s')
  end.

Lemma porte_etat_plus p base g g' v : porte_etat p base g v -> g <= g' -> porte_etat p base g' v.
Proof.
  destruct v as [es|]; cbn [porte_etat]; [|done]. intros (e & sb & ? & ? & ?) ?.
  exists e, sb. split; [done|]. split; [lia|done].
Qed.
Lemma vu_plus s base g g' v : vu s base g v -> g <= g' -> vu s base g' v.
Proof. intros [] Hg. split; try done. by apply (porte_etat_plus _ _ g). Qed.
Lemma sur_plus s base g g' v : sur s base g v -> g <= g' -> sur s base g' v.
Proof. intros [] Hg. split; [by eapply vu_plus|by apply (porte_etat_plus _ _ g)|done]. Qed.
(** Nothing pending: what is read is what is on the platter. *)
Lemma sur_de_vu s base g v : cachees (disque s) = [] -> vu s base g v -> sur s base g v.
Proof.
  intros Hc H. pose proof (vu_etat _ _ _ _ H) as He. unfold contenu in He. rewrite Hc in He.
  split; [done|exact He|rewrite Hc; constructor].
Qed.
(** A power loss when only the free half has pending writes. *)
Lemma sur_coupe s base g v p ecr vid : sur s base g v -> image (disque s) p -> sur (redemarre s p ecr vid) base g v.
Proof. intros [[] ? ?] Hi. apply sur_redemarre; try done. by eapply image_stable. Qed.

Section Commit.
Context (s1 : Etat) (base g : Z) (v : option (list SnapshotEntree)) (es : list SnapshotEntree)
  (c : Z) (nsb : Superbloc) (nv : list SurDisque).
Abbreviation P := (contenu (disque s1)).
Context (H_taille : taille_bloc (desc (disque s1)) = 512)
  (H_blocs : SECTEURS_ZONE + SECTEUR_CONTENU < blocs (desc (disque s1)) < 2 ^ 63)
  (H_base : base = blocs (desc (disque s1)) - SECTEURS_ZONE)
  (H_lectures : lectures (disque s1) = [])
  (H_v1 : v1_fin s1 = 0) (H_etat : porte_etat P base g v) (Hg0 : 0 <= g) (Hg : g + 1 < u64_max)
  (H_prochain : prochain (choix P base) = (c, demi nsb, generation nsb))
  (H_sb : sb_ok nsb) (H_rep : represente P base nsb es)
  (H_nv : dedans nv (base + contenu_demi (demi nsb)) (base + fin_demi (demi nsb))).

(** A disk with the new superblock. *)
Lemma porte_nouveau q :
  (forall x, x <> base + c -> q x = P x) -> decode (q (base + c)) = Some nsb ->
  porte_etat q base (g + 1) (Some es) /\ cible q base = 1 - demi nsb.
Proof.
  intros Hq Hd. pose proof (emplacement_bornes _ _ _ _ _ _ _ H_etat H_prochain) as Hc.
  destruct (choix_nouveau P q base g v nsb c) as [Ec Hgen]; try done; [apply Hq; lia|].
  split; [|unfold cible; by rewrite Ec]. exists c, nsb. split_and!; try done; try lia.
  eapply represente_egal; [exact H_rep|]. intros x Hx. apply Hq. lia.
Qed.

Definition suite_de (s : Etat) : Prop :=
  desc (disque s) = desc (disque s1) /\ lectures (disque s) = [] /\ v1_fin s = 0.
Lemma vu_nouveau s : suite_de s -> (forall x, x <> base + c -> contenu (disque s) x = P x) ->
  decode (contenu (disque s) (base + c)) = Some nsb -> connus s = nv \/ connus s = [] -> vu s base (g + 1) (Some es).
Proof.
  intros (D & L & V) Hq Hd Hn. destruct (porte_nouveau _ Hq Hd) as [He Hci]. split; rewrite ?D; try done.
  rewrite Hci. destruct Hn as [->| ->]; [|constructor]. pose proof (rp_demi _ _ _ _ H_rep) as Hdm.
  destruct (demi_bornes (demi nsb)) as (Dd & Dc & Df); [done|]. destruct (demi_bornes (1 - demi nsb)) as (Dd' & Dc' & Df'); [lia|].
  eapply Forall_impl; [exact H_nv|]. cbv beta. intros x Hx Hpos. specialize (Hx Hpos). lia.
Qed.
Lemma vu_ancien s : suite_de s -> contenu (disque s) = P -> connus s = [] -> vu s base (g + 1) v.
Proof.
  intros (D & L & V) Hq Hn. split; rewrite ?D, ?Hq, ?Hn; try done; [|constructor]. apply (porte_etat_plus _ _ g); [done|lia].
Qed.

(** The superblock is the only pending write: a power loss leaves the state of before or the new one. *)
Lemma coupe_superbloc s o ws : suite_de s -> (ws = [] \/ ws = [(base + c, o)]) -> decode o = Some nsb ->
  plateau (disque s) = P -> cachees (disque s) = ws -> apres_coupure base (g + 1) v es s.
Proof.
  intros (D & _) Hws Ho Hp Hk p ecr vid Hi Hdt.
  pose proof (emplacement_bornes _ _ _ _ _ _ _ H_etat H_prochain) as Hc. specialize (Hdt c Hc). rewrite Hp in Hdt.
  assert (forall x, x <> base + c -> p x = P x) as Hpx.
  { intros x Hx. destruct (Hi x) as [Hx'|Hx']; [by rewrite Hx', Hp|]. rewrite Hk in Hx'.
    destruct Hws as [->| ->]; [by apply elem_of_nil in Hx'|]. by apply list_elem_of_singleton in Hx'. }
  assert (p (base + c) = P (base + c) \/ p (base + c) = o \/
          (decode (p (base + c)) = None /\ slice (p (base + c)) 0 8 <> MAGIE)) as [Ep|[Ep|[Ep Em]]].
  { destruct Hdt as [?|[Hin|?]]; auto. rewrite Hk in Hin. destruct Hws as [->| ->]; [by apply elem_of_nil in Hin|].
    apply list_elem_of_singleton in Hin. right; left. congruence. }
  - left. apply sur_redemarre; rewrite ?D; try done. apply (porte_etat_plus _ _ g); [|lia].
    apply (porte_etat_stable P); [done|]. intros x _. destruct (decide (x = base + c)) as [->|]; auto.
  - right. apply sur_redemarre; rewrite ?D; try done. apply porte_nouveau; [done|by rewrite Ep].
  - left. apply sur_redemarre; rewrite ?D; try done. apply (porte_etat_plus _ _ g); [|lia].
    by eapply (porte_etat_dechire P).
Qed.

(** The end of the commit, once the first flush answered [r1] and left [s2]. *)
Definition pose_superbloc (s2 : Etat) (n : nat) : Etat * (Z + Arret) :=
  match encode nsb (replicate 512 0) with
  | None => (oublie_le_disque ;;; rend (-1)) s2
  | Some secteur_superbloc =>
      (n1 <- sur_disque (ecrit (base + c) 1 secteur_superbloc) ;;
       if negb (n1 =? 1) then oublie_le_disque ;;; rend (-1)
       else volume_barriere ;;; oublie_la_v1 ;;; pose_connus nv ;;; rend (Z.of_nat n)) s2
  end.
Lemma commet_pas n : commet base c nsb nv n s1 =
  let '(s2, r) := volume_barriere s1 in match r with inl _ => pose_superbloc s2 n | inr a => (s2, inr a) end.
Proof.
  unfold commet, pose_superbloc, lie at 1. destruct (volume_barriere s1) as [s2 [b|a]]; [|done]. by destruct (encode nsb _).
Qed.
Lemma pose_superbloc_spec s2 s' r : suite_de s2 -> contenu (disque s2) = P ->
  pose_superbloc s2 (length es) = (s', r) ->
  (manquees (disque s2) <= manquees (disque s'))%nat /\
  match r with
  | inl n =>
      (n = Z.of_nat (length es) /\ vu s' base (g + 1) (Some es) /\ (loyal s2 s' -> cachees (disque s') = [])) \/
      (n = -1 /\ vu s' base (g + 1) v /\ (loyal s2 s' -> cachees (disque s') = cachees (disque s2))) \/
      (n = -1 /\ ~ loyal s2 s' /\ vu s' base (g + 1) (Some es))
  | inr a => a = Coupure /\ (cachees (disque s2) = [] -> apres_coupure base (g + 1) v es s')
  end.
Proof.
  intros (D2 & L2 & V2) Hq E. destruct (superbloc_decode_encode nsb H_sb) as (o & Eo & Ho & Do).
  unfold pose_superbloc in E. rewrite Eo in E.
  apply lie_cas in E as [(a & E & ->)|(s3 & n & E & E')];
    apply sur_disque_cas in E as (E & C3 & V3);
    apply ecrit_un_secteur in E as (ws & Hws & D3 & P3 & L3 & K3 & M3 & Hr); try done.
  - split; [done|]. split; [done|]. intros Hk. rewrite Hk in K3. eapply (coupe_superbloc _ o ws); try done; [split_and!; congruence|].
    rewrite P3. unfold contenu in Hq. rewrite Hk in Hq. exact Hq.
  - assert (forall x, x <> base + c -> contenu (disque s3) x = P x) as Hx.
    { intros x Hx. rewrite <- Hq. unfold contenu. rewrite P3, K3, derniere_app. apply derniere_ailleurs.
      destruct Hws as [->| ->]; cbn; [apply not_elem_of_nil|]. by rewrite list_elem_of_singleton. }
    destruct (Z.eqb_spec n 1) as [->|Hn].
    2:{ cbn [negb] in E'. apply abandon_cas in E' as (-> & Ed & Ec & Ev). rewrite Ed. split; [done|]. right. unfold loyal. rewrite Ed.
        destruct Hr as [[? _]|[_ Hr]]; [done|]. destruct Hws as [->| ->].
        - left. split; [done|]. split; [|intros _; rewrite K3; apply app_nil_r].
          apply vu_ancien; [split_and!; congruence| |done]. rewrite Ed. unfold contenu. rewrite P3, K3, app_nil_r. exact Hq.
        - right. destruct Hr as [?|Hm]; [done|]. split; [done|]. split; [done|].
          apply vu_nouveau; [split_and!; congruence|by rewrite Ed| |by right].
          rewrite Ed. unfold contenu. rewrite K3, derniere_app. unfold derniere at 1. cbn [fold_left fst snd]. by rewrite Z.eqb_refl. }
    cbn [negb] in E'. destruct Hr as [[_ ->]|[? _]]; [|done].
    assert (decode (contenu (disque s3) (base + c)) = Some nsb) as Hd.
    { unfold contenu. rewrite K3, derniere_app. unfold derniere at 1. cbn [fold_left fst snd]. by rewrite Z.eqb_refl. }
    apply lie_cas in E' as [(a & E & ->)|(s4 & b & E & E')];
      apply sur_disque_cas in E as (E & C4 & V4); apply vidange_cas in E as [(Er & l & Ed)|[(Er & l & Ed)|(Er & l & Ed)]]; try done.
    + injection Er as ->. rewrite Ed. cbn [sans_vidange manquees]. split; [done|]. split; [done|]. intros Hk. rewrite Hk in K3.
      eapply (coupe_superbloc _ o [(base + c, o)]); [split_and!; rewrite ?Ed; cbn; congruence|by right|done|rewrite Ed; cbn|by rewrite Ed].
      rewrite P3. unfold contenu in Hq. rewrite Hk in Hq. exact Hq.
    + injection E' as <- <-. cbn [disque v1_fin connus]. rewrite Ed. cbn [rincee manquees]. split; [done|]. left. split; [done|].
      split; [|done]. apply vu_nouveau; cbn [disque connus v1_fin]; rewrite ?Ed; [split_and!; cbn; congruence|done|done|by left].
    + injection E' as <- <-. cbn [disque v1_fin connus]. rewrite Ed. cbn [manque sans_vidange manquees]. split; [lia|]. left. split; [done|].
      split; [|unfold loyal; cbn [disque manque sans_vidange manquees]; lia].
      apply vu_nouveau; cbn [disque connus v1_fin]; rewrite ?Ed; [split_and!; cbn; congruence|done|done|by left].
Qed.

Lemma commet_spec s' r : commet base c nsb nv (length es) s1 = (s', r) ->
  (manquees (disque s1) <= manquees (disque s'))%nat /\
  match r with
  | inl n =>
      (n = Z.of_nat (length es) /\ vu s' base (g + 1) (Some es) /\ (loyal s1 s' -> sur s' base (g + 1) (Some es))) \/
      (n = -1 /\ vu s' base (g + 1) v /\ (loyal s1 s' -> sur s' base (g + 1) v)) \/
      (n = -1 /\ ~ loyal s1 s' /\ vu s' base (g + 1) (Some es))
  | inr a => a = Coupure /\ (loyal s1 s' -> (exists l, disque s' = sans_vidange (disque s1) l) \/ apres_coupure base (g + 1) v es s')
  end.
Proof.
  intros E. rewrite commet_pas in E. destruct (volume_barriere s1) as [s2 r1] eqn:E1.
  apply sur_disque_cas in E1 as (E1 & C1 & V1). apply vidange_cas in E1 as [(-> & l & Ed)|[(-> & l & Ed)|(-> & l & Ed)]].
  3:{ injection E as <- <-. rewrite Ed. split; [done|]. split; [done|]. intros _. left. by exists l. }
  all: assert (suite_de s2) as S2 by (split_and!; rewrite ?Ed; cbn; congruence);
    assert (contenu (disque s2) = P) as Hq by (by rewrite Ed);
    destruct (pose_superbloc_spec s2 s' r S2 Hq E) as [Hm Hr].
  - assert (cachees (disque s2) = []) as Hk by (by rewrite Ed).
    assert (loyal s1 s' -> loyal s2 s') as Hl by (unfold loyal; rewrite Ed; done). rewrite Ed in Hm. split; [exact Hm|].
    destruct r as [n|a]; [|destruct Hr as [-> Hr]; split; [done|]; intros _; right; by apply Hr].
    destruct Hr as [(-> & Hv & Hc)|[(-> & Hv & Hc)|(-> & Hc & Hv)]].
    + left. split_and!; [done|done|]. intros ?. apply sur_de_vu; [|done]. by apply Hc, Hl.
    + right; left. split_and!; [done|done|]. intros ?. apply sur_de_vu; [|done]. rewrite Hc by (by apply Hl). done.
    + right; right. split_and!; [done| |done]. intros ?. by apply Hc, Hl.
  - rewrite Ed in Hm. cbn in Hm. assert (~ loyal s1 s') as Hl by (unfold loyal; lia). split; [lia|].
    destruct r as [n|a]; [|destruct Hr as [-> Hr]; done].
    destruct Hr as [(-> & Hv & Hc)|[(-> & Hv & Hc)|(-> & Hc & Hv)]]; [left|right; left|right; right]; split_and!; done.
Qed.
End Commit.

(** ** A synchronisation *)

Lemma reste_libre d d' base :
  reste d d' (base + debut_demi (cible (plateau d) base)) (base + fin_demi (cible (plateau d) base)) ->
  Forall (libre (plateau d) base) (lbas (cachees d)) ->
  Forall (libre (plateau d') base) (lbas (cachees d')).
Proof.
  intros [_ Rp _ _ (ws & Rc & Rw)] Hc. rewrite Rp, Rc. unfold lbas. rewrite map_app.
  apply Forall_app. split; [done|exact Rw].
Qed.

(** The writes of the contents and of the table leave what is read unchanged outside the half that is not in service. *)
Lemma vu_reste s s1 base g v :
  vu s base g v -> v1_fin s1 = v1_fin s ->
  reste (disque s) (disque s1) (base + debut_demi (cible (contenu (disque s)) base)) (base + fin_demi (cible (contenu (disque s)) base)) ->
  porte_etat (contenu (disque s1)) base g v /\ choix (contenu (disque s1)) base = choix (contenu (disque s)) base /\
  (sur s base g v -> Forall (libre (plateau (disque s1)) base) (lbas (cachees (disque s1))) /\ porte_etat (plateau (disque s1)) base g v).
Proof.
  intros H V1 R. destruct (porte_etat_stable _ (contenu (disque s1)) _ _ _ (vu_etat _ _ _ _ H)) as [He Hc].
  { intros x Hx. eapply reste_contenu; [exact R|exact Hx]. }
  split; [done|]. split; [done|]. intros Hs.
  destruct (contenu_stable _ _ _ _ (su_etat _ _ _ _ Hs) (su_cachees _ _ _ _ Hs)) as [_ Ech].
  assert (cible (contenu (disque s)) base = cible (plateau (disque s)) base) as Ecib by (unfold cible; by rewrite Ech).
  rewrite Ecib in R. split; [eapply reste_libre; [exact R|apply Hs]|]. rewrite (re_plateau _ _ _ _ R). apply Hs.
Qed.

Lemma synchronise_issue s base g v es s' r :
  vu s base g v -> Forall entree_ok es -> 0 <= g -> g + 1 < u64_max ->
  synchronise_snapshot es s = (s', r) -> issue base g v es s s' r.
Proof.
  intros H Hok Hg0 Hg E. unfold synchronise_snapshot in E.
  erewrite lie_pas in E by (by eapply debut_ok). cbv beta iota in E.
  destruct (ENTREES_MAX <? length es)%nat eqn:En.
  { apply abandon_cas in E as (-> & Ed & Ec & Ev). right; left. split; [done|].
    assert (vu s' base (g + 1) v) as Hv.
    { apply (vu_plus _ _ g); [|lia]. destruct H. split; rewrite ?Ed, ?Ec, ?Ev; try done. constructor. }
    split; [done|]. intros _ [_ H1 H2]. split; rewrite ?Ed; try done. apply (porte_etat_plus _ _ g); [done|lia]. }
  bool_prop. erewrite lie_pas in E by (by eapply superbloc_courant_ok).
  pose proof (vu_etat _ _ _ _ H) as Het. pose proof (cible_bornes _ _ _ _ Het) as Hcb.
  destruct (prochain (choix (contenu (disque s)) base)) as [[c dm] gen] eqn:Ep.
  assert (cible (contenu (disque s)) base = dm) as Ecib by (unfold cible; by rewrite Ep).
  pose proof (vu_connus _ _ _ _ H) as Hco.
  cbv beta iota in E. unfold lie at 1, etat_courant in E. rewrite (vu_v1 _ _ _ _ H) in E.
  cbn [demi_sure demi_recouvre_la_v1 Z.eqb negb] in E.
  apply lie_cas in E as [(a & E & ->)|(s1 & r1 & E & E')];
    rewrite <- Ecib in E; apply donnees_spec in E as (R & V1 & Hr); try done;
    destruct (vu_reste _ _ _ _ _ H V1 R) as (Het1 & Ech1 & Hs1); pose proof (re_manquees _ _ _ _ R) as HM; destruct R as [Rd Rp Rl _ _].
  - subst a. split; [done|]. intros _ Hs p ecr vid Hi _. left. destruct (Hs1 Hs) as [Hl Hp]. destruct H.
    apply sur_redemarre; rewrite ?Rd; try done. apply (porte_etat_plus _ _ g); [|lia]. by eapply image_stable.
  - destruct r1 as [[[t sec] nv]|].
    2:{ injection E' as <- <-. right; left. split; [done|].
        assert (vu s1 base (g + 1) v) as Hv.
        { apply (vu_plus _ _ g); [|lia]. destruct H. split; rewrite ?Rd, ?Rl, ?V1, ?Hr; try done; constructor. }
        split; [done|]. intros _ Hs. destruct (Hs1 Hs) as [Hl Hp]. split; [done| |done]. apply (porte_etat_plus _ _ g); [done|lia]. }
    destruct Hr as (-> & -> & Hsec & Htab & Hpo & Hnv). rewrite Ecib in *.
    destruct (demi_bornes dm Hcb) as (Dd & Dc & Df). pose proof (total_positif es) as Htot.
    assert (0 <= gen < u64_max) as Hgen.
    { clear -Ep Het Hg0 Hg. destruct v as [l|]; cbn [porte_etat] in Het.
      - destruct Het as (e & sb & Ec & Hgen & _). rewrite Ec in Ep. injection Ep as _ _ <-.
        apply Z.mod_pos_bound. reflexivity.
      - destruct Het as [Ec _]. rewrite Ec in Ep. injection Ep as _ _ <-. done. }
    eapply (commet_spec s1 base g v es) in E' as [HM' Hi]; try done;
      try (rewrite Rd; apply H); try (rewrite ?Rl, ?V1; apply H).
    + assert (loyal s s' -> loyal s1 s') as Hl by (unfold loyal; lia).
      destruct r as [n|a]; [destruct Hi as [(-> & Hv & Hi)|[(-> & Hv & Hi)|(-> & Hi & Hv)]]|destruct Hi as [-> Hi]].
      * left. split_and!; auto.
      * right; left. split_and!; auto.
      * right; right. split_and!; auto.
      * split; [done|]. intros Hll Hs. destruct (Hi (Hl Hll)) as [[l Ed]|]; [|done]. intros p ecr vid Him _. left.
        destruct (Hs1 Hs) as [Hli Hp]. rewrite Ed in Him. destruct H. apply sur_redemarre; rewrite ?Ed; cbn [sans_vidange desc]; rewrite ?Rd; try done.
        apply (porte_etat_plus _ _ g); [|lia]. exact (image_stable _ _ _ _ _ Hp Hli Him).
    + by rewrite Ech1, Ep.
    + pose proof (somme_controle_range _ (table_octets _ Hok)) as Hsom.
      apply entrees_max in En.
      split; [exact Hgen|]. split; [exact Hcb|]. cbn [sb_entrees secteurs_contenu somme_table].
      split_and!; try apply Hsom; unfold u64_max, u32_max; lia.
    + split; cbn [demi sb_entrees somme_table]; try done; try lia.
Qed.

(** ** Histories *)

(** [franche]: every flush was obtained, and no error hid accepted blocks. *)
Inductive Evenement :=
| Synchronise (es : list SnapshotEntree) (n : Z) (franche : bool)
| SynchroniseCoupee (es : list SnapshotEntree) (franche : bool)
| CoupureAuRepos
| Monte (l : list Restaure)
| Pannes.

Definition franche (s s' : Etat) : bool := (manquees (disque s') =? manquees (disque s))%nat.
Lemma franche_loyal s s' : franche s s' = true <-> loyal s s'.
Proof. apply Nat.eqb_eq. Qed.

(** What happens to the machine: a synchronisation that returns, one the power interrupts, a
    power loss at rest, a mount, a change of what the disk will refuse. After a power loss the
    disk holds an image of what it had, and the machine starts again. *)
Inductive pas_machine (base : Z) : Etat -> Evenement -> Etat -> Prop :=
| pm_sync es s s' n :
    Forall entree_ok es -> synchronise_snapshot es s = (s', inl n) ->
    pas_machine base s (Synchronise es n (franche s s')) s'
| pm_coupe es s s' a p ecr vid :
    Forall entree_ok es -> synchronise_snapshot es s = (s', inr a) ->
    image (disque s') p -> detectee (disque s') base p ->
    pas_machine base s (SynchroniseCoupee es (franche s s')) (redemarre s' p ecr vid)
| pm_repos s p ecr vid :
    image (disque s) p -> pas_machine base s CoupureAuRepos (redemarre s p ecr vid)
| pm_monte s s' l : lit_zone s = (s', inl l) -> pas_machine base s (Monte l) s'
| pm_pannes s ecr vid :
    pas_machine base s Pannes
      (mk_etat (mk_disque (desc (disque s)) (plateau (disque s)) (cachees (disque s)) (lectures (disque s)) ecr vid (manquees (disque s)))
         (connus s) (v1_fin s)).

(** What a user of the zone is promised: a cell that holds one snapshot. It is [Sure] when a
    power loss cannot take it away, [Fragile] when it is what reads find and a power loss may
    lose it, [Perdue] after that. *)
Inductive Cellule := Sure (v : option (list SnapshotEntree)) | Fragile (v : option (list SnapshotEntree)) | Perdue.
Definition lue (c : Cellule) : option (option (list SnapshotEntree)) :=
  match c with Sure v | Fragile v => Some v | Perdue => None end.
Inductive pas_cellule : Cellule -> Evenement -> Cellule -> Prop :=
| pc_commit c v es : lue c = Some v -> pas_cellule c (Synchronise es (Z.of_nat (length es)) true) (Sure (Some es))
| pc_commit_fragile c v es : lue c = Some v -> pas_cellule c (Synchronise es (Z.of_nat (length es)) false) (Fragile (Some es))
| pc_refus c es : pas_cellule c (Synchronise es (-1) true) c
| pc_refus_fragile c v es : lue c = Some v -> pas_cellule c (Synchronise es (-1) false) (Fragile v)
| pc_refus_cache c v es : lue c = Some v -> pas_cellule c (Synchronise es (-1) false) (Fragile (Some es))
| pc_avant v es : pas_cellule (Sure v) (SynchroniseCoupee es true) (Sure v)
| pc_apres v es : pas_cellule (Sure v) (SynchroniseCoupee es true) (Sure (Some es))
| pc_coupe_perdue v es : pas_cellule (Sure v) (SynchroniseCoupee es false) Perdue
| pc_coupe_fragile v es b : pas_cellule (Fragile v) (SynchroniseCoupee es b) Perdue
| pc_repos v : pas_cellule (Sure v) CoupureAuRepos (Sure v)
| pc_repos_fragile v : pas_cellule (Fragile v) CoupureAuRepos Perdue
| pc_monte c v : lue c = Some v -> pas_cellule c (Monte (map restaure (default [] v))) c
| pc_pannes c : pas_cellule c Pannes c
| pc_perdue e : pas_cellule Perdue e Perdue.

Inductive histoire {S E} (pas : S -> E -> S -> Prop) : S -> list E -> S -> Prop :=
| h_fin s : histoire pas s [] s
| h_pas s e s1 l s2 : pas s e s1 -> histoire pas s1 l s2 -> histoire pas s (e :: l) s2.

Definition tient (s : Etat) (base g : Z) (c : Cellule) : Prop :=
  match c with Sure v => sur s base g v | Fragile v => vu s base g v | Perdue => True end.
Lemma tient_vu s base g c v : tient s base g c -> lue c = Some v -> vu s base g v.
Proof. destruct c; intros H [= ->]; [apply H|apply H]. Qed.
Lemma tient_plus s base g g' c : tient s base g c -> g <= g' -> tient s base g' c.
Proof. destruct c; cbn; [apply sur_plus|apply vu_plus|done]. Qed.

Lemma lue_cas s base g c : tient s base g c -> c = Perdue \/ exists v, lue c = Some v /\ vu s base g v.
Proof. intros H. destruct c as [v|v|]; [right; exists v..|by left]; (split; [done|]); [apply H|apply H]. Qed.

Lemma sync_raffine s base g c es s' n :
  tient s base g c -> 0 <= g -> g + 1 < u64_max -> Forall entree_ok es -> synchronise_snapshot es s = (s', inl n) ->
  exists c', pas_cellule c (Synchronise es n (franche s s')) c' /\ tient s' base (g + 1) c'.
Proof.
  intros H Hg0 Hg Hok E. destruct (lue_cas _ _ _ _ H) as [->|(v & Hl & Hv)]; [exists Perdue; split; [constructor|done]|].
  pose proof (synchronise_issue _ base g v _ _ _ Hv Hok Hg0 Hg E) as [(-> & Hv' & Hi)|[(-> & Hv' & Hi)|(-> & Hn & Hv')]].
  - destruct (franche s s') eqn:Ef; [|by exists (Fragile (Some es)); split; [eapply pc_commit_fragile|]].
    exists (Sure (Some es)). split; [by eapply pc_commit|]. by apply Hi, franche_loyal.
  - destruct (franche s s') eqn:Ef; [|by exists (Fragile v); split; [eapply pc_refus_fragile|]].
    exists c. split; [constructor|]. destruct c as [w|w|]; [| |done]; injection Hl as ->; [|exact Hv'].
    apply Hi; [by apply franche_loyal|exact H].
  - destruct (franche s s') eqn:Ef; [by apply franche_loyal in Ef|].
    exists (Fragile (Some es)). split; [by eapply pc_refus_cache|done].
Qed.
Lemma coupe_raffine s base g c es s' a p ecr vid :
  tient s base g c -> 0 <= g -> g + 1 < u64_max -> Forall entree_ok es -> synchronise_snapshot es s = (s', inr a) ->
  image (disque s') p -> detectee (disque s') base p ->
  exists c', pas_cellule c (SynchroniseCoupee es (franche s s')) c' /\ tient (redemarre s' p ecr vid) base (g + 1) c'.
Proof.
  intros H Hg0 Hg Hok E Hp Hd. destruct c as [v|v|]; [|exists Perdue; split; [constructor|done]..].
  pose proof (synchronise_issue _ base g v _ _ _ (su_vu _ _ _ _ H) Hok Hg0 Hg E) as [_ Hi].
  destruct (franche s s') eqn:Ef; [|exists Perdue; split; [constructor|done]].
  destruct (Hi (proj1 (franche_loyal _ _) Ef) H p ecr vid Hp Hd) as [?|?];
    [exists (Sure v)|exists (Sure (Some es))]; (split; [constructor|done]).
Qed.
Lemma pas_raffine s base g c e s' :
  tient s base g c -> 0 <= g -> g + 1 < u64_max -> pas_machine base s e s' ->
  exists c', pas_cellule c e c' /\ tient s' base (g + 1) c'.
Proof.
  intros H Hg0 Hg Hp. destruct Hp as [es s s' n Hok E|es s s' a p ecr vid Hok E Hi Hd|s p ecr vid Hi|s s' l E|s ecr vid].
  - by eapply sync_raffine.
  - by eapply coupe_raffine.
  - destruct c as [v|v|]; [|exists Perdue; split; [constructor|done]..]. exists (Sure v). split; [constructor|].
    apply (sur_plus _ _ g); [|lia]. by apply sur_coupe.
  - destruct (lue_cas _ _ _ _ H) as [->|(v & Hl & Hv)]; [exists Perdue; split; [constructor|done]|].
    rewrite (lit_zone_spec _ _ _ _ Hv) in E. injection E as <- <-. exists c. split; [by constructor|].
    apply (tient_plus _ _ g); [|lia]. destruct c; [by apply sur_monte|by apply vu_monte|done].
  - exists c. split; [constructor|]. apply (tient_plus _ _ g); [|lia]. destruct c as [v|v|]; [|destruct H; split; done|done].
    destruct H as [[] ? ?]. split; [split; done|done..].
Qed.

(** C6. The persistent zone refines a cell holding one snapshot, on a disk whose reads succeed and
    that held no zone of the first format. Along any history of synchronisations, power losses at any
    request, mounts, write errors and failed flushes: a synchronisation that returns the number of
    entries has replaced the snapshot, one that returns -1 has left it, one the power interrupts has done
    one or the other, and a mount restores exactly the entries of the snapshot, as long as every
    flush was obtained and no error hid blocks the disk had accepted. When one was not, the snapshot
    reads find is still the old one or the new one, and only a power loss before the next
    synchronisation that succeeds entirely can lose it. A power loss leaves any contents in the sectors
    being written; a torn superblock is assumed to be detected by its checksum. *)
Theorem persistance_atomique s base g c l s' :
  tient s base g c -> 0 <= g -> g + Z.of_nat (length l) < u64_max -> histoire (pas_machine base) s l s' ->
  exists c', histoire pas_cellule c l c' /\ tient s' base (g + Z.of_nat (length l)) c'.
Proof.
  intros H Hg0 Hg Hh. revert g c H Hg0 Hg. induction Hh as [s|s e s1 l s2 Hp Hh IH]; intros g c H Hg0 Hg.
  - exists c. split; [constructor|]. by rewrite Z.add_0_r.
  - cbn [length] in *. destruct (pas_raffine _ _ _ _ _ _ H Hg0 ltac:(lia) Hp) as (c1 & Hc & H1).
    destruct (IH _ _ H1) as (c2 & Hc2 & H2); [lia|lia|].
    exists c2. split; [econstructor; eauto|].
    by replace (g + Z.of_nat (S (length l))) with (g + 1 + Z.of_nat (length l)) by lia.
Qed.

#[local] Transparent somme_controle ENTREES_MAX.

(** A blank disk of 300000 sectors, and two entries. *)
Definition disque_vierge (ecr vid : list Sort) : Disque :=
  mk_disque (mk_descripteur 512 300000 true) (fun _ => replicate 512 0) [] [] ecr vid 0.
Definition BASE : Z := 300000 - SECTEURS_ZONE.
Definition etat_vierge (ecr vid : list Sort) : Etat := mk_etat (disque_vierge ecr vid) [] 0.
Definition e_dossier : SnapshotEntree := mk_entree [97] [] (mk_meta true 493 1 1).
Definition e_fichier : SnapshotEntree := mk_entree [97; 47; 98] (replicate 600 7) (mk_meta false 420 1 1).

Lemma vierge_sur ecr vid : sur (etat_vierge ecr vid) BASE 0 None.
Proof. apply sur_de_vu; [done|]. split; try done; try constructor; try (vm_compute; congruence). Qed.
Lemma entrees_temoin_ok : Forall entree_ok [e_dossier; e_fichier].
Proof.
  repeat constructor; cbn [chemin octets meta e_dossier e_fichier]; try done; try lia;
    try (apply (bool_decide_unpack _); vm_compute; exact I).
Qed.

(** A commit, a power loss, a mount; then a commit whose second flush fails, and a mount. *)
Definition histoire_temoin : list Evenement :=
  [Synchronise [e_dossier; e_fichier] 2 true; CoupureAuRepos; Monte (map restaure [e_dossier; e_fichier]);
   Synchronise [e_fichier] 1 false; Monte (map restaure [e_fichier])].
Lemma persistance_atomique_witness : exists s' c',
  histoire (pas_machine BASE) (etat_vierge [] []) histoire_temoin s' /\
  histoire pas_cellule (Sure None) histoire_temoin c' /\ tient s' BASE 5 c'.
Proof.
  destruct (synchronise_snapshot [e_dossier; e_fichier] (etat_vierge [] [])) as [s1 r1] eqn:E1.
  assert (s1 = (synchronise_snapshot [e_dossier; e_fichier] (etat_vierge [] [])).1) as Es1 by (by rewrite E1).
  assert (r1 = inl 2) as -> by (change r1 with (s1, r1).2; rewrite <- E1; vm_compute; reflexivity).
  assert (franche (etat_vierge [] []) s1 = true) as F1 by (rewrite Es1; vm_compute; reflexivity).
  pose proof (sync_raffine _ BASE 0 (Sure None) _ _ _ (vierge_sur [] []) ltac:(done) ltac:(done) entrees_temoin_ok E1) as (c1 & P1 & T1).
  rewrite F1 in P1. inversion P1; subst c1. set (s2 := redemarre s1 (plateau (disque s1)) [] [Reussit; Refuse []]).
  pose proof (lit_zone_spec s2 BASE 1 _ (su_vu _ _ _ _ (sur_coupe s1 BASE 1 _ (plateau (disque s1)) [] [Reussit; Refuse []] T1 ltac:(by left)))) as E3.
  set (s3 := mk_etat (disque s2) [] 0) in E3. destruct (synchronise_snapshot [e_fichier] s3) as [s4 r4] eqn:E4.
  assert (s4 = (synchronise_snapshot [e_fichier] s3).1) as Es4 by (by rewrite E4).
  assert (r4 = inl 1) as ->.
  { change r4 with (s4, r4).2. rewrite <- E4. unfold s3, s2. rewrite Es1. vm_compute. reflexivity. }
  assert (franche s3 s4 = false) as F4 by (rewrite Es4; unfold s3, s2; rewrite Es1; vm_compute; reflexivity).
  assert (lit_zone s4 = (mk_etat (disque s4) [] 0, inl (map restaure [e_fichier]))) as E5.
  { assert (vu s3 BASE 1 (Some [e_dossier; e_fichier])) as V3.
    { apply (vu_monte s2). eapply su_vu, sur_coupe; [exact T1|by left]. }
    pose proof (synchronise_issue _ BASE 1 _ _ _ _ V3 (Forall_inv_tail entrees_temoin_ok) ltac:(done) ltac:(done) E4) as [(_ & V & _)|[(? & _)|(? & _)]];
      [|done..]. by apply lit_zone_spec in V. }
  assert (histoire (pas_machine BASE) (etat_vierge [] []) histoire_temoin (mk_etat (disque s4) [] 0)) as Hh.
  { unfold histoire_temoin. rewrite <- F1, <- F4.
    eapply h_pas; [by apply pm_sync; [apply entrees_temoin_ok|]|].
    eapply h_pas; [apply (pm_repos _ s1 (plateau (disque s1)) [] [Reussit; Refuse []]); by left|].
    eapply h_pas; [by apply pm_monte|]. eapply h_pas; [by apply pm_sync; [exact (Forall_inv_tail entrees_temoin_ok)|]|].
    eapply h_pas; [by apply pm_monte|constructor]. }
  destruct (persistance_atomique (etat_vierge [] []) BASE 0 (Sure None) histoire_temoin _ (vierge_sur [] []) ltac:(done) ltac:(done) Hh)
    as (c' & Hc1 & Hc2).
  eexists _, c'. split; [exact Hh|]. split; [exact Hc1|exact Hc2].
Defined.

End PersistanceSurete.
