(* ===== verification/PersistanceCas.v ===== *)
(** The persistent zone: a synchronisation that fits commits, and the two situations in which
    a power loss is not harmless. *)

From S2P Require Import Prelude UpdateAb Bloc Persistance PersistanceProofs PersistanceSurete.

Module PersistanceCas.
Import Persistance PersistanceProofs PersistanceSurete.
Open Scope os_scope.
#[local] Opaque ENTREES_MAX.

(** ** A disk that refuses nothing *)

(** The power does not go during the flushes to come; they may fail. *)
Definition sans_coupure (d : Disque) : Prop := Forall (fun x => match x with Coupe _ => False | _ => True end) (vidanges d).

(** The step from [s] to [s'] leaves a disk of the same size that still refuses nothing. *)
Definition sain (s s' : Etat) : Prop :=
  ecritures (disque s') = [] /\ desc (disque s') = desc (disque s) /\ (sans_coupure (disque s) -> sans_coupure (disque s')).

Lemma ecrit_reussit s lba n donnees :
  ecritures (disque s) = [] -> 0 <= lba -> lba + Z.of_nat n <= blocs (desc (disque s)) ->
  exists s', sur_disque (ecrit lba n donnees) s = (s', inl (Z.of_nat n)) /\ sain s s'.
Proof.
  intros He H0 Hb. unfold sur_disque, ecrit, dans_les_bornes.
  rewrite (proj2 (Z.leb_le 0 lba)), (proj2 (Z.leb_le _ _)) by lia. cbn [andb negb]. rewrite He.
  eexists. split; [reflexivity|]. by split_and!.
Qed.
Lemma vidange_reussit s : ecritures (disque s) = [] -> sans_coupure (disque s) ->
  exists s' b, volume_barriere s = (s', inl b) /\ sain s s'.
Proof.
  intros He Hv. destruct (volume_barriere s) as [s' [b|a]] eqn:E; [exists s', b; split; [done|]|].
  - unfold volume_barriere, sur_disque, vidange in E. unfold sain, sans_coupure in *. cbv zeta in E.
    destruct (vidanges (disque s)) as [|[] l]; try apply Forall_cons in Hv as [Hv Hl]; try done; try destruct (vidange_reelle _);
      injection E as <- <-; cbn; done.
  - exfalso. unfold volume_barriere, sur_disque, vidange, sans_coupure in *. cbv zeta in E.
    destruct (vidanges (disque s)) as [|[] l]; try apply Forall_cons in Hv as [Hv Hl]; try done; try destruct (vidange_reelle _); done.
Qed.

Lemma ecrit_contenus_reussit fin es : forall index table secteur nouveau s,
  ecritures (disque s) = [] -> Forall entree_ok es -> 0 <= secteur ->
  secteur + total es <= fin -> fin <= blocs (desc (disque s)) ->
  exists s' x, ecrit_contenus fin es index table secteur nouveau s = (s', inl (Some x)) /\ sain s s'.
Proof.
  induction es as [|e es IH]; intros index table secteur nouveau s He Hok H0 Hf Hb.
  { eexists s, _. split; [reflexivity|]. by split_and!. }
  apply Forall_cons in Hok as [Ho Hok]. cbn [total] in Hf. pose proof (total_positif es) as Ht.
  rewrite ecrit_contenus_pas. set (n := nb_secteurs (length (octets e))) in *.
  rewrite (proj2 (Nat.leb_gt _ _)) by apply Ho. rewrite (proj2 (Z.ltb_ge _ _)) by lia.
  assert (exists s1, ecrit_un index e secteur s = (s1, inl true) /\ sain s s1) as (s1 & E1 & S1e & S1d & S1v).
  { unfold ecrit_un, lie at 1, etat_courant. fold n. destruct (n =? 0)%nat; [by exists s|].
    destruct (deja_ecrite _ _ _ _ _ _); [by exists s|].
    destruct (ecrit_reussit s secteur n (tampon (octets e))) as (s1 & E1 & S1); [done|done|lia|].
    exists s1. split; [|done]. erewrite lie_pas by exact E1. by rewrite Z.eqb_refl. }
  erewrite lie_pas by exact E1. cbn [negb].
  destruct (IH (S index) (ecrit_entree table index e) (secteur + Z.of_nat n)
    (nouveau ++ [mk_connu (chemin e) secteur (Z.of_nat (length (octets e))) (sceau (octets e))]) s1)
    as (s' & x & E & Se & Sd & Sv); try done; try lia; [by rewrite S1d|].
  exists s', x. split; [done|]. split_and!; [done|congruence|auto].
Qed.

(** A synchronisation commits as soon as the disk refuses no write and the snapshot fits in
    a half zone: it returns the number of entries, and a mount then restores exactly them. Whether
    the flushes were obtained changes nothing of it: only a power loss tells the difference. *)
Theorem synchronise_reussit s base g v es :
  vu s base g v -> 0 <= g -> g + 1 < u64_max -> ecritures (disque s) = [] -> sans_coupure (disque s) ->
  Forall entree_ok es -> (length es <= ENTREES_MAX)%nat -> total es <= SECTEURS_DEMI - SECTEURS_TABLE ->
  exists s' s'', synchronise_snapshot es s = (s', inl (Z.of_nat (length es))) /\
    lit_zone s' = (s'', inl (map restaure es)).
Proof.
  intros H Hg0 Hg He Hv Hok Hn Ht. pose proof (vu_etat _ _ _ _ H) as Het.
  pose proof (cible_bornes _ _ _ _ Het) as Hcb. destruct (vu_bornes _ _ _ _ H) as [Hb0 Hb].
  destruct (synchronise_snapshot es s) as [s' r] eqn:E.
  assert (r = inl (Z.of_nat (length es))) as ->.
  2:{ pose proof (synchronise_issue _ _ _ _ _ _ _ H Hok Hg0 Hg E) as [(_ & Hs & _)|[(Hx & _)|(Hx & _)]]; [|lia..].
      apply lit_zone_spec in Hs. eauto. }
  unfold synchronise_snapshot in E.
  erewrite lie_pas in E by (by eapply debut_ok). cbv beta iota in E.
  rewrite (proj2 (Nat.ltb_ge _ _) Hn) in E.
  erewrite lie_pas in E by (by eapply superbloc_courant_ok). 
  destruct (prochain (choix (contenu (disque s)) base)) as [[c dm] gen] eqn:Ep.
  assert (cible (contenu (disque s)) base = dm) as Ecib by (unfold cible; by rewrite Ep).
  pose proof (emplacement_bornes _ base _ _ _ _ _ Het Ep) as Hc. rewrite Ecib in Hcb.
  cbv beta iota in E. unfold lie at 1, etat_courant in E. rewrite (vu_v1 _ _ _ _ H) in E.
  cbn [demi_sure demi_recouvre_la_v1 Z.eqb negb] in E.
  destruct (demi_bornes dm Hcb) as (Dd & Dc & Df). pose proof (secteurs_table_bornes _ Hn) as Hst.
  assert (SECTEURS_DEMI - SECTEURS_TABLE = 130047) as Ed by reflexivity.
  assert (exists s1 t sec nv, ecrit_donnees base dm es s = (s1, inl (Some (t, sec, nv))) /\ sain s s1)
    as (s1 & t & sec & nv & E1 & S1e & S1d & S1v).
  { unfold ecrit_donnees.
    destruct (ecrit_contenus_reussit (base + fin_demi dm) es 0
      (replicate (512 * secteurs_table_utiles (length es)) 0) (base + contenu_demi dm) [] s)
      as (s1 & [[t sec] nv] & E1 & S1e & S1d & S1v); try done; try lia.
    erewrite lie_pas by exact E1. cbv beta iota.
    destruct (negb _); [|erewrite lie_pas by reflexivity; cbn [negb]; by exists s1, t, sec, nv].
    destruct (ecrit_reussit s1 (base + debut_demi dm) (secteurs_table_utiles (length es)) t)
      as (s2 & E2 & S2e & S2d & S2v); [done|lia|rewrite S1d; lia|].
    exists s2, t, sec, nv. split; [|split_and!; [done|congruence|auto]].
    erewrite lie_pas by (erewrite lie_pas by exact E2; reflexivity). by rewrite Z.eqb_refl. }
  erewrite lie_pas in E by exact E1. cbv beta iota in E. unfold commet in E.
  set (nsb := mk_sb _ _ _ _ _) in E.
  assert (exists o, encode nsb (replicate 512 0) = Some o) as [o Eo].
  { unfold encode. rewrite length_replicate. eauto. }
  destruct (vidange_reussit s1) as (s2 & b2 & E2 & S2e & S2d & S2v); [done|auto|]. erewrite lie_pas in E by exact E2. rewrite Eo in E.
  destruct (ecrit_reussit s2 (base + c) 1 o) as (s3 & E3 & S3e & S3d & S3v); [done|lia|rewrite S2d, S1d; lia|].
  erewrite lie_pas in E by exact E3. change (Z.of_nat 1 =? 1) with true in E. cbn [negb] in E.
  destruct (vidange_reussit s3) as (s4 & b4 & E4 & _); [done|auto|]. erewrite lie_pas in E by exact E4. by injection E as _ <-.
Qed.

Lemma synchronise_reussit_witness : exists s' s'',
  synchronise_snapshot [e_dossier; e_fichier] (etat_vierge [] [Refuse []; Reussit]) = (s', inl 2) /\
  lit_zone s' = (s'', inl (map restaure [e_dossier; e_fichier])).
Proof.
  apply (synchronise_reussit (etat_vierge [] [Refuse []; Reussit]) BASE 0 None [e_dossier; e_fichier]).
  - apply vierge_sur.
  - lia.
  - reflexivity.
  - reflexivity.
  - repeat constructor.
  - apply entrees_temoin_ok.
  - apply (bool_decide_unpack _). vm_compute. exact I.
  - vm_compute. discriminate.
Defined.
(** ** Two power losses that are not harmless *)

#[local] Transparent ENTREES_MAX somme_controle.

Definition fichier (c : Z) : SnapshotEntree := mk_entree [102] [c] (mk_meta false 420 0 0).

(** A zone in the first format holding the file [f]: header, table, contents. *)
Definition plateau_v1 (lba : Z) : list Z :=
  if lba =? BASE then splice (splice (replicate 512 0) 0 MAGIE) 12 (to_le 4 1)
  else if lba =? BASE + 1 then encode_entree (fichier 1) ++ replicate 256 0
  else if lba =? BASE + SECTEUR_CONTENU then 1 :: replicate 511 0
  else replicate 512 0.
Definition etat_v1 : Etat :=
  mk_etat (mk_disque (mk_descripteur 512 300000 true) plateau_v1 [] [] [Reussit; Reussit; Coupe 1] [] 0) [] 0.
(** Mounted, then synchronised; the power goes while the superblock is written. *)
Definition etat_v1_coupe : Etat := (synchronise_snapshot [fichier 2] (lit_zone etat_v1).1).1.
(** Sector 0 torn after its first eight bytes, every other sector as on the platter. *)
Definition image_v1 (lba : Z) : list Z :=
  if lba =? BASE then MAGIE_V2 ++ drop 8 (plateau (disque etat_v1_coupe) BASE)
  else plateau (disque etat_v1_coupe) lba.

(** The migration from the first format is not atomic when the sector of the commit is
    torn: the superblock replaces the header of the first format, so that a torn sector is
    neither, and the mount finds an empty zone where the file was. *)
Theorem migration_v1_dechiree :
  (lit_zone etat_v1).2 = inl (map restaure [fichier 1]) /\
  (synchronise_snapshot [fichier 2] (lit_zone etat_v1).1).2 = inr Coupure /\
  image (disque etat_v1_coupe) image_v1 /\ decode (image_v1 BASE) = None /\
  (lit_zone (redemarre etat_v1_coupe image_v1 [] [])).2 = inl [].
Proof.
  split; [vm_compute; reflexivity|]. split; [vm_compute; reflexivity|].
  split; [|split; vm_compute; reflexivity].
  intros lba. unfold image_v1. destruct (Z.eqb_spec lba BASE) as [->|]; [|by left].
  right. apply (bool_decide_unpack _). vm_compute. exact I.
Qed.

(** Two commits, then a synchronisation during which the newer superblock cannot be read and
    the power goes after the first contents. *)
Definition etat_deux : Etat :=
  (synchronise_snapshot [fichier 2] (synchronise_snapshot [fichier 1] (etat_vierge [] [])).1).1.
Definition etat_illisible : Etat :=
  mk_etat (mk_disque (desc (disque etat_deux)) (plateau (disque etat_deux)) [] [Reussit; Partiel 0] [Coupe 1] [] 0)
    (connus etat_deux) 0.
Definition etat_illisible_coupe : Etat := (synchronise_snapshot [fichier 3; fichier 4] etat_illisible).1.

(** A superblock that cannot be read during a synchronisation is treated as absent, and the
    half it designates, the one in service, is overwritten: after a power loss the mount finds
    the committed table with contents of the interrupted snapshot, neither the old state nor
    the new one. *)
Theorem lecture_fautive_corrompt :
  (lit_zone etat_deux).2 = inl (map restaure [fichier 2]) /\
  (synchronise_snapshot [fichier 3; fichier 4] etat_illisible).2 = inr Coupure /\
  image (disque etat_illisible_coupe) (contenu (disque etat_illisible_coupe)) /\
  (lit_zone (redemarre etat_illisible_coupe (contenu (disque etat_illisible_coupe)) [] [])).2
    = inl (map restaure [fichier 3]).
Proof.
  split; [vm_compute; reflexivity|]. split; [vm_compute; reflexivity|]. split; [|vm_compute; reflexivity].
  intros lba. unfold contenu. destruct (decide (lba ∈ map fst (cachees (disque etat_illisible_coupe)))); [by right|].
  left. by apply derniere_ailleurs.
Qed.

(** A commit whose second flush fails, then a synchronisation during which the power goes after
    the first contents. *)
Definition etat_sans_barriere : Etat :=
  (synchronise_snapshot [fichier 2]
     (synchronise_snapshot [fichier 1] (etat_vierge [Reussit; Reussit; Reussit; Reussit; Reussit; Reussit; Coupe 1]
        [Reussit; Reussit; Reussit; Refuse []])).1).1.
Definition etat_sans_barriere_coupe : Etat := (synchronise_snapshot [fichier 3; fichier 4] etat_sans_barriere).1.
(** The writes of the contents reached the platter, the superblock before them did not. *)
Definition image_sans_barriere (lba : Z) : list Z :=
  if (lba =? BASE) || (lba =? BASE + 1) then plateau (disque etat_sans_barriere_coupe) lba
  else contenu (disque etat_sans_barriere_coupe) lba.

(** The flush after the superblock is asked for and its answer is dropped: when it fails the
    synchronisation still returns its number of entries, which [fsync] reports as durable. The
    next synchronisation then writes over the half the platter still designates, and a power loss
    leaves the committed table of the first snapshot with contents of the third. *)
Theorem vidange_ratee_corrompt :
  (synchronise_snapshot [fichier 2]
     (synchronise_snapshot [fichier 1] (etat_vierge [Reussit; Reussit; Reussit; Reussit; Reussit; Reussit; Coupe 1]
        [Reussit; Reussit; Reussit; Refuse []])).1).2 = inl 1 /\
  (synchronise_snapshot [fichier 3; fichier 4] etat_sans_barriere).2 = inr Coupure /\
  image (disque etat_sans_barriere_coupe) image_sans_barriere /\
  (lit_zone (redemarre etat_sans_barriere_coupe image_sans_barriere [] [])).2 = inl (map restaure [fichier 3]).
Proof.
  split; [vm_compute; reflexivity|]. split; [vm_compute; reflexivity|]. split; [|vm_compute; reflexivity].
  intros lba. unfold image_sans_barriere. destruct ((lba =? BASE) || (lba =? BASE + 1)); [by left|].
  unfold contenu. destruct (decide (lba ∈ map fst (cachees (disque etat_sans_barriere_coupe)))); [by right|].
  left. by apply derniere_ailleurs.
Qed.

End PersistanceCas.
