(* ===== verification/CacheJetable.v ===== *)
(** Which cache trees the persistence gives up when the zone is too small,
    [src/fs/cache_jetable.rs]. Sizes are natural numbers: sums of file sizes stay far below
    the width of the machine integers. *)

From S2P Require Import Prelude.

Module CacheJetable.

Record Fichier := mk_fichier { octets : Z; groupe : option nat }.
Record Limites := mk_limites { entrees_max : Z; secteurs_max : Z; taille_secteur : Z }.
Inductive Verdict :=
| ToutTient
| Ecarte (arbres fichiers octets : Z)
| NeTientPas.

(** CACHEDIR.TAG, and the 43 bytes its contents start with. *)
Definition NOM_ETIQUETTE : list Z :=
  [67; 65; 67; 72; 69; 68; 73; 82; 46; 84; 65; 71].
Definition SIGNATURE : list Z :=
  [83; 105; 103; 110; 97; 116; 117; 114; 101; 58; 32; 56; 97; 52; 55; 55; 102; 53; 57; 55; 100;
   50; 56; 100; 49; 55; 50; 55; 56; 57; 102; 48; 54; 56; 56; 54; 56; 48; 54; 98; 99; 53; 53].
Definition est_etiquette (nom contenu : list Z) : bool :=
  bool_decide (nom = NOM_ETIQUETTE) && bool_decide (take (length SIGNATURE) contenu = SIGNATURE).

Definition secteurs (octets taille_secteur : Z) : Z := (octets + taille_secteur - 1) / taille_secteur.

Definition tient (limites : Limites) (entrees total : Z) : bool :=
  (entrees <=? entrees_max limites) && (total <=? secteurs_max limites).

(** Sectors, files and bytes of tree [g]. *)
Definition mesure (limites : Limites) (fichiers : list Fichier) (g : nat) : Z * Z * Z :=
  fold_left (fun (a : Z * Z * Z) (f : Fichier) => let '(s, n, o) := a in
    if bool_decide (groupe f = Some g)
    then (s + secteurs (octets f) (taille_secteur limites), n + 1, o + octets f)
    else (s, n, o)) fichiers (0, 0, 0).

(** [ecartes[g]] *)
Definition est_ecarte (ecartes : list bool) (g : nat) : bool := default false (ecartes !! g).

(** One turn of the search for the biggest tree left. *)
Definition examine (limites : Limites) (fichiers : list Fichier) (ecartes : list bool)
  (meilleur : option (nat * Z * Z * Z)) (g : nat) : option (nat * Z * Z * Z) :=
  if est_ecarte ecartes g then meilleur
  else
    let '(s, n, o) := mesure limites fichiers g in
    if n =? 0 then meilleur
    else
      let mieux := match meilleur with
                   | None => true
                   | Some (_, ms, mn, _) => (ms <? s) || ((s =? ms) && (mn <? n))
                   end in
      if mieux then Some (g, s, n, o) else meilleur.
Definition cherche (limites : Limites) (fichiers : list Fichier) (ecartes : list bool)
  : option (nat * Z * Z * Z) :=
  fold_left (examine limites fichiers ecartes) (seq 0 (length ecartes)) None.

Fixpoint boucle (fuel : nat) (limites : Limites) (fichiers : list Fichier) (ecartes : list bool)
  (entrees total arbres fichiers_ecartes octets_ecartes : Z) : option (Verdict * list bool) :=
  match fuel with
  | O => None
  | S fuel =>
      match cherche limites fichiers ecartes with
      | None => Some (NeTientPas, replicate (length ecartes) false)
      | Some (g, s, n, o) =>
          let ecartes := <[g := true]> ecartes in
          let arbres := arbres + 1 in
          let fichiers_ecartes := fichiers_ecartes + n in
          let octets_ecartes := octets_ecartes + o in
          let entrees := entrees - n in
          let total := total - s in
          if tient limites entrees total
          then Some (Ecarte arbres fichiers_ecartes octets_ecartes, ecartes)
          else boucle fuel limites fichiers ecartes entrees total arbres fichiers_ecartes octets_ecartes
      end
  end.

Definition selectionne (fichiers : list Fichier) (limites : Limites) (groupes : nat)
  : option (Verdict * list bool) :=
  let ecartes := replicate groupes false in
  let entrees := Z.of_nat (length fichiers) in
  let total := fold_left (fun t f => t + secteurs (octets f) (taille_secteur limites)) fichiers 0 in
  if tient limites entrees total then Some (ToutTient, ecartes)
  else boucle (S groupes) limites fichiers ecartes entrees total 0 0 0.

(** ** What a selection keeps *)

Definition garde_fichier (ecartes : list bool) (f : Fichier) : bool :=
  match groupe f with Some g => negb (est_ecarte ecartes g) | None => true end.
Definition gardes (ecartes : list bool) (fs : list Fichier) : list Fichier :=
  List.filter (garde_fichier ecartes) fs.
Definition jetes (ecartes : list bool) (fs : list Fichier) : list Fichier :=
  List.filter (fun f => negb (garde_fichier ecartes f)) fs.
Fixpoint somme (mes : Fichier -> Z) (fs : list Fichier) : Z :=
  match fs with [] => 0 | f :: fs => mes f + somme mes fs end.

Section Selection.
Context (limites : Limites) (fichiers : list Fichier) (groupes : nat).
Hypothesis Hgroupes : Forall (fun f => forall g, groupe f = Some g -> (g < groupes)%nat) fichiers.

Abbreviation sec := (fun f => secteurs (octets f) (taille_secteur limites)).
Abbreviation un := (fun _ : Fichier => 1).
(** The files of tree [g]. *)
Definition arbre (g : nat) : list Fichier := List.filter (fun f => bool_decide (groupe f = Some g)) fichiers.

Lemma mesure_spec g : mesure limites fichiers g = (somme sec (arbre g), somme un (arbre g), somme octets (arbre g)).
Proof.
  unfold mesure, arbre.
  assert (forall fs a b c,
    fold_left (fun (a : Z * Z * Z) (f : Fichier) => let '(s, n, o) := a in
      if bool_decide (groupe f = Some g)
      then (s + secteurs (octets f) (taille_secteur limites), n + 1, o + octets f)
      else (s, n, o)) fs (a, b, c) =
    (a + somme sec (List.filter (fun f => bool_decide (groupe f = Some g)) fs),
     b + somme un (List.filter (fun f => bool_decide (groupe f = Some g)) fs),
     c + somme octets (List.filter (fun f => bool_decide (groupe f = Some g)) fs))) as H.
  { induction fs as [|f fs IH]; intros a b c; cbn [fold_left List.filter somme]; [rewrite !pair_equal_spec; lia|].
    destruct (bool_decide (groupe f = Some g)); rewrite IH; cbn [somme]; rewrite !pair_equal_spec; lia. }
  rewrite H. rewrite !pair_equal_spec; lia.
Qed.

Lemma garde_insere e g f :
  (g < length e)%nat ->
  garde_fichier (<[g := true]> e) f = garde_fichier e f && negb (bool_decide (groupe f = Some g)).
Proof.
  intros Hg. unfold garde_fichier, est_ecarte. destruct (groupe f) as [h|]; [|done].
  destruct (decide (h = g)) as [->|Hne].
  - rewrite list_lookup_insert_eq, bool_decide_eq_true_2 by done. by rewrite andb_false_r.
  - rewrite list_lookup_insert_ne, bool_decide_eq_false_2 by congruence. by rewrite andb_true_r.
Qed.

(** Giving up one more tree takes exactly its files away. *)
Lemma somme_jette mes e g fs :
  (g < length e)%nat -> est_ecarte e g = false ->
  somme mes (gardes (<[g := true]> e) fs) =
  somme mes (gardes e fs) - somme mes (List.filter (fun f => bool_decide (groupe f = Some g)) fs).
Proof.
  intros Hg He. unfold gardes. induction fs as [|f fs IH]; cbn [List.filter somme]; [lia|].
  rewrite garde_insere by done. case_bool_decide as Hf; cbn [negb].
  - rewrite andb_false_r. unfold garde_fichier at 2. rewrite Hf, He. cbn [negb somme]. lia.
  - rewrite andb_true_r. destruct (garde_fichier e f); cbn [somme]; lia.
Qed.

Lemma somme_partage mes e fs : somme mes (gardes e fs) + somme mes (jetes e fs) = somme mes fs.
Proof.
  unfold gardes, jetes. induction fs as [|f fs IH]; cbn [List.filter somme]; [lia|].
  destruct (garde_fichier e f); cbn [negb somme]; lia.
Qed.

Lemma somme_un_vide fs : somme un fs = 0 <-> fs = [].
Proof.
  split; [|by intros ->]. destruct fs as [|f fs]; [done|]. cbn [somme].
  assert (forall l, 0 <= somme un l) as H by (induction l; cbn [somme]; lia). specialize (H fs). lia.
Qed.

Lemma arbre_epuise h : (groupes <= h)%nat -> arbre h = [].
Proof.
  intros Hh. unfold arbre. rewrite Forall_forall in Hgroupes.
  destruct (List.filter _ fichiers) as [|f fs] eqn:E; [done|].
  assert (In f (f :: fs)) as Hf by (by left). rewrite <- E in Hf.
  apply List.filter_In in Hf as [Hf Hg]. bool_prop. apply list_elem_of_In in Hf.
  specialize (Hgroupes f Hf h Hg). lia.
Qed.

(** A tree that can still be given up. *)
Definition candidat (e : list bool) (h : nat) : Prop := est_ecarte e h = false /\ arbre h <> [].
Definition meilleur_ok (e : list bool) (k : nat) (m : option (nat * Z * Z * Z)) : Prop :=
  match m with
  | None => forall h, (h < k)%nat -> ~ candidat e h
  | Some (g, s, n, o) =>
      (g < k)%nat /\ candidat e g /\ mesure limites fichiers g = (s, n, o) /\
      forall h, (h < k)%nat -> candidat e h -> somme sec (arbre h) <= s
  end.

Lemma examine_spec e k m :
  meilleur_ok e k m -> meilleur_ok e (S k) (examine limites fichiers e m k).
Proof.
  intros Hm. unfold examine.
  assert (~ candidat e k -> meilleur_ok e (S k) m) as Hskip.
  { intros Hk. destruct m as [[[[g s] n] o]|]; cbn [meilleur_ok] in *.
    - destruct Hm as (H1 & H2 & H3 & H4). split_and!; try done; [lia|]. intros h Hh Hc.
      destruct (decide (h = k)) as [->|]; [done|]. apply H4; [lia|done].
    - intros h Hh. destruct (decide (h = k)) as [->|]; [done|]. apply Hm. lia. }
  destruct (est_ecarte e k) eqn:Ek; [apply Hskip; intros [? _]; congruence|].
  rewrite mesure_spec. destruct (somme un (arbre k) =? 0) eqn:E0; bool_prop.
  { apply Hskip. intros [_ Hne]. by apply Hne, somme_un_vide. }
  assert (candidat e k) as Hk by (split; [done|]; intros Hx; by rewrite Hx in E0).
  destruct m as [[[[g s] n] o]|]; cbn [meilleur_ok] in *.
  - destruct Hm as (H1 & H2 & H3 & H4).
    destruct ((s <? somme sec (arbre k)) || _) eqn:Em.
    + split_and!; try done; [lia|apply mesure_spec|]. intros h Hh Hc.
      destruct (decide (h = k)) as [->|]; [lia|]. specialize (H4 h ltac:(lia) Hc).
      apply orb_true_iff in Em as [Em|Em]; bool_prop; lia.
    + bool_prop. split_and!; try done; [lia|]. intros h Hh Hc.
      destruct (decide (h = k)) as [->|]; [done|]. apply H4; [lia|done].
  - split_and!; try done; [lia|apply mesure_spec|]. intros h Hh Hc.
    destruct (decide (h = k)) as [->|]; [lia|]. exfalso. apply (Hm h); [lia|done].
Qed.

Lemma cherche_spec e : meilleur_ok e (length e) (cherche limites fichiers e).
Proof.
  unfold cherche. generalize (length e). induction n as [|n IH]; [intros h Hh; lia|].
  rewrite seq_S, fold_left_app. cbn [fold_left Nat.add]. by apply examine_spec.
Qed.

Definition nb_vrais (e : list bool) : Z := Z.of_nat (length (List.filter (fun b => b) e)).
Definition nb_faux (e : list bool) : nat := length (List.filter negb e).

Lemma nb_insere e g :
  (g < length e)%nat -> est_ecarte e g = false ->
  nb_vrais (<[g := true]> e) = nb_vrais e + 1 /\ (nb_faux (<[g := true]> e) < nb_faux e)%nat.
Proof.
  unfold nb_vrais, nb_faux, est_ecarte. revert g. induction e as [|b e IH]; intros g Hg He; [cbn in Hg; lia|].
  cbn [length] in Hg. destruct g as [|g].
  - cbn in He. subst b. change (<[0%nat := true]> (false :: e)) with (true :: e).
    cbn [List.filter length negb]. lia.
  - destruct (IH g ltac:(lia) He) as [H1 H2]. change (<[S g := true]> (b :: e)) with (b :: <[g := true]> e).
    destruct b; cbn [List.filter length negb]; lia.
Qed.

(** The state of the loop after some trees were given up, the biggest first. *)
Record tour (e : list bool) (entrees total arbres n o : Z) : Prop := {
  to_longueur : length e = groupes;
  to_entrees : entrees = somme un (gardes e fichiers);
  to_total : total = somme sec (gardes e fichiers);
  to_arbres : arbres = nb_vrais e;
  to_n : n = somme un (jetes e fichiers);
  to_o : o = somme octets (jetes e fichiers);
  to_ordre : forall g h, est_ecarte e g = true -> candidat e h -> somme sec (arbre h) <= somme sec (arbre g)
}.

Lemma tour_suivant e entrees total arbres n o g s k x :
  tour e entrees total arbres n o -> cherche limites fichiers e = Some (g, s, k, x) ->
  tour (<[g := true]> e) (entrees - k) (total - s) (arbres + 1) (n + k) (o + x) /\
  (nb_faux (<[g := true]> e) < nb_faux e)%nat.
Proof.
  intros [T1 T2 T3 T4 T5 T6 T7] E. pose proof (cherche_spec e) as Hc. rewrite E in Hc.
  destruct Hc as (Hg & [He Hne] & Hm & Hmax). rewrite mesure_spec in Hm. injection Hm as <- <- <-.
  destruct (nb_insere e g Hg He) as [Hv Hf]. split; [|done].
  pose proof (fun mes => somme_jette mes e g fichiers Hg He) as Hj. fold (arbre g) in Hj.
  pose proof (fun mes => somme_partage mes e fichiers) as Hp.
  pose proof (fun mes => somme_partage mes (<[g := true]> e) fichiers) as Hp'.
  split; try lia.
  - by rewrite length_insert.
  - rewrite Hj. lia.
  - rewrite Hj. lia.
  - specialize (Hp un). specialize (Hp' un). rewrite Hj in Hp'. lia.
  - specialize (Hp octets). specialize (Hp' octets). rewrite Hj in Hp'. lia.
  - assert (forall h, est_ecarte (<[g := true]> e) h = bool_decide (h = g) || est_ecarte e h) as Hi.
    { intros h. unfold est_ecarte. case_bool_decide as Hx; [subst; by rewrite list_lookup_insert_eq|].
      by rewrite list_lookup_insert_ne. }
    intros g' h Hg' [Hh Hh']. rewrite Hi in Hg', Hh. apply orb_false_iff in Hh as [Hh1 Hh2].
    bool_prop. apply orb_true_iff in Hg' as [Hg'|Hg']; bool_prop.
    + subst g'. apply Hmax; [|done]. destruct (decide (h < length e)%nat); [done|].
      exfalso. apply Hh', arbre_epuise. lia.
    + apply T7; [done|]. by split.
Qed.

(** The files no tree contains. *)
Definition sans_arbre : list Fichier := List.filter (fun f => bool_decide (groupe f = None)) fichiers.

Lemma gardes_sans_arbre e :
  length e = groupes -> cherche limites fichiers e = None -> gardes e fichiers = sans_arbre.
Proof.
  intros Hl E. pose proof (cherche_spec e) as Hc. rewrite E in Hc. cbn [meilleur_ok] in Hc.
  unfold gardes, sans_arbre. apply List.filter_ext_in. intros f Hf. unfold garde_fichier.
  destruct (groupe f) as [g|] eqn:Eg; [|done]. cbn. apply negb_false_iff.
  rewrite Forall_forall in Hgroupes. apply list_elem_of_In in Hf as Hf'.
  specialize (Hgroupes f Hf' g Eg). destruct (est_ecarte e g) eqn:He; [done|]. exfalso.
  apply (Hc g); [lia|]. split; [done|]. intros Hx.
  assert (f ∈ arbre g) as Hin; [|rewrite Hx in Hin; by apply elem_of_nil in Hin].
  apply list_elem_of_In, List.filter_In. split; [done|]. by apply bool_decide_eq_true.
Qed.

(** What a verdict promises. *)
Definition promet (v : Verdict) (e : list bool) : Prop :=
  match v with
  | ToutTient => e = replicate groupes false /\ tient limites (somme un fichiers) (somme sec fichiers) = true
  | Ecarte arbres n o =>
      tient limites (somme un (gardes e fichiers)) (somme sec (gardes e fichiers)) = true /\
      tient limites (somme un fichiers) (somme sec fichiers) = false /\
      arbres = nb_vrais e /\ n = somme un (jetes e fichiers) /\ o = somme octets (jetes e fichiers) /\
      (forall g h, est_ecarte e g = true -> candidat e h -> somme sec (arbre h) <= somme sec (arbre g))
  | NeTientPas =>
      e = replicate groupes false /\
      tient limites (somme un sans_arbre) (somme sec sans_arbre) = false
  end.

Lemma boucle_spec fuel : forall e entrees total arbres n o,
  tour e entrees total arbres n o -> (nb_faux e < fuel)%nat ->
  tient limites entrees total = false ->
  tient limites (somme un fichiers) (somme sec fichiers) = false ->
  exists v e', boucle fuel limites fichiers e entrees total arbres n o = Some (v, e') /\
    length e' = groupes /\ promet v e'.
Proof.
  induction fuel as [|fuel IH]; intros e entrees total arbres n o T Hf Hn Hn0; [lia|]. cbn [boucle].
  destruct (cherche limites fichiers e) as [[[[g s] k] x]|] eqn:E.
  - destruct (tour_suivant _ _ _ _ _ _ _ _ _ _ T E) as [T' Hf'].
    destruct (tient limites (entrees - k) (total - s)) eqn:Et.
    + eexists _, _. split; [done|]. destruct T' as [T1 T2 T3 T4 T5 T6 T7]. split; [done|].
      cbn [promet]. rewrite <- T2, <- T3. split_and!; done.
    + apply IH; try done. lia.
  - eexists _, _. split; [done|]. destruct T as [T1 T2 T3 _ _ _ _]. split; [by rewrite length_replicate|].
    cbn [promet]. rewrite T1. split; [done|].
    rewrite <- (gardes_sans_arbre e T1 E), <- T2, <- T3. done.
Qed.

Lemma selection_spec :
  exists v e, selectionne fichiers limites groupes = Some (v, e) /\ length e = groupes /\ promet v e.
Proof.
  unfold selectionne.
  assert (forall fs a, fold_left (fun t f => t + secteurs (octets f) (taille_secteur limites)) fs a
    = a + somme sec fs) as Ht by (induction fs as [|f fs IHf]; intros a; cbn [fold_left somme]; [lia|rewrite IHf; lia]).
  assert (forall fs : list Fichier, Z.of_nat (length fs) = somme un fs) as Hu
    by (induction fs as [|f fs IHf]; cbn [length somme]; [done|]; rewrite Nat2Z.inj_succ, IHf; lia).
  rewrite Ht, Hu, Z.add_0_l. destruct (tient limites _ _) eqn:E.
  { eexists _, _. split; [done|]. rewrite length_replicate. by split_and!. }
  assert (forall g, est_ecarte (replicate groupes false) g = false) as Hz.
  { intros g. unfold est_ecarte. destruct (replicate groupes false !! g) eqn:Eg; [|done].
    by apply lookup_replicate in Eg as [-> _]. }
  assert (gardes (replicate groupes false) fichiers = fichiers) as Hga.
  { unfold gardes. apply forallb_filter_id, forallb_forall. intros f _. unfold garde_fichier.
    destruct (groupe f); [by rewrite Hz|done]. }
  pose proof (fun mes => somme_partage mes (replicate groupes false) fichiers) as Hp. rewrite Hga in Hp.
  apply boucle_spec; try done.
  - split; rewrite ?Hga; try done.
    + by rewrite length_replicate.
    + clear. unfold nb_vrais. induction groupes; cbn; done.
    + specialize (Hp un). lia.
    + specialize (Hp octets). lia.
    + intros g h Hg. by rewrite Hz in Hg.
  - clear. unfold nb_faux. induction groupes; cbn; lia.
Qed.

(** The selection of the caches to give up always ends with a verdict that is right:
    everything fits and nothing is given up; or trees are given up whole, the biggest first,
    files outside every tree never, and what stays fits, the counts reported being exact; or
    nothing is given up, because even without any cache the rest would not fit. *)
Theorem selection_correcte :
  exists v e, selectionne fichiers limites groupes = Some (v, e) /\ length e = groupes /\ promet v e.
Proof. exact selection_spec. Qed.
End Selection.

Lemma selection_correcte_witness : exists v e,
  selectionne [mk_fichier 100 None; mk_fichier 2000 (Some 0%nat); mk_fichier 3000 (Some 1%nat)]
    (mk_limites 10 6 512) 2 = Some (v, e) /\ v = Ecarte 1 1 3000 /\
  promet (mk_limites 10 6 512) [mk_fichier 100 None; mk_fichier 2000 (Some 0%nat); mk_fichier 3000 (Some 1%nat)] 2 v e.
Proof.
  destruct (selection_correcte (mk_limites 10 6 512)
    [mk_fichier 100 None; mk_fichier 2000 (Some 0%nat); mk_fichier 3000 (Some 1%nat)] 2)
    as (v & e & E & _ & H).
  - apply Forall_forall. intros f Hf g Hg. rewrite !elem_of_cons in Hf.
    destruct Hf as [->|[->|[->|Hf]]]; cbn in Hg; [discriminate Hg|injection Hg; lia..|].
    by apply elem_of_nil in Hf.
  - exists v, e. split; [exact E|]. split; [|exact H].
    vm_compute in E. injection E as <- _. reflexivity.
Defined.
End CacheJetable.
