(* ===== verification/EcritureDifferee.v ===== *)
(** The deferred write of the persistent tree: the policy of
    [src/fs/ecriture_differee_politique.rs] and the loop of the thread that applies it
    ([src/fs/ecriture_differee.rs]). Instants are milliseconds on 64 bits, generations count
    the changes noted by the file system. *)

From S2P Require Import Prelude.
From Stdlib Require Import Sorted.

Module EcritureDifferee.
Open Scope Z_scope.

Definition CALME_MS : Z := 1500.
Definition PLAFOND_MS : Z := 8000.
Definition ECHEC_MS : Z := 2000.
Definition ECHEC_MAX_MS : Z := 60000.
Definition PERIODE_MS : Z := 250.

Record Etat := mk_etat {
  ecrite : Z; vue : Z; vue_ms : Z; retard_depuis_ms : option Z; reprise_ms : Z; echec_ms : Z
}.
Definition neuf (generation : Z) : Etat := mk_etat generation generation 0 None 0 ECHEC_MS.

Definition saturating_sub (a b : Z) : Z := Z.max 0 (a - b).

Definition decide (e : Etat) (generation maintenant : Z) : Etat * bool :=
  if generation =? ecrite e then
    (mk_etat (ecrite e) generation (vue_ms e) None (reprise_ms e) (echec_ms e), false)
  else
    let nouvelle := negb (generation =? vue e) in
    let vm := if nouvelle then maintenant else vue_ms e in
    let depuis := default maintenant (retard_depuis_ms e) in
    let e := mk_etat (ecrite e) generation vm (Some depuis) (reprise_ms e) (echec_ms e) in
    (e, if maintenant <? reprise_ms e then false
        else (CALME_MS <=? saturating_sub maintenant vm) || (PLAFOND_MS <=? saturating_sub maintenant depuis)).

Definition reussie (e : Etat) (generation : Z) : Etat :=
  mk_etat generation (vue e) (vue_ms e)
    (if vue e =? generation then None else retard_depuis_ms e) 0 ECHEC_MS.

(** [None] is the overflow check. *)
Definition echouee (e : Etat) (maintenant : Z) : option Etat :=
  if u64_max <=? maintenant + echec_ms e then None
  else Some (mk_etat (ecrite e) (vue e) (vue_ms e) (retard_depuis_ms e)
               (maintenant + echec_ms e) (Z.min (echec_ms e * 2) ECHEC_MAX_MS)).

(** One turn of the thread: what it observes, and what the transaction answers if there is
    one. The boolean says whether there was one. *)
Record Tour := mk_tour { t_generation : Z; t_maintenant : Z; t_resultat : Z }.
Definition tour (e : Etat) (t : Tour) : option (Etat * bool) :=
  let '(e, b) := decide e (t_generation t) (t_maintenant t) in
  if negb b then Some (e, false)
  else if 0 <=? t_resultat t then Some (reussie e (t_generation t), true)
  else e ← echouee e (t_maintenant t); Some (e, true).

(** The turns of a run, with whether each made a transaction. *)
Fixpoint marche (e : Etat) (ts : list Tour) : option (Etat * list bool) :=
  match ts with
  | [] => Some (e, [])
  | t :: ts =>
      r ← tour e t; s ← marche r.1 ts; Some (s.1, r.2 :: s.2)
  end.
End EcritureDifferee.

(** The deferred write: a change waits a bounded time for its transaction, transactions keep
    their distance, and failures only slow the retries down to a bounded pace. *)

Module EcritureDiffereeProofs.
Import EcritureDifferee.
Open Scope Z_scope.

Definition avant (a b : Tour) : Prop := t_maintenant a <= t_maintenant b.
Definition chronologique (ts : list Tour) : Prop :=
  StronglySorted avant ts /\ Forall (fun t => 0 <= t_maintenant t) ts.

(** ** The invariant of the policy *)

(** [t] is the instant of the last turn. *)
Record borne (e : Etat) (t : Z) : Prop := {
  bo_vue : 0 <= vue_ms e <= t;
  bo_retard : forall d, retard_depuis_ms e = Some d -> 0 <= d <= t;
  bo_echec : ECHEC_MS <= echec_ms e <= ECHEC_MAX_MS;
  bo_reprise : 0 <= reprise_ms e <= t + ECHEC_MAX_MS
}.

(** [t] is the instant of the last transaction: until the pause is over or a new change was
    seen after [t], nothing can be written. *)
Definition repos (e : Etat) (t : Z) : Prop :=
  t + ECHEC_MS <= reprise_ms e \/
  (vue e = ecrite e /\ retard_depuis_ms e = None) \/
  (t <= vue_ms e /\ exists d, retard_depuis_ms e = Some d /\ t <= d).

Lemma borne_neuf g : borne (neuf g) 0.
Proof. split; cbn; unfold ECHEC_MS, ECHEC_MAX_MS; [lia|done|lia|lia]. Qed.

Lemma decide_borne e t g m e' b :
  borne e t -> t <= m -> decide e g m = (e', b) -> borne e' m.
Proof.
  intros [H1 H2 H3 H4] Ht E. unfold decide in E. destruct (g =? ecrite e); simplify_eq/=.
  { split; cbn; [lia|done|lia|lia]. }
  split; cbn; [destruct (negb _); lia| |lia|lia]. intros d [= <-].
  destruct (retard_depuis_ms e) as [d|] eqn:E; cbn; [|lia]. specialize (H2 d eq_refl). lia.
Qed.

Lemma tour_borne e t x e' b : borne e t -> t <= t_maintenant x -> tour e x = Some (e', b) -> borne e' (t_maintenant x).
Proof.
  intros H Ht E. unfold tour in E. destruct (decide e _ _) as [e1 d] eqn:Ed.
  apply (decide_borne _ _ _ _ _ _ H Ht) in Ed as [H1 H2 H3 H4]. unfold ECHEC_MS, ECHEC_MAX_MS in *.
  destruct d; cbn [negb] in E; [|by simplify_eq; split].
  destruct (0 <=? t_resultat x); simplify_eq/=.
  { split; cbn; unfold ECHEC_MS, ECHEC_MAX_MS; [lia| |lia|lia]. intros d. destruct (vue e1 =? _); [done|eauto]. }
  unfold echouee in E. destruct (_ <=? _); simplify_eq/=. split; cbn; unfold ECHEC_MS, ECHEC_MAX_MS in *; [lia|done|lia|lia].
Qed.

Lemma marche_borne ts : forall e t e' bs,
  borne e t -> Forall (fun x => t <= t_maintenant x) ts -> StronglySorted avant ts ->
  marche e ts = Some (e', bs) -> borne e' (from_option t_maintenant t (last ts)) /\ length bs = length ts.
Proof.
  induction ts as [|x ts IH]; intros e t e' bs H Hf Hs E; cbn [marche] in E; [by simplify_eq|].
  apply Forall_cons in Hf as [Hx Hf]. apply StronglySorted_inv in Hs as [Hs Hx'].
  destruct (tour e x) as [[e1 b]|] eqn:E1; cbn in E; [|done].
  destruct (marche e1 ts) as [[e2 bs2]|] eqn:E2; cbn in E; simplify_eq.
  pose proof (tour_borne _ _ _ _ _ H Hx E1) as H1.
  destruct (IH _ _ _ _ H1 Hx' Hs E2) as [H2 Hl]. split; [|cbn; lia].
  rewrite last_cons. by destruct (last ts).
Qed.

(** ** No change waits for ever *)

Lemma tour_false e x e' : tour e x = Some (e', false) -> decide e (t_generation x) (t_maintenant x) = (e', false).
Proof.
  unfold tour. destruct (decide e _ _) as [e1 []]; cbn; [|by intros [= ->]].
  destruct (0 <=? t_resultat x); [done|]. by destruct (echouee _ _).
Qed.

(** While the generation seen is not on the disk, a turn without transaction is inside a
    pause or within the two delays. *)
Lemma tour_sans e x e' :
  tour e x = Some (e', false) -> t_generation x <> ecrite e ->
  ecrite e' = ecrite e /\ reprise_ms e' = reprise_ms e /\
  retard_depuis_ms e' = Some (default (t_maintenant x) (retard_depuis_ms e)) /\
  (t_maintenant x < reprise_ms e \/ t_maintenant x < default (t_maintenant x) (retard_depuis_ms e) + PLAFOND_MS).
Proof.
  intros E%tour_false Hg. unfold decide in E. destruct (Z.eqb_spec (t_generation x) (ecrite e)); [done|].
  injection E as <- E. cbn in *. split_and!; [done..|].
  destruct (Z.ltb_spec (t_maintenant x) (reprise_ms e)); [by left|].
  apply orb_false_iff in E as [_ E]. apply Z.leb_gt in E. unfold saturating_sub in E. right. lia.
Qed.

Lemma marche_sans ts : forall e e' bs d x,
  marche e ts = Some (e', bs) -> Forall (fun b => b = false) bs ->
  Forall (fun x => t_generation x <> ecrite e) ts -> retard_depuis_ms e = Some d -> x ∈ ts ->
  t_maintenant x < reprise_ms e \/ t_maintenant x < d + PLAFOND_MS.
Proof.
  induction ts as [|y ts IH]; intros e e' bs d x E Hb Hg Hd Hx; [by apply elem_of_nil in Hx|].
  cbn [marche] in E. destruct (tour e y) as [[e1 b]|] eqn:E1; cbn in E; [|done].
  destruct (marche e1 ts) as [[e2 bs2]|] eqn:E2; cbn in E; simplify_eq.
  apply Forall_cons in Hb as [Hb0 Hb]. apply Forall_cons in Hg as [Hy Hg]. cbn in Hb0. subst b.
  destruct (tour_sans _ _ _ E1 Hy) as (Ee & Er & Ed & Hw). rewrite Hd in *. cbn in *.
  apply elem_of_cons in Hx as [->|Hx]; [done|]. rewrite <-Er. rewrite <-Ee in Hg. by eapply IH.
Qed.

(** No change waits for ever. Along any run of the thread, as long as the generation it
    observes is not the one on the disk, the turns without a transaction span less than a
    minute, and less than eight seconds once no pause after a failure is running. *)
Theorem attente_bornee g ts0 e bs0 a ts e' bs z :
  marche (neuf g) ts0 = Some (e, bs0) -> marche e (a :: ts) = Some (e', bs) ->
  chronologique (ts0 ++ a :: ts) -> Forall (fun x => t_generation x <> ecrite e) (a :: ts) ->
  Forall (fun b => b = false) bs -> z ∈ a :: ts ->
  t_maintenant z < t_maintenant a + ECHEC_MAX_MS /\
  (reprise_ms e <= t_maintenant a -> t_maintenant z < t_maintenant a + PLAFOND_MS).
Proof.
  intros E0 E [Hs Hp] Hg Hb Hz. apply Forall_app in Hp as [Hp0 Hp].
  assert (StronglySorted avant ts0 /\ StronglySorted avant (a :: ts) /\
    Forall (fun x => t_maintenant x <= t_maintenant a) ts0) as (Hs0 & Hs1 & Ha).
  { clear -Hs. induction ts0 as [|x ts0 IH]; cbn in Hs; [by split_and!; [constructor|done|constructor]|].
    apply StronglySorted_inv in Hs as [Hs Hx]. destruct (IH Hs) as (H1 & H2 & H3). apply Forall_app in Hx as [Hx1 Hx2].
    split_and!; [by constructor|done|]. apply Forall_cons in Hx2 as [Hx2 _]. by constructor. }
  assert (borne e (t_maintenant a)) as B.
  { destruct (marche_borne ts0 (neuf g) 0 e bs0 (borne_neuf g)) as [[H1 H2 H3 H4] _]; [|done|done|].
    { eapply Forall_impl; [exact Hp0|]. done. }
    assert (from_option t_maintenant 0 (last ts0) <= t_maintenant a) as Hl.
    { destruct (last ts0) as [x|] eqn:El; cbn; [|by apply Forall_cons in Hp as [? _]].
      apply last_Some in El as [l' ->]. apply Forall_app in Ha as [_ Ha]. by apply Forall_cons in Ha as [? _]. }
    split; [lia| |lia|lia]. intros d Hd. specialize (H2 d Hd). lia. }
  cbn [marche] in E. destruct (tour e a) as [[e1 b]|] eqn:E1; cbn in E; [|done].
  destruct (marche e1 ts) as [[e2 bs2]|] eqn:E2; cbn in E; simplify_eq.
  apply Forall_cons in Hb as [Hb0 Hb]. apply Forall_cons in Hg as [Hga Hg]. cbn in Hb0. subst b.
  destruct (tour_sans _ _ _ E1 Hga) as (Ee & Er & Ed & _).
  assert (t_maintenant z < reprise_ms e \/ t_maintenant z < t_maintenant a + PLAFOND_MS) as Hw.
  { set (d := default (t_maintenant a) (retard_depuis_ms e)) in *.
    assert (d <= t_maintenant a).
    { subst d. destruct (retard_depuis_ms e) as [d|] eqn:Er'; cbn; [|lia]. by apply (bo_retard _ _ B). }
    apply elem_of_cons in Hz as [->|Hz]; [right; unfold PLAFOND_MS; lia|].
    rewrite <-Ee in Hg. destruct (marche_sans _ _ _ _ _ _ E2 Hb Hg Ed Hz) as [?|?]; [left; congruence|right; lia]. }
  pose proof (bo_reprise _ _ B). unfold ECHEC_MAX_MS, PLAFOND_MS in *. split; lia.
Qed.
Lemma attente_bornee_witness :
  marche (neuf 0) [mk_tour 1 1000 0; mk_tour 1 1250 0] = Some (mk_etat 0 1 1000 (Some 1000) 0 ECHEC_MS, [false; false]) /\
  1250 < 1000 + PLAFOND_MS.
Proof.
  split; [reflexivity|].
  assert (chronologique ([] ++ [mk_tour 1 1000 0; mk_tour 1 1250 0])) as C.
  { split; repeat constructor; cbn; try lia. unfold avant. cbn. lia. }
  destruct (attente_bornee 0 [] (neuf 0) [] (mk_tour 1 1000 0) [mk_tour 1 1250 0]
    (mk_etat 0 1 1000 (Some 1000) 0 ECHEC_MS) [false; false] (mk_tour 1 1250 0)) as [_ H].
  - reflexivity.
  - reflexivity.
  - exact C.
  - repeat constructor; cbn; lia.
  - repeat constructor.
  - right. left.
  - apply H. cbn. lia.
Defined.

(** ** Transactions keep their distance *)

Lemma decide_repos e t g m e' b :
  repos e t -> t <= m -> decide e g m = (e', b) ->
  repos e' t /\ (b = true -> t + CALME_MS <= m).
Proof.
  intros H Ht E. unfold decide, repos, saturating_sub, CALME_MS, PLAFOND_MS, ECHEC_MS in *.
  destruct (Z.eqb_spec g (ecrite e)) as [->|Hg].
  { injection E as <- <-. cbn. split; [|done]. destruct H as [?|[[??]|[??]]]; [by left|right; left; done..]. }
  injection E as <- Eb. cbn.
  destruct H as [H|[[Hv Hr]|(Hv & d & Hr & Hd)]].
  - split; [by left|]. intros ->. destruct (Z.ltb_spec m (reprise_ms e)); [done|lia].
  - rewrite Hr in *. cbn in *. destruct (Z.eqb_spec g (vue e)); [congruence|]. cbn [negb] in *. split.
    + right. right. split; [done|]. by exists m.
    + intros ->. destruct (m <? reprise_ms e); [done|].
      apply orb_true_iff in Eb as [Eb|Eb]; apply Z.leb_le in Eb; lia.
  - rewrite Hr in *. cbn in *. split.
    + right. right. split; [destruct (negb _); lia|]. by exists d.
    + intros ->. destruct (m <? reprise_ms e); [done|].
      apply orb_true_iff in Eb as [Eb|Eb]; apply Z.leb_le in Eb; [destruct (negb _)|]; lia.
Qed.

Lemma tour_repos e t t0 x e' b :
  borne e t0 -> repos e t -> t0 <= t_maintenant x -> t <= t_maintenant x -> tour e x = Some (e', b) ->
  if b then t + CALME_MS <= t_maintenant x /\ repos e' (t_maintenant x) else repos e' t.
Proof.
  intros B H Ht0 Ht E. unfold tour in E. destruct (decide e _ _) as [e1 d] eqn:Ed.
  pose proof (decide_borne _ _ _ _ _ _ B Ht0 Ed) as B1.
  assert (vue e1 = t_generation x) as Hv.
  { unfold decide in Ed. by destruct (_ =? ecrite e); injection Ed as <- _. }
  apply (decide_repos _ _ _ _ _ _ H Ht) in Ed as [H1 Hd]. destruct d; cbn [negb] in E; [|by simplify_eq].
  destruct (0 <=? t_resultat x); [injection E as <- <-|].
  - split; [auto|]. right. left. unfold reussie. cbn. by rewrite Hv, Z.eqb_refl.
  - unfold echouee in E. destruct (_ <=? _); [done|]. injection E as <- <-. split; [auto|]. left. cbn.
    pose proof (bo_echec _ _ B1). lia.
Qed.

(** The instants of the transactions of a run. *)
Fixpoint instants (ts : list Tour) (bs : list bool) : list Z :=
  match ts, bs with
  | x :: ts, true :: bs => t_maintenant x :: instants ts bs
  | _ :: ts, false :: bs => instants ts bs
  | _, _ => []
  end.
Definition espaces (a b : Z) : Prop := a + CALME_MS <= b.

Lemma marche_cadence ts : forall e t t0 e' bs,
  borne e t0 -> repos e t -> Forall (fun x => t0 <= t_maintenant x) ts ->
  Forall (fun x => t <= t_maintenant x) ts -> StronglySorted avant ts ->
  marche e ts = Some (e', bs) -> Forall (espaces t) (instants ts bs) /\ StronglySorted espaces (instants ts bs).
Proof.
  induction ts as [|x ts IH]; intros e t t0 e' bs B H Hf0 Hf Hs E; cbn [marche] in E.
  { simplify_eq. split; constructor. }
  apply Forall_cons in Hf0 as [Hx0 Hf0]. apply Forall_cons in Hf as [Hx Hf].
  apply StronglySorted_inv in Hs as [Hs Hx'].
  destruct (tour e x) as [[e1 b]|] eqn:E1; cbn in E; [|done].
  destruct (marche e1 ts) as [[e2 bs2]|] eqn:E2; cbn in E; simplify_eq.
  pose proof (tour_borne _ _ _ _ _ B Hx0 E1) as B1.
  pose proof (tour_repos _ _ _ _ _ _ B H Hx0 Hx E1) as H1. destruct b; cbn [instants].
  - destruct H1 as [Hd H1]. destruct (IH _ _ _ _ _ B1 H1 Hx' Hx' Hs E2) as [I1 I2]. split; [|by constructor].
    constructor; [done|]. eapply Forall_impl; [exact I1|]. unfold espaces, CALME_MS in *. intros; lia.
  - by apply (IH _ _ _ _ _ B1 H1 Hx' Hf Hs E2).
Qed.

(** The disk is not worn out: two transactions of the thread are at least a second and a
    half apart, whatever the changes and whatever the failures. *)
Theorem cadence_bornee g ts e bs :
  marche (neuf g) ts = Some (e, bs) -> chronologique ts -> StronglySorted espaces (instants ts bs).
Proof.
  intros E [Hs Hp]. apply (marche_cadence ts (neuf g) 0 0 e bs); try done. by right; left.
Qed.

Lemma cadence_bornee_witness :
  instants [mk_tour 1 1000 0; mk_tour 1 2500 (-1); mk_tour 1 4500 0] [false; true; true] = [2500; 4500] /\
  StronglySorted espaces [2500; 4500].
Proof.
  split; [reflexivity|].
  assert (chronologique [mk_tour 1 1000 0; mk_tour 1 2500 (-1); mk_tour 1 4500 0]) as C.
  { split; repeat constructor; cbn; unfold avant; cbn; lia. }
  destruct (marche (neuf 0) [mk_tour 1 1000 0; mk_tour 1 2500 (-1); mk_tour 1 4500 0]) as [[e bs]|] eqn:E;
    [|discriminate E].
  pose proof (cadence_bornee 0 _ e bs E C) as H. vm_compute in E. injection E as _ <-. exact H.
Defined.

(** No turn overflows while the clock is below half its range. *)
Lemma marche_totale ts : forall e t,
  borne e t -> Forall (fun x => t <= t_maintenant x < 2 ^ 63) ts -> StronglySorted avant ts ->
  exists e' bs, marche e ts = Some (e', bs).
Proof.
  induction ts as [|x ts IH]; intros e t B Hf Hs; [by eexists _, _|]. cbn [marche].
  apply Forall_cons in Hf as [Hx Hf]. apply StronglySorted_inv in Hs as [Hs Hx'].
  assert (exists e1 b, tour e x = Some (e1, b)) as (e1 & b & E1).
  { unfold tour. destruct (decide e _ _) as [e1 d] eqn:Ed.
    apply (decide_borne _ _ _ _ _ _ B (proj1 Hx)) in Ed. destruct d; cbn [negb]; [|eauto].
    destruct (0 <=? t_resultat x); [eauto|]. unfold echouee.
    pose proof (bo_echec _ _ Ed). unfold ECHEC_MAX_MS, u64_max in *. destruct (Z.leb_spec (2 ^ 64) (t_maintenant x + echec_ms e1)); [lia|].
    cbn. eauto. }
  rewrite E1. cbn. pose proof (tour_borne _ _ _ _ _ B (proj1 Hx) E1) as B1.
  destruct (IH e1 (t_maintenant x) B1) as (e2 & bs2 & ->); [|done|cbn; eauto].
  rewrite Forall_forall in *. intros y Hy. specialize (Hf y Hy). specialize (Hx' y Hy). unfold avant in Hx'. lia.
Qed.
End EcritureDiffereeProofs.
