(* ===== verification/Collecte.v ===== *)
(** Between the RAM file system and the persistent zone: the collection of the tree under
    /persist into a snapshot ([src/fs/persistance/collecte.rs], [snapshot.rs], [sync.rs]) and
    the deposit of what the zone holds into it at the mount ([montage.rs]). *)

From S2P Require Import Prelude Ramfs Bloc Persistance CacheJetable.
From stdpp Require Import strings.

Module Collecte.
Import Ramfs.
Import Persistance(ENTREES_MAX, SECTEURS_DEMI, SECTEURS_TABLE, CHEMIN_MAX, SECTOR_SIZE,
  Meta, mk_meta, dossier, SnapshotEntree, Restaure, RDossier, RFichier, L).
Import CacheJetable(NOM_ETIQUETTE, est_etiquette, Limites, mk_limites, mk_fichier, selectionne, ToutTient, Ecarte, NeTientPas, est_ecarte).
Open Scope Z_scope.
Open Scope os_scope.

Definition RACINE : list Z := octets "/persist".

(** ** The collection *)

Record Entree := mk_entree {
  e_chemin : list Z; e_noeud : nat; e_longueur : nat; e_meta : Meta; e_groupe : option nat
}.

Definition porte_une_etiquette (l : list Node) (dossier : nat) : bool :=
  match find_child l dossier NOM_ETIQUETTE with
  | Some index =>
      match l !! index with
      | Some n => negb (est_dir (kind n)) && est_etiquette (name n) (content n)
      | None => false
      end
  | None => false
  end.

Definition est_enfant_de (l : list Node) (dossier index : nat) : bool :=
  match l !! index with
  | Some n => used n && (parent n =? dossier)%nat && negb (index =? dossier)%nat
  | None => false
  end.
Definition enfants (l : list Node) (dossier : nat) : list nat :=
  List.filter (est_enfant_de l dossier) (seq 0 (length l)).

Definition chemin_enfant (prefixe nom : list Z) : list Z :=
  if (length prefixe =? 0)%nat then nom else prefixe ++ [SLASH] ++ nom.
Definition meta_de (n : Node) : Meta := mk_meta (est_dir (kind n)) (mode n) (uid n) (gid n).
(** The group of a directory and the next number to give. *)
Definition groupe_dossier (l : list Node) (index : nat) (groupe : option nat) (groupes : nat)
  : option nat * nat :=
  match groupe with
  | Some g => (Some g, groupes)
  | None => if porte_une_etiquette l index then (Some groupes, S groupes) else (None, groupes)
  end.

Section Enfants.
(** The recursive call: the entries pushed, and the number of groups after. *)
Context (collecte : nat -> list Z -> option nat -> nat -> option (list Entree * nat)).
Context (l : list Node) (prefixe : list Z) (groupe : option nat).

Definition collecte_enfant (index : nat) (n : Node) (groupes : nat) : option (list Entree * nat) :=
  let chemin := chemin_enfant prefixe (name n) in
  match kind n with
  | Dir =>
      let '(g, groupes) := groupe_dossier l index groupe groupes in
      s ← collecte index chemin g groupes;
      Some ((if (length chemin <? CHEMIN_MAX)%nat
             then [mk_entree chemin index 0 (meta_de n) g] else []) ++ s.1, s.2)
  | File =>
      Some (if (CHEMIN_MAX <=? length chemin)%nat then []
            else [mk_entree chemin index (length (content n)) (meta_de n) groupe], groupes)
  end.
Fixpoint collecte_enfants (indices : list nat) (groupes : nat) : option (list Entree * nat) :=
  match indices with
  | [] => Some ([], groupes)
  | index :: indices =>
      n ← l !! index;
      r ← collecte_enfant index n groupes;
      s ← collecte_enfants indices r.2;
      Some (r.1 ++ s.1, s.2)
  end.
End Enfants.

(** The recursion of the source has no bound; out of fuel stands for one that does not end. *)
Fixpoint collecte_sous_garde (fuel : nat) (l : list Node) (dossier : nat) (prefixe : list Z)
  (groupe : option nat) (groupes : nat) : option (list Entree * nat) :=
  match fuel with
  | O => None
  | S fuel => collecte_enfants (collecte_sous_garde fuel l) l prefixe groupe (enfants l dossier) groupes
  end.

Definition rassemble_sous (l : list Node) : option (list Entree) :=
  match resolve l RACINE 0 with
  | None => Some []
  | Some racine => fst <$> collecte_sous_garde MAX_NODES l racine [] None 0
  end.

(** ** The snapshot *)

Definition LIMITES_ZONE : Limites :=
  mk_limites (Z.of_nat ENTREES_MAX) (SECTEURS_DEMI - SECTEURS_TABLE) SECTOR_SIZE.
Definition nombre_groupes (es : list Entree) : nat :=
  fold_right (fun e m => match e_groupe e with Some g => Nat.max (S g) m | None => m end) 0%nat es.
Definition retenue (ecartes : list bool) (e : Entree) : bool :=
  match e_groupe e with Some g => negb (est_ecarte ecartes g) | None => true end.

Definition ecarte_les_caches_qui_debordent (es : list Entree) (zone : bool) : option (list Entree) :=
  if negb zone then Some es
  else
    r ← selectionne ((fun e => mk_fichier (Z.of_nat (e_longueur e)) (e_groupe e)) <$> es)
          LIMITES_ZONE (nombre_groupes es);
    match r with
    | (ToutTient, _) | (NeTientPas, _) => Some es
    | (Ecarte _ _ _, ecartes) => Some (List.filter (retenue ecartes) es)
    end.

(** [content[..longueur]] is checked. *)
Definition copie (l : list Node) (e : Entree) : option SnapshotEntree :=
  n ← l !! e_noeud e;
  if (length (content n) <? e_longueur e)%nat then None
  else Some (Persistance.mk_entree (e_chemin e) (take (e_longueur e) (content n)) (e_meta e)).
Definition rassemble_snapshot (l : list Node) (zone : bool) : option (list SnapshotEntree) :=
  es ← rassemble_sous l;
  retenues ← ecarte_les_caches_qui_debordent es zone;
  mapM (copie l) retenues.

(** The transaction: the file system is read under one lock, the zone written after. *)
Definition synchronise (l : list Node) : L Z :=
  b <- Persistance.debut ;;
  match rassemble_snapshot l (match b with Some _ => true | None => false end) with
  | None => echoue Bloc.Panique
  | Some s => Persistance.synchronise_snapshot s
  end.

(** ** The deposit *)

Section Depot.
Context (env : Env).

(** [chemin.split('/').filter(|m| !m.is_empty())] *)
Definition morceaux_non_vides (chemin : list Z) : list (list Z) :=
  List.filter (fun m => negb (length m =? 0)%nat) (decoupe chemin).

Fixpoint depose_boucle (parent : nat) (ms : list (list Z)) (contenu : list Z) : F (option nat) :=
  match ms with
  | [] => rend None
  | [morceau] =>
      l <- lis nodes ;;
      r <- match find_child l parent morceau with
           | Some i => rend (Some i)
           | None => r <- touch_at env parent morceau ;;
                     rend (match r with inl i => Some i | inr _ => None end)
           end ;;
      match r with
      | None => rend None
      | Some noeud =>
          ok <- write_node_bytes env noeud contenu ;;
          rend (if (ok : bool) then Some noeud else None)
      end
  | morceau :: ms =>
      l <- lis nodes ;;
      r <- match find_child l parent morceau with
           | Some i => rend (Some i)
           | None => r <- mkdir_at env parent morceau ;;
                     rend (match r with inl i => Some i | inr _ => None end)
           end ;;
      match r with
      | None => rend None
      | Some parent => depose_boucle parent ms contenu
      end
  end.
Definition depose_noeud_sous_garde (racine : nat) (chemin contenu : list Z) : F (option nat) :=
  depose_boucle racine (morceaux_non_vides chemin) contenu.

Fixpoint dossier_boucle (parent : nat) (ms : list (list Z)) : F (option nat) :=
  match ms with
  | [] => rend (Some parent)
  | morceau :: ms =>
      l <- lis nodes ;;
      r <- match find_child l parent morceau with
           | Some i => n <- noeud i ;; rend (if est_dir (kind n) then Some i else None)
           | None => r <- mkdir_at env parent morceau ;;
                     rend (match r with inl i => Some i | inr _ => None end)
           end ;;
      match r with
      | None => rend None
      | Some parent => dossier_boucle parent ms
      end
  end.
Definition dossier_sous_garde (racine : nat) (chemin : list Z) : F (option nat) :=
  r <- dossier_boucle racine (morceaux_non_vides chemin) ;;
  rend (match r with Some i => if (i =? racine)%nat then None else Some i | None => None end).

(** One entry of the zone; the answer counts it. *)
Definition restaure_entree (racine : nat) (r : Restaure) : F Z :=
  let '(depot, meta) :=
    match r with
    | RDossier chemin m => (dossier_sous_garde racine chemin, Some m)
    | RFichier chemin contenu m => (depose_noeud_sous_garde racine chemin contenu, m)
    end in
  noeud <- depot ;;
  match noeud with
  | None => rend 0
  | Some idx =>
      match meta with
      | Some m => modifie idx (avec_droits (Persistance.mode m) (Persistance.uid m) (Persistance.gid m))
      | None => rend tt
      end ;;;
      rend 1
  end.
Fixpoint restaure_entrees (racine : nat) (rs : list Restaure) (restaures : Z) : F Z :=
  match rs with
  | [] => rend restaures
  | r :: rs => k <- restaure_entree racine r ;; restaure_entrees racine rs (restaures + k)
  end.

(** ** The mount *)

(** The file system, the zone and the generation the deferred write starts from. *)
Record Systeme := mk_systeme { monde : Monde; zone : Persistance.Etat; au_montage : Z }.
Definition Sy : Type -> Type := M Systeme (unit + Bloc.Arret).
Definition sur_fs {A} (c : F A) : Sy A := fun s =>
  match c (monde s) with
  | (w, inl x) => (mk_systeme w (zone s) (au_montage s), inl x)
  | (w, inr e) => (mk_systeme w (zone s) (au_montage s), inr (inl e))
  end.
Definition sur_zone {A} (c : L A) : Sy A := fun s =>
  match c (zone s) with
  | (z, inl x) => (mk_systeme (monde s) z (au_montage s), inl x)
  | (z, inr e) => (mk_systeme (monde s) z (au_montage s), inr (inr e))
  end.
Definition note_fin_montage : Sy unit :=
  change (fun s => mk_systeme (monde s) (zone s) (modifications (monde s))).

(** The entries are read from the zone one by one and deposited as they are read; the two
    states are apart, so the reading is put first. [lit_zone] starts with what the mount does
    before it knows the zone, which changes nothing the second time. *)
Definition monte : Sy Z :=
  sur_zone Persistance.oublie_le_disque ;;;
  l <- sur_fs (lis nodes) ;;
  r <- match resolve l RACINE 0 with
       | Some idx => rend (Some idx)
       | None => r <- sur_fs (mkdir_at env 0 (octets "persist")) ;;
                 rend (match r with inl i => Some i | inr _ => None end)
       end ;;
  match r with
  | None => rend 0
  | Some racine =>
      b <- sur_zone Persistance.debut ;;
      match b with
      | None => rend 0
      | Some _ =>
          sur_fs (change (note_racine_persistante racine)) ;;;
          note_fin_montage ;;;
          rs <- sur_zone Persistance.lit_zone ;;
          restaures <- sur_fs (restaure_entrees racine rs 0) ;;
          note_fin_montage ;;;
          rend restaures
      end
  end.
End Depot.
End Collecte.
