(* ===== verification/CollecteProofs.v ===== *)
(** The collection: the entries are exactly the nodes below the root whose path fits, parents
    before children, and a tree given up is given up whole. *)

From S2P Require Import Prelude Ramfs RamfsProofs RamfsOps RamfsChemins Bloc Persistance CacheJetable Collecte.
From stdpp Require Import strings.

Module CollecteProofs.
Import Ramfs RamfsProofs RamfsArbre RamfsOps RamfsChemins Collecte.
Import Persistance(CHEMIN_MAX).
Open Scope Z_scope.
Open Scope os_scope.

(** ** Relative paths as texts *)

Definition texte (cs : chemin) : list Z := drop 1 (imprime cs).

Lemma texte_cons c cs : texte (c :: cs) = c ++ imprime cs.
Proof. done. Qed.

Lemma texte_vide cs : Forall composant cs -> texte cs = [] -> cs = [].
Proof.
  intros Hc E. destruct cs as [|c cs]; [done|]. apply Forall_cons in Hc as [[H _] _].
  rewrite texte_cons in E. apply app_eq_nil in E as [-> _]. done.
Qed.

Lemma texte_snoc cs x : Forall composant cs -> chemin_enfant (texte cs) x = texte (cs ++ [x]).
Proof.
  intros Hc. unfold chemin_enfant. destruct (Nat.eqb_spec (length (texte cs)) 0) as [E|E].
  - apply nil_length_inv, texte_vide in E as ->; [|done]. unfold texte. cbn. by rewrite app_nil_r.
  - destruct cs as [|c cs]; [done|]. cbn [app]. rewrite !texte_cons, imprime_app, imprime_un.
    by rewrite <-app_assoc.
Qed.

Lemma texte_longueur cs ds : (length (texte cs) <= length (texte (cs ++ ds)))%nat.
Proof.
  unfold texte. rewrite imprime_app, !length_drop, length_app. lia.
Qed.

Lemma filtre_composants cs :
  Forall composant cs -> List.filter (fun m => negb (length m =? 0)%nat) cs = cs.
Proof.
  intros H. apply forallb_filter_id, forallb_forall. intros m Hm%list_elem_of_In.
  rewrite Forall_forall in H. destruct (H m Hm) as [Hne _]. by destruct m.
Qed.
Lemma morceaux_texte cs : Forall composant cs -> morceaux_non_vides (texte cs) = cs.
Proof.
  intros Hc. unfold morceaux_non_vides. destruct cs as [|c cs]; [done|].
  destruct (decoupe_imprime (c :: cs)) as [E|[E _]]; [by apply composant_sans| |done].
  change (imprime (c :: cs)) with (SLASH :: texte (c :: cs)) in E.
  change (decoupe (SLASH :: texte (c :: cs))) with ([] :: decoupe (texte (c :: cs))) in E.
  injection E as ->. by apply filtre_composants.
Qed.

(** ** What an entry says of a node *)

Definition decrit (cs : chemin) (j : nat) (n : Node) (e : Entree) : Prop :=
  e_chemin e = texte cs /\ e_noeud e = j /\ e_meta e = meta_de n /\
  e_longueur e = (if est_dir (kind n) then 0%nat else length (content n)) /\
  (length (texte cs) < CHEMIN_MAX)%nat.

(** Parents come before their children, and belong to no tree or to the same one; [K] holds
    the directories already seen with their tree. *)
Inductive bien_range : list (chemin * option nat) -> list Entree -> Prop :=
| br_vide K : bien_range K []
| br_entree K cs x g e es :
    (cs, g) ∈ K -> composant x -> e_chemin e = texte (cs ++ [x]) -> (g = None \/ e_groupe e = g) ->
    bien_range (if Persistance.dossier (e_meta e) then (cs ++ [x], e_groupe e) :: K else K) es ->
    bien_range K (e :: es).

Lemma bien_range_plus K K' es : (forall x, x ∈ K -> x ∈ K') -> bien_range K es -> bien_range K' es.
Proof.
  intros H Hb. revert K' H. induction Hb as [|K cs x g e es Hk Hx Hc Hg _ IH]; intros K' H; [constructor|].
  apply (br_entree K' cs x g); [auto|done..|]. apply IH. destruct (Persistance.dossier _); [|done].
  intros y. rewrite !elem_of_cons. intros [->|Hy]; [by left|right; auto].
Qed.
Lemma bien_range_app K es fs : bien_range K es -> bien_range K fs -> bien_range K (es ++ fs).
Proof.
  intros He Hf. revert Hf. induction He as [|K cs x g e es Hk Hx Hc Hg _ IH]; intros Hf; [done|]. cbn.
  apply (br_entree K cs x g); [done..|]. apply IH. eapply bien_range_plus; [|exact Hf].
  destruct (Persistance.dossier _); [|done]. intros y Hy. apply elem_of_cons. by right.
Qed.

Section Collecte.
Context (l : list Node) (A : arbre_ok l) (pp : chemin).

(** The entries are those of the nodes below [pp ++ qs] by a path that satisfies [P]. *)
Definition exacte (qs : chemin) (P : chemin -> Prop) (es : list Entree) : Prop :=
  (forall e, e ∈ es -> exists q j n, P q /\ nomme l (pp ++ qs ++ q) j /\ vivant l j n /\ decrit (qs ++ q) j n e) /\
  (forall q j n, P q -> nomme l (pp ++ qs ++ q) j -> vivant l j n -> (length (texte (qs ++ q)) < CHEMIN_MAX)%nat ->
    exists e, e ∈ es /\ decrit (qs ++ q) j n e).

Lemma exacte_app qs P Q es fs :
  exacte qs P es -> exacte qs Q fs -> exacte qs (fun q => P q \/ Q q) (es ++ fs).
Proof.
  intros [E1 E2] [F1 F2]. split.
  - intros e [He|He]%elem_of_app; [apply E1 in He|apply F1 in He]; naive_solver.
  - intros q j n [Hq|Hq] H V Hl.
    + destruct (E2 q j n Hq H V Hl) as (e & He & ?). exists e. rewrite elem_of_app. auto.
    + destruct (F2 q j n Hq H V Hl) as (e & He & ?). exists e. rewrite elem_of_app. auto.
Qed.
Lemma exacte_ext qs P Q es : (forall q, P q <-> Q q) -> exacte qs P es -> exacte qs Q es.
Proof. intros H [E1 E2]. split; [intros e He; destruct (E1 e He) as (q & j & n & Hq & ?); exists q, j, n; by rewrite <-H|].
  intros q j n Hq. apply E2. by apply H. Qed.

(** The paths below a child are the paths of its own collection. *)
Lemma exacte_enfant qs x P es :
  exacte (qs ++ [x]) P es -> exacte qs (fun q => exists q', q = x :: q' /\ P q') es.
Proof.
  intros [E1 E2]. split.
  - intros e He. destruct (E1 e He) as (q & j & n & Hq & H & V & D). exists (x :: q), j, n.
    rewrite <-!app_assoc in H, D. split_and!; [by exists q|done..].
  - intros q j n (q' & -> & Hq) H V Hl. destruct (E2 q' j n Hq) as (e & He & D); rewrite <-?app_assoc; [done..|].
    exists e. rewrite <-!app_assoc in D. done.
Qed.

(** Nothing is collected below a path that does not fit. *)
Lemma exacte_longue qs P es : exacte qs P es -> (CHEMIN_MAX <= length (texte qs))%nat -> es = [].
Proof.
  intros [E _] Hl. destruct es as [|e es]; [done|].
  destruct (E e) as (q & j & n & _ & _ & _ & (_ & _ & _ & _ & D)); [left|].
  pose proof (texte_longueur qs q). lia.
Qed.

Lemma enfants_spec i c : c ∈ enfants l i <-> exists n, vivant l c n /\ parent n = i /\ c <> i.
Proof.
  unfold enfants. rewrite list_elem_of_In, filter_In, in_seq. unfold est_enfant_de, vivant. split.
  - intros [_ H]. destruct (l !! c) as [n|] eqn:E; [|done]. bool_prop. exists n. by split_and!.
  - intros (n & [E U] & P & Hc). apply lookup_lt_Some in E as Hlt. split; [lia|]. rewrite E, U, P, Nat.eqb_refl. cbn.
    by apply negb_true_iff, Nat.eqb_neq.
Qed.

(** The first name of [q] is the name of a child of [is]. *)
Definition premier (indices : list nat) (q : chemin) : Prop :=
  exists c n q', c ∈ indices /\ vivant l c n /\ q = name n :: q'.

(** An entry belongs to a tree only below a directory that carries the tag. *)
Definition etiquete (q : chemin) : Prop :=
  exists q1 q2 j, q = q1 ++ q2 /\ q1 <> [] /\ nomme l (pp ++ q1) j /\ porte_une_etiquette l j = true.
Definition etiquetees (qs : chemin) (groupe : option nat) (es : list Entree) : Prop :=
  groupe = None -> forall e, e ∈ es -> e_groupe e = None \/
    exists q, e_chemin e = texte (qs ++ q) /\ Forall composant (qs ++ q) /\ etiquete (qs ++ q).

Lemma etiquetees_app qs g es fs : etiquetees qs g es -> etiquetees qs g fs -> etiquetees qs g (es ++ fs).
Proof. intros E F Hg e [He|He]%elem_of_app; [by apply E|by apply F]. Qed.

(** What the collection of a directory promises. *)
Definition promet_collecte (qs : chemin) (groupe : option nat) (P : chemin -> Prop) (es : list Entree) : Prop :=
  exacte qs P es /\ (forall K, (qs, groupe) ∈ K -> bien_range K es) /\ etiquetees qs groupe es.

Lemma entree_fichier qs x groupe c n :
  nomme l (pp ++ qs ++ [x]) c -> vivant l c n -> kind n = File -> name n = x ->
  promet_collecte qs groupe (fun q => exists q', q = x :: q')
    (if (CHEMIN_MAX <=? length (texte (qs ++ [x])))%nat then []
     else [mk_entree (texte (qs ++ [x])) c (length (content n)) (meta_de n) groupe]).
Proof.
  intros H V K Hx.
  assert (composant x) as Hcx.
  { pose proof (nomme_composants l _ c A H) as Hf. rewrite !Forall_app, Forall_singleton in Hf. tauto. }
  assert (forall q' j m, nomme l (pp ++ qs ++ x :: q') j -> vivant l j m -> q' = [] /\ j = c /\ m = n) as Hf.
  { intros q' j m Hj Vj. destruct q' as [|y q'].
    - assert (j = c) as -> by (by eapply nomme_noeud_unique). by rewrite (vivant_fun _ _ _ _ Vj V).
    - assert (nomme l ((pp ++ qs ++ [x; y]) ++ q') j) as Hj' by (by rewrite <-!app_assoc).
      apply nomme_prefixe in Hj' as [k Hk]. change [x; y] with ([x] ++ [y]) in Hk.
      rewrite !app_assoc in Hk. pose proof Hk as (m' & Vm & Hk0 & Hp & _)%nomme_enfant_inv.
      rewrite <-!app_assoc in Hp. assert (parent m' = c) as Ep by (by eapply nomme_noeud_unique).
      destruct (ao_noeud l A k m' Hk0 Vm) as [[Hs _]|(_ & _ & _ & p & Vp & Kp)].
      + by eapply nomme_pas_son_parent in Hs.
      + rewrite Ep in Vp. rewrite (vivant_fun _ _ _ _ Vp V) in Kp. congruence. }
  destruct (Nat.leb_spec CHEMIN_MAX (length (texte (qs ++ [x])))) as [Hl|Hl].
  - split; [|split; [intros; constructor|by intros _ e He%elem_of_nil]]. split; [by intros e He%elem_of_nil|].
    intros q j m (q' & ->) Hj Vj Hlt. pose proof (Hf q' j m Hj Vj) as (-> & _ & _). lia.
  - set (e := mk_entree _ _ _ _ _). assert (decrit (qs ++ [x]) c n e) as D by (unfold decrit; cbn; by rewrite K).
    split; [split|split].
    + intros e' ->%list_elem_of_singleton. exists [x], c, n. split_and!; [by exists []|done..].
    + intros q j m (q' & ->) Hj Vj _. destruct (Hf q' j m Hj Vj) as (-> & -> & ->). exists e.
      split; [by apply list_elem_of_singleton|done].
    + intros K' HK. apply (br_entree K' qs x groupe); [done..|by right|]. cbn. rewrite K. cbn. constructor.
    + intros Hg e' ->%list_elem_of_singleton. by left.
Qed.

Lemma entree_dossier qs x groupe c n g es :
  nomme l (pp ++ qs ++ [x]) c -> vivant l c n -> kind n = Dir -> (groupe = None \/ g = groupe) ->
  (groupe = None -> g = None \/ porte_une_etiquette l c = true) ->
  promet_collecte (qs ++ [x]) g (fun q => q <> []) es ->
  promet_collecte qs groupe (fun q => exists q', q = x :: q')
    ((if (length (texte (qs ++ [x])) <? CHEMIN_MAX)%nat
      then [mk_entree (texte (qs ++ [x])) c 0 (meta_de n) g] else []) ++ es).
Proof.
  intros H V K Hg Ht (E & B & T). apply exacte_enfant in E as E'.
  assert (composant x) as Hcx.
  { pose proof (nomme_composants l _ c A H) as Hf. rewrite !Forall_app, Forall_singleton in Hf. tauto. }
  destruct (Nat.ltb_spec (length (texte (qs ++ [x]))) CHEMIN_MAX) as [Hl|Hl].
  2:{ rewrite (exacte_longue _ _ _ E Hl) in *. split; [|split; [intros; constructor|by intros _ e He%elem_of_nil]].
      split; [by intros e He%elem_of_nil|]. intros q j m (q' & ->) _ _ Hlt.
      pose proof (texte_longueur (qs ++ [x]) q') as Hm. rewrite <-app_assoc in Hm. cbn in Hm. lia. }
  set (e := mk_entree _ _ _ _ _). assert (decrit (qs ++ [x]) c n e) as D by (unfold decrit; cbn; by rewrite K).
  split; [|split].
  - apply (exacte_ext _ (fun q => q = [x] \/ exists q', q = x :: q' /\ q' <> [])).
    + intros q. split; [intros [->|(q' & -> & _)]; eauto|]. intros [[|y q'] ->]; [by left|right; eauto].
    + apply exacte_app; [|done]. split.
      * intros e' ->%list_elem_of_singleton. by exists [x], c, n.
      * intros q j m -> Hj Vj _. assert (j = c) as -> by (by eapply nomme_noeud_unique).
        rewrite (vivant_fun _ _ _ _ Vj V). exists e. split; [by apply list_elem_of_singleton|done].
  - intros K' HK. apply (br_entree K' qs x groupe); [done..| |].
    + destruct Hg as [?| ->]; [by left|by right].
    + cbn. rewrite K. cbn. apply B. left.
  - intros Hn. destruct (Ht Hn) as [->|Hp].
    + intros e' [->|He]%elem_of_cons; [by left|]. destruct (T eq_refl e' He) as [?|(q & Eq & Hc & Hq)]; [by left|right].
      exists (x :: q). by rewrite <-app_assoc in Eq, Hc, Hq.
    + assert (forall q, etiquete (qs ++ x :: q)) as Hq.
      { intros q. exists (qs ++ [x]), q, c. split_and!; [by rewrite <-app_assoc|by destruct qs|done..]. }
      intros e' [->|He]%elem_of_cons; right.
      * exists [x]. split_and!; [done| |apply (Hq [])].
        pose proof (nomme_composants l _ c A H) as Hf. by apply Forall_app in Hf as [_ ?].
      * destruct (proj1 E e' He) as (q & j & _ & _ & Hj & _ & (Eq & _)). exists (x :: q).
        rewrite <-app_assoc in Eq, Hj. split_and!; [done| |done].
        pose proof (nomme_composants l _ j A Hj) as Hf. by apply Forall_app in Hf as [_ ?].
Qed.

Definition collecte_bien (fuel : nat) : Prop := forall qs i groupe groupes,
  nomme l (pp ++ qs) i -> Forall composant qs ->
  (MAX_NODES <= fuel + length (pp ++ qs))%nat ->
  exists es g', collecte_sous_garde fuel l i (texte qs) groupe groupes = Some (es, g') /\
    promet_collecte qs groupe (fun q => q <> []) es.

Lemma collecte_enfant_spec fuel qs c n groupe groupes :
  collecte_bien fuel -> nomme l (pp ++ qs ++ [name n]) c -> vivant l c n -> Forall composant qs ->
  (MAX_NODES <= S fuel + length (pp ++ qs))%nat ->
  exists es g', collecte_enfant (collecte_sous_garde fuel l) l (texte qs) groupe c n groupes = Some (es, g') /\
    promet_collecte qs groupe (fun q => exists q', q = name n :: q') es.
Proof.
  intros IH H V Hc Hm. unfold collecte_enfant. rewrite (texte_snoc qs (name n) Hc).
  destruct (kind n) eqn:K; [eexists _, _; split; [done|]; by apply entree_fichier|].
  destruct (groupe_dossier l c groupe groupes) as [g gs] eqn:Eg.
  destruct (IH (qs ++ [name n]) c g gs) as (es & g' & -> & P); [done..| | |].
  { pose proof (nomme_composants l _ c A H) as Hf. by apply Forall_app in Hf as [_ ?]. }
  { rewrite !length_app in *. cbn. lia. }
  eexists _, _. split; [done|]. apply (entree_dossier _ _ _ _ _ g); [done..| | |done];
    unfold groupe_dossier in Eg; (destruct groupe; [|destruct (porte_une_etiquette l c)]); simplify_eq; auto.
Qed.

Lemma enfant_nomme qs i c n :
  nomme l (pp ++ qs) i -> vivant l c n -> parent n = i -> c <> i -> nomme l (pp ++ qs ++ [name n]) c.
Proof.
  intros H V Hp Hci. rewrite app_assoc. apply nomme_enfant; [done| |by rewrite Hp]. intros ->.
  destruct (ao_racine l A) as (r & Vr & _ & Hr & _). rewrite (vivant_fun _ _ _ _ V Vr) in Hp. congruence.
Qed.

Lemma collecte_enfants_spec fuel qs i groupe :
  collecte_bien fuel -> nomme l (pp ++ qs) i -> Forall composant qs ->
  (MAX_NODES <= S fuel + length (pp ++ qs))%nat ->
  forall indices groupes, Forall (fun c => c ∈ enfants l i) indices ->
  exists es g', collecte_enfants (collecte_sous_garde fuel l) l (texte qs) groupe indices groupes = Some (es, g') /\
    promet_collecte qs groupe (premier indices) es.
Proof.
  intros IH H Hc Hm indices. induction indices as [|c indices IHi]; intros groupes Hi.
  { exists [], groupes. split; [done|]. split; [|split; [intros; constructor|by intros _ e He%elem_of_nil]].
    split; [by intros e He%elem_of_nil|].
    by intros q j n (c & m & q' & Hn%elem_of_nil & _). }
  apply Forall_cons in Hi as [(n & V & Hp & Hci)%enfants_spec Hi]. cbn [collecte_enfants]. rewrite (proj1 V). cbn [mbind option_bind].
  destruct (collecte_enfant_spec fuel qs c n groupe groupes IH) as (es & g' & -> & (E & B & T)); [by eapply enfant_nomme|done..|].
  cbn [mbind option_bind fst snd]. destruct (IHi g' Hi) as (es2 & g2 & -> & (E2 & B2 & T2)). cbn.
  eexists _, _. split; [done|]. split; [|split].
  - eapply exacte_ext; [|by apply exacte_app]. intros q. unfold premier. split.
    + intros [[q' ->]|(d & m & q' & Hd & Vd & ->)]; [exists c, n, q'|exists d, m, q']; split_and!; try done; [left|by right].
    + intros (d & m & q' & [->|Hd]%elem_of_cons & Vd & ->); [left; rewrite (vivant_fun _ _ _ _ Vd V); eauto|].
      right. by exists d, m, q'.
  - intros K HK. apply bien_range_app; auto.
  - by apply etiquetees_app.
Qed.

Lemma collecte_spec fuel : collecte_bien fuel.
Proof.
  induction fuel as [|fuel IH]; intros qs i groupe groupes H Hc Hm.
  { pose proof (profondeur l _ i A H). lia. }
  cbn [collecte_sous_garde].
  destruct (collecte_enfants_spec fuel qs i groupe IH H Hc Hm (enfants l i) groupes) as (es & g' & E & (P & B)).
  { by apply Forall_forall. }
  exists es, g'. split; [done|]. split; [|done]. destruct P as [P1 P2]. split.
  - intros e He. destruct (P1 e He) as (q & j & m & (c & nc & q' & _ & _ & ->) & ?). by exists (name nc :: q'), j, m.
  - intros q j m Hq Hj Vj Hl. apply P2; try done. destruct q as [|x q]; [done|].
    assert (nomme l ((pp ++ qs ++ [x]) ++ q) j) as Hj' by (by rewrite <-!app_assoc).
    apply nomme_prefixe in Hj' as [c Hx]. rewrite app_assoc in Hx.
    pose proof Hx as (nc & Vc & Hc0 & Hp & <-)%nomme_enfant_inv. exists c, nc, q. split_and!; [|done..].
    assert (parent nc = i) as Ep by (by eapply nomme_noeud_unique).
    apply enfants_spec. exists nc. split_and!; [done..|]. intros ->.
    by eapply nomme_pas_son_parent in Ep.
Qed.
End Collecte.
End CollecteProofs.

(** The snapshot a synchronisation writes: exactly the nodes below /persist whose path fits,
    less whole cache trees when everything would not fit in the zone. *)

Module Instantane.
Import Ramfs RamfsProofs RamfsArbre RamfsOps RamfsChemins Collecte CollecteProofs.
Import Persistance(CHEMIN_MAX, SnapshotEntree).
Open Scope Z_scope.
Open Scope os_scope.

Definition PP : chemin := [octets "persist"].

Lemma racine_composant : Forall composant PP.
Proof.
  apply Forall_singleton. split_and!; [done| |done|done]. apply (bool_decide_unpack _). vm_compute. exact I.
Qed.
Lemma resolve_racine l : arbre_ok l -> forall i, resolve l RACINE 0 = Some i <-> nomme l PP i.
Proof.
  intros A i. change RACINE with (joint PP). rewrite resolve_joint by apply racine_composant.
  apply (suit_composants_nomme l PP 0%nat i [] A (nomme_racine l) racine_composant).
Qed.

(** What an entry of a snapshot says of a node. *)
Definition represente (q : chemin) (n : Node) (s : SnapshotEntree) : Prop :=
  Persistance.chemin s = texte q /\ Persistance.meta s = meta_de n /\
  Persistance.octets s = (if est_dir (kind n) then [] else content n).

(** Parents before children; [K] holds the directories already seen. *)
Inductive bien_depose : list chemin -> list SnapshotEntree -> Prop :=
| bd_vide K : bien_depose K []
| bd_entree K cs x s ss :
    cs ∈ K -> composant x -> Persistance.chemin s = texte (cs ++ [x]) ->
    bien_depose (if Persistance.dossier (Persistance.meta s) then (cs ++ [x]) :: K else K) ss ->
    bien_depose K (s :: ss).

(** ** Giving up trees *)

Lemma nombre_groupes_borne es e g : e ∈ es -> e_groupe e = Some g -> (g < nombre_groupes es)%nat.
Proof.
  induction es as [|e' es IH]; [by intros ?%elem_of_nil|]. intros [->|He]%elem_of_cons Hg;
    change (nombre_groupes (?e :: es)) with
      (match e_groupe e with Some g => Nat.max (S g) (nombre_groupes es) | None => nombre_groupes es end).
  - rewrite Hg. lia.
  - specialize (IH He Hg). destruct (e_groupe e'); lia.
Qed.

(** Entries kept by their tree keep their parents. *)
Lemma bien_range_retenue (r : option nat -> bool) K es :
  r None = true -> bien_range K es -> forall K', (forall cs g, (cs, g) ∈ K -> r g = true -> (cs, g) ∈ K') ->
  bien_range K' (List.filter (fun e => r (e_groupe e)) es).
Proof.
  intros Hr H. induction H as [|K cs x g e es Hk Hx Hc Hg _ IH]; intros K' HK; [constructor|]. cbn [List.filter].
  destruct (r (e_groupe e)) eqn:Er.
  - assert (r g = true) as Erg by (destruct Hg as [->| <-]; done).
    apply (br_entree K' cs x g); [auto|done..|]. apply IH. destruct (Persistance.dossier _); [|done].
    intros ds h. rewrite !elem_of_cons. intros [[= -> ->]|Hd] Hh; [by left|right; auto].
  - apply IH. destruct (Persistance.dossier _); [|done].
    intros ds h [[= -> ->]|Hd]%elem_of_cons Hh; [congruence|auto].
Qed.

Definition fichier_de (e : Entree) : CacheJetable.Fichier :=
  CacheJetable.mk_fichier (Z.of_nat (e_longueur e)) (e_groupe e).
Definition tient_en_tout (es : list Entree) : bool :=
  CacheJetable.tient LIMITES_ZONE (CacheJetable.somme (fun _ => 1) (fichier_de <$> es))
    (CacheJetable.somme (fun f => CacheJetable.secteurs (CacheJetable.octets f) Persistance.SECTOR_SIZE) (fichier_de <$> es)).

(** What is kept: everything, or what is outside the trees given up, and then only because
    everything would not have fitted. *)
Lemma ecarte_spec es zone :
  exists r, ecarte_les_caches_qui_debordent es zone = Some (List.filter (fun e => r (e_groupe e)) es) /\
    r None = true /\ (tient_en_tout es = true -> forall e, e ∈ es -> r (e_groupe e) = true).
Proof.
  assert (List.filter (fun e : Entree => true) es = es) as Hid by (by apply forallb_filter_id, forallb_forall).
  unfold ecarte_les_caches_qui_debordent. destruct zone; cbn [negb]; [|by exists (fun _ => true); rewrite Hid].
  destruct (CacheJetable.selection_spec LIMITES_ZONE (fichier_de <$> es) (nombre_groupes es)) as (v & e & E & _ & P).
  { apply Forall_fmap, Forall_forall. intros x Hx g. by apply nombre_groupes_borne. }
  change ((fun e => CacheJetable.mk_fichier _ _) <$> es) with (fichier_de <$> es). rewrite E. cbn [mbind option_bind].
  destruct v as [|a b c|]; [by exists (fun _ => true); rewrite Hid| |by exists (fun _ => true); rewrite Hid].
  exists (fun g => match g with Some g => negb (CacheJetable.est_ecarte e g) | None => true end).
  split_and!; [done..|]. destruct P as (_ & P & _). unfold tient_en_tout. intros Ht. cbn in P. congruence.
Qed.

(** ** The snapshot *)

Lemma copie_spec l q j n e :
  vivant l j n -> decrit q j n e -> exists s, copie l e = Some s /\ represente q n s.
Proof.
  intros [E _] (Hc & Hj & Hm & Hl & _). unfold copie. rewrite Hj, E. cbn [mbind option_bind].
  assert (take (e_longueur e) (content n) = (if est_dir (kind n) then [] else content n) /\
    (e_longueur e <= length (content n))%nat) as [Ht Hle].
  { rewrite Hl. destruct (est_dir (kind n)); [split; [done|lia]|]. split; [by rewrite take_ge|lia]. }
  destruct (Nat.ltb_spec (length (content n)) (e_longueur e)); [lia|].
  eexists. split; [done|]. by split_and!.
Qed.

Lemma copie_champs l e s :
  copie l e = Some s -> Persistance.chemin s = e_chemin e /\ Persistance.meta s = e_meta e.
Proof.
  unfold copie. destruct (l !! e_noeud e); [|done]. cbn [mbind option_bind]. by destruct (_ <? _)%nat; intros; simplify_eq.
Qed.

Lemma copie_range l K es ss :
  bien_range K es -> Forall2 (fun e s => copie l e = Some s) es ss -> bien_depose (fst <$> K) ss.
Proof.
  intros H. revert ss. induction H as [|K cs x g e es Hk Hx Hc Hg _ IH]; intros ss Hs.
  { apply Forall2_nil_inv_l in Hs as ->. constructor. }
  apply Forall2_cons_inv_l in Hs as (s & ss' & Es & Hs & ->). destruct (copie_champs _ _ _ Es) as [Ec Em].
  apply (bd_entree _ cs x); [|done|congruence|].
  - by apply (list_elem_of_fmap_2 fst _ (cs, g)).
  - rewrite Em. specialize (IH _ Hs). by destruct (Persistance.dossier (e_meta e)).
Qed.

Record instantane_de (l : list Node) (ss : list SnapshotEntree) : Prop := {
  in_range : bien_depose [[]] ss;
  in_vrai : forall s, s ∈ ss -> exists q j n,
    q <> [] /\ nomme l (PP ++ q) j /\ vivant l j n /\ represente q n s /\ (length (texte q) < CHEMIN_MAX)%nat;
  in_complet : forall q j n, q <> [] -> nomme l (PP ++ q) j -> vivant l j n ->
    (length (texte q) < CHEMIN_MAX)%nat ->
    (exists s, s ∈ ss /\ represente q n s) \/
    (etiquete l PP q /\ exists es, rassemble_sous l = Some es /\ tient_en_tout es = false)
}.

Lemma texte_inj cs ds : Forall composant cs -> Forall composant ds -> texte cs = texte ds -> cs = ds.
Proof. intros Hc Hd E. rewrite <-(morceaux_texte cs Hc), <-(morceaux_texte ds Hd). by rewrite E. Qed.

Lemma rassemble_sous_spec l :
  arbre_ok l -> exists es, rassemble_sous l = Some es /\
    exacte l PP [] (fun q => q <> []) es /\ bien_range [([], None)] es /\ etiquetees l PP [] None es.
Proof.
  intros A. unfold rassemble_sous. destruct (resolve l RACINE 0) as [i|] eqn:E.
  - apply resolve_racine in E; [|done].
    destruct (collecte_spec l A PP MAX_NODES [] i None 0%nat) as (es & g & Ec & Hx & Hb & Ht).
    { by rewrite app_nil_r. } { done. } { lia. }
    change (texte []) with (@nil Z) in Ec. rewrite Ec. exists es. split_and!; [done..|apply Hb; left|done].
  - exists []. split_and!; [done| |constructor|by intros _ e He%elem_of_nil].
    split; [by intros e He%elem_of_nil|]. intros q j n _ H _ _. exfalso.
    apply nomme_prefixe in H as [i H]. apply (resolve_racine l A) in H. congruence.
Qed.

Lemma rassemble_snapshot_spec l zone :
  arbre_ok l -> exists ss, rassemble_snapshot l zone = Some ss /\ instantane_de l ss.
Proof.
  intros A. destruct (rassemble_sous_spec l A) as (es & E & [X1 X2] & B & T).
  unfold rassemble_snapshot. rewrite E. cbn [mbind option_bind].
  destruct (ecarte_spec es zone) as (r & -> & Hr & Hall). cbn [mbind option_bind].
  set (ks := List.filter _ es). assert (forall e, e ∈ ks <-> e ∈ es /\ r (e_groupe e) = true) as Hks.
  { intros e. subst ks. by rewrite !list_elem_of_In, filter_In. }
  assert (forall e, e ∈ es -> exists q j n s, q <> [] /\ nomme l (PP ++ q) j /\ vivant l j n /\
    decrit q j n e /\ copie l e = Some s /\ represente q n s) as Hv.
  { intros e He. destruct (X1 e He) as (q & j & n & Hq & H & V & D).
    destruct (copie_spec l q j n e V D) as (s & Es & Hs). by exists q, j, n, s. }
  assert (exists ss, mapM (copie l) ks = Some ss) as [ss Ess].
  { apply mapM_is_Some_2, Forall_forall. intros e He%Hks. destruct (Hv e (proj1 He)) as (? & ? & ? & s & ?).
    exists s. tauto. }
  exists ss. split; [done|]. apply mapM_Some in Ess. split.
  - apply (copie_range l [([], None)] ks ss); [|done].
    apply (bien_range_retenue r [([], None)]); [done..|]. intros cs g ->%list_elem_of_singleton _. left.
  - intros s Hs. apply list_elem_of_lookup_1 in Hs as [k Hk].
    destruct (Forall2_lookup_r _ _ _ _ _ Ess Hk) as (e & He & Es).
    apply list_elem_of_lookup_2, Hks in He as [He _]. destruct (Hv e He) as (q & j & n & s' & Hq & H & V & D & Es' & R).
    exists q, j, n. rewrite Es in Es'. injection Es' as <-. split_and!; [done..|apply D].
  - intros q j n Hq H V Hl. destruct (X2 q j n Hq H V Hl) as (e & He & D).
    destruct (r (e_groupe e)) eqn:Er.
    + left. destruct (copie_spec l q j n e V D) as (s & Es & Hs).
      assert (e ∈ ks) as [k Hk]%list_elem_of_lookup_1 by (by apply Hks).
      destruct (Forall2_lookup_l _ _ _ _ _ Ess Hk) as (s' & Hs' & Es').
      exists s. split; [|done]. rewrite Es in Es'. injection Es' as <-. by eapply list_elem_of_lookup_2.
    + right. split.
      * destruct (T eq_refl e He) as [Hn|(q' & Eq & Hc & Hq')]; [rewrite Hn in Er; congruence|]. cbn [app] in *.
        destruct D as (Dc & _). rewrite Dc in Eq. apply texte_inj in Eq as ->; [done| |done].
        pose proof (nomme_composants l _ j A H) as Hf. by apply Forall_app in Hf as [_ ?].
      * exists es. split; [done|]. destruct (tient_en_tout es) eqn:Et; [|done]. by rewrite (Hall eq_refl e He) in Er.
Qed.
End Instantane.
