(* ===== verification/Depot.v ===== *)
(** The deposit of a snapshot into the file system: entry by entry, each adds or replaces one
    path, so that a well ordered list deposited under an empty root gives exactly its tree. *)

From S2P Require Import Prelude Ramfs RamfsProofs RamfsOps RamfsChemins Bloc Persistance PersistanceProofs Collecte CollecteProofs.

Module Depot.
Import Ramfs RamfsProofs RamfsArbre RamfsOps RamfsChemins RamfsSpecs Collecte CollecteProofs Instantane.
Import Persistance(CHEMIN_MAX, SnapshotEntree).
Open Scope Z_scope.
Open Scope os_scope.

(** ** What a path shows *)

(** Kind, contents of a file, rights and owner. *)
Definition Aspect : Type := NodeKind * list Z * (Z * Z * Z).
Definition aspect (n : Node) : Aspect :=
  (kind n, if est_dir (kind n) then [] else content n, (mode n, uid n, gid n)).
Definition montre (l : list Node) (cs : chemin) (a : Aspect) : Prop :=
  exists i n, nomme l cs i /\ vivant l i n /\ aspect n = a.

Lemma aspect_eq n k c d : aspect n = (k, c, d) -> kind n = k /\ (k = File -> content n = c).
Proof. destruct n as [b []]; unfold aspect; cbn; intros E; injection E; intros; subst; done. Qed.
Lemma aspect_corps n n' : corps n = corps n' -> aspect n = aspect n'.
Proof. intros E. change (aspect (corps n) = aspect (corps n')). by rewrite E. Qed.

#[export] Instance montre_proper : Proper ((≡) ==> (=) ==> (=) ==> iff) montre.
Proof.
  assert (forall l l' cs a, l ≡ l' -> montre l cs a -> montre l' cs a) as W.
  { intros l l' cs a E (i & n & H & [Hn U] & <-). destruct (table_lookup _ _ _ _ E Hn) as (n' & Hn' & C).
    exists i, n'. split_and!; [by rewrite <-E|split; [done|]|by apply eq_sym, aspect_corps].
    rewrite <-U. change (used (corps n') = used (corps n)). by rewrite C. }
  intros l l' E cs ? <- a ? <-. split; apply W; [done|by symmetry].
Qed.

Lemma montre_fun l cs a b : arbre_ok l -> montre l cs a -> montre l cs b -> a = b.
Proof.
  intros A (i & n & H & V & <-) (i' & n' & H' & V' & <-).
  rewrite (nomme_noeud_unique _ _ _ _ A H' H) in *. by rewrite (vivant_fun _ _ _ _ V V').
Qed.

(** From [w] to [w'] the path [cs] alone changed, and shows [a]; [k] inodes were taken. *)
Record maj (k : nat) (w : Monde) (cs : chemin) (a : Aspect) (w' : Monde) : Prop := {
  mj_ok : monde_ok w';
  mj_nomme : forall ds j, nomme (nodes w) ds j -> nomme (nodes w') ds j;
  mj_montre : forall ds b, montre (nodes w') ds b <-> (ds = cs /\ b = a) \/ (ds <> cs /\ montre (nodes w) ds b);
  mj_compte : used_nodes (nodes w') = (k + used_nodes (nodes w))%nat
}.

Lemma maj_puis k k' w cs a w1 b w2 :
  maj k w cs a w1 -> maj k' w1 cs b w2 -> maj (k' + k) w cs b w2.
Proof.
  intros [? N1 M1 C1] [? N2 M2 C2]. split; [done|auto| |lia]. intros ds c. rewrite M2, M1. naive_solver.
Qed.

Lemma maj_meme_arbre w cs i n n' w' :
  monde_ok w -> nomme (nodes w) cs i -> vivant (nodes w) i n -> forme n' = forme n ->
  nodes w' ≡ <[i := n']> (nodes w) -> used_relaxed w' = used_relaxed w -> maj 0 w cs (aspect n') w'.
Proof.
  intros Hw H V F E U. assert (meme_arbre (<[i := n']> (nodes w)) (nodes w)) as M by (by eapply insert_meme_forme; [apply V|]).
  assert (meme_arbre (nodes w') (nodes w)) as M' by (by rewrite E).
  pose proof (vivant_lt _ _ _ V) as Hi.
  assert (used n' = true) as Un by (apply forme_eq in F as (-> & _); apply V).
  split.
  - split; [rewrite M'; apply Hw|]. rewrite U, (proj2 Hw). by rewrite M'.
  - intros ds j. by rewrite M'.
  - intros ds b. rewrite E. split.
    + intros (j & m & Hj & Vj & <-). rewrite M in Hj. apply vivant_insert in Vj as [(-> & -> & _)|[Hne Vj]]; [| |done].
      * left. split; [|done]. by eapply nomme_chemin_unique.
      * right. split; [|by exists j, m]. intros ->. apply Hne. by eapply nomme_noeud_unique; [apply Hw|..].
    + intros [[-> ->]|[Hne (j & m & Hj & Vj & <-)]].
      * exists i, n'. split_and!; [by rewrite M|apply vivant_insert; [done|by left]|done].
      * exists j, m. split_and!; [by rewrite M|apply vivant_insert; [done|right; split; [|done]]|done].
        intros ->. apply Hne. by eapply nomme_chemin_unique.
  - by rewrite M'.
Qed.

Lemma maj_ajout w w' n i dd q nq :
  monde_ok w -> nomme (nodes w) dd q -> vivant (nodes w) q nq -> kind nq = Dir ->
  parent n = q -> used n = true -> bon_nom (name n) -> find_child (nodes w) q (name n) = None ->
  installe_en w n i w' -> maj 1 w (dd ++ [name n]) (aspect n) w' /\ nomme (nodes w') (dd ++ [name n]) i.
Proof.
  intros Hw Hdd Vq Kq Hp Un Bn Hlib (Hpl & H0 & (m & Em & Um) & (E & U & _)). pose proof (proj1 Hw) as A. subst q.
  assert (forall cs j, nomme (nodes w') cs j <-> nomme (nodes w) cs j \/ (cs = dd ++ [name n] /\ j = i)) as Hn.
  { intros cs j. rewrite E. by eapply ajout_nomme. }
  pose proof (lookup_lt_Some _ _ _ Em) as Hi.
  pose proof (used_nodes_insert (nodes w) i m n Em) as Uc. rewrite Um, Un in Uc. cbn in Uc.
  assert (~ exists j, nomme (nodes w) (dd ++ [name n]) j) as Hno.
  { intros [j Hj]. apply (find_child_nomme _ dd _ _ j A Hdd (or_introl Bn)) in Hj. congruence. }
  split; [split|].
  - split; [rewrite E; by eapply ajout_ok|]. rewrite U, (proj2 Hw), E. lia.
  - intros ds j Hj. apply Hn. by left.
  - intros ds b. rewrite E. split.
    + intros (j & m' & Hj & Vj & <-). rewrite <-E in Hj.
      apply vivant_insert in Vj as [(-> & -> & _)|[Hne Vj]]; [| |done].
      * apply Hn in Hj as [Hj|[-> _]]; [|by left]. exfalso.
        destruct (nomme_vivant _ _ _ A Hj) as [x [Ex Ux]]. congruence.
      * apply Hn in Hj as [Hj|[_ ->]]; [|done]. right. split; [|by exists j, m']. intros ->. by destruct Hno; exists j.
    + intros [[-> ->]|[Hne (j & m' & Hj & Vj & <-)]].
      * exists i, n. split_and!; [rewrite <-E; apply Hn; by right|apply vivant_insert; [done|by left]|done].
      * exists j, m'. split_and!; [rewrite <-E; apply Hn; by left|apply vivant_insert; [done|right; split; [|done]]|done].
        intros ->. destruct Vj. congruence.
  - rewrite E. lia.
  - apply Hn. by right.
Qed.

(** ** Walking to the parent *)

Lemma enfant_trouve l dd i c j :
  arbre_ok l -> nomme l dd i -> nomme l (dd ++ [c]) j -> c <> [] -> find_child l i c = Some j.
Proof. intros A H Hj Hc. apply (find_child_nomme l dd i c j A H (or_intror Hc)). done. Qed.

Lemma non_dernier (cs : chemin) x : exists y ys, cs ++ [x] = y :: ys.
Proof. destruct cs as [|y ys]; eexists _, _; done. Qed.

Section Env.
Context (env : Env).

Lemma depose_marche w p x contenu cs : forall dd i,
  arbre_ok (nodes w) -> nomme (nodes w) dd i -> nomme (nodes w) (dd ++ cs) p -> Forall composant cs ->
  depose_boucle env i (cs ++ [x]) contenu w = depose_boucle env p [x] contenu w.
Proof.
  induction cs as [|c cs IH]; intros dd i A H Hp Hc.
  { rewrite app_nil_r in Hp. by rewrite (nomme_noeud_unique _ _ _ _ A H Hp). }
  apply Forall_cons in Hc as [(Hc0 & _) Hc].
  assert (nomme (nodes w) ((dd ++ [c]) ++ cs) p) as Hp' by (by rewrite <-app_assoc).
  destruct (nomme_prefixe _ _ _ _ Hp') as [j Hj].
  rewrite <-(IH (dd ++ [c]) j A Hj Hp' Hc). destruct (non_dernier cs x) as (y & ys & E).
  cbn [app]. rewrite E. cbn [depose_boucle]. unfold lie at 1, lis at 1.
  by rewrite (enfant_trouve _ _ _ _ _ A H Hj Hc0).
Qed.

Lemma dossier_marche w p x cs : forall dd i,
  arbre_ok (nodes w) -> nomme (nodes w) dd i -> nomme (nodes w) (dd ++ cs) p -> Forall composant cs ->
  (forall np, vivant (nodes w) p np -> kind np = Dir) ->
  dossier_boucle env i (cs ++ [x]) w = dossier_boucle env p [x] w.
Proof.
  induction cs as [|c cs IH]; intros dd i A H Hp Hc Hd.
  { rewrite app_nil_r in Hp. by rewrite (nomme_noeud_unique _ _ _ _ A H Hp). }
  apply Forall_cons in Hc as [(Hc0 & _) Hc].
  assert (nomme (nodes w) ((dd ++ [c]) ++ cs) p) as Hp' by (by rewrite <-app_assoc).
  destruct (nomme_prefixe _ _ _ _ Hp') as [j Hj].
  rewrite <-(IH (dd ++ [c]) j A Hj Hp' Hc Hd). cbn [app dossier_boucle]. unfold lie at 1, lis at 1.
  rewrite (enfant_trouve _ _ _ _ _ A H Hj Hc0).
  destruct (nomme_vivant _ _ _ A Hj) as [nj Vj].
  assert (kind nj = Dir) as Kj.
  { destruct cs as [|c2 cs]; [rewrite app_nil_r in Hp'; apply Hd; by rewrite <-(nomme_noeud_unique _ _ _ _ A Hj Hp')|].
    assert (nomme (nodes w) (((dd ++ [c]) ++ [c2]) ++ cs) p) as Hq by (by rewrite <-!app_assoc in *).
    apply nomme_prefixe in Hq as [k Hk]. pose proof Hk as (m & Vm & Hk0 & Hpm & _)%nomme_enfant_inv.
    destruct (ao_noeud _ A k m Hk0 Vm) as [[Hs _]|(_ & _ & _ & q & Vq & Kq)];
      [by eapply nomme_pas_son_parent in Hs|].
    rewrite (nomme_noeud_unique _ _ _ _ A Hpm Hj) in Vq. by rewrite (vivant_fun _ _ _ _ Vj Vq). }
  unfold lie, noeud. rewrite (proj1 Vj), Kj. done.
Qed.

(** ** The last name *)

Lemma place_libre_inode l : arbre_ok l -> (used_nodes l < MAX_NODES)%nat -> premier_libre l <> None.
Proof.
  intros A Hu E. destruct (ao_racine l A) as (r & [Er Ur] & _). rewrite <-(ao_longueur l A) in Hu.
  unfold premier_libre in E. destruct (list_find _ (drop 1 l)) as [[]|] eqn:F; [done|].
  apply list_find_None in F. destruct l as [|r' l']; [done|]. injection Er as ->. change (drop 1 (r :: l')) with l' in F.
  unfold used_nodes in Hu. rewrite filter_cons_True in Hu by done. cbn [length] in Hu.
  enough (filter (fun n => used n = true) l' = l') as Ef by (rewrite Ef in Hu; lia).
  clear -F. induction F as [|n l1 Hn _ IH]; [done|]. rewrite filter_cons_True; [by rewrite IH|]. by destruct (used n).
Qed.

Lemma write_node_bytes_spec i n data w :
  length (nodes w) = MAX_NODES -> nodes w !! i = Some n -> Z.of_nat (length data) <= MAX_FILE_SIZE ->
  wp (write_node_bytes env i data) (fun w' b => b = true /\
    nodes w' ≡ <[i := avec_content data n]> (nodes w) /\ used_relaxed w' = used_relaxed w) w.
Proof.
  intros Hl E Hd. unfold write_node_bytes. destruct (Z.ltb_spec MAX_FILE_SIZE (Z.of_nat (length data))); [lia|].
  apply wp_lie. unfold wp at 1, unregister, change. eapply wp_modifie_suite; [exact E|].
  exec touche_spec; [cbn; by rewrite length_insert|]. by intros w' [] (? & ? & _).
Qed.

(** Where an entry goes: a directory that exists, a name that is free or of the same kind, and
    an inode left. *)
Record place (w : Monde) (pd : chemin) (p : nat) (x : list Z) (k : NodeKind) : Prop := {
  pl_ok : monde_ok w;
  pl_nomme : nomme (nodes w) pd p;
  pl_dossier : exists np, vivant (nodes w) p np /\ kind np = Dir;
  pl_nom : bon_nom x;
  pl_genre : forall j m, nomme (nodes w) (pd ++ [x]) j -> vivant (nodes w) j m -> kind m = k;
  pl_inode : (used_nodes (nodes w) < MAX_NODES)%nat
}.

Lemma nom_bon_acceptable x : bon_nom x -> nom_acceptable x = true.
Proof.
  intros [(H & _) Hl]. unfold nom_acceptable. destruct x; [done|]. cbn [length Nat.eqb negb andb].
  by apply Nat.leb_le.
Qed.

(** The refusals of a creation do not happen in such a place. *)
Lemma place_refus w pd p x k np e :
  place w pd p x k -> vivant (nodes w) p np -> find_child (nodes w) p x = None ->
  refus_cree (nodes w) p np x e -> False.
Proof.
  intros [[A _] _ (np' & Vp & Kp) Bx _ Hu] V _. rewrite (vivant_fun _ _ _ _ Vp V) in Kp.
  intros [[_ ?]|(_ & _ & [[_ H]|(_ & _ & H)])]; [done|by rewrite nom_bon_acceptable in H|].
  by eapply place_libre_inode.
Qed.

(** After an entry: its node, what it shows, and how many inodes it took. *)
Definition depose (w : Monde) (cs : chemin) (k : NodeKind) (contenu : list Z) (i : nat) (w' : Monde) : Prop :=
  exists n c, nomme (nodes w') cs i /\ vivant (nodes w') i n /\ kind n = k /\ (k = File -> content n = contenu) /\
    (c <= 1)%nat /\ maj c w cs (aspect n) w'.

Lemma maj_montre k w cs a w' : maj k w cs a w' -> exists i n, nomme (nodes w') cs i /\ vivant (nodes w') i n /\ aspect n = a.
Proof. intros [_ _ M _]. destruct (proj2 (M cs a)) as (i & n & ?); [by left|]. by exists i, n. Qed.

Lemma depose_ajout w w' pd p x k d u g i :
  place w pd p x k -> find_child (nodes w) p x = None ->
  installe_en w (neuf k p x d u g) i w' -> depose w (pd ++ [x]) k [] i w'.
Proof.
  intros [Hw H (np & Vp & Kp) Bx _ _] Hf Hi.
  destruct (maj_ajout w w' (neuf k p x d u g) i pd p np) as [Hm Hn]; try done. cbn [name neuf] in Hm, Hn.
  destruct (maj_montre _ _ _ _ _ Hm) as (j & n & Hj & V & E).
  rewrite (nomme_noeud_unique _ _ _ _ (proj1 (mj_ok _ _ _ _ _ Hm)) Hj Hn) in *.
  exists n, 1%nat. rewrite E. apply aspect_eq in E as [Ek Ec]. split_and!; [done..| |lia|done].
  intros Hk. rewrite Ec by done. by destruct (est_dir _).
Qed.

(** Writing the contents then the rights of a node just deposited. *)
Lemma depose_ecrit w w1 cs k c0 i contenu :
  depose w cs k c0 i w1 -> k = File -> Z.of_nat (length contenu) <= MAX_FILE_SIZE ->
  wp (write_node_bytes env i contenu) (fun w' b => b = true /\ depose w cs k contenu i w') w1.
Proof.
  intros (n & c & Hn & V & Kn & _ & Hc & M) -> Hl. pose proof (mj_ok _ _ _ _ _ M) as Hw1.
  eapply wp_mono; [eapply write_node_bytes_spec; [apply Hw1|apply V|done]|]. intros w2 b (-> & E & U).
  split; [done|].
  assert (maj 0 w1 cs (aspect (avec_content contenu n)) w2) as M2 by (by eapply maj_meme_arbre).
  destruct (maj_montre _ _ _ _ _ M2) as (j & m & Hj & Vj & Ea).
  rewrite (nomme_noeud_unique _ _ _ _ (proj1 (mj_ok _ _ _ _ _ M2)) Hj (mj_nomme _ _ _ _ _ M2 _ _ Hn)) in *.
  exists m, c. rewrite Ea. apply aspect_eq in Ea as [Ek Ec]. cbn in Ek, Ec. rewrite Kn in Ek, Ec.
  split_and!; [by apply M2|done..|].
  by apply (maj_puis _ _ _ _ _ _ _ _ M M2).
Qed.

Lemma depose_droits w w1 cs k contenu i m u g :
  depose w cs k contenu i w1 ->
  wp (modifie i (avec_droits m u g)) (fun w' _ => exists c, (c <= 1)%nat /\
    maj c w cs (k, if est_dir k then [] else contenu, (m, u, g)) w') w1.
Proof.
  intros (n & c & Hn & V & Kn & Hc & Hle & M). eapply wp_modifie; [apply V|]. exists c. split; [done|].
  assert (maj 0 w1 cs (aspect (avec_droits m u g n)) (avec_nodes (<[i := avec_droits m u g n]> (nodes w1)) w1)) as M2
    by (by eapply maj_meme_arbre; [apply M|..]).
  unfold aspect in M2. cbn in M2. rewrite Kn in M2.
  replace (if est_dir k then [] else contenu) with (if est_dir k then [] else content n)
    by (destruct k; [by rewrite Hc|done]).
  apply (maj_puis _ _ _ _ _ _ _ _ M M2).
Qed.

Lemma depose_deja w cs i n :
  monde_ok w -> nomme (nodes w) cs i -> vivant (nodes w) i n -> depose w cs (kind n) (content n) i w.
Proof.
  intros Hw H V. exists n, 0%nat. split_and!; [done..|lia|]. split; [done..| |done]. intros ds b. split.
  - intros Hd. destruct (decide (ds = cs)) as [->|Hne]; [left|by right]. split; [done|].
    eapply montre_fun; [apply Hw|exact Hd|]. by exists i, n.
  - intros [[-> ->]|[_ ?]]; [by exists i, n|done].
Qed.

(** The name is taken by a node of the same kind, or free. *)
Lemma place_cas w pd p x k :
  place w pd p x k ->
  (exists j m, find_child (nodes w) p x = Some j /\ vivant (nodes w) j m /\ kind m = k /\
     depose w (pd ++ [x]) k (content m) j w) \/
  find_child (nodes w) p x = None.
Proof.
  intros [Hw H _ Bx Hg _]. destruct (find_child (nodes w) p x) as [j|] eqn:E; [left|by right].
  apply (find_child_nomme _ _ _ _ _ (proj1 Hw) H (or_introl Bx)) in E.
  destruct (nomme_vivant _ _ _ (proj1 Hw) E) as [m V]. exists j, m. rewrite <-(Hg j m E V). split_and!; [done..|].
  by apply depose_deja.
Qed.

Lemma fichier_spec w pd p x contenu :
  place w pd p x File -> Z.of_nat (length contenu) <= MAX_FILE_SIZE ->
  wp (depose_boucle env p [x] contenu) (fun w' r => exists i, r = Some i /\ depose w (pd ++ [x]) File contenu i w') w.
Proof.
  intros Hp Hl. cbn [depose_boucle]. apply wp_lie, wp_lis.
  assert (forall w1 i c0, depose w (pd ++ [x]) File c0 i w1 ->
    wp (ok <- write_node_bytes env i contenu ;; rend (if (ok : bool) then Some i else None))
      (fun w' r => exists i, r = Some i /\ depose w (pd ++ [x]) File contenu i w') w1) as W.
  { intros w1 i c0 Hd. apply wp_lie. eapply wp_mono; [by eapply depose_ecrit|]. intros w2 b [-> H]. by exists i. }
  destruct (place_cas _ _ _ _ _ Hp) as [(j & m & -> & V & Km & Hd)|Hf].
  { apply wp_lie. unfold wp at 1, rend. by eapply W. }
  rewrite Hf. destruct (pl_dossier _ _ _ _ _ Hp) as (np & Vp & Kp). apply wp_lie, wp_lie.
  eapply wp_mono; [eapply touch_at_spec; [apply Hp|apply Vp]|]. intros w1 [i|e].
  - intros (_ & [[-> E]|(_ & _ & Hi)]); [congruence|]. unfold wp at 1, rend. eapply W. by eapply depose_ajout.
  - intros [_ Hr]. by eapply place_refus in Hr.
Qed.

Lemma dossier_spec w pd p x :
  place w pd p x Dir ->
  wp (dossier_boucle env p [x]) (fun w' r => exists i, r = Some i /\ depose w (pd ++ [x]) Dir [] i w') w.
Proof.
  intros Hp. cbn [dossier_boucle]. apply wp_lie, wp_lis.
  destruct (place_cas _ _ _ _ _ Hp) as [(j & m & -> & V & Km & Hd)|Hf].
  - apply wp_lie, wp_lie. eapply wp_noeud; [apply V|]. rewrite Km. unfold wp, rend. cbn [est_dir]. exists j.
    split; [done|]. destruct Hd as (n & c & H1 & H2 & H3 & _ & H5). by exists n, c.
  - rewrite Hf. destruct (pl_dossier _ _ _ _ _ Hp) as (np & Vp & Kp). apply wp_lie, wp_lie.
    eapply wp_mono; [eapply mkdir_at_spec; [apply Hp|apply Vp]|]. intros w1 [i|e].
    + intros (_ & _ & _ & Hi). unfold wp, rend. exists i. split; [done|]. by eapply depose_ajout.
    + intros [_ [Hr|[_ [? E]]]]; [by eapply place_refus in Hr|congruence].
Qed.

(** ** One entry of the zone *)

Definition genre_de (s : SnapshotEntree) : NodeKind := if Persistance.dossier (Persistance.meta s) then Dir else File.
Definition aspect_de (s : SnapshotEntree) : Aspect :=
  (genre_de s, if est_dir (genre_de s) then [] else Persistance.octets s,
   (Persistance.mode (Persistance.meta s), Persistance.uid (Persistance.meta s), Persistance.gid (Persistance.meta s))).

Lemma restaure_entree_spec w racine cs p x s :
  nomme (nodes w) PP racine -> place w (PP ++ cs) p x (genre_de s) -> Forall composant cs ->
  Persistance.chemin s = texte (cs ++ [x]) -> Z.of_nat (length (Persistance.octets s)) <= MAX_FILE_SIZE ->
  wp (restaure_entree env racine (PersistanceProofs.restaure s)) (fun w' r => r = 1 /\
    exists c, (c <= 1)%nat /\ maj c w (PP ++ cs ++ [x]) (aspect_de s) w') w.
Proof.
  intros Hr Hp Hc Ec Hl. assert (Forall composant (cs ++ [x])) as Hcx.
  { apply Forall_app_2; [done|]. apply Forall_singleton, (pl_nom _ _ _ _ _ Hp). }
  assert (wp (match PersistanceProofs.restaure s with
      | Persistance.RDossier chemin _ => dossier_sous_garde env racine chemin
      | Persistance.RFichier chemin contenu _ => depose_noeud_sous_garde env racine chemin contenu
      end) (fun w' r => exists i, r = Some i /\ depose w (PP ++ cs ++ [x]) (genre_de s) (Persistance.octets s) i w') w) as W.
  { pose proof (proj1 (pl_ok _ _ _ _ _ Hp)) as A. rewrite app_assoc. unfold PersistanceProofs.restaure, genre_de in *.
    destruct (Persistance.dossier _).
    - unfold dossier_sous_garde. rewrite Ec, morceaux_texte by done. apply wp_lie. unfold wp at 1.
      rewrite (dossier_marche w p x cs PP racine); [|done|done|apply Hp|done|].
      2:{ intros np V. destruct (pl_dossier _ _ _ _ _ Hp) as (np' & V' & K). by rewrite (vivant_fun _ _ _ _ V V'). }
      fold (wp (dossier_boucle env p [x])). eapply wp_mono; [by eapply dossier_spec|].
      intros w' r (i & -> & Hd). unfold wp, rend. exists i. pose proof Hd as (n & c & Hn & V & K & _ & Hc1 & M).
      destruct (Nat.eqb_spec i racine) as [->|_]; [|split; [done|]; by exists n, c].
      pose proof (mj_nomme _ _ _ _ _ M _ _ Hr) as Hr'. pose proof (nomme_chemin_unique _ _ _ _ Hn Hr') as E.
      apply (f_equal length) in E. rewrite !length_app in E. cbn in E. lia.
    - unfold depose_noeud_sous_garde. rewrite Ec, morceaux_texte by done. unfold wp.
      rewrite (depose_marche w p x _ cs PP racine); [|done|done|apply Hp|done].
      fold (wp (depose_boucle env p [x] (Persistance.octets s))). by eapply fichier_spec. }
  unfold restaure_entree, PersistanceProofs.restaure, genre_de, aspect_de in *. unfold genre_de in *.
  destruct (Persistance.dossier (Persistance.meta s)); apply wp_lie; (eapply wp_mono; [exact W|]);
    intros w1 r (i & -> & Hd); apply wp_lie; (eapply wp_mono; [by eapply depose_droits|]);
    intros w2 _ (c & Hc1 & M); unfold wp, rend; (split; [done|]); exists c; done.
Qed.

(** ** The whole list *)

Section Liste.
Context (racine : nat) (l0 : list Node).

Definition coherent (ss : list SnapshotEntree) : Prop := forall s s',
  s ∈ ss -> s' ∈ ss -> Persistance.chemin s = Persistance.chemin s' -> aspect_de s = aspect_de s'.
(** A path strictly below the root. *)
Definition dessous (ds : chemin) : Prop := exists q, q <> [] /\ ds = PP ++ q.

(** The entries [faits] are in place, the directories of [K] among them, the rest is [l0]. *)
Record etat (faits : list SnapshotEntree) (w : Monde) (K : list chemin) : Prop := {
  et_ok : monde_ok w;
  et_racine : nomme (nodes w) PP racine;
  et_dossiers : forall cs, cs ∈ K -> Forall composant cs /\
    exists p np, nomme (nodes w) (PP ++ cs) p /\ vivant (nodes w) p np /\ kind np = Dir;
  et_faits : forall q a, q <> [] -> montre (nodes w) (PP ++ q) a <->
    exists s, s ∈ faits /\ Forall composant q /\ Persistance.chemin s = texte q /\ a = aspect_de s;
  et_autres : forall ds a, ~ dessous ds -> montre (nodes w) ds a <-> montre l0 ds a
}.

Definition deposable (s : SnapshotEntree) : Prop :=
  (length (Persistance.chemin s) < CHEMIN_MAX)%nat /\ Z.of_nat (length (Persistance.octets s)) <= MAX_FILE_SIZE.

Lemma texte_nom cs x : (length x <= length (texte (cs ++ [x])))%nat.
Proof.
  unfold texte. rewrite imprime_app, imprime_un, length_drop, length_app. cbn. lia.
Qed.

(** An entry whose parent is in place goes into place. *)
Lemma etat_place faits w K cs x s :
  etat faits w K -> cs ∈ K -> composant x -> Persistance.chemin s = texte (cs ++ [x]) -> deposable s ->
  coherent (faits ++ [s]) -> (used_nodes (nodes w) < MAX_NODES)%nat ->
  exists p, place w (PP ++ cs) p x (genre_de s).
Proof.
  intros [Hw _ Hd Hf _] Hk Hx Ec [Hl _] Co Hu. destruct (Hd cs Hk) as [Hc (p & np & Hp & V & K')].
  exists p. split; [done..|by exists np| | |done].
  - split; [done|]. pose proof (texte_nom cs x). rewrite Ec in Hl.
    assert (CHEMIN_MAX <= NAME_LEN)%nat by (vm_compute; lia). lia.
  - intros j m Hj Vj. rewrite <-app_assoc in Hj.
    destruct (proj1 (Hf (cs ++ [x]) (aspect m) ltac:(by destruct cs))) as (s' & Hs' & _ & Ec' & Ea); [by exists j, m|].
    assert (aspect_de s' = aspect_de s) as E.
    { apply Co; [apply elem_of_app; by left|apply elem_of_app; right; by apply list_elem_of_singleton|congruence]. }
    rewrite E in Ea. by apply aspect_eq in Ea as [-> _].
Qed.

Lemma etat_suivant faits w K cs x s c w' :
  etat faits w K -> cs ∈ K -> composant x -> Persistance.chemin s = texte (cs ++ [x]) ->
  coherent (faits ++ [s]) -> maj c w (PP ++ cs ++ [x]) (aspect_de s) w' ->
  etat (faits ++ [s]) w' (if Persistance.dossier (Persistance.meta s) then (cs ++ [x]) :: K else K).
Proof.
  intros [Hw Hr Hd Hf Ha] Hk Hx Ec Co M. pose proof M as [Hw' N Mm _].
  assert (Forall composant (cs ++ [x])) as Hcx.
  { apply Forall_app_2; [by apply Hd|by apply Forall_singleton]. }
  assert (forall ds, ds ∈ K -> Forall composant ds /\
    exists p np, nomme (nodes w') (PP ++ ds) p /\ vivant (nodes w') p np /\ kind np = Dir) as HK.
  { intros ds Hds. destruct (Hd ds Hds) as [Hc (p & np & Hp & V & Kp)]. split; [done|].
    assert (montre (nodes w') (PP ++ ds) (aspect np)) as (p' & np' & Hp' & V' & E).
    { apply Mm. destruct (decide (PP ++ ds = PP ++ cs ++ [x])) as [E|Hne]; [|right; split; [done|]; by exists p, np].
      left. split; [done|]. rewrite E in Hp.
      destruct (proj1 (Hf (cs ++ [x]) (aspect np) ltac:(by destruct cs))) as (s' & Hs' & _ & Ec' & Ea); [by exists p, np|].
      rewrite Ea. apply Co; [apply elem_of_app; by left|apply elem_of_app; right; by apply list_elem_of_singleton|congruence]. }
    exists p', np'. split_and!; [done..|]. unfold aspect in E. congruence. }
  split; [done|auto| | |].
  - destruct (Persistance.dossier (Persistance.meta s)) eqn:Ed; [|done]. intros ds [->|Hds]%elem_of_cons; [|auto].
    split; [done|]. destruct (maj_montre _ _ _ _ _ M) as (i & n & Hi & V & E). exists i, n. split_and!; [done..|].
    apply aspect_eq in E as [-> _]. unfold genre_de. by rewrite Ed.
  - intros q a Hq. rewrite Mm. split.
    + intros [[E ->]|[_ Hm]]; [apply app_inv_head in E as ->|apply Hf in Hm as (s' & Hs' & ?); [|done]].
      * exists s. split_and!; [apply elem_of_app; right; by apply list_elem_of_singleton|done..].
      * exists s'. split; [apply elem_of_app; by left|done].
    + intros (s' & Hs' & Hcq & Ec' & ->). destruct (decide (q = cs ++ [x])) as [->|Hne].
      * left. split; [done|]. apply Co; [done|apply elem_of_app; right; by apply list_elem_of_singleton|congruence].
      * right. split; [by intros ?%app_inv_head|]. apply Hf; [done|]. exists s'.
        apply elem_of_app in Hs' as [?|Hs'%list_elem_of_singleton]; [done|]. subst s'. exfalso. apply Hne.
        apply texte_inj; [done..|congruence].
  - intros ds a Hds. rewrite Mm, <-Ha by done. split; [|right; split; [|done]].
    + intros [[-> _]|[_ ?]]; [|done]. destruct Hds. exists (cs ++ [x]). split; [by destruct cs|done].
    + intros ->. destruct Hds. exists (cs ++ [x]). split; [by destruct cs|done].
Qed.

Lemma coherent_prefixe ss s ss' : coherent (ss ++ s :: ss') -> coherent (ss ++ [s]).
Proof.
  intros H a b Ha Hb. apply H; rewrite !elem_of_app in *; rewrite ?elem_of_cons, ?elem_of_nil in *; tauto.
Qed.

Lemma restaure_entrees_spec ss : forall faits w K k,
  etat faits w K -> bien_depose K ss -> coherent (faits ++ ss) -> Forall deposable ss ->
  (used_nodes (nodes w) + length ss <= MAX_NODES)%nat ->
  wp (restaure_entrees env racine (map PersistanceProofs.restaure ss) k) (fun w' r =>
    r = k + Z.of_nat (length ss) /\ exists K', etat (faits ++ ss) w' K') w.
Proof.
  induction ss as [|s ss IH]; intros faits w K k He Hb Co Hd Hu; cbn [map restaure_entrees].
  { unfold wp, rend. rewrite app_nil_r. split; [cbn; lia|by exists K]. }
  inversion Hb as [|K' cs x s' ss' Hk Hx Ec Hb' E1 E2]; subst. apply Forall_cons in Hd as [Hs Hd]. cbn [length] in Hu.
  pose proof (coherent_prefixe _ _ _ Co) as Co'.
  destruct (etat_place _ _ _ _ _ _ He Hk Hx Ec Hs Co') as [p Hp]; [lia|].
  apply wp_lie. eapply wp_mono; [eapply restaure_entree_spec; [apply He|done|by apply (et_dossiers _ _ _ He)|done|apply Hs]|].
  intros w1 r (-> & c & Hc & M). pose proof (etat_suivant _ _ _ _ _ _ _ _ He Hk Hx Ec Co' M) as He1.
  eapply wp_mono; [eapply IH; [exact He1|done|by rewrite <-app_assoc|done|]|].
  { rewrite (mj_compte _ _ _ _ _ M). lia. }
  intros w2 r [-> [K2 H2]]. rewrite <-app_assoc in H2. split; [cbn [length]; lia|by exists K2].
Qed.
End Liste.
End Env.
End Depot.
