(* ===== verification/Durabilite.v ===== *)
(** The persistent tree, end to end: the file system is collected, the snapshot written to the
    zone, the power lost, the zone read and deposited into a fresh file system. To its user the
    zone is a cell that holds a tree of files. *)

From S2P Require Import Prelude Ramfs RamfsProofs RamfsOps RamfsChemins RamfsTrace Bloc Persistance PersistanceProofs PersistanceSurete CacheJetable Collecte CollecteProofs Depot.
From stdpp Require Import strings.

Module Durabilite.
Import Ramfs RamfsProofs RamfsArbre RamfsOps RamfsChemins RamfsSpecs Collecte CollecteProofs Instantane Depot.
Import Persistance(CHEMIN_MAX, SnapshotEntree).
Open Scope Z_scope.
Open Scope os_scope.

(** ** Trees that can be written *)





(** ** The tree a mount shows *)





(** ** The mount *)






(** ** Histories *)

Abbreviation franche := PersistanceSurete.franche.









(** ** A concrete history *)




End Durabilite.
