(* ===== verification/Profils.v ===== *)
(** The pure half of the security policy, [src/kernel/security/]: capability words
    ([capability.rs]), identities ([credentials.rs]), permission bits ([access.rs]), the
    profile a program image is given ([profile.rs]) and the paths a sandboxed profile may read
    and write ([chemins.rs]). Paths and images are lists of bytes. *)

From S2P Require Import Prelude Ramfs.
From stdpp Require Import strings.

Module Profils.
Import Ramfs(octets, SLASH, dernier_slash).
Open Scope Z_scope.

(** ** Texts *)

Definition egal (s t : list Z) : bool := bool_decide (s = t).
Definition starts_with (s p : list Z) : bool := egal (take (length p) s) p.
Definition ends_with (s p : list Z) : bool := egal (drop (length s - length p) s) p.
Fixpoint contains (s p : list Z) : bool :=
  starts_with s p || match s with [] => false | _ :: s => contains s p end.

(** ** Capabilities *)

Definition NONE : Z := 0.
Definition EXEC : Z := Z.shiftl 1 0.
Definition EXEC_UNTRUSTED : Z := Z.shiftl 1 1.
Definition JIT : Z := Z.shiftl 1 2.
Definition DEVICE_IO : Z := Z.shiftl 1 3.
Definition PROCESS_CONTROL : Z := Z.shiftl 1 4.
Definition SET_IDENTITY : Z := Z.shiftl 1 5.
Definition FS_ADMIN : Z := Z.shiftl 1 6.
Definition NETWORK_ADMIN : Z := Z.shiftl 1 7.
Definition IPC_TRANSFER : Z := Z.shiftl 1 8.
Definition DEBUG : Z := Z.shiftl 1 9.
Definition SYSTEM_ADMIN : Z := Z.shiftl 1 10.
Definition NET_CONNECT : Z := Z.shiftl 1 11.
Definition unis (l : list Z) : Z := fold_left Z.lor l 0.
Definition ALL : Z :=
  unis [EXEC; EXEC_UNTRUSTED; JIT; DEVICE_IO; PROCESS_CONTROL; SET_IDENTITY; FS_ADMIN;
         NETWORK_ADMIN; IPC_TRANSFER; DEBUG; SYSTEM_ADMIN; NET_CONNECT].

(** [self.contains(wanted)] *)
Definition possede (self wanted : Z) : bool := Z.land self wanted =? wanted.
Definition intersection (self other : Z) : Z := Z.land self other.
Definition without (self removed : Z) : Z := Z.land self (Z.lxor (u64_max - 1) removed).

(** ** Identities *)

Definition MAX_GROUPS : nat := 16.
Record Credentials := mk_cred {
  ruid : Z; euid : Z; suid : Z; rgid : Z; egid : Z; sgid : Z; groups : list Z; group_count : nat
}.
Definition cred_new (uid gid : Z) : Credentials :=
  mk_cred uid uid uid gid gid gid (replicate MAX_GROUPS 0) 0.
Inductive CredentialError := PermissionDenied.
#[export] Instance CredentialError_eq_dec : EqDecision CredentialError.
Proof. solve_decision. Defined.

Definition set_uid (c : Credentials) (target caps : Z) : Credentials + CredentialError :=
  if possede caps SET_IDENTITY then
    inl (mk_cred target target target (rgid c) (egid c) (sgid c) (groups c) (group_count c))
  else if (target =? ruid c) || (target =? suid c) then
    inl (mk_cred (ruid c) target (suid c) (rgid c) (egid c) (sgid c) (groups c) (group_count c))
  else inr PermissionDenied.
Definition set_gid (c : Credentials) (target caps : Z) : Credentials + CredentialError :=
  if possede caps SET_IDENTITY then
    inl (mk_cred (ruid c) (euid c) (suid c) target target target (groups c) (group_count c))
  else if (target =? rgid c) || (target =? sgid c) then
    inl (mk_cred (ruid c) (euid c) (suid c) (rgid c) target (sgid c) (groups c) (group_count c))
  else inr PermissionDenied.
(** [groups[..group_count]]: the count never passes [MAX_GROUPS]. *)
Definition in_group (c : Credentials) (gid : Z) : bool :=
  (egid c =? gid) || existsb (Z.eqb gid) (take (group_count c) (groups c)).

(** ** Permission bits *)

Definition A_NONE : Z := 0.
Definition A_READ : Z := 4.
Definition A_WRITE : Z := 2.
Definition A_EXECUTE : Z := 1.

Definition mode_allows (creds : Credentials) (owner group mode wanted : Z) (is_dir : bool) : bool :=
  if wanted =? A_NONE then true
  else if euid creds =? 0 then
    if (Z.land wanted A_EXECUTE =? A_EXECUTE) && negb is_dir
    then negb (Z.land mode 73 =? 0) else true
  else
    let shift := if euid creds =? owner then 6 else if in_group creds group then 3 else 0 in
    let granted := Z.land (Z.shiftr mode shift) 7 in
    Z.land granted wanted =? wanted.

Definition sticky_allows (creds : Credentials) (parent_owner parent_mode victim_owner : Z) : bool :=
  if Z.land parent_mode 512 =? 0 then true
  else (euid creds =? 0) || (euid creds =? parent_owner) || (euid creds =? victim_owner).

(** ** Profiles *)

Inductive SecurityProfile := System | User | BrowserBroker | BrowserContent | BrowserNetwork | Untrusted.
#[export] Instance SecurityProfile_eq_dec : EqDecision SecurityProfile.
Proof. solve_decision. Defined.

Definition untrusted_path (image : list Z) : bool :=
  starts_with image (octets "/tmp/") || starts_with image (octets "/var/tmp/")
  || contains image (octets "/Downloads/").
Definition browser_content_image (image : list Z) : bool :=
  ends_with image (octets "/WebContent") || ends_with image (octets "/WebWorker")
  || ends_with image (octets "/ImageDecoder") || ends_with image (octets "/Compositor").
Definition browser_network_image (image : list Z) : bool := ends_with image (octets "/RequestServer").

(** [rsplit_once('/')]: what follows the last slash. *)
Definition nom_de_fichier (image : list Z) : list Z :=
  match dernier_slash image with Some i => drop (S i) image | None => image end.
Definition NOMS_DE_COURTIER : list (list Z) :=
  octets <$> ["bo-navigateur"; "BrowserHost"; "BouchaudBrowserHost"; "WebDriver"]%string.
Definition REPERTOIRES_DE_COURTIER : list (list Z) :=
  octets <$> ["/"; "/usr/bin/"; "/usr/libexec/ladybird/"]%string.
Definition trusted_browser_broker_image (image : list Z) : bool :=
  let nom := nom_de_fichier image in
  if negb (existsb (fun connu => egal connu nom) NOMS_DE_COURTIER) then false
  else existsb (fun connu => egal connu (take (length image - length nom) image)) REPERTOIRES_DE_COURTIER.

Definition classify (image : list Z) (uid : Z) : SecurityProfile :=
  if untrusted_path image then Untrusted
  else if browser_content_image image then BrowserContent
  else if browser_network_image image then BrowserNetwork
  else if trusted_browser_broker_image image then BrowserBroker
  else if uid =? 0 then System else User.

Definition capabilities (profile : SecurityProfile) : Z :=
  match profile with
  | System => ALL
  | User => unis [EXEC; IPC_TRANSFER; NET_CONNECT]
  | BrowserBroker => unis [EXEC; JIT; DEVICE_IO; IPC_TRANSFER; NET_CONNECT]
  | BrowserContent => unis [EXEC; JIT; IPC_TRANSFER]
  | BrowserNetwork => unis [EXEC; IPC_TRANSFER; NET_CONNECT]
  | Untrusted => EXEC
  end.
Definition initial_capabilities (image : list Z) (uid : Z) : Z :=
  let ambient := if uid =? 0 then ALL else capabilities User in
  intersection ambient (capabilities (classify image uid)).
Definition transition_capabilities (current : Z) (wanted : SecurityProfile) : Z :=
  intersection current (capabilities wanted).
Definition sandboxe (profile : SecurityProfile) : bool :=
  match profile with BrowserContent | BrowserNetwork | Untrusted => true | _ => false end.
Definition transition_exec (capacites : Z) (no_new_privs : bool) (nouvelle_image : list Z) (euid : Z)
  : SecurityProfile * Z * bool :=
  let nouveau := classify nouvelle_image euid in
  (nouveau, transition_capabilities capacites nouveau, no_new_privs || sandboxe nouveau).

(** ** Paths of the sandboxed profiles *)

Definition PROFIL_NAVIGATEUR : list Z := octets "/persist/ladybird".
Definition DOSSIER_TELECHARGEMENTS : list Z := octets "/persist/Downloads".
Definition MAGASIN_DU_CHROME : list Z := octets "/persist/ladybird-chrome".

Definition sous_arbre (path root : list Z) : bool :=
  egal path root || (starts_with path root && bool_decide (path !! length root = Some SLASH)).

Definition lecture_commune (path : list Z) : bool :=
  existsb (fun r => sous_arbre path (octets r))
    ["/usr"; "/lib"; "/etc"; "/tmp"; "/var/tmp"; "/proc/self"; "/proc/sys/vm"; "/proc/sys/kernel";
     "/sys/devices/system/cpu"]%string
  || egal path (octets "/proc/stat") || egal path (octets "/proc/cpuinfo")
  || sous_arbre path (octets "/dev/shm")
  || egal path (octets "/dev/null") || egal path (octets "/dev/zero") || egal path (octets "/dev/urandom").
Definition ecriture_commune (path : list Z) : bool :=
  sous_arbre path (octets "/tmp") || sous_arbre path (octets "/var/tmp")
  || sous_arbre path (octets "/dev/shm") || egal path (octets "/dev/null").

Definition RACINES_PRIVEES : list (list Z) :=
  PROFIL_NAVIGATEUR :: (octets <$> ["/tmp/ladybird"; "/tmp/ladybird-config"; "/tmp/ladybird-data"; "/tmp/ladybird-cache"]%string).
Definition CACHES_RESEAU : list (list Z) :=
  octets <$> ["/persist/ladybird/cache"; "/tmp/ladybird-cache"]%string.
Definition dans_le_profil_prive (path : list Z) : bool := existsb (sous_arbre path) RACINES_PRIVEES.
Definition dans_le_cache_reseau (path : list Z) : bool := existsb (sous_arbre path) CACHES_RESEAU.
Definition ancetre_du_cache (path : list Z) : bool :=
  existsb (fun racine =>
    (length path <? length racine)%nat && starts_with racine path
    && (egal path [SLASH] || bool_decide (racine !! length path = Some SLASH))) CACHES_RESEAU.
Definition possede_le_cache (profile : SecurityProfile) : bool :=
  match profile with BrowserNetwork => true | _ => false end.
Definition lecture_permise (profile : SecurityProfile) (path : list Z) : bool :=
  if egal path [SLASH] then false
  else if dans_le_profil_prive path then
    possede_le_cache profile && (dans_le_cache_reseau path || ancetre_du_cache path)
  else if lecture_commune path then true
  else possede_le_cache profile && ancetre_du_cache path.
Definition joue_du_son (profile : SecurityProfile) : bool :=
  match profile with BrowserContent => true | _ => false end.
Definition ecriture_permise (profile : SecurityProfile) (path : list Z) : bool :=
  if dans_le_profil_prive path then possede_le_cache profile && dans_le_cache_reseau path
  else if ecriture_commune path then true
  else joue_du_son profile && egal path (octets "/dev/dsp").
End Profils.
