(* ===== verification/Politique.v ===== *)
(** The table of security contexts, [src/kernel/security/policy.rs]: one entry per process,
    created on demand, reclassified when the image or the identity of the process changes,
    inherited at a fork and forgotten at the end.

    The locks of the source delimit what is atomic: the lookup of an entry, the snapshot of the
    live processes and the sweep of the table are separate steps, and a process that has just
    been forked can run before its parent hands its context over ([compat/linux/proc.rs],
    [syscall.rs]). *)

From S2P Require Import Prelude Ramfs Profils.
From stdpp Require Import gmap strings.

Module Politique.
Import Profils.
Open Scope Z_scope.
Open Scope os_scope.

Record Entry := mk_entry {
  pid : Z; image : list Z; credentials : Credentials; caps : Z; profile : SecurityProfile;
  no_new_privs : bool
}.
Record Snapshot := mk_snapshot {
  s_pid : Z; s_credentials : Credentials; s_caps : Z; s_profile : SecurityProfile; s_nnp : bool
}.

Definition make_entry (p : Z) (im : list Z) (uid gid : Z) : Entry :=
  let profile := classify im uid in
  mk_entry p im (cred_new uid gid) (initial_capabilities im uid) profile (sandboxe profile).
Definition snapshot (e : Entry) : Snapshot :=
  mk_snapshot (pid e) (credentials e) (caps e) (profile e) (no_new_privs e).

(** A change of the identity of the session. *)
Definition suit_identite (e : Entry) (im : list Z) (uid gid : Z) : Entry :=
  if negb (euid (credentials e) =? uid) || negb (egid (credentials e) =? gid) then
    let new_profile := classify im uid in
    mk_entry (pid e) (image e) (cred_new uid gid) (transition_capabilities (caps e) new_profile)
      new_profile (no_new_privs e)
  else e.
(** A change of image. *)
Definition suit_image (e : Entry) (im : list Z) : Entry :=
  if negb (egal (image e) im) then
    let '(new_profile, capacites, nnp) :=
      transition_exec (caps e) (no_new_privs e) im (euid (credentials e)) in
    mk_entry (pid e) im (credentials e) capacites new_profile nnp
  else e.
Definition rafraichit (e : Entry) (im : list Z) (uid gid : Z) : Entry :=
  suit_image (suit_identite e im uid gid) im.

Definition est_de (p : Z) (e : Entry) : Prop := pid e = p.
#[export] Instance est_de_dec p e : Decision (est_de p e).
Proof. unfold est_de. apply _. Defined.
#[export] Typeclasses Opaque est_de.
Definition ensure_entry (contexts : list Entry) (p : Z) (im : list Z) (uid gid : Z) : list Entry * Entry :=
  match list_find (est_de p) contexts with
  | Some (i, e) => let e := rafraichit e im uid gid in (<[i := e]> contexts, e)
  | None => let e := rafraichit (make_entry p im uid gid) im uid gid in (contexts ++ [e], e)
  end.
(** What a caller does with the [&mut Entry] it was given. *)
Definition remplace (contexts : list Entry) (e : Entry) : list Entry :=
  match list_find (est_de (pid e)) contexts with
  | Some (i, _) => <[i := e]> contexts
  | None => contexts
  end.

(** ** The kernel around the table *)

(** What the policy reads of a process. *)
Record Processus := mk_processus { p_parent : Z; p_name : list Z; p_uid : Z; p_gid : Z }.
Definition avec_uid (u : Z) (q : Processus) : Processus := mk_processus (p_parent q) (p_name q) u (p_gid q).
Definition avec_gid (g : Z) (q : Processus) : Processus := mk_processus (p_parent q) (p_name q) (p_uid q) g.
Definition avec_image (im : list Z) (q : Processus) : Processus := mk_processus (p_parent q) im (p_uid q) (p_gid q).

(** [releves]: the lists of live processes read by sweeps that have not swept yet. *)
Record Etat := mk_etat {
  processus : gmap Z Processus; contextes : list Entry; checks : Z; releves : list (list Z)
}.
Definition avec_contextes (cs : list Entry) (s : Etat) : Etat := mk_etat (processus s) cs (checks s) (releves s).
Definition avec_processus (ps : gmap Z Processus) (s : Etat) : Etat := mk_etat ps (contextes s) (checks s) (releves s).

(** [None] of the source's lookups, and the overflow check of the counter, stop. *)
Definition P : Type -> Type := M Etat unit.
Definition lit {A} (f : Etat -> A) : P A := s <- etat_courant ;; rend (f s).

Definition processus_de (p : Z) : P Processus :=
  ps <- lit processus ;; ou_echoue (ps !! p) tt.
Definition entree (p : Z) (q : Processus) : P Entry :=
  cs <- lit contextes ;;
  let '(cs, e) := ensure_entry cs p (p_name q) (p_uid q) (p_gid q) in
  change (avec_contextes cs) ;;;
  rend e.
Definition pose_entree (e : Entry) : P unit := change (fun s => avec_contextes (remplace (contextes s) e) s).

(** [CHECKS.fetch_add(1) + 1], and whether a sweep is due. *)
Definition compte_controle : P bool :=
  n <- lit checks ;;
  garde (n =? u64_max - 1) tt ;;;
  change (fun s => mk_etat (processus s) (contextes s) (n + 1) (releves s)) ;;;
  rend (Z.land (n + 1) 1023 =? 0).
Definition vivants (s : Etat) : list Z := (map_to_list (processus s)).*1.
Definition balaie (live : list Z) (cs : list Entry) : list Entry :=
  List.filter (fun e => existsb (Z.eqb (pid e)) live) cs.
Definition maybe_maintenance : P unit :=
  du <- compte_controle ;;
  if (du : bool) then
    live <- lit vivants ;;
    change (fun s => avec_contextes (balaie live (contextes s)) s)
  else rend tt.

(** The part of [current] under the locks. *)
Definition instantane (p : Z) : P Snapshot :=
  q <- processus_de p ;; e <- entree p q ;; rend (snapshot e).
Definition current (p : Z) : P Snapshot :=
  x <- instantane p ;; maybe_maintenance ;;; rend x.

(** [appelant]: the process of the ring 3 task that runs, if any; [session]: the identity of the
    session. *)
Definition launch (appelant : option Z) (session : Z * Z) (im : list Z) : P Snapshot :=
  match appelant with
  | Some p => current p
  | None =>
      let '(uid, gid) := session in
      rend (mk_snapshot 0 (cred_new uid gid) (initial_capabilities im uid) (classify im uid) false)
  end.

Definition set_uid_current (p target : Z) : P (Snapshot + CredentialError) :=
  q <- processus_de p ;;
  e <- entree p q ;;
  match set_uid (credentials e) target (caps e) with
  | inr err => rend (inr err)
  | inl c =>
      change (fun s => avec_processus (<[p := avec_uid (euid c) q]> (processus s)) s) ;;;
      let new_profile := classify (image e) (euid c) in
      let e := mk_entry (pid e) (image e) c (transition_capabilities (caps e) new_profile) new_profile
                 (no_new_privs e) in
      pose_entree e ;;;
      rend (inl (snapshot e))
  end.
Definition set_gid_current (p target : Z) : P (Snapshot + CredentialError) :=
  q <- processus_de p ;;
  e <- entree p q ;;
  match set_gid (credentials e) target (caps e) with
  | inr err => rend (inr err)
  | inl c =>
      change (fun s => avec_processus (<[p := avec_gid (egid c) q]> (processus s)) s) ;;;
      let e := mk_entry (pid e) (image e) c (caps e) (profile e) (no_new_privs e) in
      pose_entree e ;;;
      rend (inl (snapshot e))
  end.
Definition set_no_new_privs_current (p : Z) : P unit :=
  q <- processus_de p ;;
  e <- entree p q ;;
  pose_entree (mk_entry (pid e) (image e) (credentials e) (caps e) (profile e) true).
Definition no_new_privs_current (p : Z) : P bool := x <- current p ;; rend (s_nnp x).

Definition apply_profile (p : Z) (wanted : SecurityProfile) : P bool :=
  ps <- lit processus ;;
  match ps !! p with
  | None => rend false
  | Some q =>
      e <- entree p q ;;
      pose_entree (mk_entry (pid e) (image e) (credentials e) (transition_capabilities (caps e) wanted)
                     wanted (no_new_privs e)) ;;;
      rend true
  end.

Definition sauf (p : Z) (cs : list Entry) : list Entry := List.filter (fun e => negb (pid e =? p)) cs.
Definition inherit (parent_pid child_pid : Z) : P unit :=
  if parent_pid =? child_pid then rend tt
  else
    ps <- lit processus ;;
    match ps !! parent_pid, ps !! child_pid with
    | Some parent, Some child =>
        if negb (p_parent child =? parent_pid) then rend tt
        else
          h <- entree parent_pid parent ;;
          cs <- lit contextes ;;
          let deja_confine := existsb (fun e => (pid e =? child_pid) && no_new_privs e) cs in
          let herite := mk_entry child_pid (image h) (credentials h) (caps h) (profile h) (no_new_privs h) in
          change (avec_contextes (sauf child_pid cs ++ [herite])) ;;;
          e <- entree child_pid child ;;
          pose_entree (mk_entry (pid e) (image e) (credentials e) (caps e) (profile e)
                         (no_new_privs e || deja_confine))
    | _, _ => rend tt
    end.
Definition forget (p : Z) : P unit := change (fun s => avec_contextes (sauf p (contextes s)) s).

Definition filesystem_owner (p : Z) : P (Z * Z) :=
  x <- current p ;;
  rend (Z.min (euid (s_credentials x)) 65535, Z.min (egid (s_credentials x)) 65535).

(** ** The life of processes *)

(** A pid is given once, from 1 ([process.rs]). *)
Definition pid_neuf (p : Z) : P unit :=
  ps <- lit processus ;;
  garde (bool_decide (is_Some (ps !! p)) || (p <=? 0) || (u32_max <=? p)) tt.
(** [sys_fork]: the child has the image and the identity of its parent and can run. *)
Definition naissance (parent enfant : Z) : P unit :=
  q <- processus_de parent ;;
  pid_neuf enfant ;;;
  change (fun s => avec_processus (<[enfant := mk_processus parent (p_name q) (p_uid q) (p_gid q)]> (processus s)) s).
(** [after_syscall] of the parent, after a fork that returned the pid of the child. *)
Definition after_syscall (fork : bool) (parent result : Z) : P unit :=
  if negb fork || (result <=? 0) then rend tt else inherit parent (result mod u32_max).
(** [lance_enfant]: the name of the process is the path the caller wrote; the context is
    inherited before the first task of the child exists. *)
Definition lance_enfant (parent enfant : Z) (path : list Z) : P unit :=
  q <- processus_de parent ;;
  pid_neuf enfant ;;;
  change (fun s => avec_processus (<[enfant := mk_processus parent path (p_uid q) (p_gid q)]> (processus s)) s) ;;;
  inherit parent enfant.
(** A launch by the kernel, for the session. *)
Definition demarre (p : Z) (path : list Z) (uid gid : Z) : P unit :=
  pid_neuf p ;;;
  change (fun s => avec_processus (<[p := mk_processus 0 path uid gid]> (processus s)) s).
(** [sys_execve], once the new image is in place: the canonical path names the process. *)
Definition execve (p : Z) (path : list Z) : P unit :=
  q <- processus_de p ;;
  change (fun s => avec_processus (<[p := avec_image path q]> (processus s)) s).
(** The process leaves the table of processes, and its context goes with it. *)
Definition meurt (p : Z) : P unit :=
  change (fun s => avec_processus (delete p (processus s)) s) ;;;
  forget p.

Inductive Evenement :=
| Courant (p : Z) | FixeUid (p t : Z) | FixeGid (p t : Z) | FixeNnp (p : Z)
| Applique (p : Z) (wanted : SecurityProfile)
| Execve (p : Z) (path : list Z)
| Fourche (parent enfant : Z)
| Lance (parent enfant : Z) (path : list Z)
| Demarre (p : Z) (path : list Z) (uid gid : Z)
| Meurt (p : Z)
| Naissance (parent enfant : Z) | Herite (parent enfant : Z)
| Instantane (p : Z) | Releve | Balaie (i : nat).

(** [Fourche] is a fork whose parent returns from the call before the child runs; [Naissance] and
    [Herite] are its two halves. [Courant] sweeps at once when a sweep is due; [Instantane],
    [Releve] and [Balaie] are its three parts. *)
Definition etape (ev : Evenement) : P unit :=
  match ev with
  | Courant p => current p ;;; rend tt
  | FixeUid p t => set_uid_current p t ;;; rend tt
  | FixeGid p t => set_gid_current p t ;;; rend tt
  | FixeNnp p => set_no_new_privs_current p
  | Applique p wanted => apply_profile p wanted ;;; rend tt
  | Execve p path => execve p path
  | Fourche parent enfant => naissance parent enfant ;;; after_syscall true parent enfant
  | Lance parent enfant path => lance_enfant parent enfant path
  | Demarre p path uid gid => demarre p path uid gid
  | Meurt p => meurt p
  | Naissance parent enfant => naissance parent enfant
  | Herite parent enfant => after_syscall true parent enfant
  | Instantane p => instantane p ;;; rend tt
  | Releve =>
      du <- compte_controle ;;
      if (du : bool) then
        change (fun s => mk_etat (processus s) (contextes s) (checks s) (vivants s :: releves s))
      else rend tt
  | Balaie i =>
      rs <- lit releves ;;
      live <- ou_echoue (rs !! i) tt ;;
      change (fun s => mk_etat (processus s) (balaie live (contextes s)) (checks s) (delete i (releves s)))
  end.
Fixpoint deroule (evs : list Evenement) : P unit :=
  match evs with
  | [] => rend tt
  | ev :: evs => etape ev ;;; deroule evs
  end.
Definition etat_vide : Etat := mk_etat ∅ [] 0 [].
End Politique.
