(* ===== verification/PolitiqueProofs.v ===== *)
(** What the table of security contexts guarantees: the classification is the one of the image
    in every interleaving; authority does not leave a family of processes whose forks and sweeps
    are not interleaved; and the interleavings in which it does. *)

From S2P Require Import Prelude Ramfs Profils Politique.
From stdpp Require Import gmap strings.

Module PolitiqueProofs.
Import Ramfs(octets).
Import Profils Politique.
Open Scope Z_scope.
Open Scope os_scope.

(** ** Capability words *)

Definition inclus (a b : Z) : Prop := Z.land a b = a.
#[export] Instance inclus_po : PreOrder inclus.
Proof.
  split; unfold inclus; [intros a; apply Z.land_diag|].
  intros a b c H1 H2. by rewrite <-H1, <-Z.land_assoc, H2.
Qed.
Lemma inclus_land_l a b : inclus (Z.land a b) a.
Proof. unfold inclus. by rewrite (Z.land_comm a b), <-Z.land_assoc, Z.land_diag. Qed.
Lemma inclus_land_r a b : inclus (Z.land a b) b.
Proof. unfold inclus. by rewrite <-Z.land_assoc, Z.land_diag. Qed.
Lemma inclus_transition c pr : inclus (transition_capabilities c pr) c.
Proof. apply inclus_land_l. Qed.
Lemma inclus_transition_profil c pr : inclus (transition_capabilities c pr) (capabilities pr).
Proof. apply inclus_land_r. Qed.
Lemma possede_inclus a b w : inclus a b -> possede a w = true -> possede b w = true.
Proof.
  unfold possede, inclus. rewrite !Z.eqb_eq. intros Ha Hw.
  rewrite <-Hw at 1. rewrite (Z.land_comm a w), Z.land_assoc, (Z.land_comm b w), <-Z.land_assoc.
  by rewrite (Z.land_comm b a), Ha, (Z.land_comm w a).
Qed.
Create HintDb autorite.
#[export] Hint Resolve inclus_transition inclus_transition_profil inclus_land_l inclus_land_r : autorite.

(** ** The classification *)

(** Only the trusted images depend on the identity. *)
Lemma classify_uid im u v :
  classify im u = classify im v \/ sandboxe (classify im u) = false /\ sandboxe (classify im v) = false.
Proof.
  unfold classify. repeat (case_match; [by left|]). destruct (u =? 0), (v =? 0); auto.
Qed.
Lemma sandboxe_uid im u v : sandboxe (classify im u) = sandboxe (classify im v).
Proof. destruct (classify_uid im u v) as [->|[-> ->]]; done. Qed.

(** An entry that matches its own image and identity. *)
Record classee (e : Entry) : Prop := {
  cl_caps : inclus (caps e) (capabilities (classify (image e) (euid (credentials e))));
  cl_nnp : sandboxe (classify (image e) (euid (credentials e))) = true -> no_new_privs e = true;
  cl_profil : profile e = classify (image e) (euid (credentials e))
}.

Lemma make_classee p im uid gid : classee (make_entry p im uid gid).
Proof. split; cbn; [apply inclus_land_r|done..]. Qed.

(** What an entry is after the changes of image and identity were followed. *)
Lemma rafraichit_identite e im uid gid :
  let e' := rafraichit e im uid gid in
  image e' = im /\ pid e' = pid e /\ euid (credentials e') = uid /\ egid (credentials e') = gid.
Proof.
  cbn zeta. unfold rafraichit, suit_image.
  assert (euid (credentials (suit_identite e im uid gid)) = uid /\
          egid (credentials (suit_identite e im uid gid)) = gid /\
          pid (suit_identite e im uid gid) = pid e) as (H1 & H2 & H3).
  { unfold suit_identite. destruct (Z.eqb_spec (euid (credentials e)) uid), (Z.eqb_spec (egid (credentials e)) gid); done. }
  destruct (egal _ im) eqn:E; [|done].
  split; [|done]. unfold egal in E. by apply bool_decide_eq_true in E.
Qed.

Lemma suit_identite_cas e im uid gid :
  suit_identite e im uid gid = e /\ euid (credentials e) = uid \/
  suit_identite e im uid gid =
    mk_entry (pid e) (image e) (cred_new uid gid) (transition_capabilities (caps e) (classify im uid))
      (classify im uid) (no_new_privs e).
Proof.
  unfold suit_identite. destruct (Z.eqb_spec (euid (credentials e)) uid); cbn [negb orb]; [|by right].
  destruct (negb _); auto.
Qed.
Lemma suit_image_cas e im :
  suit_image e im = e /\ image e = im \/
  suit_image e im =
    mk_entry (pid e) im (credentials e) (transition_capabilities (caps e) (classify im (euid (credentials e))))
      (classify im (euid (credentials e))) (no_new_privs e || sandboxe (classify im (euid (credentials e)))).
Proof.
  unfold suit_image. destruct (egal (image e) im) eqn:E; cbn [negb]; [|by right].
  left. split; [done|]. unfold egal in E. by apply bool_decide_eq_true in E.
Qed.

Lemma rafraichit_classee e im uid gid : classee e -> classee (rafraichit e im uid gid).
Proof.
  intros [Hc Hn Hp]. unfold rafraichit.
  destruct (suit_identite_cas e im uid gid) as [[-> Hu]|E].
  - destruct (suit_image_cas e im) as [[-> _]| ->]; [by split|]. split; cbn; [auto with autorite| |done].
    intros ->. by rewrite orb_true_r.
  - destruct (suit_image_cas (suit_identite e im uid gid) im) as [[-> Hi]| ->]; rewrite E in *; cbn in *.
    + subst im. split; cbn; [auto with autorite| |done]. intros H. apply Hn. by rewrite (sandboxe_uid _ _ uid).
    + split; cbn; [auto with autorite| |done]. intros ->. by rewrite orb_true_r.
Qed.

(** Following a change never adds authority. *)
Record moins (e e' : Entry) : Prop := {
  mo_caps : inclus (caps e') (caps e);
  mo_nnp : no_new_privs e = true -> no_new_privs e' = true
}.
#[export] Instance moins_po : PreOrder moins.
Proof.
  split; [intros e; by split|]. intros x y z [H1 H2] [H3 H4]. split; [by transitivity (caps y)|auto].
Qed.
Lemma rafraichit_moins e im uid gid : moins e (rafraichit e im uid gid).
Proof.
  unfold rafraichit. transitivity (suit_identite e im uid gid).
  - destruct (suit_identite_cas e im uid gid) as [[-> _]| ->]; [done|]. split; cbn; auto with autorite.
  - destruct (suit_image_cas (suit_identite e im uid gid) im) as [[-> _]| ->]; [done|].
    split; cbn; [auto with autorite|]. intros ->. done.
Qed.

(** ** The entries of one process *)

Definition de (p : Z) (cs : list Entry) : list Entry := filter (est_de p) cs.

Lemma de_app p a b : de p (a ++ b) = de p a ++ de p b.
Proof. apply filter_app. Qed.
Lemma de_un p e : de p [e] = if decide (pid e = p) then [e] else [].
Proof. unfold de. rewrite filter_cons, filter_nil. unfold est_de. repeat case_decide; done. Qed.

Lemma trouve_coupe p cs i e :
  list_find (est_de p) cs = Some (i, e) ->
  pid e = p /\ exists a b, cs = a ++ e :: b /\ length a = i /\ de p a = [].
Proof.
  intros (Hl & He & Hn)%list_find_Some. split; [done|].
  exists (take i cs), (drop (S i) cs). split_and!.
  - symmetry. by apply take_drop_middle.
  - apply length_take_le. apply lookup_lt_Some in Hl. lia.
  - apply elem_of_nil_inv. intros x [Hx Hi]%list_elem_of_filter.
    apply list_elem_of_lookup_1 in Hi as [j Hj]. rewrite lookup_take_Some in Hj. destruct Hj as [Hj Hlt].
    by apply (Hn j x).
Qed.
Lemma trouve_aucun p cs : list_find (est_de p) cs = None -> de p cs = [].
Proof.
  intros H%list_find_None. apply elem_of_nil_inv. intros x [Hx Hi]%list_elem_of_filter.
  rewrite Forall_forall in H. by apply (H x).
Qed.

Lemma insere_milieu {A} (a : list A) x y b : <[length a := y]> (a ++ x :: b) = a ++ y :: b.
Proof. induction a as [|z a IH]; [done|]. exact (f_equal (cons z) IH). Qed.
Lemma de_insere p a e b x :
  pid e = pid x -> de p (a ++ x :: b) = de p a ++ (if decide (pid e = p) then [x] else []) ++ de p b.
Proof.
  intros H. change (x :: b) with ([x] ++ b). by rewrite !de_app, de_un, <-H.
Qed.

(** The entry found or made, and the table after. *)
Lemma ensure_spec cs p im uid gid cs' e' :
  ensure_entry cs p im uid gid = (cs', e') ->
  pid e' = p /\ (forall p', p' <> p -> de p' cs' = de p' cs) /\
  (de p cs = [] /\ e' = rafraichit (make_entry p im uid gid) im uid gid /\ de p cs' = [e'] \/
   exists e r, de p cs = e :: r /\ e' = rafraichit e im uid gid /\ de p cs' = e' :: r).
Proof.
  unfold ensure_entry. destruct (list_find (est_de p) cs) as [[i e]|] eqn:E; intros [= <- <-].
  - apply trouve_coupe in E as (He & a & b & -> & <- & Ha).
    pose proof (rafraichit_identite e im uid gid) as (_ & Hp & _).
    rewrite insere_milieu. split_and!; [congruence| |right; exists e, (de p b)].
    + intros p' Hne. rewrite !(de_insere p' a e b) by congruence. by rewrite !decide_False by congruence.
    + rewrite !(de_insere p a e b) by congruence. rewrite !decide_True by congruence. by rewrite Ha.
  - apply trouve_aucun in E.
    pose proof (rafraichit_identite (make_entry p im uid gid) im uid gid) as (_ & Hp & _). cbn in Hp.
    split_and!; [done| |left]; intros; rewrite ?de_app, ?de_un, ?E.
    + by rewrite decide_False, app_nil_r by congruence.
    + by rewrite decide_True by done.
Qed.

Lemma remplace_spec cs e x r :
  de (pid e) cs = x :: r ->
  de (pid e) (remplace cs e) = e :: r /\ forall p', p' <> pid e -> de p' (remplace cs e) = de p' cs.
Proof.
  intros H. unfold remplace. destruct (list_find (est_de (pid e)) cs) as [[i y]|] eqn:E.
  - apply trouve_coupe in E as (He & a & b & -> & <- & Ha). rewrite insere_milieu.
    revert H. rewrite (de_insere _ a e b y) by done. rewrite decide_True, Ha by done. intros [= <- <-]. split.
    + rewrite (de_insere _ a e b e) by done. by rewrite decide_True, Ha by done.
    + intros p' Hp. rewrite (de_insere p' a e b e), (de_insere p' a e b y) by done. by rewrite !decide_False by congruence.
  - apply trouve_aucun in E. congruence.
Qed.

Lemma de_sauf p q cs : de p (sauf q cs) = if decide (p = q) then [] else de p cs.
Proof.
  unfold de, sauf. induction cs as [|e cs IH]; [by case_decide|]. cbn [List.filter].
  rewrite (filter_cons _ e cs). unfold est_de in *. destruct (Z.eqb_spec (pid e) q) as [<-|Hn]; cbn [negb].
  - rewrite IH. repeat case_decide; congruence.
  - rewrite filter_cons, IH. repeat case_decide; congruence.
Qed.
Lemma de_balaie p live cs : de p (balaie live cs) = if existsb (Z.eqb p) live then de p cs else [].
Proof.
  unfold de, balaie. induction cs as [|e cs IH]; [by case_match|]. cbn [List.filter].
  rewrite (filter_cons _ e cs). unfold est_de in *. destruct (existsb (Z.eqb (pid e)) live) eqn:E.
  - rewrite filter_cons, IH. case_decide; subst; [by rewrite E|]. done.
  - rewrite IH. case_decide; subst; [by rewrite E|]. done.
Qed.

(** ** The operations *)

(** What holds if the computation returns. *)
Definition wlp {A} (c : P A) (Q : Etat -> A -> Prop) (s : Etat) : Prop :=
  forall s' x, c s = (s', inl x) -> Q s' x.
Lemma wlp_lie {A B} (c : P A) (k : A -> P B) Q s :
  wlp c (fun s' x => wlp (k x) Q s') s -> wlp (lie c k) Q s.
Proof.
  intros H s' y E. unfold lie in E. destruct (c s) as [s1 [x|e]] eqn:E1; [|done].
  exact (H s1 x E1 s' y E).
Qed.
Lemma wlp_mono {A} (c : P A) (Q R : Etat -> A -> Prop) s :
  wlp c Q s -> (forall s' x, Q s' x -> R s' x) -> wlp c R s.
Proof. intros H HR s' x E. auto. Qed.
Lemma wlp_rend {A} (x : A) (Q : Etat -> A -> Prop) s : Q s x -> wlp (rend x) Q s.
Proof. by intros H s' y [= <- <-]. Qed.
Lemma wlp_lit {A} (f : Etat -> A) (Q : Etat -> A -> Prop) s : Q s (f s) -> wlp (lit f) Q s.
Proof. by intros H s' y [= <- <-]. Qed.
Lemma wlp_change f (Q : Etat -> unit -> Prop) s : Q (f s) tt -> wlp (change f) Q s.
Proof. by intros H s' y [= <- <-]. Qed.
Lemma wlp_processus_de p (Q : Etat -> Processus -> Prop) s :
  (forall q, processus s !! p = Some q -> Q s q) -> wlp (processus_de p) Q s.
Proof.
  intros H s' y E. unfold processus_de, lit, lie, etat_courant, rend, ou_echoue in E.
  destruct (processus s !! p) eqn:Ep; [|done]. injection E as <- <-. auto.
Qed.
Lemma wlp_pid_neuf p (Q : Etat -> unit -> Prop) s :
  (processus s !! p = None -> 0 < p < u32_max -> Q s tt) -> wlp (pid_neuf p) Q s.
Proof.
  intros H s' [] E. unfold pid_neuf, lit, lie, etat_courant, rend, garde, echoue in E.
  destruct (_ || _) eqn:Eb; [done|]. injection E as <-.
  apply orb_false_iff in Eb as [[Eb E1]%orb_false_iff E2].
  apply bool_decide_eq_false in Eb. apply Z.leb_gt in E1, E2. apply H; [|lia].
  by apply eq_None_not_Some.
Qed.
Tactic Notation "etapes" uconstr(L) := apply wlp_lie; eapply wlp_mono; [apply L|]; cbv beta.

(** The entries of each process. *)
Definition V (s : Etat) (p : Z) : list Entry := de p (contextes s).
Definition pareil_sauf (p : Z) (s s' : Etat) : Prop := forall p', p' <> p -> V s' p' = V s p'.
(** The head of the entries of [p], found in [s] or made for [q]. *)
Definition tete (s : Etat) (p : Z) (q : Processus) (e : Entry) (r : list Entry) : Prop :=
  (V s p = [] /\ r = [] /\ e = rafraichit (make_entry p (p_name q) (p_uid q) (p_gid q)) (p_name q) (p_uid q) (p_gid q)) \/
  (exists e0, V s p = e0 :: r /\ e = rafraichit e0 (p_name q) (p_uid q) (p_gid q)).

Lemma entree_spec p q s :
  wlp (entree p q) (fun s' e =>
    processus s' = processus s /\ releves s' = releves s /\ pid e = p /\ pareil_sauf p s s' /\
    exists r, tete s p q e r /\ V s' p = e :: r) s.
Proof.
  intros s' e E. unfold entree, lit, lie, etat_courant, rend, change in E.
  destruct (ensure_entry _ _ _ _ _) as [cs e'] eqn:Ee. injection E as <- <-.
  apply ensure_spec in Ee as (Hp & Hn & H). split_and!; try done.
  destruct H as [(H1 & H2 & H3)|(e0 & r & H1 & H2 & H3)]; [exists []|exists r]; (split; [|done]); [by left|].
  right. by exists e0.
Qed.
Lemma pose_spec e x r s :
  V s (pid e) = x :: r ->
  wlp (pose_entree e) (fun s' _ =>
    processus s' = processus s /\ releves s' = releves s /\ pareil_sauf (pid e) s s' /\ V s' (pid e) = e :: r) s.
Proof. intros H. apply wlp_change. apply remplace_spec in H as [H1 H2]. by split_and!. Qed.

(** Looking an entry up, then changing it. *)
Lemma maj_spec p q (f : Entry -> Entry) s :
  (forall e, pid (f e) = pid e) ->
  wlp (e <- entree p q ;; pose_entree (f e)) (fun s' _ =>
    processus s' = processus s /\ releves s' = releves s /\ pareil_sauf p s s' /\
    exists e r, tete s p q e r /\ pid e = p /\ V s' p = f e :: r) s.
Proof.
  intros Hf. etapes entree_spec. intros s1 e (E1 & E2 & He & Hs & r & Ht & Hv).
  rewrite <-He in Hv. eapply wlp_mono; [apply (pose_spec (f e) e r); by rewrite Hf|].
  intros s2 [] (E3 & E4 & Hs2 & Hv2). rewrite Hf, He in *. split_and!; [congruence..| |].
  - intros p' Hp. rewrite Hs2 by done. by apply Hs.
  - by exists e, r.
Qed.

(** An operation on the entry of [p]; [b] when it keeps the classification. *)
Record effet (b : bool) (p : Z) (s s' : Etat) : Prop := {
  ef_autres : pareil_sauf p s s';
  ef_dom : forall p', is_Some (processus s' !! p') <-> is_Some (processus s !! p');
  ef_tete : exists q e r e', processus s !! p = Some q /\ tete s p q e r /\ V s' p = e' :: r /\
    moins e e' /\ (b = true -> classee e -> classee e')
}.

Lemma dom_insere p q x (ps : gmap Z Processus) p' :
  ps !! p = Some q -> is_Some (<[p := x]> ps !! p') <-> is_Some (ps !! p').
Proof. intros H. rewrite lookup_insert_is_Some. destruct (decide (p = p')) as [<-|]; [rewrite H|]; naive_solver. Qed.

Lemma instantane_spec p s : wlp (instantane p) (fun s' x =>
  effet true p s s' /\ processus s' = processus s /\ releves s' = releves s /\
  exists q e r, processus s !! p = Some q /\ tete s p q e r /\ x = snapshot e) s.
Proof.
  apply wlp_lie, wlp_processus_de. intros q Hq. etapes entree_spec.
  intros s1 e (E1 & E2 & He & Hs & r & Ht & Hv). apply wlp_rend. split_and!; [|done..|by exists q, e, r].
  split; [done|by intros; rewrite E1|]. by exists q, e, r, e.
Qed.

(** [set_uid_current] and [set_gid_current]: the identity of the process and its entry. *)
Lemma change_identite_spec {A} (x : A) p q' (g : Entry -> Entry) q s s0 e r :
  processus s !! p = Some q -> tete s p q e r -> pid e = p -> pid (g e) = p ->
  processus s0 = processus s -> pareil_sauf p s s0 -> V s0 p = e :: r ->
  moins e (g e) -> (classee e -> classee (g e)) ->
  wlp (change (fun s => avec_processus (<[p := q']> (processus s)) s) ;;; pose_entree (g e) ;;; rend x)
    (fun s' _ => effet true p s s') s0.
Proof.
  intros Hq Ht He Hg E1 Hs Hv Hm Hc. apply wlp_lie, wlp_change. rewrite <-Hg in Hv.
  etapes (pose_spec (g e) e r); [exact Hv|]. intros s2 [] (E2 & E3 & Hs2 & Hv2). rewrite Hg in *.
  apply wlp_rend. split.
  - intros p' Hp'. rewrite Hs2 by done. by apply Hs.
  - intros p'. rewrite E2. cbn. rewrite E1. by eapply dom_insere.
  - by exists q, e, r, (g e).
Qed.

Lemma effet_lecture p q e r s s1 :
  processus s !! p = Some q -> tete s p q e r -> processus s1 = processus s -> pareil_sauf p s s1 ->
  V s1 p = e :: r -> effet true p s s1.
Proof. intros Hq Ht E1 Hs Hv. split; [done|by intros; rewrite E1|]. by exists q, e, r, e. Qed.

Lemma set_uid_spec p t s : wlp (set_uid_current p t) (fun s' _ => effet true p s s') s.
Proof.
  apply wlp_lie, wlp_processus_de. intros q Hq. etapes entree_spec.
  intros s1 e (E1 & E2 & He & Hs & r & Ht & Hv). destruct (set_uid _ _ _) as [c|] eqn:Ec.
  - set (g := fun e => mk_entry (pid e) (image e) c (transition_capabilities (caps e) (classify (image e) (euid c)))
                         (classify (image e) (euid c)) (no_new_privs e)).
    apply (change_identite_spec _ p (avec_uid (euid c) q) g q s s1 e r); try done.
    + split; cbn; auto with autorite.
    + intros [H1 H2 H3]. split; cbn; [auto with autorite| |done]. intros Hb. apply H2. by rewrite (sandboxe_uid _ _ (euid c)).
  - apply wlp_rend. by eapply effet_lecture.
Qed.
Lemma set_gid_euid c t k c' : set_gid c t k = inl c' -> euid c' = euid c.
Proof. unfold set_gid. repeat case_match; by intros [= <-]. Qed.
Lemma set_gid_spec p t s : wlp (set_gid_current p t) (fun s' _ => effet true p s s') s.
Proof.
  apply wlp_lie, wlp_processus_de. intros q Hq. etapes entree_spec.
  intros s1 e (E1 & E2 & He & Hs & r & Ht & Hv). destruct (set_gid _ _ _) as [c|] eqn:Ec.
  - set (g := fun e => mk_entry (pid e) (image e) c (caps e) (profile e) (no_new_privs e)).
    apply (change_identite_spec _ p (avec_gid (egid c) q) g q s s1 e r); try done.
    apply set_gid_euid in Ec. intros [H1 H2 H3]. split; cbn; by rewrite Ec.
  - apply wlp_rend. by eapply effet_lecture.
Qed.

Lemma set_nnp_spec p s : wlp (set_no_new_privs_current p) (fun s' _ => effet true p s s') s.
Proof.
  apply wlp_lie, wlp_processus_de. intros q Hq.
  eapply wlp_mono; [apply (maj_spec p q (fun e => mk_entry (pid e) (image e) (credentials e) (caps e) (profile e) true)); done|].
  intros s' [] (E1 & E2 & Hs & e & r & Ht & He & Hv). split; [done|by intros; rewrite E1|].
  eexists q, e, r, _. split_and!; [done..| |]; [by split|]. intros _ [H1 H2 H3]. by split.
Qed.
Lemma apply_profile_spec p wanted s :
  wlp (apply_profile p wanted) (fun s' _ => s' = s \/ effet false p s s') s.
Proof.
  unfold apply_profile. apply wlp_lie, wlp_lit. destruct (processus s !! p) as [q|] eqn:Hq; [|apply wlp_rend; by left].
  etapes entree_spec. intros s1 e (E1 & E2 & He & Hs & r & Ht & Hv).
  rewrite <-He in Hv. etapes (pose_spec (mk_entry (pid e) _ _ _ _ _) e r); [exact Hv|].
  intros s2 [] (E3 & E4 & Hs2 & Hv2). apply wlp_rend. right. cbn [pid] in *. rewrite He in *. split.
  - intros p' Hp'. rewrite Hs2 by done. by apply Hs.
  - intros p'. by rewrite E3, E1.
  - eexists q, e, r, _. split_and!; [done..| |done]. split; cbn; auto with autorite.
Qed.

Lemma compte_spec s : wlp compte_controle (fun s' _ =>
  processus s' = processus s /\ contextes s' = contextes s /\ releves s' = releves s) s.
Proof.
  intros s' b E. unfold compte_controle, lit, lie, etat_courant, rend, garde, change, echoue in E.
  destruct (checks s =? _); [done|]. by injection E as <- _.
Qed.
Lemma vivants_spec s p : existsb (Z.eqb p) (vivants s) = true <-> is_Some (processus s !! p).
Proof.
  rewrite existsb_exists. unfold vivants. setoid_rewrite Z.eqb_eq. split.
  - intros (x & H & <-). apply list_elem_of_In, list_elem_of_fmap in H as ([k q] & -> & H).
    apply elem_of_map_to_list in H. cbn. by rewrite H.
  - intros [q H]. exists p. split; [|done]. apply list_elem_of_In, list_elem_of_fmap. exists (p, q).
    split; [done|]. by apply elem_of_map_to_list.
Qed.
(** A sweep that nothing interrupts keeps the entries of the live processes. *)
Lemma maintenance_spec s : wlp maybe_maintenance (fun s' _ =>
  processus s' = processus s /\ releves s' = releves s /\
  forall p, V s' p = V s p \/ V s' p = [] /\ processus s !! p = None) s.
Proof.
  etapes compte_spec. intros s1 b (E1 & E2 & E3). destruct b.
  - apply wlp_lie, wlp_lit, wlp_change. split_and!; [done..|]. intros p. unfold V, avec_contextes. cbn [contextes].
    rewrite de_balaie, <-E1, E2.
    destruct (existsb _ _) eqn:E; [by left|]. right. split; [done|]. apply eq_None_not_Some. intros H.
    apply vivants_spec in H. congruence.
  - apply wlp_rend. split_and!; [done..|]. intros p. left. unfold V. by rewrite E2.
Qed.

(** The effect of an inheritance that takes place. *)
Record heritage (parent enfant : Z) (s s' : Etat) : Prop := {
  he_proc : processus s' = processus s;
  he_rel : releves s' = releves s;
  he_autres : forall p, p <> parent -> p <> enfant -> V s' p = V s p;
  he_parent : exists q h r, processus s !! parent = Some q /\ tete s parent q h r /\ V s' parent = h :: r /\
    exists e', V s' enfant = [e'] /\ moins h e' /\ (classee h -> classee e');
  he_nnp : Exists (fun e => no_new_privs e = true) (V s enfant) -> Forall (fun e => no_new_privs e = true) (V s' enfant)
}.
Lemma deja_spec p cs :
  existsb (fun e => (pid e =? p) && no_new_privs e) cs = true <-> Exists (fun e => no_new_privs e = true) (de p cs).
Proof.
  rewrite existsb_exists, Exists_exists. unfold de, est_de.
  setoid_rewrite list_elem_of_filter. setoid_rewrite andb_true_iff. setoid_rewrite Z.eqb_eq.
  setoid_rewrite list_elem_of_In. naive_solver.
Qed.
Lemma inherit_fait parent enfant qp qe s :
  parent <> enfant -> processus s !! parent = Some qp -> processus s !! enfant = Some qe -> p_parent qe = parent ->
  wlp (inherit parent enfant) (fun s' _ => heritage parent enfant s s') s.
Proof.
  intros Hne Ep Ee Hpe. unfold inherit. rewrite (proj2 (Z.eqb_neq _ _) Hne). apply wlp_lie, wlp_lit.
  rewrite Ep, Ee, Hpe, Z.eqb_refl. cbn [negb].
  etapes entree_spec. intros s1 h (E1 & E2 & Hh & Hs & r & Ht & Hv). apply wlp_lie, wlp_lit.
  set (deja := existsb _ _). set (herite := mk_entry enfant _ _ _ _ _).
  apply wlp_lie, wlp_change. set (s2 := avec_contextes _ s1).
  assert (forall p, V s2 p = if decide (p = enfant) then [herite] else V s1 p) as Hv2.
  { intros p. unfold V, s2, avec_contextes. cbn [contextes]. rewrite de_app, de_sauf, de_un. cbn [pid herite].
    repeat case_decide; try congruence; rewrite ?app_nil_r; done. }
  eapply wlp_mono; [apply (maj_spec enfant qe (fun e => mk_entry (pid e) (image e) (credentials e) (caps e) (profile e) (no_new_privs e || deja))); done|].
  intros s3 [] (E3 & E4 & Hs3 & e & r' & Ht3 & He & Hv3).
  assert (r' = [] /\ e = rafraichit herite (p_name qe) (p_uid qe) (p_gid qe)) as [-> He'].
  { destruct Ht3 as [(H & _)|(e0 & H & ->)]; rewrite Hv2, decide_True in H by done; [done|]. by injection H as <- <-. }
  split.
  - by rewrite E3.
  - by rewrite E4.
  - intros p H1 H2. rewrite Hs3, Hv2, decide_False by done. by apply Hs.
  - exists qp, h, r. rewrite Hs3, Hv2, decide_False by done. split_and!; [done..|].
    eexists. split_and!; [exact Hv3| |].
    + destruct (rafraichit_moins herite (p_name qe) (p_uid qe) (p_gid qe)) as [H1 H2]. rewrite <-He' in H1, H2.
      split; cbn; [exact H1|]. intros H. apply orb_true_intro. left. by apply H2.
    + intros [H1 H2 H3]. assert (classee herite) as Hc by by split.
      apply (rafraichit_classee _ (p_name qe) (p_uid qe) (p_gid qe)) in Hc. rewrite <-He' in Hc.
      destruct Hc as [H4 H5 H6]. split; cbn; [done| |done]. intros H. by rewrite H5.
  - intros Hx. rewrite Hv3. constructor; [|done]. cbn. apply orb_true_intro. right.
    unfold deja. apply deja_spec. change (de enfant (contextes s1)) with (V s1 enfant). by rewrite Hs by done.
Qed.
Lemma inherit_spec parent enfant s :
  wlp (inherit parent enfant) (fun s' _ => s' = s \/ heritage parent enfant s s') s.
Proof.
  destruct (Z.eqb_spec parent enfant) as [->|Hne].
  { unfold inherit. rewrite Z.eqb_refl. apply wlp_rend. by left. }
  destruct (processus s !! parent) as [qp|] eqn:Ep, (processus s !! enfant) as [qe|] eqn:Ee.
  1: destruct (Z.eqb_spec (p_parent qe) parent) as [Hp|Hp].
  1: eapply wlp_mono; [by apply (inherit_fait parent enfant qp qe)|by right].
  all: unfold inherit; rewrite (proj2 (Z.eqb_neq _ _) Hne); apply wlp_lie, wlp_lit; rewrite Ep, ?Ee;
    try rewrite (proj2 (Z.eqb_neq _ _) Hp); apply wlp_rend; by left.
Qed.

(** ** The classification, in every interleaving *)

Definition bien (s : Etat) : Prop := forall p, Forall classee (V s p).

Lemma tete_classee s p q e r : bien s -> tete s p q e r -> classee e /\ Forall classee r.
Proof.
  intros H [(_ & -> & ->)|(e0 & E & ->)].
  - split; [apply rafraichit_classee, make_classee|done].
  - specialize (H p). rewrite E in H. apply Forall_cons in H as [H1 H2]. split; [by apply rafraichit_classee|done].
Qed.
Lemma effet_bien p s s' : effet true p s s' -> bien s -> bien s'.
Proof.
  intros [H1 _ (q & e & r & e' & _ & Ht & Hv & _ & Hc)] H p'. destruct (decide (p' = p)) as [->|Hn].
  - destruct (tete_classee _ _ _ _ _ H Ht) as [He Hr]. rewrite Hv. constructor; auto.
  - rewrite H1 by done. apply H.
Qed.
Lemma heritage_bien parent enfant s s' : heritage parent enfant s s' -> bien s -> bien s'.
Proof.
  intros [_ _ H1 (q & h & r & _ & Ht & Hv & e' & He & _ & Hc) _] H p.
  destruct (tete_classee _ _ _ _ _ H Ht) as [Hh Hr].
  destruct (decide (p = parent)) as [->|Hn]; [rewrite Hv; by constructor|].
  destruct (decide (p = enfant)) as [->|Hn2]; [rewrite He; by auto|]. by rewrite H1.
Qed.
Lemma restreint_bien s s' : (forall p, V s' p = V s p \/ V s' p = []) -> bien s -> bien s'.
Proof. intros H Hb p. destruct (H p) as [->| ->]; [apply Hb|constructor]. Qed.

Lemma wlp_suivi {A B} (c : P A) (k : A -> P B) (I : Etat -> Prop) s :
  wlp c (fun s' _ => I s') s -> (forall s' x, I s' -> wlp (k x) (fun s' _ => I s') s') ->
  wlp (lie c k) (fun s' _ => I s') s.
Proof. intros H Hk. apply wlp_lie. eapply wlp_mono; [exact H|]. intros s' x. apply Hk. Qed.

Lemma apres_bien fork parent result s : bien s -> wlp (after_syscall fork parent result) (fun s' _ => bien s') s.
Proof.
  intros H. unfold after_syscall. destruct (_ || _); [by apply wlp_rend|].
  eapply wlp_mono; [apply inherit_spec|]. intros s' x [->|Hh]; [done|]. by eapply heritage_bien.
Qed.
Lemma insere_bien p q s : bien s -> bien (avec_processus (<[p := q]> (processus s)) s).
Proof. done. Qed.
Lemma naissance_bien parent enfant s : bien s -> wlp (naissance parent enfant) (fun s' _ => bien s') s.
Proof. intros H. apply wlp_lie, wlp_processus_de. intros q _. apply wlp_lie, wlp_pid_neuf. intros _ _. by apply wlp_change. Qed.
Lemma instantane_bien p s : bien s -> wlp (instantane p) (fun s' _ => bien s') s.
Proof. intros H. eapply wlp_mono; [apply instantane_spec|]. intros s' x (He & _). by apply (effet_bien _ _ _ He). Qed.

Definition sans_application (ev : Evenement) : Prop := match ev with Applique _ _ => False | _ => True end.

Lemma etape_bien ev s : sans_application ev -> bien s -> wlp (etape ev) (fun s' _ => bien s') s.
Proof.
  intros Ha H. destruct ev; cbn [etape]; try done.
  - apply wlp_suivi; [|intros; by apply wlp_rend]. apply wlp_suivi; [by apply instantane_bien|].
    intros s1 x Hx. apply wlp_suivi; [|intros; by apply wlp_rend].
    eapply wlp_mono; [apply maintenance_spec|]. intros s2 y (_ & _ & Hv).
    apply (restreint_bien s1); [|done]. intros q. destruct (Hv q) as [|[]]; auto.
  - apply wlp_suivi; [|intros; by apply wlp_rend]. eapply wlp_mono; [apply set_uid_spec|].
    intros s' x He. by apply (effet_bien _ _ _ He).
  - apply wlp_suivi; [|intros; by apply wlp_rend]. eapply wlp_mono; [apply set_gid_spec|].
    intros s' x He. by apply (effet_bien _ _ _ He).
  - eapply wlp_mono; [apply set_nnp_spec|]. intros s' x He. by apply (effet_bien _ _ _ He).
  - apply wlp_lie, wlp_processus_de. intros q _. by apply wlp_change.
  - apply wlp_suivi; [by apply naissance_bien|]. intros. by apply apres_bien.
  - apply wlp_lie, wlp_processus_de. intros q _. apply wlp_lie, wlp_pid_neuf. intros _ _.
    apply wlp_lie, wlp_change. eapply wlp_mono; [apply inherit_spec|].
    intros s' x [->|Hh]; [done|]. by eapply heritage_bien.
  - apply wlp_lie, wlp_pid_neuf. intros _ _. by apply wlp_change.
  - apply wlp_lie, wlp_change, wlp_change. apply (restreint_bien s); [|done].
    intros q. unfold V. cbn [contextes avec_contextes avec_processus]. rewrite de_sauf. case_decide; auto.
  - by apply naissance_bien.
  - by apply apres_bien.
  - apply wlp_suivi; [by apply instantane_bien|]. intros. by apply wlp_rend.
  - etapes compte_spec. intros s1 b (_ & Ec & _). assert (bien s1) by (intros q; unfold V; rewrite Ec; apply H).
    destruct b; [by apply wlp_change|by apply wlp_rend].
  - apply wlp_lie, wlp_lit, wlp_lie. intros s' live E. unfold ou_echoue in E.
    destruct (releves s !! i); [|done]. injection E as <- <-. apply wlp_change. apply (restreint_bien s); [|done].
    intros q. unfold V. cbn [contextes]. rewrite de_balaie. case_match; [by left|by right].
Qed.
Lemma deroule_invariant (I : Etat -> Prop) (C : Evenement -> Prop) evs :
  (forall ev s, C ev -> I s -> wlp (etape ev) (fun s' _ => I s') s) ->
  Forall C evs -> forall s, I s -> wlp (deroule evs) (fun s' _ => I s') s.
Proof.
  intros Hs. induction 1 as [|ev evs Hc _ IH]; intros s Hi; cbn [deroule]; [by apply wlp_rend|].
  apply wlp_suivi; [by apply Hs|auto].
Qed.

(** The snapshot of a process is the one its image and identity deserve. *)
Lemma instantane_classe p s s' x :
  bien s -> instantane p s = (s', inl x) ->
  exists q, processus s !! p = Some q /\ s_profile x = classify (p_name q) (p_uid q) /\
    euid (s_credentials x) = p_uid q /\
    inclus (s_caps x) (capabilities (s_profile x)) /\ (sandboxe (s_profile x) = true -> s_nnp x = true).
Proof.
  intros H E. apply instantane_spec in E as (_ & _ & _ & q & e & r & Hq & Ht & ->). exists q. split; [done|].
  destruct (tete_classee _ _ _ _ _ H Ht) as [[H1 H2 H3] _].
  assert (image e = p_name q /\ euid (credentials e) = p_uid q) as [Hi Hu].
  { destruct Ht as [(_ & _ & ->)|(e0 & _ & ->)];
      [pose proof (rafraichit_identite (make_entry p (p_name q) (p_uid q) (p_gid q)) (p_name q) (p_uid q) (p_gid q)) as (? & _ & ? & _)
      |pose proof (rafraichit_identite e0 (p_name q) (p_uid q) (p_gid q)) as (? & _ & ? & _)]; done. }
  rewrite Hi, Hu in *. cbn. rewrite H3. done.
Qed.

(** ** The authority of a family *)

Definition autorite (S : Z) (b : bool) (e : Entry) : Prop :=
  inclus (caps e) S /\ (b = true -> no_new_privs e = true).
Lemma autorite_moins S b e e' : moins e e' -> autorite S b e -> autorite S b e'.
Proof. intros [H1 H2] [H3 H4]. split; [by transitivity (caps e)|auto]. Qed.

(** The process has a context, and no entry of it passes [S]; [b]: none may gain privileges. *)
Definition tenu (S : Z) (b : bool) (s : Etat) (p : Z) : Prop :=
  is_Some (processus s !! p) /\ V s p <> [] /\ Forall (autorite S b) (V s p).
Definition famille (fam : gset Z) (ev : Evenement) : gset Z :=
  match ev with
  | Fourche parent enfant | Lance parent enfant _ => if decide (parent ∈ fam) then {[enfant]} ∪ fam else fam
  | Meurt p => fam ∖ {[p]}
  | _ => fam
  end.
(** Forks and sweeps that nothing interrupts. *)
Definition ininterrompu (ev : Evenement) : Prop :=
  match ev with Naissance _ _ | Herite _ _ | Releve | Balaie _ => False | _ => True end.

Lemma tete_tenu S b s p q e r : tenu S b s p -> tete s p q e r -> autorite S b e /\ Forall (autorite S b) r.
Proof.
  intros (_ & Hn & H) [(E & _)|(e0 & E & ->)]; [done|]. rewrite E in H. apply Forall_cons in H as [H1 H2].
  split; [|done]. eapply autorite_moins; [apply rafraichit_moins|done].
Qed.
Lemma effet_tenu S b k p s s' p' : effet k p s s' -> tenu S b s p' -> tenu S b s' p'.
Proof.
  intros [H1 Hd (q & e & r & e' & _ & Ht & Hv & Hm & _)] H. pose proof H as (H2 & H3 & H4).
  split; [by apply Hd|]. destruct (decide (p' = p)) as [->|Hn].
  - destruct (tete_tenu _ _ _ _ _ _ _ H Ht) as [He Hr]. rewrite Hv. split; [done|]. constructor; [|done].
    by eapply autorite_moins.
  - by rewrite H1.
Qed.
Lemma heritage_tenu S b parent enfant s s' p :
  p <> enfant -> heritage parent enfant s s' -> tenu S b s p -> tenu S b s' p.
Proof.
  intros Hn [Hp _ H1 (q & h & r & _ & Ht & Hv & _) _] H. pose proof H as (H2 & H3 & H4).
  split; [by rewrite Hp|]. destruct (decide (p = parent)) as [->|Hn2]; [|by rewrite H1].
  destruct (tete_tenu _ _ _ _ _ _ _ H Ht) as [He Hr]. rewrite Hv. split; [done|by constructor].
Qed.
Lemma heritage_enfant S b parent enfant s s' :
  heritage parent enfant s s' -> is_Some (processus s !! enfant) -> tenu S b s parent -> tenu S b s' enfant.
Proof.
  intros [Hp _ H1 (q & h & r & _ & Ht & _ & e' & He & Hm & _) _] Hs H.
  destruct (tete_tenu _ _ _ _ _ _ _ H Ht) as [Hh _].
  split; [by rewrite Hp|]. rewrite He. split; [done|]. constructor; [|done]. by eapply autorite_moins.
Qed.

(** A child recorded, then given the context of its parent. *)
Lemma filiation_tenu S b parent enfant q qp s (fam : gset Z) :
  processus s !! parent = Some qp -> processus s !! enfant = None -> p_parent q = parent ->
  (forall p, p ∈ fam -> tenu S b s p) ->
  wlp (inherit parent enfant)
    (fun s' _ => forall p, p ∈ (if decide (parent ∈ fam) then {[enfant]} ∪ fam else fam) -> tenu S b s' p)
    (avec_processus (<[enfant := q]> (processus s)) s).
Proof.
  intros Hp He Hq Hf. set (s1 := avec_processus _ s).
  assert (parent <> enfant) as Hne by congruence.
  assert (forall p, p ∈ fam -> p <> enfant /\ tenu S b s1 p) as Hf1.
  { intros p Hi. destruct (Hf p Hi) as (H1 & H2). split; [intros ->; rewrite He in H1; by destruct H1|].
    split; [|done]. unfold s1. cbn. apply lookup_insert_is_Some. by destruct (decide (enfant = p)); [left|right]. }
  eapply wlp_mono; [apply (inherit_fait parent enfant qp q); try done; cbn|].
  { by rewrite lookup_insert_ne. } { by rewrite lookup_insert_eq. }
  intros s' [] Hh p Hi. case_decide as Hd; [apply elem_of_union in Hi as [->%elem_of_singleton|Hi]|].
  - apply (heritage_enfant _ _ parent _ s1); [done| |by apply Hf1]. cbn. by rewrite lookup_insert_eq.
  - destruct (Hf1 p Hi). by eapply heritage_tenu.
  - destruct (Hf1 p Hi). by eapply heritage_tenu.
Qed.

Lemma maintenance_tenu S b (fam : gset Z) s :
  (forall p, p ∈ fam -> tenu S b s p) -> wlp maybe_maintenance (fun s' _ => forall p, p ∈ fam -> tenu S b s' p) s.
Proof.
  intros H. eapply wlp_mono; [apply maintenance_spec|]. intros s' x (Hp & _ & Hv) p Hi.
  destruct (H p Hi) as (H1 & H2). unfold tenu. rewrite Hp. split; [done|].
  destruct (Hv p) as [->|[_ E]]; [done|]. rewrite E in H1. by destruct H1.
Qed.
Lemma effet_famille {A} S b k q (fam : gset Z) (c : P A) s :
  (forall p, p ∈ fam -> tenu S b s p) -> wlp c (fun s' _ => effet k q s s') s ->
  wlp c (fun s' _ => forall p, p ∈ fam -> tenu S b s' p) s.
Proof. intros H Hc. eapply wlp_mono; [exact Hc|]. intros s' x He p Hi. apply (effet_tenu _ _ _ _ _ _ _ He). auto. Qed.
Lemma instantane_famille S b q (fam : gset Z) s :
  (forall p, p ∈ fam -> tenu S b s p) -> wlp (instantane q) (fun s' _ => forall p, p ∈ fam -> tenu S b s' p) s.
Proof.
  intros H. apply (effet_famille S b true q); [done|]. eapply wlp_mono; [apply instantane_spec|]. by intros s' x [? _].
Qed.

Lemma etape_tenu S b fam ev s :
  ininterrompu ev -> (forall p, p ∈ fam -> tenu S b s p) ->
  wlp (etape ev) (fun s' _ => forall p, p ∈ famille fam ev -> tenu S b s' p) s.
Proof.
  intros Hi H. destruct ev; cbn [etape famille]; try done.
  - apply wlp_suivi; [|intros; by apply wlp_rend]. apply wlp_suivi; [by apply instantane_famille|].
    intros s1 x H1. apply wlp_suivi; [by apply maintenance_tenu|intros; by apply wlp_rend].
  - apply wlp_suivi; [|intros; by apply wlp_rend]. apply (effet_famille _ _ true p); [done|apply set_uid_spec].
  - apply wlp_suivi; [|intros; by apply wlp_rend]. apply (effet_famille _ _ true p); [done|apply set_gid_spec].
  - apply (effet_famille _ _ true p); [done|apply set_nnp_spec].
  - apply wlp_suivi; [|intros; by apply wlp_rend]. eapply wlp_mono; [apply apply_profile_spec|].
    intros s' x [->|He]; [done|]. intros p' Hp'. apply (effet_tenu _ _ _ _ _ _ _ He). auto.
  - apply wlp_lie, wlp_processus_de. intros q Hq. apply wlp_change. intros p' Hp'. destruct (H p' Hp') as (H1 & H2).
    split; [|done]. cbn. by eapply dom_insere.
  - apply wlp_lie, wlp_lie, wlp_processus_de. intros q Hq. apply wlp_lie, wlp_pid_neuf. intros He Hr. apply wlp_change.
    unfold after_syscall. rewrite (proj2 (Z.leb_gt enfant 0)) by lia. cbn [negb orb]. rewrite Z.mod_small by lia.
    by apply (filiation_tenu S b parent enfant _ q).
  - apply wlp_lie, wlp_processus_de. intros q Hq. apply wlp_lie, wlp_pid_neuf. intros He Hr. apply wlp_lie, wlp_change.
    by apply (filiation_tenu S b parent enfant _ q).
  - apply wlp_lie, wlp_pid_neuf. intros He _. apply wlp_change. intros p' Hp'. destruct (H p' Hp') as (H1 & H2).
    split; [|done]. cbn. rewrite lookup_insert_is_Some. by destruct (decide (p = p')); [left|right].
  - apply wlp_lie, wlp_change, wlp_change. intros p' [Hp' Hn%not_elem_of_singleton]%elem_of_difference.
    destruct (H p' Hp') as (H1 & H2). split; [cbn; by rewrite lookup_delete_ne|].
    unfold V. cbn [contextes avec_contextes avec_processus]. by rewrite de_sauf, decide_False.
  - apply wlp_suivi; [by apply instantane_famille|]. intros. by apply wlp_rend.
Qed.

Lemma deroule_tenu S b evs : forall fam s s',
  Forall ininterrompu evs -> (forall p, p ∈ fam -> tenu S b s p) -> deroule evs s = (s', inl tt) ->
  forall p, p ∈ fold_left famille evs fam -> tenu S b s' p.
Proof.
  induction evs as [|ev evs IH]; intros fam s s' Hi H E; cbn [fold_left deroule] in *; [by injection E as <-|].
  apply Forall_cons in Hi as [Hi1 Hi2]. unfold lie in E. destruct (etape ev s) as [s1 [[]|]] eqn:E1; [|done].
  apply (IH _ s1 s'); [done| |done]. apply (etape_tenu S b fam ev s Hi1 H _ _ E1).
Qed.

(** C7. Authority stays in the family. Take processes whose contexts hold at most the capabilities
    [S] (and, if [b], may not gain privileges). Whatever they and the rest of the system do
    afterwards (identity changes, executions, forks, launches, profile changes, deaths, sweeps
    of the table), as long as a fork hands the context over before the child runs and a sweep
    is not interrupted, every later context of them and of their descendants holds at most [S]
    (and may not gain privileges). *)
Theorem autorite_familiale S b evs fam s s' p x s'' :
  Forall ininterrompu evs -> (forall q, q ∈ fam -> tenu S b s q) -> deroule evs s = (s', inl tt) ->
  p ∈ fold_left famille evs fam -> instantane p s' = (s'', inl x) ->
  inclus (s_caps x) S /\ (b = true -> s_nnp x = true).
Proof.
  intros Hi H E Hp Ex. pose proof (deroule_tenu S b evs fam s s' Hi H E p Hp) as Ht.
  apply instantane_spec in Ex as (_ & _ & _ & q & e & r & _ & Hte & ->).
  by destruct (tete_tenu _ _ _ _ _ _ _ Ht Hte) as [He _].
Qed.

(** A browser host that becomes a shell keeps the capabilities of a browser host, and so do its
    children: the shell's own profile would give it all of them. *)
Definition histoire : list Evenement :=
  [Demarre 1 (octets "/bo-navigateur") 0 0; Instantane 1; Execve 1 (octets "/bin/sh"); Instantane 1].
Definition etat_histoire : Etat := (deroule histoire etat_vide).1.
Definition resultat {A} (r : Etat * (A + unit)) : option A := match r.2 with inl x => Some x | inr _ => None end.
Definition droits_de (evs : list Evenement) (p : Z) : option (Z * SecurityProfile * bool) :=
  x ← resultat (instantane p (deroule evs etat_vide).1); Some (s_caps x, s_profile x, s_nnp x).

Lemma autorite_familiale_witness :
  deroule histoire etat_vide = (etat_histoire, inl tt) /\
  (forall s s' x, deroule [Fourche 1 2; FixeNnp 2; Execve 2 (octets "/usr/bin/id"); Fourche 2 3] etat_histoire = (s, inl tt) ->
     instantane 3 s = (s', inl x) -> inclus (s_caps x) (capabilities BrowserBroker)) /\
  droits_de (histoire ++ [Fourche 1 2; FixeNnp 2; Execve 2 (octets "/usr/bin/id"); Fourche 2 3]) 3
    = Some (capabilities BrowserBroker, System, true).
Proof.
  split; [vm_compute; reflexivity|]. split; [|vm_compute; reflexivity]. intros s s' x E Ex.
  assert (tenu (capabilities BrowserBroker) false etat_histoire 1) as H1.
  { split; [|split]; [vm_compute; by eexists|vm_compute; discriminate|].
    unfold V. vm_compute. repeat constructor. discriminate. }
  apply (autorite_familiale (capabilities BrowserBroker) false
    [Fourche 1 2; FixeNnp 2; Execve 2 (octets "/usr/bin/id"); Fourche 2 3] {[1]} etat_histoire s 3 x s');
    [repeat constructor| |exact E| |exact Ex].
  - intros q ->%elem_of_singleton. exact H1.
  - apply (bool_decide_unpack _). vm_compute. exact I.
Defined.

(** ** Interleavings that give authority back *)

(** The two halves of a fork: the child runs before its parent hands its context over, and has
    until then every capability, which its parent does not have. *)
Theorem fenetre_du_fork :
  droits_de (histoire ++ [Naissance 1 2]) 1 = Some (capabilities BrowserBroker, System, false) /\
  droits_de (histoire ++ [Naissance 1 2]) 2 = Some (ALL, System, false) /\
  droits_de (histoire ++ [Naissance 1 2; Instantane 2; Herite 1 2]) 2 = Some (capabilities BrowserBroker, System, false).
Proof. repeat split; vm_compute; reflexivity. Qed.

(** A sweep that read the live processes before a fork drops the context of the child: its next
    look-up makes a fresh one, with every capability and without the privilege lock the child
    had inherited. *)
Theorem balayage_perime :
  droits_de (histoire ++ [FixeNnp 1] ++ repeat (Courant 1) 1023 ++ [Releve; Fourche 1 2]) 2
    = Some (capabilities BrowserBroker, System, true) /\
  droits_de (histoire ++ [FixeNnp 1] ++ repeat (Courant 1) 1023 ++ [Releve; Fourche 1 2; Balaie 0]) 2
    = Some (ALL, System, false).
Proof. split; vm_compute; reflexivity. Qed.

(** The image of a process launched natively is the text its parent wrote: an image of /tmp
    written with another slash or a dot-dot is not recognised as one, and runs as the system. *)
Theorem image_non_canonique :
  Ramfs.normalize_absolute (octets "//tmp/x") = octets "/tmp/x" /\
  droits_de [Demarre 1 (octets "/bin/init") 0 0; Instantane 1; Lance 1 2 (octets "/tmp/x")] 2
    = Some (EXEC, Untrusted, true) /\
  droits_de [Demarre 1 (octets "/bin/init") 0 0; Instantane 1; Lance 1 2 (octets "//tmp/x")] 2
    = Some (ALL, System, false) /\
  droits_de [Demarre 1 (octets "/bin/init") 0 0; Instantane 1; Lance 1 2 (octets "/usr/../tmp/x")] 2
    = Some (ALL, System, false).
Proof. repeat split; vm_compute; reflexivity. Qed.
End PolitiqueProofs.
