(* ===== verification/Descripteurs.v ===== *)
(** Descriptors of regular files: the table of a process ([src/kernel/object/fd.rs]) and the calls
    that go through it ([src/compat/linux/file.rs]): open, close, read, write, positioned reads and
    writes, seek, truncation, duplication.

    The reference counts a descriptor keeps on its file are those of the shared pages
    (MemPartages). The other kinds of descriptors (terminals, pipes, sockets, events) are
    [FdAutre]; what their calls answer is a parameter and changes no file. *)

From S2P Require Import Prelude Ramfs RamfsProofs RamfsOps Renommage RamfsAppels RamfsChemins RamfsVue RamfsApplique RamfsAppelsProofs.

Module Descripteurs.
Import Ramfs.
Import RamfsAppels(Noyau, envir, O_CREAT, O_TRUNC, O_ACCMODE, EBADF, EFAULT, EFBIG, openat_noeud,
  chemin_de, security_recheck_open, ouvre_noeud, prepare_ouverture, memfd_noeud).
Import Renommage(EISDIR, EINVAL, EROFS).
Open Scope Z_scope.
Open Scope os_scope.

Definition O_APPEND : Z := 1024.
Definition O_CLOEXEC : Z := 524288.
Definition ESPIPE : Z := 29.
Definition EMFILE : Z := 24.
Definition usize_max : Z := u64_max.

Inductive FdKind :=
| FdFile (node : nat) | FdDir (node : nat) | FdInstantane (contenu : list Z) | FdConsole | FdPipe | FdSocket
| FdFramebuffer | FdAutre (numero : Z).
Record FileDesc := mk_desc { kind_of : FdKind; offset : Z; flags : Z; cloexec : bool }.
Definition desc_new (k : FdKind) : FileDesc := mk_desc k 0 0 false.
Definition avec_drapeaux (f : Z) (c : bool) (d : FileDesc) : FileDesc := mk_desc (kind_of d) (offset d) f c.
Definition avec_offset (o : Z) (d : FileDesc) : FileDesc := mk_desc (kind_of d) o (flags d) (cloexec d).
Definition avec_cloexec (c : bool) (d : FileDesc) : FileDesc := mk_desc (kind_of d) (offset d) (flags d) c.
Definition ACCES_LECTURE_ECRITURE : Z := 2.
Definition fichier_partage_inscriptible (node : nat) : FileDesc :=
  mk_desc (FdFile node) 0 ACCES_LECTURE_ECRITURE false.

(** ** The table *)

Abbreviation FdTable := (list (option FileDesc)).
Definition table_new : FdTable := replicate 3 (Some (desc_new FdConsole)).

(** [while entries.len() < min { push(None) }] *)
Definition complete (t : FdTable) (n : nat) : FdTable := t ++ replicate (n - length t) None.
Definition est_libre (slot : option FileDesc) : Prop := slot = None.
#[export] Instance est_libre_dec slot : Decision (est_libre slot).
Proof. unfold est_libre. destruct slot; [right|left]; congruence. Defined.
Definition insert_at_least (t : FdTable) (desc : FileDesc) (min : nat) : FdTable * Z :=
  let t := complete t min in
  match list_find est_libre (drop min t) with
  | Some (i, _) => (<[(min + i)%nat := Some desc]> t, Z.of_nat (min + i))
  | None => (t ++ [Some desc], Z.of_nat (length t))
  end.
Definition insert (t : FdTable) (desc : FileDesc) : FdTable * Z := insert_at_least t desc 0.
(** The table, and the descriptor replaced. *)
Definition set (t : FdTable) (fd : nat) (desc : FileDesc) : FdTable * option FileDesc :=
  let t := complete t (S fd) in (<[fd := Some desc]> t, mjoin (t !! fd)).
Definition get (t : FdTable) (fd : Z) : option FileDesc :=
  if fd <? 0 then None else mjoin (t !! Z.to_nat fd).
(** [get_mut], and what is done with it. *)
Definition modifie_desc (t : FdTable) (fd : Z) (f : FileDesc -> FileDesc) : FdTable :=
  match get t fd with Some d => <[Z.to_nat fd := Some (f d)]> t | None => t end.
Definition close (t : FdTable) (fd : Z) : FdTable * bool :=
  match get t fd with Some _ => (<[Z.to_nat fd := None]> t, true) | None => (t, false) end.
Definition open_count (t : FdTable) : nat := length (List.filter (fun s => bool_decide (is_Some s)) t).
Definition close_on_exec (t : FdTable) : FdTable * list FileDesc :=
  ((fun s : option FileDesc => match s with Some d => if cloexec d then None else Some d | None => None end) <$> t,
   List.filter cloexec (omap id t)).

(** ** The calls *)

Record Session := mk_session { monde : Monde; table : FdTable }.
Definition D : Type -> Type := M Session unit.
Definition stop {A} : D A := echoue tt.
Definition sur_fs {A} (c : F A) : D A := fun s =>
  let '(w, r) := c (monde s) in (mk_session w (table s), r).
Definition pose_table (t : FdTable) : D unit := change (fun s => mk_session (monde s) t).
Definition lire {A} (f : Session -> A) : D A := fun s => (s, inl (f s)).

(** [user_read] and [user_write]: the bytes read, and whether the destination accepts;
    [lit_disque]: what the disk gives of a backed file; [device]: the synthetic devices;
    [autre]: what the other kinds of descriptors answer. *)
Record Appelant := mk_appelant {
  noyau : Noyau;
  user_read : Z -> Z -> option (list Z);
  user_write : Z -> list Z -> bool;
  lit_disque : BackingExtent -> Z -> Z -> list Z;
  device_for_path : list Z -> option FdKind;
  autre : FdKind -> Z
}.

Section Appels.
Context (a : Appelant).
#[local] Abbreviation env := (envir (noyau a)).

(** The part on files of [sys_openat]; [entre]: see [ouvre_noeud]. *)
Definition installe_desc (k : FdKind) (f : Z) (debut : Z) : D Z :=
  t <- lire table ;;
  let d := mk_desc k debut f (negb (Z.land f O_CLOEXEC =? 0)) in
  let '(t, fd) := insert t d in
  pose_table t ;;; rend fd.
Definition sys_openat (entre : F unit) (dirfd path_addr f mode : Z) : D Z :=
  c <- sur_fs (chemin_de (noyau a) dirfd path_addr) ;;
  match c with
  | inr code => rend code
  | inl path =>
      refus <- sur_fs (security_recheck_open (noyau a) path f) ;;
      match refus with
      | Some code => rend code
      | None =>
          match device_for_path a path with
          | Some k => installe_desc k f 0
          | None =>
              r <- sur_fs (ouvre_noeud (noyau a) entre path f mode) ;;
              match r with
              | inr code => rend code
              | inl node =>
                  p <- sur_fs (prepare_ouverture (noyau a) node f) ;;
                  match p with
                  | inr code => rend code
                  | inl (is_dir, longueur) =>
                      disque <- lire (fun s => disk_len (monde s) node) ;;
                      installe_desc (if is_dir then FdDir node else FdFile node) f
                        (if Z.land f O_APPEND =? 0 then 0 else default longueur disque)
                  end
              end
          end
      end
  end.
Definition sys_close (fd : Z) : D Z :=
  t <- lire table ;;
  let '(t, ok) := close t fd in
  pose_table t ;;; rend (if (ok : bool) then 0 else - EBADF).

(** [backing::logical_len] and [backing::read_at] *)
Definition logical_len (node : nat) : D Z :=
  sur_fs (d <- lis (fun w => disk_len w node) ;;
          match d with Some size => rend size | None => n <- noeud node ;; rend (content_len n) end).
Definition read_at (node : nat) (pos wanted : Z) : D (list Z) :=
  sur_fs (d <- lis (fun w => etendue w node) ;;
          match d with
          | Some e => rend (lit_disque a e pos wanted)
          | None => n <- noeud node ;; rend (slice (content n) (Z.to_nat pos) (Z.to_nat wanted))
          end).

(** The bytes given to the caller, or an error code. *)
Definition donne (buffer : Z) (data : list Z) : D (list Z + Z) :=
  rend (if user_write a buffer data then inl data else inr (- EFAULT)).
(** [offset + count] is checked. *)
Definition lit_instantane (contenu : list Z) (pos count : Z) (buffer : Z) : D (list Z + Z) :=
  if Z.of_nat (length contenu) <=? pos then rend (inl [])
  else if usize_max <=? pos + count then stop
  else
    let fin := Z.min (Z.of_nat (length contenu)) (pos + count) in
    donne buffer (slice contenu (Z.to_nat pos) (Z.to_nat (fin - pos))).
Definition lit_fichier (node : nat) (pos count buffer : Z) : D (list Z + Z) :=
  total <- logical_len node ;;
  if total <=? pos then rend (inl [])
  else
    data <- read_at node pos (Z.min count (total - pos)) ;;
    donne buffer data.
Definition avance_offset (fd pos : Z) (r : list Z + Z) : D (list Z + Z) :=
  match r with
  | inl [] => rend (inl [])
  | inl data =>
      t <- lire table ;;
      pose_table (modifie_desc t fd (avec_offset (pos + Z.of_nat (length data)))) ;;;
      rend (inl data)
  | inr code => rend (inr code)
  end.
Definition sys_read (fd buffer count : Z) : D (list Z + Z) :=
  if count =? 0 then rend (inl [])
  else
    t <- lire table ;;
    match get t fd with
    | None => rend (inr (- EBADF))
    | Some d =>
        match kind_of d with
        | FdFile node => r <- lit_fichier node (offset d) count buffer ;; avance_offset fd (offset d) r
        | FdInstantane contenu =>
            r <- lit_instantane contenu (offset d) count buffer ;; avance_offset fd (offset d) r
        | FdDir _ => rend (inr (- EISDIR))
        | k => rend (inr (autre a k))
        end
    end.
Definition sys_pread (fd buffer count pos : Z) : D (list Z + Z) :=
  if pos <? 0 then rend (inr (- EINVAL))
  else
    t <- lire table ;;
    match get t fd with
    | None => rend (inr (- EBADF))
    | Some d =>
        match kind_of d with
        | FdFile node =>
            total <- logical_len node ;;
            if (total <=? pos) || (count =? 0) then rend (inl [])
            else data <- read_at node pos (Z.min count (total - pos)) ;; donne buffer data
        | FdInstantane contenu => lit_instantane contenu pos count buffer
        | FdDir _ => rend (inr (- EISDIR))
        | FdPipe | FdSocket => rend (inr (- ESPIPE))
        | _ => sys_read fd buffer count
        end
    end.

(** [resize] to the start, then to the end, then the copy. *)
Definition ecrit_dans (c : list Z) (start : nat) (data : list Z) : list Z :=
  let c := if (length c <? start)%nat then resize start 0 c else c in
  let fin := (start + length data)%nat in
  let c := if (length c <? fin)%nat then resize fin 0 c else c in
  splice c start data.
(** The contents changed at [start], or at the end; the position after. *)
Definition ecrit_noeud (node : nat) (start : option Z) (data : list Z) : F (Z + Z) :=
  n <- noeud node ;;
  let start := default (content_len n) start in
  if MAX_FILE_SIZE <? start + Z.of_nat (length data) then rend (inr (- EFBIG))
  else
    modifie node (fun n => avec_content (ecrit_dans (content n) (Z.to_nat start) data) n) ;;;
    touche env node ;;;
    rend (inl (start + Z.of_nat (length data))).
(** The descriptor is looked up twice; [entre] is what the other threads of the process do
    meanwhile, and the second look-up is an [unwrap]. *)
Definition ecrit_octets (entre : D unit) (fd : Z) (data : list Z) : D Z :=
  if (length data =? 0)%nat then rend 0
  else
    t <- lire table ;;
    match get t fd with
    | None => rend (- EBADF)
    | Some d =>
        match kind_of d with
        | FdFile node =>
            disque <- lire (fun s => is_disk_backed (monde s) node) ;;
            if (disque : bool) then rend (- EROFS)
            else
              entre ;;;
              t <- lire table ;;
              match get t fd with
              | None => stop
              | Some d =>
                  r <- sur_fs (ecrit_noeud node (if Z.land (flags d) O_APPEND =? 0 then Some (offset d) else None) data) ;;
                  match r with
                  | inr code => rend code
                  | inl fin =>
                      pose_table (modifie_desc t fd (avec_offset fin)) ;;;
                      rend (Z.of_nat (length data))
                  end
              end
        | FdDir _ => rend (- EISDIR)
        | FdFramebuffer => rend (- EINVAL)
        | k => rend (autre a k)
        end
    end.
Definition sys_write (entre : D unit) (fd buffer count : Z) : D Z :=
  if count =? 0 then rend 0
  else
    match user_read a buffer count with
    | None => rend (- EFAULT)
    | Some data => ecrit_octets entre fd data
    end.
Definition sys_pwrite (entre : D unit) (fd buffer count pos : Z) : D Z :=
  if pos <? 0 then rend (- EINVAL)
  else
    t <- lire table ;;
    match get t fd with
    | None => rend (- EBADF)
    | Some d =>
        match kind_of d with
        | FdFile node =>
            disque <- lire (fun s => is_disk_backed (monde s) node) ;;
            if (disque : bool) then rend (- EROFS)
            else
              match user_read a buffer count with
              | None => rend (- EFAULT)
              | Some data =>
                  r <- sur_fs (ecrit_noeud node (Some pos) data) ;;
                  rend match r with inl _ => Z.of_nat (length data) | inr code => code end
              end
        | FdDir _ => rend (- EISDIR)
        | FdPipe | FdSocket => rend (- ESPIPE)
        | _ => sys_write entre fd buffer count
        end
    end.
Definition sys_ftruncate (fd len : Z) : D Z :=
  t <- lire table ;;
  match get t fd with
  | None => rend (- EBADF)
  | Some d =>
      match kind_of d with
      | FdFile node => sur_fs (RamfsAppels.ftruncate_noeud (noyau a) node len)
      | _ => rend (- EINVAL)
      end
  end.

(** The sum of the base and the displacement is checked on 64 signed bits. *)
Definition sys_lseek (fd pos whence : Z) : D Z :=
  t <- lire table ;;
  match get t fd with
  | None => rend (- EBADF)
  | Some d =>
      size <- (match kind_of d with
               | FdFile node => n <- logical_len node ;; rend (Some n)
               | FdInstantane contenu => rend (Some (Z.of_nat (length contenu)))
               | FdConsole | FdPipe => rend None
               | _ => rend (Some 0)
               end) ;;
      match size with
      | None => rend (- ESPIPE)
      | Some size =>
          let base := match whence with 0 => Some 0 | 1 => Some (offset d) | 2 => Some size | _ => None end in
          match base with
          | None => rend (- EINVAL)
          | Some base =>
              if (2 ^ 63 <=? base + pos) || (base + pos <? - 2 ^ 63) then stop
              else if base + pos <? 0 then rend (- EINVAL)
              else
                pose_table (modifie_desc t fd (avec_offset (base + pos))) ;;;
                rend (base + pos)
          end
      end
  end.

Definition sys_dup (fd : Z) : D Z :=
  t <- lire table ;;
  match get t fd with
  | None => rend (- EBADF)
  | Some d => let '(t, n) := insert t (avec_cloexec false d) in pose_table t ;;; rend n
  end.
Definition duplique (old new : Z) (c : bool) : D Z :=
  t <- lire table ;;
  match get t old with
  | None => rend (- EBADF)
  | Some d => pose_table (set t (Z.to_nat new) (avec_cloexec c d)).1 ;;; rend new
  end.
Definition sys_dup2 (old new : Z) : D Z :=
  if new <? 0 then rend (- EBADF)
  else if old =? new then
    t <- lire table ;; rend (if bool_decide (is_Some (get t old)) then new else - EBADF)
  else duplique old new false.
Definition sys_dup3 (old new f : Z) : D Z :=
  if new <? 0 then rend (- EBADF)
  else if old =? new then rend (- EINVAL)
  else if negb (Z.land f (Z.lxor (u32_max - 1) O_CLOEXEC) =? 0) then rend (- EINVAL)
  else duplique old new (negb (Z.land f O_CLOEXEC =? 0)).
Definition sys_memfd_create (nom_addr f : Z) : D Z :=
  r <- sur_fs (memfd_noeud (noyau a) nom_addr) ;;
  match r with
  | inr code => rend code
  | inl idx =>
      t <- lire table ;;
      let '(t, fd) := insert t (avec_cloexec (negb (Z.land f 1 =? 0)) (fichier_partage_inscriptible idx)) in
      pose_table t ;;; rend (if fd <? 0 then - EMFILE else fd)
  end.
End Appels.
End Descripteurs.

(** What the descriptors guarantee: the number given is the lowest free one, what is written is
    read back and nothing else changes; and the situations the calls do not handle. *)

Module DescripteursProofs.
Import Ramfs RamfsProofs RamfsOps RamfsSpecs RamfsAppelsProofs.
Import Descripteurs.
Open Scope Z_scope.
Open Scope os_scope.

(** ** The table *)

Lemma get_nat t n : get t (Z.of_nat n) = mjoin (t !! n).
Proof. unfold get. rewrite (proj2 (Z.ltb_ge _ _)) by lia. by rewrite Nat2Z.id. Qed.
Lemma complete_lookup t n i : mjoin (complete t n !! i) = mjoin (t !! i).
Proof.
  unfold complete. destruct (decide (i < length t)%nat).
  - by rewrite lookup_app_l.
  - rewrite lookup_app_r, (lookup_ge_None_2 t i) by lia.
    destruct (replicate (n - length t) None !! (i - length t)%nat) as [o|] eqn:E; [|done].
    by apply lookup_replicate in E as [-> _].
Qed.
Lemma length_complete t n : length (complete t n) = Nat.max n (length t).
Proof. unfold complete. rewrite length_app, length_replicate. lia. Qed.

(** The lowest free number from [min]. *)
Lemma insert_at_least_spec t d min t' n :
  insert_at_least t d min = (t', n) ->
  Z.of_nat min <= n /\ get t n = None /\ get t' n = Some d /\
  (forall fd, Z.of_nat min <= fd < n -> get t fd <> None) /\ (forall fd, fd <> n -> get t' fd = get t fd).
Proof.
  unfold insert_at_least. set (u := complete t min). intros H.
  assert (forall fd, 0 <= fd -> mjoin (u !! Z.to_nat fd) = get t fd) as Hu.
  { intros fd Hfd. unfold get. rewrite (proj2 (Z.ltb_ge _ _)) by lia. apply complete_lookup. }
  assert (Hlen : length u = Nat.max min (length t)) by apply length_complete.
  assert (forall k, (min <= k)%nat -> (t', n) = (<[k := Some d]> (u ++ replicate (S k - length u) None), Z.of_nat k) ->
    mjoin (u !! k) = None -> (forall j, (min <= j < k)%nat -> mjoin (u !! j) <> None) ->
    Z.of_nat min <= n /\ get t n = None /\ get t' n = Some d /\
    (forall fd, Z.of_nat min <= fd < n -> get t fd <> None) /\ (forall fd, fd <> n -> get t' fd = get t fd)) as Main.
  { intros k Hk [= -> ->] Hn Hj. assert (mjoin ((u ++ replicate (S k - length u) None) !! k) = None) as Hn2.
    { change (u ++ replicate (S k - length u) None) with (complete u (S k)). by rewrite complete_lookup. }
    assert (k < length (u ++ replicate (S k - length u) None))%nat as Hlt.
    { rewrite length_app, length_replicate. lia. }
    split_and!; [lia| | | |].
    - rewrite <-Hu by lia. by rewrite Nat2Z.id.
    - rewrite get_nat. by rewrite list_lookup_insert_eq.
    - intros fd Hfd. rewrite <-Hu by lia. apply Hj. lia.
    - intros fd Hfd. unfold get. destruct (Z.ltb_spec fd 0); [done|].
      rewrite list_lookup_insert_ne by lia.
      change (u ++ replicate (S k - length u) None) with (complete u (S k)). rewrite complete_lookup. by apply complete_lookup. }
  destruct (list_find est_libre (drop min u)) as [[i o]|] eqn:E; injection H as <- <-.
  - apply list_find_Some in E as (Ho & Hf & Hm). rewrite lookup_drop in Ho. unfold est_libre in Hf. subst o.
    pose proof (lookup_lt_Some _ _ _ Ho). apply (Main (min + i)%nat); [lia| |by rewrite Ho|].
    + replace (S (min + i) - length u)%nat with 0%nat by lia. by rewrite app_nil_r.
    + intros j Hj Hx. destruct (lookup_lt_is_Some_2 u j) as [o Ej]; [lia|]. rewrite Ej in Hx. cbn in Hx. subst o.
      apply (Hm (j - min)%nat None); [|lia|done]. rewrite lookup_drop. by replace (min + (j - min))%nat with j by lia.
  - apply list_find_None in E. apply (Main (length u)); [lia| |by rewrite lookup_ge_None_2 by lia|].
    + replace (S (length u) - length u)%nat with 1%nat by lia. cbn [replicate].
      f_equal. rewrite insert_app_r_alt, Nat.sub_diag by lia. done.
    + intros j Hj Hx. destruct (lookup_lt_is_Some_2 u j) as [o Ej]; [lia|]. rewrite Ej in Hx. cbn in Hx. subst o.
      rewrite Forall_forall in E. apply (E None); [|done]. apply list_elem_of_lookup_2 with (i := (j - min)%nat).
      rewrite lookup_drop. by replace (min + (j - min))%nat with j by lia.
Qed.

Lemma set_spec t fd d t' o :
  set t fd d = (t', o) ->
  o = get t (Z.of_nat fd) /\ get t' (Z.of_nat fd) = Some d /\ forall fd', fd' <> Z.of_nat fd -> get t' fd' = get t fd'.
Proof.
  unfold set. intros [= <- <-]. rewrite complete_lookup, !get_nat. split_and!; [done| |].
  - rewrite list_lookup_insert_eq; [done|]. rewrite length_complete. lia.
  - intros fd' Hn. unfold get. destruct (Z.ltb_spec fd' 0); [done|].
    rewrite list_lookup_insert_ne by lia. apply complete_lookup.
Qed.

(** ** The contents *)

Lemma resize_lookup (c : list Z) n i :
  (length c <= n)%nat -> resize n 0 c !! i = if (i <? length c)%nat then c !! i else if (i <? n)%nat then Some 0 else None.
Proof.
  intros H. rewrite resize_ge by done. destruct (Nat.ltb_spec i (length c)).
  - by rewrite lookup_app_l.
  - rewrite lookup_app_r by lia. destruct (Nat.ltb_spec i n).
    + rewrite lookup_replicate_2 by lia. done.
    + apply lookup_replicate_None. lia.
Qed.
Definition lu (c : list Z) (i : nat) : Z := default 0 (c !! i).

Lemma ecrit_dans_longueur c start data :
  length (ecrit_dans c start data) = Nat.max (length c) (start + length data).
Proof.
  unfold ecrit_dans. rewrite length_splice.
  destruct (Nat.ltb_spec (length c) start); rewrite ?length_resize;
    match goal with |- context[(?a <? ?b)%nat] => destruct (Nat.ltb_spec a b) end; rewrite ?length_resize; lia.
Qed.
(** Written where asked, zeros in the gap, unchanged elsewhere. *)
Lemma ecrit_dans_lu c start data i :
  lu (ecrit_dans c start data) i =
    if (start <=? i)%nat && (i <? start + length data)%nat then lu data (i - start) else lu c i.
Proof.
  unfold ecrit_dans. set (c1 := if (length c <? start)%nat then _ else _).
  set (c2 := if (length c1 <? _)%nat then _ else _).
  assert (forall j, lu c1 j = lu c j) as H1.
  { intros j. unfold c1, lu. destruct (Nat.ltb_spec (length c) start); [|done].
    rewrite resize_lookup by lia. destruct (Nat.ltb_spec j (length c)); [done|].
    rewrite (lookup_ge_None_2 c j) by lia. by destruct (j <? start)%nat. }
  assert (forall j, lu c2 j = lu c j) as H2.
  { intros j. rewrite <-H1. unfold c2, lu. destruct (Nat.ltb_spec (length c1) (start + length data)); [|done].
    rewrite resize_lookup by lia. destruct (Nat.ltb_spec j (length c1)); [done|].
    rewrite (lookup_ge_None_2 c1 j) by lia. by destruct (j <? start + length data)%nat. }
  assert (start + length data <= length c2)%nat as Hlen.
  { unfold c2. destruct (Nat.ltb_spec (length c1) (start + length data)); rewrite ?length_resize; lia. }
  rewrite splice_in by done. unfold lu.
  destruct (Nat.leb_spec start i); cbn [andb].
  2:{ rewrite lookup_app_l by (rewrite length_take; lia). rewrite lookup_take_lt by lia. apply H2. }
  rewrite lookup_app_r by (rewrite length_take; lia). rewrite length_take, Nat.min_l by lia.
  destruct (Nat.ltb_spec i (start + length data)).
  - by rewrite lookup_app_l by lia.
  - rewrite lookup_app_r, lookup_drop by lia. change (lu c2 (start + length data + (i - start - length data)) = lu c i).
    rewrite H2. f_equal. lia.
Qed.
Lemma slice_lu (c : list Z) a n : (a + n <= length c)%nat -> slice c a n = (lu c) <$> seq a n.
Proof.
  intros H. apply list_eq. intros i. rewrite list_lookup_fmap. destruct (decide (i < n)%nat).
  - rewrite lookup_seq_lt by done. cbn. rewrite lookup_slice by done. unfold lu.
    by destruct (lookup_lt_is_Some_2 c (a + i)) as [x ->]; [lia|].
  - rewrite (lookup_ge_None_2 (seq a n)) by (rewrite length_seq; lia).
    apply lookup_ge_None_2. unfold slice. rewrite length_take. lia.
Qed.

(** ** Reading and writing *)

Lemma sur_fs_pas {A} (c : F A) s w' x :
  c (monde s) = (w', inl x) -> sur_fs c s = (mk_session w' (table s), inl x).
Proof. unfold sur_fs. by intros ->. Qed.

Lemma lire_pas {A B} (f : Session -> A) (k : A -> D B) s : lie (lire f) k s = k (f s) s.
Proof. done. Qed.

(** The file after a write at [start]. *)
Definition contenu_ecrit (w w' : Monde) (node start : nat) (data : list Z) : Prop :=
  extents w' = extents w /\
  (exists n n', nodes w !! node = Some n /\ nodes w' !! node = Some n' /\
     length (content n') = Nat.max (length (content n)) (start + length data) /\
     forall i, lu (content n') i =
       if (start <=? i)%nat && (i <? start + length data)%nat then lu data (i - start) else lu (content n) i) /\
  forall j m, j <> node -> nodes w !! j = Some m -> exists m', nodes w' !! j = Some m' /\ corps m' = corps m.

Lemma ecrit_noeud_spec env node start data n w :
  monde_ok w -> nodes w !! node = Some n -> 0 <= default (content_len n) start ->
  default (content_len n) start + Z.of_nat (length data) <= MAX_FILE_SIZE ->
  exists w', ecrit_noeud env node start data w = (w', inl (inl (default (content_len n) start + Z.of_nat (length data)))) /\
    contenu_ecrit w w' node (Z.to_nat (default (content_len n) start)) data /\ monde_ok w'.
Proof.
  intros Hw Hn H0 Hs. set (st := default (content_len n) start) in *.
  cut (wp (ecrit_noeud env node start data) (fun w' r =>
    r = inl (st + Z.of_nat (length data)) /\ contenu_ecrit w w' node (Z.to_nat st) data /\ monde_ok w') w).
  { intros (w' & r & E & -> & ?)%wp_elim. by exists w'. }
  unfold ecrit_noeud. apply wp_lie. eapply wp_noeud; [exact Hn|]. cbv zeta. fold st.
  rewrite (proj2 (Z.ltb_ge _ _)) by lia. set (n1 := avec_content (ecrit_dans (content n) (Z.to_nat st) data) n).
  eapply wp_modifie_suite; [exact Hn|]. change (avec_content _ n) with n1.
  exec touche_spec; [cbn; rewrite length_insert; apply Hw|]. intros w' [] Dv. apply wp_lis.
  pose proof (lookup_lt_Some _ _ _ Hn) as Hlt.
  destruct Dv as (E1 & U1 & C1). cbn [nodes avec_nodes used_relaxed] in *. split; [done|]. split.
  - split; [apply C1|]. split.
    + destruct (table_lookup (<[node := n1]> (nodes w)) (nodes w') node n1) as (n' & En' & Ec);
        [by symmetry|by rewrite list_lookup_insert_eq|].
      assert (content n' = content n1) as Hc by exact (f_equal content (eq_sym Ec)).
      exists n, n'. split_and!; [done..| |].
      * rewrite Hc. apply ecrit_dans_longueur.
      * intros i. rewrite Hc. apply ecrit_dans_lu.
    + intros j m Hj Hm.
      destruct (table_lookup (<[node := n1]> (nodes w)) (nodes w') j m) as (m' & Em' & Ec);
        [by symmetry|by rewrite list_lookup_insert_ne|]. by exists m'.
  - eapply (apres_retouche w w' node n n1); [done..|]. by split_and!.
Qed.

Section Fichier.
Context (a : Appelant) (t : FdTable) (fd : Z) (d : FileDesc) (node : nat).
Context (Hd : get t fd = Some d) (Hk : kind_of d = FdFile node).

Lemma pwrite_pas entre buffer count pos data n w :
  monde_ok w -> nodes w !! node = Some n -> etendue w node = None -> 0 <= pos ->
  user_read a buffer count = Some data -> pos + Z.of_nat (length data) <= MAX_FILE_SIZE ->
  exists w', sys_pwrite a entre fd buffer count pos (mk_session w t)
      = (mk_session w' t, inl (Z.of_nat (length data))) /\
    contenu_ecrit w w' node (Z.to_nat pos) data /\ monde_ok w'.
Proof.
  intros Hw Hn He Hp Hu Hs. unfold sys_pwrite. rewrite (proj2 (Z.ltb_ge pos 0)) by lia.
  rewrite lire_pas. cbn [table]. rewrite Hd, Hk.
  rewrite lire_pas. cbn [monde].
  replace (is_disk_backed w node) with false by (unfold is_disk_backed, disk_len; by rewrite He).
  rewrite Hu. destruct (ecrit_noeud_spec a node (Some pos) data n w Hw Hn Hp Hs) as (w' & E & H).
  exists w'. split; [|exact H].
  rewrite (lie_pas _ _ _ _ _ (sur_fs_pas _ (mk_session w t) _ _ E)). done.
Qed.

Lemma pread_pas buffer count pos n w :
  nodes w !! node = Some n -> etendue w node = None -> 0 <= pos -> 0 < count ->
  pos + count <= content_len n ->
  user_write a buffer (lu (content n) <$> seq (Z.to_nat pos) (Z.to_nat count)) = true ->
  sys_pread a fd buffer count pos (mk_session w t)
    = (mk_session w t, inl (inl (lu (content n) <$> seq (Z.to_nat pos) (Z.to_nat count)))).
Proof.
  intros Hn He Hp Hc Hl Hu. unfold sys_pread. rewrite (proj2 (Z.ltb_ge pos 0)) by lia.
  rewrite lire_pas. cbn [table]. rewrite Hd, Hk.
  assert (logical_len node (mk_session w t) = (mk_session w t, inl (content_len n))) as E1.
  { unfold logical_len, sur_fs, lie, lis, disk_len. cbn [monde]. rewrite He. cbn. unfold noeud. by rewrite Hn. }
  rewrite (lie_pas _ _ _ _ _ E1).
  rewrite (proj2 (Z.leb_gt (content_len n) pos)), (proj2 (Z.eqb_neq count 0)) by lia. cbn [orb].
  rewrite Z.min_l by lia. unfold content_len in Hl.
  assert (read_at a node pos count (mk_session w t)
    = (mk_session w t, inl (lu (content n) <$> seq (Z.to_nat pos) (Z.to_nat count)))) as E2.
  { unfold read_at, sur_fs, lie, lis. cbn [monde]. rewrite He. unfold noeud. rewrite Hn. unfold rend.
    by rewrite slice_lu by lia. }
  rewrite (lie_pas _ _ _ _ _ E2). unfold donne. by rewrite Hu.
Qed.

(** What is written is what is read back. A positioned write of a file in memory succeeds, puts
    the bytes where asked with zeros in the gap before them, changes no other byte, no other
    file and no descriptor, and a positioned read of any range the file has then gives exactly
    those bytes. *)
Theorem ecriture_relue entre buffer count pos data n w :
  monde_ok w -> nodes w !! node = Some n -> etendue w node = None -> 0 <= pos ->
  user_read a buffer count = Some data -> pos + Z.of_nat (length data) <= MAX_FILE_SIZE ->
  exists w', sys_pwrite a entre fd buffer count pos (mk_session w t)
      = (mk_session w' t, inl (Z.of_nat (length data))) /\
    contenu_ecrit w w' node (Z.to_nat pos) data /\
    forall p c b, 0 <= p -> 0 < c -> p + c <= Z.max (content_len n) (pos + Z.of_nat (length data)) ->
      (forall x, user_write a b x = true) ->
      sys_pread a fd b c p (mk_session w' t) = (mk_session w' t, inl (inl
        ((fun i => if (Z.to_nat pos <=? i)%nat && (i <? Z.to_nat pos + length data)%nat
                   then lu data (i - Z.to_nat pos) else lu (content n) i) <$> seq (Z.to_nat p) (Z.to_nat c)))).
Proof.
  intros Hw Hn He Hp Hu Hs.
  destruct (pwrite_pas entre buffer count pos data n w Hw Hn He Hp Hu Hs) as (w' & E & Hc & _).
  exists w'. split_and!; [done..|]. intros p c b H1 H2 H3 Hb.
  destruct Hc as (Hx & (n0 & n' & En & En' & Hlen & Hlu) & _). rewrite Hn in En. injection En as <-.
  rewrite (pread_pas b c p n' w'); [|done| |done|done| |done].
  - do 3 f_equal. apply list_fmap_ext. intros i x _. apply Hlu.
  - unfold etendue in *. by rewrite Hx.
  - unfold content_len in *. rewrite Hlen. lia.
Qed.
End Fichier.
End DescripteursProofs.
