(* ===== verification/Porte.v ===== *)
(** The security gate in front of both system call tables, [src/kernel/security/syscall.rs], and
    the decisions it takes: the file system ([filesystem.rs]), execution ([execution.rs]), memory
    protections ([memory.rs]) and sockets ([network.rs]). The refusals written to the audit
    journal are not modelled. *)

From S2P Require Import Prelude Vma MemLinux Ramfs RamfsAppels Profils Politique PolitiqueProofs Descripteurs.
From stdpp Require Import strings.
From stdpp Require Import gmap strings.

Module Porte.
Import Ramfs.
Import RamfsAppels(AT_FDCWD, O_CREAT, O_TRUNC, O_ACCMODE, O_WRONLY, O_RDWR, EACCES, Mutation,
  Create, Remove, RenameSource, RenameTarget, LinkTarget, SymlinkTarget, Chmod, Chown).
Import MemLinux(PROT_WRITE, PROT_EXEC).
Import Descripteurs(FdKind, FdFile, FdDir, FdFramebuffer, FileDesc, kind_of, flags, get).
Import Profils Politique.
Open Scope Z_scope.
Open Scope os_scope.

(** ** The file system *)

Inductive FsDeny :=
| SandboxPath | PrivilegedDevice | ReadMode | WriteMode | ParentMutation | Ownership | StickyDirectory
| MappingAccess.

Definition MAP_SHARED : Z := 1.
Definition MAP_ANONYMOUS : Z := 32.

(** What the checks read of the process that calls, besides the policy: the user strings, the
    current directory, the descriptors with their open flags, the promised areas; and of the
    system: the file table and the process of a thread. *)
Record Vue := mk_vue {
  fichiers : list Node;
  memoire : Z -> option (list Z);
  repertoire : nat;
  descripteurs : list (option FileDesc);
  promesses : list Vma.Vma;
  process_of_tid : Z -> option Z
}.

Definition privileged_device (path : list Z) : bool :=
  egal path (octets "/dev/fb0") || starts_with path (octets "/dev/input/") || egal path (octets "/dev/mem")
  || egal path (octets "/dev/port") || starts_with path (octets "/dev/ata") || starts_with path (octets "/dev/pci").
Definition wants_write (flags : Z) : bool :=
  (Z.land flags O_ACCMODE =? O_WRONLY) || (Z.land flags O_ACCMODE =? O_RDWR)
  || negb (Z.land flags (Z.lor O_CREAT O_TRUNC) =? 0).
Definition wants_read (flags : Z) : bool := negb (Z.land flags O_ACCMODE =? O_WRONLY).

Definition sandbox_path_allowed (security : Snapshot) (canonical : list Z) (write : bool) : bool :=
  if sandboxe (s_profile security) then
    if write then ecriture_permise (s_profile security) canonical
    else lecture_permise (s_profile security) canonical
  else true.

(** A node of the table in use. *)
Definition noeud_utile (l : list Node) (node : nat) : option Node :=
  match l !! node with Some n => if used n then Some n else None | None => None end.
Definition mode_noeud (security : Snapshot) (n : Node) (wanted : Z) (is_dir : bool) : bool :=
  mode_allows (s_credentials security) (uid n) (gid n) (mode n) wanted is_dir.
Definition node_access_allowed (l : list Node) (security : Snapshot) (node : nat) (wanted : Z) : bool :=
  match noeud_utile l node with
  | None => false
  | Some item => mode_noeud security item wanted (est_dir (kind item))
  end.

Definition parent_mutation_allowed (l : list Node) (security : Snapshot) (canonical : list Z)
  (sticky_victim : bool) : unit + FsDeny :=
  match resolve_parent_name l canonical 0 with
  | None => inl tt
  | Some (parent, _) =>
      match noeud_utile l parent with
      | None => inl tt
      | Some parent_node =>
          if negb (mode_noeud security parent_node (Z.lor A_WRITE A_EXECUTE) true) then inr ParentMutation
          else if sticky_victim then
            match resolve l canonical 0 with
            | Some victim =>
                match noeud_utile l victim with
                | Some v =>
                    if negb (sticky_allows (s_credentials security) (uid parent_node) (mode parent_node) (uid v))
                    then inr StickyDirectory else inl tt
                | None => inl tt
                end
            | None => inl tt
            end
          else inl tt
      end
  end.

(** The decisions on a canonical path. *)
Definition open_decision (l : list Node) (security : Snapshot) (canonical : list Z) (flags : Z) : unit + FsDeny :=
  if privileged_device canonical && negb (possede (s_caps security) DEVICE_IO) then inr PrivilegedDevice
  else
    let write := wants_write flags in
    if negb (sandbox_path_allowed security canonical write) then inr SandboxPath
    else
      match resolve l canonical 0 ≫= noeud_utile l with
      | Some item =>
          if wants_read flags && negb (mode_noeud security item A_READ (est_dir (kind item))) then inr ReadMode
          else if write && negb (mode_noeud security item A_WRITE (est_dir (kind item))) then inr WriteMode
          else inl tt
      | None =>
          if negb (Z.land flags O_CREAT =? 0) then parent_mutation_allowed l security canonical false else inl tt
      end.
Definition mutation_decision (l : list Node) (security : Snapshot) (canonical : list Z) (kind : Mutation)
  : unit + FsDeny :=
  if negb (sandbox_path_allowed security canonical true) then inr SandboxPath
  else
    match kind with
    | Create | RenameTarget | LinkTarget | SymlinkTarget => parent_mutation_allowed l security canonical false
    | Remove | RenameSource => parent_mutation_allowed l security canonical true
    | Chown => if possede (s_caps security) FS_ADMIN then inl tt else inr Ownership
    | Chmod =>
        match resolve l canonical 0 ≫= noeud_utile l with
        | None => inl tt
        | Some n =>
            if (euid (s_credentials security) =? uid n) || possede (s_caps security) FS_ADMIN
            then inl tt else inr Ownership
        end
    end.
Definition visible_decision (l : list Node) (security : Snapshot) (canonical : list Z) : bool :=
  sandbox_path_allowed security canonical false && bool_decide (is_Some (resolve l canonical 0)).
Definition reference_decision (l : list Node) (security : Snapshot) (canonical : list Z) : unit + FsDeny :=
  if negb (sandbox_path_allowed security canonical false) then inr SandboxPath
  else
    match resolve l canonical 0 ≫= noeud_utile l with
    | None => inl tt
    | Some item => if mode_noeud security item A_READ (est_dir (kind item)) then inl tt else inr ReadMode
    end.

(** ** The gate of a process *)

Section Porte.
Context (v : Vue) (moi : Z).
#[local] Abbreviation l := (fichiers v).

Definition descripteur (fd : Z) : option (FdKind * Z) :=
  d ← get (descripteurs v) fd; Some (kind_of d, flags d).
Definition base_node_for_dirfd (dirfd : Z) : option nat :=
  if dirfd =? AT_FDCWD then Some (repertoire v)
  else match descripteur dirfd with Some (FdDir node, _) => Some node | _ => None end.
Definition canonical_from_node (base_node : nat) (raw_path : list Z) : P (list Z) :=
  if est_absolu raw_path then rend (normalize_absolute raw_path)
  else base <- ou_echoue (path_string l base_node) tt ;; rend (canonical_from_base base raw_path).
Definition canonical_at (dirfd : Z) (raw_path : list Z) : P (option (list Z)) :=
  if est_absolu raw_path then rend (Some (normalize_absolute raw_path))
  else
    match base_node_for_dirfd dirfd with
    | None => rend None
    | Some node => c <- canonical_from_node node raw_path ;; rend (Some c)
    end.

Definition existence_visible (security : Snapshot) (dirfd : Z) (raw_path : list Z) : P bool :=
  c <- canonical_at dirfd raw_path ;;
  rend (match c with None => false | Some canonical => visible_decision l security canonical end).
Definition open_allowed (security : Snapshot) (dirfd : Z) (path : list Z) (flags : Z) : P (unit + FsDeny) :=
  c <- canonical_at dirfd path ;;
  rend (match c with None => inl tt | Some canonical => open_decision l security canonical flags end).
Definition mutation_allowed (security : Snapshot) (dirfd : Z) (raw_path : list Z) (kind : Mutation)
  : P (unit + FsDeny) :=
  c <- canonical_at dirfd raw_path ;;
  rend (match c with None => inl tt | Some canonical => mutation_decision l security canonical kind end).
Definition reference_allowed (security : Snapshot) (dirfd : Z) (raw_path : list Z) : P (unit + FsDeny) :=
  c <- canonical_at dirfd raw_path ;;
  rend (match c with None => inl tt | Some canonical => reference_decision l security canonical end).

Definition mmap_allowed (security : Snapshot) (fd prot flags : Z) : unit + FsDeny :=
  match descripteur fd with
  | None => inl tt
  | Some (FdFile node, open_flags) =>
      let partage := negb (Z.land flags MAP_SHARED =? 0) && negb (Z.land prot PROT_WRITE =? 0) in
      if partage && negb (Z.land open_flags O_ACCMODE =? O_RDWR) then inr MappingAccess
      else if negb partage && (Z.land open_flags O_ACCMODE =? O_WRONLY) then inr MappingAccess
      else
        let wanted := if partage then Z.lor A_READ A_WRITE else A_READ in
        if node_access_allowed l security node wanted then inl tt else inr MappingAccess
  | Some (FdFramebuffer, _) => if possede (s_caps security) DEVICE_IO then inl tt else inr PrivilegedDevice
  | Some _ => inl tt
  end.
Definition noeud_du_descripteur (fd : Z) : option nat :=
  match descripteur fd with Some (FdFile node, _) | Some (FdDir node, _) => Some node | _ => None end.
Definition fchown_sans_effet (security : Snapshot) (fd u g : Z) : bool :=
  match noeud_du_descripteur fd ≫= noeud_utile l with
  | None => false
  | Some n =>
      (euid (s_credentials security) =? uid n) && ((u =? u32_max - 1) || (u =? uid n))
      && ((g =? u32_max - 1) || (g =? gid n))
  end.
Definition fd_metadata_change_allowed (security : Snapshot) (fd : Z) (chown : bool) : unit + FsDeny :=
  match noeud_du_descripteur fd with
  | None => inl tt
  | Some node =>
      if chown then if possede (s_caps security) FS_ADMIN then inl tt else inr Ownership
      else
        match noeud_utile l node with
        | None => inl tt
        | Some n =>
            if (euid (s_credentials security) =? uid n) || possede (s_caps security) FS_ADMIN
            then inl tt else inr Ownership
        end
  end.

(** ** Execution *)

Definition restricted_path (path : list Z) : bool :=
  existsb (fun r => egal path (octets r) || starts_with path (octets r ++ [SLASH]))
    ["/tmp"; "/var/tmp"; "/dev"; "/proc"; "/sys"]%string.
Definition appelant_peut_executer (profil : SecurityProfile) : bool :=
  match profil with System | User | BrowserBroker => true | _ => false end.

Inductive RefusExec := AppelantSandboxe | SansExec | CheminNonFiable | NoeudInvalide | BitAbsent | ModifiableParTous.
(** [appelant]: the process of the ring 3 task that runs, if any; [session]: the identity of the
    session of a launch by the kernel. *)
Definition authorize_node (appelant : option Z) (session : Z * Z) (path : list Z) (node cwd : nat)
  : P (unit + RefusExec) :=
  refuse <- (match appelant with
             | Some p => x <- current p ;; rend (negb (appelant_peut_executer (s_profile x)))
             | None => rend false
             end) ;;
  if (refuse : bool) then rend (inr AppelantSandboxe)
  else
    canonical <- canonical_from_node cwd path ;;
    security <- launch appelant session canonical ;;
    rend (if negb (possede (s_caps security) EXEC) then inr SansExec
          else if restricted_path canonical && negb (possede (s_caps security) EXEC_UNTRUSTED) then inr CheminNonFiable
          else match noeud_utile l node with
               | None => inr NoeudInvalide
               | Some file =>
                   if negb (mode_noeud security file A_EXECUTE false) then inr BitAbsent
                   else if negb (Z.land (mode file) 2 =? 0) && negb (possede (s_caps security) EXEC_UNTRUSTED)
                   then inr ModifiableParTous
                   else inl tt
               end).
Definition authorize_user_path (path : list Z) : P (unit + RefusExec) :=
  c <- canonical_at AT_FDCWD path ;;
  let canonical := default path c in
  match resolve l canonical 0 with
  | None => rend (inl tt)
  | Some node => authorize_node (Some moi) (0, 0) canonical node (repertoire v)
  end.

(** ** Memory *)

Inductive MemoryDeny := WriteExecute | ExecuteDenied | AnonymousExecute | SharedWriteDenied.
Definition check_protection (security : Snapshot) (prot : Z) (anonymous : bool) : unit + MemoryDeny :=
  let write := negb (Z.land prot PROT_WRITE =? 0) in
  let execute := negb (Z.land prot PROT_EXEC =? 0) in
  if write && execute then inr WriteExecute
  else if execute && negb (possede (s_caps security) EXEC) then inr ExecuteDenied
  else if execute && anonymous && negb (possede (s_caps security) JIT) then inr AnonymousExecute
  else inl tt.
Definition mmap (security : Snapshot) (prot flags : Z) : unit + MemoryDeny :=
  check_protection security prot (negb (Z.land flags MAP_ANONYMOUS =? 0)).
(** The areas met, whether one is anonymous, and the files shared. *)
Definition touchees (addr fin_ : Z) : list Vma.Vma :=
  List.filter (fun r => negb ((fin_ <=? Vma.debut r) || (Vma.fin r <=? addr))) (promesses v).
Definition noeud_partage (r : Vma.Vma) : option nat :=
  match Vma.backing r with Vma.BSharedFile node _ _ _ => Some (Z.to_nat node) | _ => None end.
Definition est_anonyme_vma (r : Vma.Vma) : bool := match Vma.backing r with Vma.BZero => true | _ => false end.
Definition mprotect (security : Snapshot) (addr len prot : Z) : unit + MemoryDeny :=
  let fin_ := Z.min (u64_max - 1) (addr + len) in
  let rs := touchees addr fin_ in
  let anonymous := existsb est_anonyme_vma rs || match rs with [] => true | _ => false end in
  match check_protection security prot anonymous with
  | inr d => inr d
  | inl _ =>
      if negb (Z.land prot PROT_WRITE =? 0)
         && negb (forallb (fun node => node_access_allowed l security node A_WRITE) (omap noeud_partage rs))
      then inr SharedWriteDenied else inl tt
  end.

(** ** Sockets *)

Definition AF_PACKET : Z := 17.
Definition SOCK_TYPE_MASK : Z := 15.
Definition SOCK_RAW : Z := 3.
Definition socket_allowed (security : Snapshot) (domain socket_type : Z) : bool :=
  if negb (possede (s_caps security) NET_CONNECT) then false
  else
    let raw := (Z.land socket_type SOCK_TYPE_MASK =? SOCK_RAW) || (domain =? AF_PACKET) in
    negb raw || possede (s_caps security) NETWORK_ADMIN.

(** ** The decision on a system call *)

Inductive GateDecision := Allow | Return (code : Z).
Definition EPERM : Z := 1.
Definition EEXIST : Z := 17.
Definition EINVAL : Z := 22.
(** [NativeError::AccessDenied] *)
Definition NATIVE_ACCESS_DENIED : Z := 5.

Definition as_u32 (z : Z) : Z := z mod u32_max.
Definition as_i32 (z : Z) : Z := let w := z mod u32_max in if w <? 2 ^ 31 then w else w - u32_max.
Definition as_i64 (z : Z) : Z := if z <? 2 ^ 63 then z else z - u64_max.

(** The refusal is recorded with the context of the moment. *)
Definition linux_deny (code : Z) : P GateDecision := current moi ;;; rend (Return (- code)).
Definition require (wanted : Z) : P (option GateDecision) :=
  security <- current moi ;;
  rend (if possede (s_caps security) wanted then None else Some (Return (- EPERM))).
Definition exige (wanted : Z) : P GateDecision := r <- require wanted ;; rend (default Allow r).
Definition accord {E} (r : unit + E) (code : Z) : GateDecision :=
  match r with inl _ => Allow | inr _ => Return (- code) end.

Definition check_open (dirfd path_pointer flags : Z) : P GateDecision :=
  match memoire v path_pointer with
  | None => rend Allow
  | Some raw_path =>
      security <- current moi ;;
      r <- open_allowed security dirfd raw_path flags ;;
      rend (accord r EACCES)
  end.
Definition check_mutation (dirfd path_pointer : Z) (kind : Mutation) : P GateDecision :=
  match memoire v path_pointer with
  | None => rend Allow
  | Some raw_path =>
      security <- current moi ;;
      r <- mutation_allowed security dirfd raw_path kind ;;
      rend (accord r EACCES)
  end.
Definition check_create (dirfd path_pointer : Z) (kind : Mutation) : P GateDecision :=
  deja <- (match memoire v path_pointer with
           | None => rend false
           | Some raw_path => security <- current moi ;; existence_visible security dirfd raw_path
           end) ;;
  if (deja : bool) then rend (Return (- EEXIST)) else check_mutation dirfd path_pointer kind.
Definition check_reference (dirfd path_pointer : Z) : P GateDecision :=
  match memoire v path_pointer with
  | None => rend Allow
  | Some raw_path =>
      security <- current moi ;;
      r <- reference_allowed security dirfd raw_path ;;
      rend (accord r EACCES)
  end.
Definition check_fd_metadata (fd : Z) (chown : bool) : P GateDecision :=
  security <- current moi ;; rend (accord (fd_metadata_change_allowed security fd chown) EPERM).
(** The second check only when the first allows. *)
Definition puis_verifie (first second : P GateDecision) : P GateDecision :=
  d <- first ;; match d with Allow => second | Return code => rend (Return code) end.

Definition signal_process_allowed (target_pid : Z) : P GateDecision :=
  security <- current moi ;;
  ps <- lit processus ;;
  let permis := match ps !! target_pid with
                | Some q => (p_uid q =? euid (s_credentials security)) || possede (s_caps security) PROCESS_CONTROL
                | None => possede (s_caps security) PROCESS_CONTROL
                end in
  if (permis : bool) then rend Allow else linux_deny EPERM.
Definition signal_thread_allowed (target_tid : Z) : P GateDecision :=
  security <- current moi ;;
  ps <- lit processus ;;
  let permis := match process_of_tid v target_tid ≫= fun p => ps !! p with
                | Some q => (p_uid q =? euid (s_credentials security)) || possede (s_caps security) PROCESS_CONTROL
                | None => possede (s_caps security) PROCESS_CONTROL
                end in
  if (permis : bool) then rend Allow else linux_deny EPERM.

(** *** The native table *)

Definition NATIVE_BASE : Z := 1112473600.
Definition HANDLE_DUP : Z := NATIVE_BASE + 2.
Definition CHANNEL_SEND : Z := NATIVE_BASE + 17.
Definition CHANNEL_SEND_ATTENUE : Z := NATIVE_BASE + 19.
Definition SHM_CREATE : Z := NATIVE_BASE + 64.
Definition PROCESS_SPAWN : Z := NATIVE_BASE + 80.
Definition RIGHT_TRANSFER : Z := Z.shiftl 1 5.

Definition plafond_shm (profil : SecurityProfile) : Z :=
  match profil with
  | System => 64 * 1024 * 1024
  | BrowserBroker => 32 * 1024 * 1024
  | BrowserContent | BrowserNetwork | User => 16 * 1024 * 1024
  | Untrusted => 4 * 1024 * 1024
  end.
Definition gate_native (number : Z) (args : list Z) : P GateDecision :=
  security <- current moi ;;
  let transfere := possede (s_caps security) IPC_TRANSFER in
  let refus := Return (- NATIVE_ACCESS_DENIED) in
  let envoi_avec_handles :=
    ((number =? CHANNEL_SEND) || (number =? CHANNEL_SEND_ATTENUE)) && negb (aget args 4 =? 0) in
  rend (if envoi_avec_handles && negb transfere then refus
        else if (number =? PROCESS_SPAWN) && negb (aget args 3 =? 0) && negb transfere then refus
        else if (number =? HANDLE_DUP) && negb (Z.land (as_u32 (aget args 1)) RIGHT_TRANSFER =? 0) && negb transfere
        then refus
        else if (number =? SHM_CREATE) && (plafond_shm (s_profile security) <? aget args 0) then refus
        else Allow).

(** *** The Linux table *)

Definition GATE_OPEN : Z := 2.
Definition GATE_MMAP : Z := 9.
Definition GATE_MPROTECT : Z := 10.
Definition GATE_SOCKET : Z := 41.
Definition GATE_EXECVE : Z := 59.
Definition GATE_KILL : Z := 62.
Definition PR_SET_NO_NEW_PRIVS : Z := 38.
Definition PR_GET_NO_NEW_PRIVS : Z := 39.

Definition gate_mmap (args : list Z) : P GateDecision :=
  security <- current moi ;;
  rend (match mmap security (as_u32 (aget args 2)) (as_u32 (aget args 3)) with
        | inr _ => Return (- EACCES)
        | inl _ =>
            if (Z.land (as_u32 (aget args 3)) MAP_ANONYMOUS =? 0) && (0 <=? as_i64 (aget args 4))
            then accord (mmap_allowed security (as_i32 (aget args 4)) (as_u32 (aget args 2)) (as_u32 (aget args 3))) EACCES
            else Allow
        end).
Definition gate_prctl (args : list Z) : P GateDecision :=
  if aget args 0 =? PR_SET_NO_NEW_PRIVS then
    if negb (aget args 1 =? 1) || negb (aget args 2 =? 0) || negb (aget args 3 =? 0) || negb (aget args 4 =? 0)
    then rend (Return (- EINVAL))
    else set_no_new_privs_current moi ;;; rend (Return 0)
  else if aget args 0 =? PR_GET_NO_NEW_PRIVS then
    b <- no_new_privs_current moi ;; rend (Return (if (b : bool) then 1 else 0))
  else rend Allow.
Definition gate_kill (args : list Z) : P GateDecision :=
  security <- current moi ;;
  let target := as_i64 (aget args 0) in
  if target <=? 0 then
    if possede (s_caps security) PROCESS_CONTROL then rend Allow else linux_deny EPERM
  else signal_process_allowed (as_u32 target).
Definition gate_fchown (args : list Z) : P GateDecision :=
  security <- current moi ;;
  if fchown_sans_effet security (as_i32 (aget args 0)) (as_u32 (aget args 1)) (as_u32 (aget args 2))
  then rend (Return 0) else check_fd_metadata (as_i32 (aget args 0)) true.
Definition gate_execve (args : list Z) : P GateDecision :=
  match memoire v (aget args 0) with
  | None => rend Allow
  | Some path => r <- authorize_user_path path ;; rend (accord r EACCES)
  end.

Definition gate (number : Z) (args : list Z) (native : bool) : P GateDecision :=
  if native then gate_native number args
  else
    match number with
    | 9 => gate_mmap args
    | 10 => security <- current moi ;;
            rend (accord (mprotect security (aget args 0) (aget args 1) (as_u32 (aget args 2))) EACCES)
    | 59 => gate_execve args
    | 102 => security <- current moi ;; rend (Return (ruid (s_credentials security)))
    | 107 => security <- current moi ;; rend (Return (euid (s_credentials security)))
    | 104 => security <- current moi ;; rend (Return (rgid (s_credentials security)))
    | 108 => security <- current moi ;; rend (Return (egid (s_credentials security)))
    | 105 => r <- set_uid_current moi (as_u32 (aget args 0)) ;;
             match r with inl _ => rend (Return 0) | inr _ => linux_deny EPERM end
    | 106 => r <- set_gid_current moi (as_u32 (aget args 0)) ;;
             match r with inl _ => rend (Return 0) | inr _ => linux_deny EPERM end
    | 157 => gate_prctl args
    | 2 => check_open AT_FDCWD (aget args 0) (as_u32 (aget args 1))
    | 257 => check_open (as_i32 (aget args 0)) (aget args 1) (as_u32 (aget args 2))
    | 85 => check_open AT_FDCWD (aget args 0) 65
    | 83 | 133 => check_create AT_FDCWD (aget args 0) Create
    | 258 | 259 => check_create (as_i32 (aget args 0)) (aget args 1) Create
    | 84 | 87 => check_mutation AT_FDCWD (aget args 0) Remove
    | 263 => check_mutation (as_i32 (aget args 0)) (aget args 1) Remove
    | 90 => check_mutation AT_FDCWD (aget args 0) Chmod
    | 92 | 94 => check_mutation AT_FDCWD (aget args 0) Chown
    | 91 => check_fd_metadata (as_i32 (aget args 0)) false
    | 93 => gate_fchown args
    | 82 => puis_verifie (check_mutation AT_FDCWD (aget args 0) RenameSource)
              (check_mutation AT_FDCWD (aget args 1) RenameTarget)
    | 264 | 316 => puis_verifie (check_mutation (as_i32 (aget args 0)) (aget args 1) RenameSource)
                     (check_mutation (as_i32 (aget args 2)) (aget args 3) RenameTarget)
    | 86 => puis_verifie (check_reference AT_FDCWD (aget args 0))
              (check_mutation AT_FDCWD (aget args 1) LinkTarget)
    | 88 => check_mutation AT_FDCWD (aget args 1) SymlinkTarget
    | 41 => security <- current moi ;;
            rend (if socket_allowed security (as_u32 (aget args 0)) (as_u32 (aget args 1)) then Allow
                  else Return (- EPERM))
    | 62 => gate_kill args
    | 200 => signal_thread_allowed (as_u32 (aget args 0))
    | 234 => signal_process_allowed (as_u32 (aget args 0))
    | 101 => exige DEBUG
    | 126 => exige SET_IDENTITY
    | 161 => exige FS_ADMIN
    | 165 | 166 | 167 | 168 | 169 | 170 | 171 | 164 | 163 => exige SYSTEM_ADMIN
    | 172 | 173 => exige DEVICE_IO
    | _ => rend Allow
    end.
End Porte.
End Porte.

(** The gate in front of the system calls, for a rendering process: in every history of the
    system it refuses what the role must not have. *)

Module PorteProofs.
Import Ramfs(est_absolu, normalize_absolute, resolve, octets, path_string, canonical_from_base).
Import RamfsAppels(AT_FDCWD, Mutation, Remove, RenameSource, RenameTarget).
Import Profils Politique PolitiqueProofs Porte.
Open Scope Z_scope.
Open Scope os_scope.

(** What a call of [current] gives for a process whose image is known. *)
Definition du_profil (q : Processus) (x : Snapshot) : Prop :=
  s_profile x = classify (p_name q) (p_uid q) /\ inclus (s_caps x) (capabilities (s_profile x)) /\
  (sandboxe (s_profile x) = true -> s_nnp x = true).
(** The states between the checks of one call: the counter has [n] checks left. *)
Definition pret (p : Z) (q : Processus) (n : Z) (s : Etat) : Prop :=
  bien s /\ processus s !! p = Some q /\ checks s + n < u64_max.

Lemma current_pas p q n s :
  0 < n -> pret p q n s ->
  wp (current p) (fun s' x => pret p q (n - 1) s' /\ du_profil q x) s.
Proof.
  intros Hn (Hb & Hq & Hc).
  assert (exists s1 x, instantane p s = (s1, inl x)) as (s1 & x & E1).
  { unfold instantane, processus_de, entree, lit, lie, etat_courant, ou_echoue, rend, change. rewrite Hq.
    cbv beta iota. destruct (ensure_entry (contextes s) p (p_name q) (p_uid q) (p_gid q)). do 2 eexists. reflexivity. }
  assert (checks s1 = checks s) as Hc1.
  { revert E1. unfold instantane, processus_de, entree, lit, lie, etat_courant, ou_echoue, rend, change. rewrite Hq.
    cbv beta iota. destruct (ensure_entry (contextes s) p (p_name q) (p_uid q) (p_gid q)). by intros [= <- _]. }
  destruct (instantane_classe p s s1 x Hb E1) as (q' & Hq' & H1 & _ & H2 & H3). rewrite Hq in Hq'. injection Hq' as <-.
  pose proof (instantane_spec p s s1 x E1) as (He & Ep & _). apply (effet_bien _ _ _ He) in Hb as Hb1.
  apply (wp_pas _ _ _ _ _ _ E1).
  assert (exists s2, maybe_maintenance s1 = (s2, inl tt) /\ checks s2 = checks s + 1) as (s2 & E2 & Hc2).
  { unfold maybe_maintenance, compte_controle, lit, lie, etat_courant, rend, garde, change.
    rewrite (proj2 (Z.eqb_neq _ _)) by lia. cbn. destruct (_ =? 0); eexists; (split; [reflexivity|cbn; lia]). }
  pose proof (maintenance_spec s1 s2 tt E2) as (Ep2 & _ & Hv). apply (wp_pas _ _ _ _ _ _ E2).
  split; [|by split_and!]. split_and!; [|by rewrite Ep2, Ep|lia].
  apply (restreint_bien s1); [|done]. intros q0. destruct (Hv q0) as [|[]]; auto.
Qed.

Section Rendu.
Context (v : Vue) (moi : Z) (q : Processus).
Context (Hu : untrusted_path (p_name q) = false) (Hr : browser_content_image (p_name q) = true).

Lemma profil_rendu x : du_profil q x ->
  s_profile x = BrowserContent /\ inclus (s_caps x) (capabilities BrowserContent) /\ s_nnp x = true.
Proof.
  intros (H1 & H2 & H3).
  assert (classify (p_name q) (p_uid q) = BrowserContent) as E by (unfold classify; by rewrite Hu, Hr).
  rewrite H1, E in *. auto.
Qed.
Lemma sans_pouvoir x w : du_profil q x -> possede (capabilities BrowserContent) w = false -> possede (s_caps x) w = false.
Proof.
  intros (_ & H & _)%profil_rendu Hw. destruct (possede (s_caps x) w) eqn:E; [|done].
  apply (possede_inclus _ _ _ H) in E. congruence.
Qed.

Definition refuse (d : GateDecision) : Prop := exists code, 0 < code /\ d = Return (- code).

(** The canonical path a call designates by a directory descriptor and a path, and the pairs whose
    computation does not stop the kernel: a relative path needs a directory that still has one. *)
Definition cible (dirfd : Z) (path : list Z) : option (list Z) :=
  if est_absolu path then Some (normalize_absolute path)
  else
    node ← base_node_for_dirfd v dirfd;
    base ← path_string (fichiers v) node;
    Some (canonical_from_base base path).
Definition lisible (dirfd ptr : Z) : Prop :=
  match memoire v ptr with
  | None => True
  | Some path =>
      est_absolu path = true \/
      match base_node_for_dirfd v dirfd with Some node => is_Some (path_string (fichiers v) node) | None => True end
  end.
(** The calls on paths: their number, the arguments that hold the directory (the current one when
    there is none) and the path; for an opening, the flags too ([creat] has fixed ones). *)
Definition CREATIONS : list (Z * (option Z * Z)) := [(83, (None, 0)); (133, (None, 0)); (258, (Some 0, 1)); (259, (Some 0, 1))].
Definition MUTATIONS : list (Z * (option Z * Z)) :=
  [(84, (None, 0)); (87, (None, 0)); (263, (Some 0, 1)); (90, (None, 0)); (92, (None, 0)); (94, (None, 0)); (88, (None, 1))].
Definition RENOMMAGES : list (Z * (option Z * Z)) :=
  [(82, (None, 0)); (82, (None, 1)); (264, (Some 0, 1)); (264, (Some 2, 3)); (316, (Some 0, 1)); (316, (Some 2, 3))].
Definition LIENS : list (Z * (option Z * Z)) := [(86, (None, 1))].
Definition LIENS_LUS : list (Z * (option Z * Z)) := [(86, (None, 0))].
Definition OUVERTURES : list (Z * (option Z * Z * option Z)) :=
  [(2, (None, 0, Some 1)); (257, (Some 0, 1, Some 2)); (85, (None, 0, None))].
Definition ECRITURES : list (Z * (option Z * Z)) := CREATIONS ++ MUTATIONS ++ RENOMMAGES ++ LIENS.
Definition dossier (args : list Z) (d : option Z) : Z := match d with None => AT_FDCWD | Some i => as_i32 (aget args i) end.
Definition drapeaux (args : list Z) (f : option Z) : Z := match f with None => 65 | Some i => as_u32 (aget args i) end.
Definition sans_arret (n : Z) (args : list Z) : Prop :=
  forall d p, (n, (d, p)) ∈ ECRITURES ++ LIENS_LUS -> lisible (dossier args d) (aget args p).
Definition designe (args : list Z) (d : option Z) (p : Z) (c : list Z) : Prop :=
  exists path, memoire v (aget args p) = Some path /\ cible (dossier args d) path = Some c.
(** The role may write the path, or read it. *)
Definition permis (ecrit : bool) (c : list Z) : bool :=
  if ecrit then ecriture_permise BrowserContent c else lecture_permise BrowserContent c.

(** What a rendering process must not have: the network, programs, debugging, identities, mounts
    and devices, the signals of groups, memory both writable and executable, and, by any call of the
    tables above, absolute paths or relative ones, paths outside the places of the role. *)
Inductive hors_role : Z -> list Z -> Prop :=
| HR_socket args : hors_role 41 args
| HR_exec args c node :
    designe args None 0 c -> resolve (fichiers v) c 0 = Some node -> hors_role 59 args
| HR_admin n args : n ∈ [101; 126; 161; 163; 164; 165; 166; 167; 168; 169; 170; 171; 172; 173] -> hors_role n args
| HR_groupe args : as_i64 (aget args 0) <= 0 -> hors_role 62 args
| HR_wx n args : n ∈ [9; 10] -> Z.land (as_u32 (aget args 2)) MemLinux.PROT_WRITE <> 0 ->
    Z.land (as_u32 (aget args 2)) MemLinux.PROT_EXEC <> 0 -> hors_role n args
| HR_ouvre n args d p f c : (n, (d, p, f)) ∈ OUVERTURES -> designe args d p c ->
    permis (wants_write (drapeaux args f)) c = false -> hors_role n args
| HR_ecrit n args d p c : (n, (d, p)) ∈ ECRITURES -> sans_arret n args -> designe args d p c ->
    permis true c = false -> hors_role n args
| HR_lie n args d p c : (n, (d, p)) ∈ LIENS_LUS -> designe args d p c -> permis false c = false -> hors_role n args.

Lemma exige_refuse w s :
  pret moi q 1 s -> possede (capabilities BrowserContent) w = false ->
  wp (exige moi w) (fun _ d => refuse d) s.
Proof.
  intros Hs Hw. unfold exige, require. apply wp_lie, wp_lie. eapply wp_mono; [by apply (current_pas moi q 1)|].
  intros s' x [_ Hx]. rewrite (sans_pouvoir x w Hx Hw). by exists EPERM.
Qed.
Lemma chemin_absolu dirfd path s : est_absolu path = true ->
  canonical_at v dirfd path s = (s, inl (Some (normalize_absolute path))).
Proof. intros H. unfold canonical_at. by rewrite H. Qed.
Lemma chemin_cible dirfd path c s : cible dirfd path = Some c -> canonical_at v dirfd path s = (s, inl (Some c)).
Proof.
  unfold cible, canonical_at, canonical_from_node. destruct (est_absolu path); [by intros [= <-]|].
  destruct (base_node_for_dirfd v dirfd) as [node|]; [|done]. cbn. destruct (path_string _ node) as [base|] eqn:E; [|done].
  by intros [= <-].
Qed.
Lemma chemin_lisible dirfd ptr path s : lisible dirfd ptr -> memoire v ptr = Some path ->
  exists c, canonical_at v dirfd path s = (s, inl c).
Proof.
  unfold lisible. intros H E. rewrite E in H. unfold canonical_at, canonical_from_node. destruct (est_absolu path); [by eexists|].
  destruct H as [?|H]; [done|]. destruct (base_node_for_dirfd v dirfd) as [node|]; [|by eexists].
  destruct H as [base Eb]. unfold lie, ou_echoue, rend. rewrite Eb. by eexists.
Qed.
Lemma bac_a_sable x path (b : bool) : du_profil q x -> permis b path = false -> sandbox_path_allowed x path b = false.
Proof. intros (H & _)%profil_rendu Hp. unfold sandbox_path_allowed. rewrite H. by destruct b. Qed.
Lemma pret_moins n m s : m <= n -> pret moi q n s -> pret moi q m s.
Proof. intros H (? & ? & ?). split_and!; [done..|lia]. Qed.

Lemma ouvre_refuse d ptr flags path c s :
  pret moi q 1 s -> memoire v ptr = Some path -> cible d path = Some c -> permis (wants_write flags) c = false ->
  wp (check_open v moi d ptr flags) (fun _ d => refuse d) s.
Proof.
  intros Hs Hm Ha Hp. unfold check_open. rewrite Hm. apply wp_lie.
  eapply wp_mono; [by apply (current_pas moi q 1)|]. intros s' x [_ Hx].
  unfold open_allowed. apply wp_lie. eapply wp_pas; [by apply chemin_cible|]. cbn.
  unfold open_decision. rewrite (bac_a_sable x _ _ Hx Hp). exists RamfsAppels.EACCES. by destruct (_ && _).
Qed.
Lemma mutation_refuse d ptr path c m s :
  pret moi q 1 s -> memoire v ptr = Some path -> cible d path = Some c -> permis true c = false ->
  wp (check_mutation v moi d ptr m) (fun _ d => refuse d) s.
Proof.
  intros Hs Hm Ha Hp. unfold check_mutation. rewrite Hm. apply wp_lie.
  eapply wp_mono; [by apply (current_pas moi q 1)|]. intros s' x [_ Hx].
  unfold mutation_allowed. apply wp_lie. eapply wp_pas; [by apply chemin_cible|]. cbn.
  unfold mutation_decision. rewrite (bac_a_sable x _ true Hx Hp). by exists RamfsAppels.EACCES.
Qed.
Lemma reference_refuse d ptr path c s :
  pret moi q 1 s -> memoire v ptr = Some path -> cible d path = Some c -> permis false c = false ->
  wp (check_reference v moi d ptr) (fun _ d => refuse d) s.
Proof.
  intros Hs Hm Ha Hp. unfold check_reference. rewrite Hm. apply wp_lie.
  eapply wp_mono; [by apply (current_pas moi q 1)|]. intros s' x [_ Hx].
  unfold reference_allowed. apply wp_lie. eapply wp_pas; [by apply chemin_cible|]. cbn.
  unfold reference_decision. rewrite (bac_a_sable x _ false Hx Hp). by exists RamfsAppels.EACCES.
Qed.
(** What exists already is refused too. *)
Lemma creation_refuse d ptr path c m s :
  pret moi q 2 s -> memoire v ptr = Some path -> cible d path = Some c -> permis true c = false ->
  wp (check_create v moi d ptr m) (fun _ d => refuse d) s.
Proof.
  intros Hs Hm Ha Hp. unfold check_create. rewrite Hm. apply wp_lie, wp_lie.
  eapply wp_mono; [by apply (current_pas moi q 2)|]. intros s1 x [Hs1 _]. unfold existence_visible.
  eapply wp_pas; [by apply chemin_cible|]. unfold wp at 1, rend. destruct (visible_decision _ _ _); [by exists EEXIST|].
  by eapply mutation_refuse.
Qed.

(** The first of two checks lets the call through or refuses it. *)
Lemma accord_cas {E} (r : unit + E) code : 0 < code -> accord r code = Allow \/ refuse (accord r code).
Proof. intros H. destruct r; [by left|]. right. by exists code. Qed.
Lemma mutation_passe d ptr m s : pret moi q 2 s -> lisible d ptr ->
  wp (check_mutation v moi d ptr m) (fun s' d => (d = Allow \/ refuse d) /\ pret moi q 1 s') s.
Proof.
  intros Hs Hl. unfold check_mutation. destruct (memoire v ptr) as [path|] eqn:Hm.
  2:{ split; [by left|]. by apply (pret_moins 2 1). }
  apply wp_lie. eapply wp_mono; [by apply (current_pas moi q 2)|]. intros s1 x [Hs1 _]. unfold mutation_allowed.
  apply wp_lie. destruct (chemin_lisible d ptr path s1 Hl Hm) as [c Ec]. eapply wp_pas; [exact Ec|].
  unfold wp, rend. split; [by apply accord_cas|exact Hs1].
Qed.
Lemma reference_passe d ptr s : pret moi q 2 s -> lisible d ptr ->
  wp (check_reference v moi d ptr) (fun s' d => (d = Allow \/ refuse d) /\ pret moi q 1 s') s.
Proof.
  intros Hs Hl. unfold check_reference. destruct (memoire v ptr) as [path|] eqn:Hm.
  2:{ split; [by left|]. by apply (pret_moins 2 1). }
  apply wp_lie. eapply wp_mono; [by apply (current_pas moi q 2)|]. intros s1 x [Hs1 _]. unfold reference_allowed.
  apply wp_lie. destruct (chemin_lisible d ptr path s1 Hl Hm) as [c Ec]. eapply wp_pas; [exact Ec|].
  unfold wp, rend. split; [by apply accord_cas|exact Hs1].
Qed.
Lemma puis_premier c1 c2 s : wp c1 (fun _ d => refuse d) s -> wp (puis_verifie c1 c2) (fun _ d => refuse d) s.
Proof. intros H. unfold puis_verifie. apply wp_lie. eapply wp_mono; [exact H|]. intros s' d (code & Hc & ->). by exists code. Qed.
Lemma puis_second c1 c2 s : wp c1 (fun s' d => (d = Allow \/ refuse d) /\ pret moi q 1 s') s ->
  (forall s', pret moi q 1 s' -> wp c2 (fun _ d => refuse d) s') -> wp (puis_verifie c1 c2) (fun _ d => refuse d) s.
Proof.
  intros H H2. unfold puis_verifie. apply wp_lie. eapply wp_mono; [exact H|]. intros s' d [[->|(code & Hc & ->)] Hs'].
  - by apply H2.
  - by exists code.
Qed.

Lemma exec_refuse args c node s :
  pret moi q 1 s -> designe args None 0 c -> resolve (fichiers v) c 0 = Some node ->
  wp (gate_execve v moi args) (fun _ d => refuse d) s.
Proof.
  intros Hs (path & Hm & Ha) Hn. unfold gate_execve. rewrite Hm. apply wp_lie. unfold authorize_user_path.
  eapply wp_pas; [by apply chemin_cible|]. change (default path (Some c)) with c.
  cbv zeta. rewrite Hn. unfold authorize_node. apply wp_lie, wp_lie.
  eapply wp_mono; [by apply (current_pas moi q 1)|]. intros s' x [_ (Hx & _)%profil_rendu].
  unfold wp at 1, rend. rewrite Hx. cbn. by exists RamfsAppels.EACCES.
Qed.
Lemma groupe_refuse args s :
  pret moi q 2 s -> as_i64 (aget args 0) <= 0 -> wp (gate_kill moi args) (fun _ d => refuse d) s.
Proof.
  intros Hs Hc. unfold gate_kill. apply wp_lie. eapply wp_mono; [by apply (current_pas moi q 2)|].
  intros s1 x [Hs1 Hx]. cbv zeta. rewrite (proj2 (Z.leb_le _ _) Hc), (sans_pouvoir x _ Hx) by done.
  unfold linux_deny. apply wp_lie. eapply wp_mono; [by apply (current_pas moi q 1)|]. intros s2 y _. by exists EPERM.
Qed.
Lemma wx_decision x prot anonymous : Z.land prot MemLinux.PROT_WRITE <> 0 -> Z.land prot MemLinux.PROT_EXEC <> 0 ->
  check_protection x prot anonymous = inr WriteExecute.
Proof. intros Hw Hx. unfold check_protection. by rewrite (proj2 (Z.eqb_neq _ _) Hw), (proj2 (Z.eqb_neq _ _) Hx). Qed.
Lemma wx_refuse n args s :
  n ∈ [9; 10] -> pret moi q 1 s -> Z.land (as_u32 (aget args 2)) MemLinux.PROT_WRITE <> 0 ->
  Z.land (as_u32 (aget args 2)) MemLinux.PROT_EXEC <> 0 -> wp (gate v moi n args false) (fun _ d => refuse d) s.
Proof.
  intros Hn Hs Hw Hx. apply elem_of_cons in Hn as [->|Hn]; [|apply list_elem_of_singleton in Hn as ->]; cbn [gate];
    unfold gate_mmap; apply wp_lie; (eapply wp_mono; [by apply (current_pas moi q 1)|]); intros s1 x _;
    unfold mmap, mprotect; cbv zeta; rewrite wx_decision by done; by exists RamfsAppels.EACCES.
Qed.
Lemma socket_refuse args s :
  pret moi q 1 s -> wp (gate v moi 41 args false) (fun _ d => refuse d) s.
Proof.
  intros Hs. cbn [gate]. apply wp_lie. eapply wp_mono; [by apply (current_pas moi q 1)|].
  intros s1 x [_ Hx]. unfold socket_allowed. rewrite (sans_pouvoir x NET_CONNECT Hx) by done. by exists EPERM.
Qed.

(** The calls that check two paths. *)
Lemma renomme_refuse n args d p c s : (n, (d, p)) ∈ RENOMMAGES -> sans_arret n args ->
  pret moi q 2 s -> designe args d p c -> permis true c = false -> wp (gate v moi n args false) (fun _ d => refuse d) s.
Proof.
  intros Hn Hl Hs (path & Hm & Hc) Hp. pose proof (pret_moins 2 1 s ltac:(lia) Hs) as Hs1.
  unfold RENOMMAGES in Hn.
  repeat (apply elem_of_cons in Hn as [[= -> -> ->]|Hn]; [cbn [gate dossier] in *|]); [..|by apply elem_of_nil in Hn];
    solve [ apply puis_premier; by eapply mutation_refuse
          | apply puis_second; [|intros s' Hs'; by eapply mutation_refuse]; apply mutation_passe; [done|];
            match goal with |- lisible AT_FDCWD _ => apply (Hl None 0) | |- _ => apply (Hl (Some 0) 1) end;
            apply (bool_decide_unpack _); vm_compute; exact I ].
Qed.
Lemma ecrit_refuse n args d p c s : (n, (d, p)) ∈ ECRITURES -> sans_arret n args ->
  pret moi q 2 s -> designe args d p c -> permis true c = false -> wp (gate v moi n args false) (fun _ d => refuse d) s.
Proof.
  intros Hn Hl Hs Hd Hp. pose proof (pret_moins 2 1 s ltac:(lia) Hs) as Hs1. pose proof Hd as (path & Hm & Hc).
  unfold ECRITURES in Hn. apply elem_of_app in Hn as [Hn|[Hn|[Hn|Hn]%elem_of_app]%elem_of_app].
  - unfold CREATIONS in Hn. repeat (apply elem_of_cons in Hn as [[= -> -> ->]|Hn]; [by eapply creation_refuse|]). by apply elem_of_nil in Hn.
  - unfold MUTATIONS in Hn. repeat (apply elem_of_cons in Hn as [[= -> -> ->]|Hn]; [by eapply mutation_refuse|]). by apply elem_of_nil in Hn.
  - by eapply renomme_refuse.
  - apply list_elem_of_singleton in Hn as [= -> -> ->]. cbn [gate]. apply puis_second; [|intros s' Hs'; by eapply mutation_refuse].
    apply reference_passe; [done|]. apply (Hl None 0). apply (bool_decide_unpack _). vm_compute. exact I.
Qed.

Lemma porte_refuse number args s :
  pret moi q 2 s -> hors_role number args -> wp (gate v moi number args false) (fun _ d => refuse d) s.
Proof.
  intros Hs H. pose proof (pret_moins 2 1 s ltac:(lia) Hs) as Hs1.
  destruct H as [| |n args Hn| | |n args d p f c Hn (path & Hm & Hc) Hp| |n args d p c Hn (path & Hm & Hc) Hp].
  - by apply socket_refuse.
  - by eapply exec_refuse.
  - repeat (apply elem_of_cons in Hn as [->|Hn]; [by apply exige_refuse|]). by apply elem_of_nil in Hn.
  - by apply groupe_refuse.
  - by apply wx_refuse.
  - unfold OUVERTURES in Hn. repeat (apply elem_of_cons in Hn as [[= -> -> -> ->]|Hn]; [by eapply ouvre_refuse|]). by apply elem_of_nil in Hn.
  - by eapply ecrit_refuse.
  - apply list_elem_of_singleton in Hn as [= -> -> ->]. cbn [gate]. apply puis_premier. by eapply reference_refuse.
Qed.
End Rendu.

(** C4. A rendering process has no power outside its role at the gate. In every history of the system, with
    forks, executions, identity changes, deaths and sweeps interleaved in any way, a process
    whose image is one of the rendering roles is refused every socket, every program whose path names a
    file, ptrace, capset, chroot, mount and system calls, ports, signals to groups, mmap and
    mprotect of memory both writable and executable, and every path outside the places of its
    role, absolute or relative to a directory that still has a path, in open, openat, creat, mkdir,
    mkdirat, mknod, mknodat, rmdir, unlink, unlinkat, chmod, chown, lchown, symlink, link, and both
    sides of rename, renameat and renameat2; the gate returns, with an error. *)
Theorem rendu_sans_pouvoir evs s v moi q number args :
  Forall sans_application evs -> deroule evs etat_vide = (s, inl tt) -> checks s + 2 < u64_max ->
  processus s !! moi = Some q -> untrusted_path (p_name q) = false -> browser_content_image (p_name q) = true ->
  hors_role v number args ->
  exists s' code, gate v moi number args false s = (s', inl (Return (- code))) /\ 0 < code.
Proof.
  intros Ha E Hc Hq Hu Hr H.
  assert (bien s) as Hb.
  { apply (deroule_invariant bien sans_application evs etape_bien Ha etat_vide) in E; [done|]. intros p. constructor. }
  pose proof (porte_refuse v moi q Hu Hr number args s ltac:(done) H) as (s' & d & Eg & code & Hpos & ->)%wp_elim.
  by exists s', code.
Qed.

(** A browser host forks; the child becomes a rendering process before it is given its context. *)
Definition naissance_du_rendu : list Evenement :=
  [Demarre 1 (octets "/bo-navigateur") 0 0; Instantane 1; Naissance 1 2;
   Execve 2 (octets "/usr/libexec/ladybird/WebContent"); Herite 1 2].
Definition etat_rendu : Etat := (deroule naissance_du_rendu etat_vide).1.
Definition vue_vide : Vue := mk_vue [] (fun _ => None) 0 [] [] (fun _ => None).

(** A file system that holds its root only, and a process whose memory holds the path of a
    directory of the system. *)
Definition vue_racine : Vue :=
  mk_vue [Ramfs.mk_node true Ramfs.Dir 0 [] [] 493 0 0 0] (fun ptr => if ptr =? 4096 then Some (octets "etc/x") else None) 0 [] [] (fun _ => None).

Lemma rendu_sans_pouvoir_witness :
  (exists s' code, gate vue_vide 2 41 [2; 1; 0; 0; 0; 0] false etat_rendu = (s', inl (Return (- code))) /\ 0 < code) /\
  (exists s' code, gate vue_racine 2 316 [2 ^ 64 - 100; 8192; 2 ^ 64 - 100; 4096; 0; 0] false etat_rendu
    = (s', inl (Return (- code))) /\ 0 < code).
Proof.
  split.
  - apply (rendu_sans_pouvoir naissance_du_rendu etat_rendu vue_vide 2
      (mk_processus 1 (octets "/usr/libexec/ladybird/WebContent") 0 0) 41 [2; 1; 0; 0; 0; 0]);
      try (vm_compute; reflexivity).
    + repeat constructor.
    + apply HR_socket.
  - apply (rendu_sans_pouvoir naissance_du_rendu etat_rendu vue_racine 2
      (mk_processus 1 (octets "/usr/libexec/ladybird/WebContent") 0 0) 316 [2 ^ 64 - 100; 8192; 2 ^ 64 - 100; 4096; 0; 0]);
      try (vm_compute; reflexivity).
    + repeat constructor.
    + apply (HR_ecrit vue_racine 316 _ (Some 2) 3 (octets "/etc/x")).
      * apply (bool_decide_unpack _). vm_compute. exact I.
      * intros d p Hn.
        assert (Forall (fun x => x.1 = 316 -> x.2 = (Some 0, 1) \/ x.2 = (Some 2, 3)) (ECRITURES ++ LIENS_LUS)) as HF
          by (apply (bool_decide_unpack _); vm_compute; exact I).
        rewrite Forall_forall in HF. destruct (HF _ Hn eq_refl) as [[= -> ->]|[= -> ->]]; vm_compute; eauto.
      * exists (octets "etc/x"). split; vm_compute; reflexivity.
      * vm_compute. reflexivity.
Defined.

(** The gate of an execution reads the path once, the call reads it again, and only the gate asks
    who calls: a path that names nothing is let through, whoever calls, and another thread can put
    the name of a program there before the second reading. *)
Theorem execve_relu v moi args path s :
  memoire v (aget args 0) = Some path -> est_absolu path = true ->
  resolve (fichiers v) (normalize_absolute path) 0 = None ->
  gate v moi 59 args false s = (s, inl Allow).
Proof.
  intros Hm Ha Hn. cbn [gate]. unfold gate_execve. rewrite Hm. unfold authorize_user_path.
  unfold lie at 1. rewrite (lie_pas _ _ _ _ _ (chemin_absolu v AT_FDCWD path s Ha)).
  change (default path (Some (normalize_absolute path))) with (normalize_absolute path). cbv zeta. by rewrite Hn.
Qed.
End PorteProofs.
