(* ===== verification/Confinement.v ===== *)
(** Security and file system together: what a sandboxed process can change of the tree. The
    policy of a process is the one the file calls consult ([security_recheck_open],
    [security_recheck_mutation] of [src/compat/linux/file.rs], [existence_visible]). *)

From S2P Require Import Prelude Ramfs RamfsProofs RamfsOps Renommage RamfsAppels RamfsChemins RamfsVue RamfsApplique RamfsAppelsProofs RamfsTrace Profils Politique PolitiqueProofs Descripteurs Porte.
From stdpp Require Import strings.

Module Confinement.
Import Ramfs RamfsProofs RamfsArbre RamfsOps RamfsChemins RamfsSpecs RamfsAppels RamfsVue RamfsApplique RamfsAppelsProofs RamfsTrace.
Import Profils(SecurityProfile, ecriture_permise, sandboxe).
Open Scope Z_scope.
Open Scope os_scope.

(** ** The policy of a process *)

Definition accepte {E} (r : unit + E) : bool := match r with inl _ => true | inr _ => false end.
Definition noyau_de (env : Env) (memoire : Z -> option (list Z)) (repertoire : nat) (base : Z -> nat + Z)
  (x : Politique.Snapshot) : Noyau :=
  mk_noyau env memoire repertoire base
    (fun w m path => accepte (Porte.mutation_decision (nodes w) x (normalize_absolute path) m))
    (fun w flags path => accepte (Porte.open_decision (nodes w) x (normalize_absolute path) flags))
    (fun w path => Porte.visible_decision (nodes w) x (normalize_absolute path)).

(** What the file calls need of a policy that confines: a change, or an opening to write, is
    allowed only at a writable path. *)
Class Confine (profil : SecurityProfile) (k : Noyau) : Prop := {
  confine_mutation : forall w m cs, Forall composant cs ->
    autorise k w m (joint cs) = true -> ecriture_permise profil (joint cs) = true;
  confine_ouverture : forall w f cs, Forall composant cs ->
    autorise_ouverture k w f (joint cs) = true -> Porte.wants_write f = true ->
    ecriture_permise profil (joint cs) = true
}.

Lemma empile_composants_id parts cs : Forall composant cs -> empile parts cs = parts ++ cs.
Proof.
  intros H. revert parts. induction H as [|s cs Hs _ IH]; intros parts; cbn [empile]; [by rewrite app_nil_r|].
  destruct Hs as (H1 & _ & H2 & H3). destruct (Nat.eqb_spec (length s) 0) as [E|_]; [by apply nil_length_inv in E|].
  cbn [orb]. rewrite !bool_decide_eq_false_2 by done. rewrite IH. by rewrite <-app_assoc.
Qed.
Lemma normalise_joint cs : Forall composant cs -> normalize_absolute (joint cs) = joint cs.
Proof.
  intros H. destruct (normalise_spec (joint cs)) as (ds & -> & _ & ->).
  rewrite composants_joint by done. by rewrite empile_composants_id.
Qed.

#[export] Instance noyau_confine env memoire repertoire base x :
  sandboxe (Politique.s_profile x) = true ->
  Confine (Politique.s_profile x) (noyau_de env memoire repertoire base x).
Proof.
  intros Hs. split; cbn; intros w m cs Hc; rewrite normalise_joint by done.
  - unfold Porte.mutation_decision, Porte.sandbox_path_allowed. rewrite Hs. by destruct (ecriture_permise _ _).
  - unfold Porte.open_decision, Porte.sandbox_path_allowed. rewrite Hs. intros H Hw. rewrite Hw in H.
    destruct (_ && _); [done|]. by destruct (ecriture_permise _ _).
Qed.

(** ** What stays as it was *)

(** Neither the path nor a directory above it is writable. *)
Definition protege (profil : SecurityProfile) (cs : chemin) : Prop :=
  forall ds, ds `prefix_of` cs -> ecriture_permise profil (joint ds) = false.
Definition intact (profil : SecurityProfile) (w w' : Monde) : Prop :=
  monde_ok w' /\ forall cs f, protege profil cs -> vue w' cs f <-> vue w cs f.

Lemma intact_id profil w : monde_ok w -> intact profil w w.
Proof. by split. Qed.
Lemma intact_trans profil w w1 w2 : intact profil w w1 -> intact profil w1 w2 -> intact profil w w2.
Proof. intros [_ H1] [H2 H3]. split; [done|]. intros cs f H. by rewrite H3, H1. Qed.

Lemma lie_assoc_wp {A B C} (c1 : F A) (c2 : F B) (c3 : B -> F C) Q w :
  wp (c1 ;;; x <- c2 ;; c3 x) Q w -> wp (x <- (c1 ;;; c2) ;; c3 x) Q w.
Proof. unfold wp, lie. by destruct (c1 w) as [w1 [x|]]. Qed.

Section Profil.
Context (profil : SecurityProfile).

Lemma inscriptible_non_protege cs ds :
  ecriture_permise profil (joint ds) = true -> ds `prefix_of` cs -> ~ protege profil cs.
Proof. intros H Hp Hc. specialize (Hc ds Hp). congruence. Qed.

(** A cell written without moving, under a name that is not protected. *)
Lemma contenu_intact w w' i n n' cs :
  monde_ok w -> nomme (nodes w) cs i -> vivant (nodes w) i n -> forme n' = forme n ->
  ecriture_permise profil (joint cs) = true ->
  devient w (<[i := n']> (nodes w)) (used_relaxed w) w' -> intact profil w w'.
Proof.
  intros Hw Hi Vi Hf Hp Dv. destruct (apres_retouche w w' i n n' Hw (proj1 Vi) Hf Dv) as [Hw' Hn].
  split; [done|]. intros ds f Hd.
  assert (forall j m, nomme (nodes w) ds j -> vivant (nodes w) j m ->
    exists m', vivant (nodes w') j m' /\ fiche w' j m' = fiche w j m) as Hj.
  { intros j m Hdj Vj. apply (devient_vivant _ _ _ _ _ _ Dv). destruct Vj as [Vj Uj]. split; [|done].
    rewrite list_lookup_insert_ne; [done|]. intros <-.
    eapply (inscriptible_non_protege ds cs); [done| |done]. by rewrite (nomme_chemin_unique _ _ _ _ Hdj Hi). }
  split.
  - intros (j & m' & H%Hn & V' & <-). destruct (nomme_vivant _ _ _ (proj1 Hw) H) as [m V].
    destruct (Hj j m H V) as (m2 & V2 & E). rewrite (vivant_fun _ _ _ _ V' V2), E. by apply vue_intro.
  - intros (j & m & H & V & <-). destruct (Hj j m H V) as (m2 & V2 & <-). apply vue_intro; [by apply Hn|done].
Qed.

Section Appels.
Context (k : Noyau) {Hk : Confine profil k}.

Lemma mkdir_intact dirfd a m w :
  monde_ok w -> bases_ok k w -> wp (sys_mkdirat k dirfd a m) (fun w' _ => intact profil w w') w.
Proof.
  intros Hw Hb. eapply wp_mono; [by apply sys_mkdirat_spec|].
  intros w' r (Hw' & _ & [(_ & -> & _)|(_ & cs & i & ([Hc _] & _ & Ha & _) & _ & Hv)]); [by apply intact_id|].
  split; [done|]. intros ds f Hd. rewrite Hv. split; [|by left]. intros [?|[-> _]]; [done|].
  exfalso. eapply (inscriptible_non_protege cs cs); [|done|done]. by eapply confine_mutation.
Qed.
Lemma unlink_intact dirfd a flags w :
  monde_ok w -> bases_ok k w -> 0 <= flags < u32_max ->
  wp (sys_unlinkat k dirfd a flags) (fun w' _ => intact profil w w') w.
Proof.
  intros Hw Hb Hf. eapply wp_mono; [by apply sys_unlinkat_spec|].
  intros w' r (Hw' & [(_ & -> & _)|(_ & cs & (_ & [Hc _] & Ha & _) & Hv)]); [by apply intact_id|].
  split; [done|]. intros ds f Hd. rewrite Hv. split; [by intros []|]. intros ?. split; [done|]. intros ->.
  eapply (inscriptible_non_protege cs cs); [|done|done]. by eapply confine_mutation.
Qed.
Lemma rename_intact od fa nd ta flags w :
  monde_ok w -> bases_ok k w -> 0 <= flags < u32_max ->
  wp (sys_renameat2 k od fa nd ta flags) (fun w' _ => intact profil w w') w.
Proof.
  intros Hw Hb Hf. eapply wp_mono; [by apply sys_renameat2_spec|].
  intros w' r (Hw' & [(_ & -> & _)|(_ & from & to & act & ([Hc1 _] & [Hc2 _] & Ha1 & Ha2 & _) & Hv)]); [by apply intact_id|].
  split; [done|]. intros ds f Hd. rewrite Hv.
  assert (~ from `prefix_of` ds) as N1
    by (intros Hp; apply (inscriptible_non_protege ds from) in Hp; [done|by eapply confine_mutation]).
  assert (~ to `prefix_of` ds) as N2
    by (intros Hp; apply (inscriptible_non_protege ds to) in Hp; [done|by eapply confine_mutation]).
  assert (forall q, ds <> to ++ q) as N3 by (intros q ->; apply N2; by eexists).
  assert (forall q, ds <> from ++ q) as N4 by (intros q ->; apply N1; by eexists).
  assert (ds <> to) as N5 by (intros ->; by apply N2).
  destruct act; cbn [apres]; [done| | |].
  all: unfold renomme_chemin, echange_chemin; split; [naive_solver|intros Hx; exists ds; naive_solver].
Qed.

(** The contents of a node replaced, then its time set. *)
Lemma retouche_intact {A} i n cs (f : Node -> Node) (c : F A) w :
  monde_ok w -> nomme (nodes w) cs i -> vivant (nodes w) i n -> forme (f n) = forme n ->
  ecriture_permise profil (joint cs) = true ->
  (forall w', intact profil w w' -> nodes w' !! i <> None -> wp c (fun w2 _ => intact profil w w2) w') ->
  wp (modifie i f ;;; touche (envir k) i ;;; c) (fun w' _ => intact profil w w') w.
Proof.
  intros Hw Hi Vi Hf Hp Hc. eapply wp_modifie_suite; [apply Vi|].
  exec touche_spec; [cbn; rewrite length_insert; apply Hw|]. intros w' [] Dv.
  assert (intact profil w w') as Hin by (eapply contenu_intact; done).
  apply Hc; [done|]. destruct Dv as (E & _). pose proof (lookup_lt_Some _ _ _ (proj1 Vi)) as Hlt.
  destruct (table_lookup (<[i := f n]> (nodes w)) (nodes w') i (f n)) as (n' & En' & _);
    [by symmetry|by rewrite list_lookup_insert_eq|]. congruence.
Qed.

Lemma truncate_intact a len w :
  monde_ok w -> bases_ok k w -> wp (sys_truncate k a len) (fun w' _ => intact profil w w') w.
Proof.
  intros Hw Hb. assert (forall r : Z, wp (rend r : F Z) (fun w' _ => intact profil w w') w) as Hid by (intros; by apply intact_id).
  unfold sys_truncate. apply exec_chemin; [done..|done|]. intros cs [Hcs _].
  destruct (_ <? _); [done|]. apply wp_lie, wp_lis. destruct (autorise_ouverture _ _ _ _) eqn:Ha; [|done].
  apply wp_lie, wp_lis. destruct (resolve _ _ _) as [i|] eqn:Er; [|done].
  destruct (nodes w !! i) as [n|] eqn:E; [|done]. destruct (used n) eqn:U; [|done].
  destruct (est_dir _); [done|]. apply wp_lie, wp_lis. destruct (is_disk_backed _ _); [done|]. cbn [negb].
  apply (retouche_intact i n cs); [done|by apply (RamfsRenomme.resolve_nomme w cs i Hw Hcs)|done..| |].
  - by eapply confine_ouverture.
  - intros w' Hin _. done.
Qed.

Lemma prepare_intact i flags cs w :
  monde_ok w -> nomme (nodes w) cs i ->
  (Porte.wants_write flags = true -> ecriture_permise profil (joint cs) = true) ->
  wp (prepare_ouverture k i flags) (fun w' _ => intact profil w w') w.
Proof.
  intros Hw Hi Hp. destruct (nomme_vivant _ _ _ (proj1 Hw) Hi) as [n Vn].
  unfold prepare_ouverture. apply wp_lie. eapply wp_noeud; [apply Vn|].
  destruct (_ && _); [by apply intact_id|]. destruct (_ && _); [by apply intact_id|].
  apply wp_lie, wp_lis. destruct (_ && _); [by apply intact_id|].
  destruct (negb (Z.land flags O_TRUNC =? 0)) eqn:Et; cbn [andb].
  - assert (Porte.wants_write flags = true) as Hw2.
    { unfold Porte.wants_write. apply orb_true_intro. right. apply negb_true_iff, Z.eqb_neq. apply negb_true_iff, Z.eqb_neq in Et.
      intros H. apply Et. rewrite Z.land_lor_distr_r in H. by apply Z.lor_eq_0_iff in H as [_ ?]. }
    destruct (negb (est_dir _)).
    + intros. apply (lie_assoc_wp). apply (retouche_intact i n cs); [done..|by apply Hp|].
      intros w' Hin Hn. destruct (nodes w' !! i) as [n'|] eqn:E; [|done]. apply wp_lie. by eapply wp_noeud.
    + apply wp_lie. unfold wp at 1, rend. apply wp_lie. eapply wp_noeud; [apply Vn|]. by apply intact_id.
  - apply wp_lie. unfold wp at 1, rend. apply wp_lie. eapply wp_noeud; [apply Vn|]. by apply intact_id.
Qed.

(** What other tasks do during an opening leaves the protected paths alone. *)
Definition interfere_peu (entre : F unit) : Prop :=
  forall w, monde_ok w -> wp entre (fun w' _ => intact profil w w') w.

Lemma ouvre_intact entre cs flags m w :
  monde_ok w -> interfere_peu entre -> Forall composant cs ->
  (Porte.wants_write flags = true -> ecriture_permise profil (joint cs) = true) ->
  wp (ouvre_noeud k entre (joint cs) flags m) (fun w' r => intact profil w w' /\
    match r with inl i => nomme (nodes w') cs i | inr _ => True end) w.
Proof.
  intros Hw He Hcs Hp. unfold ouvre_noeud. apply wp_lie, wp_lis. rewrite resolve_joint by done.
  destruct (suit_composants (nodes w) 0 cs) as [i|] eqn:E.
  - destruct (_ =? _); (split; [by apply intact_id|]); [done|].
    by apply (suit_composants_nomme _ cs 0%nat i [] (proj1 Hw) (nomme_racine _) Hcs) in E.
  - destruct (Z.eqb_spec (Z.land flags O_CREAT) 0) as [|Hcr]; [by split; [apply intact_id|]|].
    assert (ecriture_permise profil (joint cs) = true) as Hpc.
    { apply Hp. unfold Porte.wants_write. apply orb_true_intro. right. apply negb_true_iff, Z.eqb_neq.
      intros H. apply Hcr. rewrite Z.land_lor_distr_r in H. by apply Z.lor_eq_0_iff in H as [? _]. }
    exec He; [done|]. intros w1 [] Hin. pose proof (proj1 Hin) as Hw1. apply wp_lie, wp_lis.
    assert (resolve_parent_name (nodes w1) (joint cs) (cwd k) = resolve_parent_name (nodes w1) (joint cs) 0) as ->.
    { destruct cs as [|x dd _] using rev_ind; [done|]. by rewrite !resolve_parent_joint. }
    destruct (resolve_parent_cas w1 Hw1 cs Hcs) as [[-> _]|(dd & nom & q & nq & -> & -> & Hcn & Hq & Vq & Hfc)]; [done|].
    destruct (find_child (nodes w1) q nom) as [c|] eqn:Ef.
    + destruct (negb _); [done|]. split; [done|]. by apply Hfc.
    + exec (touch_at_spec (envir k) q nom nq); [done|apply Vq|]. intros w2 [i|e]; [|by intros [-> _]].
      intros (Kq & [[-> ?]|(_ & Ha & Hi)]); [congruence|].
      eapply wp_lie, wp_mono; [by apply installe_droits|]. intros w3 [] Hi3.
      assert (bon_nom nom) as Bn by (split; [done|]; by apply composant_acceptable).
      pose proof Hi3 as Hi4. eapply (apres_ajout w1 w3 _ i dd q nq) in Hi4 as (Hw3 & Vi & Hv & _); [|done..].
      split; [apply (intact_trans _ _ w1); [done|]; split; [done|]|].
      * intros ds f Hd. rewrite Hv. split; [|by left]. intros [?|[-> _]]; [done|].
        exfalso. eapply (inscriptible_non_protege (dd ++ [nom]) (dd ++ [nom])); done.
      * destruct Hi3 as (Hpl & H0 & (m0 & Em & Um) & Dv). rewrite (devient_nomme _ _ _ _ _ _ Dv).
        match goal with |- nomme (<[i := ?x]> _) _ _ => set (n0 := x) end. pose proof (proj1 Hw1) as A.
        assert (nomme (<[i := n0]> (nodes w1)) (dd ++ [nom]) i <->
          nomme (nodes w1) (dd ++ [nom]) i \/ (dd ++ [nom] = dd ++ [name n0] /\ i = i)) as -> by (by eapply ajout_nomme).
        by right.
Qed.
Lemma openat_intact entre dirfd a flags m w :
  monde_ok w -> bases_ok k w -> interfere_peu entre ->
  wp (openat_noeud k entre dirfd a flags m) (fun w' _ => intact profil w w') w.
Proof.
  intros Hw Hb He. unfold openat_noeud. apply exec_chemin; [done..| |].
  { intros. by apply intact_id. }
  intros cs [Hcs _]. apply wp_lie, wp_lis. destruct (autorise_ouverture _ _ _ _) eqn:Ha; [|by apply intact_id].
  exec ouvre_intact; [done..|by eapply confine_ouverture|]. intros w1 [i|e] [Hin Hi]; [|done].
  apply wp_lie. eapply wp_mono; [apply (prepare_intact i flags cs); [apply Hin|done|by eapply confine_ouverture]|].
  intros w2 r Hin2. destruct r as [[? ?]|]; by eapply intact_trans.
Qed.
End Appels.

(** ** A sandboxed process at work *)

(** The calls that name a path. *)
Definition par_chemin (c : Appel) : Prop :=
  match c with
  | AMkdir _ _ _ | AUnlink _ _ _ | ARename _ _ _ _ _ | ATruncate _ _ => True
  | AOpen entre _ _ _ _ => interfere_peu entre
  | _ => False
  end.
Lemma execute_intact k c w :
  Confine profil k -> monde_ok w -> possible k w c -> par_chemin c ->
  wp (execute k c) (fun w' _ => intact profil w w') w.
Proof.
  intros Hk Hw [Hb Hc] Hp. destruct c; try done; cbn [execute]; apply wp_lie.
  - by apply mkdir_intact.
  - by apply unlink_intact.
  - by apply rename_intact.
  - by apply openat_intact.
  - by apply truncate_intact.
Qed.

(** Any calls of processes of this profile, whatever their identities, their directories and
    their memory. *)
Inductive suite : Monde -> Monde -> Prop :=
| suite_fin w : suite w w
| suite_appel x env memoire repertoire base c w w1 w2 :
    Politique.s_profile x = profil ->
    possible (noyau_de env memoire repertoire base x) w c -> par_chemin c ->
    execute (noyau_de env memoire repertoire base x) c w = (w1, inl tt) -> suite w1 w2 -> suite w w2.

Lemma suite_intact w w' : sandboxe profil = true -> monde_ok w -> suite w w' -> intact profil w w'.
Proof.
  intros Hs Hw H. induction H as [w|x env memoire repertoire base c w w1 w2 Hx Hp Hc E _ IH]; [by apply intact_id|].
  assert (intact profil w w1) as Hi.
  { pose proof (execute_intact (noyau_de env memoire repertoire base x) c w) as He.
    assert (Confine profil (noyau_de env memoire repertoire base x)) as Hk
      by (rewrite <-Hx; apply noyau_confine; by rewrite Hx).
    exact (wp_eq _ _ _ _ _ E (He Hk Hw Hp Hc)). }
  eapply intact_trans; [exact Hi|]. apply IH, Hi.
Qed.

Lemma hors_sous_arbre p root : Profils.starts_with p root = false -> Profils.sous_arbre p root = false.
Proof.
  unfold Profils.sous_arbre, Profils.starts_with. intros H. rewrite H, andb_false_l, orb_false_r.
  unfold Profils.egal in *. apply bool_decide_eq_false_2. apply bool_decide_eq_false in H. intros ->.
  apply H. by rewrite firstn_all.
Qed.

(** The persistent zone is out of reach of every sandboxed profile but the network one. *)
Lemma persist_protege cs : profil <> Profils.BrowserNetwork -> protege profil (octets "persist" :: cs).
Proof.
  intros Hn ds Hd. destruct ds as [|s ds].
  { destruct profil; try done; vm_compute; reflexivity. }
  apply prefix_cons_inv_1 in Hd as Hs. subst s.
  assert (exists r, joint (octets "persist" :: ds) = octets "/persist" ++ r) as [r ->] by (by eexists).
  unfold ecriture_permise. destruct (Profils.dans_le_profil_prive _); [by destruct profil|].
  replace (Profils.ecriture_commune (octets "/persist" ++ r)) with false.
  - destruct profil; done.
  - unfold Profils.ecriture_commune. by rewrite !hors_sous_arbre by (unfold Profils.starts_with, Profils.egal;
      apply bool_decide_eq_false_2; cbn; discriminate).
Qed.
End Profil.

(** C5. The walls of the sandbox hold for the calls that name a path. Whatever directories they
    create or remove, whatever they rename, open, create or truncate, processes of a sandboxed
    profile leave every path as it was (kind, contents, rights) unless that path, or a directory
    above it, is one their profile may write; for every such profile but the one of the network
    role this includes the whole persistent zone. *)
Theorem prison_etanche profil w w' :
  sandboxe profil = true -> monde_ok w -> suite profil w w' ->
  (forall cs f, protege profil cs -> vue w' cs f <-> vue w cs f) /\
  (profil <> Profils.BrowserNetwork -> forall cs f, vue w' (octets "persist" :: cs) f <-> vue w (octets "persist" :: cs) f).
Proof.
  intros Hs Hw H. destruct (suite_intact profil w w' Hs Hw H) as [_ Hi]. split; [done|].
  intros Hn cs f. by apply Hi, persist_protege.
Qed.
End Confinement.

(** Concrete runs of sandboxed processes and of descriptors: the theorems applied, and the
    situations in which the sandbox or the kernel gives way. *)

Module ConfinementCas.
Import Ramfs RamfsProofs RamfsAppels RamfsVue RamfsAppelsProofs RamfsTrace RamfsProps Confinement.
Import Descripteurs DescripteursProofs.
Open Scope Z_scope.
Open Scope os_scope.

(** The context of a rendering process, and the one of its browser host. *)
Definition rendu : Politique.Snapshot :=
  Politique.snapshot (Politique.make_entry 7 (octets "/usr/libexec/ladybird/WebContent") 0 0).
Definition hote : Politique.Snapshot :=
  Politique.snapshot (Politique.make_entry 6 (octets "/usr/bin/BrowserHost") 0 0).
Definition noyau_textes_de (x : Politique.Snapshot) (textes : list string) : Noyau :=
  noyau_de env_temoin (fun a => octets <$> textes !! Z.to_nat a) 0 (fun _ => inr (-9)) x.

Lemma profils_temoins :
  Politique.s_profile rendu = Profils.BrowserContent /\ Politique.s_profile hote = Profils.BrowserBroker.
Proof. split; vm_compute; reflexivity. Qed.

Lemma bases_textes_de x textes w : monde_ok w -> bases_ok (noyau_textes_de x textes) w.
Proof. intros Hw. apply bases_nommees; [done|exists []; constructor|done|]. by intros ? ? [= <-]. Qed.

Lemma prison_etanche_witness :
  resultat (sys_mkdirat (noyau_textes_de rendu ["/tmp/a"]) AT_FDCWD 0 448 monde_init) = Some 0 /\
  exists w', execute (noyau_textes_de rendu ["/tmp/a"]) (AMkdir AT_FDCWD 0 448) monde_init = (w', inl tt) /\
    forall cs f, vue w' (octets "persist" :: cs) f <-> vue monde_init (octets "persist" :: cs) f.
Proof.
  split; [vm_compute; reflexivity|]. pose proof (atteint_ok monde_init monde_init_atteint) as Hw.
  assert (possible (noyau_textes_de rendu ["/tmp/a"]) monde_init (AMkdir AT_FDCWD 0 448)) as Hp
    by (split; [apply bases_textes_de; exact Hw|exact I]).
  pose proof (execute_garde _ _ _ Hw Hp) as (w' & [] & E & _)%wp_elim. exists w'. split; [exact E|].
  apply (prison_etanche Profils.BrowserContent monde_init w'); [reflexivity|exact Hw| |discriminate].
  eapply (suite_appel _ rendu _ _ _ _ _ monde_init w' w'); [vm_compute; reflexivity|exact Hp|exact I|exact E|].
  apply suite_fin.
Defined.

(** ** The sandbox gives way *)

(** Runs a call and keeps the world. *)
Definition puis (c : F unit) (w : Monde) : Monde := (c w).1.
Definition ouvre (x : Politique.Snapshot) (chemin : string) (f : Z) (w : Monde) : option ((nat * bool * Z) + Z) :=
  resultat (openat_noeud (noyau_textes_de x [chemin]) (rend tt) AT_FDCWD 0 f 420 w).
Definition cree_dossier (chemin : string) : F unit :=
  sys_mkdirat (noyau_textes_de hote [chemin]) AT_FDCWD 0 493 ;;; rend tt.
Definition cree_fichier (chemin : string) : F unit :=
  openat_noeud (noyau_textes_de hote [chemin]) (rend tt) AT_FDCWD 0 66 384 ;;; rend tt.

(** The profile of the browser, in its volatile place. *)
Definition monde_profil : Monde :=
  puis (cree_dossier "/var/tmp" ;;; cree_dossier "/tmp/ladybird-data" ;;; cree_fichier "/tmp/ladybird-data/cookies")
    monde_init.
Definition monde_deplace : Monde :=
  puis (sys_renameat2 (noyau_textes_de rendu ["/tmp"; "/var/tmp/t"]) AT_FDCWD 0 AT_FDCWD 1 0 ;;; rend tt) monde_profil.

(** A rendering process may not read the private profile of the browser under /tmp, but it may
    rename /tmp itself, a writable path, into another writable directory; under its new name the
    profile is private no more. *)
Theorem profil_prive_devoile :
  ouvre rendu "/tmp/ladybird-data/cookies" 0 monde_profil = Some (inr (- EACCES)) /\
  resultat (sys_renameat2 (noyau_textes_de rendu ["/tmp"; "/var/tmp/t"]) AT_FDCWD 0 AT_FDCWD 1 0 monde_profil) = Some 0 /\
  exists node, ouvre rendu "/var/tmp/t/ladybird-data/cookies" 0 monde_deplace = Some (inl (node, false, 0)).
Proof.
  split; [vm_compute; reflexivity|]. split; [vm_compute; reflexivity|]. eexists. vm_compute. reflexivity.
Qed.

(** ** Descriptors *)

Definition appelant (x : Politique.Snapshot) (textes : list string) (donnees : list Z) : Appelant :=
  mk_appelant (noyau_textes_de x textes) (fun _ _ => Some donnees) (fun _ _ => true) (fun _ _ _ => []) (fun _ => None)
    (fun _ => -22).
Definition rendu_dit {A} (x : Session * (A + unit)) : option A := match x.2 with inl r => Some r | inr _ => None end.
Definition contenu_de (w : Monde) (chemin : string) : option (list Z) :=
  i ← resolve (nodes w) (octets chemin) 0; n ← nodes w !! i; Some (content n).
(** A world with a file of two bytes, its index, and a table in which a descriptor names it. *)
Definition monde_fichier : Monde := puis (cree_fichier "/tmp/f") monde_init.
Definition fichier_de (w : Monde) (chemin : string) : nat := default 0%nat (resolve (nodes w) (octets chemin) 0).

Lemma cree_fichier_ok chemin w : monde_ok w -> monde_ok (puis (cree_fichier chemin) w).
Proof.
  intros Hw. pose proof (openat_garde (noyau_textes_de hote [chemin]) w (rend tt) AT_FDCWD 0 66 384
    Hw (bases_textes_de _ _ _ Hw) (fun _ H => H)) as H.
  apply wp_elim in H as (w' & r & E & Hw'). unfold puis, cree_fichier. by rewrite (lie_pas _ _ _ _ _ E).
Qed.

Lemma ecriture_relue_witness :
  exists w', sys_pwrite (appelant hote [] [65; 66]) (rend tt) 0 0 2 3
      (mk_session monde_fichier [Some (desc_new (FdFile (fichier_de monde_fichier "/tmp/f")))])
    = (mk_session w' [Some (desc_new (FdFile (fichier_de monde_fichier "/tmp/f")))], inl 2) /\
    sys_pread (appelant hote [] [65; 66]) 0 0 5 0
      (mk_session w' [Some (desc_new (FdFile (fichier_de monde_fichier "/tmp/f")))])
    = (mk_session w' [Some (desc_new (FdFile (fichier_de monde_fichier "/tmp/f")))], inl (inl [0; 0; 0; 65; 66])).
Proof.
  pose proof (cree_fichier_ok "/tmp/f" monde_init (atteint_ok _ monde_init_atteint)) as Hw.
  destruct (nodes monde_fichier !! fichier_de monde_fichier "/tmp/f") as [n|] eqn:En; [|vm_compute in En; discriminate En].
  assert (content n = []) as Hc by (vm_compute in En; injection En as <-; reflexivity).
  destruct (ecriture_relue (appelant hote [] [65; 66]) [Some (desc_new (FdFile (fichier_de monde_fichier "/tmp/f")))] 0
    (desc_new (FdFile (fichier_de monde_fichier "/tmp/f"))) (fichier_de monde_fichier "/tmp/f") eq_refl eq_refl
    (rend tt) 0 2 3 [65; 66] n monde_fichier) as (w' & E & _ & Hr).
  - exact Hw.
  - exact En.
  - vm_compute. reflexivity.
  - lia.
  - reflexivity.
  - vm_compute. discriminate.
  - exists w'. split; [exact E|]. rewrite Hr; [rewrite Hc; reflexivity|lia|lia| |reflexivity].
    unfold content_len. rewrite Hc. vm_compute. discriminate.
Defined.

Definition lecture : Session * (Z + unit) :=
  sys_openat (appelant rendu ["/etc/passwd"] []) (rend tt) AT_FDCWD 0 0 0 (mk_session monde_init table_new).
(** A rendering process may read /etc/passwd but not open it to write; the calls that write do
    not look at how the descriptor was opened, and the file changes. *)
Theorem lecture_seule_ecrit :
  ouvre rendu "/etc/passwd" 1 monde_init = Some (inr (- EACCES)) /\
  rendu_dit lecture = Some 3 /\
  rendu_dit (sys_write (appelant rendu [] (octets "x")) (rend tt) 3 0 1 lecture.1) = Some 1 /\
  option_map (take 4) (contenu_de monde_init "/etc/passwd") = Some (octets "root") /\
  option_map (take 4) (contenu_de (monde (sys_write (appelant rendu [] (octets "x")) (rend tt) 3 0 1 lecture.1).1) "/etc/passwd")
    = Some (octets "xoot").
Proof. split_and!; vm_compute; reflexivity. Qed.

Definition avant : Session :=
  (sys_openat (appelant rendu ["/tmp/a"] []) (rend tt) AT_FDCWD 0 66 384 (mk_session monde_init table_new)).1.
Definition secret : Session :=
  mk_session
    (puis (sys_unlinkat (noyau_textes_de rendu ["/tmp/a"]) AT_FDCWD 0 0 ;;;
           cree_fichier "/etc/secret" ;;; rend tt) (monde avant)) (table avant).
(** A descriptor keeps the index of a file that was removed: the next file created, here one of
    the persistent zone by the browser host, takes the index, and the rendering process reads and
    writes it. *)
Theorem descripteur_perime :
  ouvre rendu "/etc/secret" 1 (monde secret) = Some (inr (- EACCES)) /\
  rendu_dit (sys_write (appelant rendu [] (octets "x")) (rend tt) 3 0 1 secret) = Some 1 /\
  contenu_de (monde secret) "/etc/secret" = Some [] /\
  contenu_de (monde (sys_write (appelant rendu [] (octets "x")) (rend tt) 3 0 1 secret).1) "/etc/secret" = Some (octets "x").
Proof. split_and!; vm_compute; reflexivity. Qed.

(** ** The kernel stops *)

Definition ouvert : Session := mk_session monde_init [Some (mk_desc (FdFile (fichier_de monde_init "/etc/passwd")) 1 0 false)].
Definition instantane_ouvert : Session := mk_session monde_init [Some (mk_desc (FdInstantane [65; 66]) 1 0 false)].
(** Positions the calls accept whose sum overflows, and a descriptor closed by another thread
    between the two look-ups of a write. *)
Theorem arrets_du_noyau :
  rendu_dit (sys_lseek 0 (2 ^ 63 - 1) 1 ouvert) = None /\
  rendu_dit (sys_read (appelant rendu [] []) 0 0 (2 ^ 64 - 1) instantane_ouvert) = None /\
  rendu_dit (sys_pread (appelant rendu [] []) 0 0 (2 ^ 64 - 1) 1 instantane_ouvert) = None /\
  rendu_dit (sys_write (appelant hote [] [65]) (sys_close 0 ;;; rend tt) 0 0 1 ouvert) = None.
Proof. split_and!; vm_compute; reflexivity. Qed.

(** A duplication onto a number makes the table that long, whatever the number. *)
Theorem dup2_sans_borne w t old new d :
  0 <= new -> old <> new -> get t old = Some d ->
  exists t', sys_dup2 old new (mk_session w t) = (mk_session w t', inl new) /\ new < Z.of_nat (length t').
Proof.
  intros Hn Ho Hd. unfold sys_dup2, duplique. rewrite (proj2 (Z.ltb_ge new 0)), (proj2 (Z.eqb_neq old new)) by lia.
  rewrite lire_pas. cbn [table]. rewrite Hd. eexists. split; [reflexivity|].
  unfold set. cbn [fst]. rewrite length_insert, length_complete. lia.
Qed.
End ConfinementCas.
