(* ===== verification/RunQueue.v ===== *)
(** The run queue of one CPU, [src/kernel/scheduler/runqueue.rs]: two bands of ready tasks,
    each a bitmap of task slots with a summary word, a length and two cursors. This file
    models each operation run alone; [RunQueueConc] splits them into their atomic
    accesses. *)

From S2P Require Import Prelude.

Module RunQueue.

Definition EMPLACEMENTS : Z := 1024.
Definition MOTS : Z := EMPLACEMENTS / 64.
Definition TOURS_INTERACTIFS_MAX : Z := 8.
Definition TENTATIVES_MAX : nat := 8.

Inductive Bande := Interactive | Normale.
#[export] Instance Bande_eq_dec : EqDecision Bande.
Proof. solve_decision. Defined.
Definition autre_bande (b : Bande) : Bande :=
  match b with Interactive => Normale | Normale => Interactive end.

(** ** One band *)

Record BandeFile := mk_bande {
  mots : list Z;
  resume : Z;
  longueur : Z;
  curseur_bas : Z;
  curseur_haut : Z
}.

Definition neuve : BandeFile := mk_bande (replicate (Z.to_nat MOTS) 0) 0 0 0 0.

Definition set_mots (b : BandeFile) (m : list Z) : BandeFile :=
  mk_bande m (resume b) (longueur b) (curseur_bas b) (curseur_haut b).
Definition set_resume (b : BandeFile) (r : Z) : BandeFile :=
  mk_bande (mots b) r (longueur b) (curseur_bas b) (curseur_haut b).
Definition set_longueur (b : BandeFile) (l : Z) : BandeFile :=
  mk_bande (mots b) (resume b) l (curseur_bas b) (curseur_haut b).
Definition set_curseur (b : BandeFile) (haut : bool) (c : Z) : BandeFile :=
  if haut then mk_bande (mots b) (resume b) (longueur b) (curseur_bas b) c
  else mk_bande (mots b) (resume b) (longueur b) c (curseur_haut b).

Definition wrapping_sub64 (a b : Z) : Z := (a - b) mod u64_max.

Definition est_vide (b : BandeFile) : bool := longueur b =? 0.

Definition contient (b : BandeFile) (emplacement : Z) : bool :=
  if EMPLACEMENTS <=? emplacement then false
  else teste_bit (aget (mots b) (emplacement / 64)) (emplacement mod 64).

Definition insere (b : BandeFile) (emplacement : Z) : BandeFile * bool :=
  if EMPLACEMENTS <=? emplacement then (b, false)
  else
    let mot := emplacement / 64 in
    let avant := aget (mots b) mot in
    let b := set_mots b (aset (mots b) mot (pose_bit avant (emplacement mod 64))) in
    let b := set_resume b (pose_bit (resume b) mot) in
    if teste_bit avant (emplacement mod 64) then (b, false)
    else (set_longueur b (wrapping_add64 (longueur b) 1), true).

Definition rafraichit_resume (b : BandeFile) (mot : Z) : BandeFile :=
  if negb (aget (mots b) mot =? 0) then b
  else
    let b := set_resume b (ote_bit (resume b) mot) in
    if negb (aget (mots b) mot =? 0) then set_resume b (pose_bit (resume b) mot) else b.

Definition retire (b : BandeFile) (emplacement : Z) : BandeFile * bool :=
  if EMPLACEMENTS <=? emplacement then (b, false)
  else
    let mot := emplacement / 64 in
    let avant := aget (mots b) mot in
    let b := set_mots b (aset (mots b) mot (ote_bit avant (emplacement mod 64))) in
    if negb (teste_bit avant (emplacement mod 64)) then (b, false)
    else (rafraichit_resume (set_longueur b (wrapping_sub64 (longueur b) 1)) mot, true).

Definition mot_visite (depart pas : Z) (par_le_haut : bool) : Z :=
  if par_le_haut then (depart + MOTS - pas mod MOTS) mod MOTS else (depart + pas) mod MOTS.

Definition emplacement_suivant (emplacement : Z) (par_le_haut : bool) : Z :=
  if par_le_haut then (emplacement + EMPLACEMENTS - 1) mod EMPLACEMENTS
  else (emplacement + 1) mod EMPLACEMENTS.

Definition bits_devant (bit : Z) (par_le_haut : bool) : Z :=
  if par_le_haut then if bit =? 63 then u64_max - 1 else Z.shiftl 1 (bit + 1) - 1
  else Z.shiftl (u64_max - 1) bit mod u64_max.

(** [trailing_zeros] of a non-null word. *)
Fixpoint trailing_zeros (fuel : nat) (v i : Z) : Z :=
  match fuel with
  | O => i
  | S fuel => if Z.testbit v i then i else trailing_zeros fuel v (i + 1)
  end.
(** [63 - leading_zeros] of a non-null word is its highest set bit. *)
Definition bit_choisi (valeur : Z) (par_le_haut : bool) : Z :=
  if par_le_haut then Z.log2 valeur else trailing_zeros 64 valeur 0.

(** The bits of the word visited at step [pas], those of the start word being split
    between the first and the last step. *)
Definition valeur_visitee (b : BandeFile) (depart pas : Z) (par_le_haut : bool) : Z :=
  let mot := mot_visite (depart / 64) pas par_le_haut in
  let valeur := aget (mots b) mot in
  let devant := bits_devant (depart mod 64) par_le_haut in
  if pas =? 0 then Z.land valeur devant
  else if pas =? MOTS then Z.land valeur (Z.lxor (u64_max - 1) devant)
  else valeur.

(** One pass over the words, guided by the summary or not: the first slot found. *)
Fixpoint passe (b : BandeFile) (depart : Z) (par_le_haut guide : bool) (pas : list Z)
  : option (Z * Z) :=
  match pas with
  | [] => None
  | p :: pas =>
      let mot := mot_visite (depart / 64) p par_le_haut in
      if guide && negb (teste_bit (resume b) mot) then passe b depart par_le_haut guide pas
      else
        let valeur := valeur_visitee b depart p par_le_haut in
        if valeur =? 0 then passe b depart par_le_haut guide pas
        else Some (mot, mot * 64 + bit_choisi valeur par_le_haut)
  end.

Definition pas_balayage : list Z := seqZ 0 (MOTS + 1).

Definition candidat (b : BandeFile) (par_le_haut : bool) : BandeFile * option Z :=
  let curseur := if par_le_haut then curseur_haut b else curseur_bas b in
  let depart := curseur mod EMPLACEMENTS in
  match (if resume b =? 0 then None else passe b depart par_le_haut true pas_balayage) with
  | Some (_, e) => (set_curseur b par_le_haut (emplacement_suivant e par_le_haut), Some e)
  | None =>
      match passe b depart par_le_haut false pas_balayage with
      | Some (mot, e) =>
          let b := set_resume b (pose_bit (resume b) mot) in
          (set_curseur b par_le_haut (emplacement_suivant e par_le_haut), Some e)
      | None => (b, None)
      end
  end.

Fixpoint sert_boucle (tentatives : nat) (b : BandeFile) (par_le_haut : bool)
  : BandeFile * option Z :=
  match tentatives with
  | O => (b, None)
  | S tentatives =>
      if est_vide b then (b, None)
      else match candidat b par_le_haut with
           | (b, None) => sert_boucle tentatives b par_le_haut
           | (b, Some e) =>
               match retire b e with
               | (b, true) => (b, Some e)
               | (b, false) => sert_boucle tentatives b par_le_haut
               end
           end
  end.
Definition sert (b : BandeFile) (par_le_haut : bool) : BandeFile * option Z :=
  sert_boucle TENTATIVES_MAX b par_le_haut.
Definition retire_bas (b : BandeFile) : BandeFile * option Z := sert b false.
Definition retire_haut (b : BandeFile) : BandeFile * option Z := sert b true.

(** ** The two bands of a CPU *)

Record FileCpu := mk_file {
  interactive : BandeFile;
  normale : BandeFile;
  tours_interactifs : Z;
  enfilees : Z;
  doublons : Z;
  defilees : Z;
  volees : Z;
  anti_famine : Z
}.

Definition file_neuve : FileCpu := mk_file neuve neuve 0 0 0 0 0 0.

Definition bande (f : FileCpu) (b : Bande) : BandeFile :=
  match b with Interactive => interactive f | Normale => normale f end.
Definition set_bande (f : FileCpu) (b : Bande) (x : BandeFile) : FileCpu :=
  match b with
  | Interactive => mk_file x (normale f) (tours_interactifs f) (enfilees f) (doublons f)
                     (defilees f) (volees f) (anti_famine f)
  | Normale => mk_file (interactive f) x (tours_interactifs f) (enfilees f) (doublons f)
                 (defilees f) (volees f) (anti_famine f)
  end.
Definition note_enfilee (f : FileCpu) : FileCpu :=
  mk_file (interactive f) (normale f) (tours_interactifs f) (wrapping_add64 (enfilees f) 1)
    (doublons f) (defilees f) (volees f) (anti_famine f).
Definition note_doublon (f : FileCpu) : FileCpu :=
  mk_file (interactive f) (normale f) (tours_interactifs f) (enfilees f)
    (wrapping_add64 (doublons f) 1) (defilees f) (volees f) (anti_famine f).
Definition note_defilee (f : FileCpu) (tours famine : Z) : FileCpu :=
  mk_file (interactive f) (normale f) tours (enfilees f) (doublons f)
    (wrapping_add64 (defilees f) 1) (volees f) famine.
Definition note_volee (f : FileCpu) : FileCpu :=
  mk_file (interactive f) (normale f) (tours_interactifs f) (enfilees f) (doublons f)
    (defilees f) (wrapping_add64 (volees f) 1) (anti_famine f).

Definition enfile (f : FileCpu) (emplacement : Z) (b : Bande) : FileCpu * bool :=
  let a := autre_bande b in
  let f := if contient (bande f a) emplacement
           then set_bande f a (retire (bande f a) emplacement).1 else f in
  match insere (bande f b) emplacement with
  | (x, true) => (note_enfilee (set_bande f b x), true)
  | (x, false) => (note_doublon (set_bande f b x), false)
  end.

(** The counters updated when [b] serves the election. *)
Definition note_election (f : FileCpu) (b : Bande) (normale_dabord : bool) : FileCpu :=
  match b with
  | Interactive => note_defilee f ((tours_interactifs f + 1) mod u32_max) (anti_famine f)
  | Normale => note_defilee f 0
      (if normale_dabord then wrapping_add64 (anti_famine f) 1 else anti_famine f)
  end.

Definition essaie_bande (f : FileCpu) (b : Bande) (normale_dabord : bool)
  : FileCpu * option Z :=
  match retire_bas (bande f b) with
  | (x, None) => (set_bande f b x, None)
  | (x, Some e) => (note_election (set_bande f b x) b normale_dabord, Some e)
  end.

Definition defile (f : FileCpu) : FileCpu * option Z :=
  let normale_dabord :=
    (TOURS_INTERACTIFS_MAX <=? tours_interactifs f) && negb (est_vide (normale f)) in
  let premiere := if normale_dabord then Normale else Interactive in
  match essaie_bande f premiere normale_dabord with
  | (f, Some e) => (f, Some e)
  | (f, None) => essaie_bande f (autre_bande premiere) normale_dabord
  end.

Definition vole (f : FileCpu) : FileCpu * option Z :=
  match retire_haut (normale f) with
  | (x, Some e) => (note_volee (set_bande f Normale x), Some e)
  | (x, None) =>
      let f := set_bande f Normale x in
      match retire_haut (interactive f) with
      | (x, Some e) => (note_volee (set_bande f Interactive x), Some e)
      | (x, None) => (set_bande f Interactive x, None)
      end
  end.

Definition file_retire (f : FileCpu) (emplacement : Z) : FileCpu * bool :=
  match retire (interactive f) emplacement with
  | (x, true) => (set_bande f Interactive x, true)
  | (x, false) =>
      let f := set_bande f Interactive x in
      let (y, r) := retire (normale f) emplacement in (set_bande f Normale y, r)
  end.

Definition file_contient (f : FileCpu) (emplacement : Z) : bool :=
  contient (interactive f) emplacement || contient (normale f) emplacement.
Definition file_longueur (f : FileCpu) : Z := longueur (interactive f) + longueur (normale f).

End RunQueue.
