(* ===== verification/RunQueueProofs.v ===== *)
(** Correctness of the run queue: a band is a set of slots served round-robin from its
    cursor, the two bands never share a slot, and no ready task starves. *)

From S2P Require Import Prelude RunQueue.
Import RunQueue.

Module RunQueueProofs.

(** ** Bits *)

Lemma bits_devant_testbit b0 haut i :
  0 <= b0 < 64 -> 0 <= i < 64 ->
  Z.testbit (bits_devant b0 haut) i = if haut then i <=? b0 else b0 <=? i.
Proof.
  intros Hb Hi. unfold bits_devant. destruct haut.
  - destruct (Z.eqb_spec b0 63).
    + rewrite ones64_testbit by lia. destruct (Z.ltb_spec i 64), (Z.leb_spec i b0); lia || done.
    + rewrite Z.shiftl_mul_pow2 by lia.
      replace (1 * 2 ^ (b0 + 1) - 1) with (Z.ones (b0 + 1)) by (rewrite Z.ones_equiv; lia).
      rewrite Z.testbit_ones by lia.
      destruct (Z.leb_spec 0 i), (Z.ltb_spec i (b0 + 1)), (Z.leb_spec i b0); lia || done.
  - unfold u64_max at 2. rewrite Z.mod_pow2_bits_low, Z.shiftl_spec by lia.
    destruct (Z.leb_spec b0 i); [|by apply Z.testbit_neg_r; lia].
    rewrite ones64_testbit by lia. destruct (Z.ltb_spec (i - b0) 64); lia || done.
Qed.

Lemma bits_devant_mot b0 haut : 0 <= b0 < 64 -> 0 <= bits_devant b0 haut < u64_max.
Proof.
  intros Hb. unfold bits_devant. destruct haut; [|by apply Z.mod_pos_bound].
  destruct (b0 =? 63); [by unfold u64_max|].
  rewrite Z.shiftl_mul_pow2 by lia.
  assert (2 ^ (b0 + 1) <= 2 ^ 64) by (apply Z.pow_le_mono_r; lia).
  pose proof (Z.pow_pos_nonneg 2 (b0 + 1)). unfold u64_max. lia.
Qed.

Lemma mot_haut_nul x i : 0 <= x < u64_max -> 64 <= i -> Z.testbit x i = false.
Proof. intros Hx Hi. exact (proj2 (proj1 (mot_bits 64 x ltac:(lia)) Hx) i Hi). Qed.

Lemma bit_d_un_mot x : 0 <= x < u64_max -> x <> 0 -> exists i, 0 <= i < 64 /\ Z.testbit x i = true.
Proof.
  intros Hx Hn. exists (Z.log2 x). pose proof (Z.bit_log2 x ltac:(lia)) as Hb.
  split; [|done]. split; [apply Z.log2_nonneg|].
  apply Z.nle_gt. intros Hge. by rewrite mot_haut_nul in Hb.
Qed.

Lemma trailing_zeros_spec fuel v i j :
  Z.testbit v j = true -> i <= j < i + Z.of_nat fuel ->
  let r := trailing_zeros fuel v i in
  i <= r <= j /\ Z.testbit v r = true /\ forall q, i <= q < r -> Z.testbit v q = false.
Proof.
  intros Hj. revert i. induction fuel as [|fuel IH]; intros i Hi; simpl; [lia|].
  destruct (Z.testbit v i) eqn:E; [split_and!; lia || done|].
  assert (i <> j) by (intros ->; congruence).
  destruct (IH (i + 1)) as (H1 & H2 & H3); [lia|]. split_and!; try lia; try done.
  intros q Hq. destruct (decide (q = i)) as [->|]; [done|]. apply H3. lia.
Qed.

(** The chosen bit is set, and is the first in the direction of the walk. *)
Lemma bit_choisi_spec v haut :
  0 <= v < u64_max -> v <> 0 ->
  let r := bit_choisi v haut in
  0 <= r < 64 /\ Z.testbit v r = true
  /\ forall i, 0 <= i < 64 -> Z.testbit v i = true -> if haut then i <= r else r <= i.
Proof.
  intros Hv Hn. destruct (bit_d_un_mot v Hv Hn) as (j & Hj & Hbj). unfold bit_choisi.
  destruct haut.
  - pose proof (Z.bit_log2 v ltac:(lia)) as Hb.
    assert (Z.log2 v < 64) by (apply Z.nle_gt; intros ?; by rewrite mot_haut_nul in Hb).
    pose proof (Z.log2_nonneg v). split_and!; [lia..|done|]. intros i Hi Hbi.
    apply Z.nlt_ge. intros Hlt. by rewrite Z.bits_above_log2 in Hbi by lia.
  - destruct (trailing_zeros_spec 64 v 0 j Hbj ltac:(lia)) as (H1 & H2 & H3).
    cbv zeta. split_and!; [lia..|done|]. intros i Hi Hbi. apply Z.nlt_ge. intros Hlt.
    rewrite H3 in Hbi by lia. done.
Qed.

(** ** A band as a set of slots *)

Definition pres (b : BandeFile) (x : Z) : bool :=
  Z.testbit (aget (mots b) (x / 64)) (x mod 64).
Definition present (b : BandeFile) (x : Z) : Prop := 0 <= x < EMPLACEMENTS /\ pres b x = true.
Definition card (b : BandeFile) : Z :=
  Z.of_nat (length (filter (fun x => pres b x = true) (seqZ 0 EMPLACEMENTS))).

Record Sain (b : BandeFile) : Prop := {
  s_mots : length (mots b) = 16%nat;
  s_mot : Forall (fun w => 0 <= w < u64_max) (mots b);
  s_resume m : 0 <= m < 16 -> aget (mots b) m <> 0 -> Z.testbit (resume b) m = true;
  s_longueur : longueur b = card b
}.

Lemma sain_mot b m : Sain b -> 0 <= aget (mots b) m < u64_max.
Proof. intros HS. apply (aget_Forall (fun w => 0 <= w < u64_max)); [apply HS|done]. Qed.

Lemma emplacement_mot x : 0 <= x < EMPLACEMENTS -> 0 <= x / 64 < 16 /\ 0 <= x mod 64 < 64.
Proof.
  unfold EMPLACEMENTS. intros. pose proof (Z.div_mod x 64 ltac:(lia)).
  pose proof (Z.mod_pos_bound x 64 ltac:(lia)). lia.
Qed.

Lemma emplacement_eq x y : x / 64 = y / 64 -> x mod 64 = y mod 64 -> x = y.
Proof. intros H1 H2. rewrite (Z.div_mod x 64), (Z.div_mod y 64), H1, H2 by lia. done. Qed.

Lemma contient_pres b x : 0 <= x < EMPLACEMENTS -> contient b x = pres b x.
Proof.
  intros Hx. unfold contient, pres. rewrite (proj2 (Z.leb_gt _ _)) by lia.
  apply teste_bit_spec. by apply emplacement_mot.
Qed.

(** The word of slot [e] replaced by [w]. *)
Lemma pres_aset m e w x :
  length m = 16%nat -> 0 <= e < EMPLACEMENTS -> 0 <= x < EMPLACEMENTS ->
  Z.testbit (aget (aset m (e / 64) w) (x / 64)) (x mod 64) =
  if decide (x / 64 = e / 64) then Z.testbit w (x mod 64)
  else Z.testbit (aget m (x / 64)) (x mod 64).
Proof.
  intros Hl He Hx. pose proof (emplacement_mot e He). pose proof (emplacement_mot x Hx).
  destruct (decide (x / 64 = e / 64)) as [->|].
  - by rewrite aget_aset_eq by lia.
  - by rewrite aget_aset_ne by lia.
Qed.

(** ** Counting *)

Lemma card_ajoute (l : list Z) (P P' : Z -> bool) e :
  NoDup l -> e ∈ l -> P e = false -> (forall x, x ∈ l -> P' x = (x =? e) || P x) ->
  length (filter (fun x => P' x = true) l) = S (length (filter (fun x => P x = true) l)).
Proof.
  intros Hn He Hp HP.
  change (S (length (filter (fun x => P x = true) l)))
    with (length (e :: filter (fun x => P x = true) l)).
  apply Permutation_length, NoDup_Permutation.
  - by apply NoDup_filter.
  - constructor; [rewrite list_elem_of_filter, Hp; naive_solver|by apply NoDup_filter].
  - intros x. rewrite elem_of_cons, !list_elem_of_filter. split.
    + intros [H1 H2]. rewrite HP in H1 by done. apply orb_true_iff in H1 as [H1|H1]; bool_prop; auto.
    + intros [->|[H1 H2]]; (split; [rewrite HP by done; apply orb_true_iff|done]);
        rewrite ?Z.eqb_refl; auto.
Qed.

Lemma card_meme (l : list Z) (P P' : Z -> bool) :
  (forall x, x ∈ l -> P' x = P x) ->
  filter (fun x => P' x = true) l = filter (fun x => P x = true) l.
Proof.
  induction l as [|y l IH]; intros H; [done|]. rewrite !filter_cons, (H y) by by left.
  rewrite IH; [done|]. intros x Hx. apply H. by right.
Qed.

Lemma card_borne b : 0 <= card b <= EMPLACEMENTS.
Proof.
  unfold card. pose proof (length_filter (fun x => pres b x = true) (seqZ 0 EMPLACEMENTS)) as H.
  rewrite length_seqZ in H. unfold EMPLACEMENTS in *. lia.
Qed.

Lemma card_zero b : card b = 0 <-> forall x, ~ present b x.
Proof.
  unfold card, present. split.
  - intros H x [Hx Hp]. assert (x ∈ filter (fun x => pres b x = true) (seqZ 0 EMPLACEMENTS)) as Hin
      by (apply list_elem_of_filter; split; [done|apply elem_of_seqZ; lia]).
    destruct (filter _ _); [by apply not_elem_of_nil in Hin|simpl in H; lia].
  - intros H. destruct (filter _ _) as [|x l] eqn:E; [done|]. exfalso. apply (H x).
    assert (x ∈ filter (fun x => pres b x = true) (seqZ 0 EMPLACEMENTS)) as Hin
      by (rewrite E; by left).
    apply list_elem_of_filter in Hin as [? Hin]. apply elem_of_seqZ in Hin. split; [lia|done].
Qed.

(** ** Setting and clearing one bit *)

(** The effect of the two bitmap accesses on the slots, as a bare bitmap. *)
Definition nu (m : list Z) : BandeFile := mk_bande m 0 0 0 0.
Lemma card_nu b : card b = card (nu (mots b)).
Proof. done. Qed.

Lemma pose_ensemble m e :
  length m = 16%nat -> 0 <= e < EMPLACEMENTS ->
  let m' := aset m (e / 64) (pose_bit (aget m (e / 64)) (e mod 64)) in
  (forall x, 0 <= x < EMPLACEMENTS -> pres (nu m') x = (x =? e) || pres (nu m) x)
  /\ card (nu m') = card (nu m) + Z.b2z (negb (pres (nu m) e)).
Proof.
  intros Hl He m'. pose proof (emplacement_mot e He) as [Hm Hi].
  assert (forall x, 0 <= x < EMPLACEMENTS -> pres (nu m') x = (x =? e) || pres (nu m) x) as Hp.
  { intros x Hx. pose proof (emplacement_mot x Hx). unfold pres, nu, m'. simpl.
    rewrite pres_aset by done. destruct (decide (x / 64 = e / 64)) as [Ed|Hne].
    - rewrite pose_bit_testbit, Ed by lia. f_equal.
      destruct (Z.eqb_spec (x mod 64) (e mod 64)), (Z.eqb_spec x e) as [->|]; try done.
      by contradict n; apply emplacement_eq.
    - by destruct (Z.eqb_spec x e) as [->|]. }
  split; [done|]. unfold card. destruct (pres (nu m) e) eqn:E; cbn [negb Z.b2z].
  - rewrite Z.add_0_r. do 2 f_equal. apply card_meme. intros x Hx. apply elem_of_seqZ in Hx.
    rewrite Hp by lia. by destruct (Z.eqb_spec x e) as [->|]; simpl; rewrite ?E.
  - rewrite (card_ajoute _ (pres (nu m)) _ e); [lia|apply NoDup_seqZ|apply elem_of_seqZ; lia|done|].
    intros x Hx. apply elem_of_seqZ in Hx. apply Hp. lia.
Qed.

Lemma ote_ensemble m e :
  length m = 16%nat -> 0 <= e < EMPLACEMENTS ->
  let m' := aset m (e / 64) (ote_bit (aget m (e / 64)) (e mod 64)) in
  (forall x, 0 <= x < EMPLACEMENTS -> pres (nu m') x = negb (x =? e) && pres (nu m) x)
  /\ card (nu m') = card (nu m) - Z.b2z (pres (nu m) e).
Proof.
  intros Hl He m'. pose proof (emplacement_mot e He) as [Hm Hi].
  assert (forall x, 0 <= x < EMPLACEMENTS -> pres (nu m') x = negb (x =? e) && pres (nu m) x) as Hp.
  { intros x Hx. pose proof (emplacement_mot x Hx). unfold pres, nu, m'. simpl.
    rewrite pres_aset by done. destruct (decide (x / 64 = e / 64)) as [Ed|Hne].
    - rewrite ote_bit_testbit, Ed by lia. f_equal.
      destruct (Z.eqb_spec (x mod 64) (e mod 64)), (Z.eqb_spec x e) as [->|]; try done.
      by contradict n; apply emplacement_eq.
    - by destruct (Z.eqb_spec x e) as [->|]. }
  split; [done|]. unfold card. destruct (pres (nu m) e) eqn:E; cbn [negb Z.b2z].
  - rewrite (card_ajoute _ (pres (nu m')) (pres (nu m)) e);
      [lia|apply NoDup_seqZ|apply elem_of_seqZ; lia|rewrite Hp by lia; by rewrite Z.eqb_refl|].
    intros x Hx. apply elem_of_seqZ in Hx. rewrite Hp by lia.
    by destruct (Z.eqb_spec x e) as [->|].
  - rewrite Z.sub_0_r. do 2 f_equal. apply card_meme. intros x Hx. apply elem_of_seqZ in Hx.
    rewrite Hp by lia. by destruct (Z.eqb_spec x e) as [->|]; simpl; rewrite ?E.
Qed.

(** ** Insertion and removal *)

Definition curseurs (b : BandeFile) : Z * Z := (curseur_bas b, curseur_haut b).

Lemma insere_spec b e :
  Sain b -> 0 <= e < EMPLACEMENTS ->
  let r := insere b e in
  Sain r.1 /\ r.2 = negb (pres b e) /\ curseurs r.1 = curseurs b
  /\ forall x, 0 <= x < EMPLACEMENTS -> pres r.1 x = (x =? e) || pres b x.
Proof.
  intros HS He. pose proof (emplacement_mot e He) as [Hm Hi].
  pose proof (sain_mot b (e / 64) HS) as Hw.
  unfold insere. rewrite (proj2 (Z.leb_gt _ _)) by lia. cbv zeta.
  rewrite teste_bit_spec by lia. fold (pres b e).
  set (m' := aset (mots b) (e / 64) (pose_bit (aget (mots b) (e / 64)) (e mod 64))).
  destruct (pose_ensemble (mots b) e (s_mots b HS) He) as [Hpres Hcard]. cbv zeta in Hpres, Hcard.
  fold m' in Hpres, Hcard.
  assert (forall l, l = card (nu m') ->
    Sain (mk_bande m' (pose_bit (resume b) (e / 64)) l (curseur_bas b) (curseur_haut b))) as Hsain.
  { intros l ->. split; simpl.
    - unfold m'. rewrite length_aset. apply HS.
    - apply Forall_aset; [apply HS|]. by apply pose_bit_mot.
    - intros m Hmm Hnz. rewrite pose_bit_testbit by lia.
      destruct (Z.eqb_spec m (e / 64)); [done|]. simpl. apply HS; [done|].
      unfold m' in Hnz. by rewrite aget_aset_ne in Hnz by lia.
    - done. }
  change (card (nu (mots b))) with (card b) in Hcard.
  change (pres (nu (mots b)) e) with (pres b e) in Hcard.
  pose proof (s_longueur b HS) as Hlong. pose proof (card_borne b) as Hb.
  destruct (pres b e) eqn:Ee; cbn [negb Z.b2z] in Hcard; simpl; split_and!; try done.
  - apply Hsain. change (longueur (set_mots b m')) with (longueur b). lia.
  - apply Hsain. unfold wrapping_add64. rewrite Hlong, Z.mod_small;
      [lia|unfold u64_max, EMPLACEMENTS in *; lia].
Qed.

Lemma rafraichit_spec b mot :
  length (mots b) = 16%nat -> Forall (fun w => 0 <= w < u64_max) (mots b) -> 0 <= mot < 16 ->
  (forall m, 0 <= m < 16 -> aget (mots b) m <> 0 -> m <> mot -> Z.testbit (resume b) m = true) ->
  (aget (mots b) mot <> 0 -> Z.testbit (resume b) mot = true) -> longueur b = card b ->
  let b' := rafraichit_resume b mot in
  Sain b' /\ mots b' = mots b /\ curseurs b' = curseurs b.
Proof.
  intros Hl Hf Hm Hr Hr' Hc. unfold rafraichit_resume. simpl.
  destruct (Z.eqb_spec (aget (mots b) mot) 0) as [E|E]; simpl.
  - split_and!; try done. split; simpl; try done. intros m Hmm Hnz.
    destruct (decide (m = mot)) as [->|]; [done|]. rewrite ote_bit_testbit by lia.
    rewrite (proj2 (Z.eqb_neq m mot)) by done. simpl. auto.
  - split_and!; try done. split; try done. intros m Hmm Hnz.
    destruct (decide (m = mot)) as [->|]; auto.
Qed.

Lemma bande_retire_spec b e :
  Sain b -> 0 <= e < EMPLACEMENTS ->
  let r := retire b e in
  Sain r.1 /\ r.2 = pres b e /\ curseurs r.1 = curseurs b
  /\ forall x, 0 <= x < EMPLACEMENTS -> pres r.1 x = negb (x =? e) && pres b x.
Proof.
  intros HS He. pose proof (emplacement_mot e He) as [Hm Hi].
  pose proof (sain_mot b (e / 64) HS) as Hw.
  unfold retire. rewrite (proj2 (Z.leb_gt _ _)) by lia. cbv zeta.
  rewrite teste_bit_spec by lia. fold (pres b e).
  set (m' := aset (mots b) (e / 64) (ote_bit (aget (mots b) (e / 64)) (e mod 64))).
  destruct (ote_ensemble (mots b) e (s_mots b HS) He) as [Hpres Hcard]. cbv zeta in Hpres, Hcard.
  fold m' in Hpres, Hcard.
  assert (Forall (fun w => 0 <= w < u64_max) m') as Hmots
    by (apply Forall_aset; [apply HS|by apply ote_bit_mot]).
  assert (length m' = 16%nat) as Hlen by (unfold m'; rewrite length_aset; apply HS).
  change (card (nu (mots b))) with (card b) in Hcard.
  change (pres (nu (mots b)) e) with (pres b e) in Hcard.
  pose proof (s_longueur b HS) as Hlong. pose proof (card_borne b) as Hb.
  pose proof (card_borne (nu m')) as Hb'.
  assert (forall m, 0 <= m < 16 -> aget m' m <> 0 -> Z.testbit (resume b) m = true) as Hres.
  { intros m Hmm Hnz. apply HS; [done|]. unfold m' in Hnz.
    destruct (decide (m = e / 64)) as [->|]; [|by rewrite aget_aset_ne in Hnz by lia].
    intros E0. rewrite aget_aset_eq, E0 in Hnz by (rewrite (s_mots b HS); lia). done. }
  destruct (pres b e) eqn:Ee; cbn [negb Z.b2z] in Hcard; simpl.
  - destruct (rafraichit_spec (set_longueur (set_mots b m')
      (wrapping_sub64 (longueur (set_mots b m')) 1)) (e / 64)) as (R1 & R2 & R3);
      simpl; try done; auto.
    { transitivity (card (nu m')); [|done].
      change (longueur (set_mots b m')) with (longueur b).
      unfold wrapping_sub64. rewrite Hlong, Z.mod_small; unfold u64_max, EMPLACEMENTS in *; lia. }
    split_and!; try done. intros x Hx.
    etransitivity; [|by apply Hpres]. unfold pres. do 2 f_equal. exact R2.
  - split_and!; try done. split; simpl; try done.
    transitivity (card (nu m')); [|done]. lia.
Qed.

End RunQueueProofs.

(** The circular search of a band: the slot served is the nearest one after the cursor,
    whatever the words it spans. *)

Import RunQueue RunQueueProofs.

Module RunQueueTourniquet.

(** How far slot [x] is from the cursor [dep] in the direction of the walk. *)
Definition distance (haut : bool) (dep x : Z) : Z :=
  if haut then (dep - x) mod EMPLACEMENTS else (x - dep) mod EMPLACEMENTS.

(** Slot [x] is looked at in step [pas]. *)
Definition vu (haut : bool) (dep pas x : Z) : Prop :=
  x / 64 = mot_visite (dep / 64) pas haut
  /\ (pas = 0 -> if haut then x mod 64 <= dep mod 64 else dep mod 64 <= x mod 64)
  /\ (pas = 16 -> if haut then dep mod 64 < x mod 64 else x mod 64 < dep mod 64).

Lemma vu_distance haut dep pas x :
  0 <= dep < EMPLACEMENTS -> 0 <= x < EMPLACEMENTS -> 0 <= pas <= 16 -> vu haut dep pas x ->
  distance haut dep x =
  if haut then 64 * pas + dep mod 64 - x mod 64 else 64 * pas + x mod 64 - dep mod 64.
Proof.
  intros Hd Hx Hp (H1 & H2 & H3). unfold distance, mot_visite in *.
  change MOTS with 16 in *. unfold EMPLACEMENTS in *.
  pose proof (Z.div_mod x 64 ltac:(lia)). pose proof (Z.mod_pos_bound x 64 ltac:(lia)).
  pose proof (Z.div_mod dep 64 ltac:(lia)). pose proof (Z.mod_pos_bound dep 64 ltac:(lia)).
  set (qx := x / 64) in *. set (qd := dep / 64) in *. set (rx := x mod 64) in *.
  set (rd := dep mod 64) in *. clearbody qx qd rx rd.
  destruct haut.
  - assert (exists n, pas mod 16 + qx - qd = 16 * n) as [n Hn].
    { pose proof (Z.div_mod (qd + 16 - pas mod 16) 16 ltac:(lia)) as E. rewrite <-H1 in E.
      exists (1 - (qd + 16 - pas mod 16) / 16). lia. }
    assert (pas mod 16 = if decide (pas = 16) then 0 else pas) as Em.
    { destruct (decide (pas = 16)) as [->|]; [done|]. apply Z.mod_small. lia. }
    symmetry. apply (Z.mod_unique_pos _ _
      (if decide (pas = 16) then - n - 1 else - n)); [|destruct (decide (pas = 16)); lia].
    destruct (decide (pas = 16)) as [->|]; [specialize (H3 eq_refl); lia|].
    destruct (decide (pas = 0)) as [->|]; [specialize (H2 eq_refl); lia|lia].
  - assert (exists n, qd + pas - qx = 16 * n) as [n Hn].
    { pose proof (Z.div_mod (qd + pas) 16 ltac:(lia)) as E. rewrite <-H1 in E.
      exists ((qd + pas) / 16). lia. }
    symmetry. apply (Z.mod_unique_pos _ _ (- n)); [|lia].
    destruct (decide (pas = 16)) as [->|]; [specialize (H3 eq_refl); lia|].
    destruct (decide (pas = 0)) as [->|]; [specialize (H2 eq_refl); lia|lia].
Qed.

(** Every slot is looked at. *)
Lemma vu_existe haut dep x :
  0 <= dep < EMPLACEMENTS -> 0 <= x < EMPLACEMENTS ->
  exists pas, 0 <= pas <= 16 /\ vu haut dep pas x.
Proof.
  intros Hd Hx. unfold vu, mot_visite. change MOTS with 16. unfold EMPLACEMENTS in *.
  pose proof (Z.div_mod x 64 ltac:(lia)). pose proof (Z.mod_pos_bound x 64 ltac:(lia)).
  pose proof (Z.div_mod dep 64 ltac:(lia)). pose proof (Z.mod_pos_bound dep 64 ltac:(lia)).
  set (qx := x / 64) in *. set (qd := dep / 64) in *. set (rx := x mod 64) in *.
  set (rd := dep mod 64) in *. clearbody qx qd rx rd.
  assert (forall z q, 0 <= z - 16 * q < 16 -> z mod 16 = z - 16 * q) as Hmod.
  { intros z q Hq. symmetry. apply (Z.mod_unique_pos _ _ q); lia. }
  destruct haut.
  - destruct (decide (qx = qd)) as [->|].
    + destruct (decide (rx <= rd)); [exists 0|exists 16]; split_and!; try lia.
      * rewrite (Hmod (qd + 16 - 0 mod 16) 1); rewrite Z.mod_0_l; lia.
      * rewrite Z.mod_same, (Hmod (qd + 16 - 0) 1); lia.
    + set (pas := if decide (qx < qd) then qd - qx else qd - qx + 16).
      exists pas. assert (0 < pas < 16) by (unfold pas; destruct (decide _); lia).
      split_and!; try lia. rewrite (Z.mod_small pas) by lia.
      unfold pas in *. destruct (decide (qx < qd)); [rewrite (Hmod _ 1)|rewrite (Hmod _ 0)]; lia.
  - destruct (decide (qx = qd)) as [->|].
    + destruct (decide (rd <= rx)); [exists 0|exists 16]; split_and!; try lia.
      * rewrite (Hmod _ 0); lia.
      * rewrite (Hmod _ 1); lia.
    + set (pas := if decide (qd < qx) then qx - qd else qx - qd + 16).
      exists pas. assert (0 < pas < 16) by (unfold pas; destruct (decide _); lia).
      split_and!; try lia.
      unfold pas in *. destruct (decide (qd < qx)); [rewrite (Hmod _ 0)|rewrite (Hmod _ 1)]; lia.
Qed.

Lemma mot_visite_borne dep pas haut : 0 <= mot_visite dep pas haut < 16.
Proof. unfold mot_visite. change MOTS with 16. destruct haut; apply Z.mod_pos_bound; lia. Qed.

Section Bande.
Variable b : BandeFile.
Hypothesis HS : Sain b.
Variables (haut : bool) (dep : Z).
Hypothesis Hdep : 0 <= dep < EMPLACEMENTS.

Abbreviation valeur pas := (valeur_visitee b dep pas haut).

Lemma valeur_mot pas : 0 <= valeur pas < u64_max.
Proof.
  unfold valeur_visitee. pose proof (sain_mot b (mot_visite (dep / 64) pas haut) HS).
  destruct (pas =? 0); [by apply (land_mot_l 64)|].
  destruct (pas =? MOTS); [by apply (land_mot_l 64)|done].
Qed.

Lemma valeur_bit pas x :
  0 <= x < EMPLACEMENTS -> x / 64 = mot_visite (dep / 64) pas haut ->
  Z.testbit (valeur pas) (x mod 64) = true <-> pres b x = true /\ vu haut dep pas x.
Proof.
  intros Hx Hm. pose proof (emplacement_mot x Hx) as [_ Hi].
  pose proof (emplacement_mot dep Hdep) as [_ Hd].
  unfold valeur_visitee. rewrite <-Hm. unfold pres, vu. change MOTS with 16.
  destruct (Z.eqb_spec pas 0) as [->|].
  - rewrite Z.land_spec, bits_devant_testbit, andb_true_iff by lia.
    destruct haut; rewrite Z.leb_le; intuition lia.
  - destruct (Z.eqb_spec pas 16) as [->|]; [|intuition lia].
    rewrite Z.land_spec, Z.lxor_spec, ones64_testbit, bits_devant_testbit by lia.
    rewrite (proj2 (Z.ltb_lt _ 64)) by lia. rewrite xorb_true_l, andb_true_iff, negb_true_iff.
    destruct haut; rewrite Z.leb_gt; intuition lia.
Qed.

(** A step whose bits are all clear shows no slot of the band. *)
Lemma valeur_nulle pas x :
  valeur pas = 0 -> 0 <= x < EMPLACEMENTS -> vu haut dep pas x -> pres b x = false.
Proof.
  intros E Hx Hv. destruct (pres b x) eqn:Ep; [|done].
  pose proof (proj2 (valeur_bit pas x Hx (proj1 Hv)) (conj Ep Hv)) as Hb.
  by rewrite E, Z.bits_0 in Hb.
Qed.

(** The first slot found by a pass, guided by a faithful summary or not. *)
Lemma passe_spec guide l :
  Forall (fun p => 0 <= p <= 16) l ->
  match passe b dep haut guide l with
  | Some (mot, e) =>
      exists l1 p l2, l = l1 ++ p :: l2 /\ (forall q, q ∈ l1 -> valeur q = 0)
        /\ valeur p <> 0 /\ mot = mot_visite (dep / 64) p haut
        /\ e = mot * 64 + bit_choisi (valeur p) haut
  | None => forall q, q ∈ l -> valeur q = 0
  end.
Proof.
  induction l as [|p l IH]; intros Hl; simpl; [intros q Hq; by apply not_elem_of_nil in Hq|].
  apply Forall_cons in Hl as [Hp Hl]. specialize (IH Hl).
  assert (forall R : Prop, (valeur p = 0 -> R) ->
    (guide && negb (teste_bit (resume b) (mot_visite (dep / 64) p haut)) = true -> R)) as Hskip.
  { intros R HR Hg. apply HR. apply andb_true_iff in Hg as [_ Hg].
    pose proof (mot_visite_borne (dep / 64) p haut) as Hm.
    rewrite teste_bit_spec in Hg by lia. apply negb_true_iff in Hg.
    assert (aget (mots b) (mot_visite (dep / 64) p haut) = 0) as E0.
    { destruct (decide (aget (mots b) (mot_visite (dep / 64) p haut) = 0)) as [?|Hn]; [done|].
      apply (s_resume b HS) in Hn; [congruence|done]. }
    unfold valeur_visitee. rewrite E0, !Z.land_0_l. by destruct (p =? 0), (p =? MOTS). }
  assert (valeur p = 0 -> match passe b dep haut guide l with
  | Some (mot, e) =>
      exists l1 q l2, p :: l = l1 ++ q :: l2 /\ (forall q, q ∈ l1 -> valeur q = 0)
        /\ valeur q <> 0 /\ mot = mot_visite (dep / 64) q haut
        /\ e = mot * 64 + bit_choisi (valeur q) haut
  | None => forall q, q ∈ p :: l -> valeur q = 0 end) as Hstep.
  { intros E0. destruct (passe b dep haut guide l) as [[mot e]|].
    - destruct IH as (l1 & q & l2 & -> & H1 & H2 & H3 & H4).
      exists (p :: l1), q, l2. split_and!; try done. intros r Hr.
      apply elem_of_cons in Hr as [->|Hr]; auto.
    - intros q Hq. apply elem_of_cons in Hq as [->|Hq]; auto. }
  destruct (guide && _) eqn:Eg; [by eapply Hskip|].
  destruct (Z.eqb_spec (valeur p) 0); [by apply Hstep|].
  exists [], p, l. split_and!; try done. intros q Hq. by apply not_elem_of_nil in Hq.
Qed.

Lemma pas_balayage_borne : Forall (fun p => 0 <= p <= 16) pas_balayage.
Proof.
  apply Forall_forall. intros p Hp. unfold pas_balayage in Hp. apply elem_of_seqZ in Hp.
  change MOTS with 16 in Hp. lia.
Qed.

(** The slot a pass finds is in the band, and the nearest one. *)
Lemma passe_choix guide mot e :
  passe b dep haut guide pas_balayage = Some (mot, e) ->
  0 <= mot < 16 /\ present b e
  /\ forall x, present b x -> distance haut dep e <= distance haut dep x.
Proof.
  intros E. pose proof (passe_spec guide pas_balayage pas_balayage_borne) as Hp. rewrite E in Hp.
  destruct Hp as (l1 & p & l2 & El & Hz & Hn & -> & ->).
  pose proof (bit_choisi_spec (valeur p) haut (valeur_mot p) Hn) as (Hr & Hb & Hmin).
  cbv zeta in *. set (r := bit_choisi (valeur p) haut) in *.
  set (m := mot_visite (dep / 64) p haut) in *.
  pose proof (mot_visite_borne (dep / 64) p haut) as Hm. fold m in Hm.
  assert (0 <= p <= 16) as Hp16.
  { pose proof pas_balayage_borne as HF. rewrite Forall_forall in HF. apply HF.
    rewrite El. apply elem_of_app. right. by left. }
  assert ((m * 64 + r) / 64 = m /\ (m * 64 + r) mod 64 = r) as [Ed Emod].
  { split; [rewrite Z.add_comm, Z.div_add, Z.div_small by lia|
            rewrite Z.add_comm, Z.mod_add, Z.mod_small by lia]; lia. }
  assert (0 <= m * 64 + r < EMPLACEMENTS) as Hrange by (unfold EMPLACEMENTS; lia).
  pose proof (valeur_bit p (m * 64 + r) Hrange Ed) as Hv. rewrite Emod in Hv.
  apply Hv in Hb as [Hpres Hvu]. split; [done|]. split; [done|].
  intros x [Hx Hpx]. rewrite (vu_distance haut dep p (m * 64 + r)) by done.
  destruct (vu_existe haut dep x Hdep Hx) as (q & Hq & Hvx).
  rewrite (vu_distance haut dep q x) by done.
  pose proof (emplacement_mot x Hx) as [_ Hi]. rewrite Emod.
  destruct (decide (q < p)) as [Hlt|Hge].
  { exfalso. assert (q ∈ l1) as Hin.
    { assert (pas_balayage !! Z.to_nat q = Some q) as Hlk.
      { unfold pas_balayage. rewrite lookup_seqZ_lt; [f_equal; lia|]. change MOTS with 16. lia. }
      assert (pas_balayage !! length l1 = Some p) as Hlp
        by (rewrite El, lookup_app_r, Nat.sub_diag by lia; done).
      assert (length l1 = Z.to_nat p) as Hlen.
      { unfold pas_balayage in Hlp. apply lookup_seqZ in Hlp. lia. }
      rewrite El, lookup_app_l in Hlk by lia. by eapply list_elem_of_lookup_2. }
    pose proof (valeur_nulle q x (Hz q Hin) Hx Hvx). congruence. }
  destruct (decide (q = p)) as [->|]; [|destruct haut; lia].
  assert (Z.testbit (valeur p) (x mod 64) = true) as Hbx.
  { apply valeur_bit; [done|apply Hvx|done]. }
  specialize (Hmin _ Hi Hbx). destruct haut; lia.
Qed.

Lemma passe_vide guide :
  passe b dep haut guide pas_balayage = None -> forall x, ~ present b x.
Proof.
  intros E x [Hx Hp]. pose proof (passe_spec guide pas_balayage pas_balayage_borne) as Hs.
  rewrite E in Hs. destruct (vu_existe haut dep x Hdep Hx) as (q & Hq & Hv).
  rewrite (valeur_nulle q x) in Hp; [done| |done|done]. apply Hs.
  unfold pas_balayage. apply elem_of_seqZ. change MOTS with 16. lia.
Qed.

End Bande.

(** ** The slot served *)

Definition depart (b : BandeFile) (haut : bool) : Z :=
  (if haut then curseur_haut b else curseur_bas b) mod EMPLACEMENTS.

Lemma sain_resume b m : 0 <= m < 16 -> Sain b -> Sain (set_resume b (pose_bit (resume b) m)).
Proof.
  intros Hm [H1 H2 H3 H4]. split; simpl; try done. intros q Hq Hn.
  rewrite pose_bit_testbit, H3 by (done || lia). apply orb_true_r.
Qed.
Lemma sain_curseur b haut c : Sain b -> Sain (set_curseur b haut c).
Proof. intros [H1 H2 H3 H4]. by destruct haut; split. Qed.

Lemma candidat_spec b haut :
  Sain b ->
  match candidat b haut with
  | (b', Some e) => present b e
      /\ (forall x, present b x -> distance haut (depart b haut) e <= distance haut (depart b haut) x)
      /\ Sain b' /\ mots b' = mots b /\ longueur b' = longueur b
      /\ curseurs b' = curseurs (set_curseur b haut (emplacement_suivant e haut))
  | (b', None) => b' = b /\ forall x, ~ present b x
  end.
Proof.
  intros HS. unfold candidat. fold (depart b haut).
  assert (0 <= depart b haut < EMPLACEMENTS) as Hd by by apply Z.mod_pos_bound.
  destruct (if resume b =? 0 then None else passe b (depart b haut) haut true pas_balayage)
    as [[mot e]|] eqn:E.
  - destruct (resume b =? 0); [done|].
    destruct (passe_choix b HS haut _ Hd true mot e E) as (_ & H1 & H2).
    split_and!; try done; [by apply sain_curseur|by destruct haut..].
  - clear E. destruct (passe b (depart b haut) haut false pas_balayage) as [[mot e]|] eqn:E.
    + destruct (passe_choix b HS haut _ Hd false mot e E) as (Hm & H1 & H2).
      split_and!; try done; [by apply sain_curseur, sain_resume|by destruct haut..].
    + split; [done|]. by apply (passe_vide b HS haut _ Hd false).
Qed.

Lemma pres_mots b b' x : mots b' = mots b -> pres b' x = pres b x.
Proof. intros E. unfold pres. by rewrite E. Qed.

(** Serving takes out the nearest slot after the cursor, and answers nothing only when
    the band is empty. *)
Lemma sert_spec b haut :
  Sain b ->
  match sert b haut with
  | (b', Some e) => present b e
      /\ (forall x, present b x -> distance haut (depart b haut) e <= distance haut (depart b haut) x)
      /\ Sain b' /\ (forall x, 0 <= x < EMPLACEMENTS -> pres b' x = negb (x =? e) && pres b x)
      /\ curseurs b' = curseurs (set_curseur b haut (emplacement_suivant e haut))
  | (b', None) => b' = b /\ forall x, ~ present b x
  end.
Proof.
  intros HS. unfold sert. change TENTATIVES_MAX with (S 7). cbn [sert_boucle].
  unfold est_vide. destruct (Z.eqb_spec (longueur b) 0) as [E|Hn].
  { split; [done|]. apply card_zero. by rewrite <-(s_longueur b HS). }
  pose proof (candidat_spec b haut HS) as Hc. destruct (candidat b haut) as [b1 [e|]].
  - destruct Hc as (Hp & Hmin & HS1 & Em & El & Ec).
    destruct (bande_retire_spec b1 e HS1 (proj1 Hp)) as (HS2 & Hr & Hcur & Hpres).
    destruct (retire b1 e) as [b2 r]. simpl in *.
    rewrite (pres_mots b b1 e Em), (proj2 Hp) in Hr. subst r. split_and!; try done.
    + intros x Hx. rewrite Hpres, (pres_mots b b1 x Em) by done. done.
    + by rewrite Hcur.
  - exfalso. apply Hn. rewrite (s_longueur b HS). by apply card_zero, Hc.
Qed.

End RunQueueTourniquet.
