(* ===== verification/RunQueueFile.v ===== *)
(** The two bands of a CPU under any sequence of operations: no slot is ever in both
    bands, an election answers nothing only when no task is ready, and no ready task
    waits more than a bounded number of elections. *)

From S2P Require Import Prelude RunQueue RunQueueProofs.
Import RunQueue RunQueueProofs RunQueueTourniquet.

Module RunQueueFile.

(** ** Invariant and operations *)

Record FSain (f : FileCpu) : Prop := {
  fs_bande b : Sain (bande f b);
  fs_exclusif x : present (interactive f) x -> ~ present (normale f) x;
  fs_tours : 0 <= tours_interactifs f < u32_max
}.

Inductive Evenement := Enfile (e : Z) (b : Bande) | Retire (e : Z) | Defile | Vole.

Definition applique (f : FileCpu) (v : Evenement) : FileCpu :=
  match v with
  | Enfile e b => (enfile f e b).1
  | Retire e => (file_retire f e).1
  | Defile => (defile f).1
  | Vole => (vole f).1
  end.
Definition execute (f : FileCpu) (vs : list Evenement) : FileCpu := fold_left applique vs f.
Definition valide (v : Evenement) : Prop :=
  match v with Enfile e _ | Retire e => 0 <= e | _ => True end.
Definition est_election (v : Evenement) : bool := match v with Defile => true | _ => false end.
Definition elections (vs : list Evenement) : Z := Z.of_nat (length (List.filter est_election vs)).

Lemma bande_set f b x b' :
  bande (set_bande f b x) b' = if decide (b' = b) then x else bande f b'.
Proof. by destruct b, b'. Qed.
Lemma set_bande_id f b : set_bande f b (bande f b) = f.
Proof. by destruct f, b. Qed.
Lemma autre_bande_ne b : autre_bande b <> b.
Proof. by destruct b. Qed.
Lemma bande_cas b b' : b' = b \/ b' = autre_bande b.
Proof. destruct b, b'; auto. Qed.

Lemma exclusif f b x : FSain f -> present (bande f b) x -> ~ present (bande f (autre_bande b)) x.
Proof. intros HF Hp Hq. destruct b; simpl in *; by eapply (fs_exclusif f HF x). Qed.

Definition meme_bas (f f' : FileCpu) : Prop :=
  (forall b, curseur_bas (bande f' b) = curseur_bas (bande f b))
  /\ tours_interactifs f' = tours_interactifs f.

(** A band replaced by one that holds fewer slots keeps the invariant. *)
Lemma fsain_moins f b x :
  FSain f -> Sain x -> (forall y, present x y -> present (bande f b) y) -> FSain (set_bande f b x).
Proof.
  intros [H1 H2 H3] HS Hp. split.
  - intros b'. rewrite bande_set. by destruct (decide (b' = b)).
  - intros y. destruct b; simpl in *; intros Hi Hn; eapply H2; eauto.
  - by destruct b.
Qed.

Lemma fsain_compteurs f f' :
  FSain f -> interactive f' = interactive f -> normale f' = normale f ->
  0 <= tours_interactifs f' < u32_max -> FSain f'.
Proof.
  intros [H1 H2 H3] E1 E2 Ht. split; [|by rewrite E1, E2|done].
  intros [|]; simpl; rewrite ?E1, ?E2; [apply (H1 Interactive)|apply (H1 Normale)].
Qed.

Lemma retire_hors b e : EMPLACEMENTS <= e -> retire b e = (b, false).
Proof. intros. unfold retire. by rewrite (proj2 (Z.leb_le _ _)). Qed.

(** Removal from one band, whatever the slot number. *)
Lemma retire_moins b e :
  Sain b -> 0 <= e ->
  Sain (retire b e).1 /\ curseurs (retire b e).1 = curseurs b
  /\ (forall y, present (retire b e).1 y -> present b y /\ y <> e).
Proof.
  intros HS He. destruct (decide (e < EMPLACEMENTS)) as [Hlt|Hge].
  - destruct (bande_retire_spec b e HS ltac:(lia)) as (H1 & _ & H3 & H4). split_and!; try done.
    intros y [Hy Hp]. rewrite H4 in Hp by done. bool_prop. by split.
  - rewrite retire_hors by lia. split_and!; try done. intros y Hy. split; [done|].
    destruct Hy. lia.
Qed.

Lemma enfile_spec f e b :
  FSain f -> 0 <= e -> FSain (enfile f e b).1 /\ meme_bas f (enfile f e b).1.
Proof.
  intros HF He. unfold enfile. set (a := autre_bande b).
  set (f1 := if contient (bande f a) e then set_bande f a (retire (bande f a) e).1 else f).
  destruct (retire_moins (bande f a) e (fs_bande f HF a) He) as (R1 & R2 & R3).
  assert (FSain f1 /\ meme_bas f f1 /\ ~ present (bande f1 a) e) as (HF1 & Hb1 & Hn).
  { unfold f1. destruct (contient (bande f a) e) eqn:Ec.
    - split_and!; [apply fsain_moins; [done|done|intros y Hy; by apply R3]|split; [|by destruct a]|].
      + intros b'. rewrite bande_set. destruct (decide (b' = a)) as [->|]; [|done].
        injection R2 as -> _. done.
      + rewrite bande_set, decide_True by done. intros Hp. by apply R3 in Hp as [_ ?].
    - split_and!; [done|by split|]. intros [Hr Hp]. rewrite contient_pres in Ec by done. congruence. }
  clearbody f1. pose proof (fs_bande f1 HF1 b) as HS.
  assert (FSain (set_bande f1 b (insere (bande f1 b) e).1)
          /\ meme_bas f (set_bande f1 b (insere (bande f1 b) e).1)) as [HF2 Hb2].
  { destruct (decide (e < EMPLACEMENTS)) as [Hlt|Hge].
    - destruct (insere_spec (bande f1 b) e HS ltac:(lia)) as (I1 & _ & I3 & I4). split.
      + split; [|intros x|by destruct b; apply HF1].
        * intros b'. rewrite bande_set. destruct (decide (b' = b)); [done|apply HF1].
        * assert (present (bande (set_bande f1 b (insere (bande f1 b) e).1) b) x ->
            ~ present (bande (set_bande f1 b (insere (bande f1 b) e).1) a) x) as Hx.
          { rewrite !bande_set, decide_True by done. unfold a in *.
            rewrite decide_False by apply autre_bande_ne. intros [Hr Hp] Hq. rewrite I4 in Hp by done.
            apply orb_true_iff in Hp as [Hp|Hp]; bool_prop; [by subst|].
            by apply (exclusif f1 b x HF1). }
          unfold a in *. destruct b; simpl in *; [done|]. intros ? ?. by apply Hx.
      + split; [|by destruct b; apply Hb1]. intros b'. rewrite bande_set.
        destruct (decide (b' = b)) as [->|]; [|apply Hb1]. injection I3 as -> _. apply Hb1.
    - assert (insere (bande f1 b) e = (bande f1 b, false)) as ->
        by (unfold insere; by rewrite (proj2 (Z.leb_le _ _)) by lia).
      simpl. rewrite set_bande_id. by split. }
  destruct (insere (bande f1 b) e) as [x [|]]; simpl in *.
  - split; [by apply (fsain_compteurs _ _ HF2); [..|apply HF2]|]. by destruct b.
  - split; [by apply (fsain_compteurs _ _ HF2); [..|apply HF2]|]. by destruct b.
Qed.

Lemma file_retire_spec f e :
  FSain f -> 0 <= e -> FSain (file_retire f e).1 /\ meme_bas f (file_retire f e).1.
Proof.
  intros HF He. unfold file_retire.
  destruct (retire_moins (interactive f) e (fs_bande f HF Interactive) He) as (R1 & R2 & R3).
  destruct (retire (interactive f) e) as [x r]. simpl in R1, R2, R3.
  assert (FSain (set_bande f Interactive x)) as HF1 by (apply fsain_moins; [done|done|intros y Hy; by apply R3]).
  assert (meme_bas f (set_bande f Interactive x)) as Hm.
  { split; [|done]. intros b. rewrite bande_set. destruct (decide _) as [->|]; [|done].
    by injection R2. }
  destruct r; [done|]. cbv zeta.
  destruct (retire_moins (normale (set_bande f Interactive x)) e (fs_bande _ HF1 Normale) He)
    as (S1 & S2 & S3).
  destruct (retire (normale (set_bande f Interactive x)) e) as [y r']. simpl in S1, S2, S3. cbn [fst].
  split; [apply fsain_moins; [done|done|intros z Hz; by apply S3]|]. split; [|done]. intros b. rewrite bande_set.
  destruct (decide _) as [->|]; [by injection S2|apply Hm].
Qed.

(** Serving from a band, by either end. *)
Lemma sert_moins b haut :
  Sain b -> Sain (sert b haut).1 /\ (forall y, present (sert b haut).1 y -> present b y).
Proof.
  intros HS. pose proof (sert_spec b haut HS) as H. destruct (sert b haut) as [b' [e|]]; simpl.
  - destruct H as (_ & _ & H1 & H2 & _). split; [done|]. intros y [Hy Hp].
    rewrite H2 in Hp by done. bool_prop. by split.
  - destruct H as [-> _]. by split.
Qed.

Lemma vole_spec f : FSain f -> FSain (vole f).1 /\ meme_bas f (vole f).1.
Proof.
  intros HF. unfold vole, retire_haut.
  assert (forall b, Sain b -> curseur_bas (sert b true).1 = curseur_bas b) as Hcur.
  { intros b HS. pose proof (sert_spec b true HS) as H. destruct (sert b true) as [b' [e|]]; simpl.
    - destruct H as (_ & _ & _ & _ & H). by injection H.
    - by destruct H as [-> _]. }
  assert (forall g, FSain g -> forall b, let g' := set_bande g b (sert (bande g b) true).1 in
    FSain g' /\ meme_bas g g') as Hs.
  { intros g HG b. pose proof (fs_bande g HG b) as HS. destruct (sert_moins (bande g b) true HS).
    split; [by apply fsain_moins|]. split; [|by destruct b]. intros b'. rewrite bande_set.
    destruct (decide (b' = b)) as [->|]; [by apply Hcur|done]. }
  destruct (Hs f HF Normale) as [HF1 Hm1]. simpl in HF1, Hm1.
  destruct (sert (normale f) true) as [x [e|]]; simpl in *.
  { split; [by apply (fsain_compteurs _ _ HF1); [..|apply HF1]|done]. }
  destruct (Hs _ HF1 Interactive) as [HF2 Hm2]. simpl in HF2, Hm2.
  destruct (sert (interactive f) true) as [y [e|]]; simpl in *.
  - split; [by apply (fsain_compteurs _ _ HF2); [..|apply HF2]|].
    destruct Hm1 as [A1 A2], Hm2 as [B1 B2]. split; [|done]. intros b.
    specialize (A1 b). specialize (B1 b). by destruct b; simpl in *; congruence.
  - split; [done|]. destruct Hm1 as [A1 A2], Hm2 as [B1 B2]. split; [|done]. intros b.
    specialize (A1 b). specialize (B1 b). by destruct b; simpl in *; congruence.
Qed.

(** ** Elections *)

Definition rang (f : FileCpu) (b : Bande) (x : Z) : Z :=
  distance false (depart (bande f b) false) x.

Lemma essaie_spec f b nd :
  FSain f ->
  match essaie_bande f b nd with
  | (f', Some e) => present (bande f b) e /\ FSain f'
      /\ bande f' (autre_bande b) = bande f (autre_bande b)
      /\ (forall x, present (bande f' b) x <-> present (bande f b) x /\ x <> e)
      /\ (forall x, present (bande f b) x -> rang f b e <= rang f b x)
      /\ curseur_bas (bande f' b) = (e + 1) mod EMPLACEMENTS
      /\ tours_interactifs f' =
           match b with Interactive => (tours_interactifs f + 1) mod u32_max | Normale => 0 end
  | (f', None) => f' = f /\ forall x, ~ present (bande f b) x
  end.
Proof.
  intros HF. unfold essaie_bande, retire_bas.
  pose proof (fs_bande f HF b) as HS. pose proof (sert_spec (bande f b) false HS) as H.
  pose proof (sert_moins (bande f b) false HS) as [_ Hm].
  destruct (sert (bande f b) false) as [x [e|]]; simpl in Hm.
  - destruct H as (Hp & Hmin & HSx & Hpx & Hc). injection Hc as Hc _.
    split_and!; try done.
    + apply (fsain_compteurs (set_bande f b x)); [by apply fsain_moins|by destruct b..|].
      destruct b; simpl; [by apply Z.mod_pos_bound|unfold u32_max; lia].
    + by destruct b.
    + intros y. assert (bande (note_election (set_bande f b x) b nd) b = x) as -> by by destruct b.
      unfold present. split.
      * intros [Hy Hpy]. rewrite Hpx in Hpy by done. bool_prop. done.
      * intros [[Hy Hpy] Hne]. rewrite Hpx, Hpy by done. split; [done|].
        by rewrite (proj2 (Z.eqb_neq y e)).
    + assert (bande (note_election (set_bande f b x) b nd) b = x) as -> by by destruct b. done.
    + by destruct b.
  - destruct H as [-> Hv]. by rewrite set_bande_id.
Qed.

(** After slot [e] is served, the slots behind it in the walk are closer to the cursor. *)
Lemma rang_avance dep e x :
  0 <= dep < EMPLACEMENTS -> 0 <= e < EMPLACEMENTS -> 0 <= x < EMPLACEMENTS -> x <> e ->
  distance false dep e <= distance false dep x ->
  distance false (((e + 1) mod EMPLACEMENTS) mod EMPLACEMENTS) x < distance false dep x.
Proof.
  unfold distance, EMPLACEMENTS. intros Hd He Hx Hne Hle.
  rewrite Z.mod_mod, Zminus_mod_idemp_r by lia.
  assert (forall a, a mod 1024 = a + 1024 * (if decide (0 <= a) then 0 else 1)
          \/ a < -1024 \/ 1024 <= a) as Hm.
  { intros a. destruct (decide (-1024 <= a < 1024)); [left|lia].
    symmetry. destruct (decide (0 <= a)).
    - apply (Z.mod_unique_pos _ _ 0); lia.
    - apply (Z.mod_unique_pos _ _ (-1)); lia. }
  assert ((x - (e + 1)) mod 1024 = (x - dep) mod 1024 - (e - dep) mod 1024 - 1) as ->.
  { symmetry. pose proof (Z.div_mod (x - dep) 1024 ltac:(lia)).
    pose proof (Z.div_mod (e - dep) 1024 ltac:(lia)).
    pose proof (Z.mod_pos_bound (x - dep) 1024 ltac:(lia)).
    pose proof (Z.mod_pos_bound (e - dep) 1024 ltac:(lia)).
    apply (Z.mod_unique_pos _ _ ((x - dep) / 1024 - (e - dep) / 1024)); [|lia].
    assert ((e - dep) mod 1024 <> (x - dep) mod 1024); [|lia].
    intros Heq. apply Hne. lia. }
  pose proof (Z.mod_pos_bound (e - dep) 1024 ltac:(lia)). lia.
Qed.

Lemma rang_borne f b x : 0 <= rang f b x < EMPLACEMENTS.
Proof. unfold rang, distance. by apply Z.mod_pos_bound. Qed.

(** What is left to wait: turns of the other band included. *)
Definition attente (f : FileCpu) (b : Bande) (x : Z) : Z :=
  match b with
  | Normale => 9 * rang f b x + (8 - Z.min (tours_interactifs f) 8)
  | Interactive => 2 * rang f b x + (if 8 <=? tours_interactifs f then 1 else 0)
  end.

Lemma meme_bas_attente f f' b x : meme_bas f f' -> attente f' b x = attente f b x.
Proof.
  intros [H1 H2]. unfold attente, rang, depart. by destruct b; rewrite H2, H1.
Qed.

(** An election that leaves [x] in its band brings it closer. *)
Lemma election_attente f b x :
  FSain f -> present (bande f b) x -> FSain (defile f).1 /\
  (present (bande (defile f).1 b) x -> attente (defile f).1 b x + 1 <= attente f b x).
Proof.
  intros HF Hx. unfold defile.
  set (nd := (TOURS_INTERACTIFS_MAX <=? tours_interactifs f) && negb (est_vide (normale f))).
  set (p := if nd then Normale else Interactive).
  pose proof (fs_tours f HF) as Ht. unfold u32_max in Ht.
  assert (forall b' f' e, essaie_bande f b' nd = (f', Some e) -> b' = b ->
    present (bande f' b) x -> rang f' b x < rang f b x) as Hr.
  { intros b' f' e E -> Hpx. pose proof (essaie_spec f b nd HF) as H. rewrite E in H.
    destruct H as (Hpe & _ & _ & Hpres & Hmin & Hc & _). apply Hpres in Hpx as [_ Hne].
    unfold rang, depart at 1. rewrite Hc.
    apply (rang_avance _ e); [by apply Z.mod_pos_bound|apply Hpe|apply Hx|done|by apply Hmin]. }
  assert (b = Normale -> est_vide (normale f) = false) as Hv.
  { intros ->. unfold est_vide. apply Z.eqb_neq. intros E.
    pose proof (s_longueur _ (fs_bande f HF Normale)) as El. simpl in El, Hx. rewrite E in El.
    by apply (proj1 (card_zero (normale f)) (eq_sym El) x). }
  assert (forall b', b' <> b -> forall f' e, essaie_bande f b' nd = (f', Some e) ->
    rang f' b x = rang f b x) as Hr'.
  { intros b' Hb' f' e E. pose proof (essaie_spec f b' nd HF) as H. rewrite E in H.
    destruct H as (_ & _ & Ho & _). unfold rang. f_equal. f_equal.
    destruct (bande_cas b' b) as [-> | ->]; done. }
  pose proof (essaie_spec f p nd HF) as Hp. pose proof (essaie_spec f (autre_bande p) nd HF) as Hq.
  destruct (essaie_bande f p nd) as [f1 [e|]] eqn:E1; simpl.
  - destruct Hp as (_ & HF1 & _ & _ & _ & _ & Htr). split; [done|]. intros Hpx.
    destruct (decide (p = b)) as [Hpb|Hpb].
    + pose proof (Hr p f1 e E1 Hpb Hpx) as Hlt. subst b. unfold attente. rewrite Htr.
      destruct p; [|simpl; lia].
      destruct (8 <=? _ mod _), (8 <=? _); lia.
    + pose proof (Hr' p Hpb f1 e E1) as Heq. unfold attente. rewrite Heq, Htr.
      unfold p, nd, TOURS_INTERACTIFS_MAX in *. destruct b.
      * destruct (Z.leb_spec 8 (tours_interactifs f)); [|done].
        destruct (negb (est_vide (normale f))); [|done]. simpl. lia.
      * rewrite (Hv eq_refl) in *. simpl in *.
        destruct (Z.leb_spec 8 (tours_interactifs f)); [done|]. simpl in *.
        rewrite Z.mod_small by (unfold u32_max; lia). lia.
  - destruct Hp as [-> Hvide].
    assert (b = autre_bande p) as Hb.
    { destruct (bande_cas p b) as [->|]; [|done]. by apply Hvide in Hx. }
    destruct (essaie_bande f (autre_bande p) nd) as [f2 [e|]] eqn:E2; simpl.
    2: { destruct Hq as [_ Hq]. rewrite Hb in Hx. by apply Hq in Hx. }
    destruct Hq as (_ & HF2 & _ & _ & _ & _ & Htr). split; [done|]. intros Hpx.
    pose proof (Hr _ f2 e E2 (eq_sym Hb) Hpx) as Hlt. unfold attente. rewrite Htr, <-Hb.
    destruct b; [|lia].
    destruct (8 <=? _ mod _), (8 <=? _); lia.
Qed.

Lemma applique_sain f v : FSain f -> valide v -> FSain (applique f v).
Proof.
  intros HF Hv. destruct v; simpl in *.
  - by apply enfile_spec.
  - by apply file_retire_spec.
  - unfold defile.
    set (nd := _ && _). set (p := if nd then Normale else Interactive).
    pose proof (essaie_spec f p nd HF) as Hp. destruct (essaie_bande f p nd) as [f1 [e|]].
    { apply Hp. }
    destruct Hp as [-> _]. pose proof (essaie_spec f (autre_bande p) nd HF) as Hq.
    destruct (essaie_bande f (autre_bande p) nd) as [f2 [e|]]; [apply Hq|by destruct Hq as [-> _]].
  - by apply vole_spec.
Qed.

Lemma execute_sain f vs : FSain f -> Forall valide vs -> FSain (execute f vs).
Proof.
  revert f. induction vs as [|v vs IH]; intros f HF Hv; [done|].
  apply Forall_cons in Hv as [Hv Hvs]. simpl. apply IH; [by apply applique_sain|done].
Qed.

Lemma attente_execute f b x vs :
  FSain f -> Forall valide vs ->
  (forall n, present (bande (execute f (take n vs)) b) x) ->
  elections vs <= attente f b x.
Proof.
  revert f. induction vs as [|v vs IH]; intros f HF Hv Hx.
  - unfold elections. simpl. unfold attente. pose proof (rang_borne f b x).
    destruct b; [destruct (8 <=? _)|]; lia.
  - apply Forall_cons in Hv as [Hv Hvs].
    pose proof (Hx 0%nat) as Hx0. pose proof (Hx 1%nat) as Hx1. simpl in Hx0, Hx1.
    
    assert (elections vs <= attente (applique f v) b x) as Hrec.
    { apply IH; [by apply applique_sain|done|]. intros n. apply (Hx (S n)). }
    unfold elections in *. cbn [List.filter]. destruct v; cbn [est_election].
    + rewrite (meme_bas_attente f) in Hrec; [done|]. by apply enfile_spec.
    + rewrite (meme_bas_attente f) in Hrec; [done|]. by apply file_retire_spec.
    + destruct (election_attente f b x HF Hx0) as [_ Ha]. specialize (Ha Hx1).
      simpl in *. lia.
    + rewrite (meme_bas_attente f) in Hrec; [done|]. by apply vole_spec.
Qed.

(** ** From an empty queue *)

Lemma neuve_sain : Sain neuve.
Proof.
  split.
  - done.
  - by apply Forall_replicate.
  - intros m _ H. unfold neuve in H. cbn [mots] in H. by rewrite aget_replicate in H.
  - vm_compute. reflexivity.
Qed.

Lemma neuve_absent x : ~ present neuve x.
Proof.
  intros [_ Hp]. unfold pres, neuve in Hp. cbn [mots] in Hp.
  by rewrite aget_replicate, Z.bits_0 in Hp.
Qed.

Lemma file_neuve_sain : FSain file_neuve.
Proof.
  split; [intros [|]; apply neuve_sain|intros x Hx; by apply neuve_absent in Hx|].
  unfold u32_max. simpl. lia.
Qed.

Lemma atteinte_sain vs : Forall valide vs -> FSain (execute file_neuve vs).
Proof. intros Hv. apply execute_sain; [apply file_neuve_sain|done]. Qed.

Lemma contient_present b x : 0 <= x -> contient b x = true <-> present b x.
Proof.
  intros Hx. destruct (decide (x < EMPLACEMENTS)) as [Hlt|Hge].
  - rewrite contient_pres by lia. unfold present. intuition lia.
  - unfold contient, present. rewrite (proj2 (Z.leb_le _ _)) by lia. split; [done|]. lia.
Qed.

(** C14. No ready task starves: whatever is queued, removed or stolen meanwhile, a task that
    stays in its band of a queue is elected before 9216 elections have taken place, eight
    interactive turns for a normal one included. *)
Theorem pas_de_famine vs0 vs b x :
  Forall valide vs0 -> Forall valide vs -> 0 <= x ->
  (forall n, contient (bande (execute (execute file_neuve vs0) (take n vs)) b) x = true) ->
  elections vs < 9 * EMPLACEMENTS.
Proof.
  intros H0 H1 Hx Hp. pose proof (atteinte_sain vs0 H0) as HF.
  set (f := execute file_neuve vs0) in *.
  assert (elections vs <= attente f b x) as Ha.
  { apply attente_execute; [done..|]. intros n. by apply contient_present. }
  pose proof (rang_borne f b x) as Hr. pose proof (fs_tours f HF). unfold attente, EMPLACEMENTS in *.
  destruct b; [destruct (8 <=? _)|]; lia.
Qed.

(** In every reachable queue a slot is in at most one band, each length is the number
    of slots of its band, and an election answers nothing exactly when no task is queued. *)
Theorem file_coherente vs :
  Forall valide vs ->
  let f := execute file_neuve vs in
  (forall x, 0 <= x -> ~ (contient (interactive f) x = true /\ contient (normale f) x = true))
  /\ (forall b, longueur (bande f b) =
        Z.of_nat (length (List.filter (contient (bande f b)) (seqZ 0 EMPLACEMENTS))))
  /\ ((defile f).2 = None <-> forall x, 0 <= x -> file_contient f x = false).
Proof.
  intros Hv f. pose proof (atteinte_sain vs Hv) as HF. fold f in HF. split_and!.
  - intros x Hx [H1 H2]. apply contient_present in H1, H2; [|done..].
    by apply (fs_exclusif f HF x).
  - intros b. rewrite (s_longueur _ (fs_bande f HF b)). unfold card. do 2 f_equal.
    assert (forall l, Forall (fun x => 0 <= x < EMPLACEMENTS) l ->
      filter (fun x => pres (bande f b) x = true) l = List.filter (contient (bande f b)) l) as H.
    { induction 1 as [|y l Hy _ IH]; [done|]. rewrite filter_cons. cbn [List.filter].
      rewrite contient_pres, IH by done. by destruct (pres (bande f b) y) eqn:E. }
    apply H, Forall_forall. intros x Hx. apply elem_of_seqZ in Hx. lia.
  - assert (forall x, 0 <= x -> file_contient f x = false <->
      ~ present (interactive f) x /\ ~ present (normale f) x) as Hc.
    { intros x Hx. unfold file_contient.
      rewrite orb_false_iff, <-!not_true_iff_false, !contient_present by done. tauto. }
    unfold defile. set (nd := _ && _). set (p := if nd then Normale else Interactive).
    assert (forall b x, present (bande f b) x ->
      (forall x, 0 <= x -> file_contient f x = false) -> False) as Hno.
    { intros b x Hp H. assert (0 <= x) as Hx by (destruct Hp; lia).
      specialize (H x Hx). apply Hc in H as [? ?]; [|exact Hx]. by destruct b. }
    pose proof (essaie_spec f p nd HF) as Hp. destruct (essaie_bande f p nd) as [f1 [e|]].
    { split; [done|]. intros H. by destruct (Hno p e (proj1 Hp) H). }
    destruct Hp as [-> Hp]. pose proof (essaie_spec f (autre_bande p) nd HF) as Hq.
    destruct (essaie_bande f (autre_bande p) nd) as [f2 [e|]].
    { split; [done|]. intros H. by destruct (Hno (autre_bande p) e (proj1 Hq) H). }
    destruct Hq as [_ Hq]. split; [|done]. intros _ x Hx. apply Hc; [done|].
    destruct p; simpl in *; auto.
Qed.

(** ** Concrete runs *)

Definition avant_ex : list Evenement := [Enfile 3 Interactive; Enfile 7 Interactive; Enfile 5 Normale].

Lemma pas_de_famine_witness : elections [Defile; Enfile 3 Interactive; Defile] < 9 * EMPLACEMENTS.
Proof.
  apply (pas_de_famine avant_ex _ Normale 5);
    [repeat constructor; simpl; lia|repeat constructor; simpl; lia|lia|].
  intros [|[|[|[|n]]]]; vm_compute; reflexivity.
Defined.

Lemma file_coherente_witness :
  (defile (execute file_neuve avant_ex)).2 = Some 3
  /\ longueur (bande (execute file_neuve avant_ex) Interactive) = 2.
Proof.
  split; [vm_compute; reflexivity|].
  destruct (file_coherente avant_ex) as (_ & H & _); [repeat constructor; simpl; lia|].
  rewrite (H Interactive). vm_compute. reflexivity.
Defined.

End RunQueueFile.
