(* ===== verification/RunQueueConc.v ===== *)
(** The lock-free protocol of a band of the run queue: every atomic access of [insere],
    [retire] and [rafraichit_resume] is a step, and any number of cores interleave. *)

From S2P Require Import Prelude RunQueue RunQueueProofs.
Import RunQueue RunQueueProofs.

Module RunQueueConc.

(** Where a core is inside an operation, after its last atomic access. *)
Inductive Pc :=
| Repos
| Insere_resume (e : Z) (nouveau : bool)  (* bit set; the summary is next *)
| Insere_longueur (e : Z)                 (* summary set; the length is next *)
| Retire_longueur (e : Z)                 (* bit cleared; the length is next *)
| Retire_lit (e : Z)                      (* length updated; the word is read next *)
| Retire_efface (e : Z)                   (* word read null; the summary is cleared next *)
| Retire_relit (e : Z)                    (* summary cleared; the word is read again next *)
| Retire_repose (e : Z).                  (* word read non-null; the summary is set next *)

(** The band, the cores, and the operations that took effect: an insertion that set a bit,
    a removal that cleared one. *)
Record Machine := mk_machine {
  bande_m : BandeFile;
  coeurs : list Pc;
  journal : list (bool * Z)
}.

Definition mot_de (e : Z) : Z := e / 64.
Definition lit_mot (b : BandeFile) (e : Z) : Z := aget (mots b) (mot_de e).

(** One atomic access of a core at [pc]: the band, the next position and what is logged. *)
Inductive acces (b : BandeFile) : Pc -> BandeFile -> Pc -> list (bool * Z) -> Prop :=
| a_insere e : 0 <= e < EMPLACEMENTS ->
    let n := negb (teste_bit (lit_mot b e) (e mod 64)) in
    acces b Repos (set_mots b (aset (mots b) (mot_de e) (pose_bit (lit_mot b e) (e mod 64))))
      (Insere_resume e n) (if n then [(true, e)] else [])
| a_insere_resume e n :
    acces b (Insere_resume e n) (set_resume b (pose_bit (resume b) (mot_de e)))
      (if n then Insere_longueur e else Repos) []
| a_insere_longueur e :
    acces b (Insere_longueur e) (set_longueur b (wrapping_add64 (longueur b) 1)) Repos []
| a_retire e : 0 <= e < EMPLACEMENTS ->
    let n := teste_bit (lit_mot b e) (e mod 64) in
    acces b Repos (set_mots b (aset (mots b) (mot_de e) (ote_bit (lit_mot b e) (e mod 64))))
      (if n then Retire_longueur e else Repos) (if n then [(false, e)] else [])
| a_retire_longueur e :
    acces b (Retire_longueur e) (set_longueur b (wrapping_sub64 (longueur b) 1)) (Retire_lit e) []
| a_retire_lit e :
    acces b (Retire_lit e) b (if lit_mot b e =? 0 then Retire_efface e else Repos) []
| a_retire_efface e :
    acces b (Retire_efface e) (set_resume b (ote_bit (resume b) (mot_de e))) (Retire_relit e) []
| a_retire_relit e :
    acces b (Retire_relit e) b (if lit_mot b e =? 0 then Repos else Retire_repose e) []
| a_retire_repose e :
    acces b (Retire_repose e) (set_resume b (pose_bit (resume b) (mot_de e))) Repos [].

Inductive pas_machine : Machine -> Machine -> Prop :=
| pas_coeur m i pc b' pc' j :
    coeurs m !! i = Some pc -> acces (bande_m m) pc b' pc' j ->
    pas_machine m (mk_machine b' (<[i := pc']> (coeurs m)) (j ++ journal m)).

Inductive atteinte (n : nat) : Machine -> Prop :=
| debut : atteinte n (mk_machine neuve (replicate n Repos) [])
| encore m m' : atteinte n m -> pas_machine m m' -> atteinte n m'.

(** ** The invariant *)

(** What a core has still to add to the length. *)
Definition a_compter (pc : Pc) : Z :=
  match pc with
  | Insere_resume _ true | Insere_longueur _ => 1
  | Retire_longueur _ => -1
  | _ => 0
  end.
Definition en_cours (l : list Pc) : Z := foldr (fun pc acc => a_compter pc + acc) 0 l.

(** A core that will set the summary bit of word [m], or read the word again first. *)
Definition garantit (m : Z) (pc : Pc) : Prop :=
  match pc with
  | Insere_resume e _ | Retire_relit e | Retire_repose e => mot_de e = m
  | _ => False
  end.

(** The slots a core works on are slots. *)
Definition pc_ok (pc : Pc) : Prop :=
  match pc with
  | Repos => True
  | Insere_resume e _ | Insere_longueur e | Retire_longueur e | Retire_lit e
  | Retire_efface e | Retire_relit e | Retire_repose e => 0 <= e < EMPLACEMENTS
  end.

(** Insertions of [x] that took effect, less its removals. *)
Definition solde (x : Z) (j : list (bool * Z)) : Z :=
  foldr (fun '(k, e) acc => (if e =? x then if k : bool then 1 else -1 else 0) + acc) 0 j.

Record Coherente (m : Machine) : Prop := {
  c_mots : length (mots (bande_m m)) = 16%nat;
  c_mot : Forall (fun w => 0 <= w < u64_max) (mots (bande_m m));
  c_pcs : Forall pc_ok (coeurs m);
  c_longueur : (longueur (bande_m m) + en_cours (coeurs m)) mod u64_max = card (bande_m m);
  c_borne : 0 <= longueur (bande_m m) < u64_max;
  c_resume q : 0 <= q < 16 -> aget (mots (bande_m m)) q <> 0 ->
    Z.testbit (resume (bande_m m)) q = false -> exists pc, pc ∈ coeurs m /\ garantit q pc;
  c_solde x : 0 <= x < EMPLACEMENTS -> solde x (journal m) = Z.b2z (pres (bande_m m) x)
}.

Lemma en_cours_insert l i pc pc' :
  l !! i = Some pc -> en_cours (<[i := pc']> l) = en_cours l - a_compter pc + a_compter pc'.
Proof.
  revert i. induction l as [|q l IH]; intros [|i] E; simplify_eq/=; [lia|].
  rewrite (IH i) by done. lia.
Qed.

(** A core's move keeps the guarantees of the others. *)
Lemma garantit_insert (l : list Pc) i pc pc' q :
  l !! i = Some pc -> (exists p, p ∈ l /\ garantit q p) ->
  (garantit q pc -> garantit q pc') -> exists p, p ∈ <[i := pc']> l /\ garantit q p.
Proof.
  intros E (p & Hp & Hg) Himp. apply list_elem_of_lookup in Hp as [j Hj].
  destruct (decide (i = j)) as [->|].
  - exists pc'. split; [|naive_solver]. apply list_elem_of_lookup. exists j.
    apply list_lookup_insert_eq. by eapply lookup_lt_Some.
  - exists p. split; [|done]. apply list_elem_of_lookup. exists j.
    by rewrite list_lookup_insert_ne.
Qed.

Lemma garantit_neuf (l : list Pc) i pc pc' q :
  l !! i = Some pc -> garantit q pc' -> exists p, p ∈ <[i := pc']> l /\ garantit q p.
Proof.
  intros E Hg. exists pc'. split; [|done]. apply list_elem_of_lookup. exists i.
  apply list_lookup_insert_eq. by eapply lookup_lt_Some.
Qed.

Lemma mot_ecrit m e w :
  length m = 16%nat -> Forall (fun w => 0 <= w < u64_max) m -> 0 <= e < EMPLACEMENTS ->
  0 <= w < u64_max ->
  length (aset m (mot_de e) w) = 16%nat
  /\ Forall (fun w => 0 <= w < u64_max) (aset m (mot_de e) w)
  /\ (forall q, 0 <= q < 16 ->
        aget (aset m (mot_de e) w) q = if decide (q = mot_de e) then w else aget m q).
Proof.
  intros Hl Hf He Hw. pose proof (emplacement_mot e He) as [Hm _]. unfold mot_de in *.
  split_and!; [by rewrite length_aset|by apply Forall_aset|].
  intros q Hq. destruct (decide (q = e / 64)) as [->|].
  - by rewrite aget_aset_eq by lia.
  - by rewrite aget_aset_ne by lia.
Qed.

(** Accesses that leave the words alone. *)
Lemma coherente_sans_mot m i pc b' pc' :
  Coherente m -> coeurs m !! i = Some pc -> pc_ok pc' -> mots b' = mots (bande_m m) ->
  0 <= longueur b' < u64_max ->
  (longueur b' + a_compter pc') mod u64_max =
    (longueur (bande_m m) + a_compter pc) mod u64_max ->
  (forall q, 0 <= q < 16 -> aget (mots (bande_m m)) q <> 0 -> Z.testbit (resume b') q = false ->
     (Z.testbit (resume (bande_m m)) q = false /\ (garantit q pc -> garantit q pc'))
     \/ garantit q pc') ->
  Coherente (mk_machine b' (<[i := pc']> (coeurs m)) (journal m)).
Proof.
  intros [H1 H2 H3 H4 H5 H6 H7] E Hok Em Hb Hl Hr. split; cbn [bande_m coeurs journal]; rewrite ?Em;
    try done.
  - by apply Forall_insert.
  - rewrite (en_cours_insert _ _ pc pc' E).
    replace (longueur b' + _) with ((longueur b' + a_compter pc')
      + (en_cours (coeurs m) - a_compter pc)) by lia.
    rewrite <-Zplus_mod_idemp_l, Hl, Zplus_mod_idemp_l.
    replace (_ + _ + _) with (longueur (bande_m m) + en_cours (coeurs m)) by lia.
    rewrite H4. unfold card. do 2 f_equal. apply card_meme. intros x _. unfold pres. by rewrite Em.
  - intros q Hq Hn Hz. destruct (Hr q Hq Hn Hz) as [[Hz0 Hg]|Hg]; [|by eapply garantit_neuf].
    eapply garantit_insert; [done| |done]. by apply H6.
  - intros x Hx. rewrite H7 by done. unfold pres. by rewrite Em.
Qed.

(** Accesses to the words. *)
Lemma coherente_mot m i e w pc' j :
  Coherente m -> coeurs m !! i = Some Repos -> 0 <= e < EMPLACEMENTS -> pc_ok pc' ->
  0 <= w < u64_max ->
  let b' := set_mots (bande_m m) (aset (mots (bande_m m)) (mot_de e) w) in
  card b' = card (bande_m m) + a_compter pc' ->
  (aget (mots (bande_m m)) (mot_de e) = 0 -> w <> 0 -> garantit (mot_de e) pc') ->
  (forall x, 0 <= x < EMPLACEMENTS ->
     solde x (j ++ journal m) = Z.b2z (pres b' x)) ->
  Coherente (mk_machine b' (<[i := pc']> (coeurs m)) (j ++ journal m)).
Proof.
  intros [H1 H2 H3 H4 H5 H6 H7] E He Hok Hw b' Hcard Hg Hs.
  destruct (mot_ecrit _ e w H1 H2 He Hw) as (M1 & M2 & M3).
  split; cbn [bande_m coeurs journal]; try done.
  - by apply Forall_insert.
  - rewrite (en_cours_insert _ _ Repos pc' E). cbn [a_compter].
    change (longueur b') with (longueur (bande_m m)).
    replace (_ + _) with ((longueur (bande_m m) + en_cours (coeurs m)) + a_compter pc') by lia.
    rewrite <-Zplus_mod_idemp_l, H4, <-Hcard. apply Z.mod_small.
    pose proof (card_borne b'). unfold EMPLACEMENTS, u64_max in *. lia.
  - intros q Hq Hn Hz. unfold b' in Hn. cbn [mots set_mots] in Hn. rewrite M3 in Hn by done.
    destruct (decide (q = mot_de e)) as [->|].
    + destruct (decide (aget (mots (bande_m m)) (mot_de e) = 0)) as [E0|N0].
      * eapply garantit_neuf; [done|]. by apply Hg.
      * eapply garantit_insert; [done|by apply H6|]. done.
    + eapply garantit_insert; [done|by apply H6|]. done.
Qed.

Lemma solde_cons x k e j :
  solde x ((k, e) :: j) = (if e =? x then if k : bool then 1 else -1 else 0) + solde x j.
Proof. done. Qed.

Lemma coherente_pas m m' : Coherente m -> pas_machine m m' -> Coherente m'.
Proof.
  intros HC Hp. destruct Hp as [m i pc b' pc' j E Ha].
  assert (pc_ok pc) as Hpc by (eapply Forall_lookup_1; [apply HC|done]).
  pose proof (c_borne m HC) as Hb. set (b := bande_m m) in *.
  destruct Ha as [e He n|e n|e|e He n|e|e|e|e|e]; simpl in Hpc.
  - (* insere: fetch_or of the word *)
    destruct (pose_ensemble (mots b) e (c_mots m HC) He) as [Hpres Hcard].
    pose proof (emplacement_mot e He) as [Hm Hi].
    assert (n = negb (pres b e)) as En by (unfold n; by rewrite teste_bit_spec by lia).
    apply coherente_mot; try done.
    + apply pose_bit_mot; [lia|]. apply (aget_Forall (fun w => 0 <= w < u64_max)); [apply HC|done].
    + etransitivity; [exact Hcard|]. change (pres (nu (mots b)) e) with (pres b e).
      rewrite <-En. by destruct n.
    + intros x Hx. transitivity (Z.b2z ((x =? e) || pres b x));
        [|f_equal; symmetry; exact (Hpres x Hx)]. pose proof (c_solde m HC x Hx) as Hs.
      fold b in Hs. rewrite En. destruct (pres b e) eqn:Ee; cbn [negb app].
      * rewrite Hs. by destruct (Z.eqb_spec x e) as [->|]; cbn [orb andb negb]; rewrite ?Ee.
      * rewrite solde_cons, Hs. rewrite (Z.eqb_sym e x).
        by destruct (Z.eqb_spec x e) as [->|]; cbn [orb andb negb]; rewrite ?Ee.
  - (* insere: fetch_or of the summary *)
    apply (coherente_sans_mot m i (Insere_resume e n)); try done; try (by destruct n).
    intros q Hq Hn Hz. left. cbn [resume set_resume] in Hz.
    pose proof (emplacement_mot e Hpc) as [Hm _].
    rewrite pose_bit_testbit in Hz by (unfold mot_de; lia).
    apply orb_false_iff in Hz as [Hne Hz]. split; [done|]. simpl. bool_prop. congruence.
  - (* insere: length *)
    apply (coherente_sans_mot m i (Insere_longueur e)); try done.
    + by apply Z.mod_pos_bound.
    + cbn [longueur set_longueur a_compter]. unfold wrapping_add64. rewrite Z.add_0_r.
      by rewrite Z.mod_mod.
    + intros q Hq Hn Hz. left. done.
  - (* retire: fetch_and of the word *)
    destruct (ote_ensemble (mots b) e (c_mots m HC) He) as [Hpres Hcard].
    pose proof (emplacement_mot e He) as [Hm Hi].
    assert (n = pres b e) as En by (unfold n; by rewrite teste_bit_spec by lia).
    apply coherente_mot; try done.
    + by destruct n.
    + apply ote_bit_mot; [lia|]. apply (aget_Forall (fun w => 0 <= w < u64_max)); [apply HC|done].
    + etransitivity; [exact Hcard|]. change (pres (nu (mots b)) e) with (pres b e).
      rewrite <-En. by destruct n.
    + unfold lit_mot. fold b. intros E0 Hw. by rewrite E0 in Hw.
    + intros x Hx. transitivity (Z.b2z (negb (x =? e) && pres b x));
        [|f_equal; symmetry; exact (Hpres x Hx)]. pose proof (c_solde m HC x Hx) as Hs.
      fold b in Hs. rewrite En. destruct (pres b e) eqn:Ee; cbn [negb app].
      * rewrite solde_cons, Hs. rewrite (Z.eqb_sym e x).
        by destruct (Z.eqb_spec x e) as [->|]; cbn [orb andb negb]; rewrite ?Ee.
      * rewrite Hs. by destruct (Z.eqb_spec x e) as [->|]; cbn [orb andb negb]; rewrite ?Ee.
  - (* retire: length *)
    apply (coherente_sans_mot m i (Retire_longueur e)); try done.
    + by apply Z.mod_pos_bound.
    + cbn [longueur set_longueur a_compter]. unfold wrapping_sub64. rewrite Z.add_0_r.
      by rewrite Z.mod_mod.
    + intros q Hq Hn Hz. left. done.
  - (* retire: read *)
    apply (coherente_sans_mot m i (Retire_lit e)); try done; try (by destruct (_ =? 0)).
    intros q Hq Hn Hz. left. done.
  - (* retire: fetch_and of the summary *)
    apply (coherente_sans_mot m i (Retire_efface e)); try done.
    intros q Hq Hn Hz. cbn [resume set_resume] in Hz.
    pose proof (emplacement_mot e Hpc) as [Hm _].
    rewrite ote_bit_testbit in Hz by (unfold mot_de; lia).
    destruct (Z.eqb_spec q (mot_de e)) as [->|]; [by right|]. by left.
  - (* retire: read again *)
    apply (coherente_sans_mot m i (Retire_relit e)); try done; try (by destruct (_ =? 0)).
    intros q Hq Hn Hz. left. split; [done|]. simpl. intros <-.
    fold b in Hn. fold (lit_mot b e) in Hn. by rewrite (proj2 (Z.eqb_neq _ _) Hn).
  - (* retire: fetch_or of the summary *)
    apply (coherente_sans_mot m i (Retire_repose e)); try done.
    intros q Hq Hn Hz. left. cbn [resume set_resume] in Hz.
    pose proof (emplacement_mot e Hpc) as [Hm _].
    rewrite pose_bit_testbit in Hz by (unfold mot_de; lia).
    apply orb_false_iff in Hz as [Hne Hz]. split; [done|]. simpl. bool_prop. congruence.
Qed.

Lemma en_cours_repos n : en_cours (replicate n Repos) = 0.
Proof. induction n; simpl; [done|]. by rewrite IHn. Qed.

Lemma atteinte_coherente n m : atteinte n m -> Coherente m.
Proof.
  induction 1 as [|m m' _ IH Hp]; [|by eapply coherente_pas].
  split; cbn [bande_m coeurs journal].
  - done.
  - by apply Forall_replicate.
  - by apply Forall_replicate.
  - rewrite en_cours_repos. vm_compute. reflexivity.
  - unfold u64_max. simpl. lia.
  - intros q Hq Hn. unfold neuve in Hn. cbn [mots] in Hn. by rewrite aget_replicate in Hn.
  - intros x Hx. unfold pres, neuve. cbn [mots]. by rewrite aget_replicate, Z.bits_0.
Qed.

(** ** What the protocol guarantees *)

(** C27. Exactly once, whatever the interleaving: at every moment the insertions of a slot
    that took effect exceed its removals by one if the slot is in the band and by none
    otherwise, so no insertion is served twice and none is lost. And as soon as no core is
    inside an operation, the length is the number of slots and the summary covers every
    non-empty word. The converse does not hold, [resume_perime]: a summary bit may stay set
    over an empty word, which a search reads in vain. *)
Theorem exactement_une_fois n m :
  atteinte n m ->
  (forall x, 0 <= x < EMPLACEMENTS ->
     solde x (journal m) = if contient (bande_m m) x then 1 else 0)
  /\ (Forall (fun pc => pc = Repos) (coeurs m) ->
        longueur (bande_m m) =
          Z.of_nat (length (filter (fun x => contient (bande_m m) x = true) (seqZ 0 EMPLACEMENTS)))
        /\ forall q, 0 <= q < MOTS -> aget (mots (bande_m m)) q <> 0 ->
             Z.testbit (resume (bande_m m)) q = true).
Proof.
  intros Ha. pose proof (atteinte_coherente n m Ha) as HC. split.
  - intros x Hx. rewrite contient_pres by done. rewrite (c_solde m HC x Hx).
    by destruct (pres (bande_m m) x).
  - intros Hr.
    assert (en_cours (coeurs m) = 0) as E0.
    { clear -Hr. induction Hr as [|pc l -> _ IH]; [done|]. simpl. lia. }
    split.
    + pose proof (c_longueur m HC) as Hl. rewrite E0, Z.add_0_r, Z.mod_small in Hl by apply HC.
      rewrite Hl. unfold card. do 2 f_equal. symmetry. apply card_meme. intros x Hx.
      apply elem_of_seqZ in Hx. apply contient_pres. lia.
    + intros q Hq Hn. destruct (Z.testbit (resume (bande_m m)) q) eqn:Et; [done|].
      destruct (c_resume m HC q Hq Hn Et) as (pc & Hin & Hg).
      rewrite Forall_forall in Hr. by rewrite (Hr pc Hin) in Hg.
Qed.

Lemma longueur_negative :
  exists m, atteinte 2 m /\ longueur (bande_m m) = u64_max - 1
            /\ coeurs m = [Insere_resume 5 true; Retire_lit 5].
Proof.
  eexists. split; [|split].
  - eapply encore; [eapply encore; [eapply encore; [apply debut|]|]|].
    + refine (pas_coeur (mk_machine _ _ _) 0 Repos _ _ _ _ (a_insere _ 5 _));
        [reflexivity|unfold EMPLACEMENTS; lia].
    + refine (pas_coeur (mk_machine _ _ _) 1 Repos _ _ _ _ (a_retire _ 5 _));
        [reflexivity|unfold EMPLACEMENTS; lia].
    + refine (pas_coeur (mk_machine _ _ _) 1 (Retire_longueur 5) _ _ _ _ (a_retire_longueur _ 5)).
      vm_compute. reflexivity.
  - vm_compute. reflexivity.
  - vm_compute. reflexivity.
Qed.

(** Between the bit and the length of an insertion, a core that takes the slot out
    drives the length of the band below zero, to [usize::MAX]; the total length of the
    queue, a checked sum of the two bands, then exceeds [usize] as soon as the other band
    holds a task. *)
Theorem longueur_deborde :
  exists m, atteinte 2 m /\ longueur (bande_m m) = u64_max - 1
    /\ forall f, interactive f = bande_m m -> 0 < longueur (normale f) ->
         u64_max <= file_longueur f.
Proof.
  destruct longueur_negative as (m & Ha & Hl & _). exists m. split_and!; [done..|].
  intros f E Hn. unfold file_longueur. rewrite E, Hl. lia.
Qed.

(** A trace of [n] steps, the first goal being the first step. *)
Ltac suit n :=
  lazymatch n with O => apply debut | S ?k => eapply encore; [suit k|] end.

(** A removal that empties a word between the two accesses of an insertion clears the summary
    first: the insertion then sets it, and every core at rest, it stays set over an empty word. *)
Theorem resume_perime :
  exists m, atteinte 2 m /\ coeurs m = [Repos; Repos]
    /\ Forall (fun w => w = 0) (mots (bande_m m)) /\ Z.testbit (resume (bande_m m)) 0 = true.
Proof.
  eexists. split.
  - suit 8%nat.
    + refine (pas_coeur (mk_machine _ _ _) 0 Repos _ _ _ _ (a_insere _ 5 _));
        [reflexivity|unfold EMPLACEMENTS; lia].
    + refine (pas_coeur (mk_machine _ _ _) 1 Repos _ _ _ _ (a_retire _ 5 _));
        [reflexivity|unfold EMPLACEMENTS; lia].
    + by refine (pas_coeur (mk_machine _ _ _) 1 (Retire_longueur 5) _ _ _ _ (a_retire_longueur _ 5)).
    + by refine (pas_coeur (mk_machine _ _ _) 1 (Retire_lit 5) _ _ _ _ (a_retire_lit _ 5)).
    + by refine (pas_coeur (mk_machine _ _ _) 1 (Retire_efface 5) _ _ _ _ (a_retire_efface _ 5)).
    + by refine (pas_coeur (mk_machine _ _ _) 1 (Retire_relit 5) _ _ _ _ (a_retire_relit _ 5)).
    + by refine (pas_coeur (mk_machine _ _ _) 0 (Insere_resume 5 true) _ _ _ _ (a_insere_resume _ 5 true)).
    + by refine (pas_coeur (mk_machine _ _ _) 0 (Insere_longueur 5) _ _ _ _ (a_insere_longueur _ 5)).
  - split; [vm_compute; reflexivity|]. split; [|vm_compute; reflexivity].
    apply (bool_decide_unpack _). vm_compute. exact I.
Qed.

Lemma exactement_une_fois_witness :
  exists m, atteinte 2 m /\ solde 5 (journal m) = if contient (bande_m m) 5 then 1 else 0.
Proof.
  destruct longueur_negative as (m & Ha & _). exists m. split; [exact Ha|].
  apply (exactement_une_fois 2 m Ha). unfold EMPLACEMENTS. lia.
Defined.

End RunQueueConc.
