(* ===== verification/CycleVie.v ===== *)
(** The life cycle of a task: the pure rules of [src/kernel/scheduler/cycle_vie.rs], and
    the protocol that uses them, each atomic access a step: the task parking itself
    ([publie_parking] of [src/kernel/process/thread/blocage.rs]), a killer
    ([condamne] of [comptabilite.rs]) and any waker. *)

From S2P Require Import Prelude.

Module CycleVie.

(** ** The rules *)

Inductive Etat := Pret | Bloque | Zombie.
#[export] Instance Etat_eq_dec : EqDecision Etat.
Proof. solve_decision. Defined.

Inductive Transition := Endort | Reveille | Meurt | TueParquee.

Definition applique (depuis : Etat) (t : Transition) : option Etat :=
  match depuis, t with
  | Pret, Endort => Some Bloque
  | Bloque, Reveille => Some Pret
  | Pret, Meurt | Bloque, Meurt => Some Zombie
  | Bloque, TueParquee => Some Zombie
  | _, _ => None
  end.

Record VueTueur := mk_vue { v_etat : Etat; v_sur_coeur : bool; v_interruptible : bool }.

Inductive ActionTueur := Rien | Frontiere | TueSurPlace | AReveiller | AttendSonEvenement.
#[export] Instance ActionTueur_eq_dec : EqDecision ActionTueur.
Proof. solve_decision. Defined.

Definition action_tueur (v : VueTueur) : ActionTueur :=
  match v_etat v with
  | Zombie => Rien
  | Pret => Frontiere
  | Bloque => if v_sur_coeur v then AReveiller
              else if v_interruptible v then TueSurPlace else AttendSonEvenement
  end.

Definition meurt_au_parking (condamnee interruptible : bool) : bool := condamnee && interruptible.

(** ** The protocol *)

(** Where the task is: running, inside [publie_parking], published and still on its core,
    off its core, or dead by its own hand. The flag is the interruptibility of the wait. *)
Inductive Position :=
| Marche
| Pose (i : bool)     (* [attente_interruptible] written *)
| Relit (i : bool)    (* [Blocked] published; the condemnation is read next *)
| Gare (i : bool)     (* parked, in the loop around [schedule] *)
| Parque (i : bool)   (* switched out *)
| Mort.

(** Where the killer is in [condamne]. *)
Inductive Tueur :=
| TRepos
| TDecide                                   (* condemnation published; a turn of the loop starts *)
| TVu1 (sur_coeur : bool)
| TVu2 (sur_coeur : bool) (etat : Etat)
| TAgit (a : ActionTueur)
| TFini.

#[export] Instance Tueur_eq_dec : EqDecision Tueur.
Proof. solve_decision. Defined.

Record Monde := mk_monde {
  etat : Etat;
  condamnee : bool;
  sur_coeur : bool;
  attente_interruptible : bool;
  pos : Position;
  tueur : Tueur
}.

Definition initial : Monde := mk_monde Pret false true false Marche TRepos.

Definition set_tueur (m : Monde) (t : Tueur) : Monde :=
  mk_monde (etat m) (condamnee m) (sur_coeur m) (attente_interruptible m) (pos m) t.
Definition set_etat (m : Monde) (e : Etat) : Monde :=
  mk_monde e (condamnee m) (sur_coeur m) (attente_interruptible m) (pos m) (tueur m).
Definition set_tache (m : Monde) (c i : bool) (p : Position) : Monde :=
  mk_monde (etat m) (condamnee m) c i p (tueur m).

(** [transite]: the compare-and-swap on the expected state. *)
Definition transite (m : Monde) (t : Transition) : Monde * bool :=
  match applique (etat m) t with Some e => (set_etat m e, true) | None => (m, false) end.

(** One atomic access of the task. *)
Inductive pas_tache (m : Monde) : Monde -> Prop :=
| t_pose i : pos m = Marche ->
    pas_tache m (set_tache m (sur_coeur m) i (Pose i))
| t_endort i : pos m = Pose i ->
    pas_tache m (match transite m Endort with
                 | (m, true) => set_tache m (sur_coeur m) (attente_interruptible m) (Relit i)
                 | (m, false) => set_tache m (sur_coeur m) false Marche
                 end)
| t_relit i : pos m = Relit i ->
    pas_tache m (if meurt_au_parking (condamnee m) i
                 then set_tache (set_etat m Zombie) (sur_coeur m) (attente_interruptible m) Mort
                 else set_tache m (sur_coeur m) (attente_interruptible m) (Gare i))
| t_annule i : pos m = Gare i ->
    (* the queue was notified before the task slept *)
    pas_tache m (set_tache (transite m Reveille).1 (sur_coeur m) false Marche)
| t_commute i : pos m = Gare i -> etat m = Bloque ->
    pas_tache m (set_tache m false (attente_interruptible m) (Parque i))
| t_elue i : pos m = Parque i -> etat m = Pret ->
    pas_tache m (set_tache m true (attente_interruptible m) (Gare i))
| t_reprend i : pos m = Gare i -> etat m <> Bloque ->
    pas_tache m (set_tache m (sur_coeur m) false Marche)
| t_frontiere : pos m = Marche -> condamnee m = true ->
    pas_tache m (set_tache (set_etat m Zombie) (sur_coeur m) (attente_interruptible m) Mort).

(** One atomic access of the killer. *)
Inductive pas_tueur (m : Monde) : Monde -> Prop :=
| k_condamne : tueur m = TRepos ->
    pas_tueur m (mk_monde (etat m) true (sur_coeur m) (attente_interruptible m) (pos m) TDecide)
| k_coeur : tueur m = TDecide -> pas_tueur m (set_tueur m (TVu1 (sur_coeur m)))
| k_etat s : tueur m = TVu1 s -> pas_tueur m (set_tueur m (TVu2 s (etat m)))
| k_interruptible s e : tueur m = TVu2 s e ->
    pas_tueur m (set_tueur m (TAgit (action_tueur (mk_vue e s (attente_interruptible m)))))
| k_rend a : tueur m = TAgit a -> a = Rien \/ a = Frontiere \/ a = AttendSonEvenement ->
    pas_tueur m (set_tueur m TFini)
| k_tue : tueur m = TAgit TueSurPlace ->
    pas_tueur m (match transite m TueParquee with
                 | (m, true) => set_tueur m TFini
                 | (m, false) => set_tueur m TDecide
                 end)
| k_reveille : tueur m = TAgit AReveiller ->
    pas_tueur m (match transite m Reveille with
                 | (m, true) => set_tueur m TFini
                 | (m, false) => set_tueur m TDecide
                 end).

Inductive pas_monde (m : Monde) : Monde -> Prop :=
| p_tache m' : pas_tache m m' -> pas_monde m m'
| p_tueur m' : pas_tueur m m' -> pas_monde m m'
| p_reveilleur : pas_monde m (transite m Reveille).1.

Inductive atteint : Monde -> Prop :=
| a_debut : atteint initial
| a_pas m m' : atteint m -> pas_monde m m' -> atteint m'.

(** ** Proofs *)

(** The condemnation is set once the killer has started, the interruptibility is that of
    the wait in progress, and a killer that finds the task parked in an interruptible wait
    is about to end that wait. *)
Record Inv (m : Monde) : Prop := {
  i_condamnee : condamnee m = negb (bool_decide (tueur m = TRepos));
  i_interruptible i : pos m = Pose i \/ pos m = Relit i \/ pos m = Gare i \/ pos m = Parque i ->
    attente_interruptible m = i;
  i_gare : pos m = Gare true \/ pos m = Parque true -> etat m = Bloque ->
    match tueur m with
    | TVu2 _ e => e = Bloque
    | TAgit a => a = TueSurPlace \/ a = AReveiller
    | TFini => False
    | _ => True
    end
}.

Lemma inv_initial : Inv initial.
Proof. split; simpl; [done|naive_solver|naive_solver]. Qed.

(** The three fields of [Inv] after a step on explicit states. *)
Ltac inv_champs Hi Hg :=
  split; cbn;
  [ try done
  | let j := fresh in let Hj := fresh in
    intros j Hj; destruct Hj as [Hj|[Hj|[Hj|Hj]]]; simplify_eq; try done;
    first [exact (Hi _ (or_introl eq_refl)) | exact (Hi _ (or_intror (or_introl eq_refl)))
          | exact (Hi _ (or_intror (or_intror (or_introl eq_refl))))
          | exact (Hi _ (or_intror (or_intror (or_intror eq_refl)))) ]
  | let Hj := fresh in let He := fresh in
    intros Hj He; destruct Hj as [Hj|Hj]; simplify_eq; try done;
    try first [exact (Hg (or_introl eq_refl) eq_refl) | exact (Hg (or_intror eq_refl) eq_refl)] ].

Lemma inv_pas m m' : Inv m -> pas_monde m m' -> Inv m'.
Proof.
  destruct m as [e c s a p k]. intros [Hc Hi Hg] Hp. cbn in Hc, Hi, Hg.
  destruct Hp as [m' Hp|m' Hp|].
  - destruct Hp as [i E|i E|i E|i E|i E E'|i E E'|i E E'|E E']; cbn in *; subst p;
      try subst e; unfold transite, meurt_au_parking; cbn;
      try (destruct e; cbn); try (destruct c, i; cbn); inv_champs Hi Hg.
    all: symmetry in Hc; apply negb_false_iff, bool_decide_eq_true in Hc; by subst.
  - destruct Hp as [E|E|t E|t e' E|x E Hx|E|E]; cbn in *; subst k; unfold transite; cbn;
      try (destruct e; cbn); destruct p as [| | |[]|[]|]; inv_champs Hi Hg.
    all: try (rewrite (Hi true) by tauto); try (destruct e'; done).
    all: try (specialize (Hg ltac:(tauto) eq_refl); subst; destruct t; cbn; tauto).
    all: destruct (Hg ltac:(tauto) eq_refl); subst; destruct Hx as [?|[?|?]]; done.
  - unfold transite; cbn. destruct e; cbn; inv_champs Hi Hg.
Qed.

Lemma vie_atteint_inv m : atteint m -> Inv m.
Proof. induction 1; [apply inv_initial|by eapply inv_pas]. Qed.

(** C21. A condemnation is never lost: once the killer is done, the task is not asleep in an
    interruptible wait, whatever the interleaving of the parking, the killer and the
    wakers; and no step ever takes a task out of the state [Zombie]. *)
Theorem condamnation_jamais_perdue m :
  atteint m ->
  (tueur m = TFini -> etat m = Bloque -> pos m <> Gare true /\ pos m <> Parque true)
  /\ (etat m = Zombie -> forall m', pas_monde m m' -> etat m' = Zombie).
Proof.
  intros Ha. pose proof (vie_atteint_inv m Ha) as [_ _ Hg]. split.
  - intros Hk He. split; intros Hp; specialize (Hg ltac:(tauto) He); by rewrite Hk in Hg.
  - intros He m' Hp. destruct m as [e c s a p k]. cbn in He. subst e.
    destruct Hp as [m' [i E|i E|i E|i E|i E E'|i E E'|i E E'|E E']|m' [E|E|t E|t e' E|x E Hx|E|E]|];
      cbn in *; try done; by destruct (meurt_au_parking _ _).
Qed.


Lemma avance m m' m'' : atteint m -> pas_monde m m' -> m' = m'' -> atteint m''.
Proof. intros H1 H2 <-. by eapply a_pas. Qed.

(** [H : atteint m] replaced by [atteint m''], one step [s] further. *)
Ltac va H s m2 :=
  let H' := fresh in
  pose proof (avance _ _ m2 H s eq_refl) as H'; clear H; rename H' into H.

(** The task parked in an interruptible wait, the killer about to kill it. *)
Lemma vise_atteint : atteint (mk_monde Bloque true false true (Parque true) (TAgit TueSurPlace)).
Proof.
  pose proof a_debut as H.
  va H (p_tache _ _ (t_pose initial true eq_refl)) (mk_monde Pret false true true (Pose true) TRepos).
  va H (p_tache _ _ (t_endort (mk_monde Pret false true true (Pose true) TRepos) true eq_refl))
    (mk_monde Bloque false true true (Relit true) TRepos).
  va H (p_tache _ _ (t_relit (mk_monde Bloque false true true (Relit true) TRepos) true eq_refl))
    (mk_monde Bloque false true true (Gare true) TRepos).
  va H (p_tache _ _ (t_commute (mk_monde Bloque false true true (Gare true) TRepos) true eq_refl eq_refl))
    (mk_monde Bloque false false true (Parque true) TRepos).
  va H (p_tueur _ _ (k_condamne (mk_monde Bloque false false true (Parque true) TRepos) eq_refl))
    (mk_monde Bloque true false true (Parque true) TDecide).
  va H (p_tueur _ _ (k_coeur (mk_monde Bloque true false true (Parque true) TDecide) eq_refl))
    (mk_monde Bloque true false true (Parque true) (TVu1 false)).
  va H (p_tueur _ _ (k_etat (mk_monde Bloque true false true (Parque true) (TVu1 false)) false eq_refl))
    (mk_monde Bloque true false true (Parque true) (TVu2 false Bloque)).
  exact (avance _ _ _ H (p_tueur _ _ (k_interruptible
    (mk_monde Bloque true false true (Parque true) (TVu2 false Bloque)) false Bloque eq_refl)) eq_refl).
Qed.

(** The killer's compare-and-swap cannot tell two waits apart: it may find the task
    parked in an interruptible wait and, delayed, kill it in the next one, not
    interruptible, where it may hold a kernel resource. *)
Theorem tueur_aba :
  exists m, atteint m /\ etat m = Zombie /\ pos m = Parque false
    /\ attente_interruptible m = false /\ tueur m = TFini.
Proof.
  exists (mk_monde Zombie true false false (Parque false) TFini). split; [|done].
  pose proof vise_atteint as H. set (k := TAgit TueSurPlace) in *.
  va H (p_reveilleur (mk_monde Bloque true false true (Parque true) k))
    (mk_monde Pret true false true (Parque true) k).
  va H (p_tache _ _ (t_elue (mk_monde Pret true false true (Parque true) k) true eq_refl eq_refl))
    (mk_monde Pret true true true (Gare true) k).
  va H (p_tache _ _ (t_reprend (mk_monde Pret true true true (Gare true) k) true eq_refl ltac:(done)))
    (mk_monde Pret true true false Marche k).
  va H (p_tache _ _ (t_pose (mk_monde Pret true true false Marche k) false eq_refl))
    (mk_monde Pret true true false (Pose false) k).
  va H (p_tache _ _ (t_endort (mk_monde Pret true true false (Pose false) k) false eq_refl))
    (mk_monde Bloque true true false (Relit false) k).
  va H (p_tache _ _ (t_relit (mk_monde Bloque true true false (Relit false) k) false eq_refl))
    (mk_monde Bloque true true false (Gare false) k).
  va H (p_tache _ _ (t_commute (mk_monde Bloque true true false (Gare false) k) false eq_refl eq_refl))
    (mk_monde Bloque true false false (Parque false) k).
  exact (avance _ _ _ H (p_tueur _ _ (k_tue (mk_monde Bloque true false false (Parque false) k)
    eq_refl)) eq_refl).
Qed.

Definition tuee : Monde := mk_monde Zombie true false true (Parque true) TFini.
Lemma tuee_atteinte : atteint tuee.
Proof.
  exact (avance _ _ _ vise_atteint (p_tueur _ _ (k_tue
    (mk_monde Bloque true false true (Parque true) (TAgit TueSurPlace)) eq_refl)) eq_refl).
Qed.

Lemma condamnation_jamais_perdue_witness :
  tueur tuee = TFini /\ etat (transite tuee Reveille).1 = Zombie.
Proof.
  split; [reflexivity|].
  apply (condamnation_jamais_perdue tuee tuee_atteinte); [reflexivity|apply p_reveilleur].
Defined.

End CycleVie.
