(* ===== verification/FileAttente.v ===== *)
(** Wait queues and the sleeping mutex: the parking protocol of
    [src/kernel/sync/rendezvous.rs] as the queues of [src/kernel/sync/wait_queue/] run it
    with the parking and waking of [src/kernel/process/thread/blocage.rs], and the mutex of
    [src/kernel/sync/sleep_mutex.rs] on top of one. Every atomic access is a step; any
    number of tasks interleave, and tasks are born, die and are woken by others (signals,
    deadlines) at any point. *)

From S2P Require Import Prelude CycleVie.

Module FileAttente.
Import CycleVie(Etat, Pret, Bloque, Zombie, applique, Endort, Reveille).
Open Scope Z_scope.

(** ** The rendezvous *)

(** [Rendezvous]: a generation that only grows and a count of registered sleepers. Readers
    see the generation through a 64-bit word. *)
Record Rendezvous := mk_rdv { generation : Z; dormeurs : Z }.
Definition neuf : Rendezvous := mk_rdv 1 0.
Definition ticket (r : Rendezvous) : Z := generation r mod 2 ^ 64.
Definition inscrit (r : Rendezvous) : Rendezvous := mk_rdv (generation r) (dormeurs r + 1).
Definition desinscrit (r : Rendezvous) : Rendezvous := mk_rdv (generation r) (dormeurs r - 1).
Definition signale_seul (r : Rendezvous) : Rendezvous := mk_rdv (generation r + 1) (dormeurs r).

(** ** Tasks *)

(** Who waits: [SleepMutex::lock], which tries again when it returns, or any other caller,
    whose wait may be interruptible. *)
Inductive Suite := DansLock | Libre (interruptible : bool).

(** The bound of a wake-up: [wake_one] or [wake_all]. *)
Inductive Limite := Un | Tous.
Definition atteinte (l : Limite) (woke : nat) : bool :=
  match l with Un => (woke =? 1)%nat | Tous => false end.

Inductive Pc :=
| Dehors                              (* in none of the code below *)
(* [SleepMutex::lock] *)
| L_cas | L_ticket | L_verrou (tk : Z) | Tient
(* a caller that took a ticket and looks at its condition *)
| E_condition (tk : Z) (i : bool)
(* [attend], [attend_dans_tache] *)
| A_entre (tk : Z) (s : Suite) | A_tache (tk : Z) (s : Suite) | A_inscrit (tk : Z) (s : Suite)
(* [prepare_park_current_on_detached], [publie_parking] *)
| A_cle (tk : Z) (s : Suite) | A_publie (tk : Z) (s : Suite) | A_condamne (tk : Z) (s : Suite)
| A_meurt | A_meurt_desinscrit
(* the last reading of the generation, [annule_park_courant], [finish_park_...] *)
| A_relit (tk : Z) (s : Suite) | A_annule (s : Suite) | A_dort (tk : Z) (s : Suite)
| A_efface (s : Suite) | A_desinscrit (s : Suite)
(* [wake_one], [wake_all] and [wake_wait_queue] *)
| U_signale (l : Limite) | U_compte (l : Limite) | U_longueur (l : Limite)
| U_cherche (l : Limite) (i n woke : nat) | U_reveille (l : Limite) (i n woke : nat)
(* parked on another queue *)
| O_publie | O_dort | O_efface
| Mort.

Record Tache := mk_tache { etat : Etat; wait_queue_key : Z; pc : Pc }.

(** The mutex, its queue and the registry of tasks; [gen_tous] is the last generation a
    [wake_all] published, a value no code reads. *)
Record Monde := mk_monde {
  locked : bool;
  point : Rendezvous;
  gen_tous : Z;
  taches : list Tache
}.
Definition initial : Monde := mk_monde false neuf 0 [].

Definition avec_pc (p : Pc) (x : Tache) : Tache := mk_tache (etat x) (wait_queue_key x) p.
Definition avec_etat (e : Etat) (x : Tache) : Tache := mk_tache e (wait_queue_key x) (pc x).
Definition avec_cle (k : Z) (x : Tache) : Tache := mk_tache (etat x) k (pc x).
Definition pose (t : nat) (x : Tache) (m : Monde) : Monde :=
  mk_monde (locked m) (point m) (gen_tous m) (<[t := x]> (taches m)).
Definition avec_point (f : Rendezvous -> Rendezvous) (m : Monde) : Monde :=
  mk_monde (locked m) (f (point m)) (gen_tous m) (taches m).
Definition avec_locked (b : bool) (m : Monde) : Monde :=
  mk_monde b (point m) (gen_tous m) (taches m).
Definition note_tous (l : Limite) (m : Monde) : Monde :=
  match l with
  | Un => m
  | Tous => mk_monde (locked m) (point m) (generation (point m)) (taches m)
  end.

(** [state.reveille()] and [state.endort()]: the compare-and-swap, and whether it won. *)
Definition reveille (e : Etat) : Etat * bool :=
  match applique e Reveille with Some e' => (e', true) | None => (e, false) end.
Definition endort (e : Etat) : Etat * bool :=
  match applique e Endort with Some e' => (e', true) | None => (e, false) end.

(** What follows the wait. *)
Definition retour (s : Suite) : Pc := match s with DansLock => L_cas | Libre _ => Dehors end.

Section Pas.
(** The address of the queue, and whether it belongs to a mutex. *)
Context (Q : Z) (prive : bool).

(** ** The steps *)

(** The next access of task [t], whose record is [x], that changes only where it stands. *)
Definition va (t : nat) (x : Tache) (p : Pc) (m : Monde) : option Monde :=
  Some (pose t (avec_pc p x) m).

(** [SleepMutex::lock] and the drop of its guard. *)
Definition avance_lock (t : nat) (x : Tache) (m : Monde) : option Monde :=
  match pc x with
  | L_cas => if locked m then va t x L_ticket m else va t x Tient (avec_locked true m)
  | L_ticket => va t x (L_verrou (ticket (point m))) m
  | L_verrou tk => if locked m then va t x (A_entre tk DansLock) m else va t x L_cas m
  | Tient => va t x (U_signale Un) (avec_locked false m)
  | _ => None
  end.

(** [attend] and [attend_dans_tache]. *)
Definition avance_attend (t : nat) (x : Tache) (m : Monde) : option Monde :=
  match pc x with
  | A_entre tk s =>
      if negb (ticket (point m) =? tk) then va t x (retour s) m else va t x (A_tache tk s) m
  | A_tache tk s =>
      if negb (ticket (point m) =? tk) then va t x (retour s) m else va t x (A_inscrit tk s) m
  | A_inscrit tk s => va t x (A_cle tk s) (avec_point inscrit m)
  | A_relit tk s =>
      if negb (ticket (point m) =? tk) then va t x (A_annule s) m else va t x (A_dort tk s) m
  | A_desinscrit s => va t x (retour s) (avec_point desinscrit m)
  | A_meurt_desinscrit =>
      Some (pose t (avec_pc Mort (avec_etat Zombie x)) (avec_point desinscrit m))
  | _ => None
  end.

(** [prepare_park_current_on_detached] with [publie_parking]. *)
Definition avance_parking (t : nat) (x : Tache) (m : Monde) : option Monde :=
  match pc x with
  | A_cle tk s => Some (pose t (avec_pc (A_publie tk s) (avec_cle Q x)) m)
  | A_publie tk s =>
      let '(e, ok) := endort (etat x) in
      Some (pose t (avec_pc (if ok then A_condamne tk s else A_efface s) (avec_etat e x)) m)
  | A_condamne tk s => va t x (A_relit tk s) m
  | A_meurt => Some (pose t (avec_pc A_meurt_desinscrit (avec_cle 0 x)) m)
  | _ => None
  end.

(** [annule_park_courant] and [finish_park_current_on_detached]. *)
Definition avance_fin (t : nat) (x : Tache) (m : Monde) : option Monde :=
  match pc x with
  | A_annule s => Some (pose t (avec_pc (A_efface s) (avec_etat (reveille (etat x)).1 x)) m)
  | A_dort tk s =>
      match etat x with Bloque => None | _ => va t x (A_efface s) m end
  | A_efface s => Some (pose t (avec_pc (A_desinscrit s) (avec_cle 0 x)) m)
  | _ => None
  end.

(** [wake_one] and [wake_all]. *)
Definition avance_signale (t : nat) (x : Tache) (m : Monde) : option Monde :=
  match pc x with
  | U_signale l => va t x (U_compte l) (note_tous l (avec_point signale_seul m))
  | U_compte l => if dormeurs (point m) =? 0 then va t x Dehors m else va t x (U_longueur l) m
  | _ => None
  end.

(** [wake_wait_queue]. *)
Definition avance_cherche (t : nat) (x : Tache) (m : Monde) : option Monde :=
  match pc x with
  | U_longueur l => va t x (U_cherche l 0 (length (taches m)) 0) m
  | U_cherche l i n woke =>
      if (n <=? i)%nat || atteinte l woke then va t x Dehors m
      else match taches m !! i with
           | Some y =>
               if wait_queue_key y =? Q then va t x (U_reveille l i n woke) m
               else va t x (U_cherche l (S i) n woke) m
           | None => va t x (U_cherche l (S i) n woke) m
           end
  | U_reveille l i n woke =>
      match taches m !! i with
      | Some y =>
          let '(e, ok) := reveille (etat y) in
          let m := pose i (avec_etat e y) m in
          match taches m !! t with
          | Some x => Some (pose t (avec_pc (U_cherche l (S i) n
                              (if ok then S woke else woke)) x) m)
          | None => None
          end
      | None => None
      end
  | _ => None
  end.

(** [park_current_on], on another queue. *)
Definition avance_ailleurs (t : nat) (x : Tache) (m : Monde) : option Monde :=
  match pc x with
  | O_publie =>
      let '(e, ok) := endort (etat x) in
      Some (pose t (avec_pc (if ok then O_dort else O_efface) (avec_etat e x)) m)
  | O_dort => match etat x with Bloque => None | _ => va t x O_efface m end
  | O_efface => Some (pose t (avec_pc Dehors (avec_cle 0 x)) m)
  | _ => None
  end.

(** The next atomic access of task [t], where the code leaves no choice. *)
Definition avance (t : nat) (x : Tache) (m : Monde) : option Monde :=
  match pc x with
  | L_cas | L_ticket | L_verrou _ | Tient => avance_lock t x m
  | A_entre _ _ | A_tache _ _ | A_inscrit _ _ | A_relit _ _ | A_desinscrit _
  | A_meurt_desinscrit => avance_attend t x m
  | A_cle _ _ | A_publie _ _ | A_condamne _ _ | A_meurt => avance_parking t x m
  | A_annule _ | A_dort _ _ | A_efface _ => avance_fin t x m
  | U_signale _ | U_compte _ => avance_signale t x m
  | U_longueur _ | U_cherche _ _ _ _ | U_reveille _ _ _ _ => avance_cherche t x m
  | O_publie | O_dort | O_efface => avance_ailleurs t x m
  | Dehors | E_condition _ _ | Mort => None
  end.

(** What a task may start, and what others may do to it. *)
Inductive Action :=
| Avance
| Verrouille | Essaie                   (* [lock], [try_lock] *)
| Ticket (i : bool) | Attend | Renonce  (* take a ticket; then wait, or not *)
| Signale (l : Limite)                  (* [wake_one], [wake_all] *)
| Part (k : Z)                          (* park on another queue *)
| Condamnee                             (* the condemnation is seen in [publie_parking] *)
| Secoue                                (* a signal, a deadline: [state.reveille()] *)
| Tue                                   (* killed while parked in an interruptible wait *)
| Meurt | Nait.

(** The queue of a mutex has no other user. *)
Definition pas (a : Action) (t : nat) (m : Monde) : option Monde :=
  match a, taches m !! t with
  | Nait, None =>
      if (t =? length (taches m))%nat
      then Some (mk_monde (locked m) (point m) (gen_tous m)
                   (taches m ++ [mk_tache Pret 0 Dehors]))
      else None
  | Nait, Some x =>
      match pc x with Mort => Some (pose t (mk_tache Pret 0 Dehors) m) | _ => None end
  | _, None => None
  | Avance, Some x => avance t x m
  | Secoue, Some x => Some (pose t (avec_etat (reveille (etat x)).1 x) m)
  | Verrouille, Some x =>
      match pc x with Dehors => Some (pose t (avec_pc L_cas x) m) | _ => None end
  | Essaie, Some x =>
      match pc x with
      | Dehors => if locked m then Some m else Some (pose t (avec_pc Tient x) (avec_locked true m))
      | _ => None
      end
  | Ticket i, Some x =>
      match pc x with
      | Dehors => if prive then None
                  else Some (pose t (avec_pc (E_condition (ticket (point m)) i) x) m)
      | _ => None
      end
  | Attend, Some x =>
      match pc x with
      | E_condition tk i => Some (pose t (avec_pc (A_entre tk (Libre i)) x) m)
      | _ => None
      end
  | Renonce, Some x =>
      match pc x with
      | E_condition tk i => Some (pose t (avec_pc Dehors x) m)
      | _ => None
      end
  | Signale l, Some x =>
      match pc x with
      | Dehors => if prive then None else Some (pose t (avec_pc (U_signale l) x) m)
      | _ => None
      end
  | Part k, Some x =>
      match pc x with
      | Dehors => if k =? Q then None else Some (pose t (avec_pc O_publie (avec_cle k x)) m)
      | _ => None
      end
  | Condamnee, Some x =>
      match pc x with
      | A_condamne tk (Libre true) => Some (pose t (avec_pc A_meurt x) m)
      | _ => None
      end
  | Tue, Some x =>
      match pc x, etat x with
      | A_dort _ (Libre true), Bloque | O_dort, Bloque =>
          Some (pose t (avec_pc Mort (avec_etat Zombie x)) m)
      | _, _ => None
      end
  | Meurt, Some x =>
      match pc x with
      | Dehors => Some (pose t (avec_pc Mort (avec_etat Zombie x)) m)
      | _ => None
      end
  end.

Inductive atteint : Monde -> Prop :=
| atteint_debut : atteint initial
| atteint_pas a t m m' : atteint m -> pas a t m = Some m' -> atteint m'.

Fixpoint execute (l : list (Action * nat)) (m : Monde) : option Monde :=
  match l with
  | [] => Some m
  | (a, t) :: l => match pas a t m with Some m => execute l m | None => None end
  end.

Lemma execute_atteint l m m' : atteint m -> execute l m = Some m' -> atteint m'.
Proof.
  revert m. induction l as [|[a t] l IH]; intros m Hm; simpl; [by intros [= <-]|].
  destruct (pas a t m) eqn:E; [|done]. intros. eapply IH; [|done]. by econstructor.
Qed.
End Pas.
End FileAttente.
