(* ===== verification/FileAttenteProofs.v ===== *)
(** Proofs on wait queues: the invariant of every interleaving, that no [wake_all] is lost,
    that the sleeping mutex excludes and never leaves a sleeper behind a free lock. *)

From S2P Require Import Prelude CycleVie FileAttente.

Module FileAttenteProofs.
Import CycleVie(Etat, Pret, Bloque, Zombie, applique, Endort, Reveille).
#[local] Existing Instance CycleVie.Etat_eq_dec.
Import FileAttente.
Open Scope Z_scope.

(** ** Counting tasks *)

Fixpoint compte (f : Pc -> bool) (l : list Tache) : Z :=
  match l with [] => 0 | x :: l => Z.b2z (f (pc x)) + compte f l end.

Lemma compte_insert f l t x y :
  l !! t = Some x ->
  compte f (<[t := y]> l) = compte f l + Z.b2z (f (pc y)) - Z.b2z (f (pc x)).
Proof.
  revert t. induction l as [|z l IH]; intros [|t] H; simplify_eq/=; [lia|].
  rewrite (IH t) by done. lia.
Qed.
Lemma compte_app f l x : compte f (l ++ [x]) = compte f l + Z.b2z (f (pc x)).
Proof. induction l as [|z l IH]; simpl; lia. Qed.
Lemma compte_pos f l : 0 <= compte f l.
Proof. induction l as [|z l IH]; simpl; [lia|]. destruct (f (pc z)); simpl; lia. Qed.
Lemma compte_trouve f l t x : l !! t = Some x -> f (pc x) = true -> 1 <= compte f l.
Proof.
  revert t. induction l as [|z l IH]; intros [|t] H Hf; simplify_eq/=.
  - rewrite Hf. pose proof (compte_pos f l). simpl. lia.
  - specialize (IH t H Hf). destruct (f (pc z)); simpl; lia.
Qed.
Lemma compte_unique f l t u x y :
  compte f l <= 1 -> l !! t = Some x -> l !! u = Some y ->
  f (pc x) = true -> f (pc y) = true -> t = u.
Proof.
  revert t u. induction l as [|z l IH]; intros [|t] [|u] Hc Ht Hu Hx Hy; simplify_eq/=; [done| | |].
  - pose proof (compte_trouve f l u y Hu Hy). rewrite Hx in Hc. simpl in Hc. lia.
  - pose proof (compte_trouve f l t x Ht Hx). rewrite Hy in Hc. simpl in Hc. lia.
  - f_equal. apply IH; auto. destruct (f (pc z)); simpl in Hc; lia.
Qed.

(** ** Case analysis of a step *)

(** Opens the definition of an access. *)
Ltac deplie :=
  unfold avance, avance_lock, avance_attend, avance_parking, avance_fin, avance_signale,
    avance_cherche, avance_ailleurs, va.
Ltac deplie_in H :=
  unfold avance, avance_lock, avance_attend, avance_parking, avance_fin, avance_signale,
    avance_cherche, avance_ailleurs, va in H.
Ltac cas_pas Hp :=
  repeat match type of Hp with
       | context [if ?b then _ else _] => destruct b eqn:?
       | context [match ?x with _ => _ end] => destruct x eqn:?
       | context [let '(_, _) := ?x in _] => destruct x eqn:?
       end; simplify_eq.

(** ** The invariant of every interleaving *)

(** The ticket a task holds. *)
Definition ticket_de (p : Pc) : option Z :=
  match p with
  | L_verrou tk | E_condition tk _ | A_entre tk _ | A_tache tk _ | A_inscrit tk _ | A_cle tk _
  | A_publie tk _ | A_condamne tk _ | A_relit tk _ | A_dort tk _ => Some tk
  | _ => None
  end.
(** The code during which the key of the task is that of the queue. *)
Definition cle_posee (p : Pc) : bool :=
  match p with
  | A_publie _ _ | A_condamne _ _ | A_meurt | A_relit _ _ | A_annule _ | A_dort _ _
  | A_efface _ => true
  | _ => false
  end.
(** The code during which the task counts among the sleepers. *)
Definition est_inscrit (p : Pc) : bool :=
  match p with
  | A_cle _ _ | A_meurt_desinscrit | A_desinscrit _ => true
  | p => cle_posee p
  end.
Definition tient (p : Pc) : bool := match p with Tient => true | _ => false end.
(** What the code of a private queue reaches. *)
Definition du_verrou (p : Pc) : bool :=
  match p with
  | A_entre _ s | A_tache _ s | A_inscrit _ s | A_cle _ s | A_publie _ s | A_condamne _ s
  | A_relit _ s | A_annule s | A_dort _ s | A_efface s | A_desinscrit s =>
      match s with DansLock => true | _ => false end
  | U_signale l | U_compte l | U_longueur l | U_cherche l _ _ _ | U_reveille l _ _ _ =>
      match l with Un => true | _ => false end
  | E_condition _ _ | A_meurt | A_meurt_desinscrit => false
  | _ => true
  end.

Section Inv.
Context (Q : Z) (prive : bool) (HQ : Q <> 0).

Record Locale (g : Z) (x : Tache) : Prop := {
  l_cle : cle_posee (pc x) = true -> wait_queue_key x = Q;
  l_posee : wait_queue_key x = Q -> cle_posee (pc x) = true \/ (prive = false /\ pc x = Mort);
  l_ticket tk : ticket_de (pc x) = Some tk -> tk <= g;
  l_prive : prive = true -> du_verrou (pc x) = true
}.

Record Inv (m : Monde) : Prop := {
  i_locale t x : taches m !! t = Some x -> Locale (generation (point m)) x;
  i_gen : 1 <= generation (point m);
  i_tous : 0 <= gen_tous m <= generation (point m);
  i_compte : compte est_inscrit (taches m) <= dormeurs (point m);
  i_tient : compte tient (taches m) = Z.b2z (locked m)
}.

Lemma locale_mono g g' x : g <= g' -> Locale g x -> Locale g' x.
Proof. intros Hg [H1 H2 H3 H4]. split; auto. intros tk Htk. specialize (H3 tk Htk). lia. Qed.

(** A step that changes one task, and the shared words. *)
Lemma inv_pose m t x y b p g :
  Inv m -> taches m !! t = Some x -> Locale (generation p) y ->
  generation (point m) <= generation p -> 0 <= g <= generation p ->
  Z.b2z (est_inscrit (pc y)) - Z.b2z (est_inscrit (pc x)) <= dormeurs p - dormeurs (point m) ->
  Z.b2z (tient (pc y)) - Z.b2z (tient (pc x)) = Z.b2z b - Z.b2z (locked m) ->
  Inv (mk_monde b p g (<[t := y]> (taches m))).
Proof.
  intros [H1 H2 H3 H4 H5] Ht Hy Hg Hg' Hd Hb. split; cbn; [|lia|done| |].
  - intros i z Hi. apply list_lookup_insert_Some in Hi as [(-> & <- & _)|[Hn Hi]]; [done|].
    eapply locale_mono; [exact Hg|eauto].
  - rewrite (compte_insert _ _ _ x) by done. lia.
  - rewrite (compte_insert _ _ _ x) by done. lia.
Qed.

(** A step that changes nothing but the state of one task. *)
Lemma inv_etat m t x e :
  Inv m -> taches m !! t = Some x -> Inv (pose t (avec_etat e x) m).
Proof.
  intros HI Ht. destruct (i_locale _ HI _ _ Ht) as [H1 H2 H3 H4]. pose proof (i_tous _ HI).
  apply inv_pose with (x := x); [done|done|by split|done|done|cbn; lia|cbn; lia].
Qed.

Lemma inv_debut : Inv initial.
Proof. split; cbn; [by intros [|]|lia|lia|lia|done]. Qed.

Lemma ticket_lu r : 0 <= generation r -> ticket r <= generation r.
Proof. intros H. unfold ticket. by apply Z.mod_le. Qed.
Lemma ticket_exact r : 0 <= generation r < 2 ^ 64 -> ticket r = generation r.
Proof. intros H. unfold ticket. by apply Z.mod_small. Qed.

(** The conditions of [inv_pose] on explicit tasks. *)
Ltac conditions H2 H3 :=
  cbn in *; try done; try lia;
  try (intros; match goal with H : ?k = Q |- _ =>
         first [ by destruct (H2 H) as [?|[? ?]] | exfalso; apply HQ; congruence ] end);
  try (intros ? [= <-]); try lia; try (apply ticket_lu; lia); try (by apply H3);
  try congruence.
Ltac pose_inv HI Ht HL :=
  let H1 := fresh in let H2 := fresh in let H3 := fresh in let H4 := fresh in
  let Hg := fresh in let Hn := fresh in
  destruct HL as [H1 H2 H3 H4]; cbn in H1, H2, H3, H4;
  pose proof (i_gen _ HI) as Hg; pose proof (i_tous _ HI) as Hn;
  unfold note_tous, pose, avec_locked, avec_point, avec_pc, avec_cle, avec_etat, inscrit,
    desinscrit, signale_seul; cbn [locked point gen_tous taches etat wait_queue_key pc];
  eapply inv_pose; [exact HI|exact Ht|split|..]; conditions H2 H3.

(** The state of another task does not move this one. *)
Lemma pose_etat_pc m t i x y z e :
  taches m !! t = Some x -> taches m !! i = Some y ->
  taches (pose i (avec_etat e y) m) !! t = Some z -> pc z = pc x.
Proof.
  intros Ht Hi Hz. cbn in Hz.
  apply list_lookup_insert_Some in Hz as [(-> & <- & _)|[_ Hz]]; cbn; congruence.
Qed.

Lemma inv_reveille m t i k e y e' z l n w w' :
  Inv m -> taches m !! t = Some (mk_tache e k (U_reveille l i n w)) -> taches m !! i = Some y ->
  taches (pose i (avec_etat e' y) m) !! t = Some z ->
  Inv (pose t (avec_pc (U_cherche l (S i) n w') z) (pose i (avec_etat e' y) m)).
Proof.
  intros HI Ht Hi Hz. pose proof (pose_etat_pc _ _ _ _ _ _ _ Ht Hi Hz) as Hpc.
  pose proof (inv_etat _ _ _ e' HI Hi) as HI'. pose proof (i_locale _ HI' _ _ Hz) as HL.
  destruct z as [ez kz pz]. cbn in Hpc. subst pz. clear HI Ht Hi.
  revert HI' Hz HL. generalize (pose i (avec_etat e' y) m). intros m1 HI Hz HL. pose_inv HI Hz HL.
Qed.

Lemma inv_avance t x m m' :
  Inv m -> taches m !! t = Some x -> avance Q t x m = Some m' -> Inv m'.
Proof.
  intros HI Ht Ha. pose proof (i_locale _ HI _ _ Ht) as HL.
  destruct x as [e k p]. deplie_in Ha. cbn [pc etat] in Ha.
  destruct p; try discriminate.
  all: cas_pas Ha.
  all: try match goal with |- context [retour ?s] => destruct s as [|[]] end.
  all: try match goal with |- context [note_tous ?s] => destruct s end.
  all: try solve [pose_inv HI Ht HL].
  - pose_inv HI Ht HL; match goal with H : locked m = _ |- _ => by rewrite H end.
  - assert (locked m = true) as Hl.
    { pose proof (compte_trouve tient _ _ _ Ht eq_refl). rewrite (i_tient _ HI) in H.
      by destruct (locked m). }
    pose_inv HI Ht HL; by rewrite Hl.
  - eapply inv_reveille; eauto.
  - eapply inv_reveille; eauto.
Qed.

Theorem inv_un_pas a t m m' : Inv m -> pas Q prive a t m = Some m' -> Inv m'.
Proof.
  intros HI Hp. unfold pas in Hp.
  destruct (taches m !! t) as [x|] eqn:Ht.
  2: { destruct a; try done. cas Hp. split; cbn.
       - intros i x Hi. apply lookup_app_Some in Hi as [Hi|[_ Hi]]; [by eapply i_locale|].
         apply list_lookup_singleton_Some in Hi as [_ <-].
         by split.
       - by apply i_gen.
       - by apply i_tous.
       - rewrite compte_app. cbn. pose proof (i_compte _ HI). lia.
       - rewrite compte_app. cbn. pose proof (i_tient _ HI). lia. }
  pose proof (i_locale _ HI _ _ Ht) as HL.
  destruct a; try (by eapply inv_avance); try (simplify_eq; by apply inv_etat).
  all: destruct x as [ex kx p]; cbn [pc etat] in Hp; destruct p; try discriminate.
  all: cas_pas Hp.
  all: try done; try solve [pose_inv HI Ht HL].
  - pose_inv HI Ht HL. match goal with H : locked m = _ |- _ => by rewrite H end.
  - assert (prive = false).
    { apply not_true_is_false. intros Hp. by specialize (l_prive _ _ HL Hp). }
    pose_inv HI Ht HL. intros _. by right.
Qed.

Theorem inv_atteint m : atteint Q prive m -> Inv m.
Proof. induction 1; [apply inv_debut|by eapply inv_un_pas]. Qed.

Lemma pas_generation a t m m' :
  pas Q prive a t m = Some m' -> generation (point m) <= generation (point m').
Proof.
  intros Hp. unfold pas in Hp. destruct (taches m !! t) as [x|] eqn:Ht.
  2: { destruct a; try done. cas_pas Hp. cbn. lia. }
  destruct a; deplie_in Hp; try (destruct x as [ex kx p]; cbn [pc etat] in Hp; destruct p;
    try discriminate); cas_pas Hp; try match goal with l : Limite |- _ => destruct l end; cbn; lia.
Qed.

(** ** No [wake_all] is lost *)

(** A [wake_all] in progress that has not passed task [t]. *)
Definition couvre (p : Pc) (t : nat) : Prop :=
  match p with
  | U_compte Tous | U_longueur Tous => True
  | U_cherche Tous i n _ | U_reveille Tous i n _ => (i <= t < n)%nat
  | _ => False
  end.

(** A task asleep with a ticket older than the last [wake_all]. *)
Definition dort_avec (x : Tache) (tk : Z) : Prop :=
  etat x = Bloque /\ exists s, pc x = A_dort tk s.

Definition InvTous (m : Monde) : Prop :=
  forall t x tk, taches m !! t = Some x -> dort_avec x tk -> tk < gen_tous m ->
  exists u y, taches m !! u = Some y /\ couvre (pc y) t.

Lemma tous_pose m t x y b p :
  InvTous m -> taches m !! t = Some x ->
  (forall tk, dort_avec y tk -> dort_avec x tk \/ gen_tous m <= tk) ->
  (forall i z tk, couvre (pc x) i -> taches m !! i = Some z -> dort_avec z tk ->
     couvre (pc y) i \/ (i = t /\ ~ dort_avec y tk)) ->
  InvTous (mk_monde b p (gen_tous m) (<[t := y]> (taches m))).
Proof.
  intros HI Ht Hy Hc i z tk Hi Hz Hg. cbn in *.
  assert (exists z0, taches m !! i = Some z0 /\ dort_avec z0 tk) as (z0 & Hi0 & Hz0).
  { apply list_lookup_insert_Some in Hi as [(-> & <- & _)|[_ Hi]]; [|eauto].
    destruct (Hy tk Hz) as [|]; [eauto|lia]. }
  destruct (HI i z0 tk Hi0 Hz0 Hg) as (u & w & Hu & Hw).
  destruct (decide (u = t)) as [->|Hn].
  - simplify_eq. destruct (Hc i z0 tk Hw Hi0 Hz0) as [Hcy|[-> Hnz]].
    + exists t, y. split; [|done]. apply list_lookup_insert_eq. by apply lookup_lt_Some in Ht.
    + rewrite list_lookup_insert_eq in Hi by (by apply lookup_lt_Some in Ht). by simplify_eq.
  - exists u, w. split; [|done]. by rewrite list_lookup_insert_ne.
Qed.

(** A task asleep has registered and holds the key of the queue. *)
Lemma dort_inscrit m t x tk :
  Inv m -> taches m !! t = Some x -> dort_avec x tk ->
  wait_queue_key x = Q /\ 1 <= dormeurs (point m).
Proof.
  intros HI Ht [_ [s Hp]]. split.
  - apply (l_cle _ _ (i_locale _ HI _ _ Ht)). by rewrite Hp.
  - pose proof (i_compte _ HI). pose proof (compte_trouve est_inscrit _ _ _ Ht ltac:(by rewrite Hp)).
    lia.
Qed.

Lemma tous_etat m t x :
  InvTous m -> taches m !! t = Some x ->
  InvTous (pose t (avec_etat (reveille (etat x)).1 x) m).
Proof.
  intros HI Ht. apply tous_pose with (x := x); [done|done| |].
  - intros tk [He Hp]. cbn in *. destruct (etat x) eqn:E; cbn in *; simplify_eq.
  - intros i z tk Hc _ _. by left.
Qed.

Lemma tous_reveille m t i x y z l n w w' :
  InvTous m -> taches m !! t = Some x -> pc x = U_reveille l i n w -> taches m !! i = Some y ->
  taches (pose i (avec_etat (reveille (etat y)).1 y) m) !! t = Some z ->
  InvTous (pose t (avec_pc (U_cherche l (S i) n w') z)
             (pose i (avec_etat (reveille (etat y)).1 y) m)).
Proof.
  intros HT Ht Hp Hi Hz. pose proof (pose_etat_pc _ _ _ _ _ _ _ Ht Hi Hz) as Hpc.
  apply (tous_pose (pose i (avec_etat (reveille (etat y)).1 y) m)) with (x := z);
    [by apply tous_etat|done| |].
  - by intros tk [_ [s Hs]].
  - intros j v tk Hc Hj Hv. rewrite Hpc, Hp in Hc. cbn in Hc |- *. left. destruct l; [done|].
    destruct (decide (j = i)) as [->|]; [|lia]. cbn in Hj.
    rewrite list_lookup_insert_eq in Hj by (by apply lookup_lt_Some in Hi). simplify_eq.
    destruct Hv as [He _]. cbn in He. by destruct (etat y).
Qed.

Lemma tous_avance t x m m' :
  Inv m -> InvTous m -> generation (point m) < 2 ^ 64 -> taches m !! t = Some x ->
  avance Q t x m = Some m' -> InvTous m'.
Proof.
  intros HI HT Hg Ht Ha. pose proof (i_gen _ HI). pose proof (i_tous _ HI).
  deplie_in Ha. destruct (pc x) eqn:Hp; try discriminate; cas_pas Ha.
  all: try match goal with |- context [retour ?s] => destruct s end.
  all: try (apply tous_pose with (x := x); [done|done|by intros tk' [_ [s' Hs]]|by rewrite Hp]).
  - (* the last reading of the generation *)
    apply tous_pose with (x := x); [done|done| |by rewrite Hp].
    intros tk' [_ [s' [= <- _]]]. right. bool_prop. rewrite ticket_exact in * by lia. lia.
  - destruct l; cbn.
    + apply tous_pose with (x := x); [done|done|by intros tk' [_ [s' Hs]]|by rewrite Hp].
    + intros i z tk Hi Hz _. exists t, (avec_pc (U_compte Tous) x). split; [|done].
      apply list_lookup_insert_eq. by apply lookup_lt_Some in Ht.
  - apply tous_pose with (x := x); [done|done|by intros tk' [_ [s' Hs]]|].
    intros i z tk _ Hi Hz. destruct (dort_inscrit _ _ _ _ HI Hi Hz). bool_prop. lia.
  - apply tous_pose with (x := x); [done|done|by intros tk' [_ [s' Hs]]|].
    intros i z tk Hc _ _. rewrite Hp in Hc. by left.
  - apply tous_pose with (x := x); [done|done|by intros tk' [_ [s' Hs]]|].
    intros i z tk Hc Hi _. rewrite Hp in Hc. left. destruct l; [done|]. apply lookup_lt_Some in Hi.
    cbn. lia.
  - apply tous_pose with (x := x); [done|done|by intros tk' [_ [s' Hs]]|].
    intros j z tk Hc _ _. rewrite Hp in Hc. destruct l; [done|]. cbn in *.
    rewrite orb_false_r in *. bool_prop. lia.
  - apply tous_pose with (x := x); [done|done|by intros tk' [_ [s' Hs]]|].
    intros j z tk Hc _ _. rewrite Hp in Hc. by left.
  - apply tous_pose with (x := x); [done|done|by intros tk' [_ [s' Hs]]|].
    intros j z tk Hc Hj Hz. rewrite Hp in Hc. left. destruct l; [done|]. cbn in *.
    destruct (dort_inscrit _ _ _ _ HI Hj Hz).
    destruct (decide (i = j)) as [->|]; [|lia]. simplify_eq. by bool_prop.
  - apply tous_pose with (x := x); [done|done|by intros tk' [_ [s' Hs]]|].
    intros j z tk Hc Hj Hz. rewrite Hp in Hc. left. destruct l; [done|]. cbn in *.
    destruct (decide (i = j)) as [->|]; [|lia]. simplify_eq.
  - match goal with H : reveille (etat ?y) = (?e, _) |- _ =>
         replace e with (reveille (etat y)).1 in * by (by rewrite H) end; eapply tous_reveille; eauto.
  - match goal with H : reveille (etat ?y) = (?e, _) |- _ =>
         replace e with (reveille (etat y)).1 in * by (by rewrite H) end; eapply tous_reveille; eauto.
Qed.

Lemma tous_pas a t m m' :
  Inv m -> InvTous m -> generation (point m) < 2 ^ 64 -> pas Q prive a t m = Some m' -> InvTous m'.
Proof.
  intros HI HT Hg Hp. unfold pas in Hp. destruct (taches m !! t) as [x|] eqn:Ht.
  2: { destruct a; try done. cas_pas Hp. intros i x tk Hi Hx Hk. cbn in *.
       apply lookup_app_Some in Hi as [Hi|[_ Hi]].
       - destruct (HT i x tk Hi Hx Hk) as (u & y & Hu & Hy). exists u, y.
         split; [by apply lookup_app_l_Some|done].
       - apply list_lookup_singleton_Some in Hi as [_ <-]. by destruct Hx. }
  destruct a; try (by eapply tous_avance); try (simplify_eq; by apply tous_etat).
  all: destruct (pc x) eqn:Hpc; try discriminate; cas_pas Hp; try done.
  all: apply tous_pose with (x := x); [done|done|by intros tk' [? [s' Hs]]|by rewrite Hpc].
Qed.

Lemma tous_atteint m : atteint Q prive m -> generation (point m) < 2 ^ 64 -> InvTous m.
Proof.
  induction 1 as [|a t m m' Hm IH Hp]; intros Hg; [by intros [|]|].
  pose proof (pas_generation _ _ _ _ Hp). eapply tous_pas; [by apply inv_atteint| |lia|done].
  apply IH. lia.
Qed.

(** Task [u] runs alone for one access. *)
Definition seul (u : nat) (m m' : Monde) : Prop := pas Q prive Avance u m = Some m'.

Lemma seul_avance u y m m' : taches m !! u = Some y -> avance Q u y m = Some m' -> seul u m m'.
Proof. intros Hu Ha. unfold seul, pas. by rewrite Hu. Qed.

(** Changing task [u] to code that is not a sleep leaves the others as they were. *)
Lemma pose_autre m t u x y :
  taches m !! t = Some x -> t <> u -> taches (pose u y m) !! t = Some x.
Proof. intros. cbn. by rewrite list_lookup_insert_ne. Qed.
Lemma pose_soi m u x y : taches m !! u = Some x -> taches (pose u y m) !! u = Some y.
Proof. intros H. apply list_lookup_insert_eq. by apply lookup_lt_Some in H. Qed.

Lemma inv_seul u m m' : Inv m -> rtc (seul u) m m' -> Inv m'.
Proof. intros HI. induction 1; [done|]. eauto using inv_un_pas. Qed.

(** The end of a turn of the search of a [wake_all]: the wake-up of task [i]. *)
Lemma reveille_un m u y i n w v :
  taches m !! u = Some y -> pc y = U_reveille Tous i n w -> taches m !! i = Some v ->
  exists m' y' w', seul u m m' /\ taches m' !! u = Some y' /\
    pc y' = U_cherche Tous (S i) n w' /\
    (forall t, t <> u -> t <> i -> taches m' !! t = taches m !! t) /\
    (i <> u -> etat v = Bloque -> exists z, taches m' !! i = Some z /\ etat z = Pret).
Proof.
  intros Hu Hp Hv. destruct (reveille (etat v)) as [e ok] eqn:Her.
  set (m2 := pose i (avec_etat e v) m).
  assert (exists y2, taches m2 !! u = Some y2) as [y2 Hy2].
  { destruct (decide (i = u)) as [->|]; [eexists; by eapply pose_soi|].
    eexists. apply pose_autre; [exact Hu|done]. }
  set (w2 := if ok then S w else w).
  exists (pose u (avec_pc (U_cherche Tous (S i) n w2) y2) m2), (avec_pc (U_cherche Tous (S i) n w2) y2), w2.
  split_and!; [|by eapply pose_soi|done| |].
  - apply (seul_avance _ _ _ _ Hu). deplie. rewrite Hp, Hv, Her. fold m2. by rewrite Hy2.
  - intros t Htu Hti. cbn. by rewrite !list_lookup_insert_ne.
  - intros Hn Hb. exists (avec_etat e v). split.
    + apply pose_autre; [|done]. by eapply pose_soi.
    + rewrite Hb in Her. cbn in Her. by simplify_eq.
Qed.

(** One turn of the search. *)
Lemma cherche_un m u y i n w v :
  taches m !! u = Some y -> pc y = U_cherche Tous i n w -> (i < n)%nat -> taches m !! i = Some v ->
  exists m' y' w', rtc (seul u) m m' /\ taches m' !! u = Some y' /\
    pc y' = U_cherche Tous (S i) n w' /\
    (forall t, t <> u -> t <> i -> taches m' !! t = taches m !! t) /\
    (i <> u -> wait_queue_key v = Q -> etat v = Bloque ->
       exists z, taches m' !! i = Some z /\ etat z = Pret).
Proof.
  intros Hu Hp Hi Hv.
  assert (forall p, (if wait_queue_key v =? Q then U_reveille Tous i n w else U_cherche Tous (S i) n w) = p ->
    seul u m (pose u (avec_pc p y) m)) as H1.
  { intros p <-. apply (seul_avance u y); [done|]. deplie. rewrite Hp, Hv. cbn.
    rewrite (proj2 (Nat.leb_gt n i)) by lia. by destruct (wait_queue_key v =? Q). }
  destruct (wait_queue_key v =? Q) eqn:Hq.
  - specialize (H1 _ eq_refl).
    assert (exists v1, taches (pose u (avec_pc (U_reveille Tous i n w) y) m) !! i = Some v1
              /\ etat v1 = etat v) as (v1 & Hv1 & He).
    { destruct (decide (i = u)) as [->|]; [simplify_eq; eexists; split; [by eapply pose_soi|done]|].
      exists v. split; [by apply pose_autre|done]. }
    destruct (reveille_un _ u (avec_pc (U_reveille Tous i n w) y) i n w v1 (pose_soi _ _ _ _ Hu) eq_refl Hv1)
      as (m' & y' & w' & Hm & Hu' & Hp' & Ha & Hz).
    exists m', y', w'. split_and!; [by eapply rtc_l; [|by apply rtc_once]|done|done| |].
    + intros t Htu Hti. rewrite Ha by done. cbn. by rewrite list_lookup_insert_ne.
    + intros Hn _ Hb. apply Hz; congruence.
  - specialize (H1 _ eq_refl). eexists _, (avec_pc (U_cherche Tous (S i) n w) y), w.
    split_and!; [by apply rtc_once|by eapply pose_soi|done
      |intros t Ht _; cbn; by rewrite list_lookup_insert_ne|].
    intros _ Hk. by bool_prop.
Qed.

(** The search reaches every sleeper it has not passed. *)
Lemma cherche_reveille d : forall m u y t x tk i n w,
  d = (t - i)%nat -> Inv m -> taches m !! u = Some y -> pc y = U_cherche Tous i n w ->
  (i <= t < n)%nat -> taches m !! t = Some x -> dort_avec x tk ->
  exists m' z, rtc (seul u) m m' /\ taches m' !! t = Some z /\ etat z = Pret.
Proof.
  induction d as [|d IH]; intros m u y t x tk i n w Hd HI Hu Hp Hr Ht Hx.
  all: assert (t <> u) as Htu by (intros ->; destruct Hx as [_ [s Hs]]; congruence).
  all: pose proof (dort_inscrit _ _ _ _ HI Ht Hx) as [Hk _].
  all: destruct (lookup_lt_is_Some_2 (taches m) i) as [v Hv];
    [apply lookup_lt_Some in Ht; lia|].
  all: destruct (cherche_un _ _ _ _ _ _ _ Hu Hp ltac:(lia) Hv) as (m1 & y1 & w1 & Hm1 & Hu1 & Hp1 & Ha & Hz).
  - assert (i = t) as -> by lia. simplify_eq. destruct Hx as [He _].
    destruct (Hz Htu Hk He) as (z & ? & ?). eauto.
  - destruct (IH m1 u y1 t x tk (S i) n w1) as (m2 & z & Hm2 & ?);
      [lia|by eapply inv_seul|done|done|lia|by rewrite Ha by lia|done|].
    exists m2, z. split; [by etrans|done].
Qed.

Lemma couvre_reveille m u y t x tk :
  Inv m -> taches m !! u = Some y -> couvre (pc y) t -> taches m !! t = Some x -> dort_avec x tk ->
  exists m' z, rtc (seul u) m m' /\ taches m' !! t = Some z /\ etat z = Pret.
Proof.
  intros HI Hu Hc Ht Hx.
  assert (t <> u) as Htu by (intros ->; destruct Hx as [_ [s Hs]]; simplify_eq; by rewrite Hs in Hc).
  pose proof (lookup_lt_Some _ _ _ Ht) as Hlt.
  pose proof (dort_inscrit _ _ _ _ HI Ht Hx) as [_ Hd].
  assert (forall m, Inv m -> taches m !! t = Some x -> forall y, taches m !! u = Some y ->
    pc y = U_longueur Tous -> exists m' z, rtc (seul u) m m' /\ taches m' !! t = Some z /\ etat z = Pret)
    as Hlong.
  { clear m HI Hu Ht Hlt Hd y Hc. intros m HI Ht y Hu Hp.
    set (y1 := avec_pc (U_cherche Tous 0 (length (taches m)) 0) y).
    assert (seul u m (pose u y1 m)) as H1.
    { apply (seul_avance u y); [done|]. deplie. by rewrite Hp. }
    edestruct (cherche_reveille t (pose u y1 m) u y1 t x tk 0 (length (taches m)) 0)
      as (m2 & z & Hm2 & ?); [lia|by eapply inv_un_pas|by eapply pose_soi|done
      |apply lookup_lt_Some in Ht; lia|by apply pose_autre|done|].
    exists m2, z. split; [by eapply rtc_l|done]. }
  destruct (pc y) eqn:Hp; try done; destruct l; try done.
  - assert (seul u m (pose u (avec_pc (U_longueur Tous) y) m)) as H1.
    { apply (seul_avance u y); [done|]. deplie. rewrite Hp.
      by rewrite (proj2 (Z.eqb_neq _ _)) by lia. }
    destruct (Hlong _ ltac:(by eapply inv_un_pas) (pose_autre _ _ _ _ _ Ht Htu) _ (pose_soi _ _ _ _ Hu) eq_refl)
      as (m2 & z & Hm2 & ?). exists m2, z. split; [by eapply rtc_l|done].
  - eauto.
  - eapply cherche_reveille; eauto.
  - cbn in Hc. destruct (lookup_lt_is_Some_2 (taches m) i) as [v Hv]; [lia|].
    destruct (reveille_un _ _ _ _ _ _ _ Hu Hp Hv) as (m1 & y1 & w1 & Hm1 & Hu1 & Hp1 & Ha & Hz).
    destruct (decide (i = t)) as [->|Hn].
    + simplify_eq. destruct Hx as [He _]. destruct (Hz Htu He) as (z & ? & ?).
      exists m1, z. split; [by apply rtc_once|done].
    + edestruct (cherche_reveille (t - S i) m1 u y1 t x tk (S i) n w1) as (m2 & z & Hm2 & ?);
        [done|by eapply inv_un_pas|done|done|lia|by rewrite Ha by done|done|].
      exists m2, z. split; [by eapply rtc_l|done].
Qed.

(** C16. No [wake_all] is lost: in every interleaving of any number of tasks, a task asleep on the
    queue with a ticket taken before the last [wake_all] is about to be woken, by a waker
    that needs no other task to move (for fewer than 2^64 signals). *)
Theorem reveil_general_tenu m t x tk :
  atteint Q prive m -> generation (point m) < 2 ^ 64 ->
  taches m !! t = Some x -> etat x = Bloque -> (exists s, pc x = A_dort tk s) ->
  tk < gen_tous m ->
  exists u m' z, rtc (seul u) m m' /\ taches m' !! t = Some z /\ etat z = Pret.
Proof.
  intros Hm Hg Ht He Hs Hk. pose proof (inv_atteint _ Hm) as HI.
  destruct (tous_atteint _ Hm Hg t x tk Ht (conj He Hs) Hk) as (u & y & Hu & Hc).
  destruct (couvre_reveille _ _ _ _ _ _ HI Hu Hc Ht (conj He Hs)) as (m' & z & ?). eauto.
Qed.
End Inv.

(** ** The sleeping mutex *)

Section Verrou.
Context (Q : Z) (HQ : Q <> 0).
#[local] Abbreviation Inv := (Inv Q true).

(** In the loop of [lock]. *)
Definition boucle (p : Pc) : bool :=
  match p with
  | L_cas | L_ticket | L_verrou _
  | A_entre _ DansLock | A_tache _ DansLock | A_inscrit _ DansLock | A_cle _ DansLock
  | A_publie _ DansLock | A_condamne _ DansLock | A_relit _ DansLock | A_annule DansLock
  | A_dort _ DansLock | A_efface DansLock | A_desinscrit DansLock => true
  | _ => false
  end.
Definition dort (x : Tache) : Prop :=
  etat x = Bloque /\ match pc x with A_dort _ DansLock => True | _ => False end.
#[local] Instance dort_dec x : Decision (dort x).
Proof.
  unfold dort. destruct (pc x) as [| | | | | | | | | | | | | | | |? []| | | | | | | | | | |]; apply _.
Defined.

(** The ticket of a task that saw the lock held after taking it. *)
Definition engage (p : Pc) : option Z :=
  match p with L_verrou _ | E_condition _ _ => None | p => ticket_de p end.

(** A ticket that is still current was taken under a lock still held, or a release is about
    to make it stale. *)
Definition InvTicket (m : Monde) : Prop :=
  forall t x, taches m !! t = Some x -> engage (pc x) = Some (generation (point m)) ->
  locked m = true \/ exists u y, taches m !! u = Some y /\ pc y = U_signale Un.

Lemma ticket_pose m t x y b p g :
  InvTicket m -> taches m !! t = Some x -> generation p = generation (point m) ->
  (pc x = U_signale Un -> pc y = U_signale Un) ->
  (forall tk, engage (pc y) = Some tk -> engage (pc x) = Some tk \/ b = true) ->
  (locked m = true -> b = true \/ pc y = U_signale Un) ->
  InvTicket (mk_monde b p g (<[t := y]> (taches m))).
Proof.
  intros HJ Ht Hg Hx Hy Hb i z Hi Hz. cbn in *. rewrite Hg in Hz.
  assert (b = true \/ exists j w, taches m !! j = Some w /\ engage (pc w) = Some (generation (point m)))
    as [?|(j & w & Hj & Hw)]; [|by left|].
  { apply list_lookup_insert_Some in Hi as [(-> & <- & _)|[_ Hi]]; [|eauto].
    destruct (Hy _ Hz) as [|]; [eauto|by left]. }
  destruct (HJ j w Hj Hw) as [Hl|(u & v & Hu & Hv)].
  - destruct (Hb Hl) as [|Hp]; [by left|right]. exists t, y. split; [|done].
    apply list_lookup_insert_eq. by apply lookup_lt_Some in Ht.
  - right. destruct (decide (u = t)) as [->|].
    + simplify_eq. exists t, y. split; [|auto]. apply list_lookup_insert_eq. by apply lookup_lt_Some in Ht.
    + exists u, v. split; [|done]. by rewrite list_lookup_insert_ne.
Qed.

(** The conditions of [ticket_pose] on explicit code. *)
Ltac tickets x Hp :=
  let tk := fresh in let Htk := fresh in
  match goal with HJ : InvTicket ?m |- _ => eapply (ticket_pose m _ x) end;
  [done|done|done|by rewrite Hp|intros tk Htk; cbn in Htk|cbn];
  try done; try (rewrite Hp; by left); try (by right); auto; try congruence.

Lemma ticket_etat m t x e :
  InvTicket m -> taches m !! t = Some x -> InvTicket (pose t (avec_etat e x) m).
Proof. intros HJ Ht. by apply (ticket_pose _ _ x); auto. Qed.

Lemma ticket_avance t x m m' :
  Inv m -> InvTicket m -> taches m !! t = Some x -> avance Q t x m = Some m' -> InvTicket m'.
Proof.
  intros HI HJ Ht Ha. pose proof (l_prive _ _ _ _ (i_locale _ _ _ HI _ _ Ht) eq_refl) as HV.
  deplie_in Ha. destruct (pc x) eqn:Hp; try discriminate; cbn in HV; cas_pas Ha.
  all: try match goal with |- context [retour ?s] => destruct s; try discriminate end.
  all: try solve [tickets x Hp].
  - (* a new generation makes every ticket stale *)
    intros i z Hi Hz. destruct l; [|done]. cbn in *.
    apply list_lookup_insert_Some in Hi as [(-> & <- & _)|[_ Hi]]; [done|].
    assert (ticket_de (pc z) = Some (generation (point m) + 1)) as Hk by (by destruct (pc z)).
    pose proof (l_ticket _ _ _ _ (i_locale _ _ _ HI _ _ Hi) _ Hk). lia.
  - eapply ticket_pose; [by apply ticket_etat|done|done| |done|by left].
    by rewrite (pose_etat_pc _ _ _ _ _ _ _ Ht ltac:(eassumption) ltac:(eassumption)), Hp.
  - eapply ticket_pose; [by apply ticket_etat|done|done| |done|by left].
    by rewrite (pose_etat_pc _ _ _ _ _ _ _ Ht ltac:(eassumption) ltac:(eassumption)), Hp.
Qed.

Lemma ticket_pas a t m m' :
  Inv m -> InvTicket m -> pas Q true a t m = Some m' -> InvTicket m'.
Proof.
  intros HI HJ Hp. unfold pas in Hp. destruct (taches m !! t) as [x|] eqn:Ht.
  2: { destruct a; try done. cas_pas Hp. intros i x Hi Hx. cbn in *.
       apply lookup_app_Some in Hi as [Hi|[_ Hi]].
       - destruct (HJ i x Hi Hx) as [|(u & y & Hu & Hy)]; [by left|right]. exists u, y.
         split; [by apply lookup_app_l_Some|done].
       - apply list_lookup_singleton_Some in Hi as [_ <-]. done. }
  pose proof (l_prive _ _ _ _ (i_locale _ _ _ HI _ _ Ht) eq_refl) as HV.
  destruct a; try (by eapply ticket_avance); try (simplify_eq; by apply ticket_etat).
  all: destruct (pc x) eqn:Hpc; try discriminate; cas_pas Hp; try done.
  all: tickets x Hpc.
Qed.

(** Who will let the sleepers go on: a task awake in the loop of [lock], or a release that
    has not yet spent its wake-up and will find someone to give it to. *)
Definition actif (m : Monde) (y : Tache) : Prop :=
  (boucle (pc y) = true /\ ~ dort y) \/
  match pc y with
  | U_signale _ | U_compte _ | U_longueur _ => True
  | U_cherche _ i n w => w = 0%nat /\ exists t x, (i <= t < n)%nat /\ taches m !! t = Some x /\ dort x
  | U_reveille _ i n w => w = 0%nat /\ exists x, taches m !! i = Some x /\ boucle (pc x) = true
  | _ => False
  end.

Definition InvVerrou (m : Monde) : Prop :=
  (exists t x, taches m !! t = Some x /\ dort x) ->
  locked m = true \/ exists u y, taches m !! u = Some y /\ actif m y.

Lemma dort_boucle x : dort x -> boucle (pc x) = true.
Proof. intros [_ H]. by destruct (pc x) as [| | | | | | | | | | | | | | | |? []| | | | | | | | | | |]. Qed.

(** A step that wakes, starts or goes on trying. *)
Lemma verrou_reprend m t x y b p g :
  taches m !! t = Some x -> actif (mk_monde b p g (<[t := y]> (taches m))) y ->
  InvVerrou (mk_monde b p g (<[t := y]> (taches m))).
Proof.
  intros Ht Hy _. right. exists t, y. split; [|done].
  apply list_lookup_insert_eq. by apply lookup_lt_Some in Ht.
Qed.

(** A task outside the loop that others do not count on. *)
Lemma actif_ailleurs m t x y b p g z :
  taches m !! t = Some x -> (boucle (pc x) = true -> boucle (pc y) = true) ->
  (dort x -> dort y) -> actif m z -> actif (mk_monde b p g (<[t := y]> (taches m))) z.
Proof.
  intros Ht Hx Hd [Hz|Hz]; [by left|right].
  pose proof (lookup_lt_Some _ _ _ Ht) as Hlt.
  destruct (pc z); try done.
  - destruct Hz as [Hw (j & v & Hj & Hv & Hdv)]. split; [done|]. cbn.
    destruct (decide (t = j)) as [->|]; simplify_eq.
    + exists j, y. by rewrite list_lookup_insert_eq; auto.
    + exists j, v. by rewrite list_lookup_insert_ne.
  - destruct Hz as [Hw (v & Hv & Hb)]. split; [done|]. cbn.
    destruct (decide (t = i)) as [->|]; simplify_eq.
    + exists y. by rewrite list_lookup_insert_eq; auto.
    + exists v. by rewrite list_lookup_insert_ne.
Qed.

Lemma verrou_neutre m t x y b p g :
  InvVerrou m -> taches m !! t = Some x -> boucle (pc x) = false -> ~ dort y ->
  (actif m x -> False) -> (locked m = true -> b = true) ->
  InvVerrou (mk_monde b p g (<[t := y]> (taches m))).
Proof.
  intros HR Ht Hb Hd Hx Hl (i & z & Hi & Hz).
  assert (~ dort x) as Hdx by (intros H; apply dort_boucle in H; congruence).
  cbn in Hi. apply list_lookup_insert_Some in Hi as [(-> & <- & _)|[Hn Hi]]; [done|].
  destruct HR as [?|(u & w & Hu & Hw)]; [eauto|left; auto|right].
  exists u, w. assert (u <> t) by (intros ->; simplify_eq; auto).
  split; [cbn; by rewrite list_lookup_insert_ne|].
  eapply actif_ailleurs; [exact Ht|by rewrite Hb|done|done].
Qed.

(** A step inside the release: what it was counted on for, it still is. *)
Lemma verrou_suite m t x y b p g :
  InvVerrou m -> taches m !! t = Some x -> boucle (pc x) = false -> ~ dort y ->
  (actif m x -> actif (mk_monde b p g (<[t := y]> (taches m))) y) -> (locked m = true -> b = true) ->
  InvVerrou (mk_monde b p g (<[t := y]> (taches m))).
Proof.
  intros HR Ht Hb Hd Hx Hl (i & z & Hi & Hz).
  assert (~ dort x) as Hdx by (intros H; apply dort_boucle in H; congruence).
  cbn in Hi. apply list_lookup_insert_Some in Hi as [(-> & <- & _)|[Hn Hi]]; [done|].
  destruct HR as [?|(u & w & Hu & Hw)]; [eauto|left; auto|right].
  destruct (decide (u = t)) as [->|].
  - simplify_eq. exists t, y. split; [|auto]. apply list_lookup_insert_eq. by apply lookup_lt_Some in Ht.
  - exists u, w. split; [cbn; by rewrite list_lookup_insert_ne|].
    eapply actif_ailleurs; [exact Ht|by rewrite Hb|done|done].
Qed.

Lemma reveille_pas_bloque e : (reveille e).1 <> Bloque.
Proof. by destruct e. Qed.

Lemma verrou_etat m t x :
  InvVerrou m -> taches m !! t = Some x -> InvVerrou (pose t (avec_etat (reveille (etat x)).1 x) m).
Proof.
  intros HR Ht.
  assert (~ dort (avec_etat (reveille (etat x)).1 x)) as Hd by (intros [H _]; by apply reveille_pas_bloque in H).
  destruct (boucle (pc x)) eqn:Hb.
  - eapply verrou_reprend; [done|]. by left.
  - eapply verrou_suite; [done|done|done|done| |done].
    intros Ha. eapply actif_ailleurs; [exact Ht|done| |].
    + intros H. apply dort_boucle in H. congruence.
    + destruct Ha as [[Ha _]|Ha]; [congruence|]. by right.
Qed.

Lemma posee_boucle p : cle_posee p = true -> du_verrou p = true -> boucle p = true.
Proof. destruct p; try done; by destruct s. Qed.
Lemma cle_boucle m t x :
  Inv m -> taches m !! t = Some x -> wait_queue_key x = Q -> boucle (pc x) = true.
Proof.
  intros HI Ht Hk. destruct (i_locale _ _ _ HI _ _ Ht) as [_ H2 _ H4].
  destruct (H2 Hk) as [|[? _]]; [|done]. by apply posee_boucle; auto.
Qed.
Lemma dort_cle m t x :
  Inv m -> taches m !! t = Some x -> dort x -> wait_queue_key x = Q /\ 1 <= dormeurs (point m).
Proof.
  intros HI Ht [He Hp]. destruct (pc x) as [| | | | | | | | | | | | | | | |tk []| | | | | | | | | | |] eqn:E; try done.
  eapply dort_inscrit with (tk := tk); [done|done|]. split; [done|]. by exists DansLock.
Qed.
(** Under a step of a task outside the loop, sleepers are the same. *)
Lemma dort_pose m t x y b p g i z :
  taches m !! t = Some x -> ~ dort y ->
  taches (mk_monde b p g (<[t := y]> (taches m))) !! i = Some z -> dort z ->
  taches m !! i = Some z /\ i <> t.
Proof.
  intros Ht Hy Hi Hz. cbn in Hi.
  by apply list_lookup_insert_Some in Hi as [(-> & <- & _)|[Hn Hi]].
Qed.

Lemma verrou_reveille m t i x y z l n w w' :
  InvVerrou m -> taches m !! t = Some x -> pc x = U_reveille l i n w -> taches m !! i = Some y ->
  taches (pose i (avec_etat (reveille (etat y)).1 y) m) !! t = Some z ->
  InvVerrou (pose t (avec_pc (U_cherche l (S i) n w') z)
               (pose i (avec_etat (reveille (etat y)).1 y) m)).
Proof.
  intros HR Ht Hp Hi Hz. pose proof (pose_etat_pc _ _ _ _ _ _ _ Ht Hi Hz) as Hpc. rewrite Hp in Hpc.
  set (y' := avec_etat (reveille (etat y)).1 y) in *.
  assert (~ dort y') as Hd by (intros [H _]; by apply reveille_pas_bloque in H).
  destruct (boucle (pc y)) eqn:Hb.
  - assert (i <> t) by (intros ->; simplify_eq; by rewrite Hp in Hb).
    intros _. right. exists i, y'. split; [|by left]. apply pose_autre; [by eapply pose_soi|done].
  - eapply verrou_neutre; [by apply verrou_etat|done|by rewrite Hpc|by intros [_ []]| |done].
    intros [[Ha _]|Ha]; rewrite Hpc in Ha; [done|]. destruct Ha as [_ (v & Hv & Hbv)].
    rewrite (pose_soi _ _ _ _ Hi) in Hv. simplify_eq. cbn in Hbv. congruence.
Qed.

Lemma verrou_endort m t x tk :
  Inv m -> InvTicket m -> generation (point m) < 2 ^ 64 -> taches m !! t = Some x ->
  pc x = A_relit tk DansLock -> ticket (point m) = tk ->
  InvVerrou (pose t (avec_pc (A_dort tk DansLock) x) m).
Proof.
  intros HI HJ Hg Ht Hp Hk. pose proof (i_gen _ _ _ HI). rewrite ticket_exact in Hk by lia.
  destruct (HJ t x Ht) as [Hl|(u & y & Hu & Hy)]; [by rewrite Hp, <- Hk|intros _; by left|].
  intros _. right. exists u, y. assert (t <> u) by (intros ->; simplify_eq; congruence).
  split; [by apply pose_autre|]. right. by rewrite Hy.
Qed.

Lemma verrou_passe m t x l i n w :
  InvVerrou m -> taches m !! t = Some x -> pc x = U_cherche l i n w ->
  (forall y, taches m !! i = Some y -> ~ dort y) ->
  InvVerrou (pose t (avec_pc (U_cherche l (S i) n w) x) m).
Proof.
  intros HR Ht Hp Hi. eapply verrou_suite; [done|done|by rewrite Hp|by intros [_ []]| |done].
  intros [[Ha _]|Ha]; rewrite Hp in Ha; [done|]. destruct Ha as [-> (j & v & Hj & Hv & Hd)].
  right. cbn. split; [done|]. exists j, v. split.
  - destruct (decide (i = j)) as [->|]; [by destruct (Hi v)|lia].
  - split; [|done]. rewrite list_lookup_insert_ne; [done|]. intros ->. simplify_eq.
    destruct Hd as [_ Hd]. by rewrite Hp in Hd.
Qed.

Lemma verrou_avance t x m m' :
  Inv m -> InvTicket m -> InvVerrou m -> generation (point m) < 2 ^ 64 -> taches m !! t = Some x ->
  avance Q t x m = Some m' -> InvVerrou m'.
Proof.
  intros HI HJ HR Hg Ht Ha. pose proof (i_gen _ _ _ HI).
  pose proof (l_prive _ _ _ _ (i_locale _ _ _ HI _ _ Ht) eq_refl) as HV.
  deplie_in Ha. destruct (pc x) eqn:Hp; try discriminate; cbn in HV; cas_pas Ha.
  all: try match goal with s : Suite |- _ => destruct s; try discriminate end.
  all: try solve [eapply verrou_reprend; [done|]; left; split; [done|by intros [_ []]]].
  all: try solve [eapply verrou_reprend; [done|]; by right].
  all: try solve [eapply verrou_neutre; [done|done|by rewrite Hp|by intros [_ []]|by intros [[? _]|?]; rewrite Hp in *|done]].
  - intros _. by left.
  - bool_prop. by eapply verrou_endort.
  - destruct l; [|done]. eapply verrou_reprend; [done|]. by right.
  - intros (i & z & Hi & Hz). eapply dort_pose in Hi as [Hi _]; [|done|by intros [_ []]|done].
    destruct (dort_cle _ _ _ HI Hi Hz). bool_prop. lia.
  - intros (i & z & Hi & Hz). eapply verrou_reprend; [exact Ht| |by exists i, z]. right. cbn.
    split; [done|]. exists i, z. split; [|done]. apply lookup_lt_Some in Hi. cbn in Hi.
    rewrite length_insert in Hi. lia.
  - destruct l; [|done]. eapply verrou_neutre; [done|done|by rewrite Hp|by intros [_ []]| |done].
    intros [[? _]|Ha]; rewrite Hp in *; [done|]. destruct Ha as [-> (j & v & Hj & _)].
    cbn in *. rewrite orb_false_r in *. bool_prop. lia.
  - bool_prop. match goal with H : taches m !! i = Some _ |- _ => pose proof H as Hi;
      eapply cle_boucle in H; [|done|done] end.
    eapply verrou_suite; [done|done|by rewrite Hp|by intros [_ []]| |done].
    intros [[Ha _]|Ha]; rewrite Hp in Ha; [done|]. right. destruct Ha as [-> _]. cbn. split; [done|].
    eexists. split; [|eassumption]. rewrite list_lookup_insert_ne; [done|].
    intros ->. simplify_eq. by rewrite Hp in *.
  - eapply verrou_passe; [done|done|done|]. intros y Hy Hd.
    destruct (dort_cle _ _ _ HI Hy Hd). simplify_eq. by bool_prop.
  - eapply verrou_passe; [done|done|done|]. intros y Hy. congruence.
  - match goal with H : reveille (etat ?y) = (?e, _) |- _ =>
      replace e with (reveille (etat y)).1 in * by (by rewrite H) end. eapply verrou_reveille; eauto.
  - match goal with H : reveille (etat ?y) = (?e, _) |- _ =>
      replace e with (reveille (etat y)).1 in * by (by rewrite H) end. eapply verrou_reveille; eauto.
Qed.

Lemma verrou_pas a t m m' :
  Inv m -> InvTicket m -> InvVerrou m -> generation (point m) < 2 ^ 64 ->
  pas Q true a t m = Some m' -> InvVerrou m'.
Proof.
  intros HI HJ HR Hg Hp. unfold pas in Hp. destruct (taches m !! t) as [x|] eqn:Ht.
  2: { destruct a; try done. cas_pas Hp. intros (i & x & Hi & Hx). cbn in *.
       apply lookup_app_Some in Hi as [Hi|[_ Hi]].
       - destruct HR as [|(u & y & Hu & Hy)]; [eauto|by left|right]. exists u, y.
         split; [by apply lookup_app_l_Some|]. destruct Hy as [|Hy]; [by left|right].
         destruct (pc y); try done; cbn.
         + destruct Hy as [? (j & v & ? & ? & ?)]. split; [done|]. exists j, v.
           by split_and!; [lia|lia|apply lookup_app_l_Some|].
         + destruct Hy as [? (v & ? & ?)]. split; [done|]. exists v.
           by split; [apply lookup_app_l_Some|].
       - apply list_lookup_singleton_Some in Hi as [_ <-]. by destruct Hx. }
  pose proof (l_prive _ _ _ _ (i_locale _ _ _ HI _ _ Ht) eq_refl) as HV.
  destruct a; try (by eapply verrou_avance); try (simplify_eq; by apply verrou_etat).
  all: destruct (pc x) eqn:Hpc; try discriminate; cas_pas Hp; try done.
  all: try (intros _; by left).
  all: try solve [eapply verrou_reprend; [done|]; left; split; [done|by intros [_ []]]].
  all: eapply verrou_neutre; [done|done|by rewrite Hpc|by intros [? []]
    |by intros [[? _]|?]; rewrite Hpc in *|done].
Qed.

Lemma verrou_atteint m :
  atteint Q true m -> generation (point m) < 2 ^ 64 -> InvTicket m /\ InvVerrou m.
Proof.
  induction 1 as [|a t m m' Hm IH Hp]; intros Hg.
  { split; [by intros [|]|by intros ([|] & ? & ? & ?)]. }
  assert (generation (point m) <= generation (point m')) by (eapply pas_generation; eauto). destruct IH as [HJ HR]; [lia|].
  pose proof (inv_atteint _ _ HQ _ Hm).
  split; [by eapply ticket_pas|eapply verrou_pas; try done; lia].
Qed.

(** Who is counted on can move. *)
Lemma actif_avance m u y :
  taches m !! u = Some y -> actif m y -> exists m', pas Q true Avance u m = Some m'.
Proof.
  intros Hu Ha. unfold pas; deplie. rewrite Hu.
  destruct (pc y) eqn:Hp; unfold actif in Ha; rewrite Hp in Ha;
    try (destruct Ha as [[? _]|[]]; done); repeat case_match; try (eexists; reflexivity).
  all: try (destruct Ha as [[Hb Hd]|[]]; destruct s; [|done]; exfalso; apply Hd; split;
            [congruence|by rewrite Hp]).
  all: destruct Ha as [[? _]|Ha]; try done; destruct Ha as [_ (v & Hv & _)]; simplify_eq.
  match goal with H : taches (pose _ (avec_etat ?e _) _) !! u = None |- _ =>
    destruct (decide (u = i)) as [->|Hn];
    [by rewrite (pose_soi _ _ v (avec_etat e v)) in H
    |by rewrite (pose_autre _ _ i y (avec_etat e v)) in H] end.
Qed.

(** C15. The sleeping mutex: in every interleaving of any number of tasks, with spurious
    wake-ups, births and deaths, at most one task holds it, it is marked held when some task
    does, and while it is free no task sleeps on it unless another one, which can move, is
    awake in [lock] or is a release that still has its wake-up to give to a sleeper. *)
Theorem verrou_dormant_sur m :
  atteint Q true m -> generation (point m) < 2 ^ 64 ->
  (forall t u x y, taches m !! t = Some x -> taches m !! u = Some y ->
     pc x = Tient -> pc y = Tient -> t = u) /\
  (forall t x, taches m !! t = Some x -> pc x = Tient -> locked m = true) /\
  (forall t x, taches m !! t = Some x -> dort x ->
     locked m = true \/
     exists u y m', taches m !! u = Some y /\ actif m y /\ pas Q true Avance u m = Some m').
Proof.
  intros Hm Hg. pose proof (inv_atteint _ _ HQ _ Hm) as HI. pose proof (i_tient _ _ _ HI) as Hc.
  split_and!.
  - intros t u x y Ht Hu Hx Hy. eapply compte_unique with (f := tient); [|done|done|by rewrite Hx|by rewrite Hy].
    rewrite Hc. by destruct (locked m).
  - intros t x Ht Hx. pose proof (compte_trouve tient _ _ _ Ht ltac:(by rewrite Hx)).
    destruct (locked m); [done|cbn in Hc; lia].
  - intros t x Ht Hx. destruct (verrou_atteint _ Hm Hg) as [_ HR].
    destruct HR as [|(u & y & Hu & Hy)]; [eauto|by left|right].
    destruct (actif_avance _ _ _ Hu Hy) as [m' Hm']. eauto 8.
Qed.
End Verrou.

(** ** Situations *)

(** The accesses of a wait from its ticket to its sleep. *)
Definition s_endort (t : nat) : list (Action * nat) :=
  (Ticket true, t) :: (Attend, t) :: replicate 7 (Avance, t).

(** Two tasks asleep on a queue, a third that calls [wake_one] and reads the key of the
    first, whose deadline passes then, and which parks elsewhere before the waker's
    compare-and-swap. *)
Definition s_cle_perimee : list (Action * nat) :=
  [(Nait, 0%nat); (Nait, 1%nat); (Nait, 2%nat)] ++ s_endort 0 ++ s_endort 1 ++
  ((Signale Un, 2%nat) :: replicate 4 (Avance, 2%nat)) ++
  ((Secoue, 0%nat) :: replicate 3 (Avance, 0%nat)) ++ [(Part 9, 0%nat); (Avance, 0%nat)] ++
  replicate 2 (Avance, 2%nat).

(** [wake_wait_queue] reads the key of a task and wakes it in two accesses: the single
    wake-up of [wake_one] can go to a task that left the queue by its deadline and parked on
    another one, and the task still waiting stays asleep with a stale ticket while nobody is
    left to wake it. *)
Theorem reveil_unique_perdu :
  exists m, atteint 7 false m /\ generation (point m) = 2 /\
    taches m = [mk_tache Pret 9 O_dort; mk_tache Bloque 7 (A_dort 1 (Libre true));
                mk_tache Pret 0 Dehors].
Proof.
  eexists. split_and!; [eapply (execute_atteint _ _ s_cle_perimee); [constructor|]| |];
    vm_compute; reflexivity.
Qed.

(** A task killed while it is parked never gives back its registration: the count of sleepers
    stays above the tasks registered. *)
Theorem inscription_perdue :
  exists m, atteint 7 false m /\ dormeurs (point m) = 1 /\
    taches m = [mk_tache Zombie 7 Mort].
Proof.
  eexists. split_and!; [eapply (execute_atteint _ _ ([(Nait, 0%nat)] ++ s_endort 0 ++ [(Tue, 0%nat)]));
    [constructor|]| |]; vm_compute; reflexivity.
Qed.

(** Two tasks asleep, and a [wake_all] that has published its generation. *)
Definition s_tous : list (Action * nat) :=
  [(Nait, 0%nat); (Nait, 1%nat); (Nait, 2%nat)] ++ s_endort 0 ++ s_endort 1 ++
  [(Signale Tous, 2%nat); (Avance, 2%nat)].

(** The second sleeper is woken by the [wake_all]. *)
Lemma reveil_general_tenu_witness :
  exists m, execute 7 false s_tous initial = Some m /\
  exists u m' z, rtc (seul 7 false u) m m' /\ taches m' !! 1%nat = Some z /\ etat z = Pret.
Proof.
  eexists. split; [vm_compute; reflexivity|].
  eapply (reveil_general_tenu 7 false ltac:(lia) _ 1%nat _ 1).
  - eapply (execute_atteint _ _ s_tous); [constructor|vm_compute; reflexivity].
  - cbn. lia.
  - reflexivity.
  - reflexivity.
  - eexists. reflexivity.
  - cbn. lia.
Defined.

(** A holder, a task asleep behind it, and the holder's release. *)
Definition s_verrou : list (Action * nat) :=
  [(Nait, 0%nat); (Nait, 1%nat); (Essaie, 0%nat); (Verrouille, 1%nat)] ++
  replicate 10 (Avance, 1%nat) ++ [(Avance, 0%nat)].

(** The lock is free, the sleeper is counted on to be woken by the release. *)
Lemma verrou_dormant_sur_witness :
  exists m, execute 7 true s_verrou initial = Some m /\ locked m = false /\
  exists u y m', taches m !! u = Some y /\ actif m y /\ pas 7 true Avance u m = Some m'.
Proof.
  eexists. split; [vm_compute; reflexivity|]. split; [reflexivity|].
  edestruct (verrou_dormant_sur 7 ltac:(lia)) as (_ & _ & H).
  - eapply (execute_atteint _ _ s_verrou); [constructor|vm_compute; reflexivity].
  - cbn. lia.
  - destruct (H 1%nat _ eq_refl (conj eq_refl I)) as [Hl|Hu]; [discriminate|exact Hu].
Defined.
End FileAttenteProofs.
