(* ===== verification/MotAttente.v ===== *)
(** Waiting on a word: the registry of [src/kernel/sync/wait_word/], from the key of a word to
    the entry its waiters share, with the reference counts that decide when an entry goes. A
    section under the lock of a bucket is one step, and so is each atomic access outside;
    what the entry's wait source does is modelled in [FileAttente]. *)

From S2P Require Import Prelude.

Module MotAttente.
Open Scope Z_scope.

Definition WAIT_WORD_BUCKETS : nat := 64.
Definition wait_word_bucket (key : Z) : nat :=
  let mixed := Z.lxor (Z.lxor key (Z.shiftr key 17)) (Z.shiftr key 33) in
  Z.to_nat (Z.land mixed (Z.of_nat WAIT_WORD_BUCKETS - 1)).

(** [WaitWordEntry]; an entry is named by its address, here its rank of creation. *)
Record WaitWordEntry := mk_entry { key : Z; waiters : Z }.

(** What a thread does with the [Arc] it holds, if any. *)
Inductive Fil :=
| Repos
| Inscrit (e : nat)                (* [wait_word_entry] returned; [waiters] rises next *)
| Attend (e : nat)                 (* counted: ticket, check of the word, wait *)
| Fini (e : nat)                   (* the wait is over; [waiters] falls next *)
| Reveille (e : nat)               (* [wait_word_existing] returned; [waiters] is read next *)
| Elague (e : nat)                 (* first test of [prune_wait_word] *)
| Retire (e : nat)                 (* its section under the lock *)
| Lache (e : nat)                  (* the [Arc] is dropped next *)
| Tue (e : nat).                   (* killed while parked: the stack is never unwound *)

Definition arc (f : Fil) : option nat :=
  match f with
  | Repos => None
  | Inscrit e | Attend e | Fini e | Reveille e | Elague e | Retire e | Lache e | Tue e => Some e
  end.

Record Monde := mk_monde {
  entrees : list WaitWordEntry;
  table : list (list nat);
  fils : list Fil
}.
Definition initial (n : nat) : Monde := mk_monde [] (replicate WAIT_WORD_BUCKETS []) (replicate n Repos).

Definition seau (m : Monde) (k : Z) : list nat := default [] (table m !! wait_word_bucket k).
Definition cle (m : Monde) (e : nat) : option Z := key <$> entrees m !! e.
(** [bucket.iter().find(|entry| entry.key == key)] *)
Definition trouve (m : Monde) (k : Z) : option nat :=
  List.find (fun e => bool_decide (cle m e = Some k)) (seau m k).

Definition pose_fil (t : nat) (f : Fil) (m : Monde) : Monde :=
  mk_monde (entrees m) (table m) (<[t := f]> (fils m)).
Definition ajoute (e : nat) (d : Z) (m : Monde) : Monde :=
  mk_monde (alter (fun x => mk_entry (key x) (waiters x + d)) e (entrees m)) (table m) (fils m).

(** [wait_word_entry]: the entry of the key, created when there is none. *)
Definition wait_word_entry (k : Z) (m : Monde) : nat * Monde :=
  match trouve m k with
  | Some e => (e, m)
  | None =>
      let e := length (entrees m) in
      (e, mk_monde (entrees m ++ [mk_entry k 0])
            (alter (fun l => l ++ [e]) (wait_word_bucket k) (table m)) (fils m))
  end.
Definition wait_word_existing (k : Z) (m : Monde) : option nat := trouve m k.

(** [Arc::strong_count]: the table's reference and those of the threads. *)
Definition compte_arc (e : nat) (l : list Fil) : nat :=
  length (filter (fun f => arc f = Some e) l).
Definition strong_count (e : nat) (m : Monde) : nat :=
  (length (filter (fun l => e ∈ l) (table m)) + compte_arc e (fils m))%nat.

(** The section of [prune_wait_word] under the lock. *)
Definition prune_wait_word (e : nat) (m : Monde) : Monde :=
  match entrees m !! e with
  | Some x =>
      if (waiters x =? 0) && (strong_count e m <=? 2)%nat
      then mk_monde (entrees m)
             (alter (filter (fun c => c <> e)) (wait_word_bucket (key x)) (table m)) (fils m)
      else m
  | None => m
  end.

Inductive Action :=
| Attente (k : Z)      (* [wait_word_wait] on a word whose key is [k] *)
| Reveil (k : Z)       (* [wait_word_wake] *)
| Avance
| Meurt.

(** What [wait_word_wake] returns for a count: [logical]. *)
Definition logical (e : nat) (count : Z) (m : Monde) : Z :=
  match entrees m !! e with Some x => Z.min (waiters x) count | None => 0 end.

Definition avance (t : nat) (f : Fil) (m : Monde) : option Monde :=
  match f with
  | Repos | Tue _ => None
  | Inscrit e => Some (pose_fil t (Attend e) (ajoute e 1 m))
  | Attend e => Some (pose_fil t (Fini e) m)
  | Fini e => Some (pose_fil t (Elague e) (ajoute e (-1) m))
  | Reveille e => Some (pose_fil t (Elague e) m)
  | Elague e =>
      match entrees m !! e with
      | Some x => if waiters x =? 0 then Some (pose_fil t (Retire e) m)
                  else Some (pose_fil t (Lache e) m)
      | None => None
      end
  | Retire e => Some (pose_fil t (Lache e) (prune_wait_word e m))
  | Lache e => Some (pose_fil t Repos m)
  end.

Definition pas (a : Action) (t : nat) (m : Monde) : option Monde :=
  match fils m !! t with
  | None => None
  | Some f =>
      match a, f with
      | Attente k, Repos => let '(e, m) := wait_word_entry k m in Some (pose_fil t (Inscrit e) m)
      | Reveil k, Repos =>
          match wait_word_existing k m with
          | Some e => Some (pose_fil t (Reveille e) m)
          | None => Some m
          end
      | Avance, f => avance t f m
      | Meurt, Attend e => Some (pose_fil t (Tue e) m)
      | _, _ => None
      end
  end.

Inductive atteint (n : nat) : Monde -> Prop :=
| atteint_debut : atteint n (initial n)
| atteint_pas a t m m' : atteint n m -> pas a t m = Some m' -> atteint n m'.

Fixpoint execute (l : list (Action * nat)) (m : Monde) : option Monde :=
  match l with
  | [] => Some m
  | (a, t) :: l => match pas a t m with Some m => execute l m | None => None end
  end.

Lemma execute_atteint_mot n l m m' : atteint n m -> execute l m = Some m' -> atteint n m'.
Proof.
  revert m. induction l as [|[a t] l IH]; intros m Hm; simpl; [by intros [= <-]|].
  destruct (pas a t m) eqn:E; [|done]. intros. eapply IH; [|done]. by econstructor.
Qed.

(** ** Proofs *)

#[local] Instance Fil_eq_dec : EqDecision Fil.
Proof. solve_decision. Defined.

(** A thread that counts on its entry being in the table. *)
Definition compte_sur (f : Fil) : option nat :=
  match f with Repos | Lache _ => None | f => arc f end.
(** A thread counted in [waiters]. *)
Definition inscrit_sur (f : Fil) : option nat :=
  match f with Attend e | Fini e | Tue e => Some e | _ => None end.
Definition inscrits (e : nat) (l : list Fil) : nat :=
  length (filter (fun f => inscrit_sur f = Some e) l).

Definition dans (m : Monde) (e : nat) : Prop :=
  exists x l, entrees m !! e = Some x /\ table m !! wait_word_bucket (key x) = Some l /\ e ∈ l.

Record Inv (m : Monde) : Prop := {
  i_table : length (table m) = WAIT_WORD_BUCKETS;
  i_seau s l e : table m !! s = Some l -> e ∈ l ->
    exists x, entrees m !! e = Some x /\ s = wait_word_bucket (key x);
  i_unique s l e e' : table m !! s = Some l -> e ∈ l -> e' ∈ l -> cle m e = cle m e' -> e = e';
  i_fil t f e : fils m !! t = Some f -> compte_sur f = Some e -> dans m e;
  i_arc t f e : fils m !! t = Some f -> arc f = Some e -> (e < length (entrees m))%nat;
  i_compte e x : entrees m !! e = Some x -> waiters x = Z.of_nat (inscrits e (fils m))
}.

(** *** Counting threads *)

Lemma length_filter_insert {A} (P : A -> Prop) `{!forall x, Decision (P x)} (l : list A) t x y :
  l !! t = Some x ->
  (length (filter P (<[t := y]> l)) + (if decide (P x) then 1 else 0) =
   length (filter P l) + (if decide (P y) then 1 else 0))%nat.
Proof.
  revert t. induction l as [|z l IH]; intros [|t] Ht; simplify_eq/=.
  - rewrite !filter_cons. repeat case_decide; simpl; lia.
  - specialize (IH t Ht). rewrite !filter_cons. destruct (decide (P z)); simpl; lia.
Qed.

Lemma wait_word_bucket_lt k : (wait_word_bucket k < WAIT_WORD_BUCKETS)%nat.
Proof.
  unfold wait_word_bucket, WAIT_WORD_BUCKETS.
  change (Z.of_nat 64 - 1) with (Z.ones 6). rewrite Z.land_ones by lia.
  pose proof (Z.mod_pos_bound (Z.lxor (Z.lxor k (Z.shiftr k 17)) (Z.shiftr k 33)) (2 ^ 6) eq_refl).
  lia.
Qed.

(** *** The steps *)

(** A thread that only moves, without a new claim on the table. *)
Lemma inv_fil m t f g :
  Inv m -> fils m !! t = Some f ->
  (forall e, compte_sur g = Some e -> dans m e) ->
  (forall e, arc g = Some e -> (e < length (entrees m))%nat) ->
  inscrit_sur g = inscrit_sur f -> Inv (pose_fil t g m).
Proof.
  intros [H1 H2 H3 H4 H5 H6] Ht Hg Ha Hi. split; cbn; auto.
  - intros u h e Hu He. apply list_lookup_insert_Some in Hu as [(-> & <- & _)|[_ Hu]]; [exact (Hg _ He)|exact (H4 _ _ _ Hu He)].
  - intros u h e Hu He. apply list_lookup_insert_Some in Hu as [(-> & <- & _)|[_ Hu]]; [auto|by eapply H5].
  - intros e x Hx. rewrite (H6 e x Hx). f_equal. unfold inscrits.
    pose proof (length_filter_insert (fun f => inscrit_sur f = Some e) (fils m) t f g Ht) as Hl.
    cbn in Hl. rewrite Hi in Hl. lia.
Qed.

(** A thread that starts or stops counting. *)
Lemma inv_ajoute m t f g e d :
  Inv m -> fils m !! t = Some f -> arc f = Some e -> arc g = Some e ->
  compte_sur f = Some e -> compte_sur g = Some e ->
  (d = 1 /\ inscrit_sur f = None /\ inscrit_sur g = Some e \/
   d = -1 /\ inscrit_sur f = Some e /\ inscrit_sur g = None) ->
  Inv (pose_fil t g (ajoute e d m)).
Proof.
  intros HI Ht Haf Hag Hcf Hcg Hd. destruct HI as [H1 H2 H3 H4 H5 H6].
  assert (forall i x, alter (fun x => mk_entry (key x) (waiters x + d)) e (entrees m) !! i = Some x ->
    exists y, entrees m !! i = Some y /\ key y = key x /\
      waiters x = waiters y + (if decide (i = e) then d else 0)) as Hal.
  { intros i x Hx. destruct (decide (i = e)) as [->|Hn].
    - rewrite list_lookup_alter_eq in Hx. destruct (entrees m !! e) as [y|]; simplify_eq/=. eauto.
    - rewrite list_lookup_alter_ne in Hx by done. exists x. split_and!; [done|done|lia]. }
  assert (forall i, key <$> alter (fun x => mk_entry (key x) (waiters x + d)) e (entrees m) !! i
    = key <$> entrees m !! i) as Hk.
  { intros i. destruct (decide (i = e)) as [->|Hn]; [|by rewrite list_lookup_alter_ne].
    rewrite list_lookup_alter_eq. by destruct (entrees m !! e). }
  assert (forall i, dans m i -> dans (pose_fil t g (ajoute e d m)) i) as Hdans.
  { intros i (x & l & Hx & Hl & Hi). specialize (Hk i). rewrite Hx in Hk.
    destruct (alter _ _ _ !! i) as [y|] eqn:E; simplify_eq/=. exists y, l. cbn.
    split_and!; [done|congruence|done]. }
  split; cbn.
  - done.
  - intros s l i Hl Hi. destruct (H2 s l i Hl Hi) as (x & Hx & ->). specialize (Hk i). rewrite Hx in Hk.
    destruct (alter _ _ _ !! i) as [y|] eqn:E; simplify_eq/=. exists y.
    split; [done|congruence].
  - intros s l i i' Hl Hi Hi' Hc. apply (H3 s l); [done|done|done|]. unfold cle in *. cbn in Hc.
    by rewrite !Hk in Hc.
  - intros u h i Hu Hi. apply Hdans.
    apply list_lookup_insert_Some in Hu as [(-> & <- & _)|[_ Hu]]; [|by eapply H4].
    simplify_eq. by eapply H4.
  - intros u h i Hu Hi. rewrite length_alter.
    apply list_lookup_insert_Some in Hu as [(-> & <- & _)|[_ Hu]]; [|by eapply H5].
    simplify_eq. by eapply H5.
  - intros i x Hx. destruct (Hal i x Hx) as (y & Hy & _ & ->). rewrite (H6 i y Hy).
    unfold inscrits. pose proof (length_filter_insert (fun f => inscrit_sur f = Some i) (fils m) t f g Ht) as Hl.
    cbn in Hl. destruct Hd as [(-> & Hf & Hg)|(-> & Hf & Hg)]; rewrite Hf, Hg in Hl;
      repeat case_decide; simplify_eq; lia.
Qed.

(** A lookup creates at most the entry it returns. *)
Lemma trouve_spec m k e : Inv m -> trouve m k = Some e -> cle m e = Some k /\ e ∈ seau m k.
Proof.
  intros HI Hf. apply List.find_some in Hf as [Hi Hk]. bool_prop. split; [done|].
  by apply list_elem_of_In.
Qed.
Lemma trouve_rien m k e : trouve m k = None -> e ∈ seau m k -> cle m e <> Some k.
Proof.
  intros Hf Hi Hk. apply list_elem_of_In in Hi.
  pose proof (List.find_none _ _ Hf e Hi) as Hn. by apply bool_decide_eq_false in Hn.
Qed.
Lemma seau_dans m k e : Inv m -> cle m e = Some k -> e ∈ seau m k -> dans m e.
Proof.
  intros HI Hk Hi. unfold cle in Hk. destruct (entrees m !! e) as [x|] eqn:Ex; simplify_eq/=.
  unfold seau in Hi. destruct (table m !! wait_word_bucket (key x)) as [l|] eqn:El.
  - by exists x, l.
  - by apply elem_of_nil in Hi.
Qed.

Lemma inv_entree m k e m' :
  Inv m -> wait_word_entry k m = (e, m') ->
  Inv m' /\ dans m' e /\ fils m' = fils m /\ cle m' e = Some k.
Proof.
  intros HI. unfold wait_word_entry. destruct (trouve m k) as [e0|] eqn:Hf.
  { intros [= <- <-]. destruct (trouve_spec _ _ _ HI Hf). eauto using seau_dans. }
  intros [= <- <-]. set (s0 := wait_word_bucket k). set (n := length (entrees m)).
  pose proof (wait_word_bucket_lt k) as Hb. destruct HI as [H1 H2 H3 H4 H5 H6]. rewrite <- H1 in Hb.
  destruct (lookup_lt_is_Some_2 _ _ Hb) as [l0 Hl0]. fold s0 in Hl0.
  assert (forall i x, entrees m !! i = Some x -> (entrees m ++ [mk_entry k 0]) !! i = Some x) as Hap.
  { intros i x Hi. by apply lookup_app_l_Some. }
  assert ((entrees m ++ [mk_entry k 0]) !! n = Some (mk_entry k 0)) as Hn.
  { unfold n. by rewrite lookup_app_r, Nat.sub_diag by done. }
  assert (forall s l, alter (fun l => l ++ [n]) s0 (table m) !! s = Some l ->
    exists l1, table m !! s = Some l1 /\ forall i, i ∈ l -> i ∈ l1 \/ (s = s0 /\ i = n)) as Hta.
  { intros s l Hs. destruct (decide (s = s0)) as [->|Hne].
    - rewrite list_lookup_alter_eq, Hl0 in Hs. simplify_eq/=.
      exists l0. split; [done|]. intros i Hi. apply elem_of_app in Hi as [|Hi]; [auto|].
      apply list_elem_of_singleton in Hi. auto.
    - rewrite list_lookup_alter_ne in Hs by done. eauto. }
  assert (forall s l i, table m !! s = Some l -> i ∈ l -> (i < n)%nat) as Hlt.
  { intros s l i Hs Hi. destruct (H2 _ _ _ Hs Hi) as (x & Hx & _). by eapply lookup_lt_Some. }
  assert (forall i, dans m i -> dans (mk_monde (entrees m ++ [mk_entry k 0])
            (alter (fun l => l ++ [n]) s0 (table m)) (fils m)) i) as Hdans.
  { intros i (x & l & Hx & Hl & Hi). exists x. cbn. destruct (decide (wait_word_bucket (key x) = s0)) as [E|E].
    - rewrite E in *. exists (l ++ [n]). rewrite list_lookup_alter_eq, Hl. cbn.
      split_and!; [by apply Hap|done|apply elem_of_app; by left].
    - exists l. rewrite list_lookup_alter_ne by done. eauto. }
  split_and!; [split; cbn| |done|].
  - by rewrite length_alter.
  - intros s l i Hl Hi. destruct (Hta _ _ Hl) as (l1 & Hl1 & Hin). destruct (Hin i Hi) as [Hi1|[-> ->]].
    + destruct (H2 _ _ _ Hl1 Hi1) as (x & Hx & ->). eauto.
    + eexists. by split; [exact Hn|].
  - intros s l i i' Hl Hi Hi' Hc. destruct (Hta _ _ Hl) as (l1 & Hl1 & Hin). unfold cle in Hc. cbn in Hc.
    assert (forall j, j ∈ l1 -> cle m j = key <$> (entrees m ++ [mk_entry k 0]) !! j) as Hcl.
    { intros j Hj. destruct (H2 _ _ _ Hl1 Hj) as (x & Hx & _). unfold cle. by rewrite Hx, (Hap _ _ Hx). }
    assert (forall j, j ∈ l1 -> s = s0 -> key <$> (entrees m ++ [mk_entry k 0]) !! j <> Some k) as Hnk.
    { intros j Hj -> Hk. rewrite <- Hcl in Hk by done. eapply trouve_rien; [exact Hf| |exact Hk].
      unfold seau. fold s0. by rewrite Hl1. }
    destruct (Hin i Hi) as [Hi1|[Hs ->]], (Hin i' Hi') as [Hi1'|[Hs' ->]]; [| | |done].
    + apply (H3 s l1); [done|done|done|]. by rewrite !Hcl.
    + rewrite Hn in Hc. by destruct (Hnk i Hi1 Hs').
    + rewrite Hn in Hc. by destruct (Hnk i' Hi1' Hs).
  - intros t f i Ht Hi. apply Hdans. by eapply H4.
  - intros t f i Ht Hi. rewrite length_app. specialize (H5 _ _ _ Ht Hi). cbn. lia.
  - intros i x Hx. apply lookup_app_Some in Hx as [Hx|[Hge Hx]]; [exact (H6 _ _ Hx)|].
    apply list_lookup_singleton_Some in Hx as [Hz <-]. cbn. unfold inscrits.
    destruct (filter _ (fils m)) as [|f q] eqn:Ef; [done|exfalso].
    assert (f ∈ filter (fun f => inscrit_sur f = Some i) (fils m)) as Hf' by (rewrite Ef; by left).
    apply list_elem_of_filter in Hf' as [Hs Hf']. apply list_elem_of_lookup in Hf' as [t Ht].
    assert (arc f = Some i) as Ha by (by destruct f). specialize (H5 _ _ _ Ht Ha). lia.
  - exists (mk_entry k 0), (l0 ++ [n]). cbn. fold s0. rewrite list_lookup_alter_eq, Hl0. cbn.
    split_and!; [done|done|]. apply elem_of_app. right. by left.
  - unfold cle. cbn. by rewrite Hn.
Qed.

(** An entry in the table is referenced by it; another thread that holds it makes three. *)
Lemma seul_detenteur m t e u f :
  Inv m -> dans m e -> fils m !! t = Some (Retire e) -> (strong_count e m <= 2)%nat ->
  fils m !! u = Some f -> arc f = Some e -> u = t.
Proof.
  intros HI (x & l & Hx & Hl & He) Ht Hs Hu Hf. destruct (decide (u = t)) as [|Hn]; [done|exfalso].
  assert (1 <= length (filter (fun l => e ∈ l) (table m)))%nat as H1.
  { destruct (filter _ (table m)) as [|? ?] eqn:E; [|cbn; lia].
    assert (l ∈ filter (fun l => e ∈ l) (table m)) as Hin.
    { apply list_elem_of_filter. split; [done|]. by eapply list_elem_of_lookup_2. }
    rewrite E in Hin. by apply elem_of_nil in Hin. }
  unfold strong_count, compte_arc in Hs.
  pose proof (length_filter_insert (fun f => arc f = Some e) (fils m) t _ Repos Ht) as H2.
  assert (<[t := Repos]> (fils m) !! u = Some f) as Hu' by (by rewrite list_lookup_insert_ne).
  pose proof (length_filter_insert (fun f => arc f = Some e) _ u _ Repos Hu') as H3.
  cbn in H2, H3. repeat case_decide; simplify_eq; lia.
Qed.

Lemma inv_elague m t e :
  Inv m -> fils m !! t = Some (Retire e) -> Inv (pose_fil t (Lache e) (prune_wait_word e m)).
Proof.
  intros HI Ht. assert (dans m e) as Hd by (by eapply (i_fil _ HI)).
  pose proof (i_arc _ HI _ _ _ Ht eq_refl) as Hlt.
  unfold prune_wait_word. destruct (entrees m !! e) as [x|] eqn:Hx.
  2: { apply (inv_fil _ _ (Retire e)); [done|done|done|by intros ? [= <-]|done]. }
  destruct ((waiters x =? 0) && (strong_count e m <=? 2)%nat) eqn:Hc; bool_prop.
  2: { apply (inv_fil _ _ (Retire e)); [done|done|done|by intros ? [= <-]|done]. }
  set (m1 := mk_monde (entrees m) (alter (filter (fun c => c <> e)) (wait_word_bucket (key x)) (table m)) (fils m)).
  assert (forall s l, table m1 !! s = Some l -> exists l1, table m !! s = Some l1 /\
    (forall i, i ∈ l -> i ∈ l1) /\ (forall i, i ∈ l1 -> i <> e -> i ∈ l)) as Hta.
  { intros s l Hs. cbn in Hs. destruct (decide (s = wait_word_bucket (key x))) as [->|Hn].
    - rewrite list_lookup_alter_eq in Hs. destruct (table m !! _) as [l1|]; simplify_eq/=.
      exists l1. split_and!; [done|intros i Hi; by apply list_elem_of_filter in Hi as [_ Hi]|].
      intros i Hi Hne. by apply list_elem_of_filter.
    - rewrite list_lookup_alter_ne in Hs by done. eauto. }
  destruct HI as [H1 H2 H3 H4 H5 H6]. pose proof (Build_Inv m H1 H2 H3 H4 H5 H6) as HI.
  split; cbn.
  - by rewrite length_alter.
  - intros s l i Hl Hi. destruct (Hta s l Hl) as (l1 & Hl1 & Hs & _). eauto.
  - intros s l i i' Hl Hi Hi'. destruct (Hta s l Hl) as (l1 & Hl1 & Hs & _). eauto.
  - intros u f i Hu Hi. apply list_lookup_insert_Some in Hu as [(-> & <- & _)|[Hne Hu]]; [done|].
    assert (i <> e) as Hie.
    { intros ->. apply Hne. symmetry. eapply seul_detenteur; [done|done|done|done|exact Hu|].
      by destruct f. }
    destruct (H4 _ _ _ Hu Hi) as (y & l & Hy & Hl & Hin).
    destruct (decide (wait_word_bucket (key y) = wait_word_bucket (key x))) as [E|E].
    + exists y, (filter (fun c => c <> e) l). cbn. rewrite E, list_lookup_alter_eq, <- E, Hl.
      split_and!; [done|done|]. by apply list_elem_of_filter.
    + exists y, l. cbn. rewrite list_lookup_alter_ne by done. eauto.
  - intros u f i Hu Hi. apply list_lookup_insert_Some in Hu as [(-> & <- & _)|[Hne Hu]].
    + by injection Hi as <-.
    + by eapply H5.
  - intros i y Hy. rewrite (H6 i y Hy). f_equal. unfold inscrits.
    pose proof (length_filter_insert (fun f => inscrit_sur f = Some i) (fils m) t _ (Lache e) Ht) as Hl.
    cbn in Hl. lia.
Qed.

Lemma inv_avance_mot m t f m' : Inv m -> fils m !! t = Some f -> avance t f m = Some m' -> Inv m'.
Proof.
  intros HI Ht Ha. destruct f as [|e|e|e|e|e|e|e|e]; cbn in Ha; simplify_eq.
  - eapply inv_ajoute; try done. left. done.
  - apply (inv_fil _ _ (Attend e)); try done.
    + intros ? [= <-]. by eapply (i_fil _ HI).
    + intros ? [= <-]. by eapply (i_arc _ HI).
  - eapply inv_ajoute; try done. right. done.
  - apply (inv_fil _ _ (Reveille e)); try done.
    + intros ? [= <-]. by eapply (i_fil _ HI).
    + intros ? [= <-]. by eapply (i_arc _ HI).
  - destruct (entrees m !! e) as [x|]; [|done]. destruct (waiters x =? 0); simplify_eq.
    + apply (inv_fil _ _ (Elague e)); try done.
      * intros ? [= <-]. by eapply (i_fil _ HI).
      * intros ? [= <-]. by eapply (i_arc _ HI).
    + apply (inv_fil _ _ (Elague e)); try done. intros ? [= <-]. by eapply (i_arc _ HI).
  - by apply inv_elague.
  - by apply (inv_fil _ _ (Lache e)).
Qed.

Lemma dans_arc m e : dans m e -> (e < length (entrees m))%nat.
Proof. intros (x & l & Hx & _). by eapply lookup_lt_Some. Qed.

Lemma inv_pas_mot a t m m' : Inv m -> pas a t m = Some m' -> Inv m'.
Proof.
  intros HI Hp. unfold pas in Hp. destruct (fils m !! t) as [f|] eqn:Ht; [|done].
  destruct a as [k|k| |].
  - destruct f; try done. destruct (wait_word_entry k m) as [e m1] eqn:He. simplify_eq.
    destruct (inv_entree _ _ _ _ HI He) as (HI1 & Hd & Hf & _).
    apply (inv_fil _ _ Repos); [done|by rewrite Hf|by intros ? [= <-]| |done].
    intros ? [= <-]. by apply dans_arc.
  - destruct f; try done. unfold wait_word_existing in Hp. destruct (trouve m k) as [e|] eqn:He; simplify_eq; [|done].
    destruct (trouve_spec _ _ _ HI He) as [Hk Hs]. pose proof (seau_dans _ _ _ HI Hk Hs) as Hd.
    apply (inv_fil _ _ Repos); [done|done|by intros ? [= <-]| |done]. intros ? [= <-]. by apply dans_arc.
  - by eapply inv_avance_mot.
  - destruct f as [| |e| | | | | |]; simplify_eq. apply (inv_fil _ _ (Attend e)); try done.
    + intros ? [= <-]. by eapply (i_fil _ HI).
    + intros ? [= <-]. by eapply (i_arc _ HI).
Qed.

Lemma inv_atteint_mot n m : atteint n m -> Inv m.
Proof.
  induction 1 as [|a t m m' _ IH Hp]; [|by eapply inv_pas_mot].
  assert (forall t f, replicate n Repos !! t = Some f -> f = Repos) as Hr.
  { intros t f Ht. by apply lookup_replicate in Ht as [-> _]. }
  split; unfold initial; cbn [table fils entrees].
  - by rewrite length_replicate.
  - intros s l e Hs He. apply lookup_replicate in Hs as [-> _]. by apply elem_of_nil in He.
  - intros s l e e' Hs He. apply lookup_replicate in Hs as [-> _]. by apply elem_of_nil in He.
  - intros t f e Ht. apply Hr in Ht as ->. done.
  - intros t f e Ht. apply Hr in Ht as ->. done.
  - intros e x Hx. done.
Qed.

(** C20. The registry of wait words keeps waiters and wakers together: in every interleaving, an
    entry a thread waits on is the one a waker of the same word finds, two threads waiting on
    the same word share it, and its count of waiters is exactly the number of threads between
    their registration and the end of their wait, those killed in it included. *)
Theorem mot_partage n m :
  atteint n m ->
  (forall t e k, fils m !! t = Some (Attend e) -> cle m e = Some k -> wait_word_existing k m = Some e) /\
  (forall t u e e', fils m !! t = Some (Attend e) -> fils m !! u = Some (Attend e') ->
     cle m e = cle m e' -> e = e') /\
  (forall e x, entrees m !! e = Some x -> waiters x = Z.of_nat (inscrits e (fils m))).
Proof.
  intros Hm. pose proof (inv_atteint_mot _ _ Hm) as HI.
  assert (forall t e k, fils m !! t = Some (Attend e) -> cle m e = Some k -> wait_word_existing k m = Some e) as Hw.
  { intros t e k Ht Hk. destruct (i_fil _ HI _ _ _ Ht eq_refl) as (x & l & Hx & Hl & He).
    unfold cle in Hk. rewrite Hx in Hk. simplify_eq/=.
    assert (e ∈ seau m (key x)) as Hs by (unfold seau; by rewrite Hl).
    unfold wait_word_existing. destruct (trouve m (key x)) as [e'|] eqn:Hf.
    - destruct (trouve_spec _ _ _ HI Hf) as [Hk' Hs']. f_equal. unfold seau in Hs'. rewrite Hl in Hs'.
      eapply (i_unique _ HI); [exact Hl|done|done|]. rewrite Hk'. unfold cle. by rewrite Hx.
    - exfalso. eapply trouve_rien; [exact Hf|exact Hs|]. unfold cle. by rewrite Hx. }
  split_and!; [done| |apply HI].
  intros t u e e' Ht Hu Hk. destruct (cle m e') as [k|] eqn:E.
  - pose proof (Hw _ _ _ Ht Hk). pose proof (Hw _ _ _ Hu E). congruence.
  - exfalso. destruct (i_fil _ HI _ _ _ Hu eq_refl) as (x & l & Hx & _). unfold cle in E. by rewrite Hx in E.
Qed.

(** ** Situations *)

(** Two waiters of one word, a waker, and a waiter of another word. *)
Definition s_mots : list (Action * nat) :=
  [(Attente 4096, 0%nat); (Attente 4096, 1%nat); (Attente 8192, 2%nat); (Avance, 0%nat); (Avance, 1%nat);
   (Avance, 2%nat)].
Lemma mot_partage_witness :
  exists m, execute s_mots (initial 3) = Some m /\ fils m = [Attend 0; Attend 0; Attend 1] /\
    wait_word_existing 4096 m = Some 0%nat.
Proof.
  eexists. split; [vm_compute; reflexivity|]. split; [reflexivity|].
  edestruct (mot_partage 3) as (H & _ & _).
  { eapply execute_atteint_mot; [apply atteint_debut|]. exact (eq_refl (execute s_mots (initial 3))). }
  eapply (H 0%nat); reflexivity.
Defined.

(** A thread killed in its wait leaves its count: a waker of the word is told that it woke one,
    though nobody waits any more. *)
Theorem mort_toujours_comptee :
  exists m, atteint 2 m /\ fils m = [Tue 0; Reveille 0] /\ logical 0 5 m = 1.
Proof.
  eexists. split_and!;
    [eapply (execute_atteint_mot _ [(Attente 4096, 0%nat); (Avance, 0%nat); (Meurt, 0%nat); (Reveil 4096, 1%nat)]);
     [apply atteint_debut|]| |]; vm_compute; reflexivity.
Qed.
End MotAttente.
