(* ===== verification/OrdreVerrous.v ===== *)
(** Lock ordering: the checker of traces of [src/kernel/sync/ordre_verrous.rs], the runtime
    check of [src/kernel/sync/lockdep.rs] and the ranked locks of [src/kernel/sync/ranked.rs]
    that call it, and why neither leaves room for a deadlock. *)

From S2P Require Import Prelude.

(** ** Waiting in circles *)

Module Interblocage.

(** Whoever waits holds only locks of a lower rank than the one it waits for, and whoever
    holds a lock someone waits for is itself waiting: then nobody waits. *)
Lemma attente_acyclique {V} (rang : V -> Z) (attendu : nat -> option V) (tient : nat -> V -> Prop)
    (n : nat) :
  (forall i v, attendu i = Some v -> (i < n)%nat) ->
  (forall i v, attendu i = Some v -> exists j w, tient j v /\ attendu j = Some w) ->
  (forall i v w, tient i v -> attendu i = Some w -> rang v < rang w) ->
  forall i, attendu i = None.
Proof.
  intros Hn Hh Hr. set (r i := match attendu i with Some v => rang v | None => 0 end).
  assert (forall l, l <> [] -> exists i, In i l /\ forall j, In j l -> r j <= r i) as Hmax.
  { induction l as [|a l IH]; [done|intros _]. destruct l as [|b l]; [exists a; simpl; naive_solver lia|].
    destruct IH as (i & Hi & Him); [done|]. destruct (Z_le_gt_dec (r a) (r i)).
    - exists i. split; [by right|]. intros j [<-|Hj]; [done|auto].
    - exists a. split; [by left|]. intros j [<-|Hj]; [lia|]. specialize (Him j Hj). lia. }
  intros i. destruct (attendu i) as [v|] eqn:Hi; [exfalso|done].
  set (l := filter (fun j => is_Some (attendu j)) (seq 0 n)).
  assert (forall j w, attendu j = Some w -> In j l) as Hl.
  { intros j w Hj. apply list_elem_of_In, list_elem_of_filter. split; [eauto|].
    apply elem_of_seq. specialize (Hn j w Hj). lia. }
  destruct (Hmax l) as (k & Hk & Hkm).
  { intros E. specialize (Hl i v Hi). by rewrite E in Hl. }
  apply list_elem_of_In, list_elem_of_filter in Hk as [[w Hw] _].
  destruct (Hh k w Hw) as (j & w' & Hj & Hj'). specialize (Hr j w w' Hj Hj').
  specialize (Hkm j (Hl j w' Hj')). unfold r in Hkm. rewrite Hj', Hw in Hkm. lia.
Qed.
End Interblocage.

(** ** The checker of traces *)

Module OrdreVerrous.
Open Scope Z_scope.

Inductive Verrou := Cache | EtatEntree.
#[export] Instance Verrou_eq_dec : EqDecision Verrou.
Proof. solve_decision. Defined.
Definition rang (v : Verrou) : Z := match v with Cache => 0 | EtatEntree => 1 end.

Inductive Evenement := Prend (v : Verrou) | Rend (v : Verrou).

Inductive Faute :=
| Inversion (pris deja_tenu : Verrou)
| RendSansPrendre (verrou : Verrou)
| FinitEnTenant (verrou : Verrou).

(** [tenus.iter().max_by_key(|v| v.rang())]: the last of the greatest. *)
Fixpoint max_by_key (l : list Verrou) : option Verrou :=
  match l with
  | [] => None
  | v :: l =>
      match max_by_key l with
      | Some w => if rang w <? rang v then Some v else Some w
      | None => Some v
      end
  end.

(** [rposition] and [remove]: the last occurrence goes. *)
Fixpoint retire (v : Verrou) (l : list Verrou) : option (list Verrou) :=
  match l with
  | [] => None
  | w :: l =>
      match retire v l with
      | Some l' => Some (w :: l')
      | None => if decide (w = v) then Some l else None
      end
  end.

Fixpoint verifie_depuis (tenus : list Verrou) (trace : list Evenement) : unit + Faute :=
  match trace with
  | [] => match tenus with v :: _ => inr (FinitEnTenant v) | [] => inl tt end
  | Prend v :: trace =>
      match max_by_key tenus with
      | Some plus_haut =>
          if rang v <=? rang plus_haut then inr (Inversion v plus_haut)
          else verifie_depuis (tenus ++ [v]) trace
      | None => verifie_depuis (tenus ++ [v]) trace
      end
  | Rend v :: trace =>
      match retire v tenus with
      | Some tenus => verifie_depuis tenus trace
      | None => inr (RendSansPrendre v)
      end
  end.
Definition verifie (trace : list Evenement) : unit + Faute := verifie_depuis [] trace.

Lemma max_by_key_spec l v : max_by_key l = Some v -> In v l /\ forall w, In w l -> rang w <= rang v.
Proof.
  revert v. induction l as [|a l IH]; simpl; [done|]. intros v.
  destruct (max_by_key l) as [w|] eqn:E.
  - destruct (IH w eq_refl) as [Hw Hm]. zcas; intros [= <-].
    + split; [by left|]. intros u [<-|Hu]; [lia|]. specialize (Hm u Hu). lia.
    + split; [by right|]. intros u [<-|Hu]; [lia|auto].
  - intros [= <-]. split; [by left|]. intros u [<-|Hu]; [lia|].
    destruct l as [|b l]; [done|]. simpl in E. by repeat case_match.
Qed.
Lemma max_by_key_None l : max_by_key l = None -> l = [].
Proof. destruct l as [|a l]; [done|]. simpl. by repeat case_match. Qed.
Lemma retire_tenu_spec v l l' : retire v l = Some l' -> exists l1 l2, l = l1 ++ v :: l2 /\ l' = l1 ++ l2.
Proof.
  revert l'. induction l as [|a l IH]; simpl; [done|]. intros l'.
  destruct (retire v l) as [l0|].
  - intros [= <-]. destruct (IH l0 eq_refl) as (l1 & l2 & -> & ->). by exists (a :: l1), l2.
  - case_decide; [|done]. intros [= <-]. subst. by exists [], l.
Qed.

(** *** Paths that follow accepted traces *)

(** Each path holds some locks and has a trace ahead; a lock is taken only when nobody holds
    it. *)
Record Chemin := mk_chemin { tenus : list Verrou; reste : list Evenement }.
#[local] Abbreviation Systeme := (list Chemin).

Inductive pas (s : Systeme) : Systeme -> Prop :=
| pas_prend i c v l : s !! i = Some c -> reste c = Prend v :: l ->
    (forall j d, s !! j = Some d -> v ∉ tenus d) ->
    pas s (<[i := mk_chemin (tenus c ++ [v]) l]> s)
| pas_rend i c v l t : s !! i = Some c -> reste c = Rend v :: l -> retire v (tenus c) = Some t ->
    pas s (<[i := mk_chemin t l]> s).

(** What the checker accepted stays accepted along the execution. *)
Definition Accepte (s : Systeme) : Prop :=
  forall i c, s !! i = Some c -> verifie_depuis (tenus c) (reste c) = inl tt.

Lemma accepte_pas s s' : Accepte s -> pas s s' -> Accepte s'.
Proof.
  intros HA Hp i c Hi.
  destruct Hp as [k d v l Hk Hr Hf|k d v l t Hk Hr Ht];
    apply list_lookup_insert_Some in Hi as [(-> & <- & _)|[_ Hi]]; eauto; simpl;
    specialize (HA _ _ Hk); rewrite Hr in HA; simpl in HA.
  - destruct (max_by_key (tenus d)); [|done]. by destruct (_ <=? _).
  - by rewrite Ht in HA.
Qed.

(** A path that can take its next step. *)
Definition peut (s : Systeme) (c : Chemin) : Prop :=
  match reste c with
  | [] => False
  | Prend v :: _ => Forall (fun d => v ∉ tenus d) s
  | Rend v :: _ => is_Some (retire v (tenus c))
  end.
#[local] Instance peut_dec s c : Decision (peut s c).
Proof. unfold peut. destruct (reste c) as [|[v|v] l]; apply _. Defined.

Lemma peut_pas s i c : s !! i = Some c -> peut s c -> exists s', pas s s'.
Proof.
  intros Hi Hp. unfold peut in Hp. destruct (reste c) as [|[v|v] l] eqn:E; [done| |].
  - eexists. eapply pas_prend; [exact Hi|exact E|]. intros j d Hj. exact (Forall_lookup_1 _ s j d Hp Hj).
  - destruct Hp as [t Ht]. eexists. by eapply pas_rend.
Qed.

(** What the checker has accepted, for the next event. *)
Lemma accepte_prend t v l w :
  verifie_depuis t (Prend v :: l) = inl tt -> w ∈ t -> rang w < rang v.
Proof.
  simpl. destruct (max_by_key t) as [h|] eqn:E.
  - destruct (Z.leb_spec (rang v) (rang h)); [done|]. intros _ Hw.
    apply max_by_key_spec in E as [_ E]. specialize (E w (proj1 (list_elem_of_In _ _) Hw)). lia.
  - apply max_by_key_None in E as ->. intros _ Hw. by apply elem_of_nil in Hw.
Qed.

(** A set of paths whose traces the checker accepts never reaches a deadlock: as long as one
    of them has something left to do, one of them can go on. *)
Theorem ordre_sans_interblocage traces s :
  Forall (fun t => verifie t = inl tt) traces ->
  rtc pas (mk_chemin [] <$> traces) s ->
  (forall i c, s !! i = Some c -> reste c = [] /\ tenus c = []) \/ exists s', pas s s'.
Proof.
  intros HT Hs.
  assert (Accepte s) as HA.
  { assert (Accepte (mk_chemin [] <$> traces)) as H0.
    { intros i c Hi. rewrite list_lookup_fmap in Hi. destruct (traces !! i) eqn:E; simplify_eq/=.
      exact (Forall_lookup_1 _ _ _ _ HT E). }
    clear HT. induction Hs; eauto using accepte_pas. }
  clear Hs. destruct (decide (Exists (peut s) s)) as [He|Hn].
  { right. apply Exists_exists in He as (c & Hc & Hp). apply list_elem_of_lookup in Hc as [i Hi].
    by eapply peut_pas. }
  assert (forall i c, s !! i = Some c -> ~ peut s c) as Hb.
  { intros i c Hi Hp. apply Hn, Exists_exists. exists c. split; [|done]. by eapply list_elem_of_lookup_2. }
  set (attendu i := match s !! i with Some (mk_chemin _ (Prend v :: _)) => Some v | _ => None end).
  assert (forall i, attendu i = None) as Hno.
  { apply (Interblocage.attente_acyclique rang attendu
      (fun i v => exists c, s !! i = Some c /\ v ∈ tenus c) (length s)); unfold attendu.
    - intros i v Hi. destruct (s !! i) eqn:E; [by eapply lookup_lt_Some|done].
    - intros i v Hi. destruct (s !! i) as [[t [|[u|u] l]]|] eqn:E; simplify_eq.
      pose proof (Hb _ _ E) as Hp. unfold peut in Hp. cbn in Hp.
      apply not_Forall_Exists in Hp; [|apply _]. apply Exists_exists in Hp as ([t' r'] & Hc & Hin).
      apply list_elem_of_lookup in Hc as [j Hj]. apply dec_stable in Hin. cbn in Hin.
      specialize (HA _ _ Hj). specialize (Hb _ _ Hj). cbn in HA.
      destruct r' as [|[w|w] r'].
      + destruct t'; [by apply elem_of_nil in Hin|done].
      + exists j, w. rewrite Hj. eauto.
      + exfalso. apply Hb. cbn in HA |- *. destruct (retire w t'); [eauto|done].
    - intros i v w (c & Hc & Hv) Hi. rewrite Hc in Hi. destruct c as [t [|[u|u] l]]; simplify_eq.
      exact (accepte_prend _ _ _ _ (HA _ _ Hc) Hv). }
  left. intros i [t r] Hi. specialize (Hno i). unfold attendu in Hno. rewrite Hi in Hno.
  specialize (HA _ _ Hi). specialize (Hb _ _ Hi). cbn in *. destruct r as [|[v|v] r]; [by destruct t|done|].
  exfalso. apply Hb. cbn. simpl in HA. destruct (retire v t); [eauto|done].
Qed.

(** A path that takes both locks, and two of them at once. *)
Definition t_deux : list Evenement := [Prend Cache; Prend EtatEntree; Rend Cache; Rend EtatEntree].
Lemma ordre_sans_interblocage_witness :
  verifie t_deux = inl tt /\
  ((forall i c, (mk_chemin [] <$> [t_deux; t_deux]) !! i = Some c -> reste c = [] /\ tenus c = []) \/
   exists s', pas (mk_chemin [] <$> [t_deux; t_deux]) s').
Proof.
  split; [reflexivity|]. apply (ordre_sans_interblocage [t_deux; t_deux]); [|apply rtc_refl].
  by repeat constructor.
Defined.
End OrdreVerrous.

(** ** The runtime check *)

Module Lockdep.
Open Scope Z_scope.

Definition MAX_HELD : nat := 16.

Inductive LockClass :=
| SchedulerTransition | SchedulerAlarms | TaskTable | ProcessTable | Process | FdTable
| PosixRecord | Vfs | PageCache | Vm | Network | Driver | Persistence.
#[export] Instance LockClass_eq_dec : EqDecision LockClass.
Proof. solve_decision. Defined.

Definition rank (c : LockClass) : Z :=
  match c with
  | SchedulerTransition => 1 | SchedulerAlarms => 5 | TaskTable => 10 | ProcessTable => 20
  | Process => 30 | FdTable => 40 | PosixRecord => 45 | Vfs => 50 | PageCache => 60 | Vm => 70
  | Network => 80 | Driver => 90 | Persistence => 100
  end.

(** The stack of one processor: [DEPTH[c]] and [STACK[c]]. *)
Record Pile := mk_pile { depth : nat; stack : list Z }.
Definition pile_vide : Pile := mk_pile 0 (replicate MAX_HELD 0).

(** [false] is the panic of a debug build. *)
Definition before_acquire (p : Pile) (c : LockClass) : bool :=
  match depth p with
  | O => true
  | d => match stack p !! (Nat.min d MAX_HELD - 1)%nat with
         | Some previous => negb (rank c <=? previous)
         | None => false
         end
  end.
(** [None] is the panic. *)
Definition acquired (p : Pile) (c : LockClass) : option Pile :=
  if (MAX_HELD <=? depth p)%nat then None
  else Some (mk_pile (S (depth p)) (<[depth p := rank c]> (stack p))).
Definition released (p : Pile) (c : LockClass) : option Pile :=
  match depth p with
  | O => None
  | S index =>
      match stack p !! index with
      | Some actual => if actual =? rank c then Some (mk_pile index (<[index := 0]> (stack p))) else None
      | None => None
      end
  end.

(** *** The stack as a list of ranks, the last taken first *)

Definition vue (p : Pile) : list Z := reverse (take (depth p) (stack p)).
Definition pile_ok (p : Pile) : Prop := length (stack p) = MAX_HELD /\ (depth p <= MAX_HELD)%nat.

Lemma vue_vide : vue pile_vide = [] /\ pile_ok pile_vide.
Proof. by split; [|split]; [..|cbn; lia]. Qed.

Lemma vue_sommet p : pile_ok p -> (depth p <> 0)%nat ->
  exists r, stack p !! (depth p - 1)%nat = Some r /\
    vue p = r :: reverse (take (depth p - 1) (stack p)).
Proof.
  intros [Hl Hd] Hn. destruct (lookup_lt_is_Some_2 (stack p) (depth p - 1)) as [r Hr]; [lia|].
  exists r. split; [done|]. unfold vue.
  replace (depth p) with (S (depth p - 1)) at 1 by lia.
  by rewrite (take_S_r _ _ r Hr), reverse_snoc.
Qed.

Lemma before_acquire_vue p c : pile_ok p ->
  before_acquire p c = match vue p with [] => true | r :: _ => r <? rank c end.
Proof.
  intros Hp. unfold before_acquire. destruct (depth p) as [|d] eqn:Ed.
  - unfold vue. by rewrite Ed.
  - destruct (vue_sommet p Hp) as (r & Hr & ->); [lia|]. destruct Hp as [_ Hd].
    rewrite Nat.min_l by lia. rewrite Ed in Hr. rewrite Hr. zcas.
Qed.

Lemma acquired_vue p c p' : pile_ok p -> acquired p c = Some p' ->
  pile_ok p' /\ vue p' = rank c :: vue p.
Proof.
  intros [Hl Hd]. unfold acquired. destruct (Nat.leb_spec MAX_HELD (depth p)); [done|].
  intros [= <-]. split; [split; cbn; [by rewrite length_insert|lia]|].
  unfold vue. cbn [depth stack].
  rewrite (take_S_r _ _ (rank c)) by (apply list_lookup_insert_eq; lia).
  by rewrite reverse_snoc, take_insert_ge by lia.
Qed.

Lemma released_vue p c p' : pile_ok p -> released p c = Some p' ->
  pile_ok p' /\ vue p = rank c :: vue p'.
Proof.
  intros Hp. unfold released. destruct (depth p) as [|d] eqn:Ed; [done|].
  destruct (vue_sommet p Hp) as (r & Hr & Hv); [lia|]. rewrite Ed in Hr, Hv.
  replace (S d - 1)%nat with d in * by lia. rewrite Hr. destruct Hp as [Hl Hd].
  destruct (Z.eqb_spec r (rank c)) as [->|]; [|done]. intros [= <-].
  split; [split; cbn; [by rewrite length_insert|lia]|].
  rewrite Hv. unfold vue. cbn. by rewrite take_insert_ge by lia.
Qed.

(** *** Processors that take ranked locks *)

(** A lock: its class and its identity. *)
Abbreviation Verrou := (LockClass * Z)%type.

(** What a processor runs; [try_lock] branches on its answer. *)
Inductive Prog :=
| Fini
| Prend (v : Verrou) (p : Prog)
| Essaie (v : Verrou) (pris refuse : Prog)
| Rend (v : Verrou) (p : Prog).

(** Where it stands in [lock], [try_lock] and the drop of a guard. *)
Inductive Ou :=
| Va (p : Prog)
| Tourne (v : Verrou) (p : Prog)             (* checked, spinning *)
| Tente (v : Verrou) (pris refuse : Prog)    (* checked, one attempt *)
| Note (v : Verrou) (p : Prog)               (* lock taken, [acquired] next *)
| Depile (v : Verrou) (p : Prog).            (* lock given back, [released] next *)

Record Coeur := mk_coeur { pile : Pile; detenus : list Verrou; ou : Ou }.

Fixpoint retire (v : Verrou) (l : list Verrou) : list Verrou :=
  match l with [] => [] | w :: l => if decide (w = v) then l else w :: retire v l end.

Definition libre (s : list Coeur) (v : Verrou) : Prop := Forall (fun c => v ∉ detenus c) s.

(** One access of a processor: the processor after it, or [None] for the panic. *)
Inductive acces (s : list Coeur) (c : Coeur) : option Coeur -> Prop :=
| a_verifie v p : ou c = Va (Prend v p) ->
    acces s c (if before_acquire (pile c) v.1
               then Some (mk_coeur (pile c) (detenus c) (Tourne v p)) else None)
| a_prend v p : ou c = Tourne v p -> libre s v ->
    acces s c (Some (mk_coeur (pile c) (v :: detenus c) (Note v p)))
| a_essaie v p q : ou c = Va (Essaie v p q) ->
    acces s c (if before_acquire (pile c) v.1
               then Some (mk_coeur (pile c) (detenus c) (Tente v p q)) else None)
| a_pris v p q : ou c = Tente v p q -> libre s v ->
    acces s c (Some (mk_coeur (pile c) (v :: detenus c) (Note v p)))
| a_refuse v p q : ou c = Tente v p q -> ~ libre s v ->
    acces s c (Some (mk_coeur (pile c) (detenus c) (Va q)))
| a_note v p : ou c = Note v p ->
    acces s c ((fun l => mk_coeur l (detenus c) (Va p)) <$> acquired (pile c) v.1)
| a_rend v p : ou c = Va (Rend v p) ->
    acces s c (Some (mk_coeur (pile c) (retire v (detenus c)) (Depile v p)))
| a_depile v p : ou c = Depile v p ->
    acces s c ((fun l => mk_coeur l (detenus c) (Va p)) <$> released (pile c) v.1).

(** A machine, or [None] once it panicked. *)
Inductive pas : option (list Coeur) -> option (list Coeur) -> Prop :=
| pas_coeur s i c c' : s !! i = Some c -> acces s c c' ->
    pas (Some s) ((fun c' => <[i := c']> s) <$> c').

(** Guards: only a lock held is given back, and nothing is held at the end. *)
Fixpoint garde (tenus : list Verrou) (p : Prog) : bool :=
  match p with
  | Fini => bool_decide (tenus = [])
  | Prend v p => garde (v :: tenus) p
  | Essaie v p q => garde (v :: tenus) p && garde tenus q
  | Rend v p => bool_decide (v ∈ tenus) && garde (retire v tenus) p
  end.

Definition machine (l : list Prog) : list Coeur :=
  (fun p => mk_coeur pile_vide [] (Va p)) <$> l.

(** *** Proofs *)

Definition rangs (l : list Verrou) : list Z := (fun v => rank v.1) <$> l.
(** Taken in increasing order: the last taken is the highest. *)
Fixpoint decroit (l : list Z) : Prop :=
  match l with [] => True | r :: l => Forall (fun x => x < r) l /\ decroit l end.

(** The stack mirrors what is held, in order. *)
Definition coherent (c : Coeur) : Prop :=
  pile_ok (pile c) /\
  match ou c with
  | Va p => vue (pile c) = rangs (detenus c) /\ decroit (rangs (detenus c)) /\ garde (detenus c) p = true
  | Tourne v p =>
      vue (pile c) = rangs (detenus c) /\ decroit (rangs (v :: detenus c)) /\
      garde (v :: detenus c) p = true
  | Tente v p q =>
      vue (pile c) = rangs (detenus c) /\ decroit (rangs (v :: detenus c)) /\
      garde (v :: detenus c) p = true /\ garde (detenus c) q = true
  | Note v p =>
      exists l, detenus c = v :: l /\ vue (pile c) = rangs l /\ decroit (rangs (v :: l)) /\
      garde (v :: l) p = true
  | Depile v p =>
      exists l, v ∈ l /\ detenus c = retire v l /\ vue (pile c) = rangs l /\ decroit (rangs l) /\
      garde (retire v l) p = true
  end.

Lemma monte p l v :
  pile_ok p -> vue p = rangs l -> decroit (rangs l) -> before_acquire p v.1 = true ->
  decroit (rangs (v :: l)).
Proof.
  intros Hp Hv Hd Hs. change (rangs (v :: l)) with (rank v.1 :: rangs l). cbn [decroit].
  rewrite before_acquire_vue, Hv in Hs by done.
  split; [|done]. destruct (rangs l) as [|r q] eqn:E; [done|].
  destruct Hd as [Hf _]. bool_prop. constructor; [done|].
  eapply Forall_impl; [exact Hf|]. cbn. intros. lia.
Qed.
Lemma retire_sommet v l q :
  v ∈ l -> decroit (rangs l) -> rangs l = rank v.1 :: q -> rangs (retire v l) = q.
Proof.
  intros Hv Hd E. destruct l as [|w l]; [done|]. cbn in *. simplify_eq. case_decide as Hw; [done|].
  exfalso. apply elem_of_cons in Hv as [->|Hv]; [done|]. destruct Hd as [Hf _].
  rewrite Forall_fmap, Forall_forall in Hf. specialize (Hf v Hv). cbn in Hf. lia.
Qed.
Lemma decroit_queue l r q : decroit l -> l = r :: q -> decroit q.
Proof. intros Hd ->. by destruct Hd. Qed.

Lemma coherent_acces s c c' : coherent c -> acces s c (Some c') -> coherent c'.
Proof.
  intros [Hp Hc] Ha. inversion Ha as [v p E Hr|v p E Hl Hr|v p q E Hr|v p q E Hl Hr|v p q E Hl Hr
    |v p E Hr|v p E Hr|v p E Hr]; rewrite E in Hc; clear Ha; subst.
  - destruct Hc as (Hv & Hd & Hg). destruct (before_acquire _ _) eqn:Hb; simplify_eq.
    split; [done|]. by split_and!; [|eapply monte|].
  - destruct Hc as (Hv & Hd & Hg). split; [done|]. exists (detenus c). eauto.
  - destruct Hc as (Hv & Hd & Hg). destruct (before_acquire _ _) eqn:Hb; simplify_eq.
    cbn in Hg. bool_prop. split; [done|]. by split_and!; [|eapply monte| |].
  - destruct Hc as (Hv & Hd & Hg & _). split; [done|]. exists (detenus c). eauto.
  - destruct Hc as (Hv & [_ Hd] & _ & Hg). split; [done|]. by split_and!.
  - destruct (acquired _ _) as [l'|] eqn:Hq; simplify_eq/=. destruct Hc as (l & Hl & Hv & Hd & Hg).
    destruct (acquired_vue _ _ _ Hp Hq) as [Hp' Hv']. split; [done|]. cbn. rewrite Hl.
    split_and!; [by rewrite Hv', Hv|done|done].
  - destruct Hc as (Hv & Hd & Hg). cbn in Hg. bool_prop. split; [done|]. exists (detenus c). eauto.
  - destruct (released _ _) as [l'|] eqn:Hq; simplify_eq/=. destruct Hc as (l & Hin & Hl & Hv & Hd & Hg).
    destruct (released_vue _ _ _ Hp Hq) as [Hp' Hv']. rewrite Hv in Hv'.
    pose proof (retire_sommet v l _ Hin Hd Hv') as Hq'.
    split; [done|]. cbn [ou detenus pile]. rewrite Hl, Hq'. split_and!; [done|by eapply decroit_queue|done].
Qed.

Lemma coherent_atteint progs s :
  Forall (fun p => garde [] p = true) progs ->
  rtc pas (Some (machine progs)) (Some s) -> forall i c, s !! i = Some c -> coherent c.
Proof.
  intros HP Hs. remember (Some (machine progs)) as a eqn:Ha. remember (Some s) as b eqn:Hb.
  assert (forall m, a = Some m -> forall i c, m !! i = Some c -> coherent c) as H0.
  { intros m -> i c Hi. simplify_eq. unfold machine in Hi. rewrite list_lookup_fmap in Hi.
    destruct (progs !! i) eqn:E; simplify_eq/=. destruct vue_vide as [Hv Hp].
    split; [done|]. split_and!; [done|done|]. exact (Forall_lookup_1 _ _ _ _ HP E). }
  clear HP Ha. revert s Hb H0. induction Hs as [|a m b Ha _ IH]; intros s Hb H0; [by apply H0|].
  apply (IH s Hb). clear IH. intros m' ->. inversion Ha as [s0 i c c' Hi Hc E1 E2]. subst.
  destruct c' as [c'|]; simplify_eq/=. intros j d Hj.
  apply list_lookup_insert_Some in Hj as [(-> & <- & _)|[_ Hj]]; [|by eapply H0].
  eapply coherent_acces; [|exact Hc]. by eapply H0.
Qed.

(** A processor that can go on. *)
Definition peut (s : list Coeur) (c : Coeur) : Prop :=
  match ou c with Va Fini => False | Tourne v _ => libre s v | _ => True end.
#[local] Instance libre_dec s v : Decision (libre s v).
Proof. unfold libre. apply _. Defined.
#[local] Instance peut_dec s c : Decision (peut s c).
Proof. unfold peut. destruct (ou c) as [[]| | | |]; apply _. Defined.

Lemma peut_acces s c : peut s c -> exists c', acces s c c'.
Proof.
  unfold peut. destruct (ou c) as [[|v p|v p q|v p]|v p|v p q|v p|v p] eqn:E; intros H; try done;
    try (eexists; by econstructor).
  destruct (decide (libre s v)); eexists; [by eapply a_pris|by eapply a_refuse].
Qed.

(** The locks a processor holds while it spins have a lower rank than the one it wants. *)
Lemma tourne_rang c v p w : coherent c -> ou c = Tourne v p -> w ∈ detenus c -> rank w.1 < rank v.1.
Proof.
  intros [_ Hc] E Hw. rewrite E in Hc. destruct Hc as (_ & [Hf _] & _).
  unfold rangs in Hf. rewrite Forall_fmap, Forall_forall in Hf. exact (Hf w Hw).
Qed.

(** C19. Ranked locks never deadlock: processors that run any code whose guards are all dropped,
    [try_lock] and its branches included, can always go on until all of them have finished,
    unless the check has stopped the machine. *)
Theorem lockdep_sans_interblocage progs s :
  Forall (fun p => garde [] p = true) progs ->
  rtc pas (Some (machine progs)) (Some s) ->
  (forall i c, s !! i = Some c -> ou c = Va Fini /\ detenus c = []) \/ exists s', pas (Some s) s'.
Proof.
  intros HP Hs.
  assert (forall i c, s !! i = Some c -> coherent c) as HC by (by eapply coherent_atteint).
  clear HP Hs. destruct (decide (Exists (peut s) s)) as [He|Hn].
  { right. apply Exists_exists in He as (c & Hc & Hp). apply list_elem_of_lookup in Hc as [i Hi].
    destruct (peut_acces _ _ Hp) as [c' Hc']. eexists. by eapply pas_coeur. }
  assert (forall i c, s !! i = Some c -> ~ peut s c) as Hb.
  { intros i c Hi Hp. apply Hn, Exists_exists. exists c. split; [|done]. by eapply list_elem_of_lookup_2. }
  assert (forall i c, s !! i = Some c -> (ou c = Va Fini /\ detenus c = []) \/
            exists v p, ou c = Tourne v p /\ ~ libre s v) as Hou.
  { intros i c Hi. specialize (Hb _ _ Hi). destruct (HC _ _ Hi) as [_ Hc]. unfold peut in Hb.
    destruct (ou c) as [[]| | | |]; try (by destruct Hb); [left|right; eauto].
    destruct Hc as (_ & _ & Hg). cbn in Hg. by bool_prop. }
  set (attendu i := match s !! i with Some (mk_coeur _ _ (Tourne v _)) => Some v | _ => None end).
  assert (forall i, attendu i = None) as Hno.
  { apply (Interblocage.attente_acyclique (fun v : Verrou => rank v.1) attendu
      (fun i v => exists c, s !! i = Some c /\ v ∈ detenus c) (length s)); unfold attendu.
    - intros i v Hi. destruct (s !! i) eqn:E; [by eapply lookup_lt_Some|done].
    - intros i v Hi. destruct (s !! i) as [[l d [|u p| | |]]|] eqn:E; simplify_eq.
      destruct (Hou _ _ E) as [[? _]|(u' & p' & [= <- <-] & Hl)]; [done|].
      apply not_Forall_Exists in Hl; [|apply _]. apply Exists_exists in Hl as ([l' d' o'] & Hc & Hin).
      apply list_elem_of_lookup in Hc as [j Hj]. apply dec_stable in Hin. cbn in Hin.
      destruct (Hou _ _ Hj) as [[_ Hd]|(w & q & Ho & _)]; cbn in *; subst.
      + by apply elem_of_nil in Hin.
      + exists j, w. rewrite Hj. eauto.
    - intros i v w (c & Hc & Hv) Hi. rewrite Hc in Hi. destruct c as [l d [|u p| | |]]; simplify_eq.
      exact (tourne_rang _ w p v (HC _ _ Hc) eq_refl Hv). }
  left. intros i c Hi. destruct (Hou _ _ Hi) as [|(v & p & Ho & _)]; [done|exfalso].
  specialize (Hno i). unfold attendu in Hno. rewrite Hi in Hno. destruct c. cbn in Ho. by subst.
Qed.

(** *** No false alarm *)

(** Locks taken in increasing order of rank, at most [MAX_HELD] at once, and given back in
    the reverse order. *)
Fixpoint ordonne (tenus : list Verrou) (p : Prog) : bool :=
  let monte v := bool_decide (Forall (fun w : Verrou => rank w.1 < rank v.1) tenus)
                 && (length tenus <? MAX_HELD)%nat in
  match p with
  | Fini => bool_decide (tenus = [])
  | Prend v p => monte v && ordonne (v :: tenus) p
  | Essaie v p q => monte v && ordonne (v :: tenus) p && ordonne tenus q
  | Rend v p => match tenus with w :: l => bool_decide (w = v) && ordonne l p | [] => false end
  end.

Lemma ordonne_garde p : forall l, ordonne l p = true -> garde l p = true.
Proof.
  induction p as [|v p IH|v p IHp q IHq|v p IH]; intros l Ho; cbn in *; bool_prop.
  - by apply bool_decide_eq_true.
  - auto.
  - apply andb_true_iff; auto.
  - destruct l as [|w l]; [done|]. bool_prop. subst. apply andb_true_iff. split.
    + apply bool_decide_eq_true. by left.
    + cbn. rewrite decide_True by done. auto.
Qed.

(** What such a processor keeps true. *)
Definition discipline (c : Coeur) : Prop :=
  match ou c with
  | Va p => ordonne (detenus c) p = true
  | Tourne v p => (length (detenus c) < MAX_HELD)%nat /\ ordonne (v :: detenus c) p = true
  | Tente v p q =>
      (length (detenus c) < MAX_HELD)%nat /\ ordonne (v :: detenus c) p = true /\
      ordonne (detenus c) q = true
  | Note v p => (length (detenus c) <= MAX_HELD)%nat /\ ordonne (detenus c) p = true
  | Depile v p => vue (pile c) = rank v.1 :: rangs (detenus c) /\ ordonne (detenus c) p = true
  end.

Lemma before_acquire_monte p l (v : Verrou) :
  pile_ok p -> vue p = rangs l -> Forall (fun w : Verrou => rank w.1 < rank v.1) l ->
  before_acquire p v.1 = true.
Proof.
  intros Hp Hv Hf. rewrite before_acquire_vue, Hv by done. destruct l as [|w l]; [done|].
  inversion Hf. cbn. by apply Z.ltb_lt.
Qed.
Lemma length_vue p : pile_ok p -> length (vue p) = depth p.
Proof. intros [Hl Hd]. unfold vue. rewrite length_reverse, length_take. lia. Qed.
Lemma released_sommet p c l : pile_ok p -> vue p = rank c :: l -> is_Some (released p c).
Proof.
  intros Hp Hv. assert (depth p <> 0)%nat as Hn.
  { intros E. pose proof (length_vue p Hp) as H. rewrite Hv, E in H. done. }
  destruct (vue_sommet p Hp Hn) as (r & Hr & Hv'). rewrite Hv in Hv'. simplify_eq.
  unfold released. destruct (depth p) as [|d]; [done|]. replace (S d - 1)%nat with d in Hr by lia.
  rewrite Hr, Z.eqb_refl. eauto.
Qed.

Lemma discipline_acces s c r :
  coherent c -> discipline c -> acces s c r -> exists c', r = Some c' /\ discipline c'.
Proof.
  intros [Hp Hc] Hd Ha. unfold discipline in Hd.
  destruct Ha as [v p E|v p E Hl|v p q E|v p q E Hl|v p q E Hl|v p E|v p E|v p E]; rewrite E in Hc, Hd.
  - destruct Hc as (Hv & _ & _). cbn [ordonne] in Hd. bool_prop.
    rewrite (before_acquire_monte _ (detenus c)) by done. eexists. by split; [reflexivity|unfold discipline; cbn [ou detenus pile]; split].
  - destruct Hd as [Hl' Ho]. eexists. split; [done|]. unfold discipline. cbn [ou detenus pile]. split; [cbn; lia|done].
  - destruct Hc as (Hv & _ & _). cbn [ordonne] in Hd. bool_prop.
    rewrite (before_acquire_monte _ (detenus c)) by done. eexists. by split; [reflexivity|unfold discipline; cbn [ou detenus pile]; split_and!].
  - destruct Hd as (Hl' & Ho & _). eexists. split; [done|]. unfold discipline. cbn [ou detenus pile]. split; [cbn; lia|done].
  - destruct Hd as (_ & _ & Ho). eexists. by split.
  - destruct Hc as (l & Hl & Hv & _). destruct Hd as [Hl' Ho]. unfold acquired.
    pose proof (length_vue _ Hp) as Hlen. rewrite Hv in Hlen. unfold rangs in Hlen.
    rewrite length_fmap in Hlen. rewrite Hl in Hl'. cbn [length] in Hl'.
    destruct (Nat.leb_spec MAX_HELD (depth (pile c))); [lia|]. eexists. by split.
  - destruct Hc as (Hv & _ & _). cbn [ordonne] in Hd. destruct (detenus c) as [|w l] eqn:El; [done|].
    bool_prop. subst w. eexists. split; [done|]. cbn. rewrite decide_True by done. done.
  - destruct Hd as [Hv Ho]. destruct (released_sommet _ _ _ Hp Hv) as [l ->]. eexists. by split.
Qed.

Lemma discipline_atteint progs s :
  Forall (fun p => ordonne [] p = true) progs ->
  rtc pas (Some (machine progs)) s ->
  exists l, s = Some l /\ forall i c, l !! i = Some c -> coherent c /\ discipline c.
Proof.
  intros HP Hs. remember (Some (machine progs)) as a eqn:Ha.
  assert (exists l, a = Some l /\ forall i c, l !! i = Some c -> coherent c /\ discipline c) as H0.
  { eexists. split; [exact Ha|]. intros i c Hi. unfold machine in Hi. rewrite list_lookup_fmap in Hi.
    destruct (progs !! i) eqn:E; simplify_eq/=. destruct vue_vide as [Hv Hp].
    pose proof (Forall_lookup_1 _ _ _ _ HP E) as Ho. cbn in Ho.
    split; [split; [done|]; split_and!; [done|done|by apply ordonne_garde]|done]. }
  clear HP Ha. induction Hs as [|a m b Ha _ IH]; [done|]. apply IH. clear IH.
  destruct H0 as (l & -> & Hl). inversion Ha as [s0 i c c' Hi Hc E1 E2]. subst.
  destruct (Hl _ _ Hi) as [Hco Hdi]. destruct (discipline_acces _ _ _ Hco Hdi Hc) as (c1 & -> & Hd1).
  eexists. split; [reflexivity|]. intros j d Hj.
  apply list_lookup_insert_Some in Hj as [(-> & <- & _)|[_ Hj]]; [|by eapply Hl].
  split; [by eapply coherent_acces|done].
Qed.

(** The check has no false alarm: processors that take locks in increasing order of rank, no
    more than [MAX_HELD] at once, and give them back in the reverse order never stop the
    machine, and they all finish or can go on. *)
Theorem lockdep_sans_fausse_alerte progs s :
  Forall (fun p => ordonne [] p = true) progs ->
  rtc pas (Some (machine progs)) s ->
  exists l, s = Some l /\
  forall i c r, l !! i = Some c -> acces l c r -> r <> None.
Proof.
  intros HP Hs. destruct (discipline_atteint _ _ HP Hs) as (l & -> & Hl). exists l. split; [done|].
  intros i c r Hi Hr. destruct (Hl _ _ Hi). by destruct (discipline_acces _ _ _ H H0 Hr) as (c' & -> & _).
Qed.

(** Two processors that take the process lock and then the descriptors of a process, one of
    them trying the network lock in between. *)
Definition exemple : list Prog :=
  let p : Verrou := (Process, 0) in let f : Verrou := (FdTable, 0) in let n : Verrou := (Network, 1) in
  [Prend p (Prend f (Rend f (Rend p Fini)));
   Prend p (Essaie n (Rend n (Rend p Fini)) (Prend f (Rend f (Rend p Fini))))].

Lemma lockdep_sans_interblocage_witness :
  (forall i c, machine exemple !! i = Some c -> ou c = Va Fini /\ detenus c = []) \/
  exists s', pas (Some (machine exemple)) s'.
Proof.
  apply (lockdep_sans_interblocage exemple); [|apply rtc_refl].
  apply (bool_decide_unpack _). vm_compute. exact I.
Defined.
Lemma lockdep_sans_fausse_alerte_witness :
  exists l, Some (machine exemple) = Some l /\
  forall i c r, l !! i = Some c -> acces l c r -> r <> None.
Proof.
  apply (lockdep_sans_fausse_alerte exemple); [|apply rtc_refl].
  apply (bool_decide_unpack _). vm_compute. exact I.
Defined.
End Lockdep.
