(* ===== verification/Echeances.v ===== *)
(** Deadlines: the single atomic bound that says when the task table must be swept,
    [src/kernel/scheduler/echeances.rs], with the sleeper's side of the protocol
    ([prepare_park_current_on_detached], [dort_jusqua]) and the sweep ([wake_sleepers],
    [recalcule_echeance]) of [src/kernel/process/thread/].

    The model steps one atomic access at a time: any number of tasks park, arm, are woken
    and resume while any number of cores sweep. The bounds per core and per class are
    hints computed by the same operations on the same table; the global one modelled here
    is the one that decides a sweep. *)

From S2P Require Import Prelude.

Module Echeances.

(** ** The bound *)

Definition JAMAIS : Z := u64_max - 1.
Definition neuve : Z := JAMAIS.
Definition arme (prochaine deadline_ns : Z) : Z :=
  if deadline_ns =? 0 then prochaine else Z.min prochaine deadline_ns.
Definition doit_balayer (prochaine maintenant_ns : Z) : bool := prochaine <=? maintenant_ns.
(** The compare-and-swap that succeeds reads and writes at one point. *)
Definition commence_balayage (prochaine maintenant_ns : Z) : Z * bool :=
  if maintenant_ns <? prochaine then (prochaine, false) else (JAMAIS, true).
Definition recale (prochaine minimum_ns : Z) : Z := Z.min prochaine minimum_ns.

(** ** Tasks and cores *)

(** A task: running its code, with [Blocked] published, or armed and off to sleep. *)
Inductive Endroit := Marche | Publie | Gare.
Record Tache := mk_tache { wake_deadline_ns : Z; blocked : bool; endroit : Endroit }.
Definition tache_neuve : Tache := mk_tache 0 false Marche.

(** A core: idle, waking the tasks due from [k] on, recomputing the minimum from [k] on,
    between the two reads of task [k], or about to publish the minimum. *)
Inductive Balayeur :=
| Repos
| Reveille (k : nat) (now : Z)
| Recalcule (k : nat) (minimum : Z)
| Lu (k : nat) (echeance minimum : Z)
| Publiera (minimum : Z).

Record Machine := mk_machine { prochaine : Z; taches : list Tache; coeurs : list Balayeur }.
Definition machine_neuve (n c : nat) : Machine :=
  mk_machine neuve (replicate n tache_neuve) (replicate c Repos).

(** What a task does: write its deadline, publish [Blocked], arm, and once it is ready
    again clear its deadline. Nothing but its wakeup changes it while it is parked. *)
Inductive pas_tache (p : Z) : Tache -> Z -> Tache -> Prop :=
| t_echeance t d : endroit t = Marche -> blocked t = false -> 0 <= d < JAMAIS ->
    pas_tache p t p (mk_tache d false Marche)
| t_publie t : endroit t = Marche -> blocked t = false ->
    pas_tache p t p (mk_tache (wake_deadline_ns t) true Publie)
| t_arme t : endroit t = Publie ->
    pas_tache p t (arme p (wake_deadline_ns t)) (mk_tache (wake_deadline_ns t) (blocked t) Gare)
| t_reveillee t : endroit t <> Marche -> blocked t = true ->
    pas_tache p t p (mk_tache (wake_deadline_ns t) false (endroit t))
| t_reprend t : endroit t = Gare -> blocked t = false ->
    pas_tache p t p (mk_tache 0 false Marche).

(** The wakeup of one due task by a sweep. *)
Definition reveille_due (now : Z) (t : Tache) : Tache :=
  if negb (wake_deadline_ns t =? 0) && (wake_deadline_ns t <=? now) && blocked t
  then mk_tache (wake_deadline_ns t) false (endroit t) else t.

(** What a sweep keeps of task [k], its deadline read before its state. *)
Definition retient (t : Tache) (echeance minimum : Z) : Z :=
  if blocked t && negb (echeance =? 0) && (echeance <? minimum) then echeance else minimum.

(** One access of a sweep of [n] tasks: [wake_sleepers] then [recalcule_echeance]. The
    alarms, which are not tasks, can only lower the minimum. *)
Inductive pas_balayeur (n : nat) (p : Z) (l : list Tache) :
  Balayeur -> Z -> list Tache -> Balayeur -> Prop :=
| b_commence now : (commence_balayage p now).2 = true ->
    pas_balayeur n p l Repos (commence_balayage p now).1 l (Reveille 0 now)
| b_reveille k now t : l !! k = Some t ->
    pas_balayeur n p l (Reveille k now) p (<[k := reveille_due now t]> l) (Reveille (S k) now)
| b_fin_reveil k now : (n <= k)%nat ->
    pas_balayeur n p l (Reveille k now) p l (Recalcule 0 JAMAIS)
| b_lit k m t : l !! k = Some t ->
    pas_balayeur n p l (Recalcule k m) p l (Lu k (wake_deadline_ns t) m)
| b_retient k e m t : l !! k = Some t ->
    pas_balayeur n p l (Lu k e m) p l (Recalcule (S k) (retient t e m))
| b_alarmes k m m' : (n <= k)%nat -> m' <= m ->
    pas_balayeur n p l (Recalcule k m) p l (Publiera m')
| b_publie m :
    pas_balayeur n p l (Publiera m) (recale p m) l Repos.

Inductive pas_machine : Machine -> Machine -> Prop :=
| pas_d_une_tache m i t p' t' :
    taches m !! i = Some t -> pas_tache (prochaine m) t p' t' ->
    pas_machine m (mk_machine p' (<[i := t']> (taches m)) (coeurs m))
| pas_d_un_coeur m c b p' l' b' :
    coeurs m !! c = Some b ->
    pas_balayeur (length (taches m)) (prochaine m) (taches m) b p' l' b' ->
    pas_machine m (mk_machine p' l' (<[c := b']> (coeurs m))).

Inductive atteinte (n c : nat) : Machine -> Prop :=
| debut : atteinte n c (machine_neuve n c)
| encore m m' : atteinte n c m -> pas_machine m m' -> atteinte n c m'.

(** ** The invariant *)

(** Task [i], parked with deadline [d], is covered by a sweep that has still to look at
    it, or that already keeps a minimum no later than [d]. *)
Definition couvre (i : nat) (d : Z) (b : Balayeur) : Prop :=
  match b with
  | Repos => False
  | Reveille _ _ => True
  | Recalcule k m => (k <= i)%nat \/ m <= d
  | Lu k e m => (k < i)%nat \/ (k = i /\ e = d) \/ m <= d
  | Publiera m => m <= d
  end.

Definition en_attente (t : Tache) : Prop :=
  endroit t = Gare /\ blocked t = true /\ wake_deadline_ns t <> 0.

Definition Sure (m : Machine) : Prop :=
  forall i t, taches m !! i = Some t -> en_attente t ->
    prochaine m <= wake_deadline_ns t
    \/ exists c b, coeurs m !! c = Some b /\ couvre i (wake_deadline_ns t) b.

Lemma sure_taches p p' l i t' cs :
  p' <= p -> Sure (mk_machine p l cs) ->
  (en_attente t' -> p' <= wake_deadline_ns t'
     \/ exists c b, cs !! c = Some b /\ couvre i (wake_deadline_ns t') b) ->
  Sure (mk_machine p' (<[i := t']> l) cs).
Proof.
  intros Hp H Ht j t Ej Hatt. simpl in *.
  destruct (decide (j = i)) as [->|Hne].
  - destruct (decide (i < length l)%nat).
    + rewrite list_lookup_insert_eq in Ej by done. simplify_eq. auto.
    + rewrite list_insert_ge in Ej by lia. apply lookup_lt_Some in Ej. lia.
  - rewrite list_lookup_insert_ne in Ej by done. destruct (H j t Ej Hatt); simpl in *; [left; lia|by right].
Qed.

Lemma sure_pas_tache m i t p' t' :
  Sure m -> taches m !! i = Some t -> pas_tache (prochaine m) t p' t' ->
  Sure (mk_machine p' (<[i := t']> (taches m)) (coeurs m)).
Proof.
  intros H Ei Hp. destruct m as [p l cs]. simpl in *.
  destruct Hp as [t d He Hb Hd|t He Hb|t He|t He Hb|t He Hb].
  - apply (sure_taches p); [lia|done|]. by intros [? _].
  - apply (sure_taches p); [lia|done|]. by intros [? _].
  - apply (sure_taches p); [unfold arme; destruct (_ =? _); lia|done|].
    intros (_ & _ & Hd). simpl in *. left. unfold arme.
    destruct (Z.eqb_spec (wake_deadline_ns t) 0); [done|lia].
  - apply (sure_taches p); [lia|done|]. by intros (_ & ? & _).
  - apply (sure_taches p); [lia|done|]. by intros (? & _).
Qed.

(** A step of core [c] that keeps the tasks: what it covered it covers, or publishes. *)
Lemma sure_coeur p p' l cs c b b' :
  Sure (mk_machine p l cs) -> cs !! c = Some b ->
  (forall i t, l !! i = Some t -> en_attente t -> p <= wake_deadline_ns t ->
     p' <= wake_deadline_ns t \/ couvre i (wake_deadline_ns t) b') ->
  (forall i t, l !! i = Some t -> en_attente t -> couvre i (wake_deadline_ns t) b ->
     p' <= wake_deadline_ns t \/ couvre i (wake_deadline_ns t) b') ->
  Sure (mk_machine p' l (<[c := b']> cs)).
Proof.
  intros H Ec Hp Hb i t Ei Ha. simpl in *.
  pose proof (lookup_lt_Some _ _ _ Ec) as Hlt.
  assert (p' <= wake_deadline_ns t \/ couvre i (wake_deadline_ns t) b' ->
    p' <= wake_deadline_ns t
    \/ exists c0 b0, <[c := b']> cs !! c0 = Some b0 /\ couvre i (wake_deadline_ns t) b0) as Fin.
  { intros [|]; [by left|]. right. exists c, b'. by rewrite list_lookup_insert_eq. }
  destruct (H i t Ei Ha) as [|(c1 & b1 & Ec1 & Hc1)]; simpl in *; [by apply Fin, Hp|].
  destruct (decide (c1 = c)) as [->|]; [simplify_eq; by apply Fin, Hb|].
  right. exists c1, b1. by rewrite list_lookup_insert_ne.
Qed.

Lemma reveille_due_attente now t : en_attente (reveille_due now t) -> reveille_due now t = t.
Proof. unfold reveille_due. destruct (_ && _ && _); [|done]. by intros (_ & ? & _). Qed.

Lemma retient_borne t e m : retient t e m <= m.
Proof. unfold retient. destruct (_ && _ && (e <? m)) eqn:E; [|lia]. bool_prop. lia. Qed.

Lemma retient_attente t m : en_attente t -> retient t (wake_deadline_ns t) m <= wake_deadline_ns t.
Proof.
  intros (_ & Hb & Hd). unfold retient. rewrite Hb, (proj2 (Z.eqb_neq _ _) Hd). simpl.
  destruct (Z.ltb_spec (wake_deadline_ns t) m); lia.
Qed.

Lemma sure_pas_balayeur m c b p' l' b' :
  Sure m -> coeurs m !! c = Some b ->
  pas_balayeur (length (taches m)) (prochaine m) (taches m) b p' l' b' ->
  Sure (mk_machine p' l' (<[c := b']> (coeurs m))).
Proof.
  intros H Ec Hp. destruct m as [p l cs]. simpl in *.
  destruct Hp as [now Hc|k now t Et|k now Hk|k mi t Et|k e mi t Et|k mi m' Hk Hm|mi].
  - apply (sure_coeur p _ _ _ _ _ _ H Ec); [by intros; right|done].
  - assert (Sure (mk_machine p l (<[c := Reveille (S k) now]> cs))) as H1.
    { apply (sure_coeur p _ _ _ _ _ _ H Ec); [by intros; left|by intros; right]. }
    apply (sure_taches p); [lia|done|]. intros Ha.
    pose proof (reveille_due_attente _ _ Ha) as Er. rewrite Er in Ha |- *. exact (H1 k t Et Ha).
  - apply (sure_coeur p _ _ _ _ _ _ H Ec); [by intros; left|]. intros i t Ei _ _. right. left. lia.
  - apply (sure_coeur p _ _ _ _ _ _ H Ec); [by intros; left|]. intros i t' Ei _ Hc. right. simpl in *.
    destruct (decide (k = i)) as [->|]; [simplify_eq; auto|]. destruct Hc; [left; lia|auto].
  - apply (sure_coeur p _ _ _ _ _ _ H Ec); [by intros; left|]. intros i t' Ei Ha Hc. right. simpl in *.
    pose proof (retient_borne t e mi).
    destruct Hc as [Hlt|[[-> ->]|]]; [left; lia| |right; lia].
    simplify_eq. right. by apply retient_attente.
  - apply (sure_coeur p _ _ _ _ _ _ H Ec); [by intros; left|]. intros i t' Ei Ha Hc. right. simpl in *.
    apply lookup_lt_Some in Ei. destruct Hc; lia.
  - apply (sure_coeur p _ _ _ _ _ _ H Ec).
    + intros. left. unfold recale. lia.
    + intros i t' Ei Ha Hc. left. simpl in Hc. unfold recale. lia.
Qed.

Lemma atteinte_sure n c m : atteinte n c m -> Sure m.
Proof.
  induction 1 as [|m m' _ IH Hp].
  - intros i t Ei (He & _). simpl in Ei. apply lookup_replicate in Ei as [-> _]. done.
  - destruct Hp; [by eapply sure_pas_tache|by eapply sure_pas_balayeur].
Qed.

(** C28. No deadline is lost: under every interleaving of parking tasks, wakeups and
    concurrent sweeps, as long as no sweep is under way a parked task whose deadline is
    reached makes the next look at the bound start a sweep. *)
Theorem echeance_jamais_perdue n c m i t now :
  atteinte n c m -> Forall (fun b => b = Repos) (coeurs m) ->
  taches m !! i = Some t -> en_attente t -> wake_deadline_ns t <= now ->
  doit_balayer (prochaine m) now = true /\ commence_balayage (prochaine m) now = (JAMAIS, true).
Proof.
  intros Ha Hr Ei He Hn. destruct (atteinte_sure n c m Ha i t Ei He) as [Hp|(k & b & Ek & Hc)].
  - unfold doit_balayer, commence_balayage. split; [apply Z.leb_le; lia|].
    rewrite (proj2 (Z.ltb_ge _ _)) by lia. done.
  - rewrite (Forall_lookup_1 _ _ _ _ Hr Ek) in Hc. done.
Qed.

(** One task that parks until 50, on one core. *)
Definition garee : Machine := mk_machine 50 [mk_tache 50 true Gare] [Repos].
Lemma garee_atteinte : atteinte 1 1 garee.
Proof.
  apply (encore _ _ (mk_machine JAMAIS [mk_tache 50 true Publie] [Repos])).
  2:{ exact (pas_d_une_tache (mk_machine JAMAIS [mk_tache 50 true Publie] [Repos]) 0 _ _ _ eq_refl
        (t_arme JAMAIS (mk_tache 50 true Publie) eq_refl)). }
  apply (encore _ _ (mk_machine JAMAIS [mk_tache 50 false Marche] [Repos])).
  2:{ exact (pas_d_une_tache (mk_machine JAMAIS [mk_tache 50 false Marche] [Repos]) 0 _ _ _ eq_refl
        (t_publie JAMAIS (mk_tache 50 false Marche) eq_refl eq_refl)). }
  apply (encore _ _ (machine_neuve 1 1)); [apply debut|].
  refine (pas_d_une_tache (machine_neuve 1 1) 0 _ _ _ eq_refl
            (t_echeance JAMAIS tache_neuve 50 eq_refl eq_refl _)).
  unfold JAMAIS, u64_max. lia.
Qed.

Lemma echeance_jamais_perdue_witness :
  doit_balayer (prochaine garee) 70 = true /\ commence_balayage (prochaine garee) 70 = (JAMAIS, true).
Proof.
  apply (echeance_jamais_perdue 1 1 garee 0 (mk_tache 50 true Gare) 70 garee_atteinte).
  - apply Forall_cons. split; [reflexivity|apply Forall_nil; exact I].
  - reflexivity.
  - split; [reflexivity|]. split; [reflexivity|]. simpl. lia.
  - simpl. lia.
Defined.

End Echeances.
