(* ===== verification/Capacites.v ===== *)
(** The native capability system, [src/kernel/native/]: rights and handle identifiers
    ([abi/types.rs]), a handle table ([handle/table.rs], its rules in
    [handle/politique_corps.rs]) and channels ([ipc/channel.rs]).

    An object is a number, the identity of its [Arc]. *)

From S2P Require Import Prelude.
Open Scope os_scope.

Module Capacites.

(** ** ABI types *)

Inductive Error :=
| InvalidCall | InvalidArgument | BadHandle | WrongType | AccessDenied | WouldBlock
| BufferTooSmall | QueueFull | PeerClosed | NoSpace | Fault | TooLarge | NotFound | TimedOut.
#[export] Instance Error_eq_dec : EqDecision Error.
Proof. solve_decision. Defined.

Inductive ObjectKind :=
| KChannel | KEvent | KWaitSet | KSharedRegion | KProcess | KUpdate
| KLegacyFile | KLegacyWindow | KLegacySocket | KLegacyDevice.
#[export] Instance ObjectKind_eq_dec : EqDecision ObjectKind.
Proof. solve_decision. Defined.

Definition READ : Z := Z.shiftl 1 0.
Definition WRITE : Z := Z.shiftl 1 1.
Definition SIGNAL : Z := Z.shiftl 1 2.
Definition MAP : Z := Z.shiftl 1 3.
Definition DUP : Z := Z.shiftl 1 4.
Definition TRANSFER : Z := Z.shiftl 1 5.
Definition INSPECT : Z := Z.shiftl 1 6.
Definition WAIT : Z := Z.shiftl 1 7.
Definition UPDATE_HEALTH : Z := Z.shiftl 1 8.
Definition UPDATE_INSTALL : Z := Z.shiftl 1 9.
Definition ou (l : list Z) : Z := foldr Z.lor 0 l.
Definition TOUS : Z :=
  ou [READ; WRITE; SIGNAL; MAP; DUP; TRANSFER; INSPECT; WAIT; UPDATE_HEALTH; UPDATE_INSTALL].
Definition CHANNEL_DEFAULT : Z := ou [READ; WRITE; DUP; TRANSFER; INSPECT; WAIT].
Definition EVENT_DEFAULT : Z := ou [SIGNAL; DUP; TRANSFER; INSPECT; WAIT].
Definition WAITSET_DEFAULT : Z := ou [READ; WRITE; DUP; TRANSFER; INSPECT; WAIT].
Definition PROCESS_DEFAULT : Z := ou [SIGNAL; DUP; TRANSFER; INSPECT; WAIT].
Definition SHM_DEFAULT : Z := ou [READ; WRITE; MAP; DUP; TRANSFER; INSPECT].

Definition READABLE : Z := Z.shiftl 1 0.
Definition WRITABLE : Z := Z.shiftl 1 1.
Definition SIGNALED : Z := Z.shiftl 1 2.
Definition PEER_CLOSED : Z := Z.shiftl 1 3.
Definition TERMINATED : Z := Z.shiftl 1 4.

Definition contains (self wanted : Z) : bool := Z.land self wanted =? wanted.
Definition intersection (self other : Z) : Z := Z.land self other.
Definition subset_of (self parent : Z) : bool := contains parent self.

(** A handle: a 31-bit generation over a 32-bit slot. *)
Definition GEN_MAX : Z := 2 ^ 31 - 1.
Definition id_new (slot generation : Z) : Z :=
  Z.lor (Z.shiftl (Z.land generation GEN_MAX) 32) slot.
Definition from_raw (raw : Z) : Z := Z.land raw (2 ^ 63 - 1).
Definition id_slot (id : Z) : Z := id mod u32_max.
Definition id_generation (id : Z) : Z := Z.land (Z.shiftr id 32 mod u32_max) GEN_MAX.
Definition id_valid (id : Z) : bool := negb (id =? 0) && negb (id_generation id =? 0).

(** ** The rules *)

Definition verifie_acces (detenus requis : Z) : unit + Error :=
  if contains detenus requis then inl tt else inr AccessDenied.
Definition verifie_genre (reel attendu : ObjectKind) : unit + Error :=
  if bool_decide (reel = attendu) then inl tt else inr WrongType.
Definition verifie_generation (emplacement handle : Z) : unit + Error :=
  if negb (emplacement =? 0) && (emplacement =? handle) then inl tt else inr BadHandle.
Definition verifie_duplication (source demandes : Z) : Z + Error :=
  if negb (contains source DUP) then inr AccessDenied
  else if negb (subset_of demandes source) then inr AccessDenied else inl demandes.
Definition verifie_transfert (source masque : Z) : Z + Error :=
  if negb (contains source TRANSFER) then inr AccessDenied else inl (intersection source masque).

(** ** A handle table *)

Definition MAX_HANDLES : Z := 4096.

Record Entry := mk_entry { object : Z; rights : Z }.
Record Slot := mk_slot { generation : Z; entry : option Entry }.
Record Inner := mk_inner { slots : list Slot; live : Z }.
Definition table_vide : Inner := mk_inner [] 0.

Definition next_generation (previous : Z) : Z :=
  let next := Z.land ((previous + 1) mod u32_max) GEN_MAX in if next =? 0 then 1 else next.

Fixpoint premier_libre (l : list Slot) : option nat :=
  match l with
  | [] => None
  | s :: l => match entry s with None => Some 0%nat | Some _ => S <$> premier_libre l end
  end.

Definition insert_locked (t : Inner) (e : Entry) : Inner * (Z + Error) :=
  if MAX_HANDLES <=? live t then (t, inr NoSpace)
  else match premier_libre (slots t) with
  | Some i =>
      let g := match slots t !! i with Some s => next_generation (generation s) | None => 0 end in
      (mk_inner (<[i := mk_slot g (Some e)]> (slots t)) (live t + 1),
       inl (id_new (Z.of_nat i + 1) g))
  | None =>
      if MAX_HANDLES <=? Z.of_nat (length (slots t)) then (t, inr NoSpace)
      else (mk_inner (slots t ++ [mk_slot 1 (Some e)]) (live t + 1),
            inl (id_new (Z.of_nat (length (slots t)) + 1) 1))
  end.

Definition id_index (id : Z) : Z + Error :=
  if negb (id_valid id) || (id_slot id =? 0) then inr BadHandle else inl (id_slot id - 1).

Definition lookup (t : Inner) (id required : Z) : Entry + Error :=
  match id_index id with
  | inr e => inr e
  | inl index =>
      match slots t !! Z.to_nat index with
      | None => inr BadHandle
      | Some s =>
          match verifie_generation (generation s) (id_generation id) with
          | inr e => inr e
          | inl _ =>
              match entry s with
              | None => inr BadHandle
              | Some e => match verifie_acces (rights e) required with
                          | inl _ => inl e
                          | inr x => inr x
                          end
              end
          end
      end
  end.

Definition close_locked (t : Inner) (id : Z) : Inner * (Entry + Error) :=
  match id_index id with
  | inr e => (t, inr e)
  | inl index =>
      match slots t !! Z.to_nat index with
      | None => (t, inr BadHandle)
      | Some s =>
          if negb (generation s =? id_generation id) then (t, inr BadHandle)
          else match entry s with
               | None => (t, inr BadHandle)
               | Some e =>
                   (mk_inner (<[Z.to_nat index := mk_slot (generation s) None]> (slots t))
                      (Z.max 0 (live t - 1)), inl e)
               end
      end
  end.

(** The loop of [insert_many]: the handles installed so far are closed on an error. *)
Fixpoint insert_many_boucle (t : Inner) (entries : list Entry) (installed : list Z)
  : Inner * (list Z + Error) :=
  match entries with
  | [] => (t, inl installed)
  | e :: entries =>
      match insert_locked t e with
      | (t, inl id) => insert_many_boucle t entries (installed ++ [id])
      | (t, inr x) => (fold_left (fun t id => (close_locked t id).1) installed t, inr x)
      end
  end.
Definition insert_many (t : Inner) (entries : list Entry) : Inner * (list Z + Error) :=
  if MAX_HANDLES <? live t + Z.of_nat (length entries) then (t, inr NoSpace)
  else insert_many_boucle t entries [].

Definition clear (t : Inner) : Inner :=
  mk_inner (map (fun s => mk_slot (generation s) None) (slots t)) 0.

Definition duplicate (t : Inner) (id requested : Z) : Inner * (Z + Error) :=
  match lookup t id DUP with
  | inr e => (t, inr e)
  | inl source =>
      match verifie_duplication (rights source) requested with
      | inr e => (t, inr e)
      | inl accordes => insert_locked t (mk_entry (object source) accordes)
      end
  end.

Definition export (t : Inner) (id masque : Z) : Entry + Error :=
  match lookup t id TRANSFER with
  | inr e => inr e
  | inl e => match verifie_transfert (rights e) masque with
             | inl r => inl (mk_entry (object e) r)
             | inr x => inr x
             end
  end.

(** ** Channels *)

Definition MAX_QUEUED_MESSAGES : Z := 64.
Definition MAX_QUEUED_BYTES : Z := 2 * 1024 * 1024.
Definition MAX_MESSAGE_BYTES : Z := 256 * 1024.
Definition MAX_MESSAGE_HANDLES : Z := 16.

Record Message := mk_message { bytes : list Z; handles : list Entry }.
(** One direction of a channel: the queue read by one side. *)
Record Voie := mk_voie { queue : list Message; queued_bytes : Z }.
Record Canal := mk_canal { voie : bool -> Voie; closed : bool -> bool }.
Definition canal_neuf : Canal := mk_canal (fun _ => mk_voie [] 0) (fun _ => false).
Definition set_voie (c : Canal) (cote : bool) (v : Voie) : Canal :=
  mk_canal (fun s => if Bool.eqb s cote then v else voie c s) (closed c).
Definition taille (m : Message) : Z := Z.of_nat (length (bytes m)).

Definition send (c : Canal) (side : bool) (m : Message) : Canal * (Z + Error) :=
  let target := negb side in
  let v := voie c target in
  if closed c target then (c, inr PeerClosed)
  else if (MAX_QUEUED_MESSAGES <=? Z.of_nat (length (queue v)))
          || (MAX_QUEUED_BYTES <? queued_bytes v + taille m) then (c, inr QueueFull)
  else (set_voie c target (mk_voie (queue v ++ [m]) (queued_bytes v + taille m)), inl (taille m)).

Definition front_sizes (c : Canal) (side : bool) : Z * Z + Error :=
  match queue (voie c side) with
  | m :: _ => inl (taille m, Z.of_nat (length (handles m)))
  | [] => if closed c (negb side) then inr PeerClosed else inr WouldBlock
  end.

Definition recv (c : Canal) (side : bool) : Canal * (Message + Error) :=
  match queue (voie c side) with
  | m :: q => (set_voie c side (mk_voie q (Z.max 0 (queued_bytes (voie c side) - taille m))), inl m)
  | [] => (c, inr (if closed c (negb side) then PeerClosed else WouldBlock))
  end.

Definition requeue_front (c : Canal) (side : bool) (m : Message) : Canal :=
  let v := voie c side in
  set_voie c side (mk_voie (m :: queue v) (queued_bytes v + taille m)).

Definition channel_signals (c : Canal) (side : bool) : Z :=
  let peer := negb side in
  ou [ (if negb (Nat.eqb (length (queue (voie c side))) 0) then READABLE else 0);
       (if negb (closed c peer)
           && (Z.of_nat (length (queue (voie c peer))) <? MAX_QUEUED_MESSAGES)
           && (queued_bytes (voie c peer) <? MAX_QUEUED_BYTES) then WRITABLE else 0);
       (if closed c peer then PEER_CLOSED else 0) ].

Definition drop_endpoint (c : Canal) (side : bool) : Canal :=
  mk_canal (voie c) (fun s => if Bool.eqb s side then true else closed c s).

End Capacites.
