(* ===== verification/CapacitesProofs.v ===== *)
(** Handle tables: a closed handle stays closed; the invariant of a table and what each
    operation does to what a process sees of it. *)

From S2P Require Import Prelude Capacites.
Import Capacites.
Open Scope os_scope.

Module CapacitesProofs.

(** ** Identifiers and rights *)

Lemma id_new_champs s g :
  0 <= s < u32_max -> 1 <= g <= GEN_MAX ->
  id_slot (id_new s g) = s /\ id_generation (id_new s g) = g /\ id_valid (id_new s g) = true.
Proof.
  intros Hs Hg. unfold GEN_MAX in Hg.
  assert (Z.land g GEN_MAX = g) as El.
  { change GEN_MAX with (Z.ones 31). rewrite Z.land_ones by lia. apply Z.mod_small. lia. }
  assert (id_new s g = g * 2 ^ 32 + s) as Ei.
  { unfold id_new. rewrite El, Z.shiftl_mul_pow2 by lia.
    apply lor_disjoint; unfold u32_max in Hs; lia. }
  assert (id_slot (id_new s g) = s) as Es.
  { unfold id_slot. rewrite Ei. unfold u32_max in *.
    rewrite Z.add_comm, Z.mod_add, Z.mod_small by lia. done. }
  assert (id_generation (id_new s g) = g) as Eg.
  { unfold id_generation. rewrite Ei, Z.shiftr_div_pow2 by lia.
    rewrite Z.add_comm, Z.div_add, (Z.div_small s) by (unfold u32_max in *; lia).
    rewrite Z.add_0_l, Z.mod_small by (unfold u32_max; lia). done. }
  split_and!; [done..|]. unfold id_valid. rewrite Eg.
  rewrite !(proj2 (Z.eqb_neq _ _)); [done|lia|]. rewrite Ei. lia.
Qed.

Lemma contains_trans a b c : contains a b = true -> contains b c = true -> contains a c = true.
Proof.
  unfold contains. rewrite !Z.eqb_eq. intros H1 H2. rewrite <-H2, Z.land_assoc, H1. done.
Qed.
Lemma contains_refl a : contains a a = true.
Proof. unfold contains. by rewrite Z.land_diag, Z.eqb_refl. Qed.
Lemma contains_intersection a b : contains a (intersection a b) = true.
Proof. unfold contains, intersection. by rewrite Z.land_assoc, Z.land_diag, Z.eqb_refl. Qed.

(** ** Generations *)

(** The generation of a slot after [k] more insertions. *)
Definition cycle (g k : Z) : Z := (g - 1 + k) mod GEN_MAX + 1.

Lemma cycle_borne g k : 1 <= cycle g k <= GEN_MAX.
Proof. unfold cycle. pose proof (Z.mod_pos_bound (g - 1 + k) GEN_MAX). unfold GEN_MAX in *. lia. Qed.

Lemma next_generation_spec g :
  1 <= g <= GEN_MAX -> next_generation g = if g =? GEN_MAX then 1 else g + 1.
Proof.
  intros Hg. unfold next_generation, u32_max. rewrite Z.mod_small by (unfold GEN_MAX in *; lia).
  destruct (Z.eqb_spec g GEN_MAX) as [->|Hne]; [done|].
  assert (Z.land (g + 1) GEN_MAX = g + 1) as ->.
  { change GEN_MAX with (Z.ones 31). rewrite Z.land_ones by lia. apply Z.mod_small.
    unfold GEN_MAX in *. lia. }
  by rewrite (proj2 (Z.eqb_neq _ _)) by lia.
Qed.

Lemma cycle_suivant g k : next_generation (cycle g k) = cycle g (k + 1).
Proof.
  rewrite next_generation_spec by apply cycle_borne. unfold cycle.
  set (x := g - 1 + k). replace (g - 1 + (k + 1)) with (x + 1) by lia.
  pose proof (Z.mod_pos_bound x GEN_MAX ltac:(unfold GEN_MAX; lia)).
  pose proof (Z.div_mod x GEN_MAX ltac:(unfold GEN_MAX; lia)).
  destruct (Z.eqb_spec (x mod GEN_MAX + 1) GEN_MAX).
  - replace ((x + 1) mod GEN_MAX) with 0; [done|].
    apply (Z.mod_unique_pos _ _ (x / GEN_MAX + 1)); unfold GEN_MAX in *; lia.
  - f_equal. apply (Z.mod_unique_pos _ _ (x / GEN_MAX)); unfold GEN_MAX in *; lia.
Qed.

Lemma cycle_retour g k : 1 <= g <= GEN_MAX -> 0 <= k < GEN_MAX -> cycle g k = g -> k = 0.
Proof.
  intros Hg Hk E. unfold cycle in E.
  assert (k mod GEN_MAX = 0) as H0.
  { replace k with ((g - 1 + k) - (g - 1)) by lia.
    rewrite Zminus_mod. replace ((g - 1 + k) mod GEN_MAX) with (g - 1) by lia.
    rewrite (Z.mod_small (g - 1)) by lia. rewrite Z.sub_diag. done. }
  rewrite Z.mod_small in H0; lia.
Qed.

(** ** Closed handles *)

Inductive Operation :=
| Inserer (e : Entry) | Copier (id r : Z) | Plusieurs (l : list Entry) | Clore (id : Z) | Vider.
Definition opere (t : Inner) (o : Operation) : Inner :=
  match o with
  | Inserer e => (insert_locked t e).1
  | Copier id r => (duplicate t id r).1
  | Plusieurs l => (insert_many t l).1
  | Clore id => (close_locked t id).1
  | Vider => clear t
  end.
(** How many insertions an operation makes at most. *)
Definition insertions (o : Operation) : Z :=
  match o with Inserer _ | Copier _ _ => 1 | Plusieurs l => Z.of_nat (length l) | _ => 0 end.

(** Slot [i] was vacated at generation [g], and at most [n] insertions took place since. *)
Definition perime (i : nat) (g n : Z) (t : Inner) : Prop :=
  exists s k, slots t !! i = Some s /\ 0 <= k <= n /\ generation s = cycle g k
              /\ (k = 0 -> entry s = None).

Lemma premier_libre_spec l i :
  premier_libre l = Some i -> exists s, l !! i = Some s /\ entry s = None.
Proof.
  revert i. induction l as [|s l IH]; intros i E; simpl in E; [done|].
  destruct (entry s) eqn:Es; [|simplify_eq; by exists s].
  destruct (premier_libre l) as [j|]; simplify_eq/=. by apply IH.
Qed.

Lemma perime_insert i g n t e : perime i g n t -> 0 <= n -> perime i g (n + 1) (insert_locked t e).1.
Proof.
  intros (s & k & Es & Hk & Eg & Hn) Hn0. unfold insert_locked.
  destruct (MAX_HANDLES <=? live t); [by exists s, k; split_and!; try lia|].
  destruct (premier_libre (slots t)) as [j|] eqn:Ej.
  - destruct (decide (j = i)) as [->|Hne].
    + rewrite Es. exists (mk_slot (next_generation (generation s)) (Some e)), (k + 1). simpl.
      split_and!; [|lia..|by rewrite Eg, cycle_suivant|lia].
      apply list_lookup_insert_eq. by eapply lookup_lt_Some.
    + exists s, k. split_and!; try lia; try done. simpl. by rewrite list_lookup_insert_ne.
  - destruct (MAX_HANDLES <=? _); [by exists s, k; split_and!; try lia|].
    exists s, k. split_and!; try lia; try done. simpl. rewrite lookup_app_l; [done|].
    by eapply lookup_lt_Some.
Qed.

Lemma perime_close i g n t id : perime i g n t -> perime i g n (close_locked t id).1.
Proof.
  intros (s & k & Es & Hk & Eg & Hn). unfold close_locked.
  destruct (id_index id) as [j|]; [|by exists s, k].
  destruct (slots t !! Z.to_nat j) as [s'|] eqn:Ej; [|by exists s, k].
  destruct (negb _); [by exists s, k|]. destruct (entry s') eqn:Ee; [|by exists s, k]. simpl.
  destruct (decide (Z.to_nat j = i)) as [<-|].
  - simplify_eq. exists (mk_slot (generation s) None), k. split_and!; try done; try lia.
    apply list_lookup_insert_eq. by eapply lookup_lt_Some.
  - exists s, k. split_and!; try done; try lia. simpl. by rewrite list_lookup_insert_ne.
Qed.

Lemma perime_mono i g n n' t : perime i g n t -> n <= n' -> perime i g n' t.
Proof. intros (s & k & ? & ? & ? & ?) Hn. exists s, k. split_and!; try done; lia. Qed.

Lemma perime_closes i g n t ids :
  perime i g n t -> perime i g n (fold_left (fun t id => (close_locked t id).1) ids t).
Proof. revert t. induction ids as [|id ids IH]; intros t H; simpl; [done|]. by apply IH, perime_close. Qed.

Lemma perime_many i g n t l ids :
  perime i g n t -> 0 <= n ->
  perime i g (n + Z.of_nat (length l)) (insert_many_boucle t l ids).1.
Proof.
  revert t n ids. induction l as [|e l IH]; intros t n ids H Hn; simpl.
  { by rewrite Z.add_0_r. }
  pose proof (perime_insert i g n t e H Hn) as H1.
  destruct (insert_locked t e) as [t1 [id|x]]; simpl in H1.
  - eapply perime_mono; [apply (IH t1 (n + 1)); [done|lia]|lia].
  - simpl. apply perime_closes. eapply perime_mono; [done|lia].
Qed.

Lemma perime_opere i g n t o :
  perime i g n t -> 0 <= n -> perime i g (n + insertions o) (opere t o).
Proof.
  intros H Hn. destruct o as [e|id r|l|id|]; cbn [opere insertions].
  - by apply perime_insert.
  - unfold duplicate. destruct (lookup t id DUP) as [s|]; [|by eapply perime_mono; [done|lia]].
    destruct (verifie_duplication _ r); [by apply perime_insert|by eapply perime_mono; [done|lia]].
  - unfold insert_many. destruct (_ <? _); [by eapply perime_mono; [done|lia]|].
    by apply perime_many.
  - rewrite Z.add_0_r. by apply perime_close.
  - rewrite Z.add_0_r. destruct H as (s & k & Es & Hk & Eg & _).
    exists (mk_slot (generation s) None), k. split_and!; try done; try lia.
    simpl. by rewrite list_lookup_fmap, Es.
Qed.

Lemma perime_lookup i g n t id req :
  perime i g n t -> n < GEN_MAX -> id_index id = inl (Z.of_nat i) -> id_generation id = g ->
  1 <= g <= GEN_MAX -> lookup t id req = inr BadHandle.
Proof.
  intros (s & k & Es & Hk & Eg & Hn) Hlt Ei Egen Hg. unfold lookup.
  rewrite Ei, Nat2Z.id, Es. unfold verifie_generation. rewrite Egen, Eg.
  destruct (negb (cycle g k =? 0) && (cycle g k =? g)) eqn:E; [|done].
  bool_prop. rewrite Hn; [done|]. by apply (cycle_retour g); [|lia|].
Qed.

Lemma id_index_spec id j :
  id_index id = inl j -> 0 <= j /\ j = id_slot id - 1 /\ 1 <= id_generation id <= GEN_MAX.
Proof.
  unfold id_index, id_valid. intros E. destruct (_ || _) eqn:Ev; [done|]. simplify_eq.
  apply orb_false_iff in Ev as [Ev Es]. bool_prop.
  assert (0 <= id_slot id) by (apply Z.mod_pos_bound; done).
  assert (0 <= id_generation id <= GEN_MAX).
  { assert (id_generation id = Z.shiftr id 32 mod u32_max mod 2 ^ 31) as ->.
    { unfold id_generation. change GEN_MAX with (Z.ones 31). by rewrite Z.land_ones. }
    pose proof (Z.mod_pos_bound (Z.shiftr id 32 mod u32_max) (2 ^ 31) eq_refl).
    unfold GEN_MAX. lia. }
  lia.
Qed.

(** A closed handle never designates anything again: after it is closed, whatever is
    inserted, duplicated, received, closed or cleared, it is refused as a bad handle until
    two to the thirty-first less one insertions have taken place. *)
Theorem poignee_perimee t id e t1 ops req :
  close_locked t id = (t1, inl e) ->
  foldr (fun o n => insertions o + n) 0 ops < GEN_MAX ->
  lookup (fold_left opere ops t1) id req = inr BadHandle.
Proof.
  intros E Hn. unfold close_locked in E.
  destruct (id_index id) as [j|] eqn:Ei; [|done]. apply id_index_spec in Ei as Hj.
  destruct (slots t !! Z.to_nat j) as [s|] eqn:Es; [|done].
  destruct (Z.eqb_spec (generation s) (id_generation id)) as [Eg|]; [|done]. simpl in E.
  destruct (entry s); simplify_eq.
  set (t1 := mk_inner _ _).
  assert (perime (Z.to_nat j) (id_generation id) 0 t1) as H0.
  { exists (mk_slot (generation s) None), 0. split_and!; try lia; try done.
    - apply list_lookup_insert_eq. by eapply lookup_lt_Some.
    - simpl. unfold cycle. rewrite Z.add_0_r, Eg, Z.mod_small; lia. }
  assert (forall ops t n, perime (Z.to_nat j) (id_generation id) n t -> 0 <= n ->
    perime (Z.to_nat j) (id_generation id) (n + foldr (fun o n => insertions o + n) 0 ops)
      (fold_left opere ops t)) as Hall.
  { clear. intros ops. induction ops as [|o ops IH]; intros t n H Hn; simpl.
    - by rewrite Z.add_0_r.
    - rewrite Z.add_assoc. apply IH; [by apply perime_opere|].
      assert (0 <= insertions o) by (destruct o; simpl; lia). lia. }
  specialize (Hall ops t1 0 H0 ltac:(lia)).
  eapply perime_lookup; [exact Hall|lia|rewrite Z2Nat.id by lia; done|done|lia].
Qed.


(** The handle of a first insertion, closed, after the slot was used again. *)
Lemma poignee_perimee_witness :
  lookup (fold_left opere [Inserer (mk_entry 8 READ); Clore (id_new 1 2); Plusieurs [mk_entry 9 READ]]
            (mk_inner [mk_slot 1 None] 0)) (id_new 1 1) READ = inr BadHandle.
Proof.
  apply (poignee_perimee (mk_inner [mk_slot 1 (Some (mk_entry 7 READ))] 1) (id_new 1 1)
           (mk_entry 7 READ)); vm_compute; reflexivity.
Defined.

(** ** The invariant of a table *)

Definition occupants (t : Inner) : list Entry := omap entry (slots t).

Record table_saine (t : Inner) : Prop := {
  ts_longueur : Z.of_nat (length (slots t)) <= MAX_HANDLES;
  ts_generations : Forall (fun s => 1 <= generation s <= GEN_MAX) (slots t);
  ts_live : live t = Z.of_nat (length (occupants t))
}.

Lemma table_vide_saine : table_saine table_vide.
Proof. by split. Qed.

(** What a process sees of slot [i]. *)
Definition vu (t : Inner) (i : nat) : option (Z * Entry) :=
  s ← slots t !! i; e ← entry s; Some (generation s, e).

Lemma lookup_vu t id req :
  lookup t id req =
  match id_index id with
  | inr x => inr x
  | inl j => match vu t (Z.to_nat j) with
             | Some (g, e) =>
                 match verifie_generation g (id_generation id) with
                 | inl _ => match verifie_acces (rights e) req with inl _ => inl e | inr x => inr x end
                 | inr x => inr x
                 end
             | None => inr BadHandle
             end
  end.
Proof.
  unfold lookup, vu. destruct (id_index id); [|done].
  destruct (slots t !! _) as [s|]; simpl; [|done].
  destruct (entry s); simpl; [done|]. unfold verifie_generation. by destruct (_ && _).
Qed.

Lemma lookup_meme_vu t t' id req : (forall i, vu t i = vu t' i) -> lookup t id req = lookup t' id req.
Proof. intros H. rewrite !lookup_vu. destruct (id_index id); by rewrite ?H. Qed.

Lemma lookup_occupant t id req e : lookup t id req = inl e -> e ∈ occupants t.
Proof.
  unfold lookup. intros H. repeat cas H. apply list_elem_of_omap.
  eexists. split; [|done]. by eapply list_elem_of_lookup_2.
Qed.

Lemma lookup_droits t id req e : lookup t id req = inl e -> contains (rights e) req = true.
Proof. unfold lookup, verifie_acces. intros H. by repeat cas H. Qed.

Lemma omap_insert_app {A B} (f : A -> option B) (l : list A) i x y :
  l !! i = Some y ->
  exists l1 l2, omap f l = l1 ++ option_list (f y) ++ l2
              /\ omap f (<[i := x]> l) = l1 ++ option_list (f x) ++ l2.
Proof.
  revert i. induction l as [|z l IH]; intros i H; [done|].
  destruct i as [|i]; simplify_eq/=.
  - exists [], (omap f l). by destruct (f y), (f x).
  - destruct (IH i H) as (l1 & l2 & E1 & E2).
    destruct (f z) as [b|]; [exists (b :: l1), l2|exists l1, l2]; by rewrite E1, E2.
Qed.

Lemma next_generation_borne g : 1 <= g <= GEN_MAX -> 1 <= next_generation g <= GEN_MAX.
Proof.
  intros Hg. rewrite next_generation_spec by done.
  destruct (Z.eqb_spec g GEN_MAX); [unfold GEN_MAX|]; lia.
Qed.

(** An insertion takes a slot [i] nobody sees, and gives a handle on it. *)
Lemma insert_locked_spec t e t' id :
  table_saine t -> insert_locked t e = (t', inl id) ->
  table_saine t' /\ occupants t' ≡ₚ e :: occupants t
  /\ exists i g, vu t i = None /\ 1 <= g <= GEN_MAX /\ id_index id = inl (Z.of_nat i)
       /\ id_generation id = g /\ slots t' !! i = Some (mk_slot g (Some e))
       /\ forall j, vu t' j = if Nat.eqb j i then Some (g, e) else vu t j.
Proof.
  intros [Hl Hg Hv] E. unfold insert_locked in E. cas E.
  destruct (premier_libre (slots t)) as [i|] eqn:Ei.
  - destruct (premier_libre_spec _ _ Ei) as (s & Es & Hn). rewrite Es in E. simplify_eq.
    pose proof (lookup_lt_Some _ _ _ Es) as Hi.
    assert (1 <= next_generation (generation s) <= GEN_MAX) as Hb.
    { apply next_generation_borne. by eapply (Forall_lookup_1 _ _ _ _ Hg). }
    destruct (omap_insert_app entry (slots t) i
      (mk_slot (next_generation (generation s)) (Some e)) s Es) as (l1 & l2 & E1 & E2).
    rewrite Hn in E1. simpl in E1, E2.
    assert (omap entry (<[i:=mk_slot (next_generation (generation s)) (Some e)]> (slots t))
            ≡ₚ e :: omap entry (slots t)) as HP.
    { rewrite E1, E2. by rewrite <-Permutation_middle. }
    destruct (id_new_champs (Z.of_nat i + 1) (next_generation (generation s))) as (F1 & F2 & F3);
      [unfold MAX_HANDLES in Hl; unfold u32_max; lia|done|].
    split_and!.
    + split; cbn [slots live].
      * by rewrite length_insert.
      * apply Forall_insert; [done|]. done.
      * unfold occupants in *. cbn [slots]. rewrite HP, Hv. simpl. lia.
    + done.
    + exists i, (next_generation (generation s)). split_and!; try (done || apply Hb).
      * unfold vu. rewrite Es. simpl. by rewrite Hn.
      * unfold id_index. rewrite F1, F3. simpl. rewrite (proj2 (Z.eqb_neq _ _)) by lia.
        f_equal. lia.
      * simpl. by rewrite list_lookup_insert_eq.
      * intros j. unfold vu. cbn [slots]. destruct (Nat.eqb_spec j i) as [->|].
        -- by rewrite list_lookup_insert_eq.
        -- by rewrite list_lookup_insert_ne.
  - cas E.
    destruct (id_new_champs (Z.of_nat (length (slots t)) + 1) 1) as (F1 & F2 & F3);
      [unfold MAX_HANDLES in *; unfold u32_max; lia|unfold GEN_MAX; lia|].
    assert (occupants (mk_inner (slots t ++ [mk_slot 1 (Some e)]) (live t + 1))
            = occupants t ++ [e]) as EO.
    { unfold occupants. simpl. by rewrite omap_app. }
    split_and!.
    + split; cbn [slots live].
      * rewrite length_app. simpl. lia.
      * apply Forall_app. split; [done|]. constructor; [unfold GEN_MAX; simpl; lia|done].
      * rewrite EO, length_app, Hv. simpl. lia.
    + rewrite EO. by rewrite <-Permutation_cons_append.
    + exists (length (slots t)), 1. split_and!; try done; try (unfold GEN_MAX; lia).
      * unfold vu. by rewrite lookup_ge_None_2.
      * unfold id_index. rewrite F1, F3. simpl. rewrite (proj2 (Z.eqb_neq _ _)) by lia.
        f_equal. lia.
      * simpl. by rewrite lookup_app_r, Nat.sub_diag.
      * intros j. unfold vu. cbn [slots]. destruct (Nat.eqb_spec j (length (slots t))) as [->|].
        -- by rewrite lookup_app_r, Nat.sub_diag.
        -- destruct (decide (j < length (slots t))%nat); [by rewrite lookup_app_l|].
           rewrite !lookup_ge_None_2; [done|lia|]. rewrite length_app. simpl. lia.
Qed.

Lemma insert_locked_refus t e t' x : insert_locked t e = (t', inr x) -> t' = t /\ x = NoSpace.
Proof. unfold insert_locked. intros E. by repeat cas E. Qed.

Lemma close_locked_spec t id t' e :
  table_saine t -> close_locked t id = (t', inl e) ->
  table_saine t' /\ occupants t ≡ₚ e :: occupants t'
  /\ exists i, id_index id = inl (Z.of_nat i) /\ vu t i = Some (id_generation id, e)
      /\ forall j, vu t' j = if Nat.eqb j i then None else vu t j.
Proof.
  intros [Hl Hg Hv] E. unfold close_locked in E.
  destruct (id_index id) as [j|] eqn:Ei; [|done]. apply id_index_spec in Ei as Hj.
  destruct (slots t !! Z.to_nat j) as [s|] eqn:Es; [|done].
  destruct (Z.eqb_spec (generation s) (id_generation id)) as [Eg|]; [|done]. simpl in E.
  destruct (entry s) as [e'|] eqn:Ee; simplify_eq.
  pose proof (lookup_lt_Some _ _ _ Es) as Hi.
  destruct (omap_insert_app entry (slots t) (Z.to_nat j) (mk_slot (generation s) None) s Es)
    as (l1 & l2 & E1 & E2). rewrite Ee in E1. simpl in E1, E2.
  assert (occupants t ≡ₚ e :: omap entry (<[Z.to_nat j:=mk_slot (generation s) None]> (slots t))) as HP.
  { unfold occupants. rewrite E1, E2. by rewrite <-Permutation_middle. }
  split_and!.
  - split; cbn [slots live].
    + by rewrite length_insert.
    + apply Forall_insert; [done|]. exact (Forall_lookup_1 _ _ _ _ Hg Es).
    + rewrite Hv, HP. unfold occupants. simpl. lia.
  - done.
  - exists (Z.to_nat j). rewrite Z2Nat.id by lia. split_and!; [done| |].
    + unfold vu. rewrite Es. simpl. by rewrite Ee, Eg.
    + intros k. unfold vu. cbn [slots]. destruct (Nat.eqb_spec k (Z.to_nat j)) as [->|].
      * by rewrite list_lookup_insert_eq.
      * by rewrite list_lookup_insert_ne.
Qed.

Lemma close_locked_refus t id t' x : close_locked t id = (t', inr x) -> t' = t.
Proof. unfold close_locked. intros E. by repeat cas E. Qed.

Lemma close_locked_saine t id :
  table_saine t -> table_saine (close_locked t id).1
  /\ forall e, e ∈ occupants (close_locked t id).1 -> e ∈ occupants t.
Proof.
  intros H. destruct (close_locked t id) as [t' [e|x]] eqn:E; simpl.
  - destruct (close_locked_spec t id t' e H E) as (H1 & HP & _). split; [done|].
    intros e' He. rewrite HP. by apply elem_of_cons; right.
  - by rewrite (close_locked_refus _ _ _ _ E).
Qed.

Lemma close_locked_vu t id i e :
  id_index id = inl (Z.of_nat i) -> vu t i = Some (id_generation id, e) ->
  exists t', close_locked t id = (t', inl e).
Proof.
  intros Ei Ev. unfold vu in Ev. destruct (slots t !! i) as [s|] eqn:Es; simpl in Ev; [|done].
  destruct (entry s) as [e'|] eqn:Ee; simpl in Ev; [|done]. injection Ev as Eg ->.
  unfold close_locked. rewrite Ei, Nat2Z.id, Es, Eg, Z.eqb_refl, Ee. simpl. eauto.
Qed.

(** ** Several insertions and their rollback *)

(** [t] is [t0] with the handles of [l], each with its slot, installed. *)
Definition posees (t0 t : Inner) (l : list (Z * nat)) : Prop :=
  NoDup l.*2
  /\ (forall id i, (id, i) ∈ l ->
       id_index id = inl (Z.of_nat i) /\ vu t0 i = None /\ exists e, vu t i = Some (id_generation id, e))
  /\ forall j, j ∉ l.*2 -> vu t j = vu t0 j.

Definition ferme_tout (ids : list Z) (t : Inner) : Inner :=
  fold_left (fun t id => (close_locked t id).1) ids t.

Lemma posees_ferme t0 t l :
  table_saine t -> posees t0 t l ->
  table_saine (ferme_tout l.*1 t)
  /\ (forall i, vu (ferme_tout l.*1 t) i = vu t0 i)
  /\ forall e, e ∈ occupants (ferme_tout l.*1 t) -> e ∈ occupants t.
Proof.
  revert t. induction l as [|[id i] l IH]; intros t Ht (Hnd & Hin & Hout); simpl.
  { split_and!; [done| |done]. intros j. apply Hout. by apply not_elem_of_nil. }
  apply NoDup_cons in Hnd as [Hi Hnd].
  destruct (Hin id i) as (Ei & Hn & e & Ev); [by left|].
  destruct (close_locked_vu t id i e Ei Ev) as (t' & Ec). unfold ferme_tout. simpl.
  destruct (close_locked_spec t id t' e Ht Ec) as (Ht' & HP & i' & Ei' & _ & Hv).
  assert (i' = i) as -> by (rewrite Ei in Ei'; simplify_eq; lia).
  rewrite Ec. cbn [fst]. destruct (IH t' Ht') as (H1 & H2 & H3).
  - split_and!; [done| |].
    + intros id' i1 Hl. destruct (Hin id' i1) as (F1 & F2 & e1 & F3); [by right|].
      split_and!; [done..|]. exists e1. rewrite Hv.
      destruct (Nat.eqb_spec i1 i) as [->|]; [|done].
      destruct Hi. apply list_elem_of_fmap. by exists (id', i).
    + intros j Hj. rewrite Hv. destruct (Nat.eqb_spec j i) as [->|]; [done|].
      apply Hout. simpl. apply not_elem_of_cons. done.
  - split_and!; [done..|]. intros e' He. rewrite HP. right. by apply H3.
Qed.

Lemma posees_insert t0 t l e t' id :
  table_saine t -> posees t0 t l -> insert_locked t e = (t', inl id) ->
  table_saine t' /\ (forall e', e' ∈ occupants t' -> e' = e \/ e' ∈ occupants t)
  /\ exists i, posees t0 t' (l ++ [(id, i)]).
Proof.
  intros Ht (Hnd & Hin & Hout) E.
  destruct (insert_locked_spec t e t' id Ht E) as (Ht' & HP & i & g & Hn & Hg & Ei & Eg & Es & Hv).
  split_and!; [done| |exists i].
  { intros e' He. rewrite HP in He. by apply elem_of_cons. }
  assert (i ∉ l.*2) as Hi.
  { intros H. apply list_elem_of_fmap in H as ([id' i'] & -> & Hl).
    destruct (Hin _ _ Hl) as (_ & _ & e' & Ev). simpl in Hn. congruence. }
  split_and!.
  - rewrite fmap_app. apply NoDup_app. split_and!; [done| |apply NoDup_singleton].
    intros j Hj Hj'. apply list_elem_of_singleton in Hj' as ->. done.
  - intros id' i' Hl. apply elem_of_app in Hl as [Hl|Hl%list_elem_of_singleton].
    + destruct (Hin _ _ Hl) as (F1 & F2 & e' & F3). split_and!; [done..|].
      exists e'. rewrite Hv. destruct (Nat.eqb_spec i' i) as [->|]; [|done]. congruence.
    + simplify_eq. split_and!; [done| |].
      * rewrite <-Hn. symmetry. by apply Hout.
      * exists e. by rewrite Hv, Nat.eqb_refl.
  - intros j Hj. rewrite fmap_app in Hj. simpl in Hj.
    rewrite elem_of_app, list_elem_of_singleton in Hj. rewrite Hv.
    destruct (Nat.eqb_spec j i) as [->|]; [naive_solver|]. apply Hout. naive_solver.
Qed.

Lemma insert_many_boucle_spec entries t0 t l t' r :
  table_saine t -> posees t0 t l -> insert_many_boucle t entries l.*1 = (t', r) ->
  table_saine t'
  /\ (forall e, e ∈ occupants t' -> e ∈ entries \/ e ∈ occupants t)
  /\ match r with
     | inl ids => exists l', ids = l'.*1 /\ posees t0 t' l'
     | inr _ => forall i, vu t' i = vu t0 i
     end.
Proof.
  revert t l. induction entries as [|e entries IH]; intros t l Ht Hp E; simpl in E.
  { simplify_eq. split_and!; [done|auto|eauto]. }
  destruct (insert_locked t e) as [t1 [id|x]] eqn:Ei.
  - destruct (posees_insert t0 t l e t1 id Ht Hp Ei) as (Ht1 & Ho & i & Hp1).
    destruct (IH t1 (l ++ [(id, i)]) Ht1 Hp1) as (H1 & H2 & H3).
    { by rewrite fmap_app. }
    split_and!; [done| |done]. intros e' He.
    destruct (H2 e' He) as [|He1]; [by left; right|].
    destruct (Ho e' He1) as [->|]; [by left; left|by right].
  - destruct (insert_locked_refus _ _ _ _ Ei) as [-> _]. simplify_eq.
    destruct (posees_ferme t0 t l Ht Hp) as (H1 & H2 & H3).
    split_and!; [done| |done]. intros e' He. right. by apply H3.
Qed.

Lemma insert_many_spec entries t t' r :
  table_saine t -> insert_many t entries = (t', r) ->
  table_saine t'
  /\ (forall e, e ∈ occupants t' -> e ∈ entries \/ e ∈ occupants t)
  /\ match r with
     | inl ids => exists l', ids = l'.*1 /\ posees t t' l'
     | inr _ => forall i, vu t' i = vu t i
     end.
Proof.
  intros Ht E. unfold insert_many in E. destruct (_ <? _).
  { simplify_eq. split_and!; [done|auto|done]. }
  apply (insert_many_boucle_spec entries t t []); [done| |done].
  split_and!; [apply NoDup_nil_2| |done]. intros ? ? H. by apply not_elem_of_nil in H.
Qed.

Lemma duplicate_spec t id r t' x :
  table_saine t -> duplicate t id r = (t', x) ->
  table_saine t'
  /\ forall e, e ∈ occupants t' ->
       e ∈ occupants t
       \/ exists s, s ∈ occupants t /\ object e = object s /\ contains (rights s) (rights e) = true.
Proof.
  intros Ht E. unfold duplicate, verifie_duplication in E.
  destruct (lookup t id DUP) as [s|] eqn:El; [|simplify_eq; auto].
  destruct (negb _); [simplify_eq; auto|].
  destruct (subset_of r (rights s)) eqn:Hs; simpl in E; [|simplify_eq; auto].
  destruct x as [id'|x].
  - destruct (insert_locked_spec _ _ _ _ Ht E) as (Ht' & HP & _). split; [done|].
    intros e He. rewrite HP in He. apply elem_of_cons in He as [->|]; [|by left].
    right. exists s. split_and!; [by eapply lookup_occupant|done..].
  - destruct (insert_locked_refus _ _ _ _ E) as [-> _]. auto.
Qed.

Lemma export_spec t id masque e :
  export t id masque = inl e ->
  exists s, s ∈ occupants t /\ object e = object s /\ contains (rights s) (rights e) = true.
Proof.
  unfold export, verifie_transfert. intros E.
  destruct (lookup t id TRANSFER) as [s|] eqn:El; [|done].
  destruct (negb _); [done|]. simplify_eq. exists s. split_and!; [by eapply lookup_occupant|done|].
  apply contains_intersection.
Qed.

End CapacitesProofs.
