(* ===== verification/Natif.v ===== *)
(** The native objects and system calls, [src/kernel/native/]: objects ([object.rs],
    [event.rs], [waitset.rs], [shm.rs], [process.rs]), the registry of handle tables
    ([handle/registry.rs], [handle/mod.rs]) and the calls of [abi/dispatch.rs].

    The store [objets] holds every object that a handle, a queued message or a wait set
    still refers to; [libere] is what the last reference of an [Arc] does when it is
    dropped. The outcomes of the copies from and to user memory ([abi/usercopy.rs]) and
    of the launch of a process ([process/exec.rs]) are arguments of the calls. Calls run
    one after the other: each table, channel and object is behind its own lock. *)

From S2P Require Import Prelude Capacites.
Import Capacites.
Open Scope os_scope.

Module Natif.

(** ** Objects *)

Inductive Object :=
| OChannel (canal : Z) (side : bool)
| OEvent (signaled : bool) (sequence : Z)
| OWaitSet (watches : list (Z * Z))
| OSharedRegion (contenu : list Z)
| OProcess (pid : Z) (terminated : bool) (exit_code : Z)
| OUpdate
| OLegacy (k : ObjectKind).

Definition kind (o : Object) : ObjectKind :=
  match o with
  | OChannel _ _ => KChannel
  | OEvent _ _ => KEvent
  | OWaitSet _ => KWaitSet
  | OSharedRegion _ => KSharedRegion
  | OProcess _ _ _ => KProcess
  | OUpdate => KUpdate
  | OLegacy k => k
  end.

(** [origine] remembers the rights each object was installed with. *)
Record Monde := mk_monde {
  tables : gmap Z Inner;
  canaux : gmap Z Canal;
  objets : gmap Z Object;
  origine : gmap Z Z;
  prochain : Z
}.
Definition monde_vide : Monde := mk_monde ∅ ∅ ∅ ∅ 0.

Definition Appel := M Monde Error.

Definition table_for (m : Monde) (pid : Z) : Inner := default table_vide (tables m !! pid).
Definition set_table (pid : Z) (t : Inner) (m : Monde) : Monde :=
  mk_monde (<[pid := t]> (tables m)) (canaux m) (objets m) (origine m) (prochain m).
Definition set_canal (c : Z) (x : Canal) (m : Monde) : Monde :=
  mk_monde (tables m) (<[c := x]> (canaux m)) (objets m) (origine m) (prochain m).
Definition set_objets (f : gmap Z Object -> gmap Z Object) (m : Monde) : Monde :=
  mk_monde (tables m) (canaux m) (f (objets m)) (origine m) (prochain m).
Definition canal_de (m : Monde) (c : Z) : Canal := default canal_neuf (canaux m !! c).
Definition objet (m : Monde) (o : Z) : Object := default (OLegacy KLegacyFile) (objets m !! o).

(** ** References and their release *)

Definition refs_entrees (l : list Entry) : list Z := map object l.
Definition refs_table (t : Inner) : list Z := refs_entrees (omap entry (slots t)).
Definition refs_voie (v : Voie) : list Z := refs_entrees (mjoin (map handles (queue v))).
Definition refs_canal (c : Canal) : list Z := refs_voie (voie c false) ++ refs_voie (voie c true).
Definition refs_objet (o : Object) : list Z := match o with OWaitSet w => w.*2 | _ => [] end.

Definition references (m : Monde) : list Z :=
  mjoin (map refs_table (map_to_list (tables m)).*2)
  ++ mjoin (map refs_canal (map_to_list (canaux m)).*2)
  ++ mjoin (map refs_objet (map_to_list (objets m)).*2).

(** Dropping an endpoint closes its side; the channel and its queues go with the second. *)
Definition lache_extremite (c : Z) (side : bool) (m : Monde) : Monde * list Z :=
  let x := drop_endpoint (canal_de m c) side in
  if closed x (negb side)
  then (set_canal c (mk_canal (fun _ => mk_voie [] 0) (closed x)) m, refs_canal x)
  else (set_canal c x m, []).

Fixpoint libere (fuel : nat) (m : Monde) (o : Z) : Monde :=
  match fuel with
  | O => m
  | S fuel =>
      match objets m !! o with
      | None => m
      | Some x =>
          if bool_decide (o ∈ references m) then m
          else
            let m := set_objets (delete o) m in
            let '(m, suite) :=
              match x with
              | OChannel c side => lache_extremite c side m
              | x => (m, refs_objet x)
              end in
            fold_left (libere fuel) suite m
      end
  end.
(** Each release deletes an object, so their number is enough fuel. *)
Definition drop (o : Z) (m : Monde) : Monde := libere (S (size (objets m))) m o.
Definition drops (l : list Z) (m : Monde) : Monde := fold_left (fun m o => drop o m) l m.

(** ** Handles *)

(** A table operation of process [pid]. *)
Definition sur_table {A} (pid : Z) (f : Inner -> Inner * (A + Error)) : Appel A :=
  fun m => let '(t, r) := f (table_for m pid) in (set_table pid t m, r).
Definition lis {A} (f : Monde -> A + Error) : Appel A := fun m => (m, f m).

Definition lookup_kind (pid id required : Z) (k : ObjectKind) : Appel Entry :=
  e <- lis (fun m => lookup (table_for m pid) id required) ;;
  m <- etat_courant ;;
  essaie (verifie_genre (kind (objet m (object e))) k) (fun x => x) ;;;
  rend e.

(** [HandleTable::close] *)
Definition close (pid id : Z) : Appel unit :=
  e <- sur_table pid (fun t => close_locked t id) ;;
  change (drop (object e)).

(** [HandleTable::insert] of the only reference to a new object: dropped when refused. *)
Definition insert_neuf (pid o r : Z) : Appel Z :=
  fun m => match sur_table pid (fun t => insert_locked t (mk_entry o r)) m with
           | (m, inl id) => (m, inl id)
           | (m, inr x) => (drop o m, inr x)
           end.

Definition nouvel_objet (o : Object) (r : Z) : Appel Z :=
  fun m => (mk_monde (tables m) (canaux m) (<[prochain m := o]> (objets m))
              (<[prochain m := r]> (origine m)) (prochain m + 1), inl (prochain m)).
Definition install (pid : Z) (o : Object) (r : Z) : Appel Z :=
  x <- nouvel_objet o r ;; insert_neuf pid x r.

(** [registry::release_process] *)
Definition release_process (pid : Z) : Appel Z :=
  fun m => let t := table_for m pid in
           (drops (refs_table t)
              (mk_monde (delete pid (tables m)) (canaux m) (objets m) (origine m) (prochain m)),
            inl 0).

(** ** Channels *)

Definition nouveau_canal : Appel Z :=
  fun m => (mk_monde (tables m) (<[prochain m := canal_neuf]> (canaux m)) (objets m)
              (origine m) (prochain m + 1), inl (prochain m)).

(** [pair_to_user]; [ecrit] is the outcome of the copy to the caller. *)
Definition pair_to_user (pid out : Z) (ecrit : bool) : Appel Z :=
  garde (out =? 0) Fault ;;;
  canal <- nouveau_canal ;;
  left <- nouvel_objet (OChannel canal false) CHANNEL_DEFAULT ;;
  right <- nouvel_objet (OChannel canal true) CHANNEL_DEFAULT ;;
  (fun m => match insert_neuf pid left CHANNEL_DEFAULT m with
            | (m, inr x) => (drop right m, inr x)
            | (m, inl left_id) =>
                match insert_neuf pid right CHANNEL_DEFAULT m with
                | (m, inr x) => ((close pid left_id m).1, inr x)
                | (m, inl right_id) =>
                    if ecrit then (m, inl 0)
                    else ((close pid right_id (close pid left_id m).1).1, inr Fault)
                end
            end).

(** [export] of each handle with its mask; [meme] refuses an entry. *)
Fixpoint exporte (pid : Z) (meme : Monde -> Entry -> bool) (ids : list (Z * Z))
  : Appel (list Entry) :=
  match ids with
  | [] => rend []
  | (id, masque) :: ids =>
      e <- lis (fun m => export (table_for m pid) id masque) ;;
      m <- etat_courant ;;
      garde (meme m e) InvalidArgument ;;;
      l <- exporte pid meme ids ;;
      rend (e :: l)
  end.

Definition same_channel (emetteur : Z) (m : Monde) (e : Entry) : bool :=
  match objet m emetteur, objet m (object e) with
  | OChannel a _, OChannel b _ => a =? b
  | _, _ => false
  end.

(** [channel_send_avec_masques]: [donnees], [ids] and [masques] are the copies of the
    caller's buffers, [None] when the copy fails; no masks means [TOUS] for each. *)
Definition channel_send_avec_masques (pid id data_len handle_count : Z)
  (donnees ids masques : option (list Z)) : Appel Z :=
  garde ((MAX_MESSAGE_BYTES <? data_len) || (MAX_MESSAGE_HANDLES <? handle_count)) TooLarge ;;;
  b <- ou_echoue donnees Fault ;;
  l <- ou_echoue ids Fault ;;
  ms <- ou_echoue masques Fault ;;
  garde (negb (Nat.eqb (length ms) 0) && negb (Nat.eqb (length ms) (length l))) InvalidArgument ;;;
  endpoint <- lookup_kind pid (from_raw id) WRITE KChannel ;;
  transferred <- exporte pid (same_channel (object endpoint))
    (imap (fun i h => (from_raw h, default TOUS (ms !! i))) l) ;;
  m <- etat_courant ;;
  match objet m (object endpoint) with
  | OChannel c side =>
      (fun m => let '(x, r) := send (canal_de m c) side (mk_message b transferred) in
                (set_canal c x m, r))
  | _ => echoue WrongType
  end.

(** The second half of [channel_recv]: the message taken, checked again, its handles
    installed, then the copies. [meta_ok] is the copy of the sizes of a message too large,
    [vise] the check of the destinations before the handles are installed, [ecrit] the copy
    of the bytes, the handles and the sizes after. The message keeps its references while
    the handles installed for it are closed again. *)
Definition recv_message (pid c : Z) (side : bool) (data_cap handles_cap : Z)
  (meta_ok vise ecrit : bool) : Appel Z :=
  message <- (fun m => let '(x, r) := recv (canal_de m c) side in (set_canal c x m, r)) ;;
  let requeue := fun m => set_canal c (requeue_front (canal_de m c) side message) m in
  if (data_cap <? taille message) || (handles_cap <? Z.of_nat (length (handles message)))
  then change requeue ;;; echoue (if meta_ok then BufferTooSmall else Fault)
  else if negb vise then change requeue ;;; echoue Fault
  else
    (fun m =>
       match sur_table pid (fun t => insert_many t (handles message)) m with
       | (m, inr x) => (requeue m, inr x)
       | (m, inl installed) =>
           if ecrit then (m, inl (taille message))
           else (requeue (fold_left
                   (fun m id => (sur_table pid (fun t => close_locked t id) m).1) installed m),
                 inr Fault)
       end).

(** [channel_recv]; [entre] is what other receivers and senders do to the channel between
    [front_sizes] and [recv]. *)
Definition channel_recv (pid id data_cap handles_cap : Z) (entre : Canal -> Canal)
  (meta_ok vise ecrit : bool) : Appel Z :=
  endpoint <- lookup_kind pid (from_raw id) READ KChannel ;;
  m <- etat_courant ;;
  match objet m (object endpoint) with
  | OChannel c side =>
      sizes <- lis (fun m => front_sizes (canal_de m c) side) ;;
      garde ((data_cap <? sizes.1) || (handles_cap <? sizes.2))
        (if meta_ok then BufferTooSmall else Fault) ;;;
      change (fun m => set_canal c (entre (canal_de m c)) m) ;;;
      recv_message pid c side data_cap handles_cap meta_ok vise ecrit
  | _ => echoue WrongType
  end.

(** ** Events *)

Definition signal (o : Object) : Object :=
  match o with OEvent _ n => OEvent true ((n + 1) mod u64_max) | o => o end.
Definition reset (o : Object) : Object :=
  match o with OEvent _ n => OEvent false ((n + 1) mod u64_max) | o => o end.

Definition event_change (pid id : Z) (f : Object -> Object) : Appel Z :=
  e <- lookup_kind pid (from_raw id) SIGNAL KEvent ;;
  change (set_objets (alter f (object e))) ;;;
  rend 0.
Definition event_query (pid id : Z) : Appel Z :=
  e <- lookup_kind pid (from_raw id) WAIT KEvent ;;
  m <- etat_courant ;;
  match objet m (object e) with
  | OEvent s n => rend (Z.lor (Z.shiftl (Z.land n (2 ^ 63 - 1)) 1) (Z.b2z s))
  | _ => echoue WrongType
  end.

(** ** Signals and wait sets *)

(** [Object::signals]: the depth is that of the wait sets one inside the other, each
    holding its lock; [None] when it exceeds the fuel. *)
Fixpoint signals (fuel : nat) (m : Monde) (o : Z) : option Z :=
  match fuel with
  | O => None
  | S fuel =>
      match objet m o with
      | OChannel c side => Some (channel_signals (canal_de m c) side)
      | OEvent s _ => Some (if s then SIGNALED else 0)
      | OWaitSet w =>
          (fun l => if existsb (fun s => negb (s =? 0)) l then READABLE else 0)
            <$> mapM (fun k => signals fuel m k.2) w
      | OSharedRegion _ => Some (Z.lor READABLE WRITABLE)
      | OProcess _ t _ => Some (if t then TERMINATED else 0)
      | OUpdate | OLegacy _ => Some 0
      end
  end.

(** [WaitSet::poll]: the lock of the wait set is held, which leaves the watched objects a
    depth of one. *)
Fixpoint poll (m : Monde) (w : list (Z * Z)) (cap : nat) : option (list (Z * Z)) :=
  match w with
  | [] => Some []
  | (key, o) :: w =>
      match signals 1 m o with
      | None => None
      | Some s =>
          if s =? 0 then poll m w cap
          else if Nat.eqb cap 1 then Some [(key, s)]
          else cons (key, s) <$> poll m w (cap - 1)
      end
  end.

(** [WaitSet::add] and [WaitSet::remove]. *)
Definition watches_add (w : list (Z * Z)) (key o : Z) (x : Object) : list (Z * Z) + Error :=
  match x with
  | OWaitSet _ => inr WrongType
  | _ => if existsb (fun k => k.1 =? key) w then inr InvalidArgument else inl (w ++ [(key, o)])
  end.
Definition watches_remove (w : list (Z * Z)) (key : Z) : list (Z * Z) * (unit + Error) :=
  let reste := List.filter (fun k => negb (k.1 =? key)) w in
  (reste, if Nat.eqb (length reste) (length w) then inr NotFound else inl tt).

Definition waitset_add (pid id cible key : Z) : Appel Z :=
  ws <- lookup_kind pid (from_raw id) WRITE KWaitSet ;;
  target <- lis (fun m => lookup (table_for m pid) (from_raw cible) WAIT) ;;
  m <- etat_courant ;;
  match objet m (object ws) with
  | OWaitSet w =>
      w <- essaie (watches_add w key (object target) (objet m (object target))) (fun x => x) ;;
      change (set_objets (<[object ws := OWaitSet w]>)) ;;;
      rend 0
  | _ => echoue WrongType
  end.

(** The watches removed are dropped. *)
Definition waitset_remove (pid id key : Z) : Appel Z :=
  ws <- lookup_kind pid (from_raw id) WRITE KWaitSet ;;
  m <- etat_courant ;;
  match objet m (object ws) with
  | OWaitSet w =>
      change (set_objets (<[object ws := OWaitSet (watches_remove w key).1]>)) ;;;
      change (drops (List.filter (fun k => k.1 =? key) w).*2) ;;;
      essaie (watches_remove w key).2 (fun x => x) ;;;
      rend 0
  | _ => echoue WrongType
  end.

(** A depth of two would be a lock taken twice, a panic: the calls never reach it. *)
Definition waitset_poll (pid id cap : Z) (ecrit : bool) : Appel Z :=
  garde (4096 <? cap) TooLarge ;;;
  ws <- lookup_kind pid (from_raw id) READ KWaitSet ;;
  m <- etat_courant ;;
  match objet m (object ws) with
  | OWaitSet w =>
      ready <- ou_echoue (poll m w (Z.to_nat cap)) InvalidCall ;;
      garde (negb ecrit) Fault ;;; rend (Z.of_nat (length ready))
  | _ => echoue WrongType
  end.

(** ** Shared regions *)

Definition MAX_SHARED_REGION : Z := 64 * 1024 * 1024.

Definition shm_create (pid size : Z) : Appel Z :=
  garde ((size =? 0) || (MAX_SHARED_REGION <? size)) TooLarge ;;;
  install pid (OSharedRegion (replicate (Z.to_nat size) 0)) SHM_DEFAULT.

Definition shm_len (o : Object) : Z :=
  match o with OSharedRegion l => Z.of_nat (length l) | _ => 0 end.

(** [offset.checked_add(len)] and the end of the region. *)
Definition hors_region (o : Object) (offset len : Z) : bool :=
  (u64_max <=? offset + len) || (shm_len o <? offset + len).

Definition shm_read (pid id offset len : Z) : Appel (list Z) :=
  e <- lookup_kind pid (from_raw id) READ KSharedRegion ;;
  m <- etat_courant ;;
  garde (hors_region (objet m (object e)) offset len) InvalidArgument ;;;
  match objet m (object e) with
  | OSharedRegion l => rend (take (Z.to_nat len) (skipn (Z.to_nat offset) l))
  | _ => echoue WrongType
  end.

Definition shm_ecrit (offset : Z) (data : list Z) (o : Object) : Object :=
  match o with
  | OSharedRegion l =>
      OSharedRegion (take (Z.to_nat offset) l ++ data
                     ++ skipn (Z.to_nat offset + length data) l)
  | o => o
  end.
Definition shm_write (pid id offset len : Z) (donnees : option (list Z)) : Appel Z :=
  e <- lookup_kind pid (from_raw id) WRITE KSharedRegion ;;
  m <- etat_courant ;;
  garde (hors_region (objet m (object e)) offset len) InvalidArgument ;;;
  data <- ou_echoue donnees Fault ;;
  garde (hors_region (objet m (object e)) offset (Z.of_nat (length data))) InvalidArgument ;;;
  change (set_objets (alter (shm_ecrit offset data) (object e))) ;;;
  rend (Z.of_nat (length data)).

(** ** Processes *)

(** The outcome of [exec::lance_enfant]: whether the callback that installs the child's
    handles ran, for which process, and whether the launch succeeded. *)
Inductive Lancement := Avorte (e : Error) | Echoue (enfant : Z) (e : Error) | Reussi (enfant : Z).

Definition MAX_SPAWN_HANDLES : Z := 8.
Definition MAX_PATH : Z := 255.

(** [process_spawn]: [chemin] is [Some true] for a readable absolute path; [etat] is the
    state [process::suit] finds the child in. A refused child is killed: its table goes
    with its own [release_process]. *)
Definition process_spawn (pid path_len count : Z) (sortie : bool) (chemin : option bool)
  (ids masques : option (list Z)) (lance : Lancement) (etat : bool * Z) (ecrit : bool) : Appel Z :=
  garde ((path_len =? 0) || (MAX_PATH <? path_len)) InvalidArgument ;;;
  garde (MAX_SPAWN_HANDLES <? count) TooLarge ;;;
  garde (negb sortie) Fault ;;;
  c <- ou_echoue chemin Fault ;;
  garde (negb c) InvalidArgument ;;;
  l <- ou_echoue ids Fault ;;
  ms <- ou_echoue masques Fault ;;
  entries <- exporte pid (fun _ _ => false) (zip (map from_raw l) ms) ;;
  match lance with
  | Avorte e => echoue e
  | Echoue enfant e =>
      (fun m => ((sur_table enfant (fun t => insert_many t entries) m).1, inr e))
  | Reussi enfant =>
      (fun m => match sur_table enfant (fun t => insert_many t entries) m with
                | (m, inr _) => (m, inr NoSpace)
                | (m, inl _) =>
                    match install pid (OProcess enfant etat.1 etat.2) PROCESS_DEFAULT m with
                    | (m, inr x) => (m, inr x)
                    | (m, inl h) => if ecrit then (m, inl 0) else ((close pid h m).1, inr Fault)
                    end
                end)
  end.

(** [process::note_exit]: every watcher of the process sees its death. *)
Definition mark (pid code : Z) (o : Object) : Object :=
  match o with
  | OProcess p t c => if p =? pid then OProcess p true code else o
  | o => o
  end.
Definition note_exit (pid code : Z) : Appel Z :=
  change (set_objets (fmap (mark pid code))) ;;; rend 0.

Definition PROCESS_RUNNING : Z := 1.
Definition PROCESS_TERMINATED : Z := 2.
(** [process_info]: pid, state and exit code. *)
Definition process_info (pid id : Z) (ecrit : bool) : Appel (Z * Z * Z) :=
  e <- lookup_kind pid (from_raw id) INSPECT KProcess ;;
  m <- etat_courant ;;
  match objet m (object e) with
  | OProcess p t c =>
      garde (negb ecrit) Fault ;;;
      rend (p, if t then PROCESS_TERMINATED else PROCESS_RUNNING, if t then c else 0)
  | _ => echoue WrongType
  end.

(** [process_kill]: the process to kill, if it still runs; its death is its own [EXIT]. *)
Definition process_kill (pid id : Z) : Appel (option Z) :=
  e <- lookup_kind pid (from_raw id) SIGNAL KProcess ;;
  m <- etat_courant ;;
  match objet m (object e) with
  | OProcess p t _ => rend (if t then None else Some p)
  | _ => echoue WrongType
  end.

(** ** The calls *)

Definition ABI_MAJOR : Z := 1.
Definition ABI_MINOR : Z := 2.
Definition ABI_VERSION_PACKED : Z := Z.lor (Z.shiftl ABI_MAJOR 16) ABI_MINOR.

Definition handle_info (pid id : Z) (ecrit : bool) : Appel Z :=
  e <- lis (fun m => lookup (table_for m pid) (from_raw id) INSPECT) ;;
  garde (negb ecrit) Fault ;;; rend 0.

Inductive Appel_systeme :=
| VERSION
| HANDLE_CLOSE (id : Z)
| HANDLE_DUP (id requested : Z)
| HANDLE_INFO (id : Z) (ecrit : bool)
| HANDLE_COUNT
| CHANNEL_CREATE (out : Z) (ecrit : bool)
| CHANNEL_SEND_ATTENUE (id data_len handle_count : Z) (donnees ids masques : option (list Z))
| CHANNEL_RECV (id data_cap handles_cap : Z) (meta_ok vise ecrit : bool)
| EVENT_CREATE (initial : bool)
| EVENT_SIGNAL (id : Z)
| EVENT_RESET (id : Z)
| EVENT_QUERY (id : Z)
| WAITSET_CREATE
| WAITSET_ADD (id cible key : Z)
| WAITSET_REMOVE (id key : Z)
| WAITSET_POLL (id cap : Z) (ecrit : bool)
| SHM_CREATE (size : Z)
| SHM_SIZE (id : Z)
| SHM_READ (id offset len : Z) (ecrit : bool)
| SHM_WRITE (id offset len : Z) (donnees : option (list Z))
| PROCESS_SPAWN (path_len count : Z) (sortie : bool) (chemin : option bool)
    (ids masques : option (list Z)) (lance : Lancement) (etat : bool * Z) (ecrit : bool)
| PROCESS_INFO (id : Z) (ecrit : bool)
| PROCESS_KILL (id : Z)
| TIME_NOW (monotonic_ns : Z)
| INCONNU
| EXIT (code : Z).

(** [dispatch_inner], and the death of the process. *)
Definition dispatch_inner (pid : Z) (a : Appel_systeme) : Appel Z :=
  match a with
  | VERSION => rend ABI_VERSION_PACKED
  | HANDLE_CLOSE id => close pid (from_raw id) ;;; rend 0
  | HANDLE_DUP id requested =>
      sur_table pid (fun t => duplicate t (from_raw id) (requested mod u32_max))
  | HANDLE_INFO id ecrit => handle_info pid id ecrit
  | HANDLE_COUNT => lis (fun m => inl (live (table_for m pid)))
  | CHANNEL_CREATE out ecrit => pair_to_user pid out ecrit
  | CHANNEL_SEND_ATTENUE id n h d i ms => channel_send_avec_masques pid id n h d i ms
  | CHANNEL_RECV id d h mo v e => channel_recv pid id d h (fun c => c) mo v e
  | EVENT_CREATE initial => install pid (OEvent initial 1) EVENT_DEFAULT
  | EVENT_SIGNAL id => event_change pid id signal
  | EVENT_RESET id => event_change pid id reset
  | EVENT_QUERY id => event_query pid id
  | WAITSET_CREATE => install pid (OWaitSet []) WAITSET_DEFAULT
  | WAITSET_ADD id cible key => waitset_add pid id cible key
  | WAITSET_REMOVE id key => waitset_remove pid id key
  | WAITSET_POLL id cap ecrit => waitset_poll pid id cap ecrit
  | SHM_CREATE size => shm_create pid size
  | SHM_SIZE id =>
      e <- lookup_kind pid (from_raw id) INSPECT KSharedRegion ;;
      lis (fun m => inl (shm_len (objet m (object e))))
  | SHM_READ id offset len ecrit =>
      data <- shm_read pid id offset len ;;
      garde (negb ecrit) Fault ;;; rend (Z.of_nat (length data))
  | SHM_WRITE id offset len donnees => shm_write pid id offset len donnees
  | PROCESS_SPAWN n c s ch i ms l et e => process_spawn pid n c s ch i ms l et e
  | PROCESS_INFO id ecrit => process_info pid id ecrit ;;; rend 0
  | PROCESS_KILL id => process_kill pid id ;;; rend 0
  | TIME_NOW ns => rend (Z.land ns (2 ^ 63 - 1))
  | INCONNU => echoue InvalidCall
  | EXIT code => note_exit pid code ;;; release_process pid
  end.

(** A run: the calls of all the processes, one after the other. *)
Definition joue (m : Monde) (l : list (Z * Appel_systeme)) : Monde :=
  fold_left (fun m a => (dispatch_inner a.1 a.2 m).1) l m.

End Natif.
