(* ===== verification/NatifProofs.v ===== *)
(** The invariant of the native objects and its preservation by every system call: handles
    and messages in flight carry no right their object was not created with, references
    are alive, queues are counted exactly, no channel carries itself and no wait set
    watches a wait set. *)

From S2P Require Import Prelude Capacites CapacitesProofs Natif.
Import Capacites CapacitesProofs Natif.
Open Scope os_scope.

Module NatifProofs.

(** ** The invariant *)

(** What the invariant needs to know of an object. *)
Inductive Sorte := SCanal (c : Z) | SAttente | SAutre (k : ObjectKind).
Definition sorte (x : Object) : Sorte :=
  match x with OChannel c _ => SCanal c | OWaitSet _ => SAttente | x => SAutre (kind x) end.
Definition genre (s : Sorte) : ObjectKind :=
  match s with SCanal _ => KChannel | SAttente => KWaitSet | SAutre k => k end.
Lemma genre_sorte x : genre (sorte x) = kind x.
Proof. by destruct x. Qed.
Definition env (m : Monde) : Z -> option Sorte * option Z := fun o =>
  (sorte <$> objets m !! o, origine m !! o).

Definition Vue := Z -> option Sorte * option Z.
Definition bonne (E : Vue) (e : Entry) : Prop :=
  is_Some (E (object e)).1
  /\ contains (default 0 (E (object e)).2) (rights e) = true.
(** An entry that may travel on channel [c]. *)
Definition voyage (E : Vue) (c : Z) (e : Entry) : Prop :=
  bonne E e /\ (E (object e)).1 <> Some (SCanal c).
Definition surveillable (E : Vue) (o : Z) : Prop :=
  is_Some (E o).1 /\ (E o).1 <> Some SAttente.

Definition octets (q : list Message) : Z := foldr (fun x n => taille x + n) 0 q.
Record voie_saine (E : Vue) (c : Z) (v : Voie) : Prop := {
  vs_handles : Forall (fun x => Forall (voyage E c) (handles x)) (queue v);
  vs_octets : queued_bytes v = octets (queue v);
  vs_messages : Z.of_nat (length (queue v)) <= MAX_QUEUED_MESSAGES;
  vs_borne : queued_bytes v <= MAX_QUEUED_BYTES
}.

(** The rights of an object of each kind when a call creates it; no call creates an update object
    or one of the older interfaces. *)
Definition droits_initiaux (k : ObjectKind) : Z :=
  match k with
  | KChannel => CHANNEL_DEFAULT
  | KEvent => EVENT_DEFAULT
  | KWaitSet => WAITSET_DEFAULT
  | KProcess => PROCESS_DEFAULT
  | KSharedRegion => SHM_DEFAULT
  | _ => 0
  end.
Definition droits_crees (s : option Sorte) (r : Z) : Prop :=
  match s with Some s => contains (droits_initiaux (genre s)) r = true | None => True end.

Lemma octets_pos q : 0 <= octets q.
Proof. induction q; simpl; unfold taille in *; lia. Qed.

Section Invariant.
(** The first object and the rights known when the run starts. *)
Context (p0 : Z) (o0 : gmap Z Z).

Record Sain (m : Monde) : Prop := {
  sain_tables : forall pid t, tables m !! pid = Some t ->
    table_saine t /\ Forall (bonne (env m)) (occupants t);
  sain_canaux : forall c x side, canaux m !! c = Some x -> voie_saine (env m) c (voie x side);
  sain_objets : forall k x, objets m !! k = Some x -> Forall (surveillable (env m)) (refs_objet x);
  sain_frais : forall k, prochain m <= k -> objets m !! k = None /\ canaux m !! k = None;
  sain_sortes : forall k c side, objets m !! k = Some (OChannel c side) -> c < prochain m;
  sain_origine : p0 <= prochain m /\ forall k,
    (k < p0 -> origine m !! k = o0 !! k)
    /\ (p0 <= k -> droits_crees (sorte <$> objets m !! k) (default 0 (origine m !! k)))
}.

(** ** References *)

Lemma elem_of_references m o :
  o ∈ references m <->
  (exists pid t, tables m !! pid = Some t /\ o ∈ refs_table t)
  \/ (exists c x, canaux m !! c = Some x /\ o ∈ refs_canal x)
  \/ (exists k x, objets m !! k = Some x /\ o ∈ refs_objet x).
Proof.
  assert (forall {A} (f : A -> list Z) (g : gmap Z A),
    o ∈ mjoin (map f (map_to_list g).*2) <-> exists k x, g !! k = Some x /\ o ∈ f x) as H.
  { intros A f g. rewrite list_elem_of_join. split.
    - intros (l & Ho & Hl). apply list_elem_of_fmap in Hl as (x & -> & Hx).
      apply list_elem_of_fmap in Hx as ([k y] & -> & Hk). apply elem_of_map_to_list in Hk. eauto.
    - intros (k & x & Hk & Ho). exists (f x). split; [done|].
      apply list_elem_of_fmap. exists x. split; [done|].
      apply list_elem_of_fmap. exists (k, x). split; [done|]. by apply elem_of_map_to_list. }
  unfold references. rewrite !elem_of_app, !H. done.
Qed.

Lemma refs_entrees_elem l e : e ∈ l -> object e ∈ refs_entrees l.
Proof. intros. apply list_elem_of_fmap. eauto. Qed.

Lemma refs_voie_elem v x e : x ∈ queue v -> e ∈ handles x -> object e ∈ refs_voie v.
Proof.
  intros Hx He. apply refs_entrees_elem, list_elem_of_join. exists (handles x).
  split; [done|]. apply list_elem_of_fmap. eauto.
Qed.

Lemma refs_canal_elem (c : Canal) side x e :
  x ∈ queue (voie c side) -> e ∈ handles x -> object e ∈ refs_canal c.
Proof.
  intros Hx He. apply elem_of_app. destruct side; [right|left]; by eapply refs_voie_elem.
Qed.

(** ** Changes that keep it *)

Lemma bonne_env (E E' : Vue) e : E' (object e) = E (object e) -> bonne E e -> bonne E' e.
Proof. unfold bonne. by intros ->. Qed.

Lemma voie_env (E E' : Vue) c v :
  (forall o, o ∈ refs_voie v -> E' o = E o) -> voie_saine E c v -> voie_saine E' c v.
Proof.
  intros H [Hh Ho Hm Hb]. split; [|done..].
  apply Forall_forall. intros x Hx. apply Forall_forall. intros e He.
  rewrite Forall_forall in Hh. specialize (Hh x Hx). rewrite Forall_forall in Hh.
  specialize (Hh e He). unfold voyage, bonne in *. by rewrite (H (object e)) by (by eapply refs_voie_elem).
Qed.

(** The same tables and channels, and the same view of every object referred to. *)
Lemma sain_env m m' :
  Sain m -> tables m' = tables m -> canaux m' = canaux m ->
  (forall o, o ∈ references m -> env m' o = env m o) ->
  (forall k x, objets m' !! k = Some x -> Forall (surveillable (env m')) (refs_objet x)) ->
  (forall k, prochain m' <= k -> objets m' !! k = None /\ canaux m' !! k = None) ->
  (forall k c side, objets m' !! k = Some (OChannel c side) -> c < prochain m') ->
  (p0 <= prochain m' /\ forall k,
    (k < p0 -> origine m' !! k = o0 !! k)
    /\ (p0 <= k -> droits_crees (sorte <$> objets m' !! k) (default 0 (origine m' !! k)))) ->
  Sain m'.
Proof.
  intros [Ht Hc Ho Hf Hs Hor] Et Ec He Hob Hfr Hso Hor'. split; [| |done..].
  - intros pid t E. rewrite Et in E. destruct (Ht pid t E) as [H1 H2]. split; [done|].
    apply Forall_forall. intros e Hin. rewrite Forall_forall in H2.
    apply (bonne_env (env m)); [|by apply H2]. apply He, elem_of_references. left.
    exists pid, t. split; [done|]. by apply refs_entrees_elem.
  - intros c x side E. rewrite Ec in E. apply (voie_env (env m)); [|by apply Hc].
    intros o Hin. apply He, elem_of_references. right. left. exists c, x. split; [done|].
    apply elem_of_app. destruct side; auto.
Qed.

Lemma sain_set_table m pid t :
  Sain m -> table_saine t -> Forall (bonne (env m)) (occupants t) -> Sain (set_table pid t m).
Proof.
  intros [Ht Hc Ho Hf Hs Hor] H1 H2. split; [|exact Hc|exact Ho|exact Hf|exact Hs|exact Hor].
  intros pid' t' E. simpl in E. apply lookup_insert_Some in E as [[-> ->]|[_ E]]; [done|].
  by eapply Ht.
Qed.

Lemma sain_set_canal m c x :
  Sain m -> c < prochain m -> (forall side, voie_saine (env m) c (voie x side)) -> Sain (set_canal c x m).
Proof.
  intros [Ht Hc Ho Hf Hs Hor] Hlt H. split; [exact Ht| |exact Ho| |exact Hs|exact Hor].
  - intros c' x' side E. simpl in E.
    apply lookup_insert_Some in E as [[-> ->]|[_ E]]; [apply H|by eapply Hc].
  - intros k Hk. simpl in *. rewrite lookup_insert_ne by lia. auto.
Qed.

Lemma table_for_saine m pid :
  Sain m -> table_saine (table_for m pid) /\ Forall (bonne (env m)) (occupants (table_for m pid)).
Proof.
  intros H. unfold table_for. destruct (tables m !! pid) as [t|] eqn:E; simpl.
  - by eapply sain_tables.
  - split; [apply table_vide_saine|by apply Forall_nil].
Qed.

Lemma canal_de_saine m c side : Sain m -> voie_saine (env m) c (voie (canal_de m c) side).
Proof.
  intros H. unfold canal_de. destruct (canaux m !! c) as [x|] eqn:E; simpl.
  - by eapply sain_canaux.
  - split; simpl; [by apply Forall_nil|done..].
Qed.

Lemma voie_vide_saine E c : voie_saine E c (mk_voie [] 0).
Proof. split; simpl; [by apply Forall_nil|done..]. Qed.

(** ** Releases *)

Lemma sain_delete m o :
  Sain m -> o ∉ references m -> Sain (set_objets (delete o) m).
Proof.
  intros H Ho. pose proof H as [_ _ Hob Hf Hs Hor].
  assert (forall o', o' ∈ references m -> env (set_objets (delete o) m) o' = env m o') as He.
  { intros o' Hin. unfold env. simpl. rewrite lookup_delete_ne; [done|]. by intros ->. }
  apply (sain_env m); [done|done|done|done| | | |].
  - intros k x E. simpl in E. apply lookup_delete_Some in E as [_ E].
    apply Forall_forall. intros o' Hin. unfold surveillable. rewrite He.
    + pose proof (Hob k x E) as HF. rewrite Forall_forall in HF. by apply HF.
    + apply elem_of_references. eauto 8.
  - intros k Hk. simpl in *. destruct (Hf k Hk) as [E1 E2]. split; [|done].
    rewrite lookup_delete_None. auto.
  - intros k c side E. simpl in *. apply lookup_delete_Some in E as [_ E]. eauto.
  - destruct Hor as [Hp Hor]. split; [done|]. intros k. destruct (Hor k) as [H1 H2]. split; [done|]. intros Hk. simpl.
    destruct (decide (k = o)) as [->|]; [by rewrite lookup_delete_eq|]. rewrite lookup_delete_ne by done. by apply H2.
Qed.

Lemma sain_lache m c side :
  Sain m -> c < prochain m -> Sain (lache_extremite c side m).1.
Proof.
  intros H Hc. unfold lache_extremite. destruct (closed _ _); simpl.
  - apply sain_set_canal; [done|done|]. intros. apply voie_vide_saine.
  - apply sain_set_canal; [done|done|]. intros s. simpl. by apply canal_de_saine.
Qed.

Lemma sain_objet_libere fuel m o : Sain m -> Sain (libere fuel m o).
Proof.
  revert m o. induction fuel as [|fuel IH]; intros m o H; simpl; [done|].
  destruct (objets m !! o) as [x|] eqn:E; [|done].
  destruct (bool_decide _) eqn:Eb; [done|]. apply bool_decide_eq_false in Eb.
  pose proof (sain_delete m o H Eb) as H1.
  assert (forall l m, Sain m -> Sain (fold_left (libere fuel) l m)) as Hl.
  { clear -IH. intros l. induction l as [|o l IHl]; intros m H; simpl; [done|]. by apply IHl, IH. }
  destruct x; simpl; try (apply Hl; exact H1); try exact H1.
  pose proof (sain_lache (set_objets (delete o) m) canal side H1) as H2.
  destruct (lache_extremite _ _ _) as [m' suite]. apply Hl, H2.
  simpl. by eapply sain_sortes.
Qed.

Lemma sain_drop m o : Sain m -> Sain (drop o m).
Proof. apply sain_objet_libere. Qed.
Lemma sain_drops l m : Sain m -> Sain (drops l m).
Proof. revert m. induction l; intros m H; simpl; [done|]. by apply IHl, sain_drop. Qed.

(** A release keeps the tables and what the others see, and only deletes. *)
Lemma libere_tables fuel m o :
  tables (libere fuel m o) = tables m /\ origine (libere fuel m o) = origine m
  /\ prochain (libere fuel m o) = prochain m
  /\ forall k x, objets (libere fuel m o) !! k = Some x -> objets m !! k = Some x.
Proof.
  revert m o. induction fuel as [|fuel IH]; intros m o; simpl; [done|].
  destruct (objets m !! o) as [x|] eqn:E; [|done]. destruct (bool_decide _); [done|].
  assert (forall l m, tables (fold_left (libere fuel) l m) = tables m
    /\ origine (fold_left (libere fuel) l m) = origine m
    /\ prochain (fold_left (libere fuel) l m) = prochain m
    /\ forall k x, objets (fold_left (libere fuel) l m) !! k = Some x -> objets m !! k = Some x) as Hl.
  { clear -IH. intros l. induction l as [|o l IHl]; intros m; simpl; [done|].
    destruct (IHl (libere fuel m o)) as (-> & -> & -> & H). destruct (IH m o) as (-> & -> & -> & H').
    split_and!; [done..|]. intros. by apply H', H. }
  destruct x; simpl;
    match goal with
    | |- context [lache_extremite ?c ?s ?m] =>
        unfold lache_extremite; destruct (closed _ _);
        match goal with |- context [fold_left _ ?l ?m1] => destruct (Hl l m1) as (-> & -> & -> & H) end
    | |- context [fold_left _ ?l ?m1] => destruct (Hl l m1) as (-> & -> & -> & H)
    | _ => idtac
    end; split_and!; try done; intros k' y Ek;
    try apply H in Ek; simpl in Ek; by apply lookup_delete_Some in Ek as [_ Ek].
Qed.

(** ** Objects *)

Lemma references_vivantes m o : Sain m -> o ∈ references m -> is_Some (objets m !! o).
Proof.
  intros H Ho. assert (is_Some (env m o).1) as Hs.
  { apply elem_of_references in Ho as [(pid & t & E & Hi)|[(c & x & E & Hi)|(k & x & E & Hi)]].
    - apply list_elem_of_fmap in Hi as (e & -> & He).
      destruct (sain_tables m H pid t E) as [_ HF]. rewrite Forall_forall in HF. by apply HF.
    - assert (exists side, o ∈ refs_voie (voie x side)) as (side & Hv).
      { apply elem_of_app in Hi as []; eauto. }
      apply list_elem_of_fmap in Hv as (e & -> & He).
      apply list_elem_of_join in He as (l & He & Hl).
      apply list_elem_of_fmap in Hl as (y & -> & Hy).
      pose proof (vs_handles _ _ _ (sain_canaux m H c x side E)) as HF.
      rewrite Forall_forall in HF. specialize (HF y Hy). rewrite Forall_forall in HF.
      by apply HF.
    - pose proof (sain_objets m H k x E) as HF. rewrite Forall_forall in HF. by apply HF. }
  unfold env in Hs. simpl in Hs. destruct (objets m !! o); [done|]. by destruct Hs.
Qed.

Lemma sain_objets_maj m f :
  Sain m ->
  (forall k, sorte <$> f (objets m) !! k = sorte <$> objets m !! k) ->
  (forall k x, f (objets m) !! k = Some x -> Forall (surveillable (env m)) (refs_objet x)) ->
  Sain (set_objets f m).
Proof.
  intros H Hso Hob.
  assert (forall o, env (set_objets f m) o = env m o) as He.
  { intros o. unfold env. simpl. by rewrite Hso. }
  apply (sain_env m); [done|done|done|by intros| | | |simpl; setoid_rewrite Hso; exact (sain_origine m H)].
  - intros k x E. eapply Forall_impl; [exact (Hob k x E)|].
    intros o. unfold surveillable. by rewrite He.
  - intros k Hk. simpl in *. destruct (sain_frais m H k Hk) as [E1 E2]. split; [|done].
    specialize (Hso k). rewrite E1 in Hso. by destruct (f (objets m) !! k).
  - intros k c side E. simpl in *. specialize (Hso k). rewrite E in Hso. simpl in Hso.
    destruct (objets m !! k) as [[] |] eqn:Ek; simplify_eq/=. by eapply sain_sortes.
Qed.

Lemma sain_alter m f o :
  Sain m -> (forall x, sorte (f x) = sorte x /\ refs_objet (f x) = refs_objet x) ->
  Sain (set_objets (alter f o) m).
Proof.
  intros H Hf. apply sain_objets_maj; [done| |].
  - intros k. destruct (decide (k = o)) as [->|].
    + rewrite lookup_alter_eq. destruct (objets m !! o) as [x|]; simpl; [|done].
      by destruct (Hf x) as [-> _].
    + by rewrite lookup_alter_ne.
  - intros k x E. destruct (decide (k = o)) as [->|].
    + rewrite lookup_alter_eq in E. destruct (objets m !! o) as [y|] eqn:Ey; simplify_eq/=.
      destruct (Hf y) as [_ ->]. by eapply sain_objets.
    + rewrite lookup_alter_ne in E by done. by eapply sain_objets.
Qed.

(** An object nobody refers to yet, and the handle installed on it. *)
Lemma sain_nouvel_objet m o r :
  Sain m -> contains (droits_initiaux (kind o)) r = true -> refs_objet o = [] ->
  (forall c side, o = OChannel c side -> c < prochain m) ->
  Sain (nouvel_objet o r m).1.
Proof.
  intros H Hr Ho Hc. unfold nouvel_objet. simpl.
  set (m' := mk_monde _ _ _ _ _).
  assert (forall k, k ∈ references m -> env m' k = env m k) as He.
  { intros k Hk. destruct (references_vivantes m k H Hk) as [x Ex].
    assert (prochain m <> k).
    { intros <-. destruct (sain_frais m H (prochain m)); [lia|]. congruence. }
    unfold env, m'. simpl. by rewrite !lookup_insert_ne. }
  apply (sain_env m); [done|done|done|done| | | |].
  - intros k x E. simpl in E. apply lookup_insert_Some in E as [[_ <-]|[_ E]].
    + rewrite Ho. by apply Forall_nil.
    + apply Forall_forall. intros j Hj. unfold surveillable. rewrite He.
      * pose proof (sain_objets m H k x E) as HF. rewrite Forall_forall in HF. by apply HF.
      * apply elem_of_references. eauto 8.
  - intros k Hk. simpl in *. rewrite lookup_insert_ne by lia. apply sain_frais; [done|lia].
  - intros k c side E. simpl in *. apply lookup_insert_Some in E as [[_ E]|[_ E]].
    + specialize (Hc _ _ E). lia.
    + pose proof (sain_sortes m H _ _ _ E). lia.
  - destruct (sain_origine m H) as [Hp Hor]. simpl. split; [lia|]. intros k.
    destruct (decide (k = prochain m)) as [->|].
    + rewrite !lookup_insert_eq. split; [lia|]. simpl. by rewrite genre_sorte.
    + rewrite !lookup_insert_ne by done. apply Hor.
Qed.

Lemma nouvel_objet_bonne m o r :
  bonne (env (nouvel_objet o r m).1) (mk_entry (prochain m) r).
Proof.
  unfold bonne, env, nouvel_objet. simpl. rewrite !lookup_insert_eq. simpl.
  split; [eauto|apply contains_refl].
Qed.

Lemma sain_insert_neuf m pid o r :
  Sain m -> bonne (env m) (mk_entry o r) -> Sain (insert_neuf pid o r m).1.
Proof.
  intros H Hb. unfold insert_neuf, sur_table.
  destruct (table_for_saine m pid H) as [Ht HF].
  destruct (insert_locked (table_for m pid) (mk_entry o r)) as [t [id|x]] eqn:E; simpl.
  - destruct (insert_locked_spec _ _ _ _ Ht E) as (Ht' & HP & _).
    apply sain_set_table; [done|done|]. rewrite HP. by constructor.
  - destruct (insert_locked_refus _ _ _ _ E) as [-> _]. by apply sain_drop, sain_set_table.
Qed.

Lemma sain_install m pid o r :
  Sain m -> contains (droits_initiaux (kind o)) r = true -> refs_objet o = [] ->
  (forall c side, o <> OChannel c side) -> Sain (install pid o r m).1.
Proof.
  intros H Hr Ho Hc. unfold install, lie. simpl.
  apply (sain_insert_neuf (nouvel_objet o r m).1).
  - apply sain_nouvel_objet; [done|done|done|]. intros c s E. by destruct (Hc c s).
  - apply nouvel_objet_bonne.
Qed.

Lemma sain_close m pid id : Sain m -> Sain (close pid id m).1.
Proof.
  intros H. unfold close, lie, sur_table. destruct (table_for_saine m pid H) as [Ht HF].
  destruct (close_locked (table_for m pid) id) as [t [e|x]] eqn:E; simpl.
  - destruct (close_locked_spec _ _ _ _ Ht E) as (Ht' & HP & _).
    apply sain_drop, sain_set_table; [done|done|]. rewrite HP in HF. by apply Forall_cons in HF as [].
  - rewrite (close_locked_refus _ _ _ _ E). by apply sain_set_table.
Qed.

Lemma sain_release m pid : Sain m -> Sain (release_process pid m).1.
Proof.
  intros H. unfold release_process. simpl. apply sain_drops.
  destruct H as [Ht Hc Ho Hf Hs Hor]. split; [|exact Hc|exact Ho|exact Hf|exact Hs|exact Hor].
  intros p t E. simpl in E. apply lookup_delete_Some in E as [_ E]. by eapply Ht.
Qed.

(** ** The rules of a call *)

Section Regles.
Context {A B : Type}.
Implicit Types (m : Monde) (k : A -> Appel B).

Lemma en_lis f k m :
  Sain m -> (forall x, f m = inl x -> Sain (k x m).1) -> Sain (lie (lis f) k m).1.
Proof. intros H Hk. unfold lie, lis. destruct (f m); [by apply Hk|done]. Qed.

Lemma en_ou_echoue (o : option A) e k m :
  Sain m -> (forall x, o = Some x -> Sain (k x m).1) -> Sain (lie (ou_echoue o e) k m).1.
Proof. intros H Hk. destruct o; [by apply Hk|done]. Qed.

Lemma en_lookup_kind pid id r g (k : Entry -> Appel B) m :
  Sain m ->
  (forall e, e ∈ occupants (table_for m pid) -> bonne (env m) e ->
     kind (objet m (object e)) = g -> Sain (k e m).1) ->
  Sain (lie (lookup_kind pid id r g) k m).1.
Proof.
  intros H Hk. unfold lookup_kind, lie, lis.
  destruct (lookup (table_for m pid) id r) as [e|] eqn:El; [|done]. simpl.
  unfold essaie, verifie_genre. destruct (bool_decide _) eqn:Eb; simpl; [|done].
  apply bool_decide_eq_true in Eb. pose proof (lookup_occupant _ _ _ _ El) as Ho.
  apply Hk; [done| |done]. destruct (table_for_saine m pid H) as [_ HF].
  rewrite Forall_forall in HF. by apply HF.
Qed.
End Regles.

Lemma en_garde {B} b e (k : Appel B) m :
  Sain m -> (b = false -> Sain (k m).1) -> Sain (lie (garde b e) (fun _ => k) m).1.
Proof. intros H Hk. destruct b; [done|by apply Hk]. Qed.

(** One guard, read or lookup of a call. *)
Ltac en :=
  first [ match goal with |- Sain (lie etat_courant ?k ?m).1 => change (Sain (k m m).1); cbv beta end
        | apply en_garde; [done|intros ?]
        | apply en_ou_echoue; [done|intros ? ?]
        | apply en_lookup_kind; [done|intros ? ? ? ?]
        | apply en_lis; [done|intros ? ?] ].

Lemma bonne_derive E s e :
  bonne E s -> object e = object s -> contains (rights s) (rights e) = true -> bonne E e.
Proof.
  intros [H1 H2] Eo Hc. unfold bonne. rewrite Eo. split; [done|]. by eapply contains_trans.
Qed.

Lemma exporte_spec pid meme ids m m' r :
  Sain m -> exporte pid meme ids m = (m', r) ->
  m' = m /\ forall l, r = inl l -> Forall (fun e => bonne (env m) e /\ meme m e = false) l.
Proof.
  intros H. revert m' r. induction ids as [|[id masque] ids IH]; intros m' r E; simpl in E.
  { unfold rend in E. simplify_eq. split; [done|]. intros l El. simplify_eq. by apply Forall_nil. }
  unfold lie in E. unfold lis at 1 in E.
  destruct (export (table_for m pid) id masque) as [e|x] eqn:Ee; simpl in E.
  2:{ simplify_eq. split; [done|]. intros ? [=]. }
  destruct (meme m e) eqn:Em; simpl in E.
  { unfold echoue in E. simplify_eq. split; [done|]. intros ? [=]. }
  destruct (exporte pid meme ids m) as [m1 r1] eqn:Er.
  destruct (IH m1 r1 eq_refl) as [-> HF].
  destruct r1 as [l1|x1]; simpl in E; unfold rend in E; simplify_eq; (split; [done|]);
    intros l El; simplify_eq.
  constructor; [|by apply HF]. split; [|done].
  destruct (export_spec _ _ _ _ Ee) as (s & Hs & Eo & Hc).
  destruct (table_for_saine _ pid H) as [_ Ht]. rewrite Forall_forall in Ht.
  eapply bonne_derive; eauto.
Qed.

Lemma en_exporte {B} pid meme ids (k : list Entry -> Appel B) m :
  Sain m ->
  (forall l, Forall (fun e => bonne (env m) e /\ meme m e = false) l -> Sain (k l m).1) ->
  Sain (lie (exporte pid meme ids) k m).1.
Proof.
  intros H Hk. unfold lie. destruct (exporte pid meme ids m) as [m' r] eqn:E.
  destruct (exporte_spec _ _ _ _ _ _ H E) as [-> HF]. destruct r as [l|]; [by apply Hk, HF|done].
Qed.

(** ** Channels *)

Lemma kind_canal m o :
  Sain m -> bonne (env m) o -> kind (objet m (object o)) = KChannel ->
  exists x, objets m !! object o = Some x /\ objet m (object o) = x.
Proof.
  intros _ [Hs _] _. unfold env in Hs. simpl in Hs. unfold objet.
  destruct (objets m !! object o); [eauto|by destruct Hs].
Qed.

Lemma send_saine E x c side msg :
  (forall s, voie_saine E c (voie x s)) -> Forall (voyage E c) (handles msg) ->
  forall s, voie_saine E c (voie (send x side msg).1 s).
Proof.
  intros Hx Hm s. unfold send. destruct (closed x (negb side)); [apply Hx|].
  destruct (_ || _) eqn:Eb; [apply Hx|]. apply orb_false_iff in Eb as [E1 E2]. bool_prop. simpl.
  destruct (Bool.eqb s (negb side)); [|apply Hx]. destruct (Hx (negb side)) as [H1 H2 H3 H4].
  split; simpl.
  - apply Forall_app. split; [done|]. by constructor.
  - rewrite H2. clear. induction (queue (voie x (negb side))); simpl; lia.
  - rewrite length_app. simpl. lia.
  - lia.
Qed.

Lemma sain_send pid id n h d i ms m :
  Sain m -> Sain (channel_send_avec_masques pid id n h d i ms m).1.
Proof.
  intros H. unfold channel_send_avec_masques. do 5 en.
  apply en_lookup_kind; [done|]. intros e _ Hb Hk. apply en_exporte; [done|].
  intros l Hl. en. destruct (kind_canal m e H Hb Hk) as (o & Eo & Ex). rewrite Ex.
  destruct o as [c side| | | | | |]; try exact H. cbv beta.
  pose proof (send_saine (env m) (canal_de m c) c side (mk_message x l)) as Hs.
  destruct (send _ _ _) as [y r]. simpl in *.
  apply sain_set_canal; [done|by eapply sain_sortes|]. apply Hs.
  - intros s. by apply canal_de_saine.
  - eapply Forall_impl; [exact Hl|]. intros e' [Hb' Hm]. split; [done|].
    unfold same_channel in Hm. rewrite Ex in Hm. unfold env. simpl. unfold objet in Hm.
    destruct (objets m !! object e') as [[] |]; simpl in *; try congruence.
    apply Z.eqb_neq in Hm. congruence.
Qed.

Lemma canal_de_set m c x : canal_de (set_canal c x m) c = x.
Proof. unfold canal_de. simpl. by rewrite lookup_insert_eq. Qed.
Lemma canal_de_set_ne m c c' x : c' <> c -> canal_de (set_canal c x m) c' = canal_de m c'.
Proof. intros. unfold canal_de. simpl. by rewrite lookup_insert_ne. Qed.

Definition comptee (x : Canal) : Prop :=
  forall s, queued_bytes (voie x s) = octets (queue (voie x s)).

Lemma recv_saine E x c side x' msg :
  (forall s, voie_saine E c (voie x s)) -> recv x side = (x', inl msg) ->
  Forall (voyage E c) (handles msg) /\ forall s, voie_saine E c (voie x' s).
Proof.
  intros Hx Er. unfold recv in Er. destruct (queue (voie x side)) as [|y q] eqn:Eq; simplify_eq.
  destruct (Hx side) as [H1 H2 H3 H4]. rewrite Eq in H1, H2, H3. apply Forall_cons in H1 as [H1 H1'].
  split; [done|]. intros s. simpl. destruct (Bool.eqb s side); [|apply Hx].
  pose proof (octets_pos q). assert (0 <= taille msg) by (unfold taille; lia).
  split; simpl in *; [done|lia..].
Qed.

(** Putting back the message just received restores the queue. *)
Lemma requeue_recv x side x' msg :
  comptee x -> recv x side = (x', inl msg) ->
  forall s, voie (requeue_front x' side msg) s = voie x s.
Proof.
  intros Hx Er s. unfold recv in Er.
  destruct (queue (voie x side)) as [|y q] eqn:Eq; simplify_eq. simpl.
  pose proof (Hx side) as Ho. rewrite Eq in Ho. simpl in Ho. pose proof (octets_pos q).
  assert (0 <= taille msg) by (unfold taille; lia).
  destruct (Bool.eqb s side) eqn:Es; [|done]. apply Bool.eqb_prop in Es as ->.
  rewrite Bool.eqb_reflx. simpl. destruct (voie x side) as [qq b]. simpl in *. subst.
  f_equal. lia.
Qed.

Lemma table_for_set m pid t : table_for (set_table pid t m) pid = t.
Proof. unfold table_for. simpl. by rewrite lookup_insert_eq. Qed.
Lemma table_for_set_ne m pid p t : p <> pid -> table_for (set_table pid t m) p = table_for m p.
Proof. intros. unfold table_for. simpl. by rewrite lookup_insert_ne. Qed.

(** Closing handles without releasing their objects only changes the table. *)
Lemma ferme_tout_set m pid t ids :
  fold_left (fun m id => (sur_table pid (fun t => close_locked t id) m).1) ids (set_table pid t m)
  = set_table pid (ferme_tout ids t) m.
Proof.
  revert t. induction ids as [|id ids IH]; intros t; [done|]. cbn [fold_left].
  unfold sur_table at 2. rewrite table_for_set. unfold ferme_tout. cbn [fold_left].
  destruct (close_locked t id) as [t' r]. cbn [fst].
  assert (set_table pid t' (set_table pid t m) = set_table pid t' m) as ->.
  { unfold set_table. simpl. by rewrite insert_insert_eq. }
  apply IH.
Qed.

Lemma sain_insert_many m pid l :
  Sain m -> Forall (bonne (env m)) l -> Sain (sur_table pid (fun t => insert_many t l) m).1.
Proof.
  intros H Hl. unfold sur_table. destruct (table_for_saine m pid H) as [Ht HF].
  destruct (insert_many (table_for m pid) l) as [t r] eqn:E.
  destruct (insert_many_spec _ _ _ _ Ht E) as (H1 & H2 & _).
  apply sain_set_table; [done|done|]. apply Forall_forall. intros e He.
  rewrite Forall_forall in HF, Hl. destruct (H2 e He); auto.
Qed.

(** A table whose handles are those of [t0], and entries among those of [t0] and [l]. *)
Definition table_rendue (t0 t : Inner) (l : list Entry) : Prop :=
  table_saine t /\ (forall i, vu t i = vu t0 i)
  /\ forall e, e ∈ occupants t -> e ∈ l \/ e ∈ occupants t0.

(** How the second half of a reception ends: no message; the message back in its queue
    and the handles installed for it closed; or the message consumed. *)
Lemma recv_message_cas pid c side d h mo v e m m' r :
  table_saine (table_for m pid) -> recv_message pid c side d h mo v e m = (m', r) ->
  (exists er, recv (canal_de m c) side = (canal_de m c, inr er) /\ r = inr er
              /\ m' = set_canal c (canal_de m c) m)
  \/ (exists y msg er, recv (canal_de m c) side = (y, inl msg) /\ r = inr er
      /\ (m' = set_canal c (requeue_front y side msg) (set_canal c y m)
          \/ exists t, table_rendue (table_for m pid) t (handles msg)
              /\ m' = set_canal c (requeue_front y side msg)
                        (set_table pid t (set_canal c y m))))
  \/ (exists y msg, recv (canal_de m c) side = (y, inl msg) /\ r = inl (taille msg)
      /\ m' = (sur_table pid (fun t => insert_many t (handles msg)) (set_canal c y m)).1).
Proof.
  intros Ht E. unfold recv_message in E. unfold lie at 1 in E.
  destruct (recv (canal_de m c) side) as [y [msg|er]] eqn:Er.
  2:{ left. exists er. assert (y = canal_de m c) as ->.
      { unfold recv in Er. destruct (queue _); by simplify_eq. }
      by injection E as <- <-. }
  right. cbv zeta in E. assert (canal_de (set_canal c y m) c = y) as Ey by apply canal_de_set.
  assert (forall m1 er, canal_de m1 c = y ->
    (change (fun m => set_canal c (requeue_front (canal_de m c) side msg) m) ;;; echoue er) m1
    = (set_canal c (requeue_front y side msg) m1, inr er : Z + Error)) as Repose.
  { intros m1 er Ec. unfold lie, change, echoue. by rewrite Ec. }
  destruct (_ || _); [rewrite Repose in E by done; simplify_eq; left; eauto 8|].
  destruct (negb v); [rewrite Repose in E by done; simplify_eq; left; eauto 8|]. clear Repose.
  unfold sur_table at 1 in E.
  change (table_for (set_canal c y m) pid) with (table_for m pid) in E.
  destruct (insert_many (table_for m pid) (handles msg)) as [t res] eqn:Em.
  destruct (insert_many_spec _ _ _ _ Ht Em) as (Ht' & Ho & Hr).
  destruct res as [ids|er].
  - destruct e.
    { injection E as <- <-. right. exists y, msg. unfold sur_table.
      change (table_for (set_canal c y m) pid) with (table_for m pid). by rewrite Em. }
    left. destruct Hr as (l' & -> & Hp).
    destruct (posees_ferme _ _ _ Ht' Hp) as (F1 & F2 & F3).
    rewrite ferme_tout_set in E. injection E as <- <-.
    exists y, msg, Fault. split_and!; [done..|]. right. exists (ferme_tout l'.*1 t).
    split; [split_and!; auto|]. f_equal.
    change (canal_de (set_table pid (ferme_tout l'.*1 t) (set_canal c y m)) c)
      with (canal_de (set_canal c y m) c). by rewrite Ey.
  - injection E as <- <-. left. exists y, msg, er. split_and!; [done..|]. right. exists t.
    split; [done|]. f_equal.
    change (canal_de (set_table pid t (set_canal c y m)) c) with (canal_de (set_canal c y m) c).
    by rewrite Ey.
Qed.

Lemma sain_recv_message pid c side d h mo v e m :
  Sain m -> c < prochain m -> Sain (recv_message pid c side d h mo v e m).1.
Proof.
  intros H Hc. destruct (table_for_saine m pid H) as [Ht HF].
  assert (forall s, voie_saine (env m) c (voie (canal_de m c) s)) as Hx
    by (intros s; by apply canal_de_saine).
  assert (comptee (canal_de m c)) as Hcx by (intros s; apply (vs_octets _ _ _ (Hx s))).
  destruct (recv_message pid c side d h mo v e m) as [m' r] eqn:E. simpl.
  apply recv_message_cas in E as [(er & Er & -> & ->)|[(y & msg & er & Er & -> & Hm)|(y & msg & Er & -> & ->)]];
    [by apply sain_set_canal|..|done];
    destruct (recv_saine _ _ c _ _ _ Hx Er) as [Hmsg Hy];
    assert (Forall (bonne (env m)) (handles msg)) as Hb
      by (eapply Forall_impl; [exact Hmsg|]; by intros z [Hz _]);
    assert (Sain (set_canal c y m)) as H1 by (by apply sain_set_canal).
  - pose proof (requeue_recv _ _ _ _ Hcx Er) as Hq. destruct Hm as [->|(t & (F1 & _ & F3) & ->)].
    + apply sain_set_canal; [done|done|]. intros s. rewrite Hq. apply Hx.
    + apply sain_set_canal; [|done|intros s; rewrite Hq; apply Hx].
      apply sain_set_table; [done|done|]. apply Forall_forall. intros z Hz.
      rewrite Forall_forall in HF, Hb. destruct (F3 z Hz); [by apply Hb|by apply HF].
  - by apply sain_insert_many.
Qed.

Lemma sain_recv pid id d h mo v e m :
  Sain m -> Sain (channel_recv pid id d h (fun c => c) mo v e m).1.
Proof.
  intros H. unfold channel_recv. apply en_lookup_kind; [done|]. intros ep _ Hb Hk. en.
  destruct (kind_canal m ep H Hb Hk) as (o & Eo & Ex). rewrite Ex.
  destruct o as [c side| | | | | |]; try exact H.
  pose proof (sain_sortes m H _ _ _ Eo) as Hc. do 2 en. unfold lie, change.
  apply sain_recv_message; [|done].
  apply sain_set_canal; [done|done|]. intros s. by apply canal_de_saine.
Qed.

Lemma sain_nouveau_canal m : Sain m -> Sain (nouveau_canal m).1.
Proof.
  intros [Ht Hc Ho Hf Hs Hor]. split; [exact Ht| |exact Ho| | |].
  - intros c x side E. simpl in E. apply lookup_insert_Some in E as [[_ <-]|[_ E]].
    + apply voie_vide_saine.
    + by eapply Hc.
  - intros k Hk. simpl in *. rewrite lookup_insert_ne by lia. apply Hf. lia.
  - intros k c side E. simpl in *. specialize (Hs _ _ _ E). lia.
  - destruct Hor. simpl. split; [lia|done].
Qed.

Lemma insert_neuf_env m pid o r m' id :
  insert_neuf pid o r m = (m', inl id) -> env m' = env m.
Proof.
  unfold insert_neuf, sur_table. destruct (insert_locked _ _) as [t []]; intros; by simplify_eq.
Qed.

Lemma sain_pair pid out ecrit m : Sain m -> Sain (pair_to_user pid out ecrit m).1.
Proof.
  intros H. unfold pair_to_user. apply en_garde; [done|intros _].
  unfold lie at 1. cbn [nouveau_canal]. pose proof (sain_nouveau_canal m H) as H1.
  unfold nouveau_canal in *. simpl in H1. set (m1 := mk_monde _ _ _ _ _) in *. cbv beta iota.
  unfold lie at 1. unfold nouvel_objet at 1. cbv beta iota.
  assert (Sain (nouvel_objet (OChannel (prochain m) false) CHANNEL_DEFAULT m1).1) as H2.
  { apply sain_nouvel_objet; [done|done|done|]. intros c s [= <- <-]. simpl. lia. }
  unfold nouvel_objet in H2. cbn [fst] in H2. set (m2 := mk_monde (tables m1) _ _ _ _) in *.
  unfold lie at 1. unfold nouvel_objet at 1. cbv beta iota.
  assert (Sain (nouvel_objet (OChannel (prochain m) true) CHANNEL_DEFAULT m2).1) as H3.
  { apply sain_nouvel_objet; [done|done|done|]. intros c s [= <- <-]. simpl. lia. }
  pose proof (nouvel_objet_bonne m2 (OChannel (prochain m) true) CHANNEL_DEFAULT) as Bd.
  unfold nouvel_objet in H3, Bd. cbn [fst] in H3, Bd.
  set (m3 := mk_monde (tables m2) _ _ _ _) in *.
  assert (bonne (env m3) (mk_entry (prochain m1) CHANNEL_DEFAULT)) as Bg.
  { apply (bonne_env (env m2)); [|exact (nouvel_objet_bonne m1 _ _)].
    unfold env. simpl. by rewrite !(lookup_insert_ne _ (prochain m + 1 + 1)) by lia. }
  pose proof (sain_insert_neuf m3 pid _ _ H3 Bg) as H4.
  destruct (insert_neuf pid (prochain m1) CHANNEL_DEFAULT m3) as [m4 [gid|x]] eqn:E4; simpl in H4.
  2:{ by apply sain_drop. }
  pose proof (sain_insert_neuf m4 pid (prochain m2) CHANNEL_DEFAULT H4) as H5.
  rewrite (insert_neuf_env _ _ _ _ _ _ E4) in H5. specialize (H5 Bd).
  destruct (insert_neuf pid (prochain m2) CHANNEL_DEFAULT m4) as [m5 [did|x]]; simpl in H5.
  - destruct ecrit; [done|]. by apply sain_close, sain_close.
  - by apply sain_close.
Qed.

(** ** The other calls *)

Lemma sain_event pid id f m :
  (forall x, sorte (f x) = sorte x /\ refs_objet (f x) = refs_objet x) ->
  Sain m -> Sain (event_change pid id f m).1.
Proof.
  intros Hf H. unfold event_change. en. by apply sain_alter.
Qed.

Lemma sain_waitset_add pid id cible key m : Sain m -> Sain (waitset_add pid id cible key m).1.
Proof.
  intros H. unfold waitset_add. apply en_lookup_kind; [done|]. intros ws _ _ Hk.
  apply en_lis; [done|]. intros tg Ht. en.
  destruct (objet m (object ws)) as [| |w| | | |] eqn:Ew; try exact H.
  unfold essaie, watches_add.
  destruct (match objet m (object tg) with OWaitSet _ => true | _ => false end) eqn:Hn;
    [by destruct (objet m (object tg))|].
  destruct (existsb (fun k => k.1 =? key) w); [by destruct (objet m (object tg))|].
  assert (Sain (set_objets <[object ws := OWaitSet (w ++ [(key, object tg)])]> m)) as Hfin;
    [|destruct (objet m (object tg)); first [exact Hfin|done]].
  assert (objets m !! object ws = Some (OWaitSet w)) as Ews.
  { unfold objet in Ew. destruct (objets m !! object ws); simpl in Ew; congruence. }
  apply (sain_objets_maj m); [done| |].
  - intros k. destruct (decide (k = object ws)) as [->|].
    + by rewrite lookup_insert_eq, Ews.
    + by rewrite lookup_insert_ne.
  - intros k x E. apply lookup_insert_Some in E as [[_ <-]|[_ E]]; [|by eapply sain_objets].
    simpl. rewrite fmap_app. apply Forall_app. split; [exact (sain_objets m H _ _ Ews)|].
    constructor; [|by apply Forall_nil]. simpl.
    apply lookup_occupant in Ht. destruct (table_for_saine m pid H) as [_ HF].
    rewrite Forall_forall in HF. destruct (HF _ Ht) as [Hs _]. split; [done|].
    unfold env. simpl. unfold objet in Hn. by destruct (objets m !! object tg) as [[] |].
Qed.

Lemma sain_waitset_remove pid id key m : Sain m -> Sain (waitset_remove pid id key m).1.
Proof.
  intros H. unfold waitset_remove. apply en_lookup_kind; [done|]. intros ws _ _ Hk. en.
  destruct (objet m (object ws)) as [| |w| | | |] eqn:Ew; try exact H. cbv zeta.
  assert (objets m !! object ws = Some (OWaitSet w)) as Ews.
  { unfold objet in Ew. destruct (objets m !! object ws); simpl in Ew; congruence. }
  unfold watches_remove. cbn [fst snd].
  set (reste := List.filter (fun k => negb (k.1 =? key)) w).
  set (parti := List.filter (fun k => k.1 =? key) w).
  assert (Sain (set_objets <[object ws := OWaitSet reste]> m)) as H1.
  { apply sain_objets_maj; [done| |].
    - intros k. destruct (decide (k = object ws)) as [->|].
      + by rewrite lookup_insert_eq, Ews.
      + by rewrite lookup_insert_ne.
    - intros k x E. apply lookup_insert_Some in E as [[_ <-]|[_ E]]; [|by eapply sain_objets].
      simpl. pose proof (sain_objets m H _ _ Ews) as HF. simpl in HF.
      apply Forall_forall. intros o Ho. rewrite Forall_forall in HF. apply HF.
      apply list_elem_of_fmap in Ho as (y & -> & Hy). apply list_elem_of_fmap. exists y.
      split; [done|]. rewrite list_elem_of_In in *. by apply List.filter_In in Hy as []. }
  pose proof (sain_drops parti.*2 _ H1) as H2. unfold lie, change. cbv beta iota.
  unfold essaie. by destruct (Nat.eqb _ _).
Qed.

Lemma sain_spawn pid n c s ch i ms l et e m :
  Sain m -> Sain (process_spawn pid n c s ch i ms l et e m).1.
Proof.
  intros H. unfold process_spawn. do 7 en. apply en_exporte; [done|]. intros es Hes.
  assert (Forall (bonne (env m)) es) as Hb.
  { eapply Forall_impl; [exact Hes|]. by intros y [Hy _]. }
  destruct l as [er|enfant er|enfant]; [done|by apply sain_insert_many|].
  pose proof (sain_insert_many m enfant es H Hb) as K1.
  destruct (sur_table enfant _ m) as [m1 [ids|er]]; simpl in K1; [|done].
  pose proof (sain_install m1 pid (OProcess enfant et.1 et.2) PROCESS_DEFAULT K1 eq_refl eq_refl) as K2.
  destruct (install _ _ _ m1) as [m2 [hd|er]]; simpl in K2; [|by apply K2].
  destruct e; [by apply K2|]. by apply sain_close, K2.
Qed.

Lemma sain_note_exit pid code m : Sain m -> Sain (note_exit pid code m).1.
Proof.
  intros H. apply sain_objets_maj; [done| |].
  - intros k. rewrite lookup_fmap. destruct (objets m !! k) as [[] |]; simpl; try done.
    by destruct (_ =? _).
  - intros k x E. rewrite lookup_fmap in E. destruct (objets m !! k) as [y|] eqn:Ey; simplify_eq/=.
    pose proof (sain_objets m H _ _ Ey) as HF.
    destruct y; simpl in *; try done. by destruct (_ =? _).
Qed.

Lemma sain_duplicate pid id r m :
  Sain m -> Sain (sur_table pid (fun t => duplicate t id r) m).1.
Proof.
  intros H. unfold sur_table. destruct (table_for_saine m pid H) as [Ht HF].
  destruct (duplicate _ _ _) as [t x] eqn:E. destruct (duplicate_spec _ _ _ _ _ Ht E) as [H1 H2].
  apply sain_set_table; [done|done|]. apply Forall_forall. rewrite Forall_forall in HF.
  intros e He. destruct (H2 e He) as [|(s & Hs & Eo & Hc)]; [auto|]. eapply bonne_derive; eauto.
Qed.

Lemma sain_dispatch pid a m : Sain m -> Sain (dispatch_inner pid a m).1.
Proof.
  intros H. destruct a; cbn [dispatch_inner].
  - done.
  - unfold lie. pose proof (sain_close m pid (from_raw id) H) as H1.
    by destruct (close _ _ m) as [m' []].
  - by apply sain_duplicate.
  - unfold handle_info. en. by en.
  - done.
  - by apply sain_pair.
  - by apply sain_send.
  - by apply sain_recv.
  - by apply sain_install.
  - apply sain_event; [by intros []|done].
  - apply sain_event; [by intros []|done].
  - unfold event_query. en. en. by destruct (objet m (object e)).
  - by apply sain_install.
  - by apply sain_waitset_add.
  - by apply sain_waitset_remove.
  - unfold waitset_poll. do 3 en. destruct (objet m (object e)); try done. en. by en.
  - unfold shm_create. en. by apply sain_install.
  - by en.
  - unfold lie at 1. assert (Sain (shm_read pid id offset len m).1) as H1.
    { unfold shm_read. do 3 en. by destruct (objet m (object e)). }
    destruct (shm_read pid id offset len m) as [m' [d|x]]; [|done]. by apply en_garde.
  - unfold shm_write. do 5 en. apply sain_alter; [done|by intros []].
  - by apply sain_spawn.
  - unfold lie at 1. assert (Sain (process_info pid id ecrit m).1) as H1.
    { unfold process_info. do 2 en. destruct (objet m (object e)); try done. by en. }
    by destruct (process_info pid id ecrit m) as [m' []].
  - unfold lie at 1. assert (Sain (process_kill pid id m).1) as H1.
    { unfold process_kill. do 2 en. by destruct (objet m (object e)). }
    by destruct (process_kill pid id m) as [m' []].
  - done.
  - done.
  - unfold lie. pose proof (sain_note_exit pid code m H) as H1.
    destruct (note_exit pid code m) as [m' []]; [|done]. by apply sain_release.
Qed.

Lemma sain_joue l m : Sain m -> Sain (joue m l).
Proof.
  revert m. induction l as [|a l IH]; intros m H; simpl; [done|]. by apply IH, sain_dispatch.
Qed.

End Invariant.

(** A world the kernel may start from. *)
Definition Sain_initial (m : Monde) : Prop := Sain (prochain m) (origine m) m.

End NatifProofs.
