(* ===== verification/NatifSurete.v ===== *)
(** What the native calls guarantee to every process: rights only shrink, references are
    alive, queues are bounded, waiting never recurses, a reception that fails changes
    nothing. Two situations the code does not handle are evaluated at the end. *)

From S2P Require Import Prelude Capacites CapacitesProofs Natif NatifProofs.
Import Capacites CapacitesProofs Natif NatifProofs.
Open Scope os_scope.

Module NatifSurete.

Lemma sain_initial_joue m l : Sain_initial m -> Sain (prochain m) (origine m) (joue m l).
Proof. apply sain_joue. Qed.

(** A world where the supervisor, process 1, holds the update capability. *)
Definition UPDATE_RIGHTS : Z := ou [INSPECT; UPDATE_HEALTH; UPDATE_INSTALL; TRANSFER].
Definition superviseur : Monde :=
  mk_monde {[1 := mk_inner [mk_slot 1 (Some (mk_entry 0 UPDATE_RIGHTS))] 1]} ∅
    {[0 := OUpdate]} {[0 := UPDATE_RIGHTS]} 1.

Lemma superviseur_sain : Sain_initial superviseur.
Proof.
  split; simpl.
  - intros pid t E. apply lookup_singleton_Some in E as [_ <-]. split.
    + split; simpl; [done| |done]. constructor; [simpl; done|by apply Forall_nil].
    + constructor; [|by apply Forall_nil]. split; [by eexists|done].
  - done.
  - intros k x E. apply lookup_singleton_Some in E as [_ <-]. by apply Forall_nil.
  - intros k Hk. split; [|done]. apply lookup_singleton_None. lia.
  - intros k c side E. by apply lookup_singleton_Some in E as [_ ?].
  - split; [done|]. intros k. split; [done|]. intros Hk.
    simpl. by rewrite lookup_singleton_ne by lia.
Qed.

(** Process 1 creates a channel and sends its update capability over it, without the
    right to install; process 2 exists. *)
Definition don : list (Z * Appel_systeme) :=
  [ (1, CHANNEL_CREATE 8 true);
    (1, CHANNEL_SEND_ATTENUE (id_new 2 1) 1 1 (Some [7]) (Some [id_new 1 1])
          (Some [ou [INSPECT; UPDATE_HEALTH]]));
    (1, CHANNEL_RECV (id_new 3 1) 16 4 true true true) ].

(** C1. No right is ever gained: after any sequence of calls by any processes, a handle
    that a table accepts grants what was asked, designates a live object, and carries
    rights included in those its object had when the run started or, for an object created
    since, in those its kind of object is created with. No call creates a capability on
    updates: a handle on one designates an object of the start. *)
Theorem droits_jamais_gagnes m0 l pid id req e :
  Sain_initial m0 ->
  lookup (table_for (joue m0 l) pid) id req = inl e ->
  contains (rights e) req = true
  /\ (object e < prochain m0 -> contains (default 0 (origine m0 !! object e)) (rights e) = true)
  /\ exists o, objets (joue m0 l) !! object e = Some o
     /\ (prochain m0 <= object e -> contains (droits_initiaux (kind o)) (rights e) = true).
Proof.
  intros H0 El. pose proof (sain_initial_joue m0 l H0) as H.
  destruct (table_for_saine _ _ _ pid H) as [_ HF]. rewrite Forall_forall in HF.
  destruct (HF e (lookup_occupant _ _ _ _ El)) as [Hs Hc].
  unfold env in Hs, Hc. simpl in Hs, Hc. apply fmap_is_Some in Hs as [o Eo].
  destruct (sain_origine _ _ _ H) as [_ Hor]. destruct (Hor (object e)) as [H1 H2].
  split_and!; [by eapply lookup_droits| |].
  - intros Ho. by rewrite <-H1.
  - exists o. split; [done|]. intros Ho. specialize (H2 Ho). rewrite Eo in H2. simpl in H2. rewrite genre_sorte in H2.
    by eapply contains_trans.
Qed.

(** The capability received keeps the right to declare a boot healthy, not to install; the end of the
    channel created carries the rights of a channel. *)
Lemma droits_jamais_gagnes_witness :
  lookup (table_for (joue superviseur don) 1) (id_new 4 1) UPDATE_HEALTH
    = inl (mk_entry 0 (ou [INSPECT; UPDATE_HEALTH]))
  /\ contains (default 0 (origine superviseur !! 0)) (ou [INSPECT; UPDATE_HEALTH]) = true
  /\ exists e o, lookup (table_for (joue superviseur don) 1) (id_new 2 1) READ = inl e
     /\ objets (joue superviseur don) !! object e = Some o /\ contains (droits_initiaux (kind o)) (rights e) = true.
Proof.
  split; [vm_compute; reflexivity|]. split.
  - refine (proj1 (proj2 (droits_jamais_gagnes superviseur don 1 (id_new 4 1) UPDATE_HEALTH
           (mk_entry 0 (ou [INSPECT; UPDATE_HEALTH])) superviseur_sain _)) _); vm_compute; reflexivity.
  - destruct (lookup (table_for (joue superviseur don) 1) (id_new 2 1) READ) as [e|x] eqn:E; [|vm_compute in E; discriminate].
    destruct (droits_jamais_gagnes superviseur don 1 (id_new 2 1) READ e superviseur_sain E) as (_ & _ & o & Eo & Hc).
    exists e, o. split; [done|]. split; [done|]. apply Hc. vm_compute in E. injection E as <-. vm_compute. discriminate.
Defined.

(** Channels are bounded and counted exactly: after any sequence of calls each queue
    holds at most 64 messages, its byte count is the sum of its messages and at most two
    mebibytes, every capability in flight is on a live object, and none is an end of the
    channel that carries it. *)
Theorem canaux_bornes m0 l c side :
  Sain_initial m0 ->
  let m := joue m0 l in
  let v := voie (canal_de m c) side in
  Z.of_nat (length (queue v)) <= MAX_QUEUED_MESSAGES
  /\ queued_bytes v = octets (queue v) /\ queued_bytes v <= MAX_QUEUED_BYTES
  /\ forall x e, x ∈ queue v -> e ∈ handles x ->
       exists o, objets m !! object e = Some o /\ forall s, o <> OChannel c s.
Proof.
  intros H0 m v. pose proof (sain_initial_joue m0 l H0) as H.
  destruct (canal_de_saine _ _ _ c side H) as [H1 H2 H3 H4]. split_and!; [done..|].
  intros x e Hx He. rewrite Forall_forall in H1. specialize (H1 x Hx). rewrite Forall_forall in H1.
  destruct (H1 e He) as [[Hs _] Hn]. unfold env in Hs, Hn. simpl in Hs, Hn. fold m in Hs, Hn.
  destruct (objets m !! object e) as [o|]; [|by destruct Hs]. exists o. split; [done|].
  intros s ->. by apply Hn.
Qed.

(** The message in flight after the first two calls. *)
Lemma canaux_bornes_witness :
  queue (voie (canal_de (joue superviseur (take 2 don)) 1) true)
    = [mk_message [7] [mk_entry 0 (ou [INSPECT; UPDATE_HEALTH])]]
  /\ queued_bytes (voie (canal_de (joue superviseur (take 2 don)) 1) true) <= MAX_QUEUED_BYTES.
Proof.
  split; [vm_compute; reflexivity|].
  apply (canaux_bornes superviseur (take 2 don) 1 true superviseur_sain).
Defined.

(** Waiting never recurses: after any sequence of calls the signals of every object are
    computed at a depth of at most two, and polling a wait set takes no second wait set's
    lock. *)
Theorem signaux_sans_recursion m0 l o :
  Sain_initial m0 ->
  let m := joue m0 l in
  is_Some (signals 2 m o)
  /\ forall w cap, objets m !! o = Some (OWaitSet w) -> is_Some (poll m w cap).
Proof.
  intros H0 m. pose proof (sain_initial_joue m0 l H0) as H. fold m in H.
  assert (forall k, surveillable (env m) k -> is_Some (signals 1 m k)) as Hk.
  { intros k [Hs Hn]. unfold env in Hs, Hn. simpl in *. unfold objet.
    destruct (objets m !! k) as [[] |]; simpl in *; try done; by eexists. }
  split.
  - change (signals 2 m o) with
      (match objet m o with
       | OChannel c side => Some (channel_signals (canal_de m c) side)
       | OEvent s _ => Some (if s then SIGNALED else 0)
       | OWaitSet w => (fun l => if existsb (fun s => negb (s =? 0)) l then READABLE else 0)
                         <$> mapM (fun k => signals 1 m k.2) w
       | OSharedRegion _ => Some (Z.lor READABLE WRITABLE)
       | OProcess _ t _ => Some (if t then TERMINATED else 0)
       | OUpdate | OLegacy _ => Some 0
       end).
    destruct (objet m o) as [| |w| | | |] eqn:Eo; try (by eexists).
    apply fmap_is_Some, mapM_is_Some. apply Forall_forall. intros [key k] Hw. apply Hk.
    assert (objets m !! o = Some (OWaitSet w)) as Ew.
    { unfold objet in Eo. destruct (objets m !! o); simpl in Eo; congruence. }
    pose proof (sain_objets _ _ _ H _ _ Ew) as HF. rewrite Forall_forall in HF. apply HF.
    apply list_elem_of_fmap. by exists (key, k).
  - intros w cap Ew. pose proof (sain_objets _ _ _ H _ _ Ew) as HF. simpl in HF.
    clear Ew. revert cap. induction w as [|[key k] w IH]; intros cap; [by eexists|].
    apply Forall_cons in HF as [H1 HF]. destruct (Hk k H1) as [s Es]. cbn [poll]. rewrite Es.
    destruct (s =? 0); [by apply IH|]. destruct (Nat.eqb cap 1); [by eexists|].
    apply fmap_is_Some. by apply IH.
Qed.

(** A wait set on both ends of a channel; a wait set cannot be added to it. *)
Definition attente : list (Z * Appel_systeme) :=
  [ (2, CHANNEL_CREATE 8 true); (2, WAITSET_CREATE); (2, WAITSET_CREATE);
    (2, WAITSET_ADD (id_new 3 1) (id_new 1 1) 10); (2, WAITSET_ADD (id_new 3 1) (id_new 2 1) 11);
    (2, WAITSET_ADD (id_new 3 1) (id_new 4 1) 12) ].
Lemma signaux_sans_recursion_witness :
  (dispatch_inner 2 (WAITSET_ADD (id_new 3 1) (id_new 4 1) 12) (joue superviseur attente)).2
    = inr WrongType
  /\ is_Some (signals 2 (joue superviseur attente) 4).
Proof.
  split; [vm_compute; reflexivity|].
  apply (signaux_sans_recursion superviseur attente 4 superviseur_sain).
Defined.

(** ** Failed receptions *)

Definition meme_canal (x y : Canal) : Prop :=
  forall s, voie x s = voie y s /\ closed x s = closed y s.

Lemma lookup_kind_etat pid id r g m : (lookup_kind pid id r g m).1 = m.
Proof.
  unfold lookup_kind, lie, lis. destruct (lookup _ _ _); [|done]. simpl. unfold essaie.
  by destruct (verifie_genre _ _).
Qed.

Lemma recv_closed x side x' r : recv x side = (x', r) -> closed x' = closed x.
Proof. unfold recv. destruct (queue _); intros; by simplify_eq. Qed.

Lemma recv_message_intact pid c side d h mo v e m m' x :
  table_saine (table_for m pid) -> comptee (canal_de m c) ->
  recv_message pid c side d h mo v e m = (m', inr x) ->
  objets m' = objets m
  /\ (forall p id req, lookup (table_for m' p) id req = lookup (table_for m p) id req)
  /\ meme_canal (canal_de m' c) (canal_de m c)
  /\ forall c', c' <> c -> canal_de m' c' = canal_de m c'.
Proof.
  intros Ht Hc E.
  apply recv_message_cas in E as [(er & Er & _ & ->)|[(y & msg & er & Er & _ & Hm)|(y & msg & _ & ? & _)]];
    [| |done|done].
  - split_and!; [done|done| |].
    + intros s. by rewrite canal_de_set.
    + intros. by apply canal_de_set_ne.
  - assert (meme_canal (requeue_front y side msg) (canal_de m c)) as Hq.
    { intros s. split; [by eapply requeue_recv|]. simpl. by rewrite (recv_closed _ _ _ _ Er). }
    destruct Hm as [->|(t & (_ & Hv & _) & ->)].
    + split_and!; [done|done|by rewrite canal_de_set|].
      intros. by rewrite !canal_de_set_ne.
    + split_and!; [done| |by rewrite canal_de_set|].
      * intros p id req.
        change (table_for (set_canal c (requeue_front y side msg)
          (set_table pid t (set_canal c y m))) p) with (table_for (set_table pid t m) p).
        destruct (decide (p = pid)) as [->|]; [|by rewrite table_for_set_ne].
        rewrite table_for_set. by apply lookup_meme_vu.
      * intros c' Hne. rewrite canal_de_set_ne by done.
        change (canal_de (set_table pid t (set_canal c y m)) c') with (canal_de (set_canal c y m) c').
        by apply canal_de_set_ne.
Qed.

Lemma channel_recv_debut pid id d h entre mo v e m m' x :
  channel_recv pid id d h entre mo v e m = (m', inr x) ->
  m' = m
  \/ exists c side, recv_message pid c side d h mo v e (set_canal c (entre (canal_de m c)) m)
                   = (m', inr x).
Proof.
  unfold channel_recv. intros E.
  pose proof (lookup_kind_etat pid (from_raw id) READ KChannel m) as El.
  unfold lie at 1 in E. destruct (lookup_kind _ _ _ _ m) as [m1 [ep|er]]; simpl in El; subst m1;
    [|left; by simplify_eq].
  unfold lie at 1 in E. unfold etat_courant in E.
  destruct (objet m (object ep)) as [c side| | | | | |];
    try (unfold echoue in E; left; by simplify_eq).
  unfold lie at 1 in E. unfold lis in E.
  destruct (front_sizes _ _) as [sizes|er]; [|left; by simplify_eq].
  unfold lie at 1 in E. unfold garde in E.
  destruct (_ || _); [unfold echoue in E; left; by simplify_eq|].
  right. exists c, side. exact E.
Qed.

(** A reception that fails changes nothing: whatever made it fail, the buffers, the
    room for handles or a copy refused after they were installed, no object, no handle of
    any process and no channel is changed, but for what other receivers and senders did to
    the channel in the middle of the call. *)
Theorem reception_atomique m0 l pid id d h entre mo v e m' x :
  Sain_initial m0 ->
  (forall y, comptee y -> comptee (entre y)) ->
  channel_recv pid id d h entre mo v e (joue m0 l) = (m', inr x) ->
  let m := joue m0 l in
  objets m' = objets m
  /\ (forall p id' req, lookup (table_for m' p) id' req = lookup (table_for m p) id' req)
  /\ exists c, (forall c', c' <> c -> canal_de m' c' = canal_de m c')
      /\ (meme_canal (canal_de m' c) (canal_de m c)
          \/ meme_canal (canal_de m' c) (entre (canal_de m c))).
Proof.
  intros H0 Hent E m. pose proof (sain_initial_joue m0 l H0) as H. fold m in H, E.
  apply channel_recv_debut in E as [->|(c & side & E)].
  { split_and!; [done..|]. exists 0. split; [done|]. by left. }
  apply recv_message_intact in E as (I1 & I2 & I3 & I4).
  - split_and!; [exact I1|exact I2|]. exists c. split.
    + intros c' Hne. rewrite I4 by done. by apply canal_de_set_ne.
    + right. by rewrite canal_de_set in I3.
  - exact (proj1 (table_for_saine _ _ m pid H)).
  - rewrite canal_de_set. apply Hent. intros s.
    apply (vs_octets _ _ _ (canal_de_saine _ _ m c s H)).
Qed.

(** The copy to the receiver fails after the capability was installed. *)
Lemma reception_atomique_witness :
  let m := joue superviseur (take 2 don) in
  let m' := (channel_recv 1 (id_new 3 1) 16 4 (fun c => c) true true false m).1 in
  lookup (table_for m' 1) (id_new 4 1) INSPECT = inr BadHandle /\ objets m' = objets m.
Proof.
  split; [vm_compute; reflexivity|].
  apply (reception_atomique superviseur (take 2 don) 1 (id_new 3 1) 16 4 (fun c => c)
           true true false _ Fault superviseur_sain); [auto|].
  vm_compute; reflexivity.
Defined.

(** ** Two situations *)

(** Two channels, each in flight on the other. *)
Definition croise : list (Z * Appel_systeme) :=
  [ (2, CHANNEL_CREATE 8 true); (2, CHANNEL_CREATE 8 true);
    (2, CHANNEL_SEND_ATTENUE (id_new 1 1) 1 1 (Some [7]) (Some [id_new 3 1]) (Some []));
    (2, CHANNEL_SEND_ATTENUE (id_new 4 1) 1 1 (Some [7]) (Some [id_new 1 1]) (Some [])) ].

(** An end of a channel cannot travel on its own channel, but each of two channels can
    carry an end of the other: once the only process that knows them is dead no table is
    left, and the two ends keep each other and their queues alive for ever. *)
Theorem cycle_de_deux_canaux :
  let m := joue monde_vide (croise ++ [(2, EXIT 0)]) in
  tables m = ∅ /\ references m = [1; 4]
  /\ map object (mjoin (map handles (queue (voie (canal_de m 0) true)))) = [4]
  /\ map object (mjoin (map handles (queue (voie (canal_de m 3) false)))) = [1].
Proof. vm_compute. split_and!; reflexivity. Qed.

(** A poll for at most [cap] events returns no more than [cap], unless [cap] is zero. *)
Lemma poll_borne m w cap l :
  poll m w cap = Some l -> cap <> 0%nat -> (length l <= cap)%nat.
Proof.
  revert cap l. induction w as [|[key o] w IH]; intros cap l E Hc; cbn [poll] in E;
    [simplify_eq; simpl; lia|].
  destruct (signals 1 m o) as [s|]; [|done]. destruct (s =? 0); [by apply IH|].
  destruct (Nat.eqb_spec cap 1) as [->|Hne]; [simplify_eq; simpl; lia|].
  destruct (poll m w (cap - 1)) as [l'|] eqn:E'; simplify_eq/=.
  assert (length l' <= cap - 1)%nat by (apply IH; [done|lia]). lia.
Qed.

(** A poll with no room at all returns every ready event: the count is only compared with
    the capacity after an event was added. *)
Theorem poll_capacite_nulle :
  (dispatch_inner 2 (WAITSET_POLL (id_new 3 1) 0 true) (joue superviseur attente)).2 = inl 2.
Proof. vm_compute. reflexivity. Qed.

End NatifSurete.
