(* ===== verification/Retransmission.v ===== *)
(** The transmission queue of TCP, [src/net/transport/retransmission.rs]: segments sent and
    not acknowledged, the measure of the round trip with Karn's rule, the retransmission
    delay, duplicate acknowledgements, expirations and the wait until the next one.

    Sequence numbers are 32-bit and wrap; instants are 64-bit milliseconds. The counters
    kept for statistics are grouped in [Mesures]. *)

From S2P Require Import Prelude.

Module Retransmission.

Definition SEGMENTS_MAX : nat := 64.
Definition CHARGE_MAX : Z := 1460.
Definition RTO_MIN_MS : Z := 200.
Definition RTO_MAX_MS : Z := 60000.
Definition RTO_INITIAL_MS : Z := 1000.
Definition DOUBLONS_POUR_RETRANSMISSION : Z := 3.
Definition RETRANSMISSIONS_MAX : Z := 8.

(** [u64::saturating_add], [saturating_mul] and [saturating_sub]. *)
Definition sat_add (a b : Z) : Z := Z.min (a + b) (u64_max - 1).
Definition sat_mul (a b : Z) : Z := Z.min (a * b) (u64_max - 1).
Definition sat_sub (a b : Z) : Z := Z.max 0 (a - b).

(** ** Circular sequence numbers: the sign of the 32-bit difference *)

Definition seq_avant (a b : Z) : bool := 2 ^ 31 <=? (a - b) mod u32_max.
Definition seq_apres_ou_egal (a b : Z) : bool := (a - b) mod u32_max <? 2 ^ 31.

(** ** State *)

Record SegmentEnVol := mk_segment {
  seq : Z; longueur : Z; controle : bool; envoye_ms : Z; echeance_ms : Z;
  retransmissions : Z; occupe : bool; octets : list Z
}.
Definition segment_vide : SegmentEnVol :=
  mk_segment 0 0 false 0 0 0 false (replicate (Z.to_nat CHARGE_MAX) 0).

Definition consomme (s : SegmentEnVol) : Z := if controle s then longueur s + 1 else longueur s.
Definition fin (s : SegmentEnVol) : Z := (seq s + consomme s) mod u32_max.
Definition charge (s : SegmentEnVol) : list Z := take (Z.to_nat (longueur s)) (octets s).
Definition libere_segment (s : SegmentEnVol) : SegmentEnVol :=
  mk_segment (seq s) (longueur s) (controle s) (envoye_ms s) (echeance_ms s)
    (retransmissions s) false (octets s).

Inductive Expiration := Rien | Retransmettre (i : nat) | Abandon (i : nat).

Record Mesures := mk_mesures {
  segments_emis : Z; segments_retransmis : Z; retransmissions_rapides : Z; expirations : Z;
  echantillons_rtt : Z; echantillons_ecartes_karn : Z; refus_file_pleine : Z
}.
Record Emission := mk_emission {
  file : list SegmentEnVol;
  snd_una : Z; snd_nxt : Z;
  srtt_ms : Z; rttvar_ms : Z; rto_ms : Z;
  dernier_ack : Z; doublons : Z;
  mesures : Mesures
}.
Definition neuve (isn : Z) : Emission :=
  mk_emission (replicate SEGMENTS_MAX segment_vide) isn isn 0 0 RTO_INITIAL_MS isn 0
    (mk_mesures 0 0 0 0 0 0 0).

Definition set_file (l : list SegmentEnVol) (e : Emission) : Emission :=
  mk_emission l (snd_una e) (snd_nxt e) (srtt_ms e) (rttvar_ms e) (rto_ms e)
    (dernier_ack e) (doublons e) (mesures e).
Definition set_mesures (f : Mesures -> Mesures) (e : Emission) : Emission :=
  mk_emission (file e) (snd_una e) (snd_nxt e) (srtt_ms e) (rttvar_ms e) (rto_ms e)
    (dernier_ack e) (doublons e) (f (mesures e)).
Definition set_rtt (srtt rttvar rto : Z) (e : Emission) : Emission :=
  mk_emission (file e) (snd_una e) (snd_nxt e) srtt rttvar rto (dernier_ack e) (doublons e)
    (mesures e).
Definition set_acks (una dernier d : Z) (e : Emission) : Emission :=
  mk_emission (file e) una (snd_nxt e) (srtt_ms e) (rttvar_ms e) (rto_ms e) dernier d (mesures e).
Definition set_snd_nxt (nxt : Z) (e : Emission) : Emission :=
  mk_emission (file e) (snd_una e) nxt (srtt_ms e) (rttvar_ms e) (rto_ms e)
    (dernier_ack e) (doublons e) (mesures e).

Definition en_vol (e : Emission) : nat := length (List.filter occupe (file e)).
Definition segment (e : Emission) (i : nat) : option SegmentEnVol :=
  match file e !! i with Some s => if occupe s then Some s else None | None => None end.

(** ** Emission *)

Fixpoint position {A} (p : A -> bool) (l : list A) : option nat :=
  match l with
  | [] => None
  | x :: l => if p x then Some 0%nat else S <$> position p l
  end.

Definition enregistre (e : Emission) (sq : Z) (donnees : list Z) (ctrl : bool) (maintenant : Z)
  : Emission * option nat :=
  if CHARGE_MAX <? Z.of_nat (length donnees) then (e, None)
  else match position (fun s => negb (occupe s)) (file e) with
  | None =>
      (set_mesures (fun x => mk_mesures (segments_emis x) (segments_retransmis x)
         (retransmissions_rapides x) (expirations x) (echantillons_rtt x)
         (echantillons_ecartes_karn x) (refus_file_pleine x + 1)) e, None)
  | Some i =>
      let ancien := default segment_vide (file e !! i) in
      let s := mk_segment sq (Z.of_nat (length donnees)) ctrl maintenant
                 (sat_add maintenant (rto_ms e)) 0 true
                 (donnees ++ skipn (length donnees) (octets ancien)) in
      let e := set_file (<[i := s]> (file e)) e in
      let e := if seq_apres_ou_egal (fin s) (snd_nxt e) then set_snd_nxt (fin s) e else e in
      (set_mesures (fun x => mk_mesures (segments_emis x + 1) (segments_retransmis x)
         (retransmissions_rapides x) (expirations x) (echantillons_rtt x)
         (echantillons_ecartes_karn x) (refus_file_pleine x)) e, Some i)
  end.

(** ** Round trip and delay *)

Definition clamp (x lo hi : Z) : Z := Z.min (Z.max x lo) hi.

Definition recalcule_rto (e : Emission) : Emission :=
  set_rtt (srtt_ms e) (rttvar_ms e)
    (clamp (sat_add (srtt_ms e) (Z.max (sat_mul (rttvar_ms e) 4) 1)) RTO_MIN_MS RTO_MAX_MS) e.

Definition echantillon_rtt (mesure_ms : Z) (e : Emission) : Emission :=
  let mesure := Z.max mesure_ms 1 in
  let e :=
    if srtt_ms e =? 0 then set_rtt mesure (mesure / 2) (rto_ms e) e
    else set_rtt ((srtt_ms e * 7 + mesure) / 8)
           ((rttvar_ms e * 3 + Z.abs (srtt_ms e - mesure)) / 4) (rto_ms e) e in
  recalcule_rto
    (set_mesures (fun x => mk_mesures (segments_emis x) (segments_retransmis x)
       (retransmissions_rapides x) (expirations x) (echantillons_rtt x + 1)
       (echantillons_ecartes_karn x) (refus_file_pleine x)) e).

(** ** Acknowledgements *)

(** One turn of the loop of [acquitte]. *)
Definition acquitte_tour (ack maintenant : Z) (e : Emission) (i : nat) : Emission :=
  match file e !! i with
  | None => e
  | Some s =>
      if negb (occupe s) then e
      else if negb (seq_apres_ou_egal ack (fin s)) then e
      else
        let e :=
          if retransmissions s =? 0 then echantillon_rtt (sat_sub maintenant (envoye_ms s)) e
          else set_mesures (fun x => mk_mesures (segments_emis x) (segments_retransmis x)
                 (retransmissions_rapides x) (expirations x) (echantillons_rtt x)
                 (echantillons_ecartes_karn x + 1) (refus_file_pleine x)) e in
        set_file (<[i := libere_segment s]> (file e)) e
  end.

Definition acquitte (e : Emission) (ack maintenant : Z) : Emission * bool :=
  if seq_avant ack (snd_una e) then (e, false)
  else if (ack =? dernier_ack e) && (ack =? snd_una e)
  then (set_acks (snd_una e) (dernier_ack e) (doublons e + 1) e, false)
  else if negb (seq_avant (snd_una e) ack)
  then (set_acks (snd_una e) ack (doublons e) e, false)
  else (fold_left (acquitte_tour ack maintenant) (List.seq 0 SEGMENTS_MAX) (set_acks ack ack 0 e), true).

Definition retransmission_rapide (e : Emission) : Emission * option nat :=
  if doublons e <? DOUBLONS_POUR_RETRANSMISSION then (e, None)
  else match position (fun s => occupe s && (seq s =? snd_una e)) (file e) with
  | None => (e, None)
  | Some i =>
      (set_mesures (fun x => mk_mesures (segments_emis x) (segments_retransmis x)
         (retransmissions_rapides x + 1) (expirations x) (echantillons_rtt x)
         (echantillons_ecartes_karn x) (refus_file_pleine x))
         (set_acks (snd_una e) (dernier_ack e) 0 e), Some i)
  end.

(** ** Expirations *)

(** The loop of [expire]: the oldest deadline passed, with its index. *)
Fixpoint expire_boucle (l : list SegmentEnVol) (i : nat) (maintenant : Z)
  (choisi : option nat) (plus_ancienne : Z) : option nat :=
  match l with
  | [] => choisi
  | s :: l =>
      if negb (occupe s) || (maintenant <? echeance_ms s)
      then expire_boucle l (S i) maintenant choisi plus_ancienne
      else if echeance_ms s <? plus_ancienne
      then expire_boucle l (S i) maintenant (Some i) (echeance_ms s)
      else expire_boucle l (S i) maintenant choisi plus_ancienne
  end.

Definition expire (e : Emission) (maintenant : Z) : Expiration :=
  match expire_boucle (file e) 0 maintenant None (u64_max - 1) with
  | None => Rien
  | Some i =>
      match file e !! i with
      | Some s => if RETRANSMISSIONS_MAX <=? retransmissions s then Abandon i else Retransmettre i
      | None => Rien
      end
  end.

Definition note_retransmission (e : Emission) (i : nat) (maintenant : Z) : Emission :=
  match segment e i with
  | None => e
  | Some s =>
      let rto := Z.min (sat_mul (rto_ms e) 2) RTO_MAX_MS in
      let s := mk_segment (seq s) (longueur s) (controle s) (envoye_ms s)
                 (sat_add maintenant rto) (retransmissions s + 1) (occupe s) (octets s) in
      set_mesures (fun x => mk_mesures (segments_emis x) (segments_retransmis x + 1)
         (retransmissions_rapides x) (expirations x + 1) (echantillons_rtt x)
         (echantillons_ecartes_karn x) (refus_file_pleine x))
        (set_file (<[i := s]> (file e)) (set_rtt (srtt_ms e) (rttvar_ms e) rto e))
  end.

(** [iter().filter().map().min()] *)
Fixpoint minimum (l : list Z) : option Z :=
  match l with
  | [] => None
  | x :: l => Some (match minimum l with None => x | Some y => Z.min x y end)
  end.
Definition attente_ms (e : Emission) (maintenant : Z) : option Z :=
  minimum (map (fun s => sat_sub (echeance_ms s) maintenant) (List.filter occupe (file e))).

(** ** Runs *)

Inductive Evenement :=
| Enregistre (sq : Z) (donnees : list Z) (ctrl : bool) (maintenant : Z)
| Acquitte (ack maintenant : Z)
| Rapide
| Renvoi (i : nat) (maintenant : Z).

Definition evenement (e : Emission) (v : Evenement) : Emission :=
  match v with
  | Enregistre sq d c t => (enregistre e sq d c t).1
  | Acquitte a t => (acquitte e a t).1
  | Rapide => (retransmission_rapide e).1
  | Renvoi i t => note_retransmission e i t
  end.
Definition deroule (e : Emission) (l : list Evenement) : Emission := fold_left evenement l e.

End Retransmission.

(** Correctness of the TCP transmission queue: a segment stays until an acknowledgement
    covers it, an acknowledgement releases exactly what it covers, the wait is the exact
    time to the next expiration, and the delay stays within its bounds. *)

Import Retransmission.

Module RetransmissionProofs.

(** ** The queue *)

Lemma position_spec {A} (p : A -> bool) l i :
  position p l = Some i -> exists x, l !! i = Some x /\ p x = true.
Proof.
  revert i. induction l as [|x l IH]; intros i E; simpl in E; [done|].
  destruct (p x) eqn:Ep; [simplify_eq; eauto|].
  destruct (position p l); simplify_eq/=. by apply IH.
Qed.

Lemma echantillon_file m e :
  file (echantillon_rtt m e) = file e /\ snd_una (echantillon_rtt m e) = snd_una e
  /\ snd_nxt (echantillon_rtt m e) = snd_nxt e.
Proof. unfold echantillon_rtt, recalcule_rto. by destruct (srtt_ms e =? 0). Qed.

#[local] Opaque echantillon_rtt.

(** What an acknowledgement does to one segment. *)
Definition acquitte_segment (ack : Z) (s : SegmentEnVol) : SegmentEnVol :=
  if occupe s && seq_apres_ou_egal ack (fin s) then libere_segment s else s.

Lemma tour_file ack t e i :
  file (acquitte_tour ack t e i) = alter (acquitte_segment ack) i (file e)
  /\ snd_una (acquitte_tour ack t e i) = snd_una e /\ snd_nxt (acquitte_tour ack t e i) = snd_nxt e.
Proof.
  assert (forall s, file e !! i = Some s ->
    alter (acquitte_segment ack) i (file e) = <[i := acquitte_segment ack s]> (file e)) as Ha.
  { intros s Es. apply list_eq. intros j. destruct (decide (j = i)) as [->|].
    - rewrite list_lookup_alter_eq, Es, list_lookup_insert_eq; [done|by eapply lookup_lt_Some].
    - by rewrite list_lookup_alter_ne, list_lookup_insert_ne. }
  unfold acquitte_tour. destruct (file e !! i) as [s|] eqn:Es.
  - rewrite (Ha s eq_refl). unfold acquitte_segment.
    destruct (occupe s); simpl; [|split_and!; [by rewrite list_insert_id|done..]].
    destruct (seq_apres_ou_egal ack (fin s)); simpl; [|split_and!; [by rewrite list_insert_id|done..]].
    destruct (retransmissions s =? 0); simpl; [|done].
    destruct (echantillon_file (sat_sub t (envoye_ms s)) e) as (-> & -> & ->). done.
  - split_and!; [|done..]. apply list_eq. intros j. destruct (decide (j = i)) as [->|].
    + by rewrite list_lookup_alter_eq, Es.
    + by rewrite list_lookup_alter_ne.
Qed.

Lemma tours_file ack t a n e :
  (forall j, file (fold_left (acquitte_tour ack t) (List.seq a n) e) !! j
        = if (a <=? j)%nat && (j <? a + n)%nat then acquitte_segment ack <$> file e !! j
          else file e !! j)
  /\ snd_una (fold_left (acquitte_tour ack t) (List.seq a n) e) = snd_una e
  /\ snd_nxt (fold_left (acquitte_tour ack t) (List.seq a n) e) = snd_nxt e.
Proof.
  revert a e. induction n as [|n IH]; intros a e; simpl.
  { split_and!; [|done..]. intros j. destruct (Nat.leb_spec a j), (Nat.ltb_spec j (a + 0)); simpl; lia || done. }
  destruct (IH (S a) (acquitte_tour ack t e a)) as (H1 & -> & ->).
  destruct (tour_file ack t e a) as (Hf & -> & ->). split_and!; [|done..].
  intros j. rewrite H1, Hf. destruct (decide (j = a)) as [->|].
  - rewrite list_lookup_alter_eq.
    destruct (Nat.leb_spec (S a) a), (Nat.leb_spec a a), (Nat.ltb_spec a (a + S n)); simpl; lia || done.
  - rewrite list_lookup_alter_ne by done.
    destruct (Nat.leb_spec (S a) j), (Nat.leb_spec a j), (Nat.ltb_spec j (S a + n)),
      (Nat.ltb_spec j (a + S n)); simpl; lia || done.
Qed.

(** An acknowledgement advances exactly when it is ahead of the oldest byte in flight. *)
Definition avance (una ack : Z) : bool :=
  (0 <? (ack - una) mod u32_max) && ((ack - una) mod u32_max <? 2 ^ 31).

Lemma oppose_mod a b :
  (b - a) mod u32_max = if (a - b) mod u32_max =? 0 then 0 else u32_max - (a - b) mod u32_max.
Proof.
  replace (b - a) with (- (a - b)) by lia. destruct (Z.eqb_spec ((a - b) mod u32_max) 0) as [E|E].
  - by apply Z.mod_opp_l_z.
  - by apply Z.mod_opp_l_nz.
Qed.

Lemma acquitte_spec e ack t e' b :
  length (file e) = SEGMENTS_MAX -> acquitte e ack t = (e', b) ->
  b = avance (snd_una e) ack
  /\ snd_una e' = (if b then ack else snd_una e) /\ snd_nxt e' = snd_nxt e
  /\ forall i, file e' !! i = if b then acquitte_segment ack <$> file e !! i else file e !! i.
Proof.
  intros Hl E. unfold acquitte in E.
  assert (seq_avant ack (snd_una e) = negb ((ack - snd_una e) mod u32_max <? 2 ^ 31)) as Hav.
  { unfold seq_avant. destruct (Z.leb_spec (2 ^ 31) ((ack - snd_una e) mod u32_max)),
      (Z.ltb_spec ((ack - snd_una e) mod u32_max) (2 ^ 31)); simpl; lia || done. }
  rewrite Hav in E. unfold avance.
  destruct (Z.ltb_spec ((ack - snd_una e) mod u32_max) (2 ^ 31)) as [Hlt|]; cbn [negb] in E.
  2:{ simplify_eq. by rewrite andb_false_r. }
  rewrite andb_true_r.
  pose proof (Z.mod_pos_bound (ack - snd_una e) u32_max eq_refl) as Hb.
  assert (seq_avant (snd_una e) ack = (0 <? (ack - snd_una e) mod u32_max)) as Hs.
  { unfold seq_avant. rewrite oppose_mod. unfold u32_max in *.
    destruct (Z.eqb_spec ((ack - snd_una e) mod 2 ^ 32) 0),
      (Z.ltb_spec 0 ((ack - snd_una e) mod 2 ^ 32)); lia. }
  destruct ((ack =? dernier_ack e) && (ack =? snd_una e)) eqn:Ed.
  { bool_prop. injection E as <- <-. replace (ack - snd_una e) with 0 by lia. done. }
  rewrite Hs in E.
  destruct (tours_file ack t 0 SEGMENTS_MAX (set_acks ack ack 0 e)) as (H1 & H2 & H3).
  destruct (fold_left (acquitte_tour ack t) (List.seq 0 SEGMENTS_MAX) (set_acks ack ack 0 e))
    as [fl una nxt sr rv rt da db ms]. cbn [file snd_una snd_nxt] in H1, H2, H3.
  destruct (Z.ltb_spec 0 ((ack - snd_una e) mod u32_max)); cbn [negb] in E; injection E as <- <-;
    [|done].
  split_and!; [done|exact H2|exact H3|]. intros i. cbn [file]. rewrite H1. cbn [Nat.leb andb].
  destruct (Nat.ltb_spec i (0 + SEGMENTS_MAX)); [done|]. cbn [file set_acks].
  by rewrite lookup_ge_None_2 by (rewrite Hl; lia).
Qed.

Lemma segment_file e e' f :
  (forall i, file e' !! i = f <$> file e !! i) ->
  forall i, segment e' i = match file e !! i with
                      | Some s => if occupe (f s) then Some (f s) else None
                      | None => None
                      end.
Proof. intros H i. unfold segment. rewrite H. by destruct (file e !! i). Qed.

(** ** Each event *)

Lemma length_evenement e v :
  length (file e) = SEGMENTS_MAX -> length (file (evenement e v)) = SEGMENTS_MAX.
Proof.
  intros Hl. destruct v as [sq d c t|ack t| |i t]; simpl.
  - unfold enregistre. destruct (_ <? _); [done|]. destruct (position _ _); [|done].
    destruct (seq_apres_ou_egal _ _); simpl; by rewrite length_insert.
  - destruct (acquitte e ack t) as [e' b] eqn:E.
    destruct (acquitte_spec _ _ _ _ _ Hl E) as (_ & _ & _ & Hf). simpl. rewrite <-Hl.
    apply Nat.le_antisymm.
    + apply Nat.nlt_ge. intros Hlt. apply lookup_lt_is_Some_2 in Hlt. rewrite Hf in Hlt.
      rewrite (lookup_ge_None_2 (file e)) in Hlt by lia. by destruct b, Hlt.
    + apply Nat.nlt_ge. intros Hlt. apply lookup_lt_is_Some_2 in Hlt as [s Es].
      pose proof (Hf (length (file e'))) as Hf'. rewrite Es, lookup_ge_None_2 in Hf' by lia.
      by destruct b.
  - unfold retransmission_rapide. destruct (_ <? _); [done|]. by destruct (position _ _).
  - unfold note_retransmission. destruct (segment e i); [|done]. simpl. by rewrite length_insert.
Qed.

Lemma length_deroule e l :
  length (file e) = SEGMENTS_MAX -> length (file (deroule e l)) = SEGMENTS_MAX.
Proof.
  revert e. induction l as [|v l IH]; intros e H; simpl; [done|]. by apply IH, length_evenement.
Qed.

Lemma length_neuve isn : length (file (neuve isn)) = SEGMENTS_MAX.
Proof. apply length_replicate. Qed.

(** Slot [i] holds this segment. *)
Definition tient (i : nat) (sq : Z) (d : list Z) (c : bool) (e : Emission) : Prop :=
  exists s, segment e i = Some s /\ seq s = sq /\ charge s = d /\ controle s = c
            /\ longueur s = Z.of_nat (length d).

Lemma tient_fin i sq d c e s :
  tient i sq d c e -> segment e i = Some s ->
  fin s = (sq + Z.of_nat (length d) + Z.b2z c) mod u32_max.
Proof.
  intros (s' & Es & E1 & E2 & E3 & E4) Es'. rewrite Es in Es'. injection Es' as <-.
  unfold fin, consomme. rewrite E1, E3, E4. destruct c; simpl; f_equal; lia.
Qed.

Lemma segment_occupe e i s : segment e i = Some s -> file e !! i = Some s /\ occupe s = true.
Proof. unfold segment. destruct (file e !! i) as [x|]; [|done]. destruct (occupe x) eqn:E; naive_solver. Qed.

Lemma tient_enregistre i sq d c e sq' d' c' t :
  tient i sq d c e -> tient i sq d c (enregistre e sq' d' c' t).1.
Proof.
  intros (s & Es & H). unfold enregistre. destruct (_ <? _); [by exists s|].
  destruct (position _ (file e)) as [j|] eqn:Ej; [|by exists s].
  destruct (position_spec _ _ _ Ej) as (x & Ex & Hx). apply segment_occupe in Es as [Es Ho].
  assert (j <> i) as Hne.
  { intros ->. rewrite Es in Ex. simplify_eq. by rewrite Ho in Hx. }
  exists s. split; [|done]. unfold segment.
  destruct (seq_apres_ou_egal _ _); simpl; rewrite list_lookup_insert_ne by done; by rewrite Es, Ho.
Qed.

Lemma tient_renvoi i sq d c e j t : tient i sq d c e -> tient i sq d c (note_retransmission e j t).
Proof.
  intros (s & Es & H). unfold note_retransmission.
  destruct (segment e j) as [x|] eqn:Ej; [|by exists s].
  apply segment_occupe in Es as [Es Ho]. apply segment_occupe in Ej as [Ej Hx].
  destruct (decide (j = i)) as [->|Hne].
  - simplify_eq. eexists. unfold segment. simpl.
    rewrite list_lookup_insert_eq by (by eapply lookup_lt_Some). simpl. rewrite Ho.
    split; [done|]. done.
  - exists s. split; [|done]. unfold segment. simpl. rewrite list_lookup_insert_ne by done.
    by rewrite Es, Ho.
Qed.

Lemma tient_acquitte i sq d c e ack t :
  length (file e) = SEGMENTS_MAX -> tient i sq d c e ->
  (acquitte e ack t).2
    && seq_apres_ou_egal ack ((sq + Z.of_nat (length d) + Z.b2z c) mod u32_max) = false ->
  tient i sq d c (acquitte e ack t).1.
Proof.
  intros Hl Ht Hc. destruct (acquitte e ack t) as [e' b] eqn:E.
  destruct (acquitte_spec _ _ _ _ _ Hl E) as (_ & _ & _ & Hf). simpl in *.
  pose proof Ht as (s & Es & H). pose proof (tient_fin _ _ _ _ _ _ Ht Es) as Hfin.
  apply segment_occupe in Es as [Es Ho]. exists s. split; [|done].
  unfold segment. rewrite Hf, Es. destruct b; simpl in *; [|by rewrite Ho].
  unfold acquitte_segment. rewrite Hfin, Hc, andb_false_r. by rewrite Ho.
Qed.

(** Does an acknowledgement of the run that advances the window cover [fin]? *)
Fixpoint couvre (e : Emission) (l : list Evenement) (f : Z) : bool :=
  match l with
  | [] => false
  | v :: l =>
      match v with
      | Acquitte ack t => (acquitte e ack t).2 && seq_apres_ou_egal ack f
      | _ => false
      end || couvre (evenement e v) l f
  end.

Lemma tient_deroule i sq d c e l :
  length (file e) = SEGMENTS_MAX -> tient i sq d c e ->
  couvre e l ((sq + Z.of_nat (length d) + Z.b2z c) mod u32_max) = false ->
  tient i sq d c (deroule e l).
Proof.
  revert e. induction l as [|v l IH]; intros e Hl Ht Hc; [done|].
  cbn [couvre] in Hc. apply orb_false_iff in Hc as [Hv Hc].
  apply IH; [by apply length_evenement| |done]. destruct v as [sq' d' c' t|ack t| |j t].
  - by apply tient_enregistre.
  - by apply tient_acquitte.
  - cbn [evenement]. unfold retransmission_rapide. destruct (_ <? _); [done|].
    by destruct (position _ _).
  - by apply tient_renvoi.
Qed.

Lemma enregistre_tient e sq d c t e1 i :
  enregistre e sq d c t = (e1, Some i) -> tient i sq d c e1.
Proof.
  unfold enregistre. intros E. destruct (_ <? _); [done|].
  destruct (position _ (file e)) as [j|] eqn:Ej; [|done].
  destruct (position_spec _ _ _ Ej) as (x & Ex & _). injection E as <- <-.
  set (s := mk_segment _ _ _ _ _ _ _ _). exists s. split.
  - unfold segment. destruct (seq_apres_ou_egal _ _); simpl;
      by rewrite list_lookup_insert_eq by (by eapply lookup_lt_Some).
  - split_and!; [done| |done|done]. unfold charge. simpl. by rewrite Nat2Z.id, take_app_length.
Qed.

(** Nothing sent is forgotten: after any run, a segment recorded in the queue keeps its
    place, its sequence number and its bytes through every later emission, acknowledgement,
    duplicate and retransmission, until an acknowledgement that advances the window covers
    its last byte. *)
Theorem segment_conserve isn avant apres sq d c t e1 i :
  enregistre (deroule (neuve isn) avant) sq d c t = (e1, Some i) ->
  couvre e1 apres ((sq + Z.of_nat (length d) + Z.b2z c) mod u32_max) = false ->
  exists s, segment (deroule e1 apres) i = Some s
            /\ seq s = sq /\ charge s = d /\ controle s = c.
Proof.
  intros E Hc. pose proof (enregistre_tient _ _ _ _ _ _ _ E) as Ht.
  assert (length (file e1) = SEGMENTS_MAX) as Hl.
  { replace e1 with (evenement (deroule (neuve isn) avant) (Enregistre sq d c t))
      by (simpl; by rewrite E).
    apply length_evenement, length_deroule, length_neuve. }
  destruct (tient_deroule _ _ _ _ _ _ Hl Ht Hc) as (s & H1 & H2 & H3 & H4 & _). eauto.
Qed.

(** The SYN is acknowledged, the request is sent twice: it is still there. *)
Lemma segment_conserve_witness :
  exists s, segment (deroule (deroule (neuve 100) [Enregistre 100 [] true 0; Acquitte 101 30;
                      Enregistre 101 [71; 69; 84] false 31])
              [Acquitte 101 40; Renvoi 0 1500]) 0 = Some s
            /\ seq s = 101 /\ charge s = [71; 69; 84] /\ controle s = false.
Proof.
  apply (segment_conserve 100 [Enregistre 100 [] true 0; Acquitte 101 30]
           [Acquitte 101 40; Renvoi 0 1500] 101 [71; 69; 84] false 31
           (deroule (neuve 100) [Enregistre 100 [] true 0; Acquitte 101 30;
              Enregistre 101 [71; 69; 84] false 31])); vm_compute; reflexivity.
Defined.

(** An acknowledgement takes effect exactly when it is ahead of the oldest byte in
    flight by less than half the sequence space, whatever was sent: it then releases the
    segments it covers and no other. Otherwise no segment and no bound changes. *)
Theorem acquitte_exact isn l ack t :
  let e := deroule (neuve isn) l in
  let e' := (acquitte e ack t).1 in
  (acquitte e ack t).2 = avance (snd_una e) ack
  /\ snd_una e' = (if avance (snd_una e) ack then ack else snd_una e) /\ snd_nxt e' = snd_nxt e
  /\ forall i, segment e' i =
       match segment e i with
       | Some s => if avance (snd_una e) ack && seq_apres_ou_egal ack (fin s) then None else Some s
       | None => None
       end.
Proof.
  intros e e'. destruct (acquitte e ack t) as [x b] eqn:E. subst e'. simpl.
  assert (length (file e) = SEGMENTS_MAX) as Hl by apply length_deroule, length_neuve.
  destruct (acquitte_spec _ _ _ _ _ Hl E) as (-> & H1 & H2 & Hf). split_and!; [done..|].
  intros i. unfold segment. rewrite Hf. destruct (file e !! i) as [s|]; simpl.
  2:{ by destruct (avance _ _). }
  destruct (avance (snd_una e) ack); simpl; [|by destruct (occupe s)].
  unfold acquitte_segment. destruct (occupe s) eqn:Ho; simpl; [|by rewrite Ho].
  destruct (seq_apres_ou_egal ack (fin s)); simpl; [done|by rewrite Ho].
Qed.

(** ** Deadlines *)

Definition echu (t : Z) (s : SegmentEnVol) : Prop := occupe s = true /\ echeance_ms s <= t.

Lemma expire_boucle_spec l i t ch pa :
  (expire_boucle l i t ch pa = ch /\ forall s, s ∈ l -> echu t s -> pa <= echeance_ms s)
  \/ exists k s, expire_boucle l i t ch pa = Some (i + k)%nat /\ l !! k = Some s
      /\ echu t s /\ echeance_ms s < pa
      /\ forall s', s' ∈ l -> echu t s' -> echeance_ms s <= echeance_ms s'.
Proof.
  revert i ch pa. induction l as [|x l IH]; intros i ch pa; simpl.
  { left. split; [done|]. intros s Hs. by apply not_elem_of_nil in Hs. }
  assert (forall ch' pa', pa' <= pa -> (echu t x -> pa' <= echeance_ms x) ->
    (ch' = ch /\ pa' = pa \/ ch' = Some i /\ echu t x /\ pa' = echeance_ms x /\ echeance_ms x < pa) ->
    (expire_boucle l (S i) t ch' pa' = ch /\ forall s, s ∈ x :: l -> echu t s -> pa <= echeance_ms s)
    \/ exists k s, expire_boucle l (S i) t ch' pa' = Some (i + k)%nat /\ (x :: l) !! k = Some s
      /\ echu t s /\ echeance_ms s < pa
      /\ forall s', s' ∈ x :: l -> echu t s' -> echeance_ms s <= echeance_ms s') as Pas.
  { intros ch' pa' Hpa Hx Hch. destruct (IH (S i) ch' pa') as [[E H]|(k & s & E & Es & He & Hlt & H)].
    - destruct Hch as [[-> ->]|(-> & Hex & -> & Hltx)].
      + left. split; [done|]. intros s Hs Hes. apply elem_of_cons in Hs as [->|]; auto.
      + right. exists 0%nat, x. rewrite E, Nat.add_0_r. split_and!; try done; try apply Hex.
        intros s' Hs Hes. apply elem_of_cons in Hs as [->|]; [lia|auto].
    - right. exists (S k), s. rewrite E. split_and!; try done; try apply He; [f_equal; lia|lia|].
      intros s' Hs Hes. apply elem_of_cons in Hs as [->|]; [|auto]. specialize (Hx Hes). lia. }
  destruct (negb (occupe x) || (t <? echeance_ms x)) eqn:Eb.
  - apply Pas; [lia| |by left].
    intros [H1 H2]. rewrite H1 in Eb. simpl in Eb. apply Z.ltb_lt in Eb. lia.
  - apply orb_false_iff in Eb as [H1 H2]. bool_prop.
    destruct (echeance_ms x <? pa) eqn:Ec; bool_prop.
    + apply Pas; [lia|lia|]. by right.
    + apply Pas; [lia|lia|by left].
Qed.

Lemma minimum_spec l :
  match minimum l with
  | None => l = []
  | Some y => y ∈ l /\ forall x, x ∈ l -> y <= x
  end.
Proof.
  induction l as [|x l IH]; simpl; [done|]. destruct (minimum l) as [y|].
  - destruct IH as [H1 H2]. split.
    + apply elem_of_cons. destruct (Z.min_spec x y) as [[_ ->]|[_ ->]]; auto.
    + intros z Hz. apply elem_of_cons in Hz as [->|Hz]; [lia|]. specialize (H2 z Hz). lia.
  - subst. split; [by left|]. intros z Hz. apply list_elem_of_singleton in Hz as ->. lia.
Qed.

(** Deadlines the clock can reach. *)
Definition echeances_finies (e : Emission) : Prop :=
  Forall (fun s => occupe s = true -> 0 <= echeance_ms s < u64_max - 1) (file e).

Lemma expire_rien e t :
  (forall i s, segment e i = Some s -> t < echeance_ms s) -> expire e t = Rien.
Proof.
  intros H. unfold expire.
  destruct (expire_boucle_spec (file e) 0 t None (u64_max - 1)) as [[-> _]|(k & s & _ & Es & [Ho He] & _)];
    [done|].
  assert (segment e k = Some s) as Hs by (unfold segment; by rewrite Es, Ho).
  specialize (H k s Hs). lia.
Qed.

Lemma expire_premier e t :
  echeances_finies e -> (exists i s, segment e i = Some s /\ echeance_ms s <= t) ->
  exists i s, segment e i = Some s /\ echeance_ms s <= t
    /\ (forall j s', segment e j = Some s' -> echeance_ms s <= echeance_ms s')
    /\ expire e t = if RETRANSMISSIONS_MAX <=? retransmissions s then Abandon i else Retransmettre i.
Proof.
  intros Hf (i0 & s0 & Es0 & He0). apply segment_occupe in Es0 as [Es0 Ho0].
  unfold echeances_finies in Hf. rewrite Forall_forall in Hf. unfold expire.
  destruct (expire_boucle_spec (file e) 0 t None (u64_max - 1))
    as [[_ H]|(k & s & -> & Es & [Ho He] & _ & H)].
  - assert (s0 ∈ file e) as Hin by (by eapply list_elem_of_lookup_2).
    specialize (H s0 Hin (conj Ho0 He0)). specialize (Hf s0 Hin Ho0). lia.
  - exists k, s. split_and!; [unfold segment; by rewrite Es, Ho|done| |simpl; by rewrite Es].
    intros j s' Hj. apply segment_occupe in Hj as [Hj Hoj].
    destruct (decide (echeance_ms s' <= t)); [|lia].
    apply H; [by eapply list_elem_of_lookup_2|done].
Qed.

Lemma attente_spec e now :
  match attente_ms e now with
  | None => forall i, segment e i = None
  | Some d => (exists i s, segment e i = Some s /\ d = sat_sub (echeance_ms s) now)
              /\ forall i s, segment e i = Some s -> d <= sat_sub (echeance_ms s) now
  end.
Proof.
  assert (forall d, d ∈ map (fun s => sat_sub (echeance_ms s) now) (List.filter occupe (file e)) <->
    exists i s, segment e i = Some s /\ d = sat_sub (echeance_ms s) now) as Hin.
  { intros d. rewrite list_elem_of_In, in_map_iff. split.
    - intros (s & <- & Hs). apply List.filter_In in Hs as [Hs Ho].
      apply list_elem_of_In, list_elem_of_lookup_1 in Hs as [i Hi].
      exists i, s. unfold segment. by rewrite Hi, Ho.
    - intros (i & s & Hs & ->). apply segment_occupe in Hs as [Hs Ho]. exists s. split; [done|].
      apply List.filter_In. split; [|done]. apply list_elem_of_In. by eapply list_elem_of_lookup_2. }
  unfold attente_ms. pose proof (minimum_spec
    (map (fun s => sat_sub (echeance_ms s) now) (List.filter occupe (file e)))) as Hm.
  destruct (minimum _) as [d|].
  - destruct Hm as [H1 H2]. split; [by apply Hin|]. intros i s Hs. apply H2, Hin. eauto.
  - intros i. destruct (segment e i) as [s|] eqn:Es; [|done].
    assert (sat_sub (echeance_ms s) now ∈ map (fun s => sat_sub (echeance_ms s) now)
      (List.filter occupe (file e))) as H by (apply Hin; eauto).
    rewrite Hm in H. by apply not_elem_of_nil in H.
Qed.

(** ** Bounds *)

(** The instants of a run come from a clock that has not reached [H]. *)
Definition HORLOGE : Z := 2 ^ 60.
Definition date (v : Evenement) : Z :=
  match v with Enregistre _ _ _ t | Acquitte _ t | Renvoi _ t => t | Rapide => 0 end.
Definition dates (l : list Evenement) : Prop := Forall (fun v => 0 <= date v <= HORLOGE) l.

Record Borne (e : Emission) : Prop := {
  bo_rto : RTO_MIN_MS <= rto_ms e <= RTO_MAX_MS;
  bo_srtt : 0 <= srtt_ms e <= HORLOGE;
  bo_rttvar : 0 <= rttvar_ms e <= HORLOGE;
  bo_file : Forall (fun s => 0 <= envoye_ms s
                     /\ (occupe s = true -> 0 <= echeance_ms s <= HORLOGE + RTO_MAX_MS)) (file e)
}.

Lemma borne_neuve isn : Borne (neuve isn).
Proof.
  split; cbn [neuve rto_ms srtt_ms rttvar_ms file];
    try (unfold RTO_MIN_MS, RTO_MAX_MS, RTO_INITIAL_MS, HORLOGE; lia).
  apply Forall_replicate. simpl. split; [lia|done].
Qed.

Lemma borne_set_file e l :
  Borne e ->
  Forall (fun s => 0 <= envoye_ms s
           /\ (occupe s = true -> 0 <= echeance_ms s <= HORLOGE + RTO_MAX_MS)) l ->
  Borne (set_file l e).
Proof. intros [] H. by split. Qed.

Lemma clamp_borne x : RTO_MIN_MS <= clamp x RTO_MIN_MS RTO_MAX_MS <= RTO_MAX_MS.
Proof. unfold clamp, RTO_MIN_MS, RTO_MAX_MS. lia. Qed.

#[local] Transparent echantillon_rtt.
Lemma borne_echantillon m e : 0 <= m <= HORLOGE -> Borne e -> Borne (echantillon_rtt m e).
Proof.
  intros Hm [H1 H2 H3 H4]. unfold HORLOGE in *. unfold echantillon_rtt, recalcule_rto.
  destruct (srtt_ms e =? 0); split; try exact H4; try apply clamp_borne; simpl; unfold HORLOGE;
    match goal with |- 0 <= ?x / ?n <= _ =>
      pose proof (Z.div_pos x n); pose proof (Z.div_le_upper_bound x n (2 ^ 60)) | _ => idtac end; lia.
Qed.
#[local] Opaque echantillon_rtt.

Lemma borne_tour ack t e i : 0 <= t <= HORLOGE -> Borne e -> Borne (acquitte_tour ack t e i).
Proof.
  intros Ht H. unfold acquitte_tour. destruct (file e !! i) as [s|] eqn:Es; [|done].
  destruct (negb (occupe s)); [done|]. destruct (negb _); [done|].
  destruct (Forall_lookup_1 _ _ _ _ (bo_file e H) Es) as [Hs _].
  assert (forall e', Borne e' -> file e' = file e ->
    Borne (set_file (<[i := libere_segment s]> (file e')) e')) as Hfin.
  { intros e' He' Ef. apply borne_set_file; [done|]. apply Forall_insert; [apply He'|].
    simpl. split; [done|]. intros [=]. }
  destruct (retransmissions s =? 0).
  - apply Hfin; [|apply echantillon_file]. apply borne_echantillon; [|done]. unfold sat_sub. lia.
  - apply Hfin; [|done]. destruct H. by split.
Qed.

Lemma borne_tours ack t l e :
  0 <= t <= HORLOGE -> Borne e -> Borne (fold_left (acquitte_tour ack t) l e).
Proof. intros Ht. revert e. induction l; intros e H; simpl; [done|]. by apply IHl, borne_tour. Qed.

Lemma sat_add_borne t r :
  0 <= t <= HORLOGE -> 0 <= r <= RTO_MAX_MS -> 0 <= sat_add t r <= HORLOGE + RTO_MAX_MS.
Proof. unfold sat_add, HORLOGE, RTO_MAX_MS, u64_max. lia. Qed.

Lemma borne_evenement e v : 0 <= date v <= HORLOGE -> Borne e -> Borne (evenement e v).
Proof.
  intros Ht H. pose proof H as [H1 H2 H3 H4]. destruct v as [sq d c t|ack t| |i t]; cbn [evenement date] in *.
  - unfold enregistre. destruct (_ <? _); [done|].
    destruct (position _ _) as [j|]; [|by split].
    match goal with |- context [<[j := ?x]> _] => set (s := x) end.
    assert (Borne (set_file (<[j := s]> (file e)) e)) as Hb.
    { apply borne_set_file; [done|]. apply Forall_insert; [done|]. simpl. split; [lia|].
      intros _. apply sat_add_borne; [done|]. unfold RTO_MIN_MS in H1. lia. }
    destruct Hb as [B1 B2 B3 B4]. by destruct (seq_apres_ou_egal _ _); split.
  - unfold acquitte. destruct (seq_avant _ _); [done|]. destruct (_ && _); [by split|].
    destruct (negb _); [by split|]. apply borne_tours; [done|]. by split.
  - unfold retransmission_rapide. destruct (_ <? _); [done|]. destruct (position _ _); by split.
  - unfold note_retransmission. destruct (segment e i) as [s|] eqn:Es; [|done].
    apply segment_occupe in Es as [Es Ho].
    assert (RTO_MIN_MS <= Z.min (sat_mul (rto_ms e) 2) RTO_MAX_MS <= RTO_MAX_MS) as Hr.
    { unfold sat_mul, u64_max, RTO_MIN_MS, RTO_MAX_MS in *. lia. }
    split; simpl; [done..|]. apply Forall_insert; [done|].
    destruct (Forall_lookup_1 _ _ _ _ H4 Es) as [Hs _]. simpl. split; [done|].
    intros _. apply sat_add_borne; [done|]. unfold RTO_MIN_MS in Hr. lia.
Qed.

Lemma borne_deroule isn l : dates l -> Borne (deroule (neuve isn) l).
Proof.
  intros Hd. assert (forall e, Borne e -> Borne (deroule e l)) as H; [|apply H, borne_neuve].
  induction Hd as [|v l Hv Hd IH]; intros e H; simpl; [done|]. by apply IH, borne_evenement.
Qed.

Lemma finies_deroule isn l : dates l -> echeances_finies (deroule (neuve isn) l).
Proof.
  intros Hd. destruct (borne_deroule isn l Hd) as [_ _ _ H].
  eapply Forall_impl; [exact H|]. intros s [_ Hs] Ho. specialize (Hs Ho).
  unfold HORLOGE, RTO_MAX_MS, u64_max in *. lia.
Qed.

(** The wait is exact: with nothing in flight nothing ever expires; otherwise nothing
    expires before the instant the wait announces, and from that instant on the oldest
    deadline in flight is reported, for a retransmission or after eight of them for giving
    the connection up. *)
Theorem attente_exacte isn l now :
  dates l ->
  let e := deroule (neuve isn) l in
  match attente_ms e now with
  | None => forall t, expire e t = Rien
  | Some d =>
      (forall t, now <= t < now + d -> expire e t = Rien)
      /\ forall t, now + d <= t ->
           exists i s, segment e i = Some s /\ echeance_ms s <= t
             /\ (forall j s', segment e j = Some s' -> echeance_ms s <= echeance_ms s')
             /\ expire e t = if RETRANSMISSIONS_MAX <=? retransmissions s
                             then Abandon i else Retransmettre i
  end.
Proof.
  intros Hd e. pose proof (finies_deroule isn l Hd) as Hf. fold e in Hf.
  pose proof (attente_spec e now) as Ha. destruct (attente_ms e now) as [d|].
  - destruct Ha as [(i & s & Hs & ->) Hmin]. unfold sat_sub in *. split.
    + intros t Ht. apply expire_rien. intros j s' Hj. specialize (Hmin j s' Hj). lia.
    + intros t Ht. apply expire_premier; [done|]. exists i, s. split; [done|]. lia.
  - intros t. apply expire_rien. intros i s Hs. by rewrite Ha in Hs.
Qed.

(** A SYN sent at 0 with the initial delay, seen at 400. *)
Lemma attente_exacte_witness :
  attente_ms (deroule (neuve 100) [Enregistre 100 [] true 0]) 400 = Some 600
  /\ expire (deroule (neuve 100) [Enregistre 100 [] true 0]) 999 = Rien.
Proof.
  split; [vm_compute; reflexivity|].
  assert (dates [Enregistre 100 [] true 0]) as Hd.
  { apply Forall_singleton. unfold HORLOGE. simpl. lia. }
  assert (attente_ms (deroule (neuve 100) [Enregistre 100 [] true 0]) 400 = Some 600) as Ha
    by (vm_compute; reflexivity).
  pose proof (attente_exacte 100 [Enregistre 100 [] true 0] 400 Hd) as H. cbv zeta in H.
  rewrite Ha in H. apply H. lia.
Defined.

(** The delay stays between 200 milliseconds and one minute, and the sums of the
    smoothed round trip never leave 64 bits, whatever the acknowledgements and the
    retransmissions, as long as the clock is below two to the sixtieth milliseconds. *)
Theorem rto_borne isn l mesure :
  dates l -> 0 <= mesure <= HORLOGE ->
  let e := deroule (neuve isn) l in
  RTO_MIN_MS <= rto_ms e <= RTO_MAX_MS
  /\ srtt_ms e * 7 + Z.max mesure 1 < u64_max
  /\ rttvar_ms e * 3 + Z.abs (srtt_ms e - Z.max mesure 1) < u64_max.
Proof.
  intros Hd Hm e. destruct (borne_deroule isn l Hd) as [H1 H2 H3 _]. fold e in H1, H2, H3.
  unfold HORLOGE, u64_max in *. lia.
Qed.

(** Six retransmissions of a segment double the delay up to its ceiling. *)
Lemma rto_borne_witness :
  rto_ms (deroule (neuve 7) [Enregistre 7 [1] false 0; Renvoi 0 1; Renvoi 0 2; Renvoi 0 3;
            Renvoi 0 4; Renvoi 0 5; Renvoi 0 6]) = 60000
  /\ 60000 <= RTO_MAX_MS.
Proof.
  split; [vm_compute; reflexivity|].
  refine (Z.le_trans _ _ _ _ (proj2 (proj1 (rto_borne 7 [Enregistre 7 [1] false 0; Renvoi 0 1; Renvoi 0 2;
     Renvoi 0 3; Renvoi 0 4; Renvoi 0 5; Renvoi 0 6] 5 _ _)))).
  - vm_compute. discriminate.
  - repeat (apply Forall_cons; split; [unfold HORLOGE; simpl; lia|]). by apply Forall_nil.
  - unfold HORLOGE. lia.
Defined.

End RetransmissionProofs.
