(* ===== verification/Inflate.v ===== *)
(** Decompression of network contents: [src/net/encoding/inflate.rs]. The bit reader, the
    canonical Huffman decoder and its tables, the three kinds of blocks, and the gzip and
    zlib containers. An index out of range is [Panique]; a malformed stream is [Erreur]. *)

From S2P Require Import Prelude.

Module Inflate.
Open Scope Z_scope.
Open Scope os_scope.

Definition MAXBITS : nat := 15.
Definition MAXLCODES : Z := 286.
Definition MAXDCODES : Z := 30.
Definition FIXLCODES : nat := 288.

Inductive Faute := Erreur | Panique.

(** ** The bit reader *)

Record BitReader := mk_br { data : list Z; incnt : nat; bitbuf : Z; bitcnt : Z }.
Definition br_new (data : list Z) : BitReader := mk_br data 0 0 0.

Abbreviation MB := (M BitReader Faute).

(** The loop of [bits]: an octet at a time until enough bits are there. *)
Fixpoint remplit (tours : nat) (need val : Z) : MB Z :=
  br <- etat_courant ;;
  if need <=? bitcnt br then rend val
  else match tours with
  | O => echoue Panique
  | S tours =>
      match data br !! incnt br with
      | None => echoue Erreur
      | Some b =>
          garde (32 <=? bitcnt br) Panique ;;;
          change (fun br => mk_br (data br) (S (incnt br)) (bitbuf br) (bitcnt br + 8)) ;;;
          remplit tours need (Z.lor val (Z.shiftl b (bitcnt br) mod 2 ^ 32))
      end
  end.
Definition bits (need : Z) : MB Z :=
  br <- etat_courant ;;
  val <- remplit (Z.to_nat need) need (bitbuf br) ;;
  change (fun br => mk_br (data br) (incnt br) (Z.shiftr val need) (bitcnt br - need)) ;;;
  rend (Z.land val (Z.shiftl 1 need - 1)).

(** ** Huffman codes *)

Record Huffman := mk_huffman { count : list Z; symbol : list Z }.
Definition huffman_new (n : nat) : Huffman := mk_huffman (replicate (S MAXBITS) 0) (replicate n 0).

(** The loop of [decode], from length [len]. *)
Fixpoint decode_depuis (n : nat) (h : Huffman) (len : nat) (code first index : Z) : MB Z :=
  match n with
  | O => echoue Erreur
  | S n =>
      b <- bits 1 ;;
      let code := Z.lor code b in
      match count h !! len with
      | None => echoue Panique
      | Some c =>
          if code - c <? first
          then ou_echoue (if index + (code - first) <? 0 then None
                          else symbol h !! Z.to_nat (index + (code - first))) Panique
          else decode_depuis n h (S len) (Z.shiftl code 1) (Z.shiftl (first + c) 1) (index + c)
      end
  end.
Definition decode (h : Huffman) : MB Z := decode_depuis MAXBITS h 1 0 0 0.

(** [h.count[l as usize] += 1] for every length. *)
Fixpoint compte_longueurs (length : list Z) (count : list Z) : option (list Z) :=
  match length with
  | [] => Some count
  | l :: length =>
      match count !! Z.to_nat l with
      | Some c => compte_longueurs length (<[Z.to_nat l := c + 1]> count)
      | None => None
      end
  end.
(** What is left of the code space after each length; [inl] when it is exceeded. *)
Fixpoint reste_codes (n len : nat) (count : list Z) (reste : Z) : Z + Z :=
  match n with
  | O => inr reste
  | S n =>
      let reste := Z.shiftl reste 1 - default 0 (count !! len) in
      if reste <? 0 then inl reste else reste_codes n (S len) count reste
  end.
Fixpoint decalages (n len : nat) (count offs : list Z) : list Z :=
  match n with
  | O => offs
  | S n => decalages n (S len) count
             (<[S len := default 0 (offs !! len) + default 0 (count !! len)]> offs)
  end.
(** The loop that sorts the symbols by length. *)
Fixpoint range_symboles (length : list Z) (s : Z) (offs symbol : list Z) : option (list Z) :=
  match length with
  | [] => Some symbol
  | l :: length =>
      if l =? 0 then range_symboles length (s + 1) offs symbol
      else match offs !! Z.to_nat l with
           | Some o =>
               match symbol !! Z.to_nat o with
               | Some _ => range_symboles length (s + 1) (<[Z.to_nat l := o + 1]> offs)
                             (<[Z.to_nat o := s]> symbol)
               | None => None
               end
           | None => None
           end
  end.

(** [construct] returns what is left of the code space and fills the tables; [None] is an
    index out of range. *)
Definition construct (h : Huffman) (length : list Z) : option (Z * Huffman) :=
  match compte_longueurs length (replicate (S MAXBITS) 0) with
  | None => None
  | Some count =>
      if default 0 (count !! 0%nat) =? Z.of_nat (List.length length)
      then Some (0, mk_huffman count (symbol h))
      else match reste_codes MAXBITS 1 count 1 with
           | inl reste => Some (reste, mk_huffman count (symbol h))
           | inr reste =>
               let offs := decalages (MAXBITS - 1) 1 count (replicate (S MAXBITS) 0) in
               match range_symboles length 0 offs (symbol h) with
               | Some symbol => Some (reste, mk_huffman count symbol)
               | None => None
               end
           end
  end.

(** ** Blocks *)

Definition LENS : list Z :=
  [3; 4; 5; 6; 7; 8; 9; 10; 11; 13; 15; 17; 19; 23; 27; 31;
   35; 43; 51; 59; 67; 83; 99; 115; 131; 163; 195; 227; 258].
Definition LEXT : list Z :=
  [0; 0; 0; 0; 0; 0; 0; 0; 1; 1; 1; 1; 2; 2; 2; 2;
   3; 3; 3; 3; 4; 4; 4; 4; 5; 5; 5; 5; 0].
Definition DISTS : list Z :=
  [1; 2; 3; 4; 5; 7; 9; 13; 17; 25; 33; 49; 65; 97; 129; 193;
   257; 385; 513; 769; 1025; 1537; 2049; 3073; 4097; 6145;
   8193; 12289; 16385; 24577].
Definition DEXT : list Z :=
  [0; 0; 0; 0; 1; 1; 2; 2; 3; 3; 4; 4; 5; 5; 6; 6;
   7; 7; 8; 8; 9; 9; 10; 10; 11; 11; 12; 12; 13; 13].

(** [for k in 0..len { out.push(out[start + k]) }] *)
Fixpoint recopie (len : nat) (out : list Z) (i : nat) : option (list Z) :=
  match len with
  | O => Some out
  | S len => match out !! i with Some b => recopie len (out ++ [b]) (S i) | None => None end
  end.

(** The length and distance that follow a length symbol. *)
Definition reference (lencode distcode : Huffman) (s : nat) (out : list Z) : MB (list Z) :=
  base <- ou_echoue (LENS !! s) Panique ;;
  ext <- ou_echoue (LEXT !! s) Panique ;;
  plus <- bits ext ;;
  dsym <- decode distcode ;;
  garde ((dsym <? 0) || (30 <=? dsym)) Erreur ;;;
  dbase <- ou_echoue (DISTS !! Z.to_nat dsym) Panique ;;
  dext <- ou_echoue (DEXT !! Z.to_nat dsym) Panique ;;
  dplus <- bits dext ;;
  let dist := dbase + dplus in
  garde (Z.of_nat (length out) <? dist) Erreur ;;;
  ou_echoue (recopie (Z.to_nat (base + plus)) out (length out - Z.to_nat dist)) Panique.

Fixpoint codes (fuel : nat) (lencode distcode : Huffman) (out : list Z) : MB (list Z) :=
  match fuel with
  | O => echoue Panique
  | S fuel =>
      s <- decode lencode ;;
      if s <? 0 then echoue Erreur
      else if s <? 256 then codes fuel lencode distcode (out ++ [s])
      else if s =? 256 then rend out
      else if 29 <=? s - 257 then echoue Erreur
      else out <- reference lencode distcode (Z.to_nat (s - 257)) out ;;
           codes fuel lencode distcode out
  end.

Definition stored (out : list Z) : MB (list Z) :=
  change (fun br => mk_br (data br) (incnt br) 0 0) ;;;
  br <- etat_courant ;;
  garde (length (data br) <? incnt br + 4)%nat Erreur ;;;
  lo <- ou_echoue (data br !! incnt br) Panique ;;
  hi <- ou_echoue (data br !! S (incnt br)) Panique ;;
  let len := Z.to_nat (Z.lor lo (Z.shiftl hi 8)) in
  let debut := (incnt br + 4)%nat in
  garde (length (data br) <? debut + len)%nat Erreur ;;;
  change (fun br => mk_br (data br) (debut + len) (bitbuf br) (bitcnt br)) ;;;
  rend (out ++ slice (data br) debut len).

Definition longueurs_fixes : list Z :=
  replicate 144 8 ++ replicate 112 9 ++ replicate 24 7 ++ replicate 8 8.
Definition fixed (fuel : nat) (out : list Z) : MB (list Z) :=
  match construct (huffman_new FIXLCODES) longueurs_fixes,
        construct (huffman_new (Z.to_nat MAXDCODES)) (replicate (Z.to_nat MAXDCODES) 5) with
  | Some (_, lencode), Some (_, distcode) => codes fuel lencode distcode out
  | _, _ => echoue Panique
  end.

Definition ORDER : list nat := [16; 17; 18; 0; 8; 7; 9; 6; 10; 5; 11; 4; 12; 3; 13; 2; 14; 1; 15]%nat.

(** [for i in 0..ncode { lengths[ORDER[i]] = br.bits(3)? }] *)
Fixpoint lit_ordre (n i : nat) (lengths : list Z) : MB (list Z) :=
  match n with
  | O => rend lengths
  | S n =>
      o <- ou_echoue (ORDER !! i) Panique ;;
      b <- bits 3 ;;
      garde (length lengths <=? o)%nat Panique ;;;
      lit_ordre n (S i) (<[o := b]> lengths)
  end.
(** [while rep > 0 && codelen.len() < total] *)
Definition repete (rep : Z) (val : Z) (total : nat) (codelen : list Z) : list Z :=
  codelen ++ replicate (Nat.min (Z.to_nat rep) (total - length codelen)) val.
Fixpoint lit_longueurs (fuel : nat) (lencode : Huffman) (total : nat) (codelen : list Z) : MB (list Z) :=
  if (total <=? length codelen)%nat then rend codelen
  else match fuel with
  | O => echoue Panique
  | S fuel =>
      s <- decode lencode ;;
      if s <? 0 then echoue Erreur
      else if s <? 16 then lit_longueurs fuel lencode total (codelen ++ [s])
      else if s =? 16 then
        match last codelen with
        | None => echoue Erreur
        | Some val =>
            b <- bits 2 ;; lit_longueurs fuel lencode total (repete (3 + b) val total codelen)
        end
      else if s =? 17 then
        b <- bits 3 ;; lit_longueurs fuel lencode total (repete (3 + b) 0 total codelen)
      else
        b <- bits 7 ;; lit_longueurs fuel lencode total (repete (11 + b) 0 total codelen)
  end.
(** An incomplete code is accepted only when it has a single length. *)
Definition arbre (n : nat) (lengths : list Z) : MB Huffman :=
  match construct (huffman_new n) lengths with
  | None => echoue Panique
  | Some (err, h) =>
      garde (negb (err =? 0) &&
             ((err <? 0) || negb (Z.of_nat n =? default 0 (count h !! 0%nat) + default 0 (count h !! 1%nat))))
        Erreur ;;;
      rend h
  end.
Definition dynamic (fuel : nat) (out : list Z) : MB (list Z) :=
  a <- bits 5 ;; b <- bits 5 ;; c <- bits 4 ;;
  let nlen := a + 257 in let ndist := b + 1 in let ncode := c + 4 in
  garde ((MAXLCODES <? nlen) || (MAXDCODES <? ndist)) Erreur ;;;
  lengths <- lit_ordre (Z.to_nat ncode) 0 (replicate 19 0) ;;
  match construct (huffman_new 19) lengths with
  | None => echoue Panique
  | Some (err, lencode) =>
      garde (negb (err =? 0)) Erreur ;;;
      let total := Z.to_nat (nlen + ndist) in
      codelen <- lit_longueurs fuel lencode total [] ;;
      garde (negb (length codelen =? total)%nat) Erreur ;;;
      lencode2 <- arbre (Z.to_nat nlen) (take (Z.to_nat nlen) codelen) ;;
      distcode <- arbre (Z.to_nat ndist) (drop (Z.to_nat nlen) codelen) ;;
      codes fuel lencode2 distcode out
  end.

Fixpoint inflate_depuis (blocs fuel : nat) (out : list Z) : MB (list Z) :=
  match blocs with
  | O => echoue Panique
  | S blocs =>
      derniere <- bits 1 ;;
      btype <- bits 2 ;;
      out <- (if btype =? 0 then stored out
              else if btype =? 1 then fixed fuel out
              else if btype =? 2 then dynamic fuel out
              else echoue Erreur) ;;
      if derniere =? 1 then rend out else inflate_depuis blocs fuel out
  end.

(** Every turn of a loop reads a bit: one more than the bits of the input is enough. *)
Definition carburant (data : list Z) : nat := S (8 * length data).
Definition inflate (data : list Z) : list Z + Faute :=
  (inflate_depuis (carburant data) (carburant data) [] (br_new data)).2.

(** ** Containers *)

Definition zlib_decode (data : list Z) : list Z + Faute :=
  if (length data <? 2)%nat then inr Erreur
  else match data !! 1%nat with
       | Some flg => if negb (Z.land flg 32 =? 0) then inr Erreur else inflate (drop 2 data)
       | None => inr Panique
       end.

(** [while pos < data.len() && data[pos] != 0 { pos += 1; } pos += 1;] *)
Fixpoint apres_zero (l : list Z) (pos : nat) : nat :=
  match l with [] => S pos | b :: l => if b =? 0 then S pos else apres_zero l (S pos) end.
Definition saute_chaine (data : list Z) (pos : nat) : nat :=
  if (pos <? length data)%nat then apres_zero (drop pos data) pos else S pos.

Definition gzip_decode (data : list Z) : list Z + Faute :=
  match data with
  | 31 :: 139 :: 8 :: flg :: _ =>
      if (length data <? 10)%nat then inr Erreur else
      let suite pos :=
        let pos := if negb (Z.land flg 8 =? 0) then saute_chaine data pos else pos in
        let pos := if negb (Z.land flg 16 =? 0) then saute_chaine data pos else pos in
        let pos := if negb (Z.land flg 2 =? 0) then (pos + 2)%nat else pos in
        if (length data <? pos)%nat then inr Erreur else inflate (drop pos data) in
      if negb (Z.land flg 4 =? 0) then
        if (length data <? 12)%nat then inr Erreur
        else match data !! 10%nat, data !! 11%nat with
             | Some lo, Some hi => suite (12 + Z.to_nat (Z.lor lo (Z.shiftl hi 8)))%nat
             | _, _ => inr Panique
             end
      else suite 10%nat
  | _ => inr Erreur
  end.

(** The self test of the module. *)
Example selftest : inflate [1; 3; 0; 252; 255; 97; 98; 99] = inl [97; 98; 99].
Proof. vm_compute. reflexivity. Qed.
(** "aaaaaaaaaa" as a fixed block with a reference. *)
Example fixe_reference : inflate [75; 76; 132; 1; 0] = inl (replicate 10 97).
Proof. vm_compute. reflexivity. Qed.
(** A dynamic block. *)
Definition ex_dynamique : list Z := [21; 140; 209; 21; 0; 0; 8; 1; 87; 177; 26; 218; 127; 134; 206; 71; 47; 57; 242; 57; 110; 171; 216; 117; 114; 110; 60; 207; 22; 183; 70; 199; 217; 26; 74; 5; 217; 158; 34; 223; 174; 131; 210; 24; 105; 106; 4; 211; 153; 119; 135; 143; 98; 186; 206; 49; 42; 255; 31].
Definition ex_texte : list Z := [97; 100; 97; 98; 97; 99; 99; 99; 32; 98; 97; 97; 99; 97; 98; 98; 100; 97; 99; 98; 97; 100; 97; 98; 97; 97; 97; 32; 99; 97; 98; 32; 97; 98; 97; 99; 97; 99; 99; 99; 97; 98; 97; 32; 97; 99; 98; 97; 98; 99; 32; 97; 97; 32; 98; 97; 98; 99; 98; 99; 32; 97; 98; 98; 100; 99; 99; 98; 100; 97; 99; 97; 98; 98; 32; 97; 98; 99; 32; 98; 97; 99; 32; 99; 97; 97; 99; 98; 98; 99; 97; 99; 97; 98; 100; 100; 100; 98; 32; 97; 97; 99; 97; 97; 97; 99; 99; 97; 98; 99; 98; 100; 98; 99; 98; 32; 99; 100; 97; 98].
Example dynamique_decode : inflate ex_dynamique = inl ex_texte.
Proof. vm_compute. reflexivity. Qed.
End Inflate.
