(* ===== verification/InflateProofs.v ===== *)
(** Proofs on decompression: the bit reader as a stream of bits, the tables of a Huffman code,
    and that no input stops the kernel: every loop ends and the output is bounded by the
    input. *)

From S2P Require Import Prelude Inflate.

Module InflateProofs.
Import Inflate.
Open Scope Z_scope.
Open Scope os_scope.

(** ** Bits *)

(** Least significant bit first. *)
Fixpoint bits_of (n : nat) (z : Z) : list bool :=
  match n with O => [] | S n => Z.odd z :: bits_of n (Z.div2 z) end.
Fixpoint val_of (l : list bool) : Z :=
  match l with [] => 0 | b :: l => Z.b2z b + 2 * val_of l end.
Fixpoint bits_octets (l : list Z) : list bool :=
  match l with [] => [] | b :: l => bits_of 8 b ++ bits_octets l end.

Lemma length_bits_of n z : length (bits_of n z) = n.
Proof. revert z. induction n; intros; simpl; auto. Qed.
Lemma length_bits_octets l : length (bits_octets l) = (8 * length l)%nat.
Proof.
  induction l as [|b l IH]; [done|]. cbn [bits_octets]. rewrite length_app, length_bits_of, IH.
  cbn [length]. lia.
Qed.
Lemma val_of_bound l : 0 <= val_of l < 2 ^ Z.of_nat (length l).
Proof.
  induction l as [|b l IH]; cbn [val_of length]; [lia|].
  rewrite Nat2Z.inj_succ, Z.pow_succ_r by lia. destruct b; cbn [Z.b2z]; lia.
Qed.
Lemma val_bits_of n z : 0 <= z < 2 ^ Z.of_nat n -> val_of (bits_of n z) = z.
Proof.
  revert z. induction n as [|n IH]; intros z Hz; cbn [bits_of val_of]; [cbn in Hz; lia|].
  rewrite Nat2Z.inj_succ, Z.pow_succ_r in Hz by lia.
  pose proof (Z.div2_odd z) as Hd. rewrite IH by (rewrite Z.div2_div; Z.to_euclidean_division_equations; lia).
  destruct (Z.odd z); cbn [Z.b2z] in *; lia.
Qed.
Lemma bits_val_of l : bits_of (length l) (val_of l) = l.
Proof.
  induction l as [|b l IH]; [done|]. cbn [length val_of bits_of].
  assert (Z.odd (Z.b2z b + 2 * val_of l) = b) as ->.
  { rewrite Z.add_comm, Z.odd_add_mul_2 || rewrite Z.odd_add, Z.odd_mul. destruct b; cbn; by rewrite ?andb_false_l. }
  assert (Z.div2 (Z.b2z b + 2 * val_of l) = val_of l) as ->; [|by rewrite IH].
  rewrite Z.div2_div. destruct b; cbn [Z.b2z]; Z.to_euclidean_division_equations; lia.
Qed.
Lemma val_of_app l1 l2 : val_of (l1 ++ l2) = val_of l1 + 2 ^ Z.of_nat (length l1) * val_of l2.
Proof.
  induction l1 as [|b l IH]; cbn [app val_of length]; [lia|].
  rewrite IH, Nat2Z.inj_succ, Z.pow_succ_r by lia. lia.
Qed.
Lemma bits_of_app n k z : bits_of (n + k) z = bits_of n z ++ bits_of k (Z.shiftr z (Z.of_nat n)).
Proof.
  revert z. induction n as [|n IH]; intros z; [by rewrite Z.shiftr_0_r|].
  cbn [bits_of Nat.add app]. rewrite IH. do 3 f_equal.
  rewrite Z.div2_spec, Z.shiftr_shiftr by lia. f_equal. lia.
Qed.
(** The bits of two parts put side by side. *)
Lemma bits_of_lor n k x y :
  0 <= x < 2 ^ Z.of_nat n -> 0 <= y < 2 ^ Z.of_nat k ->
  bits_of (n + k) (Z.lor x (Z.shiftl y (Z.of_nat n))) = bits_of n x ++ bits_of k y /\
  0 <= Z.lor x (Z.shiftl y (Z.of_nat n)) < 2 ^ Z.of_nat (n + k).
Proof.
  intros Hx Hy.
  assert (Z.lor x (Z.shiftl y (Z.of_nat n)) = val_of (bits_of n x ++ bits_of k y)) as ->.
  { rewrite val_of_app, !val_bits_of, length_bits_of by done.
    rewrite Z.lor_comm, Z.shiftl_mul_pow2, lor_disjoint by lia. lia. }
  assert (length (bits_of n x ++ bits_of k y) = (n + k)%nat) as Hl.
  { by rewrite length_app, !length_bits_of. }
  split; [|rewrite <- Hl; apply val_of_bound]. rewrite <- Hl at 1. apply bits_val_of.
Qed.
Lemma take_bits_of n k z : take n (bits_of (n + k) z) = bits_of n z.
Proof. rewrite bits_of_app, take_app_length'; [done|]. by rewrite length_bits_of. Qed.
Lemma val_of_take l k : (k <= length l)%nat -> val_of (take k l) = val_of l mod 2 ^ Z.of_nat k.
Proof.
  intros Hk. rewrite <- (take_drop k l) at 2. rewrite val_of_app, length_take, Nat.min_l by done.
  pose proof (val_of_bound (take k l)) as Hb. rewrite length_take, Nat.min_l in Hb by done.
  rewrite (Z.mul_comm (2 ^ _)), Z.mod_add by lia. by rewrite Z.mod_small.
Qed.
Lemma val_of_drop l k : (k <= length l)%nat -> val_of (drop k l) = val_of l / 2 ^ Z.of_nat k.
Proof.
  intros Hk. rewrite <- (take_drop k l) at 2. rewrite val_of_app, length_take, Nat.min_l by done.
  pose proof (val_of_bound (take k l)) as Hb. rewrite length_take, Nat.min_l in Hb by done.
  rewrite (Z.mul_comm (2 ^ _)), Z.div_add by lia. rewrite Z.div_small by done. lia.
Qed.

(** ** The bit reader *)

Definition br_ok (br : BitReader) : Prop :=
  Forall octet (data br) /\ (incnt br <= length (data br))%nat /\ 0 <= bitcnt br < 8 /\
  0 <= bitbuf br < 2 ^ bitcnt br.
(** What is left to read. *)
Definition flux (br : BitReader) : list bool :=
  bits_of (Z.to_nat (bitcnt br)) (bitbuf br) ++ bits_octets (drop (incnt br) (data br)).

(** A handler that never panics: it fails, or ends with a state and a value that satisfy [Q]. *)
Definition sur {A} (c : MB A) (Q : BitReader -> A -> Prop) (br : BitReader) : Prop :=
  match c br with (br', inl x) => Q br' x | (_, inr Erreur) => True | (_, inr Panique) => False end.

Lemma sur_lie {A B} (c : MB A) (k : A -> MB B) Q br :
  sur c (fun br' x => sur (k x) Q br') br -> sur (lie c k) Q br.
Proof. unfold sur, lie. by destruct (c br) as [br' [x|[]]]. Qed.
Lemma sur_rend {A} (x : A) Q br : Q br x -> sur (rend x) Q br.
Proof. done. Qed.
Lemma sur_erreur {A} (Q : BitReader -> A -> Prop) br : sur (echoue Erreur) Q br.
Proof. done. Qed.
Lemma sur_garde b (Q : BitReader -> unit -> Prop) br :
  (b = false -> Q br tt) -> sur (garde b Erreur) Q br.
Proof. unfold sur, garde. destruct b; cbn; auto. Qed.
Lemma sur_mono {A} (c : MB A) (P Q : BitReader -> A -> Prop) br :
  sur c P br -> (forall br' x, P br' x -> Q br' x) -> sur c Q br.
Proof. unfold sur. destruct (c br) as [br' [x|[]]]; auto. Qed.
Lemma sur_ou {A} (o : option A) x (Q : BitReader -> A -> Prop) br :
  o = Some x -> Q br x -> sur (ou_echoue o Panique) Q br.
Proof. by intros ->. Qed.

(** The loop of [bits]. *)
Definition flux_de (val : Z) (br : BitReader) : list bool :=
  bits_of (Z.to_nat (bitcnt br)) val ++ bits_octets (drop (incnt br) (data br)).

Lemma remplit_spec tours : forall need val br,
  Forall octet (data br) -> (incnt br <= length (data br))%nat -> 0 <= bitcnt br ->
  0 <= val < 2 ^ bitcnt br -> need <= 24 -> bitcnt br < need + 8 -> need <= bitcnt br + 8 * Z.of_nat tours ->
  match remplit tours need val br with
  | (br', inl v) =>
      data br' = data br /\ (incnt br' <= length (data br))%nat /\ need <= bitcnt br' < need + 8 /\
      0 <= v < 2 ^ bitcnt br' /\ flux_de v br' = flux_de val br
  | (_, inr Erreur) => (length (flux_de val br) < Z.to_nat need)%nat
  | (_, inr Panique) => False
  end.
Proof.
  induction tours as [|tours IH]; intros need val br Ho Hi Hc Hv Hn Hb Ht; cbn [remplit];
    unfold lie, etat_courant; destruct (Z.leb_spec need (bitcnt br)); try lia; try done.
  destruct (data br !! incnt br) as [b|] eqn:Hd.
  2: { cbn. apply lookup_ge_None in Hd. unfold flux_de.
       rewrite length_app, length_bits_of, drop_ge by lia. cbn. lia. }
  assert (octet b) as Hob by (by eapply Forall_lookup_1 in Hd).
  unfold garde. destruct (Z.leb_spec 32 (bitcnt br)); [lia|]. cbn [rend change echoue].
  assert (Z.shiftl b (bitcnt br) mod 2 ^ 32 = Z.shiftl b (Z.of_nat (Z.to_nat (bitcnt br)))) as ->.
  { rewrite Z2Nat.id by lia. apply Z.mod_small. rewrite Z.shiftl_mul_pow2 by lia. unfold octet in Hob.
    assert (2 ^ bitcnt br <= 2 ^ 24) by (apply Z.pow_le_mono_r; lia). nia. }
  destruct (bits_of_lor (Z.to_nat (bitcnt br)) 8 val b) as [Hf Hr];
    [by rewrite Z2Nat.id by lia|unfold octet in Hob; cbn; lia|].
  set (v1 := Z.lor val _) in *. set (br1 := mk_br (data br) (S (incnt br)) (bitbuf br) (bitcnt br + 8)).
  assert (flux_de v1 br1 = flux_de val br) as Hfl.
  { unfold flux_de, br1. cbn [data incnt bitcnt].
    replace (Z.to_nat (bitcnt br + 8)) with (Z.to_nat (bitcnt br) + 8)%nat by lia. rewrite Hf.
    rewrite <- app_assoc. f_equal. by rewrite (drop_S _ b _ Hd). }
  specialize (IH need v1 br1 Ho ltac:(apply lookup_lt_Some in Hd; cbn; lia) ltac:(cbn; lia)).
  rewrite Hfl in IH. apply IH; cbn [br1 bitcnt]; [|lia|lia|lia].
  replace (bitcnt br + 8) with (Z.of_nat (Z.to_nat (bitcnt br) + 8)) by lia. done.
Qed.

Lemma bits_spec need br :
  br_ok br -> 0 <= need <= 24 ->
  match bits need br with
  | (br', inl v) =>
      (Z.to_nat need <= length (flux br))%nat /\ v = val_of (take (Z.to_nat need) (flux br)) /\ br_ok br' /\
      data br' = data br /\ flux br' = drop (Z.to_nat need) (flux br)
  | (_, inr Erreur) => (length (flux br) < Z.to_nat need)%nat
  | (_, inr Panique) => False
  end.
Proof.
  intros (Ho & Hi & Hc & Hb) Hn. unfold bits, lie, etat_courant.
  pose proof (remplit_spec (Z.to_nat need) need (bitbuf br) br Ho Hi ltac:(lia) Hb ltac:(lia) ltac:(lia) ltac:(lia)) as H.
  destruct (remplit _ _ _ br) as [br1 [v|[]]]; [|done|done].
  destruct H as (Hd & Hi1 & Hc1 & Hv & Hf). cbn [change rend].
  change (flux br) with (flux_de (bitbuf br) br). rewrite <- Hf.
  unfold flux_de. set (k := Z.to_nat need). set (c := (Z.to_nat (bitcnt br1) - k)%nat).
  replace (Z.to_nat (bitcnt br1)) with (k + c)%nat by lia.
  split_and!.
  - rewrite length_app, length_bits_of. lia.
  - rewrite take_app_le, take_bits_of by (rewrite length_bits_of; lia).
    replace (Z.shiftl 1 need - 1) with (Z.ones need) by (unfold Z.ones; lia).
    rewrite Z.land_ones by lia. pose proof (val_of_bound (bits_of k v)) as Hbv. rewrite length_bits_of in Hbv.
    rewrite <- (take_bits_of k c v), val_of_take by (rewrite length_bits_of; lia).
    rewrite val_bits_of; [unfold k; by rewrite Z2Nat.id by lia|].
    replace (Z.of_nat (k + c)) with (bitcnt br1) by lia. done.
  - unfold br_ok. cbn [data incnt bitbuf bitcnt]. rewrite Hd. split_and!; [done|done|lia|lia| |].
    + apply Z.shiftr_nonneg. lia.
    + rewrite Z.shiftr_div_pow2 by lia. apply Z.div_lt_upper_bound; [lia|].
      rewrite <- Z.pow_add_r by lia. replace (need + (bitcnt br1 - need)) with (bitcnt br1) by lia. lia.
  - done.
  - unfold flux. cbn [data incnt bitbuf bitcnt]. rewrite drop_app_le by (rewrite length_bits_of; lia).
    f_equal. rewrite bits_of_app, drop_app_length' by (by rewrite length_bits_of).
    replace (Z.of_nat k) with need by lia. f_equal. lia.
Qed.

(** At least [k] bits have been read. *)
Definition lu (k : nat) (br br' : BitReader) : Prop :=
  br_ok br' /\ data br' = data br /\ (length (flux br') + k <= length (flux br))%nat.
Lemma lu_trans j k a b c : lu j a b -> lu k b c -> lu (j + k) a c.
Proof. intros (?&?&?) (?&?&?). split_and!; [done|congruence|lia]. Qed.
Lemma lu_refl br : br_ok br -> lu 0 br br.
Proof. intros. split_and!; [done|done|lia]. Qed.
Lemma lu_le j k a b : (j <= k)%nat -> lu k a b -> lu j a b.
Proof. intros ? (?&?&?). split_and!; [done|done|lia]. Qed.

Lemma sur_bits need br :
  br_ok br -> 0 <= need <= 24 ->
  sur (bits need) (fun br' v => lu (Z.to_nat need) br br' /\ 0 <= v < 2 ^ need) br.
Proof.
  intros Hb Hn. unfold sur. pose proof (bits_spec need br Hb Hn) as H.
  destruct (bits need br) as [br' [v|[]]]; [|done|done]. destruct H as (Hl & -> & Hb' & Hd & Hf).
  split; [split_and!; [done|done|rewrite Hf, length_drop; lia]|].
  pose proof (val_of_bound (take (Z.to_nat need) (flux br))) as Hv.
  by rewrite length_take, Nat.min_l, Z2Nat.id in Hv by lia.
Qed.

(** ** Huffman tables *)

(** The number of codes of length 1 to [k]. *)
Fixpoint somme (c : list Z) (k : nat) : Z :=
  match k with O => 0 | S k => somme c k + default 0 (c !! S k) end.

Record hok (n : Z) (h : Huffman) : Prop := {
  h_longueur : length (count h) = S MAXBITS;
  h_pos : Forall (fun c => 0 <= c) (count h);
  h_somme : somme (count h) MAXBITS <= Z.of_nat (length (symbol h));
  h_symboles : Forall (fun s => 0 <= s < n) (symbol h)
}.

Lemma default_pos c i : Forall (fun c => 0 <= c) c -> 0 <= default 0 (c !! i).
Proof. intros H. destruct (c !! i) eqn:E; [by eapply Forall_lookup_1 in E|done]. Qed.
Lemma somme_mono c j k : Forall (fun c => 0 <= c) c -> (j <= k)%nat -> somme c j <= somme c k.
Proof.
  intros Hc. induction 1 as [|k _ IH]; [lia|]. cbn [somme]. pose proof (default_pos c (S k) Hc). lia.
Qed.

Lemma lor_bit c b : 0 <= c -> 0 <= b < 2 -> Z.lor (2 * c) b = 2 * c + b.
Proof. intros Hc Hb. replace (2 * c) with (c * 2 ^ 1) by lia. apply lor_disjoint; lia. Qed.

Lemma sur_decode_depuis nb h n : hok nb h -> forall len code first br,
  (len + n = S MAXBITS)%nat -> (1 <= len)%nat -> br_ok br -> 0 <= first <= 2 * code ->
  sur (decode_depuis n h len (2 * code) first (somme (count h) (len - 1)))
    (fun br' s => lu 1 br br' /\ 0 <= s < nb) br.
Proof.
  intros [Hl Hp Hs Hy]. induction n as [|n IH]; intros len code first br Hn H1 Hb Hf; [done|].
  cbn [decode_depuis]. apply sur_lie. eapply sur_mono; [apply sur_bits; [done|lia]|].
  intros br1 b [Hlu Hbit]. cbn beta. rewrite lor_bit by lia.
  destruct (lookup_lt_is_Some_2 (count h) len) as [c Hc]; [unfold MAXBITS in *; lia|]. rewrite Hc.
  assert (0 <= c) as Hc0 by (exact (Forall_lookup_1 _ _ _ _ Hp Hc)).
  assert (somme (count h) len = somme (count h) (len - 1) + c) as Hso.
  { destruct len as [|k]; [lia|]. cbn [somme]. rewrite Hc. cbn. do 2 f_equal. lia. }
  pose proof (somme_mono _ 0 (len - 1) Hp ltac:(lia)) as H0. cbn in H0.
  pose proof (somme_mono _ len MAXBITS Hp ltac:(lia)) as Hm.
  destruct (Z.ltb_spec (2 * code + b - c) first).
  - destruct (Z.ltb_spec (somme (count h) (len - 1) + (2 * code + b - first)) 0); [lia|].
    destruct (lookup_lt_is_Some_2 (symbol h) (Z.to_nat (somme (count h) (len - 1) + (2 * code + b - first))))
      as [v Hv]; [lia|].
    eapply sur_ou; [exact Hv|]. split; [done|]. exact (Forall_lookup_1 _ _ _ _ Hy Hv).
  - rewrite !Z.shiftl_mul_pow2 by lia. rewrite <- Hso.
    replace ((2 * code + b) * 2 ^ 1) with (2 * (2 * code + b)) by lia.
    replace len with (S len - 1)%nat at 2 by lia.
    eapply sur_mono; [apply IH; [lia|lia|apply Hlu|lia]|].
    intros br2 v [H2 Hv]. split; [|done]. eapply lu_le; [|by eapply lu_trans]. cbn. lia.
Qed.
Lemma sur_decode nb h br :
  hok nb h -> br_ok br -> sur (decode h) (fun br' s => lu 1 br br' /\ 0 <= s < nb) br.
Proof. intros Hh Hb. apply (sur_decode_depuis nb h MAXBITS Hh 1 0 0 br); done || lia. Qed.

(** *** [construct] *)

(** How many of the lengths are [i]. *)
Fixpoint nb (i : Z) (l : list Z) : Z :=
  match l with [] => 0 | x :: l => Z.b2z (x =? i) + nb i l end.
Lemma nb_pos i l : 0 <= nb i l.
Proof. induction l as [|x l IH]; cbn [nb]; [lia|]. destruct (x =? i); cbn; lia. Qed.
Lemma nb_concat i l1 l2 : nb i (l1 ++ l2) = nb i l1 + nb i l2.
Proof. induction l1; cbn [nb app]; lia. Qed.
Lemma nb_elem i l s : l !! s = Some i -> nb i (take s l) < nb i l.
Proof.
  intros H. rewrite <- (take_drop s l) at 2. rewrite nb_concat, (drop_S _ _ _ H). cbn [nb].
  rewrite Z.eqb_refl. pose proof (nb_pos i (drop (S s) l)). cbn. lia.
Qed.
Lemma nb_elem_lt i l s t : l !! s = Some i -> (s < t)%nat -> nb i (take s l) < nb i (take t l).
Proof.
  intros H Hst. replace (take s l) with (take s (take t l)) by (rewrite take_take; f_equal; lia).
  apply nb_elem. by rewrite lookup_take_lt.
Qed.

Definition longueur_ok (l : Z) : Prop := 0 <= l <= 15.

Lemma compte_longueurs_spec lens : Forall longueur_ok lens -> forall c, length c = S MAXBITS ->
  exists c', compte_longueurs lens c = Some c' /\ length c' = S MAXBITS /\
    forall i : nat, (i <= MAXBITS)%nat -> default 0 (c' !! i) = default 0 (c !! i) + nb (Z.of_nat i) lens.
Proof.
  induction 1 as [|l lens Hl _ IH]; intros c Hc; cbn [compte_longueurs nb].
  { exists c. split_and!; [done|done|intros; lia]. }
  unfold longueur_ok, MAXBITS in *.
  destruct (lookup_lt_is_Some_2 c (Z.to_nat l)) as [x Hx]; [lia|]. rewrite Hx.
  destruct (IH (<[Z.to_nat l := x + 1]> c)) as (c' & E & Hc' & Hv); [by rewrite length_insert|].
  exists c'. split_and!; [done|done|]. intros i Hi. rewrite (Hv i Hi).
  destruct (Z.eqb_spec l (Z.of_nat i)) as [->|Hn].
  - rewrite Nat2Z.id in *. rewrite list_lookup_insert_eq by lia. rewrite Hx. cbn. lia.
  - rewrite list_lookup_insert_ne by lia. cbn. lia.
Qed.

(** The table of counts of the lengths of a code. *)
Definition comptes (c : list Z) (lens : list Z) : Prop :=
  length c = S MAXBITS /\
  forall i : nat, (i <= MAXBITS)%nat -> default 0 (c !! i) = nb (Z.of_nat i) lens.

Lemma comptes_pos c lens : comptes c lens -> Forall (fun c => 0 <= c) c.
Proof.
  intros [Hl Hc]. apply Forall_lookup. intros i x Hi. specialize (Hc i).
  rewrite Hi in Hc. cbn in Hc. rewrite Hc by (apply lookup_lt_Some in Hi; lia). apply nb_pos.
Qed.
Lemma somme_nb c lens k : comptes c lens -> (k <= MAXBITS)%nat ->
  somme c k + nb 0 lens <= Z.of_nat (length lens).
Proof.
  intros [Hl Hc] Hk.
  assert (somme c k = foldr (fun x a => Z.b2z ((0 <? x) && (x <=? Z.of_nat k)) + a) 0 lens) as ->.
  { induction k as [|k IH]; cbn [somme].
    - clear. induction lens as [|x l IH]; cbn [foldr]; [done|]. rewrite <- IH. zcas; cbn [Z.b2z]; lia.
    - rewrite IH, Hc by lia. clear. induction lens as [|x l IH]; cbn [foldr nb]; [done|].
      rewrite <- IH. zcas; cbn [Z.b2z]; lia. }
  clear. induction lens as [|x l IH]; cbn [foldr nb length]; [lia|]. zcas; cbn [Z.b2z]; lia.
Qed.

Lemma decalages_spec n : forall len c offs,
  (len + n <= MAXBITS)%nat -> (1 <= len)%nat -> length offs = S MAXBITS ->
  (forall k, (1 <= k <= len)%nat -> default 0 (offs !! k) = somme c (k - 1)) ->
  length (decalages n len c offs) = S MAXBITS /\
  forall k, (1 <= k <= len + n)%nat -> default 0 (decalages n len c offs !! k) = somme c (k - 1).
Proof.
  induction n as [|n IH]; intros len c offs Hn H1 Hl Ho; cbn [decalages].
  { split; [done|]. intros k Hk. apply Ho. lia. }
  destruct (IH (S len) c (<[S len := default 0 (offs !! len) + default 0 (c !! len)]> offs)) as [Hl' Hk'];
    [lia|lia|by rewrite length_insert| |].
  - intros k Hk. destruct (decide (k = S len)) as [->|Hne].
    + rewrite list_lookup_insert_eq by lia. cbn. rewrite Ho by lia.
      destruct len as [|j]; [lia|]. cbn [somme Nat.sub]. do 2 f_equal. lia.
    + rewrite list_lookup_insert_ne by lia. apply Ho. lia.
  - split; [done|]. intros k Hk. apply Hk'. lia.
Qed.

(** Where the symbol of rank [s] goes. *)
Definition place (c lens : list Z) (s : nat) (l : Z) : Z :=
  somme c (Z.to_nat l - 1) + nb l (take s lens).

Lemma place_borne c lens s l :
  comptes c lens -> lens !! s = Some l -> 1 <= l <= 15 ->
  somme c (Z.to_nat l - 1) <= place c lens s l < somme c (Z.to_nat l).
Proof.
  intros [Hl Hc] Hs Hr. unfold place. pose proof (nb_pos l (take s lens)). split; [lia|].
  replace (Z.to_nat l) with (S (Z.to_nat l - 1)) at 2 by lia. cbn [somme].
  replace (S (Z.to_nat l - 1)) with (Z.to_nat l) by lia. unfold MAXBITS in *. rewrite Hc by lia.
  rewrite Z2Nat.id by lia. pose proof (nb_elem _ _ _ Hs). lia.
Qed.
Lemma place_inj c lens s l t m :
  comptes c lens -> lens !! s = Some l -> lens !! t = Some m -> 1 <= l <= 15 -> 1 <= m <= 15 ->
  (s < t)%nat -> place c lens s l <> place c lens t m.
Proof.
  intros Hc Hs Ht Hl Hm Hst. pose proof (comptes_pos _ _ Hc) as Hp.
  pose proof (place_borne _ _ _ _ Hc Hs Hl) as Bs. pose proof (place_borne _ _ _ _ Hc Ht Hm) as Bt.
  destruct (Z.lt_trichotomy l m) as [H|[->|H]].
  - pose proof (somme_mono c (Z.to_nat l) (Z.to_nat m - 1) Hp ltac:(lia)). lia.
  - unfold place. pose proof (nb_elem_lt _ _ _ _ Hs Hst). lia.
  - pose proof (somme_mono c (Z.to_nat m) (Z.to_nat l - 1) Hp ltac:(lia)). lia.
Qed.

Lemma range_spec c lens n :
  comptes c lens -> Forall longueur_ok lens -> (length lens <= n)%nat ->
  forall suf pre offs sym,
  lens = pre ++ suf -> length offs = S MAXBITS -> length sym = n ->
  (forall l, 1 <= l <= 15 -> default 0 (offs !! Z.to_nat l) = somme c (Z.to_nat l - 1) + nb l pre) ->
  (forall s l, pre !! s = Some l -> l <> 0 -> sym !! Z.to_nat (place c lens s l) = Some (Z.of_nat s)) ->
  Forall (fun s => 0 <= s < Z.of_nat n) sym ->
  exists sym', range_symboles suf (Z.of_nat (length pre)) offs sym = Some sym' /\ length sym' = n /\
    Forall (fun s => 0 <= s < Z.of_nat n) sym' /\
    forall s l, lens !! s = Some l -> l <> 0 -> sym' !! Z.to_nat (place c lens s l) = Some (Z.of_nat s).
Proof.
  intros Hc Hok Hn. pose proof (comptes_pos _ _ Hc) as Hp.
  induction suf as [|l suf IH]; intros pre offs sym E Hlo Hls Ho Hs Hf; cbn [range_symboles].
  { exists sym. rewrite app_nil_r in E. subst pre. eauto. }
  assert (lens !! length pre = Some l) as Hl by (rewrite E; by apply list_lookup_middle).
  assert (longueur_ok l) as Hlok by (exact (Forall_lookup_1 _ _ _ _ Hok Hl)). unfold longueur_ok in Hlok.
  assert (take (length pre) lens = pre) as Htake by (rewrite E; by apply take_app_length).
  replace (Z.of_nat (length pre) + 1) with (Z.of_nat (length (pre ++ [l]))) by (rewrite length_app; cbn; lia).
  assert (lens = (pre ++ [l]) ++ suf) as E' by (by rewrite <- app_assoc).
  assert (length pre < n)%nat as Hpn by (apply lookup_lt_Some in Hl; lia).
  destruct (Z.eqb_spec l 0) as [->|Hz].
  { apply IH; [done|done|done| | |done].
    - intros k Hk. rewrite Ho, nb_concat by done. cbn [nb]. destruct (Z.eqb_spec 0 k); cbn; lia.
    - intros s k Hk Hne. apply lookup_app_Some in Hk as [Hk|[_ Hk]]; [auto|].
      apply list_lookup_singleton_Some in Hk as [_ <-]. done. }
  assert (1 <= l <= 15) as Hr by lia.
  destruct (lookup_lt_is_Some_2 offs (Z.to_nat l)) as [o Hoo]; [unfold MAXBITS in *; lia|]. rewrite Hoo.
  assert (o = place c lens (length pre) l) as Eo.
  { specialize (Ho l Hr). rewrite Hoo in Ho. cbn in Ho. unfold place. by rewrite Htake. }
  pose proof (place_borne _ _ _ _ Hc Hl Hr) as Hb. rewrite <- Eo in Hb.
  pose proof (somme_mono c 0 (Z.to_nat l - 1) Hp ltac:(lia)) as H0. cbn in H0.
  pose proof (somme_mono c (Z.to_nat l) MAXBITS Hp ltac:(unfold MAXBITS; lia)) as H15.
  pose proof (somme_nb c lens MAXBITS Hc ltac:(lia)) as Hsn. pose proof (nb_pos 0 lens).
  destruct (lookup_lt_is_Some_2 sym (Z.to_nat o)) as [x Hx]; [lia|]. rewrite Hx.
  apply IH; [done|by rewrite length_insert|by rewrite length_insert| | |].
  - intros k Hk. rewrite nb_concat. cbn [nb]. destruct (Z.eqb_spec l k) as [->|Hne]; cbn [Z.b2z].
    + rewrite list_lookup_insert_eq by (unfold MAXBITS in *; lia). cbn. unfold place in Eo.
      rewrite Htake in Eo. lia.
    + rewrite list_lookup_insert_ne by lia. rewrite Ho by done. lia.
  - intros s k Hk Hne. apply lookup_app_Some in Hk as [Hk|[Hge Hk]].
    + rewrite list_lookup_insert_ne; [auto|]. apply lookup_lt_Some in Hk as Hlt.
      assert (lens !! s = Some k) as Hks by (rewrite E; by apply lookup_app_l_Some).
      assert (longueur_ok k) as Hko by (exact (Forall_lookup_1 _ _ _ _ Hok Hks)). unfold longueur_ok in Hko.
      pose proof (place_inj _ _ _ _ _ _ Hc Hks Hl ltac:(lia) Hr Hlt).
      pose proof (place_borne _ _ _ _ Hc Hks ltac:(lia)).
      pose proof (somme_mono c 0 (Z.to_nat k - 1) Hp ltac:(lia)) as Hk0. cbn in Hk0. lia.
    + apply list_lookup_singleton_Some in Hk as [Hz0 <-].
      replace s with (length pre) by lia. rewrite <- Eo. apply list_lookup_insert_eq. lia.
  - apply Forall_insert; [done|lia].
Qed.

Lemma huffman_new_ok n : Forall (fun s => 0 <= s < Z.of_nat n) (symbol (huffman_new n)).
Proof. apply Forall_replicate_iff || (apply Forall_lookup; intros i x Hx; apply lookup_replicate in Hx as [-> ?]; lia). Qed.

Lemma reste_codes_inl k : forall len c z r, reste_codes k len c z = inl r -> r < 0.
Proof.
  induction k as [|k IH]; intros len c z r; cbn [reste_codes]; [done|].
  destruct (Z.ltb_spec (Z.shiftl z 1 - default 0 (c !! len)) 0); [intros [= <-]; lia|apply IH].
Qed.

(** [construct] fills its tables for every list of lengths. *)
Lemma construct_spec n lens :
  Forall longueur_ok lens -> (length lens <= n)%nat ->
  exists r h, construct (huffman_new n) lens = Some (r, h) /\ hok (Z.of_nat n) h /\
    comptes (count h) lens /\
    (nb 0 lens <> Z.of_nat (length lens) -> 0 <= r ->
       reste_codes MAXBITS 1 (count h) 1 = inr r /\
       forall s l, lens !! s = Some l -> l <> 0 ->
         symbol h !! Z.to_nat (place (count h) lens s l) = Some (Z.of_nat s)).
Proof.
  intros Hok Hn. unfold construct.
  destruct (compte_longueurs_spec lens Hok (replicate (S MAXBITS) 0)) as (c & -> & Hl & Hv); [done|].
  assert (comptes c lens) as Hc.
  { split; [done|]. intros i Hi. rewrite Hv by done.
    destruct (replicate (S MAXBITS) 0 !! i) eqn:E; [apply lookup_replicate in E as [-> _]|]; cbn; lia. }
  pose proof (comptes_pos _ _ Hc) as Hp. pose proof (somme_nb c lens MAXBITS Hc ltac:(lia)) as Hs.
  pose proof (nb_pos 0 lens) as H0.
  assert (forall sym, length sym = n -> Forall (fun s => 0 <= s < Z.of_nat n) sym ->
    hok (Z.of_nat n) (mk_huffman c sym)) as Hh by (intros sym Hsl Hsf; split; cbn [count symbol]; [done|done|lia|done]).
  assert (length (symbol (huffman_new n)) = n) as Hln by (cbn; by rewrite length_replicate).
  pose proof (huffman_new_ok n) as Hnew.
  pose proof (proj2 Hc) as Hc0. pose proof (Hc0 0%nat ltac:(lia)) as Hz.
  change (Z.of_nat 0) with 0 in Hz. rewrite Hz. destruct (Z.eqb_spec (nb 0 lens) (Z.of_nat (length lens))).
  { eexists 0, _. split_and!; [reflexivity|by apply Hh|done|done]. }
  destruct (reste_codes MAXBITS 1 c 1) as [r|r] eqn:Er.
  { eexists r, _. split_and!; [reflexivity|by apply Hh|done|]. intros _ Hr. exfalso.
    by apply reste_codes_inl in Er; lia. }
  destruct (decalages_spec (MAXBITS - 1) 1 c (replicate (S MAXBITS) 0)) as [Hdl Hd];
    [unfold MAXBITS; lia|lia|done| |].
  { intros k Hk. assert (k = 1%nat) as -> by lia. done. }
  destruct (range_spec c lens n (conj Hl Hc0) Hok Hn lens [] (decalages (MAXBITS - 1) 1 c (replicate (S MAXBITS) 0))
    (symbol (huffman_new n))) as (sym & Esym & Hsl & Hsf & Hsy); [done|done|done| |done|done|].
  { intros l Hlr. rewrite Hd by (unfold MAXBITS; lia). cbn. lia. }
  change (Z.of_nat (length [])) with 0 in Esym. rewrite Esym.
  eexists r, _. split_and!; [reflexivity|by apply Hh|done|]. intros _ _. by split.
Qed.
Lemma construct_ok n lens :
  Forall longueur_ok lens -> (length lens <= n)%nat ->
  exists r h, construct (huffman_new n) lens = Some (r, h) /\ hok (Z.of_nat n) h.
Proof. intros H1 H2. destruct (construct_spec n lens H1 H2) as (r & h & ? & ? & _). eauto. Qed.

(** ** Blocks *)

Lemma recopie_spec len : forall out i,
  (i < length out)%nat -> Forall octet out ->
  exists out', recopie len out i = Some out' /\ length out' = (length out + len)%nat /\ Forall octet out'.
Proof.
  induction len as [|len IH]; intros out i Hi Ho; cbn [recopie]; [exists out; split_and!; [done|lia|done]|].
  destruct (lookup_lt_is_Some_2 out i Hi) as [b Hb]. rewrite Hb.
  destruct (IH (out ++ [b]) (S i)) as (out' & E & Hl & Ho').
  - rewrite length_app. cbn. lia.
  - apply Forall_app. split; [done|]. constructor; [|done]. exact (Forall_lookup_1 _ _ _ _ Ho Hb).
  - exists out'. split_and!; [done|rewrite Hl, length_app; cbn; lia|done].
Qed.

(** The output grows by at most 258 octets for each bit read. *)
Definition produit (br : BitReader) (out : list Z) (br' : BitReader) (out' : list Z) : Prop :=
  br_ok br' /\ data br' = data br /\ Forall octet out' /\
  (length (flux br') < length (flux br))%nat /\
  (length out' + 258 * length (flux br') <= length out + 258 * length (flux br))%nat.

Lemma produit_trans a o b o1 c o2 : produit a o b o1 -> produit b o1 c o2 -> produit a o c o2.
Proof. intros (?&?&?&?&?) (?&?&?&?&?). split_and!; [done|congruence|done|lia|lia]. Qed.

Lemma tables_longueurs s : (s < 29)%nat ->
  exists b e, LENS !! s = Some b /\ LEXT !! s = Some e /\ 0 <= e <= 5 /\ 0 <= b /\ b + 2 ^ e - 1 <= 258.
Proof.
  intros Hs. do 29 (destruct s as [|s]; [eexists _, _; split_and!; [reflexivity|reflexivity|lia|lia|lia|lia]|]). lia.
Qed.
Lemma tables_distances s : (s < 30)%nat ->
  exists b e, DISTS !! s = Some b /\ DEXT !! s = Some e /\ 0 <= e <= 13 /\ 1 <= b.
Proof.
  intros Hs. do 30 (destruct s as [|s]; [eexists _, _; split_and!; [reflexivity|reflexivity|lia|lia|lia]|]). lia.
Qed.

Lemma sur_reference nl nd lencode distcode s out br :
  hok nl lencode -> hok nd distcode -> br_ok br -> Forall octet out -> (s < 29)%nat ->
  sur (reference lencode distcode s out)
    (fun br' out' => lu 1 br br' /\ Forall octet out' /\ (length out' <= length out + 258)%nat) br.
Proof.
  intros Hl Hd Hb Ho Hs. unfold reference.
  destruct (tables_longueurs s Hs) as (base & ext & Ebase & Eext & He & Hb0 & H258).
  apply sur_lie. eapply sur_ou; [exact Ebase|]. apply sur_lie. eapply sur_ou; [exact Eext|].
  apply sur_lie. eapply sur_mono; [apply sur_bits; [done|lia]|]. intros br1 plus [H1 Hplus]. cbn beta.
  apply sur_lie. eapply sur_mono; [eapply sur_decode; [done|apply H1]|]. intros br2 dsym [H2 Hds]. cbn beta.
  apply sur_lie, sur_garde. intros Hg. bool_prop.
  destruct (tables_distances (Z.to_nat dsym)) as (db & de & Edb & Ede & Hde & Hdb); [lia|].
  apply sur_lie. eapply sur_ou; [exact Edb|]. apply sur_lie. eapply sur_ou; [exact Ede|].
  apply sur_lie. eapply sur_mono; [apply sur_bits; [apply H2|lia]|]. intros br3 dplus [H3 Hdp]. cbn beta zeta.
  apply sur_lie, sur_garde. intros Hg'. bool_prop.
  destruct (recopie_spec (Z.to_nat (base + plus)) out (length out - Z.to_nat (db + dplus)))
    as (out' & Er & Hlen & Ho'); [lia|done|].
  eapply sur_ou; [exact Er|]. split_and!; [|done|rewrite Hlen; lia].
  eapply lu_le; [|eapply lu_trans; [|exact H3]; eapply lu_trans; [exact H1|exact H2]]. lia.
Qed.

Lemma sur_codes nl nd lencode distcode fuel : hok nl lencode -> hok nd distcode -> forall out br,
  br_ok br -> Forall octet out -> (length (flux br) < fuel)%nat ->
  sur (codes fuel lencode distcode out) (fun br' out' => produit br out br' out') br.
Proof.
  intros Hl Hd. induction fuel as [|fuel IH]; intros out br Hb Ho Hf; [lia|].
  cbn [codes]. apply sur_lie. eapply sur_mono; [by eapply sur_decode|]. intros br1 s [H1 Hs]. cbn beta.
  destruct H1 as (Hb1 & Hd1 & Hl1).
  destruct (Z.ltb_spec s 0); [lia|]. destruct (Z.ltb_spec s 256).
  { eapply sur_mono; [apply IH; [done| |lia]|].
    - apply Forall_app. split; [done|]. by repeat constructor.
    - intros br2 o2 H2. eapply produit_trans; [|exact H2]. split_and!; [done|done| |lia|rewrite length_app; cbn; lia].
      apply Forall_app. split; [done|]. by repeat constructor. }
  destruct (Z.eqb_spec s 256); [apply sur_rend; split_and!; [done|done|done|lia|lia]|].
  destruct (Z.leb_spec 29 (s - 257)); [apply sur_erreur|].
  apply sur_lie. eapply sur_mono; [eapply sur_reference; try done; lia|].
  intros br2 o2 ((Hb2 & Hd2 & Hl2) & Ho2 & Hlen). cbn beta.
  eapply sur_mono; [apply IH; [done|done|lia]|]. intros br3 o3 H3. eapply produit_trans; [|exact H3].
  split_and!; [done|congruence|done|lia|lia].
Qed.

Lemma length_flux br : br_ok br -> Z.of_nat (length (flux br)) = bitcnt br + 8 * Z.of_nat (length (data br) - incnt br).
Proof.
  intros (_ & _ & Hc & _). unfold flux. rewrite length_app, length_bits_of, length_bits_octets, length_drop. lia.
Qed.

Lemma sur_stored out br :
  br_ok br -> Forall octet out -> sur (stored out) (fun br' out' => produit br out br' out') br.
Proof.
  intros Hb Ho. pose proof (length_flux br Hb) as Hfl. destruct Hb as (Hoc & Hi & Hc & Hbuf). unfold stored.
  apply sur_lie. unfold change, sur at 1. cbn beta iota.
  apply sur_lie. unfold etat_courant, sur at 1. cbn beta iota. cbn [data incnt].
  apply sur_lie, sur_garde. intros Hg. bool_prop.
  destruct (lookup_lt_is_Some_2 (data br) (incnt br)) as [lo Hlo]; [lia|].
  destruct (lookup_lt_is_Some_2 (data br) (S (incnt br))) as [hi Hhi]; [lia|].
  apply sur_lie. eapply sur_ou; [exact Hlo|]. apply sur_lie. eapply sur_ou; [exact Hhi|]. cbn zeta.
  apply sur_lie, sur_garde. intros Hg'. bool_prop. set (len := Z.to_nat _) in *.
  apply sur_lie. unfold change, sur at 1. cbn beta iota. cbn [data incnt bitbuf bitcnt]. apply sur_rend.
  set (br' := mk_br _ _ _ _).
  assert (br_ok br') as Hb' by (split_and!; cbn; [done|lia|lia|lia|lia|lia]).
  pose proof (length_flux br' Hb') as Hfl'. cbn [br' bitcnt data incnt] in Hfl'.
  split_and!; [done|done| |lia|].
  - apply Forall_app. split; [done|]. by apply Forall_slice.
  - rewrite length_app, length_slice by lia. lia.
Qed.

Lemma longueurs_replicate n l : longueur_ok l -> Forall longueur_ok (replicate n l).
Proof. intros H. apply Forall_lookup. intros i x Hx. by apply lookup_replicate in Hx as [-> _]. Qed.
Lemma longueurs_fixes_ok : Forall longueur_ok longueurs_fixes.
Proof. unfold longueurs_fixes. rewrite !Forall_app. split_and!; apply longueurs_replicate; unfold longueur_ok; lia. Qed.

Lemma sur_fixed fuel out br :
  br_ok br -> Forall octet out -> (length (flux br) < fuel)%nat ->
  sur (fixed fuel out) (fun br' out' => produit br out br' out') br.
Proof.
  intros Hb Ho Hf. unfold fixed.
  destruct (construct_ok FIXLCODES longueurs_fixes longueurs_fixes_ok) as (r & h & -> & Hh).
  { by vm_compute; lia. }
  destruct (construct_ok (Z.to_nat MAXDCODES) (replicate (Z.to_nat MAXDCODES) 5)) as (r' & h' & -> & Hh').
  { apply longueurs_replicate. unfold longueur_ok. lia. }
  { by rewrite length_replicate. }
  by eapply sur_codes.
Qed.

Lemma sur_lit_ordre n : forall i lengths br,
  br_ok br -> (i + n <= 19)%nat -> length lengths = 19%nat -> Forall longueur_ok lengths ->
  sur (lit_ordre n i lengths) (fun br' l => lu 0 br br' /\ length l = 19%nat /\ Forall longueur_ok l) br.
Proof.
  induction n as [|n IH]; intros i lengths br Hb Hi Hl Hf; cbn [lit_ordre].
  { apply sur_rend. split_and!; [by apply lu_refl|done|done]. }
  destruct (lookup_lt_is_Some_2 ORDER i) as [o Hoo]; [cbn; lia|].
  assert (o < 19)%nat as Ho19.
  { assert (Forall (fun o => o < 19)%nat ORDER) as HO by (unfold ORDER; repeat constructor; lia).
    exact (Forall_lookup_1 _ _ _ _ HO Hoo). }
  apply sur_lie. eapply sur_ou; [exact Hoo|]. apply sur_lie. eapply sur_mono; [apply sur_bits; [done|lia]|].
  intros br1 b [H1 Hbv]. cbn beta. apply sur_lie. unfold garde.
  destruct (Nat.leb_spec (length lengths) o); [lia|]. unfold sur at 1, rend. cbn beta iota.
  eapply sur_mono; [apply IH; [apply H1|lia|by rewrite length_insert|]|].
  - apply Forall_insert; [done|]. unfold longueur_ok. lia.
  - intros br2 l (H2 & ? & ?). split_and!; [|done|done]. eapply lu_le; [|by eapply lu_trans]. lia.
Qed.

Lemma repete_spec rep val total l :
  (length l <= total)%nat -> longueur_ok val -> Forall longueur_ok l ->
  (length (repete rep val total l) <= total)%nat /\ Forall longueur_ok (repete rep val total l).
Proof.
  intros Hl Hv Hf. unfold repete. rewrite length_app, length_replicate. split; [lia|].
  apply Forall_app. split; [done|]. by apply longueurs_replicate.
Qed.

Lemma sur_lit_longueurs lencode total fuel : hok 19 lencode -> forall l br,
  br_ok br -> (length l <= total)%nat -> Forall longueur_ok l -> (length (flux br) < fuel)%nat ->
  sur (lit_longueurs fuel lencode total l)
    (fun br' l => lu 0 br br' /\ length l = total /\ Forall longueur_ok l) br.
Proof.
  intros Hh. induction fuel as [|fuel IH]; intros l br Hb Hl Hf Hfu; [lia|]. cbn [lit_longueurs].
  destruct (Nat.leb_spec total (length l)).
  { apply sur_rend. split_and!; [by apply lu_refl|lia|done]. }
  apply sur_lie. eapply sur_mono; [by eapply sur_decode|]. intros br1 s [H1 Hs]. cbn beta.
  assert (forall l' br2, lu 1 br br2 -> (length l' <= total)%nat -> Forall longueur_ok l' ->
    sur (lit_longueurs fuel lencode total l')
      (fun br' l => lu 0 br br' /\ length l = total /\ Forall longueur_ok l) br2) as Hk.
  { intros l' br2 H2 Hl' Hf'. eapply sur_mono; [apply IH; [apply H2|done|done|destruct H2 as (_ & _ & ?); lia]|].
    intros br3 l3 (H3 & ? & ?). split_and!; [|done|done]. eapply lu_le; [|by eapply lu_trans]. lia. }
  assert (forall k v rep n, 0 <= k <= 24 -> longueur_ok v -> sur (b <- bits k;; lit_longueurs fuel lencode total (repete (rep + b) v n l))
    (fun br' l => lu 0 br br' /\ length l = total /\ Forall longueur_ok l) br1 \/ n <> total) as Hbits.
  { intros k v rep n Hk0 Hv. destruct (decide (n = total)) as [->|]; [left|by right].
    apply sur_lie. eapply sur_mono; [apply sur_bits; [apply H1|done]|]. intros br2 b [H2 _]. cbn beta.
    destruct (repete_spec (rep + b) v total l ltac:(lia) Hv Hf).
    apply Hk; [|done|done]. eapply lu_le; [|by eapply lu_trans]. lia. }
  destruct (Z.ltb_spec s 0); [lia|]. destruct (Z.ltb_spec s 16).
  { apply Hk; [done|rewrite length_app; cbn; lia|]. apply Forall_app. split; [done|].
    constructor; [|done]. unfold longueur_ok. lia. }
  destruct (Z.eqb_spec s 16).
  { destruct (last l) as [v|] eqn:Ev; [|apply sur_erreur].
    assert (longueur_ok v) as Hv.
    { rewrite last_lookup in Ev. exact (Forall_lookup_1 _ _ _ _ Hf Ev). }
    by destruct (Hbits 2 v 3 total ltac:(lia) Hv). }
  destruct (Z.eqb_spec s 17).
  - by destruct (Hbits 3 0 3 total ltac:(lia) ltac:(unfold longueur_ok; lia)).
  - by destruct (Hbits 7 0 11 total ltac:(lia) ltac:(unfold longueur_ok; lia)).
Qed.

Lemma sur_arbre n lens br :
  br_ok br -> Forall longueur_ok lens -> (length lens <= n)%nat ->
  sur (arbre n lens) (fun br' h => br' = br /\ hok (Z.of_nat n) h) br.
Proof.
  intros Hb Hf Hl. unfold arbre. destruct (construct_ok n lens Hf Hl) as (r & h & -> & Hh).
  apply sur_lie, sur_garde. intros _. by apply sur_rend.
Qed.

Lemma sur_dynamic fuel out br :
  br_ok br -> Forall octet out -> (length (flux br) < fuel)%nat ->
  sur (dynamic fuel out) (fun br' out' => produit br out br' out') br.
Proof.
  intros Hb Ho Hf. unfold dynamic.
  apply sur_lie. eapply sur_mono; [apply sur_bits; [done|lia]|]. intros br1 a [H1 Ha]. cbn beta.
  apply sur_lie. eapply sur_mono; [apply sur_bits; [apply H1|lia]|]. intros br2 b [H2 Hbb]. cbn beta.
  apply sur_lie. eapply sur_mono; [apply sur_bits; [apply H2|lia]|]. intros br3 c [H3 Hc]. cbn beta zeta.
  apply sur_lie, sur_garde. intros Hg. bool_prop. unfold MAXLCODES, MAXDCODES in *.
  apply sur_lie. eapply sur_mono; [apply sur_lit_ordre; [apply H3|lia|done|]|].
  { apply longueurs_replicate. unfold longueur_ok. lia. }
  intros br4 lengths (H4 & Hl4 & Hf4). cbn beta.
  destruct (construct_ok 19 lengths Hf4 ltac:(lia)) as (r & h & -> & Hh).
  apply sur_lie, sur_garde. intros _. apply sur_lie.
  pose proof (lu_trans _ _ _ _ _ (lu_trans _ _ _ _ _ (lu_trans _ _ _ _ _ H1 H2) H3) H4) as (Hb4 & Hd4 & Hl).
  eapply sur_mono; [apply sur_lit_longueurs; [done|done|cbn; lia|done|lia]|].
  intros br5 cl (H5 & Hlen & Hcl). cbn beta. apply sur_lie, sur_garde. intros _.
  apply sur_lie. eapply sur_mono; [apply sur_arbre; [apply H5|by apply Forall_take|rewrite length_take; lia]|].
  intros ? h2 [-> Hh2]. cbn beta.
  apply sur_lie. eapply sur_mono; [apply sur_arbre; [apply H5|by apply Forall_drop|rewrite length_drop; lia]|].
  intros ? h3 [-> Hh3]. cbn beta. destruct H5 as (Hb5 & Hd5 & Hl5).
  eapply sur_mono; [eapply sur_codes; [exact Hh2|exact Hh3|done|done|lia]|].
  intros br6 o6 (? & ? & ? & ? & ?). split_and!; [done|congruence|done|lia|lia].
Qed.

Lemma sur_inflate blocs fuel : forall out br,
  br_ok br -> Forall octet out -> (length (flux br) < blocs)%nat -> (length (flux br) < fuel)%nat ->
  sur (inflate_depuis blocs fuel out) (fun br' out' => produit br out br' out') br.
Proof.
  induction blocs as [|blocs IH]; intros out br Hb Ho Hf Hfu; [lia|]. cbn [inflate_depuis].
  apply sur_lie. eapply sur_mono; [apply sur_bits; [done|lia]|]. intros br1 a [H1 Ha]. cbn beta.
  apply sur_lie. eapply sur_mono; [apply sur_bits; [apply H1|lia]|]. intros br2 b [H2 Hbb]. cbn beta.
  pose proof (lu_trans _ _ _ _ _ H1 H2) as (Hb2 & Hd2 & Hl2). cbn in Hl2.
  apply sur_lie. eapply (sur_mono _ (fun br' out' => produit br2 out br' out')).
  { destruct (b =? 0); [by apply sur_stored|]. destruct (b =? 1); [apply sur_fixed; [done|done|lia]|].
    destruct (b =? 2); [apply sur_dynamic; [done|done|lia]|apply sur_erreur]. }
  intros br3 o3 H3. cbn beta.
  assert (produit br out br3 o3) as H03.
  { destruct H3 as (?&?&?&?&?). split_and!; [done|congruence|done|lia|lia]. }
  destruct (a =? 1); [by apply sur_rend|]. destruct H3 as (?&?&?&?&?).
  eapply sur_mono; [apply IH; [done|done|lia|lia]|]. intros br4 o4 Hp4. by eapply produit_trans.
Qed.

(** C18. Decompression never stops the kernel: whatever the octets received, every loop ends within
    its bound, no index is out of range, and the result is an error or octets, at most 2064
    times as many as were received. *)
Theorem inflate_sure data :
  Forall octet data ->
  match inflate data with
  | inl out => Forall octet out /\ (length out <= 2064 * length data)%nat
  | inr Erreur => True
  | inr Panique => False
  end.
Proof.
  intros Hd. unfold inflate.
  assert (br_ok (br_new data)) as Hb by (split_and!; cbn; [done|lia|lia|lia|lia|lia]).
  assert (length (flux (br_new data)) = (8 * length data)%nat) as Hl.
  { unfold flux. rewrite length_app, length_bits_of, length_bits_octets, length_drop.
    cbn [br_new bitcnt incnt Inflate.data Z.to_nat]. lia. }
  pose proof (sur_inflate (carburant data) (carburant data) [] (br_new data) Hb (Forall_nil_2 _)
    ltac:(rewrite Hl; unfold carburant; lia) ltac:(rewrite Hl; unfold carburant; lia)) as H.
  unfold sur in H. destruct (inflate_depuis _ _ _ _) as [br' [out|[]]]; cbn; [|done|done].
  destruct H as (_ & _ & Ho & _ & Hlen). split; [done|]. rewrite Hl in Hlen. cbn in Hlen. lia.
Qed.
Lemma inflate_sure_witness :
  match inflate [75; 132; 3; 0] with
  | inl out => Forall octet out /\ (length out <= 2064 * length [75; 132; 3; 0])%nat
  | inr Erreur => True
  | inr Panique => False
  end.
Proof. apply (inflate_sure [75; 132; 3; 0]). repeat constructor; lia. Defined.
End InflateProofs.
