(* ===== verification/InflateCanon.v ===== *)
(** The decoder against the standard: canonical codes as RFC 1951 defines them, the meaning
    of a sequence of literals and copies, and the streams a compressor writes with stored and
    fixed blocks. *)

From S2P Require Import Prelude Inflate InflateProofs.

Module InflateCanon.
Import Inflate InflateProofs.
Open Scope Z_scope.
Open Scope os_scope.

(** ** Canonical codes (section 3.2.2 of the standard) *)

(** The first code of each length. *)
Fixpoint premier (lens : list Z) (len : nat) : Z :=
  match len with
  | O => 0
  | S k => 2 * (premier lens k + match k with O => 0 | _ => nb (Z.of_nat k) lens end)
  end.
(** The code of symbol [s], whose length is [l], most significant bit first. *)
Definition code_de (lens : list Z) (s : nat) (l : Z) : Z :=
  premier lens (Z.to_nat l) + nb l (take s lens).
Definition mot_de (lens : list Z) (s : nat) : list bool :=
  match lens !! s with
  | Some l => rev (bits_of (Z.to_nat l) (code_de lens s l))
  | None => []
  end.

(** The codes of length at most [k], counted at length [k]. *)
Definition pris (lens : list Z) (k : nat) : Z :=
  premier lens k + match k with O => 0 | _ => nb (Z.of_nat k) lens end.
Lemma pris_S lens k : pris lens (S k) = 2 * pris lens k + nb (Z.of_nat (S k)) lens.
Proof. unfold pris. cbn [premier]. lia. Qed.
Lemma pris_pos lens k : 0 <= pris lens k.
Proof. induction k as [|k IH]; [done|]. rewrite pris_S. pose proof (nb_pos (Z.of_nat (S k)) lens). lia. Qed.
Lemma pris_mono lens j k : (j <= k)%nat -> pris lens j * 2 ^ Z.of_nat (k - j) <= pris lens k.
Proof.
  induction 1 as [|k Hk IH]; [rewrite Nat.sub_diag; cbn; lia|].
  rewrite pris_S. replace (Z.of_nat (S k - j)) with (Z.succ (Z.of_nat (k - j))) by lia.
  rewrite Z.pow_succ_r by lia. pose proof (nb_pos (Z.of_nat (S k)) lens). lia.
Qed.

(** A code that is not over-subscribed leaves room at every length. *)
Lemma kraft lens c n : comptes c lens -> forall len left r,
  (len + n = S MAXBITS)%nat -> (1 <= len)%nat -> left + pris lens (len - 1) = 2 ^ Z.of_nat (len - 1) -> 0 <= left ->
  reste_codes n len c left = inr r ->
  forall k, (len - 1 <= k <= MAXBITS)%nat -> pris lens k <= 2 ^ Z.of_nat k.
Proof.
  intros [Hl Hc]. induction n as [|n IH]; intros len left r Hn H1 Hk H0; cbn [reste_codes].
  { intros _ k Hr. replace k with (len - 1)%nat by lia. lia. }
  rewrite Z.shiftl_mul_pow2, Hc by lia. destruct (Z.ltb_spec (left * 2 ^ 1 - nb (Z.of_nat len) lens) 0); [done|].
  intros Hr k Hrange. destruct (decide (k = len - 1)%nat) as [->|]; [lia|].
  eapply (IH (S len)); [lia|lia| |exact H|exact Hr|lia].
  destruct len as [|j]; [lia|]. replace (S (S j) - 1)%nat with (S j) by lia.
  replace (S j - 1)%nat with j in * by lia. rewrite pris_S, (Nat2Z.inj_succ j), Z.pow_succ_r by lia.
  rewrite Nat2Z.inj_succ in *. lia.
Qed.

Lemma code_borne lens c r s l :
  comptes c lens -> reste_codes MAXBITS 1 c 1 = inr r -> lens !! s = Some l -> 1 <= l <= 15 ->
  premier lens (Z.to_nat l) <= code_de lens s l < pris lens (Z.to_nat l) /\
  pris lens (Z.to_nat l) <= 2 ^ Z.of_nat (Z.to_nat l).
Proof.
  intros Hc Hr Hs Hl. split.
  - unfold code_de, pris. pose proof (nb_elem _ _ _ Hs). pose proof (nb_pos l (take s lens)).
    destruct (Z.to_nat l) as [|j] eqn:E; [lia|]. replace (Z.of_nat (S j)) with l by lia. lia.
  - eapply (kraft lens c MAXBITS Hc 1 1 r); [done|lia|done|lia|done|unfold MAXBITS; lia].
Qed.

(** One bit. *)
Lemma bits_un b f br :
  br_ok br -> flux br = b :: f ->
  exists br', bits 1 br = (br', inl (Z.b2z b)) /\ br_ok br' /\ flux br' = f.
Proof.
  intros Hb Hf. pose proof (bits_spec 1 br Hb ltac:(lia)) as H. rewrite Hf in H.
  destruct (bits 1 br) as [br' [v|[]]].
  - destruct H as (_ & -> & Hb' & _ & Hf'). exists br'. split_and!; [|done|done].
    by destruct b.
  - cbn in H. lia.
  - done.
Qed.

Lemma rev_bits_of_S k z : rev (bits_of (S k) z) = Z.testbit z (Z.of_nat k) :: rev (bits_of k z).
Proof.
  replace (S k) with (k + 1)%nat by lia. rewrite bits_of_app, rev_app_distr. cbn [bits_of rev app].
  by rewrite <- Z.bit0_odd, Z.shiftr_spec, Z.add_0_l by lia.
Qed.
Lemma shiftr_S z k : 0 <= z ->
  Z.shiftr z (Z.of_nat k) = 2 * Z.shiftr z (Z.of_nat (S k)) + Z.b2z (Z.testbit z (Z.of_nat k)).
Proof.
  intros Hz. rewrite Nat2Z.inj_succ. rewrite <- Z.add_1_r, <- Z.shiftr_shiftr by lia.
  rewrite <- Z.div2_spec. rewrite <- (Z.add_0_l (Z.of_nat k)) at 3. rewrite <- Z.shiftr_spec by lia.
  rewrite Z.bit0_odd. apply Z.div2_odd.
Qed.

(** The loop of [decode] on the bits of a canonical code, after [len - 1] of them. *)
Lemma decode_depuis_canon lens h r s l n : comptes (count h) lens ->
  reste_codes MAXBITS 1 (count h) 1 = inr r -> lens !! s = Some l -> 1 <= l <= 15 ->
  symbol h !! Z.to_nat (place (count h) lens s l) = Some (Z.of_nat s) ->
  forall k len f br, (len + n = S MAXBITS)%nat -> (len + k = Z.to_nat l)%nat -> (1 <= len)%nat -> br_ok br ->
  flux br = rev (bits_of (S k) (code_de lens s l)) ++ f ->
  exists br', decode_depuis n h len (2 * Z.shiftr (code_de lens s l) (Z.of_nat (S k))) (premier lens len)
                (somme (count h) (len - 1)) br = (br', inl (Z.of_nat s)) /\ br_ok br' /\ flux br' = f.
Proof.
  intros Hc Hr Hs Hl Hy. destruct (code_borne _ _ _ _ _ Hc Hr Hs Hl) as [Hcode Hk15].
  assert (0 <= code_de lens s l) as Hc0.
  { unfold code_de. pose proof (nb_pos l (take s lens)). destruct (Z.to_nat l) as [|j]; cbn [premier]; [lia|].
    pose proof (pris_pos lens j). unfold pris in *. lia. }
  induction n as [|n IH]; intros k len f br Hn Hk H1 Hb Hf; [unfold MAXBITS in *; lia|].
  cbn [decode_depuis]. rewrite rev_bits_of_S in Hf. cbn [app] in Hf.
  destruct (bits_un _ _ _ Hb Hf) as (br1 & E1 & Hb1 & Hf1). rewrite (lie_pas _ _ _ _ _ E1).
  rewrite lor_bit, <- shiftr_S by (try apply Z.shiftr_nonneg; try done; destruct (Z.testbit _ _); cbn; lia).
  assert (count h !! len = Some (nb (Z.of_nat len) lens)) as Hlen.
  { destruct Hc as [Hcl Hcc]. destruct (lookup_lt_is_Some_2 (count h) len) as [x Hx]; [unfold MAXBITS in *; lia|].
    specialize (Hcc len ltac:(unfold MAXBITS in *; lia)). rewrite Hx in Hcc. cbn in Hcc. by subst. }
  rewrite Hlen. set (z := code_de lens s l) in *.
  destruct k as [|k].
  - (* the last bit *)
    assert (len = Z.to_nat l) as El by lia. rewrite Z.shiftr_0_r. clear Hlen.
    unfold pris in Hcode. rewrite El. destruct (Z.to_nat l) as [|j] eqn:Ej; [lia|].
    replace (Z.of_nat (S j)) with l in * by lia.
    destruct (Z.ltb_spec (z - nb l lens) (premier lens (S j))); [|lia].
    pose proof (place_borne _ _ _ _ Hc Hs Hl) as Hpl. pose proof (comptes_pos _ _ Hc) as Hp.
    pose proof (somme_mono (count h) 0 (Z.to_nat l - 1) Hp ltac:(lia)) as H0. cbn in H0.
    assert (somme (count h) (S j - 1) + (z - premier lens (S j)) = place (count h) lens s l) as Epl.
    { unfold place, z, code_de. rewrite Ej. lia. }
    rewrite Epl. destruct (Z.ltb_spec (place (count h) lens s l) 0); [lia|]. rewrite Hy.
    by exists br1.
  - (* not the last: the code is above those of this length *)
    assert (pris lens len <= Z.shiftr z (Z.of_nat (S k))) as Hge.
    { rewrite Z.shiftr_div_pow2 by lia. apply Z.div_le_lower_bound; [lia|].
      destruct (Z.to_nat l) as [|j] eqn:Ej; [lia|].
      pose proof (pris_mono lens len j ltac:(lia)) as Hm. cbn [premier] in Hcode.
      change (premier lens j + match j with 0%nat => 0 | S _ => nb (Z.of_nat j) lens end) with (pris lens j) in Hcode.
      replace (Z.of_nat (S k)) with (Z.succ (Z.of_nat (j - len))) by lia. rewrite Z.pow_succ_r by lia. lia. }
    assert (pris lens len = premier lens len + nb (Z.of_nat len) lens) as Epr.
    { unfold pris. destruct len; [lia|done]. }
    destruct (Z.ltb_spec (Z.shiftr z (Z.of_nat (S k)) - nb (Z.of_nat len) lens) (premier lens len)); [lia|].
    destruct (IH k (S len) f br1) as (br2 & E2 & Hb2 & Hf2); [lia|lia|lia|done|done|].
    exists br2. split; [|done]. rewrite <- E2. rewrite !Z.shiftl_mul_pow2 by lia. f_equal.
    + lia.
    + cbn [premier]. destruct len; [lia|]. lia.
    + replace (S len - 1)%nat with len by lia. destruct len as [|j]; [lia|]. cbn [somme Nat.sub].
      rewrite Nat.sub_0_r, Hlen. done.
Qed.

(** The bits of a symbol, read by the tables. *)
Lemma decode_canon n lens r h s l f br :
  Forall longueur_ok lens -> (length lens <= n)%nat ->
  construct (huffman_new n) lens = Some (r, h) -> 0 <= r ->
  lens !! s = Some l -> l <> 0 ->
  br_ok br -> flux br = mot_de lens s ++ f ->
  exists br', decode h br = (br', inl (Z.of_nat s)) /\ br_ok br' /\ flux br' = f.
Proof.
  intros Hok Hn Hcons Hr Hs Hl Hb Hf.
  destruct (construct_spec n lens Hok Hn) as (r' & h' & E & Hh & Hc & Hspec). rewrite Hcons in E. simplify_eq.
  assert (longueur_ok l) as Hlo by (exact (Forall_lookup_1 _ _ _ _ Hok Hs)). unfold longueur_ok in Hlo.
  destruct Hspec as [Hrc Hy]; [|done|].
  { pose proof (somme_nb (count h') lens (Z.to_nat l) Hc ltac:(unfold MAXBITS; lia)) as Hsn.
    pose proof (place_borne _ _ _ _ Hc Hs ltac:(lia)) as Hpl.
    pose proof (somme_mono (count h') 0 (Z.to_nat l - 1) (comptes_pos _ _ Hc) ltac:(lia)) as H0. cbn in H0. lia. }
  unfold mot_de in Hf. rewrite Hs in Hf.
  destruct (decode_depuis_canon lens h' r' s l MAXBITS Hc Hrc Hs ltac:(lia) (Hy s l Hs Hl)
    (Z.to_nat l - 1) 1 f br) as (br' & E' & Hb' & Hf'); [done|lia|lia|done| |].
  { rewrite Hf. do 3 f_equal. lia. }
  exists br'. split; [|done].
  assert (Z.shiftr (code_de lens s l) (Z.of_nat (S (Z.to_nat l - 1))) = 0) as Hz; [|by rewrite Hz in E'].
  destruct (code_borne _ _ _ _ _ Hc Hrc Hs ltac:(lia)) as [Hcode Hk].
  rewrite Z.shiftr_div_pow2 by lia. apply Z.div_small.
  replace (S (Z.to_nat l - 1)) with (Z.to_nat l) by lia. split; [|lia].
  unfold code_de. pose proof (nb_pos l (take s lens)). destruct (Z.to_nat l) as [|j]; cbn [premier]; [lia|].
  pose proof (pris_pos lens j). unfold pris in *. lia.
Qed.

(** ** Literals and copies *)

(** What a compressed block says: a literal, or a copy given by its length symbol, its
    distance symbol and their extra bits. *)
Inductive Jeton := Lit (b : nat) | Copie (s : nat) (x : Z) (d : nat) (y : Z).

(** Its meaning on what has been written. *)
Definition sens (out : list Z) (j : Jeton) : option (list Z) :=
  match j with
  | Lit b => if (b <? 256)%nat then Some (out ++ [Z.of_nat b]) else None
  | Copie s x d y =>
      match LENS !! s, LEXT !! s, DISTS !! d, DEXT !! d with
      | Some base, Some ext, Some dbase, Some dext =>
          if (0 <=? x) && (x <? 2 ^ ext) && (0 <=? y) && (y <? 2 ^ dext)
             && (dbase + y <=? Z.of_nat (length out))
          then recopie (Z.to_nat (base + x)) out (length out - Z.to_nat (dbase + y))
          else None
      | _, _, _, _ => None
      end
  end.
Fixpoint sens_tout (out : list Z) (js : list Jeton) : option (list Z) :=
  match js with
  | [] => Some out
  | j :: js => match sens out j with Some out => sens_tout out js | None => None end
  end.

(** Its bits, for given code lengths. *)
Definition mots (lens dlens : list Z) (j : Jeton) : list bool :=
  match j with
  | Lit b => mot_de lens b
  | Copie s x d y =>
      mot_de lens (257 + s) ++ bits_of (Z.to_nat (default 0 (LEXT !! s))) x ++
      mot_de dlens d ++ bits_of (Z.to_nat (default 0 (DEXT !! d))) y
  end.

Definition a_un_code (lens : list Z) (s : nat) : Prop := exists l, lens !! s = Some l /\ l <> 0.
Definition codable (lens dlens : list Z) (j : Jeton) : Prop :=
  match j with
  | Lit b => a_un_code lens b
  | Copie s _ d _ => a_un_code lens (257 + s) /\ a_un_code dlens d
  end.

Lemma bits_lus need x f br :
  br_ok br -> 0 <= need <= 24 -> 0 <= x < 2 ^ need -> flux br = bits_of (Z.to_nat need) x ++ f ->
  exists br', bits need br = (br', inl x) /\ br_ok br' /\ flux br' = f.
Proof.
  intros Hb Hn Hx Hf. pose proof (bits_spec need br Hb Hn) as H. rewrite Hf in H.
  assert (length (bits_of (Z.to_nat need) x) = Z.to_nat need) as Hl by apply length_bits_of.
  destruct (bits need br) as [br' [v|[]]]; [|exfalso|done].
  - destruct H as (_ & -> & Hb' & _ & Hf'). exists br'. split_and!; [|done|].
    + rewrite take_app_length' by done. rewrite val_bits_of; [done|]. by rewrite Z2Nat.id by lia.
    + by rewrite Hf', drop_app_length'.
  - rewrite length_app in H. lia.
Qed.

Section Tables.
(** A pair of codes that do not exceed the code space, and their tables. *)
Context (n dn : nat) (lens dlens : list Z) (r dr : Z) (h hd : Huffman).
Context (Hok : Forall longueur_ok lens) (Hn : (length lens <= n)%nat)
  (Hc : construct (huffman_new n) lens = Some (r, h)) (Hr : 0 <= r).
Context (Hdok : Forall longueur_ok dlens) (Hdn : (length dlens <= dn)%nat)
  (Hdc : construct (huffman_new dn) dlens = Some (dr, hd)) (Hdr : 0 <= dr).

Lemma decode_symbole s f br :
  a_un_code lens s -> br_ok br -> flux br = mot_de lens s ++ f ->
  exists br', decode h br = (br', inl (Z.of_nat s)) /\ br_ok br' /\ flux br' = f.
Proof. intros (l & Hl & Hz) Hb Hf. exact (decode_canon n lens r h s l f br Hok Hn Hc Hr Hl Hz Hb Hf). Qed.
Lemma decode_distance s f br :
  a_un_code dlens s -> br_ok br -> flux br = mot_de dlens s ++ f ->
  exists br', decode hd br = (br', inl (Z.of_nat s)) /\ br_ok br' /\ flux br' = f.
Proof. intros (l & Hl & Hz) Hb Hf. exact (decode_canon dn dlens dr hd s l f br Hdok Hdn Hdc Hdr Hl Hz Hb Hf). Qed.

Lemma reference_lue s x d y out out' f br :
  sens out (Copie s x d y) = Some out' -> a_un_code dlens d -> br_ok br ->
  flux br = bits_of (Z.to_nat (default 0 (LEXT !! s))) x ++ mot_de dlens d ++
            bits_of (Z.to_nat (default 0 (DEXT !! d))) y ++ f ->
  exists br', reference h hd s out br = (br', inl out') /\ br_ok br' /\ flux br' = f /\ (s < 29)%nat.
Proof.
  intros Hs Hd Hb Hf. unfold sens in Hs.
  destruct (LENS !! s) as [base|] eqn:Eb; [|done]. destruct (LEXT !! s) as [ext|] eqn:Ee; [|done].
  destruct (DISTS !! d) as [db|] eqn:Edb; [|done]. destruct (DEXT !! d) as [de|] eqn:Ede; [|done].
  assert (s < 29)%nat as Hs29 by (apply lookup_lt_Some in Eb; exact Eb).
  assert (d < 30)%nat as Hd30 by (apply lookup_lt_Some in Edb; exact Edb).
  destruct (tables_longueurs s Hs29) as (b' & e' & Eb' & Ee' & He & Hb0 & _).
  destruct (tables_distances d Hd30) as (db' & de' & Edb' & Ede' & Hde & Hdb).
  rewrite Eb' in Eb. rewrite Ee' in Ee. rewrite Edb' in Edb. rewrite Ede' in Ede.
  injection Eb as <-. injection Ee as <-. injection Edb as <-. injection Ede as <-.
  destruct ((0 <=? x) && (x <? 2 ^ e') && (0 <=? y) && (y <? 2 ^ de') &&
    (db' + y <=? Z.of_nat (length out))) eqn:E; [|done]. bool_prop. cbn [default] in Hf.
  destruct (bits_lus e' x _ br Hb ltac:(lia) ltac:(lia) Hf) as (br1 & E1 & Hb1 & Hf1).
  destruct (decode_distance d _ br1 Hd Hb1 Hf1) as (br2 & E2 & Hb2 & Hf2).
  destruct (bits_lus de' y _ br2 Hb2 ltac:(lia) ltac:(lia) Hf2) as (br3 & E3 & Hb3 & Hf3).
  exists br3. split_and!; [|done|done|done]. unfold reference.
  rewrite Eb', Ee'. cbn [ou_echoue]. rewrite (lie_pas _ _ br br b') by done.
  rewrite (lie_pas _ _ br br e') by done. rewrite (lie_pas _ _ _ _ _ E1), (lie_pas _ _ _ _ _ E2).
  rewrite (proj2 (Z.ltb_ge _ _)), (proj2 (Z.leb_gt _ _)) by lia. cbn [orb garde].
  rewrite (lie_pas _ _ br2 br2 tt) by done. rewrite Nat2Z.id, Edb', Ede'. cbn [ou_echoue].
  rewrite (lie_pas _ _ br2 br2 db') by done. rewrite (lie_pas _ _ br2 br2 de') by done.
  rewrite (lie_pas _ _ _ _ _ E3). cbv zeta.
  rewrite (proj2 (Z.ltb_ge _ _)) by lia. cbn [garde]. rewrite (lie_pas _ _ br3 br3 tt) by done.
  by rewrite Hs.
Qed.

(** A sequence of literals and copies and the end symbol. *)
Lemma codes_jetons js : forall fuel out out' f br,
  sens_tout out js = Some out' -> Forall (codable lens dlens) js -> a_un_code lens 256 ->
  (length js < fuel)%nat -> br_ok br ->
  flux br = concat (mots lens dlens <$> js) ++ mot_de lens 256 ++ f ->
  exists br', codes fuel h hd out br = (br', inl out') /\ br_ok br' /\ flux br' = f.
Proof.
  induction js as [|j js IH]; intros fuel out out' f br Hs Hcod Hend Hfu Hb Hf;
    (destruct fuel as [|fuel]; [cbn in Hfu; lia|]); cbn [codes].
  { cbn in Hs, Hf. simplify_eq. destruct (decode_symbole 256 f br Hend Hb Hf) as (br1 & E1 & Hb1 & Hf1).
    rewrite (lie_pas _ _ _ _ _ E1). exists br1. by split_and!. }
  cbn [sens_tout] in Hs. destruct (sens out j) as [out1|] eqn:Ej; [|done].
  inversion Hcod as [|? ? Hj Hjs]; subst. rewrite fmap_cons in Hf. cbn [concat] in Hf. rewrite <- app_assoc in Hf.
  destruct j as [b|s x d y]; cbn [mots codable] in *.
  - destruct (decode_symbole b _ br Hj Hb Hf) as (br1 & E1 & Hb1 & Hf1). rewrite (lie_pas _ _ _ _ _ E1).
    cbn [sens] in Ej. destruct (Nat.ltb_spec b 256); [|done]. simplify_eq.
    destruct (Z.ltb_spec (Z.of_nat b) 0); [lia|]. destruct (Z.ltb_spec (Z.of_nat b) 256); [|lia].
    apply (IH fuel (out ++ [Z.of_nat b]) out' f br1); try done. cbn in Hfu. lia.
  - destruct Hj as [Hj Hd]. rewrite <- !app_assoc in Hf.
    destruct (decode_symbole (257 + s) _ br Hj Hb Hf) as (br1 & E1 & Hb1 & Hf1). rewrite (lie_pas _ _ _ _ _ E1).
    destruct (reference_lue s x d y out out1 _ br1 Ej Hd Hb1 Hf1) as (br2 & E2 & Hb2 & Hf2 & Hs29).
    destruct (Z.ltb_spec (Z.of_nat (257 + s)) 0); [lia|]. destruct (Z.ltb_spec (Z.of_nat (257 + s)) 256); [lia|].
    destruct (Z.eqb_spec (Z.of_nat (257 + s)) 256); [lia|].
    destruct (Z.leb_spec 29 (Z.of_nat (257 + s) - 257)); [lia|].
    replace (Z.to_nat (Z.of_nat (257 + s) - 257)) with s by lia. rewrite (lie_pas _ _ _ _ _ E2).
    apply (IH fuel out1 out' f br2); try done. cbn in Hfu. lia.
Qed.
End Tables.

(** ** What a compressor writes *)

Inductive Bloc := Stocke (d : list Z) | Fixe (js : list Jeton).
Abbreviation dlens_fixes := (replicate 30 5).

Definition bourrage (pos : nat) : nat := ((8 - pos mod 8) mod 8)%nat.
(** The body of a block whose type bits start at bit [pos]. *)
Definition ecrit_bloc (pos : nat) (b : Bloc) : list bool :=
  match b with
  | Stocke d =>
      bits_of 2 0 ++ replicate (bourrage (pos + 2)) false ++
      bits_octets (Z.of_nat (length d) mod 256 :: Z.of_nat (length d) / 256 ::
                   (65535 - Z.of_nat (length d)) mod 256 :: (65535 - Z.of_nat (length d)) / 256 :: d)
  | Fixe js =>
      bits_of 2 1 ++ concat (mots longueurs_fixes dlens_fixes <$> js) ++ mot_de longueurs_fixes 256
  end.
Fixpoint ecrit (pos : nat) (bs : list Bloc) : list bool :=
  match bs with
  | [] => []
  | b :: bs =>
      let e := (match bs with [] => true | _ => false end) :: ecrit_bloc (S pos) b in
      e ++ ecrit (pos + length e) bs
  end.
Fixpoint octets_de (n : nat) (l : list bool) : list Z :=
  match n with O => [] | S n => val_of (take 8 l) :: octets_de n (drop 8 l) end.
Definition compresse (bs : list Bloc) : list Z :=
  let e := ecrit 0 bs in octets_de ((length e + bourrage (length e)) / 8) (e ++ replicate (bourrage (length e)) false).

Definition sens_bloc (out : list Z) (b : Bloc) : option (list Z) :=
  match b with Stocke d => Some (out ++ d) | Fixe js => sens_tout out js end.
Fixpoint sens_blocs (out : list Z) (bs : list Bloc) : option (list Z) :=
  match bs with
  | [] => Some out
  | b :: bs => match sens_bloc out b with Some out => sens_blocs out bs | None => None end
  end.
Definition bloc_ok (b : Bloc) : Prop :=
  match b with Stocke d => Z.of_nat (length d) < 65536 /\ Forall octet d | Fixe _ => True end.

Example compresse_ex : compresse [Fixe [Lit 97; Copie 6 0 0 0]] = [75; 132; 3; 0].
Proof. vm_compute. reflexivity. Qed.
Example compresse_relu :
  inflate (compresse [Stocke [1; 2]; Fixe [Lit 97; Copie 6 0 0 0; Lit 200]; Stocke []; Stocke [7; 8]]) =
  inl ([1; 2] ++ replicate 10 97 ++ [200; 7; 8]).
Proof. vm_compute. reflexivity. Qed.

Lemma bourrage_spec pos : ((pos + bourrage pos) mod 8 = 0)%nat /\ (bourrage pos < 8)%nat.
Proof.
  unfold bourrage. pose proof (Nat.mod_upper_bound pos 8). pose proof (Nat.div_mod_eq pos 8).
  pose proof (Nat.mod_upper_bound (8 - pos mod 8) 8). pose proof (Nat.div_mod_eq (8 - pos mod 8) 8).
  split; [|lia]. apply Nat.Div0.mod_divides. exists (pos / 8 + (if (pos mod 8 =? 0)%nat then 0 else 1))%nat.
  destruct (Nat.eqb_spec (pos mod 8) 0) as [E|E].
  - rewrite E in *. cbn [Nat.sub] in *. change (8 mod 8)%nat with 0%nat in *. lia.
  - rewrite (Nat.mod_small (8 - pos mod 8) 8) in * by lia. lia.
Qed.

Lemma bits_octets_app l1 l2 : bits_octets (l1 ++ l2) = bits_octets l1 ++ bits_octets l2.
Proof. induction l1 as [|b l IH]; [done|]. cbn [app bits_octets]. by rewrite IH, app_assoc. Qed.
Lemma octets_de_bits n : forall l, length l = (8 * n)%nat -> bits_octets (octets_de n l) = l.
Proof.
  induction n as [|n IH]; intros l Hl; [by destruct l|]. cbn [octets_de bits_octets].
  rewrite IH by (rewrite length_drop; lia).
  assert (length (take 8 l) = 8%nat) as Ht by (rewrite length_take; lia).
  rewrite <- Ht at 1. by rewrite bits_val_of, take_drop.
Qed.
Lemma octets_de_ok n : forall l, Forall octet (octets_de n l).
Proof.
  induction n as [|n IH]; intros l; cbn [octets_de]; constructor; [|done].
  pose proof (val_of_bound (take 8 l)) as H. rewrite length_take in H. split; [lia|].
  assert (2 ^ Z.of_nat (8 `min` length l) <= 2 ^ 8) by (apply Z.pow_le_mono_r; lia). lia.
Qed.
(** Octets are determined by their bits. *)
Lemma bits_octets_prefixe l : forall m f, Forall octet l -> Forall octet m ->
  bits_octets m = bits_octets l ++ f -> exists r, m = l ++ r /\ f = bits_octets r.
Proof.
  induction l as [|b l IH]; intros m f Hl Hm H; [by exists m|].
  destruct m as [|c m]; [done|]. cbn [bits_octets] in H. rewrite <- app_assoc in H.
  apply app_inj_1 in H as [Hbc H]; [|by rewrite !length_bits_of].
  inversion Hl as [|? ? Hb Hl']; inversion Hm as [|? ? Hc Hm']; subst.
  destruct (IH m f Hl' Hm' H) as (r & -> & ->). exists r. split; [|done]. cbn [app]. f_equal.
  rewrite <- (val_bits_of 8 c), Hbc; [|done]. by apply val_bits_of.
Qed.
End InflateCanon.

(** Decompression reads back what a compressor writes: stored and fixed blocks, the zlib and
    gzip containers; and the claims on the decoder. *)

Module InflateRetour.
Import Inflate InflateProofs InflateCanon.
Open Scope Z_scope.
Open Scope os_scope.

(** A reader aligned on the position [pos] of the writer. *)
Definition aligne (pos : nat) (br : BitReader) : Prop :=
  br_ok br /\ ((pos + length (flux br)) mod 8 = 0)%nat.

Lemma aligne_reste pos br : aligne pos br -> bitcnt br = Z.of_nat (bourrage pos).
Proof.
  intros [Hb Hm]. pose proof (length_flux br Hb) as Hl. destruct Hb as (_ & _ & Hc & _).
  destruct (bourrage_spec pos) as [Hm' Hlt].
  apply Nat.Div0.mod_divides in Hm as [a Ha]. apply Nat.Div0.mod_divides in Hm' as [b Hb]. lia.
Qed.
Lemma aligne_suite pos br l f br' :
  aligne pos br -> flux br = l ++ f -> br_ok br' -> flux br' = f -> aligne (pos + length l) br'.
Proof.
  intros [_ Hm] Hf Hb Hf'. split; [done|]. rewrite Hf, length_app in Hm. rewrite Hf'. by rewrite <- Nat.add_assoc.
Qed.

(** ** Blocks *)

Lemma stored_relu d out pos f br :
  bloc_ok (Stocke d) -> aligne pos br ->
  flux br = replicate (bourrage pos) false ++
    bits_octets (Z.of_nat (length d) mod 256 :: Z.of_nat (length d) / 256 ::
                 (65535 - Z.of_nat (length d)) mod 256 :: (65535 - Z.of_nat (length d)) / 256 :: d) ++ f ->
  exists br', stored out br = (br', inl (out ++ d)) /\ br_ok br' /\ flux br' = f.
Proof.
  intros [Hd Ho] Ha Hf. pose proof (aligne_reste _ _ Ha) as Hc. destruct Ha as [(Hoc & Hi & _ & _) _].
  unfold flux in Hf. apply app_inj_1 in Hf as [_ Hf].
  2: { by rewrite length_bits_of, length_replicate, Hc, Nat2Z.id. }
  set (n := Z.of_nat (length d)) in *.
  apply bits_octets_prefixe in Hf as (r & Hr & ->).
  2: { repeat constructor; try done; Z.to_euclidean_division_equations; lia. }
  2: { by apply Forall_drop. }
  assert (forall i, data br !! (incnt br + i)%nat = drop (incnt br) (data br) !! i) as Hlk
    by (intros i; by rewrite lookup_drop).
  assert (length (data br) = incnt br + (4 + length d + length r))%nat as Hlen.
  { pose proof (f_equal length Hr) as H. rewrite length_drop, length_app in H. cbn [length] in H. lia. }
  assert (Z.to_nat (Z.lor (n mod 256) (Z.shiftl (n / 256) 8)) = length d) as Hn.
  { rewrite Z.lor_comm, Z.shiftl_mul_pow2 by lia. rewrite lor_disjoint; Z.to_euclidean_division_equations; lia. }
  unfold stored, lie, change, etat_courant. cbn [data incnt bitbuf bitcnt].
  unfold garde. destruct (Nat.ltb_spec (length (data br)) (incnt br + 4)); [lia|].
  pose proof (Hlk 0%nat) as H0. pose proof (Hlk 1%nat) as H1. rewrite Hr in H0, H1.
  rewrite Nat.add_0_r in H0. rewrite Nat.add_1_r in H1. cbn in H0, H1. rewrite H0, H1. cbn [ou_echoue rend]. cbv zeta. rewrite Hn.
  destruct (Nat.ltb_spec (length (data br)) (incnt br + 4 + length d)); [lia|]. cbn [rend].
  assert (drop (incnt br + 4) (data br) = d ++ r) as Hdr by (rewrite <- drop_drop, Hr; done).
  eexists. split; [|split].
  - unfold slice. rewrite Hdr, take_app_length. reflexivity.
  - split_and!; cbn; [done|lia|lia|lia|lia|lia].
  - unfold flux. cbn [data incnt bitcnt bitbuf]. rewrite <- drop_drop, Hdr, drop_app_length. done.
Qed.

Lemma fixes_codes s : (s < 288)%nat -> a_un_code longueurs_fixes s.
Proof.
  intros Hs. destruct (lookup_lt_is_Some_2 longueurs_fixes s) as [l Hl]; [exact Hs|]. exists l. split; [done|].
  assert (Forall (fun l => l <> 0) longueurs_fixes) as H; [|exact (Forall_lookup_1 _ _ _ _ H Hl)].
  unfold longueurs_fixes. rewrite !Forall_app. split_and!; by apply Forall_replicate.
Qed.
Lemma fixes_distances d : (d < 30)%nat -> a_un_code dlens_fixes d.
Proof. intros Hd. exists 5. split; [|done]. by apply lookup_replicate_2. Qed.
(** What has a meaning has a code in a fixed block. *)
Lemma sens_codable js : forall out out', sens_tout out js = Some out' ->
  Forall (codable longueurs_fixes dlens_fixes) js.
Proof.
  induction js as [|j js IH]; intros out out' H; constructor; cbn [sens_tout] in H;
    (destruct (sens out j) as [o|] eqn:E; [|done]).
  - destruct j as [b|s x d y]; cbn [codable]; unfold sens in E.
    + destruct (Nat.ltb_spec b 256); [|done]. apply fixes_codes. lia.
    + destruct (LENS !! s) eqn:Es; [|done]. destruct (LEXT !! s); [|done].
      destruct (DISTS !! d) eqn:Ed; [|done]. apply lookup_lt_Some in Es, Ed. cbn in Es, Ed.
      split; [apply fixes_codes|apply fixes_distances]; lia.
  - exact (IH _ _ H).
Qed.

Lemma mot_non_vide lens s : Forall longueur_ok lens -> a_un_code lens s -> (1 <= length (mot_de lens s))%nat.
Proof.
  intros Hok (l & Hl & Hz). unfold mot_de. rewrite Hl, length_rev, length_bits_of.
  assert (longueur_ok l) as H by (exact (Forall_lookup_1 _ _ _ _ Hok Hl)). unfold longueur_ok in H. lia.
Qed.
Lemma jetons_bits js : Forall (codable longueurs_fixes dlens_fixes) js ->
  (length js <= length (concat (mots longueurs_fixes dlens_fixes <$> js)))%nat.
Proof.
  induction 1 as [|j js Hj _ IH]; [done|]. rewrite fmap_cons. cbn [concat length]. rewrite length_app.
  assert (1 <= length (mots longueurs_fixes dlens_fixes j))%nat; [|lia].
  destruct j as [b|s x d y]; cbn [codable mots] in *; rewrite ?length_app.
  - by apply mot_non_vide; [apply longueurs_fixes_ok|].
  - destruct Hj as [Hj _]. pose proof (mot_non_vide _ _ longueurs_fixes_ok Hj). lia.
Qed.

(** The two codes of a fixed block leave the code space unexceeded. *)
Lemma construct_reste n lens : Forall longueur_ok lens -> (length lens <= n)%nat ->
  match construct (huffman_new n) lens with Some (r, _) => 0 <=? r | None => false end = true ->
  exists r h, construct (huffman_new n) lens = Some (r, h) /\ 0 <= r.
Proof.
  intros Hok Hn. destruct (construct_ok n lens Hok Hn) as (r & h & -> & _). intros H. bool_prop. eauto.
Qed.

Lemma fixed_relu js fuel out out' f br :
  sens_tout out js = Some out' -> (length js < fuel)%nat -> br_ok br ->
  flux br = concat (mots longueurs_fixes dlens_fixes <$> js) ++ mot_de longueurs_fixes 256 ++ f ->
  exists br', fixed fuel out br = (br', inl out') /\ br_ok br' /\ flux br' = f.
Proof.
  intros Hs Hfu Hb Hf. unfold fixed. change (Z.to_nat MAXDCODES) with 30%nat.
  destruct (construct_reste FIXLCODES longueurs_fixes longueurs_fixes_ok) as (r & h & E1 & Hr);
    [vm_compute; lia|vm_compute; reflexivity|].
  assert (Forall longueur_ok dlens_fixes) as Hdok by (apply longueurs_replicate; unfold longueur_ok; lia).
  destruct (construct_reste 30 dlens_fixes Hdok) as (r' & h' & E2 & Hr'); [by rewrite length_replicate|vm_compute; reflexivity|].
  rewrite E1, E2.
  eapply (codes_jetons FIXLCODES 30 longueurs_fixes dlens_fixes r r' h h');
    [apply longueurs_fixes_ok|apply Nat.leb_le; vm_compute; reflexivity|exact E1|exact Hr|exact Hdok
    |by rewrite length_replicate|exact E2|exact Hr'|exact Hs|exact (sens_codable _ _ _ Hs)
    |apply fixes_codes; lia|exact Hfu|exact Hb|exact Hf].
Qed.

(** The body of a block, from its type. *)
Lemma bloc_relu b fuel out out' pos f br :
  bloc_ok b -> sens_bloc out b = Some out' -> aligne pos br -> flux br = ecrit_bloc pos b ++ f ->
  (length (flux br) < fuel)%nat ->
  exists btype br0 br', bits 2 br = (br0, inl btype) /\
    (if btype =? 0 then stored out else if btype =? 1 then fixed fuel out
     else if btype =? 2 then dynamic fuel out else echoue Erreur) br0 = (br', inl out') /\
    br_ok br' /\ flux br' = f.
Proof.
  intros Hok Hs Ha Hf Hfu. destruct b as [d|js]; cbn [ecrit_bloc sens_bloc] in *; rewrite <- !app_assoc in Hf.
  - destruct (bits_lus 2 0 _ br (proj1 Ha) ltac:(lia) ltac:(lia) Hf) as (br0 & E0 & Hb0 & Hf0).
    exists 0, br0. pose proof (aligne_suite _ _ _ _ _ Ha Hf Hb0 Hf0) as Ha0.
    change (length (bits_of (Z.to_nat 2) 0)) with 2%nat in Ha0. simplify_eq.
    destruct (stored_relu d out _ f br0 Hok Ha0 Hf0) as (br' & E & Hb' & Hf').
    exists br'. split; [exact E0|]. split; [exact E|]. by split.
  - destruct (bits_lus 2 1 _ br (proj1 Ha) ltac:(lia) ltac:(lia) Hf) as (br0 & E0 & Hb0 & Hf0).
    exists 1, br0. assert (length js < fuel)%nat as Hj.
    { pose proof (jetons_bits js (sens_codable _ _ _ Hs)) as Hj. rewrite Hf, !length_app in Hfu. lia. }
    destruct (fixed_relu js fuel out out' f br0 Hs Hj Hb0 Hf0) as (br' & E & Hb' & Hf').
    exists br'. split; [exact E0|]. split; [exact E|]. by split.
Qed.

Lemma ecrit_relu bs : forall blocs fuel pos out out' f br,
  bs <> [] -> Forall bloc_ok bs -> sens_blocs out bs = Some out' -> aligne pos br ->
  flux br = ecrit pos bs ++ f -> (length bs <= blocs)%nat -> (length (flux br) < fuel)%nat ->
  exists br', inflate_depuis blocs fuel out br = (br', inl out').
Proof.
  induction bs as [|b bs IH]; intros blocs fuel pos out out' f br Hne Hok Hs Ha Hf Hbl Hfu; [done|].
  destruct blocs as [|blocs]; [cbn in Hbl; lia|]. inversion Hok as [|? ? Hb Hbs]; subst. clear Hne.
  cbn [sens_blocs] in Hs. destruct (sens_bloc out b) as [out1|] eqn:Eb; [|done].
  cbn [ecrit] in Hf. cbv zeta in Hf. set (e := ecrit_bloc (S pos) b) in *.
  set (dern := match bs with [] => true | _ => false end) in *. cbn [app] in Hf. rewrite <- app_assoc in Hf.
  destruct (bits_un _ _ _ (proj1 Ha) Hf) as (br1 & E1 & Hb1 & Hf1).
  pose proof (aligne_suite _ _ [dern] _ _ Ha Hf Hb1 Hf1) as Ha1. cbn [length] in Ha1. rewrite Nat.add_1_r in Ha1.
  destruct (bloc_relu b fuel out out1 (S pos) _ br1 Hb Eb Ha1 Hf1) as (bt & br2 & br3 & E2 & E3 & Hb3 & Hf3).
  { rewrite Hf in Hfu. cbn [length] in Hfu. rewrite Hf1. exact (Nat.lt_succ_l _ _ Hfu). }
  cbn [inflate_depuis]. rewrite (lie_pas _ _ _ _ _ E1), (lie_pas _ _ _ _ _ E2), (lie_pas _ _ _ _ _ E3).
  destruct bs as [|b' bs].
  - cbn in Hs. simplify_eq. cbn [dern Z.b2z]. by exists br3.
  - cbn [dern Z.b2z]. change (0 =? 1) with false. cbn iota.
    apply (IH blocs fuel (S pos + length e)%nat out1 out' f br3); [done|done|done| | |cbn in *; lia|].
    + exact (aligne_suite _ _ _ _ _ Ha1 Hf1 Hb3 Hf3).
    + rewrite Hf3. cbn [length]. by rewrite Nat.add_succ_r.
    + rewrite Hf in Hfu. cbn [length] in Hfu. rewrite length_app in Hfu. rewrite Hf3. cbn [length]. rewrite Nat.add_succ_r in *.
      cbn [Nat.add] in *. lia.
Qed.

Lemma length_ecrit bs : forall pos, (length bs <= length (ecrit pos bs))%nat.
Proof.
  induction bs as [|b bs IH]; intros pos; [done|]. cbn [ecrit length app]. rewrite length_app.
  specialize (IH (pos + S (length (ecrit_bloc (S pos) b)))%nat). lia.
Qed.
Lemma compresse_bits bs :
  Forall octet (compresse bs) /\
  bits_octets (compresse bs) = ecrit 0 bs ++ replicate (bourrage (length (ecrit 0 bs))) false.
Proof.
  split; [apply octets_de_ok|]. unfold compresse. cbv zeta. apply octets_de_bits.
  destruct (bourrage_spec (length (ecrit 0 bs))) as [Hm _]. apply Nat.Div0.mod_divides in Hm as [k Hk].
  rewrite length_app, length_replicate, Hk. f_equal. symmetry. rewrite Nat.mul_comm. apply Nat.div_mul. lia.
Qed.

Lemma inflate_compresse bs suite out :
  bs <> [] -> Forall bloc_ok bs -> sens_blocs [] bs = Some out -> Forall octet suite ->
  inflate (compresse bs ++ suite) = inl out.
Proof.
  intros Hne Hok Hs Hsu. destruct (compresse_bits bs) as [Hoc Hbits].
  set (data := compresse bs ++ suite). set (br := br_new data).
  assert (flux br = ecrit 0 bs ++ (replicate (bourrage (length (ecrit 0 bs))) false ++ bits_octets suite)) as Hf.
  { change (flux br) with (bits_octets (compresse bs ++ suite)). by rewrite bits_octets_app, Hbits, <- app_assoc. }
  assert (Forall octet data) as Hd by (by apply Forall_app).
  assert (length (flux br) = (8 * length data)%nat) as Hl.
  { unfold flux. rewrite length_app, length_bits_of, length_bits_octets, length_drop.
    cbn [br br_new bitcnt incnt Inflate.data Z.to_nat]. lia. }
  assert (aligne 0 br) as Ha.
  { split; [split_and!; cbn; [done|lia|lia|lia|lia|lia]|]. rewrite Hl, Nat.mul_comm. apply Nat.Div0.mod_mul. }
  destruct (ecrit_relu bs (carburant data) (carburant data) 0 [] out _ br Hne Hok Hs Ha Hf) as [br' E].
  - pose proof (length_ecrit bs 0). rewrite Hf, length_app in Hl. unfold carburant. lia.
  - unfold carburant. lia.
  - unfold inflate. fold br. by rewrite E.
Qed.

(** ** Containers *)

(** The optional fields of a gzip member (RFC 1952). *)
Record Entete := mk_entete { date : list Z; extra : option (list Z); nom : option (list Z);
  commentaire : option (list Z); crc : option (Z * Z) }.
Definition la {A} (o : option A) : bool := match o with Some _ => true | None => false end.
Definition present {A} (o : option A) (bit : Z) : Z := if la o then bit else 0.
Definition drapeaux (e : Entete) : Z :=
  present (crc e) 2 + present (extra e) 4 + present (nom e) 8 + present (commentaire e) 16.
Definition champ_extra (o : option (list Z)) : list Z :=
  match o with Some x => Z.of_nat (length x) mod 256 :: Z.of_nat (length x) / 256 :: x | None => [] end.
Definition champ_chaine (o : option (list Z)) : list Z :=
  match o with Some x => x ++ [0] | None => [] end.
Definition champ_crc (o : option (Z * Z)) : list Z :=
  match o with Some (a, b) => [a; b] | None => [] end.
Definition entete (e : Entete) : list Z :=
  ([31; 139; 8; drapeaux e] ++ date e) ++ champ_extra (extra e) ++ champ_chaine (nom e) ++
  champ_chaine (commentaire e) ++ champ_crc (crc e).
Definition sans_zero (o : option (list Z)) : Prop := match o with Some x => 0 ∉ x | None => True end.
Definition entete_ok (e : Entete) : Prop :=
  length (date e) = 6%nat /\ match extra e with Some x => Z.of_nat (length x) < 65536 | None => True end /\
  sans_zero (nom e) /\ sans_zero (commentaire e).

Lemma apres_zero_ok s : forall pos post, 0 ∉ s -> apres_zero (s ++ 0 :: post) pos = (pos + length s + 1)%nat.
Proof.
  induction s as [|b s IH]; intros pos post H; cbn [app apres_zero length]; [change (0 =? 0) with true; cbn iota; lia|].
  apply not_elem_of_cons in H as [Hb H]. destruct (Z.eqb_spec b 0); [by subst|]. rewrite IH by done. lia.
Qed.
Lemma chaine_sautee o data pre post pos : sans_zero o ->
  data = pre ++ champ_chaine o ++ post -> pos = length pre ->
  (if la o then saute_chaine data pos else pos) = length (pre ++ champ_chaine o).
Proof.
  intros H -> ->. destruct o as [x|]; cbn [champ_chaine la]; [|by rewrite app_nil_r].
  unfold saute_chaine. rewrite <- app_assoc. cbn [app].
  destruct (Nat.ltb_spec (length pre) (length (pre ++ x ++ 0 :: post))) as [_|Hge];
    [|rewrite !length_app in Hge; cbn [length] in Hge; lia].
  rewrite drop_app_length, apres_zero_ok by exact H. rewrite !length_app. cbn [length]. lia.
Qed.
Lemma drapeaux_lus e :
  negb (Z.land (drapeaux e) 2 =? 0) = la (crc e) /\ negb (Z.land (drapeaux e) 4 =? 0) = la (extra e) /\
  negb (Z.land (drapeaux e) 8 =? 0) = la (nom e) /\ negb (Z.land (drapeaux e) 16 =? 0) = la (commentaire e).
Proof. unfold drapeaux, present. by destruct (crc e), (extra e), (nom e), (commentaire e). Qed.

(** The part of [gzip_decode] after the extra field. *)
Definition suite_gzip (flg : Z) (data : list Z) (pos : nat) : list Z + Faute :=
  let pos := if negb (Z.land flg 8 =? 0) then saute_chaine data pos else pos in
  let pos := if negb (Z.land flg 16 =? 0) then saute_chaine data pos else pos in
  let pos := if negb (Z.land flg 2 =? 0) then (pos + 2)%nat else pos in
  if (length data <? pos)%nat then inr Erreur else inflate (drop pos data).
Lemma suite_gzip_ok e data pre contenu : entete_ok e ->
  data = (((pre ++ champ_chaine (nom e)) ++ champ_chaine (commentaire e)) ++ champ_crc (crc e)) ++ contenu ->
  suite_gzip (drapeaux e) data (length pre) = inflate contenu.
Proof.
  intros (_ & _ & Hn & Hc) E. destruct (drapeaux_lus e) as (F2 & _ & F8 & F16).
  unfold suite_gzip. cbv zeta. rewrite F8, F16, F2.
  rewrite (chaine_sautee _ data pre (champ_chaine (commentaire e) ++ champ_crc (crc e) ++ contenu) _ Hn)
    by (try done; by rewrite E, <- !app_assoc).
  rewrite (chaine_sautee _ data (pre ++ champ_chaine (nom e)) (champ_crc (crc e) ++ contenu) _ Hc)
    by (try done; by rewrite E, <- !app_assoc).
  set (q := (pre ++ champ_chaine (nom e)) ++ champ_chaine (commentaire e)) in *.
  assert ((if la (crc e) then (length q + 2)%nat else length q) = length (q ++ champ_crc (crc e))) as ->.
  { rewrite length_app. destruct (crc e) as [[a b]|]; cbn; lia. }
  subst data. destruct (Nat.ltb_spec (length ((q ++ champ_crc (crc e)) ++ contenu)) (length (q ++ champ_crc (crc e)))) as [H|_].
  { rewrite length_app in H. lia. }
  by rewrite drop_app_length.
Qed.

Lemma gzip_entete e contenu : entete_ok e -> gzip_decode (entete e ++ contenu) = inflate contenu.
Proof.
  intros He. destruct (drapeaux_lus e) as (_ & F4 & _ & _). pose proof He as (Hd & Hx & _).
  assert (exists a b c d f g, date e = [a; b; c; d; f; g]) as (a & b & c & d & f & g & Ed).
  { destruct (date e) as [|a [|b [|c [|d [|f [|g [|]]]]]]]; cbn in Hd; try lia. by eexists _, _, _, _, _, _. }
  pose proof (suite_gzip_ok e (entete e ++ contenu) (([31; 139; 8; drapeaux e] ++ date e) ++ champ_extra (extra e)) contenu
    He ltac:(unfold entete; by rewrite !app_assoc)) as Hs.
  rewrite <- Hs. clear Hs. unfold entete. rewrite Ed.
  destruct (extra e) as [x|] eqn:Ex; cbn [champ_extra app length la] in *.
  - unfold gzip_decode. rewrite F4.
    assert (Z.to_nat (Z.lor (Z.of_nat (length x) mod 256) (Z.shiftl (Z.of_nat (length x) / 256) 8)) = length x) as Hn.
    { rewrite Z.lor_comm, Z.shiftl_mul_pow2 by lia. rewrite lor_disjoint; Z.to_euclidean_division_equations; lia. }
    cbn [length Nat.ltb Nat.leb lookup list_lookup]. rewrite Hn. reflexivity.
  - unfold gzip_decode. rewrite F4. cbn [length Nat.ltb Nat.leb]. reflexivity.
Qed.

(** ** Claims *)

(** C34. The decoder follows the canonical code: for any lengths that do not exceed the code space,
    the bits the standard gives to a symbol decode to that symbol, and nothing more is read. *)
Theorem huffman_canonique n lens r h s l f br :
  Forall longueur_ok lens -> (length lens <= n)%nat ->
  construct (huffman_new n) lens = Some (r, h) -> 0 <= r ->
  lens !! s = Some l -> l <> 0 ->
  br_ok br -> flux br = mot_de lens s ++ f ->
  exists br', decode h br = (br', inl (Z.of_nat s)) /\ br_ok br' /\ flux br' = f.
Proof. exact (decode_canon n lens r h s l f br). Qed.
Lemma huffman_canonique_witness :
  exists br', decode (mk_huffman [0; 1; 2; 0; 0; 0; 0; 0; 0; 0; 0; 0; 0; 0; 0; 0] [1; 0; 2]) (br_new [3]) =
    (br', inl 2) /\ br_ok br' /\ flux br' = [false; false; false; false; false; false].
Proof.
  apply (huffman_canonique 3 [2; 1; 2] 0 (mk_huffman [0; 1; 2; 0; 0; 0; 0; 0; 0; 0; 0; 0; 0; 0; 0; 0] [1; 0; 2]) 2 2).
  - repeat constructor; lia.
  - apply Nat.leb_le. reflexivity.
  - vm_compute. reflexivity.
  - lia.
  - reflexivity.
  - lia.
  - split_and!; cbn; [repeat constructor; lia|lia|lia|lia|lia|lia].
  - vm_compute. reflexivity.
Defined.

(** C17. What a compressor writes is read back: for any sequence of stored blocks and of fixed
    blocks of literals and copies that has a meaning, alone or followed by other octets (the
    checksums, which are not verified), inside a zlib stream without dictionary, or inside a
    gzip member with any of its optional fields, decompression returns that meaning. *)
Theorem contenus_relus bs suite out :
  bs <> [] -> Forall bloc_ok bs -> sens_blocs [] bs = Some out -> Forall octet suite ->
  inflate (compresse bs ++ suite) = inl out /\
  (forall cmf flg, Z.land flg 32 = 0 -> zlib_decode (cmf :: flg :: compresse bs ++ suite) = inl out) /\
  (forall e, entete_ok e -> gzip_decode (entete e ++ compresse bs ++ suite) = inl out).
Proof.
  intros Hne Hok Hs Hsu. pose proof (inflate_compresse bs suite out Hne Hok Hs Hsu) as H. split_and!; [done| |].
  - intros cmf flg Hf. unfold zlib_decode. cbn [length Nat.ltb Nat.leb lookup list_lookup drop]. by rewrite Hf.
  - intros e He. by rewrite gzip_entete.
Qed.
Lemma contenus_relus_witness :
  inflate (compresse [Stocke [1; 2]; Fixe [Lit 97; Copie 6 0 0 0]] ++ [9]) = inl ([1; 2] ++ replicate 10 97) /\
  gzip_decode (entete (mk_entete [0; 0; 0; 0; 0; 3] (Some [5]) (Some [102; 46]) None (Some (1, 2))) ++
    compresse [Stocke [1; 2]; Fixe [Lit 97; Copie 6 0 0 0]] ++ [9]) = inl ([1; 2] ++ replicate 10 97).
Proof.
  destruct (contenus_relus [Stocke [1; 2]; Fixe [Lit 97; Copie 6 0 0 0]] [9] ([1; 2] ++ replicate 10 97)) as (H1 & _ & H3).
  - discriminate.
  - repeat constructor; cbn; lia.
  - vm_compute. reflexivity.
  - repeat constructor; lia.
  - split; [exact H1|]. apply (H3 (mk_entete [0; 0; 0; 0; 0; 3] (Some [5]) (Some [102; 46]) None (Some (1, 2)))).
    split; [reflexivity|]. split; [cbn; lia|]. split; [|exact I].
    cbn [sans_zero nom]. apply (bool_decide_unpack _). vm_compute. exact I.
Defined.
End InflateRetour.
