(* ===== verification/GrandsEntiers.v ===== *)
(** Large unsigned integers and the public operation of RSA: [src/net/security/tls/bignum.rs]
    and the parts of [rsa.rs] that do not hash. Limbs of 32 bits, least significant first;
    [None] is an arithmetic overflow or an index out of range. *)

From S2P Require Import Prelude.
From Stdlib Require Import Zpow_facts.

Module BigUint.
Open Scope Z_scope.

Record BigUint := mk_big { limbs : list Z }.
Definition zero : BigUint := mk_big [].

Fixpoint ote_zeros (l : list Z) : list Z :=
  match l with x :: l' => if x =? 0 then ote_zeros l' else l | [] => [] end.
Definition normalize (b : BigUint) : BigUint := mk_big (reverse (ote_zeros (reverse (limbs b)))).

(** The limbs of [bytes[..i]], four octets at a time from the end. *)
Fixpoint decoupe (tours : nat) (bytes : list Z) (i : nat) : list Z :=
  match tours with
  | O => []
  | S tours =>
      if (i =? 0)%nat then []
      else
        let start := (if 4 <=? i then i - 4 else 0)%nat in
        fold_left (fun v b => Z.lor (Z.shiftl v 8 mod 2 ^ 32) b) (slice bytes start (i - start)) 0
        :: decoupe tours bytes start
  end.
Definition from_bytes_be (bytes : list Z) : BigUint :=
  normalize (mk_big (decoupe (length bytes) bytes (length bytes))).

Definition be4 (x : Z) : list Z := rev (to_le 4 x).
(** Leading zero octets go, but the last octet stays. *)
Fixpoint garde_un (l : list Z) : list Z :=
  match l with
  | x :: l' => match l' with [] => l | _ => if x =? 0 then garde_un l' else l end
  | [] => []
  end.
Definition to_bytes_be (b : BigUint) : list Z :=
  match limbs b with [] => [0] | _ => garde_un (concat (be4 <$> rev (limbs b))) end.

Definition is_zero (b : BigUint) : bool := match limbs b with [] => true | _ => false end.
Definition leading_zeros (x : Z) : Z := if x =? 0 then 32 else 31 - Z.log2 x.
Definition bit_len (b : BigUint) : nat :=
  match last (limbs b) with
  | None => 0
  | Some top => (length (limbs b) - 1) * 32 + Z.to_nat (32 - leading_zeros top)
  end.
Definition get_bit (b : BigUint) (i : nat) : Z :=
  match limbs b !! (i / 32)%nat with
  | None => 0
  | Some x => Z.land (Z.shiftr x (Z.of_nat (i mod 32))) 1
  end.

(** From the most significant limb; both lists have [n] limbs. *)
Fixpoint cmp_depuis (n : nat) (a b : list Z) : comparison :=
  match n with
  | O => Eq
  | S n =>
      match aget a (Z.of_nat n) ?= aget b (Z.of_nat n) with
      | Eq => cmp_depuis n a b
      | c => c
      end
  end.
Definition cmp (a b : BigUint) : comparison :=
  if (length (limbs a) =? length (limbs b))%nat
  then cmp_depuis (length (limbs a)) (limbs a) (limbs b)
  else (length (limbs a) ?= length (limbs b))%nat.
Definition ge (a b : BigUint) : bool := match cmp a b with Lt => false | _ => true end.

Fixpoint retranche (a b : list Z) (borrow : Z) : list Z :=
  match a with
  | [] => []
  | x :: a =>
      let cur := x - hd 0 b - borrow in
      if cur <? 0 then (cur + 2 ^ 32) mod 2 ^ 32 :: retranche a (tail b) 1
      else cur mod 2 ^ 32 :: retranche a (tail b) 0
  end.
Definition sub_assign (a b : BigUint) : BigUint := normalize (mk_big (retranche (limbs a) (limbs b) 0)).
Definition sub (a b : BigUint) : BigUint := sub_assign a b.

Fixpoint decale (l : list Z) (carry : Z) : list Z :=
  match l with
  | [] => if carry =? 0 then [] else [carry]
  | x :: l => Z.lor (Z.shiftl x 1 mod 2 ^ 32) carry :: decale l (Z.shiftr x 31)
  end.
Definition shl1_or (b : BigUint) (bit : Z) : BigUint := mk_big (decale (limbs b) (Z.land bit 1)).

Fixpoint ajoute (n : nat) (a b : list Z) (carry : Z) : list Z :=
  match n with
  | O => if carry =? 0 then [] else [carry mod 2 ^ 32]
  | S n =>
      let cur := hd 0 a + hd 0 b + carry in
      cur mod 2 ^ 32 :: ajoute n (tail a) (tail b) (Z.shiftr cur 32)
  end.
Definition add (a b : BigUint) : BigUint :=
  normalize (mk_big (ajoute (Nat.max (length (limbs a)) (length (limbs b))) (limbs a) (limbs b) 0)).

(** One row of the schoolbook product, from [out[k]]; then the carry. *)
Fixpoint ligne (a : Z) (other out : list Z) (k : nat) (carry : Z) : option (list Z * nat * Z) :=
  match other with
  | [] => Some (out, k, carry)
  | b :: other =>
      match out !! k with
      | None => None
      | Some x =>
          let cur := x + a * b + carry in
          if u64_max <=? cur then None
          else ligne a other (<[k := cur mod 2 ^ 32]> out) (S k) (Z.shiftr cur 32)
      end
  end.
Fixpoint propage (tours : nat) (out : list Z) (k : nat) (carry : Z) : option (list Z) :=
  if carry =? 0 then Some out
  else match tours with
  | O => None
  | S tours =>
      match out !! k with
      | None => None
      | Some x =>
          let cur := x + carry in
          if u64_max <=? cur then None
          else propage tours (<[k := cur mod 2 ^ 32]> out) (S k) (Z.shiftr cur 32)
      end
  end.
Fixpoint lignes (l other out : list Z) (i : nat) : option (list Z) :=
  match l with
  | [] => Some out
  | a :: l =>
      match ligne a other out i 0 with
      | None => None
      | Some (out, k, carry) =>
          match propage (length out) out k carry with
          | None => None
          | Some out => lignes l other out (S i)
          end
      end
  end.
Definition mul (a b : BigUint) : option BigUint :=
  if is_zero a || is_zero b then Some zero
  else
    match lignes (limbs a) (limbs b) (replicate (length (limbs a) + length (limbs b)) 0) 0 with
    | None => None
    | Some out => Some (normalize (mk_big out))
    end.

(** Bit by bit, from bit [n - 1]. *)
Fixpoint rem_depuis (n : nat) (a m r : BigUint) : BigUint :=
  match n with
  | O => r
  | S i =>
      let r := shl1_or r (get_bit a i) in
      rem_depuis i a m (if ge r m then sub_assign r m else r)
  end.
Definition rem (a m : BigUint) : BigUint :=
  if is_zero m then zero else rem_depuis (bit_len a) a m zero.

Definition mul_rem (a b m : BigUint) : option BigUint :=
  match mul a b with Some x => Some (rem x m) | None => None end.
Fixpoint modpow_depuis (n : nat) (base exp m result : BigUint) : option BigUint :=
  match n with
  | O => Some result
  | S i =>
      match mul_rem result result m with
      | None => None
      | Some result =>
          if get_bit exp i =? 1 then
            match mul_rem result base m with
            | None => None
            | Some result => modpow_depuis i base exp m result
            end
          else modpow_depuis i base exp m result
      end
  end.
Definition modpow (a exp m : BigUint) : option BigUint :=
  if is_zero m then Some zero
  else modpow_depuis (bit_len exp) (rem a m) exp m (rem (from_bytes_be [1]) m).

Example modpow_ex :
  option_map to_bytes_be (modpow (from_bytes_be [1; 2; 3; 4; 5; 6]) (from_bytes_be [1; 0; 1]) (from_bytes_be [9; 8; 7; 6; 5; 4; 3])) =
  Some (rev (to_le 7 0x7886073c81eeb)).
Proof. vm_compute. reflexivity. Qed.
End BigUint.

(** Proofs on large integers: every operation is the one on integers, no step overflows its
    word or leaves its array, and modular exponentiation is exact. *)

Module BigUintProofs.
Import BigUint.
Open Scope Z_scope.

(** ** The integer a list of limbs stands for *)

Definition limbe (x : Z) : Prop := 0 <= x < 2 ^ 32.
Fixpoint val (l : list Z) : Z := match l with [] => 0 | x :: l => x + 2 ^ 32 * val l end.
Abbreviation base n := (2 ^ (32 * Z.of_nat n)).
Definition normal (l : list Z) : Prop := last l <> Some 0.

Lemma base_S n : base (S n) = 2 ^ 32 * base n.
Proof. rewrite <- Z.pow_add_r by lia. f_equal. lia. Qed.
Lemma base_pos n : 0 < base n.
Proof. apply Z.pow_pos_nonneg; lia. Qed.
Lemma base_add n k : base (n + k) = base n * base k.
Proof. rewrite <- Z.pow_add_r by lia. f_equal. lia. Qed.
Lemma base_le n k : (n <= k)%nat -> base n <= base k.
Proof. intros. apply Z.pow_le_mono_r; lia. Qed.

Lemma val_app l1 l2 : val (l1 ++ l2) = val l1 + base (length l1) * val l2.
Proof.
  induction l1 as [|x l IH]; cbn [app val length]; [change (base 0) with 1; lia|].
  rewrite IH, base_S. lia.
Qed.
Lemma val_zeros k : val (replicate k 0) = 0.
Proof. induction k as [|k IH]; cbn [replicate val]; lia. Qed.
Lemma val_borne l : Forall limbe l -> 0 <= val l < base (length l).
Proof.
  induction 1 as [|x l Hx _ IH]; cbn [val length]; [change (base 0) with 1; lia|].
  rewrite base_S. unfold limbe in Hx. nia.
Qed.
Lemma val_take_S l n x : l !! n = Some x -> val (take (S n) l) = val (take n l) + base n * x.
Proof.
  intros H. rewrite (take_S_r _ _ _ H), val_app, length_take. cbn [val].
  apply lookup_lt_Some in H. rewrite Nat.min_l by lia. lia.
Qed.
Lemma val_insert l k x y : l !! k = Some x -> val (<[k := y]> l) = val l + (y - x) * base k.
Proof.
  intros H. pose proof (lookup_lt_Some _ _ _ H) as Hk.
  rewrite insert_take_drop by done. rewrite <- (take_drop k l) at 3.
  rewrite (drop_S _ _ _ H), !val_app, length_take, Nat.min_l by lia. cbn [val]. lia.
Qed.
Lemma Forall_insert (P : Z -> Prop) l k y : Forall P l -> P y -> Forall P (<[k := y]> l).
Proof. intros. by apply Forall_insert. Qed.

Lemma ote_zeros_spec l : exists k, l = replicate k 0 ++ ote_zeros l /\ head (ote_zeros l) <> Some 0.
Proof.
  induction l as [|x l (k & H & Hh)]; [by exists 0%nat|]. cbn [ote_zeros]. destruct (Z.eqb_spec x 0) as [->|Hx].
  - exists (S k). cbn [replicate app]. by rewrite <- H.
  - exists 0%nat. split; [done|]. cbn. congruence.
Qed.
Lemma normalize_spec b : exists k,
  limbs b = limbs (normalize b) ++ replicate k 0 /\ normal (limbs (normalize b)).
Proof.
  destruct (ote_zeros_spec (reverse (limbs b))) as (k & H & Hh). exists k. cbn [normalize limbs]. split.
  - rewrite <- (reverse_involutive (limbs b)), H at 1. by rewrite reverse_app, reverse_replicate.
  - unfold normal. by rewrite last_reverse.
Qed.
Lemma normalize_val b : val (limbs (normalize b)) = val (limbs b).
Proof. destruct (normalize_spec b) as (k & -> & _). rewrite val_app, val_zeros. lia. Qed.
Lemma normalize_normal b : normal (limbs (normalize b)).
Proof. by destruct (normalize_spec b) as (k & _ & ?). Qed.
Lemma normalize_limbes b : Forall limbe (limbs b) -> Forall limbe (limbs (normalize b)).
Proof. destruct (normalize_spec b) as (k & -> & _). rewrite Forall_app. tauto. Qed.

(** A number: limbs in range, the last one not zero. *)
Definition nombre (b : BigUint) : Prop := Forall limbe (limbs b) /\ normal (limbs b).
Abbreviation v b := (val (limbs b)).

Lemma normalize_nombre l : Forall limbe l -> nombre (normalize (mk_big l)).
Proof. intros H. split; [by apply normalize_limbes|apply normalize_normal]. Qed.

Lemma normal_bas l : Forall limbe l -> l <> [] -> normal l -> base (length l - 1) <= val l.
Proof.
  intros Hl Hne Hn. destruct l as [|x l _] using rev_ind; [done|]. clear Hne.
  unfold normal in Hn. rewrite last_snoc in Hn. apply Forall_app in Hl as [Hl Hx].
  inversion Hx as [|? ? Hx' _]; subst. unfold limbe in Hx'. rewrite val_app, length_app. cbn [val length].
  replace (length l + 1 - 1)%nat with (length l) by lia. pose proof (val_borne l Hl).
  pose proof (base_pos (length l)). assert (x <> 0) by congruence. nia.
Qed.
Lemma normal_si l : Forall limbe l -> (l <> [] -> base (length l - 1) <= val l) -> normal l.
Proof.
  intros Hl H Hlast. destruct l as [|x l _] using rev_ind; [done|]. rewrite last_snoc in Hlast. simplify_eq.
  apply Forall_app in Hl as [Hl _]. specialize (H ltac:(by destruct l)).
  rewrite val_app, length_app in H. cbn [val length] in H. replace (length l + 1 - 1)%nat with (length l) in H by lia.
  pose proof (val_borne l Hl). lia.
Qed.
Lemma nombre_nul b : nombre b -> (v b = 0 <-> limbs b = []).
Proof.
  intros [Hl Hn]. split; [|by intros ->]. intros H0. destruct (limbs b) as [|x l] eqn:E; [done|].
  pose proof (normal_bas (x :: l) Hl ltac:(done) Hn). pose proof (base_pos (length (x :: l) - 1)). lia.
Qed.
Lemma is_zero_spec b : nombre b -> is_zero b = (v b =? 0).
Proof.
  intros Hb. pose proof (nombre_nul b Hb) as H. unfold is_zero.
  destruct (Z.eqb_spec (v b) 0) as [E|E]; [by rewrite (proj1 H E)|]. by destruct (limbs b); [|].
Qed.

(** ** Comparison *)

Lemma compare_bases B x y a b : 0 <= x < B -> 0 <= y < B ->
  (x + B * a ?= y + B * b) = match a ?= b with Eq => x ?= y | c => c end.
Proof.
  intros Hx Hy. destruct (Z.compare_spec a b) as [->|H|H].
  - destruct (Z.compare_spec x y); [apply Z.compare_eq_iff|apply Z.compare_lt_iff|apply Z.compare_gt_iff]; lia.
  - apply Z.compare_lt_iff. nia.
  - apply Z.compare_gt_iff. nia.
Qed.
Lemma cmp_depuis_spec n : forall a b, Forall limbe a -> Forall limbe b ->
  (n <= length a)%nat -> (n <= length b)%nat -> cmp_depuis n a b = (val (take n a) ?= val (take n b)).
Proof.
  induction n as [|n IH]; intros a b Ha Hb Hla Hlb; [done|]. cbn [cmp_depuis].
  destruct (lookup_lt_is_Some_2 a n) as [x Hx]; [lia|]. destruct (lookup_lt_is_Some_2 b n) as [y Hy]; [lia|].
  unfold aget. rewrite Nat2Z.id, Hx, Hy. cbn [default from_option id].
  rewrite (val_take_S _ _ _ Hx), (val_take_S _ _ _ Hy), IH by (done || lia).
  pose proof (val_borne (take n a) (Forall_take _ _ _ Ha)) as B1. pose proof (val_borne (take n b) (Forall_take _ _ _ Hb)) as B2.
  rewrite length_take, Nat.min_l in B1, B2 by lia. rewrite compare_bases by done. by destruct (x ?= y).
Qed.
Lemma cmp_spec a b : nombre a -> nombre b -> cmp a b = (v a ?= v b).
Proof.
  intros [Ha Na] [Hb Nb]. unfold cmp. destruct (Nat.eqb_spec (length (limbs a)) (length (limbs b))) as [E|E].
  - rewrite cmp_depuis_spec by (done || lia). by rewrite !take_ge by lia.
  - pose proof (val_borne _ Ha) as B1. pose proof (val_borne _ Hb) as B2.
    destruct (Nat.compare_spec (length (limbs a)) (length (limbs b))) as [?|H|H]; [done| |]; symmetry.
    + apply Z.compare_lt_iff. assert (limbs b <> []) as Hne by (by intros H0; rewrite H0 in H; cbn in H; lia).
      pose proof (normal_bas _ Hb Hne Nb). pose proof (base_le (length (limbs a)) (length (limbs b) - 1) ltac:(lia)). lia.
    + apply Z.compare_gt_iff. assert (limbs a <> []) as Hne by (by intros H0; rewrite H0 in H; cbn in H; lia).
      pose proof (normal_bas _ Ha Hne Na). pose proof (base_le (length (limbs b)) (length (limbs a) - 1) ltac:(lia)). lia.
Qed.
Lemma ge_spec a b : nombre a -> nombre b -> ge a b = (v b <=? v a).
Proof.
  intros Ha Hb. unfold ge. rewrite cmp_spec by done. unfold Z.leb. rewrite (Z.compare_antisym (v a) (v b)).
  by destruct (v a ?= v b).
Qed.

(** ** Subtraction, addition, shift *)

Lemma limbe_mod x : limbe (x mod 2 ^ 32).
Proof. unfold limbe. apply Z.mod_pos_bound. lia. Qed.
#[local] Hint Resolve limbe_mod : core.

Lemma retranche_limbes a : forall b w, Forall limbe (retranche a b w).
Proof. induction a as [|x a IH]; intros b w; cbn [retranche]; [done|]. cbv zeta. destruct (_ <? _); auto. Qed.
Lemma retranche_spec a : forall b w, Forall limbe a -> Forall limbe b -> (length b <= length a)%nat -> 0 <= w <= 1 ->
  length (retranche a b w) = length a /\
  exists c, 0 <= c <= 1 /\ val (retranche a b w) + val b + w = val a + c * base (length a).
Proof.
  induction a as [|x a IH]; intros b w Ha Hb Hl Hw.
  { destruct b; [|cbn in Hl; lia]. split; [done|]. exists w. cbn [retranche val length]. change (base 0) with 1. lia. }
  cbn [retranche val length]. inversion Ha as [|? ? Hx Ha']; subst. rewrite base_S.
  assert (Forall limbe (tail b) /\ limbe (hd 0 b) /\ val b = hd 0 b + 2 ^ 32 * val (tail b) /\ (length (tail b) <= length a)%nat)
    as (Htb & Hhb & -> & Hlt).
  { destruct b as [|y b]; cbn [tail hd val length] in *; [unfold limbe; split_and!; [done|lia|lia|lia|lia]|].
    inversion Hb; subst. split_and!; [done|done|lia|lia]. }
  cbv zeta. unfold limbe in Hx, Hhb. destruct (Z.ltb_spec (x - hd 0 b - w) 0); cbn [val length].
  - destruct (IH (tail b) 1 Ha' Htb Hlt ltac:(lia)) as (-> & c & Hc & E). split; [done|]. exists c. split; [done|].
    rewrite Z.mod_small by lia. nia.
  - destruct (IH (tail b) 0 Ha' Htb Hlt ltac:(lia)) as (-> & c & Hc & E). split; [done|]. exists c. split; [done|].
    rewrite Z.mod_small by lia. nia.
Qed.
Lemma nombre_longueur a b : nombre a -> nombre b -> v b <= v a -> (length (limbs b) <= length (limbs a))%nat.
Proof.
  intros [Ha Na] [Hb Nb] H. destruct (Nat.le_gt_cases (length (limbs b)) (length (limbs a))) as [|Hlt]; [done|].
  assert (limbs b <> []) as Hne by (by intros H0; rewrite H0 in Hlt; cbn in Hlt; lia).
  pose proof (normal_bas _ Hb Hne Nb). pose proof (base_le (length (limbs a)) (length (limbs b) - 1) ltac:(lia)).
  pose proof (val_borne _ Ha). lia.
Qed.
Lemma sub_assign_spec a b : nombre a -> nombre b -> v b <= v a ->
  nombre (sub_assign a b) /\ v (sub_assign a b) = v a - v b.
Proof.
  intros Ha Hb H. pose proof (nombre_longueur _ _ Ha Hb H) as Hl. destruct Ha as [Ha _], Hb as [Hb _].
  split; [apply normalize_nombre, retranche_limbes|]. unfold sub_assign. rewrite normalize_val. cbn [limbs].
  destruct (retranche_spec (limbs a) (limbs b) 0 Ha Hb Hl ltac:(lia)) as (Hlen & c & Hc & E).
  pose proof (val_borne _ (retranche_limbes (limbs a) (limbs b) 0)) as B. rewrite Hlen in B.
  pose proof (val_borne _ Ha). assert (c = 0) by nia. lia.
Qed.

Lemma ajoute_limbes n : forall a b w, Forall limbe (ajoute n a b w).
Proof.
  induction n as [|n IH]; intros a b w; cbn [ajoute]; [destruct (w =? 0); auto|]. cbv zeta. auto.
Qed.
Lemma hd_tail l : Forall limbe l -> limbe (hd 0 l) /\ Forall limbe (tail l) /\ val l = hd 0 l + 2 ^ 32 * val (tail l).
Proof.
  intros H. destruct l as [|x l]; cbn [hd tail val]; [unfold limbe; split_and!; [lia|lia|done|lia]|].
  inversion H; subst. by split_and!.
Qed.
Lemma div32 x : Z.shiftr x 32 = x / 2 ^ 32.
Proof. by rewrite Z.shiftr_div_pow2. Qed.
Lemma ajoute_spec n : forall a b w, Forall limbe a -> Forall limbe b -> 0 <= w <= 1 ->
  (length a <= n)%nat -> (length b <= n)%nat -> val (ajoute n a b w) = val a + val b + w.
Proof.
  induction n as [|n IH]; intros a b w Ha Hb Hw Hla Hlb; cbn [ajoute].
  { destruct a, b; cbn in Hla, Hlb; try lia. destruct (Z.eqb_spec w 0); cbn [val]; [lia|]. rewrite Z.mod_small by lia. lia. }
  destruct (hd_tail a Ha) as (Hha & Hta & ->), (hd_tail b Hb) as (Hhb & Htb & ->). cbv zeta. cbn [val].
  rewrite div32. unfold limbe in Hha, Hhb.
  rewrite IH; [|done|done|Z.to_euclidean_division_equations; lia|destruct a; cbn in *; lia|destruct b; cbn in *; lia].
  pose proof (Z.div_mod (hd 0 a + hd 0 b + w) (2 ^ 32) ltac:(lia)). lia.
Qed.
Lemma add_spec a b : nombre a -> nombre b -> nombre (add a b) /\ v (add a b) = v a + v b.
Proof.
  intros [Ha _] [Hb _]. split; [apply normalize_nombre, ajoute_limbes|]. unfold add. rewrite normalize_val. cbn [limbs].
  rewrite ajoute_spec by (done || lia). lia.
Qed.

Lemma double_limbe x w : limbe x -> 0 <= w <= 1 ->
  Z.lor (Z.shiftl x 1 mod 2 ^ 32) w = (2 * x) mod 2 ^ 32 + w /\ limbe ((2 * x) mod 2 ^ 32 + w) /\
  2 * x = (2 * x) mod 2 ^ 32 + 2 ^ 32 * Z.shiftr x 31 /\ 0 <= Z.shiftr x 31 <= 1.
Proof.
  intros Hx Hw. unfold limbe in *. rewrite Z.shiftl_mul_pow2, Z.shiftr_div_pow2 by lia.
  rewrite (Z.mul_comm x). change (2 ^ 1 * x) with (2 * x).
  assert ((2 * x) mod 2 ^ 32 = x mod 2 ^ 31 * 2 ^ 1) as ->.
  { change (2 ^ 32) with (2 * 2 ^ 31). rewrite Zmult_mod_distr_l. lia. }
  pose proof (Z.mod_pos_bound x (2 ^ 31) ltac:(lia)). pose proof (Z.div_mod x (2 ^ 31) ltac:(lia)).
  rewrite lor_disjoint by lia. split_and!; try lia; Z.to_euclidean_division_equations; lia.
Qed.
Lemma decale_spec l : forall w, Forall limbe l -> 0 <= w <= 1 ->
  Forall limbe (decale l w) /\ val (decale l w) = 2 * val l + w /\
  (length (decale l w) = length l \/ length (decale l w) = S (length l) /\ base (length l) <= val (decale l w)).
Proof.
  induction l as [|x l IH]; intros w Hl Hw; cbn [decale].
  { destruct (Z.eqb_spec w 0) as [->|]; cbn [val length]; [split_and!; [done|lia|by left]|].
    change (base 0) with 1. split_and!; [constructor; [unfold limbe; lia|done]|lia|right; lia]. }
  inversion Hl as [|? ? Hx Hl']; subst. destruct (double_limbe x w Hx Hw) as (-> & H1 & H2 & H3).
  destruct (IH (Z.shiftr x 31) Hl' H3) as (F & E & Hlen). cbn [val length]. rewrite E.
  split_and!; [by constructor|lia|]. destruct Hlen as [->|[-> Hb]]; [by left|right]. split; [done|].
  rewrite base_S. unfold limbe in H1. rewrite E in Hb. lia.
Qed.
Lemma shl1_or_spec b w : nombre b -> 0 <= w <= 1 -> nombre (shl1_or b w) /\ v (shl1_or b w) = 2 * v b + w.
Proof.
  intros [Hl Hn] Hw. unfold shl1_or. cbn [limbs].
  assert (Z.land w 1 = w) as -> by (assert (w = 0 \/ w = 1) as [->| ->] by lia; done).
  destruct (decale_spec (limbs b) w Hl Hw) as (F & E & Hlen). split; [|done]. split; [done|]. cbn [limbs].
  apply normal_si; [done|]. intros Hne. destruct Hlen as [Hlen|[Hlen Hb]].
  - rewrite Hlen, E. assert (limbs b <> []) as Hb by (intros H0; apply Hne, nil_length_inv; by rewrite Hlen, H0).
    pose proof (normal_bas _ Hl Hb Hn). pose proof (base_pos (length (limbs b) - 1)). lia.
  - rewrite Hlen. replace (S (length (limbs b)) - 1)%nat with (length (limbs b)) by lia. done.
Qed.

(** ** Bits *)

Lemma val_drop l k : Forall limbe l -> val (drop k l) = Z.shiftr (val l) (32 * Z.of_nat k).
Proof.
  intros Hl. rewrite Z.shiftr_div_pow2 by lia. destruct (Nat.le_gt_cases k (length l)) as [Hk|Hk].
  - rewrite <- (take_drop k l) at 2. rewrite val_app, length_take, Nat.min_l by done.
    pose proof (val_borne (take k l) (Forall_take _ _ _ Hl)) as B. rewrite length_take, Nat.min_l in B by done.
    rewrite (Z.mul_comm (base k)), Z.div_add by lia. rewrite Z.div_small by done. lia.
  - rewrite drop_ge by lia. pose proof (val_borne l Hl). pose proof (base_le (length l) k ltac:(lia)).
    rewrite Z.div_small by lia. done.
Qed.
Lemma land_1 z : Z.land z 1 = Z.b2z (Z.testbit z 0).
Proof. change 1 with (Z.ones 1). rewrite Z.land_ones, Z.bit0_mod by lia. done. Qed.
Lemma get_bit_spec b i : Forall limbe (limbs b) -> get_bit b i = Z.b2z (Z.testbit (v b) (Z.of_nat i)).
Proof.
  intros Hl. unfold get_bit. pose proof (Nat.div_mod_eq i 32) as Hd. pose proof (Nat.mod_upper_bound i 32 ltac:(lia)) as Hm.
  set (q := (i / 32)%nat) in *. set (r := (i mod 32)%nat) in *.
  replace (Z.of_nat i) with (Z.of_nat r + 32 * Z.of_nat q) by lia. rewrite <- Z.shiftr_spec by lia.
  rewrite <- val_drop by done. destruct (limbs b !! q) as [x|] eqn:E.
  - assert (limbe x) as Hx by (exact (Forall_lookup_1 _ _ _ _ Hl E)). rewrite (drop_S _ _ _ E). cbn [val].
    rewrite land_1, Z.shiftr_spec, Z.add_0_l by lia. f_equal.
    rewrite <- (Z.mod_pow2_bits_low (x + _) 32) by lia. rewrite (Z.mul_comm (2 ^ 32)), Z.mod_add by lia.
    by rewrite Z.mod_small.
  - apply lookup_ge_None in E. rewrite drop_ge by done. cbn [val]. by rewrite Z.bits_0.
Qed.
Lemma bit_len_spec b : nombre b -> v b <> 0 -> Z.of_nat (bit_len b) = Z.log2 (v b) + 1.
Proof.
  intros [Hl Hn] H0. unfold bit_len. destruct (last (limbs b)) as [top|] eqn:E.
  2: { apply last_None in E. by rewrite E in H0. }
  apply last_Some in E as [l E]. rewrite E in *. unfold normal in Hn. rewrite last_snoc in Hn.
  apply Forall_app in Hl as [Hl Ht]. inversion Ht as [|? ? Ht' _]; subst. unfold limbe in Ht'.
  assert (0 < top) as Hp by (assert (top <> 0) by congruence; lia).
  unfold leading_zeros. destruct (Z.eqb_spec top 0); [lia|].
  pose proof (Z.log2_spec top Hp) as Hs. pose proof (Z.log2_nonneg top).
  assert (Z.log2 top < 32) by (apply Z.log2_lt_pow2; lia).
  rewrite length_app, val_app in *. cbn [length val] in *. replace (length l + 1 - 1)%nat with (length l) by lia.
  assert (Z.log2 (val l + base (length l) * (top + 2 ^ 32 * 0)) = 32 * Z.of_nat (length l) + Z.log2 top) as ->; [|lia].
  apply Z.log2_unique; [lia|]. pose proof (val_borne l Hl). pose proof (base_pos (length l)).
  rewrite <- Z.add_succ_r, !Z.pow_add_r by lia. nia.
Qed.
Lemma bit_len_borne b : nombre b -> v b < 2 ^ Z.of_nat (bit_len b).
Proof.
  intros Hb. destruct (Z.eq_dec (v b) 0) as [->|H0]; [apply Z.pow_pos_nonneg; lia|].
  rewrite bit_len_spec by done. pose proof (val_borne _ (proj1 Hb)). apply Z.log2_spec. lia.
Qed.

(** ** Remainder *)

Lemma shiftr_pas z i : Z.shiftr z (Z.of_nat i) = 2 * Z.shiftr z (Z.of_nat (S i)) + Z.b2z (Z.testbit z (Z.of_nat i)).
Proof.
  rewrite Nat2Z.inj_succ. rewrite <- Z.add_1_r, <- Z.shiftr_shiftr by lia.
  rewrite <- Z.div2_spec. rewrite <- (Z.add_0_l (Z.of_nat i)) at 3. rewrite <- Z.shiftr_spec by lia.
  rewrite Z.bit0_odd. apply Z.div2_odd.
Qed.
Lemma nombre_zero : nombre zero.
Proof. by split. Qed.
Lemma rem_depuis_spec a m : nombre a -> nombre m -> 0 < v m -> forall n r, nombre r ->
  v r = Z.shiftr (v a) (Z.of_nat n) mod v m ->
  nombre (rem_depuis n a m r) /\ v (rem_depuis n a m r) = v a mod v m.
Proof.
  intros Ha Hm Hp. induction n as [|i IH]; intros r Hr Hv; cbn [rem_depuis]; [by rewrite Z.shiftr_0_r in Hv|].
  cbv zeta. rewrite get_bit_spec by apply Ha. set (bit := Z.b2z _).
  assert (0 <= bit <= 1) as Hbit by (unfold bit; destruct (Z.testbit _ _); cbn; lia).
  destruct (shl1_or_spec r bit Hr Hbit) as [Hn E]. pose proof (Z.mod_pos_bound (Z.shiftr (v a) (Z.of_nat (S i))) (v m) Hp) as B.
  assert (Z.shiftr (v a) (Z.of_nat i) mod v m = (2 * v r + bit) mod v m) as Heq.
  { rewrite shiftr_pas. fold bit. rewrite Hv.
    rewrite <- Zplus_mod_idemp_l, <- Zmult_mod_idemp_r, Zplus_mod_idemp_l. done. }
  rewrite ge_spec, E by done. destruct (Z.leb_spec (v m) (2 * v r + bit)) as [H|H].
  - destruct (sub_assign_spec _ _ Hn Hm) as [Hn' E']; [lia|]. apply IH; [done|]. rewrite E', E, Heq.
    replace (2 * v r + bit) with (2 * v r + bit - v m + 1 * v m) at 2 by lia. rewrite Z.mod_add, Z.mod_small by lia. done.
  - apply IH; [done|]. rewrite E, Heq, Z.mod_small by lia. done.
Qed.
Lemma rem_spec a m : nombre a -> nombre m -> 0 < v m -> nombre (rem a m) /\ v (rem a m) = v a mod v m.
Proof.
  intros Ha Hm Hp. unfold rem. rewrite is_zero_spec by done. destruct (Z.eqb_spec (v m) 0); [lia|].
  apply rem_depuis_spec; [done|done|done|apply nombre_zero|]. pose proof (val_borne _ (proj1 Ha)).
  rewrite Z.shiftr_div_pow2 by lia. rewrite Z.div_small; [by rewrite Z.mod_0_l by lia|].
  split; [lia|by apply bit_len_borne].
Qed.

(** ** Product *)

(** A double word cut in two. *)
Lemma coupe cur : 0 <= cur < u64_max ->
  cur = cur mod 2 ^ 32 + 2 ^ 32 * Z.shiftr cur 32 /\ limbe (Z.shiftr cur 32).
Proof.
  intros Hc. rewrite div32. unfold limbe, u64_max in *. pose proof (Z.div_mod cur (2 ^ 32) ltac:(lia)).
  split; [lia|]. Z.to_euclidean_division_equations; lia.
Qed.
Lemma ligne_spec a other : limbe a -> forall out k carry, Forall limbe other -> Forall limbe out ->
  (k + length other <= length out)%nat -> limbe carry ->
  exists out' carry', ligne a other out k carry = Some (out', (k + length other)%nat, carry') /\
    length out' = length out /\ Forall limbe out' /\ limbe carry' /\
    val out' + carry' * base (k + length other) = val out + (a * val other + carry) * base k.
Proof.
  intros Hla. induction other as [|b other IH]; intros out k carry Ho Hout Hk Hc; cbn [ligne].
  { exists out, carry. cbn [length val]. rewrite Nat.add_0_r. split_and!; [done|done|done|done|lia]. }
  inversion Ho as [|? ? Hb Ho']; subst. cbn [length] in *. destruct (lookup_lt_is_Some_2 out k) as [x Hx]; [lia|].
  rewrite Hx. assert (limbe x) as Hlx by (exact (Forall_lookup_1 _ _ _ _ Hout Hx)). cbv zeta.
  assert (0 <= x + a * b + carry < u64_max) as Hcur by (unfold limbe, u64_max in *; nia).
  destruct (Z.leb_spec u64_max (x + a * b + carry)); [lia|]. destruct (coupe _ Hcur) as [E Hc'].
  set (cur := x + a * b + carry) in *.
  destruct (IH (<[k := cur mod 2 ^ 32]> out) (S k) (Z.shiftr cur 32)) as (out' & c' & E' & Hl & Hf & Hc2 & Hv);
    [done|by apply Forall_insert|rewrite length_insert; lia|done|].
  exists out', c'. rewrite E', <- Nat.add_succ_comm. split_and!; [done|by rewrite Hl, length_insert|done|done|].
  rewrite Hv, (val_insert _ _ _ _ Hx), base_S. cbn [val]. replace (cur mod 2 ^ 32) with (cur - 2 ^ 32 * Z.shiftr cur 32) by lia.
  unfold cur at 1. lia.
Qed.
Lemma propage_spec tours : forall out k carry, Forall limbe out -> limbe carry ->
  val out + carry * base k < base (length out) -> (length out - k <= tours)%nat ->
  exists out', propage tours out k carry = Some out' /\ length out' = length out /\ Forall limbe out' /\
    val out' = val out + carry * base k.
Proof.
  induction tours as [|tours IH]; intros out k carry Hout Hc Hb Ht; cbn [propage];
    (destruct (Z.eqb_spec carry 0) as [->|H0]; [exists out; split_and!; [done|done|done|lia]|]);
    (assert (k < length out)%nat as Hk by
      (apply Nat.lt_nge; intros Hge; pose proof (base_le (length out) k ltac:(lia)); pose proof (val_borne _ Hout);
       unfold limbe in Hc; nia)); [lia|].
  destruct (lookup_lt_is_Some_2 out k Hk) as [x Hx]. rewrite Hx.
  assert (limbe x) as Hlx by (exact (Forall_lookup_1 _ _ _ _ Hout Hx)). cbv zeta.
  assert (0 <= x + carry < u64_max) as Hcur by (unfold limbe, u64_max in *; lia).
  destruct (Z.leb_spec u64_max (x + carry)); [lia|]. destruct (coupe _ Hcur) as [E Hc']. set (cur := x + carry) in *.
  assert (val (<[k := cur mod 2 ^ 32]> out) + Z.shiftr cur 32 * base (S k) = val out + carry * base k) as Hv.
  { rewrite (val_insert _ _ _ _ Hx), base_S. replace (cur mod 2 ^ 32) with (cur - 2 ^ 32 * Z.shiftr cur 32) by lia.
    unfold cur at 1. lia. }
  destruct (IH (<[k := cur mod 2 ^ 32]> out) (S k) (Z.shiftr cur 32)) as (out' & E' & Hl & Hf & Hv');
    [by apply Forall_insert|done|by rewrite length_insert, Hv|rewrite length_insert; lia|].
  exists out'. rewrite length_insert in Hl. split_and!; [done|done|done|lia].
Qed.
Lemma lignes_spec l other : Forall limbe l -> Forall limbe other -> forall out i, Forall limbe out ->
  (i + length l + length other <= length out)%nat -> val out + val l * val other * base i < base (length out) ->
  (forall j, (j <= length l)%nat -> val out + val (take j l) * val other * base i < base (i + j + length other)) ->
  exists out', lignes l other out i = Some out' /\ Forall limbe out' /\ val out' = val out + val l * val other * base i.
Proof.
  intros Hl Ho. induction Hl as [|a l Ha Hl IH]; intros out i Hout Hlen Hb Hj; cbn [lignes].
  { exists out. cbn [val]. split_and!; [done|done|lia]. }
  cbn [length] in *. destruct (ligne_spec a other Ha out i 0) as (o1 & c1 & -> & Hl1 & Hf1 & Hc1 & Hv1);
    [done|done|lia|unfold limbe; lia|].
  pose proof (Hj 1%nat ltac:(lia)) as H1. cbn [take val] in H1.
  assert (val o1 + c1 * base (i + length other) < base (length o1)) as Hb1.
  { rewrite Hv1, Hl1. pose proof (base_le (i + 1 + length other) (length out) ltac:(lia)). rewrite firstn_O in H1. cbn [val] in H1. lia. }
  destruct (propage_spec (length o1) o1 (i + length other) c1 Hf1 Hc1 Hb1 ltac:(lia)) as (o2 & -> & Hl2 & Hf2 & Hv2).
  rewrite Hv1 in Hv2. cbn [val] in *.
  destruct (IH o2 (S i)) as (o3 & E3 & Hf3 & Hv3).
  - done.
  - lia.
  - rewrite Hl2, Hl1, Hv2, base_S. lia.
  - intros j Hlj. specialize (Hj (S j) ltac:(lia)). cbn [take val] in Hj.
    replace (i + S j + length other)%nat with (S i + j + length other)%nat in Hj by lia. rewrite Hv2, base_S. lia.
  - exists o3. split_and!; [done|done|]. rewrite Hv3, Hv2, base_S. lia.
Qed.
Lemma mul_spec a b : nombre a -> nombre b -> exists c, mul a b = Some c /\ nombre c /\ v c = v a * v b.
Proof.
  intros Ha Hb. unfold mul. rewrite !is_zero_spec by done.
  destruct (Z.eqb_spec (v a) 0) as [E|_]; cbn [orb]; [exists zero; split_and!; [done|apply nombre_zero|rewrite E; done]|].
  destruct (Z.eqb_spec (v b) 0) as [E|_]; [exists zero; split_and!; [done|apply nombre_zero|rewrite E; cbn; lia]|].
  destruct Ha as [Ha _], Hb as [Hb _]. set (n := (length (limbs a) + length (limbs b))%nat).
  assert (forall j, (j <= length (limbs a))%nat ->
    val (replicate n 0) + val (take j (limbs a)) * v b * base 0 < base (0 + j + length (limbs b))) as Hj.
  { intros j Hj. rewrite val_zeros. change (base 0) with 1. rewrite base_add.
    pose proof (val_borne (take j (limbs a)) (Forall_take _ _ _ Ha)) as B1. rewrite length_take, Nat.min_l in B1 by done.
    pose proof (val_borne _ Hb). change (0 + j)%nat with j. nia. }
  destruct (lignes_spec (limbs a) (limbs b) Ha Hb (replicate n 0) 0) as (out & -> & Hf & Hv).
  - apply Forall_replicate. unfold limbe. lia.
  - rewrite length_replicate. lia.
  - rewrite length_replicate. specialize (Hj (length (limbs a)) ltac:(lia)). by rewrite take_ge in Hj by lia.
  - done.
  - eexists. split_and!; [done|by apply normalize_nombre|]. rewrite normalize_val. cbn [limbs].
    rewrite Hv, val_zeros. change (base 0) with 1. lia.
Qed.

Lemma mul_rem_spec a b m : nombre a -> nombre b -> nombre m -> 0 < v m ->
  exists c, mul_rem a b m = Some c /\ nombre c /\ v c = (v a * v b) mod v m.
Proof.
  intros Ha Hb Hm Hp. destruct (mul_spec a b Ha Hb) as (c & E & Hc & Hv). unfold mul_rem. rewrite E, <- Hv.
  destruct (rem_spec c m Hc Hm Hp). eauto.
Qed.

(** ** Modular exponentiation *)

Lemma modpow_depuis_spec bs e m : nombre bs -> nombre e -> nombre m -> 0 < v m -> forall n result,
  nombre result -> v result = v bs ^ Z.shiftr (v e) (Z.of_nat n) mod v m ->
  exists c, modpow_depuis n bs e m result = Some c /\ nombre c /\ v c = v bs ^ v e mod v m.
Proof.
  intros Hbs He Hm Hp. induction n as [|i IH]; intros r Hr Hv; cbn [modpow_depuis].
  { rewrite Z.shiftr_0_r in Hv. eauto. }
  destruct (mul_rem_spec r r m Hr Hr Hm Hp) as (r1 & -> & Hr1 & Hv1). rewrite get_bit_spec by apply He.
  set (q := Z.shiftr (v e) (Z.of_nat (S i))) in *.
  assert (0 <= q) as Hq by (apply Z.shiftr_nonneg; apply (val_borne _ (proj1 He))).
  assert (v r1 = v bs ^ (2 * q) mod v m) as E1.
  { rewrite Hv1, Hv, <- Z.mul_mod, <- Z.pow_add_r by lia. do 2 f_equal. lia. }
  pose proof (shiftr_pas (v e) i) as Hs. fold q in Hs.
  destruct (Z.testbit (v e) (Z.of_nat i)); cbn [Z.b2z] in *.
  - change (1 =? 1) with true. cbn iota. destruct (mul_rem_spec r1 bs m Hr1 Hbs Hm Hp) as (r2 & -> & Hr2 & Hv2).
    apply IH; [done|]. rewrite Hv2, E1, Zmult_mod_idemp_l, Hs, Z.pow_add_r, Z.pow_1_r by lia. done.
  - change (0 =? 1) with false. cbn iota. apply IH; [done|]. by rewrite E1, Hs, Z.add_0_r.
Qed.

(** ** Octets, most significant first *)

Definition from_be (l : list Z) : Z := from_le (rev l).
Definition to_be (n : nat) (z : Z) : list Z := rev (to_le n z).

Lemma from_le_app l1 l2 : from_le (l1 ++ l2) = from_le l1 + 256 ^ Z.of_nat (length l1) * from_le l2.
Proof.
  induction l1 as [|x l IH]; cbn [app from_le length]; [change (256 ^ Z.of_nat 0) with 1; lia|].
  rewrite IH, Nat2Z.inj_succ, Z.pow_succ_r by lia. lia.
Qed.
Lemma from_be_app l1 l2 : from_be (l1 ++ l2) = from_be l1 * 256 ^ Z.of_nat (length l2) + from_be l2.
Proof. unfold from_be. rewrite rev_app_distr, from_le_app, length_rev. lia. Qed.
Lemma from_be_borne l : Forall octet l -> 0 <= from_be l < 256 ^ Z.of_nat (length l).
Proof. intros H. unfold from_be. rewrite <- (length_rev l). apply from_le_bound. by apply Forall_rev. Qed.
Lemma length_to_be n z : length (to_be n z) = n.
Proof. unfold to_be. by rewrite length_rev, length_to_le. Qed.
Lemma to_be_octets n z : Forall octet (to_be n z).
Proof. apply Forall_rev, to_le_octets. Qed.
Lemma from_to_be n z : 0 <= z < 256 ^ Z.of_nat n -> from_be (to_be n z) = z.
Proof. intros H. unfold from_be, to_be. rewrite rev_involutive. by apply from_to_le_small. Qed.
Lemma from_be_inj l1 l2 : Forall octet l1 -> Forall octet l2 -> length l1 = length l2 ->
  from_be l1 = from_be l2 -> l1 = l2.
Proof.
  intros H1 H2 Hl H. rewrite <- (rev_involutive l1), <- (rev_involutive l2). f_equal.
  apply from_le_inj; [by apply Forall_rev|by apply Forall_rev|by rewrite !length_rev|done].
Qed.
Lemma to_be_de l n : Forall octet l -> (length l <= n)%nat -> replicate (n - length l) 0 ++ l = to_be n (from_be l).
Proof.
  intros Hl Hn. pose proof (from_be_borne l Hl). assert (256 ^ Z.of_nat (length l) <= 256 ^ Z.of_nat n) by (apply Z.pow_le_mono_r; lia).
  assert (Forall octet (replicate (n - length l) 0)) as Hz by (apply Forall_replicate; unfold octet; lia).
  assert (forall k, from_be (replicate k 0) = 0) as Hk.
  { induction k as [|k IH]; [done|]. change (replicate (S k) 0) with ([0] ++ replicate k 0). rewrite from_be_app, IH. done. }
  apply from_be_inj; [by apply Forall_app|apply to_be_octets|rewrite length_app, length_replicate, length_to_be; lia|].
  rewrite from_be_app, from_to_be, Hk by lia. lia.
Qed.

Lemma fold_octets l : forall a, Forall octet l -> 0 <= a -> (a + 1) * 256 ^ Z.of_nat (length l) <= 2 ^ 32 ->
  fold_left (fun x b => Z.lor (Z.shiftl x 8 mod 2 ^ 32) b) l a = a * 256 ^ Z.of_nat (length l) + from_be l.
Proof.
  induction l as [|b l IH]; intros a Hl Ha Hs; cbn [fold_left length]; [cbn; lia|].
  inversion Hl as [|? ? Hb Hl']; subst. unfold octet in Hb. cbn [length] in Hs.
  rewrite Nat2Z.inj_succ, Z.pow_succ_r in Hs by lia.
  assert (1 <= 256 ^ Z.of_nat (length l)) by (apply (Z.pow_le_mono_r 256 0); lia).
  rewrite Z.shiftl_mul_pow2, Z.mod_small, lor_disjoint by (change (2 ^ 8) with 256; nia).
  rewrite IH; [|done|lia|change (2 ^ 8) with 256; nia]. change (b :: l) with ([b] ++ l). rewrite from_be_app.
  rewrite Nat2Z.inj_succ, Z.pow_succ_r by lia. change (from_be [b]) with (b + 256 * 0). change (2 ^ 8) with 256. lia.
Qed.
Lemma decoupe_spec tours bytes : Forall octet bytes -> forall i, (i <= length bytes)%nat -> (i <= tours)%nat ->
  Forall limbe (decoupe tours bytes i) /\ val (decoupe tours bytes i) = from_be (take i bytes).
Proof.
  intros Hb. induction tours as [|tours IH]; intros i Hi Ht; cbn [decoupe]; [assert (i = 0)%nat as -> by lia; done|].
  destruct (Nat.eqb_spec i 0) as [->|H0]; [done|]. cbv zeta. set (start := (if 4 <=? i then i - 4 else 0)%nat).
  assert ((start < i)%nat /\ (i - start <= 4)%nat /\ (start = 0 \/ i - start = 4)%nat) as (Hs & H4 & Hc).
  { unfold start. destruct (Nat.leb_spec 4 i); lia. }
  clearbody start. destruct (IH start ltac:(lia) ltac:(lia)) as [Hf Hv].
  assert (Forall octet (slice bytes start (i - start))) as Hsl by (by apply Forall_slice).
  assert (length (slice bytes start (i - start)) = (i - start)%nat) as Hlen by (apply length_slice; lia).
  pose proof (from_be_borne _ Hsl) as B. rewrite Hlen in B.
  assert (256 ^ Z.of_nat (i - start) <= 2 ^ 32) by (change (2 ^ 32) with (256 ^ 4); apply Z.pow_le_mono_r; lia).
  rewrite fold_octets by (try done; try lia; rewrite Hlen; lia). rewrite Z.mul_0_l, Z.add_0_l. split.
  - constructor; [unfold limbe; lia|done].
  - cbn [val]. rewrite Hv. replace (take i bytes) with (take start bytes ++ slice bytes start (i - start)).
    2: { unfold slice. rewrite <- (take_drop start (take i bytes)), take_take, Nat.min_l by lia.
         f_equal. by rewrite <- skipn_firstn_comm. }
    rewrite from_be_app, Hlen. destruct Hc as [->|Hc]; [rewrite firstn_O; cbn; lia|].
    rewrite Hc. change (256 ^ Z.of_nat 4) with (2 ^ 32). lia.
Qed.
Lemma from_bytes_be_spec bytes : Forall octet bytes ->
  nombre (from_bytes_be bytes) /\ v (from_bytes_be bytes) = from_be bytes.
Proof.
  intros Hb. destruct (decoupe_spec (length bytes) bytes Hb (length bytes)) as [Hf Hv]; [lia|lia|].
  split; [by apply normalize_nombre|]. unfold from_bytes_be. rewrite normalize_val. cbn [limbs]. by rewrite Hv, take_ge.
Qed.

Lemma garde_un_spec l : Forall octet l -> Forall octet (garde_un l) /\ from_be (garde_un l) = from_be l /\
  (l <> [] -> garde_un l <> []) /\ ((length (garde_un l) <= 1)%nat \/ exists x l', garde_un l = x :: l' /\ 1 <= x).
Proof.
  induction 1 as [|x l Hx Hl IH]; [split_and!; [done|done|done|left; cbn; lia]|]. cbn [garde_un].
  destruct l as [|y l]; [split_and!; [by constructor|done|done|left; cbn; lia]|].
  unfold octet in Hx. destruct (Z.eqb_spec x 0) as [->|H0].
  - destruct IH as (H1 & H2 & H3 & H4). split_and!; [done| |intros _; by apply H3|done].
    rewrite H2. change (0 :: y :: l) with ([0] ++ y :: l). rewrite from_be_app. done.
  - split_and!; [by constructor|done|done|right; exists x, (y :: l); split; [done|lia]].
Qed.
Lemma be4_spec x : limbe x -> Forall octet (be4 x) /\ length (be4 x) = 4%nat /\ from_be (be4 x) = x.
Proof.
  intros Hx. change (be4 x) with (to_be 4 x). split_and!; [apply to_be_octets|apply length_to_be|by apply from_to_be].
Qed.
Lemma concat_be4 l : Forall limbe l ->
  Forall octet (concat (be4 <$> rev l)) /\ from_be (concat (be4 <$> rev l)) = val l.
Proof.
  induction 1 as [|x l Hx Hl [IH1 IH2]]; [done|]. cbn [rev val]. rewrite fmap_app, concat_app, from_be_app.
  cbn [fmap list_fmap concat]. rewrite app_nil_r. destruct (be4_spec x Hx) as (H1 & H2 & H3).
  rewrite H2, H3, IH2. change (256 ^ Z.of_nat 4) with (2 ^ 32). split; [by apply Forall_app|lia].
Qed.
Lemma to_bytes_be_spec b n : nombre b -> v b < 256 ^ Z.of_nat n -> (1 <= n)%nat ->
  Forall octet (to_bytes_be b) /\ from_be (to_bytes_be b) = v b /\ (length (to_bytes_be b) <= n)%nat.
Proof.
  intros Hb Hv Hn. unfold to_bytes_be. destruct (limbs b) as [|x l] eqn:E.
  { split_and!; [repeat constructor; lia|done|cbn; lia]. }
  rewrite <- E in *. destruct (concat_be4 (limbs b) (proj1 Hb)) as [Ho Hf].
  destruct (garde_un_spec _ Ho) as (H1 & H2 & _ & H4). rewrite Hf in H2. split_and!; [done|done|].
  destruct H4 as [H4|(y & l' & E' & Hy)]; [lia|]. rewrite E' in *. cbn [length]. inversion H1 as [|? ? _ Hl']; subst.
  change (y :: l') with ([y] ++ l') in H2. rewrite from_be_app in H2. pose proof (from_be_borne l' Hl').
  change (from_be [y]) with (y + 256 * 0) in H2.
  apply Nat.lt_nge. intros Hge. assert (256 ^ Z.of_nat n <= 256 ^ Z.of_nat (length l')) by (apply Z.pow_le_mono_r; lia). nia.
Qed.

(** Modular exponentiation of numbers read from octets. *)
Lemma modpow_spec a e m : nombre a -> nombre e -> nombre m -> 0 < v m ->
  exists c, modpow a e m = Some c /\ nombre c /\ v c = v a ^ v e mod v m.
Proof.
  intros Ha He Hm Hp. unfold modpow. rewrite is_zero_spec by done. destruct (Z.eqb_spec (v m) 0); [lia|].
  destruct (from_bytes_be_spec [1]) as [H1 E1]; [repeat constructor; lia|].
  destruct (rem_spec a m Ha Hm Hp) as [Hra Ea]. destruct (rem_spec (from_bytes_be [1]) m H1 Hm Hp) as [Hr1 Er1].
  destruct (modpow_depuis_spec (rem a m) e m Hra He Hm Hp (bit_len e) _ Hr1) as (c & E & Hc & Hv).
  { rewrite Er1, E1, Z.shiftr_div_pow2 by lia. rewrite Z.div_small; [done|].
    split; [apply (val_borne _ (proj1 He))|by apply bit_len_borne]. }
  exists c. split_and!; [done|done|]. rewrite Hv, Ea. rewrite <- Zpower_mod by lia. done.
Qed.
End BigUintProofs.
