(* ===== verification/Hachage.v ===== *)
(** Hash functions of the TLS client: [src/net/security/tls/sha256.rs] (an incremental SHA-256),
    [sha512.rs] (SHA-384 and SHA-512 of a whole message) and [hash.rs] (HMAC and HKDF over
    either). Words are integers reduced at their width. *)

From S2P Require Import Prelude GrandsEntiers.

Module Hachage.
Import BigUintProofs(to_be, from_be).
Open Scope Z_scope.

Definition rotate_right (w n x : Z) : Z := Z.lor (Z.shiftr x n) (Z.shiftl x (w - n) mod 2 ^ w).
(** [!x] at width [w]. *)
Definition complement (w x : Z) : Z := 2 ^ w - 1 - x.
Definition xor3 (a b c : Z) : Z := Z.lxor (Z.lxor a b) c.

(** The eight working variables. *)
Record Etat := mk_etat { a : Z; b : Z; c : Z; d : Z; e : Z; f : Z; g : Z; hh : Z }.
Definition charge (h : list Z) : Etat :=
  mk_etat (aget h 0) (aget h 1) (aget h 2) (aget h 3) (aget h 4) (aget h 5) (aget h 6) (aget h 7).
Definition mots_de (s : Etat) : list Z := [a s; b s; c s; d s; e s; f s; g s; hh s].
Definition ch (w : Z) (s : Etat) : Z := Z.lxor (Z.land (e s) (f s)) (Z.land (complement w (e s)) (g s)).
Definition maj (s : Etat) : Z := xor3 (Z.land (a s) (b s)) (Z.land (a s) (c s)) (Z.land (b s) (c s)).

(** ** SHA-256 *)

(** The tables of the code, their words one after the other: [n] words of [w] bits, the first in front. *)
Definition mots (n : nat) (w x : Z) : list Z :=
  (fun i => Z.shiftr x (w * Z.of_nat (n - 1 - i)) mod 2 ^ w) <$> seq 0 n.
Definition H0 : list Z := Eval vm_compute in mots 8 32
  0x6a09e667bb67ae853c6ef372a54ff53a510e527f9b05688c1f83d9ab5be0cd19.
Definition K : list Z := Eval vm_compute in mots 64 32
  0x428a2f9871374491b5c0fbcfe9b5dba53956c25b59f111f1923f82a4ab1c5ed5d807aa9812835b01243185be550c7dc372be5d7480deb1fe9bdc06a7c19bf174e49b69c1efbe47860fc19dc6240ca1cc2de92c6f4a7484aa5cb0a9dc76f988da983e5152a831c66db00327c8bf597fc7c6e00bf3d5a7914706ca63511429296727b70a852e1b21384d2c6dfc53380d13650a7354766a0abb81c2c92e92722c85a2bfe8a1a81a664bc24b8b70c76c51a3d192e819d6990624f40e3585106aa07019a4c1161e376c082748774c34b0bcb5391c0cb34ed8aa4a5b9cca4f682e6ff3748f82ee78a5636f84c878148cc7020890befffaa4506cebbef9a3f7c67178f2.
Definition HASH_LEN : nat := 32.
Definition BLOCK_LEN : nat := 64.

Definition add32 (x y : Z) : Z := (x + y) mod 2 ^ 32.
Definition rotr32 := rotate_right 32.

(** The message schedule, from word 16. *)
Fixpoint etend (n : nat) (w : list Z) : list Z :=
  match n with
  | O => w
  | S n =>
      let i := Z.of_nat (length w) in
      let s0 := xor3 (rotr32 7 (aget w (i - 15))) (rotr32 18 (aget w (i - 15))) (Z.shiftr (aget w (i - 15)) 3) in
      let s1 := xor3 (rotr32 17 (aget w (i - 2))) (rotr32 19 (aget w (i - 2))) (Z.shiftr (aget w (i - 2)) 10) in
      etend n (w ++ [add32 (add32 (add32 (aget w (i - 16)) s0) (aget w (i - 7))) s1])
  end.
Definition tour (s : Etat) (k w : Z) : Etat :=
  let s1 := xor3 (rotr32 6 (e s)) (rotr32 11 (e s)) (rotr32 25 (e s)) in
  let t1 := add32 (add32 (add32 (add32 (hh s) s1) (ch 32 s)) k) w in
  let s0 := xor3 (rotr32 2 (a s)) (rotr32 13 (a s)) (rotr32 22 (a s)) in
  let t2 := add32 s0 (maj s) in
  mk_etat (add32 t1 t2) (a s) (b s) (c s) (add32 (d s) t1) (e s) (f s) (g s).
Definition compress (h block : list Z) : list Z :=
  let w := etend 48 ((fun i => from_be (slice block (4 * i) 4)) <$> seq 0 16) in
  let s := fold_left (fun s kw => tour s kw.1 kw.2) (zip K w) (charge h) in
  zip_with add32 h (mots_de s).

Record Sha256 := mk_sha { h : list Z; buf : list Z; buf_len : nat; total : Z }.
Definition sha_new : Sha256 := mk_sha H0 (replicate BLOCK_LEN 0) 0 0.

(** [while data.len() >= BLOCK_LEN] *)
Fixpoint blocs (tours : nat) (h data : list Z) : list Z * list Z :=
  match tours with
  | O => (h, data)
  | S tours =>
      if (BLOCK_LEN <=? length data)%nat
      then blocs tours (compress h (take BLOCK_LEN data)) (drop BLOCK_LEN data)
      else (h, data)
  end.
Definition update_no_count (s : Sha256) (data : list Z) : Sha256 :=
  let '(s, data) :=
    if (0 <? buf_len s)%nat then
      let n := Nat.min (BLOCK_LEN - buf_len s) (length data) in
      let buf := splice (buf s) (buf_len s) (take n data) in
      let len := (buf_len s + n)%nat in
      (if (len =? BLOCK_LEN)%nat then mk_sha (compress (h s) buf) buf 0 (total s)
       else mk_sha (h s) buf len (total s), drop n data)
    else (s, data) in
  let '(h, data) := blocs (length data) (h s) data in
  if (length data =? 0)%nat then mk_sha h (buf s) (buf_len s) (total s)
  else mk_sha h (splice (buf s) 0 data) (length data) (total s).
Definition update (s : Sha256) (data : list Z) : Sha256 :=
  update_no_count
    (mk_sha (h s) (buf s) (buf_len s) (wrapping_add64 (total s) (Z.of_nat (length data)))) data.
Definition finalize (s : Sha256) : list Z :=
  let bit_len := (total s * 8) mod u64_max in
  let reste := ((buf_len s + 1) mod BLOCK_LEN)%nat in
  let zeros := (if reste <=? 56 then 56 - reste else 56 + BLOCK_LEN - reste)%nat in
  let pad := 128 :: replicate (BLOCK_LEN + 7) 0 in
  let s := update_no_count s (take (1 + zeros) pad) in
  let s := update_no_count s (to_be 8 bit_len) in
  concat (to_be 4 <$> h s).
Definition sha256 (data : list Z) : list Z := finalize (update sha_new data).

(** ** SHA-512 and SHA-384 *)

Module Sha512.
Definition K : list Z := Eval vm_compute in mots 80 64
  0x428a2f98d728ae227137449123ef65cdb5c0fbcfec4d3b2fe9b5dba58189dbbc3956c25bf348b53859f111f1b605d019923f82a4af194f9bab1c5ed5da6d8118d807aa98a303024212835b0145706fbe243185be4ee4b28c550c7dc3d5ffb4e272be5d74f27b896f80deb1fe3b1696b19bdc06a725c71235c19bf174cf692694e49b69c19ef14ad2efbe4786384f25e30fc19dc68b8cd5b5240ca1cc77ac9c652de92c6f592b02754a7484aa6ea6e4835cb0a9dcbd41fbd476f988da831153b5983e5152ee66dfaba831c66d2db43210b00327c898fb213fbf597fc7beef0ee4c6e00bf33da88fc2d5a79147930aa72506ca6351e003826f142929670a0e6e7027b70a8546d22ffc2e1b21385c26c9264d2c6dfc5ac42aed53380d139d95b3df650a73548baf63de766a0abb3c77b2a881c2c92e47edaee692722c851482353ba2bfe8a14cf10364a81a664bbc423001c24b8b70d0f89791c76c51a30654be30d192e819d6ef5218d69906245565a910f40e35855771202a106aa07032bbd1b819a4c116b8d2d0c81e376c085141ab532748774cdf8eeb9934b0bcb5e19b48a8391c0cb3c5c95a634ed8aa4ae3418acb5b9cca4f7763e373682e6ff3d6b2b8a3748f82ee5defb2fc78a5636f43172f6084c87814a1f0ab728cc702081a6439ec90befffa23631e28a4506cebde82bde9bef9a3f7b2c67915c67178f2e372532bca273eceea26619cd186b8c721c0c207eada7dd6cde0eb1ef57d4f7fee6ed17806f067aa72176fba0a637dc5a2c898a6113f9804bef90dae1b710b35131c471b28db77f523047d8432caab7b40c724933c9ebe0a15c9bebc431d67c49c100d4c4cc5d4becb3e42b6597f299cfc657e2a5fcb6fab3ad6faec6c44198c4a475817.
Definition H384 : list Z := Eval vm_compute in mots 8 64
  0xcbbb9d5dc1059ed8629a292a367cd5079159015a3070dd17152fecd8f70e593967332667ffc00b318eb44a8768581511db0c2e0d64f98fa747b5481dbefa4fa4.
Definition H512 : list Z := Eval vm_compute in mots 8 64
  0x6a09e667f3bcc908bb67ae8584caa73b3c6ef372fe94f82ba54ff53a5f1d36f1510e527fade682d19b05688c2b3e6c1f1f83d9abfb41bd6b5be0cd19137e2179.

Definition add64 (x y : Z) : Z := (x + y) mod 2 ^ 64.
Definition rotr64 := rotate_right 64.
Fixpoint etend (n : nat) (w : list Z) : list Z :=
  match n with
  | O => w
  | S n =>
      let i := Z.of_nat (length w) in
      let s0 := xor3 (rotr64 1 (aget w (i - 15))) (rotr64 8 (aget w (i - 15))) (Z.shiftr (aget w (i - 15)) 7) in
      let s1 := xor3 (rotr64 19 (aget w (i - 2))) (rotr64 61 (aget w (i - 2))) (Z.shiftr (aget w (i - 2)) 6) in
      etend n (w ++ [add64 (add64 (add64 (aget w (i - 16)) s0) (aget w (i - 7))) s1])
  end.
Definition tour (s : Etat) (k w : Z) : Etat :=
  let s1 := xor3 (rotr64 14 (e s)) (rotr64 18 (e s)) (rotr64 41 (e s)) in
  let t1 := add64 (add64 (add64 (add64 (hh s) s1) (ch 64 s)) k) w in
  let s0 := xor3 (rotr64 28 (a s)) (rotr64 34 (a s)) (rotr64 39 (a s)) in
  let t2 := add64 s0 (maj s) in
  mk_etat (add64 t1 t2) (a s) (b s) (c s) (add64 (d s) t1) (e s) (f s) (g s).
Definition bloc (h block : list Z) : list Z :=
  let w := etend 64 ((fun i => from_be (slice block (8 * i) 8)) <$> seq 0 16) in
  let s := fold_left (fun s kw => tour s kw.1 kw.2) (zip K w) (charge h) in
  zip_with add64 h (mots_de s).
(** [while (msg.len() % 128) != 112 { msg.push(0); }] *)
Fixpoint bourre (tours : nat) (msg : list Z) : list Z :=
  match tours with
  | O => msg
  | S tours => if (length msg mod 128 =? 112)%nat then msg else bourre tours (msg ++ [0])
  end.
Fixpoint chunks (tours : nat) (h msg : list Z) : list Z :=
  match tours with
  | O => h
  | S tours => if (length msg =? 0)%nat then h else chunks tours (bloc h (take 128 msg)) (drop 128 msg)
  end.
Definition digest (data h : list Z) : list Z :=
  let msg := bourre 128 (data ++ [128]) ++ to_be 16 (Z.of_nat (length data) * 8) in
  concat (to_be 8 <$> chunks (length msg) h msg).
Definition sha512 (data : list Z) : list Z := digest data H512.
Definition sha384 (data : list Z) : list Z := take 48 (digest data H384).
End Sha512.

(** ** HMAC and HKDF *)

Inductive HashAlg := Sha256Alg | Sha384Alg.
Definition len (alg : HashAlg) : nat := match alg with Sha256Alg => 32 | Sha384Alg => 48 end.
Definition block_len (alg : HashAlg) : nat := match alg with Sha256Alg => 64 | Sha384Alg => 128 end.
Definition digest (alg : HashAlg) (data : list Z) : list Z :=
  match alg with Sha256Alg => sha256 data | Sha384Alg => Sha512.sha384 data end.
Definition cle_bloc (alg : HashAlg) (key : list Z) : list Z :=
  splice (replicate (block_len alg) 0) 0
    (if (block_len alg <? length key)%nat then take (len alg) (digest alg key) else key).
Definition hmac (alg : HashAlg) (key msg : list Z) : list Z :=
  let k := cle_bloc alg key in
  let ipad := Z.lxor 54 <$> k in
  let opad := Z.lxor 92 <$> k in
  digest alg (opad ++ digest alg (ipad ++ msg)).
(** HMAC as [sha256.rs] computes it, with the incremental hash. *)
Definition hmac_sha256 (key msg : list Z) : list Z :=
  let k := splice (replicate BLOCK_LEN 0) 0
    (if (BLOCK_LEN <? length key)%nat then sha256 key else key) in
  let inner := finalize (update (update sha_new (Z.lxor 54 <$> k)) msg) in
  finalize (update (update sha_new (Z.lxor 92 <$> k)) inner).

Definition hkdf_extract (alg : HashAlg) (salt ikm : list Z) : list Z := hmac alg salt ikm.
Fixpoint expand (tours : nat) (alg : HashAlg) (prk info : list Z) (length_ : nat) (t : list Z) (counter : Z)
    (out : list Z) : list Z :=
  match tours with
  | O => out
  | S tours =>
      if (length_ <=? length out)%nat then out
      else
        let t := hmac alg prk (t ++ info ++ [counter]) in
        expand tours alg prk info length_ t ((counter + 1) mod 256)
          (out ++ take (Nat.min (length_ - length out) (len alg)) t)
  end.
Definition hkdf_expand (alg : HashAlg) (prk info : list Z) (length_ : nat) : list Z :=
  expand length_ alg prk info length_ [] 1 [].
(** "tls13 " *)
Definition tls13 : list Z := [116; 108; 115; 49; 51; 32].
Definition hkdf_expand_label (alg : HashAlg) (secret label context : list Z) (length_ : nat) : list Z :=
  let full_label := tls13 ++ label in
  let info := to_be 2 (Z.of_nat length_) ++ [Z.of_nat (length full_label) mod 256] ++ full_label ++
              [Z.of_nat (length context) mod 256] ++ context in
  hkdf_expand alg secret info length_.
Definition derive_secret (alg : HashAlg) (secret label transcript_hash : list Z) : list Z :=
  hkdf_expand_label alg secret label transcript_hash (len alg).
Definition empty_hash (alg : HashAlg) : list Z := digest alg [].
Definition zeros (alg : HashAlg) : list Z := replicate (len alg) 0.

(** The vectors of the self tests. *)
Example sha256_abc : from_be (sha256 [97; 98; 99]) = 0xba7816bf8f01cfea414140de5dae2223b00361a396177a9cb410ff61f20015ad.
Proof. vm_compute. reflexivity. Qed.
Example sha384_abc : from_be (Sha512.sha384 [97; 98; 99]) =
  0xcb00753f45a35e8bb5a03d699ac65007272c32ab0eded1631a8b605a43ff5bed8086072ba1e7cc2358baeca134c825a7.
Proof. vm_compute. reflexivity. Qed.
Example hmac_jefe : from_be (hmac_sha256 [74; 101; 102; 101] [119; 104; 97; 116; 32; 100; 111; 32; 121; 97; 32; 119; 97; 110; 116; 32; 102; 111; 114; 32; 110; 111; 116; 104; 105; 110; 103; 63]) =
  0x5bdcc146bf60754e6a042426089575c75a003f089d2739839dec58b964ec3843.
Proof. vm_compute. reflexivity. Qed.
End Hachage.

Module HachageProofs.
Import Hachage.
Import BigUintProofs(to_be, from_be, length_to_be).
Open Scope Z_scope.

(** ** The standard: the padded message, block by block *)

Fixpoint morceaux (n : nat) (l : list Z) : list (list Z) :=
  match n with O => [] | S n => take 64 l :: morceaux n (drop 64 l) end.
(** One bit, zeros up to 56 octets modulo 64, the length in bits on 64 bits. *)
Definition complete (m : list Z) : list Z :=
  m ++ 128 :: replicate (Z.to_nat ((55 - Z.of_nat (length m)) mod 64)) 0 ++
  to_be 8 (8 * Z.of_nat (length m) mod u64_max).
Definition sha256_fips (m : list Z) : list Z :=
  concat (to_be 4 <$> fold_left compress (morceaux (length (complete m) / 64) (complete m)) H0).

(** ** The incremental hash follows it *)

Lemma blocs_stop n h l : (length l < 64)%nat -> blocs n h l = (h, l).
Proof. intros H. destruct n; cbn [blocs]; [done|]. unfold BLOCK_LEN. destruct (Nat.leb_spec 64 (length l)); [lia|done]. Qed.
Lemma blocs_bloc n h b l : (length b = 64)%nat -> blocs (S n) h (b ++ l) = blocs n (compress h b) l.
Proof.
  intros Hb. cbn [blocs]. unfold BLOCK_LEN. rewrite length_app.
  destruct (Nat.leb_spec 64 (length b + length l)); [|lia]. by rewrite take_app_length', drop_app_length'.
Qed.
Definition mange (h l : list Z) : list Z * list Z := blocs (length l) h l.
Lemma blocs_carburant n : forall k h l, (length l <= n)%nat -> (length l <= k)%nat -> blocs n h l = blocs k h l.
Proof.
  induction n as [|n IH]; intros k h l Hn Hk; [rewrite !blocs_stop; [done|lia..]|].
  destruct (Nat.lt_ge_cases (length l) 64) as [|Hge]; [by rewrite !blocs_stop|].
  destruct k as [|k]; [lia|]. rewrite <- (take_drop 64 l).
  assert (length (take 64 l) = 64%nat) as Ht by (rewrite length_take; lia).
  rewrite !blocs_bloc by done. apply IH; rewrite length_drop; lia.
Qed.
Lemma blocs_assez n h l : (length l <= n)%nat -> blocs n h l = mange h l.
Proof. intros. by apply blocs_carburant. Qed.
Lemma mange_bloc h b l : (length b = 64)%nat -> mange h (b ++ l) = mange (compress h b) l.
Proof.
  intros Hb. rewrite <- (blocs_assez (S (length (b ++ l)))) by lia. rewrite blocs_bloc by done.
  apply blocs_assez. rewrite length_app. lia.
Qed.
Lemma mange_spec n : forall h l, (length l <= n)%nat ->
  (length (mange h l).2 < 64)%nat /\ forall data, mange h (l ++ data) = mange (mange h l).1 ((mange h l).2 ++ data).
Proof.
  induction n as [|n IH]; intros h l Hl.
  { destruct l; [|cbn in Hl; lia]. split; [cbn; lia|done]. }
  destruct (Nat.lt_ge_cases (length l) 64) as [Hlt|Hge].
  - assert (mange h l = (h, l)) as -> by (by apply blocs_stop). by split.
  - assert (length (take 64 l) = 64%nat) as Ht by (rewrite length_take; lia).
    assert (mange h l = mange (compress h (take 64 l)) (drop 64 l)) as E
      by (rewrite <- (take_drop 64 l) at 1; by apply mange_bloc).
    destruct (IH (compress h (take 64 l)) (drop 64 l)) as [H1 H2]; [rewrite length_drop; lia|].
    rewrite E. split; [done|]. intros data. rewrite <- H2, <- (take_drop 64 l) at 1.
    rewrite <- app_assoc. by apply mange_bloc.
Qed.

(** What has been hashed: [x] is the words and the octets of the block being filled. *)
Definition suit (s : Sha256) (x : list Z * list Z) : Prop :=
  h s = x.1 /\ length (buf s) = 64%nat /\ (buf_len s < 64)%nat /\ take (buf_len s) (buf s) = x.2.

Lemma suite_blocs h0 b tot data : length b = 64%nat ->
  suit (let '(h, data) := blocs (length data) h0 data in
        if (length data =? 0)%nat then mk_sha h b 0 tot
        else mk_sha h (splice b 0 data) (length data) tot) (mange h0 data).
Proof.
  intros Hb. change (blocs (length data) h0 data) with (mange h0 data).
  destruct (mange_spec (length data) h0 data ltac:(lia)) as [Hr _]. destruct (mange h0 data) as [h1 r]. cbn [snd] in Hr.
  destruct (Nat.eqb_spec (length r) 0) as [E|E].
  - apply nil_length_inv in E as ->. split_and!; cbn; [done|done|lia|done].
  - split_and!; cbn [Hachage.h Hachage.buf Hachage.buf_len fst snd]; [done|by rewrite length_splice|done|].
    rewrite splice_in by lia. rewrite firstn_O. cbn [app]. by rewrite take_app_length.
Qed.
Lemma update_no_count_spec s x data : suit s x -> suit (update_no_count s data) (mange x.1 (x.2 ++ data)).
Proof.
  intros (Hh & Hb & Hl & Ht). assert (length x.2 = buf_len s) as Hx by (rewrite <- Ht, length_take; lia).
  unfold update_no_count. destruct (Nat.ltb_spec 0 (buf_len s)) as [H0|H0].
  2: { assert (buf_len s = 0)%nat as E by lia. rewrite E in Hx. apply nil_length_inv in Hx. rewrite Hx, <- Hh. cbn [app].
       rewrite E. by apply suite_blocs. }
  unfold BLOCK_LEN. set (n := Nat.min (64 - buf_len s) (length data)).
  assert (length (take n data) = n) as Hn by (rewrite length_take; lia).
  assert (splice (buf s) (buf_len s) (take n data) = x.2 ++ take n data ++ drop (buf_len s + n) (buf s)) as Hsp.
  { rewrite splice_in by (rewrite Hn; lia). by rewrite Ht, Hn. }
  destruct (Nat.eqb_spec (buf_len s + n) 64) as [E|E]; cbn [h buf buf_len total].
  - rewrite Hsp, E, (drop_ge (buf s) 64) by lia; rewrite app_nil_r.
    assert (mange x.1 (x.2 ++ data) = mange (compress (h s) (x.2 ++ take n data)) (drop n data)) as ->.
    { rewrite <- (take_drop n data) at 1. rewrite app_assoc, Hh. apply mange_bloc. rewrite length_app. lia. }
    apply suite_blocs. rewrite length_app. lia.
  - assert (n = length data) as En by lia. rewrite (drop_ge data) by lia. rewrite (take_ge data) in * by lia.
    cbn [length blocs]. change (0 =? 0)%nat with true. cbn iota.
    assert (mange x.1 (x.2 ++ data) = (x.1, x.2 ++ data)) as -> by (apply blocs_stop; rewrite length_app; lia).
    split_and!; cbn [h buf buf_len fst snd]; [done|by rewrite length_splice|lia|].
    rewrite Hsp, app_assoc. apply take_app_length'. rewrite length_app. lia.
Qed.

Lemma update_spec s m data : suit s (mange H0 m) -> total s = Z.of_nat (length m) mod u64_max ->
  suit (update s data) (mange H0 (m ++ data)) /\ total (update s data) = Z.of_nat (length (m ++ data)) mod u64_max.
Proof.
  intros Hs Ht. split.
  - rewrite (proj2 (mange_spec (length m) H0 m ltac:(lia))). apply (update_no_count_spec _ (mange H0 m)). exact Hs.
  - rewrite length_app, Nat2Z.inj_add. transitivity (wrapping_add64 (total s) (Z.of_nat (length data))).
    + unfold update, update_no_count. cbn [h buf buf_len total].
      destruct (0 <? buf_len s)%nat; [destruct (_ =? BLOCK_LEN)%nat|]; cbn [h buf buf_len total];
        destruct (blocs _ _ _) as [h1 r]; by destruct (length r =? 0)%nat.
    + unfold wrapping_add64. by rewrite Ht, Zplus_mod_idemp_l.
Qed.

Lemma mange_morceaux n : forall h l, length l = (64 * n)%nat -> mange h l = (fold_left compress (morceaux n l) h, []).
Proof.
  induction n as [|n IH]; intros h l Hl; [by destruct l|]. cbn [morceaux fold_left].
  rewrite <- IH by (rewrite length_drop; lia). rewrite <- (take_drop 64 l) at 1. apply mange_bloc. rewrite length_take. lia.
Qed.
(** The padding of [finalize] is that of the standard. *)
Lemma bourrage_fips n r : (r < 64)%nat -> (n mod 64 = r)%nat ->
  (if ((r + 1) mod 64 <=? 56) then 56 - (r + 1) mod 64 else 56 + 64 - (r + 1) mod 64)%nat =
  Z.to_nat ((55 - Z.of_nat n) mod 64).
Proof.
  intros Hr Hn. pose proof (Nat.div_mod_eq n 64) as Hd. rewrite Hn in Hd.
  assert ((55 - Z.of_nat n) mod 64 = (55 - Z.of_nat r) mod 64) as ->.
  { replace (55 - Z.of_nat n) with (55 - Z.of_nat r + - Z.of_nat (n / 64) * 64) by lia. apply Z.mod_add. lia. }
  do 64 (destruct r as [|r]; [reflexivity|]). lia.
Qed.
Lemma complete_longueur m : exists k, length (complete m) = (64 * k)%nat.
Proof.
  unfold complete. rewrite !length_app. cbn [length]. rewrite length_app, length_replicate, length_to_be.
  pose proof (Z.div_mod (55 - Z.of_nat (length m)) 64 ltac:(lia)). pose proof (Z.mod_pos_bound (55 - Z.of_nat (length m)) 64 ltac:(lia)).
  exists (Z.to_nat (1 - (55 - Z.of_nat (length m)) / 64)). lia.
Qed.
Lemma mange_reste n : forall h l, (length l <= n)%nat -> (length l mod 64 = length (mange h l).2)%nat.
Proof.
  induction n as [|n IH]; intros h l Hl; [by destruct l; [|cbn in Hl; lia]|].
  destruct (Nat.lt_ge_cases (length l) 64) as [|Hge].
  - assert (mange h l = (h, l)) as -> by (by apply blocs_stop). by apply Nat.mod_small.
  - rewrite <- (take_drop 64 l) at 2. rewrite mange_bloc by (rewrite length_take; lia).
    rewrite <- IH by (rewrite length_drop; lia). rewrite length_drop.
    replace (length l) with (length l - 64 + 1 * 64)%nat at 1 by lia. apply Nat.Div0.mod_add.
Qed.

Lemma finalize_spec s m : suit s (mange H0 m) -> total s = Z.of_nat (length m) mod u64_max ->
  finalize s = sha256_fips m.
Proof.
  intros Hs Ht. unfold finalize. unfold BLOCK_LEN. pose proof Hs as (_ & _ & Hl & Hr).
  assert (length m mod 64 = buf_len s)%nat as Hm.
  { rewrite (mange_reste (length m) H0 m ltac:(lia)), <- Hr, length_take. destruct Hs as (_ & Hb & _ & _). lia. }
  rewrite (bourrage_fips _ _ Hl Hm). set (z := Z.to_nat ((55 - Z.of_nat (length m)) mod 64)).
  assert (z < 64)%nat as Hz by (pose proof (Z.mod_pos_bound (55 - Z.of_nat (length m)) 64 ltac:(lia)); lia).
  assert (take (1 + z) (128 :: replicate (64 + 7) 0) = 128 :: replicate z 0) as ->.
  { cbn [Nat.add take]. f_equal. rewrite take_replicate. f_equal. lia. }
  set (l8 := to_be 8 _).
  pose proof (update_no_count_spec _ _ (128 :: replicate z 0) Hs) as Hs1.
  rewrite <- (proj2 (mange_spec (length m) H0 m ltac:(lia))) in Hs1.
  pose proof (update_no_count_spec _ _ l8 Hs1) as (Hh & _).
  rewrite <- (proj2 (mange_spec _ H0 (m ++ 128 :: replicate z 0) ltac:(reflexivity))) in Hh. rewrite Hh.
  assert ((m ++ 128 :: replicate z 0) ++ l8 = complete m) as ->.
  { unfold complete, l8. rewrite <- app_assoc. cbn [app]. do 4 f_equal. rewrite Ht, Zmult_mod_idemp_l. f_equal. lia. }
  unfold sha256_fips. destruct (complete_longueur m) as [k Hk]. rewrite (mange_morceaux k _ _ Hk), Hk.
  by rewrite Nat.mul_comm, Nat.div_mul by lia.
Qed.
Lemma suit_new : suit sha_new (mange H0 []) /\ total sha_new = Z.of_nat (length (@nil Z)) mod u64_max.
Proof. split; [split_and!; cbn; [done|done|lia|done]|done]. Qed.
Lemma flux_spec pieces : forall s m, suit s (mange H0 m) -> total s = Z.of_nat (length m) mod u64_max ->
  finalize (fold_left update pieces s) = sha256_fips (m ++ concat pieces).
Proof.
  induction pieces as [|x pieces IH]; intros s m Hs Ht; cbn [fold_left concat].
  - rewrite app_nil_r. by apply finalize_spec.
  - destruct (update_spec s m x Hs Ht) as [Hs' Ht']. rewrite app_assoc. by apply IH.
Qed.
Lemma sha256_eq m : sha256 m = sha256_fips m.
Proof.
  destruct suit_new as [Hs Ht]. pose proof (flux_spec [m] _ _ Hs Ht) as H. cbn [fold_left concat] in H. by rewrite app_nil_r in H.
Qed.
Lemma flux_eq pieces : finalize (fold_left update pieces sha_new) = sha256 (concat pieces).
Proof. destruct suit_new as [Hs Ht]. rewrite sha256_eq. exact (flux_spec pieces _ _ Hs Ht). Qed.

Lemma length_compress h b : length h = 8%nat -> length (compress h b) = 8%nat.
Proof. intros H. unfold compress. cbv zeta. rewrite length_zip_with, H. done. Qed.
Lemma fold_compress l : forall h, length h = 8%nat -> length (fold_left compress l h) = 8%nat.
Proof. induction l as [|b l IH]; intros h H; [done|]. cbn [fold_left]. by apply IH, length_compress. Qed.
Lemma length_concat_be k l : length (concat (to_be k <$> l)) = (k * length l)%nat.
Proof.
  induction l as [|x l IH]; [cbn; lia|]. rewrite fmap_cons. cbn [concat length]. rewrite length_app, IH, length_to_be. lia.
Qed.
Lemma length_sha256 m : length (sha256 m) = 32%nat.
Proof. rewrite sha256_eq. unfold sha256_fips. by rewrite length_concat_be, fold_compress. Qed.
Lemma sha256_octets m : Forall octet (sha256 m).
Proof.
  unfold sha256, finalize. apply Forall_concat, Forall_fmap, Forall_forall. intros x _. apply BigUintProofs.to_be_octets.
Qed.

(** Lengths of digests and of derived secrets. *)
Lemma length_chunks n : forall h msg, length h = 8%nat -> length (Sha512.chunks n h msg) = 8%nat.
Proof.
  induction n as [|n IH]; intros h msg H; cbn [Sha512.chunks]; [done|]. destruct (_ =? 0)%nat; [done|]. apply IH.
  unfold Sha512.bloc. cbv zeta. rewrite length_zip_with, H. done.
Qed.
Lemma length_digest alg m : length (digest alg m) = len alg.
Proof.
  destruct alg; cbn [digest len]; [apply length_sha256|]. unfold Sha512.sha384, Sha512.digest. cbv zeta.
  rewrite length_take, length_concat_be, length_chunks; done.
Qed.
Lemma length_hmac alg key msg : length (hmac alg key msg) = len alg.
Proof. apply length_digest. Qed.
Lemma length_expand tours alg prk info n : forall t counter out, (length out <= n)%nat -> (n - length out <= tours)%nat ->
  length (expand tours alg prk info n t counter out) = n.
Proof.
  induction tours as [|tours IH]; intros t counter out Hl Ht; cbn [expand]; [lia|].
  destruct (Nat.leb_spec n (length out)); [lia|]. cbv zeta.
  assert (0 < len alg)%nat as Hp by (destruct alg; cbn; lia).
  apply IH; rewrite length_app, length_take, length_hmac; lia.
Qed.
Lemma length_hkdf_expand_label alg secret label context n : length (hkdf_expand_label alg secret label context n) = n.
Proof. unfold hkdf_expand_label, hkdf_expand. cbv zeta. apply length_expand; cbn; lia. Qed.

Lemma concat_be_octets k l : Forall octet (concat (to_be k <$> l)).
Proof. apply Forall_concat, Forall_fmap, Forall_forall. intros x _. apply BigUintProofs.to_be_octets. Qed.
Lemma hmac_octets alg key msg : Forall octet (hmac alg key msg).
Proof.
  unfold hmac. cbv zeta. destruct alg; cbn [digest]; [apply sha256_octets|].
  unfold Sha512.sha384, Sha512.digest. cbv zeta. apply Forall_take, concat_be_octets.
Qed.
Lemma expand_octets tours alg prk info n : forall t counter out, Forall octet out ->
  Forall octet (expand tours alg prk info n t counter out).
Proof.
  induction tours as [|tours IH]; intros t counter out H; cbn [expand]; [done|]. destruct (_ <=? _)%nat; [done|]. cbv zeta.
  apply IH, Forall_app. split; [done|]. apply Forall_take, hmac_octets.
Qed.
Lemma hkdf_octets alg secret label context n : Forall octet (hkdf_expand_label alg secret label context n).
Proof. unfold hkdf_expand_label, hkdf_expand. cbv zeta. by apply expand_octets. Qed.

(** The incremental SHA-256 is the standard function of what was given to it, however it was
    cut in pieces; the HMAC computed with it is the generic one. *)
Theorem sha256_par_morceaux pieces key msg :
  finalize (fold_left update pieces sha_new) = sha256_fips (concat pieces) /\
  hmac_sha256 key msg = hmac Sha256Alg key msg.
Proof.
  split; [by rewrite flux_eq, sha256_eq|]. unfold hmac_sha256, hmac, cle_bloc, digest, block_len, BLOCK_LEN, len.
  rewrite (take_ge (sha256 key)) by (by rewrite length_sha256). set (k := splice _ _ _).
  assert (finalize (update (update sha_new (Z.lxor 54 <$> k)) msg) = sha256 ((Z.lxor 54 <$> k) ++ msg)) as ->.
  { pose proof (flux_eq [Z.lxor 54 <$> k; msg]) as H. cbn [fold_left concat] in H. by rewrite app_nil_r in H. }
  pose proof (flux_eq [Z.lxor 92 <$> k; sha256 ((Z.lxor 54 <$> k) ++ msg)]) as H. cbn [fold_left concat] in H.
  by rewrite app_nil_r in H.
Qed.
End HachageProofs.
