(* ===== verification/Rsa.v ===== *)
(** RSA signature verification: [src/net/security/tls/rsa.rs], PKCS#1 v1.5 and PSS with
    SHA-256. [None] is a stop of the kernel: an overflow or an index out of range. *)

From S2P Require Import Prelude GrandsEntiers Hachage.

Module Rsa.
Import BigUint.
Import BigUintProofs(to_be, from_be).
Import Hachage(sha256, HASH_LEN).
Open Scope Z_scope.

Record RsaPubKey := mk_key { n : BigUint; e : BigUint; n_bytes : nat }.

(** [while i + 1 < b.len() && b[i] == 0 { i += 1; }] *)
Definition strip_leading_zeros (b : list Z) : list Z := garde_un b.
Definition new (modulus exponent : list Z) : RsaPubKey :=
  let m := strip_leading_zeros modulus in
  mk_key (from_bytes_be m) (from_bytes_be exponent) (length m).
Definition raw (key : RsaPubKey) (sig : list Z) : option (list Z) :=
  match modpow (from_bytes_be sig) (e key) (n key) with
  | None => None
  | Some m =>
      let out := to_bytes_be m in
      Some (if (length out <? n_bytes key)%nat then replicate (n_bytes key - length out) 0 ++ out else out)
  end.

Definition SHA256_PREFIX : list Z :=
  [0x30; 0x31; 0x30; 0x0d; 0x06; 0x09; 0x60; 0x86; 0x48; 0x01; 0x65; 0x03; 0x04; 0x02; 0x01;
   0x05; 0x00; 0x04; 0x20].

(** The octets of the padding, one by one. *)
Fixpoint tous (ps_len : nat) (l : list Z) (i : nat) (x : Z) : bool :=
  match ps_len with
  | O => true
  | S ps_len => if negb (aget l (Z.of_nat i) =? x) then false else tous ps_len l (S i) x
  end.
Definition verify_pkcs1_sha256 (key : RsaPubKey) (msg sig : list Z) : option bool :=
  if negb (length sig =? n_bytes key)%nat then Some false
  else match raw key sig with
  | None => None
  | Some em =>
      let t_len := (length SHA256_PREFIX + HASH_LEN)%nat in
      if (length em <? t_len + 11)%nat then Some false
      else
        let ps_len := (length em - t_len - 3)%nat in
        if negb (aget em 0 =? 0) || negb (aget em 1 =? 1) then Some false
        else if negb (tous ps_len em 2 255) then Some false
        else if negb (aget em (Z.of_nat (2 + ps_len)) =? 0) then Some false
        else
          let t := drop (3 + ps_len) em in
          if negb (bool_decide (take (length SHA256_PREFIX) t = SHA256_PREFIX)) then Some false
          else Some (bool_decide (drop (length SHA256_PREFIX) t = sha256 msg))
  end.

Fixpoint mgf1_depuis (tours : nat) (seed : list Z) (len : nat) (counter : Z) (out : list Z) : list Z :=
  match tours with
  | O => out
  | S tours =>
      if (len <=? length out)%nat then out
      else
        let block := Hachage.finalize (Hachage.update (Hachage.update Hachage.sha_new seed) (to_be 4 counter)) in
        mgf1_depuis tours seed len (counter + 1) (out ++ take (Nat.min (len - length out) HASH_LEN) block)
  end.
Definition mgf1 (seed : list Z) (len : nat) : list Z := mgf1_depuis len seed len 0 [].

(** [db[0] &= 0xff >> zero_bits] *)
Definition efface (zero_bits : Z) (l : list Z) : list Z :=
  match l with x :: l => Z.land x (Z.shiftr 255 zero_bits) :: l | [] => [] end.
(** The tests on the [em_len] octets of the encoding. *)
Definition pss_em (em_bits em_len : nat) (em mhash : list Z) : bool :=
  if (em_len <? HASH_LEN + HASH_LEN + 2)%nat then false
  else if negb (aget em (Z.of_nat (em_len - 1)) =? 188) then false
  else
    let db_len := (em_len - HASH_LEN - 1)%nat in
    let h := slice em db_len HASH_LEN in
    let db := zip_with Z.lxor (take db_len em) (mgf1 h db_len) in
    let zero_bits := (8 * em_len - em_bits)%nat in
    let db := if (0 <? zero_bits)%nat then efface (Z.of_nat zero_bits) db else db in
    let ps_len := (db_len - HASH_LEN - 1)%nat in
    if negb (tous ps_len db 0 0) then false
    else if negb (aget db (Z.of_nat ps_len) =? 1) then false
    else
      let salt := drop (ps_len + 1) db in
      bool_decide (sha256 (replicate 8 0 ++ mhash ++ salt) = h).
Definition verify_pss_sha256 (key : RsaPubKey) (msg sig : list Z) : option bool :=
  if negb (length sig =? n_bytes key)%nat then Some false
  else
    let mhash := sha256 msg in
    match raw key sig with
    | None => None
    | Some em =>
        let em_len := n_bytes key in
        let mod_bits := bit_len (n key) in
        if (mod_bits =? 0)%nat then None
        else
          let em_bits := (mod_bits - 1)%nat in
          let expected := ((em_bits + 7) / 8)%nat in
          let em := if (expected <? em_len)%nat then drop (em_len - expected) em else em in
          Some (pss_em em_bits expected em mhash)
    end.
End Rsa.

(** Proofs on RSA verification: a signature is accepted exactly when its power is the encoding
    of the message. *)

Module RsaProofs.
Import BigUint BigUintProofs Rsa.
Import Hachage(sha256, HASH_LEN).
Import HachageProofs(length_sha256, sha256_octets).
Open Scope Z_scope.

(** The integers of a key. *)
Definition N_de (modulus : list Z) : Z := from_be modulus.
Definition puissance (modulus exponent sig : list Z) : Z := from_be sig ^ from_be exponent mod from_be modulus.

Lemma new_spec modulus exponent : Forall octet modulus -> Forall octet exponent ->
  let k := new modulus exponent in
  nombre (n k) /\ v (n k) = from_be modulus /\ nombre (e k) /\ v (e k) = from_be exponent /\
  from_be modulus < 256 ^ Z.of_nat (n_bytes k) /\
  (0 < from_be modulus -> (1 <= n_bytes k)%nat /\ 256 ^ Z.of_nat (n_bytes k - 1) <= from_be modulus).
Proof.
  intros Hm He. cbv zeta. unfold new, strip_leading_zeros. cbn [n e n_bytes].
  destruct (garde_un_spec modulus Hm) as (Ho & Hf & Hne & Hmin).
  destruct (from_bytes_be_spec _ Ho) as [H1 H2]. destruct (from_bytes_be_spec _ He) as [H3 H4]. rewrite Hf in H2.
  pose proof (from_be_borne _ Ho) as B. rewrite Hf in B. split_and!; [done|done|done|done|lia|]. intros Hp.
  assert (1 <= length (garde_un modulus))%nat as Hl.
  { destruct (garde_un modulus) as [|x l]; cbn in B |- *; lia. }
  split; [done|]. destruct Hmin as [Hmin|(x & l' & E & Hx)].
  - replace (length (garde_un modulus) - 1)%nat with 0%nat by lia. change (256 ^ Z.of_nat 0) with 1. lia.
  - rewrite E in *. cbn [length] in *. replace (S (length l') - 1)%nat with (length l') by lia.
    change (x :: l') with ([x] ++ l') in Hf. rewrite from_be_app in Hf. change (from_be [x]) with (x + 256 * 0) in Hf.
    inversion Ho as [|? ? _ Hl']; subst. pose proof (from_be_borne l' Hl'). rewrite <- Hf. nia.
Qed.

Lemma raw_spec modulus exponent sig : Forall octet modulus -> Forall octet exponent -> Forall octet sig ->
  0 < from_be modulus ->
  raw (new modulus exponent) sig = Some (to_be (n_bytes (new modulus exponent)) (puissance modulus exponent sig)).
Proof.
  intros Hm He Hs Hp. destruct (new_spec modulus exponent Hm He) as (H1 & H2 & H3 & H4 & H5 & H6).
  set (k := new modulus exponent) in *. destruct (from_bytes_be_spec sig Hs) as [H7 H8].
  destruct (modpow_spec (from_bytes_be sig) (e k) (n k) H7 H3 H1 ltac:(lia)) as (c & E & Hc & Hv).
  rewrite H8, H4, H2 in Hv. fold (puissance modulus exponent sig) in Hv.
  pose proof (Z.mod_pos_bound (from_be sig ^ from_be exponent) (from_be modulus) Hp) as B. fold (puissance modulus exponent sig) in B.
  destruct (to_bytes_be_spec c (n_bytes k) Hc) as (O1 & O2 & O3); [lia|apply H6; lia|].
  unfold raw. rewrite E. cbv zeta. f_equal. rewrite <- Hv, <- O2, <- (to_be_de _ _ O1 O3).
  destruct (Nat.ltb_spec (length (to_bytes_be c)) (n_bytes k)); [done|].
  replace (n_bytes k - length (to_bytes_be c))%nat with 0%nat by lia. done.
Qed.

(** A modulus equal to zero: the result has one octet. *)
Lemma raw_nul modulus exponent sig : Forall octet modulus -> Forall octet exponent -> from_be modulus = 0 ->
  (n_bytes (new modulus exponent) <= 1)%nat /\ exists em, raw (new modulus exponent) sig = Some em /\ (length em <= 1)%nat.
Proof.
  intros Hm He H0. destruct (new_spec modulus exponent Hm He) as (H1 & H2 & _). rewrite H0 in H2.
  assert (n_bytes (new modulus exponent) <= 1)%nat as Hn.
  { unfold new, strip_leading_zeros. cbn [n_bytes]. destruct (garde_un_spec modulus Hm) as (Ho & Hf & _ & [H|(x & l' & E & Hx)]); [done|].
    rewrite E in *. change (x :: l') with ([x] ++ l') in Hf. rewrite from_be_app, H0 in Hf. change (from_be [x]) with (x + 256 * 0) in Hf.
    inversion Ho as [|? ? _ Hl']; subst. pose proof (from_be_borne l' Hl'). nia. }
  split; [done|]. unfold raw, modpow. rewrite is_zero_spec, H2 by done. cbn [Z.eqb]. cbv zeta.
  change (to_bytes_be zero) with [0]. eexists. split; [reflexivity|]. cbn [length].
  destruct (Nat.ltb_spec 1 (n_bytes (new modulus exponent))); cbn; lia.
Qed.

(** ** Padding loops *)

Lemma tous_spec k : forall l i x, (i + k <= length l)%nat -> tous k l i x = bool_decide (slice l i k = replicate k x).
Proof.
  induction k as [|k IH]; intros l i x Hl; cbn [tous]; [done|].
  destruct (lookup_lt_is_Some_2 l i) as [y Hy]; [lia|]. unfold aget. rewrite Nat2Z.id, Hy. cbn [default from_option id].
  assert (slice l i (S k) = y :: slice l (S i) k) as -> by (unfold slice; by rewrite (drop_S _ _ _ Hy)).
  rewrite IH by lia. cbn [replicate]. destruct (Z.eqb_spec y x) as [->|Hne]; cbn [negb].
  - apply bool_decide_ext. split; [by intros ->|]. congruence.
  - symmetry. apply bool_decide_eq_false. congruence.
Qed.
Lemma decoupe_liste (l : list Z) i k : (i + k <= length l)%nat -> drop i l = slice l i k ++ drop (i + k) l.
Proof. intros H. unfold slice. rewrite <- drop_drop. by rewrite take_drop. Qed.
Lemma drop_aget (l : list Z) i : (i < length l)%nat -> drop i l = aget l (Z.of_nat i) :: drop (S i) l.
Proof.
  intros H. destruct (lookup_lt_is_Some_2 l i H) as [y Hy]. unfold aget. rewrite Nat2Z.id, Hy. by apply drop_S.
Qed.

(** ** PKCS#1 v1.5 *)

Definition pkcs1_encode (k : nat) (msg : list Z) : list Z :=
  [0; 1] ++ replicate (k - 54) 255 ++ [0] ++ SHA256_PREFIX ++ sha256 msg.

Lemma pkcs1_forme (em : list Z) : (62 <= length em)%nat ->
  em = [aget em 0; aget em 1] ++ slice em 2 (length em - 54) ++ [aget em (Z.of_nat (length em - 52))] ++
       take 19 (drop (length em - 51) em) ++ drop 19 (drop (length em - 51) em).
Proof.
  intros H. rewrite take_drop. rewrite <- (drop_0 em) at 1. rewrite (drop_aget em 0), (drop_aget em 1) by lia.
  rewrite (decoupe_liste em 2 (length em - 54)) by lia. replace (2 + (length em - 54))%nat with (length em - 52)%nat by lia.
  rewrite (drop_aget em (length em - 52)) by lia. replace (S (length em - 52)) with (length em - 51)%nat by lia. done.
Qed.
Lemma pkcs1_encode_ok k msg : (62 <= k)%nat -> length (pkcs1_encode k msg) = k /\ Forall octet (pkcs1_encode k msg).
Proof.
  intros Hk. unfold pkcs1_encode. split.
  - rewrite !length_app, length_replicate, length_sha256. cbn. lia.
  - rewrite !Forall_app. split_and!; [repeat constructor; lia|apply Forall_replicate; unfold octet; lia
      |repeat constructor; lia|repeat constructor; lia|apply sha256_octets].
Qed.

(** C39. PKCS#1 v1.5 verification is exact: with any key and any octets it answers, and it accepts
    exactly the signatures of the length of the modulus whose power by the exponent, modulo
    the modulus, is the encoding of the hash of the message (at least eight octets of
    padding). *)
Theorem pkcs1_exacte modulus exponent msg sig :
  Forall octet modulus -> Forall octet exponent -> Forall octet sig ->
  exists b, verify_pkcs1_sha256 (new modulus exponent) msg sig = Some b /\
    (b = true <-> length sig = n_bytes (new modulus exponent) /\ (62 <= length sig)%nat /\
       puissance modulus exponent sig = from_be (pkcs1_encode (length sig) msg)).
Proof.
  intros Hm He Hs. unfold verify_pkcs1_sha256. set (k := new modulus exponent).
  destruct (Nat.eqb_spec (length sig) (n_bytes k)) as [El|El]; cbn [negb]; [|exists false; split; [done|]; split; [done|]; by intros [? _]].
  pose proof (from_be_borne _ Hm). destruct (Z.eq_dec (from_be modulus) 0) as [H0|H0].
  { destruct (raw_nul modulus exponent sig Hm He H0) as (Hk & em & E & Hle). fold k in E, Hk. rewrite E.
    exists false. split; [|split; [done|]; intros (_ & ? & _); lia].
    change (length SHA256_PREFIX + HASH_LEN + 11)%nat with 62%nat. destruct (Nat.ltb_spec (length em) 62); [done|lia]. }
  pose proof (raw_spec modulus exponent sig Hm He Hs ltac:(lia)) as Hraw. fold k in Hraw. rewrite Hraw. clear Hraw. set (em := to_be (n_bytes k) (puissance modulus exponent sig)).
  assert (length em = n_bytes k) as Hem by apply length_to_be. cbv zeta.
  change (length SHA256_PREFIX + HASH_LEN)%nat with 51%nat. change (51 + 11)%nat with 62%nat. change (length SHA256_PREFIX) with 19%nat.
  destruct (Nat.ltb_spec (length em) 62) as [Hlt|Hge]; [exists false; split; [done|]; split; [done|]; intros (_ & ? & _); lia|].
  replace (length em - 51 - 3)%nat with (length em - 54)%nat by lia. replace (2 + (length em - 54))%nat with (length em - 52)%nat by lia.
  replace (3 + (length em - 54))%nat with (length em - 51)%nat by lia. rewrite tous_spec by lia.
  set (t := drop (length em - 51) em).
  assert (em = pkcs1_encode (length sig) msg <-> length sig = n_bytes k /\ (62 <= length sig)%nat /\
     puissance modulus exponent sig = from_be (pkcs1_encode (length sig) msg)) as Hiff.
  { destruct (pkcs1_encode_ok (length sig) msg ltac:(lia)) as [L O]. destruct (new_spec modulus exponent Hm He) as (_ & _ & _ & _ & B & _).
    pose proof (Z.mod_pos_bound (from_be sig ^ from_be exponent) (from_be modulus) ltac:(lia)) as B2.
    fold (puissance modulus exponent sig) in B2. fold k in B. split.
    - intros E. split_and!; [done|lia|]. rewrite <- E. unfold em. rewrite from_to_be by lia. done.
    - intros (_ & _ & E). apply from_be_inj; [apply to_be_octets|done|lia|]. rewrite <- E. unfold em. apply from_to_be. lia. }
  pose proof (pkcs1_forme em ltac:(lia)) as Hf. fold t in Hf.
  assert (length (take 19 t) = 19%nat) as Ht by (unfold t; rewrite length_take, length_drop; lia).
  assert (length (slice em 2 (length em - 54)) = (length em - 54)%nat) as Hsl by (apply length_slice; lia).
  exists (negb (negb (aget em 0 =? 0) || negb (aget em 1 =? 1)) && bool_decide (slice em 2 (length em - 54) = replicate (length em - 54) 255) &&
    (aget em (Z.of_nat (length em - 52)) =? 0) && bool_decide (take 19 t = SHA256_PREFIX) && bool_decide (drop 19 t = sha256 msg)).
  split.
  { generalize (bool_decide (slice em 2 (length em - 54) = replicate (length em - 54) 255)).
    generalize (bool_decide (take 19 t = SHA256_PREFIX)), (bool_decide (drop 19 t = sha256 msg)).
    generalize (aget em 0 =? 0), (aget em 1 =? 1), (aget em (Z.of_nat (length em - 52)) =? 0).
    by intros [] [] [] [] [] []. }
  rewrite <- Hiff. clear Hiff.
  rewrite !andb_true_iff, !negb_true_iff, orb_false_iff, !negb_false_iff, !Z.eqb_eq, !bool_decide_eq_true.
  unfold pkcs1_encode. replace (length sig - 54)%nat with (length em - 54)%nat by lia. split.
  - intros ((((A01 & A2) & A3) & A4) & A5). destruct A01 as [A0 A1]. rewrite Hf at 1. by rewrite A0, A1, A2, A3, A4, A5.
  - intros E. rewrite Hf in E at 1. apply app_inj_1 in E as [E0 E]; [|done].
    apply app_inj_1 in E as [E2 E]; [|by rewrite Hsl, length_replicate]. apply app_inj_1 in E as [E3 E]; [|done].
    apply app_inj_1 in E as [E4 E5]; [|done]. by simplify_eq.
Qed.

Lemma pkcs1_exacte_witness :
  exists b, verify_pkcs1_sha256 (new [0; 35] [5]) [1; 2] [33] = Some b /\
    (b = true <-> length [33] = n_bytes (new [0; 35] [5]) /\ (62 <= length [33])%nat /\
       puissance [0; 35] [5] [33] = from_be (pkcs1_encode (length [33]) [1; 2])).
Proof. apply (pkcs1_exacte [0; 35] [5] [1; 2] [33]); repeat constructor; lia. Defined.

(** ** PSS *)

(** [EMSA-PSS-ENCODE] with SHA-256 and a salt of 32 octets. *)
Definition em_len (em_bits : nat) : nat := ((em_bits + 7) / 8)%nat.
Definition bits_de_tete (em_bits : nat) : Z := Z.of_nat (8 * em_len em_bits - em_bits).
Definition pss_encode (em_bits : nat) (msg salt : list Z) : list Z :=
  let db := replicate (em_len em_bits - 66) 0 ++ 1 :: salt in
  let h := sha256 (replicate 8 0 ++ sha256 msg ++ salt) in
  efface (bits_de_tete em_bits) (zip_with Z.lxor db (mgf1 h (em_len em_bits - 33))) ++ h ++ [188].

Lemma mgf1_spec tours seed len : forall counter out, (length out <= len)%nat -> (len - length out <= tours)%nat ->
  length (mgf1_depuis tours seed len counter out) = len.
Proof.
  induction tours as [|tours IH]; intros counter out Hl Ht; cbn [mgf1_depuis]; [lia|].
  destruct (Nat.leb_spec len (length out)); [lia|]. cbv zeta.
  set (b := Hachage.finalize _). assert (length b = 32%nat) as Hb.
  { unfold b. pose proof (HachageProofs.flux_eq [seed; to_be 4 counter]) as E. cbn [fold_left] in E. rewrite E. apply length_sha256. }
  unfold HASH_LEN. apply IH; rewrite length_app, length_take, Hb; lia.
Qed.
Lemma length_mgf1 seed len : length (mgf1 seed len) = len.
Proof. unfold mgf1. apply mgf1_spec; cbn; lia. Qed.

Lemma zip_with_octets l : forall k, Forall octet l -> Forall octet k -> Forall octet (zip_with Z.lxor l k).
Proof.
  induction l as [|x l IH]; intros [|y k] H1 H2; cbn; try constructor; inversion H1; inversion H2; subst; [|by apply IH].
  unfold octet in *. apply (lxor_mot 8); lia.
Qed.
Lemma mgf1_octets_depuis tours seed len : forall counter out, Forall octet out -> Forall octet (mgf1_depuis tours seed len counter out).
Proof.
  induction tours as [|tours IH]; intros counter out H; cbn [mgf1_depuis]; [done|]. destruct (len <=? length out)%nat; [done|].
  cbv zeta. apply IH, Forall_app. split; [done|]. apply Forall_take.
  pose proof (HachageProofs.flux_eq [seed; to_be 4 counter]) as E. cbn [fold_left] in E. rewrite E. apply sha256_octets.
Qed.
Lemma mgf1_octets seed len : Forall octet (mgf1 seed len).
Proof. by apply mgf1_octets_depuis. Qed.
Lemma xor_deux l : forall k, (length l <= length k)%nat -> zip_with Z.lxor (zip_with Z.lxor l k) k = l.
Proof.
  induction l as [|x l IH]; intros [|y k] H; cbn in *; try done; try lia.
  rewrite Z.lxor_assoc, Z.lxor_nilpotent, Z.lxor_0_r. f_equal. apply IH. lia.
Qed.
Lemma efface_xor z l k : efface z (zip_with Z.lxor (efface z l) k) = efface z (zip_with Z.lxor l k).
Proof.
  destruct l as [|x l], k as [|y k]; try done. cbn. f_equal. set (m := Z.shiftr 255 z).
  apply Z.bits_inj'. intros i _. rewrite !Z.land_spec, !Z.lxor_spec, Z.land_spec.
  by destruct (Z.testbit x i), (Z.testbit y i), (Z.testbit m i).
Qed.
Lemma efface_deux z l : efface z (efface z l) = efface z l.
Proof. destruct l as [|x l]; [done|]. cbn. by rewrite <- Z.land_assoc, Z.land_diag. Qed.
Lemma efface_app z l1 l2 : l1 <> [] -> efface z (l1 ++ l2) = efface z l1 ++ l2.
Proof. by destruct l1. Qed.
Lemma length_efface z l : length (efface z l) = length l.
Proof. by destruct l. Qed.
Lemma efface_db z k salt : 0 <= z <= 7 -> efface z (replicate k 0 ++ 1 :: salt) = replicate k 0 ++ 1 :: salt.
Proof.
  intros Hz. destruct k as [|k]; cbn; [|done]. f_equal.
  assert (z = 0 \/ z = 1 \/ z = 2 \/ z = 3 \/ z = 4 \/ z = 5 \/ z = 6 \/ z = 7) as Hc by lia.
  by destruct Hc as [->|[->|[->|[->|[->|[->|[->| ->]]]]]]].
Qed.
Lemma efface_0 l : Forall octet l -> efface 0 l = l.
Proof.
  destruct 1 as [|x l Hx Hl]; [done|]. unfold efface. f_equal. change (Z.shiftr 255 0) with (Z.ones 8).
  rewrite Z.land_ones by lia. by apply Z.mod_small.
Qed.

(** The tests on the recovered data block. *)
Lemma pss_db k (M mask h msg : list Z) z : 0 <= z <= 7 -> length M = (k + 33)%nat -> length mask = (k + 33)%nat ->
  let db := efface z (zip_with Z.lxor M mask) in
  (slice db 0 k = replicate k 0 /\ aget db (Z.of_nat k) = 1 /\
   sha256 (replicate 8 0 ++ sha256 msg ++ drop (k + 1) db) = h)
  <-> exists salt, length salt = 32%nat /\ h = sha256 (replicate 8 0 ++ sha256 msg ++ salt) /\
        efface z M = efface z (zip_with Z.lxor (replicate k 0 ++ 1 :: salt) mask).
Proof.
  intros Hz HM Hk db. assert (length db = (k + 33)%nat) as Hdb.
  { unfold db. rewrite length_efface, length_zip_with. lia. }
  split.
  - intros (H1 & H2 & H3). exists (drop (k + 1) db). split_and!; [rewrite length_drop; lia|done|].
    assert (replicate k 0 ++ 1 :: drop (k + 1) db = db) as ->.
    { rewrite <- (drop_0 db) at 2. rewrite (decoupe_liste db 0 k), H1 by lia. f_equal. cbn [Nat.add].
      rewrite (drop_aget db k), H2 by lia. f_equal. f_equal. lia. }
    unfold db. by rewrite efface_xor, xor_deux by lia.
  - intros (salt & Hs & -> & E). assert (db = replicate k 0 ++ 1 :: salt) as ->.
    { unfold db. rewrite <- efface_xor, E, efface_xor, xor_deux; [by apply efface_db|].
      rewrite length_app, length_replicate. cbn [length]. lia. }
    split_and!.
    + unfold slice. rewrite drop_0. apply take_app_length'. by rewrite length_replicate.
    + unfold aget. rewrite Nat2Z.id, lookup_app_r by (rewrite length_replicate; lia).
      rewrite length_replicate, Nat.sub_diag. done.
    + rewrite drop_app_ge by (rewrite length_replicate; lia). rewrite length_replicate.
      replace (k + 1 - k)%nat with 1%nat by lia. done.
Qed.

Lemma em_len_borne modulus exponent : Forall octet modulus -> Forall octet exponent -> 0 < from_be modulus ->
  let k := new modulus exponent in
  (1 <= bit_len (n k))%nat /\ (em_len (bit_len (n k) - 1) <= n_bytes k)%nat /\
  0 <= bits_de_tete (bit_len (n k) - 1) <= 7.
Proof.
  intros Hm He Hp k. destruct (new_spec modulus exponent Hm He) as (H1 & H2 & _ & _ & H5 & _). fold k in H1, H2, H5.
  pose proof (bit_len_spec (n k) H1 ltac:(lia)) as Hb. rewrite H2 in Hb. pose proof (Z.log2_nonneg (from_be modulus)).
  assert (Z.log2 (from_be modulus) < 8 * Z.of_nat (n_bytes k)) as Hlog.
  { apply Z.log2_lt_pow2; [done|]. rewrite Z.pow_mul_r by lia. exact H5. }
  unfold bits_de_tete, em_len. set (q := bit_len (n k)) in *. clearbody q.
  pose proof (Nat.div_mod_eq (q - 1 + 7) 8). pose proof (Nat.mod_upper_bound (q - 1 + 7) 8 ltac:(lia)). lia.
Qed.

(** The tests accept exactly an encoding of the message for some salt. *)
Lemma pss_em_spec em_bits em msg :
  let L := em_len em_bits in let z := bits_de_tete em_bits in
  length em = L -> Forall octet em -> 0 <= z <= 7 ->
  pss_em em_bits L em (sha256 msg) = true <->
  (66 <= L)%nat /\ exists salt, length salt = 32%nat /\ efface z em = pss_encode em_bits msg salt.
Proof.
  intros L z Hem Hoc Hbt. unfold pss_em. change (HASH_LEN + HASH_LEN + 2)%nat with 66%nat. unfold HASH_LEN.
  destruct (Nat.ltb_spec L 66) as [Hlt|Hge]; [split; [done|]; intros [? _]; lia|].
  cbv zeta. replace (L - 32 - 1)%nat with (L - 33)%nat by lia. replace (L - 33 - 32 - 1)%nat with (L - 66)%nat by lia.
  set (M := take (L - 33) em). set (h := slice em (L - 33) 32). set (mask := mgf1 h (L - 33)).
  assert (length M = (L - 66 + 33)%nat) as HM by (unfold M; rewrite length_take; lia).
  assert (length mask = (L - 66 + 33)%nat) as Hk by (unfold mask; rewrite length_mgf1; lia).
  assert (length h = 32%nat) as Hh by (apply length_slice; lia).
  assert (em = M ++ h ++ [aget em (Z.of_nat (L - 1))]) as Hf.
  { rewrite <- (drop_0 em) at 1. rewrite (decoupe_liste em 0 (L - 33)), (decoupe_liste em (0 + (L - 33)) 32) by lia.
    change (0 + (L - 33))%nat with (L - 33)%nat. replace (L - 33 + 32)%nat with (L - 1)%nat by lia.
    rewrite (drop_aget em (L - 1)), (drop_ge em) by lia. reflexivity. }
  assert ((if (0 <? 8 * L - em_bits)%nat then efface (Z.of_nat (8 * L - em_bits)) (zip_with Z.lxor M mask) else zip_with Z.lxor M mask)
    = efface z (zip_with Z.lxor M mask)) as ->.
  { unfold z, bits_de_tete. fold L. destruct (Nat.ltb_spec 0 (8 * L - em_bits)); [done|].
    replace (8 * L - em_bits)%nat with 0%nat by lia. symmetry. apply efface_0, zip_with_octets; [by apply Forall_take|apply mgf1_octets]. }
  pose proof (pss_db (L - 66) M mask h msg z Hbt HM Hk) as Hdb. cbv zeta in Hdb. set (db := efface z (zip_with Z.lxor M mask)) in *.
  assert (length db = (L - 66 + 33)%nat) as Hldb by (unfold db; rewrite length_efface, length_zip_with; lia).
  rewrite tous_spec by lia. set (P1 := slice db 0 (L - 66) = _) in *. set (P2 := sha256 (_ ++ _ ++ drop _ db) = h) in *.
  transitivity (aget em (Z.of_nat (L - 1)) = 188 /\ P1 /\ aget db (Z.of_nat (L - 66)) = 1 /\ P2).
  { destruct (Z.eqb_spec (aget em (Z.of_nat (L - 1))) 188), (bool_decide_reflect P1),
      (Z.eqb_spec (aget db (Z.of_nat (L - 66))) 1); cbn [negb]; rewrite ?bool_decide_eq_true; intuition done. }
  rewrite Hdb. clear Hdb. assert (M <> []) as HMne by (intros H0; rewrite H0 in HM; cbn in HM; lia).
  unfold pss_encode. fold L z. set (tl := aget em (Z.of_nat (L - 1))) in *. rewrite Hf, efface_app by done. split.
  - intros (H188 & salt & Hsl & Hh' & E). split; [done|]. exists salt. split; [done|]. by rewrite E, H188, <- Hh'.
  - intros (_ & salt & Hsl & E). apply app_inj_1 in E as [E1 E2].
    2: { rewrite !length_efface, length_zip_with, length_app, length_replicate, length_mgf1. cbn [length]. lia. }
    apply app_inj_1 in E2 as [E2 E3]; [|by rewrite Hh, length_sha256]. injection E3 as E3. split; [done|].
    exists salt. split_and!; [done|done|]. rewrite <- E2 in E1. exact E1.
Qed.

(** The recovered octets, cut at the length of the encoding. *)
Definition em_de (modulus exponent sig : list Z) : list Z :=
  let k := new modulus exponent in
  drop (n_bytes k - em_len (bit_len (n k) - 1)) (to_be (n_bytes k) (puissance modulus exponent sig)).

(** PSS verification is exact: with a modulus other than zero it answers, and it accepts
    exactly the signatures of the length of the modulus whose power is, except for the bits
    above the encoding, the PSS encoding of the message for some salt of 32 octets. *)
Theorem pss_exacte modulus exponent msg sig :
  Forall octet modulus -> Forall octet exponent -> Forall octet sig -> 0 < from_be modulus ->
  let k := new modulus exponent in let em_bits := (bit_len (n k) - 1)%nat in
  exists b, verify_pss_sha256 k msg sig = Some b /\
    (b = true <-> length sig = n_bytes k /\ (66 <= em_len em_bits)%nat /\
       exists salt, length salt = 32%nat /\
         efface (bits_de_tete em_bits) (em_de modulus exponent sig) = pss_encode em_bits msg salt).
Proof.
  intros Hm He Hs Hp. cbv zeta. pose proof (em_len_borne modulus exponent Hm He Hp) as (Hbl & Hel & Hbt).
  pose proof (raw_spec modulus exponent sig Hm He Hs Hp) as Hraw. unfold em_de. set (k := new modulus exponent) in *.
  unfold verify_pss_sha256.
  destruct (Nat.eqb_spec (length sig) (n_bytes k)) as [El|El]; cbn [negb]; [|exists false; split; [done|]; split; [done|]; by intros [? _]].
  rewrite Hraw. cbv zeta. destruct (Nat.eqb_spec (bit_len (n k)) 0); [lia|].
  set (em_bits := (bit_len (n k) - 1)%nat) in *. change ((em_bits + 7) / 8)%nat with (em_len em_bits).
  set (em0 := to_be (n_bytes k) (puissance modulus exponent sig)) in *.
  assert (length em0 = n_bytes k) as Hem0 by apply length_to_be. eexists. split; [reflexivity|].
  assert ((if (em_len em_bits <? n_bytes k)%nat then drop (n_bytes k - em_len em_bits) em0 else em0) =
    drop (n_bytes k - em_len em_bits) em0) as ->.
  { destruct (Nat.ltb_spec (em_len em_bits) (n_bytes k)); [done|].
    replace (n_bytes k - em_len em_bits)%nat with 0%nat by lia. by rewrite drop_0. }
  rewrite pss_em_spec; [tauto|rewrite length_drop; lia|apply Forall_drop, to_be_octets|done].
Qed.
Lemma pss_exacte_witness :
  let k := new [35] [5] in let em_bits := (bit_len (n k) - 1)%nat in
  exists b, verify_pss_sha256 k [1; 2] [33] = Some b /\
    (b = true <-> length [33] = n_bytes k /\ (66 <= em_len em_bits)%nat /\
       exists salt, length salt = 32%nat /\
         efface (bits_de_tete em_bits) (em_de [35] [5] [33]) = pss_encode em_bits [1; 2] salt).
Proof. apply (pss_exacte [35] [5] [1; 2] [33]); [repeat constructor; lia..|]. vm_compute. reflexivity. Defined.

(** A key whose modulus is zero stops the kernel: the length of the encoding is one bit less
    than that of the modulus. *)
Lemma pss_module_nul exponent msg x : octet x -> Forall octet exponent ->
  verify_pss_sha256 (new [0] exponent) msg [x] = None.
Proof.
  intros Hx He. unfold verify_pss_sha256. change (n_bytes (new [0] exponent)) with 1%nat. cbn [length Nat.eqb negb]. cbv zeta.
  destruct (raw_nul [0] exponent [x]) as (_ & em & -> & _); [repeat constructor; lia|done|done|]. done.
Qed.
End RsaProofs.
