(* ===== verification/Chiffrement.v ===== *)
(** The protection of TLS records: [src/net/security/tls/chacha.rs] (ChaCha20-Poly1305),
    [aes.rs] and [gcm.rs] (AES-GCM), and the record layer with its key schedule
    ([record.rs]). [None] is a stop of the kernel. *)

From S2P Require Import Prelude GrandsEntiers Hachage.

(** ** ChaCha20-Poly1305 *)
Module Chacha.
Import BigUint.
Open Scope Z_scope.

Definition add32 (x y : Z) : Z := (x + y) mod 2 ^ 32.
Definition rotate_left (n x : Z) : Z := Z.lor (Z.shiftl x n mod 2 ^ 32) (Z.shiftr x (32 - n)).

(** [s[a] = s[a] + s[b]; s[d] = (s[d] ^ s[a]) <<< n] *)
Definition demi_tour (a b d n : Z) (s : list Z) : list Z :=
  let s := aset s a (add32 (aget s a) (aget s b)) in
  aset s d (rotate_left n (Z.lxor (aget s d) (aget s a))).
Definition quarter_round (s : list Z) (a b c d : Z) : list Z :=
  demi_tour c d b 7 (demi_tour a b d 8 (demi_tour c d b 12 (demi_tour a b d 16 s))).
Definition double_tour (w : list Z) : list Z :=
  let w := quarter_round w 0 4 8 12 in
  let w := quarter_round w 1 5 9 13 in
  let w := quarter_round w 2 6 10 14 in
  let w := quarter_round w 3 7 11 15 in
  let w := quarter_round w 0 5 10 15 in
  let w := quarter_round w 1 6 11 12 in
  let w := quarter_round w 2 7 8 13 in
  quarter_round w 3 4 9 14.
Definition chacha20_block (key : list Z) (counter : Z) (nonce : list Z) : list Z :=
  let s := [0x61707865; 0x3320646e; 0x79622d32; 0x6b206574] ++
           ((fun i => from_le (slice key (4 * i) 4)) <$> seq 0 8) ++ [counter] ++
           ((fun i => from_le (slice nonce (4 * i) 4)) <$> seq 0 3) in
  concat (to_le 4 <$> zip_with add32 (Nat.iter 10 double_tour s) s).

(** The key stream, 64 octets at a time. *)
Fixpoint xor_depuis (tours : nat) (key : list Z) (block_counter : Z) (nonce data : list Z) : list Z :=
  match tours with
  | O => data
  | S tours =>
      if (length data =? 0)%nat then data
      else
        let ks := chacha20_block key block_counter nonce in
        let n := Nat.min (length data) 64 in
        zip_with Z.lxor (take n data) (take n ks) ++
        xor_depuis tours key (add32 block_counter 1) nonce (drop n data)
  end.
Definition chacha20_xor (key : list Z) (counter : Z) (nonce data : list Z) : list Z :=
  xor_depuis (length data) key counter nonce data.

Definition poly1305_prime : BigUint := from_bytes_be (3 :: replicate 15 255 ++ [251]).
Definition le_to_big (bytes : list Z) : BigUint := from_bytes_be (rev bytes).
Definition big_to_le16 (v : BigUint) : list Z :=
  let be := to_bytes_be v in
  let n := Nat.min (length be) 16 in
  take n (rev be) ++ replicate (16 - n) 0.

(** [r_bytes[i] &= m] *)
Definition masque_octet (m : Z) (i : Z) (r : list Z) : list Z := aset r i (Z.land (aget r i) m).
Definition clampe (r : list Z) : list Z :=
  let r := masque_octet 15 15 (masque_octet 15 11 (masque_octet 15 7 (masque_octet 15 3 r))) in
  masque_octet 252 12 (masque_octet 252 8 (masque_octet 252 4 r)).
Fixpoint mac_depuis (tours : nat) (r p : BigUint) (msg : list Z) (acc : BigUint) : option BigUint :=
  match tours with
  | O => Some acc
  | S tours =>
      if (length msg =? 0)%nat then Some acc
      else
        let n := Nat.min (length msg) 16 in
        let m := le_to_big (take n msg ++ [1]) in
        match mul (add acc m) r with
        | None => None
        | Some x => mac_depuis tours r p (drop n msg) (rem x p)
        end
  end.
Definition poly1305_mac (msg key : list Z) : option (list Z) :=
  let r := le_to_big (clampe (slice key 0 16)) in
  let s := le_to_big (slice key 16 16) in
  match mac_depuis (length msg) r poly1305_prime msg zero with
  | None => None
  | Some acc => Some (big_to_le16 (add acc s))
  end.

Definition pad16 (len : nat) : nat := ((16 - len mod 16) mod 16)%nat.
Definition poly_key (key nonce : list Z) : list Z := take 32 (chacha20_block key 0 nonce).
Definition mac_data (aad cipher : list Z) : list Z :=
  aad ++ replicate (pad16 (length aad)) 0 ++ cipher ++ replicate (pad16 (length cipher)) 0 ++
  to_le 8 (Z.of_nat (length aad)) ++ to_le 8 (Z.of_nat (length cipher)).

Definition seal (key iv aad buf : list Z) : option (list Z * list Z) :=
  if (length key <? 32)%nat then None
  else
    let k := take 32 key in
    let otk := poly_key k iv in
    let buf := chacha20_xor k 1 iv buf in
    match poly1305_mac (mac_data aad buf) otk with
    | None => None
    | Some tag => Some (buf, tag)
    end.
(** [for i in 0..16 { diff |= expected[i] ^ tag[i]; }] *)
Definition difference (expected tag : list Z) : Z :=
  fold_left Z.lor (zip_with Z.lxor expected tag) 0.
Definition open (key iv aad buf tag : list Z) : option (list Z + unit) :=
  if (length key <? 32)%nat then None
  else
    let k := take 32 key in
    let otk := poly_key k iv in
    match poly1305_mac (mac_data aad buf) otk with
    | None => None
    | Some expected =>
        if negb (difference expected tag =? 0) then Some (inr tt)
        else Some (inl (chacha20_xor k 1 iv buf))
    end.

(** The vector of the self test (RFC 8439, section 2.8.2). *)
Definition ex_texte : list Z := [76; 97; 100; 105; 101; 115; 32; 97; 110; 100; 32; 71; 101; 110; 116; 108; 101; 109; 101; 110; 32; 111; 102; 32; 116; 104; 101; 32; 99; 108; 97; 115; 115; 32; 111; 102; 32; 39; 57; 57; 58; 32; 73; 102; 32; 73; 32; 99; 111; 117; 108; 100; 32; 111; 102; 102; 101; 114; 32; 121; 111; 117; 32; 111; 110; 108; 121; 32; 111; 110; 101; 32; 116; 105; 112; 32; 102; 111; 114; 32; 116; 104; 101; 32; 102; 117; 116; 117; 114; 101; 44; 32; 115; 117; 110; 115; 99; 114; 101; 101; 110; 32; 119; 111; 117; 108; 100; 32; 98; 101; 32; 105; 116; 46].
Example seal_rfc8439 :
  option_map (fun r => (take 8 r.1, r.2))
    (seal (Z.of_nat <$> seq 0x80 32) [0x07;0x00;0x00;0x00;0x40;0x41;0x42;0x43;0x44;0x45;0x46;0x47]
      [0x50;0x51;0x52;0x53;0xc0;0xc1;0xc2;0xc3;0xc4;0xc5;0xc6;0xc7] ex_texte) =
  Some ([0xd3;0x1a;0x8d;0x34;0x64;0x8e;0x60;0xdb],
        [0x1a;0xe1;0x0b;0x59;0x4f;0x09;0xe2;0x6a;0x7e;0x90;0x2e;0xcb;0xd0;0x60;0x06;0x91]).
Proof. vm_compute. reflexivity. Qed.
End Chacha.

(** ** AES-GCM *)
Module Aes.
Open Scope Z_scope.

Definition SBOX : list Z :=
  [99; 124; 119; 123; 242; 107; 111; 197; 48; 1; 103; 43; 254; 215; 171; 118;
   202; 130; 201; 125; 250; 89; 71; 240; 173; 212; 162; 175; 156; 164; 114; 192;
   183; 253; 147; 38; 54; 63; 247; 204; 52; 165; 229; 241; 113; 216; 49; 21;
   4; 199; 35; 195; 24; 150; 5; 154; 7; 18; 128; 226; 235; 39; 178; 117;
   9; 131; 44; 26; 27; 110; 90; 160; 82; 59; 214; 179; 41; 227; 47; 132;
   83; 209; 0; 237; 32; 252; 177; 91; 106; 203; 190; 57; 74; 76; 88; 207;
   208; 239; 170; 251; 67; 77; 51; 133; 69; 249; 2; 127; 80; 60; 159; 168;
   81; 163; 64; 143; 146; 157; 56; 245; 188; 182; 218; 33; 16; 255; 243; 210;
   205; 12; 19; 236; 95; 151; 68; 23; 196; 167; 126; 61; 100; 93; 25; 115;
   96; 129; 79; 220; 34; 42; 144; 136; 70; 238; 184; 20; 222; 94; 11; 219;
   224; 50; 58; 10; 73; 6; 36; 92; 194; 211; 172; 98; 145; 149; 228; 121;
   231; 200; 55; 109; 141; 213; 78; 169; 108; 86; 244; 234; 101; 122; 174; 8;
   186; 120; 37; 46; 28; 166; 180; 198; 232; 221; 116; 31; 75; 189; 139; 138;
   112; 62; 181; 102; 72; 3; 246; 14; 97; 53; 87; 185; 134; 193; 29; 158;
   225; 248; 152; 17; 105; 217; 142; 148; 155; 30; 135; 233; 206; 85; 40; 223;
   140; 161; 137; 13; 191; 230; 66; 104; 65; 153; 45; 15; 176; 84; 187; 22].
Definition RCON : list Z := [0x00; 0x01; 0x02; 0x04; 0x08; 0x10; 0x20; 0x40; 0x80; 0x1b; 0x36].

Record Aes := mk_aes { round_keys : list (list Z); rounds : nat }.

Definition xtime (a : Z) : Z :=
  let r := Z.shiftl a 1 mod 256 in if Z.land a 0x80 =? 0 then r else Z.lxor r 0x1b.
Fixpoint gmul_depuis (n : nat) (a b p : Z) : Z :=
  match n with
  | O => p
  | S n => gmul_depuis n (xtime a) (Z.shiftr b 1) (if Z.land b 1 =? 0 then p else Z.lxor p a)
  end.
Definition gmul (a b : Z) : Z := gmul_depuis 8 a b 0.
Definition sub (x : Z) : Z := aget SBOX x.

(** The words of the key, from word [length w]. *)
Fixpoint etend_cle (n nk : nat) (w : list (list Z)) : list (list Z) :=
  match n with
  | O => w
  | S n =>
      let i := length w in
      let temp := default [] (w !! (i - 1)%nat) in
      let temp :=
        if (i mod nk =? 0)%nat then
          match sub <$> (tail temp ++ take 1 temp) with
          | x :: t => Z.lxor x (aget RCON (Z.of_nat (i / nk))) :: t
          | [] => []
          end
        else if (6 <? nk)%nat && (i mod nk =? 4)%nat then sub <$> temp
        else temp in
      etend_cle n nk (w ++ [zip_with Z.lxor (default [] (w !! (i - nk)%nat)) temp])
  end.
(** A key shorter than its words is an index out of range. *)
Definition new (key : list Z) : option Aes :=
  let '(nk, rounds) := if (length key =? 32)%nat then (8, 14)%nat else (4, 10)%nat in
  if (length key <? 4 * nk)%nat then None
  else
    let w := (fun i => slice key (4 * i) 4) <$> seq 0 nk in
    let w := etend_cle (4 * (rounds + 1) - nk) nk w in
    Some (mk_aes ((fun r => concat (slice w (4 * r) 4)) <$> seq 0 (rounds + 1)) rounds).

Definition add_round_key (s rk : list Z) : list Z := zip_with Z.lxor s rk.
Definition sub_bytes (s : list Z) : list Z := sub <$> s.
Definition shift_rows (s : list Z) : list Z :=
  (fun i => aget s i) <$> [0; 5; 10; 15; 4; 9; 14; 3; 8; 13; 2; 7; 12; 1; 6; 11].
Definition mix_column (s : list Z) (c : nat) : list Z :=
  let a0 := aget s (4 * Z.of_nat c) in let a1 := aget s (4 * Z.of_nat c + 1) in
  let a2 := aget s (4 * Z.of_nat c + 2) in let a3 := aget s (4 * Z.of_nat c + 3) in
  [Z.lxor (Z.lxor (Z.lxor (gmul a0 2) (gmul a1 3)) a2) a3;
   Z.lxor (Z.lxor (Z.lxor a0 (gmul a1 2)) (gmul a2 3)) a3;
   Z.lxor (Z.lxor (Z.lxor a0 a1) (gmul a2 2)) (gmul a3 3);
   Z.lxor (Z.lxor (Z.lxor (gmul a0 3) a1) a2) (gmul a3 2)].
Definition mix_columns (s : list Z) : list Z := concat (mix_column s <$> seq 0 4).
Definition cle_tour (aes : Aes) (r : nat) : list Z := default [] (round_keys aes !! r).
Definition encrypt_block (aes : Aes) (block : list Z) : list Z :=
  let s := fold_left (fun s r => add_round_key (mix_columns (shift_rows (sub_bytes s))) (cle_tour aes r))
             (seq 1 (rounds aes - 1)) (add_round_key block (cle_tour aes 0)) in
  add_round_key (shift_rows (sub_bytes s)) (cle_tour aes (rounds aes)).

(** The vectors of the self test (FIPS-197). *)
Example aes128 : option_map (fun aes => encrypt_block aes ((fun i => 17 * Z.of_nat i) <$> seq 0 16)) (new (Z.of_nat <$> seq 0 16)) =
  Some [0x69; 0xc4; 0xe0; 0xd8; 0x6a; 0x7b; 0x04; 0x30; 0xd8; 0xcd; 0xb7; 0x80; 0x70; 0xb4; 0xc5; 0x5a].
Proof. vm_compute. reflexivity. Qed.
Example aes256 : option_map (fun aes => encrypt_block aes ((fun i => 17 * Z.of_nat i) <$> seq 0 16)) (new (Z.of_nat <$> seq 0 32)) =
  Some [0x8e; 0xa2; 0xb7; 0xca; 0x51; 0x67; 0x45; 0xbf; 0xea; 0xfc; 0x49; 0x90; 0x4b; 0x49; 0x60; 0x89].
Proof. vm_compute. reflexivity. Qed.
End Aes.

Module Gcm.
Import Aes.
Import Chacha(difference).
Open Scope Z_scope.

(** [v[j] = (v[j] >> 1) | (v[j - 1] << 7)] from the end; the first octet takes nothing. *)
Fixpoint decale_droite (prec : Z) (v : list Z) : list Z :=
  match v with
  | [] => []
  | x :: v => Z.lor (Z.shiftr x 1) (Z.shiftl prec 7 mod 256) :: decale_droite x v
  end.
Fixpoint ghash_mul_depuis (n : nat) (i : Z) (y z v : list Z) : list Z :=
  match n with
  | O => z
  | S n =>
      let bit := Z.land (Z.shiftr (aget y (i / 8)) (7 - i mod 8)) 1 in
      let z := if bit =? 1 then zip_with Z.lxor z v else z in
      let lsb := Z.land (aget v 15) 1 in
      let v := decale_droite 0 v in
      let v := if lsb =? 1 then aset v 0 (Z.lxor (aget v 0) 0xe1) else v in
      ghash_mul_depuis n (i + 1) y z v
  end.
Definition ghash_mul (y h : list Z) : list Z := ghash_mul_depuis 128 0 y (replicate 16 0) h.
(** One block after another, the last one completed with zeros. *)
Fixpoint feed (tours : nat) (h data y : list Z) : list Z :=
  match tours with
  | O => y
  | S tours =>
      if (length data =? 0)%nat then y
      else
        let n := Nat.min (length data) 16 in
        let block := take n data ++ replicate (16 - n) 0 in
        feed tours h (drop n data) (ghash_mul (zip_with Z.lxor y block) h)
  end.
Definition be8 (x : Z) : list Z := rev (to_le 8 x).
Definition ghash (h aad cipher : list Z) : list Z :=
  let y := feed (length aad) h aad (replicate 16 0) in
  let y := feed (length cipher) h cipher y in
  let lenblock := be8 (Z.of_nat (length aad) * 8) ++ be8 (Z.of_nat (length cipher) * 8) in
  ghash_mul (zip_with Z.lxor y lenblock) h.

Definition inc32 (counter : list Z) : list Z :=
  take 12 counter ++ rev (to_le 4 (from_le (rev (drop 12 counter)) + 1)).
Fixpoint gctr (tours : nat) (aes : Aes) (counter data : list Z) : list Z :=
  match tours with
  | O => data
  | S tours =>
      if (length data =? 0)%nat then data
      else
        let ks := encrypt_block aes counter in
        let n := Nat.min (length data) 16 in
        zip_with Z.lxor (take n data) (take n ks) ++ gctr tours aes (inc32 counter) (drop n data)
  end.
Definition j0 (iv : list Z) : list Z := iv ++ [0; 0; 0; 1].
Definition tag_de (aes : Aes) (iv aad cipher : list Z) : list Z :=
  zip_with Z.lxor (ghash (encrypt_block aes (replicate 16 0)) aad cipher) (encrypt_block aes (j0 iv)).
Definition seal (key iv aad buf : list Z) : option (list Z * list Z) :=
  match new key with
  | None => None
  | Some aes =>
      let buf := gctr (length buf) aes (inc32 (j0 iv)) buf in
      Some (buf, tag_de aes iv aad buf)
  end.
Definition open (key iv aad buf tag : list Z) : option (list Z + unit) :=
  match new key with
  | None => None
  | Some aes =>
      let expected := tag_de aes iv aad buf in
      if negb (difference expected tag =? 0) then Some (inr tt)
      else Some (inl (gctr (length buf) aes (inc32 (j0 iv)) buf))
  end.

(** A vector of NIST (AES-128, test case 2). *)
Example seal_nist : seal (replicate 16 0) (replicate 12 0) [] (replicate 16 0) =
  Some ([0x03; 0x88; 0xda; 0xce; 0x60; 0xb6; 0xa3; 0x92; 0xf3; 0x28; 0xc2; 0xb9; 0x71; 0xb2; 0xfe; 0x78],
        [0xab; 0x6e; 0x47; 0xd4; 0x2c; 0xec; 0x13; 0xbd; 0xf5; 0x3a; 0x67; 0xb2; 0x12; 0x57; 0xbd; 0xdf]).
Proof. vm_compute. reflexivity. Qed.
End Gcm.

(** ** A key stream *)
Module Flux.
Open Scope Z_scope.

Lemma xor_involutif l : forall k, (length l <= length k)%nat -> zip_with Z.lxor (zip_with Z.lxor l k) k = l.
Proof.
  induction l as [|x l IH]; intros [|y k] H; cbn in *; try done; try lia.
  rewrite Z.lxor_assoc, Z.lxor_nilpotent, Z.lxor_0_r. f_equal. apply IH. lia.
Qed.
Lemma xor_gauche l : forall k, length l = length k -> zip_with Z.lxor l (zip_with Z.lxor l k) = k.
Proof.
  induction l as [|x l IH]; intros [|y k] H; cbn in *; try done; try lia.
  rewrite <- Z.lxor_assoc, Z.lxor_nilpotent, Z.lxor_0_l. f_equal. apply IH. lia.
Qed.
Lemma xor_octets l : forall k, Forall octet l -> Forall octet k -> Forall octet (zip_with Z.lxor l k).
Proof.
  induction l as [|x l IH]; intros [|y k] H1 H2; cbn; try constructor; inversion H1; inversion H2; subst; [|by apply IH].
  unfold octet in *. apply (lxor_mot 8); lia.
Qed.

Section Masque.
(** Blocks of [taille] octets made from a counter. *)
Context {St : Type} (bloc : St -> list Z) (suivant : St -> St) (taille : nat).

Fixpoint masque_flux (tours : nat) (st : St) (data : list Z) : list Z :=
  match tours with
  | O => data
  | S tours =>
      if (length data =? 0)%nat then data
      else
        let n := Nat.min (length data) taille in
        zip_with Z.lxor (take n data) (take n (bloc st)) ++ masque_flux tours (suivant st) (drop n data)
  end.

Lemma length_masque tours : (forall st, length (bloc st) = taille) -> forall st data, length (masque_flux tours st data) = length data.
Proof.
  intros Hb. induction tours as [|tours IH]; intros st data; cbn [masque_flux]; [done|].
  destruct (Nat.eqb_spec (length data) 0); [done|]. cbv zeta.
  rewrite length_app, length_zip_with, IH, !length_take, length_drop, Hb. lia.
Qed.
Lemma masque_deux_fois tours : (forall st, length (bloc st) = taille) -> (0 < taille)%nat -> forall st data,
  (length data <= tours)%nat -> masque_flux tours st (masque_flux tours st data) = data.
Proof.
  intros Hb Ht. induction tours as [|tours IH]; intros st data Hl; [done|]. cbn [masque_flux].
  destruct (Nat.eqb_spec (length data) 0) as [E|E]; [by rewrite (proj2 (Nat.eqb_eq _ _) E)|]. cbv zeta.
  set (n := Nat.min (length data) taille). set (head := zip_with Z.lxor (take n data) (take n (bloc st))).
  set (tl := masque_flux tours (suivant st) (drop n data)).
  assert (length head = n) as Hh by (unfold head; rewrite length_zip_with, !length_take, Hb; lia).
  assert (length (head ++ tl) = length data) as Hlen
    by (rewrite length_app, Hh; unfold tl; rewrite length_masque, length_drop by done; lia).
  rewrite Hlen. destruct (Nat.eqb_spec (length data) 0); [lia|]. fold n.
  rewrite take_app_length', drop_app_length' by done. unfold tl. rewrite IH by (rewrite length_drop; lia).
  unfold head. rewrite xor_involutif by (rewrite !length_take, Hb; lia). apply take_drop.
Qed.
Lemma masque_octets tours : (forall st, Forall octet (bloc st)) -> forall st data,
  Forall octet data -> Forall octet (masque_flux tours st data).
Proof.
  intros Hb. induction tours as [|tours IH]; intros st data H; cbn [masque_flux]; [done|].
  destruct (_ =? 0)%nat; [done|]. cbv zeta. apply Forall_app. split; [|by apply IH, Forall_drop].
  apply xor_octets; by apply Forall_take.
Qed.
End Masque.
End Flux.

Module ChachaProofs.
Import BigUint BigUintProofs Chacha Flux.
Open Scope Z_scope.

(** ** The key stream *)

Lemma length_concat_le k l : length (concat (to_le k <$> l)) = (k * length l)%nat.
Proof.
  induction l as [|x l IH]; [cbn; lia|]. rewrite fmap_cons. cbn [concat length]. rewrite length_app, IH, length_to_le. lia.
Qed.
Lemma length_demi_tour a b d n s : length (demi_tour a b d n s) = length s.
Proof. unfold demi_tour. by rewrite !length_aset. Qed.
Lemma length_double_tour w : length (double_tour w) = length w.
Proof. unfold double_tour, quarter_round. cbv zeta. by rewrite !length_demi_tour. Qed.
Lemma length_chacha20_block key counter nonce : length (chacha20_block key counter nonce) = 64%nat.
Proof.
  unfold chacha20_block. rewrite length_concat_le, length_zip_with. set (s := _ ++ _).
  assert (length (Nat.iter 10 double_tour s) = length s) as ->.
  { generalize 10%nat. induction n as [|n IH]; [done|]. change (Nat.iter (S n) double_tour s) with (double_tour (Nat.iter n double_tour s)). by rewrite length_double_tour. }
  unfold s. rewrite !length_app, !length_fmap, !length_seq. done.
Qed.
Lemma chacha20_block_octets key counter nonce : Forall octet (chacha20_block key counter nonce).
Proof. apply Forall_concat, Forall_fmap, Forall_forall. intros x _. apply to_le_octets. Qed.

Lemma xor_depuis_flux tours key nonce : forall counter data, xor_depuis tours key counter nonce data =
  masque_flux (fun c => chacha20_block key c nonce) (fun c => add32 c 1) 64 tours counter data.
Proof.
  induction tours as [|tours IH]; intros counter data; [done|]. cbn [xor_depuis masque_flux]. by rewrite IH.
Qed.
Lemma length_chacha20_xor key counter nonce data : length (chacha20_xor key counter nonce data) = length data.
Proof. unfold chacha20_xor. rewrite xor_depuis_flux. apply length_masque. intros. apply length_chacha20_block. Qed.
Lemma chacha20_xor_involutif key counter nonce data :
  chacha20_xor key counter nonce (chacha20_xor key counter nonce data) = data.
Proof.
  unfold chacha20_xor at 1. rewrite length_chacha20_xor. unfold chacha20_xor. rewrite !xor_depuis_flux.
  apply masque_deux_fois; [intros; apply length_chacha20_block|lia|lia].
Qed.
Lemma chacha20_xor_octets key counter nonce data : Forall octet data -> Forall octet (chacha20_xor key counter nonce data).
Proof. unfold chacha20_xor. rewrite xor_depuis_flux. apply masque_octets. intros. apply chacha20_block_octets. Qed.

(** ** Poly1305 *)

Lemma le_to_big_spec bytes : Forall octet bytes -> nombre (le_to_big bytes) /\ v (le_to_big bytes) = from_le bytes.
Proof.
  intros H. destruct (from_bytes_be_spec (rev bytes)) as [H1 H2]; [by apply Forall_rev|]. split; [done|].
  unfold le_to_big. rewrite H2. unfold from_be. by rewrite rev_involutive.
Qed.
Lemma from_le_take n : forall l, from_le l mod 256 ^ Z.of_nat n = from_le (take n l) mod 256 ^ Z.of_nat n.
Proof.
  intros l. destruct (Nat.le_gt_cases n (length l)) as [H|H]; [|by rewrite take_ge by lia].
  rewrite <- (take_drop n l) at 1. rewrite from_le_app, length_take, Nat.min_l by done.
  by rewrite (Z.mul_comm (256 ^ _)), Z.mod_add by (apply Z.pow_nonzero; lia).
Qed.
Lemma big_to_le16_spec b : nombre b -> big_to_le16 b = to_le 16 (v b).
Proof.
  intros Hb. unfold big_to_le16. set (be := to_bytes_be b).
  destruct (to_bytes_be_spec b (S (length (limbs b) * 4)) Hb) as (Ho & Hv & _); [|lia|].
  { pose proof (val_borne _ (proj1 Hb)). eapply Z.lt_le_trans; [apply H|]. change 256 with (2 ^ 8).
    rewrite <- Z.pow_mul_r by lia. apply Z.pow_le_mono_r; lia. }
  fold be in Ho, Hv. set (n := Nat.min (length be) 16).
  assert (length (take n (rev be) ++ replicate (16 - n) 0) = 16%nat) as Hl.
  { rewrite length_app, length_take, length_rev, length_replicate. lia. }
  assert (Forall octet (take n (rev be) ++ replicate (16 - n) 0)) as Hf.
  { apply Forall_app. split; [by apply Forall_take, Forall_rev|apply Forall_replicate; unfold octet; lia]. }
  apply from_le_inj; [done|apply to_le_octets|by rewrite length_to_le|]. rewrite from_to_le.
  pose proof (from_le_bound _ Hf) as B. rewrite Hl in B. rewrite <- (Z.mod_small _ _ B), <- Hv.
  unfold from_be. rewrite (from_le_take 16 (rev be)), (from_le_take 16 (_ ++ _)).
  destruct (Nat.le_gt_cases 16 (length be)) as [H16|H16].
  - replace n with 16%nat by lia. rewrite take_app_length' by (rewrite length_take, length_rev; lia). done.
  - rewrite (take_ge (rev be) 16) by (rewrite length_rev; lia). rewrite (take_ge (_ ++ _) 16) by (rewrite Hl; lia).
    rewrite (take_ge (rev be) n) by (rewrite length_rev; lia). rewrite from_le_app.
    assert (forall k, from_le (replicate k 0) = 0) as -> by (induction k as [|k IH]; cbn [replicate from_le]; lia).
    f_equal. lia.
Qed.

Fixpoint morceaux16 (n : nat) (l : list Z) : list (list Z) :=
  match n with O => [] | S n => if (length l =? 0)%nat then [] else take 16 l :: morceaux16 n (drop 16 l) end.
(** The polynomial of the standard, at [r]. *)
Definition polynome (r : Z) (msg : list Z) : Z :=
  fold_left (fun a m => (a + from_le (m ++ [1])) * r) (morceaux16 (length msg) msg) 0.
Definition P1305 : Z := 2 ^ 130 - 5.

Lemma mac_spec r p : nombre r -> nombre p -> 0 < v p -> forall tours msg acc a,
  Forall octet msg -> nombre acc -> v acc = a mod v p ->
  exists acc', mac_depuis tours r p msg acc = Some acc' /\ nombre acc' /\
    v acc' = fold_left (fun a m => (a + from_le (m ++ [1])) * v r) (morceaux16 tours msg) a mod v p.
Proof.
  intros Hr Hp Hpp. induction tours as [|tours IH]; intros msg acc a Ho Ha Hv; cbn [mac_depuis morceaux16];
    [by exists acc|]. destruct (Nat.eqb_spec (length msg) 0); [by exists acc|]. cbv zeta.
  assert (take (Nat.min (length msg) 16) msg = take 16 msg /\ drop (Nat.min (length msg) 16) msg = drop 16 msg) as [-> ->].
  { destruct (Nat.le_gt_cases (length msg) 16); [|by rewrite Nat.min_r by lia].
    rewrite Nat.min_l by lia. by rewrite !take_ge, !drop_ge by lia. }
  destruct (le_to_big_spec (take 16 msg ++ [1])) as [Hm Em].
  { apply Forall_app. split; [by apply Forall_take|repeat constructor; lia]. }
  destruct (add_spec acc _ Ha Hm) as [Hs Es]. destruct (mul_spec _ r Hs Hr) as (x & -> & Hx & Ex).
  destruct (rem_spec x p Hx Hp Hpp) as [Hrem Erem]. cbn [fold_left]. apply IH; [by apply Forall_drop|done|].
  rewrite Erem, Ex, Es, Em, Hv. rewrite <- Zmult_mod_idemp_l, Zplus_mod_idemp_l, Zmult_mod_idemp_l. done.
Qed.

(** [from_le] of octets masked one by one. *)
Lemma land_octets b m x y : octet b -> octet m -> Z.land (b + 256 * x) (m + 256 * y) = Z.land b m + 256 * Z.land x y.
Proof.
  intros Hb Hm. change 256 with (2 ^ 8).
  assert (forall a z, octet a -> a + 2 ^ 8 * z = Z.lor (z * 2 ^ 8) a) as Hl.
  { intros a z Ha. unfold octet in Ha. rewrite lor_disjoint by lia. lia. }
  rewrite (Hl b x Hb), (Hl m y Hm). assert (octet (Z.land b m)) as Hbm by (apply (land_mot_l 8); [lia|exact Hb]).
  rewrite (Hl _ _ Hbm). apply Z.bits_inj'. intros i Hi. rewrite !Z.land_spec, !Z.lor_spec, Z.land_spec.
  destruct (Z.lt_ge_cases i 8).
  - rewrite !Z.mul_pow2_bits_low by done. by rewrite !orb_false_l.
  - assert (forall a, octet a -> Z.testbit a i = false) as H0.
    { intros a Ha. unfold octet in Ha. apply (mot_bits 8) in Ha as [_ Ha]; [|lia]. by apply Ha. }
    rewrite !Z.mul_pow2_bits by lia. rewrite !(H0 b), !(H0 m), !orb_false_r, Z.land_spec by done. done.
Qed.
Lemma from_le_land l : forall m, Forall octet l -> Forall octet m -> length l = length m ->
  from_le (zip_with Z.land l m) = Z.land (from_le l) (from_le m).
Proof.
  induction l as [|x l IH]; intros [|y m] H1 H2 Hl; cbn in Hl; try lia; [done|]. inversion H1; inversion H2; subst.
  cbn [zip_with from_le]. rewrite land_octets, IH by (done || lia). done.
Qed.
Lemma land_masque l : forall m, Forall octet l -> Forall octet (zip_with Z.land l m).
Proof.
  induction l as [|x l IH]; intros [|y m] H; try constructor; inversion H; subst; [|by apply IH].
  apply (land_mot_l 8); [lia|done].
Qed.
Definition MASQUE_R : Z := 0x0ffffffc0ffffffc0ffffffc0fffffff.
Lemma clampe_spec r : Forall octet r -> length r = 16%nat -> Forall octet (clampe r) /\ from_le (clampe r) = Z.land (from_le r) MASQUE_R.
Proof.
  intros Ho Hl. set (ms := to_le 16 MASQUE_R).
  assert (clampe r = zip_with Z.land r ms) as ->.
  { assert (forall x, octet x -> Z.land x 255 = x) as H255.
    { intros x Hx. change 255 with (Z.ones 8). rewrite Z.land_ones by lia. by apply Z.mod_small. }
    do 17 (destruct r as [|? r]; [cbn in Hl; try lia|]); [|cbn in Hl; lia].
    repeat match goal with H : Forall octet (_ :: _) |- _ => apply Forall_cons in H as [? H] end.
    change ms with [255; 255; 255; 15; 252; 255; 255; 15; 252; 255; 255; 15; 252; 255; 255; 15].
    cbn [zip_with]. rewrite !H255 by done. reflexivity. }
  assert (Forall octet ms) as Hms by apply to_le_octets. split.
  - by apply land_masque.
  - rewrite from_le_land; [|done|done|done]. f_equal.
Qed.

Lemma poly1305_spec msg key : Forall octet msg -> Forall octet key -> length key = 32%nat ->
  poly1305_mac msg key = Some (to_le 16 (polynome (Z.land (from_le (take 16 key)) MASQUE_R) msg mod P1305 + from_le (drop 16 key))).
Proof.
  intros Hm Hk Hl. unfold poly1305_mac.
  assert (slice key 0 16 = take 16 key /\ slice key 16 16 = drop 16 key) as [-> ->].
  { unfold slice. split; [done|]. apply take_ge. rewrite length_drop. lia. }
  destruct (clampe_spec (take 16 key)) as [Hc Ec]; [by apply Forall_take|rewrite length_take; lia|].
  destruct (le_to_big_spec _ Hc) as [Hr Er]. destruct (le_to_big_spec (drop 16 key)) as [Hs Es]; [by apply Forall_drop|].
  destruct (from_bytes_be_spec (3 :: replicate 15 255 ++ [251])) as [Hp Ep]; [cbn; repeat constructor; lia|].
  assert (v poly1305_prime = P1305) as Epp by (unfold poly1305_prime; rewrite Ep; reflexivity).
  destruct (mac_spec _ poly1305_prime Hr Hp ltac:(rewrite Epp; reflexivity) (length msg) msg zero 0 Hm nombre_zero) as (acc & -> & Ha & Ea).
  { rewrite Epp. reflexivity. }
  destruct (add_spec acc _ Ha Hs) as [Hadd Eadd]. f_equal. rewrite big_to_le16_spec by done. f_equal.
  rewrite Eadd, Ea, Es, Er, Ec, Epp. reflexivity.
Qed.
Lemma mac_data_octets aad c : Forall octet aad -> Forall octet c -> Forall octet (mac_data aad c).
Proof.
  intros. unfold mac_data. rewrite !Forall_app.
  split_and!; try done; try apply to_le_octets; apply Forall_replicate; unfold octet; lia.
Qed.
Lemma poly_key_ok key nonce : Forall octet (poly_key key nonce) /\ length (poly_key key nonce) = 32%nat.
Proof.
  unfold poly_key. split; [apply Forall_take, chacha20_block_octets|]. by rewrite length_take, length_chacha20_block.
Qed.

(** ** The tag *)

Lemma difference_nulle l : forall m a, length l = length m -> (fold_left Z.lor (zip_with Z.lxor l m) a = 0 <-> a = 0 /\ l = m).
Proof.
  induction l as [|x l IH]; intros [|y m] a Hl; cbn in Hl |- *; try lia; [tauto|].
  rewrite IH by lia. rewrite Z.lor_eq_0_iff, Z.lxor_eq_0_iff. split; [intros [[? ?] ?]; subst; done|intros [? ?]; by simplify_eq].
Qed.
Lemma difference_spec l m : length l = length m -> negb (difference l m =? 0) = negb (bool_decide (l = m)).
Proof.
  intros H. f_equal. unfold difference. pose proof (difference_nulle l m 0 H) as Hd.
  destruct (Z.eqb_spec (fold_left Z.lor (zip_with Z.lxor l m) 0) 0); symmetry; [apply bool_decide_eq_true|apply bool_decide_eq_false]; tauto.
Qed.

Lemma difference_egale l : negb (difference l l =? 0) = false.
Proof. by rewrite difference_spec, bool_decide_true by reflexivity. Qed.
Lemma difference_autre l m : length l = length m -> l <> m -> negb (difference l m =? 0) = true.
Proof. intros Hl Hne. by rewrite difference_spec, bool_decide_false by done. Qed.

(** The tag of the standard (RFC 8439, section 2.8). *)
Definition etiquette (key iv aad c : list Z) : list Z :=
  to_le 16 (polynome (Z.land (from_le (take 16 (poly_key (take 32 key) iv))) MASQUE_R) (mac_data aad c) mod P1305 +
            from_le (drop 16 (poly_key (take 32 key) iv))).
Lemma tag_spec key iv aad c : Forall octet aad -> Forall octet c ->
  poly1305_mac (mac_data aad c) (poly_key (take 32 key) iv) = Some (etiquette key iv aad c).
Proof.
  intros Ha Hc. destruct (poly_key_ok (take 32 key) iv) as [H1 H2].
  unfold etiquette. rewrite (poly1305_spec _ _ (mac_data_octets _ _ Ha Hc) H1 H2). reflexivity.
Qed.
Lemma chacha_exact key iv aad buf : (32 <= length key)%nat -> Forall octet aad -> Forall octet buf ->
  (exists c, seal key iv aad buf = Some (c, etiquette key iv aad c) /\ length c = length buf /\ Forall octet c /\
     open key iv aad c (etiquette key iv aad c) = Some (inl buf)) /\
  (forall tag, length tag = 16%nat -> tag <> etiquette key iv aad buf -> open key iv aad buf tag = Some (inr tt)).
Proof.
  intros Hk Ha Hb. unfold seal, open. destruct (Nat.ltb_spec (length key) 32); [lia|]. cbv zeta. split.
  - set (c := chacha20_xor (take 32 key) 1 iv buf). assert (Forall octet c) as Hc by (by apply chacha20_xor_octets).
    exists c. rewrite (tag_spec key iv aad c Ha Hc). generalize (etiquette key iv aad c). intros t.
    rewrite (difference_spec t t eq_refl), bool_decide_true by reflexivity. cbn [negb].
    split; [reflexivity|]. split; [apply length_chacha20_xor|]. split; [exact Hc|]. unfold c. by rewrite chacha20_xor_involutif.
  - intros tag Hl. rewrite (tag_spec key iv aad buf Ha Hb).
    assert (length (etiquette key iv aad buf) = 16%nat) as Ht by apply length_to_le.
    revert Ht. generalize (etiquette key iv aad buf). intros t Ht Hne.
    rewrite difference_spec by congruence. by rewrite bool_decide_false by congruence.
Qed.

(** C1: the AEAD of RFC 8439 as this code computes it, on its big integers and octets. The
    code of Poly1305 answers the polynomial of the message at the clamped first half of the
    key, modulo 2^130 - 5, plus the second half, on 16 octets; what [seal] gives back is opened to the same octets
    under the tag it computed; and [open] refuses every other tag. *)
Theorem aead_exact key iv aad buf : (32 <= length key)%nat -> Forall octet key -> Forall octet aad -> Forall octet buf ->
  poly1305_mac buf (take 32 key) =
    Some (to_le 16 (polynome (Z.land (from_le (take 16 key)) MASQUE_R) buf mod P1305 + from_le (drop 16 (take 32 key)))) /\
  (exists c, seal key iv aad buf = Some (c, etiquette key iv aad c) /\ length c = length buf /\
     open key iv aad c (etiquette key iv aad c) = Some (inl buf)) /\
  (forall tag, length tag = 16%nat -> tag <> etiquette key iv aad buf -> open key iv aad buf tag = Some (inr tt)).
Proof.
  intros Hk Hok Ha Hb. destruct (chacha_exact key iv aad buf Hk Ha Hb) as [(c & E1 & E2 & _ & E3) H2]. split_and!; [|eauto|exact H2].
  rewrite poly1305_spec; [by rewrite take_take, Nat.min_l by lia|done|by apply Forall_take|rewrite length_take; lia].
Qed.
Lemma aead_exact_witness :
  let key := replicate 32 7 in let iv := replicate 12 1 in
  poly1305_mac [1; 2; 3] (take 32 key) =
    Some (to_le 16 (polynome (Z.land (from_le (take 16 key)) MASQUE_R) [1; 2; 3] mod P1305 + from_le (drop 16 (take 32 key)))) /\
  (exists c, seal key iv [9] [1; 2; 3] = Some (c, etiquette key iv [9] c) /\ length c = 3%nat /\
     open key iv [9] c (etiquette key iv [9] c) = Some (inl [1; 2; 3])) /\
  (forall tag, length tag = 16%nat -> tag <> etiquette key iv [9] [1; 2; 3] -> open key iv [9] [1; 2; 3] tag = Some (inr tt)).
Proof.
  apply (aead_exact (replicate 32 7) (replicate 12 1) [9] [1; 2; 3]);
    [by apply Nat.leb_le|apply Forall_replicate; done|repeat constructor; done|repeat constructor; done].
Defined.
End ChachaProofs.

Module GcmProofs.
Import Aes Gcm Flux.
Open Scope Z_scope.

Definition mot (x : list Z) : Prop := length x = 4%nat.
Lemma etend_cle_ok n nk : (1 <= nk)%nat -> forall w, Forall mot w -> (nk <= length w)%nat ->
  Forall mot (etend_cle n nk w) /\ length (etend_cle n nk w) = (length w + n)%nat.
Proof.
  intros Hnk. induction n as [|n IH]; intros w Hw Hl; cbn [etend_cle]; [split; [done|lia]|]. cbv zeta.
  set (x := zip_with _ _ _). assert (mot x) as Hx.
  { unfold x, mot. rewrite length_zip_with.
    destruct (lookup_lt_is_Some_2 w (length w - nk)) as [a Ha]; [lia|].
    destruct (lookup_lt_is_Some_2 w (length w - 1)) as [b Hb]; [lia|]. rewrite Ha, Hb. cbn [default from_option id].
    assert (mot a) as Hma by (exact (Forall_lookup_1 _ _ _ _ Hw Ha)).
    assert (mot b) as Hmb by (exact (Forall_lookup_1 _ _ _ _ Hw Hb)). unfold mot in *. rewrite Hma.
    destruct b as [|b0 [|b1 [|b2 [|b3 [|]]]]]; try done.
    destruct (_ =? 0)%nat; [done|]. destruct (_ && _); done. }
  destruct (IH (w ++ [x])) as [H1 H2]; [apply Forall_app; split; [done|by constructor]|rewrite length_app; lia|].
  split; [done|]. rewrite H2, length_app. cbn [length]. lia.
Qed.
Lemma concat_mots w k : Forall mot w -> (k + 4 <= length w)%nat -> length (concat (slice w k 4)) = 16%nat.
Proof.
  intros Hw Hk. assert (length (slice w k 4) = 4%nat) as Hs by (apply length_slice; lia).
  assert (Forall mot (slice w k 4)) as Hf by (by apply Forall_slice).
  destruct (slice w k 4) as [|a [|b [|c [|d [|]]]]]; try done.
  repeat (apply Forall_cons in Hf as [? Hf]). unfold mot in *. cbn [concat]. rewrite !length_app. cbn [length]. lia.
Qed.
Definition aes_ok (aes : Aes) : Prop :=
  forall r, (r <= rounds aes)%nat -> length (cle_tour aes r) = 16%nat.
Lemma aes_new_ok key aes : new key = Some aes -> aes_ok aes.
Proof.
  unfold new. set (p := if (length key =? 32)%nat then _ else _).
  assert (1 <= p.1 /\ p.1 <= 4 * (p.2 + 1))%nat as [Hp1 Hp2] by (unfold p; destruct (_ =? 32)%nat; cbn; lia).
  destruct p as [nk rounds]. cbn [fst snd] in *. destruct (Nat.ltb_spec (length key) (4 * nk)) as [|Hk]; [done|]. intros [= <-].
  destruct (etend_cle_ok (4 * (rounds + 1) - nk) nk Hp1 ((fun i => slice key (4 * i) 4) <$> seq 0 nk)) as [H1 H2].
  { apply Forall_fmap, Forall_forall. intros i Hi%elem_of_seq. unfold mot. cbn. apply length_slice. lia. }
  { by rewrite length_fmap, length_seq. }
  rewrite length_fmap, length_seq in H2. intros r Hr. unfold cle_tour. cbn [round_keys Aes.rounds] in *.
  rewrite list_lookup_fmap, lookup_seq_lt by lia. cbn [fmap option_fmap option_map default from_option id Nat.add].
  apply concat_mots; [exact H1|]. etransitivity; [|apply Nat.eq_le_incl; symmetry; exact H2]. cbn. lia.
Qed.
Lemma length_encrypt_block aes block : aes_ok aes -> length (encrypt_block aes block) = 16%nat.
Proof.
  intros H. unfold encrypt_block. cbv zeta. unfold add_round_key at 1. rewrite length_zip_with, (H (rounds aes) ltac:(lia)).
  unfold shift_rows. by rewrite length_fmap.
Qed.
Lemma gctr_flux tours aes : forall counter data,
  gctr tours aes counter data = masque_flux (encrypt_block aes) inc32 16 tours counter data.
Proof.
  induction tours as [|tours IH]; intros counter data; [done|]. cbn [gctr masque_flux]. by rewrite IH.
Qed.
Lemma decale_droite_longueur v : forall p, length (decale_droite p v) = length v.
Proof. induction v as [|x v IH]; intros p; cbn; [done|]. by rewrite IH. Qed.
Lemma length_ghash_mul_depuis n : forall i y z v, length z = 16%nat -> length v = 16%nat -> length (ghash_mul_depuis n i y z v) = 16%nat.
Proof.
  induction n as [|n IH]; intros i y z v Hz Hv; cbn [ghash_mul_depuis]; [done|]. cbv zeta. apply IH.
  - destruct (_ =? 1); [|done]. rewrite length_zip_with. lia.
  - destruct (_ =? 1); rewrite ?length_aset; by rewrite decale_droite_longueur.
Qed.
Lemma length_tag aes iv aad c : aes_ok aes -> length (tag_de aes iv aad c) = 16%nat.
Proof.
  intros H. unfold tag_de, ghash, ghash_mul. cbv zeta. rewrite length_zip_with, length_encrypt_block by done.
  rewrite length_ghash_mul_depuis; [done|done|by apply length_encrypt_block].
Qed.
Lemma new_defini key : length key = 16%nat \/ length key = 32%nat -> exists aes, new key = Some aes.
Proof.
  unfold new. intros [-> | ->].
  - change (16 =? 32)%nat with false. cbv beta iota. change (16 <? 4 * 4)%nat with false. eexists. reflexivity.
  - change (32 =? 32)%nat with true. cbv beta iota. change (32 <? 4 * 8)%nat with false. eexists. reflexivity.
Qed.

Lemma gcm_exact key iv aad buf : length key = 16%nat \/ length key = 32%nat ->
  exists tag : list Z -> list Z,
  (exists c, seal key iv aad buf = Some (c, tag c) /\ length c = length buf /\
     open key iv aad c (tag c) = Some (inl buf)) /\
  (forall t, length t = 16%nat -> t <> tag buf -> open key iv aad buf t = Some (inr tt)) /\ forall c, length (tag c) = 16%nat.
Proof.
  intros Hk. destruct (new_defini key Hk) as [aes E]. unfold seal, open. rewrite E.
  pose proof (aes_new_ok key aes E) as Hok. exists (tag_de aes iv aad). cbv zeta. split; [|split].
  - eexists. split; [reflexivity|]. rewrite !gctr_flux.
    assert (forall c, length (masque_flux (encrypt_block aes) inc32 16 (length buf) c buf) = length buf) as Hl
      by (intros; apply length_masque; intros; by apply length_encrypt_block).
    split; [apply Hl|]. rewrite ChachaProofs.difference_egale. cbn iota. do 2 f_equal.
    rewrite Hl. apply masque_deux_fois; [intros; by apply length_encrypt_block|lia|lia].
  - intros t Hl Hne. rewrite ChachaProofs.difference_autre; [done|rewrite length_tag by exact Hok; congruence|congruence].
  - intros c. by apply length_tag.
Qed.
End GcmProofs.

(** ** The record layer *)
Module Enregistrement.
Import Hachage(HashAlg, Sha256Alg, Sha384Alg, hkdf_expand_label, derive_secret, hkdf_extract, hmac, zeros, empty_hash, len).
Open Scope Z_scope.

Definition CT_CHANGE_CIPHER_SPEC : Z := 20.
Definition CT_ALERT : Z := 21.
Definition CT_HANDSHAKE : Z := 22.
Definition CT_APPLICATION_DATA : Z := 23.

Inductive CipherSuite := TlsAes128GcmSha256 | TlsAes256GcmSha384 | TlsChacha20Poly1305Sha256.
Definition id (s : CipherSuite) : Z :=
  match s with TlsAes128GcmSha256 => 0x1301 | TlsAes256GcmSha384 => 0x1302 | TlsChacha20Poly1305Sha256 => 0x1303 end.
Definition from_id (i : Z) : option CipherSuite :=
  if i =? 0x1301 then Some TlsAes128GcmSha256
  else if i =? 0x1302 then Some TlsAes256GcmSha384
  else if i =? 0x1303 then Some TlsChacha20Poly1305Sha256
  else None.
Definition hash_alg (s : CipherSuite) : HashAlg :=
  match s with TlsAes256GcmSha384 => Sha384Alg | _ => Sha256Alg end.
Definition key_len (s : CipherSuite) : nat := match s with TlsAes128GcmSha256 => 16 | _ => 32 end.
Definition hash_len (s : CipherSuite) : nat := len (hash_alg s).

(** ASCII labels. *)
Definition l_key : list Z := [107; 101; 121].
Definition l_iv : list Z := [105; 118].
Definition l_derived : list Z := [100; 101; 114; 105; 118; 101; 100].
Definition l_c_hs : list Z := [99; 32; 104; 115; 32; 116; 114; 97; 102; 102; 105; 99].
Definition l_s_hs : list Z := [115; 32; 104; 115; 32; 116; 114; 97; 102; 102; 105; 99].
Definition l_c_ap : list Z := [99; 32; 97; 112; 32; 116; 114; 97; 102; 102; 105; 99].
Definition l_s_ap : list Z := [115; 32; 97; 112; 32; 116; 114; 97; 102; 102; 105; 99].
Definition l_finished : list Z := [102; 105; 110; 105; 115; 104; 101; 100].

Record DirKeys := mk_keys { suite : CipherSuite; key : list Z; iv : list Z; seq : Z }.
Definition new (s : CipherSuite) (secret : list Z) : DirKeys :=
  let alg := hash_alg s in
  mk_keys s (hkdf_expand_label alg secret l_key [] (key_len s)) (hkdf_expand_label alg secret l_iv [] 12) 0.
Definition nonce (k : DirKeys) : list Z :=
  take 4 (iv k) ++ zip_with Z.lxor (drop 4 (iv k)) (Gcm.be8 (seq k)).
Definition seal (k : DirKeys) : list Z -> list Z -> option (list Z * list Z) :=
  match suite k with
  | TlsChacha20Poly1305Sha256 => Chacha.seal (key k) (nonce k)
  | _ => Gcm.seal (key k) (nonce k)
  end.
Definition open (k : DirKeys) : list Z -> list Z -> list Z -> option (list Z + unit) :=
  match suite k with
  | TlsChacha20Poly1305Sha256 => Chacha.open (key k) (nonce k)
  | _ => Gcm.open (key k) (nonce k)
  end.
(** [self.seq += 1] *)
Definition suivant (k : DirKeys) : option DirKeys :=
  if u64_max <=? seq k + 1 then None else Some (mk_keys (suite k) (key k) (iv k) (seq k + 1)).

Definition encrypt (k : DirKeys) (inner_type : Z) (data : list Z) : option (DirKeys * list Z) :=
  let inner := data ++ [inner_type] in
  let total := Z.of_nat (length inner + 16) in
  let header := [CT_APPLICATION_DATA; 3; 3; Z.shiftr total 8 mod 256; total mod 256] in
  match seal k header inner with
  | None => None
  | Some (inner, tag) =>
      match suivant k with
      | None => None
      | Some k => Some (k, header ++ inner ++ tag)
      end
  end.
(** The padding is the zeros at the end; the last other octet is the type. *)
Fixpoint sans_zeros (l : list Z) : list Z :=
  match l with x :: l' => if x =? 0 then sans_zeros l' else l | [] => [] end.
Definition depaquete (buf : list Z) : option (Z * list Z) :=
  match sans_zeros (rev buf) with x :: l => Some (x, rev l) | [] => None end.
(** The keys after the call, and the result. *)
Definition decrypt (k : DirKeys) (header body : list Z) : option (DirKeys * option (Z * list Z)) :=
  if (length body <? 16)%nat then Some (k, None)
  else
    let split := (length body - 16)%nat in
    match open k header (take split body) (drop split body) with
    | None => None
    | Some (inr _) => Some (k, None)
    | Some (inl buf) =>
        match suivant k with
        | None => None
        | Some k => Some (k, depaquete buf)
        end
    end.

(** [read_raw_record] of handshake.rs on the octets of the connection, what [TcpConn::fill] obtains
    before it gives up: a header of five octets, the body it announces, and the rest. *)
Definition read_raw_record (rx : list Z) : option (list Z * list Z * list Z) :=
  if (length rx <? 5)%nat then None
  else
    let hdr := take 5 rx in
    let len := Z.to_nat (Z.lor (Z.shiftl (nth 3 hdr 0) 8) (nth 4 hdr 0)) in
    if (length rx <? 5 + len)%nat then None
    else Some (hdr, slice rx 5 len, drop (5 + len) rx).

Record KeySchedule := mk_schedule { ks_suite : CipherSuite; handshake_secret : list Z; client_hs : list Z; server_hs : list Z }.
Definition derive_handshake (s : CipherSuite) (shared transcript_ch_sh : list Z) : KeySchedule :=
  let alg := hash_alg s in
  let early := hkdf_extract alg (zeros alg) (zeros alg) in
  let derived := derive_secret alg early l_derived (empty_hash alg) in
  let handshake_secret := hkdf_extract alg derived shared in
  mk_schedule s handshake_secret (derive_secret alg handshake_secret l_c_hs transcript_ch_sh)
    (derive_secret alg handshake_secret l_s_hs transcript_ch_sh).
Definition derive_application (ks : KeySchedule) (transcript_through_sf : list Z) : list Z * list Z :=
  let alg := hash_alg (ks_suite ks) in
  let derived := derive_secret alg (handshake_secret ks) l_derived (empty_hash alg) in
  let master := hkdf_extract alg derived (zeros alg) in
  (derive_secret alg master l_c_ap transcript_through_sf, derive_secret alg master l_s_ap transcript_through_sf).
Definition finished_key (s : CipherSuite) (traffic_secret : list Z) : list Z :=
  hkdf_expand_label (hash_alg s) traffic_secret l_finished [] (hash_len s).
Definition finished_verify (s : CipherSuite) (traffic_secret transcript_hash : list Z) : list Z :=
  hmac (hash_alg s) (finished_key s traffic_secret) transcript_hash.
End Enregistrement.

Module EnregistrementProofs.
Import Enregistrement.
Open Scope Z_scope.

(** Keys as [new] makes them. *)
Definition cles_ok (k : DirKeys) : Prop := length (key k) = key_len (suite k) /\ length (iv k) = 12%nat.
Lemma new_cles_ok s secret : cles_ok (new s secret).
Proof. split; apply HachageProofs.length_hkdf_expand_label. Qed.
Lemma suivant_cles k k' : suivant k = Some k' -> cles_ok k -> cles_ok k'.
Proof. unfold suivant. destruct (_ <=? _); [done|]. by intros [= <-]. Qed.

Lemma seal_open k header buf : cles_ok k -> Forall octet header -> Forall octet buf ->
  exists c tag, seal k header buf = Some (c, tag) /\ length c = length buf /\ length tag = 16%nat /\
    open k header c tag = Some (inl buf).
Proof.
  intros [Hk _] Hh Hb. unfold seal, open. destruct (suite k); cbn [key_len] in Hk.
  - destruct (GcmProofs.gcm_exact (key k) (nonce k) header buf ltac:(lia)) as (tag & (c & E & Hl & Ho) & _ & Ht).
    exists c, (tag c). by split_and!.
  - destruct (GcmProofs.gcm_exact (key k) (nonce k) header buf ltac:(lia)) as (tag & (c & E & Hl & Ho) & _ & Ht).
    exists c, (tag c). by split_and!.
  - destruct (ChachaProofs.chacha_exact (key k) (nonce k) header buf ltac:(lia) Hh Hb) as [(c & E & Hl & _ & Ho) _].
    exists c, (ChachaProofs.etiquette (key k) (nonce k) header c).
    split; [exact E|]. split; [exact Hl|]. split; [apply length_to_le|exact Ho].
Qed.
Lemma depaquete_ok data t : t <> 0 -> depaquete (data ++ [t]) = Some (t, data).
Proof.
  intros Ht. unfold depaquete. rewrite rev_app_distr. cbn [rev app sans_zeros].
  destruct (Z.eqb_spec t 0); [done|]. by rewrite rev_involutive.
Qed.
Lemma longueur_lue total : 0 <= total < 65536 ->
  Z.lor (Z.shiftl (Z.shiftr total 8 mod 256) 8) (total mod 256) = total.
Proof.
  intros H. rewrite Z.shiftr_div_pow2, Z.shiftl_mul_pow2 by lia. change (2 ^ 8) with 256.
  rewrite (Z.mod_small (total / 256)) by (Z.to_euclidean_division_equations; lia).
  pose proof (Z.mod_pos_bound total 256 ltac:(lia)). change 256 with (2 ^ 8) at 1 2.
  rewrite lor_disjoint by (change (2 ^ 8) with 256; lia). change (2 ^ 8) with 256.
  rewrite Z.mul_comm. symmetry. apply Z.div_mod. lia.
Qed.

(** The header of a record, and the form of a record: header and body, which opens under it. *)
Definition entete (total : Z) : list Z := [CT_APPLICATION_DATA; 3; 3; Z.shiftr total 8 mod 256; total mod 256].
Lemma encrypt_forme k t data : cles_ok k -> Forall octet data -> 1 <= t < 256 -> seq k + 1 < u64_max ->
  let total := Z.of_nat (length data) + 17 in
  exists k' corps, encrypt k t data = Some (k', entete total ++ corps) /\ suivant k = Some k' /\
    length corps = Z.to_nat total /\ decrypt k (entete total) corps = Some (k', Some (t, data)).
Proof.
  intros Hk Hd Ht Hs total. unfold encrypt. cbv zeta.
  replace (Z.of_nat (length (data ++ [t]) + 16)) with total by (unfold total; rewrite length_app; cbn [length]; lia).
  fold (entete total). assert (Forall octet (entete total)) as Hh.
  { unfold entete, CT_APPLICATION_DATA. repeat constructor; try lia; apply Z.mod_pos_bound; lia. }
  assert (Forall octet (data ++ [t])) as Hi by (apply Forall_app; split; [done|repeat constructor; lia]).
  destruct (seal_open k (entete total) (data ++ [t]) Hk Hh Hi) as (c & tag & -> & Hlc & Hlt & Ho).
  assert (exists k', suivant k = Some k') as [k' Ek].
  { unfold suivant. destruct (Z.leb_spec u64_max (seq k + 1)); [lia|]. eauto. }
  rewrite Ek. exists k', (c ++ tag). split; [reflexivity|]. split; [reflexivity|]. split.
  { rewrite length_app, Hlc, Hlt, length_app. unfold total. cbn [length]. lia. }
  unfold decrypt. rewrite length_app. destruct (Nat.ltb_spec (length c + length tag) 16); [lia|]. cbv zeta.
  replace (length c + length tag - 16)%nat with (length c) by lia.
  rewrite take_app_length, drop_app_length, Ho, Ek, depaquete_ok by lia. reflexivity.
Qed.

(** The reader cuts a body of the length the header announces. *)
Lemma read_entete total n corps suite_flux :
  Z.lor (Z.shiftl (Z.shiftr total 8 mod 256) 8) (total mod 256) = n -> length corps = Z.to_nat n ->
  read_raw_record (entete total ++ corps ++ suite_flux) = Some (entete total, corps, suite_flux).
Proof.
  intros En Hl. unfold read_raw_record. change (take 5 (entete total ++ corps ++ suite_flux)) with (entete total).
  change (nth 3 (entete total) 0) with (Z.shiftr total 8 mod 256). change (nth 4 (entete total) 0) with (total mod 256).
  rewrite En, !length_app. change (length (entete total)) with 5%nat. rewrite !(proj2 (Nat.ltb_ge _ _)) by lia.
  change (drop (5 + Z.to_nat n) (entete total ++ corps ++ suite_flux)) with (drop (Z.to_nat n) (corps ++ suite_flux)).
  change (slice (entete total ++ corps ++ suite_flux) 5 (Z.to_nat n)) with (take (Z.to_nat n) (corps ++ suite_flux)).
  by rewrite take_app_length', drop_app_length' by lia.
Qed.

(** A record is cut out of the stream by the length of its header, then opened. *)
Lemma record_lu k t data suite_flux : cles_ok k -> Forall octet data -> 1 <= t < 256 ->
  Z.of_nat (length data) < 65519 -> seq k + 1 < u64_max ->
  exists k' r hdr body, encrypt k t data = Some (k', r) /\ suivant k = Some k' /\
    read_raw_record (r ++ suite_flux) = Some (hdr, body, suite_flux) /\
    decrypt k hdr body = Some (k', Some (t, data)).
Proof.
  intros Hk Hd Ht Hlen Hs. destruct (encrypt_forme k t data Hk Hd Ht Hs) as (k' & corps & E & Ek & Hl & Hdec).
  do 4 eexists. split; [exact E|]. split; [exact Ek|]. rewrite <- app_assoc.
  split; [|exact Hdec]. eapply read_entete; [apply longueur_lue; lia|exact Hl].
Qed.

(** Several records sent one after the other on a connection, and [n] records read from it. *)
Fixpoint chiffre_tout (k : DirKeys) (l : list (Z * list Z)) : option (DirKeys * list Z) :=
  match l with
  | [] => Some (k, [])
  | (t, data) :: l =>
      match encrypt k t data with
      | Some (k, r) => match chiffre_tout k l with Some (k, rx) => Some (k, r ++ rx) | None => None end
      | None => None
      end
  end.
Fixpoint dechiffre_tout (n : nat) (k : DirKeys) (rx : list Z) : option (DirKeys * list (Z * list Z) * list Z) :=
  match n with
  | O => Some (k, [], rx)
  | S n =>
      match read_raw_record rx with
      | None => None
      | Some (hdr, body, rx) =>
          match decrypt k hdr body with
          | Some (k, Some m) =>
              match dechiffre_tout n k rx with Some (k, l, rx) => Some (k, m :: l, rx) | None => None end
          | _ => None
          end
      end
  end.
Definition message_ok (m : Z * list Z) : Prop :=
  1 <= m.1 < 256 /\ Forall octet m.2 /\ Z.of_nat (length m.2) < 65519.

(** C40. A sequence of records is read back from the octets of the connection, each cut by the
    length field of its header, and what follows them is left to be read: two ends with the same
    keys stay in step, whatever the suite, and no nonce is used twice. The data of a record is
    bounded by what the two octets of the length can say, [longueur_tronquee] otherwise. *)
Theorem records_relus k l suite_flux :
  cles_ok k -> Forall octet (iv k) -> 0 <= seq k -> Forall message_ok l -> seq k + Z.of_nat (length l) < u64_max ->
  (exists k' rx, chiffre_tout k l = Some (k', rx) /\
     dechiffre_tout (length l) k (rx ++ suite_flux) = Some (k', l, suite_flux) /\
     seq k' = seq k + Z.of_nat (length l)) /\
  (forall i j, 0 <= i < u64_max -> 0 <= j < u64_max ->
     nonce (mk_keys (suite k) (key k) (iv k) i) = nonce (mk_keys (suite k) (key k) (iv k) j) -> i = j).
Proof.
  intros Hk Hiv H0 Hl Hs. split.
  - revert k Hk Hiv H0 Hs. induction Hl as [|[t data] l (Ht & Hd & Hn) Hl IH]; intros k Hk Hiv H0 Hs;
      cbn [chiffre_tout dechiffre_tout length] in *.
    { exists k, []. split_and!; [done|done|lia]. }
    destruct (encrypt k t data) as [[k1 r]|] eqn:Ee.
    2:{ destruct (record_lu k t data [] Hk Hd Ht Hn ltac:(lia)) as (? & ? & ? & ? & ? & _). congruence. }
    assert (suivant k = Some k1) as Ek.
    { destruct (record_lu k t data [] Hk Hd Ht Hn ltac:(lia)) as (? & ? & ? & ? & ? & ? & _). congruence. }
    pose proof (suivant_cles _ _ Ek Hk) as Hk1.
    unfold suivant in Ek. destruct (u64_max <=? seq k + 1) eqn:Eu; [done|]. injection Ek as <-.
    destruct (IH _ Hk1 Hiv) as (k2 & rx & -> & E2 & Es); [cbn; lia|cbn; lia|].
    exists k2, (r ++ rx). split_and!; [done| |cbn in Es; lia]. rewrite <- app_assoc.
    destruct (record_lu k t data (rx ++ suite_flux) Hk Hd Ht Hn ltac:(lia))
      as (k1' & r' & hdr & body & Ee' & _ & Er & Ed). assert (r' = r) as -> by congruence.
    rewrite Er, Ed. replace k1' with (mk_keys (suite k) (key k) (iv k) (seq k + 1)) by congruence.
    by rewrite E2.
  - destruct Hk as [_ Hlen]. intros i j Hi Hj E. unfold nonce in E. cbn [iv seq] in E. apply app_inv_head in E.
    assert (length (drop 4 (iv k)) = 8%nat) as Hd by (rewrite length_drop; lia).
    set (m := drop 4 (iv k)) in *. clearbody m.
    assert (forall x, length (Gcm.be8 x) = 8%nat) as Hb by (intros x; unfold Gcm.be8; by rewrite length_rev, length_to_le).
    assert (forall x, zip_with Z.lxor m (zip_with Z.lxor m (Gcm.be8 x)) = Gcm.be8 x) as Hx.
    { intros x. apply Flux.xor_gauche. by rewrite Hb. }
    assert (Gcm.be8 i = Gcm.be8 j) as Eb by (by rewrite <- (Hx i), <- (Hx j), E).
    unfold Gcm.be8 in Eb. apply (f_equal (@rev Z)) in Eb. rewrite !rev_involutive in Eb.
    apply (f_equal from_le) in Eb. unfold u64_max in *. rewrite !from_to_le_small in Eb by (change (256 ^ Z.of_nat 8) with (2 ^ 64); lia). done.
Qed.
Lemma records_relus_witness :
  let k := new TlsAes128GcmSha256 [1; 2; 3] in
  (exists k' rx, chiffre_tout k [(23, [104; 105]); (21, [1; 0])] = Some (k', rx) /\
     dechiffre_tout 2 k (rx ++ [22; 3]) = Some (k', [(23, [104; 105]); (21, [1; 0])], [22; 3]) /\
     seq k' = seq k + 2) /\
  (forall i j, 0 <= i < u64_max -> 0 <= j < u64_max ->
     nonce (mk_keys (suite k) (key k) (iv k) i) = nonce (mk_keys (suite k) (key k) (iv k) j) -> i = j).
Proof.
  apply (records_relus (new TlsAes128GcmSha256 [1; 2; 3]) [(23, [104; 105]); (21, [1; 0])] [22; 3]).
  - apply new_cles_ok.
  - apply HachageProofs.hkdf_octets.
  - reflexivity || (cbn; lia).
  - repeat constructor; cbn; lia.
  - change (0 + 2 < u64_max). reflexivity.
Defined.

(** Data of 65519 octets and more does not fit the length of the header, which wraps: the peer
    cuts the record short, by a multiple of 65536. *)
Theorem longueur_tronquee k t data : cles_ok k -> Forall octet data -> 1 <= t < 256 ->
  65519 <= Z.of_nat (length data) < 131055 -> seq k + 1 < u64_max ->
  exists k' r hdr body reste, encrypt k t data = Some (k', r) /\
    read_raw_record r = Some (hdr, body, reste) /\
    Z.of_nat (length body) = Z.of_nat (length data) + 17 - 65536 /\
    Z.of_nat (length reste) = 65536.
Proof.
  intros Hk Hd Ht Hlen Hs. destruct (encrypt_forme k t data Hk Hd Ht Hs) as (k' & corps & E & _ & Hl & _).
  set (total := Z.of_nat (length data) + 17) in *. set (n := Z.to_nat (total - 65536)).
  exists k', (entete total ++ corps), (entete total), (take n corps), (drop n corps). split; [exact E|]. split.
  - rewrite <- (take_drop n corps) at 1. apply (read_entete total (total - 65536)); [|rewrite length_take; lia].
    rewrite <- (longueur_lue (total - 65536)) by lia. replace (total - 65536) with (total + (-256) * 256) by lia.
    f_equal; [f_equal|by rewrite Z.mod_add by lia]. rewrite !Z.shiftr_div_pow2 by lia. change (2 ^ 8) with 256.
    rewrite Z.div_add by lia. replace (total / 256 + -256) with (total / 256 + (-1) * 256) by lia.
    by rewrite Z.mod_add by lia.
  - rewrite length_take, length_drop. lia.
Qed.
End EnregistrementProofs.
