(* ===== verification/Courbes.v ===== *)
(** Elliptic curves of the TLS client: [src/net/security/tls/ec.rs] (the curves
    y^2 = x^3 - 3x + b in Jacobian coordinates, ECDSA and ECDH), [p256.rs] and [p384.rs].
    [None] is a stop of the kernel. *)

From S2P Require Import Prelude GrandsEntiers Hachage.
From Stdlib Require Import Zdiv.

Module Ec.
Import BigUint.
Open Scope Z_scope.

Record Curve := mk_curve { p : BigUint; n : BigUint; gx : BigUint; gy : BigUint; b : BigUint; coord_len : nat }.
Record Point := mk_point { x : BigUint; y : BigUint; z : BigUint }.
Definition petit (k : Z) : BigUint := from_bytes_be [k].
Definition infinity : Point := mk_point (petit 1) (petit 1) zero.
Definition is_infinity (pt : Point) : bool := is_zero (z pt).
Definition affine (x y : BigUint) : Point := mk_point x y (petit 1).
Definition new (p n gx gy b : list Z) (coord_len : nat) : Curve :=
  mk_curve (from_bytes_be p) (from_bytes_be n) (from_bytes_be gx) (from_bytes_be gy) (from_bytes_be b) coord_len.

Section Courbe.
Context (c : Curve).

Definition f_add (a b : BigUint) : BigUint :=
  let s := add a b in match cmp s (p c) with Lt => s | _ => sub s (p c) end.
Definition f_sub (a b : BigUint) : BigUint :=
  match cmp a b with Lt => sub (add a (p c)) b | _ => sub a b end.
Definition f_mul (a b : BigUint) : option BigUint := mul_rem a b (p c).
Definition f_sqr (a : BigUint) : option BigUint := f_mul a a.
Definition f_inv (a : BigUint) : option BigUint := modpow a (sub (p c) (petit 2)) (p c).

Definition point_double (pt : Point) : option Point :=
  if is_infinity pt || is_zero (y pt) then Some infinity
  else
    z2 ← f_sqr (z pt);
    prod ← f_mul (f_sub (x pt) z2) (f_add (x pt) z2);
    m ← f_mul (petit 3) prod;
    y2 ← f_sqr (y pt);
    xy2 ← f_mul (x pt) y2;
    s ← f_mul (petit 4) xy2;
    m2 ← f_sqr m;
    let x3 := f_sub m2 (f_add s s) in
    t ← f_mul m (f_sub s x3);
    y4 ← f_sqr y2;
    ey4 ← f_mul (petit 8) y4;
    yz ← f_mul (y pt) (z pt);
    Some (mk_point x3 (f_sub t ey4) (f_add yz yz)).

Definition point_add (p1 p2 : Point) : option Point :=
  if is_infinity p1 then Some p2
  else if is_infinity p2 then Some p1
  else
    z1z1 ← f_sqr (z p1);
    z2z2 ← f_sqr (z p2);
    u1 ← f_mul (x p1) z2z2;
    u2 ← f_mul (x p2) z1z1;
    z2c ← f_mul z2z2 (z p2);
    s1 ← f_mul (y p1) z2c;
    z1c ← f_mul z1z1 (z p1);
    s2 ← f_mul (y p2) z1c;
    match cmp u1 u2 with
    | Eq => match cmp s1 s2 with Eq => point_double p1 | _ => Some infinity end
    | _ =>
        let h := f_sub u2 u1 in
        let r := f_sub s2 s1 in
        h2 ← f_sqr h;
        h3 ← f_mul h2 h;
        u1h2 ← f_mul u1 h2;
        r2 ← f_sqr r;
        let x3 := f_sub (f_sub r2 h3) (f_add u1h2 u1h2) in
        rt ← f_mul r (f_sub u1h2 x3);
        s1h3 ← f_mul s1 h3;
        hz ← f_mul h (z p1);
        z3 ← f_mul hz (z p2);
        Some (mk_point x3 (f_sub rt s1h3) z3)
    end.

(** From bit [n - 1]. *)
Fixpoint scalar_depuis (n : nat) (k : BigUint) (pt r : Point) : option Point :=
  match n with
  | O => Some r
  | S i =>
      r ← point_double r;
      r ← (if get_bit k i =? 1 then point_add r pt else Some r);
      scalar_depuis i k pt r
  end.
Definition scalar_mul (k : BigUint) (pt : Point) : option Point := scalar_depuis (bit_len k) k pt infinity.

(** The inner [option] is that of the code. *)
Definition to_affine_x (pt : Point) : option (option BigUint) :=
  if is_infinity pt then Some None
  else
    zinv ← f_inv (z pt);
    zinv2 ← f_sqr zinv;
    r ← f_mul (x pt) zinv2;
    Some (Some r).
Definition generator : Point := affine (gx c) (gy c).
Definition decode_pubkey (data : list Z) : option Point :=
  let total := (1 + 2 * coord_len c)%nat in
  if negb (length data =? total)%nat || negb (aget data 0 =? 4) then None
  else Some (affine (from_bytes_be (slice data 1 (coord_len c)))
                    (from_bytes_be (slice data (1 + coord_len c) (total - (1 + coord_len c))))).
Definition inv_mod_n (a : BigUint) : option BigUint := modpow a (sub (n c) (petit 2)) (n c).
Definition encode_coord (v : BigUint) : option (list Z) :=
  let bytes := to_bytes_be v in
  if (coord_len c <? length bytes)%nat then None
  else Some (replicate (coord_len c - length bytes) 0 ++ bytes).

Definition verify_ecdsa (pubkey digest r s : list Z) : option bool :=
  match decode_pubkey pubkey with
  | None => Some false
  | Some q =>
      let r_i := from_bytes_be r in
      let s_i := from_bytes_be s in
      if is_zero r_i || is_zero s_i then Some false
      else match cmp r_i (n c), cmp s_i (n c) with
      | Lt, Lt =>
          let e := rem (from_bytes_be digest) (n c) in
          w ← inv_mod_n s_i;
          u1 ← mul_rem e w (n c);
          u2 ← mul_rem r_i w (n c);
          p1 ← scalar_mul u1 generator;
          p2 ← scalar_mul u2 q;
          sum ← point_add p1 p2;
          xa ← to_affine_x sum;
          match xa with
          | None => Some false
          | Some xa => Some (match cmp (rem xa (n c)) r_i with Eq => true | _ => false end)
          end
      | _, _ => Some false
      end
  end.
Definition ecdh (private peer_pubkey : list Z) : option (option (list Z)) :=
  match decode_pubkey peer_pubkey with
  | None => Some None
  | Some q =>
      shared ← scalar_mul (from_bytes_be private) q;
      xa ← to_affine_x shared;
      Some (xa ≫= encode_coord)
  end.
Definition coord_ou_zeros (v : BigUint) : list Z := default (replicate (coord_len c) 0) (encode_coord v).
Definition derive_pubkey (private : list Z) : option (list Z) :=
  pt ← scalar_mul (from_bytes_be private) generator;
  zinv ← f_inv (z pt);
  zinv2 ← f_sqr zinv;
  zinv3 ← f_mul zinv2 zinv;
  xa ← f_mul (x pt) zinv2;
  ya ← f_mul (y pt) zinv3;
  Some (4 :: coord_ou_zeros xa ++ coord_ou_zeros ya).
Definition generator_on_curve : option bool :=
  y2 ← f_sqr (gy c);
  x2 ← f_sqr (gx c);
  x3 ← f_mul x2 (gx c);
  three_x ← f_mul (petit 3) (gx c);
  Some (match cmp y2 (f_add (f_sub x3 three_x) (b c)) with Eq => true | _ => false end).
End Courbe.

(** ** P-256 and P-384 *)

Definition p_256 : list Z :=
  [0xff; 0xff; 0xff; 0xff; 0x00; 0x00; 0x00; 0x01; 0x00; 0x00; 0x00; 0x00; 0x00; 0x00; 0x00; 0x00;
   0x00; 0x00; 0x00; 0x00; 0xff; 0xff; 0xff; 0xff; 0xff; 0xff; 0xff; 0xff; 0xff; 0xff; 0xff; 0xff].
Definition n_256 : list Z :=
  [0xff; 0xff; 0xff; 0xff; 0x00; 0x00; 0x00; 0x00; 0xff; 0xff; 0xff; 0xff; 0xff; 0xff; 0xff; 0xff;
   0xbc; 0xe6; 0xfa; 0xad; 0xa7; 0x17; 0x9e; 0x84; 0xf3; 0xb9; 0xca; 0xc2; 0xfc; 0x63; 0x25; 0x51].
Definition gx_256 : list Z :=
  [0x6b; 0x17; 0xd1; 0xf2; 0xe1; 0x2c; 0x42; 0x47; 0xf8; 0xbc; 0xe6; 0xe5; 0x63; 0xa4; 0x40; 0xf2;
   0x77; 0x03; 0x7d; 0x81; 0x2d; 0xeb; 0x33; 0xa0; 0xf4; 0xa1; 0x39; 0x45; 0xd8; 0x98; 0xc2; 0x96].
Definition gy_256 : list Z :=
  [0x4f; 0xe3; 0x42; 0xe2; 0xfe; 0x1a; 0x7f; 0x9b; 0x8e; 0xe7; 0xeb; 0x4a; 0x7c; 0x0f; 0x9e; 0x16;
   0x2b; 0xce; 0x33; 0x57; 0x6b; 0x31; 0x5e; 0xce; 0xcb; 0xb6; 0x40; 0x68; 0x37; 0xbf; 0x51; 0xf5].
Definition b_256 : list Z :=
  [0x5a; 0xc6; 0x35; 0xd8; 0xaa; 0x3a; 0x93; 0xe7; 0xb3; 0xeb; 0xbd; 0x55; 0x76; 0x98; 0x86; 0xbc;
   0x65; 0x1d; 0x06; 0xb0; 0xcc; 0x53; 0xb0; 0xf6; 0x3b; 0xce; 0x3c; 0x3e; 0x27; 0xd2; 0x60; 0x4b].
Definition p256 : Curve := new p_256 n_256 gx_256 gy_256 b_256 32.
Definition verify_ecdsa_sha256 (pubkey msg r s : list Z) : option bool :=
  verify_ecdsa p256 pubkey (Hachage.sha256 msg) r s.
Definition p256_ecdh (private peer_pubkey : list Z) : option (option (list Z)) :=
  r ← ecdh p256 private peer_pubkey;
  Some (shared ← r; if negb (length shared =? 32)%nat then None else Some shared).
Definition p256_derive_pubkey (private : list Z) : option (list Z) := derive_pubkey p256 private.

Definition p_384 : list Z :=
  [0xff; 0xff; 0xff; 0xff; 0xff; 0xff; 0xff; 0xff; 0xff; 0xff; 0xff; 0xff; 0xff; 0xff; 0xff; 0xff;
   0xff; 0xff; 0xff; 0xff; 0xff; 0xff; 0xff; 0xff; 0xff; 0xff; 0xff; 0xff; 0xff; 0xff; 0xff; 0xfe;
   0xff; 0xff; 0xff; 0xff; 0x00; 0x00; 0x00; 0x00; 0x00; 0x00; 0x00; 0x00; 0xff; 0xff; 0xff; 0xff].
Definition n_384 : list Z :=
  [0xff; 0xff; 0xff; 0xff; 0xff; 0xff; 0xff; 0xff; 0xff; 0xff; 0xff; 0xff; 0xff; 0xff; 0xff; 0xff;
   0xff; 0xff; 0xff; 0xff; 0xff; 0xff; 0xff; 0xff; 0xc7; 0x63; 0x4d; 0x81; 0xf4; 0x37; 0x2d; 0xdf;
   0x58; 0x1a; 0x0d; 0xb2; 0x48; 0xb0; 0xa7; 0x7a; 0xec; 0xec; 0x19; 0x6a; 0xcc; 0xc5; 0x29; 0x73].
Definition gx_384 : list Z :=
  [0xaa; 0x87; 0xca; 0x22; 0xbe; 0x8b; 0x05; 0x37; 0x8e; 0xb1; 0xc7; 0x1e; 0xf3; 0x20; 0xad; 0x74;
   0x6e; 0x1d; 0x3b; 0x62; 0x8b; 0xa7; 0x9b; 0x98; 0x59; 0xf7; 0x41; 0xe0; 0x82; 0x54; 0x2a; 0x38;
   0x55; 0x02; 0xf2; 0x5d; 0xbf; 0x55; 0x29; 0x6c; 0x3a; 0x54; 0x5e; 0x38; 0x72; 0x76; 0x0a; 0xb7].
Definition gy_384 : list Z :=
  [0x36; 0x17; 0xde; 0x4a; 0x96; 0x26; 0x2c; 0x6f; 0x5d; 0x9e; 0x98; 0xbf; 0x92; 0x92; 0xdc; 0x29;
   0xf8; 0xf4; 0x1d; 0xbd; 0x28; 0x9a; 0x14; 0x7c; 0xe9; 0xda; 0x31; 0x13; 0xb5; 0xf0; 0xb8; 0xc0;
   0x0a; 0x60; 0xb1; 0xce; 0x1d; 0x7e; 0x81; 0x9d; 0x7a; 0x43; 0x1d; 0x7c; 0x90; 0xea; 0x0e; 0x5f].
Definition b_384 : list Z :=
  [0xb3; 0x31; 0x2f; 0xa7; 0xe2; 0x3e; 0xe7; 0xe4; 0x98; 0x8e; 0x05; 0x6b; 0xe3; 0xf8; 0x2d; 0x19;
   0x18; 0x1d; 0x9c; 0x6e; 0xfe; 0x81; 0x41; 0x12; 0x03; 0x14; 0x08; 0x8f; 0x50; 0x13; 0x87; 0x5a;
   0xc6; 0x56; 0x39; 0x8d; 0x8a; 0x2e; 0xd1; 0x9d; 0x2a; 0x85; 0xc8; 0xed; 0xd3; 0xec; 0x2a; 0xef].
Definition p384 : Curve := new p_384 n_384 gx_384 gy_384 b_384 48.
Definition verify_ecdsa_sha384 (pubkey msg r s : list Z) : option bool :=
  verify_ecdsa p384 pubkey (Hachage.Sha512.sha384 msg) r s.
End Ec.

Module EcProofs.
Import BigUint BigUintProofs Ec.
Open Scope Z_scope.

(** ** A computation that answers *)

Definition defini {A} (o : option A) (P : A -> Prop) : Prop := exists r, o = Some r /\ P r.
Lemma defini_lie {A B} (o : option A) (k : A -> option B) P Q :
  defini o P -> (forall r, P r -> defini (k r) Q) -> defini (o ≫= k) Q.
Proof. intros (r & -> & H) Hk. by apply Hk. Qed.
Lemma defini_rend {A} (r : A) (P : A -> Prop) : P r -> defini (Some r) P.
Proof. intros H. by exists r. Qed.
Lemma defini_mono {A} (o : option A) (P Q : A -> Prop) : defini o P -> (forall r, P r -> Q r) -> defini o Q.
Proof. intros (r & -> & H) HQ. exists r. auto. Qed.

Lemma petit_nombre k : octet k -> nombre (petit k) /\ v (petit k) = k.
Proof.
  intros H. destruct (from_bytes_be_spec [k]) as [H1 H2]; [by constructor|]. split; [done|].
  unfold petit. rewrite H2. unfold from_be. cbn. lia.
Qed.
Lemma sub_nombre a b : nombre (sub a b).
Proof. apply normalize_nombre, retranche_limbes. Qed.

Section Corps.
Context (c : Curve).
(** A curve with a field and an order. *)
Definition courbe_ok : Prop := nombre (p c) /\ nombre (n c) /\ 2 < v (p c) /\ 2 < v (n c) /\ nombre (gx c) /\ nombre (gy c).
Context (Hc : courbe_ok).
Abbreviation P := (v (p c)).

(** An element of the field, reduced. *)
Definition elt (a : BigUint) : Prop := nombre a /\ v a < P.
Lemma elt_pos a : nombre a -> 0 <= v a.
Proof. intros [H _]. apply (val_borne _ H). Qed.

Lemma f_add_nombre a b : nombre a -> nombre b -> nombre (f_add c a b).
Proof.
  intros Ha Hb. unfold f_add. cbv zeta. destruct (add_spec a b Ha Hb) as [H _].
  destruct (cmp _ _); [apply sub_nombre|done|apply sub_nombre].
Qed.
Lemma f_sub_nombre a b : nombre (f_sub c a b).
Proof. unfold f_sub. destruct (cmp a b); apply sub_nombre. Qed.
Lemma f_mul_spec a b : nombre a -> nombre b -> defini (f_mul c a b) (fun r => elt r /\ v r = (v a * v b) mod P).
Proof.
  intros Ha Hb. destruct Hc as (Hp & _ & Hp2 & _). destruct (mul_rem_spec a b (p c) Ha Hb Hp ltac:(lia)) as (r & E & Hr & Ev).
  exists r. split; [exact E|]. split; [|done]. split; [done|]. rewrite Ev. apply Z.mod_pos_bound. lia.
Qed.
Lemma f_inv_spec a : nombre a -> defini (f_inv c a) (fun r => elt r /\ v r = v a ^ (P - 2) mod P).
Proof.
  intros Ha. destruct Hc as (Hp & _ & Hp2 & _). destruct (petit_nombre 2 ltac:(unfold octet; lia)) as [H2 E2].
  destruct (sub_assign_spec (p c) (petit 2) Hp H2 ltac:(lia)) as [He Ee].
  destruct (modpow_spec a (sub (p c) (petit 2)) (p c) Ha He Hp ltac:(lia)) as (r & E & Hr & Ev).
  change (sub (p c) (petit 2)) with (sub_assign (p c) (petit 2)) in Ev. rewrite Ee, E2 in Ev.
  exists r. split; [exact E|]. split; [|done]. split; [done|]. rewrite Ev. apply Z.mod_pos_bound. lia.
Qed.
Lemma f_add_spec a b : elt a -> elt b -> elt (f_add c a b) /\ v (f_add c a b) = (v a + v b) mod P.
Proof.
  intros [Ha La] [Hb Lb]. pose proof Hc as (Hp & _ & Hp2 & _). destruct (add_spec a b Ha Hb) as [H E].
  pose proof (elt_pos a Ha). pose proof (elt_pos b Hb). unfold f_add. cbv zeta. rewrite cmp_spec, E by done.
  assert (P <= v a + v b -> elt (sub (add a b) (p c)) /\ v (sub (add a b) (p c)) = (v a + v b) mod P) as Hge.
  { intros Hle. destruct (sub_assign_spec (add a b) (p c) H Hp ltac:(lia)) as [Hn Es].
    assert (v (sub (add a b) (p c)) = (v a + v b) mod P) as Ev.
    { change (sub (add a b) (p c)) with (sub_assign (add a b) (p c)). rewrite Es, E.
      replace (v a + v b) with (v a + v b - P + 1 * P) at 2 by lia. rewrite Z.mod_add, Z.mod_small by lia. done. }
    split; [|done]. split; [done|]. rewrite Ev. apply Z.mod_pos_bound. lia. }
  destruct (Z.compare_spec (v a + v b) P); [apply Hge; lia| |apply Hge; lia].
  split; [split; [done|lia]|]. by rewrite E, Z.mod_small by lia.
Qed.
Lemma f_sub_spec a b : elt a -> elt b -> elt (f_sub c a b) /\ v (f_sub c a b) = (v a - v b) mod P.
Proof.
  intros [Ha La] [Hb Lb]. pose proof Hc as (Hp & _ & Hp2 & _). destruct (add_spec a (p c) Ha Hp) as [H E].
  pose proof (elt_pos a Ha). pose proof (elt_pos b Hb). unfold f_sub. rewrite cmp_spec by done.
  assert (v b <= v a -> elt (sub a b) /\ v (sub a b) = (v a - v b) mod P) as Hge.
  { intros Hle. destruct (sub_assign_spec a b Ha Hb Hle) as [Hn Es]. change (sub_assign a b) with (sub a b) in *.
    split; [split; [done|lia]|]. by rewrite Es, Z.mod_small by lia. }
  destruct (Z.compare_spec (v a) (v b)); [apply Hge; lia| |apply Hge; lia].
  destruct (sub_assign_spec (add a (p c)) b H Hb ltac:(lia)) as [Hn Es]. change (sub_assign (add a (p c)) b) with (sub (add a (p c)) b) in *.
  split; [split; [done|lia]|]. rewrite Es, E. replace (v a - v b) with (v a + P - v b + -1 * P) by lia.
  rewrite Z.mod_add, Z.mod_small by lia. done.
Qed.

(** ** No operation stops *)

Definition point_ok (pt : Point) : Prop := nombre (x pt) /\ nombre (y pt) /\ nombre (z pt).
Lemma f_mul_nombre a b : nombre a -> nombre b -> defini (f_mul c a b) nombre.
Proof. intros Ha Hb. eapply defini_mono; [by apply f_mul_spec|]. intros r [[? _] _]. done. Qed.
Lemma petit_ok k : octet k -> nombre (petit k).
Proof. intros H. by apply petit_nombre. Qed.
Lemma infinity_ok : point_ok infinity.
Proof. split_and!; [apply petit_ok; unfold octet; lia|apply petit_ok; unfold octet; lia|apply nombre_zero]. Qed.
Create HintDb ec discriminated.
#[local] Hint Resolve f_add_nombre f_sub_nombre petit_ok infinity_ok : ec.
(** One multiplication after another. *)
Ltac produit := repeat (apply (defini_lie _ _ nombre); [apply f_mul_nombre; eauto with ec|intros ? ?]).

Lemma octet_petit k : 0 <= k < 256 -> octet k.
Proof. done. Qed.
Lemma point_double_ok pt : point_ok pt -> defini (point_double c pt) point_ok.
Proof.
  intros (Hx & Hy & Hz). unfold point_double. destruct (_ || _); [apply defini_rend; eauto with ec|].
  pose proof (petit_ok 3 ltac:(unfold octet; lia)). pose proof (petit_ok 4 ltac:(unfold octet; lia)).
  pose proof (petit_ok 8 ltac:(unfold octet; lia)). unfold f_sqr. cbv zeta. produit. apply defini_rend. split_and!; cbn; eauto with ec.
Qed.
Lemma point_add_ok p1 p2 : point_ok p1 -> point_ok p2 -> defini (point_add c p1 p2) point_ok.
Proof.
  intros H1 H2. pose proof H1 as (Hx1 & Hy1 & Hz1). pose proof H2 as (Hx2 & Hy2 & Hz2). unfold point_add.
  destruct (is_infinity p1); [by apply defini_rend|]. destruct (is_infinity p2); [by apply defini_rend|].
  unfold f_sqr. produit.
  match goal with |- defini (match cmp ?u ?w with _ => _ end) _ => destruct (cmp u w) end;
    [match goal with |- defini (match cmp ?u ?w with _ => _ end) _ => destruct (cmp u w) end;
       [by apply point_double_ok|apply defini_rend; eauto with ec..]| |];
    cbv zeta; produit; apply defini_rend; split_and!; cbn; eauto with ec.
Qed.
Lemma scalar_mul_ok k pt : point_ok pt -> defini (scalar_mul c k pt) point_ok.
Proof.
  intros Hpt. unfold scalar_mul. generalize (bit_len k). intros m. pose proof infinity_ok as Hr. revert Hr.
  generalize infinity. induction m as [|i IH]; intros r Hr; cbn [scalar_depuis]; [by apply defini_rend|].
  eapply defini_lie; [by apply point_double_ok|]. intros r1 Hr1. eapply (defini_lie _ _ point_ok); [|exact IH].
  destruct (_ =? 1); [by apply point_add_ok|by apply defini_rend].
Qed.
Lemma to_affine_x_ok pt : point_ok pt -> defini (to_affine_x c pt) (fun r => match r with Some r => nombre r | None => True end).
Proof.
  intros (Hx & Hy & Hz). unfold to_affine_x. destruct (is_infinity pt); [by apply defini_rend|].
  eapply (defini_lie _ _ nombre); [eapply defini_mono; [by apply f_inv_spec|]; intros r [[? _] _]; done|]. intros zi Hzi.
  unfold f_sqr. produit. by apply defini_rend.
Qed.
Lemma decode_pubkey_ok data q : Forall octet data -> decode_pubkey c data = Some q -> point_ok q.
Proof.
  intros H. unfold decode_pubkey. destruct (_ || _); [done|]. intros [= <-]. cbn.
  split_and!; [apply from_bytes_be_spec; by apply Forall_slice|apply from_bytes_be_spec; by apply Forall_slice|apply petit_ok; unfold octet; lia].
Qed.
Lemma generator_ok : point_ok (generator c).
Proof. destruct Hc as (_ & _ & _ & _ & Hx & Hy). split_and!; [done|done|apply petit_ok; unfold octet; lia]. Qed.

Lemma verify_ecdsa_repond pubkey digest r s : Forall octet pubkey -> Forall octet digest -> Forall octet r -> Forall octet s ->
  defini (verify_ecdsa c pubkey digest r s) (fun _ => True).
Proof.
  intros Hk Hd Hr Hs. unfold verify_ecdsa. destruct (decode_pubkey c pubkey) as [q|] eqn:Eq; [|by apply defini_rend].
  pose proof (decode_pubkey_ok _ _ Hk Eq) as Hq. cbv zeta. destruct (_ || _); [by apply defini_rend|].
  destruct (from_bytes_be_spec r Hr) as [Hr' _], (from_bytes_be_spec s Hs) as [Hs' _], (from_bytes_be_spec digest Hd) as [Hd' _].
  destruct (cmp (from_bytes_be r) (n c)); [by apply defini_rend| |by apply defini_rend].
  destruct (cmp (from_bytes_be s) (n c)); [by apply defini_rend| |by apply defini_rend].
  pose proof Hc as (_ & Hn & _ & Hn2 & _).
  assert (forall a b, nombre a -> nombre b -> defini (mul_rem a b (n c)) nombre) as Hmul.
  { intros a b Ha Hb. destruct (mul_rem_spec a b (n c) Ha Hb Hn ltac:(lia)) as (u & E & Hu & _). by exists u. }
  eapply (defini_lie _ _ nombre).
  { unfold inv_mod_n. destruct (modpow_spec (from_bytes_be s) (sub (n c) (petit 2)) (n c) Hs' (sub_nombre _ _) Hn ltac:(lia)) as (w & E & Hw & _).
    by exists w. }
  intros w Hw. eapply (defini_lie _ _ nombre); [apply Hmul; [by apply rem_spec; [..|lia]|done]|]. intros u1 Hu1.
  eapply (defini_lie _ _ nombre); [by apply Hmul|]. intros u2 Hu2.
  eapply defini_lie; [by apply scalar_mul_ok, generator_ok|]. intros p1 Hp1.
  eapply defini_lie; [by apply scalar_mul_ok|]. intros p2 Hp2.
  eapply defini_lie; [by apply point_add_ok|]. intros sum Hsum.
  eapply defini_lie; [by apply to_affine_x_ok|]. intros [xa|] Hxa; by apply defini_rend.
Qed.

(** ** The curve equation *)

#[local] Existing Instances eqm_setoid Zplus_eqm Zminus_eqm Zmult_eqm.
Definition equation (x y z : Z) : Z :=
  y * y - x * x * x + 3 * x * (z * z * z * z) - v (b c) * (z * z * z * z * z * z).
(** A point with reduced coordinates that satisfies the equation; infinity does. *)
Definition sur_courbe (pt : Point) : Prop :=
  elt (x pt) /\ elt (y pt) /\ elt (z pt) /\ eqm P (equation (v (x pt)) (v (y pt)) (v (z pt))) 0.

Lemma m_eqm a b : elt a -> elt b -> defini (f_mul c a b) (fun r => elt r /\ eqm P (v r) (v a * v b)).
Proof.
  intros [Ha _] [Hb _]. eapply defini_mono; [by apply f_mul_spec|]. intros r [Hr E]. split; [done|]. unfold eqm.
  by rewrite E, Zmod_mod.
Qed.
Lemma a_eqm a b : elt a -> elt b -> elt (f_add c a b) /\ eqm P (v (f_add c a b)) (v a + v b).
Proof. intros Ha Hb. destruct (f_add_spec a b Ha Hb) as [H E]. split; [done|]. unfold eqm. by rewrite E, Zmod_mod. Qed.
Lemma s_eqm a b : elt a -> elt b -> elt (f_sub c a b) /\ eqm P (v (f_sub c a b)) (v a - v b).
Proof. intros Ha Hb. destruct (f_sub_spec a b Ha Hb) as [H E]. split; [done|]. unfold eqm. by rewrite E, Zmod_mod. Qed.
Lemma petit_elt k : 0 <= k < 256 -> k < P -> elt (petit k) /\ v (petit k) = k.
Proof. intros H1 H2. destruct (petit_nombre k H1) as [H E]. split; [|done]. split; [done|lia]. Qed.
Lemma infinity_sur : sur_courbe infinity.
Proof.
  pose proof Hc as (_ & _ & Hp2 & _). destruct (petit_elt 1 ltac:(lia) ltac:(lia)) as [H1 E1].
  assert (elt zero) as H0 by (split; [apply nombre_zero|cbn; lia]).
  split_and!; [done|done|done|]. unfold equation. cbn [infinity x y z]. rewrite E1. cbn [limbs zero val].
  change (eqm P (1 * 1 - 1 * 1 * 1 + 3 * 1 * 0 - v (b c) * 0) 0). rewrite !Z.mul_0_r. reflexivity.
Qed.
(** The sum of two points: what is left of the equation is a combination of the equations of the two. *)
Lemma addition_equation k a1 b1 c1 a2 b2 c2 :
  let u1 := a1 * (c2 * c2) in let u2 := a2 * (c1 * c1) in
  let s1 := b1 * (c2 * c2 * c2) in let s2 := b2 * (c1 * c1 * c1) in
  let h := u2 - u1 in let r := s2 - s1 in
  let x3 := r * r - h * h * h - (u1 * (h * h) + u1 * (h * h)) in
  let y3 := r * (u1 * (h * h) - x3) - s1 * (h * h * h) in
  let z3 := h * c1 * c2 in
  y3 * y3 - x3 * x3 * x3 + 3 * x3 * (z3 * z3 * z3 * z3) - k * (z3 * z3 * z3 * z3 * z3 * z3) =
  h * h * h *
  (c2 * c2 * c2 * c2 * c2 * c2 * (u2 * (h * h) - x3) * (b1 * b1 - a1 * a1 * a1 + 3 * a1 * (c1 * c1 * c1 * c1) - k * (c1 * c1 * c1 * c1 * c1 * c1)) +
   c1 * c1 * c1 * c1 * c1 * c1 * (x3 - u1 * (h * h)) * (b2 * b2 - a2 * a2 * a2 + 3 * a2 * (c2 * c2 * c2 * c2) - k * (c2 * c2 * c2 * c2 * c2 * c2))).
Proof. cbv zeta. ring. Qed.
(** A product, then its value. *)
Ltac prod_eqm H E := eapply defini_lie; [apply m_eqm; eassumption|]; intros ? [H E].

Lemma point_double_sur pt : 8 < P -> sur_courbe pt -> defini (point_double c pt) sur_courbe.
Proof.
  intros Hp8 (Hx & Hy & Hz & Heq). unfold point_double. destruct (_ || _); [apply defini_rend, infinity_sur|].
  destruct (petit_elt 3 ltac:(lia) ltac:(lia)) as [H3 E3], (petit_elt 4 ltac:(lia) ltac:(lia)) as [H4 E4],
    (petit_elt 8 ltac:(lia) ltac:(lia)) as [H8 E8]. unfold f_sqr. cbv zeta.
  prod_eqm Hz2 Ez2. destruct (s_eqm _ _ Hx Hz2) as [Hd Ed], (a_eqm _ _ Hx Hz2) as [Ha Ea].
  prod_eqm Hpr Epr. prod_eqm Hm Em. prod_eqm Hy2 Ey2. prod_eqm Hxy Exy. prod_eqm Hs Es. prod_eqm Hm2 Em2.
  destruct (a_eqm _ _ Hs Hs) as [Hss Ess]. destruct (s_eqm _ _ Hm2 Hss) as [Hx3 Ex3]. destruct (s_eqm _ _ Hs Hx3) as [Hsx Esx].
  prod_eqm Ht Et. prod_eqm Hy4 Ey4. prod_eqm Hey Eey. prod_eqm Hyz Eyz.
  destruct (s_eqm _ _ Ht Hey) as [Hy3 Ey3], (a_eqm _ _ Hyz Hyz) as [Hz3 Ez3].
  apply defini_rend. split; [done|]. split; [done|]. split; [done|]. cbn [x y z]. unfold equation in *.
  rewrite Ey3, Ez3, Et, Esx, Eey, E8, Ey4, Eyz, !Ex3, Em2, Ess, Es, E4, Exy, Em, E3, Epr, Ed, Ea, Ez2, Ey2.
  set (a := v (x pt)) in *. set (e := v (y pt)) in *. set (f := v (z pt)) in *.
  transitivity (64 * (e * e * e * e * e * e) *
    (e * e - a * a * a + 3 * a * (f * f * f * f) - v (b c) * (f * f * f * f * f * f))).
  - match goal with |- eqm _ ?a ?b => replace a with b by ring end. reflexivity.
  - rewrite Heq. rewrite Z.mul_0_r. reflexivity.
Qed.

Lemma point_add_sur p1 p2 : 8 < P -> sur_courbe p1 -> sur_courbe p2 -> defini (point_add c p1 p2) sur_courbe.
Proof.
  intros Hp8 H1 H2. pose proof H1 as (Hx1 & Hy1 & Hz1 & Heq1). pose proof H2 as (Hx2 & Hy2 & Hz2 & Heq2). unfold point_add.
  destruct (is_infinity p1); [by apply defini_rend|]. destruct (is_infinity p2); [by apply defini_rend|]. unfold f_sqr.
  prod_eqm Hzz1 Ezz1. prod_eqm Hzz2 Ezz2. prod_eqm Hu1 Eu1. prod_eqm Hu2 Eu2. prod_eqm Hc2 Ec2. prod_eqm Hs1 Es1.
  prod_eqm Hc1 Ec1. prod_eqm Hs2 Es2.
  match goal with |- defini (match cmp ?u ?w with _ => _ end) _ => assert (cmp u w = Eq \/ cmp u w <> Eq) as [->|Hne]
    by (destruct (cmp u w); auto) end.
  { match goal with |- defini (match ?t with _ => _ end) _ => destruct t end;
      [by apply point_double_sur|apply defini_rend, infinity_sur..]. }
  match goal with |- defini (match ?t with Eq => _ | Lt => ?k | Gt => _ end) _ =>
    assert (defini k sur_courbe); [clear Hne|by destruct t] end.
  cbv zeta. destruct (s_eqm _ _ Hu2 Hu1) as [Hh Eh], (s_eqm _ _ Hs2 Hs1) as [Hr Er].
  prod_eqm Hh2 Eh2. prod_eqm Hh3 Eh3. prod_eqm Huh Euh. prod_eqm Hr2 Er2.
  destruct (s_eqm _ _ Hr2 Hh3) as [Hd Ed], (a_eqm _ _ Huh Huh) as [Ht Et]. destruct (s_eqm _ _ Hd Ht) as [Hx3 Ex3].
  destruct (s_eqm _ _ Huh Hx3) as [Hux Eux]. prod_eqm Hrt Ert. prod_eqm Hsh Esh. prod_eqm Hhz Ehz. prod_eqm Hz3 Ez3.
  destruct (s_eqm _ _ Hrt Hsh) as [Hy3 Ey3]. apply defini_rend. split; [done|]. split; [done|]. split; [done|].
  cbn [x y z]. unfold equation in *.
  rewrite Ey3, Ez3, Ert, Esh, Ehz, Eux, !Ex3, Ed, Et, Er2, !Euh, Eh3, Eh2, Er, Eh, Es2, Es1, Ec1, Ec2, Eu1, Eu2, Ezz1, Ezz2.
  revert Heq1 Heq2. clear.
  generalize (v (x p1)) (v (y p1)) (v (z p1)) (v (x p2)) (v (y p2)) (v (z p2)). intros a1 b1 c1 a2 b2 c2 Heq1 Heq2.
  rewrite (addition_equation (v (b c)) a1 b1 c1 a2 b2 c2), Heq1, Heq2. rewrite !Z.mul_0_r. reflexivity.
Qed.

Lemma scalar_mul_sur k pt : 8 < P -> sur_courbe pt -> defini (scalar_mul c k pt) sur_courbe.
Proof.
  intros Hp8 Hpt. unfold scalar_mul. generalize (bit_len k). intros m. pose proof infinity_sur as Hr. revert Hr.
  generalize infinity. induction m as [|i IH]; intros r Hr; cbn [scalar_depuis]; [by apply defini_rend|].
  eapply defini_lie; [by apply point_double_sur|]. intros r1 Hr1. eapply (defini_lie _ _ sur_courbe); [|exact IH].
  destruct (_ =? 1); [by apply point_add_sur|by apply defini_rend].
Qed.
End Corps.

(** ** The two curves *)

Lemma octets_par (l : list Z) : forallb (fun o => (0 <=? o) && (o <? 256)) l = true -> Forall octet l.
Proof. intros H. apply Forall_forall. intros o Ho. rewrite forallb_forall in H. apply list_elem_of_In, H in Ho. unfold octet. lia. Qed.
Lemma new_ok p n gx gy b k :
  forallb (fun o => (0 <=? o) && (o <? 256)) (p ++ n ++ gx ++ gy ++ b) = true -> 2 < from_be p -> 2 < from_be n ->
  courbe_ok (new p n gx gy b k) /\ v (Ec.p (new p n gx gy b k)) = from_be p.
Proof.
  intros H Hp Hn. apply octets_par in H. rewrite !Forall_app in H. destruct H as (H1 & H2 & H3 & H4 & H5).
  destruct (from_bytes_be_spec _ H1) as [? E1], (from_bytes_be_spec _ H2) as [? E2].
  split; [|exact E1]. unfold courbe_ok. cbn [new Ec.p Ec.n Ec.gx Ec.gy]. rewrite E1, E2. split_and!; try done; by apply from_bytes_be_spec.
Qed.
Lemma p256_ok : courbe_ok p256 /\ v (p p256) = from_be p_256.
Proof. apply new_ok; reflexivity. Qed.
Lemma p384_ok : courbe_ok p384 /\ v (p p384) = from_be p_384.
Proof. apply new_ok; reflexivity. Qed.
(** The point the code starts from is on its curve. *)
Lemma generateur_sur p n gx gy b k :
  forallb (fun o => (0 <=? o) && (o <? 256)) (p ++ n ++ gx ++ gy ++ b) = true -> 2 < from_be p ->
  from_be gx < from_be p -> from_be gy < from_be p ->
  (from_be gy * from_be gy - from_be gx * from_be gx * from_be gx + 3 * from_be gx - from_be b) mod from_be p = 0 ->
  sur_courbe (new p n gx gy b k) (generator (new p n gx gy b k)).
Proof.
  intros H Hp Hx Hy He. apply octets_par in H. rewrite !Forall_app in H. destruct H as (H1 & H2 & H3 & H4 & H5).
  destruct (from_bytes_be_spec _ H1) as [? E1], (from_bytes_be_spec _ H3) as [? E3], (from_bytes_be_spec _ H4) as [? E4],
    (from_bytes_be_spec _ H5) as [? E5], (petit_nombre 1 ltac:(unfold octet; lia)) as [? E].
  unfold sur_courbe, elt, equation, eqm.
  cbn [new Ec.p Ec.b Ec.gx Ec.gy generator affine x y z]. rewrite E1, E3, E4, E5, E. split_and!; try done; [lia|].
  rewrite Z.mod_0_l by lia. rewrite <- He. f_equal. lia.
Qed.
Lemma generateur_256 : sur_courbe p256 (generator p256).
Proof. apply generateur_sur; reflexivity. Qed.
Lemma generateur_384 : sur_courbe p384 (generator p384).
Proof. apply generateur_sur; reflexivity. Qed.

(** C1: what a signature is verified with always answers. On any octets for the key, the
    hash, r and s, from the certificate of anyone, the verification on P-256 and on P-384 stops
    neither on a division by zero nor elsewhere; a signature whose r or s is zero or is not below the
    order of the group is refused, and so is every signature under a key that is not an uncompressed point. *)
Theorem ecdsa_sure c pubkey hash r s : c = p256 \/ c = p384 ->
  Forall octet pubkey -> Forall octet hash -> Forall octet r -> Forall octet s ->
  exists ok, verify_ecdsa c pubkey hash r s = Some ok /\
    (ok = true -> 0 < from_be r < v (n c) /\ 0 < from_be s < v (n c) /\
       length pubkey = (1 + 2 * coord_len c)%nat /\ aget pubkey 0 = 4).
Proof.
  intros Hc Hp Hh Hr Hs. assert (courbe_ok c) as Ho by (destruct Hc as [->| ->]; [apply p256_ok|apply p384_ok]).
  destruct (verify_ecdsa_repond c Ho pubkey hash r s Hp Hh Hr Hs) as (ok & E & _). exists ok. split; [exact E|]. intros ->.
  unfold verify_ecdsa in E. destruct (decode_pubkey c pubkey) eqn:Ed; [|done]. cbv zeta in E. unfold decode_pubkey in Ed.
  destruct (_ || _) eqn:El in Ed; [done|]. apply orb_false_iff in El. rewrite !negb_false_iff, Nat.eqb_eq, Z.eqb_eq in El.
  destruct (from_bytes_be_spec r Hr) as [Hr' Er], (from_bytes_be_spec s Hs) as [Hs' Es], Ho as (_ & Hn & _).
  destruct (_ || _) eqn:Ez in E; [done|]. apply orb_false_iff in Ez. rewrite !is_zero_spec, Er, Es, !Z.eqb_neq in Ez by done.
  rewrite !cmp_spec, Er, Es in E by done. pose proof (from_be_borne r Hr). pose proof (from_be_borne s Hs).
  destruct (Z.compare_spec (from_be r) (v (n c))) as [|Lr|]; [done| |done].
  destruct (Z.compare_spec (from_be s) (v (n c))) as [|Ls|]; [done| |done]. split_and!; first [lia|apply El].
Qed.
Lemma ecdsa_sure_witness :
  exists ok, verify_ecdsa p256 [4; 1] [1] [2] [3] = Some ok /\
    (ok = true -> 0 < from_be [2] < v (n p256) /\ 0 < from_be [3] < v (n p256) /\
       length [4; 1] = (1 + 2 * coord_len p256)%nat /\ aget [4; 1] 0 = 4).
Proof. apply (ecdsa_sure p256 [4; 1] [1] [2] [3]); [by left|apply octets_par; reflexivity..]. Defined.

(** C1: from a point of the curve, the multiplication by any scalar, the one of the key
    exchange and the two of a signature, gives back a point of the curve, with coordinates below the
    prime: the Jacobian doubling and addition, their shortcuts on infinity, equal and opposite points
    included, keep the equation y^2 = x^3 - 3 x z^4 + b z^6. The generators of both curves satisfy it. *)
Theorem multiples_sur_la_courbe c k pt : c = p256 \/ c = p384 -> sur_courbe c pt ->
  sur_courbe c (generator c) /\
  exists r, scalar_mul c k pt = Some r /\ sur_courbe c r.
Proof.
  intros Hc Hpt. split; [destruct Hc as [->| ->]; [apply generateur_256|apply generateur_384]|].
  assert (courbe_ok c /\ 8 < v (p c)) as [Ho H8].
  { destruct Hc as [->| ->]; [destruct p256_ok as [H E]|destruct p384_ok as [H E]]; (split; [exact H|rewrite E; reflexivity]). }
  by apply scalar_mul_sur.
Qed.
Lemma multiples_sur_la_courbe_witness :
  sur_courbe p384 (generator p384) /\
  exists r, scalar_mul p384 (petit 3) (generator p384) = Some r /\ sur_courbe p384 r.
Proof. apply (multiples_sur_la_courbe p384 (petit 3)); [by right|apply generateur_384]. Defined.

(** A key is not asked to be on the curve: the point (0, 0), which is not, is decoded. *)
Lemma point_hors_courbe_admis :
  exists q, decode_pubkey p256 (4 :: replicate 64 0) = Some q /\ ~ sur_courbe p256 q.
Proof.
  assert (v (p p256) = from_be p_256 /\ v (from_bytes_be (replicate 32 0)) = 0 /\ v (petit 1) = 1 /\ v (b p256) = from_be b_256) as (Ep & E0 & E1 & Eb).
  { split_and!; [apply p256_ok|apply from_bytes_be_spec, octets_par; reflexivity|apply petit_nombre; done|].
    apply from_bytes_be_spec, octets_par. reflexivity. }
  exists (affine (from_bytes_be (replicate 32 0)) (from_bytes_be (replicate 32 0))). split; [reflexivity|].
  intros (_ & _ & _ & H). unfold equation, eqm in H. cbn [affine x y z] in H. rewrite Ep, E0, E1, Eb in H. by vm_compute in H.
Qed.
End EcProofs.
