(* ===== verification/X25519.v ===== *)
(** The key exchange X25519: [src/net/security/tls/x25519.rs]. A field element has five limbs of
    51 bits, in 64-bit words; [None] is a stop of the kernel, on an overflow of a sum, a
    difference or a product. *)

From S2P Require Import Prelude GrandsEntiers.
From Stdlib Require Import Zdiv.

Module X25519.
Open Scope Z_scope.

Record Felem := F { l0 : Z; l1 : Z; l2 : Z; l3 : Z; l4 : Z }.
Definition MASK : Z := 0x7ffffffffffff.

Definition u64 (x : Z) : option Z := if (0 <=? x) && (x <? 2 ^ 64) then Some x else None.
Definition u128 (x : Z) : option Z := if (0 <=? x) && (x <? 2 ^ 128) then Some x else None.
Definition as_u64 (x : Z) : Z := x mod 2 ^ 64.
Definition felem (a b c d e : option Z) : option Felem :=
  a ← a; b ← b; c ← c; d ← d; e ← e; Some (F a b c d e).

Definition fsum (output input : Felem) : option Felem :=
  felem (u64 (l0 output + l0 input)) (u64 (l1 output + l1 input)) (u64 (l2 output + l2 input))
        (u64 (l3 output + l3 input)) (u64 (l4 output + l4 input)).

Definition two54m152 : Z := 2 ^ 54 - 152.
Definition two54m8 : Z := 2 ^ 54 - 8.
(** [input + k - out] *)
Definition moins (input k out : Z) : option Z := s ← u64 (input + k); u64 (s - out).
Definition fdifference_backwards (out input : Felem) : option Felem :=
  felem (moins (l0 input) two54m152 (l0 out)) (moins (l1 input) two54m8 (l1 out)) (moins (l2 input) two54m8 (l2 out))
        (moins (l3 input) two54m8 (l3 out)) (moins (l4 input) two54m8 (l4 out)).

Definition fscalar_product (input : Felem) (scalar : Z) : option Felem :=
  a0 ← u128 (l0 input * scalar);
  a1 ← u128 (l1 input * scalar + as_u64 (Z.shiftr a0 51));
  a2 ← u128 (l2 input * scalar + as_u64 (Z.shiftr a1 51));
  a3 ← u128 (l3 input * scalar + as_u64 (Z.shiftr a2 51));
  a4 ← u128 (l4 input * scalar + as_u64 (Z.shiftr a3 51));
  c ← u64 (as_u64 (Z.shiftr a4 51) * 19);
  o0 ← u64 (Z.land (as_u64 a0) MASK + c);
  Some (F o0 (Z.land (as_u64 a1) MASK) (Z.land (as_u64 a2) MASK) (Z.land (as_u64 a3) MASK) (Z.land (as_u64 a4) MASK)).

(** The carries at the end of a product and of a square. *)
Definition retenues (t0 t1 t2 t3 t4 : Z) : option Felem :=
  t1 ← u128 (t1 + as_u64 (Z.shiftr t0 51));
  t2 ← u128 (t2 + as_u64 (Z.shiftr t1 51));
  t3 ← u128 (t3 + as_u64 (Z.shiftr t2 51));
  t4 ← u128 (t4 + as_u64 (Z.shiftr t3 51));
  c ← u64 (as_u64 (Z.shiftr t4 51) * 19);
  r0 ← u64 (Z.land (as_u64 t0) MASK + c);
  r1 ← u64 (Z.land (as_u64 t1) MASK + Z.shiftr r0 51);
  r2 ← u64 (Z.land (as_u64 t2) MASK + Z.shiftr r1 51);
  Some (F (Z.land r0 MASK) (Z.land r1 MASK) r2 (Z.land (as_u64 t3) MASK) (Z.land (as_u64 t4) MASK)).

Definition fmul (in2 input : Felem) : option Felem :=
  let '(F r0 r1 r2 r3 r4) := input in
  let '(F s0 s1 s2 s3 s4) := in2 in
  t0 ← u128 (r0 * s0);
  t1 ← u128 (r0 * s1 + r1 * s0);
  t2 ← u128 (r0 * s2 + r2 * s0 + r1 * s1);
  t3 ← u128 (r0 * s3 + r3 * s0 + r1 * s2 + r2 * s1);
  t4 ← u128 (r0 * s4 + r4 * s0 + r3 * s1 + r1 * s3 + r2 * s2);
  r4m ← u64 (r4 * 19);
  r1m ← u64 (r1 * 19);
  r2m ← u64 (r2 * 19);
  r3m ← u64 (r3 * 19);
  t0 ← u128 (t0 + (r4m * s1 + r1m * s4 + r2m * s3 + r3m * s2));
  t1 ← u128 (t1 + (r4m * s2 + r2m * s4 + r3m * s3));
  t2 ← u128 (t2 + (r4m * s3 + r3m * s4));
  t3 ← u128 (t3 + r4m * s4);
  retenues t0 t1 t2 t3 t4.

Definition carre (r : Felem) : option Felem :=
  let '(F r0 r1 r2 r3 r4) := r in
  d0 ← u64 (r0 * 2);
  d1 ← u64 (r1 * 2);
  d2 ← u64 (r2 * 2 * 19);
  d419 ← u64 (r4 * 19);
  d4 ← u64 (d419 * 2);
  t0 ← u128 (r0 * r0 + d4 * r1 + d2 * r3);
  r3m ← u64 (r3 * 19);
  t1 ← u128 (d0 * r1 + d4 * r2 + r3 * r3m);
  t2 ← u128 (d0 * r2 + r1 * r1 + d4 * r3);
  t3 ← u128 (d0 * r3 + d1 * r2 + r4 * d419);
  t4 ← u128 (d0 * r4 + d1 * r3 + r2 * r2);
  retenues t0 t1 t2 t3 t4.
(** [loop { ...; n -= 1; if n == 0 { break; } }] *)
Fixpoint fsquare_times (input : Felem) (count : nat) : option Felem :=
  match count with
  | O => None
  | S n => r ← carre input; match n with O => Some r | _ => fsquare_times r n end
  end.

Definition rd (input : list Z) (off : nat) : Z := from_le (slice input off 8).
Definition fexpand (input : list Z) : Felem :=
  F (Z.land (rd input 0) MASK) (Z.land (Z.shiftr (rd input 6) 3) MASK) (Z.land (Z.shiftr (rd input 12) 6) MASK)
    (Z.land (Z.shiftr (rd input 19) 1) MASK) (Z.land (Z.shiftr (rd input 24) 12) MASK).

(** [t[i + 1] += t[i] >> 51; t[i] &= MASK], from limb 0 to limb 4. *)
Definition propage (t : Felem) : option Felem :=
  t1 ← u128 (l1 t + Z.shiftr (l0 t) 51);
  t2 ← u128 (l2 t + Z.shiftr t1 51);
  t3 ← u128 (l3 t + Z.shiftr t2 51);
  t4 ← u128 (l4 t + Z.shiftr t3 51);
  Some (F (Z.land (l0 t) MASK) (Z.land t1 MASK) (Z.land t2 MASK) (Z.land t3 MASK) t4).
(** And from limb 4 back to limb 0. *)
Definition tour (t : Felem) : option Felem :=
  t ← propage t;
  c ← u128 (19 * Z.shiftr (l4 t) 51);
  t0 ← u128 (l0 t + c);
  Some (F t0 (l1 t) (l2 t) (l3 t) (Z.land (l4 t) MASK)).
Definition fcontract (input : Felem) : option (list Z) :=
  t ← tour input;
  t ← tour t;
  t0 ← u128 (l0 t + 19);
  t ← tour (F t0 (l1 t) (l2 t) (l3 t) (l4 t));
  t ← felem (u128 (l0 t + (0x8000000000000 - 19))) (u128 (l1 t + (0x8000000000000 - 1))) (u128 (l2 t + (0x8000000000000 - 1)))
            (u128 (l3 t + (0x8000000000000 - 1))) (u128 (l4 t + (0x8000000000000 - 1)));
  t ← propage t;
  let t4 := Z.land (l4 t) MASK in
  let f0 := Z.lor (as_u64 (l0 t)) (Z.shiftl (as_u64 (l1 t)) 51 mod 2 ^ 64) in
  let f1 := Z.lor (Z.shiftr (as_u64 (l1 t)) 13) (Z.shiftl (as_u64 (l2 t)) 38 mod 2 ^ 64) in
  let f2 := Z.lor (Z.shiftr (as_u64 (l2 t)) 26) (Z.shiftl (as_u64 (l3 t)) 25 mod 2 ^ 64) in
  let f3 := Z.lor (Z.shiftr (as_u64 (l3 t)) 39) (Z.shiftl (as_u64 t4) 12 mod 2 ^ 64) in
  Some (to_le 8 f0 ++ to_le 8 f1 ++ to_le 8 f2 ++ to_le 8 f3).

(** [x = swap & (a ^ b); a ^= x; b ^= x] on one limb. *)
Definition echange (swap a b : Z) : Z * Z :=
  let x := Z.land swap (Z.lxor a b) in (Z.lxor a x, Z.lxor b x).
Definition swap_conditional (a b : Felem) (iswap : Z) : Felem * Felem :=
  let swap := (0 - iswap) mod 2 ^ 64 in
  let e0 := echange swap (l0 a) (l0 b) in let e1 := echange swap (l1 a) (l1 b) in
  let e2 := echange swap (l2 a) (l2 b) in let e3 := echange swap (l3 a) (l3 b) in
  let e4 := echange swap (l4 a) (l4 b) in
  (F e0.1 e1.1 e2.1 e3.1 e4.1, F e0.2 e1.2 e2.2 e3.2 e4.2).

(** The two points, as (X : Z) each: [nqx], [nqz], [nqpqx], [nqpqz]. *)
Record Points := mk_points { nqx : Felem; nqz : Felem; nqpqx : Felem; nqpqz : Felem }.
(** The doubled point and the sum; the code also uses its inputs as scratch memory, and the caller
    writes over them. *)
Definition fmonty (s : Points) (qmqp : Felem) : option Points :=
  let '(mk_points x z xprime zprime) := s in
  let origx := x in
  x ← fsum x z;
  z ← fdifference_backwards z origx;
  let origxprime := xprime in
  xprime ← fsum xprime zprime;
  zprime ← fdifference_backwards zprime origxprime;
  xxprime ← fmul xprime z;
  zzprime ← fmul x zprime;
  let origxprime := xxprime in
  xxprime ← fsum xxprime zzprime;
  zzprime ← fdifference_backwards zzprime origxprime;
  x3 ← fsquare_times xxprime 1;
  zzzprime ← fsquare_times zzprime 1;
  z3 ← fmul zzzprime qmqp;
  xx ← fsquare_times x 1;
  zz ← fsquare_times z 1;
  x2 ← fmul xx zz;
  zz ← fdifference_backwards zz xx;
  zzz ← fscalar_product zz 121665;
  zzz ← fsum zzz xx;
  z2 ← fmul zz zzz;
  Some (mk_points x2 z2 x3 z3).

Definition echange_points (s : Points) (bit : Z) : Points :=
  let '(a, c) := swap_conditional (nqx s) (nqpqx s) bit in
  let '(b, d) := swap_conditional (nqz s) (nqpqz s) bit in
  mk_points a b c d.
(** The bits of one octet, the first one in front. *)
Fixpoint bits_octet (n : nat) (byte : Z) (q : Felem) (s : Points) : option Points :=
  match n with
  | O => Some s
  | S n =>
      let bit := Z.shiftr byte 7 in
      s ← fmonty (echange_points s bit) q;
      bits_octet n (Z.shiftl byte 1 mod 256) q (echange_points s bit)
  end.
Fixpoint octets_scalaire (l : list Z) (q : Felem) (s : Points) : option Points :=
  match l with
  | [] => Some s
  | byte :: l => s ← bits_octet 8 byte q s; octets_scalaire l q s
  end.
Definition un : Felem := F 1 0 0 0 0.
Definition nul : Felem := F 0 0 0 0 0.
Definition cmult (n : list Z) (q : Felem) : option (Felem * Felem) :=
  s ← octets_scalaire (rev n) q (mk_points un nul q un);
  Some (nqx s, nqz s).

Definition crecip (z : Felem) : option Felem :=
  a ← fsquare_times z 1;
  t0 ← fsquare_times a 2;
  b ← fmul t0 z;
  a ← fmul b a;
  t0 ← fsquare_times a 1;
  b ← fmul t0 b;
  t0 ← fsquare_times b 5;
  b ← fmul t0 b;
  t0 ← fsquare_times b 10;
  c ← fmul t0 b;
  t0 ← fsquare_times c 20;
  t0 ← fmul t0 c;
  t0 ← fsquare_times t0 10;
  b ← fmul t0 b;
  t0 ← fsquare_times b 50;
  c ← fmul t0 b;
  t0 ← fsquare_times c 100;
  t0 ← fmul t0 c;
  t0 ← fsquare_times t0 50;
  t0 ← fmul t0 b;
  t0 ← fsquare_times t0 5;
  fmul t0 a.

(** [e[0] &= 248; e[31] &= 127; e[31] |= 64] *)
Definition clampe (secret : list Z) : list Z :=
  let e := aset secret 0 (Z.land (aget secret 0) 248) in
  let e := aset e 31 (Z.land (aget e 31) 127) in
  aset e 31 (Z.lor (aget e 31) 64).
Definition x25519 (secret basepoint : list Z) : option (list Z) :=
  '(x, z) ← cmult (clampe secret) (fexpand basepoint);
  zmone ← crecip z;
  out ← fmul x zmone;
  fcontract out.
Definition base_mul (secret : list Z) : option (list Z) := x25519 secret (9 :: replicate 31 0).
End X25519.

Module X25519Proofs.
Import X25519.
Import BigUintProofs(from_le_app).
Open Scope Z_scope.

Definition p : Z := 2 ^ 255 - 19.
Definition val (f : Felem) : Z := l0 f + 2 ^ 51 * l1 f + 2 ^ 102 * l2 f + 2 ^ 153 * l3 f + 2 ^ 204 * l4 f.
(** Every limb is at most [b]. *)
Definition borne (b : Z) (f : Felem) : Prop := 0 <= l0 f <= b /\ 0 <= l1 f <= b /\ 0 <= l2 f <= b /\ 0 <= l3 f <= b /\ 0 <= l4 f <= b.
Definition defini {A} (o : option A) (P : A -> Prop) : Prop := exists r, o = Some r /\ P r.
Lemma defini_pas {A B} (o : option A) (k : A -> option B) P Q : defini o P -> (forall r, P r -> defini (k r) Q) -> defini (o ≫= k) Q.
Proof. intros (r & -> & H) Hk. by apply Hk. Qed.
Lemma defini_fin {A} (r : A) (P : A -> Prop) : P r -> defini (Some r) P.
Proof. intros H. by exists r. Qed.
Lemma defini_faible {A} (o : option A) (P Q : A -> Prop) : defini o P -> (forall r, P r -> Q r) -> defini o Q.
Proof. intros (r & -> & H) HQ. exists r. auto. Qed.

Lemma u64_ok x : 0 <= x < 2 ^ 64 -> u64 x = Some x.
Proof. intros H. unfold u64. by rewrite (proj2 (Z.leb_le _ _)), (proj2 (Z.ltb_lt _ _)) by lia. Qed.
Lemma u128_ok x : 0 <= x < 2 ^ 128 -> u128 x = Some x.
Proof. intros H. unfold u128. by rewrite (proj2 (Z.leb_le _ _)), (proj2 (Z.ltb_lt _ _)) by lia. Qed.
Lemma masque x : Z.land x MASK = x mod 2 ^ 51.
Proof. apply (Z.land_ones x 51). lia. Qed.
Lemma masque_u64 x : Z.land (as_u64 x) MASK = x mod 2 ^ 51.
Proof.
  rewrite masque. unfold as_u64. change (2 ^ 64) with (2 ^ 51 * 2 ^ 13). apply Z.mod_mod_divide. by exists (2 ^ 13).
Qed.
Lemma decale51 x : Z.shiftr x 51 = x / 2 ^ 51.
Proof. apply Z.shiftr_div_pow2. lia. Qed.

Lemma fsum_ok A B a b : borne A a -> borne B b -> A + B < 2 ^ 64 -> defini (fsum a b) (fun r => borne (A + B) r /\ val r = val a + val b).
Proof.
  intros (?&?&?&?&?) (?&?&?&?&?) ?. unfold fsum, felem. rewrite !u64_ok by lia. apply defini_fin. unfold borne, val. cbn [l0 l1 l2 l3 l4]. lia.
Qed.
Lemma moins_ok A i k o : 0 <= i <= A -> A + 2 ^ 54 < 2 ^ 64 -> 0 <= k <= 2 ^ 54 -> 0 <= o <= k -> moins i k o = Some (i + k - o).
Proof. intros. unfold moins. rewrite u64_ok by lia. cbn [mbind option_bind]. by rewrite u64_ok by lia. Qed.
Lemma fdiff_ok A B out input : borne A input -> borne B out -> A + 2 ^ 54 < 2 ^ 64 -> B <= 2 ^ 54 - 152 ->
  defini (fdifference_backwards out input) (fun r => borne (A + 2 ^ 54) r /\ val r = val input - val out + 8 * p).
Proof.
  intros (?&?&?&?&?) (?&?&?&?&?) ? ?. unfold fdifference_backwards, felem.
  rewrite (moins_ok A (l0 input)), (moins_ok A (l1 input)), (moins_ok A (l2 input)), (moins_ok A (l3 input)), (moins_ok A (l4 input))
    by (unfold two54m152, two54m8; lia).
  apply defini_fin. unfold borne, val, two54m152, two54m8, p. cbn [l0 l1 l2 l3 l4]. lia.
Qed.

(** The carries: five sums below 98 * 2^108 give a value with small limbs. *)
Lemma retenues_ok t0 t1 t2 t3 t4 :
  0 <= t0 <= 98 * 2 ^ 108 -> 0 <= t1 <= 98 * 2 ^ 108 -> 0 <= t2 <= 98 * 2 ^ 108 -> 0 <= t3 <= 98 * 2 ^ 108 ->
  0 <= t4 <= 13 * 2 ^ 107 ->
  defini (retenues t0 t1 t2 t3 t4) (fun r => borne (2 ^ 51) r /\
    val r mod p = (t0 + 2 ^ 51 * t1 + 2 ^ 102 * t2 + 2 ^ 153 * t3 + 2 ^ 204 * t4) mod p).
Proof.
  intros H0 H1 H2 H3 H4. unfold retenues.
  assert (forall t, 0 <= t < 2 ^ 115 -> as_u64 (Z.shiftr t 51) = t / 2 ^ 51 /\ 0 <= t / 2 ^ 51 < 2 ^ 64) as Hc.
  { intros t Ht. rewrite decale51. assert (0 <= t / 2 ^ 51 < 2 ^ 64).
    { split; [apply Z.div_pos; lia|]. apply Z.div_lt_upper_bound; lia. }
    split; [by apply Z.mod_small|done]. }
  destruct (Hc t0) as [-> B0]; [lia|]. rewrite u128_ok by lia. cbn [mbind option_bind]. set (u1 := t1 + t0 / 2 ^ 51) in *.
  destruct (Hc u1) as [-> B1]; [lia|]. rewrite u128_ok by lia. cbn [mbind option_bind]. set (u2 := t2 + u1 / 2 ^ 51) in *.
  destruct (Hc u2) as [-> B2]; [lia|]. rewrite u128_ok by lia. cbn [mbind option_bind]. set (u3 := t3 + u2 / 2 ^ 51) in *.
  destruct (Hc u3) as [-> B3]; [lia|]. rewrite u128_ok by lia. cbn [mbind option_bind]. set (u4 := t4 + u3 / 2 ^ 51) in *.
  destruct (Hc u4) as [-> B4]; [lia|].
  assert (u4 / 2 ^ 51 <= 13 * 2 ^ 56 + 2 ^ 14) as B4'.
  { apply Z.div_le_upper_bound; lia. }
  rewrite u64_ok by lia. cbn [mbind option_bind]. rewrite !masque_u64.
  pose proof (Z.mod_pos_bound t0 (2 ^ 51) ltac:(lia)). pose proof (Z.mod_pos_bound u1 (2 ^ 51) ltac:(lia)).
  pose proof (Z.mod_pos_bound u2 (2 ^ 51) ltac:(lia)). pose proof (Z.mod_pos_bound u3 (2 ^ 51) ltac:(lia)).
  pose proof (Z.mod_pos_bound u4 (2 ^ 51) ltac:(lia)).
  set (r0 := t0 mod 2 ^ 51 + u4 / 2 ^ 51 * 19). rewrite u64_ok by lia. cbn [mbind option_bind]. rewrite !decale51, !masque.
  assert (0 <= r0 / 2 ^ 51 <= 2 ^ 13) as C0.
  { split; [apply Z.div_pos; lia|]. apply Z.div_le_upper_bound; lia. }
  set (r1 := u1 mod 2 ^ 51 + r0 / 2 ^ 51). rewrite u64_ok by lia. cbn [mbind option_bind]. rewrite !decale51.
  assert (0 <= r1 / 2 ^ 51 < 2) as C1.
  { split; [apply Z.div_pos; lia|]. apply Z.div_lt_upper_bound; lia. }
  rewrite u64_ok by lia. cbn [mbind option_bind]. rewrite !masque.
  pose proof (Z.mod_pos_bound r0 (2 ^ 51) ltac:(lia)). pose proof (Z.mod_pos_bound r1 (2 ^ 51) ltac:(lia)).
  apply defini_fin. unfold borne. cbn [l0 l1 l2 l3 l4]. split; [lia|]. unfold val. cbn [l0 l1 l2 l3 l4].
  pose proof (Z.div_mod t0 (2 ^ 51) ltac:(lia)). pose proof (Z.div_mod u1 (2 ^ 51) ltac:(lia)). pose proof (Z.div_mod u2 (2 ^ 51) ltac:(lia)).
  pose proof (Z.div_mod u3 (2 ^ 51) ltac:(lia)). pose proof (Z.div_mod u4 (2 ^ 51) ltac:(lia)).
  pose proof (Z.div_mod r0 (2 ^ 51) ltac:(lia)). pose proof (Z.div_mod r1 (2 ^ 51) ltac:(lia)).
  rewrite <- (Z.mod_add _ (u4 / 2 ^ 51) p) by done. f_equal. unfold p. lia.
Qed.

(** Products of bounded limbs. *)
Lemma produit_borne a b A B : 0 <= a <= A -> 0 <= b <= B -> 0 <= a * b <= A * B.
Proof. intros. nia. Qed.
Lemma add_borne a b A B : 0 <= a <= A -> 0 <= b <= B -> 0 <= a + b <= A + B.
Proof. lia. Qed.
Lemma borne_stricte e B C : 0 <= e <= B -> B < C -> 0 <= e < C.
Proof. lia. Qed.
Lemma borne_large e B C : 0 <= e <= B -> B <= C -> 0 <= e <= C.
Proof. lia. Qed.
(** The bound of a sum of products, term by term; what is left compares constants. *)
Ltac somme Hp Hq := repeat first [eassumption|apply Hq|apply Hp|apply add_borne].
Ltac sommes Hp Hq :=
  repeat (rewrite u128_ok by (eapply borne_stricte; [somme Hp Hq|reflexivity]); cbn [mbind option_bind]).
Definition BORNE : Z := 81 * 2 ^ 102.
Lemma fmul_ok A B in2 input : borne A in2 -> borne B input -> B * A <= BORNE -> B <= 2 ^ 59 ->
  defini (fmul in2 input) (fun r => borne (2 ^ 51) r /\ val r mod p = (val in2 * val input) mod p).
Proof.
  destruct in2 as [s0 s1 s2 s3 s4], input as [r0 r1 r2 r3 r4].
  intros (S0&S1&S2&S3&S4) (R0&R1&R2&R3&R4) HB HB'. cbn [l0 l1 l2 l3 l4] in *. unfold BORNE in HB. unfold fmul.
  assert (forall r s, 0 <= r <= B -> 0 <= s <= A -> 0 <= r * s <= 81 * 2 ^ 102) as Hp.
  { intros r s Hr Hs. pose proof (produit_borne r s B A Hr Hs). lia. }
  assert (forall r s, 0 <= r <= B -> 0 <= s <= A -> 0 <= r * 19 * s <= 19 * (81 * 2 ^ 102)) as Hq.
  { intros r s Hr Hs. pose proof (Hp r s Hr Hs). replace (r * 19 * s) with (19 * (r * s)) by ring. lia. }
  rewrite (u64_ok (r4 * 19)), (u64_ok (r1 * 19)), (u64_ok (r2 * 19)), (u64_ok (r3 * 19)) by lia. cbn [mbind option_bind].
  sommes Hp Hq.
  eapply defini_faible; [apply retenues_ok; (eapply borne_large; [somme Hp Hq|by apply Z.leb_le])|]. intros r (Hr & E).
  split; [exact Hr|]. rewrite E. unfold val. cbn [l0 l1 l2 l3 l4].
  match goal with |- _ = ?x mod p => set (prod := x) end.
  rewrite <- (Z.mod_add _ (r4 * s1 + r1 * s4 + r2 * s3 + r3 * s2 + 2 ^ 51 * (r4 * s2 + r2 * s4 + r3 * s3) +
    2 ^ 102 * (r4 * s3 + r3 * s4) + 2 ^ 153 * (r4 * s4)) p) by done.
  f_equal. subst prod. unfold p. ring.
Qed.

Lemma carre_ok B input : borne B input -> B <= 9 * 2 ^ 51 ->
  defini (carre input) (fun r => borne (2 ^ 51) r /\ val r mod p = (val input * val input) mod p).
Proof.
  destruct input as [r0 r1 r2 r3 r4]. intros (R0&R1&R2&R3&R4) HB. cbn [l0 l1 l2 l3 l4] in *. unfold carre.
  rewrite (u64_ok (r0 * 2)), (u64_ok (r1 * 2)), (u64_ok (r2 * 2 * 19)), (u64_ok (r4 * 19)) by lia. cbn [mbind option_bind].
  rewrite (u64_ok (r4 * 19 * 2)) by lia. cbn [mbind option_bind].
  assert (forall r s, 0 <= r <= B -> 0 <= s <= B -> 0 <= r * s <= 81 * 2 ^ 102) as Hp.
  { intros r s Hr Hs. pose proof (produit_borne r s (9 * 2 ^ 51) (9 * 2 ^ 51) ltac:(lia) ltac:(lia)). lia. }
  assert (forall r s k, 0 <= k -> 0 <= r <= B -> 0 <= s <= B -> 0 <= r * k * s <= k * (81 * 2 ^ 102)) as Hk.
  { intros r s k ? Hr Hs. pose proof (Hp r s Hr Hs). replace (r * k * s) with (k * (r * s)) by ring. nia. }
  assert (forall r s, 0 <= r <= B -> 0 <= s <= B -> 0 <= r * 19 * 2 * s <= 38 * (81 * 2 ^ 102)) as Hd4.
  { intros r s Hr Hs. replace (r * 19 * 2 * s) with (r * 38 * s) by ring. apply Hk; lia. }
  assert (forall r s, 0 <= r <= B -> 0 <= s <= B -> 0 <= r * 2 * 19 * s <= 38 * (81 * 2 ^ 102)) as Hd2.
  { intros r s Hr Hs. replace (r * 2 * 19 * s) with (r * 38 * s) by ring. apply Hk; lia. }
  assert (forall r s, 0 <= r <= B -> 0 <= s <= B -> 0 <= r * (s * 19) <= 19 * (81 * 2 ^ 102)) as Hd.
  { intros r s Hr Hs. replace (r * (s * 19)) with (r * 19 * s) by ring. apply Hk; lia. }
  assert (forall r s, 0 <= r <= B -> 0 <= s <= B -> 0 <= r * 2 * s <= 2 * (81 * 2 ^ 102)) as H2.
  { intros r s Hr Hs. apply Hk; lia. }
  clear Hk. rewrite (u64_ok (r3 * 19)) by lia.
  repeat (rewrite u128_ok by (eapply borne_stricte; [repeat first [eassumption|apply Hd4|apply Hd2|apply Hd|apply H2|apply Hp|apply add_borne]|reflexivity]);
    cbn [mbind option_bind]).
  eapply defini_faible; [apply retenues_ok; (eapply borne_large;
    [repeat first [eassumption|apply Hd4|apply Hd2|apply Hd|apply H2|apply Hp|apply add_borne]|by apply Z.leb_le])|].
  intros r (Hr & E). split; [exact Hr|]. rewrite E. unfold val. cbn [l0 l1 l2 l3 l4].
  match goal with |- _ = ?x mod p => set (prod := x) end.
  rewrite <- (Z.mod_add _ (2 * (r4 * r1) + 2 * (r2 * r3) + 2 ^ 51 * (2 * (r4 * r2) + r3 * r3) +
    2 ^ 102 * (2 * (r4 * r3)) + 2 ^ 153 * (r4 * r4)) p) by done.
  f_equal. subst prod. unfold p. ring.
Qed.

(** ** Values modulo p *)

#[local] Existing Instances eqm_setoid Zplus_eqm Zminus_eqm Zmult_eqm.
(** A reduced element, and the number it stands for. *)
Definition vaut (x : Z) (f : Felem) : Prop := borne (2 ^ 51) f /\ eqm p (val f) x.
Lemma vaut_eqm x y f : vaut x f -> eqm p x y -> vaut y f.
Proof. intros [H E] E'. split; [done|by rewrite E]. Qed.
Lemma fmul_v a b x y : vaut x a -> vaut y b -> defini (fmul a b) (vaut (x * y)).
Proof.
  intros [Ha Ea] [Hb Eb]. eapply defini_faible; [by apply (fmul_ok (2 ^ 51) (2 ^ 51))|]. intros r (Hr & E). split; [done|].
  change (eqm p (val r) (val a * val b)) in E. by rewrite E, Ea, Eb.
Qed.
Lemma carre_v a x : vaut x a -> defini (carre a) (vaut (x * x)).
Proof.
  intros [Ha Ea]. eapply defini_faible; [by apply (carre_ok (2 ^ 51))|]. intros r (Hr & E). split; [done|].
  change (eqm p (val r) (val a * val a)) in E. by rewrite E, Ea.
Qed.
Lemma fsquare_times_v n : forall a x, (1 <= n)%nat -> vaut x a -> defini (fsquare_times a n) (vaut (x ^ (2 ^ Z.of_nat n))).
Proof.
  induction n as [|n IH]; intros a x Hn H; [lia|]. cbn [fsquare_times]. eapply defini_pas; [by apply carre_v|]. intros r Hr.
  destruct n as [|n].
  { apply defini_fin. change (2 ^ Z.of_nat 1) with 2. by rewrite Z.pow_2_r. }
  eapply defini_faible; [apply IH; [lia|exact Hr]|]. intros r2 Hr2. eapply vaut_eqm; [exact Hr2|].
  rewrite (Nat2Z.inj_succ (S n)), Z.pow_succ_r, Z.pow_mul_r, Z.pow_2_r by lia. reflexivity.
Qed.

Lemma fscalar_product_ok B input k : borne B input -> B <= 9 * 2 ^ 51 -> 0 <= k < 2 ^ 17 ->
  defini (fscalar_product input k) (fun r => borne (2 ^ 52) r /\ eqm p (val r) (val input * k)).
Proof.
  destruct input as [r0 r1 r2 r3 r4]. intros (R0&R1&R2&R3&R4) HB Hk. cbn [l0 l1 l2 l3 l4] in *. unfold fscalar_product. cbn [l0 l1 l2 l3 l4].
  assert (forall r, 0 <= r <= B -> 0 <= r * k <= 9 * 2 ^ 68) as Hp.
  { intros r Hr. pose proof (produit_borne r k (9 * 2 ^ 51) (2 ^ 17) ltac:(lia) ltac:(lia)). lia. }
  assert (forall t, 0 <= t < 2 ^ 73 -> as_u64 (Z.shiftr t 51) = t / 2 ^ 51 /\ 0 <= t / 2 ^ 51 < 2 ^ 22) as Hc.
  { intros t Ht. rewrite decale51. assert (0 <= t / 2 ^ 51 < 2 ^ 22).
    { split; [apply Z.div_pos; lia|]. apply Z.div_lt_upper_bound; lia. }
    split; [apply Z.mod_small; lia|done]. }
  pose proof (Hp r0 R0). pose proof (Hp r1 R1). pose proof (Hp r2 R2). pose proof (Hp r3 R3). pose proof (Hp r4 R4). clear Hp.
  unfold val. cbn [l0 l1 l2 l3 l4]. replace ((r0 + 2 ^ 51 * r1 + 2 ^ 102 * r2 + 2 ^ 153 * r3 + 2 ^ 204 * r4) * k) with
    (r0 * k + 2 ^ 51 * (r1 * k) + 2 ^ 102 * (r2 * k) + 2 ^ 153 * (r3 * k) + 2 ^ 204 * (r4 * k)) by ring.
  set (a0 := r0 * k) in *. set (b1 := r1 * k) in *. set (b2 := r2 * k) in *. set (b3 := r3 * k) in *. set (b4 := r4 * k) in *.
  clearbody a0 b1 b2 b3 b4. rewrite u128_ok by lia. cbn [mbind option_bind].
  destruct (Hc a0) as [-> B0]; [lia|]. rewrite u128_ok by lia. cbn [mbind option_bind]. set (a1 := b1 + a0 / 2 ^ 51) in *.
  destruct (Hc a1) as [-> B1]; [lia|]. rewrite u128_ok by lia. cbn [mbind option_bind]. set (a2 := b2 + a1 / 2 ^ 51) in *.
  destruct (Hc a2) as [-> B2]; [lia|]. rewrite u128_ok by lia. cbn [mbind option_bind]. set (a3 := b3 + a2 / 2 ^ 51) in *.
  destruct (Hc a3) as [-> B3]; [lia|]. rewrite u128_ok by lia. cbn [mbind option_bind]. set (a4 := b4 + a3 / 2 ^ 51) in *.
  destruct (Hc a4) as [-> B4]; [lia|]. rewrite !masque_u64.
  pose proof (Z.mod_pos_bound a0 (2 ^ 51) ltac:(lia)). pose proof (Z.mod_pos_bound a1 (2 ^ 51) ltac:(lia)).
  pose proof (Z.mod_pos_bound a2 (2 ^ 51) ltac:(lia)). pose proof (Z.mod_pos_bound a3 (2 ^ 51) ltac:(lia)).
  pose proof (Z.mod_pos_bound a4 (2 ^ 51) ltac:(lia)).
  rewrite u64_ok by lia. cbn [mbind option_bind]. rewrite u64_ok by lia. cbn [mbind option_bind]. apply defini_fin.
  unfold borne. cbn [l0 l1 l2 l3 l4]. split; [lia|].
  pose proof (Z.div_mod a0 (2 ^ 51) ltac:(lia)). pose proof (Z.div_mod a1 (2 ^ 51) ltac:(lia)). pose proof (Z.div_mod a2 (2 ^ 51) ltac:(lia)).
  pose proof (Z.div_mod a3 (2 ^ 51) ltac:(lia)). pose proof (Z.div_mod a4 (2 ^ 51) ltac:(lia)).
  unfold eqm. rewrite <- (Z.mod_add _ (a4 / 2 ^ 51) p) by done. f_equal. unfold p. lia.
Qed.

(** ** One step of the ladder *)

(** The same step on numbers, as RFC 7748 writes it: the point doubled and the sum, from the
    x-coordinate [q] of the difference. *)
Record Nombres := mk_nombres { x2 : Z; z2 : Z; x3 : Z; z3 : Z }.
Definition pas (q : Z) (s : Nombres) : Nombres :=
  let A := x2 s + z2 s in let AA := A * A in
  let B := x2 s - z2 s in let BB := B * B in
  let E := AA - BB in
  let C := x3 s + z3 s in let D := x3 s - z3 s in
  let DA := D * A in let CB := C * B in
  mk_nombres (AA * BB) (E * (AA + 121665 * E)) ((DA + CB) * (DA + CB)) (q * ((DA - CB) * (DA - CB))).
Definition cswap (bit : Z) (s : Nombres) : Nombres := if bit =? 1 then mk_nombres (x3 s) (z3 s) (x2 s) (z2 s) else s.
Definition vaut_points (n : Nombres) (s : Points) : Prop :=
  vaut (x2 n) (nqx s) /\ vaut (z2 n) (nqz s) /\ vaut (x3 n) (nqpqx s) /\ vaut (z3 n) (nqpqz s).

(** Products of elements that are a sum or a difference. *)
Lemma fmul_large A B a b x y : borne A a -> borne B b -> B * A <= BORNE -> B <= 2 ^ 59 -> eqm p (val a) x -> eqm p (val b) y ->
  defini (fmul a b) (vaut (x * y)).
Proof.
  intros Ha Hb H1 H2 Ea Eb. eapply defini_faible; [by apply (fmul_ok A B)|]. intros r (Hr & E). split; [done|].
  change (eqm p (val r) (val a * val b)) in E. by rewrite E, Ea, Eb.
Qed.
Lemma carre_large B a x : borne B a -> B <= 9 * 2 ^ 51 -> eqm p (val a) x -> defini (fsquare_times a 1) (vaut (x * x)).
Proof.
  intros Ha HB Ea. cbn [fsquare_times]. eapply defini_pas; [by apply (carre_ok B)|]. intros r (Hr & E). apply defini_fin. split; [done|].
  change (eqm p (val r) (val a * val a)) in E. by rewrite E, Ea.
Qed.
Lemma somme_v a b x y : vaut x a -> vaut y b -> defini (fsum a b) (fun r => borne (2 ^ 52) r /\ eqm p (val r) (x + y)).
Proof.
  intros [Ha Ea] [Hb Eb]. eapply defini_faible; [by apply (fsum_ok (2 ^ 51) (2 ^ 51))|]. intros r (Hr & E). split; [done|]. by rewrite E, Ea, Eb.
Qed.
Lemma difference_v a b x y : vaut x a -> vaut y b -> defini (fdifference_backwards b a) (fun r => borne (9 * 2 ^ 51) r /\ eqm p (val r) (x - y)).
Proof.
  intros [Ha Ea] [Hb Eb]. eapply defini_faible; [by apply (fdiff_ok (2 ^ 51) (2 ^ 51))|]. intros r (Hr & E). split; [done|]. rewrite E, Ea, Eb.
  unfold eqm. by rewrite Z.mod_add.
Qed.
Lemma fmonty_v s n q x : vaut_points n s -> vaut x q -> defini (fmonty s q) (vaut_points (pas x n)).
Proof.
  destruct s as [a b c d], n as [na nb nc nd]. intros (Ha & Hb & Hc & Hd) Hq. cbn [nqx nqz nqpqx nqpqz x2 z2 x3 z3] in *. unfold fmonty.
  eapply defini_pas; [by apply somme_v|]. intros A [BA EA]. eapply defini_pas; [by apply difference_v|]. intros B [BB EB].
  eapply defini_pas; [by apply somme_v|]. intros C [BC EC]. eapply defini_pas; [by apply difference_v|]. intros D [BD ED].
  eapply defini_pas; [by eapply (fmul_large (2 ^ 52) (9 * 2 ^ 51))|]. intros CB HCB.
  eapply defini_pas; [by eapply (fmul_large (2 ^ 52) (9 * 2 ^ 51))|]. intros DA HDA.
  eapply defini_pas; [by apply somme_v|]. intros S [BS ES]. eapply defini_pas; [by apply difference_v|]. intros T [BT ET].
  eapply defini_pas; [by eapply (carre_large (2 ^ 52))|]. intros X3 HX3. eapply defini_pas; [by eapply (carre_large (9 * 2 ^ 51))|]. intros T2 HT2.
  eapply defini_pas; [by eapply fmul_v|]. intros Z3 HZ3.
  eapply defini_pas; [by eapply (carre_large (2 ^ 52))|]. intros AA HAA. eapply defini_pas; [by eapply (carre_large (9 * 2 ^ 51))|]. intros BB' HBB.
  eapply defini_pas; [by eapply fmul_v|]. intros X2 HX2. eapply defini_pas; [by apply difference_v|]. intros E [BE EE].
  eapply defini_pas; [by apply (fscalar_product_ok (9 * 2 ^ 51))|]. intros K [BK EK].
  eapply (defini_pas _ _ (fun r => borne (3 * 2 ^ 51) r /\ eqm p (val r) (val E * 121665 + (na + nb) * (na + nb)))).
  { eapply defini_faible; [by apply (fsum_ok (2 ^ 52) (2 ^ 51)); [|apply HAA|]|]. intros r [Hr Er]. split; [done|]. destruct HAA as [_ EAA]. by rewrite Er, EK, EAA. }
  intros K2 [BK2 EK2]. eapply defini_pas; [by eapply (fmul_large (9 * 2 ^ 51) (3 * 2 ^ 51))|]. intros Z2 HZ2.
  apply defini_fin. unfold pas. cbn [x2 z2 x3 z3]. split_and!; cbn [nqx nqz nqpqx nqpqz x2 z2 x3 z3].
  - done.
  - eapply vaut_eqm; [exact HZ2|]. rewrite EE. apply eq_subrelation; [typeclasses eauto|]. ring.
  - eapply vaut_eqm; [exact HX3|]. apply eq_subrelation; [typeclasses eauto|]. ring.
  - eapply vaut_eqm; [exact HZ3|]. apply eq_subrelation; [typeclasses eauto|]. ring.
Qed.

(** ** The ladder *)

Lemma echange_0 a b : echange 0 a b = (a, b).
Proof. unfold echange. rewrite Z.land_0_l. cbv zeta. by rewrite !Z.lxor_0_r. Qed.
Lemma echange_1 a b : 0 <= a < 2 ^ 64 -> 0 <= b < 2 ^ 64 -> echange (2 ^ 64 - 1) a b = (b, a).
Proof.
  intros Ha Hb. unfold echange. cbv zeta.
  assert (Z.land (2 ^ 64 - 1) (Z.lxor a b) = Z.lxor a b) as ->.
  { change (2 ^ 64 - 1) with (Z.ones 64). rewrite Z.land_comm, Z.land_ones by lia. apply Z.mod_small. by apply lxor_mot. }
  f_equal; [by rewrite <- Z.lxor_assoc, Z.lxor_nilpotent, Z.lxor_0_l|].
  by rewrite (Z.lxor_comm a b), <- Z.lxor_assoc, Z.lxor_nilpotent, Z.lxor_0_l.
Qed.
Lemma echange_points_v s n bit : bit = 0 \/ bit = 1 -> vaut_points n s -> vaut_points (cswap bit n) (echange_points s bit).
Proof.
  destruct s as [[a0 a1 a2 a3 a4] [b0 b1 b2 b3 b4] [c0 c1 c2 c3 c4] [d0 d1 d2 d3 d4]]. unfold echange_points, swap_conditional, cswap.
  cbn [nqx nqz nqpqx nqpqz l0 l1 l2 l3 l4]. intros [-> | ->] H.
  { change ((0 - 0) mod 2 ^ 64) with 0. rewrite !echange_0. exact H. }
  destruct H as ([(?&?&?&?&?) Ea] & [(?&?&?&?&?) Eb] & [(?&?&?&?&?) Ec] & [(?&?&?&?&?) Ed]). cbn [nqx nqz nqpqx nqpqz l0 l1 l2 l3 l4] in *.
  change ((0 - 1) mod 2 ^ 64) with (2 ^ 64 - 1). rewrite !echange_1 by lia. cbn [fst snd Z.eqb Pos.eqb].
  by split_and!; cbn [nqx nqz nqpqx nqpqz x2 z2 x3 z3].
Qed.

(** The bits of the scalar, the strongest first. *)
Definition pas_bit (q : Z) (s : Nombres) (bit : Z) : Nombres := cswap bit (pas q (cswap bit s)).
Definition bit_de (k : Z) (i : nat) : Z := k / 2 ^ Z.of_nat i mod 2.
(** The ladder of RFC 7748 on the bits [n - 1, ..., 0] of [k]. *)
Fixpoint echelle (q k : Z) (n : nat) (s : Nombres) : Nombres :=
  match n with O => s | S n => echelle q k n (pas_bit q s (bit_de k n)) end.

Lemma bits_octet_v q x : vaut x q -> forall n byte s N, (n <= 8)%nat -> 0 <= byte < 256 -> vaut_points N s ->
  defini (bits_octet n (byte * 2 ^ (8 - Z.of_nat n) mod 256) q s) (vaut_points (echelle x byte n N)).
Proof.
  intros Hq. induction n as [|n IH]; intros byte s N Hn Hb HN; cbn [bits_octet echelle]; [by apply defini_fin|].
  set (reste := byte * 2 ^ (8 - Z.of_nat (S n)) mod 256).
  assert (Z.shiftr reste 7 = bit_de byte n) as ->.
  { subst reste. unfold bit_de. rewrite Z.shiftr_div_pow2 by lia. change 256 with (2 ^ 8).
    assert (n = 0 \/ n = 1 \/ n = 2 \/ n = 3 \/ n = 4 \/ n = 5 \/ n = 6 \/ n = 7)%nat as Hc by lia.
    destruct Hc as [->|[->|[->|[->|[->|[->|[->| ->]]]]]]];
      match goal with |- context[2 ^ (8 - Z.of_nat ?a)] => let v := eval vm_compute in (2 ^ (8 - Z.of_nat a)) in change (2 ^ (8 - Z.of_nat a)) with v end;
      match goal with |- context[2 ^ Z.of_nat ?a] => let v := eval vm_compute in (2 ^ Z.of_nat a) in change (2 ^ Z.of_nat a) with v end;
      Z.to_euclidean_division_equations; lia. }
  assert (Z.shiftl reste 1 mod 256 = byte * 2 ^ (8 - Z.of_nat n) mod 256) as ->.
  { subst reste. rewrite Z.shiftl_mul_pow2, Z.mul_mod_idemp_l by lia. rewrite <- Z.mul_assoc, <- Z.pow_add_r by lia. do 3 f_equal. lia. }
  assert (bit_de byte n = 0 \/ bit_de byte n = 1) as Hbit.
  { unfold bit_de. pose proof (Z.mod_pos_bound (byte / 2 ^ Z.of_nat n) 2 ltac:(lia)). lia. }
  eapply defini_pas; [eapply fmonty_v; [by apply (echange_points_v _ _ _ Hbit HN)|exact Hq]|]. intros s' Hs'.
  apply IH; [lia|done|]. unfold pas_bit. by apply echange_points_v.
Qed.
Lemma echelle_ext q k k' n : forall s, (forall i, (i < n)%nat -> bit_de k i = bit_de k' i) -> echelle q k n s = echelle q k' n s.
Proof. induction n as [|n IH]; intros s H; [done|]. cbn [echelle]. rewrite (H n) by lia. apply IH. intros i Hi. apply H. lia. Qed.
Lemma echelle_app q k n m : forall s, echelle q k (n + m) s = echelle q k m (echelle q (k / 2 ^ Z.of_nat m) n s).
Proof.
  induction n as [|n IH]; intros s; [done|]. cbn [Nat.add echelle]. rewrite IH. do 3 f_equal. unfold bit_de. f_equal.
  rewrite Zdiv_Zdiv, <- Z.pow_add_r by lia. do 2 f_equal. lia.
Qed.
Lemma octets_scalaire_v q x : vaut x q -> forall l s N, Forall octet l -> vaut_points N s ->
  defini (octets_scalaire (rev l) q s) (vaut_points (echelle x (from_le l) (8 * length l) N)).
Proof.
  intros Hq l. induction l as [|b l IH] using rev_ind; intros s N Hl HN; [by apply defini_fin|].
  apply Forall_app in Hl as [Hl Hb]. inversion Hb as [|? ? Ho _]; subst. rewrite rev_app_distr. cbn [rev app octets_scalaire].
  pose proof (bits_octet_v q x Hq 8 b s N ltac:(lia) Ho HN) as H8. change (8 - Z.of_nat 8) with 0 in H8. rewrite Z.mul_1_r, Z.mod_small in H8 by done.
  eapply defini_pas; [exact H8|]. intros s' Hs'. eapply defini_faible; [apply IH; [done|exact Hs']|]. intros s2 H2.
  pose proof (from_le_bound l Hl) as Bl. rewrite from_le_app. cbn [from_le].
  rewrite length_app. cbn [length]. replace (8 * (length l + 1))%nat with (8 + 8 * length l)%nat by lia. rewrite echelle_app.
  assert (256 ^ Z.of_nat (length l) = 2 ^ Z.of_nat (8 * length l)) as Ep.
  { change 256 with (2 ^ 8). rewrite <- Z.pow_mul_r by lia. f_equal. lia. }
  assert ((from_le l + 256 ^ Z.of_nat (length l) * (b + 256 * 0)) / 2 ^ Z.of_nat (8 * length l) = b) as ->.
  { rewrite <- Ep. rewrite (Z.mul_comm (256 ^ _)), Z.div_add by lia. rewrite Z.div_small by done. lia. }
  erewrite (echelle_ext _ _ (from_le l)); [exact H2|]. intros i Hi. unfold bit_de. rewrite Ep.
  replace (2 ^ Z.of_nat (8 * length l)) with (2 ^ Z.of_nat (8 * length l - i - 1) * 2 * 2 ^ Z.of_nat i).
  2: { rewrite <- (Z.pow_1_r 2) at 2. rewrite <- !Z.pow_add_r by lia. f_equal. lia. }
  replace (from_le l + 2 ^ Z.of_nat (8 * length l - i - 1) * 2 * 2 ^ Z.of_nat i * (b + 256 * 0)) with
    (from_le l + (2 ^ Z.of_nat (8 * length l - i - 1) * b) * 2 * 2 ^ Z.of_nat i) by ring.
  rewrite Z.div_add by lia. by rewrite Z.mod_add.
Qed.

(** ** The inverse *)

Definition puissance (z e : Z) (f : Felem) : Prop := vaut (z ^ e) f.
Lemma puissance_mul z e1 e2 a b : 0 <= e1 -> 0 <= e2 -> puissance z e1 a -> puissance z e2 b ->
  defini (fmul a b) (puissance z (e1 + e2)).
Proof. intros H1 H2 Ha Hb. unfold puissance. rewrite Z.pow_add_r by done. by apply fmul_v. Qed.
Lemma puissance_carres z e n a : 0 <= e -> (1 <= n)%nat -> puissance z e a -> defini (fsquare_times a n) (puissance z (e * 2 ^ Z.of_nat n)).
Proof. intros H1 Hn Ha. unfold puissance. rewrite Z.pow_mul_r by lia. by apply fsquare_times_v. Qed.
Ltac eleve x :=
  eapply defini_pas;
    [first [eapply puissance_carres; [|lia|eassumption]; by apply Z.leb_le|eapply puissance_mul; [| |eassumption|eassumption]; by apply Z.leb_le]|];
  cbv beta; intros x ?.
Lemma crecip_v f z : vaut z f -> defini (crecip f) (vaut (z ^ (p - 2))).
Proof.
  intros H. assert (puissance z 1 f) as H1 by (unfold puissance; by rewrite Z.pow_1_r). unfold crecip.
  eleve a2. eleve t8. eleve b9. eleve a11. eleve t22. eleve b5. eleve t1. eleve b10. eleve t2. eleve c20. eleve t3. eleve t40. eleve t4.
  eleve b50. eleve t5. eleve c100. eleve t6. eleve t200. eleve t7. eleve t250. eleve t8'.
  eapply defini_faible; [eapply puissance_mul; [| |eassumption|eassumption]; by apply Z.leb_le|]. intros r Hr. unfold puissance in Hr.
  match type of Hr with vaut (z ^ ?e) _ => assert (e = p - 2) as E by reflexivity; by rewrite E in Hr end.
Qed.

(** ** Octets *)

Lemma masque_div (x k : Z) : 0 <= k -> Z.land (Z.shiftr x k) MASK = x / 2 ^ k mod 2 ^ 51.
Proof. intros H. by rewrite masque, Z.shiftr_div_pow2. Qed.
Lemma rd_spec l off : Forall octet l -> (off + 8 <= length l)%nat -> rd l off = from_le l / 2 ^ (8 * Z.of_nat off) mod 2 ^ 64.
Proof.
  intros H Hl. unfold rd, slice. rewrite <- (take_drop off l) at 2. rewrite from_le_app, length_take, Nat.min_l by lia.
  assert (256 ^ Z.of_nat off = 2 ^ (8 * Z.of_nat off)) as E by (change 256 with (2 ^ 8); by rewrite <- Z.pow_mul_r by lia).
  pose proof (from_le_bound (take off l) ltac:(by apply Forall_take)) as B. rewrite length_take, Nat.min_l, E in B by lia.
  rewrite E, (Z.mul_comm (2 ^ _)), Z.div_add, (Z.div_small (from_le (take off l))), Z.add_0_l by lia.
  rewrite <- (take_drop 8 (drop off l)) at 2. rewrite from_le_app, length_take, length_drop, Nat.min_l by lia. change (256 ^ Z.of_nat 8) with (2 ^ 64).
  rewrite (Z.mul_comm (2 ^ 64)), Z.mod_add by lia. symmetry. apply Z.mod_small.
  pose proof (from_le_bound (take 8 (drop off l)) ltac:(by apply Forall_take, Forall_drop)) as B2. rewrite length_take, length_drop, Nat.min_l in B2 by lia.
  exact B2.
Qed.
Lemma div_mod_div (V a b c : Z) : 0 <= a -> 0 <= c <= b -> V / 2 ^ a mod 2 ^ b / 2 ^ c = V / 2 ^ (a + c) mod 2 ^ (b - c).
Proof.
  intros Ha Hc. rewrite <- !Z.shiftr_div_pow2, <- !Z.land_ones by lia. apply Z.bits_inj'. intros i Hi.
  rewrite Z.land_spec, !Z.shiftr_spec, Z.land_spec, Z.shiftr_spec by lia. rewrite !Z.testbit_ones by lia.
  f_equal; [f_equal; lia|]. zcas. 
Qed.
Lemma mod_mod_51 V n : 51 <= n -> V mod 2 ^ n mod 2 ^ 51 = V mod 2 ^ 51.
Proof. intros H. apply Z.mod_mod_divide. exists (2 ^ (n - 51)). rewrite <- Z.pow_add_r by lia. f_equal. lia. Qed.
(** A number and its five limbs. *)
Definition limbes (V : Z) : Felem := F (V mod 2 ^ 51) (V / 2 ^ 51 mod 2 ^ 51) (V / 2 ^ 102 mod 2 ^ 51) (V / 2 ^ 153 mod 2 ^ 51) (V / 2 ^ 204 mod 2 ^ 51).
Lemma val_limbes V : val (limbes V) = V mod 2 ^ 255.
Proof.
  unfold val, limbes. cbn [l0 l1 l2 l3 l4].
  assert (V mod 2 ^ 255 = V mod 2 ^ 204 + 2 ^ 204 * (V / 2 ^ 204 mod 2 ^ 51)) by (change (2 ^ 255) with (2 ^ 204 * 2 ^ 51); apply Z.rem_mul_r; lia).
  assert (V mod 2 ^ 204 = V mod 2 ^ 153 + 2 ^ 153 * (V / 2 ^ 153 mod 2 ^ 51)) by (change (2 ^ 204) with (2 ^ 153 * 2 ^ 51); apply Z.rem_mul_r; lia).
  assert (V mod 2 ^ 153 = V mod 2 ^ 102 + 2 ^ 102 * (V / 2 ^ 102 mod 2 ^ 51)) by (change (2 ^ 153) with (2 ^ 102 * 2 ^ 51); apply Z.rem_mul_r; lia).
  assert (V mod 2 ^ 102 = V mod 2 ^ 51 + 2 ^ 51 * (V / 2 ^ 51 mod 2 ^ 51)) by (change (2 ^ 102) with (2 ^ 51 * 2 ^ 51); apply Z.rem_mul_r; lia).
  lia.
Qed.
Lemma limbes_borne V : borne (2 ^ 51 - 1) (limbes V).
Proof.
  unfold borne, limbes. cbn [l0 l1 l2 l3 l4]. split_and!; (apply Z.mod_pos_bound; lia) || (match goal with |- ?a mod ?b <= _ => pose proof (Z.mod_pos_bound a b ltac:(lia)); lia end).
Qed.
Lemma fexpand_v l : Forall octet l -> length l = 32%nat -> vaut (from_le l mod 2 ^ 255) (fexpand l).
Proof.
  intros H Hl. unfold fexpand. rewrite !masque_div, masque by lia. rewrite !rd_spec by (done || lia).
  set (V := from_le l). rewrite !div_mod_div by lia. cbn [Z.of_nat Pos.of_succ_nat Pos.succ Z.mul Pos.mul Z.add Pos.add Z.sub Z.opp Z.pos_sub Pos.pred_double].
  rewrite !mod_mod_51 by lia. change (2 ^ (8 * Z.of_nat 0)) with 1. rewrite Z.div_1_r. change (vaut (V mod 2 ^ 255) (limbes V)). split; [|unfold eqm; by rewrite val_limbes].
  destruct (limbes_borne V) as (?&?&?&?&?). unfold borne. lia.
Qed.

(** ** The final reduction *)

Lemma propage_ok t B : borne B t -> B < 2 ^ 126 ->
  propage t = Some (F (val t mod 2 ^ 51) (val t / 2 ^ 51 mod 2 ^ 51) (val t / 2 ^ 102 mod 2 ^ 51) (val t / 2 ^ 153 mod 2 ^ 51) (val t / 2 ^ 204)).
Proof.
  destruct t as [a b c d e]. intros (H0&H1&H2&H3&H4) HB. cbn [l0 l1 l2 l3 l4] in *. unfold propage. cbn [l0 l1 l2 l3 l4]. rewrite decale51.
  assert (forall x, 0 <= x < 2 ^ 127 -> 0 <= x / 2 ^ 51 < 2 ^ 76) as Hc.
  { intros x Hx. split; [apply Z.div_pos; lia|]. apply Z.div_lt_upper_bound; lia. }
  pose proof (Hc a ltac:(lia)). rewrite u128_ok by lia. cbn [mbind option_bind]. rewrite decale51.
  set (u1 := b + a / 2 ^ 51). pose proof (Hc u1 ltac:(lia)). rewrite u128_ok by lia. cbn [mbind option_bind]. rewrite decale51.
  set (u2 := c + u1 / 2 ^ 51). pose proof (Hc u2 ltac:(lia)). rewrite u128_ok by lia. cbn [mbind option_bind]. rewrite decale51.
  set (u3 := d + u2 / 2 ^ 51). pose proof (Hc u3 ltac:(lia)). rewrite u128_ok by lia. cbn [mbind option_bind]. rewrite !masque.
  assert (forall x y, (x + 2 ^ 51 * y) mod 2 ^ 51 = x mod 2 ^ 51) as Hm by (intros x y; rewrite (Z.mul_comm (2 ^ 51)); apply Z.mod_add; lia).
  assert (forall x y, (x + 2 ^ 51 * y) / 2 ^ 51 = y + x / 2 ^ 51) as Hd by (intros x y; rewrite (Z.mul_comm (2 ^ 51)), Z.div_add by lia; lia).
  set (V := val (F a b c d e)). assert (V = a + 2 ^ 51 * (b + 2 ^ 51 * (c + 2 ^ 51 * (d + 2 ^ 51 * e)))) as E0 by (unfold V, val; cbn [l0 l1 l2 l3 l4]; ring).
  assert (V / 2 ^ 51 = u1 + 2 ^ 51 * (c + 2 ^ 51 * (d + 2 ^ 51 * e))) as E1 by (rewrite E0, Hd; unfold u1; ring).
  assert (V / 2 ^ 102 = u2 + 2 ^ 51 * (d + 2 ^ 51 * e)) as E2.
  { change (2 ^ 102) with (2 ^ 51 * 2 ^ 51). rewrite <- Zdiv_Zdiv, E1, Hd by lia. unfold u2. ring. }
  assert (V / 2 ^ 153 = u3 + 2 ^ 51 * e) as E3.
  { change (2 ^ 153) with (2 ^ 102 * 2 ^ 51). rewrite <- Zdiv_Zdiv, E2, Hd by lia. unfold u3. ring. }
  assert (V / 2 ^ 204 = e + u3 / 2 ^ 51) as E4.
  { change (2 ^ 204) with (2 ^ 153 * 2 ^ 51). rewrite <- Zdiv_Zdiv, E3, Hd by lia. ring. }
  rewrite E4, E3, E2, E1, !Hm. by rewrite E0, Hm at 1.
Qed.
(** A turn folds what is above bit 255. *)
Definition replie (V : Z) : Z := V mod 2 ^ 255 + 19 * (V / 2 ^ 255).
Lemma tour_ok t B : borne B t -> B < 2 ^ 120 ->
  defini (tour t) (fun r => val r = replie (val t) /\ r = F (val t mod 2 ^ 51 + 19 * (val t / 2 ^ 255)) (l1 (limbes (val t)))
    (l2 (limbes (val t))) (l3 (limbes (val t))) (l4 (limbes (val t)))).
Proof.
  intros Ht HB. unfold tour. rewrite (propage_ok t B) by (done || lia). cbn [mbind option_bind l0 l1 l2 l3 l4]. rewrite decale51, masque.
  rewrite Zdiv_Zdiv by lia. change (2 ^ 204 * 2 ^ 51) with (2 ^ 255). set (V := val t).
  assert (0 <= V / 2 ^ 255 < 2 ^ 71) as Hq.
  { destruct Ht as (?&?&?&?&?). unfold V, val. split; [apply Z.div_pos; lia|apply Z.div_lt_upper_bound; lia]. }
  pose proof (Z.mod_pos_bound V (2 ^ 51) ltac:(lia)). rewrite u128_ok by lia. cbn [mbind option_bind]. rewrite u128_ok by lia. cbn [mbind option_bind].
  apply defini_fin. split; [|done]. unfold replie. rewrite <- val_limbes. unfold val, limbes. cbn [l0 l1 l2 l3 l4]. ring.
Qed.

Lemma assemble x y k : 0 <= k <= 64 -> 0 <= x < 2 ^ k -> Z.lor x (Z.shiftl y k mod 2 ^ 64) = (x + 2 ^ k * y) mod 2 ^ 64.
Proof.
  intros Hk Hx. rewrite Z.shiftl_mul_pow2 by lia.
  assert (2 ^ 64 = 2 ^ k * 2 ^ (64 - k)) as E by (rewrite <- Z.pow_add_r by lia; f_equal; lia).
  rewrite E, (Z.mul_comm y), Z.mul_mod_distr_l by (apply Z.pow_nonzero; lia). rewrite Z.lor_comm, (Z.mul_comm (2 ^ k) (y mod _)), lor_disjoint by lia.
  rewrite Z.rem_mul_r by (apply Z.pow_nonzero || apply Z.pow_pos_nonneg; lia).
  rewrite (Z.mul_comm (2 ^ k) y), Z.mod_add, Z.div_add, (Z.mod_small x), (Z.div_small x), Z.add_0_l by (done || (apply Z.pow_nonzero; lia)). lia.
Qed.
Lemma to_le_somme n m z : to_le (n + m) z = to_le n z ++ to_le m (z / 256 ^ Z.of_nat n).
Proof.
  revert z. induction n as [|n IH]; intros z; [by rewrite Z.div_1_r|].
  change (to_le (S n + m) z) with (z mod 256 :: to_le (n + m) (z / 256)). change (to_le (S n) z) with (z mod 256 :: to_le n (z / 256)).
  rewrite IH, Nat2Z.inj_succ, Z.pow_succ_r, Zdiv_Zdiv by lia. done.
Qed.
Lemma to_le_reste n z : to_le n (z mod 256 ^ Z.of_nat n) = to_le n z.
Proof.
  apply from_le_inj; [apply to_le_octets|apply to_le_octets|by rewrite !length_to_le|]. rewrite !from_to_le. apply Z.mod_mod. apply Z.pow_nonzero; lia.
Qed.
Lemma octets_limbes U :
  to_le 8 (Z.lor (as_u64 (l0 (limbes U))) (Z.shiftl (as_u64 (l1 (limbes U))) 51 mod 2 ^ 64)) ++
  to_le 8 (Z.lor (Z.shiftr (as_u64 (l1 (limbes U))) 13) (Z.shiftl (as_u64 (l2 (limbes U))) 38 mod 2 ^ 64)) ++
  to_le 8 (Z.lor (Z.shiftr (as_u64 (l2 (limbes U))) 26) (Z.shiftl (as_u64 (l3 (limbes U))) 25 mod 2 ^ 64)) ++
  to_le 8 (Z.lor (Z.shiftr (as_u64 (l3 (limbes U))) 39) (Z.shiftl (as_u64 (l4 (limbes U))) 12 mod 2 ^ 64)) = to_le 32 (U mod 2 ^ 255).
Proof.
  destruct (limbes_borne U) as (Ba & Bb & Bc & Bd & Be). rewrite <- val_limbes. unfold val.
  set (a := l0 (limbes U)) in *. set (b := l1 (limbes U)) in *. set (c := l2 (limbes U)) in *. set (d := l3 (limbes U)) in *. set (e := l4 (limbes U)) in *.
  clearbody a b c d e. unfold as_u64. rewrite (Z.mod_small a), (Z.mod_small b), (Z.mod_small c), (Z.mod_small d), (Z.mod_small e) by lia.
  rewrite !Z.shiftr_div_pow2 by lia.
  assert (forall x k B, 0 <= x < 2 ^ 51 -> 0 < k -> 2 ^ 51 <= k * B -> 0 <= x / k < B) as Hd.
  { intros x k B Hx Hk HB. split; [apply Z.div_pos; lia|apply Z.div_lt_upper_bound; nia]. }
  rewrite (assemble a), (assemble (b / 2 ^ 13)), (assemble (c / 2 ^ 26)), (assemble (d / 2 ^ 39)) by (lia || (apply Hd; lia)).
  change (2 ^ 64) with (256 ^ Z.of_nat 8). rewrite !to_le_reste. change 32%nat with (8 + (8 + (8 + 8)))%nat. rewrite !to_le_somme.
  change (256 ^ Z.of_nat 8) with (2 ^ 64).
  set (N := a + 2 ^ 51 * b + 2 ^ 102 * c + 2 ^ 153 * d + 2 ^ 204 * e).
  assert (forall x y k, 0 <= x < 2 ^ k -> 0 <= k -> (x + 2 ^ k * y) / 2 ^ k = y) as Hq.
  { intros x y k Hx Hk. rewrite (Z.mul_comm (2 ^ k)), Z.div_add, Z.div_small by lia. lia. }
  assert (N / 2 ^ 64 = b / 2 ^ 13 + 2 ^ 38 * (c + 2 ^ 51 * d + 2 ^ 102 * e)) as E1.
  { change (2 ^ 64) with (2 ^ 51 * 2 ^ 13). rewrite <- Zdiv_Zdiv by lia. replace N with (a + 2 ^ 51 * (b + (2 ^ 38 * (c + 2 ^ 51 * d + 2 ^ 102 * e)) * 2 ^ 13)) by (unfold N; ring).
    rewrite Hq, Z.div_add by lia. done. }
  assert (N / 2 ^ 64 / 2 ^ 64 = c / 2 ^ 26 + 2 ^ 25 * (d + 2 ^ 51 * e)) as E2.
  { rewrite E1. change (2 ^ 64) with (2 ^ 38 * 2 ^ 26). rewrite <- Zdiv_Zdiv by lia. rewrite Hq by (lia || (apply Hd; lia)).
    replace (c + 2 ^ 51 * d + 2 ^ 102 * e) with (c + (2 ^ 25 * (d + 2 ^ 51 * e)) * 2 ^ 26) by ring. by rewrite Z.div_add. }
  assert (N / 2 ^ 64 / 2 ^ 64 / 2 ^ 64 = d / 2 ^ 39 + 2 ^ 12 * e) as E3.
  { rewrite E2. change (2 ^ 64) with (2 ^ 25 * 2 ^ 39). rewrite <- Zdiv_Zdiv by lia. rewrite Hq by (lia || (apply Hd; lia)).
    replace (d + 2 ^ 51 * e) with (d + (2 ^ 12 * e) * 2 ^ 39) by ring. by rewrite Z.div_add. }
  rewrite E3, E2, E1. assert (forall x y, to_le 8 (x + 2 ^ 64 * y) = to_le 8 x) as Hl.
  { intros x y. rewrite <- (to_le_reste 8 (x + 2 ^ 64 * y)). change (256 ^ Z.of_nat 8) with (2 ^ 64). rewrite (Z.mul_comm (2 ^ 64)), Z.mod_add by lia.
    apply (to_le_reste 8). }
  f_equal; [|f_equal; [|f_equal]].
  - replace N with ((a + 2 ^ 51 * b) + 2 ^ 64 * (2 ^ 38 * c + 2 ^ 89 * d + 2 ^ 140 * e)) by (unfold N; ring). by rewrite Hl.
  - replace (b / 2 ^ 13 + 2 ^ 38 * (c + 2 ^ 51 * d + 2 ^ 102 * e)) with ((b / 2 ^ 13 + 2 ^ 38 * c) + 2 ^ 64 * (2 ^ 25 * d + 2 ^ 76 * e)) by ring. by rewrite Hl.
  - replace (c / 2 ^ 26 + 2 ^ 25 * (d + 2 ^ 51 * e)) with ((c / 2 ^ 26 + 2 ^ 25 * d) + 2 ^ 64 * (2 ^ 12 * e)) by ring. by rewrite Hl.
Qed.

Lemma replie_eqm V : eqm p (replie V) V.
Proof.
  unfold eqm, replie. rewrite (Z.div_mod V (2 ^ 255)) at 3 by lia. rewrite <- (Z.mod_add _ (V / 2 ^ 255) p) by done. f_equal. unfold p. lia.
Qed.
Lemma fcontract_v f x : vaut x f -> fcontract f = Some (to_le 32 (x mod p)).
Proof.
  intros [Hf E]. unfold fcontract. pose proof Hf as (F0&F1&F2&F3&F4).
  assert (forall V, 0 <= V < 2 ^ 257 -> 0 <= V / 2 ^ 255 < 4) as Hq.
  { intros V HV. split; [apply Z.div_pos; lia|apply Z.div_lt_upper_bound; lia]. }
  assert (forall t, (exists V, 0 <= V < 2 ^ 257 /\ t = F (V mod 2 ^ 51 + 19 * (V / 2 ^ 255)) (l1 (limbes V)) (l2 (limbes V)) (l3 (limbes V)) (l4 (limbes V))) ->
    borne (2 ^ 51 + 100) t) as Hb.
  { intros t (V & HV & ->). pose proof (Hq V HV). destruct (limbes_borne V) as (B0&B1&B2&B3&B4). unfold limbes at 1 2 in B0. cbn [l0] in B0.
    unfold borne. cbn [l0 l1 l2 l3 l4]. lia. }
  assert (0 <= val f < 2 ^ 257) as I0 by (unfold val; lia).
  destruct (tour_ok f (2 ^ 51) Hf) as (t1 & -> & V1 & E1); [lia|]. cbn [mbind option_bind].
  assert (borne (2 ^ 51 + 100) t1) as B1 by (apply Hb; eauto). assert (0 <= val t1 < 2 ^ 255 + 100) as I1.
  { rewrite V1. unfold replie. pose proof (Z.mod_pos_bound (val f) (2 ^ 255) ltac:(lia)). pose proof (Hq _ I0). lia. }
  destruct (tour_ok t1 (2 ^ 51 + 100) B1) as (t2 & -> & V2 & E2); [lia|]. cbn [mbind option_bind].
  assert (borne (2 ^ 51 + 100) t2) as B2 by (apply Hb; exists (val t1); split; [lia|done]).
  assert (0 <= val t2 < 2 ^ 255) as I2.
  { rewrite V2. unfold replie. destruct (Z.lt_ge_cases (val t1) (2 ^ 255)); [rewrite Z.mod_small, Z.div_small by lia; lia|].
    replace (val t1) with (val t1 - 2 ^ 255 + 1 * 2 ^ 255) by lia. rewrite Z.mod_add, Z.div_add, Z.mod_small, Z.div_small by lia. lia. }
  pose proof B2 as (G0&G1&G2&G3&G4). rewrite u128_ok by lia. cbn [mbind option_bind].
  set (t3 := F (l0 t2 + 19) (l1 t2) (l2 t2) (l3 t2) (l4 t2)). assert (val t3 = val t2 + 19) as V3 by (unfold t3, val; cbn [l0 l1 l2 l3 l4]; ring).
  destruct (tour_ok t3 (2 ^ 51 + 200)) as (t4 & -> & V4 & E4); [unfold borne, t3; cbn [l0 l1 l2 l3 l4]; lia|lia|]. cbn [mbind option_bind].
  assert (borne (2 ^ 51 + 100) t4) as B4 by (apply Hb; exists (val t3); split; [lia|done]). pose proof B4 as (K0&K1&K2&K3&K4).
  unfold felem. rewrite !u128_ok by lia. cbn [mbind option_bind]. set (t5 := F _ _ _ _ _).
  assert (val t5 = val t4 + p) as V5 by (unfold t5, val, p; cbn [l0 l1 l2 l3 l4]; ring).
  rewrite (propage_ok t5 (2 ^ 53)) by (try lia; unfold borne, t5; cbn [l0 l1 l2 l3 l4]; lia). cbn [mbind option_bind l0 l1 l2 l3 l4]. cbv zeta.
  rewrite masque. f_equal. transitivity (to_le 32 (val t5 mod 2 ^ 255)); [exact (octets_limbes (val t5))|]. f_equal. rewrite V5, V4, V3.
  assert (eqm p (val t2) x) as E5 by (rewrite V2, replie_eqm, V1, replie_eqm; exact E). unfold eqm in E5. rewrite <- E5. unfold replie.
  destruct (Z.lt_ge_cases (val t2 + 19) (2 ^ 255)).
  - rewrite (Z.mod_small (val t2 + 19)), (Z.div_small (val t2 + 19)), (Z.mod_small (val t2) p) by (unfold p; lia).
    replace (val t2 + 19 + 19 * 0 + p) with (val t2 + 1 * 2 ^ 255) by (unfold p; lia). rewrite Z.mod_add by lia. apply Z.mod_small. lia.
  - replace (val t2 + 19) with (val t2 + 19 - 2 ^ 255 + 1 * 2 ^ 255) by lia. rewrite Z.mod_add, Z.div_add, (Z.mod_small (val t2 + 19 - 2 ^ 255)), (Z.div_small (val t2 + 19 - 2 ^ 255)) by lia.
    replace (val t2 + 19 - 2 ^ 255 + 19 * (0 + 1) + p) with (val t2 - p + 1 * 2 ^ 255) by (unfold p; lia). rewrite Z.mod_add by lia.
    rewrite (Z.mod_small (val t2 - p)) by (unfold p; lia). replace (val t2) with (val t2 - p + 1 * p) at 2 by lia. rewrite Z.mod_add by done.
    symmetry. apply Z.mod_small. unfold p. lia.
Qed.

(** ** The exchange *)

Lemma octet_cas (f g : Z -> Z) : forallb (fun b => f b =? g b) (Z.of_nat <$> seq 0 256) = true -> forall x, octet x -> f x = g x.
Proof.
  intros H x Hx. rewrite forallb_forall in H. apply Z.eqb_eq, H, list_elem_of_In, list_elem_of_fmap. exists (Z.to_nat x). unfold octet in Hx.
  split; [lia|]. apply elem_of_seq. lia.
Qed.
(** The scalar of RFC 7748: a multiple of 8 between 2^254 and 2^255. *)
Definition scalaire (secret : list Z) : Z := 2 ^ 254 + 8 * (from_le secret / 8 mod 2 ^ 251).
Lemma clampe_bits secret : Forall octet secret -> length secret = 32%nat ->
  Forall octet (clampe secret) /\ length (clampe secret) = 32%nat /\ from_le (clampe secret) = scalaire secret.
Proof.
  intros H Hl. destruct secret as [|b0 l]; [done|]. destruct (exists_last (l := l)) as (mid & b31 & ->); [by destruct l|].
  cbn [length] in Hl. rewrite length_app in Hl. cbn [length] in Hl. apply Forall_cons in H as [H0 H]. apply Forall_app in H as [Hm H31].
  inversion H31 as [|? ? H31' _]; subst. unfold octet in H0, H31'.
  assert (clampe (b0 :: mid ++ [b31]) = (Z.land b0 248) :: mid ++ [Z.lor (Z.land b31 127) 64]) as ->.
  { assert (forall x y z, aset (x :: mid ++ [y]) 31 z = x :: mid ++ [z]) as Ea.
    { intros x y z. unfold aset. change (x :: mid ++ [y]) with ((x :: mid) ++ [y]). rewrite insert_app_r_alt by (cbn [length]; lia).
      replace (Z.to_nat 31 - length (x :: mid))%nat with 0%nat by (cbn [length]; lia). done. }
    assert (forall x y, aget (x :: mid ++ [y]) 31 = y) as Eg.
    { intros x y. unfold aget. change (x :: mid ++ [y]) with ((x :: mid) ++ [y]). rewrite list_lookup_middle; [done|]. cbn [length]. lia. }
    unfold clampe. cbv zeta. change (aset (b0 :: mid ++ [b31]) 0 (Z.land (aget (b0 :: mid ++ [b31]) 0) 248)) with (Z.land b0 248 :: mid ++ [b31]).
    by rewrite !Eg, !Ea, !Eg. }
  assert (Z.land b0 248 = 8 * (b0 / 8)) as -> by (by apply (octet_cas (fun b => Z.land b 248) (fun b => 8 * (b / 8)))).
  assert (Z.lor (Z.land b31 127) 64 = 64 + b31 mod 64) as -> by (by apply (octet_cas (fun b => Z.lor (Z.land b 127) 64) (fun b => 64 + b mod 64))).
  assert (0 <= b0 / 8 < 32) as B0 by (split; [apply Z.div_pos; lia|apply Z.div_lt_upper_bound; lia]).
  pose proof (Z.mod_pos_bound b31 64 ltac:(lia)) as B31. split_and!.
  - constructor; [unfold octet; lia|]. apply Forall_app. split; [done|]. constructor; [unfold octet; lia|constructor].
  - cbn [length]. rewrite length_app. cbn [length]. lia.
  - pose proof (from_le_bound mid Hm) as Bm. unfold scalaire. cbn [from_le]. rewrite !from_le_app. cbn [from_le]. rewrite !Z.mul_0_r, !Z.add_0_r.
    replace (length mid) with 30%nat in * by lia. change (256 ^ Z.of_nat 30) with (2 ^ 240) in *. set (M := from_le mid) in *. clearbody M.
    replace (b0 + 256 * (M + 2 ^ 240 * b31)) with (b0 + (32 * (M + 2 ^ 240 * b31)) * 8) by ring. rewrite Z.div_add by lia.
    assert ((b0 / 8 + 32 * (M + 2 ^ 240 * b31)) mod 2 ^ 251 = b0 / 8 + 32 * M + 2 ^ 245 * (b31 mod 64)) as ->; [|lia].
    rewrite (Z.div_mod b31 64) at 1 by lia.
    replace (b0 / 8 + 32 * (M + 2 ^ 240 * (64 * (b31 / 64) + b31 mod 64))) with (b0 / 8 + 32 * M + 2 ^ 245 * (b31 mod 64) + b31 / 64 * 2 ^ 251) by ring.
    rewrite Z.mod_add by lia. apply Z.mod_small. lia.
Qed.

Lemma un_v : vaut 1 un /\ vaut 0 nul.
Proof. by repeat split; unfold borne; cbn. Qed.
Definition depart (u : Z) : Nombres := mk_nombres 1 0 u 1.
(** The x-coordinate at the end of the ladder. *)
Definition resultat (n : Nombres) : Z := x2 n * z2 n ^ (p - 2) mod p.
Lemma x25519_v secret basepoint : Forall octet secret -> length secret = 32%nat -> Forall octet basepoint -> length basepoint = 32%nat ->
  x25519 secret basepoint =
  Some (to_le 32 (resultat (echelle (from_le basepoint mod 2 ^ 255) (scalaire secret) 256 (depart (from_le basepoint mod 2 ^ 255))))).
Proof.
  intros Hs Ls Hb Lb. destruct (clampe_bits secret Hs Ls) as (Hc & Lc & Ec). pose proof (fexpand_v basepoint Hb Lb) as Hq.
  set (u := from_le basepoint mod 2 ^ 255) in *. unfold x25519, cmult. destruct un_v as [H1 H0].
  destruct (octets_scalaire_v (fexpand basepoint) u Hq (clampe secret) (mk_points un nul (fexpand basepoint) un) (depart u) Hc) as (r & -> & Hr).
  { by split_and!. }
  rewrite Ec, Lc in Hr. cbn [mbind option_bind]. destruct Hr as (Hx & Hz & _). destruct (crecip_v _ _ Hz) as (zi & -> & Hzi). cbn [mbind option_bind].
  destruct (fmul_v _ _ _ _ Hx Hzi) as (out & -> & Hout). cbn [mbind option_bind]. by rewrite (fcontract_v _ _ Hout).
Qed.

(** The key exchange is X25519. On any two strings of 32 octets the code of five 64-bit
    limbs answers, with no overflow of a sum, a difference or a product on the way, the
    little-endian octets of what RFC 7748 defines: the Montgomery ladder on the clamped scalar, from
    the coordinate with its last bit dropped, divided by the exponent p - 2, reduced below
    p = 2^255 - 19. (The code takes one more turn than the RFC, on bit 255, which is 0.) *)
Theorem x25519_exacte secret basepoint :
  Forall octet secret -> length secret = 32%nat -> Forall octet basepoint -> length basepoint = 32%nat ->
  let u := from_le basepoint mod 2 ^ 255 in
  let k := 2 ^ 254 + 8 * (from_le secret / 8 mod 2 ^ 251) in
  bit_de k 255 = 0 /\
  x25519 secret basepoint = Some (to_le 32 (resultat (echelle u k 256 (depart u)))).
Proof.
  intros Hs Ls Hb Lb. cbv zeta. split; [|by apply x25519_v]. unfold bit_de.
  pose proof (Z.mod_pos_bound (from_le secret / 8) (2 ^ 251) ltac:(lia)). change (2 ^ Z.of_nat 255) with (2 ^ 255). rewrite Z.div_small by lia. done.
Qed.
Lemma x25519_exacte_witness :
  let secret := replicate 32 3 in let basepoint := 9 :: replicate 31 0 in
  let u := from_le basepoint mod 2 ^ 255 in
  let k := 2 ^ 254 + 8 * (from_le secret / 8 mod 2 ^ 251) in
  bit_de k 255 = 0 /\ x25519 secret basepoint = Some (to_le 32 (resultat (echelle u k 256 (depart u)))).
Proof.
  apply (x25519_exacte (replicate 32 3) (9 :: replicate 31 0));
    [by apply Forall_replicate|reflexivity|constructor; [done|by apply Forall_replicate]|reflexivity].
Defined.

(** The coordinate 0 of the peer gives the secret 0, whatever the key. *)
Lemma pas_nul a : exists a', pas 0 (mk_nombres a 0 0 0) = mk_nombres a' 0 0 0.
Proof. eexists. unfold pas. cbn [x2 z2 x3 z3]. cbv zeta. f_equal; ring. Qed.
Lemma pas_nul' a : pas 0 (mk_nombres 0 0 a 0) = mk_nombres 0 0 0 0.
Proof. unfold pas. cbn [x2 z2 x3 z3]. cbv zeta. f_equal; ring. Qed.
Lemma echelle_nulle k n : forall a, exists a', echelle 0 k n (mk_nombres a 0 0 0) = mk_nombres a' 0 0 0.
Proof.
  induction n as [|n IH]; intros a; cbn [echelle]; [by eexists|]. unfold pas_bit, cswap. destruct (bit_de k n =? 1); cbn [x2 z2 x3 z3].
  - rewrite pas_nul'. apply IH.
  - destruct (pas_nul a) as (a' & ->). apply IH.
Qed.
Lemma secret_nul secret : Forall octet secret -> length secret = 32%nat -> x25519 secret (replicate 32 0) = Some (replicate 32 0).
Proof.
  intros Hs Ls. rewrite x25519_v by (done || by apply Forall_replicate). change (from_le (replicate 32 0) mod 2 ^ 255) with 0.
  change (echelle 0 (scalaire secret) 256 (depart 0)) with (echelle 0 (scalaire secret) 255 (pas_bit 0 (depart 0) (bit_de (scalaire secret) 255))).
  assert (bit_de (scalaire secret) 255 = 0) as ->.
  { unfold bit_de, scalaire. pose proof (Z.mod_pos_bound (from_le secret / 8) (2 ^ 251) ltac:(lia)). change (2 ^ Z.of_nat 255) with (2 ^ 255).
    rewrite Z.div_small by lia. done. }
  change (pas_bit 0 (depart 0) 0) with (mk_nombres 1 0 0 0). destruct (echelle_nulle (scalaire secret) 255 1) as (a & ->).
  unfold resultat. cbn [x2 z2]. rewrite Z.pow_0_l by done. rewrite Z.mul_0_r. reflexivity.
Qed.
End X25519Proofs.
