(* ===== verification/Certificats.v ===== *)
(** The certificates of the TLS client: [src/net/security/tls/asn1.rs] (a reader of DER),
    [x509.rs] (parsing, signatures, host names), [roots.rs] (the trust anchors) and
    [validate.rs] (the chain). A string is the list of its UTF-8 octets. Where a step of the
    code can stop the kernel its model gives an outer [None]. *)

From S2P Require Import Prelude GrandsEntiers Hachage Rsa Courbes.

(** ** [asn1.rs] *)
Module Asn1.
Open Scope Z_scope.

Definition TAG_BOOLEAN : Z := 0x01.
Definition TAG_UTCTIME : Z := 0x17.
Definition TAG_SEQUENCE : Z := 0x30.

Record Der := mk_der { tag : Z; content : list Z; full : list Z }.

(** [for i in 0..num { l = (l << 8) | data[2 + i] }] *)
Definition longueur (l : list Z) : Z := fold_left (fun l b => Z.lor (Z.shiftl l 8) b) l 0.
(** The length and the size of the header. *)
Definition entete (data : list Z) : option (Z * Z) :=
  let first := aget data 1 in
  if Z.land first 0x80 =? 0 then Some (first, 2)
  else
    let num := Z.land first 0x7f in
    if (num =? 0) || (4 <? num) || (Z.of_nat (length data) <? 2 + num) then None
    else Some (longueur (slice data 2 (Z.to_nat num)), 2 + num).
(** An element and what follows it. *)
Definition read (data : list Z) : option (Der * list Z) :=
  if (length data <? 2)%nat then None
  else
    '(len, header) ← entete data;
    if Z.of_nat (length data) <? header + len then None
    else
      let fin := Z.to_nat (header + len) in
      Some (mk_der (aget data 0) (slice data (Z.to_nat header) (Z.to_nat len)) (take fin data), drop fin data).
Definition read_tag (data : list Z) (t : Z) : option (Der * list Z) :=
  '(e, rest) ← read data;
  if negb (tag e =? t) then None else Some (e, rest).

(** The state of the iterator is the rest of the content. *)
Definition children (d : Der) : list Z := content d.
Definition next (rest : list Z) : option (Der * list Z) :=
  match rest with [] => None | _ => read rest end.
Definition first_child (d : Der) : option Der := fst <$> next (children d).
(** The elements a [for] loop visits; each takes two octets at least. *)
Fixpoint elements (tours : nat) (rest : list Z) : list Der :=
  match tours with
  | O => []
  | S tours => match next rest with Some (e, rest) => e :: elements tours rest | None => [] end
  end.
Definition tous_les (rest : list Z) : list Der := elements (length rest) rest.
End Asn1.

(** ** [x509.rs] *)
Module X509.
Import Asn1.
Open Scope Z_scope.

Definition OID_RSA_ENCRYPTION : list Z := [0x2a; 0x86; 0x48; 0x86; 0xf7; 0x0d; 0x01; 0x01; 0x01].
Definition OID_SHA256_RSA : list Z := [0x2a; 0x86; 0x48; 0x86; 0xf7; 0x0d; 0x01; 0x01; 0x0b].
Definition OID_RSA_PSS : list Z := [0x2a; 0x86; 0x48; 0x86; 0xf7; 0x0d; 0x01; 0x01; 0x0a].
Definition OID_EC_PUBKEY : list Z := [0x2a; 0x86; 0x48; 0xce; 0x3d; 0x02; 0x01].
Definition OID_P256 : list Z := [0x2a; 0x86; 0x48; 0xce; 0x3d; 0x03; 0x01; 0x07].
Definition OID_P384 : list Z := [0x2b; 0x81; 0x04; 0x00; 0x22].
Definition OID_ECDSA_SHA256 : list Z := [0x2a; 0x86; 0x48; 0xce; 0x3d; 0x04; 0x03; 0x02].
Definition OID_ECDSA_SHA384 : list Z := [0x2a; 0x86; 0x48; 0xce; 0x3d; 0x04; 0x03; 0x03].
Definition OID_SAN : list Z := [0x55; 0x1d; 0x11].
Definition OID_BASIC_CONSTRAINTS : list Z := [0x55; 0x1d; 0x13].

Inductive SigAlg := RsaPkcs1Sha256 | RsaPss | EcdsaP256Sha256 | EcdsaP384Sha384 | UnknownAlg.
Inductive PubKey :=
| RsaKey (n e : list Z)
| EcP256 (point : list Z)
| EcP384 (point : list Z)
| UnknownKey.
#[global] Instance SigAlg_eq_dec : EqDecision SigAlg.
Proof. solve_decision. Defined.
#[global] Instance PubKey_eq_dec : EqDecision PubKey.
Proof. solve_decision. Defined.

Record Certificate := mk_cert {
  tbs : list Z; sig_alg : SigAlg; signature : list Z; subject : list Z; issuer : list Z;
  pubkey : PubKey; not_before : Z; not_after : Z; san_dns : list (list Z); is_ca : bool }.

Definition alg_from_oid (oid : list Z) : SigAlg :=
  if bool_decide (oid = OID_SHA256_RSA) then RsaPkcs1Sha256
  else if bool_decide (oid = OID_RSA_PSS) then RsaPss
  else if bool_decide (oid = OID_ECDSA_SHA256) then EcdsaP256Sha256
  else if bool_decide (oid = OID_ECDSA_SHA384) then EcdsaP384Sha384
  else UnknownAlg.

(** [(c - b'0') as u64] on octets: below ['0'] the kernel stops. *)
Definition digit (c : Z) : option Z := if c <? 48 then None else Some (c - 48).
Definition two (s : list Z) (i : Z) : option Z :=
  if i + 1 <? Z.of_nat (length s) then
    a ← digit (aget s i);
    b ← digit (aget s (i + 1));
    Some (a * 10 + b)
  else Some 0.
Definition parse_time (d : Der) : option Z :=
  let s := content d in
  if (tag d =? TAG_UTCTIME) && (12 <=? Z.of_nat (length s)) then
    yy ← two s 0;
    let year := if 50 <=? yy then 1900 + yy else 2000 + yy in
    mois ← two s 2; jour ← two s 4; heure ← two s 6; minute ← two s 8; seconde ← two s 10;
    Some (year * 10000000000 + mois * 100000000 + jour * 1000000 + heure * 10000 + minute * 100 + seconde)
  else if 14 <=? Z.of_nat (length s) then
    siecle ← two s 0; an ← two s 2;
    mois ← two s 4; jour ← two s 6; heure ← two s 8; minute ← two s 10; seconde ← two s 12;
    Some ((siecle * 100 + an) * 10000000000 + mois * 100000000 + jour * 1000000 + heure * 10000 + minute * 100 + seconde)
  else Some 0.

Definition parse_pubkey (spki : Der) : PubKey :=
  match next (children spki) with
  | None => UnknownKey
  | Some (alg, it) =>
  match next it with
  | None => UnknownKey
  | Some (key_bs, _) =>
  match first_child alg with
  | None => UnknownKey
  | Some alg_oid =>
  match content key_bs with
  | [] => UnknownKey
  | _ :: key_bytes =>
      if bool_decide (content alg_oid = OID_RSA_ENCRYPTION) then
        match read_tag key_bytes TAG_SEQUENCE with
        | None => UnknownKey
        | Some (seq, _) =>
            match next (children seq) with
            | None => UnknownKey
            | Some (n, ki) => match next ki with None => UnknownKey | Some (e, _) => RsaKey (content n) (content e) end
            end
        end
      else if bool_decide (content alg_oid = OID_EC_PUBKEY) then
        match next (children alg) with
        | None => UnknownKey
        | Some (_, ai) =>
            match next ai with
            | None => UnknownKey
            | Some (curve, _) =>
                if bool_decide (content curve = OID_P256) then EcP256 key_bytes
                else if bool_decide (content curve = OID_P384) then EcP384 key_bytes
                else UnknownKey
            end
        end
      else UnknownKey
  end end end end.

Definition avec_san (noms : list (list Z)) (c : Certificate) : Certificate :=
  mk_cert (tbs c) (sig_alg c) (signature c) (subject c) (issuer c) (pubkey c) (not_before c) (not_after c) noms (is_ca c).
Definition avec_ca (b : bool) (c : Certificate) : Certificate :=
  mk_cert (tbs c) (sig_alg c) (signature c) (subject c) (issuer c) (pubkey c) (not_before c) (not_after c) (san_dns c) b.

(** [s.push(b as char)]: a character of Latin-1, in UTF-8. *)
Definition push_char (s : list Z) (b : Z) : list Z :=
  if b <? 128 then s ++ [b] else s ++ [Z.lor 0xc0 (Z.shiftr b 6); Z.lor 0x80 (Z.land b 0x3f)].
Definition ajoute_nom (c : Certificate) (name : Der) : Certificate :=
  if tag name =? 0x82 then avec_san (san_dns c ++ [fold_left push_char (content name) []]) c else c.
Definition parse_san (octet_content : list Z) (c : Certificate) : Certificate :=
  match read_tag octet_content TAG_SEQUENCE with
  | None => c
  | Some (seq, _) => fold_left ajoute_nom (tous_les (children seq)) c
  end.
Definition parse_basic_constraints (octet_content : list Z) (c : Certificate) : Certificate :=
  match read_tag octet_content TAG_SEQUENCE with
  | None => c
  | Some (seq, _) =>
      match first_child seq with
      | None => c
      | Some first =>
          match content first with
          | x :: _ => if tag first =? TAG_BOOLEAN then avec_ca (negb (x =? 0)) c else c
          | [] => c
          end
      end
  end.
(** One extension. *)
Definition parse_extension (c : Certificate) (ext : Der) : Certificate :=
  match next (children ext) with
  | None => c
  | Some (oid, ei) =>
      let suivant :=
        match next ei with
        | Some (n, ei) => if tag n =? TAG_BOOLEAN then fst <$> next ei else Some n
        | None => None
        end in
      match suivant with
      | None => c
      | Some val =>
          if bool_decide (content oid = OID_SAN) then parse_san (content val) c
          else if bool_decide (content oid = OID_BASIC_CONSTRAINTS) then parse_basic_constraints (content val) c
          else c
      end
  end.
Definition parse_champ (c : Certificate) (champ : Der) : Certificate :=
  if tag champ =? 0xa3 then
    match first_child champ with
    | Some exts => fold_left parse_extension (tous_les (children exts)) c
    | None => c
    end
  else c.
Definition parse_extensions (tbs_children : list Z) (c : Certificate) : Certificate :=
  fold_left parse_champ (tous_les tbs_children) c.

(** [o?] in a function whose model can stop: the inner [None] is that of the code. *)
Definition ou_rien {A B} (o : option A) (k : A -> option (option B)) : option (option B) :=
  match o with Some a => k a | None => Some None end.
Definition periode (validity : Der) : option (Z * Z) :=
  match next (children validity) with
  | None => Some (0, u64_max)
  | Some (nb, vi) =>
      match next vi with
      | None => Some (0, u64_max)
      | Some (na, _) => debut ← parse_time nb; fin ← parse_time na; Some (debut, fin)
      end
  end.
Definition parse (der : list Z) : option (option Certificate) :=
  ou_rien (read_tag der TAG_SEQUENCE) (fun '(cert_seq, _) =>
  ou_rien (next (children cert_seq)) (fun '(tbs, top) =>
  ou_rien (next top) (fun '(sig_alg_id, top) =>
  ou_rien (next top) (fun '(sig_bs, _) =>
  ou_rien (first_child sig_alg_id) (fun sig_oid =>
  ou_rien (match content sig_bs with [] => None | _ :: s => Some s end) (fun signature =>
  ou_rien (next (children tbs)) (fun '(first, tc) =>
  ou_rien (if tag first =? 0xa0 then snd <$> next tc else Some tc) (fun tc =>
  ou_rien (next tc) (fun '(_, tc) =>
  ou_rien (next tc) (fun '(issuer, tc) =>
  ou_rien (next tc) (fun '(validity, tc) =>
  ou_rien (next tc) (fun '(subject, tc) =>
  ou_rien (next tc) (fun '(spki, tc) =>
  '(debut, fin) ← periode validity;
  Some (Some (parse_extensions tc
    (mk_cert (full tbs) (alg_from_oid (content sig_oid)) signature (full subject) (full issuer)
       (parse_pubkey spki) debut fin [] false)))))))))))))))).

(** [while i + 1 < b.len() && b[i] == 0 { i += 1; }] *)
Definition strip0 (b : list Z) : list Z := BigUint.garde_un b.
Definition verify_ecdsa_der (sig : list Z) (f : list Z -> list Z -> option bool) : option bool :=
  match read_tag sig TAG_SEQUENCE with
  | None => Some false
  | Some (seq, _) =>
      match next (children seq) with
      | None => Some false
      | Some (r, si) =>
          match next si with
          | None => Some false
          | Some (s, _) => f (strip0 (content r)) (strip0 (content s))
          end
      end
  end.
Definition verify_signed_by (child : Certificate) (issuer_pubkey : PubKey) : option bool :=
  match sig_alg child, issuer_pubkey with
  | RsaPkcs1Sha256, RsaKey n e => Rsa.verify_pkcs1_sha256 (Rsa.new n e) (tbs child) (signature child)
  | RsaPss, RsaKey n e => Rsa.verify_pss_sha256 (Rsa.new n e) (tbs child) (signature child)
  | EcdsaP256Sha256, EcP256 point =>
      verify_ecdsa_der (signature child) (fun r s => Ec.verify_ecdsa_sha256 point (tbs child) r s)
  | EcdsaP384Sha384, EcP384 point =>
      verify_ecdsa_der (signature child) (fun r s => Ec.verify_ecdsa_sha384 point (tbs child) r s)
  | _, _ => Some false
  end.

(** ** Host names *)

Definition to_ascii_lowercase (x : Z) : Z := if (65 <=? x) && (x <=? 90) then x + 32 else x.
Definition eq_ci (a b : list Z) : bool :=
  if negb (length a =? length b)%nat then false
  else forallb (fun '(x, y) => to_ascii_lowercase x =? to_ascii_lowercase y) (zip a b).
(** What follows the first dot. *)
Fixpoint apres_point (host : list Z) : option (list Z) :=
  match host with [] => None | x :: host => if x =? 46 then Some host else apres_point host end.
Definition san_match (pattern host : list Z) : bool :=
  match pattern with
  | 42 :: 46 :: rest => match apres_point host with Some suite => eq_ci suite rest | None => false end
  | _ => eq_ci pattern host
  end.
Definition matches_hostname (c : Certificate) (host : list Z) : bool :=
  existsb (fun san => san_match san host) (san_dns c).
End X509.

(** ** [roots.rs] and [validate.rs] *)
Module Validate.
Import X509.
Open Scope Z_scope.

Definition meme_cle_publique (a b : PubKey) : bool :=
  match a, b with
  | RsaKey an ae, RsaKey bn be => bool_decide (an = bn) && bool_decide (ae = be)
  | EcP256 ap, EcP256 bp => bool_decide (ap = bp)
  | EcP384 ap, EcP384 bp => bool_decide (ap = bp)
  | _, _ => false
  end.

(** The octets embedded in the kernel. *)
Section Magasin.
Context (ROOTS_DER : list (list Z)).

Fixpoint issuer_dans (roots : list (list Z)) (child : Certificate) : option (option Certificate) :=
  match roots with
  | [] => Some None
  | der :: roots =>
      r ← parse der;
      match r with
      | None => issuer_dans roots child
      | Some root =>
          if bool_decide (subject root = issuer child) then
            ok ← verify_signed_by child (pubkey root);
            if (ok : bool) then Some (Some root) else issuer_dans roots child
          else issuer_dans roots child
      end
  end.
Definition find_issuer_for (child : Certificate) : option (option Certificate) := issuer_dans ROOTS_DER child.
Fixpoint anchor_dans (roots : list (list Z)) (cert : Certificate) : option (option Certificate) :=
  match roots with
  | [] => Some None
  | der :: roots =>
      r ← parse der;
      match r with
      | None => anchor_dans roots cert
      | Some root =>
          if bool_decide (subject root = subject cert) && meme_cle_publique (pubkey root) (pubkey cert)
          then Some (Some root) else anchor_dans roots cert
      end
  end.
Definition find_equivalent_anchor (cert : Certificate) : option (option Certificate) := anchor_dans ROOTS_DER cert.

(** The messages of [detail], and the names of [anchor]. *)
Inductive Detail :=
| Vide | AucunCertificat | NomNonCouvert | CompleteEquivalente | ValideExpiree | Complete
| AncreInconnue | Incoherents | SignataireSansCa | SignatureInvalide.
Inductive Anchor := SubjectSpki | Issuer.
Record ChainResult := mk_res { trusted : bool; hostname_ok : bool; expired : bool; anchor : option Anchor; detail : Detail }.

(** The certificates from [certs[i]]. *)
Fixpoint parcours (certs : list Certificate) (now : Z) (res : ChainResult) : option ChainResult :=
  match certs with
  | [] => Some res
  | courant :: reste =>
      eq ← find_equivalent_anchor courant;
      match eq with
      | Some _ =>
          Some (mk_res true (hostname_ok res) (expired res) (Some SubjectSpki)
                  (if negb (hostname_ok res) then NomNonCouvert else CompleteEquivalente))
      | None =>
          let exp := if negb (now =? 0) && ((now <? not_before courant) || (not_after courant <? now))
                     then true else expired res in
          sg ← find_issuer_for courant;
          match sg with
          | Some _ =>
              Some (mk_res true (hostname_ok res) exp (Some Issuer)
                      (if exp then ValideExpiree else if negb (hostname_ok res) then NomNonCouvert else Complete))
          | None =>
              let echec d := Some (mk_res (trusted res) (hostname_ok res) exp (anchor res) d) in
              match reste with
              | [] => echec AncreInconnue
              | suivant :: _ =>
                  if negb (bool_decide (issuer courant = subject suivant)) then echec Incoherents
                  else if negb (is_ca suivant) then echec SignataireSansCa
                  else
                    ok ← verify_signed_by courant (pubkey suivant);
                    if negb ok then echec SignatureInvalide
                    else parcours reste now (mk_res (trusted res) (hostname_ok res) exp (anchor res) (detail res))
              end
          end
      end
  end.
Definition validate (certs : list Certificate) (hostname : list Z) (now : Z) : option ChainResult :=
  match certs with
  | [] => Some (mk_res false false false None AucunCertificat)
  | feuille :: _ => parcours certs now (mk_res false (matches_hostname feuille hostname) false None Vide)
  end.
Fixpoint parse_chain (ders : list (list Z)) : option (list Certificate) :=
  match ders with
  | [] => Some []
  | d :: ders =>
      c ← parse d;
      out ← parse_chain ders;
      Some (match c with Some c => c :: out | None => out end)
  end.
End Magasin.
End Validate.

(** Proofs on the certificates: the chain that is trusted, what is read back of a certificate,
    and which computations answer. *)

(** ** DER *)
Module Asn1Proofs.
Import Asn1.
Import BigUintProofs(from_be, to_be, length_to_be, to_be_octets, from_to_be, from_be_app).
Open Scope Z_scope.

(** An encoder, with the shortest length. *)
Definition long_de (n : Z) : list Z :=
  if n <? 128 then [n]
  else if n <? 2 ^ 8 then 0x81 :: to_be 1 n
  else if n <? 2 ^ 16 then 0x82 :: to_be 2 n
  else if n <? 2 ^ 24 then 0x83 :: to_be 3 n
  else 0x84 :: to_be 4 n.
Definition der (t : Z) (c : list Z) : list Z := t :: long_de (Z.of_nat (length c)) ++ c.
Definition elt (t : Z) (c : list Z) : Der := mk_der t c (der t c).

Lemma longueur_from_be l : Forall octet l -> longueur l = from_be l.
Proof.
  unfold longueur. induction l as [|x l IH] using rev_ind; intros H; [done|]. apply Forall_app in H as [Hl Hx].
  rewrite fold_left_app, IH, from_be_app by done. cbn [fold_left length]. inversion Hx as [|? ? Ho _]; subst. unfold octet in Ho.
  rewrite Z.shiftl_mul_pow2, (lor_disjoint 8) by lia. change (256 ^ Z.of_nat 1) with (2 ^ 8). unfold from_be. cbn. lia.
Qed.

(** The header of an element whose length takes [k] octets. *)
Lemma entete_longue t k n suite : (1 <= k <= 4)%nat -> 0 <= n < 256 ^ Z.of_nat k ->
  entete (t :: (0x80 + Z.of_nat k) :: to_be k n ++ suite) = Some (n, 2 + Z.of_nat k).
Proof.
  intros Hk Hn. unfold entete. change (aget (t :: (0x80 + Z.of_nat k) :: to_be k n ++ suite) 1) with (0x80 + Z.of_nat k).
  assert (Z.land (0x80 + Z.of_nat k) 0x80 = 0x80 /\ Z.land (0x80 + Z.of_nat k) 0x7f = Z.of_nat k) as [-> ->].
  { assert (k = 1 \/ k = 2 \/ k = 3 \/ k = 4)%nat as Hc by lia. destruct Hc as [->|[->|[->| ->]]]; split; reflexivity. }
  cbn [Z.eqb]. cbv zeta.
  assert ((Z.of_nat k =? 0) || (4 <? Z.of_nat k) || (Z.of_nat (length (t :: 128 + Z.of_nat k :: to_be k n ++ suite)) <? 2 + Z.of_nat k) = false) as ->.
  { cbn [length]. rewrite length_app, length_to_be, !orb_false_iff, Z.eqb_neq, !Z.ltb_ge. lia. }
  rewrite Nat2Z.id. change (slice (t :: 128 + Z.of_nat k :: to_be k n ++ suite) 2 k) with (take k (to_be k n ++ suite)).
  rewrite take_app_length' by (symmetry; apply length_to_be). rewrite longueur_from_be, from_to_be by (done || apply to_be_octets). done.
Qed.
Lemma entete_der t n suite : 0 <= n < 2 ^ 32 -> entete (t :: long_de n ++ suite) = Some (n, 1 + Z.of_nat (length (long_de n))).
Proof.
  intros Hn. unfold long_de. destruct (Z.ltb_spec n 128) as [H7|].
  { unfold entete. cbn [app]. change (aget (t :: n :: suite) 1) with n.
    assert (Z.land n 128 = 0) as ->; [|done].
    apply Z.bits_inj'. intros i Hi. rewrite Z.land_spec, Z.bits_0. change 128 with (2 ^ 7). rewrite Z.pow2_bits_eqb by lia.
    destruct (Z.eqb_spec 7 i) as [<-|]; [|apply andb_false_r]. rewrite andb_true_r. destruct (Z.eq_dec n 0) as [->|]; [apply Z.bits_0|].
    apply Z.bits_above_log2; [lia|]. apply Z.log2_lt_pow2; lia. }
  repeat match goal with |- context[if ?a <? ?b then _ else _] => destruct (Z.ltb_spec a b) end; cbn [app length];
    rewrite length_to_be;
    [apply (entete_longue t 1)|apply (entete_longue t 2)|apply (entete_longue t 3)|apply (entete_longue t 4)]; lia.
Qed.
Lemma length_der t c : length (der t c) = (1 + length (long_de (Z.of_nat (length c))) + length c)%nat.
Proof. unfold der. cbn [length]. rewrite length_app. lia. Qed.
Lemma long_de_1 n : (1 <= length (long_de n))%nat.
Proof. unfold long_de. repeat match goal with |- context[if ?b then _ else _] => destruct b end; cbn [length]; lia. Qed.

(** What is encoded is read, whatever follows. *)
Lemma read_der t c suite : Z.of_nat (length c) < 2 ^ 32 -> read (der t c ++ suite) = Some (elt t c, suite).
Proof.
  intros Hc. pose proof (length_der t c) as Hl. pose proof (long_de_1 (Z.of_nat (length c))) as H1. unfold read.
  destruct (Nat.ltb_spec (length (der t c ++ suite)) 2) as [H|_]; [rewrite length_app in H; lia|].
  assert (entete (der t c ++ suite) = Some (Z.of_nat (length c), 1 + Z.of_nat (length (long_de (Z.of_nat (length c)))))) as ->.
  { unfold der. rewrite <- app_comm_cons, <- app_assoc. apply entete_der. lia. }
  cbn [mbind option_bind]. cbv zeta.
  destruct (Z.ltb_spec (Z.of_nat (length (der t c ++ suite))) (1 + Z.of_nat (length (long_de (Z.of_nat (length c)))) + Z.of_nat (length c))) as [H|_];
    [rewrite length_app in H; lia|].
  replace (Z.to_nat (1 + Z.of_nat (length (long_de (Z.of_nat (length c)))) + Z.of_nat (length c))) with (length (der t c)) by lia.
  rewrite take_app_length, drop_app_length, !Nat2Z.id. unfold elt. do 3 f_equal.
  unfold slice. replace (Z.to_nat (1 + Z.of_nat (length (long_de (Z.of_nat (length c)))))) with (S (length (long_de (Z.of_nat (length c))))) by lia.
  unfold der. cbn [app drop]. rewrite <- app_assoc, drop_app_length. apply take_app_length.
Qed.
Lemma next_der t c suite : Z.of_nat (length c) < 2 ^ 32 -> next (der t c ++ suite) = Some (elt t c, suite).
Proof. intros H. rewrite <- (read_der t c suite H). done. Qed.
Lemma next_der_seul t c : Z.of_nat (length c) < 2 ^ 32 -> next (der t c) = Some (elt t c, []).
Proof. intros H. rewrite <- (app_nil_r (der t c)) at 1. by apply next_der. Qed.
Lemma read_tag_der t c suite : Z.of_nat (length c) < 2 ^ 32 -> read_tag (der t c ++ suite) t = Some (elt t c, suite).
Proof. intros H. unfold read_tag. rewrite read_der by done. cbn [mbind option_bind tag elt]. by rewrite Z.eqb_refl. Qed.
Lemma first_child_der t t' c suite : Z.of_nat (length c) < 2 ^ 32 -> first_child (elt t (der t' c ++ suite)) = Some (elt t' c).
Proof. intros H. unfold first_child. change (children (elt t (der t' c ++ suite))) with (der t' c ++ suite). by rewrite next_der. Qed.

(** A loop visits the elements one after the other. *)
Lemma tous_les_der l : Forall (fun e => Z.of_nat (length e.2) < 2 ^ 32) l ->
  tous_les (concat ((fun e => der e.1 e.2) <$> l)) = (fun e => elt e.1 e.2) <$> l.
Proof.
  unfold tous_les. intros H. assert (length l <= length (concat ((fun e => der e.1 e.2) <$> l)))%nat as Hn.
  { clear H. induction l as [|[t c] l IH]; [done|]. cbn [fmap list_fmap concat fst snd length]. rewrite length_app, length_der. lia. }
  revert Hn. generalize (length (concat ((fun e => der e.1 e.2) <$> l))). revert H.
  induction l as [|[t c] l IH]; intros H n Hn; [by destruct n|]. inversion H as [|? ? Hc H']; subst.
  destruct n as [|n]; [cbn in Hn; lia|]. cbn [fmap list_fmap concat fst snd elements] in *.
  rewrite next_der by done. f_equal. apply IH; [done|]. cbn in Hn. lia.
Qed.

(** What is read is a piece of what was given: octets come from octets. *)
Lemma read_octets data e rest : Forall octet data -> read data = Some (e, rest) ->
  Forall octet (content e) /\ Forall octet (full e) /\ Forall octet rest.
Proof.
  intros H. unfold read. destruct (_ <? _)%nat; [done|]. destruct (entete data) as [[len header]|]; [|done]. cbn [mbind option_bind].
  destruct (_ <? _); [done|]. intros [= <- <-]. cbn [content full].
  split_and!; [by apply Forall_slice|by apply Forall_take|by apply Forall_drop].
Qed.
Lemma next_octets data e rest : Forall octet data -> next data = Some (e, rest) ->
  Forall octet (content e) /\ Forall octet (full e) /\ Forall octet rest.
Proof. destruct data; [done|]. apply read_octets. Qed.
Lemma read_tag_octets data t e rest : Forall octet data -> read_tag data t = Some (e, rest) ->
  Forall octet (content e) /\ Forall octet (full e) /\ Forall octet rest.
Proof.
  intros H. unfold read_tag. destruct (read data) as [[e' r']|] eqn:E; [|done]. cbn [mbind option_bind]. destruct (negb _); [done|].
  intros [= <- <-]. by eapply read_octets.
Qed.
Lemma first_child_octets d e : Forall octet (content d) -> first_child d = Some e -> Forall octet (content e) /\ Forall octet (full e).
Proof.
  intros H. unfold first_child. destruct (next (children d)) as [[e' r']|] eqn:E; [|done]. intros [= <-].
  destruct (next_octets _ _ _ H E) as (? & ? & _). done.
Qed.
End Asn1Proofs.

(** ** Parsing and signatures *)
Module X509Proofs.
Import Asn1 X509 Asn1Proofs.
Import BigUintProofs(from_be, garde_un_spec).
Open Scope Z_scope.

(** The octets a verification reads. *)
Definition cle_octets (k : PubKey) : Prop :=
  match k with RsaKey n e => Forall octet n /\ Forall octet e | EcP256 p | EcP384 p => Forall octet p | UnknownKey => True end.
Definition module_non_nul (k : PubKey) : Prop := match k with RsaKey n e => 0 < from_be n | _ => True end.
Definition cert_octets (c : Certificate) : Prop := Forall octet (tbs c) /\ Forall octet (signature c) /\ cle_octets (pubkey c).

Lemma parse_pubkey_octets spki : Forall octet (content spki) -> cle_octets (parse_pubkey spki).
Proof.
  intros H. unfold parse_pubkey. destruct (next (children spki)) as [[alg it]|] eqn:E1; [|done].
  destruct (next_octets _ _ _ H E1) as (Ha & _ & Hit). destruct (next it) as [[kb it']|] eqn:E2; [|done].
  destruct (next_octets _ _ _ Hit E2) as (Hk & _ & _). destruct (first_child alg); [|done]. destruct (content kb) as [|x kbytes]; [done|].
  apply Forall_cons in Hk as [_ Hk]. destruct (bool_decide _).
  - destruct (read_tag kbytes TAG_SEQUENCE) as [[sq r]|] eqn:E3; [|done]. destruct (read_tag_octets _ _ _ _ Hk E3) as (Hs & _).
    destruct (next (children sq)) as [[n ki]|] eqn:E4; [|done]. destruct (next_octets _ _ _ Hs E4) as (Hn & _ & Hki).
    destruct (next ki) as [[e r']|] eqn:E5; [|done]. destruct (next_octets _ _ _ Hki E5) as (He & _). done.
  - destruct (bool_decide _); [|done]. destruct (next (children alg)) as [[? ai]|]; [|done]. destruct (next ai) as [[cu ?]|]; [|done].
    destruct (bool_decide _); [done|]. by destruct (bool_decide _).
Qed.

(** The extensions change the names and the authority only. *)
Definition meme_reste (c c' : Certificate) : Prop :=
  tbs c' = tbs c /\ sig_alg c' = sig_alg c /\ signature c' = signature c /\ subject c' = subject c /\ issuer c' = issuer c /\
  pubkey c' = pubkey c /\ not_before c' = not_before c /\ not_after c' = not_after c.
#[global] Instance meme_reste_refl : Reflexive meme_reste.
Proof. done. Qed.
#[global] Instance meme_reste_trans : Transitive meme_reste.
Proof. intros c1 c2 c3 H1 H2. unfold meme_reste in *. intuition congruence. Qed.
Lemma meme_fold {A} (f : Certificate -> A -> Certificate) l : (forall c x, meme_reste c (f c x)) -> forall c, meme_reste c (fold_left f l c).
Proof. intros Hf. induction l as [|x l IH]; intros c; [done|]. cbn [fold_left]. etransitivity; [apply Hf|apply IH]. Qed.
Lemma meme_extensions tc c : meme_reste c (parse_extensions tc c).
Proof.
  apply meme_fold. clear. intros c champ. unfold parse_champ. destruct (_ =? _); [|done]. destruct (first_child champ); [|done].
  apply meme_fold. clear. intros c ext. unfold parse_extension. destruct (next (children ext)) as [[oid ei]|]; [|done]. cbv zeta.
  destruct (match next ei with Some _ => _ | None => _ end) as [val|]; [|done]. destruct (bool_decide _).
  { unfold parse_san. destruct (read_tag _ _) as [[s ?]|]; [|done]. apply meme_fold. clear. intros c name. unfold ajoute_nom. by destruct (_ =? _). }
  destruct (bool_decide _); [|done]. unfold parse_basic_constraints. destruct (read_tag _ _) as [[s ?]|]; [|done].
  destruct (first_child s) as [f|]; [|done]. destruct (content f); [done|]. by destruct (_ =? _).
Qed.

Lemma ou_rien_some {A B} (o : option A) (k : A -> option (option B)) b : ou_rien o k = Some (Some b) -> exists a, o = Some a /\ k a = Some (Some b).
Proof. destruct o as [a|]; [|done]. intros H. by exists a. Qed.
(** One field after the other. *)
Ltac champ H x E := apply ou_rien_some in H as (x & E & H).

Lemma parse_octets d c : Forall octet d -> parse d = Some (Some c) -> cert_octets c.
Proof.
  intros Hd H. unfold parse in H. champ H x1 E1. destruct x1 as [sq r1]. destruct (read_tag_octets _ _ _ _ Hd E1) as (Hsq & _).
  champ H x2 E2. destruct x2 as [t top]. destruct (next_octets _ _ _ Hsq E2) as (Htc & Htf & Htop).
  champ H x3 E3. destruct x3 as [sa top2]. destruct (next_octets _ _ _ Htop E3) as (_ & _ & Htop2).
  champ H x4 E4. destruct x4 as [sb top3]. destruct (next_octets _ _ _ Htop2 E4) as (Hsb & _).
  champ H x5 E5. champ H sg E6. champ H x7 E7. destruct x7 as [f tc0]. destruct (next_octets _ _ _ Htc E7) as (_ & _ & Htc0).
  champ H tc1 E8. assert (Forall octet tc1) as Htc1.
  { destruct (_ =? _); [|by injection E8 as <-]. destruct (next tc0) as [[s0 r0]|] eqn:E; [|done]. injection E8 as <-. by eapply next_octets. }
  champ H x9 E9. destruct x9 as [? tc2]. destruct (next_octets _ _ _ Htc1 E9) as (_ & _ & Htc2).
  champ H x10 E10. destruct x10 as [iss tc3]. destruct (next_octets _ _ _ Htc2 E10) as (_ & _ & Htc3).
  champ H x11 E11. destruct x11 as [val tc4]. destruct (next_octets _ _ _ Htc3 E11) as (_ & _ & Htc4).
  champ H x12 E12. destruct x12 as [sub tc5]. destruct (next_octets _ _ _ Htc4 E12) as (_ & _ & Htc5).
  champ H x13 E13. destruct x13 as [spki tc6]. destruct (next_octets _ _ _ Htc5 E13) as (Hspki & _).
  destruct (periode val) as [[debut fin]|]; [|done]. cbn [mbind option_bind] in H. injection H as <-.
  unfold cert_octets. set (c0 := mk_cert _ _ _ _ _ _ _ _ _ _). destruct (meme_extensions tc6 c0) as (-> & _ & -> & _ & _ & -> & _).
  subst c0. cbn [tbs signature pubkey]. split_and!; [done| |by apply parse_pubkey_octets].
  destruct (content sb) as [|y l]; [done|]. injection E6 as <-. by apply Forall_cons in Hsb as [_ ?].
Qed.

(** ** Verifications answer *)

Lemma pkcs1_repond n e msg sig : Forall octet n -> Forall octet e -> Forall octet sig ->
  exists b, Rsa.verify_pkcs1_sha256 (Rsa.new n e) msg sig = Some b.
Proof.
  intros Hn He Hs. unfold Rsa.verify_pkcs1_sha256. destruct (negb _); [by eexists|].
  assert (exists em, Rsa.raw (Rsa.new n e) sig = Some em) as (em & ->).
  { destruct (Z.lt_ge_cases 0 (from_be n)); [eexists; by apply RsaProofs.raw_spec|].
    destruct (RsaProofs.raw_nul n e sig Hn He) as (_ & em & E & _); [pose proof (BigUintProofs.from_be_borne n Hn); lia|by exists em]. }
  cbv zeta. repeat match goal with |- context[if ?b then _ else _] => destruct b end; by eexists.
Qed.
Lemma pss_repond n e msg sig : Forall octet n -> Forall octet e -> Forall octet sig -> 0 < from_be n ->
  exists b, Rsa.verify_pss_sha256 (Rsa.new n e) msg sig = Some b.
Proof.
  intros Hn He Hs Hp. unfold Rsa.verify_pss_sha256. destruct (negb _); [by eexists|]. rewrite RsaProofs.raw_spec by done. cbv zeta.
  destruct (RsaProofs.em_len_borne n e Hn He Hp) as (Hb & _). destruct (Nat.eqb_spec (BigUint.bit_len (Rsa.n (Rsa.new n e))) 0); [lia|].
  by eexists.
Qed.
Lemma ecdsa_repond (c : Ec.Curve) point sig f : c = Ec.p256 \/ c = Ec.p384 -> Forall octet point -> Forall octet sig ->
  Forall octet f -> exists b, verify_ecdsa_der sig (fun r s => Ec.verify_ecdsa c point f r s) = Some b.
Proof.
  intros Hc Hp Hs Hf. assert (EcProofs.courbe_ok c) as Ho by (destruct Hc as [->| ->]; [apply EcProofs.p256_ok|apply EcProofs.p384_ok]).
  unfold verify_ecdsa_der. destruct (read_tag sig TAG_SEQUENCE) as [[sq ?]|] eqn:E1; [|by eexists].
  destruct (read_tag_octets _ _ _ _ Hs E1) as (Hsq & _). destruct (next (children sq)) as [[r si]|] eqn:E2; [|by eexists].
  destruct (next_octets _ _ _ Hsq E2) as (Hr & _ & Hsi). destruct (next si) as [[s ?]|] eqn:E3; [|by eexists].
  destruct (next_octets _ _ _ Hsi E3) as (Hss & _). unfold strip0.
  destruct (EcProofs.verify_ecdsa_repond c Ho point f (BigUint.garde_un (content r)) (BigUint.garde_un (content s)) Hp Hf) as (b & E & _);
    [by apply garde_un_spec|by apply garde_un_spec|by exists b].
Qed.
Lemma verify_signed_by_repond c k : cert_octets c -> cle_octets k -> module_non_nul k -> exists b, verify_signed_by c k = Some b.
Proof.
  intros (Ht & Hs & _) Hk Hm. unfold verify_signed_by. destruct (sig_alg c), k as [n e|p|p|]; try by eexists.
  - destruct Hk. by apply pkcs1_repond.
  - destruct Hk. by apply pss_repond.
  - apply (ecdsa_repond Ec.p256); [by left|done|done|apply HachageProofs.sha256_octets].
  - apply (ecdsa_repond Ec.p384); [by right|done|done|].
    unfold Hachage.Sha512.sha384, Hachage.Sha512.digest. cbv zeta. apply Forall_take, HachageProofs.concat_be_octets.
Qed.
End X509Proofs.

(** ** The chain *)
Module ValidateProofs.
Import X509 X509Proofs Validate.
Open Scope Z_scope.

Section Magasin.
Context (roots : list (list Z)).

(** A certificate of the store. *)
Definition racine (root : Certificate) : Prop := exists d, d ∈ roots /\ parse d = Some (Some root).
Definition ancre (c : Certificate) : Prop :=
  exists root, racine root /\ subject root = subject c /\ meme_cle_publique (pubkey root) (pubkey c) = true.
Definition emise (c : Certificate) : Prop :=
  exists root, racine root /\ subject root = issuer c /\ verify_signed_by c (pubkey root) = Some true.
(** A certificate and the one that signs it. *)
Definition lien (c s : Certificate) : Prop :=
  issuer c = subject s /\ is_ca s = true /\ verify_signed_by c (pubkey s) = Some true.
Definition en_cours (now : Z) (c : Certificate) : Prop := now = 0 \/ not_before c <= now <= not_after c.

(** A path from the first certificate to the store, whose certificates satisfy [P]: it ends on one that stands for an
    anchor, whose own dates and signature are not looked at, or on one that an anchor issued. *)
Inductive chemin (P : Certificate -> Prop) : list Certificate -> Prop :=
| chemin_ancre c l : ancre c -> chemin P (c :: l)
| chemin_emise c l : P c -> emise c -> chemin P (c :: l)
| chemin_suite c s l : P c -> lien c s -> chemin P (s :: l) -> chemin P (c :: s :: l).

(** What the store has to be: its certificates are parsed and their keys are usable. *)
Definition magasin_ok : Prop :=
  Forall (fun d => Forall octet d /\ exists c, parse d = Some (Some c) /\ module_non_nul (pubkey c)) roots.
Definition cert_ok (c : Certificate) : Prop := cert_octets c /\ module_non_nul (pubkey c).

Lemma anchor_dans_spec l c : Forall (fun d => Forall octet d /\ exists r, parse d = Some (Some r) /\ module_non_nul (pubkey r)) l ->
  exists o, anchor_dans l c = Some o /\
    (is_Some o <-> exists root d, d ∈ l /\ parse d = Some (Some root) /\ subject root = subject c /\
                     meme_cle_publique (pubkey root) (pubkey c) = true).
Proof.
  induction l as [|d l IH]; intros H; cbn [anchor_dans].
  { exists None. split; [done|]. split; [by intros [? ?]|]. intros (? & ? & Hd & _). by apply not_elem_of_nil in Hd. }
  apply Forall_cons in H as [(Hd & r & E & Hm) H]. rewrite E. cbn [mbind option_bind]. destruct (IH H) as (o & Eo & Ho).
  destruct (bool_decide (subject r = subject c) && meme_cle_publique (pubkey r) (pubkey c)) eqn:Et.
  - apply andb_true_iff in Et as [Es%bool_decide_eq_true Ek]. exists (Some r). split; [done|]. split; [intros _|by eexists].
    exists r, d. split_and!; [apply list_elem_of_here|done|done|done].
  - exists o. split; [done|]. rewrite Ho. split.
    + intros (root & d' & Hin & ?). exists root, d'. split; [by apply list_elem_of_further|done].
    + intros (root & d' & Hin & E' & Es & Ek). apply elem_of_cons in Hin as [->|Hin]; [|by exists root, d'].
      assert (root = r) as -> by congruence. rewrite Ek, bool_decide_eq_true_2 in Et by done. done.
Qed.
Lemma issuer_dans_spec l c : Forall (fun d => Forall octet d /\ exists r, parse d = Some (Some r) /\ module_non_nul (pubkey r)) l ->
  cert_ok c ->
  exists o, issuer_dans l c = Some o /\
    (is_Some o <-> exists root d, d ∈ l /\ parse d = Some (Some root) /\ subject root = issuer c /\
                     verify_signed_by c (pubkey root) = Some true).
Proof.
  intros H Hc. induction H as [|d l (Hd & r & E & Hm) H IH]; cbn [issuer_dans].
  { exists None. split; [done|]. split; [by intros [? ?]|]. intros (? & ? & Hd & _). by apply not_elem_of_nil in Hd. }
  rewrite E. cbn [mbind option_bind]. destruct IH as (o & Eo & Ho).
  destruct (verify_signed_by_repond c (pubkey r)) as (b & Eb); [apply Hc|by eapply parse_octets|done|].
  destruct (bool_decide_reflect (subject r = issuer c)) as [Es|Es]; [rewrite Eb; cbn [mbind option_bind]; destruct b|].
  1: { exists (Some r). split; [done|]. split; [intros _|by eexists].
       exists r, d. split_and!; [apply list_elem_of_here|done|done|done]. }
  all: exists o; split; [done|]; rewrite Ho; split; intros (root & d' & Hin & E' & Es' & Ek);
    [exists root, d'; split_and!; [by apply list_elem_of_further|done..]|];
    apply elem_of_cons in Hin as [->|Hin]; [assert (root = r) as -> by congruence; congruence|by exists root, d'].
Qed.

(** From a certificate that no anchor replaces nor issued: the tests on the next one. *)
Lemma parcours_suite c l now res exp : cert_ok c -> Forall cert_ok l -> trusted res = false ->
  (exp = false <-> expired res = false /\ en_cours now c) ->
  (forall res, l <> [] -> trusted res = false -> exists r, parcours roots l now res = Some r /\ hostname_ok r = hostname_ok res /\
     (trusted r = true <-> chemin (fun _ => True) l) /\
     (trusted r = true /\ expired r = false <-> expired res = false /\ chemin (en_cours now) l)) ->
  exists r, (match l with
     | [] => Some (mk_res (trusted res) (hostname_ok res) exp (anchor res) AncreInconnue)
     | suivant :: _ =>
         if negb (bool_decide (issuer c = subject suivant)) then Some (mk_res (trusted res) (hostname_ok res) exp (anchor res) Incoherents)
         else if negb (is_ca suivant) then Some (mk_res (trusted res) (hostname_ok res) exp (anchor res) SignataireSansCa)
         else ok ← verify_signed_by c (pubkey suivant);
              if negb ok then Some (mk_res (trusted res) (hostname_ok res) exp (anchor res) SignatureInvalide)
              else parcours roots l now (mk_res (trusted res) (hostname_ok res) exp (anchor res) (detail res))
     end) = Some r /\ hostname_ok r = hostname_ok res /\
    (trusted r = true <-> exists s l', l = s :: l' /\ True /\ lien c s /\ chemin (fun _ => True) l) /\
    (trusted r = true /\ expired r = false <->
       expired res = false /\ exists s l', l = s :: l' /\ en_cours now c /\ lien c s /\ chemin (en_cours now) l).
Proof.
  intros Hc Hl Ht Hexp IH. destruct l as [|s l'].
  { eexists. split; [done|]. split; [done|]. cbn [trusted expired]. rewrite Ht.
    split; [split; [done|]|split; [by intros [? _]|intros (_ & H); revert H]]; intros (? & ? & ? & _); done. }
  assert (forall d, ~ lien c s -> exists r, Some (mk_res (trusted res) (hostname_ok res) exp (anchor res) d) = Some r /\
    hostname_ok r = hostname_ok res /\
    (trusted r = true <-> exists s0 l0, s :: l' = s0 :: l0 /\ True /\ lien c s0 /\ chemin (fun _ => True) (s :: l')) /\
    (trusted r = true /\ expired r = false <->
       expired res = false /\ exists s0 l0, s :: l' = s0 :: l0 /\ en_cours now c /\ lien c s0 /\ chemin (en_cours now) (s :: l'))) as arret.
  { intros d Hn. eexists. split; [done|]. split; [done|]. cbn [trusted expired]. rewrite Ht.
    split; [split; [done|]|split; [by intros [? _]|intros (_ & H); revert H]]; intros (s1 & l1 & [= <- <-] & _ & ? & _); done. }
  apply Forall_cons in Hl as [Hs Hl]. destruct (verify_signed_by_repond c (pubkey s)) as (b & Eb); [apply Hc|apply Hs|apply Hs|].
  destruct (bool_decide_reflect (issuer c = subject s)) as [Ei|Ei]; cbn [negb].
  2: { apply arret. intros (? & _). done. }
  destruct (is_ca s) eqn:Eca; cbn [negb].
  2: { apply arret. intros (_ & ? & _). congruence. }
  rewrite Eb. cbn [mbind option_bind]. destruct b; cbn [negb].
  2: { apply arret. intros (_ & _ & ?). congruence. }
  destruct (IH (mk_res (trusted res) (hostname_ok res) exp (anchor res) (detail res))) as (r & E & Eh & Er1 & Er2); [done|done|].
  assert (lien c s) as Hlien by done. exists r. split; [done|]. split; [done|]. cbn [trusted expired hostname_ok] in *. split.
  - rewrite Er1. split; [intros ?; by exists s, l'|by intros (? & ? & _ & _ & _ & ?)].
  - rewrite Er2, Hexp. split; [intros ((? & ?) & ?); split; [done|by exists s, l']|intros (? & ? & ? & _ & ? & _ & ?); tauto].
Qed.

(** What the loop answers from any certificate of the chain. *)
Lemma parcours_spec certs now : magasin_ok -> Forall cert_ok certs -> forall res, certs <> [] -> trusted res = false ->
  exists r, parcours roots certs now res = Some r /\ hostname_ok r = hostname_ok res /\
    (trusted r = true <-> chemin (fun _ => True) certs) /\
    (trusted r = true /\ expired r = false <-> expired res = false /\ chemin (en_cours now) certs).
Proof.
  intros Hm Hc. induction Hc as [|c l Hcc Hl IH]; intros res Hne Ht; [done|]. cbn [parcours]. unfold find_equivalent_anchor, find_issuer_for.
  destruct (anchor_dans_spec roots c Hm) as (oa & -> & Ha). cbn [mbind option_bind].
  assert (is_Some oa <-> ancre c) as Ha'.
  { rewrite Ha. unfold ancre, racine. split; [intros (r & d & ? & ? & ?)|intros (r & (d & ? & ?) & ?)]; exists r; naive_solver. }
  clear Ha. destruct oa as [a|].
  { assert (ancre c) as Hanc by (apply Ha'; by eexists). eexists. split; [done|]. split; [done|]. cbn [trusted expired].
    split; [split; [intros _; by constructor|done]|]. split; [intros [_ ?]; split; [done|by constructor]|tauto]. }
  assert (~ ancre c) as Hna by (rewrite <- Ha'; by intros [? ?]). clear Ha'. cbv zeta.
  set (exp := if negb (now =? 0) && ((now <? not_before c) || (not_after c <? now)) then true else expired res).
  assert (exp = false <-> expired res = false /\ en_cours now c) as Hexp.
  { subst exp. unfold en_cours. destruct (Z.eqb_spec now 0), (Z.ltb_spec now (not_before c)), (Z.ltb_spec (not_after c) now); cbn;
      split; intros; first [done|lia|tauto|split; [tauto|lia]]. }
  destruct (issuer_dans_spec roots c Hm Hcc) as (oi & -> & Hi). cbn [mbind option_bind].
  assert (is_Some oi <-> emise c) as Hi'.
  { rewrite Hi. unfold emise, racine. split; [intros (r & d & ? & ? & ?)|intros (r & (d & ? & ?) & ?)]; exists r; naive_solver. }
  clear Hi. destruct oi as [a|].
  { assert (emise c) as Hem by (apply Hi'; by eexists). eexists. split; [done|]. split; [done|]. cbn [trusted expired].
    split; [split; [intros _; by constructor|done]|]. rewrite Hexp. split; [intros (_ & ? & ?); split; [done|by constructor]|].
    intros [? Hch]. split; [done|]. split; [done|]. by inversion Hch. }
  assert (~ emise c) as Hne' by (rewrite <- Hi'; by intros [? ?]). clear Hi'.
  assert (forall P, chemin P (c :: l) <-> exists s l', l = s :: l' /\ P c /\ lien c s /\ chemin P l) as Hinv.
  { intros P. split; [inversion 1; subst; [done|done|naive_solver]|intros (s & l' & -> & ? & ? & ?); by constructor]. }
  destruct (parcours_suite c l now res exp Hcc Hl Ht Hexp) as (r & E & Eh & E1 & E2); [intros r1 ? ?; by apply IH|].
  exists r. rewrite (Hinv (fun _ => True)), (Hinv (en_cours now)). done.
Qed.
End Magasin.
End ValidateProofs.

(** ** A certificate that is written, then read *)
Module CertificatRelu.
Import Asn1 X509 Asn1Proofs X509Proofs.
Open Scope Z_scope.

(** A date of six numbers of two digits. *)
Record Date := mk_date { annee : Z; mois : Z; jour : Z; heure : Z; minute : Z; seconde : Z }.
Definition deux (x : Z) : list Z := [48 + x / 10; 48 + x mod 10].
Definition utc (d : Date) : list Z :=
  deux (annee d) ++ deux (mois d) ++ deux (jour d) ++ deux (heure d) ++ deux (minute d) ++ deux (seconde d) ++ [90].
Definition date_ok (d : Date) : Prop :=
  0 <= annee d < 100 /\ 0 <= mois d < 100 /\ 0 <= jour d < 100 /\ 0 <= heure d < 100 /\ 0 <= minute d < 100 /\ 0 <= seconde d < 100.
(** AAAAMMJJhhmmss *)
Definition entier (d : Date) : Z :=
  ((((((if 50 <=? annee d then 1900 else 2000) + annee d) * 100 + mois d) * 100 + jour d) * 100 + heure d) * 100 + minute d) * 100 + seconde d.

Record Modele := mk_modele {
  m_version : bool; m_serial : list Z; m_alg : list Z; m_issuer : list Z; m_debut : Date; m_fin : Date;
  m_subject : list Z; m_key : PubKey; m_noms : list (list Z); m_ca : bool; m_sig : list Z }.

Definition spki (k : PubKey) : list Z :=
  match k with
  | RsaKey n e => der 48 (der 6 OID_RSA_ENCRYPTION ++ der 5 []) ++ der 3 (0 :: der 48 (der 2 n ++ der 2 e))
  | EcP256 p => der 48 (der 6 OID_EC_PUBKEY ++ der 6 OID_P256) ++ der 3 (0 :: p)
  | EcP384 p => der 48 (der 6 OID_EC_PUBKEY ++ der 6 OID_P384) ++ der 3 (0 :: p)
  | UnknownKey => []
  end.
Definition ext_san (noms : list (list Z)) : list Z :=
  der 6 OID_SAN ++ der 4 (der 48 (concat ((fun e => der e.1 e.2) <$> ((fun n => (0x82, n)) <$> noms)))).
Definition ext_ca (ca : bool) : list Z :=
  der 6 OID_BASIC_CONSTRAINTS ++ der 1 [255] ++ der 4 (der 48 (if ca then der 1 [255] else [])).
Definition tbs_de (m : Modele) : list Z :=
  (if m_version m then der 0xa0 (der 2 [2]) else []) ++ der 2 (m_serial m) ++ der 48 (der 6 (m_alg m)) ++ der 48 (m_issuer m) ++
  der 48 (der 0x17 (utc (m_debut m)) ++ der 0x17 (utc (m_fin m))) ++ der 48 (m_subject m) ++ der 48 (spki (m_key m)) ++
  der 0xa3 (der 48 (der 48 (ext_san (m_noms m)) ++ der 48 (ext_ca (m_ca m)))).
Definition certificat (m : Modele) : list Z :=
  der 48 (der 48 (tbs_de m) ++ der 48 (der 6 (m_alg m)) ++ der 3 (0 :: m_sig m)).
Definition modele_ok (m : Modele) : Prop :=
  date_ok (m_debut m) /\ date_ok (m_fin m) /\ m_key m <> UnknownKey /\ Forall (Forall (fun x => 0 <= x < 128)) (m_noms m).

(** A content whose length is written on four octets at most. *)
Definition court (l : list Z) : Prop := Z.of_nat (length l) < 2 ^ 32.
Definition fait := court.
Lemma court_der t c : court (der t c) -> court c.
Proof. unfold court. rewrite length_der. lia. Qed.
Lemma court_der2 t c : court (der t c) -> fait (der t c) /\ court c.
Proof. intros H. split; [exact H|by apply (court_der t)]. Qed.
Lemma court_app a b : court (a ++ b) -> fait (a ++ b) /\ court a /\ court b.
Proof. unfold fait, court. rewrite length_app. lia. Qed.
Lemma court_cons x l : court (x :: l) -> fait (x :: l) /\ court l.
Proof. unfold fait, court. cbn [length]. lia. Qed.
(** The lengths of all the pieces of [H]. *)
Ltac pieces :=
  repeat match goal with
  | H : court (der _ _) |- _ => apply court_der2 in H as (? & ?)
  | H : court (_ ++ _) |- _ => apply court_app in H as (? & ? & ?)
  | H : court (_ :: _) |- _ => apply court_cons in H as (? & ?)
  end.
Ltac lis := cbn [ou_rien children content full tag elt fst snd fmap option_fmap option_map mbind option_bind].
Lemma read_seq c suite : court c -> read_tag (der 48 c ++ suite) TAG_SEQUENCE = Some (elt 48 c, suite).
Proof. apply read_tag_der. Qed.
Lemma read_seq_seule c : court c -> read_tag (der 48 c) TAG_SEQUENCE = Some (elt 48 c, []).
Proof. intros H. rewrite <- (app_nil_r (der 48 c)) at 1. by apply read_tag_der. Qed.
Lemma first_child_seul t t' c : court c -> first_child (elt t (der t' c)) = Some (elt t' c).
Proof. intros H. rewrite <- (app_nil_r (der t' c)) at 1. by apply first_child_der. Qed.
Ltac suivant :=
  first [rewrite first_child_der by assumption|rewrite first_child_seul by assumption|rewrite next_der by assumption
        |rewrite next_der_seul by assumption|rewrite read_seq by assumption|rewrite read_seq_seule by assumption]; lis.

Lemma digit_deux x : 0 <= x < 100 -> digit (48 + x / 10) = Some (x / 10) /\ digit (48 + x mod 10) = Some (x mod 10) /\ x / 10 * 10 + x mod 10 = x.
Proof.
  intros H. pose proof (Z.mod_pos_bound x 10 ltac:(lia)). pose proof (Z.div_pos x 10 ltac:(lia) ltac:(lia)).
  unfold digit. rewrite !(proj2 (Z.ltb_ge _ _)) by lia. split_and!; [f_equal; lia|f_equal; lia|]. pose proof (Z.div_mod x 10). lia.
Qed.
Lemma two_deux l1 x l2 : 0 <= x < 100 -> two (l1 ++ deux x ++ l2) (Z.of_nat (length l1)) = Some x.
Proof.
  intros H. destruct (digit_deux x H) as (E1 & E2 & E). unfold two.
  destruct (Z.ltb_spec (Z.of_nat (length l1) + 1) (Z.of_nat (length (l1 ++ deux x ++ l2)))) as [_|Hl];
    [|rewrite !length_app in Hl; cbn [length deux] in Hl; lia].
  assert (aget (l1 ++ deux x ++ l2) (Z.of_nat (length l1)) = 48 + x / 10) as ->.
  { unfold aget. change (deux x ++ l2) with ((48 + x / 10) :: [48 + x mod 10] ++ l2). by rewrite Nat2Z.id, list_lookup_middle by done. }
  assert (aget (l1 ++ deux x ++ l2) (Z.of_nat (length l1) + 1) = 48 + x mod 10) as ->.
  { unfold aget. replace (Z.to_nat (Z.of_nat (length l1) + 1)) with (length (l1 ++ [48 + x / 10])) by (rewrite length_app; cbn; lia).
    replace (l1 ++ deux x ++ l2) with ((l1 ++ [48 + x / 10]) ++ (48 + x mod 10) :: l2) by (by rewrite <- app_assoc).
    by rewrite list_lookup_middle. }
  rewrite E1, E2. cbn [mbind option_bind]. by rewrite E.
Qed.
Lemma parse_time_utc d : date_ok d -> parse_time (elt 0x17 (utc d)) = Some (entier d).
Proof.
  intros (H1 & H2 & H3 & H4 & H5 & H6). unfold parse_time. lis. change (0x17 =? TAG_UTCTIME) with true.
  change (12 <=? Z.of_nat (length (utc d))) with true. cbn [andb]. cbv zeta. unfold utc.
  pose proof (two_deux [] _ (deux (mois d) ++ deux (jour d) ++ deux (heure d) ++ deux (minute d) ++ deux (seconde d) ++ [90]) H1) as E1.
  pose proof (two_deux (deux (annee d)) _ (deux (jour d) ++ deux (heure d) ++ deux (minute d) ++ deux (seconde d) ++ [90]) H2) as E2.
  pose proof (two_deux (deux (annee d) ++ deux (mois d)) _ (deux (heure d) ++ deux (minute d) ++ deux (seconde d) ++ [90]) H3) as E3.
  pose proof (two_deux (deux (annee d) ++ deux (mois d) ++ deux (jour d)) _ (deux (minute d) ++ deux (seconde d) ++ [90]) H4) as E4.
  pose proof (two_deux (deux (annee d) ++ deux (mois d) ++ deux (jour d) ++ deux (heure d)) _ (deux (seconde d) ++ [90]) H5) as E5.
  pose proof (two_deux (deux (annee d) ++ deux (mois d) ++ deux (jour d) ++ deux (heure d) ++ deux (minute d)) _ [90] H6) as E6.
  rewrite <- !app_assoc in *. cbn [app length deux] in E1, E2, E3, E4, E5, E6 |- *. 
  change (Z.of_nat 0) with 0 in E1. change (Z.of_nat 2) with 2 in E2. change (Z.of_nat 4) with 4 in E3.
  change (Z.of_nat 6) with 6 in E4. change (Z.of_nat 8) with 8 in E5. change (Z.of_nat 10) with 10 in E6.
  rewrite E1. lis. rewrite E2. lis. rewrite E3. lis. rewrite E4. lis. rewrite E5. lis. rewrite E6. lis.
  f_equal. unfold entier. destruct (50 <=? annee d); lia.
Qed.

Lemma parse_pubkey_relue k : k <> UnknownKey -> court (spki k) -> parse_pubkey (elt 48 (spki k)) = k.
Proof.
  intros Hk H. unfold parse_pubkey, spki in *. destruct k as [n e|p|p|]; [| | |done]; pieces; lis; suivant; rewrite next_der_seul by assumption; lis; suivant.
  - rewrite bool_decide_eq_true_2 by done. rewrite read_seq_seule by assumption. lis.
    suivant. by suivant.
  - rewrite bool_decide_eq_false_2, bool_decide_eq_true_2 by done. suivant. suivant. by rewrite bool_decide_eq_true_2.
  - rewrite bool_decide_eq_false_2, bool_decide_eq_true_2 by done. suivant. suivant. by rewrite bool_decide_eq_false_2, bool_decide_eq_true_2.
Qed.
Lemma push_char_ascii l : Forall (fun x => 0 <= x < 128) l -> forall s, fold_left push_char l s = s ++ l.
Proof.
  induction 1 as [|x l Hx H IH]; intros s; cbn [fold_left]; [by rewrite app_nil_r|]. rewrite IH. unfold push_char.
  rewrite (proj2 (Z.ltb_lt _ _)) by lia. by rewrite <- app_assoc.
Qed.

Lemma ajoute_noms l : Forall (Forall (fun x => 0 <= x < 128)) l -> forall c,
  fold_left ajoute_nom ((fun e => elt e.1 e.2) <$> ((fun n => (0x82, n)) <$> l)) c = avec_san (san_dns c ++ l) c.
Proof.
  induction 1 as [|n l Hn H IH]; intros c; cbn [fmap list_fmap fold_left]; [by destruct c; rewrite app_nil_r|]. rewrite IH.
  unfold ajoute_nom. cbn [fst snd tag content elt]. change (0x82 =? 0x82) with true. rewrite push_char_ascii by done. cbn. by rewrite <- app_assoc.
Qed.
Lemma parse_extension_san noms c : court (ext_san noms) -> Forall (Forall (fun x => 0 <= x < 128)) noms ->
  parse_extension c (elt 48 (ext_san noms)) = avec_san (san_dns c ++ noms) c.
Proof.
  intros H Hn. unfold ext_san in *. set (l := (fun n => (0x82, n)) <$> noms) in *.
  assert (Forall (fun e => court e.2) l) as Hl.
  { subst l. assert (court (concat ((fun e => der e.1 e.2) <$> ((fun n => (0x82, n)) <$> noms)))) as Hc by (pieces; assumption).
    clear H Hn. induction noms as [|n noms IH]; [by constructor|]. cbn [fmap list_fmap concat fst snd] in *. pieces. constructor; [done|by apply IH]. }
  unfold parse_extension. pieces. lis. suivant. suivant. cbv zeta. change (4 =? TAG_BOOLEAN) with false. lis.
  rewrite bool_decide_eq_true_2 by done. unfold parse_san. suivant. subst l. rewrite tous_les_der by done. by apply ajoute_noms.
Qed.
Lemma parse_extension_ca ca c : parse_extension c (elt 48 (ext_ca ca)) = avec_ca (if ca then true else is_ca c) c.
Proof. destruct c, ca; reflexivity. Qed.
Lemma parse_extensions_relues noms ca c : court (der 48 (ext_san noms) ++ der 48 (ext_ca ca)) ->
  court (der 48 (der 48 (ext_san noms) ++ der 48 (ext_ca ca))) -> Forall (Forall (fun x => 0 <= x < 128)) noms ->
  parse_extensions (der 0xa3 (der 48 (der 48 (ext_san noms) ++ der 48 (ext_ca ca)))) c =
  avec_ca (if ca then true else is_ca c) (avec_san (san_dns c ++ noms) c).
Proof.
  intros H H2 Hn. unfold parse_extensions.
  pose proof (tous_les_der [(0xa3, der 48 (der 48 (ext_san noms) ++ der 48 (ext_ca ca)))] ltac:(by constructor)) as E.
  cbn [fmap list_fmap concat fst snd] in E. rewrite app_nil_r in E. rewrite E. cbn [fold_left]. unfold parse_champ.
  lis. change (0xa3 =? 0xa3) with true. rewrite first_child_seul by done. lis.
  assert (court (ext_san noms) /\ court (ext_ca ca)) as [H3 H4] by (pieces; by split).
  pose proof (tous_les_der [(48, ext_san noms); (48, ext_ca ca)] ltac:(by repeat constructor)) as E2.
  cbn [fmap list_fmap concat fst snd] in E2. rewrite app_nil_r in E2. rewrite E2. cbn [fold_left].
  by rewrite parse_extension_san, parse_extension_ca by done.
Qed.
Lemma periode_relue d1 d2 : date_ok d1 -> date_ok d2 -> periode (elt 48 (der 0x17 (utc d1) ++ der 0x17 (utc d2))) = Some (entier d1, entier d2).
Proof.
  intros H1 H2. unfold periode. assert (court (utc d1) /\ court (utc d2)) as [? ?] by done. lis. suivant. suivant. by rewrite !parse_time_utc.
Qed.

(** What [x509::parse] reads of a certificate is what it holds. For any certificate written in DER with
    the fields of RFC 5280, with or without a version, under an RSA key or a point of either
    curve, with two dates, any number of names and the basic constraints, the parser answers, without stopping, the octets
    the signature covers, the two names with their headers, the key, the dates as numbers
    AAAAMMJJhhmmss of this or the last century, the DNS names in order, and whether it is an authority. *)
Theorem certificat_relu m : modele_ok m -> court (certificat m) ->
  parse (certificat m) = Some (Some
    (mk_cert (der 48 (tbs_de m)) (alg_from_oid (m_alg m)) (m_sig m) (der 48 (m_subject m)) (der 48 (m_issuer m)) (m_key m)
       (entier (m_debut m)) (entier (m_fin m)) (m_noms m) (m_ca m))).
Proof.
  intros (H1 & H2 & H3 & H4) H. unfold parse, certificat in *. apply court_der in H. assert (court (tbs_de m)) as Ht by (pieces; assumption).
  rewrite read_seq_seule by done. lis. apply court_app in H as (_ & _ & H). pieces. suivant. suivant. suivant. suivant. cbv beta.
  assert (exists f tc0, next (tbs_de m) = Some (f, tc0) /\ (if tag f =? 0xa0 then snd <$> next tc0 else Some tc0) =
     Some (der 48 (der 6 (m_alg m)) ++ der 48 (m_issuer m) ++ der 48 (der 0x17 (utc (m_debut m)) ++ der 0x17 (utc (m_fin m))) ++
       der 48 (m_subject m) ++ der 48 (spki (m_key m)) ++ der 0xa3 (der 48 (der 48 (ext_san (m_noms m)) ++ der 48 (ext_ca (m_ca m)))))) as (f & tc0 & -> & E).
  { unfold tbs_de in *. pieces. destruct (m_version m); cbn [app] in *; pieces; suivant; do 2 eexists; (split; [reflexivity|]).
    - lis. by suivant.
    - done. }
  lis. rewrite E. lis. unfold tbs_de in Ht.
  assert (court (spki (m_key m)) /\ court (der 48 (ext_san (m_noms m)) ++ der 48 (ext_ca (m_ca m))) /\
    court (der 48 (der 48 (ext_san (m_noms m)) ++ der 48 (ext_ca (m_ca m))))) as (Hs & He & He2).
  { clear E. pieces. split_and!; assumption. }
  pieces. suivant. suivant. suivant. suivant. suivant. rewrite periode_relue by done. lis.
  rewrite parse_pubkey_relue by done. rewrite parse_extensions_relues by done. by destruct (m_ca m).
Qed.

Definition ex_modele : Modele :=
  mk_modele true [5] OID_SHA256_RSA [1; 2] (mk_date 24 1 1 0 0 0) (mk_date 34 12 31 23 59 59) [3; 4] (RsaKey [35] [5])
    [[97; 46; 98]; [42; 46; 99]] true [7].
Lemma certificat_relu_witness :
  modele_ok ex_modele /\ court (certificat ex_modele) /\
  parse (certificat ex_modele) = Some (Some
    (mk_cert (der 48 (tbs_de ex_modele)) RsaPkcs1Sha256 [7] (der 48 [3; 4]) (der 48 [1; 2]) (RsaKey [35] [5])
       20240101000000 20341231235959 [[97; 46; 98]; [42; 46; 99]] true)).
Proof.
  assert (modele_ok ex_modele) as H by (repeat constructor; done). assert (court (certificat ex_modele)) as Hc by reflexivity.
  split; [exact H|]. split; [exact Hc|]. exact (certificat_relu ex_modele H Hc).
Defined.

(** A date whose first octet is below ['0'] stops the kernel: the certificate of [ex_modele] with [/] in place of a digit. *)
Lemma date_arrete : exists d, Forall octet d /\ parse d = None.
Proof.
  exists (der 48 (der 48 (der 2 [5] ++ der 48 [] ++ der 48 [] ++ der 48 (der 0x17 (47 :: replicate 12 48) ++ der 0x17 (replicate 13 48)) ++
    der 48 [] ++ der 48 []) ++ der 48 (der 6 []) ++ der 3 [0])).
  split; [|reflexivity]. apply EcProofs.octets_par. reflexivity.
Qed.
End CertificatRelu.

(** ** The chain, from its definitions *)
Module Chaine.
Import X509 X509Proofs Validate ValidateProofs CertificatRelu.
Open Scope Z_scope.

(** What "trusted" means. For any certificates and any store whose keys are usable, the
    validation answers, and the chain is trusted exactly when a path leads from the first
    certificate to the store: each certificate of the path names the next one as its issuer, the next
    one is an authority and its key verifies the signature, and the last one either was issued
    by a root of the store, under its name and key, or stands for one, with the same name and key.
    It is trusted and not marked expired exactly when there is such a path whose certificates,
    except one that stands for a root, are within their dates. The host name is judged on the first certificate. *)
Theorem chaine_exacte roots certs hostname now : magasin_ok roots -> Forall cert_ok certs ->
  exists res, validate roots certs hostname now = Some res /\
    (trusted res = true <-> chemin roots (fun _ => True) certs) /\
    (trusted res = true /\ expired res = false <-> chemin roots (en_cours now) certs) /\
    hostname_ok res = match certs with [] => false | feuille :: _ => matches_hostname feuille hostname end.
Proof.
  intros Hm Hc. unfold validate. destruct certs as [|c l].
  { eexists. split; [done|]. cbn [trusted expired]. split; [split; [done|inversion 1]|].
    split; [split; [by intros [? _]|inversion 1]|done]. }
  destruct (parcours_spec roots (c :: l) now Hm Hc (mk_res false (matches_hostname c hostname) false None Vide)) as (r & E & Eh & E1 & E2); [done|done|].
  exists r. split; [exact E|]. split; [exact E1|]. split; [|exact Eh]. rewrite E2. cbn [expired]. tauto.
Qed.
Definition ex_cert : Certificate :=
  mk_cert [] RsaPkcs1Sha256 [7] (Asn1Proofs.der 48 [3; 4]) (Asn1Proofs.der 48 [9]) (RsaKey [35] [5]) 20200101000000 20210101000000 [[97; 46; 98]] false.
Definition ex_racine : Certificate := Eval vm_compute in
  mk_cert (Asn1Proofs.der 48 (tbs_de ex_modele)) RsaPkcs1Sha256 [7] (Asn1Proofs.der 48 [3; 4]) (Asn1Proofs.der 48 [1; 2]) (RsaKey [35] [5])
    20240101000000 20341231235959 [[97; 46; 98]; [42; 46; 99]] true.
Lemma ex_magasin : magasin_ok [certificat ex_modele].
Proof.
  constructor; [|constructor]. split; [apply EcProofs.octets_par; vm_compute; reflexivity|]. exists ex_racine.
  split; [vm_compute; reflexivity|]. reflexivity.
Qed.
Lemma ex_cert_ok : cert_ok ex_cert.
Proof. repeat constructor; done. Qed.
Lemma chaine_exacte_witness :
  exists res, validate [certificat ex_modele] [ex_cert] [97; 46; 98] 20250101000000 = Some res /\
    (trusted res = true <-> chemin [certificat ex_modele] (fun _ => True) [ex_cert]) /\
    (trusted res = true /\ expired res = false <-> chemin [certificat ex_modele] (en_cours 20250101000000) [ex_cert]) /\
    hostname_ok res = matches_hostname ex_cert [97; 46; 98].
Proof. apply (chaine_exacte [certificat ex_modele] [ex_cert] [97; 46; 98] 20250101000000 ex_magasin). constructor; [apply ex_cert_ok|constructor]. Defined.

(** The name and the key of a root are enough: a first certificate that carries them, for any host and
    any dates, under any signature, is trusted, for that host, and not expired. *)
Lemma feuille_forgee_admise roots root hostname now t alg sg iss nb na :
  magasin_ok roots -> racine roots root -> pubkey root <> UnknownKey -> hostname <> [] -> hd 0 hostname <> 42 ->
  exists res, validate roots [mk_cert t alg sg (subject root) iss (pubkey root) nb na [hostname] false] hostname now = Some res /\
    trusted res = true /\ hostname_ok res = true /\ expired res = false.
Proof.
  intros Hm (d & Hd & Ed) Hk Hh Hs. set (c := mk_cert _ _ _ _ _ _ _ _ _ _). unfold validate. cbn [parcours]. unfold find_equivalent_anchor.
  destruct (anchor_dans_spec roots c Hm) as (oa & -> & Ha). cbn [mbind option_bind].
  assert (is_Some oa) as [a ->].
  { apply Ha. exists root, d. split; [done|]. split; [done|]. split; [done|]. subst c. cbn [pubkey]. unfold meme_cle_publique.
    by destruct (pubkey root); rewrite ?bool_decide_eq_true_2. }
  eexists. split; [reflexivity|]. split; [done|]. split; [|done]. cbn [hostname_ok]. subst c. unfold matches_hostname. cbn [san_dns existsb].
  rewrite orb_false_r. assert (eq_ci hostname hostname = true) as He.
  { unfold eq_ci. rewrite Nat.eqb_refl. cbn [negb]. apply forallb_forall. intros [x y] Hin. apply list_elem_of_In in Hin.
    assert (x = y) as ->; [|apply Z.eqb_refl]. clear -Hin. induction hostname as [|z l IH]; [by apply not_elem_of_nil in Hin|].
    cbn [zip_with] in Hin. apply elem_of_cons in Hin as [[= -> ->]|Hin]; [done|by apply IH]. }
  unfold san_match. destruct hostname as [|x l]; [done|]. cbn in Hs. destruct x as [|p|p]; try done. by repeat (destruct p as [p|p|]; try done).
Qed.
End Chaine.
