(* ===== verification/Poignee.v ===== *)
(** The TLS 1.3 handshake of the client: [src/net/security/tls/handshake.rs]. The octets of the peer
    are a list, what [TcpConn::fill] obtains before it gives up; the random numbers, the clock and the
    certificates embedded in the kernel are arguments. The result is [None] when the
    kernel stops, and the error of the code otherwise. *)

From S2P Require Import Prelude GrandsEntiers Hachage Rsa Chiffrement Courbes X25519 Certificats.

Module Poignee.
Import Enregistrement.
Import Hachage(HashAlg, digest).
Open Scope Z_scope.

Definition GROUP_X25519 : Z := 0x001d.
Definition GROUP_SECP256R1 : Z := 0x0017.
Definition GROUP_SECP384R1 : Z := 0x0018.
Definition GREASE_0A0A : Z := 0x0a0a.
Definition SIG_ECDSA_P256_SHA256 : Z := 0x0403.
Definition SIG_ECDSA_P384_SHA384 : Z := 0x0503.
Definition SIG_RSA_PSS_RSAE_SHA256 : Z := 0x0804.
Definition SIG_RSA_PKCS1_SHA256 : Z := 0x0401.
Definition HS_CLIENT_HELLO : Z := 1.
Definition HS_SERVER_HELLO : Z := 2.
Definition HS_ENCRYPTED_EXTENSIONS : Z := 8.
Definition HS_CERTIFICATE : Z := 11.
Definition HS_CERTIFICATE_VERIFY : Z := 15.
Definition HS_FINISHED : Z := 20.

(** The messages of [Err]. *)
Inductive Erreur :=
| PasUnServerHello | ServerHelloTronque | ExtensionTronquee | HrrSansGroupe | SansKeyShare | SansClePublique
| PasDeServerHello | RecordAvantServerHello | Alerte (code : Z) | SuiteNonImplementee | GroupeNonSupporte
| GroupeInattendu | DeuxHrr | GroupeNonOffert | EcdheInvalide | FlightIncomplet | DechiffrementEchoue
| RecordDansLeFlight | SansCertificate | FeuilleManquante | CertificateVerifyInvalide | FinishedInvalide.

(** Computations that stop, fail or answer. *)
Definition Res (A : Type) : Type := option (A + Erreur).
Definition ok {A} (a : A) : Res A := Some (inl a).
Definition erreur {A} (e : Erreur) : Res A := Some (inr e).
Definition ensuite {A B} (r : Res A) (k : A -> Res B) : Res B :=
  match r with None => None | Some (inr e) => Some (inr e) | Some (inl a) => k a end.
(** [ok_or(e)?] *)
Definition ou {A} (o : option A) (e : Erreur) : Res A := match o with Some a => ok a | None => erreur e end.
(** A result that can only stop. *)
Definition pur {A} (o : option A) : Res A := match o with Some a => ok a | None => None end.

Declare Scope poignee_scope.
Delimit Scope poignee_scope with poignee.
Notation "x <-- c ;; k" := (ensuite c (fun x => k)) (at level 20, c at level 99, k at level 200) : poignee_scope.
Notation "' p <-- c ;; k" := (ensuite c (fun x => match x with p => k end))
  (at level 20, p pattern, c at level 99, k at level 200) : poignee_scope.
Local Open Scope poignee_scope.

(** ** Key exchange groups *)
Inductive KxGroup := X25519Group | Secp256r1.
#[global] Instance KxGroup_eq_dec : EqDecision KxGroup.
Proof. solve_decision. Defined.
Definition group_id (g : KxGroup) : Z := match g with X25519Group => GROUP_X25519 | Secp256r1 => GROUP_SECP256R1 end.
Definition group_from_id (i : Z) : option KxGroup :=
  if i =? GROUP_X25519 then Some X25519Group else if i =? GROUP_SECP256R1 then Some Secp256r1 else None.

Record KeyPair := mk_pair { group : KxGroup; private : list Z; public : list Z }.
Definition generate (g : KxGroup) (random : list Z) : option KeyPair :=
  public ← match g with X25519Group => X25519.base_mul random | Secp256r1 => Ec.p256_derive_pubkey random end;
  Some (mk_pair g random public).
Definition shared (kp : KeyPair) (peer : list Z) : option (option (list Z)) :=
  match group kp with
  | X25519Group =>
      if negb (length peer =? 32)%nat then Some None else s ← X25519.x25519 (private kp) peer; Some (Some s)
  | Secp256r1 => Ec.p256_ecdh (private kp) peer
  end.

(** ** Messages that are written *)

Definition u16_a (l : list Z) (i : nat) : Z := Z.lor (Z.shiftl (aget l (Z.of_nat i)) 8) (aget l (Z.of_nat i + 1)).
Definition u24_a (l : list Z) (i : nat) : Z :=
  Z.lor (Z.lor (Z.shiftl (aget l (Z.of_nat i)) 16) (Z.shiftl (aget l (Z.of_nat i + 1)) 8)) (aget l (Z.of_nat i + 2)).
(** [x.to_be_bytes()] of [x as u16] *)
Definition push_u16 (x : Z) : list Z := [x / 256 mod 256; x mod 256].
Definition with_u16_len (body : list Z) : list Z := push_u16 (Z.of_nat (length body)) ++ body.
Definition push_ext (typ : Z) (data : list Z) : list Z := push_u16 typ ++ with_u16_len data.
Definition handshake_msg (msg_type : Z) (body : list Z) : list Z :=
  let l := Z.of_nat (length body) in
  [msg_type; Z.shiftr l 16 mod 256; Z.shiftr l 8 mod 256; l mod 256] ++ body.
Definition transcript_hash (s : CipherSuite) (transcript : list Z) : list Z := digest (hash_alg s) transcript.

(** "http/1.1" *)
Definition http_1_1 : list Z := [104; 116; 116; 112; 47; 49; 46; 49].
(** The extensions, in the order of the code, before the padding. *)
Definition extensions (hostname : list Z) (kp : KeyPair) (cookie : option (list Z)) : list Z :=
  push_ext GREASE_0A0A [] ++
  push_ext 0 (with_u16_len (0 :: with_u16_len hostname)) ++
  push_ext 23 [] ++ push_ext 0xff01 [0] ++
  push_ext 10 (with_u16_len (concat (push_u16 <$> [GREASE_0A0A; GROUP_X25519; GROUP_SECP256R1; GROUP_SECP384R1]))) ++
  push_ext 11 [1; 0] ++
  push_ext 13 (with_u16_len (concat (push_u16 <$>
    [SIG_ECDSA_P256_SHA256; SIG_ECDSA_P384_SHA384; SIG_RSA_PSS_RSAE_SHA256; SIG_RSA_PKCS1_SHA256]))) ++
  push_ext 16 (with_u16_len (8 :: http_1_1)) ++
  push_ext 5 [1; 0; 0; 0; 0] ++ push_ext 18 [] ++
  push_ext 43 (2 :: push_u16 0x0304) ++
  push_ext 45 [1; 1] ++
  match cookie with Some c => push_ext 44 c | None => [] end ++
  push_ext 51 (with_u16_len (push_u16 (group_id (group kp)) ++ with_u16_len (public kp))).
Definition build_client_hello (hostname random : list Z) (kp : KeyPair) (cookie : option (list Z)) : list Z :=
  let suites := concat (push_u16 <$>
    [GREASE_0A0A; 0x1301; 0x1302; 0x1303; 0xc02b; 0xc02f; 0xc02c; 0xc030; 0xcca9; 0xcca8; 0x009e; 0x009c]) in
  let ext := extensions hostname kp cookie in
  let ext := if (length ext <? 300)%nat then ext ++ push_ext 21 (replicate (300 - length ext) 0) else ext in
  handshake_msg HS_CLIENT_HELLO
    (push_u16 0x0303 ++ random ++ [0] ++ with_u16_len suites ++ [1; 0] ++ with_u16_len ext).

(** ** Messages that are read *)

Definition HRR_RANDOM : list Z :=
  [0xcf; 0x21; 0xad; 0x74; 0xe5; 0x9a; 0x61; 0x11; 0xbe; 0x1d; 0x8c; 0x02; 0x1e; 0x65; 0xb8; 0x91;
   0xc2; 0xa2; 0x11; 0x16; 0x7a; 0xbb; 0x8c; 0x5e; 0x07; 0x9e; 0x09; 0xe2; 0xc8; 0xa8; 0x33; 0x9c].
Inductive ServerHelloKind :=
| Hello (group : Z) (server_pub : list Z) (cipher : Z)
| Retry (cipher group : Z) (cookie : option (list Z)).
(** The three variables the loop on the extensions fills. *)
Record Lus := mk_lus { server_pub : option (list Z); sel_group : option Z; cookie : option (list Z) }.
Definition lit_extension (is_hrr : bool) (etype : Z) (edata : list Z) (v : Lus) : Lus :=
  if etype =? 51 then
    if is_hrr then
      if (2 <=? length edata)%nat then mk_lus (server_pub v) (Some (u16_a edata 0)) (cookie v) else v
    else if (4 <=? length edata)%nat then
      let klen := Z.to_nat (u16_a edata 2) in
      if (4 + klen <=? length edata)%nat
      then mk_lus (Some (slice edata 4 klen)) (Some (u16_a edata 0)) (cookie v) else v
    else v
  else if etype =? 44 then mk_lus (server_pub v) (sel_group v) (Some edata)
  else v.
(** From the index [p]; each extension takes four octets at least. *)
Fixpoint lit_extensions (tours : nat) (is_hrr : bool) (body : list Z) (p ext_end : nat) (v : Lus) : Lus + Erreur :=
  match tours with
  | O => inl v
  | S tours =>
      if (p + 4 <=? ext_end)%nat then
        let etype := u16_a body p in
        let elen := Z.to_nat (u16_a body (p + 2)) in
        let p := (p + 4)%nat in
        if (ext_end <? p + elen)%nat then inr ExtensionTronquee
        else lit_extensions tours is_hrr body (p + elen) ext_end (lit_extension is_hrr etype (slice body p elen) v)
      else inl v
  end.
Definition parse_server_hello (msg : list Z) : ServerHelloKind + Erreur :=
  if (length msg <? 4)%nat || negb (aget msg 0 =? HS_SERVER_HELLO) then inr PasUnServerHello
  else
    let body := drop 4 msg in
    let manque p n := (length body <? p + n)%nat in
    if manque 0%nat (2 + 32 + 1)%nat then inr ServerHelloTronque
    else
      let is_hrr := bool_decide (slice body 2 32 = HRR_RANDOM) in
      let sid_len := Z.to_nat (aget body 34) in
      if manque 35%nat (sid_len + 3)%nat then inr ServerHelloTronque
      else
        let p := (35 + sid_len)%nat in
        let cipher := u16_a body p in
        let p := (p + 3)%nat in
        if manque p 2%nat then inr ServerHelloTronque
        else
          let ext_len := Z.to_nat (u16_a body p) in
          let p := (p + 2)%nat in
          if manque p ext_len then inr ServerHelloTronque
          else
            match lit_extensions (length body) is_hrr body p (p + ext_len) (mk_lus None None None) with
            | inr e => inr e
            | inl v =>
                if is_hrr then
                  match sel_group v with None => inr HrrSansGroupe | Some g => inl (Retry cipher g (cookie v)) end
                else
                  match sel_group v with
                  | None => inr SansKeyShare
                  | Some g => match server_pub v with None => inr SansClePublique | Some k => inl (Hello g k cipher) end
                  end
            end.

(** The validity of the octets as UTF-8 is a parameter: [str::from_utf8]. *)
Section Handshake.
Context (utf8 : list Z -> bool).

Fixpoint cherche_alpn (tours : nat) (b : list Z) (p fin : nat) : option (list Z) :=
  match tours with
  | O => None
  | S tours =>
      if (p + 4 <=? fin)%nat then
        let etype := u16_a b p in
        let elen := Z.to_nat (u16_a b (p + 2)) in
        let p := (p + 4)%nat in
        if (fin <? p + elen)%nat then None
        else
          let name_len := Z.to_nat (aget b (Z.of_nat p + 2)) in
          if (etype =? 16) && (3 <=? elen)%nat && (p + 3 + name_len <=? p + elen)%nat then
            let name := slice b (p + 3) name_len in
            if utf8 name then Some name else None
          else cherche_alpn tours b (p + elen) fin
      else None
  end.
Definition parse_alpn (ee_body : list Z) : option (list Z) :=
  if (length ee_body <? 2)%nat then None
  else
    let fin := Nat.min (2 + Z.to_nat (u16_a ee_body 0)) (length ee_body) in
    cherche_alpn (length ee_body) ee_body 2 fin.

Fixpoint certificats_de (tours : nat) (body : list Z) (p fin : nat) : list (list Z) :=
  match tours with
  | O => []
  | S tours =>
      if (p + 3 <=? fin)%nat then
        let clen := Z.to_nat (u24_a body p) in
        let p := (p + 3)%nat in
        if (fin <? p + clen)%nat then []
        else
          let c := slice body p clen in
          let p := (p + clen)%nat in
          if (fin <? p + 2)%nat then [c]
          else c :: certificats_de tours body (p + 2 + Z.to_nat (u16_a body p)) fin
      else []
  end.
(** The certificates the message adds. *)
Definition parse_certificate_msg (body : list Z) : list (list Z) :=
  match body with
  | [] => []
  | ctx_len :: _ =>
      let p := (1 + Z.to_nat ctx_len)%nat in
      if (length body <? p + 3)%nat then []
      else
        let list_len := Z.to_nat (u24_a body p) in
        let p := (p + 3)%nat in
        certificats_de (length body) body p (Nat.min (p + list_len) (length body))
  end.

(** "TLS 1.3, server CertificateVerify" *)
Definition contexte_cv : list Z :=
  [84; 76; 83; 32; 49; 46; 51; 44; 32; 115; 101; 114; 118; 101; 114; 32; 67; 101; 114; 116; 105; 102; 105; 99; 97; 116; 101;
   86; 101; 114; 105; 102; 121].
Definition cert_verify_content (th : list Z) : list Z := replicate 64 0x20 ++ contexte_cv ++ [0] ++ th.
Definition verify_cert_verify (body : list Z) (leaf : X509.Certificate) (th : list Z) : option bool :=
  if (length body <? 4)%nat then Some false
  else
    let scheme := u16_a body 0 in
    let sig_len := Z.to_nat (u16_a body 2) in
    if (length body <? 4 + sig_len)%nat then Some false
    else
      let sig := slice body 4 sig_len in
      let content := cert_verify_content th in
      match X509.pubkey leaf with
      | X509.RsaKey n e =>
          if scheme =? SIG_RSA_PSS_RSAE_SHA256 then Rsa.verify_pss_sha256 (Rsa.new n e) content sig
          else if scheme =? SIG_RSA_PKCS1_SHA256 then Rsa.verify_pkcs1_sha256 (Rsa.new n e) content sig
          else Some false
      | X509.EcP256 point =>
          if scheme =? SIG_ECDSA_P256_SHA256
          then X509.verify_ecdsa_der sig (fun r s => Ec.verify_ecdsa_sha256 point content r s) else Some false
      | X509.EcP384 point =>
          if scheme =? SIG_ECDSA_P384_SHA384
          then X509.verify_ecdsa_der sig (fun r s => Ec.verify_ecdsa_sha384 point content r s) else Some false
      | X509.UnknownKey => Some false
      end.

(** The first common name of the subject, as UTF-8. *)
Definition cn_de (atv : Asn1.Der) : option (list Z) :=
  match Asn1.next (Asn1.children atv) with
  | None => None
  | Some (oid, it) =>
      match Asn1.next it with
      | None => None
      | Some (v, _) =>
          if bool_decide (Asn1.content oid = [0x55; 0x04; 0x03]) then Some (fold_left X509.push_char (Asn1.content v) []) else None
      end
  end.
Definition subject_cn (c : X509.Certificate) : list Z :=
  match Asn1.read (X509.subject c) with
  | None => []
  | Some (name, _) =>
      default [] (list_find is_Some
        (cn_de <$> (Asn1.tous_les (Asn1.children name) ≫= fun rdn => Asn1.tous_les (Asn1.children rdn))) ≫= fun x => x.2)
  end.

(** ** Records from the peer *)

Definition code_alerte (b : list Z) : Z := if (2 <=? length b)%nat then aget b 1 else 0.
(** Each record takes five octets. *)
Fixpoint read_server_hello (tours : nat) (flux : list Z) : (list Z * list Z) + Erreur :=
  match tours with
  | O => inr PasDeServerHello
  | S tours =>
      match read_raw_record flux with
      | None => inr PasDeServerHello
      | Some (hdr, body, flux) =>
          let t := aget hdr 0 in
          if t =? CT_CHANGE_CIPHER_SPEC then read_server_hello tours flux
          else if t =? CT_ALERT then inr (Alerte (code_alerte body))
          else if t =? CT_HANDSHAKE then inl (body, flux)
          else inr RecordAvantServerHello
      end
  end.

(** The octets to come, those of messages not yet read, the keys of the server. *)
Record Conn := mk_conn { flux : list Z; hs_buf : list Z; s_hs : DirKeys }.
(** One record of handshake data more. *)
Fixpoint feed (tours : nat) (c : Conn) : Res Conn :=
  match tours with
  | O => erreur FlightIncomplet
  | S tours =>
      match read_raw_record (flux c) with
      | None => erreur FlightIncomplet
      | Some (hdr, body, reste) =>
          let t := aget hdr 0 in
          if t =? CT_CHANGE_CIPHER_SPEC then feed tours (mk_conn reste (hs_buf c) (s_hs c))
          else if t =? CT_APPLICATION_DATA then
            ('(k, m) <-- pur (decrypt (s_hs c) hdr body);;
             '(inner_type, pt) <-- ou m DechiffrementEchoue;;
             if inner_type =? CT_HANDSHAKE then ok (mk_conn reste (hs_buf c ++ pt) k)
             else if inner_type =? CT_ALERT then erreur (Alerte (code_alerte pt))
             else feed tours (mk_conn reste (hs_buf c) k))
          else if t =? CT_ALERT then erreur (Alerte (code_alerte body))
          else erreur RecordDansLeFlight
      end
  end.
Definition feed_un (c : Conn) : Res Conn := feed (S (length (flux c))) c.
(** [while hs_buf.len() < n { feed(...)?; }] *)
Fixpoint remplit (tours : nat) (n : nat) (c : Conn) : Res Conn :=
  if (length (hs_buf c) <? n)%nat then
    match tours with
    | O => erreur FlightIncomplet
    | S tours => c <-- feed_un c;; remplit tours n c
    end
  else ok c.
Definition remplit_a (n : nat) (c : Conn) : Res Conn := remplit (S (length (flux c))) n c.
(** A whole message, with its header. *)
Definition lit_message (c : Conn) : Res (list Z * Conn) :=
  c <-- remplit_a 4 c;;
  let mlen := Z.to_nat (u24_a (hs_buf c) 1) in
  c <-- remplit_a (4 + mlen) c;;
  ok (take (4 + mlen) (hs_buf c), mk_conn (flux c) (drop (4 + mlen) (hs_buf c)) (s_hs c)).

(** ** The flight of the server *)

Record Etat := mk_etat {
  transcript : list Z; certs_der : list (list Z); leaf : option X509.Certificate;
  th_through_cert : option (list Z); alpn : list Z }.
Definition ajoute (msg : list Z) (st : Etat) : Etat :=
  mk_etat (transcript st ++ msg) (certs_der st) (leaf st) (th_through_cert st) (alpn st).
(** One message; [true] at the end of the flight. *)
Definition traite (s : CipherSuite) (server_hs : list Z) (msg : list Z) (st : Etat) : Res (Etat * bool) :=
  let t := aget msg 0 in
  let body := drop 4 msg in
  if t =? HS_ENCRYPTED_EXTENSIONS then
    ok (ajoute msg (mk_etat (transcript st) (certs_der st) (leaf st) (th_through_cert st) (default (alpn st) (parse_alpn body))), false)
  else if t =? HS_CERTIFICATE then
    let certs := certs_der st ++ parse_certificate_msg body in
    (leaf <-- match certs with [] => ok (leaf st) | d :: _ => pur (X509.parse d) end;;
     let transcript := transcript st ++ msg in
     ok (mk_etat transcript certs leaf (Some (transcript_hash s transcript)) (alpn st), false))
  else if t =? HS_CERTIFICATE_VERIFY then
    (th <-- ou (th_through_cert st) SansCertificate;;
     leaf_ref <-- ou (leaf st) FeuilleManquante;;
     valide <-- pur (verify_cert_verify body leaf_ref th);;
     if (valide : bool) then ok (ajoute msg st, false) else erreur CertificateVerifyInvalide)
  else if t =? HS_FINISHED then
    let expected := finished_verify s server_hs (transcript_hash s (transcript st)) in
    if bool_decide (body = expected) then ok (ajoute msg st, true) else erreur FinishedInvalide
  else ok (ajoute msg st, false).
Fixpoint flight (tours : nat) (s : CipherSuite) (server_hs : list Z) (c : Conn) (st : Etat) : Res (Etat * Conn) :=
  match tours with
  | O => erreur FlightIncomplet
  | S tours =>
      '(msg, c) <-- lit_message c;;
      '(st, fini) <-- traite s server_hs msg st;;
      if (fini : bool) then ok (st, c) else flight tours s server_hs c st
  end.

(** ** The whole handshake *)

Record CertReport := mk_report {
  r_trusted : bool; r_hostname_ok : bool; r_expired : bool; r_detail : Validate.Detail;
  r_subject_cn : list Z; r_suite : CipherSuite; r_group : KxGroup }.
Record Session := mk_session {
  se_flux : list Z; c_ap : DirKeys; s_ap : DirKeys; report : CertReport; se_alpn : list Z }.

(** The key exchange: the pair, the key of the server, the suite, the transcript, what was sent, what is left. *)
Definition echange (hostname random priv1 priv2 flux : list Z) : Res (KeyPair * list Z * CipherSuite * list Z * list (list Z) * list Z) :=
  kp <-- pur (generate X25519Group priv1);;
  let ch := build_client_hello hostname random kp None in
  '(sh1, flux) <-- Some (read_server_hello (S (length flux)) flux);;
  kind <-- Some (parse_server_hello sh1);;
  match kind with
  | Retry cipher g cookie =>
      s <-- ou (from_id cipher) SuiteNonImplementee;;
      new_group <-- ou (group_from_id g) GroupeNonSupporte;;
      let ch1_hash := transcript_hash s ch in
      let l := Z.of_nat (length ch1_hash) in
      kp <-- pur (generate new_group priv2);;
      let ch2 := build_client_hello hostname random kp cookie in
      let t := [254; 0; Z.shiftr l 8 mod 256; l mod 256] ++ ch1_hash ++ sh1 ++ ch2 in
      '(sh2, flux) <-- Some (read_server_hello (S (length flux)) flux);;
      kind <-- Some (parse_server_hello sh2);;
      match kind with
      | Hello g server_pub cipher =>
          if negb (g =? group_id new_group) then erreur GroupeInattendu
          else s <-- ou (from_id cipher) SuiteNonImplementee;; ok (kp, server_pub, s, t ++ sh2, [ch; ch2], flux)
      | Retry _ _ _ => erreur DeuxHrr
      end
  | Hello g server_pub cipher =>
      if negb (g =? group_id (group kp)) then erreur GroupeNonOffert
      else s <-- ou (from_id cipher) SuiteNonImplementee;; ok (kp, server_pub, s, ch ++ sh1, [ch], flux)
  end.
(** The session, the ClientHello messages sent in clear, and the record of the client's Finished. *)
Definition connect (ROOTS_DER : list (list Z)) (now : Z) (hostname random priv1 priv2 entree : list Z) :
    Res (Session * list (list Z) * list Z) :=
  '(kp, server_pub, s, transcript0, envois, reste) <-- echange hostname random priv1 priv2 entree;;
  secret <-- pur (shared kp server_pub);;
  secret <-- ou secret EcdheInvalide;;
  let ks := derive_handshake s secret (transcript_hash s transcript0) in
  let c := mk_conn reste [] (new s (server_hs ks)) in
  '(st, c) <-- flight (S (length reste)) s (server_hs ks) c (mk_etat transcript0 [] None None []);;
  let th_sf := transcript_hash s (transcript st) in
  let '(c_ap_secret, s_ap_secret) := derive_application ks th_sf in
  chain <-- pur (Validate.parse_chain (certs_der st));;
  v <-- pur (Validate.validate ROOTS_DER chain hostname now);;
  let report := mk_report (Validate.trusted v) (Validate.hostname_ok v) (Validate.expired v) (Validate.detail v)
    (match leaf st with Some l => subject_cn l | None => [] end) s (group kp) in
  let fin_msg := handshake_msg HS_FINISHED (finished_verify s (client_hs ks) th_sf) in
  '(_, rec) <-- pur (encrypt (new s (client_hs ks)) CT_HANDSHAKE fin_msg);;
  ok (mk_session (flux c) (new s c_ap_secret) (new s s_ap_secret) report (alpn st), envois, rec).

(** ** The session *)

Definition send_app (se : Session) (data : list Z) : option (Session * list Z) :=
  '(k, rec) ← encrypt (c_ap se) CT_APPLICATION_DATA data;
  Some (mk_session (se_flux se) k (s_ap se) (report se) (se_alpn se), rec).
Definition close (se : Session) : option (Session * list Z) :=
  '(k, rec) ← encrypt (c_ap se) CT_ALERT [1; 0];
  Some (mk_session (se_flux se) k (s_ap se) (report se) (se_alpn se), rec).
End Handshake.
End Poignee.

(** Proofs on the handshake: messages are read the same however the records cut them, what an established
    session guarantees, and what it does not. *)

Module PoigneeProofs.
Import Enregistrement EnregistrementProofs Poignee.
Open Scope Z_scope.
Local Open Scope poignee_scope.

(** ** Records *)

(** A record in front of others is read. *)
Lemma read_raw_record_ok a b c body o : Z.of_nat (length body) < 65536 ->
  read_raw_record ([a; b; c] ++ push_u16 (Z.of_nat (length body)) ++ body ++ o) = Some ([a; b; c] ++ push_u16 (Z.of_nat (length body)), body, o).
Proof.
  intros Hb. set (n := Z.of_nat (length body)). set (hd := [a; b; c] ++ push_u16 n). unfold read_raw_record.
  change ([a; b; c] ++ push_u16 n ++ body ++ o) with (hd ++ body ++ o). change (take 5 (hd ++ body ++ o)) with hd.
  change (nth 3 hd 0) with (n / 256 mod 256). change (nth 4 hd 0) with (n mod 256).
  change (n / 256) with (n / 2 ^ 8). rewrite <- Z.shiftr_div_pow2 by lia. rewrite longueur_lue by lia.
  rewrite !length_app. change (length hd) with 5%nat. rewrite !(proj2 (Nat.ltb_ge _ _)) by lia. cbv zeta.
  change (slice (hd ++ body ++ o) 5 (Z.to_nat n)) with (take (Z.to_nat n) (body ++ o)).
  change (drop (5 + Z.to_nat n) (hd ++ body ++ o)) with (drop (Z.to_nat n) (body ++ o)).
  by rewrite take_app_length', drop_app_length' by lia.
Qed.
Lemma read_raw_record_court o h b o' : read_raw_record o = Some (h, b, o') -> (length o' < length o)%nat.
Proof.
  unfold read_raw_record. destruct (Nat.ltb_spec (length o) 5); [done|]. cbv zeta. destruct (_ <? _)%nat; [done|]. intros [= _ _ <-].
  rewrite length_drop. lia.
Qed.

(** A protected record: its header, and what is decrypted of it. *)
Lemma encrypt_record k t pt : cles_ok k -> Forall octet pt -> 1 <= t < 256 -> seq k + 1 < u64_max -> Z.of_nat (length pt) < 2 ^ 15 ->
  exists k' body, encrypt k t pt = Some (k', [23; 3; 3] ++ push_u16 (Z.of_nat (length body)) ++ body) /\ cles_ok k' /\ seq k' = seq k + 1 /\
    length body = (length pt + 17)%nat /\ decrypt k ([23; 3; 3] ++ push_u16 (Z.of_nat (length body))) body = Some (k', Some (t, pt)).
Proof.
  intros Hk Hp Ht Hs Hl. destruct (encrypt_forme k t pt Hk Hp Ht Hs) as (k' & body & E & Ek & Hb & Hd).
  pose proof (suivant_cles _ _ Ek Hk) as Hk'. unfold suivant in Ek. destruct (_ <=? _); [done|]. injection Ek as <-.
  assert (Z.of_nat (length body) = Z.of_nat (length pt) + 17) as El by lia. rewrite <- El in E, Hd.
  assert (forall n, entete n = [23; 3; 3] ++ push_u16 n) as Ee
    by (intros n; unfold entete, push_u16; by rewrite Z.shiftr_div_pow2 by lia).
  rewrite Ee in E, Hd. eexists _, body. split; [rewrite app_assoc; exact E|]. split_and!; [done|done|lia|exact Hd].
Qed.

(** ** What the server sends *)

(** Octets that carry pieces of data, in protected records, with records [ChangeCipherSpec] between them. *)
Inductive Flux : DirKeys -> list (list Z) -> list Z -> Prop :=
| flux_fin k o : Flux k [] o
| flux_ccs k l o body : Z.of_nat (length body) < 65536 -> Flux k l o ->
    Flux k l ([20; 3; 3] ++ push_u16 (Z.of_nat (length body)) ++ body ++ o)
| flux_record k k' pt r l o : cles_ok k -> Forall octet pt -> seq k + 1 < u64_max -> Z.of_nat (length pt) < 2 ^ 15 ->
    encrypt k CT_HANDSHAKE pt = Some (k', r) -> Flux k' l o -> Flux k (pt :: l) (r ++ o).

Lemma feed_flux k pt l o buf : Flux k (pt :: l) o -> forall tours, (length o < tours)%nat ->
  exists k' o', feed tours (mk_conn o buf k) = ok (mk_conn o' (buf ++ pt) k') /\ Flux k' l o' /\ (length o' < length o)%nat.
Proof.
  remember (pt :: l) as l0 eqn:El. intros H. induction H as [k o|k l0 o body Hb H IH|k k' pt' r l' o Hk Hp Hs Hl E H IH]; [done| |]; intros tours Ht.
  - destruct tours as [|tours]; [lia|]. cbn [feed flux hs_buf s_hs]. rewrite read_raw_record_ok by lia.
    change (aget ([20; 3; 3] ++ push_u16 (Z.of_nat (length body))) 0 =? CT_CHANGE_CIPHER_SPEC) with true. cbv iota zeta.
    rewrite !length_app in Ht. cbn [length] in Ht. destruct (IH El tours ltac:(lia)) as (k' & o' & E & H' & Hl). exists k', o'.
    split; [exact E|]. split; [done|]. rewrite !length_app. lia.
  - injection El as -> ->. destruct tours as [|tours]; [lia|]. cbn [feed flux hs_buf s_hs].
    destruct (encrypt_record k CT_HANDSHAKE pt Hk Hp ltac:(unfold CT_HANDSHAKE; lia) Hs Hl) as (k2 & body & E2 & _ & _ & Hb & Ed).
    assert (k' = k2 /\ r = [23; 3; 3] ++ push_u16 (Z.of_nat (length body)) ++ body) as [-> ->] by (split; congruence). clear E E2.
    rewrite <- !app_assoc, read_raw_record_ok by lia.
    change (aget ([23; 3; 3] ++ push_u16 (Z.of_nat (length body))) 0) with 23.
    change (23 =? CT_CHANGE_CIPHER_SPEC) with false. change (23 =? CT_APPLICATION_DATA) with true. cbv iota zeta.
    rewrite Ed. cbn [pur ensuite ok ou]. change (CT_HANDSHAKE =? CT_HANDSHAKE) with true. cbv iota.
    exists k2, o. split; [done|]. split; [done|]. rewrite !length_app. cbn [length]. lia.
Qed.
Lemma remplit_flux n tours : forall k l o buf, Flux k l o -> (n <= length (buf ++ concat l))%nat -> (length o < tours)%nat ->
  exists k' l' o' buf', remplit tours n (mk_conn o buf k) = ok (mk_conn o' buf' k') /\ Flux k' l' o' /\
    buf' ++ concat l' = buf ++ concat l /\ (n <= length buf')%nat /\ (length o' <= length o)%nat.
Proof.
  induction tours as [|tours IH]; intros k l o buf H Hn Ht; [lia|]. cbn [remplit hs_buf].
  destruct (Nat.ltb_spec (length buf) n) as [Hlt|Hge]; [|exists k, l, o, buf; split_and!; (done || lia)].
  destruct l as [|pt l]; [cbn [concat] in Hn; rewrite app_nil_r in Hn; lia|]. unfold feed_un. cbn [flux].
  destruct (feed_flux k pt l o buf H (S (length o)) ltac:(lia)) as (k1 & o1 & -> & H1 & Hl1). cbn [ensuite ok].
  destruct (IH k1 l o1 (buf ++ pt) H1) as (k' & l' & o' & buf' & E & H' & Eb & Hn' & Hl'); [by rewrite <- app_assoc|lia|].
  exists k', l', o', buf'. split; [exact E|]. split; [done|]. cbn [concat]. rewrite app_assoc. split; [done|]. split; [done|lia].
Qed.

(** ** Messages, as if there were no record *)

Definition lit_clair (plain : list Z) : option (list Z * list Z) :=
  if (length plain <? 4)%nat then None
  else
    let n := (4 + Z.to_nat (u24_a plain 1))%nat in
    if (length plain <? n)%nat then None else Some (take n plain, drop n plain).
Lemma u24_prefixe l l' : (4 <= length l)%nat -> u24_a (l ++ l') 1 = u24_a l 1.
Proof. intros H. unfold u24_a, aget. by rewrite !lookup_app_l by lia. Qed.
Lemma lit_message_flux k l o buf msg reste : Flux k l o -> lit_clair (buf ++ concat l) = Some (msg, reste) ->
  exists k' l' o' buf', lit_message (mk_conn o buf k) = ok (msg, mk_conn o' buf' k') /\ Flux k' l' o' /\ buf' ++ concat l' = reste.
Proof.
  intros H E. unfold lit_clair in E. destruct (Nat.ltb_spec (length (buf ++ concat l)) 4) as [|H4]; [done|]. cbv zeta in E.
  destruct (Nat.ltb_spec (length (buf ++ concat l)) (4 + Z.to_nat (u24_a (buf ++ concat l) 1))) as [|Hn]; [done|]. injection E as <- <-.
  unfold lit_message, remplit_a. cbn [flux].
  destruct (remplit_flux 4 (S (length o)) k l o buf H H4 ltac:(lia)) as (k1 & l1 & o1 & b1 & -> & H1 & E1 & L1 & _). cbn [ensuite ok hs_buf flux].
  cbv zeta. rewrite <- E1 in Hn. rewrite <- E1, u24_prefixe in * by done. set (n := (4 + Z.to_nat (u24_a b1 1))%nat) in *.
  destruct (remplit_flux n (S (length o1)) k1 l1 o1 b1 H1 Hn ltac:(lia)) as (k2 & l2 & o2 & b2 & -> & H2 & E2 & L2 & _). cbn [ensuite ok hs_buf flux s_hs].
  rewrite <- E2. rewrite take_app_le, drop_app_le by done. exists k2, l2, o2, (drop n b2). by split_and!.
Qed.

(** The messages one after the other, up to the one that ends the flight. *)
Inductive deroule (utf8 : list Z -> bool) (s : CipherSuite) (hs : list Z) : Etat -> list (list Z) -> Etat -> Prop :=
| deroule_fin st msg st' : traite utf8 s hs msg st = ok (st', true) -> deroule utf8 s hs st [msg] st'
| deroule_suite st msg st1 ms st' : traite utf8 s hs msg st = ok (st1, false) -> deroule utf8 s hs st1 ms st' -> deroule utf8 s hs st (msg :: ms) st'.

(** A message as the protocol writes it. *)
Definition message (m : list Z) : Prop := exists t body, m = handshake_msg t body /\ Z.of_nat (length body) < 2 ^ 24.
Lemma lit_clair_message m suite : message m -> lit_clair (m ++ suite) = Some (m, suite).
Proof.
  intros (t & body & -> & Hb). unfold handshake_msg. cbv zeta. set (l := Z.of_nat (length body)) in *.
  set (m := [t; Z.shiftr l 16 mod 256; Z.shiftr l 8 mod 256; l mod 256] ++ body).
  assert (u24_a (m ++ suite) 1 = l) as E.
  { unfold u24_a. change (aget (m ++ suite) (Z.of_nat 1)) with (Z.shiftr l 16 mod 256). change (aget (m ++ suite) (Z.of_nat 1 + 1)) with (Z.shiftr l 8 mod 256).
    change (aget (m ++ suite) (Z.of_nat 1 + 2)) with (l mod 256). rewrite !Z.shiftr_div_pow2, !Z.shiftl_mul_pow2 by lia.
    assert (0 <= l) by (unfold l; lia). pose proof (Z.mod_pos_bound (l / 2 ^ 8) 256 ltac:(lia)). pose proof (Z.mod_pos_bound l 256 ltac:(lia)).
    rewrite (lor_disjoint 16) by lia. replace (l / 2 ^ 16 mod 256 * 2 ^ 16 + l / 2 ^ 8 mod 256 * 2 ^ 8) with ((l / 2 ^ 16 mod 256 * 256 + l / 2 ^ 8 mod 256) * 2 ^ 8) by ring.
    rewrite (lor_disjoint 8) by lia. Z.to_euclidean_division_equations. lia. }
  assert (length m = (4 + length body)%nat) as Hl by reflexivity. unfold lit_clair.
  destruct (Nat.ltb_spec (length (m ++ suite)) 4); [rewrite length_app in *; lia|]. cbv zeta. rewrite E. unfold l. rewrite Nat2Z.id.
  destruct (Nat.ltb_spec (length (m ++ suite)) (4 + length body)); [rewrite length_app in *; lia|].
  rewrite take_app_length', drop_app_length' by done. done.
Qed.

Section Deroulement.
Context (utf8 : list Z -> bool) (s : CipherSuite) (hs : list Z).
Abbreviation deroule := (deroule utf8 s hs).

Lemma flight_flux st ms st' : deroule st ms st' -> Forall message ms ->
  forall tours k l o buf reste, Flux k l o -> buf ++ concat l = concat ms ++ reste -> (length ms <= tours)%nat ->
  exists k' l' o' buf', flight utf8 tours s hs (mk_conn o buf k) st = ok (st', mk_conn o' buf' k') /\ Flux k' l' o' /\ buf' ++ concat l' = reste.
Proof.
  induction 1 as [st msg st' E|st msg st1 ms st' E H IH]; intros Hm tours k l o buf reste Hf Hb Ht; apply Forall_cons in Hm as [Hm1 Hm];
    (destruct tours as [|tours]; [cbn in Ht; lia|]); cbn [flight]; cbn [concat] in Hb; rewrite <- app_assoc in Hb.
  - destruct (lit_message_flux k l o buf msg reste Hf) as (k1 & l1 & o1 & b1 & -> & H1 & E1).
    { rewrite Hb. by apply lit_clair_message. }
    cbn [ensuite ok]. rewrite E. cbn [ensuite ok]. exists k1, l1, o1, b1. by split_and!.
  - destruct (lit_message_flux k l o buf msg (concat ms ++ reste) Hf) as (k1 & l1 & o1 & b1 & -> & H1 & E1).
    { rewrite Hb. by apply lit_clair_message. }
    cbn [ensuite ok]. rewrite E. cbn [ensuite ok]. apply (IH Hm tours k1 l1 o1 b1 reste H1 E1). cbn in Ht. lia.
Qed.

(** Conversely, a flight that ends went through messages. *)
Lemma flight_deroule tours : forall c st st' c', flight utf8 tours s hs c st = ok (st', c') -> exists ms, deroule st ms st'.
Proof.
  induction tours as [|tours IH]; intros c st st' c' E; cbn [flight] in E; [done|].
  destruct (lit_message c) as [[[msg c1]|e]|]; [|done|done]. cbn [ensuite] in E.
  destruct (traite utf8 s hs msg st) as [[[st1 fini]|e]|] eqn:Et; [|done|done]. cbn [ensuite] in E. destruct fini.
  - injection E as <- <-. exists [msg]. by constructor.
  - destruct (IH _ _ _ _ E) as (ms & H). exists (msg :: ms). by econstructor.
Qed.

(** What each message does to the transcript and to the certificates. *)
Lemma traite_etat msg st st1 b : traite utf8 s hs msg st = ok (st1, b) ->
  transcript st1 = transcript st ++ msg /\
  certs_der st1 = certs_der st ++ (if aget msg 0 =? HS_CERTIFICATE then parse_certificate_msg (drop 4 msg) else []) /\
  (if aget msg 0 =? HS_CERTIFICATE then th_through_cert st1 = Some (transcript_hash s (transcript st1)) else th_through_cert st1 = th_through_cert st) /\
  (b = true <-> aget msg 0 = HS_FINISHED) /\
  (b = true -> drop 4 msg = finished_verify s hs (transcript_hash s (transcript st))).
Proof.
  unfold traite. cbv zeta. destruct (Z.eqb_spec (aget msg 0) HS_ENCRYPTED_EXTENSIONS) as [->|].
  { intros [= <- <-]. cbn [ajoute transcript certs_der th_through_cert]. change (HS_ENCRYPTED_EXTENSIONS =? HS_CERTIFICATE) with false.
    by rewrite app_nil_r. }
  destruct (Z.eqb_spec (aget msg 0) HS_CERTIFICATE) as [->|].
  { destruct (match certs_der st ++ _ with [] => _ | _ => _ end) as [[l|e]|]; [|done|done]. cbn [ensuite]. intros [= <- <-].
    cbn [transcript certs_der th_through_cert]. done. }
  destruct (Z.eqb_spec (aget msg 0) HS_CERTIFICATE_VERIFY) as [->|].
  { destruct (th_through_cert st) as [th|] eqn:Eth; [|done]. destruct (leaf st) as [lf|]; [|done]. cbn [ou ok ensuite].
    destruct (verify_cert_verify _ _ _) as [[|]|]; [|done|done]. cbn [pur ok ensuite]. intros [= <- <-].
    cbn [ajoute transcript certs_der th_through_cert]. by rewrite app_nil_r. }
  destruct (Z.eqb_spec (aget msg 0) HS_FINISHED) as [->|].
  { destruct (bool_decide_reflect (drop 4 msg = finished_verify s hs (transcript_hash s (transcript st)))) as [E|]; [|done]. intros [= <- <-].
    cbn [ajoute transcript certs_der th_through_cert]. by rewrite app_nil_r. }
  intros [= <- <-]. cbn [ajoute transcript certs_der th_through_cert]. by rewrite app_nil_r.
Qed.

(** The certificate the flight is judged on is the first one. *)
Definition feuille_ok (st : Etat) : Prop :=
  match certs_der st with [] => leaf st = None | d :: _ => X509.parse d = Some (leaf st) end.
Lemma traite_feuille msg st st1 b : traite utf8 s hs msg st = ok (st1, b) -> feuille_ok st -> feuille_ok st1.
Proof.
  unfold traite. cbv zeta. destruct (_ =? _); [by intros [= <- <-]|]. destruct (_ =? _).
  { unfold feuille_ok. intros E H. destruct (certs_der st ++ parse_certificate_msg (drop 4 msg)) as [|d l] eqn:Ec.
    - cbn [ensuite ok] in E. injection E as <- <-. cbn [certs_der leaf th_through_cert]. apply app_eq_nil in Ec as [Ec _]. by rewrite Ec in H.
    - destruct (X509.parse d) as [c|] eqn:Ep; [|done]. cbn [pur ensuite ok] in E. injection E as <- <-. by cbn [certs_der leaf]. }
  destruct (_ =? _).
  { destruct (th_through_cert st); [|done]. destruct (leaf st) eqn:El; [|done]. cbn [ou ok ensuite].
    destruct (verify_cert_verify _ _ _) as [[|]|]; [|done|done]. cbn [pur ok ensuite]. by intros [= <- <-]. }
  destruct (_ =? _); [|by intros [= <- <-]]. destruct (bool_decide _); [|done]. by intros [= <- <-].
Qed.

(** The transcript up to the last message Certificate of [ms], from the transcript [t]. *)
Fixpoint jusqu_au_certificat (t : list Z) (ms : list (list Z)) (acc : option (list Z)) : option (list Z) :=
  match ms with
  | [] => acc
  | m :: ms => jusqu_au_certificat (t ++ m) ms (if aget m 0 =? HS_CERTIFICATE then Some (t ++ m) else acc)
  end.
Definition certificats_lus (ms : list (list Z)) : list (list Z) :=
  concat ((fun m => if aget m 0 =? HS_CERTIFICATE then parse_certificate_msg (drop 4 m) else []) <$> ms).
(** A message CertificateVerify after the messages [avant]: the first certificate verifies its signature. *)
Definition preuve (t0 : list Z) (avant : list (list Z)) (msg : list Z) : Prop :=
  exists d reste c tc, certificats_lus avant = d :: reste /\ X509.parse d = Some (Some c) /\
    jusqu_au_certificat t0 avant None = Some tc /\
    verify_cert_verify (drop 4 msg) c (transcript_hash s tc) = Some true.

(** The state after the messages [avant]. *)
Definition apres (t0 : list Z) (avant : list (list Z)) (st : Etat) : Prop :=
  transcript st = t0 ++ concat avant /\ certs_der st = certificats_lus avant /\
  th_through_cert st = transcript_hash s <$> jusqu_au_certificat t0 avant None /\ feuille_ok st.
Lemma jusqu_snoc ms m : forall t acc, jusqu_au_certificat t (ms ++ [m]) acc =
  if aget m 0 =? HS_CERTIFICATE then Some (t ++ concat ms ++ m) else jusqu_au_certificat t ms acc.
Proof.
  induction ms as [|x ms IH]; intros t acc; cbn [app jusqu_au_certificat concat]; [by destruct (_ =? _)|]. rewrite IH. by rewrite <- !app_assoc.
Qed.
Lemma apres_traite t0 avant st msg st1 b : traite utf8 s hs msg st = ok (st1, b) -> apres t0 avant st -> apres t0 (avant ++ [msg]) st1.
Proof.
  intros E (Ht & Hc & Hth & Hf). destruct (traite_etat msg st st1 b E) as (E1 & E2 & E3 & _).
  pose proof (traite_feuille msg st st1 b E Hf) as Hf1.
  assert (transcript st1 = t0 ++ concat (avant ++ [msg])) as Ht1.
  { rewrite E1, Ht, concat_app. cbn [concat]. by rewrite app_nil_r, app_assoc. }
  unfold apres. split; [exact Ht1|]. split; [|split; [|exact Hf1]].
  - rewrite E2, Hc. unfold certificats_lus. rewrite fmap_app, concat_app. cbn [fmap list_fmap concat]. by rewrite app_nil_r.
  - rewrite jusqu_snoc. destruct (_ =? _); rewrite E3; [|exact Hth]. cbn [fmap option_fmap option_map]. rewrite Ht1, concat_app. cbn [concat]. by rewrite app_nil_r.
Qed.
Lemma preuve_traite t0 avant st msg st1 b : traite utf8 s hs msg st = ok (st1, b) -> apres t0 avant st ->
  aget msg 0 = HS_CERTIFICATE_VERIFY -> preuve t0 avant msg.
Proof.
  intros E (_ & Hc & Hth & Hf) Em. unfold traite in E. cbv zeta in E. rewrite Em in E.
  change (HS_CERTIFICATE_VERIFY =? HS_ENCRYPTED_EXTENSIONS) with false in E. change (HS_CERTIFICATE_VERIFY =? HS_CERTIFICATE) with false in E.
  change (HS_CERTIFICATE_VERIFY =? HS_CERTIFICATE_VERIFY) with true in E. cbv iota in E.
  destruct (th_through_cert st) as [th|]; [|done]. destruct (leaf st) as [c|] eqn:El; [|done]. cbn [ou ok ensuite] in E.
  destruct (verify_cert_verify _ _ _) as [[|]|] eqn:Ev; [|done|done]. clear E. destruct (jusqu_au_certificat t0 avant None) as [tc|] eqn:Ej; [|done].
  injection Hth as ->. unfold feuille_ok in Hf. rewrite Hc, El in Hf. unfold preuve. destruct (certificats_lus avant) as [|d reste]; [done|].
  exists d, reste, c, tc. by split_and!.
Qed.

(** A flight that ends: its last message is a Finished under the key of the server, and each CertificateVerify is a proof. *)
Lemma deroule_prouve st ms st' : deroule st ms st' -> forall t0 avant, apres t0 avant st ->
  exists ms1 fin, ms = ms1 ++ [fin] /\ apres t0 (avant ++ ms) st' /\ aget fin 0 = HS_FINISHED /\
    drop 4 fin = finished_verify s hs (transcript_hash s (t0 ++ concat (avant ++ ms1))) /\
    (forall i msg, ms1 !! i = Some msg -> aget msg 0 <> HS_FINISHED /\
       (aget msg 0 = HS_CERTIFICATE_VERIFY -> preuve t0 (avant ++ take i ms1) msg)).
Proof.
  induction 1 as [st msg st' E|st msg st1 ms st' E H IH]; intros t0 avant Ha.
  - destruct (traite_etat msg st st' true E) as (_ & _ & _ & Eb & Ef). exists [], msg. split; [done|].
    split; [by eapply apres_traite|]. split; [by apply Eb|]. rewrite app_nil_r. destruct Ha as (Ht & _). rewrite <- Ht. split; [by apply Ef|done].
  - destruct (traite_etat msg st st1 false E) as (_ & _ & _ & Eb & _).
    destruct (IH t0 (avant ++ [msg])) as (ms1 & fin & -> & H1 & H2 & H3 & H4); [by eapply apres_traite|]. exists (msg :: ms1), fin. split; [done|].
    rewrite <- !app_assoc in *. split; [exact H1|]. split; [exact H2|]. split; [exact H3|]. intros [|i] m Hi; cbn [lookup list_lookup take] in *.
    + injection Hi as <-. split; [intros Em; by apply Eb in Em|]. rewrite app_nil_r. by eapply preuve_traite.
    + destruct (H4 i m Hi) as [H5 H6]. split; [done|]. intros Em. specialize (H6 Em). by rewrite <- app_assoc in H6.
Qed.
End Deroulement.

Lemma flux_longueur k l o : Flux k l o -> (length (concat l) <= length o)%nat.
Proof.
  induction 1 as [k o|k l o body Hb H IH|k k' pt r l o Hk Hp Hs Hl E H IH]; cbn [concat]; rewrite ?length_app; [cbn; lia|lia|].
  destruct (encrypt_record k CT_HANDSHAKE pt Hk Hp ltac:(unfold CT_HANDSHAKE; lia) Hs Hl) as (k2 & body & E2 & _ & _ & Hb & _).
  assert (r = [23; 3; 3] ++ push_u16 (Z.of_nat (length body)) ++ body) as -> by congruence. rewrite !length_app. lia.
Qed.

(** ** Properties *)

Lemma messages_court ms : Forall message ms -> (length ms <= length (concat ms))%nat.
Proof.
  induction 1 as [|m ms (t & body & -> & _) _ IH]; [done|]. cbn [concat length]. rewrite length_app.
  unfold handshake_msg. cbv zeta. rewrite length_app. cbn [length]. lia.
Qed.

(** The flight of the server does not depend on how the records cut it: whatever the pieces of handshake data and the records
    ChangeCipherSpec between them, the messages are processed one after the other, and what follows them is left to be read. *)
Theorem poignee_par_fragments utf8 s hs st ms st' k l o reste :
  deroule utf8 s hs st ms st' -> Forall message ms -> Flux k l o -> concat l = concat ms ++ reste ->
  exists k' l' o' buf', flight utf8 (S (length o)) s hs (mk_conn o [] k) st = ok (st', mk_conn o' buf' k') /\
    Flux k' l' o' /\ buf' ++ concat l' = reste.
Proof.
  intros Hd Hm Hf E. apply (flight_flux utf8 s hs st ms st' Hd Hm _ _ l); [done|by rewrite E|].
  pose proof (flux_longueur k l o Hf) as H1. rewrite E, length_app in H1. pose proof (messages_court ms Hm). lia.
Qed.

(** What a session rests on: the keys come from the exchange and from the transcript; the messages of the server end with a
    Finished under the key of the exchange, over all the messages before it; each CertificateVerify is verified by the key of the
    first certificate, over the transcript up to the last Certificate; the verdict is the one of the chain that was sent. *)
Theorem session_prouvee utf8 roots now hostname random p1 p2 entree se envois rec :
  connect utf8 roots now hostname random p1 p2 entree = ok (se, envois, rec) ->
  exists kp server_pub s t0 reste secret ms fin chain v,
    echange hostname random p1 p2 entree = ok (kp, server_pub, s, t0, envois, reste) /\
    shared kp server_pub = Some (Some secret) /\
    let ks := derive_handshake s secret (transcript_hash s t0) in
    let transcript := t0 ++ concat (ms ++ [fin]) in
    aget fin 0 = HS_FINISHED /\
    drop 4 fin = finished_verify s (server_hs ks) (transcript_hash s (t0 ++ concat ms)) /\
    (forall i msg, ms !! i = Some msg -> aget msg 0 <> HS_FINISHED /\
       (aget msg 0 = HS_CERTIFICATE_VERIFY -> preuve s t0 (take i ms) msg)) /\
    (c_ap se, s_ap se) = prod_map (new s) (new s) (derive_application ks (transcript_hash s transcript)) /\
    Validate.parse_chain (certificats_lus (ms ++ [fin])) = Some chain /\
    Validate.validate roots chain hostname now = Some v /\
    r_trusted (report se) = Validate.trusted v /\ r_hostname_ok (report se) = Validate.hostname_ok v.
Proof.
  intros E. unfold connect in E.
  destruct (echange hostname random p1 p2 entree) as [[[[[[[kp server_pub] s] t0] sent] reste]|e]|]; [|done|done]. cbn [ensuite] in E.
  destruct (shared kp server_pub) as [[secret|]|] eqn:Es; [|done|done]. cbn [pur ou ok ensuite] in E. cbv zeta in E.
  set (ks := derive_handshake s secret (transcript_hash s t0)) in *.
  destruct (flight _ _ s (server_hs ks) _ _) as [[[st c]|e]|] eqn:Ef; [|done|done]. cbn [ensuite] in E.
  destruct (derive_application ks _) as [c_sec s_sec] eqn:Ed.
  destruct (Validate.parse_chain (certs_der st)) as [chain|] eqn:Ec; [|done]. cbn [pur ok ensuite] in E.
  destruct (Validate.validate roots chain hostname now) as [v|] eqn:Ev; [|done]. cbn [pur ok ensuite] in E.
  destruct (encrypt _ _ _) as [[k r]|]; [|done]. cbn [pur ok ensuite] in E. injection E as <- <- <-.
  apply flight_deroule in Ef as [ms Hd].
  destruct (deroule_prouve utf8 s (server_hs ks) _ _ _ Hd t0 []) as (ms1 & fin & -> & (Ht & Hc & _) & H1 & H2 & H3).
  { unfold apres. cbn [transcript certs_der th_through_cert concat]. by rewrite app_nil_r. }
  cbn [app] in *. rewrite Ht in Ed. rewrite Hc in Ec.
  exists kp, server_pub, s, t0, reste, secret, ms1, fin, chain, v. cbv zeta. fold ks. rewrite Ed.
  by split_and!.
Qed.

(** A server that sends a certificate and no CertificateVerify is accepted: nothing ties the certificate to the keys, and the
    session is the one of the certificate sent. *)
Theorem sans_certificate_verify utf8 s hs t0 body d reste c :
  parse_certificate_msg body = d :: reste -> X509.parse d = Some (Some c) ->
  let cert := handshake_msg HS_CERTIFICATE body in
  let fin := handshake_msg HS_FINISHED (finished_verify s hs (transcript_hash s (t0 ++ cert))) in
  exists st', deroule utf8 s hs (mk_etat t0 [] None None []) [cert; fin] st' /\ leaf st' = Some c /\ certs_der st' = d :: reste.
Proof.
  intros Hp Hc cert fin. eexists. split; [|].
  - eapply deroule_suite; [|apply deroule_fin].
    + unfold traite. change (aget cert 0) with HS_CERTIFICATE. change (drop 4 cert) with body. cbn.
      rewrite Hp. cbn. rewrite Hc. reflexivity.
    + unfold traite. change (aget fin 0) with HS_FINISHED.
      change (drop 4 fin) with (finished_verify s hs (transcript_hash s (t0 ++ cert))). cbn.
      rewrite bool_decide_eq_true_2 by done. reflexivity.
  - done.
Qed.
End PoigneeProofs.
